(* ===== verification/_CoqProject ===== *)
-Q . S2P
Prelude.v
Core.v
Traps.v
Messages.v
DataPipes.v
Buffers.v
Api.v
Thunk.v
Lexer.v
CoreInv.v
TrapsInv.v
KernelInv.v
TransferInv.v
PipeSpec.v
DataSpec.v
KernelProps.v
TrapProps.v
BufferProps.v
ThunkProps.v
LexProps.v
Ast.v
TypeIntern.v
TypeProps.v
Codec.v
Message.v
MessageProps.v
Invitation.v
InvitationProps.v
Scan.v
Embed.v
Parser.v
ParseDecl.v
EmbedProps.v
ParseSafe.v
ParseTotal.v
EnableIf.v
Loader.v
PathProps.v
LoaderProps.v
Sandbox.v
SandboxProps.v
Tables.v
TableProps.v
RuntimeTypes.v
RuntimeTypesProps.v
BindMessage.v
BindMessageProps.v
GcSpace.v
GcSpaceProps.v
Job.v
GcHeap.v
GcMark.v
GcLayout.v
GcSweep.v
GcSweepHeap.v
GcCollect.v
GcProps.v
GcAlloc.v
GcDestroy.v
GcSteps.v
GcClaims.v
GenNames.v
GenOrderProps.v
GenCode.v
GenIO.v
GenText.v
GenIface.v
GenSem.v
GenCall.v
Router.v
GenRun.v
GenWire.v
GenTotal.v
GenWriteProps.v
GenReadProps.v
GenSafe.v
RouterProps.v
GenClaims.v
GenCallProps.v
GenCallClaims.v
