(* ===== verification/Prelude.v ===== *)
(** * Verification of the voodoo stack

    Voodoo is a stack of libraries under [src/]: an interface compiler for
    [.voodoom] files ([src/src]), a small kernel of Mojo-like objects
    ([WASMHolePunch]), the Mojo C functions over that kernel ([WASMThunker]), and
    C++ bindings above them ([WASMCadidumKernel], [WASMCadidumBindings], ...).
    This library models the kernel as a whole, the C entry points, the message
    wrapper and wire format of the kernel's own bindings, the compiler's front end and
    C++ generator with what its output does, the connector and router that messages
    pass, the sandbox, and the collected heap, and proves what makes each of them
    correct, or where it is not.

    ** The kernel: [WASMHolePunch/src/system/core.cc]

    All objects live in one handle table under one lock.  [Core] (file [Core])
    is that state: slots and free list, the shared pipe, data-pipe and buffer
    states (which C++ reaches by [shared_ptr]: here by an id into a map), the
    armed traps, the pending events and a log of the native handles closed.
    Every [Whp*] function is a computation in the monad [M Core] of this file,
    in which [None] is undefined behaviour (a bad cast, a dangling pointer, an
    index out of range) and [wp m Q c] says that there is none and that result
    and final state satisfy [Q].

    - [Core]: the data model, [Alloc], [Lookup], [Free], the signals of a handle.
    - [Traps]: [CollectTrapEvents] and the trap functions.
    - [Messages]: messages, message pipes, quotas, fusing.
    - [DataPipes]: ring buffers, one-shot and two-phase transfers.
    - [Buffers]: shared buffers, mappings, platform handles, regions.
    - [Api]: closing; the functions that release the lock to call back into
      the client (serializers, destructors, trap handlers), which are any
      behaviour made of further kernel calls ([ClientOk]); and [core_step], one
      locked section as a transition, so that [reachable] covers every
      interleaving of threads.

    [CoreInv], [TrapsInv], [KernelInv] and [TransferInv] prove the
    invariant [wf] for every locked section and entry point.  [PipeSpec] and
    [DataSpec] give each transfer its functional description.  The properties
    are in [KernelProps] (safety of all interleavings, handles, FIFO and quota of
    message pipes, fusing, closing; FIFO of the ring buffer of a data pipe, outcomes
    of transfers, two-phase writes and how they break the capacity), [TrapProps]
    (delivery, arming, and two lost or dropped events) and [BufferProps]
    (reference counting, mapping bounds, ownership of native handles, payloads).

    ** The Mojo C functions: [WASMThunker/src/thunk.cc]

    [Thunk] models every entry point over the kernel, with the registry of
    invitations; [ThunkProps] proves that an invitation connects two sides, that
    closing it closes what it holds, and two resource errors.

    ** Messages on the wire: [WASMHolePunch/include/whp], [src/bindings]

    - [Codec]: [codec.h] over an explicit buffer of bytes at an address; a load
      or store outside it is undefined behaviour; pointers and
      strings survive encoding, and only the string's own bytes change.
    - [Message]: class [Message] over the kernel's message objects and
      [MessageHeaderValidator].  [MessageProps]: what a new message contains, an
      exact description of what the validator accepts, and two ways in which it
      lets a peer's message reach outside its own bytes.
    - [Invitation]: [platform/invitation.cc], a message pipe bridged over a
      connected datagram path: frames, handshake, the loops between pipe and
      path.  [InvitationProps]: what one side queued is what the other side's
      pipe holds afterwards, in order.

    ** The compiler: [src/src]

    - [Lexer]: [Tokenize] of [lexer.cc].  [LexProps]: it is total, what its
      tokens are and where they sit, and that printed tokens scan back.
    - [Ast]: the IR of [ast.h].  [TypeIntern]: [type_intern.cc].  [TypeProps]: ids
      are canonical: types that a structural walk ([structure]) finds equal share one,
      and types that share one are equal as far as their names tell them apart
      ([told_apart]: nested structs of one name are not); method keys likewise.
    - [parser.cc] is in five files.  [Scan]: what parsing can throw, number
      literals, and the scans [CollectDeclaredNames] and [CollectEnumValues].
      [Parser]: [Parser::Impl] as a state (the tokens left and the members,
      [Env]), the monad [P] over it, the token primitives, attributes, name
      resolution and types.  [ParseDecl]: default values, declarations,
      [SeedFromPrelude], [ParseHeader], [ParseBody].  [Embed]:
      [CheckCompleteTypeAcyclic].  [EnableIf]: [ApplyEnableIf], and what the
      flags leave of a module.
    - [EmbedProps]: the check for cycles accepts exactly the modules in which no class
      holds itself by value (optional members do not count, for the code as here).
      [ParseSafe]: the tags that untagged union members get; a program logic ([pwp],
      [step]) and with it every function of the parser; [ParseTotal]: on the tokens of
      any source the parser ends, safely, and what it returns is well formed and free
      of cycles.
    - [Loader]: [module_loader.cc] over any [read_file]: paths, the search for
      imports, [LoadFileInto] with its state ([LoadState]).  [PathProps]: normal
      forms of paths are canonical.  [LoaderProps]: a load ends; its graph holds
      every file once, after its imports, each parsed in view of the files
      before it, and its imports are the first readable candidates.

    ** The C++ generator: [src/src/cpp_generator.cc]

    - [GenNames]: typemaps, mangled names, namespaces, the C++ spelling of types, the
      order of fields on the wire, [BuildHandleCtx], [SortEmbeds].
      [GenOrderProps]: every class comes after those it holds by value (again
      without optional members).  [GenTotal]: [BuildHandleCtx] finds exactly the classes
      of the module that can hold handles, and generation never fails.
    - [GenCode]: the statements of emitted functions and their text.  [GenIO]: the
      functions that emit what writes and reads a struct, a union or an enum, as the
      statements that they emit, and [GenerateProgram], all of them for a module.
    - [GenSem]: what the emitted statements do to a message: objects, locals, the
      primitives of [wire_primitives.h] and handles.  [GenRun]: equations for running
      them.
    - [GenWire]: the wire format as a relation between a value and its bytes and
      handles, [Repr], and as a reference encoder, [encode].  [GenWriteProps]: emitted
      writers produce it.  [GenReadProps]: emitted readers accept it.  [GenSafe]: on
      any bytes emitted readers end, inside the message.  [GenClaims]: what follows
      for a source; messages that get past its readers, and one of its writers that they
      refuse.
    - [GenText]: literals, constants, class definitions, namespaces, the JavaScript and
      GN outputs.  [GenIface]: the statements for parameters of methods, proxies and
      stubs, and [GenerateCppHeader]; its text for the sources of the two headers
      [frame_android_webview.h] and [frame_extensions.h] that are kept under
      [src/Bruja/test] is theirs.
    - [GenCall]: what proxies and stubs do with messages, and [ResponseDispatcher].
      [GenCallProps], [GenCallClaims]: a call whose arguments can be encoded arrives as
      it was made, its response reaches its callback once, a stub is safe on any message, and the header is
      there for every source.

    ** Connector and router: [WASMCadidumBindings/src]

    - [Router]: [connector.cc], [lib/multiplex_router.cc] and [associated_group.cc]: a
      pipe, the endpoints of the interfaces that share it, their queues, handlers, ids
      and handle counts, for clients of any behaviour, which may call back.
      [RouterProps]: for clients that do not call back, what an interface's clients are
      given, what waits and what is in the pipe are what the peer has written, in its
      order, each message goes to the client attached to its interface, and endpoints live as long as handles, clients or messages need them; ids;
      what clients that call back can break.

    ** The sandbox: [WASMSafeSpace/src/sandbox], [WASMCadidumBindings/src/lib]

    - [Sandbox]: the cage, its allocator, sandboxed pointers, the current cage and
      [CageAllocator].  [SandboxProps]: regions in use stay inside and apart,
      refusals are justified, freed space comes back ([cage_inv]); a size for
      which the allocator's check wraps; where sandboxed pointers can point.
    - [Tables]: tagged words ([TaggedPayload]), [ExternalEntityTable] over the
      interface [Entry], and the trusted, external, indirect, C++ heap and code
      pointer tables.  [TableProps]: the base against [EntryLaws]; each table as a
      map from handles ([table_rel]), which its operations refine; no forged
      pointers; what a stale handle resolves to.
    - [RuntimeTypes]: [type_intern.cc] of the bindings over cage and tables.
      [RuntimeTypesProps]: types are canonical, objects keep their type, and the
      unbounded tag counter that breaks this.

    - [BindMessage]: [message.cc], the wire primitives and the interface control
      messages of the bindings, over a vector of bytes whose address can change.
      [BindMessageProps]: round trips (for a message from the pipe, exactly when the
      vector does not move), what a received message may contain, and two writes or
      reads outside the bytes.

    ** The collected heap: [WASMv8bindings/src/heap/internal], [include/cppgc]

    - [GcSpace]: bit fields, [HeapObjectHeader], [FreeList], over the memory of the
      heap ([Space]).  [GcSpaceProps]: headers, and the free list as lists of
      entries ([fl_rep]).
    - [Job]: [DefaultJobHandle] and [PostJob] over any task, with when a job
      ends, and that it can leave work undone.
    - [GcHeap]: [Heap] with its pages, buffer, large objects, persistents and types;
      allocation, marking, sweeping, destruction, [Persistent] and [Member].
    - [GcMark]: marking reaches exactly [reach].  [GcLayout]: pages are tiled by
      cells ([heap_ok]).  [GcSweep], [GcSweepHeap], [GcCollect]: sweeping.
      [GcProps]: the invariant [gc_inv] and what a collection does to it.
      [GcAlloc], [GcDestroy]: allocation, persistents, destruction.
      [GcSteps]: every operation as a step of a program, [gc_run].  [GcClaims]: only an
      allocation ends the process, and when; no
      dangling references, exact collection, finalizers run once, what an
      allocation gives, and that objects under construction are not safe.

    ** Conventions and bounds

    Machine integers are [Z] with their wrap-around written out ([u8] to [u64]);
    bytes are [Z] in 0..255; text is a list of bytes.  Out-parameters are results.
    The target is LP64.  Loops are structural where the code's are; [Tokenize] has
    one unit of fuel per byte and string literals one more than the bytes left,
    and [tokenize_total] shows that this is always enough; the loops and scans of
    the parser have one more than the tokens left, every turn takes a token, and
    [parse_total] shows that enough; [LoadFileInto] has one more than there are
    readable files, enough by [load_terminates]; the loops of [Invitation] have
    one more than the messages queued and datagrams to come, which
    [bridge_relays] shows enough for messages without destructors.  Marking has one
    unit per header in memory, the walk over a page one per granule, and the job of
    a collection one: [gc_runs_safely] shows them enough.  Reading a pipe has one more
    than the messages in it, enough by [associated_fifo].

    ** What is not modelled

    System calls and the environment are parameters: the host's platform handle
    types ([Host]), client callbacks ([Client]), the transport of cross-process
    invitations ([Transport]), what its socket's [send] returns ([udp_send]) and
    receives, the address an allocator returns ([vector_data]), the files a
    compiler run can read ([read_file]), what the system answers a cage's request
    for memory ([mem], [commit]), and what [new] returns to the collected heap, whose
    objects are known by the members that their [Trace] methods visit.
    Mapped memory is a buffer and an offset.  The shared-memory allocator and the
    executor hook that [WhpInit] installs are left out, as are allocation failure,
    [int] overflow of line and declaration counters, the iteration order of
    [std::unordered_map], and [embed_order_] of the parser, which nothing reads.
    Of the collected heap, the names of types and the hook that admits tasks are left
    out, and there is one thread.  Emitted code is run
    only for the classes of one module that no typemap replaces, its maps keep the order
    in which keys are met and compare them by their bits; the wait of a [Sync] method,
    which is the executor's, is text only, and there sending a message is making it.
    Of connector and router, [SyncWaitFor], [FlushForTesting] and destruction are left
    out, and watchers are known by whether they are armed.  Not modelled: the command
    line, the executor, the watchers of the upper libraries, the hole punching, and the
    generators of [WASMBruja] and [Bruja]. *)
From Stdlib Require Import ZArith Lia Ascii.
From stdpp Require Export base list gmap strings fin_maps.

#[export] Set Default Proof Using "Type".
#[global] Open Scope Z_scope.

(** ** Machine integers

    An unsigned [w]-bit value is a [Z] in [0, 2^w); arithmetic that can leave
    the range is wrapped by one of these. *)

Definition u8 (z : Z) : Z := z mod 2 ^ 8.
Definition u16 (z : Z) : Z := z mod 2 ^ 16.
Definition u32 (z : Z) : Z := z mod 2 ^ 32.
Definition u64 (z : Z) : Z := z mod 2 ^ 64.

(** [static_cast<int>] of an unsigned value: two's complement, 32 bits. *)
Definition i32 (z : Z) : Z :=
  let v := u32 z in if v <? 2 ^ 31 then v else v - 2 ^ 32.

Lemma u8_range z : 0 <= u8 z < 256.
Proof. unfold u8. apply Z.mod_pos_bound. lia. Qed.

Lemma u16_range z : 0 <= u16 z < 65536.
Proof. unfold u16. apply Z.mod_pos_bound. lia. Qed.

Lemma u32_range z : 0 <= u32 z < 4294967296.
Proof. unfold u32. apply Z.mod_pos_bound. lia. Qed.

Lemma u64_range z : 0 <= u64 z < 18446744073709551616.
Proof. unfold u64. apply Z.mod_pos_bound. lia. Qed.

Lemma u8_small z : 0 <= z < 256 → u8 z = z.
Proof. intros. unfold u8. apply Z.mod_small. lia. Qed.

Lemma u16_small z : 0 <= z < 65536 → u16 z = z.
Proof. intros. unfold u16. apply Z.mod_small. lia. Qed.

Lemma u32_small z : 0 <= z < 4294967296 → u32 z = z.
Proof. intros. unfold u32. apply Z.mod_small. lia. Qed.

Lemma u64_small z : 0 <= z < 18446744073709551616 → u64 z = z.
Proof. intros. unfold u64. apply Z.mod_small. lia. Qed.

(** Arrays of two elements indexed by a pipe end: [false] is index 0 and
    [true] is index 1, so [1 - end] is [negb]. *)
Record Two (A : Type) : Type := mkTwo { at0 : A; at1 : A }.
Arguments mkTwo {A} _ _.
Arguments at0 {A} _.
Arguments at1 {A} _.

Definition sel {A} (t : Two A) (i : bool) : A := if i then at1 t else at0 t.
Definition upd {A} (t : Two A) (i : bool) (v : A) : Two A :=
  if i then mkTwo (at0 t) v else mkTwo v (at1 t).

Lemma sel_upd_eq {A} (t : Two A) i v : sel (upd t i v) i = v.
Proof. by destruct i. Qed.

Lemma sel_upd_ne {A} (t : Two A) i v : sel (upd t i v) (negb i) = sel t (negb i).
Proof. by destruct i. Qed.

Lemma sel_upd_negb {A} (t : Two A) i v : sel (upd t (negb i) v) i = sel t i.
Proof. by destruct i. Qed.

(** ** Characters

    Text is a list of bytes; literals are written as Rocq characters and
    strings. *)

(** The code of a character. *)
Definition ch (a : ascii) : Z := Z.of_nat (nat_of_ascii a).

(** The bytes of a string literal. *)
Definition bytes (s : string) : list Z := map ch (String.list_ascii_of_string s).

(** ** State with undefined behaviour

    [M S A] is a computation over a state [S]; [None] stands for undefined
    behaviour of the C++ program (a bad [static_cast], a dangling pointer, an
    index out of range). *)

Definition M (S A : Type) : Type := S → option (A * S).

Section monad.
Context {S : Type}.

Definition ret {A} (a : A) : M S A := λ s, Some (a, s).
Definition bind {A B} (m : M S A) (k : A → M S B) : M S B :=
  λ s, match m s with Some (a, s') => k a s' | None => None end.
Definition get : M S S := λ s, Some (s, s).
Definition put (s' : S) : M S unit := λ _, Some (tt, s').
Definition modify (f : S → S) : M S unit := λ s, Some (tt, f s).
Definition ub {A} : M S A := λ _, None.
Definition of_option {A} (o : option A) : M S A :=
  match o with Some a => ret a | None => ub end.

(** [wp m Q s]: from [s], [m] is free of undefined behaviour and ends with a
    result and a state that satisfy [Q]. *)
Definition wp {A} (m : M S A) (Q : A → S → Prop) (s : S) : Prop :=
  match m s with Some (a, s') => Q a s' | None => False end.

Lemma wp_ret {A} (a : A) Q s : wp (ret a) Q s = Q a s.
Proof. reflexivity. Qed.

Lemma wp_get Q s : wp get Q s = Q s s.
Proof. reflexivity. Qed.

Lemma wp_put s' Q s : wp (put s') Q s = Q tt s'.
Proof. reflexivity. Qed.

Lemma wp_modify f Q s : wp (modify f) Q s = Q tt (f s).
Proof. reflexivity. Qed.

Lemma wp_some {A} (a : A) Q s : wp (of_option (Some a)) Q s = Q a s.
Proof. reflexivity. Qed.

Lemma wp_bind {A B} (m : M S A) (k : A → M S B) Q s :
wp (bind m k) Q s = wp m (λ a s', wp (k a) Q s') s.
Proof. unfold wp, bind. by destruct (m s) as [[]|]. Qed.

Lemma wp_mono {A} (m : M S A) (Q Q' : A → S → Prop) s :
wp m Q s → (∀ a s', Q a s' → Q' a s') → wp m Q' s.
Proof. unfold wp. destruct (m s) as [[]|]; auto. Qed.

Lemma wp_of_eq {A} (m : M S A) (Q : A → S → Prop) s a s' :
m s = Some (a, s') → Q a s' → wp m Q s.
Proof. unfold wp. by intros ->. Qed.

Lemma wp_run {A} (m : M S A) (Q : A → S → Prop) s :
wp m Q s → ∃ a s', m s = Some (a, s') ∧ Q a s'.
Proof. unfold wp. destruct (m s) as [[]|]; [eauto|done]. Qed.

Lemma wp_and {A} (m : M S A) (Q Q' : A → S → Prop) s :
wp m Q s → wp m Q' s → wp m (λ a s', Q a s' ∧ Q' a s') s.
Proof. unfold wp. destruct (m s) as [[]|]; auto. Qed.
End monad.

Declare Scope ub_scope.
Delimit Scope ub_scope with ub.
Notation "'let!' x := m 'in' k" := (bind m (λ x, k))
  (at level 10, x binder, m at level 100, k at level 200,
   format "'[v' 'let!'  x  :=  m  'in' '/' k ']'") : ub_scope.
Notation "'let!' ' p := m 'in' k" := (bind m (λ x, match x with p => k end))
  (at level 10, p pattern, m at level 100, k at level 200) : ub_scope.
Notation "m ;; k" := (bind m (λ _, k))
  (at level 100, k at level 200, right associativity) : ub_scope.
#[global] Open Scope ub_scope.

Create Rewrite HintDb wp.
Create HintDb voodoo.
#[export] Hint Rewrite @wp_ret @wp_get @wp_put @wp_modify @wp_some @wp_bind : wp.

(** [wp_step] runs the monadic prefix of a goal [wp m Q s]. *)
Ltac wp_step := autorewrite with wp; cbn beta iota.

(** ** Reachability *)

(** A predicate kept by every step holds in every state reached from one
    where it holds. *)
Lemma rtc_invariant {A} (R : relation A) (P : A → Prop) x y :
  (∀ a b, P a → R a b → P b) → rtc R x y → P x → P y.
Proof. intros HR. induction 1; eauto. Qed.

(** ** Lists *)

(** [std::vector::pop_back]. *)
Definition pop_back {A} (l : list A) : list A := take (length l - 1) l.

Lemma pop_back_snoc {A} (l : list A) x : pop_back (l ++ [x]) = l.
Proof.
  unfold pop_back. rewrite length_app. simpl.
  replace (length l + 1 - 1)%nat with (length l) by lia.
  apply take_app_length.
Qed.

(** [erase(remove(begin, end, x), end)] and [erase(remove_if(...), end)] keep
    the elements for which the test fails, in order. *)
Definition erase_if {A} (p : A → bool) (l : list A) : list A :=
  List.filter (λ x, negb (p x)) l.

Lemma elem_of_erase_if {A} (p : A → bool) (l : list A) x :
  x ∈ erase_if p l ↔ p x = false ∧ x ∈ l.
Proof.
  unfold erase_if. rewrite !list_elem_of_In, List.filter_In.
  destruct (p x); simpl; intuition discriminate.
Qed.

Lemma lookup_app_Some_cases {A} (l : list A) x i y :
  (l ++ [x]) !! i = Some y → l !! i = Some y ∨ (i = length l ∧ y = x).
Proof.
  rewrite lookup_app_Some, list_lookup_singleton_Some.
  intros [?|(? & ? & <-)]; [by left|right]. split; [lia|done].
Qed.

Lemma list_lookup_insert_cases {A} (l : list A) i j x y :
  <[i := x]> l !! j = Some y →
  (i = j ∧ y = x) ∨ (i ≠ j ∧ l !! j = Some y).
Proof.
  rewrite list_lookup_insert_Some. intuition congruence.
Qed.

(** Case analysis on the boolean tests of integer code. *)
Ltac zbool :=
  repeat match goal with
  | H : (_ =? _) = true |- _ => apply Z.eqb_eq in H
  | H : (_ =? _) = false |- _ => apply Z.eqb_neq in H
  | H : (_ <? _) = true |- _ => apply Z.ltb_lt in H
  | H : (_ <? _) = false |- _ => apply Z.ltb_ge in H
  | H : (_ <=? _) = true |- _ => apply Z.leb_le in H
  | H : (_ <=? _) = false |- _ => apply Z.leb_gt in H
  | H : _ || _ = true |- _ => apply orb_true_iff in H
  | H : _ || _ = false |- _ => apply orb_false_elim in H; destruct H as [? ?]
  | H : _ && _ = true |- _ => apply andb_prop in H; destruct H as [? ?]
  | H : _ && _ = false |- _ => apply andb_false_iff in H
  | H : negb _ = true |- _ => apply negb_true_iff in H
  | H : negb _ = false |- _ => apply negb_false_iff in H
  end.
