(* ===== verification/Core.v ===== *)
(** * The handle table of the in-process kernel

    The data of [WASMHolePunch/src/system/core.cc]: handle kinds, the objects
    a slot can hold, the process-wide [Core], its [Alloc], [Lookup] and
    [Free], and the signal queries every other part of the kernel uses.

    The C++ keeps objects behind [std::shared_ptr].  An object that only one
    slot or queue can reach (a pipe end, a message, a trap, a platform handle)
    is stored by value; the objects several places share ([PipeState],
    [DataPipeState], [SharedBufferObj]) live in a store of the [Core] and are
    referred to by an identifier, so aliasing is explicit.  [static_cast] from
    [shared_ptr<void>] is a partial function: a slot whose [kind] and object
    disagree is undefined behaviour. *)
From S2P Require Import Prelude.

(** ** Result codes and flags ([whp/c/types.h]) *)

Definition WHP_HANDLE_INVALID : Z := 0.

Definition WHP_RESULT_OK : Z := 0.
Definition WHP_RESULT_CANCELLED : Z := 1.
Definition WHP_RESULT_UNKNOWN : Z := 2.
Definition WHP_RESULT_INVALID_ARGUMENT : Z := 3.
Definition WHP_RESULT_DEADLINE_EXCEEDED : Z := 4.
Definition WHP_RESULT_NOT_FOUND : Z := 5.
Definition WHP_RESULT_ALREADY_EXISTS : Z := 6.
Definition WHP_RESULT_PERMISSION_DENIED : Z := 7.
Definition WHP_RESULT_RESOURCE_EXHAUSTED : Z := 8.
Definition WHP_RESULT_FAILED_PRECONDITION : Z := 9.
Definition WHP_RESULT_ABORTED : Z := 10.
Definition WHP_RESULT_OUT_OF_RANGE : Z := 11.
Definition WHP_RESULT_UNIMPLEMENTED : Z := 12.
Definition WHP_RESULT_INTERNAL : Z := 13.
Definition WHP_RESULT_UNAVAILABLE : Z := 14.
Definition WHP_RESULT_DATA_LOSS : Z := 15.
Definition WHP_RESULT_BUSY : Z := 16.
Definition WHP_RESULT_SHOULD_WAIT : Z := 17.

Definition WHP_HANDLE_SIGNAL_NONE : Z := 0.
Definition WHP_HANDLE_SIGNAL_READABLE : Z := Z.shiftl 1 0.
Definition WHP_HANDLE_SIGNAL_WRITABLE : Z := Z.shiftl 1 1.
Definition WHP_HANDLE_SIGNAL_PEER_CLOSED : Z := Z.shiftl 1 2.
Definition WHP_HANDLE_SIGNAL_PEER_REMOTE : Z := Z.shiftl 1 3.

Definition WHP_PLATFORM_HANDLE_TYPE_INVALID : Z := 0.
Definition WHP_PLATFORM_HANDLE_TYPE_FILE_DESCRIPTOR : Z := 1.
Definition WHP_PLATFORM_HANDLE_TYPE_WINDOWS_HANDLE : Z := 2.
Definition WHP_PLATFORM_HANDLE_TYPE_MACH_PORT : Z := 3.

Definition WHP_QUOTA_TYPE_MAX_UNREAD_MESSAGE_COUNT : Z := 0.
Definition WHP_QUOTA_TYPE_MAX_UNREAD_MESSAGE_SIZE : Z := 1.

Definition WHP_TRIGGER_CONDITION_SIGNALS_SATISFIED : Z := 0.
Definition WHP_TRIGGER_CONDITION_SIGNALS_UNSATISFIABLE : Z := 1.

Definition WHP_APPEND_MESSAGE_DATA_FLAG_COMMIT_SIZE : Z := Z.shiftl 1 0.

(** The operating system the library is compiled for, and whether the system
    maps a shared-memory region ([MapViewOfFile], [mmap]) when asked to: the
    calls of [core.cc] that leave the program. *)
Inductive HostOs := Windows | Apple | Posix.

Class Host := {
  host_os : HostOs;
  os_map_view : Z → Z → Z → bool  (** handle value, size, access mode *)
}.

(** ** Objects *)

Inductive HandleKind :=
  | HandleKind_Free
  | HandleKind_MessagePipe
  | HandleKind_Message
  | HandleKind_Trap
  | HandleKind_DataPipeProducer
  | HandleKind_DataPipeConsumer
  | HandleKind_SharedBuffer
  | HandleKind_Platform.

#[export] Instance HandleKind_eq_dec : EqDecision HandleKind.
Proof. solve_decision. Defined.

Record PlatformObj := mkPlatformObj {
  plat_type : Z;
  plat_value : Z;
  plat_owned : bool
}.

(** [MessageBytes] is the byte list; a function pointer that may be null is an
    optional [Z]. *)
Record MessageObj := mkMessageObj {
  msg_bytes : list Z;
  msg_handles : list Z;
  committed : bool;
  msg_context : Z;
  serializer : option Z;
  destructor : option Z
}.

Definition MessageObj_init : MessageObj := mkMessageObj [] [] false 0 None None.

Record PipeEnd := mkPipeEnd {
  pe_state : nat;
  pe_end : bool
}.

Record PipeState := mkPipeState {
  queues : Two (list MessageObj);
  closed : Two bool;
  quota_count : Two Z;
  quota_bytes : Two Z
}.

Definition PipeState_init : PipeState :=
  mkPipeState (mkTwo [] []) (mkTwo false false)
    (mkTwo (2 ^ 64 - 1) (2 ^ 64 - 1)) (mkTwo (2 ^ 64 - 1) (2 ^ 64 - 1)).

(** The number of bytes waiting in a queue, a [uint64_t]. *)
Definition QueueBytes (q : list MessageObj) : Z :=
  fold_left (λ n m, u64 (n + Z.of_nat (length (msg_bytes m)))) q 0.

Record TrapTrigger := mkTrapTrigger {
  watched : Z;
  signals : Z;
  condition : Z;
  trig_context : Z
}.

Record TrapObj := mkTrapObj {
  handler : option Z;
  triggers : list TrapTrigger;
  armed : bool
}.

(** A pointer into [buf] is its offset. *)
Record DataPipeState := mkDataPipeState {
  element_size : Z;
  capacity : Z;
  buf : list Z;
  dp_r : Z;
  dp_w : Z;
  available : Z;
  producer_closed : bool;
  consumer_closed : bool;
  two_phase_write : option Z;
  two_phase_write_max : Z;
  two_phase_read : option Z;
  two_phase_read_max : Z
}.

Record DataPipeEnd := mkDataPipeEnd {
  de_state : nat;
  de_producer : bool
}.

(** The core never reads the contents of a shared buffer, so [bytes] is its
    size; [os_base] says whether a view is mapped. *)
Record SharedBufferObj := mkSharedBufferObj {
  sb_bytes : Z;
  sb_size : Z;
  sb_plat_types : Two Z;
  sb_plat_values : Two Z;
  sb_plat_count : Z;
  sb_plat_owns : bool;
  sb_guid_high : Z;
  sb_guid_low : Z;
  sb_access_mode : Z;
  sb_os_base : bool;
  sb_os_mapped_size : Z
}.

Definition SharedBufferObj_init : SharedBufferObj :=
  mkSharedBufferObj 0 0 (mkTwo 0 0) (mkTwo 0 0) 0 false 0 0 0 false 0.

(** What a slot's [shared_ptr<void>] can point to. *)
Inductive SlotObj :=
  | ObjNull
  | ObjPipeEnd (e : PipeEnd)
  | ObjMessage (m : MessageObj)
  | ObjTrap (t : TrapObj)
  | ObjDataPipeEnd (e : DataPipeEnd)
  | ObjSharedBuffer (id : nat)
  | ObjPlatform (p : PlatformObj).

Record Slot := mkSlot { kind : HandleKind; obj : SlotObj }.

Definition as_PipeEnd (o : SlotObj) : option PipeEnd :=
  match o with ObjPipeEnd e => Some e | _ => None end.
Definition as_MessageObj (o : SlotObj) : option MessageObj :=
  match o with ObjMessage m => Some m | _ => None end.
Definition as_TrapObj (o : SlotObj) : option TrapObj :=
  match o with ObjTrap t => Some t | _ => None end.
Definition as_DataPipeEnd (o : SlotObj) : option DataPipeEnd :=
  match o with ObjDataPipeEnd e => Some e | _ => None end.
Definition as_SharedBufferObj (o : SlotObj) : option nat :=
  match o with ObjSharedBuffer id => Some id | _ => None end.
Definition as_PlatformObj (o : SlotObj) : option PlatformObj :=
  match o with ObjPlatform p => Some p | _ => None end.

Record WhpHandleSignalsState := mkSignals {
  satisfied_signals : Z;
  satisfiable_signals : Z
}.

Record WhpTrapEvent := mkTrapEvent {
  struct_size : Z;
  flags : Z;
  trigger_context : Z;
  ev_result : Z;
  signals_state : WhpHandleSignalsState
}.

(** [sizeof(WhpTrapEvent)] on an LP64 host. *)
Definition sizeof_WhpTrapEvent : Z := 32.

Record PendingEvent := mkPendingEvent {
  pe_handler : Z;
  pe_event : WhpTrapEvent
}.

(** The address a mapped region starts at: the buffer object it lies in and
    the offset added to its base. *)
Definition MapPtr : Type := nat * Z.

Record MappedRegion := mkMappedRegion {
  mr_buf : nat;
  mr_refs : Z
}.

(** ** The core

    [slots], [free_list], [traps], [maps], [inited] and [pending_events] are
    the fields of [Core]; the last five model the C++ heap the shared pointers
    lead to and the native handles the core has closed, oldest first. *)
Record Core := mkCore {
  slots : list Slot;
  free_list : list Z;
  traps : list Z;
  maps : gmap MapPtr MappedRegion;
  inited : bool;
  pending_events : list PendingEvent;
  pipe_states : gmap nat PipeState;
  data_states : gmap nat DataPipeState;
  buffers : gmap nat SharedBufferObj;
  next_id : nat;
  native_closed : list (Z * Z)
}.

Definition Core_init : Core :=
  mkCore [mkSlot HandleKind_Free ObjNull] [] [] ∅ false [] ∅ ∅ ∅ 0 [].

(** Field updates. *)
Definition set_slots (f : list Slot → list Slot) (c : Core) : Core :=
  mkCore (f (slots c)) (free_list c) (traps c) (maps c) (inited c)
    (pending_events c) (pipe_states c) (data_states c) (buffers c) (next_id c)
    (native_closed c).
Definition set_free_list (f : list Z → list Z) (c : Core) : Core :=
  mkCore (slots c) (f (free_list c)) (traps c) (maps c) (inited c)
    (pending_events c) (pipe_states c) (data_states c) (buffers c) (next_id c)
    (native_closed c).
Definition set_traps (f : list Z → list Z) (c : Core) : Core :=
  mkCore (slots c) (free_list c) (f (traps c)) (maps c) (inited c)
    (pending_events c) (pipe_states c) (data_states c) (buffers c) (next_id c)
    (native_closed c).
Definition set_maps (f : gmap MapPtr MappedRegion → gmap MapPtr MappedRegion)
    (c : Core) : Core :=
  mkCore (slots c) (free_list c) (traps c) (f (maps c)) (inited c)
    (pending_events c) (pipe_states c) (data_states c) (buffers c) (next_id c)
    (native_closed c).
Definition set_inited (b : bool) (c : Core) : Core :=
  mkCore (slots c) (free_list c) (traps c) (maps c) b
    (pending_events c) (pipe_states c) (data_states c) (buffers c) (next_id c)
    (native_closed c).
Definition set_pending (f : list PendingEvent → list PendingEvent)
    (c : Core) : Core :=
  mkCore (slots c) (free_list c) (traps c) (maps c) (inited c)
    (f (pending_events c)) (pipe_states c) (data_states c) (buffers c)
    (next_id c) (native_closed c).
Definition set_pipes (f : gmap nat PipeState → gmap nat PipeState)
    (c : Core) : Core :=
  mkCore (slots c) (free_list c) (traps c) (maps c) (inited c)
    (pending_events c) (f (pipe_states c)) (data_states c) (buffers c)
    (next_id c) (native_closed c).
Definition set_datas (f : gmap nat DataPipeState → gmap nat DataPipeState)
    (c : Core) : Core :=
  mkCore (slots c) (free_list c) (traps c) (maps c) (inited c)
    (pending_events c) (pipe_states c) (f (data_states c)) (buffers c)
    (next_id c) (native_closed c).
Definition set_buffers (f : gmap nat SharedBufferObj → gmap nat SharedBufferObj)
    (c : Core) : Core :=
  mkCore (slots c) (free_list c) (traps c) (maps c) (inited c)
    (pending_events c) (pipe_states c) (data_states c) (f (buffers c))
    (next_id c) (native_closed c).
Definition set_next_id (n : nat) (c : Core) : Core :=
  mkCore (slots c) (free_list c) (traps c) (maps c) (inited c)
    (pending_events c) (pipe_states c) (data_states c) (buffers c) n
    (native_closed c).
Definition log_native (l : list (Z * Z)) (c : Core) : Core :=
  mkCore (slots c) (free_list c) (traps c) (maps c) (inited c)
    (pending_events c) (pipe_states c) (data_states c) (buffers c) (next_id c)
    (native_closed c ++ l).

(** ** The handle table *)

Definition Lookup (c : Core) (h : Z) : option Slot :=
  if (h =? 0) || (Z.of_nat (length (slots c)) <=? h) then None
  else
    match slots c !! Z.to_nat h with
    | Some s => if decide (kind s = HandleKind_Free) then None else Some s
    | None => None
    end.

(** [slots[h] = Slot{k, o}]: an index out of range is undefined behaviour. *)
Definition store_slot (h : Z) (s : Slot) : M Core unit :=
  let! c := get in
  if (Z.to_nat h <? length (slots c))%nat
  then modify (set_slots (λ l, <[Z.to_nat h := s]> l))
  else ub.

Definition Alloc (k : HandleKind) (o : SlotObj) : M Core Z :=
  let! c := get in
  match last (free_list c) with
  | Some h =>
      modify (set_free_list pop_back) ;;
      store_slot h (mkSlot k o) ;;
      ret h
  | None =>
      let h := u32 (Z.of_nat (length (slots c))) in
      modify (set_slots (λ l, l ++ [mkSlot k o])) ;;
      ret h
  end.

(** [std::make_shared] of the three shared object types. *)
Definition make_PipeState (s : PipeState) : M Core nat :=
  let! c := get in
  modify (set_pipes (λ m, <[next_id c := s]> m)) ;;
  modify (set_next_id (S (next_id c))) ;;
  ret (next_id c).
Definition make_DataPipeState (s : DataPipeState) : M Core nat :=
  let! c := get in
  modify (set_datas (λ m, <[next_id c := s]> m)) ;;
  modify (set_next_id (S (next_id c))) ;;
  ret (next_id c).
Definition make_SharedBuffer (s : SharedBufferObj) : M Core nat :=
  let! c := get in
  modify (set_buffers (λ m, <[next_id c := s]> m)) ;;
  modify (set_next_id (S (next_id c))) ;;
  ret (next_id c).

(** Reading and writing through a shared pointer. *)
Definition get_pipe (id : nat) : M Core PipeState :=
  let! c := get in of_option (pipe_states c !! id).
Definition put_pipe (id : nat) (s : PipeState) : M Core unit :=
  modify (set_pipes (λ m, <[id := s]> m)).
Definition get_data (id : nat) : M Core DataPipeState :=
  let! c := get in of_option (data_states c !! id).
Definition put_data (id : nat) (s : DataPipeState) : M Core unit :=
  modify (set_datas (λ m, <[id := s]> m)).
Definition get_buffer (id : nat) : M Core SharedBufferObj :=
  let! c := get in of_option (buffers c !! id).
Definition put_buffer (id : nat) (s : SharedBufferObj) : M Core unit :=
  modify (set_buffers (λ m, <[id := s]> m)).

Section host.
Context {host : Host}.

(** The native handles one call of [CloseNativePlatform] gives back to the
    operating system: none for a null or invalid value, or for a type the
    host does not have. *)
Definition CloseNativePlatform (type value : Z) : list (Z * Z) :=
  if type =? WHP_PLATFORM_HANDLE_TYPE_WINDOWS_HANDLE then
    match host_os with
    | Windows =>
        if negb (value =? 0) && negb (value =? 2 ^ 64 - 1)
        then [(type, value)] else []
    | _ => []
    end
  else if type =? WHP_PLATFORM_HANDLE_TYPE_FILE_DESCRIPTOR then
    match host_os with
    | Windows => []
    | _ => if 0 <=? i32 value then [(type, value)] else []
    end
  else if type =? WHP_PLATFORM_HANDLE_TYPE_MACH_PORT then
    match host_os with Apple => [(type, value)] | _ => [] end
  else [].

Definition PlatformTypeOkForHost (type : Z) : bool :=
  if type =? WHP_PLATFORM_HANDLE_TYPE_MACH_PORT then true
  else
    match host_os with
    | Windows => type =? WHP_PLATFORM_HANDLE_TYPE_WINDOWS_HANDLE
    | _ => type =? WHP_PLATFORM_HANDLE_TYPE_FILE_DESCRIPTOR
    end.

(** [~SharedBufferObj]: the loop over [plat_count] handles. *)
Definition SharedBufferObj_dtor (b : SharedBufferObj) : list (Z * Z) :=
  if sb_plat_owns b then
    (if 0 <? sb_plat_count b
     then CloseNativePlatform (at0 (sb_plat_types b)) (at0 (sb_plat_values b))
     else []) ++
    (if 1 <? sb_plat_count b
     then CloseNativePlatform (at1 (sb_plat_types b)) (at1 (sb_plat_values b))
     else [])
  else [].

(** The last [shared_ptr] to a buffer is gone when neither a slot nor a
    mapped region refers to it; its destructor then runs. *)
Definition slot_refers (id : nat) (s : Slot) : bool :=
  match obj s with ObjSharedBuffer i => (i =? id)%nat | _ => false end.
Definition buffer_in_use (c : Core) (id : nat) : bool :=
  existsb (slot_refers id) (slots c) ||
  existsb (λ kr, (mr_buf (snd kr) =? id)%nat) (map_to_list (maps c)).

Definition release_buffer (id : nat) : M Core unit :=
  let! c := get in
  if buffer_in_use c id then ret tt
  else
    match buffers c !! id with
    | Some b =>
        modify (log_native (SharedBufferObj_dtor b)) ;;
        modify (set_buffers (delete id))
    | None => ret tt
    end.

(** [slots[h].obj.reset()] after the object has been taken out. *)
Definition reset_obj (o : SlotObj) : M Core unit :=
  match o with
  | ObjSharedBuffer id => release_buffer id
  | _ => ret tt
  end.

Definition Free (h : Z) : M Core unit :=
  let! c := get in
  if (h =? 0) || (Z.of_nat (length (slots c)) <=? h) then ret tt
  else
    let! s := of_option (slots c !! Z.to_nat h) in
    store_slot h (mkSlot HandleKind_Free ObjNull) ;;
    reset_obj (obj s) ;;
    modify (set_free_list (λ l, l ++ [h])).
End host.

(** ** Signals *)

Definition PipeSignals (me : bool) (st : PipeState) : WhpHandleSignalsState :=
  let peer := negb me in
  let peer_closed := sel (closed st) peer in
  let have := negb (bool_decide (sel (queues st) me = [])) in
  let satisfied := if have then WHP_HANDLE_SIGNAL_READABLE else 0 in
  if negb peer_closed then
    mkSignals (Z.lor satisfied WHP_HANDLE_SIGNAL_WRITABLE)
      (Z.lor (Z.lor WHP_HANDLE_SIGNAL_WRITABLE WHP_HANDLE_SIGNAL_READABLE)
         WHP_HANDLE_SIGNAL_PEER_CLOSED)
  else
    mkSignals (Z.lor satisfied WHP_HANDLE_SIGNAL_PEER_CLOSED)
      (Z.lor WHP_HANDLE_SIGNAL_PEER_CLOSED
         (if have then WHP_HANDLE_SIGNAL_READABLE else 0)).

Definition DataPipeSignals (producer : bool) (s : DataPipeState)
    : WhpHandleSignalsState :=
  if producer then
    let writable :=
      if negb (consumer_closed s) && (available s <? capacity s)
      then WHP_HANDLE_SIGNAL_WRITABLE else 0 in
    if negb (consumer_closed s) then
      mkSignals writable
        (Z.lor WHP_HANDLE_SIGNAL_WRITABLE WHP_HANDLE_SIGNAL_PEER_CLOSED)
    else
      mkSignals (Z.lor writable WHP_HANDLE_SIGNAL_PEER_CLOSED)
        WHP_HANDLE_SIGNAL_PEER_CLOSED
  else
    let readable :=
      if 0 <? available s then WHP_HANDLE_SIGNAL_READABLE else 0 in
    if negb (producer_closed s) then
      mkSignals readable
        (Z.lor WHP_HANDLE_SIGNAL_READABLE WHP_HANDLE_SIGNAL_PEER_CLOSED)
    else
      mkSignals (Z.lor readable WHP_HANDLE_SIGNAL_PEER_CLOSED)
        (Z.lor WHP_HANDLE_SIGNAL_PEER_CLOSED
           (if 0 <? available s then WHP_HANDLE_SIGNAL_READABLE else 0)).

Definition SignalsMatch (st : WhpHandleSignalsState) (want condition : Z) : bool :=
  if condition =? WHP_TRIGGER_CONDITION_SIGNALS_UNSATISFIABLE
  then Z.land (satisfiable_signals st) want =? 0
  else Z.land (satisfied_signals st) want =? want.

(** [QueryLocked]; [None] is undefined behaviour. *)
Definition QueryLocked (c : Core) (h : Z) : option WhpHandleSignalsState :=
  match Lookup c h with
  | None => Some (mkSignals 0 0)
  | Some slot =>
      match kind slot with
      | HandleKind_MessagePipe =>
          e ← as_PipeEnd (obj slot);
          s ← pipe_states c !! pe_state e;
          Some (PipeSignals (pe_end e) s)
      | HandleKind_DataPipeProducer | HandleKind_DataPipeConsumer =>
          e ← as_DataPipeEnd (obj slot);
          s ← data_states c !! de_state e;
          Some (DataPipeSignals (de_producer e) s)
      | _ => Some (mkSignals 0 0)
      end
  end.
