(* ===== verification/Traps.v ===== *)
(** * Traps

    The trap operations of [WASMHolePunch/src/system/core.cc]:
    [CollectTrapEvents], which turns satisfied triggers of armed traps into
    queued events, and [WhpCreateTrap], [WhpAddTrigger], [WhpRemoveTrigger],
    [WhpArmTrap] and [WhpPumpEvents].  A null out-parameter or callback is
    [false] or [None]; each operation returns its [WhpResult] with the values
    it writes through its out-parameters. *)
From S2P Require Import Prelude Core.

(** A trigger that fires, with the state it saw. *)
Fixpoint first_match (c : Core) (ts : list TrapTrigger)
    : option (option (TrapTrigger * WhpHandleSignalsState)) :=
  match ts with
  | [] => Some None
  | trig :: ts' =>
      st ← QueryLocked c (watched trig);
      if SignalsMatch st (signals trig) (condition trig)
      then Some (Some (trig, st))
      else first_match c ts'
  end.

(** The event a fired trigger queues. *)
Definition trap_event (trig : TrapTrigger) (st : WhpHandleSignalsState)
    : WhpTrapEvent :=
  mkTrapEvent sizeof_WhpTrapEvent 0 (trig_context trig)
    (if (condition trig =? WHP_TRIGGER_CONDITION_SIGNALS_UNSATISFIABLE)
        || (Z.land (satisfiable_signals st) (signals trig) =? 0)
     then WHP_RESULT_FAILED_PRECONDITION else WHP_RESULT_OK)
    st.

(** One iteration of the loop over [c.traps]. *)
Definition collect_trap (th : Z) : M Core unit :=
  let! c := get in
  match Lookup c th with
  | None => ret tt
  | Some slot =>
      if decide (kind slot = HandleKind_Trap) then
        let! trap := of_option (as_TrapObj (obj slot)) in
        match handler trap with
        | None => ret tt
        | Some hd =>
            if negb (armed trap) then ret tt
            else
              let! m := of_option (first_match c (triggers trap)) in
              match m with
              | None => ret tt
              | Some (trig, st) =>
                  store_slot th (mkSlot HandleKind_Trap
                    (ObjTrap (mkTrapObj (handler trap) (triggers trap) false))) ;;
                  modify (set_pending
                    (λ l, l ++ [mkPendingEvent hd (trap_event trig st)]))
              end
        end
      else ret tt
  end.

Fixpoint collect_traps (ths : list Z) : M Core unit :=
  match ths with
  | [] => ret tt
  | th :: ths' => collect_trap th ;; collect_traps ths'
  end.

Definition CollectTrapEvents : M Core unit :=
  let! c := get in collect_traps (traps c).

(** The locked half of [WhpPumpEvents]: the events it takes; the handlers run
    after the lock is released, in order. *)
Definition WhpPumpEvents_take : M Core (list PendingEvent) :=
  let! c := get in
  if decide (pending_events c = []) then ret []
  else
    modify (set_pending (λ _, [])) ;;
    ret (pending_events c).

Definition WhpQueryHandleSignalsState (handle : Z) (state : bool)
    : M Core (Z * option WhpHandleSignalsState) :=
  if negb state then ret (WHP_RESULT_INVALID_ARGUMENT, None)
  else
    let! c := get in
    match Lookup c handle with
    | None => ret (WHP_RESULT_INVALID_ARGUMENT, None)
    | Some _ =>
        let! st := of_option (QueryLocked c handle) in
        ret (WHP_RESULT_OK, Some st)
    end.

Definition WhpCreateTrap (hd : option Z) (trap : bool) : M Core (Z * option Z) :=
  match hd with
  | None => ret (WHP_RESULT_INVALID_ARGUMENT, None)
  | Some _ =>
      if negb trap then ret (WHP_RESULT_INVALID_ARGUMENT, None)
      else
        let! h := Alloc HandleKind_Trap (ObjTrap (mkTrapObj hd [] false)) in
        modify (set_traps (λ l, l ++ [h])) ;;
        ret (WHP_RESULT_OK, Some h)
  end.

Definition WhpAddTrigger (trap handle signals condition context : Z)
    : M Core Z :=
  let! c := get in
  match Lookup c trap, Lookup c handle with
  | Some tslot, Some _ =>
      if decide (kind tslot = HandleKind_Trap) then
        let! tobj := of_option (as_TrapObj (obj tslot)) in
        store_slot trap (mkSlot HandleKind_Trap (ObjTrap (mkTrapObj (handler tobj)
          (triggers tobj ++ [mkTrapTrigger handle signals condition context])
          (armed tobj)))) ;;
        ret WHP_RESULT_OK
      else ret WHP_RESULT_INVALID_ARGUMENT
  | _, _ => ret WHP_RESULT_INVALID_ARGUMENT
  end.

Definition WhpRemoveTrigger (trap context : Z) : M Core Z :=
  let! c := get in
  match Lookup c trap with
  | None => ret WHP_RESULT_INVALID_ARGUMENT
  | Some tslot =>
      if decide (kind tslot = HandleKind_Trap) then
        let! tobj := of_option (as_TrapObj (obj tslot)) in
        if existsb (λ t, trig_context t =? context) (triggers tobj) then
          store_slot trap (mkSlot HandleKind_Trap (ObjTrap (mkTrapObj (handler tobj)
            (erase_if (λ t, trig_context t =? context) (triggers tobj))
            (armed tobj)))) ;;
          match handler tobj with
          | Some hd =>
              modify (set_pending (λ l, l ++ [mkPendingEvent hd
                (mkTrapEvent sizeof_WhpTrapEvent 0 context WHP_RESULT_CANCELLED
                   (mkSignals 0 0))]))
          | None => ret tt
          end ;;
          ret WHP_RESULT_OK
        else ret WHP_RESULT_NOT_FOUND
      else ret WHP_RESULT_INVALID_ARGUMENT
  end.

(** The loop of [WhpArmTrap]: the triggers that block arming, in order, each
    with the state it saw. *)
Fixpoint blocking_triggers (c : Core) (ts : list TrapTrigger)
    : option (list (TrapTrigger * WhpHandleSignalsState)) :=
  match ts with
  | [] => Some []
  | trig :: ts' =>
      st ← QueryLocked c (watched trig);
      rest ← blocking_triggers c ts';
      Some (if SignalsMatch st (signals trig) (condition trig)
            then (trig, st) :: rest else rest)
  end.

(** What a blocking trigger writes to its entry of [blocking_events]. *)
Definition blocking_event (ts : TrapTrigger * WhpHandleSignalsState)
    : WhpTrapEvent :=
  mkTrapEvent sizeof_WhpTrapEvent 0 (trig_context (fst ts)) WHP_RESULT_OK (snd ts).

(** [num_blocking_events] is the value behind the pointer, [None] when it is
    null; [blocking_events] says whether the array is given.  Returns the
    result, the new [*num_blocking_events] if written, and the entries of the
    array that were written, from index 0. *)
Definition WhpArmTrap (trap : Z) (num_blocking_events : option Z)
    (blocking_events : bool) : M Core (Z * option Z * list WhpTrapEvent) :=
  let! c := get in
  match Lookup c trap with
  | None => ret (WHP_RESULT_INVALID_ARGUMENT, None, [])
  | Some tslot =>
      if decide (kind tslot = HandleKind_Trap) then
        let! tobj := of_option (as_TrapObj (obj tslot)) in
        let! bs := of_option (blocking_triggers c (triggers tobj)) in
        let written :=
          match num_blocking_events with
          | Some n =>
              if blocking_events
              then map blocking_event (take (Z.to_nat n) bs) else []
          | None => []
          end in
        if decide (bs = []) then
          store_slot trap (mkSlot HandleKind_Trap
            (ObjTrap (mkTrapObj (handler tobj) (triggers tobj) true))) ;;
          ret (WHP_RESULT_OK, None, [])
        else
          ret (WHP_RESULT_FAILED_PRECONDITION,
               match num_blocking_events with
               | Some _ => Some (u32 (Z.of_nat (length bs))) | None => None end,
               written)
      else ret (WHP_RESULT_INVALID_ARGUMENT, None, [])
  end.
