(* ===== verification/Messages.v ===== *)
(** * Messages and message pipes

    The message and message-pipe operations of
    [WASMHolePunch/src/system/core.cc].  [WhpSerializeMessage] takes the lock
    twice and runs the message's serializer in between; its two locked halves
    are [WhpSerializeMessage_begin] and [WhpSerializeMessage_end], and
    [WhpSetMessageContext] returns the destructor call it makes after it has
    released the lock.  [Api.v] puts the halves and the calls together. *)
From S2P Require Import Prelude Core Traps.

(** A destructor call [dtor(ctx)] to make once the lock is released. *)
Definition DtorCall : Type := option (Z * Z).

Definition with_bytes (b : list Z) (m : MessageObj) : MessageObj :=
  mkMessageObj b (msg_handles m) (committed m) (msg_context m) (serializer m)
    (destructor m).
Definition with_handles (hs : list Z) (m : MessageObj) : MessageObj :=
  mkMessageObj (msg_bytes m) hs (committed m) (msg_context m) (serializer m)
    (destructor m).
Definition with_committed (b : bool) (m : MessageObj) : MessageObj :=
  mkMessageObj (msg_bytes m) (msg_handles m) b (msg_context m) (serializer m)
    (destructor m).
Definition with_context (ctx : Z) (ser dtor : option Z) (m : MessageObj)
    : MessageObj :=
  mkMessageObj (msg_bytes m) (msg_handles m) (committed m) ctx ser dtor.

(** [std::vector::resize]: cut, or extend with zeros. *)
Definition resize (n : Z) (l : list Z) : list Z :=
  take (Z.to_nat n) l ++ replicate (Z.to_nat n - length l) 0.

(** The prologue the message operations share: look the handle up and cast,
    or answer [bad]. *)
Definition with_message {A} (message : Z) (bad : A) (k : MessageObj → M Core A)
    : M Core A :=
  let! c := get in
  match Lookup c message with
  | None => ret bad
  | Some slot =>
      if decide (kind slot = HandleKind_Message)
      then let! msg := of_option (as_MessageObj (obj slot)) in k msg
      else ret bad
  end.

Definition store_message (message : Z) (m : MessageObj) : M Core unit :=
  store_slot message (mkSlot HandleKind_Message (ObjMessage m)).

Definition WhpCreateMessage (message : bool) : M Core (Z * option Z) :=
  if negb message then ret (WHP_RESULT_INVALID_ARGUMENT, None)
  else
    let! h := Alloc HandleKind_Message (ObjMessage MessageObj_init) in
    ret (WHP_RESULT_OK, Some h).

(** [handles] is the array, empty when it is null or has no elements;
    [options] is the flags word, [None] for a null pointer.  The second
    component is what [*buffer] leads to and [*buffer_size]. *)
Definition WhpAppendMessageData (message additional_num_bytes : Z)
    (handles : list Z) (options : option Z) : M Core (Z * option (list Z * Z)) :=
  with_message message (WHP_RESULT_INVALID_ARGUMENT, None) (λ msg,
    if committed msg && negb (additional_num_bytes =? 0)
    then ret (WHP_RESULT_FAILED_PRECONDITION, None)
    else
      let bytes :=
        if additional_num_bytes =? 0 then msg_bytes msg
        else resize (Z.of_nat (length (msg_bytes msg)) + additional_num_bytes)
               (msg_bytes msg) in
      let commit :=
        match options with
        | Some fl =>
            negb (Z.land fl WHP_APPEND_MESSAGE_DATA_FLAG_COMMIT_SIZE =? 0)
        | None => false
        end in
      store_message message
        (mkMessageObj bytes (msg_handles msg ++ handles)
           (if commit then true else committed msg)
           (msg_context msg) (serializer msg) (destructor msg)) ;;
      ret (WHP_RESULT_OK, Some (bytes, u32 (Z.of_nat (length bytes))))).

(** What [WhpGetMessageData] writes through its out-parameters, [None] where
    it writes nothing. *)
Record MessageDataOut := mkMessageDataOut {
  md_bytes : option (list Z);
  md_num_bytes : option Z;
  md_handles : list Z;
  md_num_handles : option Z
}.

(** [handles] says whether the array is given; [num_handles] is its capacity. *)
Definition WhpGetMessageData (message : Z) (handles : bool)
    (num_handles : option Z) : M Core (Z * MessageDataOut) :=
  with_message message
    (WHP_RESULT_INVALID_ARGUMENT, mkMessageDataOut None None [] None) (λ msg,
    let size := u32 (Z.of_nat (length (msg_bytes msg))) in
    let have_handles := u32 (Z.of_nat (length (msg_handles msg))) in
    match num_handles with
    | Some cap =>
        if negb handles then
          if 0 <? have_handles then
            ret (WHP_RESULT_RESOURCE_EXHAUSTED,
                 mkMessageDataOut None (Some size) [] (Some have_handles))
          else
            ret (WHP_RESULT_OK,
                 mkMessageDataOut (Some (msg_bytes msg)) (Some size) [] (Some 0))
        else if cap <? have_handles then
          ret (WHP_RESULT_RESOURCE_EXHAUSTED,
               mkMessageDataOut None None [] (Some have_handles))
        else
          store_message message (with_handles [] msg) ;;
          ret (WHP_RESULT_OK,
               mkMessageDataOut (Some (msg_bytes msg)) (Some size)
                 (take (Z.to_nat have_handles) (msg_handles msg))
                 (Some have_handles))
    | None =>
        ret (WHP_RESULT_OK,
             mkMessageDataOut (Some (msg_bytes msg)) (Some size) [] None)
    end).

(** The first locked section: a result to return at once, or the serializer
    to run with its context. *)
Definition WhpSerializeMessage_begin (message : Z)
    : M Core (Z + option Z * Z) :=
  with_message message (inl WHP_RESULT_INVALID_ARGUMENT) (λ msg,
    if committed msg && bool_decide (serializer msg = None)
    then ret (inl WHP_RESULT_OK)
    else
      store_message message
        (with_context (msg_context msg) None (destructor msg) msg) ;;
      ret (inr (serializer msg, msg_context msg))).

(** The second locked section, with the destructor call that follows it. *)
Definition WhpSerializeMessage_end (message : Z) : M Core (Z * DtorCall) :=
  with_message message (WHP_RESULT_INVALID_ARGUMENT, None) (λ msg,
    store_message message (with_context 0 None None (with_committed true msg)) ;;
    ret (WHP_RESULT_OK, (λ d, (d, msg_context msg)) <$> destructor msg)).

Definition WhpReserveMessageCapacity (message payload_buffer_size : Z)
    : M Core (Z * option Z) :=
  with_message message (WHP_RESULT_INVALID_ARGUMENT, None) (λ msg,
    if committed msg then
      ret (WHP_RESULT_FAILED_PRECONDITION,
           Some (u32 (Z.of_nat (length (msg_bytes msg)))))
    else
      let bytes :=
        if Z.of_nat (length (msg_bytes msg)) <? payload_buffer_size
        then resize payload_buffer_size (msg_bytes msg) else msg_bytes msg in
      store_message message (with_bytes bytes msg) ;;
      ret (WHP_RESULT_OK, Some (u32 (Z.of_nat (length bytes))))).

Definition WhpSetMessageContext (message context : Z) (ser dtor : option Z)
    : M Core (Z * DtorCall) :=
  with_message message (WHP_RESULT_INVALID_ARGUMENT, None) (λ msg,
    store_message message (with_context context ser dtor msg) ;;
    ret (WHP_RESULT_OK, (λ d, (d, msg_context msg)) <$> destructor msg)).

Definition WhpGetMessageContext (message : Z) (context : bool)
    : M Core (Z * option Z) :=
  if negb context then ret (WHP_RESULT_INVALID_ARGUMENT, None)
  else
    with_message message (WHP_RESULT_INVALID_ARGUMENT, None) (λ msg,
      ret (WHP_RESULT_OK, Some (msg_context msg))).

(** ** Message pipes *)

Definition WhpCreateMessagePipe (handle0 handle1 : bool)
    : M Core (Z * option (Z * Z)) :=
  if negb handle0 || negb handle1 then ret (WHP_RESULT_INVALID_ARGUMENT, None)
  else
    let! state := make_PipeState PipeState_init in
    let! h0 := Alloc HandleKind_MessagePipe (ObjPipeEnd (mkPipeEnd state false)) in
    let! h1 := Alloc HandleKind_MessagePipe (ObjPipeEnd (mkPipeEnd state true)) in
    ret (WHP_RESULT_OK, Some (h0, h1)).

Definition with_pipe {A} (pipe : Z) (bad : A) (k : PipeEnd → M Core A)
    : M Core A :=
  let! c := get in
  match Lookup c pipe with
  | None => ret bad
  | Some slot =>
      if decide (kind slot = HandleKind_MessagePipe)
      then let! e := of_option (as_PipeEnd (obj slot)) in k e
      else ret bad
  end.

Definition set_queue (i : bool) (q : list MessageObj) (s : PipeState)
    : PipeState :=
  mkPipeState (upd (queues s) i q) (closed s) (quota_count s) (quota_bytes s).

Section host.
Context {host : Host}.

(** The locked section of [WhpWriteMessage], after serialization. *)
Definition WhpWriteMessage_locked (pipe message : Z) : M Core Z :=
  let! c := get in
  match Lookup c pipe, Lookup c message with
  | Some pipe_slot, Some msg_slot =>
      if decide (kind pipe_slot = HandleKind_MessagePipe) then
        if decide (kind msg_slot = HandleKind_Message) then
          let! e := of_option (as_PipeEnd (obj pipe_slot)) in
          let peer := negb (pe_end e) in
          let! st := get_pipe (pe_state e) in
          if sel (closed st) peer || sel (closed st) (pe_end e) then
            Free message ;;
            CollectTrapEvents ;;
            ret WHP_RESULT_FAILED_PRECONDITION
          else
            let! msg := of_option (as_MessageObj (obj msg_slot)) in
            let inbound := sel (queues st) peer in
            if (sel (quota_count st) peer <=? Z.of_nat (length inbound))
               || (sel (quota_bytes st) peer <?
                   u64 (QueueBytes inbound + Z.of_nat (length (msg_bytes msg))))
            then ret WHP_RESULT_RESOURCE_EXHAUSTED
            else
              put_pipe (pe_state e)
                (set_queue peer (inbound ++ [with_committed true msg]) st) ;;
              Free message ;;
              CollectTrapEvents ;;
              ret WHP_RESULT_OK
        else ret WHP_RESULT_INVALID_ARGUMENT
      else ret WHP_RESULT_INVALID_ARGUMENT
  | _, _ => ret WHP_RESULT_INVALID_ARGUMENT
  end.

Definition WhpReadMessage (pipe : Z) (message : bool) : M Core (Z * option Z) :=
  if negb message then ret (WHP_RESULT_INVALID_ARGUMENT, None)
  else
    with_pipe pipe (WHP_RESULT_INVALID_ARGUMENT, None) (λ e,
      let! st := get_pipe (pe_state e) in
      match sel (queues st) (pe_end e) with
      | [] =>
          if sel (closed st) (negb (pe_end e))
          then ret (WHP_RESULT_FAILED_PRECONDITION, None)
          else ret (WHP_RESULT_SHOULD_WAIT, None)
      | msg :: rest =>
          put_pipe (pe_state e) (set_queue (pe_end e) rest st) ;;
          let! h := Alloc HandleKind_Message (ObjMessage msg) in
          ret (WHP_RESULT_OK, Some h)
      end).

Definition WhpSetQuota (handle type limit : Z) : M Core Z :=
  with_pipe handle WHP_RESULT_INVALID_ARGUMENT (λ e,
    let! st := get_pipe (pe_state e) in
    if type =? WHP_QUOTA_TYPE_MAX_UNREAD_MESSAGE_COUNT then
      put_pipe (pe_state e)
        (mkPipeState (queues st) (closed st)
           (upd (quota_count st) (pe_end e) limit) (quota_bytes st)) ;;
      ret WHP_RESULT_OK
    else if type =? WHP_QUOTA_TYPE_MAX_UNREAD_MESSAGE_SIZE then
      put_pipe (pe_state e)
        (mkPipeState (queues st) (closed st) (quota_count st)
           (upd (quota_bytes st) (pe_end e) limit)) ;;
      ret WHP_RESULT_OK
    else ret WHP_RESULT_INVALID_ARGUMENT).

(** The limit and the usage. *)
Definition WhpQueryQuota (handle type : Z) (limit usage : bool)
    : M Core (Z * option (Z * Z)) :=
  if negb limit || negb usage then ret (WHP_RESULT_INVALID_ARGUMENT, None)
  else
    with_pipe handle (WHP_RESULT_INVALID_ARGUMENT, None) (λ e,
      let! st := get_pipe (pe_state e) in
      let q := sel (queues st) (pe_end e) in
      if type =? WHP_QUOTA_TYPE_MAX_UNREAD_MESSAGE_COUNT then
        ret (WHP_RESULT_OK,
             Some (sel (quota_count st) (pe_end e), Z.of_nat (length q)))
      else if type =? WHP_QUOTA_TYPE_MAX_UNREAD_MESSAGE_SIZE then
        ret (WHP_RESULT_OK, Some (sel (quota_bytes st) (pe_end e), QueueBytes q))
      else ret (WHP_RESULT_INVALID_ARGUMENT, None)).

(** The loop of [WhpFuseMessagePipes] over the handle table: the last slot
    that holds the other end of each pipe. *)
Fixpoint find_peers (c : Core) (handle0 handle1 : Z) (e0 e1 : PipeEnd)
    (idxs : list nat) (acc : option Z * option Z)
    : option (option Z * option Z) :=
  match idxs with
  | [] => Some acc
  | i :: idxs' =>
      let h := Z.of_nat i in
      if (h =? handle0) || (h =? handle1)
      then find_peers c handle0 handle1 e0 e1 idxs' acc
      else
        match Lookup c h with
        | None => find_peers c handle0 handle1 e0 e1 idxs' acc
        | Some s =>
            if decide (kind s = HandleKind_MessagePipe) then
              e ← as_PipeEnd (obj s);
              let p0 :=
                if (pe_state e =? pe_state e0)%nat
                   && negb (Bool.eqb (pe_end e) (pe_end e0))
                then Some h else fst acc in
              let p1 :=
                if (pe_state e =? pe_state e1)%nat
                   && negb (Bool.eqb (pe_end e) (pe_end e1))
                then Some h else snd acc in
              find_peers c handle0 handle1 e0 e1 idxs' (p0, p1)
            else find_peers c handle0 handle1 e0 e1 idxs' acc
        end
  end.

(** The state of the pipe that joins the two peers.  [end0] and [end1] are
    the ends of the fused handles; their peers are the other ends. *)
Definition fused_state (st0 st1 : PipeState) (end0 end1 : bool) : PipeState :=
  let peer0 := negb end0 in
  let peer1 := negb end1 in
  mkPipeState
    (mkTwo (sel (queues st0) peer0 ++ sel (queues st1) end1)
           (sel (queues st1) peer1 ++ sel (queues st0) end0))
    (mkTwo false false)
    (mkTwo (sel (quota_count st0) peer0) (sel (quota_count st1) peer1))
    (mkTwo (sel (quota_bytes st0) peer0) (sel (quota_bytes st1) peer1)).

(** The second half of [WhpFuseMessagePipes]: the peers move to the fused
    state and the two handles are freed.  The queues of the two old states
    are moved from; no handle leads to those states afterwards. *)
Definition fuse_commit (handle0 handle1 : Z) (e0 e1 : PipeEnd)
    (peer0 peer1 : Z) : M Core unit :=
  let! st0 := get_pipe (pe_state e0) in
  let! st1 := get_pipe (pe_state e1) in
  let! fused :=
    make_PipeState (fused_state st0 st1 (pe_end e0) (pe_end e1)) in
  store_slot peer0 (mkSlot HandleKind_MessagePipe
    (ObjPipeEnd (mkPipeEnd fused false))) ;;
  store_slot peer1 (mkSlot HandleKind_MessagePipe
    (ObjPipeEnd (mkPipeEnd fused true))) ;;
  Free handle0 ;;
  Free handle1.

Definition WhpFuseMessagePipes (handle0 handle1 : Z) : M Core Z :=
  let! c := get in
  match Lookup c handle0, Lookup c handle1 with
  | Some s0, Some s1 =>
      if bool_decide (kind s0 = HandleKind_MessagePipe)
         && bool_decide (kind s1 = HandleKind_MessagePipe)
         && negb (handle0 =? handle1) then
        let! e0 := of_option (as_PipeEnd (obj s0)) in
        let! e1 := of_option (as_PipeEnd (obj s1)) in
        if (pe_state e0 =? pe_state e1)%nat then ret WHP_RESULT_INVALID_ARGUMENT
        else
          let! ps := of_option (find_peers c handle0 handle1 e0 e1
                                  (seq 1 (length (slots c) - 1)) (None, None)) in
          match ps with
          | (Some peer0, Some peer1) =>
              fuse_commit handle0 handle1 e0 e1 peer0 peer1 ;;
              CollectTrapEvents ;;
              ret WHP_RESULT_OK
          | _ => ret WHP_RESULT_FAILED_PRECONDITION
          end
      else ret WHP_RESULT_INVALID_ARGUMENT
  | _, _ => ret WHP_RESULT_INVALID_ARGUMENT
  end.
End host.
