(* ===== verification/DataPipes.v ===== *)
(** * Data pipes

    The data-pipe operations of [WASMHolePunch/src/system/core.cc]: a ring
    buffer of bytes shared by a producer and a consumer, with one-shot and
    two-phase transfers.  [num_bytes] is the value behind the pointer, [None]
    for a null pointer; an operation returns its [WhpResult] and the value it
    writes back.  Sizes are [uint32_t]. *)
From S2P Require Import Prelude Core Traps.

Definition DataPipeState_init : DataPipeState :=
  mkDataPipeState 1 65536 [] 0 0 0 false false None 0 None 0.

Definition with_ring (b : list Z) (r w avail : Z) (s : DataPipeState)
    : DataPipeState :=
  mkDataPipeState (element_size s) (capacity s) b r w avail
    (producer_closed s) (consumer_closed s)
    (two_phase_write s) (two_phase_write_max s)
    (two_phase_read s) (two_phase_read_max s).
Definition with_two_phase_write (p : option Z) (mx : Z) (s : DataPipeState)
    : DataPipeState :=
  mkDataPipeState (element_size s) (capacity s) (buf s) (dp_r s) (dp_w s)
    (available s) (producer_closed s) (consumer_closed s) p mx
    (two_phase_read s) (two_phase_read_max s).
Definition with_two_phase_read (p : option Z) (mx : Z) (s : DataPipeState)
    : DataPipeState :=
  mkDataPipeState (element_size s) (capacity s) (buf s) (dp_r s) (dp_w s)
    (available s) (producer_closed s) (consumer_closed s)
    (two_phase_write s) (two_phase_write_max s) p mx.

(** [options] is [(element_num_bytes, capacity_num_bytes)]. *)
Definition WhpCreateDataPipe (options : option (Z * Z)) (producer consumer : bool)
    : M Core (Z * option (Z * Z)) :=
  if negb producer || negb consumer
  then ret (WHP_RESULT_INVALID_ARGUMENT, None)
  else
    let '(elem, cap) :=
      match options with
      | Some (e, cp) => (if e =? 0 then 1 else e, if cp =? 0 then 65536 else cp)
      | None => (1, 65536)
      end in
    let! state := make_DataPipeState
      (mkDataPipeState elem cap (replicate (Z.to_nat cap) 0) 0 0 0 false false
         None 0 None 0) in
    let! p := Alloc HandleKind_DataPipeProducer
                (ObjDataPipeEnd (mkDataPipeEnd state true)) in
    let! cn := Alloc HandleKind_DataPipeConsumer
                (ObjDataPipeEnd (mkDataPipeEnd state false)) in
    ret (WHP_RESULT_OK, Some (p, cn)).

Definition with_data_pipe {A} (k : HandleKind) (h : Z) (bad : A)
    (body : nat → DataPipeState → M Core A) : M Core A :=
  let! c := get in
  match Lookup c h with
  | None => ret bad
  | Some slot =>
      if decide (kind slot = k) then
        let! e := of_option (as_DataPipeEnd (obj slot)) in
        let! s := get_data (de_state e) in
        body (de_state e) s
      else ret bad
  end.

(** [s.buf[s.w] = src[i]; s.w = (s.w + 1) % s.capacity;] for each byte; an
    index out of the buffer is undefined behaviour. *)
Fixpoint write_ring (cap : Z) (src : list Z) (b : list Z) (w : Z)
    : option (list Z * Z) :=
  match src with
  | [] => Some (b, w)
  | x :: src' =>
      if (Z.to_nat w <? length b)%nat
      then write_ring cap src' (<[Z.to_nat w := x]> b) (u32 (w + 1) mod cap)
      else None
  end.

(** [dst[i] = s.buf[s.r]; s.r = (s.r + 1) % s.capacity;], [n] times. *)
Fixpoint read_ring (cap : Z) (n : nat) (b : list Z) (r : Z)
    : option (list Z * Z) :=
  match n with
  | O => Some ([], r)
  | S n' =>
      x ← b !! Z.to_nat r;
      '(xs, r') ← read_ring cap n' b (u32 (r + 1) mod cap);
      Some (x :: xs, r')
  end.

(** How much of a request a transfer moves: [min(want, limit)] rounded down to
    whole elements. *)
Definition whole (elem n : Z) : Z := n - n mod elem.

(** [elements] is the source array; the caller supplies at least the bytes the
    transfer takes. *)
Definition WhpWriteData (producer : Z) (elements : list Z)
    (num_bytes : option Z) : M Core (Z * option Z) :=
  match num_bytes with
  | None => ret (WHP_RESULT_INVALID_ARGUMENT, None)
  | Some want =>
      with_data_pipe HandleKind_DataPipeProducer producer
        (WHP_RESULT_INVALID_ARGUMENT, None) (λ id s,
        if consumer_closed s then ret (WHP_RESULT_FAILED_PRECONDITION, None)
        else
          let space := u32 (capacity s - available s) in
          if negb (want mod element_size s =? 0)
          then ret (WHP_RESULT_INVALID_ARGUMENT, None)
          else
            let n := whole (element_size s) (Z.min want space) in
            if n =? 0 then ret (WHP_RESULT_SHOULD_WAIT, Some 0)
            else
              let! '(b, w) := of_option
                (write_ring (capacity s) (take (Z.to_nat n) elements) (buf s)
                   (dp_w s)) in
              put_data id (with_ring b (dp_r s) w (u32 (available s + n)) s) ;;
              CollectTrapEvents ;;
              ret (WHP_RESULT_OK, Some n))
  end.

(** The bytes read are the third component. *)
Definition WhpReadData (consumer : Z) (num_bytes : option Z)
    : M Core (Z * option Z * list Z) :=
  match num_bytes with
  | None => ret (WHP_RESULT_INVALID_ARGUMENT, None, [])
  | Some want =>
      with_data_pipe HandleKind_DataPipeConsumer consumer
        (WHP_RESULT_INVALID_ARGUMENT, None, []) (λ id s,
        if negb (want mod element_size s =? 0)
        then ret (WHP_RESULT_INVALID_ARGUMENT, None, [])
        else
          let n := whole (element_size s) (Z.min want (available s)) in
          if n =? 0 then
            ret (if producer_closed s then WHP_RESULT_FAILED_PRECONDITION
                 else WHP_RESULT_SHOULD_WAIT, Some 0, [])
          else
            let! '(xs, r) := of_option
              (read_ring (capacity s) (Z.to_nat n) (buf s) (dp_r s)) in
            put_data id
              (with_ring (buf s) r (dp_w s) (u32 (available s - n)) s) ;;
            CollectTrapEvents ;;
            ret (WHP_RESULT_OK, Some n, xs))
  end.

(** The buffer returned is its offset in [buf] and its length. *)
Definition WhpBeginWriteData (producer : Z) (buffer : bool) (num_bytes : option Z)
    : M Core (Z * option (Z * Z)) :=
  match num_bytes with
  | None => ret (WHP_RESULT_INVALID_ARGUMENT, None)
  | Some want =>
      if negb buffer then ret (WHP_RESULT_INVALID_ARGUMENT, None)
      else
        with_data_pipe HandleKind_DataPipeProducer producer
          (WHP_RESULT_INVALID_ARGUMENT, None) (λ id s,
          match two_phase_write s with
          | Some _ => ret (WHP_RESULT_BUSY, None)
          | None =>
              let space := u32 (capacity s - available s) in
              let contig := u32 (capacity s - dp_w s) in
              let n := whole (element_size s)
                         (Z.min (Z.min space contig) want) in
              if n =? 0 then ret (WHP_RESULT_SHOULD_WAIT, None)
              else
                put_data id (with_two_phase_write (Some (dp_w s)) n s) ;;
                ret (WHP_RESULT_OK, Some (dp_w s, n))
          end)
  end.

Definition WhpEndWriteData (producer num_bytes_written : Z) : M Core Z :=
  with_data_pipe HandleKind_DataPipeProducer producer
    WHP_RESULT_INVALID_ARGUMENT (λ id s,
    match two_phase_write s with
    | None => ret WHP_RESULT_FAILED_PRECONDITION
    | Some _ =>
        if (two_phase_write_max s <? num_bytes_written)
           || negb (num_bytes_written mod element_size s =? 0)
        then
          put_data id (with_two_phase_write None (two_phase_write_max s) s) ;;
          ret WHP_RESULT_INVALID_ARGUMENT
        else
          put_data id (with_two_phase_write None (two_phase_write_max s)
            (with_ring (buf s) (dp_r s)
               (u32 (dp_w s + num_bytes_written) mod capacity s)
               (u32 (available s + num_bytes_written)) s)) ;;
          CollectTrapEvents ;;
          ret WHP_RESULT_OK
    end).

Definition WhpBeginReadData (consumer : Z) (buffer : bool) (num_bytes : option Z)
    : M Core (Z * option (Z * Z)) :=
  match num_bytes with
  | None => ret (WHP_RESULT_INVALID_ARGUMENT, None)
  | Some want =>
      if negb buffer then ret (WHP_RESULT_INVALID_ARGUMENT, None)
      else
        with_data_pipe HandleKind_DataPipeConsumer consumer
          (WHP_RESULT_INVALID_ARGUMENT, None) (λ id s,
          match two_phase_read s with
          | Some _ => ret (WHP_RESULT_BUSY, None)
          | None =>
              let contig := u32 (capacity s - dp_r s) in
              let n := whole (element_size s)
                         (Z.min (Z.min (available s) contig) want) in
              if n =? 0 then
                ret (if producer_closed s then WHP_RESULT_FAILED_PRECONDITION
                     else WHP_RESULT_SHOULD_WAIT, None)
              else
                put_data id (with_two_phase_read (Some (dp_r s)) n s) ;;
                ret (WHP_RESULT_OK, Some (dp_r s, n))
          end)
  end.

Definition WhpEndReadData (consumer num_bytes_read : Z) : M Core Z :=
  with_data_pipe HandleKind_DataPipeConsumer consumer
    WHP_RESULT_INVALID_ARGUMENT (λ id s,
    match two_phase_read s with
    | None => ret WHP_RESULT_FAILED_PRECONDITION
    | Some _ =>
        if (two_phase_read_max s <? num_bytes_read)
           || negb (num_bytes_read mod element_size s =? 0)
        then
          put_data id (with_two_phase_read None (two_phase_read_max s) s) ;;
          ret WHP_RESULT_INVALID_ARGUMENT
        else
          put_data id (with_two_phase_read None (two_phase_read_max s)
            (with_ring (buf s)
               (u32 (dp_r s + num_bytes_read) mod capacity s) (dp_w s)
               (u32 (available s - num_bytes_read)) s)) ;;
          CollectTrapEvents ;;
          ret WHP_RESULT_OK
    end).

(** The client's writes through the pointer a two-phase write returned. *)
Definition poke_two_phase (h off : Z) (bs : list Z) : M Core unit :=
  with_data_pipe HandleKind_DataPipeProducer h tt (λ id s,
    put_data id (with_ring
      (take (Z.to_nat off) (buf s) ++ bs
         ++ drop (Z.to_nat off + length bs) (buf s))
      (dp_r s) (dp_w s) (available s) s)).
