(* ===== verification/Buffers.v ===== *)
(** * Shared buffers and platform handles

    The shared-buffer and platform-handle operations of
    [WASMHolePunch/src/system/core.cc].  Handles of the operating system that
    the core gives back are appended to [native_closed]. *)
From S2P Require Import Prelude Core.

Definition with_bytes_size (n : Z) (b : SharedBufferObj) : SharedBufferObj :=
  mkSharedBufferObj n (sb_size b) (sb_plat_types b) (sb_plat_values b)
    (sb_plat_count b) (sb_plat_owns b) (sb_guid_high b) (sb_guid_low b)
    (sb_access_mode b) (sb_os_base b) (sb_os_mapped_size b).
Definition with_os_view (b : SharedBufferObj) : SharedBufferObj :=
  mkSharedBufferObj (sb_bytes b) (sb_size b) (sb_plat_types b) (sb_plat_values b)
    (sb_plat_count b) (sb_plat_owns b) (sb_guid_high b) (sb_guid_low b)
    (sb_access_mode b) true (sb_size b).
Definition with_plat_owns (o : bool) (b : SharedBufferObj) : SharedBufferObj :=
  mkSharedBufferObj (sb_bytes b) (sb_size b) (sb_plat_types b) (sb_plat_values b)
    (sb_plat_count b) o (sb_guid_high b) (sb_guid_low b)
    (sb_access_mode b) (sb_os_base b) (sb_os_mapped_size b).

Definition with_kind {A} (k : HandleKind) (h : Z) (bad : A)
    (body : SlotObj → M Core A) : M Core A :=
  let! c := get in
  match Lookup c h with
  | None => ret bad
  | Some slot =>
      if decide (kind slot = k) then body (obj slot) else ret bad
  end.

Definition with_buffer {A} (h : Z) (bad : A)
    (body : nat → SharedBufferObj → M Core A) : M Core A :=
  with_kind HandleKind_SharedBuffer h bad (λ o,
    let! id := of_option (as_SharedBufferObj o) in
    let! b := get_buffer id in
    body id b).

Section host.
Context {host : Host}.

(** The buffer after [EnsureMapped], [None] where it returns [false]. *)
Definition EnsureMapped (b : SharedBufferObj) : option SharedBufferObj :=
  if sb_os_base b || negb (sb_bytes b =? 0) then Some b
  else if (sb_plat_count b =? 0) || (sb_size b =? 0) then None
  else if at0 (sb_plat_types b) =? WHP_PLATFORM_HANDLE_TYPE_MACH_PORT
  then Some (with_bytes_size (sb_size b) b)
  else
    match host_os with
    | Windows =>
        if negb (at0 (sb_plat_types b) =?
                 WHP_PLATFORM_HANDLE_TYPE_WINDOWS_HANDLE) then None
        else if os_map_view (at0 (sb_plat_values b)) (sb_size b)
                  (sb_access_mode b)
        then Some (with_os_view b) else None
    | _ =>
        if negb (at0 (sb_plat_types b) =?
                 WHP_PLATFORM_HANDLE_TYPE_FILE_DESCRIPTOR) then None
        else if os_map_view (at0 (sb_plat_values b)) (sb_size b)
                  (sb_access_mode b)
        then Some (with_os_view b) else None
    end.

Definition WhpCreateSharedBuffer (num_bytes : Z) (buffer : bool)
    : M Core (Z * option Z) :=
  if negb buffer || (num_bytes =? 0)
  then ret (WHP_RESULT_INVALID_ARGUMENT, None)
  else
    let! id := make_SharedBuffer
      (mkSharedBufferObj num_bytes num_bytes (mkTwo 0 0) (mkTwo 0 0) 0 false
         0 0 0 false 0) in
    let! h := Alloc HandleKind_SharedBuffer (ObjSharedBuffer id) in
    ret (WHP_RESULT_OK, Some h).

Definition WhpDuplicateBufferHandle (buffer : Z) (new_handle : bool)
    : M Core (Z * option Z) :=
  if negb new_handle then ret (WHP_RESULT_INVALID_ARGUMENT, None)
  else
    with_kind HandleKind_SharedBuffer buffer
      (WHP_RESULT_INVALID_ARGUMENT, None) (λ o,
      let! h := Alloc HandleKind_SharedBuffer o in
      ret (WHP_RESULT_OK, Some h)).

Definition WhpGetBufferInfo (buffer : Z) (num_bytes : bool)
    : M Core (Z * option Z) :=
  if negb num_bytes then ret (WHP_RESULT_INVALID_ARGUMENT, None)
  else
    with_buffer buffer (WHP_RESULT_INVALID_ARGUMENT, None) (λ _ b,
      ret (WHP_RESULT_OK, Some (sb_size b))).

(** A pointer into a mapped buffer is the buffer's id and an offset, so no two buffers have
    one in common.  Where [offset + num_bytes] wraps, the code's test lets an offset beyond
    the buffer through, and the pointer that it then computes, which C++ leaves undefined,
    is here such a pair, which nothing reads or writes through. *)
Definition WhpMapBuffer (buffer offset num_bytes : Z) (data : bool)
    : M Core (Z * option MapPtr) :=
  if negb data then ret (WHP_RESULT_INVALID_ARGUMENT, None)
  else
    with_buffer buffer (WHP_RESULT_INVALID_ARGUMENT, None) (λ id b,
      match EnsureMapped b with
      | None => ret (WHP_RESULT_FAILED_PRECONDITION, None)
      | Some b' =>
          put_buffer id b' ;;
          let span := if sb_os_base b' then sb_size b' else sb_bytes b' in
          if span <? u64 (offset + num_bytes)
          then ret (WHP_RESULT_OUT_OF_RANGE, None)
          else
            let p : MapPtr := (id, offset) in
            let! c := get in
            let refs := match maps c !! p with
                        | Some r => mr_refs r | None => 0 end in
            modify (set_maps (λ m, <[p := mkMappedRegion id (refs + 1)]> m)) ;;
            ret (WHP_RESULT_OK, Some p)
      end).

Definition WhpUnmapBuffer (data : MapPtr) : M Core Z :=
  let! c := get in
  match maps c !! data with
  | None => ret WHP_RESULT_INVALID_ARGUMENT
  | Some r =>
      if mr_refs r <=? 0 then ret WHP_RESULT_INVALID_ARGUMENT
      else if mr_refs r - 1 =? 0 then
        modify (set_maps (delete data)) ;;
        release_buffer (mr_buf r) ;;
        ret WHP_RESULT_OK
      else
        modify (set_maps (λ m,
          <[data := mkMappedRegion (mr_buf r) (mr_refs r - 1)]> m)) ;;
        ret WHP_RESULT_OK
  end.

Definition WhpWrapPlatformHandle (type value : Z) (handle : bool)
    : M Core (Z * option Z) :=
  if negb handle then ret (WHP_RESULT_INVALID_ARGUMENT, None)
  else if negb (PlatformTypeOkForHost type)
  then ret (WHP_RESULT_INVALID_ARGUMENT, None)
  else if (type =? WHP_PLATFORM_HANDLE_TYPE_MACH_PORT) && (value =? 0)
  then ret (WHP_RESULT_INVALID_ARGUMENT, None)
  else if match host_os with
          | Windows => (value =? 0) || (value =? 2 ^ 64 - 1)
          | _ => false end
  then ret (WHP_RESULT_INVALID_ARGUMENT, None)
  else
    let! h := Alloc HandleKind_Platform
                (ObjPlatform (mkPlatformObj type value true)) in
    ret (WHP_RESULT_OK, Some h).

(** Returns the type and the value. *)
Definition WhpUnwrapPlatformHandle (handle : Z) (type value : bool)
    : M Core (Z * option (Z * Z)) :=
  if negb type || negb value then ret (WHP_RESULT_INVALID_ARGUMENT, None)
  else
    with_kind HandleKind_Platform handle (WHP_RESULT_INVALID_ARGUMENT, None)
      (λ o,
      let! p := of_option (as_PlatformObj o) in
      store_slot handle (mkSlot HandleKind_Platform
        (ObjPlatform (mkPlatformObj (plat_type p) (plat_value p) false))) ;;
      Free handle ;;
      ret (WHP_RESULT_OK, Some (plat_type p, plat_value p))).

(** The entries the validation loop accepts. *)
Definition region_handle_ok (tv : Z * Z) : bool :=
  PlatformTypeOkForHost (fst tv) &&
  negb ((fst tv =? WHP_PLATFORM_HANDLE_TYPE_MACH_PORT) && (snd tv =? 0)).

(** [plats] pairs the [num_handles] entries of [types] and [values]; [None]
    stands for a null array. *)
Definition WhpWrapPlatformSharedMemoryRegion (plats : option (list (Z * Z)))
    (num_bytes guid_high guid_low access_mode : Z) (handle : bool)
    : M Core (Z * option Z) :=
  match plats with
  | None => ret (WHP_RESULT_INVALID_ARGUMENT, None)
  | Some tvs =>
      let num_handles := Z.of_nat (length tvs) in
      if negb handle || (num_bytes =? 0) || (num_handles =? 0)
         || (2 <? num_handles)
      then ret (WHP_RESULT_INVALID_ARGUMENT, None)
      else if negb (forallb region_handle_ok tvs)
      then ret (WHP_RESULT_INVALID_ARGUMENT, None)
      else
        let tv0 := nth 0 tvs (0, 0) in
        let tv1 := nth 1 tvs (0, 0) in
        let bytes :=
          if fst tv0 =? WHP_PLATFORM_HANDLE_TYPE_MACH_PORT
          then num_bytes else 0 in
        let! id := make_SharedBuffer
          (mkSharedBufferObj bytes num_bytes (mkTwo (fst tv0) (fst tv1))
             (mkTwo (snd tv0) (snd tv1)) num_handles true guid_high guid_low
             access_mode false 0) in
        let! h := Alloc HandleKind_SharedBuffer (ObjSharedBuffer id) in
        ret (WHP_RESULT_OK, Some h)
  end.

Record RegionOut := mkRegionOut {
  ro_plats : list (Z * Z);
  ro_num_bytes : Z;
  ro_guid_high : Z;
  ro_guid_low : Z;
  ro_access_mode : Z
}.

(** The first [plat_count] entries of the two arrays. *)
Definition plat_list (b : SharedBufferObj) : list (Z * Z) :=
  take (Z.to_nat (sb_plat_count b))
    [(at0 (sb_plat_types b), at0 (sb_plat_values b));
     (at1 (sb_plat_types b), at1 (sb_plat_values b))].

(** [arrays] says whether both [types] and [values] are given.  Returns the
    result, the new [*num_handles] if written, and what the other
    out-parameters receive. *)
Definition WhpUnwrapPlatformSharedMemoryRegion (handle : Z) (arrays : bool)
    (num_handles : option Z) : M Core (Z * option Z * option RegionOut) :=
  match num_handles with
  | None => ret (WHP_RESULT_INVALID_ARGUMENT, None, None)
  | Some cap =>
      with_buffer handle (WHP_RESULT_INVALID_ARGUMENT, None, None) (λ id b,
        let have := sb_plat_count b in
        if have =? 0 then ret (WHP_RESULT_FAILED_PRECONDITION, None, None)
        else if negb arrays || (cap <? have)
        then ret (WHP_RESULT_RESOURCE_EXHAUSTED, Some have, None)
        else
          put_buffer id (with_plat_owns false b) ;;
          Free handle ;;
          ret (WHP_RESULT_OK, Some have,
               Some (mkRegionOut (plat_list b) (sb_size b) (sb_guid_high b)
                       (sb_guid_low b) (sb_access_mode b))))
  end.
End host.
