(* ===== verification/Api.v ===== *)
(** * The kernel's entry points

    [WhpClose], the operations that call back into the client outside the
    lock, and the transition system of the whole kernel: every locked section
    of [WASMHolePunch/src/system/core.cc] is one [action], so a sequence of
    actions is an interleaving of the operations of any number of threads. *)
From S2P Require Import Prelude Core Traps Messages DataPipes Buffers.

Section host.
Context {host : Host}.

Definition close_pipe_end (e : PipeEnd) : M Core unit :=
  let! st := get_pipe (pe_state e) in
  put_pipe (pe_state e)
    (mkPipeState (queues st) (upd (closed st) (pe_end e) true)
       (quota_count st) (quota_bytes st)).

Definition close_data_end (producer : bool) (e : DataPipeEnd) : M Core unit :=
  let! s := get_data (de_state e) in
  put_data (de_state e)
    (mkDataPipeState (element_size s) (capacity s) (buf s) (dp_r s) (dp_w s)
       (available s) (producer || producer_closed s)
       (negb producer || consumer_closed s)
       (two_phase_write s) (two_phase_write_max s)
       (two_phase_read s) (two_phase_read_max s)).

(** Pending events whose context is one of the trap's own triggers'. *)
Definition event_of_triggers (ts : list TrapTrigger) (e : PendingEvent) : bool :=
  existsb (λ t, trig_context t =? trigger_context (pe_event e)) ts.

(** The part of [WhpClose] that depends on the kind of handle; the result is
    the destructor call to make after the lock is released. *)
Definition close_kind (handle : Z) (slot : Slot) : M Core DtorCall :=
  match kind slot with
  | HandleKind_MessagePipe =>
      let! e := of_option (as_PipeEnd (obj slot)) in
      close_pipe_end e ;; ret None
  | HandleKind_DataPipeProducer =>
      let! e := of_option (as_DataPipeEnd (obj slot)) in
      close_data_end true e ;; ret None
  | HandleKind_DataPipeConsumer =>
      let! e := of_option (as_DataPipeEnd (obj slot)) in
      close_data_end false e ;; ret None
  | HandleKind_Trap =>
      let! t := of_option (as_TrapObj (obj slot)) in
      modify (set_pending (erase_if (event_of_triggers (triggers t)))) ;;
      modify (set_traps (erase_if (λ h, h =? handle))) ;;
      ret None
  | HandleKind_Message =>
      let! m := of_option (as_MessageObj (obj slot)) in
      store_message handle (with_context (msg_context m) None None m) ;;
      ret ((λ d, (d, msg_context m)) <$> destructor m)
  | HandleKind_Platform =>
      let! p := of_option (as_PlatformObj (obj slot)) in
      if plat_owned p then
        modify (log_native (CloseNativePlatform (plat_type p) (plat_value p))) ;;
        store_slot handle (mkSlot HandleKind_Platform
          (ObjPlatform (mkPlatformObj (plat_type p) (plat_value p) false))) ;;
        ret None
      else ret None
  | _ => ret None
  end.

(** The locked section of [WhpClose]. *)
Definition WhpClose_locked (handle : Z) : M Core (Z * DtorCall) :=
  let! c := get in
  match Lookup c handle with
  | None => ret (WHP_RESULT_INVALID_ARGUMENT, None)
  | Some slot =>
      let! d := close_kind handle slot in
      Free handle ;;
      CollectTrapEvents ;;
      ret (WHP_RESULT_OK, d)
  end.

(** ** Locked sections as actions *)

Inductive action :=
  | A_Init
  | A_PumpEvents_take
  | A_Close (handle : Z)
  | A_Query (handle : Z) (state : bool)
  | A_CreateMessagePipe (h0 h1 : bool)
  | A_CreateMessage (message : bool)
  | A_AppendMessageData (message n : Z) (handles : list Z) (options : option Z)
  | A_GetMessageData (message : Z) (handles : bool) (num_handles : option Z)
  | A_Serialize_begin (message : Z)
  | A_Serialize_end (message : Z)
  | A_ReserveMessageCapacity (message n : Z)
  | A_SetMessageContext (message context : Z) (ser dtor : option Z)
  | A_GetMessageContext (message : Z) (context : bool)
  | A_WriteMessage (pipe message : Z)
  | A_ReadMessage (pipe : Z) (message : bool)
  | A_SetQuota (handle type limit : Z)
  | A_QueryQuota (handle type : Z) (limit usage : bool)
  | A_FuseMessagePipes (h0 h1 : Z)
  | A_CreateTrap (hd : option Z) (trap : bool)
  | A_AddTrigger (trap handle signals condition context : Z)
  | A_RemoveTrigger (trap context : Z)
  | A_ArmTrap (trap : Z) (num : option Z) (events : bool)
  | A_CreateDataPipe (options : option (Z * Z)) (producer consumer : bool)
  | A_WriteData (producer : Z) (elements : list Z) (num_bytes : option Z)
  | A_ReadData (consumer : Z) (num_bytes : option Z)
  | A_BeginWriteData (producer : Z) (buffer : bool) (num_bytes : option Z)
  | A_EndWriteData (producer n : Z)
  | A_BeginReadData (consumer : Z) (buffer : bool) (num_bytes : option Z)
  | A_EndReadData (consumer n : Z)
  | A_CreateSharedBuffer (num_bytes : Z) (buffer : bool)
  | A_DuplicateBufferHandle (buffer : Z) (new_handle : bool)
  | A_GetBufferInfo (buffer : Z) (num_bytes : bool)
  | A_MapBuffer (buffer offset num_bytes : Z) (data : bool)
  | A_UnmapBuffer (data : MapPtr)
  | A_WrapPlatformHandle (type value : Z) (handle : bool)
  | A_UnwrapPlatformHandle (handle : Z) (type value : bool)
  | A_WrapRegion (plats : option (list (Z * Z)))
      (num_bytes guid_high guid_low access_mode : Z) (handle : bool)
  | A_UnwrapRegion (handle : Z) (arrays : bool) (num_handles : option Z).

Definition discard {A} (m : M Core A) : M Core unit := m ;; ret tt.

(** [WhpInit] takes no lock.  All that it does to the core is to set [inited], which
    nothing reads, so it makes no difference between which locked sections it falls. *)
Definition WhpInit_write : M Core Z :=
  modify (set_inited true) ;; ret WHP_RESULT_OK.

Definition exec (a : action) : M Core unit :=
  match a with
  | A_Init => discard WhpInit_write
  | A_PumpEvents_take => discard WhpPumpEvents_take
  | A_Close h => discard (WhpClose_locked h)
  | A_Query h s => discard (WhpQueryHandleSignalsState h s)
  | A_CreateMessagePipe h0 h1 => discard (WhpCreateMessagePipe h0 h1)
  | A_CreateMessage m => discard (WhpCreateMessage m)
  | A_AppendMessageData m n hs o => discard (WhpAppendMessageData m n hs o)
  | A_GetMessageData m hs n => discard (WhpGetMessageData m hs n)
  | A_Serialize_begin m => discard (WhpSerializeMessage_begin m)
  | A_Serialize_end m => discard (WhpSerializeMessage_end m)
  | A_ReserveMessageCapacity m n => discard (WhpReserveMessageCapacity m n)
  | A_SetMessageContext m x s d => discard (WhpSetMessageContext m x s d)
  | A_GetMessageContext m x => discard (WhpGetMessageContext m x)
  | A_WriteMessage p m => discard (WhpWriteMessage_locked p m)
  | A_ReadMessage p m => discard (WhpReadMessage p m)
  | A_SetQuota h t l => discard (WhpSetQuota h t l)
  | A_QueryQuota h t l u => discard (WhpQueryQuota h t l u)
  | A_FuseMessagePipes h0 h1 => discard (WhpFuseMessagePipes h0 h1)
  | A_CreateTrap hd t => discard (WhpCreateTrap hd t)
  | A_AddTrigger t h s cd x => discard (WhpAddTrigger t h s cd x)
  | A_RemoveTrigger t x => discard (WhpRemoveTrigger t x)
  | A_ArmTrap t n e => discard (WhpArmTrap t n e)
  | A_CreateDataPipe o p cn => discard (WhpCreateDataPipe o p cn)
  | A_WriteData p es n => discard (WhpWriteData p es n)
  | A_ReadData cn n => discard (WhpReadData cn n)
  | A_BeginWriteData p b n => discard (WhpBeginWriteData p b n)
  | A_EndWriteData p n => discard (WhpEndWriteData p n)
  | A_BeginReadData cn b n => discard (WhpBeginReadData cn b n)
  | A_EndReadData cn n => discard (WhpEndReadData cn n)
  | A_CreateSharedBuffer n b => discard (WhpCreateSharedBuffer n b)
  | A_DuplicateBufferHandle b n => discard (WhpDuplicateBufferHandle b n)
  | A_GetBufferInfo b n => discard (WhpGetBufferInfo b n)
  | A_MapBuffer b o n d => discard (WhpMapBuffer b o n d)
  | A_UnmapBuffer d => discard (WhpUnmapBuffer d)
  | A_WrapPlatformHandle t v h => discard (WhpWrapPlatformHandle t v h)
  | A_UnwrapPlatformHandle h t v => discard (WhpUnwrapPlatformHandle h t v)
  | A_WrapRegion ps n gh gl am h =>
      discard (WhpWrapPlatformSharedMemoryRegion ps n gh gl am h)
  | A_UnwrapRegion h ar n =>
      discard (WhpUnwrapPlatformSharedMemoryRegion h ar n)
  end.

(** The arguments the C types can carry, where an operation depends on it:
    element size and capacity are [uint32_t]. *)
Definition options_ok (o : option (Z * Z)) : Prop :=
  match o with
  | Some (e, cp) => 0 <= e < 2 ^ 32 ∧ 0 <= cp < 2 ^ 32
  | None => True
  end.
Definition action_ok (a : action) : Prop :=
  match a with
  | A_CreateDataPipe o _ _ => options_ok o
  | _ => True
  end.

(** One locked section of some thread. *)
Inductive core_step (c c' : Core) : Prop :=
  | core_step_exec a : action_ok a → exec a c = Some (tt, c') → core_step c c'.

Definition reachable (c : Core) : Prop := rtc core_step Core_init c.
End host.

(** ** Callbacks

    The client code the kernel runs outside the lock.  It can reach the core
    only through the kernel's entry points, hence through locked sections. *)
Class Client {host : Host} := {
  call_serializer : Z → Z → Z → Core → Core;
  call_destructor : Z → Z → Core → Core;
  call_trap_handler : Z → WhpTrapEvent → Core → Core
}.

Class ClientOk {host : Host} (client : Client) := {
  call_serializer_steps f ctx m c : rtc core_step c (call_serializer f ctx m c);
  call_destructor_steps f ctx c : rtc core_step c (call_destructor f ctx c);
  call_trap_handler_steps f ev c : rtc core_step c (call_trap_handler f ev c)
}.

Section api.
Context {host : Host} {client : Client}.

Definition call_dtor (d : DtorCall) : M Core unit :=
  match d with
  | Some (f, ctx) => modify (call_destructor f ctx)
  | None => ret tt
  end.

Definition WhpInit : M Core Z := WhpInit_write.

Definition WhpClose (handle : Z) : M Core Z :=
  let! '(r, d) := WhpClose_locked handle in
  call_dtor d ;; ret r.

Definition WhpDestroyMessage (message : Z) : M Core Z := WhpClose message.

Definition WhpSerializeMessage (message : Z) : M Core Z :=
  let! b := WhpSerializeMessage_begin message in
  match b with
  | inl r => ret r
  | inr (ser, ctx) =>
      match ser with
      | Some f => modify (call_serializer f ctx message)
      | None => ret tt
      end ;;
      let! '(r, d) := WhpSerializeMessage_end message in
      call_dtor d ;; ret r
  end.

Definition WhpSetMessageContext_full (message context : Z)
    (ser dtor : option Z) : M Core Z :=
  let! '(r, d) := WhpSetMessageContext message context ser dtor in
  call_dtor d ;; ret r.

Definition WhpWriteMessage (pipe message : Z) : M Core Z :=
  let! ser := WhpSerializeMessage message in
  if negb (ser =? WHP_RESULT_OK) then ret ser
  else WhpWriteMessage_locked pipe message.

Fixpoint fire_events (es : list PendingEvent) : M Core unit :=
  match es with
  | [] => ret tt
  | e :: es' =>
      modify (call_trap_handler (pe_handler e) (pe_event e)) ;; fire_events es'
  end.

Definition WhpPumpEvents : M Core Z :=
  let! es := WhpPumpEvents_take in
  fire_events es ;; ret WHP_RESULT_OK.
End api.
