(* ===== verification/Thunk.v ===== *)
(** * The Mojo C entry points

    [WASMThunker/src/thunk.cc]: the [Mojo*] functions over the kernel's [Whp*]
    functions, and the registry of invitations.  A [MojoResult] is numerically
    a [WhpResult].  Out-pointers the code dereferences without a test are taken
    to be valid and are results here; those it tests are [bool]s or options.

    The transport of a cross-process invitation (a UDP socket adopted from the
    endpoint's platform handle, then [whp::platform::Invitation::Attach]) is
    decided by the operating system: whether it comes up is the parameter
    [punch_attach]. *)
From S2P Require Import Prelude Core Traps Messages DataPipes Buffers Api.

Definition kInvitationHandleBase : Z := 4026531840.  (* 0xF0000000 *)

(** [sizeof] of the two structures whose [struct_size] is checked. *)
Definition sizeof_MojoPlatformHandle : Z := 16.
Definition sizeof_MojoSharedBufferInfo : Z := 16.

Class Transport := {
  punch : Type;
  punch_attach : Z → bool → option punch  (** socket value, offerer *)
}.

Record MojoPlatformHandle := mkMojoPlatformHandle {
  mph_struct_size : Z;
  mph_type : Z;
  mph_value : Z
}.

Section thunk.
Context {host : Host} {client : Client} {transport : Transport}.

Record ThunkInvitation := mkThunkInvitation {
  attached : gmap (list Z) Z;  (* a [std::string] name is a byte list *)
  inv_punch : option punch
}.

(** [SentInvitation] has the same fields; it has no destructor of its own. *)
Record SentInvitation := mkSentInvitation {
  sent_attached : gmap (list Z) Z;
  sent_punch : option punch
}.

(** The globals, with the kernel they call and the bad-message reports the
    default process error handler received (handler, error text). *)
Record Thunk := mkThunk {
  core : Core;
  g_invitations : gmap Z ThunkInvitation;
  g_next_invitation_handle : Z;
  g_sent_invitations : gmap Z SentInvitation;
  g_default_process_error : option Z;
  error_reports : list (Z * list Z)
}.

(** The endpoint's [platform_handles] array, [None] for null; the endpoint
    itself may be null. *)
Definition Endpoint : Type := option (option (list MojoPlatformHandle)).

Definition ChannelIdOf (endpoint : Endpoint) : Z :=
  match endpoint with
  | Some (Some (ph :: _)) => mph_value ph
  | _ => 0
  end.

Definition Thunk_init : Thunk := mkThunk Core_init ∅ kInvitationHandleBase ∅ None [].

Definition set_core (c : Core) (t : Thunk) : Thunk :=
  mkThunk c (g_invitations t) (g_next_invitation_handle t) (g_sent_invitations t)
    (g_default_process_error t) (error_reports t).
Definition set_invitations (f : gmap Z ThunkInvitation → gmap Z ThunkInvitation)
    (t : Thunk) : Thunk :=
  mkThunk (core t) (f (g_invitations t)) (g_next_invitation_handle t)
    (g_sent_invitations t) (g_default_process_error t) (error_reports t).
Definition set_next_invitation (n : Z) (t : Thunk) : Thunk :=
  mkThunk (core t) (g_invitations t) n (g_sent_invitations t)
    (g_default_process_error t) (error_reports t).
Definition set_sent (f : gmap Z SentInvitation → gmap Z SentInvitation)
    (t : Thunk) : Thunk :=
  mkThunk (core t) (g_invitations t) (g_next_invitation_handle t)
    (f (g_sent_invitations t)) (g_default_process_error t) (error_reports t).
Definition set_error_handler (h : option Z) (t : Thunk) : Thunk :=
  mkThunk (core t) (g_invitations t) (g_next_invitation_handle t)
    (g_sent_invitations t) h (error_reports t).
Definition add_report (r : Z * list Z) (t : Thunk) : Thunk :=
  mkThunk (core t) (g_invitations t) (g_next_invitation_handle t)
    (g_sent_invitations t) (g_default_process_error t) (error_reports t ++ [r]).

(** A call into the kernel. *)
Definition kernel {A} (m : M Core A) : M Thunk A :=
  λ t, match m (core t) with
       | Some (a, c') => Some (a, set_core c' t)
       | None => None
       end.

Definition PunchFromEndpoint (endpoint : Endpoint) (offerer : bool) : option punch :=
  match endpoint with
  | Some (Some (ph :: _)) =>
      if negb (mph_type ph =? WHP_PLATFORM_HANDLE_TYPE_FILE_DESCRIPTOR)
         && negb (mph_type ph =? WHP_PLATFORM_HANDLE_TYPE_WINDOWS_HANDLE)
      then None
      else punch_attach (mph_value ph) offerer
  | _ => None
  end.

(** [~ThunkInvitation]: every attached pipe end still there is closed.  The
    order of the C++ map is unspecified; here it is the order of
    [map_to_list]. *)
Fixpoint close_all (hs : list Z) : M Thunk unit :=
  match hs with
  | [] => ret tt
  | h :: hs' => kernel (WhpClose h) ;; close_all hs'
  end.
Definition ThunkInvitation_dtor (inv : ThunkInvitation) : M Thunk unit :=
  close_all (map snd (map_to_list (attached inv))).

Definition MojoInitialize : M Thunk Z := kernel WhpInit.

(** [WhpShutdown] does nothing. *)
Definition MojoShutdown : M Thunk Z := ret WHP_RESULT_OK.

Definition MojoClose (handle : Z) : M Thunk Z :=
  if kInvitationHandleBase <=? handle then
    let! t := get in
    match g_invitations t !! handle with
    | None => ret WHP_RESULT_INVALID_ARGUMENT
    | Some inv =>
        modify (set_invitations (delete handle)) ;;
        ThunkInvitation_dtor inv ;;
        ret WHP_RESULT_OK
    end
  else kernel (WhpClose handle).

Definition MojoQueryHandleSignalsState (handle : Z) (signals_state : bool)
    : M Thunk (Z * option WhpHandleSignalsState) :=
  kernel (WhpQueryHandleSignalsState handle signals_state).

Definition MojoCreateMessagePipe : M Thunk (Z * (Z * Z)) :=
  let! '(r, hs) := kernel (WhpCreateMessagePipe true true) in
  ret (r, default (0, 0) hs).

Definition MojoWriteMessage (message_pipe_handle message_handle : Z) : M Thunk Z :=
  kernel (WhpWriteMessage message_pipe_handle message_handle).

Definition MojoReadMessage (message_pipe_handle : Z) : M Thunk (Z * Z) :=
  let! '(r, got) := kernel (WhpReadMessage message_pipe_handle true) in
  ret (r, default 0 got).

Definition MojoFuseMessagePipes (handle0 handle1 : Z) : M Thunk Z :=
  kernel (WhpFuseMessagePipes handle0 handle1).

Definition MojoCreateMessage : M Thunk (Z * Z) :=
  let! '(r, h) := kernel (WhpCreateMessage true) in ret (r, default 0 h).

Definition MojoDestroyMessage (message : Z) : M Thunk Z :=
  kernel (WhpDestroyMessage message).

Definition MojoSerializeMessage (message : Z) : M Thunk Z :=
  kernel (WhpSerializeMessage message).

Definition MojoReserveMessageCapacity (message payload_buffer_size : Z)
    : M Thunk (Z * option Z) :=
  kernel (WhpReserveMessageCapacity message payload_buffer_size).

(** [whp_options] is always given: its flags are 0 without [options]. *)
Definition MojoAppendMessageData (message payload_size : Z) (handles : list Z)
    (options : option Z) : M Thunk (Z * option (list Z * Z)) :=
  kernel (WhpAppendMessageData message payload_size handles
    (Some (match options with Some flags => flags | None => 0 end))).

Definition MojoGetMessageData (message : Z) (handles : bool) (num_handles : option Z)
    : M Thunk (Z * MessageDataOut) :=
  kernel (WhpGetMessageData message handles num_handles).

Definition MojoSetMessageContext (message context : Z) (ser dtor : option Z)
    : M Thunk Z :=
  kernel (WhpSetMessageContext_full message context ser dtor).

Definition MojoGetMessageContext (message : Z) (context : bool)
    : M Thunk (Z * option Z) :=
  kernel (WhpGetMessageContext message context).

(** The line on standard error is not modelled. *)
Definition MojoNotifyBadMessage (message : Z) (error : list Z) : M Thunk Z :=
  let! t := get in
  match g_default_process_error t with
  | Some h => modify (add_report (h, error))
  | None => ret tt
  end ;;
  ret WHP_RESULT_OK.

Definition MojoCreateDataPipe (options : option (Z * Z)) : M Thunk (Z * (Z * Z)) :=
  let! '(r, hs) := kernel (WhpCreateDataPipe options true true) in
  ret (r, default (0, 0) hs).

Definition MojoWriteData (producer : Z) (elements : list Z) (num_elements : option Z)
    : M Thunk (Z * option Z) :=
  kernel (WhpWriteData producer elements num_elements).

Definition MojoBeginWriteData (producer : Z) (buffer : bool) (num : option Z)
    : M Thunk (Z * option (Z * Z)) :=
  kernel (WhpBeginWriteData producer buffer num).

Definition MojoEndWriteData (producer num_elements_written : Z) : M Thunk Z :=
  kernel (WhpEndWriteData producer num_elements_written).

Definition MojoReadData (consumer : Z) (num_elements : option Z)
    : M Thunk (Z * option Z * list Z) :=
  kernel (WhpReadData consumer num_elements).

Definition MojoBeginReadData (consumer : Z) (buffer : bool) (num : option Z)
    : M Thunk (Z * option (Z * Z)) :=
  kernel (WhpBeginReadData consumer buffer num).

Definition MojoEndReadData (consumer num_elements_read : Z) : M Thunk Z :=
  kernel (WhpEndReadData consumer num_elements_read).

Definition MojoCreateSharedBuffer (num_bytes : Z) : M Thunk (Z * Z) :=
  let! '(r, h) := kernel (WhpCreateSharedBuffer num_bytes true) in
  ret (r, default 0 h).

Definition MojoDuplicateBufferHandle (buffer_handle : Z) : M Thunk (Z * Z) :=
  let! '(r, h) := kernel (WhpDuplicateBufferHandle buffer_handle true) in
  ret (r, default 0 h).

Definition MojoMapBuffer (buffer_handle offset num_bytes : Z) (buffer : bool)
    : M Thunk (Z * option MapPtr) :=
  kernel (WhpMapBuffer buffer_handle offset num_bytes buffer).

Definition MojoUnmapBuffer (buffer : MapPtr) : M Thunk Z :=
  kernel (WhpUnmapBuffer buffer).

(** [info] is the [struct_size] of the structure, [None] for a null pointer. *)
Definition MojoGetBufferInfo (buffer_handle : Z) (info : option Z)
    : M Thunk (Z * option Z) :=
  match info with
  | None => ret (WHP_RESULT_INVALID_ARGUMENT, None)
  | Some struct_size =>
      if struct_size <? sizeof_MojoSharedBufferInfo
      then ret (WHP_RESULT_INVALID_ARGUMENT, None)
      else
        let! '(r, n) := kernel (WhpGetBufferInfo buffer_handle true) in
        if negb (r =? WHP_RESULT_OK) then ret (r, None)
        else ret (WHP_RESULT_OK, n)
  end.

Definition MojoCreateTrap (hd : option Z) : M Thunk (Z * Z) :=
  let! '(r, h) := kernel (WhpCreateTrap hd true) in ret (r, default 0 h).

Definition MojoAddTrigger (trap_handle handle signals condition context : Z)
    : M Thunk Z :=
  kernel (WhpAddTrigger trap_handle handle signals condition context).

Definition MojoRemoveTrigger (trap_handle context : Z) : M Thunk Z :=
  kernel (WhpRemoveTrigger trap_handle context).

Definition MojoArmTrap (trap_handle : Z) (num_blocking_events : option Z)
    (blocking_events : bool) : M Thunk (Z * option Z * list WhpTrapEvent) :=
  kernel (WhpArmTrap trap_handle num_blocking_events blocking_events).

Definition MojoWrapPlatformHandle (platform_handle : option MojoPlatformHandle)
    (mojo_handle : bool) : M Thunk (Z * option Z) :=
  match platform_handle with
  | None => ret (WHP_RESULT_INVALID_ARGUMENT, None)
  | Some ph =>
      if negb mojo_handle then ret (WHP_RESULT_INVALID_ARGUMENT, None)
      else if mph_struct_size ph <? sizeof_MojoPlatformHandle
      then ret (WHP_RESULT_INVALID_ARGUMENT, None)
      else
        let! '(r, h) := kernel (WhpWrapPlatformHandle (mph_type ph) (mph_value ph) true) in
        if negb (r =? WHP_RESULT_OK) then ret (r, None) else ret (WHP_RESULT_OK, h)
  end.

(** [platform_handle] is the [struct_size] the caller set. *)
Definition MojoUnwrapPlatformHandle (mojo_handle : Z) (platform_handle : option Z)
    : M Thunk (Z * option (Z * Z)) :=
  match platform_handle with
  | None => ret (WHP_RESULT_INVALID_ARGUMENT, None)
  | Some struct_size =>
      if struct_size <? sizeof_MojoPlatformHandle
      then ret (WHP_RESULT_INVALID_ARGUMENT, None)
      else
        let! '(r, tv) := kernel (WhpUnwrapPlatformHandle mojo_handle true true) in
        if negb (r =? WHP_RESULT_OK) then ret (r, None) else ret (WHP_RESULT_OK, tv)
  end.

(** [platform_handles] is the array with its [num_platform_handles] entries. *)
Definition MojoWrapPlatformSharedMemoryRegion
    (platform_handles : option (list MojoPlatformHandle)) (num_bytes : Z)
    (guid : option (Z * Z)) (access_mode : Z) (mojo_handle : bool)
    : M Thunk (Z * option Z) :=
  match platform_handles with
  | None => ret (WHP_RESULT_INVALID_ARGUMENT, None)
  | Some phs =>
      let n := Z.of_nat (length phs) in
      if negb mojo_handle || (n =? 0) || (2 <? n) || (num_bytes =? 0)
      then ret (WHP_RESULT_INVALID_ARGUMENT, None)
      else if existsb (λ ph, mph_struct_size ph <? sizeof_MojoPlatformHandle) phs
      then ret (WHP_RESULT_INVALID_ARGUMENT, None)
      else
        let '(guid_high, guid_low) := default (0, 0) guid in
        let! '(r, h) := kernel (WhpWrapPlatformSharedMemoryRegion
          (Some (map (λ ph, (mph_type ph, mph_value ph)) phs)) num_bytes
          guid_high guid_low access_mode true) in
        if negb (r =? WHP_RESULT_OK) then ret (r, None) else ret (WHP_RESULT_OK, h)
  end.

(** [platform_handles] says whether the array is given.  Returns the result,
    [*num_platform_handles] if written, and what the other out-parameters
    receive. *)
Definition MojoUnwrapPlatformSharedMemoryRegion (mojo_handle : Z)
    (platform_handles : bool) (num_platform_handles : option Z)
    : M Thunk (Z * option Z * option RegionOut) :=
  match num_platform_handles with
  | None => ret (WHP_RESULT_INVALID_ARGUMENT, None, None)
  | Some cap =>
      let n := if 2 <? cap then 2 else cap in
      let! '(r, n', out) := kernel
        (WhpUnwrapPlatformSharedMemoryRegion mojo_handle true (Some n)) in
      let n := default n n' in
      if r =? WHP_RESULT_RESOURCE_EXHAUSTED
      then ret (WHP_RESULT_RESOURCE_EXHAUSTED, Some n, None)
      else if negb (r =? WHP_RESULT_OK) then ret (r, None, None)
      else if negb platform_handles || (cap <? n)
      then ret (WHP_RESULT_RESOURCE_EXHAUSTED, Some n, None)
      else ret (WHP_RESULT_OK, Some n, out)
  end.

(** ** Invitations *)

(** [g_next_invitation_handle++] on a [uint32_t]. *)
Definition next_invitation : M Thunk Z :=
  let! t := get in
  modify (set_next_invitation (u32 (g_next_invitation_handle t + 1))) ;;
  ret (g_next_invitation_handle t).

(** [g_invitations[handle] = inv]: an invitation it replaces is destroyed. *)
Definition store_invitation (handle : Z) (inv : ThunkInvitation) : M Thunk unit :=
  let! t := get in
  modify (set_invitations <[handle := inv]>) ;;
  match g_invitations t !! handle with
  | Some old => ThunkInvitation_dtor old
  | None => ret tt
  end.

Definition MojoCreateInvitation : M Thunk (Z * Z) :=
  let! handle := next_invitation in
  store_invitation handle (mkThunkInvitation ∅ None) ;;
  ret (WHP_RESULT_OK, handle).

Definition MojoAttachMessagePipeToInvitation (invitation_handle : Z) (name : list Z)
    : M Thunk (Z * option Z) :=
  let! t := get in
  match g_invitations t !! invitation_handle with
  | None => ret (WHP_RESULT_INVALID_ARGUMENT, None)
  | Some inv =>
      if decide (is_Some (attached inv !! name))
      then ret (WHP_RESULT_ALREADY_EXISTS, None)
      else
        let! '(r, hs) := kernel (WhpCreateMessagePipe true true) in
        if negb (r =? WHP_RESULT_OK) then ret (WHP_RESULT_UNKNOWN, None)
        else
          let '(local, peer) := default (0, 0) hs in
          modify (set_invitations <[invitation_handle :=
            mkThunkInvitation (<[name := peer]> (attached inv)) (inv_punch inv)]>) ;;
          ret (WHP_RESULT_OK, Some local)
  end.

Definition MojoExtractMessagePipeFromInvitation (invitation_handle : Z)
    (name : list Z) : M Thunk (Z * option Z) :=
  let! t := get in
  match g_invitations t !! invitation_handle with
  | None => ret (WHP_RESULT_INVALID_ARGUMENT, None)
  | Some inv =>
      match attached inv !! name with
      | None => ret (WHP_RESULT_NOT_FOUND, None)
      | Some h =>
          modify (set_invitations <[invitation_handle :=
            mkThunkInvitation (delete name (attached inv)) (inv_punch inv)]>) ;;
          ret (WHP_RESULT_OK, Some h)
      end
  end.

(** The invitation is moved from, so its destructor closes nothing; a sent
    invitation already stored under the same channel is overwritten. *)
Definition MojoSendInvitation (invitation_handle : Z) (endpoint : Endpoint)
    : M Thunk Z :=
  let! t := get in
  match g_invitations t !! invitation_handle with
  | None => ret WHP_RESULT_INVALID_ARGUMENT
  | Some inv =>
      modify (set_sent <[ChannelIdOf endpoint :=
        mkSentInvitation (attached inv) (PunchFromEndpoint endpoint true)]>) ;;
      modify (set_invitations (delete invitation_handle)) ;;
      ret WHP_RESULT_OK
  end.

Definition MojoAcceptInvitation (endpoint : Endpoint) : M Thunk (Z * option Z) :=
  let! t := get in
  match g_sent_invitations t !! ChannelIdOf endpoint with
  | None => ret (WHP_RESULT_NOT_FOUND, None)
  | Some sent =>
      let p :=
        match sent_punch sent with
        | Some p => Some p
        | None => PunchFromEndpoint endpoint false
        end in
      modify (set_sent (delete (ChannelIdOf endpoint))) ;;
      let! handle := next_invitation in
      store_invitation handle (mkThunkInvitation (sent_attached sent) p) ;;
      ret (WHP_RESULT_OK, Some handle)
  end.

Definition MojoSetDefaultProcessErrorHandler (hd : option Z) : M Thunk Z :=
  modify (set_error_handler hd) ;; ret WHP_RESULT_OK.

Definition MojoSetQuota (handle type limit : Z) : M Thunk Z :=
  kernel (WhpSetQuota handle type limit).

Definition MojoQueryQuota (handle type : Z) (limit usage : bool)
    : M Thunk (Z * option (Z * Z)) :=
  kernel (WhpQueryQuota handle type limit usage).
End thunk.
