(* ===== verification/Lexer.v ===== *)
(** * The .voodoom tokenizer

    [src/lexer.cc].  A [std::string] is a list of bytes; the scan position [i]
    is represented by the suffix of the source that starts there.  [lex_one]
    is one iteration of the main loop of [Tokenize]; the loop is given one unit
    of fuel per byte, which suffices because every iteration consumes one.  Character classes are those of the C locale.
    The [int] line counter is a [Z]. *)
From S2P Require Import Prelude.
From Stdlib Require Import Ascii.

Inductive TokenType :=
  | kName | kNumber | kHexNumber | kFloatNumber | kStringLiteral | kArrow
  | kLParen | kRParen | kLBrace | kRBrace | kLAngle | kRAngle | kComma | kSemi
  | kAt | kEquals | kMinus | kQuestion | kDot | kLBracket | kRBracket
  | kAmpersand | kPipe | kEnd.

#[export] Instance TokenType_eq_dec : EqDecision TokenType.
Proof. solve_decision. Defined.

Record Token := mkToken { tok_type : TokenType; text : list Z; tok_line : Z }.

(** What [Tokenize] can throw: a [LexError] with its message, or the
    [std::out_of_range] of [std::stol].  [OutOfFuel] marks lack of fuel in this
    model; [tokenize_total] shows that it does not occur. *)
Inductive LexMessage :=
  | UnterminatedBlockComment
  | InvalidHexLiteral
  | OctalNotAllowed
  | UnterminatedStringLiteral
  | UnexpectedCharacter (c : Z).
Inductive LexException :=
  | LexError (msg : LexMessage) (line : Z)
  | StolOutOfRange
  | OutOfFuel.

Definition NL : Z := 10.
Definition QUOTE : Z := 34.
Definition BACKSLASH : Z := 92.

Definition isspace (c : Z) : bool := (c =? 32) || ((9 <=? c) && (c <=? 13)).
Definition isdigit (c : Z) : bool := (48 <=? c) && (c <=? 57).
Definition isalpha (c : Z) : bool :=
  ((65 <=? c) && (c <=? 90)) || ((97 <=? c) && (c <=? 122)).
Definition isalnum (c : Z) : bool := isalpha c || isdigit c.
Definition isxdigit (c : Z) : bool :=
  isdigit c || ((65 <=? c) && (c <=? 70)) || ((97 <=? c) && (c <=? 102)).

Definition IsNameStart (c : Z) : bool := isalpha c || (c =? ch "_").
Definition IsNameCont (c : Z) : bool := isalnum c || (c =? ch "_").

(** [while (i < n && p(src[i])) ++i;]: the bytes passed over and the rest. *)
Fixpoint span (p : Z → bool) (l : list Z) : list Z * list Z :=
  match l with
  | c :: l' =>
      if p c then let '(a, b) := span p l' in (c :: a, b) else ([], l)
  | [] => ([], [])
  end.

Definition starts_with (p : Z → bool) (l : list Z) : bool :=
  match l with c :: _ => p c | [] => false end.

(** The loop over a block comment, after its opening: the rest after the
    closing, or nothing; and the line reached. *)
Fixpoint skip_block (l : list Z) (line : Z) : option (list Z) * Z :=
  match l with
  | c1 :: l' =>
      match l' with
      | c2 :: l'' =>
          if (c1 =? ch "*") && (c2 =? ch "/") then (Some l'', line)
          else skip_block l' (if c1 =? NL then line + 1 else line)
      | [] => (None, line)
      end
  | [] => (None, line)
  end.

(** The exponent part [[eE] [+-]? DIGITS], if one is there. *)
Definition lex_exponent (l : list Z) : option (list Z * list Z) :=
  match l with
  | e :: l1 =>
      if (e =? ch "e") || (e =? ch "E") then
        let '(sign, l2) :=
          match l1 with
          | s :: l1' => if (s =? ch "+") || (s =? ch "-") then ([s], l1') else ([], l1)
          | [] => ([], [])
          end in
        if starts_with isdigit l2
        then let '(ds, l3) := span isdigit l2 in Some (e :: sign ++ ds, l3)
        else None
      else None
  | [] => None
  end.

(** The outcome of one iteration. *)
Inductive LexStep :=
  | Skip (rest : list Z) (line : Z)
  | Push (t : Token) (rest : list Z) (line : Z)
  | Throw (e : LexException).

(** [std::isdigit(src[i + 1])] after a ['.']. *)
Definition lex_fraction (l : list Z) : option (list Z * list Z) :=
  match l with
  | d :: l1 =>
      if (d =? ch ".") && starts_with isdigit l1
      then let '(ds, l2) := span isdigit l1 in Some (d :: ds, l2)
      else None
  | [] => None
  end.

(** A decimal or floating-point number that starts with a digit. *)
Definition lex_decimal (l : list Z) (line : Z) : LexStep :=
  let '(ds, l1) := span isdigit l in
  let '(frac, l2) := match lex_fraction l1 with Some p => p | None => ([], l1) end in
  let '(expo, l3) := match lex_exponent l2 with Some p => p | None => ([], l2) end in
  let is_float := negb (bool_decide (frac = [])) || negb (bool_decide (expo = [])) in
  if is_float then Push (mkToken kFloatNumber (ds ++ frac ++ expo) line) l3 line
  else if (1 <? Z.of_nat (length ds)) && starts_with (λ c, c =? ch "0") ds
  then Throw (LexError OctalNotAllowed line)
  else Push (mkToken kNumber ds line) l3 line.

(** A token that starts with a digit. *)
Definition lex_number (l : list Z) (line : Z) : LexStep :=
  match l with
  | c0 :: x :: l' =>
      if (c0 =? ch "0") && ((x =? ch "x") || (x =? ch "X")) then
        let '(hs, rest) := span isxdigit l' in
        if decide (hs = []) then Throw (LexError InvalidHexLiteral line)
        else Push (mkToken kHexNumber (c0 :: x :: hs) line) rest line
      else lex_decimal l line
  | _ => lex_decimal l line
  end.

(** The leading-dot float: [l] starts with ['.'] and a digit. *)
Definition lex_dot_float (dot : Z) (l : list Z) (line : Z) : LexStep :=
  let '(ds, l1) := span isdigit l in
  let '(expo, l2) := match lex_exponent l1 with Some p => p | None => ([], l1) end in
  Push (mkToken kFloatNumber (dot :: ds ++ expo) line) l2 line.

(** [std::stol] of digits in base 10 or 16. *)
Definition digit_value (c : Z) : Z :=
  if isdigit c then c - 48 else if c <=? 70 then c - 55 else c - 87.
Definition number_value (base : Z) (ds : list Z) : Z :=
  fold_left (λ n c, n * base + digit_value c) ds 0.

Section tokenize.
(** [LONG_MAX] of the host: 2^63 - 1, or 2^31 - 1 on Windows. *)
Context (LONG_MAX : Z).

Definition stol (base : Z) (ds : list Z) : option Z :=
  let v := number_value base ds in if LONG_MAX <? v then None else Some v.

(** The body of a string literal, after its opening quote: the unescaped
    contents and the rest after the closing quote. *)
Fixpoint lex_string (fuel : nat) (l value : list Z) (start_line : Z)
    : LexException + list Z * list Z :=
  match fuel with
  | O => inl OutOfFuel
  | S fuel' =>
      match l with
      | [] => inl (LexError UnterminatedStringLiteral start_line)
      | sc :: l1 =>
          if sc =? QUOTE then inr (value, l1)
          else if sc =? NL then inl (LexError UnterminatedStringLiteral start_line)
          else
            let plain := lex_string fuel' l1 (value ++ [sc]) start_line in
            if sc =? BACKSLASH then
              match l1 with
              | d :: l2 =>
                  if (d =? QUOTE) || (d =? BACKSLASH)
                  then lex_string fuel' l2 (value ++ [d]) start_line
                  else if isdigit d then
                    let '(ds, l3) := span isdigit l1 in
                    match stol 10 ds with
                    | Some code => lex_string fuel' l3 (value ++ [u8 code]) start_line
                    | None => inl StolOutOfRange
                    end
                  else if (d =? ch "x") && starts_with isxdigit l2 then
                    let '(ds, l3) := span isxdigit l2 in
                    match stol 16 ds with
                    | Some code => lex_string fuel' l3 (value ++ [u8 code]) start_line
                    | None => inl StolOutOfRange
                    end
                  else plain
              | [] => plain
              end
            else plain
      end
  end.

(** The [switch] over single characters. *)
Definition punctuation (c : Z) : option TokenType :=
  if c =? ch "(" then Some kLParen else if c =? ch ")" then Some kRParen
  else if c =? ch "{" then Some kLBrace else if c =? ch "}" then Some kRBrace
  else if c =? ch "<" then Some kLAngle else if c =? ch ">" then Some kRAngle
  else if c =? ch "," then Some kComma else if c =? ch ";" then Some kSemi
  else if c =? ch "@" then Some kAt else if c =? ch "=" then Some kEquals
  else if c =? ch "-" then Some kMinus else if c =? ch "?" then Some kQuestion
  else if c =? ch "." then Some kDot else if c =? ch "[" then Some kLBracket
  else if c =? ch "]" then Some kRBracket else if c =? ch "&" then Some kAmpersand
  else if c =? ch "|" then Some kPipe else None.

(** One iteration of the main loop on the non-empty suffix [c :: l]. *)
Definition lex_one (c : Z) (l : list Z) (line : Z) : LexStep :=
  if c =? NL then Skip l (line + 1)
  else if isspace c then Skip l line
  else if (c =? ch "/") && starts_with (λ d, d =? ch "/") l
  then Skip (snd (span (λ d, negb (d =? NL)) l)) line
  else if (c =? ch "/") && starts_with (λ d, d =? ch "*") l then
    match skip_block (tail l) line with
    | (Some rest, line') => Skip rest line'
    | (None, line') => Throw (LexError UnterminatedBlockComment line')
    end
  else if IsNameStart c then
    let '(name, rest) := span IsNameCont (c :: l) in
    Push (mkToken kName name line) rest line
  else if isdigit c then lex_number (c :: l) line
  else if (c =? ch ".") && starts_with isdigit l then lex_dot_float c l line
  else if c =? QUOTE then
    match lex_string (S (length l)) l [] line with
    | inl e => Throw e
    | inr (value, rest) => Push (mkToken kStringLiteral value line) rest line
    end
  else if (c =? ch "=") && starts_with (λ d, d =? ch ">") l
  then Push (mkToken kArrow [] line) (tail l) line
  else
    match punctuation c with
    | Some ty => Push (mkToken ty [] line) l line
    | None => Throw (LexError (UnexpectedCharacter c) line)
    end.

(** The main loop. *)
Fixpoint lex_loop (fuel : nat) (l : list Z) (line : Z)
    : LexException + list Token :=
  match l with
  | [] => inr [mkToken kEnd [] line]
  | c :: l' =>
      match fuel with
      | O => inl OutOfFuel
      | S fuel' =>
          match lex_one c l' line with
          | Skip rest line' => lex_loop fuel' rest line'
          | Push t rest line' =>
              match lex_loop fuel' rest line' with
              | inr ts => inr (t :: ts)
              | inl e => inl e
              end
          | Throw e => inl e
          end
      end
  end.

Definition Tokenize (src : list Z) : LexException + list Token :=
  lex_loop (length src) src 1.
End tokenize.
