(* ===== verification/CoreInv.v ===== *)
(** * Well-formed cores

    The invariant of the handle table and of the objects it leads to, stated
    on the fields each part is about, and the lemmas on [Lookup], [Alloc],
    [Free] and [store_slot] that the operations' proofs share. *)
From S2P Require Import Prelude Core.

(** ** The invariant *)

(** The dynamic type of a slot's object is the one its kind promises, so every
    [static_cast] is safe. *)
Definition slot_typed (s : Slot) : Prop :=
  match kind s, obj s with
  | HandleKind_Free, ObjNull
  | HandleKind_MessagePipe, ObjPipeEnd _
  | HandleKind_Message, ObjMessage _
  | HandleKind_Trap, ObjTrap _
  | HandleKind_SharedBuffer, ObjSharedBuffer _
  | HandleKind_Platform, ObjPlatform _ => True
  | HandleKind_DataPipeProducer, ObjDataPipeEnd e => de_producer e = true
  | HandleKind_DataPipeConsumer, ObjDataPipeEnd e => de_producer e = false
  | _, _ => False
  end.

Definition free_slot : Slot := mkSlot HandleKind_Free ObjNull.

(** The free list holds exactly the free slots other than slot 0, each once. *)
Record table_ok (sl : list Slot) (fl : list Z) : Prop := {
  table_slot0 : sl !! 0%nat = Some free_slot;
  table_typed i s : sl !! i = Some s → slot_typed s;
  table_free h : h ∈ fl → 0 < h ∧ sl !! Z.to_nat h = Some free_slot;
  table_nodup : NoDup fl;
  table_free_all i : (0 < i)%nat → sl !! i = Some free_slot → Z.of_nat i ∈ fl
}.

Definition pipe_at (sl : list Slot) (i : nat) (e : PipeEnd) : Prop :=
  sl !! i = Some (mkSlot HandleKind_MessagePipe (ObjPipeEnd e)).
Definition data_at (sl : list Slot) (i : nat) (e : DataPipeEnd) : Prop :=
  sl !! i = Some (mkSlot (if de_producer e then HandleKind_DataPipeProducer
                          else HandleKind_DataPipeConsumer) (ObjDataPipeEnd e)).
Definition buf_at (sl : list Slot) (i : nat) (id : nat) : Prop :=
  sl !! i = Some (mkSlot HandleKind_SharedBuffer (ObjSharedBuffer id)).

(** An end has one handle at most; while the handle is open the end is not
    marked closed, and an end not marked closed has a handle. *)
Record pipes_ok (sl : list Slot) (ps : gmap nat PipeState) : Prop := {
  pipes_unique i j e : pipe_at sl i e → pipe_at sl j e → i = j;
  pipes_open i e : pipe_at sl i e →
    ∃ st, ps !! pe_state e = Some st ∧ sel (closed st) (pe_end e) = false;
  pipes_peer i e st : pipe_at sl i e → ps !! pe_state e = Some st →
    sel (closed st) (negb (pe_end e)) = false →
    ∃ j, pipe_at sl j (mkPipeEnd (pe_state e) (negb (pe_end e)))
}.

(** The ring buffer's indices stay inside it, so no access is out of range. *)
Record ring_ok (s : DataPipeState) : Prop := {
  ring_elem : 0 < element_size s < 2 ^ 32;
  ring_cap : 0 < capacity s < 2 ^ 32;
  ring_buf : Z.of_nat (length (buf s)) = capacity s;
  ring_r : 0 <= dp_r s < capacity s;
  ring_w : 0 <= dp_w s < capacity s;
  ring_avail : 0 <= available s < 2 ^ 32
}.

Definition end_closed (producer : bool) (s : DataPipeState) : bool :=
  if producer then producer_closed s else consumer_closed s.

Record datas_ok (sl : list Slot) (ds : gmap nat DataPipeState) : Prop := {
  datas_unique i j e : data_at sl i e → data_at sl j e → i = j;
  datas_open i e : data_at sl i e →
    ∃ s, ds !! de_state e = Some s ∧ end_closed (de_producer e) s = false;
  datas_ring id s : ds !! id = Some s → ring_ok s
}.

(** A buffer object exists exactly while a handle or a mapped region refers
    to it. *)
Record bufs_ok (sl : list Slot) (mp : gmap MapPtr MappedRegion)
    (bs : gmap nat SharedBufferObj) : Prop := {
  bufs_slot i id : buf_at sl i id → is_Some (bs !! id);
  bufs_map p r : mp !! p = Some r →
    is_Some (bs !! mr_buf r) ∧ 0 < mr_refs r ∧ mr_buf r = fst p;
  bufs_live id b : bs !! id = Some b →
    (∃ i, buf_at sl i id) ∨ (∃ p r, mp !! p = Some r ∧ mr_buf r = id)
}.

(** Store identifiers in use are below the next one. *)
Record ids_ok (c : Core) : Prop := {
  ids_pipe id st : pipe_states c !! id = Some st → (id < next_id c)%nat;
  ids_data id s : data_states c !! id = Some s → (id < next_id c)%nat;
  ids_buf id b : buffers c !! id = Some b → (id < next_id c)%nat
}.

Record wf (c : Core) : Prop := {
  wf_table : table_ok (slots c) (free_list c);
  wf_pipes : pipes_ok (slots c) (pipe_states c);
  wf_datas : datas_ok (slots c) (data_states c);
  wf_bufs : bufs_ok (slots c) (maps c) (buffers c);
  wf_ids : ids_ok c
}.

Lemma init_lookup i s : slots Core_init !! i = Some s → i = 0%nat ∧ s = free_slot.
Proof. intros [-> <-]%list_lookup_singleton_Some. done. Qed.

Lemma init_no_pipe i e : ¬ pipe_at (slots Core_init) i e.
Proof. intros [_ ?]%init_lookup. done. Qed.

Lemma init_no_data i e : ¬ data_at (slots Core_init) i e.
Proof. intros [_ ?]%init_lookup. destruct (de_producer e); done. Qed.

Lemma init_no_buf i id : ¬ buf_at (slots Core_init) i id.
Proof. intros [_ ?]%init_lookup. done. Qed.

Lemma wf_init : wf Core_init.
Proof.
  split; split.
  - done.
  - intros i s [_ ->]%init_lookup. done.
  - intros h []%elem_of_nil.
  - constructor.
  - intros i Hi [-> _]%init_lookup. lia.
  - intros i j e []%init_no_pipe.
  - intros i e []%init_no_pipe.
  - intros i e st []%init_no_pipe.
  - intros i j e []%init_no_data.
  - intros i e []%init_no_data.
  - intros id s Hs. simpl in Hs; by rewrite lookup_empty in Hs.
  - intros i id []%init_no_buf.
  - intros p r Hr. simpl in Hr; by rewrite lookup_empty in Hr.
  - intros id b Hb. simpl in Hb; by rewrite lookup_empty in Hb.
  - intros id st Hs. simpl in Hs; by rewrite lookup_empty in Hs.
  - intros id st Hs. simpl in Hs; by rewrite lookup_empty in Hs.
  - intros id st Hs. simpl in Hs; by rewrite lookup_empty in Hs.
Qed.

(** ** The handle table *)

Lemma Lookup_inv c h s :
  table_ok (slots c) (free_list c) → Lookup c h = Some s →
  0 < h < Z.of_nat (length (slots c)) ∧ slots c !! Z.to_nat h = Some s ∧
  kind s ≠ HandleKind_Free.
Proof.
  intros Ht. unfold Lookup. case_match eqn:Hb; [done|]. zbool.
  destruct (slots c !! Z.to_nat h) as [s'|] eqn:Hs; [|done].
  case_decide; [done|]. intros [= ->].
  assert (0 < h) as Hpos.
  { destruct (decide (0 < h)); [done|].
    replace (Z.to_nat h) with 0%nat in Hs by lia.
    rewrite (table_slot0 _ _ Ht) in Hs. by injection Hs as <-. }
  split_and!; [lia..|done|done].
Qed.

(** The inverse: an occupied slot is found under its index. *)
Lemma Lookup_slot c i s :
  slots c !! i = Some s → kind s ≠ HandleKind_Free → (0 < i)%nat →
  Lookup c (Z.of_nat i) = Some s.
Proof.
  intros Hs Hk Hi. unfold Lookup.
  pose proof (lookup_lt_Some _ _ _ Hs).
  destruct (Z.eqb_spec (Z.of_nat i) 0); [lia|].
  destruct (Z.leb_spec (Z.of_nat (length (slots c))) (Z.of_nat i)); [lia|].
  simpl. rewrite Nat2Z.id, Hs. by rewrite decide_False.
Qed.

Lemma Lookup_intro c h s :
  0 < h → slots c !! Z.to_nat h = Some s → kind s ≠ HandleKind_Free →
  Lookup c h = Some s.
Proof.
  intros Hh Hs Hk. pose proof (Lookup_slot c (Z.to_nat h) s Hs Hk) as H.
  rewrite Z2Nat.id in H by lia. apply H. lia.
Qed.

Lemma Lookup_free c h :
  slots c !! Z.to_nat h = Some free_slot → Lookup c h = None.
Proof. intros Hs. unfold Lookup. case_match; [done|]. by rewrite Hs. Qed.

(** [Lookup] reads only the slots. *)
Lemma Lookup_ext c c' h : slots c = slots c' → Lookup c h = Lookup c' h.
Proof. intros H. unfold Lookup. by rewrite H. Qed.

Lemma slot_typed_pipe s :
  slot_typed s → kind s = HandleKind_MessagePipe →
  ∃ e, s = mkSlot HandleKind_MessagePipe (ObjPipeEnd e).
Proof. destruct s as [k []], k; simpl; intros; try done; eauto. Qed.

Lemma slot_typed_message s :
  slot_typed s → kind s = HandleKind_Message →
  ∃ m, s = mkSlot HandleKind_Message (ObjMessage m).
Proof. destruct s as [k []], k; simpl; intros; try done; eauto. Qed.

Lemma slot_typed_trap s :
  slot_typed s → kind s = HandleKind_Trap →
  ∃ t, s = mkSlot HandleKind_Trap (ObjTrap t).
Proof. destruct s as [k []], k; simpl; intros; try done; eauto. Qed.

Lemma slot_typed_buffer s :
  slot_typed s → kind s = HandleKind_SharedBuffer →
  ∃ id, s = mkSlot HandleKind_SharedBuffer (ObjSharedBuffer id).
Proof. destruct s as [k []], k; simpl; intros; try done; eauto. Qed.

Lemma slot_typed_platform s :
  slot_typed s → kind s = HandleKind_Platform →
  ∃ p, s = mkSlot HandleKind_Platform (ObjPlatform p).
Proof. destruct s as [k []], k; simpl; intros; try done; eauto. Qed.

Lemma slot_typed_data s b :
  slot_typed s →
  kind s = (if b : bool then HandleKind_DataPipeProducer
            else HandleKind_DataPipeConsumer) →
  ∃ e, de_producer e = b ∧ s = mkSlot (kind s) (ObjDataPipeEnd e).
Proof.
  unfold slot_typed. destruct s as [k []], k, b; simpl; intros; try done;
    (eexists; split; [eassumption|reflexivity]).
Qed.

(** [sl] and [fl] are the table after slot [i], free or absent before, was
    filled with [s]. *)
Record filled (sl0 : list Slot) (s : Slot) (i : nat) (sl : list Slot)
    (fl : list Z) : Prop := {
  filled_pos : (0 < i)%nat;
  filled_old : sl0 !! i = None ∨ sl0 !! i = Some free_slot;
  filled_new : sl !! i = Some s;
  filled_other j : j ≠ i → sl !! j = sl0 !! j;
  filled_table : table_ok sl fl
}.

Lemma table_ok_append sl s :
  table_ok sl [] → slot_typed s → s ≠ free_slot →
  table_ok (sl ++ [s]) [].
Proof.
  intros Ht Hs Hne. split.
  - apply lookup_app_l_Some, Ht.
  - intros i s' [?|[_ ->]]%lookup_app_Some_cases; [by eapply Ht|done].
  - intros h []%elem_of_nil.
  - constructor.
  - intros i Hi [?|[_ ?]]%lookup_app_Some_cases; [by eapply Ht|done].
Qed.

Lemma table_ok_reuse sl fl h s :
  table_ok sl (fl ++ [h]) → slot_typed s → s ≠ free_slot →
  table_ok (<[Z.to_nat h := s]> sl) fl.
Proof.
  intros Ht Hs Hne.
  assert (h ∈ fl ++ [h]) as Hin by set_solver.
  destruct (table_free _ _ Ht h Hin) as [Hpos Hfree].
  pose proof (table_nodup _ _ Ht) as Hnd. apply NoDup_app in Hnd as (Hnd & Hx & _).
  split.
  - rewrite list_lookup_insert_ne by lia. apply Ht.
  - intros i s' [[_ ->]|[_ ?]]%list_lookup_insert_cases; [done|by eapply Ht].
  - intros h' Hh'. destruct (table_free _ _ Ht h') as [Hp' Hf']; [set_solver|].
    split; [done|]. rewrite list_lookup_insert_ne; [done|].
    intros Heq. apply Z2Nat.inj in Heq; [|lia..]. subst. set_solver.
  - done.
  - intros i Hi [[_ ?]|[Hi' Hf']]%list_lookup_insert_cases; [done|].
    pose proof (table_free_all _ _ Ht i Hi Hf') as Hin'.
    apply elem_of_app in Hin' as [?|Hin']; [done|].
    apply list_elem_of_singleton in Hin'. subst. rewrite Nat2Z.id in Hi'. done.
Qed.

Lemma Alloc_spec c k o :
  table_ok (slots c) (free_list c) →
  k ≠ HandleKind_Free → slot_typed (mkSlot k o) →
  wp (Alloc k o) (λ h c', ∃ i sl fl,
    c' = set_free_list (λ _, fl) (set_slots (λ _, sl) c) ∧
    filled (slots c) (mkSlot k o) i sl fl ∧
    (h = Z.of_nat i ∨ i = length (slots c) ∧ h = u32 (Z.of_nat i))) c.
Proof.
  intros Ht Hk Hty.
  assert (mkSlot k o ≠ free_slot) as Hne by (intros [=]; done).
  unfold Alloc. wp_step.
  destruct (last (free_list c)) as [h|] eqn:Hl.
  - apply last_Some in Hl as [fl Hfl]. rewrite Hfl in Ht.
    destruct (table_free _ _ Ht h) as [Hpos Hf]; [set_solver|].
    pose proof (lookup_lt_Some _ _ _ Hf) as Hlt.
    unfold store_slot. wp_step. simpl.
    destruct (Nat.ltb_spec (Z.to_nat h) (length (slots c))); [|lia]. wp_step.
    exists (Z.to_nat h), (<[Z.to_nat h := mkSlot k o]> (slots c)), fl.
    split; [unfold set_free_list, set_slots; simpl; by rewrite Hfl, pop_back_snoc|].
    split; [|left; lia].
    split; [lia|by right|by apply list_lookup_insert_eq| |by apply table_ok_reuse].
    intros j Hj. by apply list_lookup_insert_ne.
  - apply last_None in Hl. wp_step.
    exists (length (slots c)), (slots c ++ [mkSlot k o]), [].
    rewrite Hl in Ht. split; [by destruct c; simpl in *; subst|]. split; [|by right].
    split.
    + pose proof (lookup_lt_Some _ _ _ (table_slot0 _ _ Ht)). lia.
    + left. by apply lookup_ge_None_2.
    + apply list_lookup_middle. done.
    + intros j Hj. destruct (decide (j < length (slots c))%nat).
      * by apply lookup_app_l.
      * rewrite !lookup_ge_None_2; [done|lia|rewrite length_app; simpl; lia].
    + by apply table_ok_append.
Qed.

(** Overwriting an occupied slot with another object of the same kind of
    slot. *)
Lemma table_ok_store sl fl i s s' :
  table_ok sl fl → sl !! i = Some s → s ≠ free_slot →
  slot_typed s' → s' ≠ free_slot →
  table_ok (<[i := s']> sl) fl.
Proof.
  intros Ht Hi Hs Hty Hs'. split.
  - rewrite list_lookup_insert_ne; [apply Ht|].
    intros ->. rewrite (table_slot0 _ _ Ht) in Hi. congruence.
  - intros j s'' [[_ ->]|[_ ?]]%list_lookup_insert_cases; [done|by eapply Ht].
  - intros h Hh. destruct (table_free _ _ Ht h Hh) as [Hp Hf].
    split; [done|]. rewrite list_lookup_insert_ne; [done|]. intros ->. congruence.
  - apply Ht.
  - intros j Hj [[_ ?]|[_ Hf]]%list_lookup_insert_cases; [done|by eapply Ht].
Qed.

Lemma store_slot_spec c h s' (Q : unit → Core → Prop) :
  (Z.to_nat h < length (slots c))%nat →
  Q tt (set_slots (λ l, <[Z.to_nat h := s']> l) c) →
  wp (store_slot h s') Q c.
Proof.
  intros Hlt HQ. unfold store_slot. wp_step.
  destruct (Nat.ltb_spec (Z.to_nat h) (length (slots c))); [|lia]. by wp_step.
Qed.

Lemma table_ok_free sl fl h s :
  table_ok sl fl → 0 < h → sl !! Z.to_nat h = Some s → s ≠ free_slot →
  table_ok (<[Z.to_nat h := free_slot]> sl) (fl ++ [h]).
Proof.
  intros Ht Hpos Hs Hne. pose proof (lookup_lt_Some _ _ _ Hs) as Hlt. split.
  - rewrite list_lookup_insert_ne by lia. apply Ht.
  - intros j s' [[_ ->]|[_ ?]]%list_lookup_insert_cases; [done|by eapply Ht].
  - intros h' [Hin| ->%list_elem_of_singleton]%elem_of_app.
    + destruct (table_free _ _ Ht h' Hin) as [Hp Hf]. split; [done|].
      rewrite list_lookup_insert_ne; [done|]. intros Heq. rewrite Heq in Hs. congruence.
    + split; [done|]. by apply list_lookup_insert_eq.
  - apply NoDup_app. split_and!; [apply Ht| |apply NoDup_singleton].
    intros h' Hin ->%list_elem_of_singleton.
    destruct (table_free _ _ Ht h Hin). congruence.
  - intros j Hj [[<- _]|[_ Hf]]%list_lookup_insert_cases.
    + rewrite Z2Nat.id by lia. set_solver.
    + pose proof (table_free_all _ _ Ht j Hj Hf). set_solver.
Qed.

(** ** Frame lemmas

    An update that touches no slot of the kinds the store invariants speak
    about keeps them. *)
Definition kind_stable (k : HandleKind) (sl sl' : list Slot) : Prop :=
  ∀ j o, sl' !! j = Some (mkSlot k o) ↔ sl !! j = Some (mkSlot k o).

Definition not_kind (k : HandleKind) (s : option Slot) : Prop :=
  match s with Some s => kind s ≠ k | None => True end.

Lemma kind_stable_at k i sl sl' :
  (∀ j, j ≠ i → sl' !! j = sl !! j) →
  not_kind k (sl !! i) → not_kind k (sl' !! i) → kind_stable k sl sl'.
Proof.
  intros Ho H1 H2 j o. destruct (decide (j = i)) as [->|]; [|by rewrite Ho].
  split; intros H; rewrite H in *; simpl in *; congruence.
Qed.

Lemma kind_stable_filled k sl0 s i sl fl :
  filled sl0 s i sl fl → kind s ≠ k → k ≠ HandleKind_Free →
  kind_stable k sl0 sl.
Proof.
  intros Hf Hk Hk'. eapply kind_stable_at; [apply Hf|..].
  - destruct (filled_old _ _ _ _ _ Hf) as [->| ->]; simpl; [done|congruence].
  - by rewrite (filled_new _ _ _ _ _ Hf).
Qed.

Lemma kind_stable_insert k i s s' sl :
  sl !! i = Some s → kind s ≠ k → kind s' ≠ k →
  kind_stable k sl (<[i := s']> sl).
Proof.
  intros Hi Hk Hk'. eapply (kind_stable_at _ i).
  - intros j Hj. by apply list_lookup_insert_ne.
  - by rewrite Hi.
  - rewrite list_lookup_insert_eq; [done|]. by eapply lookup_lt_Some.
Qed.

Lemma kind_stable_trans k sl1 sl2 sl3 :
  kind_stable k sl1 sl2 → kind_stable k sl2 sl3 → kind_stable k sl1 sl3.
Proof. intros H1 H2 j o. etrans; [apply H2|apply H1]. Qed.

Lemma pipes_ok_stable sl sl' ps :
  pipes_ok sl ps → kind_stable HandleKind_MessagePipe sl sl' → pipes_ok sl' ps.
Proof.
  intros Hp Hs. split.
  - intros i j e ?%Hs ?%Hs. by eapply Hp.
  - intros i e ?%Hs. by eapply Hp.
  - intros i e st ?%Hs Hst Hc. destruct (pipes_peer _ _ Hp i e st) as [j Hj]; try done.
    exists j. by apply Hs.
Qed.

Lemma datas_ok_stable sl sl' ds :
  datas_ok sl ds →
  kind_stable HandleKind_DataPipeProducer sl sl' →
  kind_stable HandleKind_DataPipeConsumer sl sl' → datas_ok sl' ds.
Proof.
  intros Hp H1 H2.
  assert (∀ i e, data_at sl' i e → data_at sl i e) as Hat.
  { intros i e. unfold data_at. destruct (de_producer e); [apply H1|apply H2]. }
  split.
  - intros i j e ?%Hat ?%Hat. by eapply Hp.
  - intros i e ?%Hat. by eapply Hp.
  - apply Hp.
Qed.

Lemma bufs_ok_stable sl sl' mp bs :
  bufs_ok sl mp bs → kind_stable HandleKind_SharedBuffer sl sl' →
  bufs_ok sl' mp bs.
Proof.
  intros Hp Hs. split.
  - intros i id ?%Hs. by eapply Hp.
  - apply Hp.
  - intros id b Hb. destruct (bufs_live _ _ _ Hp id b Hb) as [[i Hi]|?]; [left|by right].
    exists i. by apply Hs.
Qed.

(** The kinds whose objects lead into the stores. *)
Definition heap_kind (k : HandleKind) : bool :=
  match k with
  | HandleKind_MessagePipe | HandleKind_DataPipeProducer
  | HandleKind_DataPipeConsumer | HandleKind_SharedBuffer => true
  | _ => false
  end.

Lemma ids_ok_ext c c' :
  ids_ok c → pipe_states c' = pipe_states c → data_states c' = data_states c →
  buffers c' = buffers c → next_id c' = next_id c → ids_ok c'.
Proof. intros [] H1 H2 H3 H4. split; rewrite ?H1, ?H2, ?H3, H4; auto. Qed.

Lemma wf_stable c c' :
  wf c → table_ok (slots c') (free_list c') →
  (∀ k, heap_kind k = true → kind_stable k (slots c) (slots c')) →
  pipe_states c' = pipe_states c → data_states c' = data_states c →
  buffers c' = buffers c → maps c' = maps c → next_id c' = next_id c → wf c'.
Proof.
  intros [Ht Hp Hd Hb Hi] Ht' Hs E1 E2 E3 E4 E5. split.
  - done.
  - rewrite E1. by eapply pipes_ok_stable, Hs.
  - rewrite E2. by eapply datas_ok_stable; [|apply Hs..].
  - rewrite E3, E4. by eapply bufs_ok_stable, Hs.
  - by eapply ids_ok_ext.
Qed.

(** Updates of the fields no invariant mentions. *)
Lemma wf_same c c' :
  wf c → slots c' = slots c → free_list c' = free_list c →
  pipe_states c' = pipe_states c → data_states c' = data_states c →
  buffers c' = buffers c → maps c' = maps c → next_id c' = next_id c → wf c'.
Proof.
  intros Hwf E1 E2 **. eapply wf_stable; try done.
  - rewrite E1, E2. apply Hwf.
  - intros k _ j o. by rewrite E1.
Qed.

Lemma wf_set_pending f c : wf c → wf (set_pending f c).
Proof. intros Hwf. by eapply wf_same. Qed.
Lemma wf_set_traps f c : wf c → wf (set_traps f c).
Proof. intros Hwf. by eapply wf_same. Qed.
Lemma wf_set_inited b c : wf c → wf (set_inited b c).
Proof. intros Hwf. by eapply wf_same. Qed.
Lemma wf_log_native l c : wf c → wf (log_native l c).
Proof. intros Hwf. by eapply wf_same. Qed.

(** Filling, overwriting and freeing a slot whose object leads nowhere. *)
Lemma wf_fill c s i sl fl :
  wf c → filled (slots c) s i sl fl → heap_kind (kind s) = false →
  wf (set_free_list (λ _, fl) (set_slots (λ _, sl) c)).
Proof.
  intros Hwf Hf Hk. eapply wf_stable; try done; [apply Hf|].
  intros k Hk'. eapply kind_stable_filled; [done|congruence|by destruct k].
Qed.

Lemma wf_store c h s s' :
  wf c → Lookup c h = Some s → heap_kind (kind s) = false →
  slot_typed s' → kind s' = kind s →
  wf (set_slots (λ l, <[Z.to_nat h := s']> l) c).
Proof.
  intros Hwf Hl Hk Hty Hks.
  apply Lookup_inv in Hl as (Hr & Hs & Hf); [|apply Hwf].
  eapply wf_stable; try done; simpl.
  - eapply table_ok_store; try done; [apply Hwf|..].
    + by intros ->.
    + intros ->. by rewrite <- Hks in Hf.
  - intros k Hk'. eapply kind_stable_insert; [done|congruence..].
Qed.

Lemma wp_Free {host : Host} c h s (Q : unit → Core → Prop) :
  table_ok (slots c) (free_list c) → Lookup c h = Some s →
  kind s ≠ HandleKind_SharedBuffer →
  Q tt (set_free_list (λ l, l ++ [h])
          (set_slots (λ l, <[Z.to_nat h := free_slot]> l) c)) →
  wp (Free h) Q c.
Proof.
  intros Ht Hl Hk HQ. pose proof Hl as (Hr & Hs & Hf)%Lookup_inv; [|done].
  unfold Free. wp_step.
  destruct (Z.eqb_spec h 0); [lia|].
  destruct (Z.leb_spec (Z.of_nat (length (slots c))) h); [lia|]. simpl.
  rewrite Hs. wp_step. apply store_slot_spec; [lia|].
  pose proof (table_typed _ _ Ht _ _ Hs) as Hty.
  destruct s as [k []]; simpl in *; wp_step; try done. by destruct k.
Qed.

Lemma wf_Free c h s :
  wf c → Lookup c h = Some s → heap_kind (kind s) = false →
  wf (set_free_list (λ l, l ++ [h])
        (set_slots (λ l, <[Z.to_nat h := free_slot]> l) c)).
Proof.
  intros Hwf Hl Hk.
  apply Lookup_inv in Hl as (Hr & Hs & Hf); [|apply Hwf].
  eapply wf_stable; try done; simpl.
  - eapply table_ok_free; [apply Hwf|lia|done|]. by intros ->.
  - intros k Hk'. eapply kind_stable_insert; [done|congruence|by intros <-].
Qed.

#[export] Hint Resolve wf_init wf_set_pending wf_set_traps wf_set_inited
  wf_log_native wf_fill wf_store wf_Free wf_table : voodoo.

(** ** Pipes *)

(** The occupants of a kind after a slot was filled. *)
Lemma filled_at sl0 s i sl fl j s' :
  filled sl0 s i sl fl → kind s' ≠ HandleKind_Free →
  sl !! j = Some s' ↔ (j = i ∧ s' = s) ∨ sl0 !! j = Some s'.
Proof.
  intros Hf Hk. destruct (decide (j = i)) as [->|Hne].
  - rewrite (filled_new _ _ _ _ _ Hf).
    destruct (filled_old _ _ _ _ _ Hf) as [E|E]; rewrite E; split.
    + intros [= <-]. by left.
    + intros [[_ ->]|?]; done.
    + intros [= <-]. by left.
    + intros [[_ ->]|[= <-]]; [done|]. by destruct Hk.
  - rewrite (filled_other _ _ _ _ _ Hf) by done. intuition.
Qed.

Lemma freed_at (sl : list Slot) i k s :
  kind s ≠ HandleKind_Free →
  <[i := free_slot]> sl !! k = Some s ↔ k ≠ i ∧ sl !! k = Some s.
Proof.
  intros Hk. rewrite list_lookup_insert_Some. split.
  - intros [(_ & <- & _)|[? ?]]; [by destruct Hk|auto].
  - intros [? ?]. auto.
Qed.

Lemma pipes_ok_put sl ps id st st' :
  pipes_ok sl ps → ps !! id = Some st → closed st' = closed st →
  pipes_ok sl (<[id := st']> ps).
Proof.
  intros Hp Hst Hc. split.
  - apply Hp.
  - intros i e He. destruct (pipes_open _ _ Hp i e He) as (st0 & Hs0 & Ho).
    destruct (decide (pe_state e = id)) as [E|E].
    + exists st'. rewrite E in *. rewrite lookup_insert_eq. split; [done|].
      rewrite Hc. congruence.
    + exists st0. by rewrite lookup_insert_ne.
  - intros i e st0 He Hs0 Ho. destruct (decide (pe_state e = id)) as [E|E].
    + rewrite E, lookup_insert_eq in Hs0. injection Hs0 as <-.
      eapply (pipes_peer _ _ Hp i e st); [done|by rewrite E|by rewrite <- Hc].
    + rewrite lookup_insert_ne in Hs0 by done. by eapply (pipes_peer _ _ Hp i e st0).
Qed.

Lemma pipes_ok_create sl0 sl1 fl1 sl2 fl2 i j ps id st :
  pipes_ok sl0 ps → ps !! id = None →
  closed st = mkTwo false false →
  filled sl0 (mkSlot HandleKind_MessagePipe (ObjPipeEnd (mkPipeEnd id false))) i sl1 fl1 →
  filled sl1 (mkSlot HandleKind_MessagePipe (ObjPipeEnd (mkPipeEnd id true))) j sl2 fl2 →
  pipes_ok sl2 (<[id := st]> ps).
Proof.
  intros Hp Hid Hc F1 F2.
  assert (∀ k e, pipe_at sl2 k e ↔ (k = j ∧ e = mkPipeEnd id true) ∨
            (k = i ∧ e = mkPipeEnd id false) ∨ pipe_at sl0 k e) as Hat.
  { intros k e. unfold pipe_at. rewrite (filled_at _ _ _ _ _ _ _ F2) by done.
    rewrite (filled_at _ _ _ _ _ _ _ F1) by done.
    split; [intros [[-> [= ->]]|[[-> [= ->]]|?]]|intros [[-> ->]|[[-> ->]|?]]]; tauto. }
  assert (∀ k e, pipe_at sl0 k e → pe_state e ≠ id) as Hold.
  { intros k e He E. destruct (pipes_open _ _ Hp k e He) as (? & ? & _). congruence. }
  split.
  - intros k l e [[-> ->]|[[-> ->]|Hk]]%Hat [[-> E]|[[-> E]|Hl]]%Hat; try done;
      try (by apply Hold in Hl); try (by subst; apply Hold in Hk).
    by eapply Hp.
  - intros k e [[-> ->]|[[-> ->]|Hk]]%Hat; simpl.
    + exists st. rewrite lookup_insert_eq. by rewrite Hc.
    + exists st. rewrite lookup_insert_eq. by rewrite Hc.
    + pose proof (Hold _ _ Hk). rewrite lookup_insert_ne by done. by eapply Hp.
  - intros k e st' [[-> ->]|[[-> ->]|Hk]]%Hat Hst Ho; simpl.
    + exists i. apply Hat. auto.
    + exists j. apply Hat. auto.
    + pose proof (Hold _ _ Hk). rewrite lookup_insert_ne in Hst by done.
      destruct (pipes_peer _ _ Hp k e st') as [l Hl]; try done.
      exists l. apply Hat. auto.
Qed.

Lemma pipes_ok_close sl ps i e st :
  pipes_ok sl ps → pipe_at sl i e → ps !! pe_state e = Some st →
  pipes_ok (<[i := free_slot]> sl)
    (<[pe_state e := mkPipeState (queues st) (upd (closed st) (pe_end e) true)
                       (quota_count st) (quota_bytes st)]> ps).
Proof.
  intros Hp Hi Hst.
  assert (∀ k e', pipe_at (<[i := free_slot]> sl) k e' ↔ k ≠ i ∧ pipe_at sl k e') as Hat.
  { intros k e'. by apply freed_at. }
  assert (∀ k e', k ≠ i → pipe_at sl k e' → pe_state e' = pe_state e →
            pe_end e' = negb (pe_end e)) as Hother.
  { intros k [s' d'] Hk He' Heq. destruct e as [s0 d0]. simpl in *. subst s'.
    destruct (decide (d' = d0)) as [->|]; [|by destruct d', d0].
    destruct Hk. by eapply Hp. }
  split.
  - intros k l e' [_ ?]%Hat [_ ?]%Hat. by eapply Hp.
  - intros k e' [Hk He']%Hat. destruct (pipes_open _ _ Hp k e' He') as (st' & Hst' & Ho).
    destruct (decide (pe_state e' = pe_state e)) as [E|E].
    + rewrite E, lookup_insert_eq. eexists. split; [done|]. simpl.
      rewrite (Hother k e' Hk He' E), sel_upd_ne, <- (Hother k e' Hk He' E).
      rewrite E in Hst'. congruence.
    + rewrite lookup_insert_ne by done. by exists st'.
  - intros k e' st' [Hk He']%Hat Hst' Ho.
    destruct (decide (pe_state e' = pe_state e)) as [E|E].
    + rewrite E, lookup_insert_eq in Hst'. injection Hst' as <-. simpl in Ho.
      by rewrite (Hother k e' Hk He' E), negb_involutive, sel_upd_eq in Ho.
    + rewrite lookup_insert_ne in Hst' by done.
      destruct (pipes_peer _ _ Hp k e' st') as [l Hl]; try done.
      exists l. apply Hat. split; [|done]. intros ->.
      unfold pipe_at in *. rewrite Hi in Hl. by injection Hl as ->.
Qed.

(** The pipe ends after [WhpFuseMessagePipes]: the two peers on the fused
    state, and the ends of every other pipe. *)
Lemma fuse_pipe_at sl ps i0 i1 p0 p1 e0 e1 id k e :
  pipes_ok sl ps →
  pipe_at sl i0 e0 → pipe_at sl i1 e1 →
  pipe_at sl p0 (mkPipeEnd (pe_state e0) (negb (pe_end e0))) →
  pipe_at sl p1 (mkPipeEnd (pe_state e1) (negb (pe_end e1))) →
  pe_state e0 ≠ pe_state e1 →
  pipe_at (<[i1 := free_slot]> (<[i0 := free_slot]>
    (<[p1 := mkSlot HandleKind_MessagePipe (ObjPipeEnd (mkPipeEnd id true))]>
    (<[p0 := mkSlot HandleKind_MessagePipe (ObjPipeEnd (mkPipeEnd id false))]> sl)))) k e ↔
  (k = p0 ∧ e = mkPipeEnd id false) ∨ (k = p1 ∧ e = mkPipeEnd id true) ∨
  (pipe_at sl k e ∧ pe_state e ≠ pe_state e0 ∧ pe_state e ≠ pe_state e1).
Proof.
  intros Hp H0 H1 Hp0 Hp1 Hne.
  assert (∀ a b x y, pipe_at sl a x → pipe_at sl b y → x ≠ y → a ≠ b) as Hdiff.
  { intros a b x y Ha Hb Hxy ->. unfold pipe_at in *. congruence. }
  assert (p0 ≠ i0 ∧ p1 ≠ i1 ∧ p0 ≠ p1 ∧ p0 ≠ i1 ∧ p1 ≠ i0) as (N1 & N2 & N3 & N4 & N5).
  { destruct e0 as [s0 b0], e1 as [s1 b1]. simpl in *.
    split_and!; (eapply Hdiff; [eassumption..|]); intros [=];
      first [congruence|by destruct b0|by destruct b1]. }
  assert (∀ a x, pipe_at sl a x →
    (pe_state x = pe_state e0 ∧ (a = i0 ∨ a = p0)) ∨
    (pe_state x = pe_state e1 ∧ (a = i1 ∨ a = p1)) ∨
    (pe_state x ≠ pe_state e0 ∧ pe_state x ≠ pe_state e1)) as Hcases.
  { intros a [s b] Ha. simpl.
    destruct (decide (s = pe_state e0)) as [->|Hs0].
    - left. split; [done|]. destruct (decide (b = pe_end e0)) as [->|].
      + left. eapply Hp; [exact Ha|]. by destruct e0.
      + right. eapply Hp; [exact Ha|]. replace b with (negb (pe_end e0)); [done|].
        by destruct b, (pe_end e0).
    - destruct (decide (s = pe_state e1)) as [->|Hs1]; [|auto].
      right; left. split; [done|]. destruct (decide (b = pe_end e1)) as [->|].
      + left. eapply Hp; [exact Ha|]. by destruct e1.
      + right. eapply Hp; [exact Ha|]. replace b with (negb (pe_end e1)); [done|].
        by destruct b, (pe_end e1). }
  pose proof (lookup_lt_Some _ _ _ Hp0). pose proof (lookup_lt_Some _ _ _ Hp1).
  unfold pipe_at at 1. rewrite !freed_at by done.
  rewrite !list_lookup_insert_Some, length_insert.
  split.
  - intros (K1 & K0 & [(-> & [= <-] & _)|(K2 & [(-> & [= <-] & _)|(K3 & Hk)])]); [auto..|].
    right; right. split; [done|].
    destruct (Hcases k e Hk) as [(_ & [?|?])|[(_ & [?|?])|?]]; congruence || done.
  - intros [[-> ->]|[[-> ->]|(Hk & S0 & S1)]].
    + split_and!; [done..|]. right. split; [done|]. left. auto.
    + split_and!; [done..|]. left. auto.
    + assert (∀ x, pe_state x = pe_state e0 ∨ pe_state x = pe_state e1 →
        ∀ a, pipe_at sl a x → k ≠ a) as Hk'.
      { intros x Hx a Ha ->. unfold pipe_at in *. rewrite Ha in Hk.
        injection Hk as ->. destruct Hx; congruence. }
      split_and!; try (eapply Hk'; [|eassumption]; simpl; auto; fail).
      right. split; [intros Hx; by eapply (Hk' _ _ _ Hp1)|].
      right. split; [intros Hx; by eapply (Hk' _ _ _ Hp0)|done].
      Unshelve. all: simpl; auto.
Qed.

Lemma pipes_ok_fuse sl ps i0 i1 p0 p1 e0 e1 id st :
  pipes_ok sl ps →
  pipe_at sl i0 e0 → pipe_at sl i1 e1 →
  pipe_at sl p0 (mkPipeEnd (pe_state e0) (negb (pe_end e0))) →
  pipe_at sl p1 (mkPipeEnd (pe_state e1) (negb (pe_end e1))) →
  pe_state e0 ≠ pe_state e1 → ps !! id = None →
  closed st = mkTwo false false →
  pipes_ok (<[i1 := free_slot]> (<[i0 := free_slot]>
    (<[p1 := mkSlot HandleKind_MessagePipe (ObjPipeEnd (mkPipeEnd id true))]>
    (<[p0 := mkSlot HandleKind_MessagePipe (ObjPipeEnd (mkPipeEnd id false))]> sl))))
    (<[id := st]> ps).
Proof.
  intros Hp H0 H1 Hp0 Hp1 Hne Hid Hc.
  pose proof (fuse_pipe_at sl ps i0 i1 p0 p1 e0 e1 id) as Hat.
  assert (∀ k e, pipe_at sl k e → pe_state e ≠ id) as Hold.
  { intros k e He E. destruct (pipes_open _ _ Hp k e He) as (? & ? & _). congruence. }
  split.
  - intros k l e Hk Hl. rewrite Hat in Hk, Hl by done.
    destruct Hk as [[-> ->]|[[-> ->]|(Hk & _ & _)]], Hl as [[-> E]|[[-> E]|(Hl & _ & _)]];
      try done; try (by apply Hold in Hl); try (by subst; apply Hold in Hk).
    by eapply Hp.
  - intros k e Hk. rewrite Hat in Hk by done.
    destruct Hk as [[-> ->]|[[-> ->]|(Hk & _ & _)]]; simpl.
    + exists st. rewrite lookup_insert_eq. by rewrite Hc.
    + exists st. rewrite lookup_insert_eq. by rewrite Hc.
    + pose proof (Hold _ _ Hk). rewrite lookup_insert_ne by done. by eapply Hp.
  - intros k e st' Hk Hst Ho. rewrite Hat in Hk by done.
    destruct Hk as [[-> ->]|[[-> ->]|(Hk & N0 & N1)]]; simpl in *.
    + exists p1. rewrite Hat by done. auto.
    + exists p0. rewrite Hat by done. auto.
    + pose proof (Hold _ _ Hk). rewrite lookup_insert_ne in Hst by done.
      destruct (pipes_peer _ _ Hp k e st') as [l Hl]; try done.
      exists l. rewrite Hat by done. auto.
Qed.

(** ** Data pipes *)

Lemma datas_ok_put sl ds id s s' :
  datas_ok sl ds → ds !! id = Some s → ring_ok s' →
  (∀ b, end_closed b s' = end_closed b s) → datas_ok sl (<[id := s']> ds).
Proof.
  intros Hd Hs Hr Hc. split.
  - apply Hd.
  - intros i e He. destruct (datas_open _ _ Hd i e He) as (s0 & Hs0 & Ho).
    destruct (decide (de_state e = id)) as [E|E].
    + exists s'. rewrite E in *. rewrite lookup_insert_eq. split; [done|].
      rewrite Hc. congruence.
    + exists s0. by rewrite lookup_insert_ne.
  - intros id' s0. rewrite lookup_insert_Some. intros [[_ <-]|[_ ?]]; [done|].
    by eapply Hd.
Qed.

Lemma datas_ok_create sl0 sl1 fl1 sl2 fl2 i j ds id s :
  datas_ok sl0 ds → ds !! id = None → ring_ok s →
  producer_closed s = false → consumer_closed s = false →
  filled sl0 (mkSlot HandleKind_DataPipeProducer
    (ObjDataPipeEnd (mkDataPipeEnd id true))) i sl1 fl1 →
  filled sl1 (mkSlot HandleKind_DataPipeConsumer
    (ObjDataPipeEnd (mkDataPipeEnd id false))) j sl2 fl2 →
  datas_ok sl2 (<[id := s]> ds).
Proof.
  intros Hd Hid Hr Hpc Hcc F1 F2.
  assert (∀ k e, data_at sl2 k e ↔ (k = j ∧ e = mkDataPipeEnd id false) ∨
            (k = i ∧ e = mkDataPipeEnd id true) ∨ data_at sl0 k e) as Hat.
  { intros k [s' b]. unfold data_at. simpl.
    rewrite (filled_at _ _ _ _ _ _ _ F2) by (by destruct b).
    rewrite (filled_at _ _ _ _ _ _ _ F1) by (by destruct b).
    destruct b; split; intros [[? [=]]|[[? [=]]|?]]; subst; tauto. }
  assert (∀ k e, data_at sl0 k e → de_state e ≠ id) as Hold.
  { intros k e He E. destruct (datas_open _ _ Hd k e He) as (? & ? & _). congruence. }
  split.
  - intros k l e [[-> ->]|[[-> ->]|Hk]]%Hat [[-> E]|[[-> E]|Hl]]%Hat; try done;
      try (by apply Hold in Hl); try (by subst; apply Hold in Hk).
    by eapply Hd.
  - intros k e [[-> ->]|[[-> ->]|Hk]]%Hat; simpl.
    + exists s. by rewrite lookup_insert_eq.
    + exists s. by rewrite lookup_insert_eq.
    + pose proof (Hold _ _ Hk). rewrite lookup_insert_ne by done. by eapply Hd.
  - intros id' s0. rewrite lookup_insert_Some. intros [[_ <-]|[_ ?]]; [done|].
    by eapply Hd.
Qed.

Lemma datas_ok_close sl ds i e s s' :
  datas_ok sl ds → data_at sl i e → ds !! de_state e = Some s → ring_ok s' →
  end_closed (negb (de_producer e)) s' = end_closed (negb (de_producer e)) s →
  datas_ok (<[i := free_slot]> sl) (<[de_state e := s']> ds).
Proof.
  intros Hd Hi Hs Hr Hc.
  assert (∀ k e', data_at (<[i := free_slot]> sl) k e' ↔ k ≠ i ∧ data_at sl k e') as Hat.
  { intros k e'. unfold data_at. apply freed_at. by destruct (de_producer e'). }
  split.
  - intros k l e' [_ ?]%Hat [_ ?]%Hat. by eapply Hd.
  - intros k e' [Hk He']%Hat. destruct (datas_open _ _ Hd k e' He') as (s0 & Hs0 & Ho).
    destruct (decide (de_state e' = de_state e)) as [E|E].
    + rewrite E, lookup_insert_eq. eexists. split; [done|].
      assert (de_producer e' = negb (de_producer e)) as ->.
      { destruct e as [x b], e' as [x' b']. simpl in *. subst.
        destruct (decide (b' = b)) as [->|]; [|by destruct b, b'].
        destruct Hk. by eapply Hd. }
      rewrite Hc. rewrite E in Hs0. rewrite Hs in Hs0. injection Hs0 as <-.
      destruct (decide (de_producer e' = negb (de_producer e))) as [E'|E'];
        [by rewrite <- E'|].
      destruct Hk. eapply Hd; [exact He'|].
      replace e' with e; [done|]. destruct e as [x b], e' as [x' b']. simpl in *.
      subst. by destruct b, b'.
    + rewrite lookup_insert_ne by done. by exists s0.
  - intros id' s0. rewrite lookup_insert_Some. intros [[_ <-]|[_ ?]]; [done|].
    by eapply Hd.
Qed.

(** ** Shared buffers *)

Lemma bufs_ok_put sl mp bs id b b' :
  bufs_ok sl mp bs → bs !! id = Some b → bufs_ok sl mp (<[id := b']> bs).
Proof.
  intros Hb Hid.
  assert (∀ i, is_Some (bs !! i) → is_Some (<[id := b']> bs !! i)) as Hm.
  { intros i Hi. rewrite lookup_insert_is_Some'. auto. }
  split.
  - intros i j ?. apply Hm. by eapply Hb.
  - intros p r Hr. destruct (bufs_map _ _ _ Hb p r Hr) as (? & ? & ?). auto.
  - intros i x. rewrite lookup_insert_Some. intros [[<- _]|[_ ?]]; by eapply Hb.
Qed.

Lemma bufs_ok_create sl0 i sl fl mp bs id b :
  bufs_ok sl0 mp bs →
  filled sl0 (mkSlot HandleKind_SharedBuffer (ObjSharedBuffer id)) i sl fl →
  bufs_ok sl mp (<[id := b]> bs).
Proof.
  intros Hb Hf.
  assert (∀ k j, buf_at sl k j ↔ (k = i ∧ j = id) ∨ buf_at sl0 k j) as Hat.
  { intros k j. unfold buf_at. rewrite (filled_at _ _ _ _ _ _ _ Hf) by done.
    intuition congruence. }
  assert (∀ j, is_Some (bs !! j) → is_Some (<[id := b]> bs !! j)) as Hm.
  { intros j Hj. rewrite lookup_insert_is_Some'. auto. }
  split.
  - intros k j [[-> ->]|Hk]%Hat; [by rewrite lookup_insert_eq|]. apply Hm. by eapply Hb.
  - intros p r Hr. destruct (bufs_map _ _ _ Hb p r Hr) as (? & ? & ?). auto.
  - intros j x. rewrite lookup_insert_Some. intros [[<- _]|[_ Hx]].
    + left. exists i. apply Hat. auto.
    + destruct (bufs_live _ _ _ Hb j x Hx) as [[k Hk]|?]; [left|by right].
      exists k. apply Hat. auto.
Qed.

Lemma bufs_ok_duplicate sl0 i sl fl mp bs id :
  bufs_ok sl0 mp bs → is_Some (bs !! id) →
  filled sl0 (mkSlot HandleKind_SharedBuffer (ObjSharedBuffer id)) i sl fl →
  bufs_ok sl mp bs.
Proof.
  intros Hb [b Hid] Hf. rewrite <- (insert_id bs id b Hid).
  by eapply bufs_ok_create.
Qed.

(** Whether an object is still referred to, as [buffer_in_use] decides it. *)
Lemma buffer_in_use_spec c id :
  (∀ i s, slots c !! i = Some s → slot_typed s) →
  buffer_in_use c id = true ↔
  (∃ i, buf_at (slots c) i id) ∨ (∃ p r, maps c !! p = Some r ∧ mr_buf r = id).
Proof.
  intros Ht. unfold buffer_in_use. rewrite orb_true_iff, !existsb_exists. f_equiv.
  - split.
    + intros (s & Hin & Hs). apply list_elem_of_In, list_elem_of_lookup in Hin as [i Hi].
      exists i. unfold slot_refers in Hs.
      pose proof (Ht _ _ Hi) as Hty. unfold buf_at. rewrite Hi.
      destruct s as [k []], k; try done. apply Nat.eqb_eq in Hs. by subst.
    + intros [i Hi]. exists (mkSlot HandleKind_SharedBuffer (ObjSharedBuffer id)).
      split; [|by apply Nat.eqb_refl].
      apply list_elem_of_In, list_elem_of_lookup. by exists i.
  - split.
    + intros ([p r] & Hin & Hr). apply list_elem_of_In, elem_of_map_to_list in Hin.
      apply Nat.eqb_eq in Hr. by exists p, r.
    + intros (p & r & Hr & <-). exists (p, r).
      split; [by apply list_elem_of_In, elem_of_map_to_list|]. simpl. by apply Nat.eqb_refl.
Qed.

(** The buffers are in order but for [id], which may have lost its last
    reference. *)
Definition bufs_ok_but (id : nat) (sl : list Slot) (mp : gmap MapPtr MappedRegion)
    (bs : gmap nat SharedBufferObj) : Prop :=
  (∀ i j, buf_at sl i j → is_Some (bs !! j)) ∧
  (∀ p r, mp !! p = Some r →
     is_Some (bs !! mr_buf r) ∧ 0 < mr_refs r ∧ mr_buf r = fst p) ∧
  (∀ j b, bs !! j = Some b → j ≠ id →
     (∃ i, buf_at sl i j) ∨ (∃ p r, mp !! p = Some r ∧ mr_buf r = j)).

(** [release_buffer] restores the invariant, running the destructor if and
    only if nothing refers to the buffer. *)
Lemma wp_release_buffer {host : Host} c id (Q : unit → Core → Prop) :
  (∀ i s, slots c !! i = Some s → slot_typed s) →
  bufs_ok_but id (slots c) (maps c) (buffers c) →
  (bufs_ok (slots c) (maps c) (buffers c) → Q tt c) →
  (∀ b, buffers c !! id = Some b →
     bufs_ok (slots c) (maps c) (delete id (buffers c)) →
     Q tt (set_buffers (delete id) (log_native (SharedBufferObj_dtor b) c))) →
  wp (release_buffer id) Q c.
Proof.
  intros Ht (B1 & B2 & B3) Hkeep Hdel. unfold release_buffer. wp_step.
  destruct (buffer_in_use c id) eqn:Hu.
  - wp_step. apply Hkeep. split; [done..|]. intros j b Hb.
    destruct (decide (j = id)) as [->|]; [|by eapply B3].
    by apply buffer_in_use_spec.
  - assert (¬ ((∃ i, buf_at (slots c) i id) ∨
              (∃ p r, maps c !! p = Some r ∧ mr_buf r = id))) as Hno.
    { rewrite <- buffer_in_use_spec by done. by rewrite Hu. }
    destruct (buffers c !! id) as [b|] eqn:Hb; wp_step.
    + apply Hdel; [done|]. split.
      * intros i j Hi. rewrite lookup_delete_ne; [by eapply B1|].
        intros ->. apply Hno. eauto.
      * intros p r Hr. destruct (B2 p r Hr) as (? & ? & ?). split; [|done].
        rewrite lookup_delete_ne; [done|].
        intros Heq. apply Hno. eauto.
      * intros j x. rewrite lookup_delete_Some. intros [? ?]. by eapply B3.
    + apply Hkeep. split; [done..|]. intros j x Hx.
      destruct (decide (j = id)) as [->|]; [congruence|by eapply B3].
Qed.

Lemma bufs_ok_but_free sl mp bs i id :
  bufs_ok sl mp bs → buf_at sl i id →
  bufs_ok_but id (<[i := free_slot]> sl) mp bs.
Proof.
  intros Hb Hi. split_and!.
  - intros k j [_ ?]%freed_at; [|done]. by eapply Hb.
  - apply Hb.
  - intros j b Hj Hne. destruct (bufs_live _ _ _ Hb j b Hj) as [[k Hk]|?]; [left|by right].
    exists k. apply freed_at; [done|]. split; [|done]. intros ->.
    unfold buf_at in *. congruence.
Qed.
