(* ===== verification/TrapsInv.v ===== *)
(** * Traps: invariant and wake-up properties

    [CollectTrapEvents] changes nothing but the [armed] flags of traps and the
    event queue; it disarms a trap exactly when it queues that trap's event,
    and leaves no armed trap with a trigger that holds. *)
From S2P Require Import Prelude Core Traps CoreInv.

(** ** Queries are defined on well-formed cores *)

Lemma QueryLocked_total c h : wf c → is_Some (QueryLocked c h).
Proof.
  intros Hwf. unfold QueryLocked.
  destruct (Lookup c h) as [s|] eqn:Hl; [|by eexists].
  apply Lookup_inv in Hl as (_ & Hs & Hf); [|apply Hwf].
  pose proof (table_typed _ _ (wf_table _ Hwf) _ _ Hs) as Hty.
  destruct (kind s) eqn:Hk; try (by eexists).
  - destruct (slot_typed_pipe s Hty Hk) as [e ->]. simpl.
    destruct (pipes_open _ _ (wf_pipes _ Hwf) _ e Hs) as (st & -> & _). by eexists.
  - destruct (slot_typed_data s true Hty Hk) as (e & He & E).
    rewrite E, Hk in Hs. rewrite E. simpl.
    destruct (datas_open _ _ (wf_datas _ Hwf) (Z.to_nat h) e) as (st & -> & _).
    { unfold data_at. by rewrite He. }
    by eexists.
  - destruct (slot_typed_data s false Hty Hk) as (e & He & E).
    rewrite E, Hk in Hs. rewrite E. simpl.
    destruct (datas_open _ _ (wf_datas _ Hwf) (Z.to_nat h) e) as (st & -> & _).
    { unfold data_at. by rewrite He. }
    by eexists.
Qed.

Lemma first_match_total c ts : wf c → is_Some (first_match c ts).
Proof.
  intros Hwf. induction ts as [|t ts IH]; simpl; [by eexists|].
  destruct (QueryLocked_total c (watched t) Hwf) as [st ->]. simpl.
  destruct (SignalsMatch _ _ _); [by eexists|done].
Qed.

Lemma blocking_triggers_total c ts : wf c → is_Some (blocking_triggers c ts).
Proof.
  intros Hwf. induction ts as [|t ts [bs IH]]; simpl; [by eexists|].
  destruct (QueryLocked_total c (watched t) Hwf) as [st ->]. simpl.
  rewrite IH. by eexists.
Qed.

(** ** The frame of trap delivery *)

(** The slots of the two cores agree except for the [armed] flags of traps,
    which [c'] may only have lowered. *)
Definition trap_le (s' s : Slot) : Prop :=
  s' = s ∨
  ∃ t t', s = mkSlot HandleKind_Trap (ObjTrap t) ∧
          s' = mkSlot HandleKind_Trap (ObjTrap t') ∧
          handler t' = handler t ∧ triggers t' = triggers t ∧
          armed t' = false.

Record trap_frame (c c' : Core) : Prop := {
  tf_slots : Forall2 trap_le (slots c') (slots c);
  tf_rest : c' = set_pending (λ _, pending_events c')
                   (set_slots (λ _, slots c') c)
}.

Lemma trap_le_refl s : trap_le s s.
Proof. by left. Qed.

Lemma trap_le_trans s1 s2 s3 : trap_le s1 s2 → trap_le s2 s3 → trap_le s1 s3.
Proof.
  intros [->|(t & t' & -> & -> & ? & ? & ?)]; [done|].
  intros [<-|(u & u' & -> & [= ->] & ? & ? & ?)]; right; [by exists t, t'|].
  exists u, t'. by rewrite H, H0.
Qed.

Lemma trap_frame_refl c : trap_frame c c.
Proof.
  split; [|by destruct c].
  apply Forall2_same_length_lookup. split; [done|].
  intros i x y Hx Hy. rewrite Hx in Hy. injection Hy as ->. by left.
Qed.

Lemma trap_frame_trans c1 c2 c3 :
  trap_frame c1 c2 → trap_frame c2 c3 → trap_frame c1 c3.
Proof.
  intros [H1 E1] [H2 E2]. split.
  - eapply Forall2_trans; [|exact H2|exact H1]. intros. by eapply trap_le_trans.
  - rewrite E2 at 1. rewrite E1 at 1. by destruct c1.
Qed.

Lemma trap_frame_stable c c' k :
  trap_frame c c' → k ≠ HandleKind_Trap → kind_stable k (slots c) (slots c').
Proof.
  intros [H _] Hk j o. split; intros Hj.
  - destruct (Forall2_lookup_l _ _ _ _ _ H Hj) as (s & Hs & [<-|Ht]); [done|].
    destruct Ht as (t & t' & -> & [= -> ->] & _). done.
  - destruct (Forall2_lookup_r _ _ _ _ _ H Hj) as (s & Hs & [->|Ht]); [done|].
    destruct Ht as (t & t' & [= -> ->] & _). done.
Qed.

Lemma trap_frame_lookup c c' h :
  trap_frame c c' →
  (∀ s, Lookup c h = Some s → kind s ≠ HandleKind_Trap → Lookup c' h = Some s) ∧
  (Lookup c h = None → Lookup c' h = None) ∧
  (∀ s, Lookup c h = Some s → kind s = HandleKind_Trap →
     ∃ s', Lookup c' h = Some s' ∧ trap_le s' s).
Proof.
  intros [H _]. unfold Lookup. rewrite <- (Forall2_length _ _ _ H).
  destruct (_ || _); [by split_and!|].
  destruct (slots c !! Z.to_nat h) as [s|] eqn:Hs.
  - destruct (Forall2_lookup_r _ _ _ _ _ H Hs) as (s' & -> & Hle).
    split_and!.
    + intros s1. case_decide; [done|]. intros [= <-] Hk.
      destruct Hle as [->|(t & t' & -> & _)]; [by rewrite decide_False|done].
    + case_decide as Hd; [|done]. intros _.
      destruct Hle as [->|(t & t' & -> & -> & _)]; [by rewrite decide_True|done].
    + intros s1. case_decide; [done|]. intros [= <-] Hk. exists s'.
      rewrite decide_False; [done|].
      destruct Hle as [->|(t & t' & -> & -> & _)]; done.
  - split_and!; try done. intros _.
    destruct (slots c' !! Z.to_nat h) as [s'|] eqn:Hs'; [|done].
    destruct (Forall2_lookup_l _ _ _ _ _ H Hs') as (s & ? & _). congruence.
Qed.

Lemma trap_frame_query c c' h : trap_frame c c' → QueryLocked c' h = QueryLocked c h.
Proof.
  intros Hf. destruct (trap_frame_lookup c c' h Hf) as (H1 & H2 & H3).
  unfold QueryLocked. destruct (Lookup c h) as [s|] eqn:Hl; [|by rewrite H2].
  destruct (decide (kind s = HandleKind_Trap)) as [Hk|Hk].
  - destruct (H3 s eq_refl Hk) as (s' & -> & Hle). rewrite Hk.
    destruct Hle as [->|(t & t' & -> & -> & _)]; [by rewrite Hk|done].
  - rewrite (H1 s eq_refl Hk). rewrite (tf_rest _ _ Hf). done.
Qed.

Lemma trap_frame_first_match c c' ts :
  trap_frame c c' → first_match c' ts = first_match c ts.
Proof.
  intros Hf. induction ts as [|t ts IH]; simpl; [done|].
  by rewrite (trap_frame_query c c') , IH.
Qed.

Lemma trap_frame_wf c c' : wf c → trap_frame c c' → wf c'.
Proof.
  intros Hwf Hf. pose proof (tf_rest _ _ Hf) as E.
  assert (∀ i, slots c !! i = Some free_slot ↔ slots c' !! i = Some free_slot) as Hfree.
  { intros i. symmetry. by apply (trap_frame_stable c c'). }
  eapply wf_stable; [done|..]; try (by rewrite E).
  - rewrite E. simpl. destruct (wf_table _ Hwf) as [T0 T1 T2 T3 T4]. split.
    + by apply Hfree.
    + intros i s Hs. destruct (Forall2_lookup_l _ _ _ _ _ (tf_slots _ _ Hf) Hs)
        as (s0 & Hs0 & [->|(t & t' & -> & -> & _)]); [by eapply T1|done].
    + intros h Hh. destruct (T2 h Hh). split; [done|]. by apply Hfree.
    + done.
    + intros i Hi Hs. apply T4; [done|]. by apply Hfree.
  - intros k Hk. apply (trap_frame_stable c c'); [done|]. by intros ->.
Qed.

(** ** Delivery *)

Definition trap_slot (t : TrapObj) : Slot := mkSlot HandleKind_Trap (ObjTrap t).

(** No armed trap under [th] has a trigger that holds: nothing to report. *)
Definition quiet (c : Core) (th : Z) : Prop :=
  ∀ t, Lookup c th = Some (trap_slot t) → armed t = true → handler t ≠ None →
       first_match c (triggers t) = Some None.

(** [e] reports the first trigger that held of a trap armed in [c], and [c']
    has that trap disarmed. *)
Definition fired (c c' : Core) (e : PendingEvent) : Prop :=
  ∃ th t hd trig st,
    th ∈ traps c ∧ Lookup c th = Some (trap_slot t) ∧ armed t = true ∧
    handler t = Some hd ∧ first_match c (triggers t) = Some (Some (trig, st)) ∧
    e = mkPendingEvent hd (trap_event trig st) ∧
    Lookup c' th = Some (trap_slot (mkTrapObj (handler t) (triggers t) false)).

(** [evs] holds the event of every trap that was armed in [c] and is not in
    [c']. *)
Definition reported (c c' : Core) (evs : list PendingEvent) : Prop :=
  ∀ th t t', Lookup c th = Some (trap_slot t) → armed t = true →
    Lookup c' th = Some (trap_slot t') → armed t' = false →
    ∃ hd trig st, handler t = Some hd ∧
      first_match c (triggers t) = Some (Some (trig, st)) ∧
      mkPendingEvent hd (trap_event trig st) ∈ evs.

Lemma reported_refl c evs : reported c c evs.
Proof. intros th t t' H1 Ha H2 Hb. rewrite H1 in H2. injection H2 as ->. congruence. Qed.

(** Under a frame, a trap armed before is the same trap after or disarmed. *)
Lemma trap_frame_trap c c' th t :
  trap_frame c c' → Lookup c th = Some (trap_slot t) →
  ∃ t', Lookup c' th = Some (trap_slot t') ∧ (t' = t ∨ armed t' = false) ∧
        handler t' = handler t ∧ triggers t' = triggers t.
Proof.
  intros Hf Hl. destruct (trap_frame_lookup c c' th Hf) as (_ & _ & H3).
  destruct (H3 _ Hl eq_refl) as (s' & Hs & [->|(u & u' & [= <-] & -> & E1 & E2 & E3)]).
  - exists t. auto.
  - exists u'. auto.
Qed.

Lemma reported_trans c c1 c2 e1 e2 :
  trap_frame c c1 → reported c c1 e1 → reported c1 c2 e2 →
  reported c c2 (e1 ++ e2).
Proof.
  intros Hf R1 R2 th t t' Hl Ha Hl' Ha'.
  destruct (trap_frame_trap c c1 th t Hf Hl) as (t1 & Hl1 & [->|Hoff] & _).
  - destruct (R2 th t t' Hl1 Ha Hl' Ha') as (hd & trig & st & Hh & Hm & Hin).
    rewrite (trap_frame_first_match c c1) in Hm by done.
    exists hd, trig, st. set_solver.
  - destruct (R1 th t t1 Hl Ha Hl1 Hoff) as (hd & trig & st & Hh & Hm & Hin).
    exists hd, trig, st. set_solver.
Qed.

Lemma quiet_frame c c' th : trap_frame c c' → quiet c th → quiet c' th.
Proof.
  intros Hf Hq t Hl Ha Hh. rewrite (trap_frame_first_match c c') by done.
  destruct (trap_frame_lookup c c' th Hf) as (H1 & H2 & H3).
  destruct (Lookup c th) as [s|] eqn:Hs; [|rewrite H2 in Hl; done].
  destruct (decide (kind s = HandleKind_Trap)) as [Hk|Hk].
  - destruct (H3 s eq_refl Hk) as (s' & Hl' & Hle). rewrite Hl in Hl'.
    injection Hl' as <-. destruct Hle as [<-|(u & u' & -> & [= ->] & _ & _ & Hoff)].
    + by apply Hq.
    + by rewrite Hoff in Ha.
  - rewrite (H1 s eq_refl Hk) in Hl. injection Hl as ->. done.
Qed.

Lemma fired_frame c c1 c2 e : fired c c1 e → trap_frame c1 c2 → fired c c2 e.
Proof.
  intros (th & t & hd & trig & st & Hin & Hl & Ha & Hh & Hm & -> & Hl') Hf.
  exists th, t, hd, trig, st. split_and!; try done.
  destruct (trap_frame_lookup c1 c2 th Hf) as (_ & _ & H3).
  destruct (H3 _ Hl' eq_refl) as (s' & -> & Hle). f_equal.
  destruct Hle as [->|(u & u' & [= <-] & -> & E1 & E2 & E3)]; [done|].
  destruct u'; simpl in *. by subst.
Qed.

(** Disarming a trap is a [trap_frame] step. *)
Lemma disarm_frame c th t evs :
  table_ok (slots c) (free_list c) → Lookup c th = Some (trap_slot t) →
  trap_frame c (set_pending (λ l, l ++ evs) (set_slots
    (λ l, <[Z.to_nat th := trap_slot (mkTrapObj (handler t) (triggers t) false)]> l) c)).
Proof.
  intros Ht Hl. apply Lookup_inv in Hl as (Hr & Hs & _); [|done].
  split; [|done]. simpl. apply Forall2_same_length_lookup.
  split; [apply length_insert|].
  intros i x y [[<- ->]|[_ Hx]]%list_lookup_insert_cases Hy.
  - rewrite Hs in Hy. injection Hy as <-. right.
    exists t, (mkTrapObj (handler t) (triggers t) false). done.
  - rewrite Hx in Hy. injection Hy as ->. by left.
Qed.

Lemma Lookup_trap c th s :
  table_ok (slots c) (free_list c) → Lookup c th = Some s →
  kind s = HandleKind_Trap → ∃ t, s = trap_slot t.
Proof.
  intros Ht Hl Hk. apply Lookup_inv in Hl as (_ & Hs & _); [|done].
  apply slot_typed_trap; [by eapply Ht|done].
Qed.

Lemma collect_trap_spec c th :
  wf c → th ∈ traps c →
  wp (collect_trap th) (λ _ c',
    trap_frame c c' ∧ quiet c' th ∧
    ∃ evs, pending_events c' = pending_events c ++ evs ∧
           Forall (fired c c') evs ∧ reported c c' evs) c.
Proof.
  intros Hwf Hin. pose proof (wf_table _ Hwf) as Ht.
  assert (∀ Q : Prop, Q → trap_frame c c ∧ Q ∧
    ∃ evs, pending_events c = pending_events c ++ evs ∧ Forall (fired c c) evs ∧
           reported c c evs) as Hskip.
  { intros Q HQ. split; [apply trap_frame_refl|]. split; [done|].
    exists []. rewrite app_nil_r. split_and!; [done..|apply reported_refl]. }
  unfold collect_trap. wp_step.
  destruct (Lookup c th) as [s|] eqn:Hl.
  2: { wp_step. apply Hskip. intros t Hl'. by rewrite Hl in Hl'. }
  case_decide as Hk.
  2: { wp_step. apply Hskip. intros t Hl'. rewrite Hl in Hl'. by injection Hl' as ->. }
  destruct (Lookup_trap _ _ _ Ht Hl Hk) as [t ->]. simpl. wp_step.
  destruct (handler t) as [hd|] eqn:Hh.
  2: { wp_step. apply Hskip. intros t' Hl'. rewrite Hl in Hl'. by injection Hl' as <-. }
  destruct (armed t) eqn:Ha; simpl.
  2: { wp_step. apply Hskip. intros t' Hl'. rewrite Hl in Hl'. injection Hl' as <-. congruence. }
  destruct (first_match_total c (triggers t) Hwf) as [m Hm]. rewrite Hm. wp_step.
  destruct m as [[trig st]|].
  2: { wp_step. apply Hskip. intros t' Hl'. rewrite Hl in Hl'. by injection Hl' as <-. }
  wp_step. pose proof Hl as (Hr & Hs & _)%Lookup_inv; [|done].
  apply store_slot_spec; [lia|]. wp_step.
  pose proof (disarm_frame c th t [mkPendingEvent hd (trap_event trig st)] Ht Hl) as Hf.
  rewrite Hh in Hf.
  assert (Lookup (set_pending (λ l, l ++ [mkPendingEvent hd (trap_event trig st)])
    (set_slots (λ l, <[Z.to_nat th := trap_slot (mkTrapObj (Some hd) (triggers t) false)]> l) c))
    th = Some (trap_slot (mkTrapObj (Some hd) (triggers t) false))) as Hl'.
  { apply Lookup_intro; [lia| |done]. simpl. apply list_lookup_insert_eq. lia. }
  split; [done|]. split.
  - intros t' Hlt. pose proof (eq_trans (eq_sym Hl') Hlt) as [= <-]. done.
  - eexists. split; [done|]. rewrite Forall_singleton. split.
    { exists th, t, hd, trig, st. by rewrite Hh. }
    intros th' u u' Hu Hau Hu' Hau'.
    assert (Z.to_nat th' = Z.to_nat th) as E.
    { destruct (decide (Z.to_nat th' = Z.to_nat th)) as [|N]; [done|].
      unfold Lookup in Hu, Hu'. simpl in Hu'. rewrite length_insert in Hu'.
      rewrite list_lookup_insert_ne in Hu' by done. rewrite Hu in Hu'. injection Hu' as ->. congruence. }
    pose proof Hu as (_ & Hsu & _)%Lookup_inv; [|done].
    rewrite E, Hs in Hsu. injection Hsu as <-.
    exists hd, trig, st. split_and!; [done..|]. by apply list_elem_of_singleton.
Qed.

Lemma collect_traps_spec ths c :
  wf c → (∀ th, th ∈ ths → th ∈ traps c) →
  wp (collect_traps ths) (λ _ c',
    trap_frame c c' ∧ (∀ th, th ∈ ths → quiet c' th) ∧
    ∃ evs, pending_events c' = pending_events c ++ evs ∧
           Forall (fired c c') evs ∧ reported c c' evs) c.
Proof.
  revert c. induction ths as [|th ths IH]; intros c Hwf Hin; simpl; wp_step.
  { split; [apply trap_frame_refl|]. split; [by intros th ?%elem_of_nil|].
    exists []. rewrite app_nil_r. split_and!; [done..|apply reported_refl]. }
  eapply wp_mono; [apply collect_trap_spec; [done|by apply Hin; left]|].
  intros _ c1 (Hf1 & Hq1 & evs1 & Hp1 & Hfi1 & Hr1).
  pose proof (tf_rest _ _ Hf1) as E1.
  assert (traps c1 = traps c) as Etr by (by rewrite E1).
  eapply wp_mono; [apply IH|].
  { by eapply trap_frame_wf. }
  { intros. rewrite Etr. apply Hin. by right. }
  intros _ c2 (Hf2 & Hq2 & evs2 & Hp2 & Hfi2 & Hr2). split_and!.
  - by eapply trap_frame_trans.
  - intros th' [->|Hth]%elem_of_cons; [by eapply quiet_frame|by apply Hq2].
  - exists (evs1 ++ evs2). split; [by rewrite Hp2, Hp1, app_assoc|].
    split; [|by eapply reported_trans]. apply Forall_app. split.
    + eapply Forall_impl; [exact Hfi1|]. intros e He. by eapply fired_frame.
    + eapply Forall_impl; [exact Hfi2|].
      intros e (th' & t & hd & trig & st & Hin' & Hl & Ha & Hh & Hm & He & Hl').
      exists th', t, hd, trig, st. rewrite Etr in Hin'.
      rewrite (trap_frame_first_match c c1) in Hm by done.
      split_and!; try done.
      destruct (trap_frame_lookup c c1 th' Hf1) as (G1 & G2 & G3).
      destruct (Lookup c th') as [s|] eqn:Hs; [|rewrite G2 in Hl; done].
      destruct (decide (kind s = HandleKind_Trap)) as [Hk|Hk].
      * destruct (G3 s eq_refl Hk) as (s' & Hl1 & Hle). rewrite Hl in Hl1.
        injection Hl1 as <-. destruct Hle as [<-|(u & u' & -> & [= ->] & _ & _ & Hoff)]; [done|].
        by rewrite Hoff in Ha.
      * rewrite (G1 s eq_refl Hk) in Hl. done.
Qed.

Lemma CollectTrapEvents_spec c :
  wf c →
  wp CollectTrapEvents (λ _ c',
    trap_frame c c' ∧ (∀ th, th ∈ traps c → quiet c' th) ∧
    ∃ evs, pending_events c' = pending_events c ++ evs ∧
           Forall (fired c c') evs ∧ reported c c' evs) c.
Proof. intros Hwf. unfold CollectTrapEvents. wp_step. by apply collect_traps_spec. Qed.

Lemma CollectTrapEvents_wf c Q :
  wf c → (∀ c', wf c' → trap_frame c c' → Q tt c') → wp CollectTrapEvents Q c.
Proof.
  intros Hwf HQ. eapply wp_mono; [by apply CollectTrapEvents_spec|].
  intros [] c' (Hf & _). apply HQ; [by eapply trap_frame_wf|done].
Qed.
