(* ===== verification/KernelInv.v ===== *)
(** * Every locked section keeps the kernel well formed

    Rules for the prologues the operations share, then one preservation lemma
    per operation, collected in the hint database [kernel]. *)
From S2P Require Import Prelude Core Traps Messages DataPipes Buffers Api.
From S2P Require Import CoreInv TrapsInv.

Create HintDb kernel.

(** ** Rules for the shared prologues *)

Section rules.
Context {host : Host}.

Definition message_slot (m : MessageObj) : Slot :=
  mkSlot HandleKind_Message (ObjMessage m).
Definition pipe_slot (e : PipeEnd) : Slot :=
  mkSlot HandleKind_MessagePipe (ObjPipeEnd e).

Lemma wp_with_message {A} message (bad : A) k Q c :
  wf c → Q bad c →
  (∀ m, Lookup c message = Some (message_slot m) → wp (k m) Q c) →
  wp (with_message message bad k) Q c.
Proof.
  intros Hwf Hbad Hk. unfold with_message. wp_step.
  destruct (Lookup c message) as [s|] eqn:Hl; [|by wp_step].
  case_decide as Hkd; [|by wp_step].
  pose proof Hl as (_ & Hs & _)%Lookup_inv; [|apply Hwf].
  destruct (slot_typed_message s) as [m ->]; [by eapply Hwf|done|].
  simpl. wp_step. by apply Hk.
Qed.

Lemma wp_with_pipe {A} pipe (bad : A) k Q c :
  wf c → Q bad c →
  (∀ e st, Lookup c pipe = Some (pipe_slot e) →
     pipe_states c !! pe_state e = Some st → wp (k e) Q c) →
  wp (with_pipe pipe bad k) Q c.
Proof.
  intros Hwf Hbad Hk. unfold with_pipe. wp_step.
  destruct (Lookup c pipe) as [s|] eqn:Hl; [|by wp_step].
  case_decide as Hkd; [|by wp_step].
  pose proof Hl as (_ & Hs & _)%Lookup_inv; [|apply Hwf].
  destruct (slot_typed_pipe s) as [e ->]; [by eapply Hwf|done|].
  destruct (pipes_open _ _ (wf_pipes _ Hwf) _ _ Hs) as (st & Hst & _).
  simpl. wp_step. by eapply Hk.
Qed.

Lemma wp_with_data_pipe {A} (b : bool) h (bad : A) body Q c :
  wf c → Q bad c →
  (∀ e s, data_at (slots c) (Z.to_nat h) e → de_producer e = b → 0 < h →
     data_states c !! de_state e = Some s → ring_ok s →
     end_closed b s = false →
     wp (body (de_state e) s) Q c) →
  wp (with_data_pipe (if b then HandleKind_DataPipeProducer
                      else HandleKind_DataPipeConsumer) h bad body) Q c.
Proof.
  intros Hwf Hbad Hk. unfold with_data_pipe. wp_step.
  destruct (Lookup c h) as [s|] eqn:Hl; [|by wp_step].
  case_decide as Hkd; [|by wp_step].
  pose proof Hl as (Hr & Hs & _)%Lookup_inv; [|apply Hwf].
  destruct (slot_typed_data s b) as (e & He & E); [by eapply Hwf|done|].
  assert (data_at (slots c) (Z.to_nat h) e) as Hat.
  { unfold data_at. rewrite He, <- Hkd, <- E. done. }
  destruct (datas_open _ _ (wf_datas _ Hwf) _ _ Hat) as (st & Hst & Hop).
  rewrite E. simpl. unfold get_data. wp_step. rewrite Hst. wp_step.
  eapply Hk; try done; [lia|by eapply datas_ring, Hst; apply Hwf|by rewrite <- He].
Qed.

Lemma wp_with_buffer {A} h (bad : A) body Q c :
  wf c → Q bad c →
  (∀ id b, Lookup c h = Some (mkSlot HandleKind_SharedBuffer (ObjSharedBuffer id)) →
     buffers c !! id = Some b → wp (body id b) Q c) →
  wp (with_buffer h bad body) Q c.
Proof.
  intros Hwf Hbad Hk. unfold with_buffer, with_kind. wp_step.
  destruct (Lookup c h) as [s|] eqn:Hl; [|by wp_step].
  case_decide as Hkd; [|by wp_step].
  pose proof Hl as (_ & Hs & _)%Lookup_inv; [|apply Hwf].
  destruct (slot_typed_buffer s) as [id ->]; [by eapply Hwf|done|].
  destruct (bufs_slot _ _ _ (wf_bufs _ Hwf) _ _ Hs) as [b Hb].
  simpl. wp_step. unfold get_buffer. wp_step. rewrite Hb. wp_step. by apply Hk.
Qed.

Lemma wp_Alloc_inert c k o (Q : Z → Core → Prop) :
  wf c → heap_kind k = false → k ≠ HandleKind_Free → slot_typed (mkSlot k o) →
  (∀ h c', wf c' → Q h c') → wp (Alloc k o) Q c.
Proof.
  intros Hwf Hh Hk Hty HQ.
  eapply wp_mono; [apply Alloc_spec; [apply Hwf|done..]|].
  intros h c' (i & sl & fl & -> & Hf & _). apply HQ. by eapply wf_fill.
Qed.

Lemma wp_store_inert c h s s' (Q : unit → Core → Prop) :
  wf c → Lookup c h = Some s → heap_kind (kind s) = false →
  slot_typed s' → kind s' = kind s →
  (wf (set_slots (λ l, <[Z.to_nat h := s']> l) c) →
   Q tt (set_slots (λ l, <[Z.to_nat h := s']> l) c)) →
  wp (store_slot h s') Q c.
Proof.
  intros Hwf Hl Hh Hty Hk HQ.
  pose proof Hl as (Hr & _)%Lookup_inv; [|apply Hwf].
  apply store_slot_spec; [lia|]. apply HQ. by eapply wf_store.
Qed.

(** The table after [h] was freed. *)
Definition freed (h : Z) (c c' : Core) : Prop :=
  slots c' = <[Z.to_nat h := free_slot]> (slots c) ∧
  free_list c' = free_list c ++ [h].

Lemma wp_Free_inert c h s (Q : unit → Core → Prop) :
  wf c → Lookup c h = Some s → heap_kind (kind s) = false →
  (∀ c', wf c' → freed h c c' → Q tt c') → wp (Free h) Q c.
Proof.
  intros Hwf Hl Hh HQ. eapply wp_Free; [apply Hwf|done| |].
  - by destruct (kind s).
  - apply HQ; [by eapply wf_Free|done].
Qed.

Lemma freed_stored h s c c' :
  freed h (set_slots (λ l, <[Z.to_nat h := s]> l) c) c' → freed h c c'.
Proof. intros [E1 E2]. split; [|done]. by rewrite E1; simpl; rewrite list_insert_insert_eq. Qed.

Lemma wp_Collect_wf c (Q : unit → Core → Prop) :
  wf c → (∀ c', wf c' → Q tt c') → wp CollectTrapEvents Q c.
Proof. intros Hwf HQ. apply CollectTrapEvents_wf; auto. Qed.

Lemma wp_discard {A} (m : M Core A) (P : Core → Prop) c :
  wp m (λ _ c', P c') c → wp (discard m) (λ _ c', P c') c.
Proof. intros H. unfold discard. by wp_step. Qed.
End rules.

(** ** Messages *)

Section messages.
Context {host : Host}.

Lemma Lookup_stored c h s s' :
  table_ok (slots c) (free_list c) → Lookup c h = Some s →
  kind s' ≠ HandleKind_Free →
  Lookup (set_slots (λ l, <[Z.to_nat h := s']> l) c) h = Some s'.
Proof.
  intros Ht Hl Hk. apply Lookup_inv in Hl as (Hr & Hs & _); [|done].
  apply Lookup_intro; [lia| |done]. apply list_lookup_insert_eq. lia.
Qed.

Lemma WhpCreateMessage_wf b c :
  wf c → wp (WhpCreateMessage b) (λ _, wf) c.
Proof.
  intros Hwf. unfold WhpCreateMessage. destruct b; simpl; wp_step; [|done].
  by apply wp_Alloc_inert.
Qed.

Ltac message_op :=
  intros; apply wp_with_message; [done|done|];
  intros msg Hl; repeat (case_match; wp_step; try done);
  unfold store_message; wp_step;
  (eapply wp_store_inert; [done|exact Hl|done|done|done|]);
  intros; by wp_step.

Lemma WhpAppendMessageData_wf m n hs o c :
  wf c → wp (WhpAppendMessageData m n hs o) (λ _, wf) c.
Proof. unfold WhpAppendMessageData. message_op. Qed.

Lemma WhpGetMessageData_wf m hs n c :
  wf c → wp (WhpGetMessageData m hs n) (λ _, wf) c.
Proof. unfold WhpGetMessageData. message_op. Qed.

Lemma WhpSerializeMessage_begin_wf m c :
  wf c → wp (WhpSerializeMessage_begin m) (λ _, wf) c.
Proof. unfold WhpSerializeMessage_begin. message_op. Qed.

Lemma WhpSerializeMessage_end_wf m c :
  wf c → wp (WhpSerializeMessage_end m) (λ _, wf) c.
Proof. unfold WhpSerializeMessage_end. message_op. Qed.

Lemma WhpReserveMessageCapacity_wf m n c :
  wf c → wp (WhpReserveMessageCapacity m n) (λ _, wf) c.
Proof. unfold WhpReserveMessageCapacity. message_op. Qed.

Lemma WhpSetMessageContext_wf m x s d c :
  wf c → wp (WhpSetMessageContext m x s d) (λ _, wf) c.
Proof. unfold WhpSetMessageContext. message_op. Qed.

Lemma WhpGetMessageContext_wf m x c :
  wf c → wp (WhpGetMessageContext m x) (λ _, wf) c.
Proof.
  intros. unfold WhpGetMessageContext. case_match; wp_step; [done|].
  apply wp_with_message; [done|done|]. intros. by wp_step.
Qed.
End messages.

#[export] Hint Resolve WhpCreateMessage_wf WhpAppendMessageData_wf
  WhpGetMessageData_wf WhpSerializeMessage_begin_wf WhpSerializeMessage_end_wf
  WhpReserveMessageCapacity_wf WhpSetMessageContext_wf WhpGetMessageContext_wf
  : kernel.

(** ** Message pipes *)

Section pipes.
Context {host : Host}.

Lemma fresh_pipe c : wf c → pipe_states c !! next_id c = None.
Proof.
  intros Hwf. destruct (_ !! _) eqn:E; [|done].
  apply (ids_pipe _ (wf_ids _ Hwf)) in E. lia.
Qed.

Lemma ids_ok_make_pipe c st :
  ids_ok c → ids_ok (set_next_id (S (next_id c)) (set_pipes <[next_id c := st]> c)).
Proof.
  intros [H1 H2 H3]. split; simpl; intros id x.
  - rewrite lookup_insert_Some. intros [[<- _]|[_ ?%H1]]; lia.
  - intros ?%H2. lia.
  - intros ?%H3. lia.
Qed.

Lemma WhpCreateMessagePipe_wf b0 b1 c :
  wf c → wp (WhpCreateMessagePipe b0 b1) (λ _, wf) c.
Proof.
  intros Hwf. unfold WhpCreateMessagePipe. case_match; wp_step; [done|].
  unfold make_PipeState. wp_step.
  eapply wp_mono; [apply Alloc_spec; [apply (wf_table _ Hwf)|done..]|].
  intros h0 c1 (i & sl1 & fl1 & -> & F1 & _). wp_step.
  eapply wp_mono; [apply Alloc_spec; [apply F1|done..]|].
  intros h1 c2 (j & sl2 & fl2 & -> & F2 & _). wp_step. simpl in *.
  assert (∀ k, k ≠ HandleKind_MessagePipe → k ≠ HandleKind_Free →
            kind_stable k (slots c) sl2) as Hst.
  { intros k N1 N2. eapply kind_stable_trans;
      (eapply kind_stable_filled; [eassumption|simpl; congruence|done]). }
  split; simpl.
  - apply F2.
  - eapply pipes_ok_create; [apply Hwf|by apply fresh_pipe|done|done|done].
  - eapply datas_ok_stable; [apply Hwf|by apply Hst..].
  - eapply bufs_ok_stable; [apply Hwf|by apply Hst].
  - eapply ids_ok_ext; [apply (ids_ok_make_pipe c PipeState_init), Hwf|done..].
Qed.

Lemma wf_put_pipe c id st st' :
  wf c → pipe_states c !! id = Some st → closed st' = closed st →
  wf (set_pipes <[id := st']> c).
Proof.
  intros Hwf Hst Hc. destruct Hwf as [? ? ? ? [I1 I2 I3]]. split; try done.
  - by eapply pipes_ok_put.
  - split; simpl; [|done..]. intros x y. rewrite lookup_insert_Some.
    intros [[<- _]|[_ ?]]; eauto.
Qed.

Lemma WhpReadMessage_wf p b c : wf c → wp (WhpReadMessage p b) (λ _, wf) c.
Proof.
  intros Hwf. unfold WhpReadMessage. case_match; [by wp_step|].
  apply wp_with_pipe; [done|done|]. intros e st Hl Hst.
  unfold get_pipe. wp_step. rewrite Hst. wp_step.
  destruct (sel (queues st) (pe_end e)) as [|m q]; [by case_match; wp_step|].
  unfold put_pipe. wp_step.
  apply wp_Alloc_inert; try done. by eapply wf_put_pipe.
Qed.

Lemma WhpSetQuota_wf h t l c : wf c → wp (WhpSetQuota h t l) (λ _, wf) c.
Proof.
  intros Hwf. apply wp_with_pipe; [done|done|]. intros e st Hl Hst.
  unfold get_pipe, put_pipe. wp_step. rewrite Hst. wp_step.
  repeat case_match; wp_step; [by eapply wf_put_pipe..|done].
Qed.

Lemma WhpQueryQuota_wf h t l u c : wf c → wp (WhpQueryQuota h t l u) (λ _, wf) c.
Proof.
  intros Hwf. unfold WhpQueryQuota. case_match; [by wp_step|].
  apply wp_with_pipe; [done|done|]. intros e st Hl Hst.
  unfold get_pipe. wp_step. rewrite Hst. wp_step.
  repeat case_match; by wp_step.
Qed.

Lemma WhpWriteMessage_locked_wf p m c :
  wf c → wp (WhpWriteMessage_locked p m) (λ _, wf) c.
Proof.
  intros Hwf. unfold WhpWriteMessage_locked. wp_step.
  destruct (Lookup c p) as [ps|] eqn:Hp; [|by wp_step].
  destruct (Lookup c m) as [ms|] eqn:Hm; [|by wp_step].
  case_decide as Kp; [|by wp_step]. case_decide as Km; [|by wp_step].
  pose proof Hp as (_ & Sp & _)%Lookup_inv; [|apply Hwf].
  pose proof Hm as (_ & Sm & _)%Lookup_inv; [|apply Hwf].
  destruct (slot_typed_pipe ps) as [e ->]; [by eapply Hwf|done|].
  destruct (slot_typed_message ms) as [msg ->]; [by eapply Hwf|done|].
  destruct (pipes_open _ _ (wf_pipes _ Hwf) _ _ Sp) as (st & Hst & _).
  simpl. unfold get_pipe. wp_step. rewrite Hst. wp_step.
  case_match.
  - wp_step. eapply wp_Free_inert; [done|exact Hm|done|]. intros c1 Hwf1 _.
    wp_step. apply wp_Collect_wf; [done|]. intros. by wp_step.
  - wp_step. case_match; wp_step; [done|]. unfold put_pipe. wp_step.
    eapply wp_Free_inert; [by eapply wf_put_pipe|exact Hm|done|].
    intros c1 Hwf1 _. wp_step. apply wp_Collect_wf; [done|]. intros. by wp_step.
Qed.
End pipes.

(** ** Fusing pipes *)

Section fuse.
Context {host : Host}.

Definition peer_of (e : PipeEnd) : PipeEnd :=
  mkPipeEnd (pe_state e) (negb (pe_end e)).

(** A handle the search may answer for the peer of [e]. *)
Definition peer_handle (c : Core) (h0 h1 : Z) (e : PipeEnd) (h : Z) : Prop :=
  0 < h ∧ h ≠ h0 ∧ h ≠ h1 ∧ pipe_at (slots c) (Z.to_nat h) (peer_of e).

Definition is_peer (c : Core) (h0 h1 : Z) (e : PipeEnd) (i : nat) : bool :=
  negb (Z.of_nat i =? h0) && negb (Z.of_nat i =? h1) &&
  match Lookup c (Z.of_nat i) with
  | Some (mkSlot HandleKind_MessagePipe (ObjPipeEnd x)) =>
      (pe_state x =? pe_state e)%nat && negb (Bool.eqb (pe_end x) (pe_end e))
  | _ => false
  end.

(** The last index of the list that holds a peer, or [acc]. *)
Definition last_peer (c : Core) (h0 h1 : Z) (e : PipeEnd) (idxs : list nat)
    (acc : option Z) : option Z :=
  fold_left (λ a i, if is_peer c h0 h1 e i then Some (Z.of_nat i) else a)
    idxs acc.

Lemma is_peer_spec c h0 h1 e i :
  table_ok (slots c) (free_list c) → (0 < i)%nat →
  is_peer c h0 h1 e i = true ↔ peer_handle c h0 h1 e (Z.of_nat i).
Proof.
  intros Ht Hi. unfold is_peer, peer_handle, pipe_at. rewrite Nat2Z.id.
  rewrite !andb_true_iff, !negb_true_iff, !Z.eqb_neq. split.
  - intros [[N0 N1] Hm]. split_and!; [lia|done..|].
    destruct (Lookup c (Z.of_nat i)) as [[[] []]|] eqn:Hl; try done.
    apply Lookup_inv in Hl as (_ & Hs & _); [|done]. rewrite Nat2Z.id in Hs.
    rewrite Hs. apply andb_true_iff in Hm as [Hst He].
    apply Nat.eqb_eq in Hst. destruct e0 as [es ee], e as [xs xe]; simpl in *.
    subst. by destruct ee, xe.
  - intros (_ & N0 & N1 & Hs). split; [done|].
    rewrite (Lookup_slot c i _ Hs) by done. simpl. rewrite Nat.eqb_refl.
    by destruct (pe_end e).
Qed.

Lemma find_peers_eq c h0 h1 e0 e1 idxs acc :
  table_ok (slots c) (free_list c) →
  find_peers c h0 h1 e0 e1 idxs acc =
  Some (last_peer c h0 h1 e0 idxs (fst acc), last_peer c h0 h1 e1 idxs (snd acc)).
Proof.
  intros Ht. revert acc. induction idxs as [|i idxs IH]; intros acc; [by destruct acc|].
  simpl. unfold is_peer. destruct (_ || _) eqn:Hh.
  { rewrite IH. apply orb_true_iff in Hh. by destruct Hh as [-> | ->];
      rewrite ?andb_false_r. }
  apply orb_false_elim in Hh as [-> ->]. simpl.
  destruct (Lookup c (Z.of_nat i)) as [s|] eqn:Hl; [|by rewrite IH].
  pose proof Hl as (_ & Hs & _)%Lookup_inv; [|done].
  pose proof (table_typed _ _ Ht _ _ Hs) as Hty.
  case_decide as Hk.
  - destruct (slot_typed_pipe s) as [e ->]; [done..|]. simpl. by rewrite IH.
  - rewrite IH. by destruct s as [[] []].
Qed.

Lemma last_peer_spec c h0 h1 e idxs acc :
  table_ok (slots c) (free_list c) → (∀ i, i ∈ idxs → (0 < i)%nat) →
  (∀ h, acc = Some h → peer_handle c h0 h1 e h) →
  (∀ h, last_peer c h0 h1 e idxs acc = Some h → peer_handle c h0 h1 e h) ∧
  (is_Some acc ∨ (∃ i, i ∈ idxs ∧ peer_handle c h0 h1 e (Z.of_nat i)) →
   is_Some (last_peer c h0 h1 e idxs acc)).
Proof.
  intros Ht. revert acc. induction idxs as [|i idxs IH]; intros acc Hpos Hacc; simpl.
  { split; [done|]. intros [?|(i & []%elem_of_nil & _)]. done. }
  assert (∀ j, j ∈ idxs → (0 < j)%nat) as Hpos' by (intros; apply Hpos; by right).
  assert (0 < i)%nat as Hi by (apply Hpos; by left).
  pose proof (is_peer_spec c h0 h1 e i Ht Hi) as Hp.
  destruct (IH (if is_peer c h0 h1 e i then Some (Z.of_nat i) else acc) Hpos')
    as [H1 H2].
  { intros h. destruct (is_peer _ _ _ _ _); [|apply Hacc]. intros [= <-]. by apply Hp. }
  split; [exact H1|]. intros Hor. apply H2.
  destruct (is_peer _ _ _ _ _); [left; by eexists|].
  destruct Hor as [?|(j & [->|?]%elem_of_cons & Hj)]; [by left| |right; eauto].
  by apply Hp in Hj.
Qed.

(** The core after [fuse_commit]. *)
Definition moved_slots (c : Core) (p0 p1 : Z) : list Slot :=
  <[Z.to_nat p1 := pipe_slot (mkPipeEnd (next_id c) true)]>
    (<[Z.to_nat p0 := pipe_slot (mkPipeEnd (next_id c) false)]> (slots c)).
Definition fused_slots (c : Core) (h0 h1 p0 p1 : Z) : list Slot :=
  <[Z.to_nat h1 := free_slot]> (<[Z.to_nat h0 := free_slot]>
    (moved_slots c p0 p1)).
Definition fused_core (c : Core) (h0 h1 p0 p1 : Z) (st : PipeState) : Core :=
  set_free_list (λ l, (l ++ [h0]) ++ [h1])
    (set_slots (λ _, fused_slots c h0 h1 p0 p1)
      (set_next_id (S (next_id c)) (set_pipes <[next_id c := st]> c))).

Lemma pipe_at_handle c h e :
  wf c → Lookup c h = Some (pipe_slot e) →
  0 < h ∧ (Z.to_nat h < length (slots c))%nat ∧ pipe_at (slots c) (Z.to_nat h) e.
Proof. intros Hwf (? & ? & _)%Lookup_inv; [|apply Hwf]. split_and!; [lia..|done]. Qed.

Lemma peer_handle_ne c h0 h1 e h e' h' :
  wf c → peer_handle c h0 h1 e h → 0 < h' → pipe_at (slots c) (Z.to_nat h') e' →
  e' ≠ peer_of e → Z.to_nat h ≠ Z.to_nat h'.
Proof.
  intros Hwf (_ & _ & _ & Hp) Hh' Hp' Hne Heq. rewrite Heq in Hp.
  unfold pipe_at in *. congruence.
Qed.

Lemma pipe_slot_free e : pipe_slot e ≠ free_slot.
Proof. done. Qed.

Lemma pipe_at_insert sl i j e y :
  pipe_at sl i e → ∃ e', pipe_at (<[j := pipe_slot y]> sl) i e'.
Proof.
  unfold pipe_at. intros Hi. destruct (decide (i = j)) as [->|].
  - eexists. apply list_lookup_insert_eq. by eapply lookup_lt_Some.
  - eexists. by rewrite list_lookup_insert_ne.
Qed.

Lemma table_peers sl fl p0 p1 x0 x1 a b :
  table_ok sl fl → pipe_at sl p0 x0 → pipe_at sl p1 x1 →
  table_ok (<[p1 := pipe_slot b]> (<[p0 := pipe_slot a]> sl)) fl.
Proof.
  intros Ht B0 B1. destruct (pipe_at_insert _ _ p0 _ a B1) as [y1 C1].
  eapply table_ok_store; [|exact C1|done..].
  by eapply table_ok_store; [|exact B0|..].
Qed.

Lemma table_fused sl fl h0 h1 e0 e1 :
  table_ok sl fl → 0 < h0 → 0 < h1 → h0 ≠ h1 →
  pipe_at sl (Z.to_nat h0) e0 → pipe_at sl (Z.to_nat h1) e1 →
  table_ok (<[Z.to_nat h0 := free_slot]> sl) (fl ++ [h0]) ∧
  pipe_at (<[Z.to_nat h0 := free_slot]> sl) (Z.to_nat h1) e1 ∧
  table_ok (<[Z.to_nat h1 := free_slot]> (<[Z.to_nat h0 := free_slot]> sl))
    ((fl ++ [h0]) ++ [h1]).
Proof.
  intros Ht Z0 Z1 Hne A0 A1.
  assert (table_ok (<[Z.to_nat h0 := free_slot]> sl) (fl ++ [h0])) as Ht1.
  { by eapply table_ok_free; [|done|exact A0|]. }
  assert (pipe_at (<[Z.to_nat h0 := free_slot]> sl) (Z.to_nat h1) e1) as A1'.
  { unfold pipe_at. rewrite list_lookup_insert_ne by lia. exact A1. }
  split_and!; [done..|].
  by eapply table_ok_free; [|done|exact A1'|].
Qed.

Lemma moved_slots_at c p0 p1 i e :
  pipe_at (slots c) i e → ∃ e', pipe_at (moved_slots c p0 p1) i e'.
Proof. intros Hi. destruct (pipe_at_insert _ _ (Z.to_nat p0) _
  (mkPipeEnd (next_id c) false) Hi) as [x Hx]. by eapply pipe_at_insert. Qed.

(** Only pipe and free slots change. *)
Lemma fused_slots_stable c h0 h1 p0 p1 e0 e1 x0 x1 k :
  pipe_at (slots c) (Z.to_nat h0) e0 → pipe_at (slots c) (Z.to_nat h1) e1 →
  pipe_at (slots c) (Z.to_nat p0) x0 → pipe_at (slots c) (Z.to_nat p1) x1 →
  k ≠ HandleKind_MessagePipe → k ≠ HandleKind_Free →
  kind_stable k (slots c) (fused_slots c h0 h1 p0 p1).
Proof.
  intros A0 A1 B0 B1 K1 K2 j o. unfold fused_slots, moved_slots, pipe_at in *.
  rewrite !freed_at by done. rewrite !list_lookup_insert_Some, length_insert.
  split.
  - intros (_ & _ & [(_ & [= <- _] & _)|[_ [(_ & [= <- _] & _)|[_ ?]]]]); done.
  - intros Hj. split_and!; [intros ->; congruence..|].
    right; split; [intros Hx; rewrite <- Hx in Hj; congruence|].
    right; split; [intros Hx; rewrite <- Hx in Hj; congruence|done].
Qed.

Lemma wf_fused c h0 h1 e0 e1 p0 p1 st :
  wf c → Lookup c h0 = Some (pipe_slot e0) → Lookup c h1 = Some (pipe_slot e1) →
  peer_handle c h0 h1 e0 p0 → peer_handle c h0 h1 e1 p1 → h0 ≠ h1 →
  pe_state e0 ≠ pe_state e1 → closed st = mkTwo false false →
  wf (fused_core c h0 h1 p0 p1 st).
Proof.
  intros Hwf H0 H1 P0 P1 Hh Hne Hc.
  pose proof (pipe_at_handle _ _ _ Hwf H0) as (Z0 & L0 & A0).
  pose proof (pipe_at_handle _ _ _ Hwf H1) as (Z1 & L1 & A1).
  destruct P0 as (Y0 & N00 & N01 & B0). destruct P1 as (Y1 & N10 & N11 & B1).
  pose proof (λ k, fused_slots_stable c h0 h1 p0 p1 _ _ _ _ k A0 A1 B0 B1) as Hst.
  split; simpl.
  - destruct (moved_slots_at c p0 p1 _ _ A0) as [? D0], (moved_slots_at c p0 p1 _ _ A1) as [? D1].
    eapply table_fused; try eassumption. by eapply table_peers; [apply Hwf|..].
  - eapply pipes_ok_fuse; try eassumption; [apply Hwf|by apply fresh_pipe].
  - eapply datas_ok_stable; [apply Hwf|by eapply Hst..].
  - eapply bufs_ok_stable; [apply Hwf|by eapply Hst].
  - eapply ids_ok_ext; [apply (ids_ok_make_pipe c st), Hwf|done..].
Qed.

Lemma wp_fuse_commit c h0 h1 e0 e1 p0 p1 st0 st1 (Q : unit → Core → Prop) :
  wf c → Lookup c h0 = Some (pipe_slot e0) → Lookup c h1 = Some (pipe_slot e1) →
  peer_handle c h0 h1 e0 p0 → peer_handle c h0 h1 e1 p1 → h0 ≠ h1 →
  pipe_states c !! pe_state e0 = Some st0 → pipe_states c !! pe_state e1 = Some st1 →
  Q tt (fused_core c h0 h1 p0 p1 (fused_state st0 st1 (pe_end e0) (pe_end e1))) →
  wp (fuse_commit h0 h1 e0 e1 p0 p1) Q c.
Proof.
  intros Hwf H0 H1 P0 P1 Hh S0 S1 HQ.
  pose proof (pipe_at_handle _ _ _ Hwf H0) as (Z0 & L0 & A0).
  pose proof (pipe_at_handle _ _ _ Hwf H1) as (Z1 & L1 & A1).
  destruct P0 as (Y0 & _ & _ & B0), P1 as (Y1 & _ & _ & B1).
  pose proof (lookup_lt_Some _ _ _ B0). pose proof (lookup_lt_Some _ _ _ B1).
  destruct (moved_slots_at c p0 p1 _ _ A0) as [y0 D0], (moved_slots_at c p0 p1 _ _ A1) as [y1 D1].
  assert (table_ok (moved_slots c p0 p1) (free_list c)) as Ht.
  { by eapply table_peers; [apply Hwf|..]. }
  destruct (table_fused _ _ h0 h1 _ _ Ht Z0 Z1 Hh D0 D1) as (Ht1 & A1' & _).
  unfold fuse_commit, get_pipe, make_PipeState. wp_step. rewrite S0. wp_step.
  rewrite S1. wp_step.
  apply store_slot_spec; [simpl; lia|]. wp_step.
  apply store_slot_spec; [simpl; rewrite length_insert; lia|]. wp_step.
  eapply (wp_Free _ _ (pipe_slot y0)); [done|by apply Lookup_intro|done|].
  wp_step. eapply (wp_Free _ _ (pipe_slot y1)); [done|by apply Lookup_intro|done|].
  exact HQ.
Qed.

Lemma WhpFuseMessagePipes_wf h0 h1 c :
  wf c → wp (WhpFuseMessagePipes h0 h1) (λ _, wf) c.
Proof.
  intros Hwf. pose proof (wf_table _ Hwf) as Ht.
  unfold WhpFuseMessagePipes. wp_step.
  destruct (Lookup c h0) as [s0|] eqn:H0; [|by wp_step].
  destruct (Lookup c h1) as [s1|] eqn:H1; [|by wp_step].
  case_match eqn:Hg; [|by wp_step].
  apply andb_prop in Hg as [[K0 K1]%andb_prop Hne].
  apply bool_decide_eq_true in K0, K1. apply negb_true_iff, Z.eqb_neq in Hne.
  pose proof H0 as (_ & S0 & _)%Lookup_inv; [|done].
  pose proof H1 as (_ & S1 & _)%Lookup_inv; [|done].
  destruct (slot_typed_pipe s0) as [e0 ->]; [by eapply Hwf|done|].
  destruct (slot_typed_pipe s1) as [e1 ->]; [by eapply Hwf|done|].
  simpl. wp_step. destruct (Nat.eqb_spec (pe_state e0) (pe_state e1)); [by wp_step|].
  rewrite find_peers_eq by done. wp_step. simpl.
  assert (∀ i, i ∈ seq 1 (length (slots c) - 1) → (0 < i)%nat) as Hpos.
  { intros i Hi%elem_of_seq. lia. }
  destruct (last_peer c h0 h1 e0 _ _) as [p0|] eqn:P0; [|by wp_step].
  destruct (last_peer c h0 h1 e1 _ _) as [p1|] eqn:P1; [|by wp_step].
  apply last_peer_spec in P0; [|done..]. apply last_peer_spec in P1; [|done..].
  destruct (pipes_open _ _ (wf_pipes _ Hwf) _ _ S0) as (st0 & T0 & _).
  destruct (pipes_open _ _ (wf_pipes _ Hwf) _ _ S1) as (st1 & T1 & _).
  wp_step. eapply wp_fuse_commit; try done.
  wp_step. apply wp_Collect_wf; [by eapply wf_fused|]. intros. by wp_step.
Qed.
End fuse.

#[export] Hint Resolve WhpCreateMessagePipe_wf WhpReadMessage_wf WhpSetQuota_wf
  WhpQueryQuota_wf WhpWriteMessage_locked_wf WhpFuseMessagePipes_wf : kernel.
