(* ===== verification/TransferInv.v ===== *)
(** * Data pipes, shared buffers, traps and closing keep the kernel well formed

    The second half of the preservation lemmas of [KernelInv]: the ring
    buffer's accesses stay in range, a buffer object dies exactly when its
    last reference does, and [WhpClose] keeps every store in order. *)
From S2P Require Import Prelude Core Traps Messages DataPipes Buffers Api.
From S2P Require Import CoreInv TrapsInv KernelInv.

(** ** The ring buffer *)

Lemma ring_next cap w : 0 < cap < 2 ^ 32 → 0 <= u32 (w + 1) mod cap < cap.
Proof. intros. apply Z.mod_pos_bound. lia. Qed.

Lemma write_ring_total cap src b w :
  0 < cap < 2 ^ 32 → Z.of_nat (length b) = cap → 0 <= w < cap →
  ∃ b' w', write_ring cap src b w = Some (b', w') ∧
    length b' = length b ∧ 0 <= w' < cap.
Proof.
  intros Hc. revert b w. induction src as [|x src IH]; intros b w Hb Hw; simpl; [eauto|].
  destruct (Nat.ltb_spec (Z.to_nat w) (length b)); [|lia].
  destruct (IH (<[Z.to_nat w := x]> b) (u32 (w + 1) mod cap)) as (b' & w' & -> & Hl & ?).
  - by rewrite length_insert.
  - by apply ring_next.
  - exists b', w'. by rewrite Hl, length_insert.
Qed.

Lemma read_ring_total cap n b r :
  0 < cap < 2 ^ 32 → Z.of_nat (length b) = cap → 0 <= r < cap →
  ∃ xs r', read_ring cap n b r = Some (xs, r') ∧ length xs = n ∧ 0 <= r' < cap.
Proof.
  intros Hc Hb. revert r. induction n as [|n IH]; intros r Hr; simpl; [eauto|].
  destruct (lookup_lt_is_Some_2 b (Z.to_nat r)) as [x ->]; [lia|]. simpl.
  destruct (IH (u32 (r + 1) mod cap)) as (xs & r' & -> & <- & ?); [by apply ring_next|].
  simpl. eauto.
Qed.

Lemma ring_ok_with s b r w avail :
  ring_ok s → length b = length (buf s) → 0 <= r < capacity s →
  0 <= w < capacity s → ring_ok (with_ring b r w (u32 avail) s).
Proof.
  intros [] Hb Hr Hw. split; simpl; try done.
  - by rewrite Hb.
  - apply u32_range.
Qed.

Lemma ring_ok_two_phase s p mx :
  ring_ok s → ring_ok (with_two_phase_write p mx s) ∧
  ring_ok (with_two_phase_read p mx s).
Proof. by intros []. Qed.

Section datapipes.
Context {host : Host}.

Lemma ids_ok_make_data c s :
  ids_ok c → ids_ok (set_next_id (S (next_id c)) (set_datas <[next_id c := s]> c)).
Proof.
  intros [H1 H2 H3]. split; simpl; intros id x.
  - intros ?%H1. lia.
  - rewrite lookup_insert_Some. intros [[<- _]|[_ ?%H2]]; lia.
  - intros ?%H3. lia.
Qed.

Lemma fresh_data c : wf c → data_states c !! next_id c = None.
Proof.
  intros Hwf. destruct (_ !! _) eqn:E; [|done].
  apply (ids_data _ (wf_ids _ Hwf)) in E. lia.
Qed.

Lemma wf_put_data c id s s' :
  wf c → data_states c !! id = Some s → ring_ok s' →
  (∀ b, end_closed b s' = end_closed b s) → wf (set_datas <[id := s']> c).
Proof.
  intros Hwf Hs Hr Hc. destruct Hwf as [? ? ? ? [I1 I2 I3]]. split; try done.
  - by eapply datas_ok_put.
  - split; simpl; [done| |done]. intros x y. rewrite lookup_insert_Some.
    intros [[<- _]|[_ ?]]; eauto.
Qed.

Lemma new_ring_ok o (e cp : Z) :
  options_ok o →
  (e, cp) = match o with
            | Some (e, cp) => (if e =? 0 then 1 else e, if cp =? 0 then 65536 else cp)
            | None => (1, 65536)
            end →
  ring_ok (mkDataPipeState e cp (replicate (Z.to_nat cp) 0) 0 0 0 false false
             None 0 None 0).
Proof.
  intros Ho He.
  assert (0 < e < 2 ^ 32 ∧ 0 < cp < 2 ^ 32) as [? ?].
  { destruct o as [[a b]|]; simpl in *; injection He as -> ->; [|lia].
    destruct (Z.eqb_spec a 0), (Z.eqb_spec b 0); lia. }
  split; simpl; try lia. rewrite length_replicate. lia.
Qed.

Lemma WhpCreateDataPipe_wf o p cn c :
  wf c → options_ok o → wp (WhpCreateDataPipe o p cn) (λ _, wf) c.
Proof.
  intros Hwf Ho. unfold WhpCreateDataPipe. case_match; wp_step; [done|].
  destruct (match o with
            | Some (e, cp) => (if e =? 0 then 1 else e, if cp =? 0 then 65536 else cp)
            | None => (1, 65536)
            end) as [e cp] eqn:He.
  pose proof (new_ring_ok o e cp Ho (eq_sym He)) as Hr.
  unfold make_DataPipeState. wp_step.
  eapply wp_mono; [apply Alloc_spec; [apply (wf_table _ Hwf)|done..]|].
  intros h0 c1 (i & sl1 & fl1 & -> & F1 & _). wp_step.
  eapply wp_mono; [apply Alloc_spec; [apply F1|done..]|].
  intros h1 c2 (j & sl2 & fl2 & -> & F2 & _). wp_step. simpl in *.
  assert (∀ k, k ≠ HandleKind_DataPipeProducer → k ≠ HandleKind_DataPipeConsumer →
            k ≠ HandleKind_Free → kind_stable k (slots c) sl2) as Hst.
  { intros k N1 N2 N3. eapply kind_stable_trans;
      (eapply kind_stable_filled; [eassumption|simpl; congruence|done]). }
  split; simpl.
  - apply F2.
  - eapply pipes_ok_stable; [apply Hwf|by apply Hst].
  - eapply datas_ok_create; [apply Hwf|by apply fresh_data|done..].
  - eapply bufs_ok_stable; [apply Hwf|by apply Hst].
  - eapply ids_ok_ext; [apply ids_ok_make_data, Hwf|done..].
Qed.

Lemma WhpWriteData_wf p es n c : wf c → wp (WhpWriteData p es n) (λ _, wf) c.
Proof.
  intros Hwf. unfold WhpWriteData. case_match; [|by wp_step].
  apply (wp_with_data_pipe true); [done|done|].
  intros e s Hat He Hh Hs Hr Hop.
  repeat (case_match; wp_step; try done).
  destruct (write_ring_total (capacity s)
    (take (Z.to_nat (whole (element_size s) (Z.min z (u32 (capacity s - available s))))) es)
    (buf s) (dp_w s)) as (b' & w' & Hw & Hl & Hw'); [apply Hr..|].
  rewrite Hw. wp_step. unfold put_data. wp_step.
  apply wp_Collect_wf; [|intros; by wp_step].
  eapply wf_put_data; [done|exact Hs| |by intros []].
  apply ring_ok_with; [done..|apply Hr|done].
Qed.

Lemma WhpReadData_wf cn n c : wf c → wp (WhpReadData cn n) (λ _, wf) c.
Proof.
  intros Hwf. unfold WhpReadData. case_match; [|by wp_step].
  apply (wp_with_data_pipe false); [done|done|].
  intros e s Hat He Hh Hs Hr Hop.
  repeat (case_match; wp_step; try done).
  destruct (read_ring_total (capacity s)
    (Z.to_nat (whole (element_size s) (Z.min z (available s))))
    (buf s) (dp_r s)) as (xs & r' & Hw & Hl & Hw'); [apply Hr..|].
  rewrite Hw. wp_step. unfold put_data. wp_step.
  apply wp_Collect_wf; [|intros; by wp_step].
  eapply wf_put_data; [done|exact Hs| |by intros []].
  by apply ring_ok_with; [..|apply Hr].
Qed.

(** The four two-phase operations rewrite a state in place. *)
Lemma ring_ok_begin s p mx q my :
  ring_ok s →
  ring_ok (with_two_phase_write p mx s) ∧ ring_ok (with_two_phase_read q my s).
Proof. by intros []. Qed.

Lemma ring_ok_end s r w avail :
  ring_ok s →
  ring_ok (with_ring (buf s) (u32 r mod capacity s) (dp_w s) (u32 avail) s) ∧
  ring_ok (with_ring (buf s) (dp_r s) (u32 w mod capacity s) (u32 avail) s).
Proof.
  intros Hr. pose proof (ring_cap _ Hr).
  split; (apply ring_ok_with; [done|done|..]);
    first [apply Hr|apply Z.mod_pos_bound; lia].
Qed.

Ltac two_phase_op b :=
  apply (wp_with_data_pipe b); [done|done|];
  intros e s Hat He Hh Hs Hr Hop;
  repeat (case_match; wp_step; try done);
  unfold put_data; wp_step.

Lemma WhpBeginWriteData_wf p b n c : wf c → wp (WhpBeginWriteData p b n) (λ _, wf) c.
Proof.
  intros Hwf. unfold WhpBeginWriteData. case_match; [|by wp_step]. case_match; [by wp_step|].
  two_phase_op true. eapply wf_put_data; [done|exact Hs| |by intros []].
  by apply (ring_ok_begin _ _ _ None 0).
Qed.

Lemma WhpBeginReadData_wf p b n c : wf c → wp (WhpBeginReadData p b n) (λ _, wf) c.
Proof.
  intros Hwf. unfold WhpBeginReadData. case_match; [|by wp_step]. case_match; [by wp_step|].
  two_phase_op false. eapply wf_put_data; [done|exact Hs| |by intros []].
  by apply (ring_ok_begin _ None 0).
Qed.

Lemma WhpEndWriteData_wf p n c : wf c → wp (WhpEndWriteData p n) (λ _, wf) c.
Proof.
  intros Hwf. unfold WhpEndWriteData. two_phase_op true.
  - eapply wf_put_data; [done|exact Hs| |by intros []].
    by apply (ring_ok_begin _ _ _ None 0).
  - apply wp_Collect_wf; [|intros; by wp_step].
    eapply wf_put_data; [done|exact Hs| |by intros []].
    apply (ring_ok_begin _ _ _ None 0), (ring_ok_end _ 0 (dp_w s + n)), Hr.
Qed.

Lemma WhpEndReadData_wf p n c : wf c → wp (WhpEndReadData p n) (λ _, wf) c.
Proof.
  intros Hwf. unfold WhpEndReadData. two_phase_op false.
  - eapply wf_put_data; [done|exact Hs| |by intros []].
    by apply (ring_ok_begin _ None 0).
  - apply wp_Collect_wf; [|intros; by wp_step].
    eapply wf_put_data; [done|exact Hs| |by intros []].
    apply (ring_ok_begin _ None 0), (ring_ok_end _ (dp_r s + n) 0), Hr.
Qed.
End datapipes.

#[export] Hint Resolve WhpCreateDataPipe_wf WhpWriteData_wf WhpReadData_wf
  WhpBeginWriteData_wf WhpEndWriteData_wf WhpBeginReadData_wf WhpEndReadData_wf
  : kernel.

(** ** Shared buffers and platform handles *)

Section buffers.
Context {host : Host}.

Definition buffer_slot (id : nat) : Slot :=
  mkSlot HandleKind_SharedBuffer (ObjSharedBuffer id).

Lemma wf_set_maps c mp :
  wf c → bufs_ok (slots c) mp (buffers c) → wf (set_maps (λ _, mp) c).
Proof. intros [? ? ? ? [I1 I2 I3]] Hb. by split. Qed.

Lemma wf_put_buffer c id b b' :
  wf c → buffers c !! id = Some b → wf (set_buffers <[id := b']> c).
Proof.
  intros [? ? ? ? [I1 I2 I3]] Hb. split; try done.
  - by eapply bufs_ok_put.
  - split; simpl; [done..|]. intros x y. rewrite lookup_insert_Some.
    intros [[<- _]|[_ ?]]; eauto.
Qed.

Lemma wf_delete_buffer c id l :
  wf c → bufs_ok (slots c) (maps c) (delete id (buffers c)) →
  wf (set_buffers (delete id) (log_native l c)).
Proof.
  intros [? ? ? ? [I1 I2 I3]] Hb. split; try done. split; simpl; [done..|].
  intros x y. rewrite lookup_delete_Some. intros [_ ?]. eauto.
Qed.

Lemma wf_create_buffer c b i sl fl :
  wf c → filled (slots c) (buffer_slot (next_id c)) i sl fl →
  wf (set_free_list (λ _, fl) (set_slots (λ _, sl)
       (set_next_id (S (next_id c)) (set_buffers <[next_id c := b]> c)))).
Proof.
  intros Hwf Hf.
  assert (∀ k, k ≠ HandleKind_SharedBuffer → k ≠ HandleKind_Free →
            kind_stable k (slots c) sl) as Hst.
  { intros k N1 N2. eapply kind_stable_filled; [eassumption|simpl; congruence|done]. }
  destruct Hwf as [Ht Hp Hd Hb [I1 I2 I3]]. split; simpl.
  - apply Hf.
  - eapply pipes_ok_stable; [done|by apply Hst].
  - eapply datas_ok_stable; [done|by apply Hst..].
  - by eapply bufs_ok_create.
  - split; simpl; intros id x.
    + intros ?%I1. lia.
    + intros ?%I2. lia.
    + rewrite lookup_insert_Some. intros [[<- _]|[_ ?%I3]]; lia.
Qed.

Lemma wp_new_buffer {A} c b (k : Z → M Core A) Q :
  wf c → (∀ h c', wf c' → wp (k h) Q c') →
  wp (let! id := make_SharedBuffer b in
      let! h := Alloc HandleKind_SharedBuffer (ObjSharedBuffer id) in k h) Q c.
Proof.
  intros Hwf HQ. unfold make_SharedBuffer. wp_step.
  eapply wp_mono; [apply Alloc_spec; [apply (wf_table _ Hwf)|done..]|].
  intros h c1 (i & sl & fl & -> & F & _). apply HQ. by eapply wf_create_buffer.
Qed.

Lemma WhpCreateSharedBuffer_wf n b c :
  wf c → wp (WhpCreateSharedBuffer n b) (λ _, wf) c.
Proof.
  intros Hwf. unfold WhpCreateSharedBuffer. case_match; [by wp_step|].
  apply wp_new_buffer; [done|]. intros. by wp_step.
Qed.

Lemma WhpWrapPlatformSharedMemoryRegion_wf ps n gh gl am b c :
  wf c → wp (WhpWrapPlatformSharedMemoryRegion ps n gh gl am b) (λ _, wf) c.
Proof.
  intros Hwf. unfold WhpWrapPlatformSharedMemoryRegion.
  case_match; [|by wp_step]. do 2 (case_match; [by wp_step|]).
  apply wp_new_buffer; [done|]. intros. by wp_step.
Qed.

Lemma wf_duplicate c id i sl fl :
  wf c → is_Some (buffers c !! id) → filled (slots c) (buffer_slot id) i sl fl →
  wf (set_free_list (λ _, fl) (set_slots (λ _, sl) c)).
Proof.
  intros Hwf Hid Hf.
  assert (∀ k, k ≠ HandleKind_SharedBuffer → k ≠ HandleKind_Free →
            kind_stable k (slots c) sl) as Hst.
  { intros k N1 N2. eapply kind_stable_filled; [eassumption|simpl; congruence|done]. }
  destruct Hwf as [Ht Hp Hd Hb Hi]. split; simpl.
  - apply Hf.
  - eapply pipes_ok_stable; [done|by apply Hst].
  - eapply datas_ok_stable; [done|by apply Hst..].
  - by eapply bufs_ok_duplicate.
  - by eapply ids_ok_ext.
Qed.

Lemma wp_with_kind {A} k h (bad : A) body Q c :
  wf c → Q bad c →
  (∀ o, Lookup c h = Some (mkSlot k o) → slot_typed (mkSlot k o) →
     wp (body o) Q c) →
  wp (with_kind k h bad body) Q c.
Proof.
  intros Hwf Hbad Hk. unfold with_kind. wp_step.
  destruct (Lookup c h) as [[k' o]|] eqn:Hl; [|by wp_step].
  pose proof Hl as (_ & Hs & _)%Lookup_inv; [|apply Hwf].
  case_decide as Hkd; [|by wp_step]. simpl in Hkd. subst k'.
  apply Hk; [done|]. by eapply Hwf.
Qed.

Lemma WhpDuplicateBufferHandle_wf h b c :
  wf c → wp (WhpDuplicateBufferHandle h b) (λ _, wf) c.
Proof.
  intros Hwf. unfold WhpDuplicateBufferHandle. case_match; [by wp_step|].
  apply wp_with_kind; [done|done|]. intros o Hl Hty.
  destruct o as [| | | | |id|]; try done. wp_step.
  pose proof Hl as (_ & Hs & _)%Lookup_inv; [|apply Hwf].
  eapply wp_mono; [apply Alloc_spec; [apply Hwf|done..]|].
  intros h' c1 (i & sl & fl & -> & F & _). wp_step.
  eapply wf_duplicate; [done| |done]. by eapply bufs_slot; [apply Hwf|].
Qed.

Lemma WhpGetBufferInfo_wf h b c : wf c → wp (WhpGetBufferInfo h b) (λ _, wf) c.
Proof.
  intros Hwf. unfold WhpGetBufferInfo. case_match; [by wp_step|].
  apply wp_with_buffer; [done|done|]. intros. by wp_step.
Qed.

Lemma bufs_ok_map_insert sl mp bs id off n b :
  bufs_ok sl mp bs → bs !! id = Some b → 0 < n →
  bufs_ok sl (<[(id, off) := mkMappedRegion id n]> mp) bs.
Proof.
  intros Hb Hid Hn. split.
  - apply Hb.
  - intros p r. rewrite lookup_insert_Some. intros [[<- <-]|[_ Hr]]; [|by eapply Hb].
    simpl. split_and!; [by eexists|lia|done].
  - intros j x Hj. destruct (bufs_live _ _ _ Hb j x Hj) as [?|(p & r & Hr & Hm)];
      [by left|right].
    destruct (decide (p = (id, off))) as [->|Hne].
    + exists (id, off), (mkMappedRegion id n). rewrite lookup_insert_eq. split; [done|].
      pose proof (bufs_map _ _ _ Hb _ _ Hr) as (_ & _ & E). simpl in *. congruence.
    + exists p, r. by rewrite lookup_insert_ne.
Qed.

Lemma WhpMapBuffer_wf h off n d c : wf c → wp (WhpMapBuffer h off n d) (λ _, wf) c.
Proof.
  intros Hwf. unfold WhpMapBuffer. case_match; [by wp_step|].
  apply wp_with_buffer; [done|done|]. intros id b Hl Hb.
  destruct (EnsureMapped b) as [b'|]; [|by wp_step].
  unfold put_buffer. wp_step.
  pose proof (wf_put_buffer c id b b' Hwf Hb) as Hwf'.
  destruct (_ <? u64 _); [by wp_step|]. wp_step. simpl.
  eapply wf_set_maps in Hwf'; [exact Hwf'|].
  eapply bufs_ok_map_insert; [apply Hwf'|apply lookup_insert_eq|].
  match goal with |- context [match ?x with _ => _ end] => destruct x eqn:Hm end;
    [|lia].
  apply (bufs_map _ _ _ (wf_bufs _ Hwf)) in Hm. lia.
Qed.

(** Dropping a reference to a buffer: the invariant holds but for that
    buffer, and [release_buffer] restores it. *)
Lemma wp_release_wf c id (Q : unit → Core → Prop) :
  table_ok (slots c) (free_list c) → pipes_ok (slots c) (pipe_states c) →
  datas_ok (slots c) (data_states c) → ids_ok c →
  bufs_ok_but id (slots c) (maps c) (buffers c) →
  (wf c → Q tt c) →
  (∀ b, buffers c !! id = Some b →
     wf (set_buffers (delete id) (log_native (SharedBufferObj_dtor b) c)) →
     Q tt (set_buffers (delete id) (log_native (SharedBufferObj_dtor b) c))) →
  wp (release_buffer id) Q c.
Proof.
  intros Ht Hp Hd [I1 I2 I3] Hb Hk Hx. apply wp_release_buffer; [apply Ht|done|..].
  - intros Hb'. by apply Hk.
  - intros b Hid Hb'. apply Hx; [done|]. split; try done. split; simpl; [done..|].
    intros x y. rewrite lookup_delete_Some. intros [_ ?]. eauto.
Qed.

Lemma bufs_ok_but_unmap sl mp bs p r :
  bufs_ok sl mp bs → mp !! p = Some r →
  bufs_ok_but (mr_buf r) sl (delete p mp) bs.
Proof.
  intros Hb Hp. split_and!.
  - apply Hb.
  - intros q r'. rewrite lookup_delete_Some. intros [_ ?]. by eapply Hb.
  - intros j b Hj Hne. destruct (bufs_live _ _ _ Hb j b Hj) as [?|(q & r' & Hq & E)];
      [by left|right].
    exists q, r'. rewrite lookup_delete_ne; [done|]. intros ->. congruence.
Qed.

Lemma bufs_ok_map_update sl mp bs p r n :
  bufs_ok sl mp bs → mp !! p = Some r → 0 < n →
  bufs_ok sl (<[p := mkMappedRegion (mr_buf r) n]> mp) bs.
Proof.
  intros Hb Hp Hn. pose proof (bufs_map _ _ _ Hb p r Hp) as ([b Hs] & _ & E).
  destruct p as [id off]. simpl in E. subst id. by eapply bufs_ok_map_insert.
Qed.

Lemma WhpUnmapBuffer_wf p c : wf c → wp (WhpUnmapBuffer p) (λ _, wf) c.
Proof.
  intros Hwf. unfold WhpUnmapBuffer. wp_step.
  destruct (maps c !! p) as [r|] eqn:Hr; [|by wp_step].
  case_match; [by wp_step|]. zbool. case_match; zbool; wp_step.
  - apply wp_release_wf; simpl; [apply Hwf..| | | |].
    + by eapply ids_ok_ext; [apply Hwf|..].
    + eapply bufs_ok_but_unmap; [apply Hwf|done].
    + intros. by wp_step.
    + intros. by wp_step.
  - eapply (wf_set_maps c); [done|].
    apply bufs_ok_map_update; [apply Hwf|done|lia].
Qed.

(** [Free] of a buffer handle: the destructor runs if this was the last
    reference. *)
Lemma wp_Free_buffer c h id (Q : unit → Core → Prop) :
  wf c → Lookup c h = Some (buffer_slot id) →
  (∀ c', wf c' → freed h c c' → Q tt c') → wp (Free h) Q c.
Proof.
  intros Hwf Hl HQ. pose proof Hl as (Hr & Hs & _)%Lookup_inv; [|apply Hwf].
  pose proof (table_ok_free _ _ h _ (wf_table _ Hwf) (proj1 Hr) Hs ltac:(done)) as Ht'.
  pose proof (bufs_ok_but_free _ _ _ _ _ (wf_bufs _ Hwf) Hs) as Hb.
  assert (∀ k, k ≠ HandleKind_SharedBuffer → k ≠ HandleKind_Free →
            kind_stable k (slots c) (<[Z.to_nat h := free_slot]> (slots c))) as Hst.
  { intros k N1 N2. eapply kind_stable_insert; [done|simpl; congruence|by intros <-]. }
  unfold Free. wp_step.
  destruct (Z.eqb_spec h 0); [lia|].
  destruct (Z.leb_spec (Z.of_nat (length (slots c))) h); [lia|]. simpl.
  rewrite Hs. wp_step. apply store_slot_spec; [lia|]. wp_step. simpl.
  destruct Hwf as [Ht Hp Hd _ [I1 I2 I3]].
  apply wp_release_buffer; [apply Ht'|done|..].
  - intros Hb'. wp_step. apply HQ; [|done]. split; simpl; try done.
    + eapply pipes_ok_stable; [done|by apply Hst].
    + eapply datas_ok_stable; [done|by apply Hst..].
  - intros b Hid Hb'. wp_step. apply HQ; [|done]. split; simpl; try done.
    + eapply pipes_ok_stable; [done|by apply Hst].
    + eapply datas_ok_stable; [done|by apply Hst..].
    + split; simpl; try done. intros x y. rewrite lookup_delete_Some.
      intros [_ ?]. eauto.
Qed.

Lemma WhpUnwrapPlatformSharedMemoryRegion_wf h ar n c :
  wf c → wp (WhpUnwrapPlatformSharedMemoryRegion h ar n) (λ _, wf) c.
Proof.
  intros Hwf. unfold WhpUnwrapPlatformSharedMemoryRegion.
  case_match; [|by wp_step].
  apply wp_with_buffer; [done|done|]. intros id b Hl Hb.
  do 2 (case_match; [by wp_step|]). unfold put_buffer. wp_step.
  eapply wp_Free_buffer; [by eapply wf_put_buffer|exact Hl|]. intros. by wp_step.
Qed.

Lemma WhpWrapPlatformHandle_wf t v b c :
  wf c → wp (WhpWrapPlatformHandle t v b) (λ _, wf) c.
Proof.
  intros Hwf. unfold WhpWrapPlatformHandle. case_match; [by wp_step|].
  case_match; [by wp_step|]. case_match; [by wp_step|].
  destruct (match host_os with Windows => _ | _ => _ end); wp_step; [done|].
  by apply wp_Alloc_inert.
Qed.

Lemma WhpUnwrapPlatformHandle_wf h t v c :
  wf c → wp (WhpUnwrapPlatformHandle h t v) (λ _, wf) c.
Proof.
  intros Hwf. unfold WhpUnwrapPlatformHandle. case_match; [by wp_step|].
  apply wp_with_kind; [done|done|]. intros o Hl Hty.
  destruct o as [| | | | | |p]; try done. simpl. wp_step.
  eapply wp_store_inert; [done|exact Hl|done..|]. intros Hwf'. wp_step.
  eapply wp_Free_inert;
    [done|eapply Lookup_stored; [apply Hwf|exact Hl|done]|done|].
  intros. by wp_step.
Qed.
End buffers.

#[export] Hint Resolve WhpCreateSharedBuffer_wf WhpDuplicateBufferHandle_wf
  WhpGetBufferInfo_wf WhpMapBuffer_wf WhpUnmapBuffer_wf WhpWrapPlatformHandle_wf
  WhpUnwrapPlatformHandle_wf WhpWrapPlatformSharedMemoryRegion_wf
  WhpUnwrapPlatformSharedMemoryRegion_wf : kernel.

(** ** Traps *)

Section traps.
Context {host : Host}.

Lemma WhpInit_write_wf c : wf c → wp WhpInit_write (λ _, wf) c.
Proof. intros Hwf. unfold WhpInit_write. wp_step. by apply wf_set_inited. Qed.

Lemma WhpPumpEvents_take_wf c : wf c → wp WhpPumpEvents_take (λ _, wf) c.
Proof.
  intros Hwf. unfold WhpPumpEvents_take. wp_step. case_decide; wp_step; [done|].
  by apply wf_set_pending.
Qed.

Lemma WhpQueryHandleSignalsState_wf h b c :
  wf c → wp (WhpQueryHandleSignalsState h b) (λ _, wf) c.
Proof.
  intros Hwf. unfold WhpQueryHandleSignalsState. case_match; wp_step; [done|].
  case_match; wp_step; [|done].
  destruct (QueryLocked_total c h Hwf) as [st ->]. by wp_step.
Qed.

Lemma WhpCreateTrap_wf hd b c : wf c → wp (WhpCreateTrap hd b) (λ _, wf) c.
Proof.
  intros Hwf. unfold WhpCreateTrap. do 2 (case_match; wp_step; try done).
  apply wp_Alloc_inert; try done. intros h c' Hwf'. wp_step. by apply wf_set_traps.
Qed.

Lemma wp_trap_op {A} c th (bad : A) (k : TrapObj → M Core A) Q :
  wf c → Q bad c →
  (∀ t, Lookup c th = Some (trap_slot t) → wp (k t) Q c) →
  wp (match Lookup c th with
      | Some tslot =>
          if decide (kind tslot = HandleKind_Trap)
          then let! tobj := of_option (as_TrapObj (obj tslot)) in k tobj
          else ret bad
      | None => ret bad
      end) Q c.
Proof.
  intros Hwf Hbad Hk. destruct (Lookup c th) as [s|] eqn:Hl; [|by wp_step].
  case_decide as Hkd; [|by wp_step].
  destruct (Lookup_trap c th s) as [t ->]; [apply Hwf|done..|].
  simpl. wp_step. by apply Hk.
Qed.

Lemma WhpAddTrigger_wf t h s cd x c : wf c → wp (WhpAddTrigger t h s cd x) (λ _, wf) c.
Proof.
  intros Hwf. unfold WhpAddTrigger. wp_step.
  destruct (Lookup c h) as [hs|]; [|by case_match; wp_step].
  apply (wp_trap_op c t); [done|done|]. intros tobj Hl.
  wp_step. eapply wp_store_inert; [done|exact Hl|done..|]. intros. by wp_step.
Qed.

Lemma WhpRemoveTrigger_wf t x c : wf c → wp (WhpRemoveTrigger t x) (λ _, wf) c.
Proof.
  intros Hwf. unfold WhpRemoveTrigger. wp_step.
  apply (wp_trap_op c t); [done|done|]. intros tobj Hl.
  case_match; wp_step; [|done].
  eapply wp_store_inert; [done|exact Hl|done..|]. intros Hwf'. wp_step.
  case_match; wp_step; [by apply wf_set_pending|done].
Qed.

Lemma WhpArmTrap_wf t n b c : wf c → wp (WhpArmTrap t n b) (λ _, wf) c.
Proof.
  intros Hwf. unfold WhpArmTrap. wp_step.
  apply (wp_trap_op c t); [done|done|]. intros tobj Hl.
  destruct (blocking_triggers_total c (triggers tobj) Hwf) as [bs ->]. wp_step.
  case_decide; wp_step; [|done].
  eapply wp_store_inert; [done|exact Hl|done..|]. intros. by wp_step.
Qed.
End traps.

#[export] Hint Resolve WhpInit_write_wf WhpPumpEvents_take_wf
  WhpQueryHandleSignalsState_wf WhpCreateTrap_wf WhpAddTrigger_wf
  WhpRemoveTrigger_wf WhpArmTrap_wf : kernel.

(** ** Closing a handle *)

Section close.
Context {host : Host}.

Lemma wf_close_pipe c h e st :
  wf c → Lookup c h = Some (pipe_slot e) → pipe_states c !! pe_state e = Some st →
  wf (set_free_list (λ l, l ++ [h])
        (set_slots (λ l, <[Z.to_nat h := free_slot]> l)
          (set_pipes <[pe_state e := mkPipeState (queues st)
             (upd (closed st) (pe_end e) true) (quota_count st) (quota_bytes st)]> c))).
Proof.
  intros Hwf Hl Hst. pose proof Hl as (Hr & Hs & _)%Lookup_inv; [|apply Hwf].
  assert (∀ k, k ≠ HandleKind_MessagePipe → k ≠ HandleKind_Free →
            kind_stable k (slots c) (<[Z.to_nat h := free_slot]> (slots c))) as Hk.
  { intros k N1 N2. eapply kind_stable_insert; [done|simpl; congruence|by intros <-]. }
  destruct Hwf as [Ht Hp Hd Hb [I1 I2 I3]]. split; simpl.
  - eapply table_ok_free; [done|lia|done..].
  - by eapply pipes_ok_close.
  - eapply datas_ok_stable; [done|by apply Hk..].
  - eapply bufs_ok_stable; [done|by apply Hk].
  - split; simpl; try done. intros x y. rewrite lookup_insert_Some.
    intros [[<- _]|[_ ?]]; eauto.
Qed.

Lemma wf_close_data c h e s s' :
  wf c → 0 < h → data_at (slots c) (Z.to_nat h) e →
  data_states c !! de_state e = Some s → ring_ok s' →
  end_closed (negb (de_producer e)) s' = end_closed (negb (de_producer e)) s →
  wf (set_free_list (λ l, l ++ [h])
        (set_slots (λ l, <[Z.to_nat h := free_slot]> l)
          (set_datas <[de_state e := s']> c))).
Proof.
  intros Hwf Hh Hs Hst Hr He.
  assert (∀ k, heap_kind k = true → k ≠ HandleKind_DataPipeProducer →
            k ≠ HandleKind_DataPipeConsumer →
            kind_stable k (slots c) (<[Z.to_nat h := free_slot]> (slots c))) as Hk.
  { intros k N0 N1 N2. eapply kind_stable_insert; [exact Hs| |by intros <-].
    simpl. by destruct (de_producer e). }
  destruct Hwf as [Ht Hp Hd Hb [I1 I2 I3]]. split; simpl.
  - eapply table_ok_free; [done|lia|exact Hs|]. by destruct (de_producer e).
  - eapply pipes_ok_stable; [done|by apply Hk].
  - by eapply datas_ok_close.
  - eapply bufs_ok_stable; [done|by apply Hk].
  - split; simpl; try done. intros x y. rewrite lookup_insert_Some.
    intros [[<- _]|[_ ?]]; eauto.
Qed.

(** Closing a data-pipe end, then freeing its handle. *)
Lemma wp_close_data c h e (b : bool) (Q : Core → Prop) :
  wf c → Lookup c h = Some (mkSlot (if b then HandleKind_DataPipeProducer
                                    else HandleKind_DataPipeConsumer)
                              (ObjDataPipeEnd e)) →
  (∀ c', wf c' → freed h c c' → Q c') →
  wp (close_data_end b e) (λ _ c1, wp (Free h) (λ _ c', Q c') c1) c.
Proof.
  intros Hwf Hl HQ. pose proof Hl as (Hr & Hs & _)%Lookup_inv; [|apply Hwf].
  pose proof (table_typed _ _ (wf_table _ Hwf) _ _ Hs) as Hty.
  assert (de_producer e = b) as <- by (by destruct b).
  destruct (datas_open _ _ (wf_datas _ Hwf) _ e Hs) as (s & Hst & _).
  pose proof (datas_ring _ _ (wf_datas _ Hwf) _ _ Hst) as Hring.
  unfold close_data_end, get_data, put_data. wp_step. rewrite Hst. wp_step.
  eapply wp_Free; [apply Hwf|exact Hl|by destruct (de_producer e)|].
  apply HQ; [|done]. eapply wf_close_data; [done|lia|exact Hs|exact Hst|by destruct Hring|].
  by destruct (de_producer e).
Qed.

(** [close_kind] then [Free], for each kind of handle. *)
Lemma close_free_wf c h s (Q : Core → Prop) :
  wf c → Lookup c h = Some s → (∀ c', wf c' → freed h c c' → Q c') →
  wp (close_kind h s) (λ _ c1, wp (Free h) (λ _ c', Q c') c1) c.
Proof.
  intros Hwf Hl HQ. pose proof Hl as (Hr & Hs & Hf)%Lookup_inv; [|apply Hwf].
  pose proof (table_typed _ _ (wf_table _ Hwf) _ _ Hs) as Hty.
  destruct s as [[] o]; destruct o as [|e|m|t|e|id|p]; try done;
    unfold close_kind; simpl.
  - destruct (pipes_open _ _ (wf_pipes _ Hwf) _ e Hs) as (st & Hst & _).
    unfold close_pipe_end, get_pipe, put_pipe. wp_step. rewrite Hst. wp_step.
    eapply wp_Free; [apply Hwf|exact Hl|done|]. apply HQ; [by eapply wf_close_pipe|done].
  - wp_step. eapply wp_store_inert; [done|exact Hl|done..|]. intros Hwf'. wp_step.
    eapply wp_Free_inert;
      [done|eapply Lookup_stored; [apply Hwf|exact Hl|done]|done|].
      intros c2 Hwf2 Hfr. apply HQ; [done|exact (freed_stored _ _ _ _ Hfr)].
  - wp_step. eapply wp_Free_inert; [|exact Hl|done|auto].
    by apply wf_set_traps, wf_set_pending.
  - wp_step. by apply (wp_close_data c h e true).
  - wp_step. by apply (wp_close_data c h e false).
  - wp_step. by eapply wp_Free_buffer.
  - wp_step. case_match; wp_step.
    + eapply wp_store_inert; [by apply wf_log_native|exact Hl|done..|].
      intros Hwf'. wp_step. eapply wp_Free_inert;
        [done|eapply Lookup_stored; [apply Hwf|exact Hl|done]|done|].
      intros c2 Hwf2 Hfr. apply HQ; [done|exact (freed_stored _ _ _ _ Hfr)].
    + eapply wp_Free_inert; [done|exact Hl|done|auto].
Qed.

Lemma WhpClose_locked_wf h c : wf c → wp (WhpClose_locked h) (λ _, wf) c.
Proof.
  intros Hwf. unfold WhpClose_locked. wp_step.
  destruct (Lookup c h) as [s|] eqn:Hl; [|by wp_step]. wp_step.
  eapply wp_mono; [eapply (close_free_wf _ _ _ wf); [done|done|auto]|].
  intros d c1 Hc1. wp_step. eapply wp_mono; [exact Hc1|].
  intros [] c2 Hwf2. wp_step. apply wp_Collect_wf; [done|]. intros. by wp_step.
Qed.
End close.

#[export] Hint Resolve WhpClose_locked_wf : kernel.

(** ** The kernel is free of undefined behaviour

    The preservation lemmas put together: every locked section, hence every
    interleaving of the operations, keeps the core well formed, and so do the entry
    points that call back into the client. *)

Section safe.
Context {host : Host}.

Lemma exec_keeps_wf a c : wf c → action_ok a → wp (exec a) (λ _, wf) c.
Proof.
  intros Hwf Ha. destruct a; simpl in Ha |- *; apply wp_discard;
    first [by apply WhpCreateDataPipe_wf | eauto with kernel].
Qed.

Lemma core_step_wf c c' : wf c → core_step c c' → wf c'.
Proof.
  intros Hwf [a Ha He]. pose proof (exec_keeps_wf a c Hwf Ha) as H.
  unfold wp in H. by rewrite He in H.
Qed.

Lemma steps_wf c c' : rtc core_step c c' → wf c → wf c'.
Proof. intros H. eapply rtc_invariant; [|exact H]. intros. by eapply core_step_wf. Qed.

Lemma reachable_wf c : reachable c → wf c.
Proof. intros H. eapply steps_wf; [exact H|apply wf_init]. Qed.
End safe.

Section callbacks.
Context {host : Host} {client : Client} {ok : ClientOk client}.
#[local] Set Default Proof Using "All".

Lemma call_dtor_wf d c : wf c → wp (call_dtor d) (λ _, wf) c.
Proof.
  intros Hwf. destruct d as [[f ctx]|]; simpl; wp_step; [|done].
  eapply steps_wf; [apply call_destructor_steps|done].
Qed.

Lemma WhpClose_wf h c : wf c → wp (WhpClose h) (λ _, wf) c.
Proof.
  intros Hwf. unfold WhpClose. wp_step.
  eapply wp_mono; [by apply WhpClose_locked_wf|]. intros [r d] c1 Hwf1. wp_step.
  eapply wp_mono; [by apply call_dtor_wf|]. intros [] c2 Hwf2. by wp_step.
Qed.

Lemma WhpSerializeMessage_wf m c : wf c → wp (WhpSerializeMessage m) (λ _, wf) c.
Proof.
  intros Hwf. unfold WhpSerializeMessage. wp_step.
  eapply wp_mono; [by apply WhpSerializeMessage_begin_wf|].
  intros [r|[ser ctx]] c1 Hwf1; wp_step; [done|].
  assert (wp (match ser with Some f => modify (call_serializer f ctx m) | None => ret tt end)
            (λ _, wf) c1) as Hs.
  { destruct ser; wp_step; [|done].
    eapply steps_wf; [apply call_serializer_steps|done]. }
  eapply wp_mono; [exact Hs|]. intros [] c2 Hwf2. wp_step.
  eapply wp_mono; [by apply WhpSerializeMessage_end_wf|]. intros [r d] c3 Hwf3. wp_step.
  eapply wp_mono; [by apply call_dtor_wf|]. intros [] c4 Hwf4. by wp_step.
Qed.

Lemma WhpSetMessageContext_full_wf m x s d c :
  wf c → wp (WhpSetMessageContext_full m x s d) (λ _, wf) c.
Proof.
  intros Hwf. unfold WhpSetMessageContext_full. wp_step.
  eapply wp_mono; [by apply WhpSetMessageContext_wf|]. intros [r dc] c1 Hwf1. wp_step.
  eapply wp_mono; [by apply call_dtor_wf|]. intros [] c2 Hwf2. by wp_step.
Qed.

Lemma WhpWriteMessage_wf p m c : wf c → wp (WhpWriteMessage p m) (λ _, wf) c.
Proof.
  intros Hwf. unfold WhpWriteMessage. wp_step.
  eapply wp_mono; [by apply WhpSerializeMessage_wf|]. intros r c1 Hwf1.
  case_match; [by wp_step|]. by apply WhpWriteMessage_locked_wf.
Qed.

Lemma fire_events_wf es c : wf c → wp (fire_events es) (λ _, wf) c.
Proof.
  revert c. induction es as [|e es IH]; intros c Hwf; simpl; wp_step; [done|].
  apply IH. eapply steps_wf; [apply call_trap_handler_steps|done].
Qed.

Lemma WhpPumpEvents_wf c : wf c → wp WhpPumpEvents (λ _, wf) c.
Proof.
  intros Hwf. unfold WhpPumpEvents. wp_step.
  eapply wp_mono; [by apply WhpPumpEvents_take_wf|]. intros es c1 Hwf1. wp_step.
  eapply wp_mono; [by apply fire_events_wf|]. intros [] c2 Hwf2. by wp_step.
Qed.
End callbacks.
