(* ===== verification/PipeSpec.v ===== *)
(** * What the handle-table and message-pipe operations do

    Exact outcomes, branch by branch, of closing a handle and of writing to,
    reading from and fusing message pipes; the frame of each is stated with
    [same_handle].  The traces of a pipe used by the FIFO property are at the
    end. *)
From S2P Require Import Prelude Core Traps Messages DataPipes Buffers Api.
From S2P Require Import CoreInv TrapsInv KernelInv TransferInv.

(** ** Frames *)

(** The handle leads to the same object in both cores, up to the disarming of
    a trap that fired, or to none in both. *)
Definition same_handle (c c' : Core) (h : Z) : Prop :=
  match Lookup c h, Lookup c' h with
  | Some s, Some s' => trap_le s' s
  | None, None => True
  | _, _ => False
  end.

Lemma same_handle_eq c c' h : Lookup c' h = Lookup c h → same_handle c c' h.
Proof. unfold same_handle. intros ->. destruct (Lookup c h); [apply trap_le_refl|done]. Qed.

Lemma same_handle_trans c1 c2 c3 h :
  same_handle c1 c2 h → same_handle c2 c3 h → same_handle c1 c3 h.
Proof.
  unfold same_handle. destruct (Lookup c1 h), (Lookup c2 h), (Lookup c3 h); try done.
  intros H1 H2. by eapply trap_le_trans.
Qed.

Lemma trap_frame_same c c' h : trap_frame c c' → same_handle c c' h.
Proof.
  intros Hf. destruct (trap_frame_lookup c c' h Hf) as (H1 & H2 & H3).
  unfold same_handle. destruct (Lookup c h) as [s|]; [|by rewrite H2].
  destruct (decide (kind s = HandleKind_Trap)) as [Hk|Hk].
  - by destruct (H3 s eq_refl Hk) as (s' & -> & ?).
  - rewrite (H1 s eq_refl Hk). apply trap_le_refl.
Qed.

(** A live handle that is no trap keeps its object exactly. *)
Lemma same_handle_keep c c' h s :
  same_handle c c' h → Lookup c h = Some s → kind s ≠ HandleKind_Trap →
  Lookup c' h = Some s.
Proof.
  unfold same_handle. intros H Hl Hk. rewrite Hl in H.
  destruct (Lookup c' h) as [s'|]; [|done].
  destruct H as [->|(t & t' & -> & _)]; done.
Qed.

Lemma same_handle_none c c' h :
  same_handle c c' h → Lookup c h = None → Lookup c' h = None.
Proof. unfold same_handle. intros H Hl. rewrite Hl in H. by destruct (Lookup c' h). Qed.

Lemma Lookup_negative c h : table_ok (slots c) (free_list c) → h <= 0 → Lookup c h = None.
Proof.
  intros Ht Hh. destruct (Lookup c h) eqn:E; [|done].
  apply Lookup_inv in E as (? & _); [lia|done].
Qed.

(** Filling a slot touches no other handle. *)
Lemma filled_lookup c s i sl fl :
  table_ok (slots c) (free_list c) → filled (slots c) s i sl fl →
  kind s ≠ HandleKind_Free →
  let c' := set_free_list (λ _, fl) (set_slots (λ _, sl) c) in
  Lookup c (Z.of_nat i) = None ∧ Lookup c' (Z.of_nat i) = Some s ∧
  ∀ h, h ≠ Z.of_nat i → Lookup c' h = Lookup c h.
Proof.
  intros Ht Hf Hk c'. pose proof (filled_table _ _ _ _ _ Hf) as Ht'.
  pose proof (filled_pos _ _ _ _ _ Hf). split_and!.
  - destruct (filled_old _ _ _ _ _ Hf) as [E|E].
    + unfold Lookup. rewrite Nat2Z.id, E. by case_match.
    + apply Lookup_free. by rewrite Nat2Z.id.
  - apply Lookup_slot; [apply Hf|done|lia].
  - intros h Hh. destruct (decide (0 < h)) as [Hp|Hp].
    2: { rewrite !Lookup_negative by (done || lia). done. }
    assert (slots c' !! Z.to_nat h = slots c !! Z.to_nat h) as E.
    { apply Hf. lia. }
    destruct (Lookup c h) as [s0|] eqn:Hl.
    + apply Lookup_inv in Hl as (_ & Hs & Hk0); [|done].
      apply Lookup_intro; [lia|by rewrite E|done].
    + destruct (Lookup c' h) as [s0|] eqn:Hl'; [|done].
      apply Lookup_inv in Hl' as (_ & Hs & Hk0); [|done]. rewrite E in Hs.
      rewrite <- Hl. symmetry. by apply Lookup_intro.
Qed.

(** Freeing a slot kills its handle and no other. *)
Lemma freed_lookup c h s :
  table_ok (slots c) (free_list c) → Lookup c h = Some s →
  ∀ c', slots c' = <[Z.to_nat h := free_slot]> (slots c) →
  Lookup c' h = None ∧ ∀ h', h' ≠ h → 0 < h' → Lookup c' h' = Lookup c h'.
Proof.
  intros Ht Hl c' E. apply Lookup_inv in Hl as (Hr & Hs & Hk); [|done]. split.
  - apply Lookup_free. rewrite E. apply list_lookup_insert_eq. lia.
  - intros h' Hne Hp. unfold Lookup. rewrite E, length_insert.
    rewrite list_lookup_insert_ne by lia. done.
Qed.

(** The same for the core [Free] leaves, whose table is in order. *)
Lemma freed_same c h s c' :
  table_ok (slots c) (free_list c) → Lookup c h = Some s →
  slots c' = <[Z.to_nat h := free_slot]> (slots c) → free_list c' = free_list c ++ [h] →
  Lookup c' h = None ∧ ∀ h', h' ≠ h → Lookup c' h' = Lookup c h'.
Proof.
  intros Ht Hl E E'. destruct (freed_lookup c h s Ht Hl c' E) as [H1 H2].
  split; [done|]. intros h' Hne. destruct (decide (0 < h')); [by apply H2|].
  apply Lookup_inv in Hl as (Hr & Hs & Hk); [|done].
  rewrite !Lookup_negative; [done|done|lia| |lia].
  rewrite E, E'. eapply table_ok_free; [done|lia|done|]. by intros ->.
Qed.

(** ** Writing and reading *)

(** [m] is dead, every other handle is as before, and every trap whose
    triggers now hold has fired. *)
Record consumed (m : Z) (c c' : Core) : Prop := {
  cons_dead : Lookup c' m = None;
  cons_rest h : h ≠ m → same_handle c c' h;
  cons_quiet th : th ∈ traps c → quiet c' th;
  cons_length : length (slots c') = length (slots c)
}.

Lemma trap_frame_length c c' : trap_frame c c' → length (slots c') = length (slots c).
Proof. intros [H _]. by apply Forall2_length in H. Qed.

(** Filling a slot extends the table by one slot at most. *)
Lemma filled_length sl0 s i sl fl :
  filled sl0 s i sl fl → (length sl <= S (length sl0))%nat.
Proof.
  intros Hf. destruct (decide (length sl <= S (length sl0))%nat) as [|Hlt]; [done|].
  assert (∀ j, (length sl0 <= j)%nat → (j < length sl)%nat → j = i) as Hj.
  { intros j H1 H2. destruct (decide (j = i)) as [|Hne]; [done|].
    pose proof (filled_other _ _ _ _ _ Hf j Hne) as E.
    rewrite (lookup_ge_None_2 sl0 j) in E by done.
    apply lookup_ge_None in E. lia. }
  pose proof (Hj (length sl0)). pose proof (Hj (S (length sl0))). lia.
Qed.

(** The shared objects are untouched. *)
Record stores_same (c c' : Core) : Prop := {
  ss_pipes : pipe_states c' = pipe_states c;
  ss_datas : data_states c' = data_states c;
  ss_buffers : buffers c' = buffers c;
  ss_maps : maps c' = maps c;
  ss_traps : traps c' = traps c;
  ss_native : native_closed c' = native_closed c
}.

Lemma trap_frame_stores c c' : trap_frame c c' → stores_same c c'.
Proof. intros Hf. pose proof (tf_rest _ _ Hf) as E. by split; rewrite E. Qed.

Section specs.
Context {host : Host}.

Lemma wp_Free_Collect c m s :
  wf c → Lookup c m = Some s → heap_kind (kind s) = false →
  wp (Free m ;; CollectTrapEvents) (λ _ c',
    wf c' ∧ consumed m c c' ∧ stores_same c c') c.
Proof.
  intros Hwf Hl Hk. wp_step.
  eapply wp_Free; [apply Hwf|exact Hl|by destruct (kind s)|].
  pose proof (wf_Free c m s Hwf Hl Hk) as Hwf1.
  set (c1 := set_free_list _ _) in *.
  destruct (freed_same c m s c1 (wf_table _ Hwf) Hl eq_refl eq_refl) as [D R].
  eapply wp_mono; [by apply CollectTrapEvents_spec|].
  intros [] c' (Hf & Hq & _). split_and!.
  - by eapply trap_frame_wf.
  - split.
    + eapply same_handle_none; [by apply trap_frame_same|done].
    + intros h Hh. eapply same_handle_trans; [|by apply trap_frame_same].
      by apply same_handle_eq, R.
    + apply Hq.
    + rewrite (trap_frame_length _ _ Hf). simpl. apply length_insert.
  - pose proof (tf_rest _ _ Hf) as E. by split; rewrite E.
Qed.

Definition over_quota (st : PipeState) (peer : bool) (msg : MessageObj) : bool :=
  (sel (quota_count st) peer <=? Z.of_nat (length (sel (queues st) peer)))
  || (sel (quota_bytes st) peer <?
      u64 (QueueBytes (sel (queues st) peer) + Z.of_nat (length (msg_bytes msg)))).

(** The outcome of a write of [msg], under the handle [m], to the end [e] of
    a pipe in state [st]. *)
Definition write_post (c : Core) (e : PipeEnd) (st : PipeState) (m : Z)
    (msg : MessageObj) (r : Z) (c' : Core) : Prop :=
  let peer := negb (pe_end e) in
  if sel (closed st) peer then
    r = WHP_RESULT_FAILED_PRECONDITION ∧ consumed m c c' ∧ stores_same c c'
  else if over_quota st peer msg then
    r = WHP_RESULT_RESOURCE_EXHAUSTED ∧ c' = c
  else
    r = WHP_RESULT_OK ∧ consumed m c c' ∧
    pipe_states c' = <[pe_state e := set_queue peer
      (sel (queues st) peer ++ [with_committed true msg]) st]> (pipe_states c).

Lemma own_end_open c h e st :
  wf c → Lookup c h = Some (pipe_slot e) → pipe_states c !! pe_state e = Some st →
  sel (closed st) (pe_end e) = false.
Proof.
  intros Hwf (_ & Hs & _)%Lookup_inv Hst; [|apply Hwf].
  destruct (pipes_open _ _ (wf_pipes _ Hwf) _ _ Hs) as (st' & Hst' & ?). congruence.
Qed.

Lemma wp_write c p m e st msg :
  wf c → Lookup c p = Some (pipe_slot e) → pipe_states c !! pe_state e = Some st →
  Lookup c m = Some (message_slot msg) →
  wp (WhpWriteMessage_locked p m) (λ r c', wf c' ∧ write_post c e st m msg r c') c.
Proof.
  intros Hwf Hp Hst Hm. unfold WhpWriteMessage_locked. wp_step. rewrite Hp, Hm.
  simpl. unfold get_pipe. wp_step. rewrite Hst. wp_step.
  rewrite (own_end_open _ _ _ _ Hwf Hp Hst), orb_false_r. unfold write_post.
  destruct (sel (closed st) (negb (pe_end e))) eqn:Hc.
  - pose proof (wp_Free_Collect c m _ Hwf Hm eq_refl) as H. rewrite wp_bind in H.
    rewrite wp_bind. eapply wp_mono; [exact H|]. intros [] c1 H1. wp_step.
    eapply wp_mono; [exact H1|]. intros [] c2 (? & ? & ?). by wp_step.
  - wp_step. fold (over_quota st (negb (pe_end e)) msg). case_match; wp_step; [done|].
    unfold put_pipe. wp_step.
    set (c1 := set_pipes _ c).
    assert (wf c1) as Hwf1 by (by eapply wf_put_pipe).
    pose proof (wp_Free_Collect c1 m _ Hwf1 Hm eq_refl) as H'. rewrite wp_bind in H'.
    eapply wp_mono; [exact H'|]. intros [] c2 H2. wp_step.
    eapply wp_mono; [exact H2|]. intros [] c3 (Hwf3 & [K1 K2 K3 K4] & Hss). wp_step.
    split; [done|]. split; [done|]. split; [by split|]. apply Hss.
Qed.

(** The outcome of a read from the end [e] of a pipe in state [st]. *)
Definition read_post (c : Core) (e : PipeEnd) (st : PipeState)
    (r : Z * option Z) (c' : Core) : Prop :=
  match sel (queues st) (pe_end e) with
  | [] =>
      c' = c ∧
      r = (if sel (closed st) (negb (pe_end e))
           then WHP_RESULT_FAILED_PRECONDITION else WHP_RESULT_SHOULD_WAIT, None)
  | msg :: rest =>
      ∃ i h, r = (WHP_RESULT_OK, Some h) ∧
        (h = Z.of_nat i ∨ i = length (slots c) ∧ h = u32 (Z.of_nat i)) ∧
        Lookup c (Z.of_nat i) = None ∧
        Lookup c' (Z.of_nat i) = Some (message_slot msg) ∧
        (∀ h', h' ≠ Z.of_nat i → Lookup c' h' = Lookup c h') ∧
        pipe_states c' =
          <[pe_state e := set_queue (pe_end e) rest st]> (pipe_states c) ∧
        (length (slots c') <= S (length (slots c)))%nat
  end.

Lemma wp_read c p e st :
  wf c → Lookup c p = Some (pipe_slot e) → pipe_states c !! pe_state e = Some st →
  wp (WhpReadMessage p true) (λ r c', wf c' ∧ read_post c e st r c') c.
Proof.
  intros Hwf Hp Hst. unfold WhpReadMessage, with_pipe. wp_step. simpl. wp_step.
  rewrite Hp. simpl. wp_step. unfold get_pipe. wp_step. rewrite Hst. wp_step.
  unfold read_post. destruct (sel (queues st) (pe_end e)) as [|msg rest].
  - by case_match; wp_step.
  - unfold put_pipe. wp_step.
    set (c1 := set_pipes _ c).
    assert (wf c1) as Hwf1 by (by eapply wf_put_pipe).
    eapply wp_mono; [apply Alloc_spec; [apply Hwf1|done..]|].
    intros h c2 (i & sl & fl & -> & F & Hh). wp_step.
    split; [by eapply wf_fill|]. exists i, h. split; [done|]. split; [done|].
    destruct (filled_lookup c1 _ _ _ _ (wf_table _ Hwf1) F) as (L1 & L2 & L3); [done|].
    split_and!; try done. apply (filled_length _ _ _ _ _ F).
Qed.
End specs.

(** ** Closing *)

Section close_specs.
Context {host : Host}.

Lemma wp_close c h s :
  wf c → Lookup c h = Some s →
  wp (WhpClose_locked h) (λ rd c',
    fst rd = WHP_RESULT_OK ∧ wf c' ∧ Lookup c' h = None ∧
    (∀ h', h' ≠ h → same_handle c c' h') ∧
    (∀ th, th ∈ traps c' → quiet c' th)) c.
Proof.
  intros Hwf Hl. unfold WhpClose_locked. wp_step. rewrite Hl. wp_step.
  eapply wp_mono.
  { eapply (close_free_wf _ _ _ (λ c', wf c' ∧ freed h c c')); [done..|auto]. }
  intros d c1 H1. wp_step. eapply wp_mono; [exact H1|].
  intros [] c2 (Hwf2 & E1 & E2). wp_step.
  destruct (freed_same c h s c2 (wf_table _ Hwf) Hl E1 E2) as [D R].
  eapply wp_mono; [by apply CollectTrapEvents_spec|].
  intros [] c' (Hf & Hq & _). wp_step. simpl. split_and!.
  - done.
  - by eapply trap_frame_wf.
  - eapply same_handle_none; [by apply trap_frame_same|done].
  - intros h' Hh. eapply same_handle_trans; [|by apply trap_frame_same].
    by apply same_handle_eq, R.
  - intros th Hth. apply Hq. by rewrite <- (ss_traps _ _ (trap_frame_stores _ _ Hf)).
Qed.

(** Closing one end of a pipe marks it closed for its peer and leaves the
    queues alone. *)
Lemma wp_close_pipe c h e st :
  wf c → Lookup c h = Some (pipe_slot e) → pipe_states c !! pe_state e = Some st →
  wp (WhpClose_locked h) (λ rd c',
    rd = (WHP_RESULT_OK, None) ∧
    pipe_states c' = <[pe_state e := mkPipeState (queues st)
      (upd (closed st) (pe_end e) true) (quota_count st) (quota_bytes st)]>
      (pipe_states c)) c.
Proof.
  intros Hwf Hl Hst. unfold WhpClose_locked. wp_step. rewrite Hl. wp_step.
  unfold close_kind, close_pipe_end, get_pipe, put_pipe. simpl. wp_step.
  rewrite Hst. wp_step.
  eapply wp_Free; [apply Hwf|exact Hl|done|]. wp_step.
  apply CollectTrapEvents_wf; [by eapply wf_close_pipe|].
  intros c' _ Hf. wp_step. split; [done|].
  by rewrite (ss_pipes _ _ (trap_frame_stores _ _ Hf)).
Qed.
End close_specs.

(** ** Traces of a pipe *)

Section traces.
Context {host : Host}.

Inductive pipe_op := Send (m : Z) | Recv.

(** The message under a handle. *)
Definition message_at (c : Core) (h : Z) : list MessageObj :=
  match Lookup c h with
  | Some (mkSlot _ (ObjMessage msg)) => [msg]
  | _ => []
  end.

(** Writes to [a] and reads from [b], in any order: the messages the writes
    that succeeded took, and those the reads that succeeded delivered. *)
Fixpoint run_pipe (a b : Z) (ops : list pipe_op)
    : M Core (list MessageObj * list MessageObj) :=
  match ops with
  | [] => ret ([], [])
  | Send m :: ops' =>
      let! c := get in
      let! r := WhpWriteMessage_locked a m in
      let! '(sent, rcvd) := run_pipe a b ops' in
      ret ((if r =? WHP_RESULT_OK
            then map (with_committed true) (message_at c m) else []) ++ sent, rcvd)
  | Recv :: ops' =>
      let! '(r, h) := WhpReadMessage b true in
      let! c := get in
      let! '(sent, rcvd) := run_pipe a b ops' in
      ret (sent, match h with Some h => message_at c h | None => [] end ++ rcvd)
  end.

(** The messages waiting at end [i] of a pipe. *)
Definition inbox (c : Core) (id : nat) (i : bool) : list MessageObj :=
  match pipe_states c !! id with
  | Some st => sel (queues st) i
  | None => []
  end.

Lemma Lookup_message_cases c m :
  wf c → (∃ msg, Lookup c m = Some (message_slot msg)) ∨
  (∀ s, Lookup c m = Some s → kind s ≠ HandleKind_Message).
Proof.
  intros Hwf. destruct (Lookup c m) as [s|] eqn:Hl; [|by right].
  destruct (decide (kind s = HandleKind_Message)); [left|right; congruence].
  pose proof Hl as (_ & Hs & _)%Lookup_inv; [|apply Hwf].
  destruct (slot_typed_message s) as [msg ->]; [by eapply Hwf|done|]. by exists msg.
Qed.

Lemma wp_write_bad c p m :
  wf c → (∀ s, Lookup c m = Some s → kind s ≠ HandleKind_Message) →
  wp (WhpWriteMessage_locked p m)
    (λ r c', r = WHP_RESULT_INVALID_ARGUMENT ∧ c' = c) c.
Proof.
  intros Hwf Hm. unfold WhpWriteMessage_locked. wp_step.
  destruct (Lookup c p) as [ps|]; [|by wp_step].
  destruct (Lookup c m) as [ms|]; [|by wp_step].
  case_decide; [|by wp_step]. case_decide as Hk; [|by wp_step]. by destruct (Hm ms).
Qed.

(** The two ends of a pipe. *)
Definition pipe_pair (c : Core) (a b : Z) (id : nat) (x : bool) : Prop :=
  Lookup c a = Some (pipe_slot (mkPipeEnd id x)) ∧
  Lookup c b = Some (pipe_slot (mkPipeEnd id (negb x))).

Lemma pipe_pair_keep c c' a b id x :
  pipe_pair c a b id x →
  (∀ h e, Lookup c h = Some (pipe_slot e) → Lookup c' h = Some (pipe_slot e)) →
  pipe_pair c' a b id x.
Proof. intros [H1 H2] H. split; by apply H. Qed.

Lemma pipe_pair_state c a b id x :
  wf c → pipe_pair c a b id x → ∃ st, pipe_states c !! id = Some st.
Proof.
  intros Hwf [(_ & Hs & _)%Lookup_inv _]; [|apply Hwf].
  destruct (pipes_open _ _ (wf_pipes _ Hwf) _ _ Hs) as (st & ? & _). by exists st.
Qed.

(** One write, seen from the reader. *)
Lemma send_inbox c a b id x m :
  wf c → pipe_pair c a b id x →
  wp (WhpWriteMessage_locked a m) (λ r c',
    wf c' ∧ pipe_pair c' a b id x ∧ length (slots c') = length (slots c) ∧
    inbox c' id (negb x) = inbox c id (negb x) ++
      (if r =? WHP_RESULT_OK
       then map (with_committed true) (message_at c m) else [])) c.
Proof.
  intros Hwf Hp. destruct (Lookup_message_cases c m Hwf) as [[msg Hm]|Hm].
  2: { eapply wp_mono; [by apply wp_write_bad|]. intros r c' [-> ->].
       split_and!; try done. by rewrite app_nil_r. }
  destruct (pipe_pair_state _ _ _ _ _ Hwf Hp) as [st Hst].
  eapply wp_mono; [exact (wp_write c a m (mkPipeEnd id x) st msg Hwf (proj1 Hp) Hst Hm)|].
  intros r c' [Hwf' Hpost]. unfold write_post in Hpost. simpl in Hpost.
  assert (consumed m c c' → pipe_pair c' a b id x) as Hkeep.
  { intros [_ Hs _]. eapply pipe_pair_keep; [done|]. intros h e Hl.
    eapply same_handle_keep; [apply Hs|done|done]. intros ->. by rewrite Hm in Hl. }
  unfold inbox, message_at. rewrite Hm, Hst. simpl.
  destruct (sel (closed st) (negb x)).
  { destruct Hpost as (-> & Hc & Hss). split_and!; [done|by apply Hkeep|apply Hc|].
    rewrite (ss_pipes _ _ Hss), Hst. by rewrite app_nil_r. }
  destruct (over_quota _ _ _).
  { destruct Hpost as (-> & ->). split_and!; try done.
    rewrite Hst. by rewrite app_nil_r. }
  destruct Hpost as (-> & Hc & Hps). split_and!; [done|by apply Hkeep|apply Hc|].
  rewrite Hps, lookup_insert_eq. simpl. by rewrite sel_upd_eq.
Qed.

(** One read, seen from the reader. *)
Lemma recv_inbox c a b id x :
  wf c → pipe_pair c a b id x → Z.of_nat (length (slots c)) < 2 ^ 32 →
  wp (WhpReadMessage b true) (λ rh c',
    wf c' ∧ pipe_pair c' a b id x ∧ (length (slots c') <= S (length (slots c)))%nat ∧
    inbox c id (negb x) =
      match snd rh with Some h => message_at c' h | None => [] end
      ++ inbox c' id (negb x)) c.
Proof.
  intros Hwf Hp Hlen. destruct (pipe_pair_state _ _ _ _ _ Hwf Hp) as [st Hst].
  eapply wp_mono; [exact (wp_read c b (mkPipeEnd id (negb x)) st Hwf (proj2 Hp) Hst)|].
  intros [r h] c' [Hwf' Hpost]. unfold read_post in Hpost. simpl in Hpost.
  unfold inbox. rewrite Hst.
  destruct (sel (queues st) (negb x)) as [|msg rest] eqn:Hq.
  { destruct Hpost as (-> & [= -> ->]). rewrite Hst. split_and!; [done..|lia|]. by rewrite Hq. }
  destruct Hpost as (i & h' & [= -> ->] & Hh & Hd & Hl & Hs & Hps & Hle).
  assert (h' = Z.of_nat i) as ->.
  { destruct Hh as [->|[-> ->]]; [done|]. apply u32_small. lia. }
  split_and!; [done| |done|].
  - eapply pipe_pair_keep; [done|]. intros k e Hk. rewrite Hs; [done|congruence].
  - simpl. unfold message_at. rewrite Hl, Hps, lookup_insert_eq. simpl.
    by rewrite sel_upd_eq.
Qed.

Lemma run_pipe_inbox a b id x ops c :
  wf c → pipe_pair c a b id x →
  Z.of_nat (length (slots c) + length ops) < 2 ^ 32 →
  wp (run_pipe a b ops) (λ sr c',
    inbox c id (negb x) ++ fst sr = snd sr ++ inbox c' id (negb x)) c.
Proof.
  revert c. induction ops as [|[m|] ops IH]; intros c Hwf Hp Hlen; simpl; wp_step.
  { simpl. by rewrite app_nil_r. }
  - eapply wp_mono; [by apply send_inbox|].
    intros r c1 (Hwf1 & Hp1 & Hl1 & Hi). wp_step.
    eapply wp_mono; [apply IH; [done..|simpl in Hlen; lia]|].
    intros [sent rcvd] c2 H2. wp_step. simpl in *.
    rewrite Hi, <- app_assoc in H2. exact H2.
  - eapply wp_mono; [apply recv_inbox; [done..|lia]|].
    intros [r h] c1 (Hwf1 & Hp1 & Hl1 & Hi). wp_step.
    eapply wp_mono; [apply IH; [done..|simpl in Hlen; lia]|].
    intros [sent rcvd] c2 H2. wp_step. simpl in *.
    rewrite Hi, <- !app_assoc, H2. done.
Qed.
End traces.

(** ** Creating and fusing pipes *)

Section fuse_specs.
Context {host : Host}.

Lemma wp_create_pipe c :
  wf c → Z.of_nat (length (slots c)) + 1 < 2 ^ 32 →
  wp (WhpCreateMessagePipe true true) (λ r c', ∃ h0 h1 id,
    r = (WHP_RESULT_OK, Some (h0, h1)) ∧
    Lookup c h0 = None ∧ Lookup c h1 = None ∧ h0 ≠ h1 ∧
    pipe_pair c' h0 h1 id false ∧
    pipe_states c !! id = None ∧
    pipe_states c' = <[id := PipeState_init]> (pipe_states c) ∧
    ∀ h, h ≠ h0 → h ≠ h1 → Lookup c' h = Lookup c h) c.
Proof.
  intros Hwf Hlen. unfold WhpCreateMessagePipe, make_PipeState. simpl. wp_step.
  eapply wp_mono; [apply Alloc_spec; [apply (wf_table _ Hwf)|done..]|].
  intros h0 c1 (i & sl1 & fl1 & -> & F1 & Hh0). wp_step.
  eapply wp_mono; [apply Alloc_spec; [apply F1|done..]|].
  intros h1 c2 (j & sl2 & fl2 & -> & F2 & Hh1). wp_step. simpl in *.
  pose proof (filled_length _ _ _ _ _ F1) as L1.
  assert (h0 = Z.of_nat i) as -> by (destruct Hh0 as [->|[-> ->]]; [done|apply u32_small; lia]).
  assert (h1 = Z.of_nat j) as ->.
  { destruct Hh1 as [->|[-> ->]]; [done|apply u32_small]. lia. }
  destruct (filled_lookup c _ _ _ _ (wf_table _ Hwf) F1) as (A1 & A2 & A3); [done|].
  destruct (filled_lookup (set_free_list (λ _, fl1) (set_slots (λ _, sl1) c))
    _ _ _ _ (filled_table _ _ _ _ _ F1) F2) as (B1 & B2 & B3); [done|].
  set (c' := set_free_list _ _).
  assert (∀ h, Lookup c' h = Lookup (set_free_list (λ _, fl2) (set_slots (λ _, sl2)
    (set_free_list (λ _, fl1) (set_slots (λ _, sl1) c)))) h) as E.
  { intros h. by apply Lookup_ext. }
  assert (Z.of_nat i ≠ Z.of_nat j) as Hne.
  { intros Hij. rewrite <- Hij, A2 in B1. done. }
  exists (Z.of_nat i), (Z.of_nat j), (next_id c).
  split_and!; try done.
  - rewrite <- A3 by auto. exact B1.
  - split; rewrite E; [by rewrite B3|exact B2].
  - by apply fresh_pipe.
  - intros h N0 N1. rewrite E, B3, A3 by auto. done.
Qed.

Lemma peer_handle_exists c h0 h1 e e' st :
  wf c → pipe_at (slots c) (Z.to_nat h0) e → 0 < h0 →
  pipe_at (slots c) (Z.to_nat h1) e' → 0 < h1 → pe_state e ≠ pe_state e' →
  pipe_states c !! pe_state e = Some st → sel (closed st) (negb (pe_end e)) = false →
  ∃ i, i ∈ seq 1 (length (slots c) - 1) ∧
    peer_handle c h0 h1 e (Z.of_nat i) ∧ peer_handle c h1 h0 e (Z.of_nat i).
Proof.
  intros Hwf He Hz He' Hz' Hne Hst Hc.
  destruct (pipes_peer _ _ (wf_pipes _ Hwf) _ _ _ He Hst Hc) as [j Hj].
  pose proof (lookup_lt_Some _ _ _ Hj).
  assert (j ≠ 0%nat) as Hj0.
  { intros ->. pose proof (table_slot0 _ _ (wf_table _ Hwf)) as H0.
    unfold pipe_at in Hj. by rewrite Hj in H0. }
  assert (Z.of_nat j ≠ h0) as N0.
  { intros <-. rewrite Nat2Z.id in He. unfold pipe_at in *. rewrite He in Hj.
    injection Hj as Hj. destruct e as [s []]; simpl in *; congruence. }
  assert (Z.of_nat j ≠ h1) as N1.
  { intros <-. rewrite Nat2Z.id in He'. unfold pipe_at in *. rewrite He' in Hj.
    injection Hj as Hj. subst e'. done. }
  exists j. split; [apply elem_of_seq; lia|].
  assert (pipe_at (slots c) (Z.to_nat (Z.of_nat j)) (peer_of e)) as Hp
    by (by rewrite Nat2Z.id).
  split; (split_and!; [lia|done..]).
Qed.

(** The search finds the peer exactly when the peer is open. *)
Lemma last_peer_open c h0 h1 k0 k1 e e' st :
  wf c → Lookup c h0 = Some (pipe_slot e) → Lookup c h1 = Some (pipe_slot e') →
  pe_state e ≠ pe_state e' → pipe_states c !! pe_state e = Some st →
  (k0, k1) = (h0, h1) ∨ (k0, k1) = (h1, h0) →
  match last_peer c k0 k1 e (seq 1 (length (slots c) - 1)) None with
  | Some p => sel (closed st) (negb (pe_end e)) = false ∧ peer_handle c k0 k1 e p
  | None => sel (closed st) (negb (pe_end e)) = true
  end.
Proof.
  intros Hwf H0 H1 Hne Hst Hk.
  pose proof (pipe_at_handle _ _ _ Hwf H0) as (Z0 & _ & A0).
  pose proof (pipe_at_handle _ _ _ Hwf H1) as (Z1 & _ & A1).
  assert (∀ i, i ∈ seq 1 (length (slots c) - 1) → (0 < i)%nat) as Hpos.
  { intros i Hi%elem_of_seq. lia. }
  destruct (last_peer_spec c k0 k1 e _ None (wf_table _ Hwf) Hpos) as [L1 L2]; [done|].
  destruct (last_peer _ _ _ _ _ _) as [p|].
  - pose proof (L1 p eq_refl) as Hp. split; [|done].
    destruct Hp as (_ & _ & _ & Hp).
    destruct (pipes_open _ _ (wf_pipes _ Hwf) _ _ Hp) as (st' & Hst' & Ho).
    simpl in *. congruence.
  - destruct (sel (closed st) (negb (pe_end e))) eqn:Hc; [done|].
    destruct (peer_handle_exists c h0 h1 e e' st Hwf A0 Z0 A1 Z1 Hne Hst Hc)
      as (i & Hi & P1 & P2).
    destruct L2 as [? [=]]. right. exists i. split; [done|].
    destruct Hk as [[= -> ->]|[= -> ->]]; done.
Qed.

(** The handles of the fused core. *)
Lemma fused_lookup c h0 h1 e0 e1 p0 p1 st :
  wf c → Lookup c h0 = Some (pipe_slot e0) → Lookup c h1 = Some (pipe_slot e1) →
  peer_handle c h0 h1 e0 p0 → peer_handle c h0 h1 e1 p1 → h0 ≠ h1 → p0 ≠ p1 →
  let c' := fused_core c h0 h1 p0 p1 st in
  Lookup c' h0 = None ∧ Lookup c' h1 = None ∧
  Lookup c' p0 = Some (pipe_slot (mkPipeEnd (next_id c) false)) ∧
  Lookup c' p1 = Some (pipe_slot (mkPipeEnd (next_id c) true)) ∧
  ∀ h, 0 < h → h ≠ h0 → h ≠ h1 → h ≠ p0 → h ≠ p1 → Lookup c' h = Lookup c h.
Proof.
  intros Hwf H0 H1 (Y0 & N00 & N01 & B0) (Y1 & N10 & N11 & B1) Hh Hp c'.
  pose proof (pipe_at_handle _ _ _ Hwf H0) as (Z0 & L0 & A0).
  pose proof (pipe_at_handle _ _ _ Hwf H1) as (Z1 & L1 & A1).
  pose proof (lookup_lt_Some _ _ _ B0) as M0. pose proof (lookup_lt_Some _ _ _ B1) as M1.
  assert (slots c' = fused_slots c h0 h1 p0 p1) as E by done.
  assert (∀ x y, 0 < x → 0 < y → x ≠ y → Z.to_nat x ≠ Z.to_nat y) as Hn by lia.
  unfold fused_slots, moved_slots in E. split_and!.
  - apply Lookup_free. rewrite E, list_lookup_insert_ne by auto.
    apply list_lookup_insert_eq. by rewrite !length_insert.
  - apply Lookup_free. rewrite E. apply list_lookup_insert_eq.
    by rewrite !length_insert.
  - apply Lookup_intro; [done| |done].
    rewrite E, !(list_lookup_insert_ne _ _ (Z.to_nat p0)) by auto.
    by apply list_lookup_insert_eq.
  - apply Lookup_intro; [done| |done].
    rewrite E, !(list_lookup_insert_ne _ _ (Z.to_nat p1)) by auto.
    apply list_lookup_insert_eq. by rewrite length_insert.
  - intros h Hz X0 X1 X2 X3. unfold Lookup. rewrite E, !length_insert.
    by rewrite !list_lookup_insert_ne by auto.
Qed.

(** The fused pipe as its two remaining handles see it. *)
Record fused_result (c : Core) (h0 h1 : Z) (e0 e1 : PipeEnd) (st0 st1 : PipeState)
    (c' : Core) : Prop := {
  fr_dead0 : Lookup c' h0 = None;
  fr_dead1 : Lookup c' h1 = None;
  fr_peers : ∃ p0 p1 id,
    Lookup c p0 = Some (pipe_slot (peer_of e0)) ∧
    Lookup c p1 = Some (pipe_slot (peer_of e1)) ∧
    pipe_pair c' p0 p1 id false ∧
    pipe_states c !! id = None ∧
    pipe_states c' =
      <[id := fused_state st0 st1 (pe_end e0) (pe_end e1)]> (pipe_states c) ∧
    ∀ h, 0 < h → h ≠ h0 → h ≠ h1 → h ≠ p0 → h ≠ p1 → same_handle c c' h
}.

Lemma fuse_commit_result c h0 h1 e0 e1 p0 p1 st0 st1 :
  wf c → Lookup c h0 = Some (pipe_slot e0) → Lookup c h1 = Some (pipe_slot e1) →
  peer_handle c h0 h1 e0 p0 → peer_handle c h0 h1 e1 p1 → h0 ≠ h1 →
  pe_state e0 ≠ pe_state e1 →
  pipe_states c !! pe_state e0 = Some st0 → pipe_states c !! pe_state e1 = Some st1 →
  wp (fuse_commit h0 h1 e0 e1 p0 p1 ;; CollectTrapEvents ;; ret WHP_RESULT_OK)
    (λ r c', r = WHP_RESULT_OK ∧ fused_result c h0 h1 e0 e1 st0 st1 c') c.
Proof.
  intros Hwf H0 H1 P0 P1 Hh Hne S0 S1. wp_step.
  eapply wp_fuse_commit; try done. wp_step.
  set (st := fused_state _ _ _ _).
  assert (p0 ≠ p1) as Hp.
  { intros ->. destruct P0 as (_ & _ & _ & B0), P1 as (_ & _ & _ & B1).
    unfold pipe_at in *. rewrite B0 in B1. injection B1. done. }
  destruct (fused_lookup c h0 h1 e0 e1 p0 p1 st Hwf H0 H1 P0 P1 Hh Hp)
    as (D0 & D1 & Q0 & Q1 & R).
  apply CollectTrapEvents_wf; [by eapply wf_fused|]. intros c' _ Hf. wp_step.
  assert (∀ h, same_handle (fused_core c h0 h1 p0 p1 st) c' h) as Hs
    by (intros; by apply trap_frame_same).
  split; [done|]. split.
  - by eapply same_handle_none.
  - by eapply same_handle_none.
  - exists p0, p1, (next_id c).
    destruct P0 as (? & _ & _ & B0), P1 as (? & _ & _ & B1).
    split_and!; [by apply Lookup_intro..| |by apply fresh_pipe| |].
    + split; by eapply same_handle_keep.
    + by rewrite (ss_pipes _ _ (trap_frame_stores _ _ Hf)).
    + intros h Hz X0 X1 X2 X3. eapply same_handle_trans; [|apply Hs].
      by apply same_handle_eq, R.
Qed.

Lemma wp_fuse c h0 h1 e0 e1 st0 st1 :
  wf c → Lookup c h0 = Some (pipe_slot e0) → Lookup c h1 = Some (pipe_slot e1) →
  h0 ≠ h1 → pe_state e0 ≠ pe_state e1 →
  pipe_states c !! pe_state e0 = Some st0 → pipe_states c !! pe_state e1 = Some st1 →
  wp (WhpFuseMessagePipes h0 h1) (λ r c',
    if sel (closed st0) (negb (pe_end e0)) || sel (closed st1) (negb (pe_end e1))
    then r = WHP_RESULT_FAILED_PRECONDITION ∧ c' = c
    else r = WHP_RESULT_OK ∧ fused_result c h0 h1 e0 e1 st0 st1 c') c.
Proof.
  intros Hwf H0 H1 Hh Hne S0 S1. unfold WhpFuseMessagePipes. wp_step.
  rewrite H0, H1. simpl. destruct (Z.eqb_spec h0 h1) as [|_]; [done|]. simpl. wp_step.
  destruct (Nat.eqb_spec (pe_state e0) (pe_state e1)); [done|].
  rewrite find_peers_eq by apply Hwf. wp_step. simpl.
  pose proof (last_peer_open c h0 h1 h0 h1 e0 e1 st0 Hwf H0 H1 Hne S0 (or_introl eq_refl)) as L0.
  pose proof (last_peer_open c h1 h0 h0 h1 e1 e0 st1 Hwf H1 H0 (not_eq_sym Hne) S1
    (or_intror eq_refl)) as L1.
  destruct (last_peer c h0 h1 e0 _ _) as [p0|]; [destruct L0 as [C0 P0]|].
  2: { rewrite L0. wp_step. done. }
  destruct (last_peer c h0 h1 e1 _ _) as [p1|]; [destruct L1 as [C1 P1]|].
  2: { rewrite L1, orb_true_r. wp_step. done. }
  rewrite C0, C1. simpl. by apply fuse_commit_result.
Qed.
End fuse_specs.
