(* ===== verification/DataSpec.v ===== *)
(** * Data pipes as byte queues

    The ring buffer against its specification: the bytes waiting in a data
    pipe are a list, a write appends to it and a read takes from its front. *)
From S2P Require Import Prelude Core Traps Messages DataPipes Buffers Api.
From S2P Require Import CoreInv TrapsInv KernelInv TransferInv PipeSpec.

(** The buffer index [k] places after [r]. *)
Definition idx (cap r : Z) (k : nat) : nat := Z.to_nat ((r + Z.of_nat k) mod cap).

(** The [n] bytes from [r] on, wrapping around. *)
Definition ring_bytes (cap : Z) (b : list Z) (r : Z) (n : nat) : list Z :=
  map (λ k, nth (idx cap r k) b 0) (seq 0 n).

(** The bytes waiting, oldest first. *)
Definition content (s : DataPipeState) : list Z :=
  ring_bytes (capacity s) (buf s) (dp_r s) (Z.to_nat (available s)).

(** The write index is where the bytes waiting end. *)
Record ring_sync (s : DataPipeState) : Prop := {
  sync_ok : ring_ok s;
  sync_avail : available s <= capacity s;
  sync_w : dp_w s = (dp_r s + available s) mod capacity s
}.

Section ring.
Variable cap : Z.
Hypothesis Hcap : 0 < cap < 2 ^ 32.
#[local] Set Default Proof Using "All".

Lemma idx_lt r k : (idx cap r k < Z.to_nat cap)%nat.
Proof.
  unfold idx. pose proof (Z.mod_pos_bound (r + Z.of_nat k) cap). lia.
Qed.

Lemma idx_inj r j k :
  (j < k)%nat → Z.of_nat k < cap → idx cap r j ≠ idx cap r k.
Proof.
  intros Hjk Hk E. unfold idx in E.
  pose proof (Z.mod_pos_bound (r + Z.of_nat j) cap).
  pose proof (Z.mod_pos_bound (r + Z.of_nat k) cap).
  apply Z2Nat.inj in E; [|lia..].
  pose proof (Z.div_mod (r + Z.of_nat j) cap). pose proof (Z.div_mod (r + Z.of_nat k) cap).
  assert (cap * ((r + Z.of_nat k) / cap - (r + Z.of_nat j) / cap) = Z.of_nat k - Z.of_nat j)
    as Hd by lia.
  destruct (decide ((r + Z.of_nat k) / cap - (r + Z.of_nat j) / cap <= 0)); nia.
Qed.

Lemma idx_shift r k : idx cap ((r + 1) mod cap) k = idx cap r (S k).
Proof.
  unfold idx. rewrite Z.add_mod_idemp_l by lia. do 2 f_equal. lia.
Qed.

Lemma idx_0 r : 0 <= r < cap → idx cap r 0 = Z.to_nat r.
Proof. intros. unfold idx. rewrite Z.add_0_r, Z.mod_small by lia. done. Qed.

Lemma ring_bytes_length b r n : length (ring_bytes cap b r n) = n.
Proof. unfold ring_bytes. by rewrite length_map, length_seq. Qed.

Lemma ring_bytes_S b r n :
  ring_bytes cap b r (S n) = ring_bytes cap b r n ++ [nth (idx cap r n) b 0].
Proof. unfold ring_bytes. by rewrite seq_S, map_app. Qed.

Lemma ring_bytes_cons b r n :
  0 <= r < cap →
  ring_bytes cap b r (S n) = nth (Z.to_nat r) b 0 :: ring_bytes cap b ((r + 1) mod cap) n.
Proof.
  intros Hr. unfold ring_bytes. rewrite <- cons_seq. simpl. rewrite idx_0 by done.
  f_equal. rewrite <- seq_shift, map_map. apply map_ext. intros k. by rewrite idx_shift.
Qed.

(** Writing one byte where the bytes waiting end appends it. *)
Lemma ring_bytes_insert b r n x :
  Z.of_nat (length b) = cap → Z.of_nat n < cap →
  ring_bytes cap (<[idx cap r n := x]> b) r (S n) = ring_bytes cap b r n ++ [x].
Proof.
  intros Hb Hn. pose proof (idx_lt r n) as Hlt.
  assert (∀ i, nth i (<[idx cap r n := x]> b) 0 =
            if decide (i = idx cap r n) then x else nth i b 0) as Hnth.
  { intros i. rewrite !nth_lookup. case_decide as E.
    - subst i. by rewrite list_lookup_insert_eq by lia.
    - by rewrite list_lookup_insert_ne by done. }
  rewrite ring_bytes_S, Hnth, decide_True by done. f_equal.
  unfold ring_bytes. apply map_ext_in. intros k Hk%in_seq.
  rewrite Hnth, decide_False; [done|]. apply idx_inj; lia.
Qed.

Lemma u32_next w : 0 <= w < cap → u32 (w + 1) mod cap = (w + 1) mod cap.
Proof. intros. by rewrite u32_small by lia. Qed.

Lemma write_ring_spec src b r n :
  Z.of_nat (length b) = cap → Z.of_nat (n + length src) <= cap →
  ∃ b', write_ring cap src b ((r + Z.of_nat n) mod cap) =
          Some (b', (r + Z.of_nat (n + length src)) mod cap) ∧
    length b' = length b ∧
    ring_bytes cap b' r (n + length src) = ring_bytes cap b r n ++ src.
Proof.
  revert b n. induction src as [|x src IH]; intros b n Hb Hn; simpl in *.
  { exists b. by rewrite Nat.add_0_r, app_nil_r. }
  pose proof (idx_lt r n) as Hlt. unfold idx in Hlt.
  pose proof (Z.mod_pos_bound (r + Z.of_nat n) cap ltac:(lia)).
  destruct (Nat.ltb_spec (Z.to_nat ((r + Z.of_nat n) mod cap)) (length b)); [|lia].
  rewrite u32_next by done. rewrite Z.add_mod_idemp_l by lia.
  destruct (IH (<[idx cap r n := x]> b) (S n)) as (b' & Hw & Hl & Hr).
  { by rewrite length_insert. }
  { lia. }
  exists b'. rewrite length_insert in Hl. split_and!; [|done|].
  - replace (n + S (length src))%nat with (S n + length src)%nat by lia.
    rewrite <- Hw. f_equal. f_equal. lia.
  - replace (n + S (length src))%nat with (S n + length src)%nat by lia.
    rewrite Hr, ring_bytes_insert by lia. by rewrite <- app_assoc.
Qed.

Lemma read_ring_spec n m b r :
  Z.of_nat (length b) = cap → 0 <= r < cap →
  ∃ xs, read_ring cap n b r = Some (xs, (r + Z.of_nat n) mod cap) ∧
    length xs = n ∧
    ring_bytes cap b r (n + m) = xs ++ ring_bytes cap b ((r + Z.of_nat n) mod cap) m.
Proof.
  intros Hb. revert r. induction n as [|n IH]; intros r Hr; simpl.
  { exists []. rewrite Z.add_0_r, Z.mod_small by lia. done. }
  destruct (lookup_lt_is_Some_2 b (Z.to_nat r)) as [x Hx]; [lia|]. rewrite Hx. simpl.
  rewrite u32_next by done.
  destruct (IH ((r + 1) mod cap)) as (xs & Hw & Hl & Hr'); [apply Z.mod_pos_bound; lia|].
  rewrite Hw. simpl. rewrite Z.add_mod_idemp_l in * by lia.
  replace (r + 1 + Z.of_nat n) with (r + Z.of_nat (S n)) in * by lia.
  exists (x :: xs). split_and!; [done|by simpl; f_equal|].
  rewrite ring_bytes_cons, Hr' by done. simpl. f_equal. by rewrite nth_lookup, Hx.
Qed.

(** Writing to a stretch that does not wrap is overwriting it. *)
Lemma write_ring_contiguous src b w :
  Z.of_nat (length b) = cap → 0 <= w < cap → w + Z.of_nat (length src) <= cap →
  write_ring cap src b w =
  Some (take (Z.to_nat w) b ++ src ++ drop (Z.to_nat w + length src) b,
        (w + Z.of_nat (length src)) mod cap).
Proof.
  revert b w. induction src as [|x src IH]; intros b w Hb Hw Hl; simpl in *.
  { rewrite Nat.add_0_r, take_drop, Z.add_0_r, Z.mod_small by lia. done. }
  destruct (Nat.ltb_spec (Z.to_nat w) (length b)); [|lia].
  rewrite u32_next by done.
  destruct (decide (src = [])) as [->|Hne].
  { simpl. rewrite insert_take_drop by lia. simpl. repeat (f_equal; try lia). }
  assert (length src ≠ 0%nat) as Hz by (by intros ?%length_zero_iff_nil).
  rewrite (Z.mod_small (w + 1)) by lia.
  rewrite IH by (rewrite ?length_insert; lia).
  f_equal. f_equal; [|f_equal; lia].
  rewrite insert_take_drop by lia.
  replace (Z.to_nat (w + 1)) with (S (Z.to_nat w)) by lia.
  rewrite take_app_ge, drop_app_ge by (rewrite length_take; lia).
  rewrite length_take, Nat.min_l by lia.
  replace (S (Z.to_nat w) - Z.to_nat w)%nat with 1%nat by lia.
  replace (S (Z.to_nat w) + length src - Z.to_nat w)%nat with (S (length src)) by lia.
  simpl. rewrite <- app_assoc. simpl. rewrite drop_drop. do 4 f_equal. lia.
Qed.
End ring.

(** ** One write and one read *)

Section data_specs.
Context {host : Host}.

(** The two ends of a data pipe, whose ring is in step. *)
Record data_pair (c : Core) (p cn : Z) (id : nat) (s : DataPipeState) : Prop := {
  dpr_producer : Lookup c p =
    Some (mkSlot HandleKind_DataPipeProducer (ObjDataPipeEnd (mkDataPipeEnd id true)));
  dpr_consumer : Lookup c cn =
    Some (mkSlot HandleKind_DataPipeConsumer (ObjDataPipeEnd (mkDataPipeEnd id false)));
  dpr_state : data_states c !! id = Some s;
  dpr_sync : ring_sync s
}.

Lemma whole_spec e n :
  0 < e → 0 <= n → 0 <= whole e n <= n ∧ whole e n mod e = 0.
Proof.
  intros He Hn. unfold whole. pose proof (Z.mod_pos_bound n e He).
  pose proof (Z.mod_le n e Hn He). split; [lia|].
  rewrite Zminus_mod_idemp_r, Z.sub_diag. done.
Qed.

Lemma space_u32 s : ring_sync s → u32 (capacity s - available s) = capacity s - available s.
Proof.
  intros [Hr Ha _]. pose proof (ring_cap _ Hr). pose proof (ring_avail _ Hr).
  apply u32_small. lia.
Qed.

(** The ring after [bs] was written, [bs] fitting into the free space. *)
Lemma ring_sync_write s bs :
  ring_sync s → available s + Z.of_nat (length bs) <= capacity s →
  ∃ b w, write_ring (capacity s) bs (buf s) (dp_w s) = Some (b, w) ∧
    let s' := with_ring b (dp_r s) w (u32 (available s + Z.of_nat (length bs))) s in
    ring_sync s' ∧ content s' = content s ++ bs.
Proof.
  intros [Hr Ha Hw] Hle. pose proof (ring_cap _ Hr) as Hc. pose proof (ring_avail _ Hr) as Hv.
  destruct (write_ring_spec (capacity s) Hc bs (buf s) (dp_r s) (Z.to_nat (available s)))
    as (b & Hwr & Hl & Hb); [apply Hr|lia|].
  rewrite Z2Nat.id in Hwr by lia. rewrite <- Hw in Hwr.
  exists b, ((dp_r s + Z.of_nat (Z.to_nat (available s) + length bs)) mod capacity s).
  split; [done|]. simpl. rewrite u32_small by lia. split.
  - split; simpl.
    + rewrite <- (u32_small (available s + _)) by lia.
      apply ring_ok_with; [done|done|apply Hr|apply Z.mod_pos_bound; lia].
    + lia.
    + f_equal. lia.
  - unfold content. simpl. rewrite <- Hb. f_equal. lia.
Qed.

(** The ring after [n] bytes were read. *)
Lemma ring_sync_read s n :
  ring_sync s → 0 <= n <= available s →
  ∃ xs r, read_ring (capacity s) (Z.to_nat n) (buf s) (dp_r s) = Some (xs, r) ∧
    length xs = Z.to_nat n ∧
    let s' := with_ring (buf s) r (dp_w s) (u32 (available s - n)) s in
    ring_sync s' ∧ content s = xs ++ content s'.
Proof.
  intros [Hr Ha Hw] Hle. pose proof (ring_cap _ Hr) as Hc. pose proof (ring_avail _ Hr) as Hv.
  destruct (read_ring_spec (capacity s) Hc (Z.to_nat n) (Z.to_nat (available s - n))
    (buf s) (dp_r s)) as (xs & Hrd & Hl & Hb); [apply Hr..|].
  rewrite Z2Nat.id in Hrd, Hb by lia.
  exists xs, ((dp_r s + n) mod capacity s). split; [done|]. split; [done|].
  simpl. rewrite u32_small by lia. split.
  - split; simpl.
    + rewrite <- (u32_small (available s - n)) by lia.
      apply ring_ok_with; [done|done|apply Z.mod_pos_bound; lia|apply Hr].
    + lia.
    + rewrite Hw, Z.add_mod_idemp_l by lia. f_equal. lia.
  - unfold content. simpl. rewrite <- Hb. f_equal. lia.
Qed.

Definition same_ends (s s' : DataPipeState) : Prop :=
  element_size s' = element_size s ∧ capacity s' = capacity s ∧
  producer_closed s' = producer_closed s ∧ consumer_closed s' = consumer_closed s ∧
  two_phase_write s' = two_phase_write s ∧ two_phase_read s' = two_phase_read s.

Lemma data_pair_put c c1 p cn id s s' :
  wf c → data_pair c p cn id s → ring_sync s' →
  trap_frame (set_datas <[id := s']> c) c1 → data_pair c1 p cn id s'.
Proof.
  intros Hwf [Hp Hc Hs _] Hs' Hf.
  assert (∀ h, same_handle (set_datas <[id := s']> c) c1 h) as Hsame
    by (intros; by apply trap_frame_same).
  split; [by eapply same_handle_keep..| |done].
  rewrite (ss_datas _ _ (trap_frame_stores _ _ Hf)). by apply lookup_insert_eq.
Qed.

(** The outcome of writing the bytes [es]. *)
Definition write_data_post (c : Core) (p cn : Z) (id : nat) (s : DataPipeState)
    (es : list Z) (res : Z * option Z) (c' : Core) : Prop :=
  let want := Z.of_nat (length es) in
  let n := whole (element_size s) (Z.min want (capacity s - available s)) in
  if consumer_closed s then res = (WHP_RESULT_FAILED_PRECONDITION, None) ∧ c' = c
  else if negb (want mod element_size s =? 0)
  then res = (WHP_RESULT_INVALID_ARGUMENT, None) ∧ c' = c
  else if n =? 0 then res = (WHP_RESULT_SHOULD_WAIT, Some 0) ∧ c' = c
  else res = (WHP_RESULT_OK, Some n) ∧
       ∃ s', data_pair c' p cn id s' ∧ same_ends s s' ∧
             content s' = content s ++ take (Z.to_nat n) es.

Lemma wp_write_data c p cn id s es :
  wf c → data_pair c p cn id s →
  wp (WhpWriteData p es (Some (Z.of_nat (length es))))
    (λ res c', wf c' ∧ write_data_post c p cn id s es res c') c.
Proof.
  intros Hwf Hd. pose proof Hd as [Hp _ Hs Hsync].
  pose proof (ring_elem _ (sync_ok _ Hsync)) as He.
  unfold WhpWriteData, with_data_pipe. wp_step. rewrite Hp. simpl. wp_step.
  unfold get_data. wp_step. simpl. rewrite Hs. wp_step. unfold write_data_post.
  rewrite space_u32 by done.
  destruct (consumer_closed s) eqn:Hcc; [by wp_step|].
  case_match; [by wp_step|].
  pose proof (whole_spec (element_size s)
    (Z.min (Z.of_nat (length es)) (capacity s - available s))) as Hwh.
  set (n := whole _ _) in *. pose proof (sync_avail _ Hsync).
  pose proof (ring_avail _ (sync_ok _ Hsync)).
  destruct (Z.eqb_spec n 0) as [|Hn]; [by wp_step|].
  assert (Z.of_nat (length (take (Z.to_nat n) es)) = n) as Hl.
  { rewrite length_take. lia. }
  destruct (ring_sync_write s (take (Z.to_nat n) es) Hsync) as (b & w & Hw & Hs' & Hc).
  { lia. }
  rewrite Hw. wp_step. rewrite Hl in Hs', Hc. unfold put_data. wp_step.
  apply CollectTrapEvents_wf.
  { eapply wf_put_data; [done|exact Hs|apply Hs'|by intros []]. }
  intros c1 Hwf1 Hf. wp_step. split; [done|]. split; [done|].
  eexists. split; [exact (data_pair_put _ _ _ _ _ _ _ Hwf Hd Hs' Hf)|]. split; [done|exact Hc].
Qed.

(** The outcome of reading up to [want] bytes. *)
Definition read_data_post (c : Core) (p cn : Z) (id : nat) (s : DataPipeState)
    (want : Z) (res : Z * option Z * list Z) (c' : Core) : Prop :=
  let n := whole (element_size s) (Z.min want (available s)) in
  if negb (want mod element_size s =? 0)
  then res = (WHP_RESULT_INVALID_ARGUMENT, None, []) ∧ c' = c
  else if n =? 0
  then res = (if producer_closed s then WHP_RESULT_FAILED_PRECONDITION
              else WHP_RESULT_SHOULD_WAIT, Some 0, []) ∧ c' = c
  else ∃ xs s', res = (WHP_RESULT_OK, Some n, xs) ∧ Z.of_nat (length xs) = n ∧
       data_pair c' p cn id s' ∧ same_ends s s' ∧ content s = xs ++ content s'.

Lemma wp_read_data c p cn id s want :
  wf c → data_pair c p cn id s → 0 <= want →
  wp (WhpReadData cn (Some want))
    (λ res c', wf c' ∧ read_data_post c p cn id s want res c') c.
Proof.
  intros Hwf Hd Hwant. pose proof Hd as [_ Hp Hs Hsync].
  pose proof (ring_elem _ (sync_ok _ Hsync)) as He.
  unfold WhpReadData, with_data_pipe. wp_step. rewrite Hp. simpl. wp_step.
  unfold get_data. wp_step. simpl. rewrite Hs. wp_step. unfold read_data_post.
  case_match; [by wp_step|].
  pose proof (ring_avail _ (sync_ok _ Hsync)).
  pose proof (whole_spec (element_size s) (Z.min want (available s))) as Hwh.
  set (n := whole _ _) in *.
  destruct (Z.eqb_spec n 0) as [|Hn]; [by wp_step|].
  destruct (ring_sync_read s n Hsync) as (xs & r & Hw & Hl & Hs' & Hc); [lia|].
  rewrite Hw. wp_step. unfold put_data. wp_step.
  apply CollectTrapEvents_wf.
  { eapply wf_put_data; [done|exact Hs|apply Hs'|by intros []]. }
  intros c1 Hwf1 Hf. wp_step. split; [done|]. exists xs. eexists.
  split; [done|]. split; [lia|]. split; [exact (data_pair_put _ _ _ _ _ _ _ Hwf Hd Hs' Hf)|]. done.
Qed.
End data_specs.

(** ** Traces of a data pipe *)

Section data_traces.
Context {host : Host}.

Inductive data_op := Put (es : list Z) | Take (want : Z).

Definition data_op_ok (o : data_op) : Prop :=
  match o with Put _ => True | Take want => 0 <= want end.

(** Writes to [p] and reads from [cn], in any order: the bytes the writes
    took and the bytes the reads delivered. *)
Fixpoint run_data (p cn : Z) (ops : list data_op) : M Core (list Z * list Z) :=
  match ops with
  | [] => ret ([], [])
  | Put es :: ops' =>
      let! '(_, n) := WhpWriteData p es (Some (Z.of_nat (length es))) in
      let! '(written, got) := run_data p cn ops' in
      ret (match n with Some n => take (Z.to_nat n) es | None => [] end ++ written, got)
  | Take want :: ops' =>
      let! '(_, _, xs) := WhpReadData cn (Some want) in
      let! '(written, got) := run_data p cn ops' in
      ret (written, xs ++ got)
  end.

(** The bytes waiting in data pipe [id]. *)
Definition waiting (c : Core) (id : nat) : list Z :=
  match data_states c !! id with Some s => content s | None => [] end.

Lemma data_pair_waiting c p cn id s : data_pair c p cn id s → waiting c id = content s.
Proof. intros [_ _ Hs _]. unfold waiting. by rewrite Hs. Qed.

Lemma run_data_waiting p cn id ops c s :
  wf c → data_pair c p cn id s → Forall data_op_ok ops →
  wp (run_data p cn ops) (λ wg c',
    waiting c id ++ fst wg = snd wg ++ waiting c' id ∧
    ∃ s', data_pair c' p cn id s') c.
Proof.
  revert c s. induction ops as [|o ops IH]; intros c s Hwf Hd Hok; simpl; wp_step.
  { simpl. rewrite app_nil_r. by eauto. }
  inversion Hok as [|? ? Ho Hok']; subst. destruct o as [es|want]; wp_step.
  - eapply wp_mono; [by apply wp_write_data|]. intros [r n] c1 [Hwf1 Hpost].
    assert (∃ s1, data_pair c1 p cn id s1 ∧ content s1 = content s ++
      match n with Some n => take (Z.to_nat n) es | None => [] end) as (s1 & Hd1 & Hc).
    { unfold write_data_post in Hpost.
      destruct (consumer_closed s); [|destruct (negb _); [|destruct (_ =? 0)]].
      1-3: destruct Hpost as [[= -> ->] ->]; exists s; simpl; by rewrite app_nil_r.
      destruct Hpost as [[= -> ->] (s1 & ? & _ & ?)]. by exists s1. }
    wp_step. eapply wp_mono; [by eapply IH|]. intros [written got] c2 [H2 Hs2]. wp_step.
    split; [|done]. simpl in *. rewrite (data_pair_waiting _ _ _ _ _ Hd).
    rewrite (data_pair_waiting _ _ _ _ _ Hd1), Hc, <- app_assoc in H2. exact H2.
  - eapply wp_mono; [by eapply wp_read_data|]. intros [[r n] xs] c1 [Hwf1 Hpost].
    assert (∃ s1, data_pair c1 p cn id s1 ∧ content s = xs ++ content s1) as (s1 & Hd1 & Hc).
    { unfold read_data_post in Hpost.
      destruct (negb _); [|destruct (_ =? 0)].
      1-2: destruct Hpost as [[= -> -> ->] ->]; by exists s.
      destruct Hpost as (xs' & s1 & [= -> -> ->] & _ & ? & _ & ?). by exists s1. }
    wp_step. eapply wp_mono; [by eapply IH|]. intros [written got] c2 [H2 Hs2]. wp_step.
    split; [|done]. simpl in *. rewrite (data_pair_waiting _ _ _ _ _ Hd).
    rewrite (data_pair_waiting _ _ _ _ _ Hd1) in H2. by rewrite Hc, <- !app_assoc, H2.
Qed.

(** ** Two-phase writes *)

Lemma with_data_pipe_known {A} k h id b (bad : A) body c s :
  Lookup c h = Some (mkSlot k (ObjDataPipeEnd (mkDataPipeEnd id b))) →
  data_states c !! id = Some s →
  with_data_pipe k h bad body c = body id s c.
Proof.
  intros Hl Hs. unfold with_data_pipe, bind, get. rewrite Hl. simpl.
  rewrite decide_True by done. unfold of_option, ret, get_data, bind, get. simpl.
  by rewrite Hs.
Qed.

Lemma wp_with_data_known {A} k h id b (bad : A) body c s Q :
  Lookup c h = Some (mkSlot k (ObjDataPipeEnd (mkDataPipeEnd id b))) →
  data_states c !! id = Some s →
  wp (body id s) Q c → wp (with_data_pipe k h bad body) Q c.
Proof. intros Hl Hs H. unfold wp. by rewrite (with_data_pipe_known _ _ _ _ _ _ _ _ Hl Hs). Qed.

Lemma two_phase_begin c p cn id s want :
  data_pair c p cn id s → two_phase_write s = None → 0 <= want →
  let n := whole (element_size s)
    (Z.min (Z.min (capacity s - available s) (capacity s - dp_w s)) want) in
  WhpBeginWriteData p true (Some want) c =
  if n =? 0 then Some ((WHP_RESULT_SHOULD_WAIT, None), c)
  else Some ((WHP_RESULT_OK, Some (dp_w s, n)),
             set_datas <[id := with_two_phase_write (Some (dp_w s)) n s]> c).
Proof.
  intros [Hp _ Hs Hsync] H2 Hw n. unfold WhpBeginWriteData. simpl.
  rewrite (with_data_pipe_known _ _ _ _ _ _ _ _ Hp Hs), H2, space_u32 by done.
  pose proof (ring_w _ (sync_ok _ Hsync)). pose proof (ring_cap _ (sync_ok _ Hsync)).
  rewrite u32_small by lia. fold n. by destruct (n =? 0).
Qed.

(** The state after a two-phase write of [bs]. *)
Definition two_phase_done (s : DataPipeState) (n : Z) (bs : list Z) : DataPipeState :=
  with_two_phase_write None n (with_ring
    (take (Z.to_nat (dp_w s)) (buf s) ++ bs ++
       drop (Z.to_nat (dp_w s) + length bs) (buf s))
    (dp_r s) (u32 (dp_w s + Z.of_nat (length bs)) mod capacity s)
    (u32 (available s + Z.of_nat (length bs))) s).

Lemma two_phase_sync s n bs :
  ring_sync s → Z.of_nat (length bs) <= capacity s - available s →
  Z.of_nat (length bs) <= capacity s - dp_w s →
  ring_sync (two_phase_done s n bs) ∧ content (two_phase_done s n bs) = content s ++ bs.
Proof.
  intros Hs H1 H2. pose proof (sync_ok _ Hs) as Hr.
  pose proof (ring_cap _ Hr). pose proof (ring_w _ Hr). pose proof (ring_buf _ Hr).
  destruct (ring_sync_write s bs Hs) as (b & w & Hw & Hs' & Hc); [lia|].
  rewrite (write_ring_contiguous (capacity s)) in Hw by (done || lia).
  injection Hw as <- <-.
  unfold two_phase_done. rewrite (u32_small (dp_w s + _)) by lia.
  split; [|exact Hc]. destruct Hs' as [[] ? ?]. by split; [split|..].
Qed.

Lemma wp_two_phase c p cn id s want n bs :
  wf c → data_pair c p cn id s → two_phase_write s = None → 0 <= want →
  n = whole (element_size s)
        (Z.min (Z.min (capacity s - available s) (capacity s - dp_w s)) want) →
  n ≠ 0 → Z.of_nat (length bs) <= n → Z.of_nat (length bs) mod element_size s = 0 →
  wp (let! _ := WhpBeginWriteData p true (Some want) in
      poke_two_phase p (dp_w s) bs ;;
      WhpEndWriteData p (Z.of_nat (length bs)))
    (λ r c', r = WHP_RESULT_OK ∧ data_pair c' p cn id (two_phase_done s n bs)) c.
Proof.
  intros Hwf Hd H2 Hw Hn Hn0 Hle Hmod. pose proof Hd as [Hp Hcn Hs Hsync].
  pose proof (sync_ok _ Hsync) as Hr. pose proof (ring_cap _ Hr). pose proof (ring_w _ Hr).
  pose proof (ring_avail _ Hr). pose proof (ring_elem _ Hr). pose proof (sync_avail _ Hsync).
  destruct (whole_spec (element_size s)
    (Z.min (Z.min (capacity s - available s) (capacity s - dp_w s)) want)) as [Hwh _];
    [lia..|]. rewrite <- Hn in Hwh.
  rewrite wp_bind. eapply wp_of_eq.
  { rewrite (two_phase_begin c p cn id s want) by done. rewrite <- Hn.
    rewrite (proj2 (Z.eqb_neq n 0) Hn0). reflexivity. }
  set (c1 := set_datas _ c). rewrite wp_bind. unfold poke_two_phase.
  eapply (wp_with_data_known _ p id true _ _ c1); [exact Hp|apply lookup_insert_eq|].
  unfold put_data. wp_step. set (c2 := set_datas _ c1). unfold WhpEndWriteData.
  eapply (wp_with_data_known _ p id true _ _ c2); [exact Hp|apply lookup_insert_eq|].
  simpl. destruct (Z.ltb_spec n (Z.of_nat (length bs))); [lia|].
  rewrite Hmod. simpl. unfold put_data. wp_step.
  destruct (two_phase_sync s n bs Hsync) as [Hs' _]; [lia..|].
  assert (set_datas <[id := two_phase_done s n bs]> c2 =
          set_datas <[id := two_phase_done s n bs]> c) as E.
  { unfold c2, c1, set_datas. simpl. by rewrite !insert_insert_eq. }
  change (wp CollectTrapEvents (λ _ c', wp (ret WHP_RESULT_OK) (λ r c'',
    r = WHP_RESULT_OK ∧ data_pair c'' p cn id (two_phase_done s n bs)) c')
    (set_datas <[id := two_phase_done s n bs]> c2)). rewrite E.
  apply CollectTrapEvents_wf.
  { eapply wf_put_data; [done|exact Hs|apply Hs'|by intros []]. }
  intros c3 _ Hf. wp_step. split; [done|]. by eapply data_pair_put.
Qed.
End data_traces.
