(* ===== verification/KernelProps.v ===== *)
(** * Properties of the kernel: safety, handles, messages and pipes

    The theorems about the whole kernel and about message pipes, each with a
    concrete run on which its hypotheses hold. *)
From S2P Require Import Prelude Core Traps Messages DataPipes Buffers Api.
From S2P Require Import CoreInv TrapsInv KernelInv TransferInv PipeSpec DataSpec.

(** ** Concrete cores *)

#[local] Instance posix_host : Host :=
  {| host_os := Posix; os_map_view := λ _ _ _, true |}.

Fixpoint run_actions (l : list action) (c : Core) : Core :=
  match l with
  | [] => c
  | a :: l' => match exec a c with
               | Some (_, c') => run_actions l' c'
               | None => c
               end
  end.

Lemma run_actions_reachable l c :
  reachable c → Forall action_ok l → reachable (run_actions l c).
Proof.
  revert c. induction l as [|a l IH]; intros c Hc Hl; simpl; [done|].
  inversion Hl as [|? ? Ha Hl']; subst. destruct (exec a c) as [[[] c']|] eqn:E; [|done].
  apply IH; [|done]. eapply rtc_r; [exact Hc|]. by exists a.
Qed.

Lemma run_actions_wf l : Forall action_ok l → wf (run_actions l Core_init).
Proof. intros H. eapply reachable_wf, run_actions_reachable; [apply rtc_refl|done]. Qed.

(** A pipe (handles 1 and 2), two messages (3 and 4) holding one and two
    bytes, and an armed trap (5) that watches handle 2 for reading. *)
Definition demo_actions : list action :=
  [A_CreateMessagePipe true true; A_CreateMessage true; A_CreateMessage true;
   A_AppendMessageData 3 1 [] None; A_AppendMessageData 4 2 [] None;
   A_CreateTrap (Some 7) true;
   A_AddTrigger 5 2 WHP_HANDLE_SIGNAL_READABLE 0 42; A_ArmTrap 5 None false].
Definition demo : Core := run_actions demo_actions Core_init.

Lemma demo_actions_ok : Forall action_ok demo_actions.
Proof. repeat constructor. Qed.

Lemma demo_wf : wf demo.
Proof. apply run_actions_wf, demo_actions_ok. Qed.

Lemma demo_reachable : reachable demo.
Proof. apply run_actions_reachable; [apply rtc_refl|apply demo_actions_ok]. Qed.

(** ** Safety *)



(** C2: the entry points that call the client back outside the lock
    (serializers, destructors, trap handlers) end in a well-formed core with a
    result, whatever kernel operations the callbacks perform. *)
Theorem client_calls_safe {host : Host} (client : Client) :
  ClientOk client → ∀ c, wf c →
  (∀ h, ∃ r c', WhpClose h c = Some (r, c') ∧ wf c') ∧
  (∀ m, ∃ r c', WhpSerializeMessage m c = Some (r, c') ∧ wf c') ∧
  (∀ m x s d, ∃ r c', WhpSetMessageContext_full m x s d c = Some (r, c') ∧ wf c') ∧
  (∀ p m, ∃ r c', WhpWriteMessage p m c = Some (r, c') ∧ wf c') ∧
  (∃ r c', WhpPumpEvents c = Some (r, c') ∧ wf c').
Proof.
  intros ok c Hwf. split_and!; intros; apply wp_run.
  - by apply WhpClose_wf.
  - by apply WhpSerializeMessage_wf.
  - by apply WhpSetMessageContext_full_wf.
  - by apply WhpWriteMessage_wf.
  - by apply WhpPumpEvents_wf.
Qed.

(** A client whose destructor closes handle 1 and whose other callbacks do
    nothing. *)
Definition closing_client : Client :=
  {| call_serializer := λ _ _ _ c, c;
     call_destructor := λ _ _ c, run_actions [A_Close 1] c;
     call_trap_handler := λ _ _ c, c |}.

Lemma closing_client_ok : ClientOk closing_client.
Proof.
  split; simpl; intros; try apply rtc_refl.
  destruct (discard (WhpClose_locked 1) c) as [[[] c']|] eqn:E; [|apply rtc_refl].
  apply rtc_once. by exists (A_Close 1).
Qed.

Lemma client_calls_safe_witness :
  ∃ r c', @WhpPumpEvents posix_host closing_client demo = Some (r, c') ∧ wf c'.
Proof. apply (client_calls_safe closing_client closing_client_ok demo demo_wf). Defined.

(** ** Handles *)

(** [WhpClose] of a live handle succeeds, kills that handle and no other
    (traps that fired on the way are disarmed, nothing else changes under any
    other handle), and leaves no armed trap with a trigger that holds; on a
    dead handle it answers [INVALID_ARGUMENT] and changes nothing. *)
Theorem close_kills_only_its_handle {host : Host} c h :
  wf c →
  wp (WhpClose_locked h) (λ rd c',
    match Lookup c h with
    | None => rd = (WHP_RESULT_INVALID_ARGUMENT, None) ∧ c' = c
    | Some _ =>
        fst rd = WHP_RESULT_OK ∧ Lookup c' h = None ∧
        (∀ h', h' ≠ h → same_handle c c' h') ∧
        (∀ th, th ∈ traps c' → quiet c' th)
    end) c.
Proof.
  intros Hwf. destruct (Lookup c h) as [s|] eqn:Hl.
  - eapply wp_mono; [by eapply wp_close|]. intros rd c' (? & ? & ? & ? & ?). done.
  - unfold WhpClose_locked. wp_step. rewrite Hl. by wp_step.
Qed.

Lemma close_kills_only_its_handle_witness :
  wp (WhpClose_locked 3) (λ rd c',
    fst rd = WHP_RESULT_OK ∧ Lookup c' 3 = None ∧
    (∀ h', h' ≠ 3 → same_handle demo c' h') ∧
    (∀ th, th ∈ traps c' → quiet c' th)) demo.
Proof. exact (close_kills_only_its_handle demo 3 demo_wf). Defined.

(** [WhpCreateMessagePipe] returns two distinct handles that were dead,
    the two ends of a new pipe with empty queues, both ends open and no quota,
    and changes nothing under any other handle. *)
Theorem create_pipe_fresh {host : Host} c :
  wf c → Z.of_nat (length (slots c)) + 1 < 2 ^ 32 →
  wp (WhpCreateMessagePipe true true) (λ r c', ∃ h0 h1 id,
    r = (WHP_RESULT_OK, Some (h0, h1)) ∧
    Lookup c h0 = None ∧ Lookup c h1 = None ∧ h0 ≠ h1 ∧
    pipe_pair c' h0 h1 id false ∧ pipe_states c !! id = None ∧
    pipe_states c' = <[id := PipeState_init]> (pipe_states c) ∧
    ∀ h, h ≠ h0 → h ≠ h1 → Lookup c' h = Lookup c h) c.
Proof. apply wp_create_pipe. Qed.

Lemma create_pipe_fresh_witness :
  wp (WhpCreateMessagePipe true true) (λ r c', ∃ h0 h1 id,
    r = (WHP_RESULT_OK, Some (h0, h1)) ∧
    Lookup demo h0 = None ∧ Lookup demo h1 = None ∧ h0 ≠ h1 ∧
    pipe_pair c' h0 h1 id false ∧ pipe_states demo !! id = None ∧
    pipe_states c' = <[id := PipeState_init]> (pipe_states demo) ∧
    ∀ h, h ≠ h0 → h ≠ h1 → Lookup c' h = Lookup demo h) demo.
Proof. apply (create_pipe_fresh demo demo_wf). by vm_compute. Defined.

(** ** Message pipes *)

(** C3: a pipe is a FIFO in each direction.  In any sequence of writes to one
    end and reads from the other, from a core where messages may already be
    waiting, the messages waiting at first followed by those the successful
    writes took are those the successful reads delivered followed by those
    still waiting: none is lost, duplicated, reordered or altered but for its
    [committed] mark. *)
Theorem message_fifo {host : Host} a b id x ops c :
  wf c → pipe_pair c a b id x →
  Z.of_nat (length (slots c) + length ops) < 2 ^ 32 →
  wp (run_pipe a b ops) (λ sr c',
    inbox c id (negb x) ++ fst sr = snd sr ++ inbox c' id (negb x)) c.
Proof. apply run_pipe_inbox. Qed.

Definition pipe_ops : list pipe_op := [Send 3; Recv; Send 4; Send 3; Recv].

Lemma message_fifo_witness :
  pipe_pair demo 1 2 0 false ∧
  wp (run_pipe 1 2 pipe_ops) (λ sr c',
    inbox demo 0 true ++ fst sr = snd sr ++ inbox c' 0 true) demo.
Proof.
  assert (pipe_pair demo 1 2 0 false) as Hp by (by vm_compute).
  split; [exact Hp|]. apply (message_fifo 1 2 0 false pipe_ops demo demo_wf Hp).
  by vm_compute.
Defined.

(** The three outcomes of a write.  If the peer is closed the message is
    consumed all the same and the write answers [FAILED_PRECONDITION]; if a
    quota of the receiving end would be exceeded nothing changes and the
    answer is [RESOURCE_EXHAUSTED]; otherwise the message joins the end of the
    peer's queue, its handle dies, no other handle changes, the queue respects
    the count quota, and every trap whose trigger now holds has fired. *)
Theorem write_message_outcomes {host : Host} c p m e st msg :
  wf c → Lookup c p = Some (pipe_slot e) → pipe_states c !! pe_state e = Some st →
  Lookup c m = Some (message_slot msg) →
  wp (WhpWriteMessage_locked p m) (λ r c',
    write_post c e st m msg r c' ∧
    (r = WHP_RESULT_OK →
     Z.of_nat (length (inbox c' (pe_state e) (negb (pe_end e))))
       <= sel (quota_count st) (negb (pe_end e)))) c.
Proof.
  intros Hwf Hp Hst Hm. eapply wp_mono; [by eapply wp_write|].
  intros r c' [_ Hpost]. split; [exact Hpost|]. intros ->. unfold write_post in Hpost.
  destruct (sel (closed st) _); [by destruct Hpost|].
  destruct (over_quota _ _ _) eqn:Hq; [by destruct Hpost|].
  destruct Hpost as (_ & _ & E). unfold inbox. rewrite E, lookup_insert_eq. simpl.
  rewrite sel_upd_eq, length_app. simpl. unfold over_quota in Hq. zbool. lia.
Qed.

Lemma write_message_outcomes_witness :
  wp (WhpWriteMessage_locked 1 4) (λ r c',
    write_post demo (mkPipeEnd 0 false) PipeState_init 4
      (mkMessageObj [0; 0] [] false 0 None None) r c' ∧
    (r = WHP_RESULT_OK → Z.of_nat (length (inbox c' 0 true)) <= 2 ^ 64 - 1)) demo.
Proof.
  apply (write_message_outcomes demo 1 4 (mkPipeEnd 0 false) PipeState_init);
    [exact demo_wf|by vm_compute..].
Defined.

(** Reading a pipe and querying its signals agree.  A read succeeds exactly
    when READABLE is satisfied; it answers [SHOULD_WAIT] exactly when READABLE
    is not satisfied but still satisfiable, and [FAILED_PRECONDITION] exactly
    when it can never be satisfied again, so a closed peer's messages are all
    delivered before the closure is reported.  A failing read changes
    nothing. *)
Theorem read_agrees_with_signals {host : Host} c p e :
  wf c → Lookup c p = Some (pipe_slot e) →
  wp (WhpReadMessage p true) (λ rh c', ∃ sg,
    QueryLocked c p = Some sg ∧
    let readable z := Z.testbit z 0 in
    (fst rh = WHP_RESULT_OK ↔ readable (satisfied_signals sg) = true) ∧
    (fst rh = WHP_RESULT_SHOULD_WAIT ↔
       readable (satisfied_signals sg) = false ∧
       readable (satisfiable_signals sg) = true) ∧
    (fst rh = WHP_RESULT_FAILED_PRECONDITION ↔
       readable (satisfiable_signals sg) = false) ∧
    (fst rh ≠ WHP_RESULT_OK → c' = c ∧ snd rh = None)) c.
Proof.
  intros Hwf Hp. pose proof Hp as (_ & Hs & _)%Lookup_inv; [|apply Hwf].
  destruct (pipes_open _ _ (wf_pipes _ Hwf) _ _ Hs) as (st & Hst & _).
  eapply wp_mono; [by eapply wp_read|]. intros [r h] c' [_ Hpost].
  exists (PipeSignals (pe_end e) st).
  split; [unfold QueryLocked; rewrite Hp; simpl; by rewrite Hst|].
  unfold read_post in Hpost. unfold PipeSignals.
  destruct (sel (queues st) (pe_end e)) as [|msg q].
  - destruct Hpost as (-> & [= -> ->]). rewrite bool_decide_eq_true_2 by done.
    destruct (sel (closed st) (negb (pe_end e))); simpl; split_and!; naive_solver.
  - destruct Hpost as (i & h' & [= -> ->] & _). rewrite bool_decide_eq_false_2 by done.
    destruct (sel (closed st) (negb (pe_end e))); simpl; split_and!; naive_solver.
Qed.

Lemma read_agrees_with_signals_witness :
  wp (WhpReadMessage 2 true) (λ rh c', ∃ sg,
    QueryLocked demo 2 = Some sg ∧
    let readable z := Z.testbit z 0 in
    (fst rh = WHP_RESULT_OK ↔ readable (satisfied_signals sg) = true) ∧
    (fst rh = WHP_RESULT_SHOULD_WAIT ↔
       readable (satisfied_signals sg) = false ∧
       readable (satisfiable_signals sg) = true) ∧
    (fst rh = WHP_RESULT_FAILED_PRECONDITION ↔
       readable (satisfiable_signals sg) = false) ∧
    (fst rh ≠ WHP_RESULT_OK → c' = demo ∧ snd rh = None)) demo.
Proof.
  apply (read_agrees_with_signals demo 2 (mkPipeEnd 0 true)); [exact demo_wf|by vm_compute].
Defined.

(** C4: fusing two pipes through the handles [h0] and [h1] joins their flows.
    If a remaining end is closed the answer is [FAILED_PRECONDITION] and
    nothing changes.  Otherwise the two handles die, the two remaining handles
    become the ends of one new open pipe, each keeps its quotas (of messages and
    of bytes), and each finds in its queue what it already had waiting followed by what the other had
    sent and nobody had read: no message in flight is lost or reordered. *)
Theorem fuse_joins_flows {host : Host} c h0 h1 e0 e1 st0 st1 :
  wf c → Lookup c h0 = Some (pipe_slot e0) → Lookup c h1 = Some (pipe_slot e1) →
  h0 ≠ h1 → pe_state e0 ≠ pe_state e1 →
  pipe_states c !! pe_state e0 = Some st0 → pipe_states c !! pe_state e1 = Some st1 →
  wp (WhpFuseMessagePipes h0 h1) (λ r c',
    if sel (closed st0) (negb (pe_end e0)) || sel (closed st1) (negb (pe_end e1))
    then r = WHP_RESULT_FAILED_PRECONDITION ∧ c' = c
    else r = WHP_RESULT_OK ∧ Lookup c' h0 = None ∧ Lookup c' h1 = None ∧
      ∃ p0 p1 id,
        Lookup c p0 = Some (pipe_slot (peer_of e0)) ∧
        Lookup c p1 = Some (pipe_slot (peer_of e1)) ∧
        pipe_pair c' p0 p1 id false ∧
        inbox c' id false = inbox c (pe_state e0) (negb (pe_end e0))
                              ++ inbox c (pe_state e1) (pe_end e1) ∧
        inbox c' id true = inbox c (pe_state e1) (negb (pe_end e1))
                             ++ inbox c (pe_state e0) (pe_end e0) ∧
        (∃ st, pipe_states c' !! id = Some st ∧ closed st = mkTwo false false ∧
           sel (quota_count st) false = sel (quota_count st0) (negb (pe_end e0)) ∧
           sel (quota_count st) true = sel (quota_count st1) (negb (pe_end e1)) ∧
           sel (quota_bytes st) false = sel (quota_bytes st0) (negb (pe_end e0)) ∧
           sel (quota_bytes st) true = sel (quota_bytes st1) (negb (pe_end e1))) ∧
        ∀ h, 0 < h → h ≠ h0 → h ≠ h1 → h ≠ p0 → h ≠ p1 → same_handle c c' h) c.
Proof.
  intros Hwf H0 H1 Hh Hne S0 S1. eapply wp_mono; [by eapply wp_fuse|].
  intros r c'. cbv beta. destruct (_ || _); [done|].
  intros (-> & [D0 D1 (p0 & p1 & id & P0 & P1 & Hp & _ & E & R)]).
  split_and!; [done..|]. exists p0, p1, id. unfold inbox.
  rewrite E, lookup_insert_eq, S0, S1. split_and!; try done. by eexists.
Qed.

(** Two pipes, (1, 2) and (3, 4), with a message waiting at 2. *)
Definition two_pipes : Core :=
  run_actions [A_CreateMessagePipe true true; A_CreateMessagePipe true true;
    A_CreateMessage true; A_AppendMessageData 5 3 [] None; A_WriteMessage 1 5]
    Core_init.

Lemma two_pipes_wf : wf two_pipes.
Proof. apply run_actions_wf. repeat constructor. Qed.

Lemma fuse_joins_flows_witness :
  wp (WhpFuseMessagePipes 2 3) (λ r c',
    r = WHP_RESULT_OK ∧ Lookup c' 2 = None ∧ Lookup c' 3 = None ∧
    ∃ p0 p1 id, Lookup two_pipes p0 = Some (pipe_slot (mkPipeEnd 0 false)) ∧
      Lookup two_pipes p1 = Some (pipe_slot (mkPipeEnd 1 true)) ∧
      inbox c' id true = inbox two_pipes 1 true ++ inbox two_pipes 0 true) two_pipes.
Proof.
  eapply wp_mono.
  - eapply (fuse_joins_flows two_pipes 2 3 (mkPipeEnd 0 true) (mkPipeEnd 1 false));
      [exact two_pipes_wf|by vm_compute..].
  - intros r c' (? & ? & ? & p0 & p1 & id & ? & ? & ? & ? & ? & ?).
    split_and!; try done. by exists p0, p1, id.
Defined.

(** Closing one end of a pipe is visible to the other end and takes
    nothing from it: its waiting messages stay, its signals report
    PEER_CLOSED and no longer WRITABLE, and READABLE stays satisfied exactly
    while messages are left. *)
Theorem close_seen_by_peer {host : Host} a b id x c :
  wf c → pipe_pair c a b id x → a ≠ b →
  wp (WhpClose_locked a) (λ rd c', ∃ sg,
    rd = (WHP_RESULT_OK, None) ∧
    Lookup c' b = Some (pipe_slot (mkPipeEnd id (negb x))) ∧
    inbox c' id (negb x) = inbox c id (negb x) ∧
    QueryLocked c' b = Some sg ∧
    Z.testbit (satisfied_signals sg) 2 = true ∧
    Z.testbit (satisfied_signals sg) 1 = false ∧
    Z.testbit (satisfiable_signals sg) 1 = false ∧
    (Z.testbit (satisfied_signals sg) 0 = true ↔ inbox c id (negb x) ≠ [])) c.
Proof.
  intros Hwf Hp Hab. destruct (pipe_pair_state _ _ _ _ _ Hwf Hp) as [st Hst].
  destruct Hp as [Ha Hb].
  eapply wp_mono; [eapply wp_and; [by eapply wp_close_pipe|by eapply wp_close]|].
  intros rd c' [(-> & E) (_ & _ & _ & Hs & _)]. simpl in E.
  assert (Lookup c' b = Some (pipe_slot (mkPipeEnd id (negb x)))) as Hb'.
  { eapply same_handle_keep; [by apply Hs|done|done]. }
  set (st' := mkPipeState _ _ _ _) in E.
  exists (PipeSignals (negb x) st').
  split_and!; [done|exact Hb'|unfold inbox; by rewrite E, lookup_insert_eq, Hst|
    unfold QueryLocked; rewrite Hb', E; simpl; by rewrite lookup_insert_eq|..];
    unfold PipeSignals, st', inbox; simpl; rewrite negb_involutive, sel_upd_eq, ?Hst; simpl;
    destruct (bool_decide_reflect (sel (queues st) (negb x) = [])); simpl; done.
Qed.

Lemma close_seen_by_peer_witness :
  wp (WhpClose_locked 1) (λ rd c', ∃ sg,
    rd = (WHP_RESULT_OK, None) ∧
    Lookup c' 2 = Some (pipe_slot (mkPipeEnd 0 true)) ∧
    inbox c' 0 true = inbox two_pipes 0 true ∧
    QueryLocked c' 2 = Some sg ∧
    Z.testbit (satisfied_signals sg) 2 = true ∧
    Z.testbit (satisfied_signals sg) 1 = false ∧
    Z.testbit (satisfiable_signals sg) 1 = false ∧
    (Z.testbit (satisfied_signals sg) 0 = true ↔ inbox two_pipes 0 true ≠ [])) two_pipes.
Proof.
  apply (close_seen_by_peer 1 2 0 false two_pipes two_pipes_wf); by vm_compute.
Defined.


(** A data pipe of two-byte elements and eight bytes: producer 1, consumer 2. *)
Definition ring_state : DataPipeState :=
  mkDataPipeState 2 8 (replicate 8 0) 0 0 0 false false None 0 None 0.
Definition ring_demo : Core :=
  run_actions [A_CreateDataPipe (Some (2, 8)) true true] Core_init.

Lemma ring_demo_wf : wf ring_demo.
Proof. apply run_actions_wf. repeat constructor; done. Qed.

Lemma ring_demo_pair : data_pair ring_demo 1 2 0 ring_state.
Proof.
  split; [by vm_compute..|]. split; [|done|done].
  split; simpl; lia.
Qed.

(** C5: a data pipe whose ring is in step is a FIFO of bytes.  In any sequence
    of writes and reads, whatever their sizes and outcomes, the bytes waiting
    at first followed by those the writes accepted are those the reads
    delivered followed by those still waiting, and the ring stays in step. *)
Theorem data_fifo {host : Host} p cn id ops c s :
  wf c → data_pair c p cn id s → Forall data_op_ok ops →
  wp (run_data p cn ops) (λ wg c',
    waiting c id ++ fst wg = snd wg ++ waiting c' id ∧
    ∃ s', data_pair c' p cn id s') c.
Proof. apply run_data_waiting. Qed.

Definition data_ops : list data_op :=
  [Put [1; 2; 3; 4; 5; 6]; Take 4; Put [7; 8; 9; 10]; Take 1; Take 20].

Lemma data_fifo_witness :
  wp (run_data 1 2 data_ops) (λ wg c',
    waiting ring_demo 0 ++ fst wg = snd wg ++ waiting c' 0 ∧
    ∃ s', data_pair c' 1 2 0 s') ring_demo.
Proof.
  apply (data_fifo 1 2 0 data_ops ring_demo ring_state ring_demo_wf ring_demo_pair).
  repeat constructor; done.
Defined.

(** The largest number of bytes that is a whole number of elements and fits both the
    request and the limit. *)
Definition fits (elem want limit m : Z) : Prop := 0 <= m ∧ m mod elem = 0 ∧ m <= want ∧ m <= limit.
Definition largest_fit (elem want limit n : Z) : Prop :=
  fits elem want limit n ∧ ∀ m, fits elem want limit m → m <= n.

Lemma decide_eqb (a b : Z) : (a =? b) = if decide (a = b) then true else false.
Proof. case_decide; [by apply Z.eqb_eq|by apply Z.eqb_neq]. Qed.
Lemma whole_largest elem want limit :
  0 < elem → 0 <= want → 0 <= limit → largest_fit elem want limit (whole elem (Z.min want limit)).
Proof.
  intros He Hw Hl. destruct (whole_spec elem (Z.min want limit) He ltac:(lia)) as [Hr Hm]. split.
  - unfold fits. lia.
  - intros m (H0 & Hmm & Hmw & Hml). unfold whole.
    pose proof (Z.div_mod m elem ltac:(lia)) as D1. pose proof (Z.div_mod (Z.min want limit) elem ltac:(lia)) as D2.
    pose proof (Z.div_le_mono m (Z.min want limit) elem He ltac:(lia)). nia.
Qed.

(** What a write of [es] comes to. *)
Definition write_outcome (c : Core) (p cn : Z) (id : nat) (s : DataPipeState) (es : list Z)
    (res : Z * option Z) (c' : Core) : Prop :=
  let want := Z.of_nat (length es) in
  if consumer_closed s then res = (WHP_RESULT_FAILED_PRECONDITION, None) ∧ c' = c
  else if decide (want mod element_size s = 0) then
    ∃ n, largest_fit (element_size s) want (capacity s - available s) n ∧
      if decide (n = 0) then res = (WHP_RESULT_SHOULD_WAIT, Some 0) ∧ c' = c
      else res = (WHP_RESULT_OK, Some n) ∧
        ∃ s', data_pair c' p cn id s' ∧ same_ends s s' ∧ content s' = content s ++ take (Z.to_nat n) es
  else res = (WHP_RESULT_INVALID_ARGUMENT, None) ∧ c' = c.
(** What a read of up to [want] bytes comes to. *)
Definition read_outcome (c : Core) (p cn : Z) (id : nat) (s : DataPipeState) (want : Z)
    (res : Z * option Z * list Z) (c' : Core) : Prop :=
  if decide (want mod element_size s = 0) then
    ∃ n, largest_fit (element_size s) want (available s) n ∧
      if decide (n = 0) then
        res = (if producer_closed s then WHP_RESULT_FAILED_PRECONDITION else WHP_RESULT_SHOULD_WAIT, Some 0, []) ∧ c' = c
      else ∃ xs s', res = (WHP_RESULT_OK, Some n, xs) ∧ Z.of_nat (length xs) = n ∧
        data_pair c' p cn id s' ∧ same_ends s s' ∧ content s = xs ++ content s'
  else res = (WHP_RESULT_INVALID_ARGUMENT, None, []) ∧ c' = c.



(** A two-phase write is a write.  Begin, filling [bs] through the
    returned pointer and End of [length bs] bytes append exactly [bs] to the
    bytes waiting and leave the ring in step with no transfer open, for any
    whole number of elements up to the size Begin offered. *)
Theorem two_phase_write_appends {host : Host} c p cn id s want n bs :
  wf c → data_pair c p cn id s → two_phase_write s = None → 0 <= want →
  n = whole (element_size s)
        (Z.min (Z.min (capacity s - available s) (capacity s - dp_w s)) want) →
  n ≠ 0 → Z.of_nat (length bs) <= n → Z.of_nat (length bs) mod element_size s = 0 →
  wp (let! _ := WhpBeginWriteData p true (Some want) in
      poke_two_phase p (dp_w s) bs ;;
      WhpEndWriteData p (Z.of_nat (length bs)))
    (λ r c', r = WHP_RESULT_OK ∧ waiting c' id = waiting c id ++ bs ∧
       ∃ s', data_pair c' p cn id s' ∧ two_phase_write s' = None) c.
Proof.
  intros Hwf Hd H2 Hw Hn Hn0 Hle Hmod.
  eapply wp_mono; [by eapply wp_two_phase|]. intros r c' [-> Hd']. split; [done|].
  rewrite (data_pair_waiting _ _ _ _ _ Hd), (data_pair_waiting _ _ _ _ _ Hd').
  split; [|by eauto]. destruct (whole_spec (element_size s)
    (Z.min (Z.min (capacity s - available s) (capacity s - dp_w s)) want)) as [Hwh _].
  - apply (ring_elem _ (sync_ok _ (dpr_sync _ _ _ _ _ Hd))).
  - pose proof (sync_avail _ (dpr_sync _ _ _ _ _ Hd)).
    pose proof (ring_w _ (sync_ok _ (dpr_sync _ _ _ _ _ Hd))). lia.
  - apply two_phase_sync; [apply Hd|lia..].
Qed.

Lemma two_phase_write_appends_witness :
  wp (let! _ := WhpBeginWriteData 1 true (Some 100) in
      poke_two_phase 1 0 [1; 2; 3; 4] ;; WhpEndWriteData 1 4)
    (λ r c', r = WHP_RESULT_OK ∧ waiting c' 0 = waiting ring_demo 0 ++ [1; 2; 3; 4] ∧
       ∃ s', data_pair c' 1 2 0 s' ∧ two_phase_write s' = None) ring_demo.
Proof.
  apply (two_phase_write_appends ring_demo 1 2 0 ring_state 100 8 [1; 2; 3; 4]
    ring_demo_wf ring_demo_pair); by vm_compute.
Defined.

(** Nothing stops [WhpWriteData] while a two-phase write is open, and
    [WhpEndWriteData] then adds to what that write added: in this run a pipe
    of four bytes reports eight available, and the next write, whose space is
    computed as a huge unsigned number, overwrites bytes nobody has read. *)
Theorem two_phase_overflows_capacity :
  ∃ c c' s, reachable c ∧ data_states c !! 0%nat = Some s ∧
    capacity s = 4 ∧ available s = 8 ∧
    WhpWriteData 1 [9; 9; 9; 9] (Some 4) c = Some ((WHP_RESULT_OK, Some 4), c').
Proof.
  exists (run_actions [A_CreateDataPipe (Some (1, 4)) true true;
    A_BeginWriteData 1 true (Some 4); A_WriteData 1 [1; 2; 3; 4] (Some 4);
    A_EndWriteData 1 4] Core_init).
  exists (run_actions [A_CreateDataPipe (Some (1, 4)) true true;
    A_BeginWriteData 1 true (Some 4); A_WriteData 1 [1; 2; 3; 4] (Some 4);
    A_EndWriteData 1 4; A_WriteData 1 [9; 9; 9; 9] (Some 4)] Core_init).
  eexists. split.
  - apply run_actions_reachable; [apply rtc_refl|]. repeat constructor; simpl; lia.
  - by vm_compute.
Qed.
