(* ===== verification/TrapProps.v ===== *)
(** * Properties of traps

    Delivery of trap events, arming, and the two places where the kernel
    loses or misdirects an event. *)
From S2P Require Import Prelude Core Traps Messages DataPipes Buffers Api.
From S2P Require Import CoreInv TrapsInv KernelInv TransferInv PipeSpec.
From S2P Require Import KernelProps.

#[local] Existing Instance posix_host.

(** ** Delivery, without the code's own tests *)

(** A wanted signal is one of the bits of [want]. *)
Definition wanted (want i : Z) : Prop := 0 <= i ∧ Z.testbit want i = true.
Definition hopeless (st : WhpHandleSignalsState) (want : Z) : Prop :=
  ∀ i, wanted want i → Z.testbit (satisfiable_signals st) i = false.
(** A trigger holds when all that it wants is there, or, if that is what it waits for,
    when nothing that it wants can be any more. *)
Definition holds (st : WhpHandleSignalsState) (trig : TrapTrigger) : Prop :=
  if decide (condition trig = WHP_TRIGGER_CONDITION_SIGNALS_UNSATISFIABLE)
  then hopeless st (signals trig)
  else ∀ i, wanted (signals trig) i → Z.testbit (satisfied_signals st) i = true.

(** What [ev] says of [trig], which held in [st]. *)
Definition reports (trig : TrapTrigger) (st : WhpHandleSignalsState) (ev : WhpTrapEvent) : Prop :=
  ∃ result, ev = mkTrapEvent sizeof_WhpTrapEvent 0 (trig_context trig) result st ∧
    (result = WHP_RESULT_OK ∨ result = WHP_RESULT_FAILED_PRECONDITION) ∧
    (result = WHP_RESULT_FAILED_PRECONDITION ↔
       condition trig = WHP_TRIGGER_CONDITION_SIGNALS_UNSATISFIABLE ∨ hopeless st (signals trig)).

(** The trap [th] is armed, has a handler and a trigger that holds; [e] is for its handler
    and reports the first of them. *)
Definition fires (c : Core) (th : Z) (e : PendingEvent) : Prop :=
  ∃ t hd before trig after st ev,
    Lookup c th = Some (trap_slot t) ∧ armed t = true ∧ handler t = Some hd ∧
    triggers t = before ++ trig :: after ∧
    QueryLocked c (watched trig) = Some st ∧ holds st trig ∧
    Forall (λ tr, ∀ st', QueryLocked c (watched tr) = Some st' → ¬ holds st' tr) before ∧
    e = mkPendingEvent hd ev ∧ reports trig st ev.

Definition disarm (s : Slot) : Slot :=
  match obj s with ObjTrap t => trap_slot (mkTrapObj (handler t) (triggers t) false) | _ => s end.

Lemma land_0_bits a b : Z.land a b = 0 ↔ ∀ i, wanted b i → Z.testbit a i = false.
Proof.
  split.
  - intros H i [Hi Hb]. apply (f_equal (λ x, Z.testbit x i)) in H.
    rewrite Z.land_spec, Z.bits_0, Hb in H. by rewrite andb_true_r in H.
  - intros H. apply Z.bits_inj'. intros i Hi. rewrite Z.land_spec, Z.bits_0.
    destruct (Z.testbit b i) eqn:Hb; [|by rewrite andb_false_r]. rewrite (H i); [done|by split].
Qed.
Lemma land_self_bits a b : Z.land a b = b ↔ ∀ i, wanted b i → Z.testbit a i = true.
Proof.
  split.
  - intros H i [Hi Hb]. apply (f_equal (λ x, Z.testbit x i)) in H.
    rewrite Z.land_spec, Hb in H. by rewrite andb_true_r in H.
  - intros H. apply Z.bits_inj'. intros i Hi. rewrite Z.land_spec.
    destruct (Z.testbit b i) eqn:Hb; [|by rewrite andb_false_r]. rewrite (H i); [done|by split].
Qed.
Lemma SignalsMatch_holds st trig : SignalsMatch st (signals trig) (condition trig) = true ↔ holds st trig.
Proof.
  unfold SignalsMatch, holds, hopeless. case_decide as Hc; [rewrite Hc; cbn|].
  - rewrite Z.eqb_eq. apply land_0_bits.
  - rewrite (proj2 (Z.eqb_neq _ _) Hc), Z.eqb_eq. apply land_self_bits.
Qed.

Lemma first_match_Some c ts trig st :
  first_match c ts = Some (Some (trig, st)) →
  ∃ before after, ts = before ++ trig :: after ∧ QueryLocked c (watched trig) = Some st ∧ holds st trig ∧
    Forall (λ tr, ∀ st', QueryLocked c (watched tr) = Some st' → ¬ holds st' tr) before.
Proof.
  induction ts as [|t ts IH]; simpl; [done|]. destruct (QueryLocked c (watched t)) as [s|] eqn:Hq; [|done]. simpl.
  destruct (SignalsMatch s _ _) eqn:Hm.
  - intros [= -> ->]. apply SignalsMatch_holds in Hm. by exists [], ts.
  - intros (b & a & -> & ? & ? & ?)%IH. exists (t :: b), a. split_and!; [done..|]. constructor; [|done].
    intros st' Hst. rewrite Hq in Hst. injection Hst as <-. rewrite <- SignalsMatch_holds. congruence.
Qed.
Lemma first_match_None c ts :
  first_match c ts = Some None → Forall (λ tr, ∀ st', QueryLocked c (watched tr) = Some st' → ¬ holds st' tr) ts.
Proof.
  induction ts as [|t ts IH]; simpl; [done|]. destruct (QueryLocked c (watched t)) as [s|] eqn:Hq; [|done]. simpl.
  destruct (SignalsMatch s _ _) eqn:Hm; [done|]. intros H. constructor; [|by apply IH].
  intros st' Hst. rewrite Hq in Hst. injection Hst as <-. rewrite <- SignalsMatch_holds. congruence.
Qed.

Lemma trap_event_reports trig st : reports trig st (trap_event trig st).
Proof.
  unfold trap_event, reports. eexists. split; [reflexivity|]. unfold hopeless. rewrite <- land_0_bits.
  destruct (Z.eqb_spec (condition trig) WHP_TRIGGER_CONDITION_SIGNALS_UNSATISFIABLE); cbn [orb]; [tauto|].
  destruct (Z.eqb_spec (Z.land (satisfiable_signals st) (signals trig)) 0); (split; [tauto|]); split; try tauto; done.
Qed.

(** One trap: it fires and is disarmed, or it does not and nothing changes. *)
Lemma collect_trap_fires c th :
  wf c →
  wp (collect_trap th) (λ _ c',
    (c' = c ∧ ∀ e, ¬ fires c th e) ∨
    ∃ e t, Lookup c th = Some (trap_slot t) ∧ fires c th e ∧ c' = set_pending (λ l, l ++ [e]) (set_slots
      (λ l, <[Z.to_nat th := trap_slot (mkTrapObj (handler t) (triggers t) false)]> l) c)) c.
Proof.
  intros Hwf. pose proof (wf_table _ Hwf) as Ht. unfold collect_trap. wp_step.
  destruct (Lookup c th) as [s|] eqn:Hl.
  2: { wp_step. left. split; [done|]. intros e (t & hd & b & tr & a & st & ev & H & _). congruence. }
  case_decide as Hk.
  2: { wp_step. left. split; [done|]. intros e (t & hd & b & tr & a & st & ev & H & _).
    rewrite Hl in H. by injection H as ->. }
  destruct (Lookup_trap _ _ _ Ht Hl Hk) as [t ->]. simpl. wp_step.
  assert (∀ e hd, fires c th e → pe_handler e = hd → armed t = true ∧ handler t = Some hd ∧
    first_match c (triggers t) ≠ Some None) as Hinv.
  { intros e hd (t' & hd' & b & tr & a & st & ev & H & Ha & Hh & Hts & Hq & Hho & Hb & -> & _) <-.
    rewrite Hl in H. injection H as <-. split_and!; [done..|]. intros Hn%first_match_None.
    rewrite Hts in Hn. apply Forall_app in Hn as [_ Hn]. inversion Hn as [|? ? Hx]; subst. by apply (Hx st). }
  destruct (handler t) as [hd|] eqn:Hh.
  2: { wp_step. left. split; [done|]. intros e H. by destruct (Hinv e _ H eq_refl) as (_ & ? & _). }
  destruct (armed t) eqn:Ha; simpl.
  2: { wp_step. left. split; [done|]. intros e H. by destruct (Hinv e _ H eq_refl) as (? & _ & _). }
  destruct (first_match_total c (triggers t) Hwf) as [m Hm]. rewrite Hm. wp_step.
  destruct m as [[trig st]|].
  2: { wp_step. left. split; [done|]. intros e H. by destruct (Hinv e _ H eq_refl) as (_ & _ & ?). }
  wp_step. pose proof Hl as (Hr & Hs & _)%Lookup_inv; [|done].
  apply store_slot_spec; [lia|]. wp_step. right.
  destruct (first_match_Some _ _ _ _ Hm) as (b & a & Hts & Hq & Hho & Hb).
  exists (mkPendingEvent hd (trap_event trig st)), t. rewrite Hh. split_and!; [done| |done].
  exists t, hd, b, trig, a, st, (trap_event trig st). split_and!; try done. apply trap_event_reports.
Qed.

(** After a trap has fired, the others fire as before, and it does not. *)
Lemma fires_after c th t evs c1 :
  wf c → Lookup c th = Some (trap_slot t) →
  c1 = set_pending (λ l, l ++ evs) (set_slots
    (λ l, <[Z.to_nat th := trap_slot (mkTrapObj (handler t) (triggers t) false)]> l) c) →
  trap_frame c c1 ∧ (∀ h, Lookup c1 h = if decide (h = th) then disarm <$> Lookup c h else Lookup c h) ∧
  ∀ th' e, fires c1 th' e ↔ th' ≠ th ∧ fires c th' e.
Proof.
  intros Hwf Hl E. pose proof (wf_table _ Hwf) as Ht.
  assert (trap_frame c c1) as Hf by (rewrite E; by apply disarm_frame).
  pose proof Hl as (Hr & Hs & _)%Lookup_inv; [|done].
  assert (∀ h, Lookup c1 h = if decide (h = th) then disarm <$> Lookup c h else Lookup c h) as Hlk.
  { intros h. case_decide as Hd.
    - subst h. rewrite Hl. cbn. rewrite E. by eapply (Lookup_stored c).
    - rewrite E. unfold Lookup. cbn. rewrite length_insert.
      destruct (decide (Z.to_nat h = Z.to_nat th)) as [Hn|Hn]; [|by rewrite list_lookup_insert_ne by done].
      destruct (_ || _) eqn:Hb; [done|]. exfalso. apply orb_false_iff in Hb as [Hb1 Hb2].
      rewrite Z.eqb_neq in Hb1. rewrite Z.leb_gt in Hb2. lia. }
  split_and!; [done..|]. intros th' e. unfold fires. split.
  - intros (t' & hd & b & tr & a & st & ev & H & Ha & Hh & Hts & Hq & Hho & Hb & He). rewrite Hlk in H.
    rewrite (trap_frame_query c c1) in Hq by done.
    case_decide as Hd; [|split; [done|]; exists t', hd, b, tr, a, st, ev; split_and!; try done].
    + subst. rewrite Hl in H. cbn in H. injection H as <-. done.
    + eapply Forall_impl; [exact Hb|]. intros x Hx st'. rewrite <- (trap_frame_query c c1) by done. apply Hx.
    + apply He.
    + apply He.
  - intros [Hne (t' & hd & b & tr & a & st & ev & H & Ha & Hh & Hts & Hq & Hho & Hb & He)].
    exists t', hd, b, tr, a, st, ev. rewrite Hlk, decide_False, (trap_frame_query c c1) by done.
    split_and!; try done; [|apply He..].
    eapply Forall_impl; [exact Hb|]. intros x Hx st'. rewrite (trap_frame_query c c1) by done. apply Hx.
Qed.

Lemma collect_traps_fires ths c :
  wf c →
  wp (collect_traps ths) (λ _ c', ∃ fs evs,
    trap_frame c c' ∧ pending_events c' = pending_events c ++ evs ∧ Forall2 (fires c) fs evs ∧
    fs `sublist_of` ths ∧ NoDup fs ∧ (∀ th e, th ∈ ths → fires c th e → th ∈ fs) ∧
    (∀ h, Lookup c' h = if decide (h ∈ fs) then disarm <$> Lookup c h else Lookup c h)) c.
Proof.
  revert c. induction ths as [|th ths IH]; intros c Hwf; simpl; wp_step.
  { exists [], []. rewrite app_nil_r. split_and!; [apply trap_frame_refl|done|constructor|done|constructor|set_solver|done]. }
  eapply wp_mono; [by apply collect_trap_fires|]. intros _ c1 [[-> Hno]|(e & t & Hl & He & E)].
  - eapply wp_mono; [by apply IH|]. intros _ c' (fs & evs & H1 & H2 & H3 & H4 & H5 & H6 & H7). exists fs, evs.
    split_and!; try done; [by constructor|]. intros th' e' [->|Hin]%elem_of_cons Hf; [by destruct (Hno e')|by eapply H6].
  - destruct (fires_after c th t [e] c1 Hwf Hl E) as (Hf & Hlk & Hfi).
    eapply wp_mono; [apply IH; by eapply trap_frame_wf|].
    intros _ c' (fs & evs & H1 & H2 & H3 & H4 & H5 & H6 & H7).
    assert (th ∉ fs) as Hth.
    { intros (i & Hi)%list_elem_of_lookup. destruct (Forall2_lookup_l _ _ _ _ _ H3 Hi) as (e' & _ & Hx).
      by apply Hfi in Hx as []. }
    exists (th :: fs), (e :: evs). split_and!.
    + by eapply trap_frame_trans.
    + rewrite H2, E. cbn. by rewrite <- app_assoc.
    + constructor; [done|]. eapply Forall2_impl; [exact H3|]. intros x y Hx. by apply Hfi.
    + by constructor.
    + by constructor.
    + intros th' e' Hin Hx. destruct (decide (th' = th)) as [->|Hne]; [by left|]. right.
      apply elem_of_cons in Hin as [?|Hin]; [done|]. apply (H6 th' e' Hin). by apply Hfi.
    + intros h. rewrite H7, Hlk. destruct (decide (h = th)) as [->|Hne].
      * rewrite (decide_False (P := th ∈ fs)), decide_True by (done || left). done.
      * destruct (decide (h ∈ fs)); [rewrite decide_True by (by right); done|].
        rewrite decide_False; [done|]. by rewrite elem_of_cons; intros [?|?].
Qed.

(** C7: [CollectTrapEvents] delivers exactly.  The traps of the list that are armed, have a
    handler and a trigger that holds (all its signals there, or, for the other condition,
    none of them possible any more) fire, each once, in the order of the list: each puts
    one event at the end of the queue, for its handler, about the first of its triggers
    that holds, with the state it saw and FAILED_PRECONDITION exactly if it waited for
    that or no wanted signal is possible; and each is disarmed.  No other trap is
    disarmed, no other event queued, and nothing else in the core changes. *)
Theorem collect_delivers c :
  wf c →
  wp CollectTrapEvents (λ _ c', ∃ fs evs,
    trap_frame c c' ∧ pending_events c' = pending_events c ++ evs ∧ Forall2 (fires c) fs evs ∧
    fs `sublist_of` traps c ∧ NoDup fs ∧ (∀ th e, th ∈ traps c → fires c th e → th ∈ fs) ∧
    (∀ h, Lookup c' h = if decide (h ∈ fs) then disarm <$> Lookup c h else Lookup c h)) c.
Proof. intros Hwf. unfold CollectTrapEvents. wp_step. by apply collect_traps_fires. Qed.

(** The demo core after a message reached handle 2, before delivery. *)
Definition demo_ready : Core := set_pipes (λ m,
  <[0%nat := set_queue true [MessageObj_init] PipeState_init]> m) demo.

Lemma demo_ready_wf : wf demo_ready.
Proof. eapply (wf_put_pipe demo 0 PipeState_init); [exact demo_wf|done|done]. Qed.

Lemma collect_delivers_witness :
  wp CollectTrapEvents (λ _ c', ∃ fs evs,
    trap_frame demo_ready c' ∧ pending_events c' = pending_events demo_ready ++ evs ∧
    Forall2 (fires demo_ready) fs evs ∧ fs `sublist_of` traps demo_ready ∧ NoDup fs ∧
    (∀ th e, th ∈ traps demo_ready → fires demo_ready th e → th ∈ fs) ∧
    (∀ h, Lookup c' h = if decide (h ∈ fs) then disarm <$> Lookup demo_ready h else Lookup demo_ready h))
    demo_ready.
Proof. apply (collect_delivers demo_ready demo_ready_wf). Defined.

(** The triggers of [ts] that hold, in order, with the state each saw. *)
Lemma blocking_triggers_spec c ts bs :
  blocking_triggers c ts = Some bs →
  (bs = [] ↔ first_match c ts = Some None) ∧
  (∀ trig st, (trig, st) ∈ bs ↔
     trig ∈ ts ∧ QueryLocked c (watched trig) = Some st ∧
     SignalsMatch st (signals trig) (condition trig) = true) ∧
  (length bs <= length ts)%nat.
Proof.
  revert bs. induction ts as [|t ts IH]; intros bs; simpl.
  { intros [= <-]. split_and!; [done|set_solver|simpl; lia]. }
  destruct (QueryLocked c (watched t)) as [st|] eqn:Hq; [|done]. simpl.
  destruct (blocking_triggers c ts) as [bs'|]; [|done].
  destruct (IH bs' eq_refl) as (H1 & H2 & H3). simpl. intros [= <-].
  destruct (SignalsMatch st _ _) eqn:Hm; simpl; split_and!; try done; try lia.
  - intros trig st'. rewrite !elem_of_cons, H2. split.
    + intros [[= -> ->]|(? & ? & ?)]; auto.
    + intros ([->|?] & Hx & ?); [left; congruence|auto].
  - intros trig st'. rewrite elem_of_cons, H2. split.
    + intros (? & ? & ?); auto.
    + intros ([->|?] & Hx & ?); [congruence|auto].
Qed.

(** Queries do not read trap objects. *)
Lemma query_store_trap c th t t' h :
  wf c → Lookup c th = Some (trap_slot t) →
  QueryLocked (set_slots (λ l, <[Z.to_nat th := trap_slot t']> l) c) h = QueryLocked c h.
Proof.
  intros Hwf Hl. pose proof Hl as (Hr & Hs & _)%Lookup_inv; [|apply Hwf].
  unfold QueryLocked, Lookup. simpl. rewrite length_insert.
  destruct (_ || _); [done|]. destruct (decide (Z.to_nat h = Z.to_nat th)) as [->|Hne].
  - rewrite list_lookup_insert_eq by lia. by rewrite Hs.
  - by rewrite list_lookup_insert_ne by done.
Qed.

Lemma first_match_store_trap c th t t' ts :
  wf c → Lookup c th = Some (trap_slot t) →
  first_match (set_slots (λ l, <[Z.to_nat th := trap_slot t']> l) c) ts = first_match c ts.
Proof.
  intros Hwf Hl. induction ts as [|x ts IH]; simpl; [done|].
  by rewrite (query_store_trap c th t t' _ Hwf Hl), IH.
Qed.

(** The outcome of arming the trap [t] under [th]: [bs] are the triggers that
    hold. *)
Definition arm_post (c : Core) (th : Z) (t : TrapObj) (num : option Z) (evs : bool)
    (res : Z * option Z * list WhpTrapEvent) (c' : Core) : Prop :=
  let '(r, count, written) := res in
  ∃ bs,
    (∀ trig st, (trig, st) ∈ bs ↔
       trig ∈ triggers t ∧ QueryLocked c (watched trig) = Some st ∧
       SignalsMatch st (signals trig) (condition trig) = true) ∧
    if decide (bs = []) then
      r = WHP_RESULT_OK ∧ count = None ∧ written = [] ∧
      Lookup c' th = Some (trap_slot (mkTrapObj (handler t) (triggers t) true)) ∧
      quiet c' th ∧ ∀ h, 0 < h → h ≠ th → Lookup c' h = Lookup c h
    else
      r = WHP_RESULT_FAILED_PRECONDITION ∧ c' = c ∧
      match num with
      | Some n => count = Some (u32 (Z.of_nat (length bs))) ∧
                  (evs = true → written = map blocking_event (take (Z.to_nat n) bs))
      | None => count = None ∧ written = []
      end.

(** [WhpArmTrap] arms exactly when no trigger of the trap holds; then the
    trap is armed and nothing else changes.  Otherwise it stays as it was, the
    answer is [FAILED_PRECONDITION], the count written back is the number of
    triggers that hold, and the caller's array receives the first of them, as
    many as it has room for, each with the state that blocked it. *)
Theorem arm_trap_outcomes {host : Host} c th t num evs :
  wf c → Lookup c th = Some (trap_slot t) →
  wp (WhpArmTrap th num evs) (arm_post c th t num evs) c.
Proof.
  intros Hwf Hl. unfold WhpArmTrap. wp_step. rewrite Hl. simpl. wp_step.
  destruct (blocking_triggers_total c (triggers t) Hwf) as [bs Hbs]. rewrite Hbs. wp_step.
  destruct (blocking_triggers_spec c (triggers t) bs Hbs) as (B1 & B2 & _).
  pose proof Hl as (Hr & Hs & _)%Lookup_inv; [|apply Hwf].
  case_decide as Hb.
  - wp_step. apply store_slot_spec; [lia|]. wp_step. exists bs. split; [done|].
    rewrite decide_True by done. split_and!; try done.
    + by eapply Lookup_stored; [apply Hwf|..].
    + assert (Lookup (set_slots (λ l, <[Z.to_nat th := trap_slot
        (mkTrapObj (handler t) (triggers t) true)]> l) c) th =
        Some (trap_slot (mkTrapObj (handler t) (triggers t) true))) as Hl'.
      { by eapply Lookup_stored; [apply Hwf|..]. }
      intros t' Ht' _ _. pose proof (eq_trans (eq_sym Hl') Ht') as [= <-]. simpl.
      etrans; [exact (first_match_store_trap c th t _ _ Hwf Hl)|by apply B1].
    + intros h Hh Hne. unfold Lookup. simpl. rewrite length_insert.
      by rewrite list_lookup_insert_ne by lia.
  - wp_step. exists bs. split; [done|]. rewrite decide_False by done.
    split_and!; try done. destruct num; [|done]. split; [done|]. by intros ->.
Qed.

Lemma arm_trap_outcomes_witness :
  wp (WhpArmTrap 5 (Some 4) true)
    (arm_post demo_ready 5 (mkTrapObj (Some 7) [mkTrapTrigger 2 1 0 42] true) (Some 4) true)
    demo_ready.
Proof. apply (arm_trap_outcomes demo_ready 5); [exact demo_ready_wf|by vm_compute]. Defined.

(** ** Lost and misdirected events *)

(** A trap (4) armed for READABLE on handle 2 becoming unsatisfiable; the last
    message of the closed pipe is then read. *)
Definition lost_wakeup_actions : list action :=
  [A_CreateMessagePipe true true; A_CreateMessage true; A_WriteMessage 1 3;
   A_CreateTrap (Some 7) true;
   A_AddTrigger 3 2 WHP_HANDLE_SIGNAL_READABLE
     WHP_TRIGGER_CONDITION_SIGNALS_UNSATISFIABLE 42;
   A_Close 1; A_ArmTrap 3 None false; A_ReadMessage 2 true].

(** [WhpReadMessage] does not collect trap events, so a wake-up can be
    missed: in this run the read takes the last message of a pipe whose other
    end is closed, READABLE becomes unsatisfiable, the armed trap that waits
    for that holds, and no event is queued. *)
Theorem read_misses_wakeup :
  ∃ c th t, reachable c ∧ Lookup c th = Some (trap_slot t) ∧ th ∈ traps c ∧
    armed t = true ∧ (∃ m, first_match c (triggers t) = Some (Some m)) ∧
    pending_events c = [].
Proof.
  exists (run_actions lost_wakeup_actions Core_init), 3,
    (mkTrapObj (Some 7) [mkTrapTrigger 2 1 1 42] true).
  split; [apply run_actions_reachable; [apply rtc_refl|repeat constructor]|].
  split_and!; [by vm_compute|by vm_compute; left|done| |by vm_compute].
  eexists. by vm_compute.
Qed.

(** Two traps (3 and 4, handlers 7 and 8) watch handle 2 with the same
    context; both fire, then the first is closed. *)
Definition shared_context_actions : list action :=
  [A_CreateMessagePipe true true; A_CreateTrap (Some 7) true;
   A_CreateTrap (Some 8) true;
   A_AddTrigger 3 2 WHP_HANDLE_SIGNAL_READABLE 0 42;
   A_AddTrigger 4 2 WHP_HANDLE_SIGNAL_READABLE 0 42;
   A_ArmTrap 3 None false; A_ArmTrap 4 None false;
   A_CreateMessage true; A_WriteMessage 1 5].

(** [WhpClose] of a trap withdraws pending events by context alone, so it
    can drop another trap's event: in this run the event of trap 4 (handler 8)
    is queued before trap 3 is closed and gone afterwards, although trap 4 is
    live, disarmed and was never notified. *)
Theorem close_trap_drops_foreign_event :
  ∃ c c' t ev, reachable c ∧
    exec (A_Close 3) c = Some (tt, c') ∧
    pe_handler ev = 8 ∧ ev ∈ pending_events c ∧ pending_events c' = [] ∧
    Lookup c' 4 = Some (trap_slot t) ∧ handler t = Some 8 ∧ armed t = false.
Proof.
  exists (run_actions shared_context_actions Core_init),
    (run_actions (shared_context_actions ++ [A_Close 3]) Core_init),
    (mkTrapObj (Some 8) [mkTrapTrigger 2 1 0 42] false),
    (mkPendingEvent 8 (mkTrapEvent 32 0 42 0 (mkSignals 3 7))).
  split; [apply run_actions_reachable; [apply rtc_refl|repeat constructor]|].
  split_and!; [by vm_compute|done| |by vm_compute..].
  vm_compute. right. left.
Qed.
