(* ===== verification/BufferProps.v ===== *)
(** * Properties of shared buffers, platform handles and message payloads *)
From S2P Require Import Prelude Core Traps Messages DataPipes Buffers Api.
From S2P Require Import CoreInv TrapsInv KernelInv TransferInv PipeSpec.
From S2P Require Import KernelProps.

#[local] Existing Instance posix_host.

(** ** Closing a buffer handle *)

(** Whether anything but the handle [h] keeps buffer [id] alive. *)
Definition kept_alive (c : Core) (h : Z) (id : nat) : Prop :=
  (∃ h', h' ≠ h ∧ Lookup c h' = Some (buffer_slot id)) ∨
  (∃ p r, maps c !! p = Some r ∧ mr_buf r = id).

Section close_buffer.
Context {host : Host}.

Lemma in_use_after_free c h id :
  wf c → Lookup c h = Some (buffer_slot id) →
  buffer_in_use (set_slots (λ l, <[Z.to_nat h := free_slot]> l) c) id = true ↔
  kept_alive c h id.
Proof.
  intros Hwf Hl. pose proof Hl as (Hr & Hs & _)%Lookup_inv; [|apply Hwf].
  rewrite buffer_in_use_spec.
  2: { intros i s [[_ ->]|[_ Hi]]%list_lookup_insert_cases; [done|by eapply Hwf]. }
  unfold kept_alive. simpl. f_equiv. split.
  - intros [i [Hi Hb]%freed_at]; [|done]. exists (Z.of_nat i).
    split; [lia|]. apply Lookup_slot; [done|done|].
    destruct i; [|lia]. pose proof (table_slot0 _ _ (wf_table _ Hwf)) as H0.
    unfold buf_at in Hb. by rewrite Hb in H0.
  - intros (h' & Hne & Hl'). exists (Z.to_nat h').
    apply Lookup_inv in Hl' as (Hr' & Hs' & _); [|apply Hwf].
    apply freed_at; [done|]. split; [lia|done].
Qed.

Lemma wp_close_buffer c h id b :
  wf c → Lookup c h = Some (buffer_slot id) → buffers c !! id = Some b →
  wp (WhpClose_locked h) (λ rd c', rd = (WHP_RESULT_OK, None) ∧
    ((kept_alive c h id ∧ native_closed c' = native_closed c ∧ buffers c' = buffers c) ∨
     (¬ kept_alive c h id ∧
      native_closed c' = native_closed c ++ SharedBufferObj_dtor b ∧
      buffers c' = delete id (buffers c)))) c.
Proof.
  intros Hwf Hl Hb. pose proof Hl as (Hr & Hs & _)%Lookup_inv; [|apply Hwf].
  pose proof (in_use_after_free c h id Hwf Hl) as Hu.
  assert (wp (Free h) (λ _ c', wf c' ∧
    ((kept_alive c h id ∧ native_closed c' = native_closed c ∧ buffers c' = buffers c) ∨
     (¬ kept_alive c h id ∧
      native_closed c' = native_closed c ++ SharedBufferObj_dtor b ∧
      buffers c' = delete id (buffers c)))) c) as HF.
  { apply wp_and; [by eapply wp_Free_buffer|].
    unfold Free. wp_step. destruct (Z.eqb_spec h 0); [lia|].
    destruct (Z.leb_spec (Z.of_nat (length (slots c))) h); [lia|]. simpl.
    rewrite Hs. wp_step. apply store_slot_spec; [lia|]. wp_step. simpl.
    unfold release_buffer. wp_step.
    destruct (buffer_in_use _ id); wp_step.
    - left. split; [by apply Hu|done].
    - simpl. rewrite Hb. wp_step. right. simpl. split; [|done].
      rewrite <- Hu. done. }
  unfold WhpClose_locked. wp_step. rewrite Hl. wp_step. unfold close_kind. simpl. wp_step.
  eapply wp_mono; [exact HF|]. intros [] c1 [Hwf1 Hor]. wp_step.
  apply CollectTrapEvents_wf; [done|]. intros c2 _ Hf. wp_step. split; [done|].
  rewrite (ss_native _ _ (trap_frame_stores _ _ Hf)).
  by rewrite (ss_buffers _ _ (trap_frame_stores _ _ Hf)).
Qed.
End close_buffer.

(** A shared buffer lives exactly as long as something refers to it.
    Closing one of its handles destroys it, giving its native handles back to
    the system, when no other handle and no mapped region refers to it, and
    otherwise leaves it and the system alone. *)
Theorem buffer_released_with_last_reference {host : Host} c h id b :
  wf c → Lookup c h = Some (buffer_slot id) → buffers c !! id = Some b →
  wp (WhpClose_locked h) (λ rd c', rd = (WHP_RESULT_OK, None) ∧
    ((kept_alive c h id ∧ native_closed c' = native_closed c ∧ buffers c' = buffers c) ∨
     (¬ kept_alive c h id ∧
      native_closed c' = native_closed c ++ SharedBufferObj_dtor b ∧
      buffers c' = delete id (buffers c)))) c.
Proof. apply wp_close_buffer. Qed.

(** A region of 4096 bytes over file descriptor 9 (handle 1), duplicated
    (handle 2). *)
Definition region_demo : Core :=
  run_actions [A_WrapRegion (Some [(1, 9)]) 4096 0 0 0 true;
               A_DuplicateBufferHandle 1 true] Core_init.

Lemma region_demo_wf : wf region_demo.
Proof. apply run_actions_wf. repeat constructor. Qed.

Definition region_buffer : SharedBufferObj :=
  mkSharedBufferObj 0 4096 (mkTwo 1 0) (mkTwo 9 0) 1 true 0 0 0 false 0.

Lemma buffer_released_with_last_reference_witness :
  wp (WhpClose_locked 1) (λ rd c', rd = (WHP_RESULT_OK, None) ∧
    ((kept_alive region_demo 1 0 ∧ native_closed c' = native_closed region_demo ∧
      buffers c' = buffers region_demo) ∨
     (¬ kept_alive region_demo 1 0 ∧
      native_closed c' = native_closed region_demo ++ SharedBufferObj_dtor region_buffer ∧
      buffers c' = delete 0%nat (buffers region_demo)))) region_demo.
Proof.
  apply (buffer_released_with_last_reference region_demo 1 0 region_buffer);
    [exact region_demo_wf|by vm_compute..].
Defined.

(** ** Mapping *)

(** The bytes a mapping may cover. *)
Definition buffer_span (b : SharedBufferObj) : Z :=
  if sb_os_base b then sb_size b else sb_bytes b.

(** Mapping stays in bounds as long as the request does not overflow.  If
    [offset + num_bytes] is below 2^64, [WhpMapBuffer] succeeds exactly when
    the buffer can be mapped and the range lies inside it; it then counts one
    more reference to that address, and [WhpUnmapBuffer] of the address takes
    it back and restores the table of mapped regions. *)
Theorem map_in_bounds {host : Host} c h id b b' off n :
  wf c → Lookup c h = Some (buffer_slot id) → buffers c !! id = Some b →
  EnsureMapped b = Some b' → 0 <= off → 0 <= n → off + n < 2 ^ 64 →
  wp (WhpMapBuffer h off n true) (λ r c',
    if buffer_span b' <? off + n
    then r = (WHP_RESULT_OUT_OF_RANGE, None) ∧ maps c' = maps c
    else r = (WHP_RESULT_OK, Some (id, off)) ∧
         wp (WhpUnmapBuffer (id, off))
           (λ r' c'', r' = WHP_RESULT_OK ∧ maps c'' = maps c) c') c.
Proof.
  intros Hwf Hl Hb He Ho Hn Hlt. unfold WhpMapBuffer, with_buffer, with_kind. simpl.
  wp_step. rewrite Hl. simpl. wp_step. unfold get_buffer. wp_step. rewrite Hb. wp_step.
  rewrite He. unfold put_buffer. wp_step. rewrite (u64_small (off + n)) by lia.
  fold (buffer_span b'). destruct (buffer_span b' <? off + n); wp_step; [done|].
  split; [done|]. unfold WhpUnmapBuffer. wp_step. simpl. rewrite lookup_insert_eq. simpl.
  pose proof (λ r, bufs_map _ _ _ (wf_bufs _ Hwf) (id, off) r) as Hm.
  match goal with
  | |- context [match ?x with Some r => mr_refs r | None => 0 end] =>
      destruct x as [r|] eqn:E
  end; simpl.
  - destruct (Hm r E) as (_ & Hp & Hid). simpl in Hid.
    destruct (Z.leb_spec (mr_refs r + 1) 0); [lia|].
    destruct (Z.eqb_spec (mr_refs r + 1 - 1) 0); [lia|]. wp_step. split; [done|].
    simpl. rewrite insert_insert_eq. apply insert_id. etrans; [exact E|]. f_equal.
    destruct r as [x y]. simpl in *. subst x. f_equal. lia.
  - wp_step. unfold release_buffer. wp_step.
    assert (delete (id, off) (<[(id, off) := mkMappedRegion id 1]> (maps c)) = maps c) as Ed.
    { by rewrite delete_insert_eq, delete_id. }
    destruct (buffer_in_use _ id); wp_step; [by split|].
    simpl. rewrite lookup_insert_eq. wp_step. by split.
Qed.

(** An anonymous buffer of 100 bytes (handle 1). *)
Definition buffer_demo : Core := run_actions [A_CreateSharedBuffer 100 true] Core_init.
Definition buffer_100 : SharedBufferObj :=
  mkSharedBufferObj 100 100 (mkTwo 0 0) (mkTwo 0 0) 0 false 0 0 0 false 0.

Lemma buffer_demo_wf : wf buffer_demo.
Proof. apply run_actions_wf. repeat constructor. Qed.

Lemma map_in_bounds_witness :
  wp (WhpMapBuffer 1 40 60 true) (λ r c',
    r = (WHP_RESULT_OK, Some (0%nat, 40)) ∧
    wp (WhpUnmapBuffer (0%nat, 40))
      (λ r' c'', r' = WHP_RESULT_OK ∧ maps c'' = maps buffer_demo) c') buffer_demo.
Proof.
  apply (map_in_bounds buffer_demo 1 0 buffer_100 buffer_100 40 60);
    [exact buffer_demo_wf|by vm_compute|by vm_compute|by vm_compute|lia..].
Defined.

(** The range check of [WhpMapBuffer] adds in 64 bits without an overflow
    test: an offset near 2^64 passes it, and the address returned lies far
    outside the buffer. *)
Theorem map_offset_overflow :
  ∃ c c' b off n, reachable c ∧ buffers c !! 0%nat = Some b ∧ sb_size b = 100 ∧
    0 <= off < 2 ^ 64 ∧ 0 <= n < 2 ^ 64 ∧ 100 < off ∧
    WhpMapBuffer 1 off n true c = Some ((WHP_RESULT_OK, Some (0%nat, off)), c').
Proof.
  exists buffer_demo,
    (run_actions [A_CreateSharedBuffer 100 true; A_MapBuffer 1 (2 ^ 64 - 16) 32 true] Core_init),
    buffer_100, (2 ^ 64 - 16), 32.
  split; [apply run_actions_reachable; [apply rtc_refl|repeat constructor]|].
  by vm_compute.
Qed.

(** ** Platform handles *)

Definition platform_slot (p : PlatformObj) : Slot :=
  mkSlot HandleKind_Platform (ObjPlatform p).

(** A wrapped native handle has one owner.  Unwrapping it returns the very
    type and value that were wrapped, kills the kernel handle and closes
    nothing; closing the kernel handle instead gives the native handle back to
    the system exactly once.  Either way the kernel handle is dead, so neither
    can happen again. *)
Theorem platform_handle_one_owner {host : Host} c h t v :
  wf c → Lookup c h = Some (platform_slot (mkPlatformObj t v true)) →
  wp (WhpUnwrapPlatformHandle h true true) (λ r c',
    r = (WHP_RESULT_OK, Some (t, v)) ∧ Lookup c' h = None ∧
    native_closed c' = native_closed c) c ∧
  wp (WhpClose_locked h) (λ r c',
    r = (WHP_RESULT_OK, None) ∧ Lookup c' h = None ∧
    native_closed c' = native_closed c ++ CloseNativePlatform t v) c.
Proof.
  intros Hwf Hl. pose proof Hl as (Hr & Hs & _)%Lookup_inv; [|apply Hwf].
  set (dead := platform_slot (mkPlatformObj t v false)).
  assert (∀ c1, slots c1 = slots c → free_list c1 = free_list c →
    wf c1 → wp (store_slot h dead ;; Free h) (λ _ c', wf c' ∧ Lookup c' h = None ∧
      native_closed c' = native_closed c1) c1) as Hfree.
  { intros c1 E1 E2 Hwf1. wp_step.
    assert (Lookup c1 h = Some (platform_slot (mkPlatformObj t v true))) as Hl1.
    { by rewrite (Lookup_ext c1 c). }
    eapply wp_store_inert; [done|exact Hl1|done..|]. intros Hwf2.
    pose proof (Lookup_stored c1 h _ dead (wf_table _ Hwf1) Hl1 ltac:(done)) as Hl2.
    eapply wp_Free; [apply Hwf2|exact Hl2|done|].
    split; [by eapply wf_Free|]. split; [|done].
    apply (freed_lookup _ h dead (wf_table _ Hwf2) Hl2). done. }
  split.
  - unfold WhpUnwrapPlatformHandle, with_kind. simpl. wp_step. rewrite Hl. simpl. wp_step.
    pose proof (Hfree c eq_refl eq_refl Hwf) as H. rewrite wp_bind in H.
    eapply wp_mono; [exact H|]. intros [] c1 H1. wp_step.
    eapply wp_mono; [exact H1|]. intros [] c2 (_ & ? & ?). by wp_step.
  - unfold WhpClose_locked. wp_step. rewrite Hl. wp_step. unfold close_kind. simpl. wp_step.
    simpl. wp_step. pose proof (Hfree (log_native (CloseNativePlatform t v) c) eq_refl eq_refl
      (wf_log_native _ _ Hwf)) as H. rewrite wp_bind in H.
    eapply wp_mono; [exact H|]. intros [] c1 H1. wp_step.
    eapply wp_mono; [exact H1|]. intros [] c2 (Hwf2 & Hd & E). wp_step.
    apply CollectTrapEvents_wf; [done|]. intros c3 _ Hf. wp_step. split; [done|]. split.
    + eapply same_handle_none; [by apply trap_frame_same|done].
    + by rewrite (ss_native _ _ (trap_frame_stores _ _ Hf)), E.
Qed.

(** File descriptor 9 wrapped as handle 1. *)
Definition platform_demo : Core := run_actions [A_WrapPlatformHandle 1 9 true] Core_init.

Lemma platform_handle_one_owner_witness :
  wp (WhpUnwrapPlatformHandle 1 true true) (λ r c',
    r = (WHP_RESULT_OK, Some (1, 9)) ∧ Lookup c' 1 = None ∧
    native_closed c' = native_closed platform_demo) platform_demo ∧
  wp (WhpClose_locked 1) (λ r c',
    r = (WHP_RESULT_OK, None) ∧ Lookup c' 1 = None ∧
    native_closed c' = native_closed platform_demo ++ CloseNativePlatform 1 9) platform_demo.
Proof.
  apply (platform_handle_one_owner platform_demo 1 1 9); [|by vm_compute].
  apply run_actions_wf. repeat constructor.
Defined.

(** ** Message payloads *)

Lemma append_bytes (b : list Z) n :
  0 <= n →
  (if n =? 0 then b else resize (Z.of_nat (length b) + n) b)
  = b ++ replicate (Z.to_nat n) 0.
Proof.
  intros Hn. destruct (Z.eqb_spec n 0) as [->|]; [by rewrite app_nil_r|].
  unfold resize. rewrite take_ge by lia. f_equal. f_equal. lia.
Qed.

Lemma flag_commit fl :
  negb (Z.land fl WHP_APPEND_MESSAGE_DATA_FLAG_COMMIT_SIZE =? 0) = Z.testbit fl 0.
Proof.
  unfold WHP_APPEND_MESSAGE_DATA_FLAG_COMMIT_SIZE.
  change (Z.shiftl 1 0) with (Z.ones 1). rewrite Z.land_ones by done.
  rewrite <- Z.bit0_mod. by destruct (Z.testbit fl 0).
Qed.

(** A message grows until it is committed and gives its handles away once.
    Before the commit [WhpAppendMessageData] keeps the payload, extends it with
    zeros to the new size, appends the handles, and commits if asked to; after
    it, growth is refused with [FAILED_PRECONDITION] and nothing changes.
    [WhpGetMessageData] with room for all handles returns them with the payload
    and leaves the message without handles; with too little room it reports
    how many there are and keeps them. *)
Theorem message_payload_and_handles {host : Host} c m msg n hs opts cap :
  wf c → Lookup c m = Some (message_slot msg) → 0 <= n →
  let commit := match opts with Some fl => Z.testbit fl 0 | None => false end in
  wp (WhpAppendMessageData m n hs opts) (λ r c',
    if committed msg && negb (n =? 0)
    then r = (WHP_RESULT_FAILED_PRECONDITION, None) ∧ c' = c
    else fst r = WHP_RESULT_OK ∧
      Lookup c' m = Some (message_slot (mkMessageObj
        (msg_bytes msg ++ replicate (Z.to_nat n) 0) (msg_handles msg ++ hs)
        (commit || committed msg) (msg_context msg) (serializer msg) (destructor msg)))) c ∧
  (Z.of_nat (length (msg_handles msg)) < 2 ^ 32 →
   wp (WhpGetMessageData m true (Some cap)) (λ r c',
    if cap <? Z.of_nat (length (msg_handles msg))
    then fst r = WHP_RESULT_RESOURCE_EXHAUSTED ∧ c' = c ∧ md_handles (snd r) = [] ∧
         md_num_handles (snd r) = Some (Z.of_nat (length (msg_handles msg)))
    else fst r = WHP_RESULT_OK ∧ md_handles (snd r) = msg_handles msg ∧
         md_bytes (snd r) = Some (msg_bytes msg) ∧
         Lookup c' m = Some (message_slot (with_handles [] msg))) c).
Proof.
  intros Hwf Hl Hn commit. pose proof Hl as (Hr & _)%Lookup_inv; [|apply Hwf].
  split.
  - unfold WhpAppendMessageData, with_message. wp_step. rewrite Hl. simpl. wp_step.
    case_match; wp_step; [done|]. unfold store_message. wp_step.
    apply store_slot_spec; [lia|]. wp_step. split; [done|].
    rewrite (Lookup_stored _ _ _ _ (wf_table _ Hwf) Hl) by done.
    rewrite append_bytes by done. unfold message_slot, commit.
    destruct opts as [fl|]; [|done]. rewrite flag_commit. by destruct (Z.testbit fl 0).
  - intros Hlen. unfold WhpGetMessageData, with_message. wp_step. rewrite Hl. simpl. wp_step.
    rewrite (u32_small (Z.of_nat (length (msg_handles msg)))) by lia.
    case_match; wp_step; [done|]. unfold store_message. wp_step.
    apply store_slot_spec; [lia|]. wp_step. simpl. split; [done|].
    split; [rewrite take_ge by lia; done|]. split; [done|].
    by rewrite (Lookup_stored _ _ _ _ (wf_table _ Hwf) Hl) by done.
Qed.

Lemma message_payload_and_handles_witness :
  Lookup demo 4 = Some (message_slot (mkMessageObj [0; 0] [] false 0 None None)) ∧
  wp (WhpAppendMessageData 4 3 [1] (Some 1)) (λ r c', fst r = WHP_RESULT_OK ∧
    Lookup c' 4 = Some (message_slot
      (mkMessageObj ([0; 0] ++ replicate 3 0) [1] true 0 None None))) demo.
Proof.
  assert (Lookup demo 4 = Some (message_slot (mkMessageObj [0; 0] [] false 0 None None)))
    as Hl by (by vm_compute).
  split; [exact Hl|].
  apply (message_payload_and_handles demo 4 _ 3 [1] (Some 1) 0 demo_wf Hl). lia.
Defined.
