(* ===== verification/ThunkProps.v ===== *)
(** * Properties of the Mojo entry points: invitations and regions *)
From S2P Require Import Prelude Core Traps Messages DataPipes Buffers Api Thunk.
From S2P Require Import CoreInv TrapsInv KernelInv TransferInv PipeSpec.
From S2P Require Import KernelProps.

Section rules.
Context {host : Host} {client : Client} {transport : Transport}.

(** A kernel call under the thunk. *)
Lemma wp_kernel {A} (m : M Core A) Q t :
  wp m (λ a c, Q a (set_core c t)) (core t) → wp (kernel m) Q t.
Proof. unfold wp, kernel. by destruct (m (core t)) as [[]|]. Qed.

(** [WhpClose] of a pipe end runs no destructor. *)
Lemma wp_WhpClose_pipe c h e :
  wf c → Lookup c h = Some (pipe_slot e) →
  wp (WhpClose h) (λ r c', r = WHP_RESULT_OK ∧ wf c' ∧ Lookup c' h = None ∧
    ∀ h', h' ≠ h → same_handle c c' h') c.
Proof.
  intros Hwf Hl. pose proof Hl as (_ & Hs & _)%Lookup_inv; [|apply Hwf].
  destruct (pipes_open _ _ (wf_pipes _ Hwf) _ _ Hs) as (st & Hst & _).
  unfold WhpClose. wp_step.
  eapply wp_mono; [eapply wp_and; [by eapply wp_close_pipe|by eapply wp_close]|].
  intros rd c' [(-> & _) (_ & ? & ? & ? & _)]. wp_step. simpl. by wp_step.
Qed.

(** Handles that lead to live pipe ends. *)
Definition live_pipes (c : Core) (hs : list Z) : Prop :=
  ∀ h, h ∈ hs → ∃ e, Lookup c h = Some (pipe_slot e).

Lemma wp_close_all hs t :
  wf (core t) → NoDup hs → live_pipes (core t) hs →
  wp (close_all hs) (λ _ t', wf (core t') ∧ t' = set_core (core t') t ∧
    (∀ h, h ∈ hs → Lookup (core t') h = None) ∧
    (∀ h, h ∉ hs → same_handle (core t) (core t') h)) t.
Proof.
  revert t. induction hs as [|h hs IH]; intros t Hwf Hnd Hlive; simpl; wp_step.
  { split_and!; [done|by destruct t|by intros h ?%elem_of_nil|].
    intros h _. by apply same_handle_eq. }
  apply NoDup_cons in Hnd as [Hn Hnd].
  destruct (Hlive h) as [e He]; [by left|].
  apply wp_kernel. eapply wp_mono; [by eapply wp_WhpClose_pipe|].
  intros r c1 (_ & Hwf1 & Hd & Hs).
  eapply wp_mono; [apply IH; simpl; [done|done|]|].
  { intros h' Hh'. destruct (Hlive h') as [e' He']; [by right|]. exists e'.
    eapply same_handle_keep; [apply Hs; by intros ->|done|done]. }
  intros _ t' (Hwf' & E & Hdead & Hsame). split_and!; [done| | |].
  - rewrite E. by destruct t.
  - intros h' [->|Hh']%elem_of_cons; [|by apply Hdead].
    destruct (decide (h ∈ hs)); [done|]. by eapply same_handle_none; [apply Hsame|].
  - intros h' [N1 N2]%not_elem_of_cons.
    eapply same_handle_trans; [by apply Hs|]. by apply Hsame.
Qed.

Definition attached_handles (inv : ThunkInvitation) : list Z :=
  map snd (map_to_list (attached inv)).
End rules.

(** ** A concrete thunk *)

#[local] Instance posix_host : Host := KernelProps.posix_host.
#[local] Instance quiet_client : Client :=
  {| call_serializer := λ _ _ _ c, c; call_destructor := λ _ _ c, c;
     call_trap_handler := λ _ _ c, c |}.
#[local] Instance no_transport : Transport :=
  {| punch := Empty_set; punch_attach := λ _ _, None |}.

(** The thunk a computation ends in. *)
Definition after {A} (m : M Thunk A) (t : Thunk) : Thunk :=
  match m t with Some (_, t') => t' | None => t end.

(** The in-process channel 77. *)
Definition channel : Endpoint := Some (Some [mkMojoPlatformHandle 16 0 77]).

(** One invitation with a pipe attached under the name [1; 2]. *)
Definition one_invitation : Thunk :=
  after (MojoCreateInvitation ;;
         MojoAttachMessagePipeToInvitation kInvitationHandleBase [1; 2]) Thunk_init.

Lemma one_invitation_core :
  core one_invitation = run_actions [A_CreateMessagePipe true true] Core_init.
Proof. by vm_compute. Qed.

Lemma one_invitation_wf : wf (core one_invitation).
Proof. rewrite one_invitation_core. apply run_actions_wf. repeat constructor. Qed.

(** ** Invitations *)

(** Closing an invitation closes what is attached to it and nothing else.
    The invitation disappears, every pipe end still attached is closed (so its
    peer observes PEER_CLOSED), and every other kernel handle keeps its
    object. *)
Theorem close_invitation_closes_attached {host : Host} {client : Client}
    {transport : Transport} t ih inv :
  wf (core t) → kInvitationHandleBase <= ih → g_invitations t !! ih = Some inv →
  NoDup (attached_handles inv) → live_pipes (core t) (attached_handles inv) →
  wp (MojoClose ih) (λ r t', r = WHP_RESULT_OK ∧ wf (core t') ∧
    g_invitations t' = delete ih (g_invitations t) ∧
    (∀ h, h ∈ attached_handles inv → Lookup (core t') h = None) ∧
    (∀ h, h ∉ attached_handles inv → same_handle (core t) (core t') h)) t.
Proof.
  intros Hwf Hih Hinv Hnd Hlive. unfold MojoClose.
  destruct (Z.leb_spec kInvitationHandleBase ih); [|lia]. wp_step. rewrite Hinv. wp_step.
  eapply wp_mono; [apply wp_close_all; done|].
  intros [] t' (Hwf' & E & Hdead & Hsame). wp_step. split_and!; try done.
  rewrite E. done.
Qed.

Definition invitation_1 : ThunkInvitation := mkThunkInvitation {[ [1; 2] := 2 ]} None.

Lemma invitation_1_handles : attached_handles invitation_1 = [2].
Proof. by vm_compute. Qed.

Lemma one_invitation_has : g_invitations one_invitation !! kInvitationHandleBase = Some invitation_1.
Proof. by vm_compute. Qed.

Lemma invitation_1_live : live_pipes (core one_invitation) (attached_handles invitation_1).
Proof.
  rewrite invitation_1_handles. intros h Hh. apply list_elem_of_singleton in Hh as ->.
  exists (mkPipeEnd 0 true). by vm_compute.
Qed.

Lemma invitation_1_nodup : NoDup (attached_handles invitation_1).
Proof. rewrite invitation_1_handles. apply NoDup_singleton. Qed.

Lemma close_invitation_closes_attached_witness :
  wp (MojoClose kInvitationHandleBase) (λ r t', r = WHP_RESULT_OK ∧ wf (core t') ∧
    g_invitations t' = delete kInvitationHandleBase (g_invitations one_invitation) ∧
    (∀ h, h ∈ attached_handles invitation_1 → Lookup (core t') h = None) ∧
    (∀ h, h ∉ attached_handles invitation_1 →
       same_handle (core one_invitation) (core t') h)) one_invitation.
Proof.
  exact (close_invitation_closes_attached one_invitation kInvitationHandleBase
    invitation_1 one_invitation_wf ltac:(done) one_invitation_has
    invitation_1_nodup invitation_1_live).
Defined.

(** C8: an invitation connects two parties.  The pipe end a sender gets from
    attaching a name, and the one a receiver extracts under that name after
    the invitation was sent and accepted over the same channel, are the two
    ends of one new pipe; the sender's invitation handle is consumed. *)
Theorem invitation_connects {host : Host} {client : Client} {transport : Transport}
    t ih inv name ep ep' :
  wf (core t) → Z.of_nat (length (slots (core t))) + 1 < 2 ^ 32 →
  g_invitations t !! ih = Some inv → attached inv !! name = None →
  ChannelIdOf ep = ChannelIdOf ep' →
  g_next_invitation_handle t ≠ ih →
  g_invitations t !! g_next_invitation_handle t = None →
  wp (let! '(_, l) := MojoAttachMessagePipeToInvitation ih name in
      let! _ := MojoSendInvitation ih ep in
      let! '(_, h) := MojoAcceptInvitation ep' in
      let! '(_, r) := MojoExtractMessagePipeFromInvitation (default 0 h) name in
      ret (l, r))
    (λ lr t', ∃ l r id, lr = (Some l, Some r) ∧
      Lookup (core t) l = None ∧ Lookup (core t) r = None ∧
      pipe_pair (core t') l r id false ∧ g_invitations t' !! ih = None) t.
Proof.
  intros Hwf Hlen Hinv Hname Hch Hne Hfresh.
  unfold MojoAttachMessagePipeToInvitation. wp_step. rewrite Hinv.
  rewrite decide_False by (by rewrite Hname; intros []). wp_step.
  apply wp_kernel. eapply wp_mono; [by apply wp_create_pipe|].
  intros rh c' (h0 & h1 & id & -> & D0 & D1 & Hh & Hp & _). simpl. wp_step.
  unfold MojoSendInvitation. wp_step. simpl. rewrite lookup_insert_eq. wp_step.
  unfold MojoAcceptInvitation. wp_step. simpl. rewrite Hch, lookup_insert_eq. wp_step.
  unfold next_invitation, store_invitation. wp_step. simpl.
  rewrite lookup_delete_ne, lookup_insert_ne, Hfresh by done. wp_step.
  unfold MojoExtractMessagePipeFromInvitation. wp_step.
  change (default 0 (Some (g_next_invitation_handle t))) with (g_next_invitation_handle t).
  simpl. rewrite lookup_insert_eq. simpl. rewrite lookup_insert_eq. wp_step.
  exists h0, h1, id. split_and!; try done. simpl.
  rewrite !lookup_insert_ne by done. apply lookup_delete_eq.
Qed.

Lemma invitation_connects_witness :
  wp (let! '(_, l) := MojoAttachMessagePipeToInvitation kInvitationHandleBase [3] in
      let! _ := MojoSendInvitation kInvitationHandleBase channel in
      let! '(_, h) := MojoAcceptInvitation channel in
      let! '(_, r) := MojoExtractMessagePipeFromInvitation (default 0 h) [3] in
      ret (l, r))
    (λ lr t', ∃ l r id, lr = (Some l, Some r) ∧
      Lookup (core one_invitation) l = None ∧ Lookup (core one_invitation) r = None ∧
      pipe_pair (core t') l r id false ∧
      g_invitations t' !! kInvitationHandleBase = None) one_invitation.
Proof.
  apply (invitation_connects one_invitation kInvitationHandleBase
    invitation_1 [3] channel channel one_invitation_wf);
    [by vm_compute|exact one_invitation_has|by vm_compute..].
Defined.

(** Unwrapping a region without an array to receive it destroys it.  The
    kernel handle is consumed before the entry point looks at the caller's
    array, so with a null array the answer is [RESOURCE_EXHAUSTED], as if the
    caller could retry, but the handle is dead and the native handles are not
    reported. *)
Theorem unwrap_region_null_array_consumes {host : Host} {client : Client}
    {transport : Transport} t h id b :
  wf (core t) → Lookup (core t) h = Some (buffer_slot id) →
  buffers (core t) !! id = Some b → 1 <= sb_plat_count b <= 2 →
  wp (MojoUnwrapPlatformSharedMemoryRegion h false (Some 2)) (λ r t',
    r = (WHP_RESULT_RESOURCE_EXHAUSTED, Some (sb_plat_count b), None) ∧
    Lookup (core t') h = None) t.
Proof.
  intros Hwf Hl Hb Hc. unfold MojoUnwrapPlatformSharedMemoryRegion. simpl. wp_step.
  apply wp_kernel. unfold WhpUnwrapPlatformSharedMemoryRegion, with_buffer, with_kind.
  wp_step. rewrite Hl. simpl. wp_step. unfold get_buffer. wp_step. rewrite Hb. wp_step.
  destruct (Z.eqb_spec (sb_plat_count b) 0); [lia|].
  destruct (Z.ltb_spec 2 (sb_plat_count b)); [lia|]. simpl. unfold put_buffer. wp_step.
  pose proof (wf_put_buffer (core t) id b (with_plat_owns false b) Hwf Hb) as Hwf1.
  eapply wp_Free_buffer; [exact Hwf1|exact Hl|].
  intros c' _ [E _]. wp_step. simpl. wp_step. split; [done|].
  apply (freed_lookup (core t) h _ (wf_table _ Hwf) Hl). exact E.
Qed.

Definition region_thunk : Thunk := set_core
  (run_actions [A_WrapRegion (Some [(1, 9)]) 4096 0 0 0 true] Core_init) Thunk_init.

Lemma unwrap_region_null_array_consumes_witness :
  wp (MojoUnwrapPlatformSharedMemoryRegion 1 false (Some 2)) (λ r t',
    r = (WHP_RESULT_RESOURCE_EXHAUSTED, Some 1, None) ∧
    Lookup (core t') 1 = None) region_thunk.
Proof.
  apply (unwrap_region_null_array_consumes region_thunk 1 0
    (mkSharedBufferObj 0 4096 (mkTwo 1 0) (mkTwo 9 0) 1 true 0 0 0 false 0));
    [|by vm_compute|by vm_compute|simpl; lia].
  apply run_actions_wf. repeat constructor.
Defined.

(** Two invitations, each with a pipe attached, are sent over one channel
    before either is accepted. *)
Definition send_twice : Thunk :=
  after (MojoCreateInvitation ;;
         MojoAttachMessagePipeToInvitation kInvitationHandleBase [1] ;;
         MojoSendInvitation kInvitationHandleBase channel ;;
         MojoCreateInvitation ;;
         MojoAttachMessagePipeToInvitation (kInvitationHandleBase + 1) [1] ;;
         MojoSendInvitation (kInvitationHandleBase + 1) channel) Thunk_init.

(** Sending over a channel that already carries an unaccepted invitation
    drops that one without closing what is attached to it: here the first
    sender's pipe (handles 1 and 2) loses its far end for good, handle 2 is
    live but in no invitation any more, and handle 1 never observes
    PEER_CLOSED. *)
Theorem resend_leaks_attached_pipe :
  Lookup (core send_twice) 2 = Some (pipe_slot (mkPipeEnd 0 true)) ∧
  g_invitations send_twice = ∅ ∧
  (∀ ch s name, g_sent_invitations send_twice !! ch = Some s →
     sent_attached s !! name ≠ Some 2) ∧
  ∃ sg, QueryLocked (core send_twice) 1 = Some sg ∧
    Z.land (satisfied_signals sg) WHP_HANDLE_SIGNAL_PEER_CLOSED = 0.
Proof.
  split_and!; [by vm_compute|by vm_compute| |].
  - assert (g_sent_invitations send_twice =
      {[ 77 := mkSentInvitation {[ [1] := 4 ]} None ]}) as -> by (by vm_compute).
    intros ch s name [<- <-]%lookup_singleton_Some. simpl.
    by intros [_ ?]%lookup_singleton_Some.
  - exists (mkSignals 2 7). by vm_compute.
Qed.
