(* ===== verification/LexProps.v ===== *)
(** * Properties of the tokenizer *)
From S2P Require Import Prelude Lexer.
From Stdlib Require Import Ascii ZifyBool.

(** [clia] decides goals about characters: it computes the literals and
    leaves the rest to [lia]. *)
Ltac clia :=
  unfold IsNameStart, IsNameCont, isalnum, isalpha, isdigit, isspace, NL, QUOTE, BACKSLASH in *;
  repeat match goal with
  | |- context [ch ?a] => let v := eval vm_compute in (ch a) in change (ch a) with v
  | H : context [ch ?a] |- _ =>
      let v := eval vm_compute in (ch a) in change (ch a) with v in H
  end; lia.

(** ** Scanning *)

Lemma span_spec p l :
  l = fst (span p l) ++ snd (span p l) ∧
  Forall (λ c, p c = true) (fst (span p l)) ∧ starts_with p (snd (span p l)) = false.
Proof.
  induction l as [|c l (IH1 & IH2 & IH3)]; simpl; [done|].
  destruct (p c) eqn:E; [|by split_and!; [..|simpl]].
  destruct (span p l) as [a b]. simpl in *. split_and!; [by f_equal|by constructor|done].
Qed.

Lemma span_nonempty p l : starts_with p l = true → fst (span p l) ≠ [].
Proof. destruct l as [|c l]; simpl; [done|]. intros ->. by destruct (span p l). Qed.

Lemma span_app p a b :
  Forall (λ c, p c = true) a → starts_with p b = false → span p (a ++ b) = (a, b).
Proof.
  intros Ha Hb. induction Ha as [|c a Hc Ha IH]; simpl.
  - destruct b as [|d b]; [done|]. simpl in *. by rewrite Hb.
  - by rewrite Hc, IH.
Qed.

(** Newlines passed over. *)
Definition newlines (l : list Z) : Z := Z.of_nat (length (List.filter (λ c, c =? NL) l)).

Lemma newlines_app a b : newlines (a ++ b) = newlines a + newlines b.
Proof. unfold newlines. rewrite List.filter_app, length_app. lia. Qed.

Lemma newlines_cons c l : newlines (c :: l) = (if c =? NL then 1 else 0) + newlines l.
Proof.
  unfold newlines. cbn [List.filter]. destruct (c =? NL); cbn [length]; lia.
Qed.

Lemma newlines_none (p : Z → bool) l :
  p NL = false → Forall (λ c, p c = true) l → newlines l = 0.
Proof.
  intros Hp Hl. induction Hl as [|c l Hc Hl IH]; [done|].
  rewrite newlines_cons, IH. destruct (Z.eqb_spec c NL) as [->|]; [congruence|done].
Qed.

Lemma newlines_nonneg l : 0 <= newlines l.
Proof. unfold newlines. lia. Qed.

(** [post] is what follows [pre], and the line count moved from [line] to
    [line'] on the way. *)
Definition consumed (l : list Z) (line : Z) (rest : list Z) (line' : Z) : Prop :=
  ∃ pre, l = pre ++ rest ∧ line' = line + newlines pre.

Lemma skip_block_spec l line :
  match skip_block l line with
  | (Some rest, line') => consumed l line rest line'
  | (None, line') => line <= line' <= line + newlines l
  end.
Proof.
  revert line. induction l as [|c1 l IH]; intros line; simpl; [unfold newlines; simpl; lia|].
  destruct l as [|c2 l']; [pose proof (newlines_nonneg [c1]); lia|].
  destruct (_ && _) eqn:E.
  - exists [c1; c2]. split; [done|]. zbool. rewrite !newlines_cons.
    unfold newlines. rewrite H, H0. simpl. lia.
  - specialize (IH (if c1 =? NL then line + 1 else line)).
    rewrite newlines_cons. destruct (skip_block _ _) as [[rest|] line'].
    + destruct IH as (pre & -> & ->). exists (c1 :: pre). split; [done|].
      rewrite newlines_cons. destruct (c1 =? NL); lia.
    + destruct (c1 =? NL); lia.
Qed.

(** ** Well-formed tokens *)

Definition digits (l : list Z) : Prop := Forall (λ c, isdigit c = true) l.

(** A fractional and an exponent part, possibly absent. *)
Definition fraction (l : list Z) : Prop :=
  l = [] ∨ ∃ ds, l = ch "." :: ds ∧ ds ≠ [] ∧ digits ds.
Definition exponent (l : list Z) : Prop :=
  l = [] ∨ ∃ e sign ds, l = e :: sign ++ ds ∧ (e = ch "e" ∨ e = ch "E") ∧
    (sign = [] ∨ sign = [ch "+"] ∨ sign = [ch "-"]) ∧ ds ≠ [] ∧ digits ds.

(** What the text of a token looks like, by its type. *)
Definition token_ok (t : Token) : Prop :=
  match tok_type t with
  | kName => ∃ c l, text t = c :: l ∧ IsNameStart c = true ∧
                    Forall (λ c, IsNameCont c = true) l
  | kNumber => text t ≠ [] ∧ digits (text t) ∧
               (starts_with (λ c, c =? ch "0") (text t) = true → length (text t) = 1%nat)
  | kHexNumber => ∃ x l, text t = ch "0" :: x :: l ∧ (x = ch "x" ∨ x = ch "X") ∧
                         l ≠ [] ∧ Forall (λ c, isxdigit c = true) l
  | kFloatNumber => ∃ ds frac expo, text t = ds ++ frac ++ expo ∧ digits ds ∧
      fraction frac ∧ exponent expo ∧ (frac ≠ [] ∨ expo ≠ []) ∧ (ds ≠ [] ∨ frac ≠ [])
  | kStringLiteral => True
  | kEnd => False
  | _ => text t = []
  end.

Lemma isdigit_NL : isdigit NL = false. Proof. done. Qed.

Lemma lex_exponent_spec l :
  match lex_exponent l with
  | Some (ex, rest) => l = ex ++ rest ∧ exponent ex ∧ ex ≠ [] ∧ newlines ex = 0
  | None => True
  end.
Proof.
  unfold lex_exponent. destruct l as [|e l1]; [done|].
  destruct (_ || _) eqn:He; [|done].
  set (sl := match l1 with [] => _ | _ => _ end).
  assert (l1 = fst sl ++ snd sl ∧
    (fst sl = [] ∨ fst sl = [ch "+"] ∨ fst sl = [ch "-"])) as [E Hs].
  { unfold sl. destruct l1 as [|s l1']; [by auto|].
    destruct (Z.eqb_spec s (ch "+")) as [->|]; [by auto|].
    destruct (Z.eqb_spec s (ch "-")) as [->|]; by auto. }
  destruct sl as [sign l2]. simpl in *.
  destruct (starts_with isdigit l2) eqn:Hd; [|done].
  destruct (span_spec isdigit l2) as (E2 & Hds & _).
  pose proof (span_nonempty isdigit l2 Hd) as Hne.
  destruct (span isdigit l2) as [ds l3]. simpl in *.
  subst. split; [by rewrite <- app_assoc|]. split; [|split; [done|]].
  - right. exists e, sign, ds. split_and!; try done. apply orb_true_iff in He as [?|?]; zbool; auto.
  - rewrite newlines_cons, newlines_app, (newlines_none isdigit ds) by done.
    replace (e =? NL) with false.
    + destruct Hs as [->|[->| ->]]; done.
    + apply orb_true_iff in He as [?|?]; zbool; by subst.
Qed.

Lemma lex_fraction_spec l :
  match lex_fraction l with
  | Some (fr, rest) => l = fr ++ rest ∧ fraction fr ∧ fr ≠ [] ∧ newlines fr = 0
  | None => True
  end.
Proof.
  unfold lex_fraction. destruct l as [|d l1]; [done|].
  destruct (_ && _) eqn:He; [|done]. apply andb_prop in He as [He Hd]. zbool. subst d.
  destruct (span_spec isdigit l1) as (E2 & Hds & _).
  pose proof (span_nonempty isdigit l1 Hd) as Hne.
  destruct (span isdigit l1) as [ds l2]. simpl in *.
  subst. split; [done|]. split; [right; by exists ds|]. split; [done|].
  rewrite newlines_cons, (newlines_none isdigit ds) by done. done.
Qed.

(** ** One iteration *)

Section steps.
Context (LONG_MAX : Z).

Lemma lex_string_spec fuel l value line :
  (length l < fuel)%nat →
  match lex_string LONG_MAX fuel l value line with
  | inl e => e = LexError UnterminatedStringLiteral line ∨ e = StolOutOfRange
  | inr (_, rest) => ∃ pre, l = pre ++ rest ∧ newlines pre = 0
  end.
Proof.
  revert l value. induction fuel as [|fuel IH]; intros l value Hf; [lia|].
  destruct l as [|sc l1]; simpl; [by left|]. simpl in Hf.
  destruct (Z.eqb_spec sc QUOTE) as [->|Hq].
  { exists [QUOTE]. done. }
  destruct (Z.eqb_spec sc NL) as [->|Hn]; [by left|].
  assert (∀ pre rest v, l1 = pre ++ rest → newlines pre = 0 →
    (length rest <= length l1)%nat →
    match lex_string LONG_MAX fuel rest v line with
    | inl e => e = LexError UnterminatedStringLiteral line ∨ e = StolOutOfRange
    | inr (_, rest') => ∃ pre', sc :: l1 = pre' ++ rest' ∧ newlines pre' = 0
    end) as Hrec.
  { intros pre rest v E Hpre Hlen. specialize (IH rest v ltac:(lia)).
    destruct (lex_string _ _ _ _ _) as [e|[v' rest']]; [done|].
    destruct IH as (pre' & -> & H0). exists (sc :: pre ++ pre'). split.
    - by rewrite E, <- app_comm_cons, <- app_assoc.
    - rewrite newlines_cons, newlines_app, Hpre, H0. by destruct (Z.eqb_spec sc NL). }
  pose proof (λ v, Hrec [] l1 v eq_refl eq_refl (le_n _)) as Hplain.
  destruct (sc =? BACKSLASH); [|apply Hplain].
  destruct l1 as [|d l2]; [apply Hplain|].
  destruct (_ || _) eqn:Hd.
  { apply (Hrec [d] l2); [done| |simpl; lia]. rewrite newlines_cons.
    apply orb_true_iff in Hd as [?|?]; zbool; by subst. }
  destruct (isdigit d).
  { destruct (span_spec isdigit (d :: l2)) as (E & Hds & _).
    destruct (span isdigit (d :: l2)) as [ds l3]. simpl in E, Hds.
    destruct (stol _ _ _); [|by right]. apply (Hrec ds l3); [done| |].
    - by apply (newlines_none isdigit).
    - rewrite E, length_app. lia. }
  destruct (_ && _) eqn:Hx; [|apply Hplain]. apply andb_prop in Hx as [Hx _]. zbool.
  destruct (span_spec isxdigit l2) as (E & Hds & _).
  destruct (span isxdigit l2) as [ds l3]. simpl in E, Hds.
  destruct (stol _ _ _); [|by right]. apply (Hrec (d :: ds) l3).
  - by rewrite E.
  - rewrite newlines_cons, (newlines_none isxdigit) by done. by subst d.
  - simpl. rewrite E, length_app. lia.
Qed.

(** The contract of one iteration. *)
Definition step_ok (l : list Z) (line : Z) (s : LexStep) : Prop :=
  match s with
  | Skip rest line' =>
      ∃ pre, l = pre ++ rest ∧ pre ≠ [] ∧ line' = line + newlines pre
  | Push t rest line' =>
      (∃ pre, l = pre ++ rest ∧ pre ≠ [] ∧ newlines pre = 0) ∧
      line' = line ∧ tok_line t = line ∧ token_ok t
  | Throw (LexError _ k) => line <= k <= line + newlines l
  | Throw StolOutOfRange => True
  | Throw OutOfFuel => False
  end.

Lemma exponent_option l :
  let '(ex, rest) := match lex_exponent l with Some p => p | None => ([], l) end in
  l = ex ++ rest ∧ exponent ex ∧ newlines ex = 0.
Proof.
  pose proof (lex_exponent_spec l) as H. destruct (lex_exponent l) as [[ex rest]|] eqn:E.
  - by destruct H as (? & ? & ? & ?).
  - split_and!; [done|by left|done].
Qed.

Lemma fraction_option l :
  let '(fr, rest) := match lex_fraction l with Some p => p | None => ([], l) end in
  l = fr ++ rest ∧ fraction fr ∧ newlines fr = 0.
Proof.
  pose proof (lex_fraction_spec l) as H. destruct (lex_fraction l) as [[fr rest]|].
  - by destruct H as (? & ? & ? & ?).
  - split_and!; [done|by left|done].
Qed.

Lemma lex_decimal_ok l line :
  starts_with isdigit l = true → step_ok l line (lex_decimal l line).
Proof.
  intros Hs. unfold lex_decimal.
  destruct (span_spec isdigit l) as (E & Hds & _). pose proof (span_nonempty _ _ Hs) as Hne.
  destruct (span isdigit l) as [ds l1]. simpl in E, Hds, Hne.
  pose proof (fraction_option l1) as Hf. destruct (match lex_fraction l1 with Some p => p | None => ([], l1) end)
    as [frac l2]. destruct Hf as (E1 & Hf & N1).
  pose proof (exponent_option l2) as Hx. destruct (match lex_exponent l2 with Some p => p | None => ([], l2) end)
    as [expo l3]. destruct Hx as (E2 & Hx & N2).
  assert (newlines ds = 0) as N0 by (by apply (newlines_none isdigit)).
  assert (newlines (ds ++ frac ++ expo) = 0) as N by (rewrite !newlines_app; lia).
  destruct (bool_decide_reflect (frac = [])) as [->|Hfr]; simpl;
    [destruct (bool_decide_reflect (expo = [])) as [->|Hex]; simpl|].
  - destruct (_ && _) eqn:Ho; simpl; [pose proof (newlines_nonneg l); lia|].
    split; [exists ds; split_and!; [|done|done]; by rewrite E, E1, E2|].
    split_and!; try done. simpl. split_and!; [done..|]. cbn [text]. intros H0.
    rewrite H0, andb_true_r in Ho. zbool. destruct ds as [|? []]; simpl in *; lia || done.
  - split; [exists (ds ++ [] ++ expo); split_and!; [|by destruct ds|done]|].
    + rewrite E, E1, E2. by rewrite <- !app_assoc.
    + split_and!; try done. exists ds, [], expo. split_and!; try done; auto.
  - split; [exists (ds ++ frac ++ expo); split_and!; [|by destruct ds|done]|].
    + rewrite E, E1, E2. by rewrite <- !app_assoc.
    + split_and!; try done. exists ds, frac, expo. split_and!; try done; auto.
Qed.

Lemma lex_number_ok c0 l line :
  isdigit c0 = true → step_ok (c0 :: l) line (lex_number (c0 :: l) line).
Proof.
  intros Hs. unfold lex_number. destruct l as [|x l']; [by apply lex_decimal_ok|].
  destruct (_ && _) eqn:E; [|by apply lex_decimal_ok].
  apply andb_prop in E as [E0 Ex]. zbool. subst c0.
  assert (x = ch "x" ∨ x = ch "X") as Hx by (destruct Ex; zbool; auto).
  destruct (span_spec isxdigit l') as (E & Hh & _).
  destruct (span isxdigit l') as [hs rest]. simpl in E, Hh.
  destruct (decide (hs = [])); [pose proof (newlines_nonneg (ch "0" :: x :: l')); simpl; lia|].
  assert (newlines hs = 0) by (by apply (newlines_none isxdigit)).
  split; [exists (ch "0" :: x :: hs); split_and!; [by rewrite E|done|]|].
  - rewrite !newlines_cons. by destruct Hx as [-> | ->].
  - split_and!; try done. by exists x, hs.
Qed.

Lemma lex_dot_float_ok l line :
  starts_with isdigit l = true → step_ok (ch "." :: l) line (lex_dot_float (ch ".") l line).
Proof.
  intros Hs. unfold lex_dot_float.
  destruct (span_spec isdigit l) as (E & Hds & _). pose proof (span_nonempty _ _ Hs) as Hne.
  destruct (span isdigit l) as [ds l1]. simpl in E, Hds, Hne.
  pose proof (exponent_option l1) as Hx.
  destruct (match lex_exponent l1 with Some p => p | None => ([], l1) end) as [expo l2].
  destruct Hx as (E2 & Hx & N2).
  assert (newlines ds = 0) as N0 by (by apply (newlines_none isdigit)).
  split; [exists (ch "." :: ds ++ expo); split_and!; [|done|]|].
  - rewrite E, E2. by rewrite <- app_comm_cons, <- app_assoc.
  - rewrite newlines_cons, newlines_app, N0, N2. done.
  - split_and!; try done. exists [], (ch "." :: ds), expo.
    split_and!; try done; [by constructor|right; by exists ds|by left|by right].
Qed.

Lemma IsNameStart_Cont c : IsNameStart c = true → IsNameCont c = true.
Proof.
  unfold IsNameStart, IsNameCont, isalnum. destruct (isalpha c); [done|].
  simpl. intros ->. by rewrite orb_true_r.
Qed.

Lemma lex_one_ok c l line : step_ok (c :: l) line (lex_one LONG_MAX c l line).
Proof.
  unfold lex_one. pose proof (newlines_nonneg l) as Hl.
  destruct (Z.eqb_spec c NL) as [->|Hc]; [by exists [NL]|].
  assert (newlines [c] = 0) as Nc by (rewrite newlines_cons; by destruct (Z.eqb_spec c NL)).
  destruct (isspace c); [exists [c]; split_and!; [done|done|lia]|].
  destruct (_ && starts_with (λ d, d =? ch "/") l) eqn:E1.
  { destruct (span_spec (λ d, negb (d =? NL)) l) as (E & Hp & _).
    destruct (span _ l) as [cs rest]. simpl in E, Hp. exists (c :: cs).
    split_and!; [by rewrite E|done|]. change (c :: cs) with ([c] ++ cs).
    rewrite newlines_app, Nc, (newlines_none _ cs eq_refl Hp). lia. }
  clear E1. destruct (_ && starts_with (λ d, d =? ch "*") l) eqn:E1.
  { apply andb_prop in E1 as [_ Es]. destruct l as [|d l]; [done|]. simpl in Es. zbool. subst d.
    simpl. pose proof (skip_block_spec l line) as Hb.
    destruct (skip_block l line) as [[rest|] line'].
    - destruct Hb as (pre & -> & ->). exists (c :: ch "*" :: pre). split_and!; [done..|].
      change (c :: ch "*" :: pre) with ([c] ++ [ch "*"] ++ pre). rewrite !newlines_app, Nc. done.
    - simpl. change (c :: ch "*" :: l) with ([c] ++ [ch "*"] ++ l). rewrite !newlines_app, Nc.
      change (newlines [ch "*"]) with 0. lia. }
  clear E1. destruct (IsNameStart c) eqn:En.
  { destruct (span_spec IsNameCont (c :: l)) as (E & Hp & _).
    simpl in *. rewrite (IsNameStart_Cont c En) in *.
    destruct (span IsNameCont l) as [name rest]. simpl in E, Hp. injection E as E.
    apply Forall_cons_1 in Hp as [Hc' Hp].
    split; [exists (c :: name); split_and!; [by rewrite E|done|]|].
    - by apply (newlines_none IsNameCont); [|constructor].
    - split_and!; try done. by exists c, name. }
  destruct (isdigit c) eqn:Ed; [by apply lex_number_ok|].
  destruct (_ && starts_with isdigit l) eqn:E1.
  { apply andb_prop in E1 as [Edot Es]. zbool. subst c. by apply lex_dot_float_ok. }
  destruct (Z.eqb_spec c QUOTE) as [->|Hq].
  { pose proof (lex_string_spec (S (length l)) l [] line ltac:(lia)) as Hs.
    destruct (lex_string _ _ _ _ _) as [e|[v rest]].
    - destruct Hs as [-> | ->]; simpl; [|done]. rewrite newlines_cons. simpl. lia.
    - destruct Hs as (pre & -> & N). split; [|by split_and!].
      exists (QUOTE :: pre). split_and!; [done..|]. by rewrite newlines_cons, N. }
  destruct (_ && starts_with (λ d, d =? ch ">") l) eqn:E2.
  { apply andb_prop in E2 as [_ Es]. destruct l as [|d l]; [done|]. simpl in Es. zbool. subst d.
    split; [|done]. exists ([c] ++ [ch ">"]). split_and!; [done..|].
    by rewrite newlines_app, Nc. }
  destruct (punctuation c) as [ty|] eqn:Ep.
  - split; [by exists [c]|]. split_and!; try done. unfold punctuation in Ep.
    repeat (destruct (_ =? _) in Ep; [by simplify_eq|]). done.
  - simpl. rewrite newlines_cons. destruct (c =? NL); lia.
Qed.
End steps.

(** ** The whole scan *)

Section scan.
Context (LONG_MAX : Z).

(** [l], reached on line [line], scans to [ts]. *)
Inductive scans : list Z → Z → list Token → Prop :=
  | scans_end line : scans [] line [mkToken kEnd [] line]
  | scans_skip c l line rest line' ts :
      lex_one LONG_MAX c l line = Skip rest line' → scans rest line' ts →
      scans (c :: l) line ts
  | scans_push c l line t rest line' ts :
      lex_one LONG_MAX c l line = Push t rest line' → scans rest line' ts →
      scans (c :: l) line (t :: ts).

(** How a run of the loop can end. *)
Definition scan_ok (l : list Z) (line : Z) (r : LexException + list Token) : Prop :=
  match r with
  | inr ts => scans l line ts
  | inl (LexError _ k) => line <= k <= line + newlines l
  | inl StolOutOfRange => True
  | inl OutOfFuel => False
  end.

Lemma lex_loop_ok fuel l line :
  (length l <= fuel)%nat → scan_ok l line (lex_loop LONG_MAX fuel l line).
Proof.
  revert l line. induction fuel as [|fuel IH]; intros l line Hf; destruct l as [|c l'];
    simpl in Hf; try (simpl; constructor); try lia.
  simpl. pose proof (lex_one_ok LONG_MAX c l' line) as Hs.
  destruct (lex_one LONG_MAX c l' line) as [rest line'|t rest line'|[m k| |]] eqn:E;
    cbn in Hs |- *; try done.
  - destruct Hs as (pre & Hl & Hne & ->).
    assert (length rest <= fuel)%nat as Hr.
    { apply (f_equal length) in Hl. rewrite length_app in Hl. simpl in Hl.
      destruct pre; [done|]. simpl in Hl. lia. }
    specialize (IH rest (line + newlines pre) Hr). rewrite Hl.
    destruct (lex_loop _ _ _ _) as [[m k| |]|ts]; cbn in IH |- *; try done.
    + rewrite newlines_app. pose proof (newlines_nonneg pre). lia.
    + rewrite <- Hl. by eapply scans_skip.
  - destruct Hs as ((pre & Hl & Hne & N) & -> & _).
    assert (length rest <= fuel)%nat as Hr.
    { apply (f_equal length) in Hl. rewrite length_app in Hl. simpl in Hl.
      destruct pre; [done|]. simpl in Hl. lia. }
    specialize (IH rest line Hr). rewrite Hl.
    destruct (lex_loop _ _ _ _) as [[m k| |]|ts]; cbn in IH |- *; try done.
    + rewrite newlines_app, N. lia.
    + rewrite <- Hl. by eapply scans_push.
Qed.

(** What a pushed token owes to the source: [pre] precedes it. *)
Definition token_at (src : list Z) (line : Z) (t : Token) : Prop :=
  ∃ pre c post rest, src = pre ++ c :: post ∧ tok_line t = line + newlines pre ∧
    lex_one LONG_MAX c post (tok_line t) = Push t rest (tok_line t).

Lemma token_at_skip pre l line t :
  token_at l (line + newlines pre) t → token_at (pre ++ l) line t.
Proof.
  intros (pre' & c & post & rest & -> & E & Hp). exists (pre ++ pre'), c, post, rest.
  rewrite newlines_app, E. split_and!; [by rewrite app_assoc|lia|by rewrite <- E].
Qed.

Lemma scans_sound l line ts :
  scans l line ts →
  ∃ body, ts = body ++ [mkToken kEnd [] (line + newlines l)] ∧
    Forall (λ t, token_ok t ∧ token_at l line t) body.
Proof.
  induction 1 as [line|c l line rest line' ts E H (body & -> & IH)
    |c l line t rest line' ts E H (body & -> & IH)].
  - exists []. split; [|done]. simpl. by rewrite Z.add_0_r.
  - pose proof (lex_one_ok LONG_MAX c l line) as Hs. rewrite E in Hs.
    destruct Hs as (pre & Hl & _ & ->). exists body. rewrite Hl, newlines_app.
    split; [by rewrite Z.add_assoc|]. eapply Forall_impl; [exact IH|].
    intros t [? ?]. split; [done|]. by apply token_at_skip.
  - pose proof (lex_one_ok LONG_MAX c l line) as Hs. rewrite E in Hs.
    destruct Hs as ((pre & Hl & _ & N) & -> & Ht & Hok). exists (t :: body). split.
    + rewrite Hl, newlines_app, N. done.
    + constructor.
      * split; [done|]. exists [], c, l, rest. rewrite Ht.
        split_and!; [done|unfold newlines; simpl; lia|done].
      * eapply Forall_impl; [exact IH|]. intros t' [? ?]. split; [done|]. rewrite Hl.
        apply token_at_skip. by rewrite N, Z.add_0_r.
Qed.
End scan.

(** The tokenizer is total: on any bytes it returns, or throws
    [std::out_of_range] from [std::stol], or a [LexError] whose line is a line
    of the source; the model's fuel is always enough. *)
Theorem tokenize_total LONG_MAX src :
  match Tokenize LONG_MAX src with
  | inr ts => ts ≠ []
  | inl (LexError _ k) => 1 <= k <= 1 + newlines src
  | inl StolOutOfRange => True
  | inl OutOfFuel => False
  end.
Proof.
  pose proof (lex_loop_ok LONG_MAX (length src) src 1 (le_n _)) as H. unfold Tokenize.
  destruct (lex_loop _ _ _ _) as [[m k| |]|ts]; cbn in H |- *; try done.
  by destruct (scans_sound _ _ _ _ H) as ([] & -> & _).
Qed.


Definition demo_src : list Z :=
  bytes "/* a" ++ [NL] ++ bytes "*/ Ping@3(x) => 0x1F 1.5e-3 .5 " ++
  [QUOTE] ++ bytes "a\x41\66\\" ++ [QUOTE].
Definition demo_tokens : list Token :=
  [mkToken kName (bytes "Ping") 2; mkToken kAt [] 2; mkToken kNumber (bytes "3") 2;
   mkToken kLParen [] 2; mkToken kName (bytes "x") 2; mkToken kRParen [] 2;
   mkToken kArrow [] 2; mkToken kHexNumber (bytes "0x1F") 2;
   mkToken kFloatNumber (bytes "1.5e-3") 2; mkToken kFloatNumber (bytes ".5") 2;
   mkToken kStringLiteral (bytes "aAB\") 2].


(** ** Printing tokens *)

(** A string literal's contents: quotes and backslashes are escaped by a
    backslash, newlines and digits by their decimal code. *)
Definition print_char (c : Z) : list Z :=
  if (c =? QUOTE) || (c =? BACKSLASH) then [BACKSLASH; c]
  else if (c =? NL) || isdigit c
  then [BACKSLASH; 48 + c / 100; 48 + c / 10 mod 10; 48 + c mod 10]
  else [c].

Definition punctuation_char (ty : TokenType) : Z :=
  match ty with
  | kLParen => ch "(" | kRParen => ch ")" | kLBrace => ch "{" | kRBrace => ch "}"
  | kLAngle => ch "<" | kRAngle => ch ">" | kComma => ch "," | kSemi => ch ";"
  | kAt => ch "@" | kEquals => ch "=" | kMinus => ch "-" | kQuestion => ch "?"
  | kDot => ch "." | kLBracket => ch "[" | kRBracket => ch "]" | kAmpersand => ch "&"
  | _ => ch "|"
  end.

Definition print_token (t : Token) : list Z :=
  match tok_type t with
  | kName | kNumber | kHexNumber | kFloatNumber => text t
  | kStringLiteral => QUOTE :: flat_map print_char (text t) ++ [QUOTE]
  | kArrow => [ch "="; ch ">"]
  | ty => [punctuation_char ty]
  end.

Definition SP : Z := 32.

(** The tokens from [line] on: newlines up to each token's line, the token
    and a space. *)
Fixpoint print_tokens (line : Z) (ts : list Token) : list Z :=
  match ts with
  | [] => []
  | t :: ts' =>
      repeat NL (Z.to_nat (tok_line t - line)) ++ print_token t ++ SP ::
      print_tokens (tok_line t) ts'
  end.

(** Lines do not decrease, from [line] on. *)
Fixpoint lines_from (line : Z) (ts : list Token) : Prop :=
  match ts with
  | [] => True
  | t :: ts' => line <= tok_line t ∧ lines_from (tok_line t) ts'
  end.

Definition last_line (line : Z) (ts : list Token) : Z :=
  fold_left (λ _ t, tok_line t) ts line.

(** A token that can be printed: of its lexical form, its contents bytes. *)
Definition printable (t : Token) : Prop :=
  token_ok t ∧ Forall (λ c, 0 <= c < 256) (text t).

Section print.
Context (LONG_MAX : Z) (Hmax : 255 <= LONG_MAX).
#[local] Set Default Proof Using "All".

Lemma print_char_lex fuel c l value line :
  0 <= c < 256 → starts_with isdigit l = false →
  lex_string LONG_MAX (S fuel) (print_char c ++ l) value line =
  lex_string LONG_MAX fuel l (value ++ [c]) line.
Proof.
  intros Hc Hl. unfold print_char.
  destruct (_ || _) eqn:E1.
  { apply orb_true_iff in E1 as [E|E]; zbool; subst c; reflexivity. }
  zbool. destruct ((c =? NL) || isdigit c) eqn:E2.
  - assert (span isdigit ([48 + c / 100; 48 + c / 10 mod 10; 48 + c mod 10] ++ l) =
      ([48 + c / 100; 48 + c / 10 mod 10; 48 + c mod 10], l)) as Hs.
    { apply span_app; [|done].
      pose proof (Z.mod_pos_bound (c / 10) 10 ltac:(lia)).
      pose proof (Z.mod_pos_bound c 10 ltac:(lia)).
      pose proof (Z.div_pos c 100 ltac:(lia) ltac:(lia)).
      pose proof (Z.div_lt_upper_bound c 100 3 ltac:(lia) ltac:(lia)).
      repeat constructor; unfold isdigit; apply andb_true_intro; split; apply Z.leb_le; lia. }
    assert (number_value 10 [48 + c / 100; 48 + c / 10 mod 10; 48 + c mod 10] = c) as Hv.
    { unfold number_value, digit_value. simpl.
      assert (c = 10 \/ c = 48 \/ c = 49 \/ c = 50 \/ c = 51 \/ c = 52 \/ c = 53 \/ c = 54
        \/ c = 55 \/ c = 56 \/ c = 57) as Hcases.
      { apply orb_true_iff in E2 as [E|E]; [zbool; auto|]. unfold isdigit in E. zbool. lia. }
      by repeat destruct Hcases as [-> | Hcases]; subst. }
    cbn [lex_string app]. cbn [app] in Hs. rewrite Hs.
    change (BACKSLASH =? QUOTE) with false. change (BACKSLASH =? NL) with false.
    change (BACKSLASH =? BACKSLASH) with true. cbn match.
    assert (isdigit (48 + c / 100) = true) as ->.
    { pose proof (span_spec isdigit ([48 + c / 100; 48 + c / 10 mod 10; 48 + c mod 10] ++ l))
        as (_ & Hd & _). cbn [app] in Hd. rewrite Hs in Hd. by inversion Hd. }
    assert (((48 + c / 100) =? QUOTE) || ((48 + c / 100) =? BACKSLASH) = false) as ->.
    { pose proof (Z.div_pos c 100 ltac:(lia) ltac:(lia)).
      pose proof (Z.div_lt_upper_bound c 100 3 ltac:(lia) ltac:(lia)).
      apply orb_false_intro; apply Z.eqb_neq; unfold QUOTE, BACKSLASH; lia. }
    unfold stol. rewrite Hv. replace (LONG_MAX <? c) with false by (symmetry; apply Z.ltb_ge; lia).
    by rewrite u8_small.
  - zbool. cbn [lex_string app].
    rewrite (proj2 (Z.eqb_neq c QUOTE)), (proj2 (Z.eqb_neq c NL)),
      (proj2 (Z.eqb_neq c BACKSLASH)) by done. done.
Qed.

Lemma print_chars_head (v : list Z) rest :
  Forall (λ c, 0 <= c < 256) v →
  starts_with isdigit (flat_map print_char v ++ QUOTE :: rest) = false.
Proof.
  intros Hv. destruct Hv as [|c v Hc Hv]; [done|]. cbn [flat_map].
  unfold print_char. destruct (_ || _); [done|].
  destruct (c =? NL); [done|]. by destruct (isdigit c) eqn:E.
Qed.

Lemma print_string_lex fuel v value rest line :
  Forall (λ c, 0 <= c < 256) v → (length v < fuel)%nat →
  lex_string LONG_MAX fuel (flat_map print_char v ++ QUOTE :: rest) value line =
  inr (value ++ v, rest).
Proof.
  intros Hv. revert fuel value. induction Hv as [|c v Hc Hv IH]; intros fuel value Hf.
  - destruct fuel as [|fuel]; [simpl in Hf; lia|]. simpl. by rewrite app_nil_r.
  - destruct fuel as [|fuel]; [simpl in Hf; lia|]. simpl in Hf. cbn [flat_map].
    rewrite <- app_assoc, print_char_lex by (done || by apply print_chars_head).
    rewrite IH by lia. by rewrite <- app_assoc.
Qed.

Lemma print_char_length (v : list Z) : (length v <= length (flat_map print_char v))%nat.
Proof.
  induction v as [|c v IH]; [done|]. cbn [flat_map]. rewrite length_app. simpl.
  assert (1 <= length (print_char c))%nat; [|lia]. unfold print_char.
  destruct (_ || _); [simpl; lia|]. destruct (_ || _); simpl; lia.
Qed.

Lemma lex_one_name c l line :
  IsNameStart c = true →
  lex_one LONG_MAX c l line =
  let '(name, rest) := span IsNameCont (c :: l) in Push (mkToken kName name line) rest line.
Proof.
  intros Hc. unfold lex_one. rewrite Hc.
  assert (95 = c ∨ 65 <= c <= 90 ∨ 97 <= c <= 122) as Hr.
  { clia. }
  replace (c =? NL) with false by clia.
  replace (isspace c) with false by clia.
  replace (c =? ch "/") with false by clia. done.
Qed.

Lemma lex_one_digit c l line :
  isdigit c = true → lex_one LONG_MAX c l line = lex_number (c :: l) line.
Proof.
  intros Hc. unfold lex_one. rewrite Hc.
  assert (48 <= c <= 57) as Hr by clia.
  replace (c =? NL) with false by clia.
  replace (isspace c) with false by clia.
  replace (c =? ch "/") with false by clia.
  replace (IsNameStart c) with false by clia. done.
Qed.

(** The exponent and the fraction scan back, before anything that does not
    continue them. *)
Lemma lex_exponent_print ex rest :
  exponent ex →
  match lex_exponent (ex ++ SP :: rest) with Some p => p | None => ([], ex ++ SP :: rest) end
  = (ex, SP :: rest).
Proof.
  intros [->|(e & sign & ds & -> & He & Hs & Hne & Hds)]; [done|].
  destruct ds as [|d ds]; [done|]. apply Forall_cons_1 in Hds as Hd. destruct Hd as [Hd _].
  pose proof (span_app isdigit (d :: ds) (SP :: rest) Hds eq_refl) as Hsp.
  assert ((d =? ch "+") = false) as H1 by clia.
  assert ((d =? ch "-") = false) as H2 by clia.
  unfold lex_exponent. cbn [app] in Hsp |- *.
  replace ((e =? ch "e") || (e =? ch "E")) with true by (by destruct He as [-> | ->]).
  destruct Hs as [->|[-> | ->]]; cbn [app].
  - rewrite H1, H2. cbn [orb starts_with]. by rewrite Hd, Hsp.
  - change ((ch "+" =? ch "+") || (ch "+" =? ch "-")) with true.
    cbn [starts_with]. by rewrite Hd, Hsp.
  - change ((ch "-" =? ch "+") || (ch "-" =? ch "-")) with true.
    cbn [starts_with]. by rewrite Hd, Hsp.
Qed.

Lemma lex_fraction_print fr ex rest :
  fraction fr → exponent ex →
  match lex_fraction (fr ++ ex ++ SP :: rest) with
  | Some p => p | None => ([], fr ++ ex ++ SP :: rest)
  end = (fr, ex ++ SP :: rest).
Proof.
  intros [->|(ds & -> & Hne & Hds)] Hex.
  - destruct Hex as [->|(e & sign & ds & -> & He & _)]; [done|].
    by destruct He as [-> | ->].
  - destruct ds as [|d ds]; [done|]. apply Forall_cons_1 in Hds as Hd. destruct Hd as [Hd _].
    assert (starts_with isdigit (ex ++ SP :: rest) = false) as Hst.
    { destruct Hex as [->|(e & sign & ds' & -> & He & _)]; [done|]. by destruct He as [-> | ->]. }
    pose proof (span_app isdigit (d :: ds) _ Hds Hst) as Hsp.
    unfold lex_fraction. cbn [app starts_with] in Hsp |- *. rewrite Hd, Z.eqb_refl.
    cbn [andb]. by rewrite Hsp.
Qed.

(** What can follow the integer part of a number is not a digit. *)
Lemma after_digits fr ex rest :
  fraction fr → exponent ex →
  starts_with (λ c, isdigit c || (c =? ch "x") || (c =? ch "X")) (fr ++ ex ++ SP :: rest) = false.
Proof.
  intros [->|(ds & -> & _)] Hex; [|done].
  destruct Hex as [->|(e & sign & ds & -> & He & _)]; [done|]. by destruct He as [-> | ->].
Qed.

Lemma lex_number_print ds fr ex rest line :
  ds ≠ [] → digits ds → fraction fr → exponent ex →
  lex_number (ds ++ fr ++ ex ++ SP :: rest) line =
  if negb (bool_decide (fr = [])) || negb (bool_decide (ex = []))
  then Push (mkToken kFloatNumber (ds ++ fr ++ ex) line) (SP :: rest) line
  else if (1 <? Z.of_nat (length ds)) && starts_with (λ c, c =? ch "0") ds
  then Throw (LexError OctalNotAllowed line)
  else Push (mkToken kNumber ds line) (SP :: rest) line.
Proof.
  intros Hne Hds Hfr Hex. pose proof (after_digits fr ex rest Hfr Hex) as Haf.
  assert (starts_with isdigit (fr ++ ex ++ SP :: rest) = false) as Hd.
  { destruct (fr ++ ex ++ SP :: rest); [done|]. simpl in *. by zbool. }
  transitivity (lex_decimal (ds ++ fr ++ ex ++ SP :: rest) line).
  - destruct ds as [|d ds]; [done|]. unfold lex_number. simpl.
    destruct ds as [|d' ds]; simpl.
    + destruct (fr ++ ex ++ SP :: rest) as [|x l]; [done|]. simpl in Haf. zbool.
      rewrite (proj2 (Z.eqb_neq x _)), (proj2 (Z.eqb_neq x _)) by done.
      by rewrite andb_false_r.
    + apply Forall_cons_1 in Hds as [_ [Hd' _]%Forall_cons_1].
      assert ((d' =? ch "x") || (d' =? ch "X") = false) as ->.
      { clia. }
      by rewrite andb_false_r.
  - unfold lex_decimal. rewrite span_app by done.
    by rewrite lex_fraction_print, lex_exponent_print.
Qed.

Lemma lex_print_token t :
  printable t →
  ∃ c l, print_token t = c :: l ∧
    ∀ rest, lex_one LONG_MAX c (l ++ SP :: rest) (tok_line t) = Push t (SP :: rest) (tok_line t).
Proof.
  destruct t as [ty txt line]. intros [Hok Hb].
  destruct ty; cbn in Hok, Hb |- *;
    try (subst txt; eexists _, []; split; [reflexivity|]; by intros rest).
  - destruct Hok as (c & l & -> & Hc & Hl). exists c, l. split; [done|]. intros rest.
    rewrite lex_one_name by done. rewrite app_comm_cons, span_app; [done| |done].
    constructor; [by apply IsNameStart_Cont|done].
  - destruct Hok as (Hne & Hds & H0). destruct txt as [|c l]; [done|]. exists c, l.
    split; [done|]. intros rest. rewrite lex_one_digit by (by apply Forall_cons_1 in Hds as [? _]).
    pose proof (lex_number_print (c :: l) [] [] rest line Hne Hds) as E. cbn [app] in E |- *.
    rewrite E by (by left). clear E. simpl (negb _). cbn match.
    destruct (starts_with _ (c :: l)) eqn:Hz; [|by rewrite andb_false_r]. by rewrite H0.
  - destruct Hok as (x & l & -> & Hx & Hne & Hh). exists (ch "0"), (x :: l). split; [done|].
    intros rest. rewrite lex_one_digit by done. unfold lex_number. cbn [app].
    replace ((ch "0" =? ch "0") && ((x =? ch "x") || (x =? ch "X"))) with true
      by (by destruct Hx as [-> | ->]).
    rewrite span_app by done. by destruct (decide (l = [])).
  - destruct Hok as (ds & fr & ex & -> & Hds & Hfr & Hex & H1 & H2).
    destruct ds as [|d ds].
    + destruct H2 as [?|H2]; [done|]. destruct Hfr as [->|(ds & -> & Hne & Hds')]; [done|].
      exists (ch "."), (ds ++ ex). split; [done|]. intros rest.
      assert (starts_with isdigit (ds ++ ex ++ SP :: rest) = true) as Hst.
      { destruct ds; [done|]. by apply Forall_cons_1 in Hds' as [? _]. }
      rewrite <- app_assoc.
      transitivity (lex_dot_float (ch ".") (ds ++ ex ++ SP :: rest) line).
      { unfold lex_one. rewrite Hst. done. }
      unfold lex_dot_float. rewrite span_app; [|done|].
      * by rewrite lex_exponent_print.
      * destruct Hex as [->|(e & sign & ds' & -> & He & _)]; [done|]. by destruct He as [-> | ->].
    + exists d, (ds ++ fr ++ ex). split; [done|]. intros rest.
      rewrite lex_one_digit by (by apply Forall_cons_1 in Hds as [? _]).
      pose proof (lex_number_print (d :: ds) fr ex rest line) as E.
      rewrite <- !app_assoc, app_comm_cons, E by done. clear E.
      by destruct H1 as [H1|H1]; destruct (bool_decide_reflect (fr = []));
        destruct (bool_decide_reflect (ex = [])).
  - eexists QUOTE, _. split; [reflexivity|]. intros rest. rewrite <- app_assoc. cbn [app].
    unfold lex_one. cbn -[lex_string length].
    rewrite print_string_lex; [done|done|]. rewrite length_app. pose proof (print_char_length txt). lia.
  - subst txt. by exists (ch "="), [ch ">"].
  - done.
Qed.

(** Newlines, then the space after a token. *)
Lemma lex_loop_newlines k fuel l line :
  lex_loop LONG_MAX (k + fuel) (repeat NL k ++ l) line =
  lex_loop LONG_MAX fuel l (line + Z.of_nat k).
Proof.
  revert line. induction k as [|k IH]; intros line; simpl; [by rewrite Z.add_0_r|].
  rewrite IH. f_equal. lia.
Qed.

Lemma lex_loop_print ts fuel line :
  Forall printable ts → lines_from line ts → (length (print_tokens line ts) <= fuel)%nat →
  lex_loop LONG_MAX fuel (print_tokens line ts) line =
  inr (ts ++ [mkToken kEnd [] (last_line line ts)]).
Proof.
  intros Hts. revert fuel line. induction Hts as [|t ts Ht Hts IH]; intros fuel line Hl Hf.
  { by destruct fuel. }
  destruct Hl as [Hl Hls]. cbn [print_tokens] in Hf |- *.
  rewrite !length_app, repeat_length in Hf. cbn [length] in Hf.
  set (k := Z.to_nat (tok_line t - line)) in *.
  replace fuel with (k + (fuel - k))%nat by lia. rewrite lex_loop_newlines.
  replace (line + Z.of_nat k) with (tok_line t) by (subst k; lia).
  destruct (lex_print_token t Ht) as (c & l & E & Hlex). rewrite E in Hf |- *. simpl in Hf.
  destruct (fuel - k)%nat as [|fuel'] eqn:Ef; [lia|]. cbn [app lex_loop].
  rewrite Hlex. destruct fuel' as [|fuel']; [lia|]. cbn [lex_loop].
  change (lex_one LONG_MAX SP (print_tokens (tok_line t) ts) (tok_line t))
    with (Skip (print_tokens (tok_line t) ts) (tok_line t)). cbn match.
  by rewrite IH by (done || lia).
Qed.
End print.

(** C10: Round trip: tokens in non-decreasing line order, each of its lexical
    form, survive printing and scanning: types, texts, lines and any bytes
    inside string literals (quotes, backslashes, newlines and digits go through
    the literal's escapes). *)
Theorem tokenize_print LONG_MAX ts :
  255 <= LONG_MAX → Forall printable ts → lines_from 1 ts →
  Tokenize LONG_MAX (print_tokens 1 ts) = inr (ts ++ [mkToken kEnd [] (last_line 1 ts)]).
Proof. intros. by apply lex_loop_print. Qed.

Definition print_demo : list Token :=
  [mkToken kName (bytes "x_1") 1; mkToken kEquals [] 1; mkToken kMinus [] 3;
   mkToken kFloatNumber (bytes "1e9") 3; mkToken kArrow [] 4;
   mkToken kStringLiteral [QUOTE; 10; 55; 200; BACKSLASH] 4].

Lemma tokenize_print_witness :
  Tokenize (2 ^ 31 - 1) (print_tokens 1 print_demo) =
  inr (print_demo ++ [mkToken kEnd [] 4]).
Proof.
  apply (tokenize_print (2 ^ 31 - 1) print_demo); [lia| |by cbn].
  repeat constructor; cbn; try done; try lia.
  - exists 120, (bytes "_1"). split_and!; [done|done|by repeat constructor].
  - exists (bytes "1"), [], (bytes "e9"). split_and!; auto; [by repeat constructor|by left|].
    right. exists 101, [], (bytes "9"). split_and!; auto. by repeat constructor.
Defined.
