(* ===== verification/Ast.v ===== *)
(** * The IR of a .voodoom file

    The types of [src/ast.h].  A [std::shared_ptr] is an option: [None] is null.
    A [double] is a [spec_float] with 53 bits of precision. *)
From S2P Require Import Prelude.
From Stdlib Require Import Ascii SpecFloat.

Inductive TypeKind :=
  | kBool | kInt8 | kUint8 | kInt16 | kUint16 | kInt32 | kUint32 | kInt64 | kUint64
  | kFloat | kDouble | kString
  | kEnumRef | kStructRef | kUnionRef
  | kArray | kMap
  | kPendingRemote | kPendingReceiver | kPendingAssociatedRemote
  | kPendingAssociatedReceiver
  | kHandle | kHandleMessagePipe | kHandleDataPipeConsumer | kHandleDataPipeProducer
  | kHandleSharedBuffer | kHandlePlatform.

#[export] Instance TypeKind_eq_dec : EqDecision TypeKind.
Proof. solve_decision. Defined.

Inductive TypeSpec := mkTypeSpec {
  t_kind : TypeKind;
  t_name : list Z;
  element : option TypeSpec;
  key : option TypeSpec;
  nullable : bool;
  owner_namespace : list Z;
  owner_container : list Z;
  fixed_array_size : Z
}.

(** The members of [TypeSpec] as they are initialised, for a kind. *)
Definition TypeSpec_init (k : TypeKind) : TypeSpec := mkTypeSpec k [] None None false [] [] 0.

Inductive EnableIfMode := kNone | kAny | kAll.
Record EnableIfClause := mkEnableIfClause { mode : EnableIfMode; flags : list (list Z) }.
Record EnableIf := mkEnableIf { enable_if : EnableIfClause; enable_if_not : EnableIfClause }.

Record Param := mkParam {
  p_type : TypeSpec;
  p_name : list Z;
  p_min_version : Z;
  p_ordinal : Z;
  p_has_explicit_ordinal : bool;
  p_enable_if : EnableIf
}.

Record Method := mkMethod {
  m_name : list Z;
  m_ordinal : Z;
  m_has_explicit_ordinal : bool;
  m_params : list Param;
  has_response : bool;
  response_params : list Param;
  is_result_response : bool;
  result_success : TypeSpec;
  result_error : TypeSpec;
  is_sync : bool;
  m_min_version : Z;
  m_enable_if : EnableIf
}.

(** The name of a struct or union in C++ and in the graph of complete types. *)
Definition EmbedDeclKey (container name : list Z) : list Z :=
  if bool_decide (container = []) then name else container ++ bytes "_" ++ name.

(** [AppendCompleteTypeDeps]: the keys it appends; [None] if the code
    dereferences a null [element]. *)
Fixpoint AppendCompleteTypeDeps (t : TypeSpec) : option (list (list Z)) :=
  match t_kind t with
  | kMap => Some []
  | kArray =>
      if fixed_array_size t =? 0 then Some []
      else match element t with Some e => AppendCompleteTypeDeps e | None => None end
  | kStructRef | kUnionRef =>
      if nullable t then Some []
      else if negb (bool_decide (owner_namespace t = [])) then Some []
      else Some [EmbedDeclKey (owner_container t) (t_name t)]
  | _ => Some []
  end.

Definition EnableIfClause_init : EnableIfClause := mkEnableIfClause kNone [].
Definition EnableIf_init : EnableIf := mkEnableIf EnableIfClause_init EnableIfClause_init.

(** [DefaultValue::FloatSpecial]. *)
Inductive FloatSpecial := FS_kNone | FS_kInfinity | FS_kNegativeInfinity | FS_kNaN.

Record DefaultValue := mkDefaultValue {
  has_value : bool;
  bool_value : bool;
  int_value : Z;
  float_value : spec_float;
  float_special : FloatSpecial;
  string_value : list Z;
  named_expr : list Z;
  named_expr_owner_namespace : list Z;
  named_expr_owner_container : list Z
}.

Definition DefaultValue_init : DefaultValue :=
  mkDefaultValue false false 0 (S754_zero false) FS_kNone [] [] [] [].

Record ConstDecl := mkConstDecl {
  c_type : TypeSpec;
  c_name : list Z;
  c_value : DefaultValue;
  c_decl_index : Z;
  c_enable_if : EnableIf
}.

Record EnumValue := mkEnumValue {
  v_name : list Z;
  v_value : Z;
  v_min_version : Z;
  v_is_default : bool;
  v_enable_if : EnableIf
}.

Record EnumDecl := mkEnumDecl {
  e_name : list Z;
  e_values : list EnumValue;
  e_is_extensible : bool;
  e_is_native : bool;
  e_enable_if : EnableIf
}.

Record StructField := mkStructField {
  f_type : TypeSpec;
  f_name : list Z;
  f_default_value : DefaultValue;
  f_min_version : Z;
  f_ordinal : Z;
  f_has_explicit_ordinal : bool;
  f_enable_if : EnableIf
}.

Record StructDecl := mkStructDecl {
  s_name : list Z;
  s_fields : list StructField;
  s_enums : list EnumDecl;
  s_consts : list ConstDecl;
  s_decl_index : Z;
  s_version : Z;
  s_owner_container : list Z;
  s_is_native : bool;
  s_enable_if : EnableIf
}.

Record UnionField := mkUnionField {
  uf_type : TypeSpec;
  uf_name : list Z;
  uf_tag : Z;
  uf_has_explicit_tag : bool;
  uf_min_version : Z;
  uf_is_default : bool;
  uf_enable_if : EnableIf
}.

Record UnionDecl := mkUnionDecl {
  u_name : list Z;
  u_fields : list UnionField;
  u_decl_index : Z;
  u_version : Z;
  u_is_extensible : bool;
  u_owner_container : list Z;
  u_enable_if : EnableIf
}.

Record Interface := mkInterface {
  i_name : list Z;
  i_methods : list Method;
  i_enums : list EnumDecl;
  i_consts : list ConstDecl;
  i_structs : list StructDecl;
  i_unions : list UnionDecl;
  i_version : Z;
  i_is_extensible : bool;
  i_enable_if : EnableIf
}.

Record ImportDecl := mkImportDecl {
  imp_path : list Z;
  imp_line : Z;
  imp_resolved_path : list Z
}.

Record FeatureDecl := mkFeatureDecl {
  ft_name : list Z;
  ft_consts : list ConstDecl;
  ft_enable_if : EnableIf
}.

Record Module_ := mkModule {
  mod_name : list Z;
  mod_imports : list ImportDecl;
  mod_enums : list EnumDecl;
  mod_structs : list StructDecl;
  mod_unions : list UnionDecl;
  mod_interfaces : list Interface;
  mod_consts : list ConstDecl;
  mod_features : list FeatureDecl
}.

Definition Module_init : Module_ := mkModule [] [] [] [] [] [] [] [].
