(* ===== verification/TypeIntern.v ===== *)
(** * Interned type keys

    [src/type_intern.cc].  [TypeKey] and what uses it return [None] where the
    code dereferences a null [element] or [key]. *)
From S2P Require Import Prelude Ast.
From Stdlib Require Import Ascii.

Definition QualName (ns name : list Z) : list Z :=
  if bool_decide (ns = []) then name else ns ++ bytes "." ++ name.

Definition HandleKey (k : TypeKind) : list Z :=
  match k with
  | kHandle => bytes "handle"
  | kHandleMessagePipe => bytes "handle<message_pipe>"
  | kHandleDataPipeConsumer => bytes "handle<data_pipe_consumer>"
  | kHandleDataPipeProducer => bytes "handle<data_pipe_producer>"
  | kHandleSharedBuffer => bytes "handle<shared_buffer>"
  | kHandlePlatform => bytes "handle<platform>"
  | _ => bytes "handle"
  end.

(** [std::to_string] of a non-negative [int]: at most ten digits. *)
Fixpoint to_digits (fuel : nat) (n : Z) (acc : list Z) : list Z :=
  match fuel with
  | O => acc
  | S fuel' =>
      let acc' := (48 + n mod 10) :: acc in
      if n / 10 =? 0 then acc' else to_digits fuel' (n / 10) acc'
  end.
Definition to_string (n : Z) : list Z := to_digits 10 n [].

Fixpoint TypeKey (t : TypeSpec) (current_ns : list Z) : option (list Z) :=
  let ns := if bool_decide (owner_namespace t = []) then current_ns else owner_namespace t in
  let elem := match element t with Some e => TypeKey e current_ns | None => None end in
  let k := match key t with Some e => TypeKey e current_ns | None => None end in
  let qual := QualName ns (t_name t) in
  let base :=
    match t_kind t with
    | kBool => Some (bytes "bool")
    | kInt8 => Some (bytes "int8")
    | kUint8 => Some (bytes "uint8")
    | kInt16 => Some (bytes "int16")
    | kUint16 => Some (bytes "uint16")
    | kInt32 => Some (bytes "int32")
    | kUint32 => Some (bytes "uint32")
    | kInt64 => Some (bytes "int64")
    | kUint64 => Some (bytes "uint64")
    | kFloat => Some (bytes "float")
    | kDouble => Some (bytes "double")
    | kString => Some (bytes "string")
    | kEnumRef =>
        let n := if bool_decide (owner_container t = []) then t_name t
                 else owner_container t ++ bytes "." ++ t_name t in
        Some (bytes "enum:" ++ QualName ns n)
    | kStructRef => Some (bytes "struct:" ++ qual)
    | kUnionRef => Some (bytes "union:" ++ qual)
    | kArray =>
        e ← elem;
        Some (if 0 <? fixed_array_size t
              then bytes "array<" ++ e ++ bytes "," ++ to_string (fixed_array_size t) ++ bytes ">"
              else bytes "array<" ++ e ++ bytes ">")
    | kMap => kk ← k; e ← elem; Some (bytes "map<" ++ kk ++ bytes "," ++ e ++ bytes ">")
    | kPendingRemote => Some (bytes "pending_remote<" ++ qual ++ bytes ">")
    | kPendingReceiver => Some (bytes "pending_receiver<" ++ qual ++ bytes ">")
    | kPendingAssociatedRemote =>
        Some (bytes "pending_associated_remote<" ++ qual ++ bytes ">")
    | kPendingAssociatedReceiver =>
        Some (bytes "pending_associated_receiver<" ++ qual ++ bytes ">")
    | kHandle | kHandleMessagePipe | kHandleDataPipeConsumer | kHandleDataPipeProducer
    | kHandleSharedBuffer | kHandlePlatform => Some (HandleKey (t_kind t))
    end in
  b ← base; Some (if nullable t then b ++ bytes "?" else b).

Fixpoint JoinParams (ps : list Param) (ns : list Z) : option (list Z) :=
  match ps with
  | [] => Some []
  | [p] => TypeKey (p_type p) ns
  | p :: ps' =>
      a ← TypeKey (p_type p) ns; b ← JoinParams ps' ns; Some (a ++ bytes "," ++ b)
  end.

Definition NamedKey (ns name kind : list Z) : list Z := kind ++ bytes ":" ++ QualName ns name.

Definition MethodKey (ns iface : list Z) (m : Method) : option (list Z) :=
  ps ← JoinParams (m_params m) ns;
  let head := bytes "func " ++ QualName ns iface ++ bytes "." ++ m_name m ++ bytes "(" ++
              ps ++ bytes ")" in
  if is_result_response m then
    s ← TypeKey (result_success m) ns; e ← TypeKey (result_error m) ns;
    Some (head ++ bytes "->result<" ++ s ++ bytes "," ++ e ++ bytes ">")
  else if has_response m then
    rs ← JoinParams (response_params m) ns;
    Some (head ++ bytes "->(" ++ rs ++ bytes ")")
  else Some head.

Record TypeIntern := mkTypeIntern { by_key_ : gmap (list Z) Z; keys_ : list (list Z) }.
Definition TypeIntern_init : TypeIntern := mkTypeIntern ∅ [].

Definition InternKey (k : list Z) (st : TypeIntern) : Z * TypeIntern :=
  match by_key_ st !! k with
  | Some id => (id, st)
  | None =>
      let id := u32 (Z.of_nat (length (keys_ st)) + 1) in
      (id, mkTypeIntern (<[k := id]> (by_key_ st)) (keys_ st ++ [k]))
  end.

Definition Intern (t : TypeSpec) (current_ns : list Z) (st : TypeIntern) : option (Z * TypeIntern) :=
  k ← TypeKey t current_ns; Some (InternKey k st).

Definition InternNamed (ns name kind : list Z) (st : TypeIntern) : Z * TypeIntern :=
  InternKey (NamedKey ns name kind) st.

Definition InternMethod (ns iface : list Z) (m : Method) (st : TypeIntern)
    : option (Z * TypeIntern) :=
  k ← MethodKey ns iface m; Some (InternKey k st).

Definition Identical (a b : Z) : bool := a =? b.

Definition Key (id : Z) (st : TypeIntern) : list Z :=
  if (id =? 0) || (Z.of_nat (length (keys_ st)) <? id) then []
  else default [] (keys_ st !! Z.to_nat (id - 1)).

Definition size (st : TypeIntern) : Z := u32 (Z.of_nat (length (keys_ st))).
