(* ===== verification/TypeProps.v ===== *)
(** * Properties of type interning *)
From S2P Require Import Prelude Lexer LexProps Ast TypeIntern.
From Stdlib Require Import Ascii ZifyBool.

(** ** The table of keys *)

(** Ids are positions: the map and the vector are inverse, and no id has
    wrapped. *)
Definition intern_ok (st : TypeIntern) : Prop :=
  Z.of_nat (length (keys_ st)) < 2 ^ 32 ∧
  ∀ k id, by_key_ st !! k = Some id ↔
    1 <= id ∧ keys_ st !! Z.to_nat (id - 1) = Some k.

(** Interning a list of keys in order. *)
Fixpoint intern_all (ks : list (list Z)) (st : TypeIntern) : list Z * TypeIntern :=
  match ks with
  | [] => ([], st)
  | k :: ks' =>
      let '(id, st1) := InternKey k st in
      let '(ids, st2) := intern_all ks' st1 in (id :: ids, st2)
  end.

Lemma InternKey_spec k st :
  intern_ok st → Z.of_nat (length (keys_ st)) + 1 < 2 ^ 32 →
  let '(id, st') := InternKey k st in
  intern_ok st' ∧ by_key_ st' !! k = Some id ∧
  (∃ l, keys_ st' = keys_ st ++ l ∧ (length l <= 1)%nat ∧ Forall (eq k) l) ∧
  by_key_ st ⊆ by_key_ st'.
Proof.
  intros [Hlen Hok] Hroom. unfold InternKey.
  destruct (by_key_ st !! k) as [id|] eqn:E.
  { split_and!; [done|done| |done]. exists []. split_and!; [by rewrite app_nil_r|simpl; lia|done]. }
  rewrite u32_small by lia. set (n := length (keys_ st)) in *. split_and!; cbn.
  - split; cbn; [rewrite length_app; simpl; fold n; lia|]. intros k' id.
    destruct (decide (k' = k)) as [->|Hne].
    + rewrite lookup_insert_eq. split.
      * intros [= <-]. split; [lia|].
        replace (Z.to_nat (Z.of_nat n + 1 - 1)) with n by lia. by apply list_lookup_middle.
      * intros [Hid [H|[H _]]%lookup_app_Some_cases].
        -- assert (by_key_ st !! k = Some id) as H' by (apply Hok; by split).
           congruence.
        -- f_equal. fold n in H. lia.
    + rewrite lookup_insert_ne by done. rewrite Hok. split.
      * intros [? H]. split; [done|]. by apply lookup_app_l_Some.
      * intros [? [H|[_ H]]%lookup_app_Some_cases]; [by split|congruence].
  - by rewrite lookup_insert_eq.
  - exists [k]. split_and!; [done|done|by repeat constructor].
  - by apply insert_subseteq.
Qed.

Lemma intern_all_spec ks st :
  intern_ok st → Z.of_nat (length (keys_ st) + length ks) < 2 ^ 32 →
  let '(ids, st') := intern_all ks st in
  intern_ok st' ∧ by_key_ st ⊆ by_key_ st' ∧
  Forall2 (λ k id, by_key_ st' !! k = Some id) ks ids.
Proof.
  revert st. induction ks as [|k ks IH]; intros st Hok Hroom; simpl; [done|].
  simpl in Hroom. pose proof (InternKey_spec k st Hok ltac:(lia)) as H1.
  destruct (InternKey k st) as [id st1]. destruct H1 as (Hok1 & Hid & (l & El & Hl & _) & Hsub).
  specialize (IH st1 Hok1). rewrite El, length_app in IH. specialize (IH ltac:(lia)).
  destruct (intern_all ks st1) as [ids st2]. destruct IH as (Hok2 & Hsub2 & Hall).
  split_and!; [done|by etrans|]. constructor; [by eapply lookup_weaken|done].
Qed.

Lemma intern_ok_init : intern_ok TypeIntern_init.
Proof.
  split; [done|]. intros k id. unfold TypeIntern_init. cbn. rewrite lookup_empty, lookup_nil.
  by split; [|intros []].
Qed.

(** In an interned table equal ids are equal keys. *)
Lemma intern_ok_inj st k1 k2 id :
  intern_ok st → by_key_ st !! k1 = Some id → by_key_ st !! k2 = Some id → k1 = k2.
Proof. intros [_ Hok] [_ H1]%Hok [_ H2]%Hok. congruence. Qed.

Lemma intern_ok_Key st k id :
  intern_ok st → by_key_ st !! k = Some id →
  Key id st = k ∧ 1 <= id <= size st.
Proof.
  intros [Hlen Hok] [Hid H]%Hok. apply lookup_lt_Some in H as Hlt.
  unfold Key, size. rewrite u32_small by lia.
  replace ((id =? 0) || (Z.of_nat (length (keys_ st)) <? id)) with false by lia.
  rewrite H. split; [done|lia].
Qed.

(** ** Shapes: what a key has of a type *)

Inductive Shape :=
  | ShScalar (k : TypeKind) (n : bool)
  | ShNamed (k : TypeKind) (qualified : list Z) (n : bool)
  | ShArray (e : Shape) (size : option Z) (n : bool)
  | ShMap (k e : Shape) (n : bool).

Definition is_named (k : TypeKind) : bool :=
  match k with
  | kEnumRef | kStructRef | kUnionRef | kPendingRemote | kPendingReceiver
  | kPendingAssociatedRemote | kPendingAssociatedReceiver => true
  | _ => false
  end.

(** What the key of [t] says: names are resolved against [current_ns]; the
    container counts for an enum only. *)
Fixpoint shape (t : TypeSpec) (current_ns : list Z) : option Shape :=
  let ns := if bool_decide (owner_namespace t = []) then current_ns else owner_namespace t in
  let elem := match element t with Some e => shape e current_ns | None => None end in
  let k := match key t with Some e => shape e current_ns | None => None end in
  match t_kind t with
  | kArray =>
      e ← elem;
      Some (ShArray e (if 0 <? fixed_array_size t then Some (fixed_array_size t) else None)
              (nullable t))
  | kMap => kk ← k; e ← elem; Some (ShMap kk e (nullable t))
  | kEnumRef =>
      let n := if bool_decide (owner_container t = []) then t_name t
               else owner_container t ++ bytes "." ++ t_name t in
      Some (ShNamed kEnumRef (QualName ns n) (nullable t))
  | kd => if is_named kd then Some (ShNamed kd (QualName ns (t_name t)) (nullable t))
          else Some (ShScalar kd (nullable t))
  end.

(** The key of a shape. *)
Definition scalar_key (k : TypeKind) : list Z :=
  match k with
  | kBool => bytes "bool" | kInt8 => bytes "int8" | kUint8 => bytes "uint8"
  | kInt16 => bytes "int16" | kUint16 => bytes "uint16" | kInt32 => bytes "int32"
  | kUint32 => bytes "uint32" | kInt64 => bytes "int64" | kUint64 => bytes "uint64"
  | kFloat => bytes "float" | kDouble => bytes "double" | kString => bytes "string"
  | _ => HandleKey k
  end.
Definition named_prefix (k : TypeKind) : list Z :=
  match k with
  | kEnumRef => bytes "enum:" | kStructRef => bytes "struct:" | kUnionRef => bytes "union:"
  | kPendingRemote => bytes "pending_remote<"
  | kPendingReceiver => bytes "pending_receiver<"
  | kPendingAssociatedRemote => bytes "pending_associated_remote<"
  | _ => bytes "pending_associated_receiver<"
  end.
Definition named_suffix (k : TypeKind) : list Z :=
  match k with kEnumRef | kStructRef | kUnionRef => [] | _ => bytes ">" end.
Definition question (n : bool) : list Z := if n then bytes "?" else [].

Fixpoint shape_key (s : Shape) : list Z :=
  match s with
  | ShScalar k n => scalar_key k ++ question n
  | ShNamed k q n => named_prefix k ++ q ++ named_suffix k ++ question n
  | ShArray e None n => bytes "array<" ++ shape_key e ++ bytes ">" ++ question n
  | ShArray e (Some z) n =>
      bytes "array<" ++ shape_key e ++ bytes "," ++ to_string z ++ bytes ">" ++ question n
  | ShMap k e n =>
      bytes "map<" ++ shape_key k ++ bytes "," ++ shape_key e ++ bytes ">" ++ question n
  end.

Fixpoint TypeSpec_depth (t : TypeSpec) : nat :=
  S (match element t with Some e => TypeSpec_depth e | None => 0 end
     + match key t with Some e => TypeSpec_depth e | None => 0 end).

Lemma TypeKey_shape t ns : TypeKey t ns = shape_key <$> shape t ns.
Proof.
  remember (TypeSpec_depth t) as d eqn:Hd. assert (TypeSpec_depth t <= d)%nat as Hle by lia.
  clear Hd. revert t Hle. induction d as [|d IH]; intros t Hle; [destruct t; simpl in Hle; lia|].
  destruct t as [k nm el ke nl on oc fs]. simpl in Hle.
  assert (∀ e, el = Some e → TypeKey e ns = shape_key <$> shape e ns) as Hel.
  { intros e ->. apply IH. lia. }
  assert (∀ e, ke = Some e → TypeKey e ns = shape_key <$> shape e ns) as Hke.
  { intros e ->. apply IH. lia. }
  destruct k; cbn -[bytes QualName to_string]; try (destruct nl; cbn -[bytes QualName to_string];
    rewrite ?app_nil_r, <- ?app_assoc; reflexivity).
  - destruct el as [e|]; [|done]. rewrite (Hel e eq_refl).
    destruct (shape e ns) as [s|]; [|done]. cbn -[bytes to_string].
    destruct (0 <? fs); destruct nl; cbn -[bytes to_string]; by rewrite ?app_nil_r, <- ?app_assoc.
  - destruct ke as [k|]; [|done]. rewrite (Hke k eq_refl).
    destruct (shape k ns) as [sk|]; [|done].
    destruct el as [e|]; [|done]. rewrite (Hel e eq_refl).
    destruct (shape e ns) as [s|]; [|done]. cbn -[bytes].
    destruct nl; cbn -[bytes]; by rewrite ?app_nil_r, <- ?app_assoc.
Qed.

(** ** Keys decode *)

(** A character of a (dotted) name: none of the key's own punctuation. *)
Definition name_char (c : Z) : bool :=
  negb (existsb (Z.eqb c) (bytes "<>,?() ")).
Definition name_ok (l : list Z) : Prop := Forall (λ c, name_char c = true) l.

Fixpoint shape_ok (s : Shape) : Prop :=
  match s with
  | ShScalar k _ => is_named k = false ∧ k ≠ kArray ∧ k ≠ kMap
  | ShNamed k q _ => is_named k = true ∧ name_ok q
  | ShArray e z _ => shape_ok e ∧ match z with Some z => 0 < z < 2 ^ 31 | None => True end
  | ShMap k e _ => shape_ok k ∧ shape_ok e
  end.

(** What may follow a key, and the same with the mark of a nullable type. *)
Definition closes (l : list Z) : Prop :=
  starts_with (λ c, negb (existsb (Z.eqb c) (bytes ",>)"))) l = false.
Definition closes_or_question (l : list Z) : Prop :=
  starts_with (λ c, negb (existsb (Z.eqb c) (bytes ",>)?"))) l = false.

Lemma question_closes n r : closes r → closes_or_question (question n ++ r).
Proof.
  destruct n; [done|]. unfold closes, closes_or_question. destruct r as [|c r]; [done|].
  cbn. clia.
Qed.

Lemma question_inj n1 n2 r1 r2 :
  closes r1 → closes r2 → question n1 ++ r1 = question n2 ++ r2 → n1 = n2 ∧ r1 = r2.
Proof.
  destruct n1, n2; cbn; intros H1 H2 E; try (split; congruence).
  - by rewrite <- E in H2.
  - by rewrite E in H1.
Qed.

Lemma closes_not_name l : closes_or_question l → starts_with name_char l = false.
Proof.
  unfold closes_or_question, name_char. destruct l as [|c l]; [done|]. cbn. clia.
Qed.

Lemma name_inj q1 q2 r1 r2 :
  name_ok q1 → name_ok q2 → starts_with name_char r1 = false →
  starts_with name_char r2 = false → q1 ++ r1 = q2 ++ r2 → q1 = q2 ∧ r1 = r2.
Proof.
  intros H1 H2 S1 S2 E. pose proof (span_app _ _ _ H1 S1) as E1.
  rewrite E, (span_app _ _ _ H2 S2) in E1. by simplify_eq.
Qed.

Lemma to_digits_spec fuel n acc :
  0 <= n < 10 ^ Z.of_nat fuel →
  ∃ ds, to_digits fuel n acc = ds ++ acc ∧ digits ds ∧ number_value 10 ds = n.
Proof.
  revert n acc. induction fuel as [|fuel IH]; intros n acc Hn.
  - exists []. split_and!; [done|by constructor|]. cbn in *. lia.
  - cbn [to_digits]. pose proof (Z.mod_pos_bound n 10 ltac:(lia)) as Hm.
    pose proof (Z_div_mod_eq_full n 10) as Hd.
    assert (isdigit (48 + n mod 10) = true) as Hdig by clia.
    assert (digit_value (48 + n mod 10) = n mod 10) as Hval.
    { unfold digit_value. rewrite Hdig. lia. }
    destruct (Z.eqb_spec (n / 10) 0) as [E|E].
    + exists [48 + n mod 10]. split_and!; [done|by repeat constructor|].
      unfold number_value. cbn. rewrite Hval. lia.
    + rewrite Nat2Z.inj_succ, Z.pow_succ_r in Hn by lia.
      destruct (IH (n / 10) ((48 + n mod 10) :: acc)) as (ds & -> & Hds & Hv).
      { split; [apply Z.div_pos; lia|apply Z.div_lt_upper_bound; lia]. }
      exists (ds ++ [48 + n mod 10]). split_and!; [by rewrite <- app_assoc| |].
      * apply Forall_app. split; [done|by repeat constructor].
      * unfold number_value in *. rewrite fold_left_app, Hv. cbn. rewrite Hval. lia.
Qed.

Lemma to_string_spec n :
  0 <= n < 2 ^ 31 → digits (to_string n) ∧ number_value 10 (to_string n) = n.
Proof.
  intros Hn. destruct (to_digits_spec 10 n []) as (ds & E & ? & ?); [cbn; lia|].
  unfold to_string. rewrite E, app_nil_r. done.
Qed.

Lemma digits_name l : digits l → name_ok l.
Proof.
  intros H. eapply Forall_impl; [exact H|]. intros c. cbn beta. unfold name_char. cbn. clia.
Qed.

Lemma to_string_inj a b : 0 <= a < 2 ^ 31 → 0 <= b < 2 ^ 31 → to_string a = to_string b → a = b.
Proof.
  intros [_ Ha]%to_string_spec [_ Hb]%to_string_spec E. congruence.
Qed.

Lemma scalar_key_inj k1 k2 x1 x2 :
  is_named k1 = false → k1 ≠ kArray → k1 ≠ kMap →
  is_named k2 = false → k2 ≠ kArray → k2 ≠ kMap →
  closes_or_question x1 → closes_or_question x2 →
  scalar_key k1 ++ x1 = scalar_key k2 ++ x2 → k1 = k2 ∧ x1 = x2.
Proof.
  destruct k1; try done; intros _ _ _; destruct k2; try done; intros _ _ _ H1 H2 E;
    cbn in E; try discriminate E; simplify_eq; done.
Qed.

Lemma named_suffix_closes k n r :
  closes r → starts_with name_char (named_suffix k ++ question n ++ r) = false.
Proof.
  intros H. destruct k; try reflexivity; by apply closes_not_name, question_closes.
Qed.

Lemma named_key_inj k1 k2 q1 q2 n1 n2 r1 r2 :
  is_named k1 = true → is_named k2 = true → name_ok q1 → name_ok q2 → closes r1 → closes r2 →
  named_prefix k1 ++ q1 ++ named_suffix k1 ++ question n1 ++ r1 =
  named_prefix k2 ++ q2 ++ named_suffix k2 ++ question n2 ++ r2 →
  k1 = k2 ∧ q1 = q2 ∧ n1 = n2 ∧ r1 = r2.
Proof.
  intros K1 K2 Q1 Q2 R1 R2 E. assert (k1 = k2) as <-.
  { destruct k1; try discriminate K1; destruct k2; try discriminate K2; try reflexivity;
      discriminate E. }
  apply app_inv_head, name_inj in E as [-> E]; [|done|done|by apply named_suffix_closes..].
  apply app_inv_head, question_inj in E as [-> ->]; done.
Qed.

Lemma closes_comma l : closes (bytes "," ++ l).
Proof. done. Qed.

Lemma closes_angle l : closes (bytes ">" ++ l).
Proof. done. Qed.

Lemma scalar_not_named k1 k2 x1 x2 :
  is_named k1 = false → k1 ≠ kArray → k1 ≠ kMap → is_named k2 = true →
  scalar_key k1 ++ x1 ≠ named_prefix k2 ++ x2.
Proof.
  destruct k1; try done; intros _ _ _; destruct k2; try done; intros _ E; discriminate E.
Qed.

(** A key is decoded by what it is: no key is a proper prefix of another key
    and its continuation. *)
Lemma shape_key_inj s1 s2 r1 r2 :
  shape_ok s1 → shape_ok s2 → closes r1 → closes r2 →
  shape_key s1 ++ r1 = shape_key s2 ++ r2 → s1 = s2 ∧ r1 = r2.
Proof.
  revert s2 r1 r2.
  induction s1 as [k n|k q n|e IHe z n|k IHk e IHe n]; intros s2 r1 r2 H1 H2 R1 R2 E.
  - destruct H1 as (A1 & A2 & A3). destruct s2 as [k2 n2|k2 q2 n2|e2 z2 n2|k2 e2 n2].
    + destruct H2 as (B1 & B2 & B3). cbn in E. rewrite <- !app_assoc in E.
      apply scalar_key_inj in E as [-> E]; try done; try by apply question_closes.
      apply question_inj in E as [-> ->]; done.
    + destruct H2 as [B1 _]. cbn in E. rewrite <- !app_assoc in E.
      by apply scalar_not_named in E.
    + exfalso. destruct k; try done; destruct z2; discriminate E.
    + exfalso. destruct k; try done; discriminate E.
  - destruct H1 as (A1 & A2). destruct s2 as [k2 n2|k2 q2 n2|e2 z2 n2|k2 e2 n2].
    + destruct H2 as (B1 & B2 & B3). cbn in E. rewrite <- !app_assoc in E.
      symmetry in E. by apply scalar_not_named in E.
    + destruct H2 as [B1 B2]. cbn in E. rewrite <- !app_assoc in E.
      by apply named_key_inj in E as (-> & -> & -> & ->).
    + exfalso. destruct k; try done; destruct z2; discriminate E.
    + exfalso. destruct k; try done; discriminate E.
  - destruct H1 as [A1 A2]. destruct s2 as [k2 n2|k2 q2 n2|e2 z2 n2|k2 e2 n2].
    + exfalso. destruct H2 as (B1 & B2 & B3). destruct k2; try done; destruct z; discriminate E.
    + exfalso. destruct H2 as [B1 _]. destruct k2; try done; destruct z; discriminate E.
    + destruct H2 as [B1 B2]. destruct z as [z|], z2 as [z2|]; cbn [shape_key] in E;
        rewrite <- !app_assoc in E; apply app_inv_head in E;
        apply IHe in E as [-> E]; try done.
      * apply app_inv_head, name_inj in E as [E1 E];
          [|apply digits_name, to_string_spec; lia|apply digits_name, to_string_spec; lia
           |done|done].
        apply to_string_inj in E1 as ->; [|lia..].
        apply app_inv_head, question_inj in E as [-> ->]; done.
      * apply app_inv_head, question_inj in E as [-> ->]; done.
    + exfalso. destruct z; discriminate E.
  - destruct H1 as [A1 A2]. destruct s2 as [k2 n2|k2 q2 n2|e2 z2 n2|k2 e2 n2].
    + exfalso. destruct H2 as (B1 & B2 & B3). destruct k2; try done; discriminate E.
    + exfalso. destruct H2 as [B1 _]. destruct k2; try done; discriminate E.
    + exfalso. destruct z2; discriminate E.
    + destruct H2 as [B1 B2]. cbn [shape_key] in E. rewrite <- !app_assoc in E.
      apply app_inv_head in E. apply IHk in E as [-> E]; [|done..].
      apply app_inv_head in E. apply IHe in E as [-> E]; [|done..].
      apply app_inv_head, question_inj in E as [-> ->]; done.
Qed.

(** ** Types *)

(** A type as the parser builds it: names of name characters, an element or
    key where the kind has one, an array size that is an [int]. *)
Fixpoint type_ok (t : TypeSpec) : Prop :=
  name_ok (t_name t) ∧ name_ok (owner_namespace t) ∧ name_ok (owner_container t) ∧
  fixed_array_size t < 2 ^ 31 ∧
  match t_kind t with
  | kArray => match element t with Some e => type_ok e | None => False end
  | kMap => match key t with Some e => type_ok e | None => False end ∧
            match element t with Some e => type_ok e | None => False end
  | _ => True
  end.

Lemma name_ok_dot a b : name_ok a → name_ok b → name_ok (a ++ bytes "." ++ b).
Proof. intros. apply Forall_app. split; [done|]. by constructor. Qed.

Lemma QualName_ok ns n : name_ok ns → name_ok n → name_ok (QualName ns n).
Proof. unfold QualName. intros. destruct (bool_decide _); [done|]. by apply name_ok_dot. Qed.

Lemma shape_total t ns :
  type_ok t → name_ok ns → ∃ s, shape t ns = Some s ∧ shape_ok s.
Proof.
  intros Ht Hns. remember (TypeSpec_depth t) as d eqn:Hd.
  assert (TypeSpec_depth t <= d)%nat as Hle by lia. clear Hd. revert t Ht Hle.
  induction d as [|d IH]; intros t Ht Hle; [destruct t; simpl in Hle; lia|].
  destruct t as [k nm el ke nl on oc fs]. simpl in Hle.
  cbn -[Z.pow] in Ht. destruct Ht as (Hn & Hon & Hoc & Hfs & Hsub).
  assert (name_ok (if bool_decide (on = []) then ns else on)) as Hq by (by destruct (bool_decide _)).
  destruct k; cbn -[QualName bytes Z.pow];
    try (eexists; split; [reflexivity|]; by split);
    try (eexists; split; [reflexivity|]; split; [done|]; by apply QualName_ok).
  - eexists; split; [reflexivity|]. split; [done|]. apply QualName_ok; [done|].
    destruct (bool_decide (oc = [])); [done|]. by apply name_ok_dot.
  - destruct el as [e|]; [|done]. destruct (IH e) as (s & -> & Hs); [done|lia|].
    cbn -[Z.pow]. eexists; split; [reflexivity|]. split; [done|].
    destruct (0 <? fs) eqn:E; [lia|done].
  - destruct Hsub as [Hk He]. destruct ke as [ke|]; [|done]. destruct el as [e|]; [|done].
    destruct (IH ke) as (sk & -> & Hsk); [done|lia|].
    destruct (IH e) as (s & -> & Hs); [done|lia|]. eexists; split; [reflexivity|]. by split.
Qed.

(** The types of the parser have keys, and keys are equal exactly when the
    shapes are. *)
Lemma TypeKey_total t ns : type_ok t → name_ok ns → ∃ k, TypeKey t ns = Some k.
Proof.
  intros Ht Hns. destruct (shape_total t ns Ht Hns) as (s & E & _).
  rewrite TypeKey_shape, E. by eexists.
Qed.

Lemma TypeKey_eq t1 t2 ns1 ns2 :
  type_ok t1 → type_ok t2 → name_ok ns1 → name_ok ns2 →
  TypeKey t1 ns1 = TypeKey t2 ns2 ↔ shape t1 ns1 = shape t2 ns2.
Proof.
  intros T1 T2 N1 N2. rewrite !TypeKey_shape. split; [|by intros ->].
  destruct (shape_total t1 ns1 T1 N1) as (s1 & -> & H1).
  destruct (shape_total t2 ns2 T2 N2) as (s2 & -> & H2). cbn. intros [= E].
  f_equal. by destruct (shape_key_inj s1 s2 [] [] H1 H2 eq_refl eq_refl ltac:(by rewrite E)).
Qed.

(** Interning a list of types, each in its namespace. *)
Fixpoint intern_types (ts : list (TypeSpec * list Z)) (st : TypeIntern)
    : option (list Z * TypeIntern) :=
  match ts with
  | [] => Some ([], st)
  | (t, ns) :: ts' =>
      '(id, st1) ← Intern t ns st; '(ids, st2) ← intern_types ts' st1; Some (id :: ids, st2)
  end.

Lemma intern_types_keys ts st :
  Forall (λ p, type_ok p.1 ∧ name_ok p.2) ts →
  ∃ ks, Forall2 (λ p k, TypeKey p.1 p.2 = Some k) ts ks ∧
    intern_types ts st = Some (intern_all ks st).
Proof.
  intros H. revert st. induction H as [|[t ns] ts [Ht Hns] H IH]; intros st.
  - exists []. by split.
  - destruct (TypeKey_total t ns Ht Hns) as [k Hk]. cbn in Hk.
    destruct (IH (snd (InternKey k st))) as (ks & Hks & E). exists (k :: ks).
    split; [by constructor|]. cbn. unfold Intern. rewrite Hk. cbn.
    destruct (InternKey k st) as [id st1]. cbn in E |- *. rewrite E. cbn.
    by destruct (intern_all ks st1).
Qed.

(** A run of the interner: every key gets an id between 1 and [size] that
    [Key] maps back to it, and two keys of the run get the same id exactly
    when they are equal. *)
Theorem intern_keys_canonical ks :
  Z.of_nat (length ks) < 2 ^ 32 →
  let '(ids, st) := intern_all ks TypeIntern_init in
  Forall2 (λ k id, Key id st = k ∧ 1 <= id <= size st) ks ids ∧
  ∀ i j k1 k2 id1 id2, ks !! i = Some k1 → ks !! j = Some k2 →
    ids !! i = Some id1 → ids !! j = Some id2 →
    Identical id1 id2 = true ↔ k1 = k2.
Proof.
  intros Hn. pose proof (intern_all_spec ks TypeIntern_init intern_ok_init Hn) as H.
  destruct (intern_all ks TypeIntern_init) as [ids st]. destruct H as (Hok & _ & Hall). split.
  - eapply Forall2_impl; [exact Hall|]. intros k id. by apply intern_ok_Key.
  - intros i j k1 k2 id1 id2 K1 K2 I1 I2. unfold Identical. rewrite Z.eqb_eq.
    pose proof (Forall2_lookup_lr _ _ _ _ _ _ Hall K1 I1) as L1.
    pose proof (Forall2_lookup_lr _ _ _ _ _ _ Hall K2 I2) as L2. cbn in L1, L2.
    split; [|congruence]. intros ->. by eapply intern_ok_inj.
Qed.

Lemma intern_keys_canonical_witness :
  let '(ids, st) := intern_all [bytes "bool"; bytes "int8"; bytes "bool"] TypeIntern_init in
  Forall2 (λ k id, Key id st = k ∧ 1 <= id <= size st)
    [bytes "bool"; bytes "int8"; bytes "bool"] ids ∧
  ∀ i j k1 k2 id1 id2, [bytes "bool"; bytes "int8"; bytes "bool"] !! i = Some k1 →
    [bytes "bool"; bytes "int8"; bytes "bool"] !! j = Some k2 →
    ids !! i = Some id1 → ids !! j = Some id2 →
    Identical id1 id2 = true ↔ k1 = k2.
Proof. exact (intern_keys_canonical [bytes "bool"; bytes "int8"; bytes "bool"] eq_refl). Defined.

Lemma intern_types_shapes ts :
  Forall (λ p, type_ok p.1 ∧ name_ok p.2) ts → Z.of_nat (length ts) < 2 ^ 32 →
  ∃ ids st, intern_types ts TypeIntern_init = Some (ids, st) ∧ length ids = length ts ∧
  ∀ i j p1 p2 id1 id2, ts !! i = Some p1 → ts !! j = Some p2 →
    ids !! i = Some id1 → ids !! j = Some id2 →
    Identical id1 id2 = true ↔ shape p1.1 p1.2 = shape p2.1 p2.2.
Proof.
  intros Hts Hn. destruct (intern_types_keys ts TypeIntern_init Hts) as (ks & Hks & E).
  pose proof (Forall2_length _ _ _ Hks) as Hlen.
  pose proof (intern_all_spec ks TypeIntern_init intern_ok_init) as H.
  destruct (intern_all ks TypeIntern_init) as [ids st]. destruct H as (Hok & _ & Hall);
    [cbn; lia|].
  exists ids, st. split_and!; [done|by rewrite Hlen, (Forall2_length _ _ _ Hall)|].
  intros i j p1 p2 id1 id2 P1 P2 I1 I2. unfold Identical. rewrite Z.eqb_eq.
  destruct (Forall2_lookup_l _ _ _ _ _ Hks P1) as (k1 & K1 & T1).
  destruct (Forall2_lookup_l _ _ _ _ _ Hks P2) as (k2 & K2 & T2).
  pose proof (Forall2_lookup_lr _ _ _ _ _ _ Hall K1 I1) as L1.
  pose proof (Forall2_lookup_lr _ _ _ _ _ _ Hall K2 I2) as L2. cbn in L1, L2.
  destruct (Forall_lookup_1 _ _ _ _ Hts P1) as [A1 B1].
  destruct (Forall_lookup_1 _ _ _ _ Hts P2) as [A2 B2].
  rewrite <- TypeKey_eq, T1, T2 by done. split; [|congruence].
  intros ->. f_equal. by eapply intern_ok_inj.
Qed.

(** ** Types, and the structural walk that ids replace *)

(** A declared type is known by its namespace, the interface or struct that it is declared
    in, if any, and its name. *)
Inductive Structure :=
  | StScalar (k : TypeKind) (n : bool)
  | StDeclared (k : TypeKind) (ns container name : list Z) (n : bool)
  | StArray (e : Structure) (size : option Z) (n : bool)
  | StMap (k e : Structure) (n : bool).

(** The type that [t] denotes in [current_ns]; interfaces are not nested. *)
Fixpoint structure (t : TypeSpec) (current_ns : list Z) : option Structure :=
  let ns := if decide (owner_namespace t = []) then current_ns else owner_namespace t in
  let elem := match element t with Some e => structure e current_ns | None => None end in
  let k := match key t with Some e => structure e current_ns | None => None end in
  match t_kind t with
  | kArray => e ← elem; Some (StArray e (if decide (0 < fixed_array_size t) then Some (fixed_array_size t) else None) (nullable t))
  | kMap => kk ← k; e ← elem; Some (StMap kk e (nullable t))
  | (kEnumRef | kStructRef | kUnionRef) as kd => Some (StDeclared kd ns (owner_container t) (t_name t) (nullable t))
  | (kPendingRemote | kPendingReceiver | kPendingAssociatedRemote | kPendingAssociatedReceiver) as kd =>
      Some (StDeclared kd ns [] (t_name t) (nullable t))
  | kd => Some (StScalar kd (nullable t))
  end.

Definition no_dot (l : list Z) : Prop := ch "." ∉ l.
(** No struct or union is nested; names are without dots; and where an enum is nested,
    its namespace and container together are not one of the [spaces], in which all
    declarations are. *)
Fixpoint told_apart (spaces : list (list Z)) (s : Structure) : Prop :=
  match s with
  | StScalar _ _ => True
  | StDeclared k ns container name _ =>
      no_dot name ∧ ns ∈ spaces ∧
      (container = [] ∨ k = kEnumRef ∧ no_dot container ∧ ns ++ bytes "." ++ container ∉ spaces ∧
         (ns = [] → container ∉ spaces))
  | StArray e _ _ => told_apart spaces e
  | StMap k e _ => told_apart spaces k ∧ told_apart spaces e
  end.

(** What the key has of a type. *)
Fixpoint shape_of (s : Structure) : Shape :=
  match s with
  | StScalar k n => ShScalar k n
  | StDeclared k ns container name n =>
      ShNamed k (QualName ns (if bool_decide (k = kEnumRef) && negb (bool_decide (container = []))
                              then container ++ bytes "." ++ name else name)) n
  | StArray e z n => ShArray (shape_of e) z n
  | StMap k e n => ShMap (shape_of k) (shape_of e) n
  end.

Lemma decide_ltb (a b : Z) : (a <? b) = if decide (a < b) then true else false.
Proof. case_decide; [by apply Z.ltb_lt|by apply Z.ltb_ge, Z.nlt_ge]. Qed.

Lemma shape_structure t ns : shape t ns = shape_of <$> structure t ns.
Proof.
  remember (TypeSpec_depth t) as d eqn:Hd. assert (TypeSpec_depth t <= d)%nat as Hle by lia.
  clear Hd. revert t Hle. induction d as [|d IH]; intros t Hle; [destruct t; simpl in Hle; lia|].
  destruct t as [k nm el ke nl on oc fs]. simpl in Hle.
  assert (∀ e, el = Some e → shape e ns = shape_of <$> structure e ns) as Hel by (intros e ->; apply IH; lia).
  assert (∀ e, ke = Some e → shape e ns = shape_of <$> structure e ns) as Hke by (intros e ->; apply IH; lia).
  destruct k; cbn -[bytes QualName]; try done;
    try (case_bool_decide as H1; case_decide as H2; first [done|congruence]).
  - case_bool_decide as H1; case_decide as H2; try done; case_bool_decide; done.
  - destruct el as [e|]; [|done]. rewrite (Hel e eq_refl). destruct (structure e ns); [|done]. cbn.
    rewrite decide_ltb. by case_decide.
  - destruct ke as [k|]; [|done]. rewrite (Hke k eq_refl). destruct (structure k ns); [|done].
    destruct el as [e|]; [|done]. rewrite (Hel e eq_refl). by destruct (structure e ns).
Qed.

(** A name without dots can be told from what stands before it. *)
Lemma split_at_last_dot a b a' b' :
  no_dot b → no_dot b' → a ++ bytes "." ++ b = a' ++ bytes "." ++ b' → a = a' ∧ b = b'.
Proof.
  revert a'. induction a as [|x a IH]; intros [|x' a'] Hb Hb'; cbn; intros E.
  - injection E as ->. done.
  - injection E as _ ->. exfalso. apply Hb, elem_of_app. right. by left.
  - injection E as _ <-. exfalso. apply Hb', elem_of_app. right. by left.
  - injection E as -> E. destruct (IH a' Hb Hb' E) as [-> ->]. done.
Qed.
Lemma QualName_no_dot_inj ns n ns' n' : no_dot n → no_dot n' → QualName ns n = QualName ns' n' → ns = ns' ∧ n = n'.
Proof.
  unfold QualName. intros Hn Hn'. repeat case_bool_decide; subst; intros E.
  - done.
  - exfalso. apply Hn. rewrite E. apply elem_of_app. right. by left.
  - exfalso. apply Hn'. rewrite <- E. apply elem_of_app. right. by left.
  - by apply split_at_last_dot.
Qed.
(** The scope of a declaration. *)
Definition scope (ns container : list Z) : list Z := if bool_decide (container = []) then ns else QualName ns container.
Lemma QualName_scope ns container name :
  container ≠ [] → QualName ns (container ++ bytes "." ++ name) = QualName (scope ns container) name.
Proof.
  intros Hc. unfold scope, QualName. rewrite (bool_decide_false (container = [])) by done.
  destruct (bool_decide_reflect (ns = [])) as [->|Hns]; [by rewrite bool_decide_false by done|].
  rewrite bool_decide_false by by destruct ns. by rewrite <- !app_assoc.
Qed.

Lemma shape_of_inj spaces s s' : told_apart spaces s → told_apart spaces s' → shape_of s = shape_of s' → s = s'.
Proof.
  revert s'. induction s as [k n|k ns c nm n|e IH z n|k IHk e IHe n]; intros s' H H';
    destruct s' as [k' n'|k' ns' c' nm' n'|e' z' n'|k' e' n']; cbn [shape_of]; try done.
  - by intros [= -> ->].
  - destruct H as (Hd & Hs & Hc), H' as (Hd' & Hs' & Hc'). intros E0.
    assert (k = k' ∧ n = n') as [-> ->] by (by injection E0).
    pose proof (f_equal (λ s, match s with ShNamed _ q _ => q | _ => [] end) E0) as E. cbv beta iota in E.
    assert (∀ n c, c = [] ∨ k' = kEnumRef ∧ no_dot c ∧ n ++ bytes "." ++ c ∉ spaces ∧ (n = [] → c ∉ spaces) → ∀ m,
      QualName n (if bool_decide (k' = kEnumRef) && negb (bool_decide (c = [])) then c ++ bytes "." ++ m else m) =
      QualName (scope n c) m) as Hq.
    { intros n c0 [->|(-> & _)] m; [by rewrite andb_false_r|]. rewrite bool_decide_true by done. cbn [andb].
      destruct (bool_decide_reflect (c0 = [])) as [->|Hne]; cbn [negb]; [done|by apply QualName_scope]. }
    rewrite (Hq ns c Hc nm), (Hq ns' c' Hc' nm') in E. apply QualName_no_dot_inj in E as [E ->]; [|done..].
    assert (∀ n c n0, c ≠ [] → (c = [] ∨ k' = kEnumRef ∧ no_dot c ∧ n ++ bytes "." ++ c ∉ spaces ∧ (n = [] → c ∉ spaces)) →
      n0 ∈ spaces → scope n c ≠ n0) as Hout.
    { intros n c0 n0 Hne [|(_ & _ & H1 & H2)] Hin; [done|]. intros <-. unfold scope, QualName in Hin.
      rewrite bool_decide_false in Hin by done. case_bool_decide; [by apply H2|by apply H1]. }
    destruct (decide (c = [])) as [->|Hne], (decide (c' = [])) as [->|Hne'].
    + by unfold scope in E; cbn in E; subst.
    + symmetry in E. by apply Hout in E.
    + by apply Hout in E.
    + destruct Hc as [|(_ & Hcd & _)], Hc' as [|(_ & Hcd' & _)]; try done. unfold scope in E.
      rewrite !bool_decide_false in E by done. by apply QualName_no_dot_inj in E as [-> ->].
  - intros [= E -> ->]. by rewrite (IH e').
  - destruct H, H'. intros [= E1 E2 ->]. by rewrite (IHk k'), (IHe e').
Qed.

(** C11: Interned ids stand for types.  Of types interned in any order, two get the same id
    whenever a structural walk of both (declared types by namespace, container and name)
    finds them equal.  They get it only then, as far as their declared types are told
    apart: structs and unions are not nested (those of one name share an id, see
    [nested_share_id]), and no enum's container has the name of a namespace. *)
Theorem intern_types_identical spaces ts :
  Forall (λ p, type_ok p.1 ∧ name_ok p.2) ts → Z.of_nat (length ts) < 2 ^ 32 →
  ∃ ids st, intern_types ts TypeIntern_init = Some (ids, st) ∧ length ids = length ts ∧
  ∀ i j p1 p2 id1 id2, ts !! i = Some p1 → ts !! j = Some p2 → ids !! i = Some id1 → ids !! j = Some id2 →
    ∃ s1 s2, structure p1.1 p1.2 = Some s1 ∧ structure p2.1 p2.2 = Some s2 ∧
      (s1 = s2 → Identical id1 id2 = true) ∧
      (told_apart spaces s1 → told_apart spaces s2 → Identical id1 id2 = true → s1 = s2).
Proof.
  intros Hts Hn. destruct (intern_types_shapes ts Hts Hn) as (ids & st & E & Hlen & H).
  exists ids, st. split_and!; [done..|]. intros i j p1 p2 id1 id2 P1 P2 I1 I2.
  pose proof (H i j p1 p2 id1 id2 P1 P2 I1 I2) as Hid.
  destruct (Forall_lookup_1 _ _ _ _ Hts P1) as [A1 B1]. destruct (Forall_lookup_1 _ _ _ _ Hts P2) as [A2 B2].
  destruct (shape_total _ _ A1 B1) as (h1 & E1 & _), (shape_total _ _ A2 B2) as (h2 & E2 & _).
  rewrite !shape_structure in Hid. rewrite shape_structure in E1, E2.
  destruct (structure p1.1 p1.2) as [s1|], (structure p2.1 p2.2) as [s2|]; try done. exists s1, s2.
  rewrite Hid. split_and!; [done..|by intros ->|]. intros T1 T2 [= Es]. by eapply shape_of_inj.
Qed.

(** [array<string?, 4>], [map<string, echo.Echo's enum E>] and the first one again. *)
Definition type_demo : list (TypeSpec * list Z) :=
  let str := mkTypeSpec kString [] None None true [] [] 0 in
  let arr := mkTypeSpec kArray [] (Some str) None false [] [] 4 in
  let en := mkTypeSpec kEnumRef (bytes "E") None None false (bytes "echo") (bytes "Echo") 0 in
  let mp := mkTypeSpec kMap [] (Some en) (Some (TypeSpec_init kString)) false [] [] 0 in
  [(arr, bytes "a"); (mp, bytes "a"); (arr, bytes "b")].

Lemma intern_types_identical_witness :
  ∃ ids st, intern_types type_demo TypeIntern_init = Some (ids, st) ∧
  length ids = length type_demo ∧
  ∀ i j p1 p2 id1 id2, type_demo !! i = Some p1 → type_demo !! j = Some p2 →
    ids !! i = Some id1 → ids !! j = Some id2 →
    ∃ s1 s2, structure p1.1 p1.2 = Some s1 ∧ structure p2.1 p2.2 = Some s2 ∧
      (s1 = s2 → Identical id1 id2 = true) ∧
      (told_apart [bytes "a"; bytes "b"; bytes "echo"] s1 → told_apart [bytes "a"; bytes "b"; bytes "echo"] s2 →
       Identical id1 id2 = true → s1 = s2).
Proof.
  apply (intern_types_identical [bytes "a"; bytes "b"; bytes "echo"] type_demo); [|done].
  repeat constructor; cbn; by repeat constructor.
Defined.

(** All three types of the example are told apart. *)
Example type_demo_told_apart :
  Forall (λ p, ∃ s, structure p.1 p.2 = Some s ∧ told_apart [bytes "a"; bytes "b"; bytes "echo"] s) type_demo.
Proof.
  repeat constructor; eexists; (split; [reflexivity|]); cbn; unfold no_dot; try done.
  split; [done|]. split_and!; [set_solver|set_solver|]. right. split_and!; [done|set_solver|set_solver|done].
Qed.

(** The structs [Params] of two interfaces have one id. *)
Definition params_of (i : list Z) : TypeSpec := mkTypeSpec kStructRef (bytes "Params") None None false [] i 0.
Example nested_share_id :
  structure (params_of (bytes "A")) (bytes "m") ≠ structure (params_of (bytes "B")) (bytes "m") ∧
  match intern_types [(params_of (bytes "A"), bytes "m"); (params_of (bytes "B"), bytes "m")] TypeIntern_init with
  | Some ([id1; id2], _) => Identical id1 id2 = true
  | _ => False
  end.
Proof. split; [by intros [=]|reflexivity]. Qed.

(** ** Methods *)

(** The shapes of a parameter list. *)
Fixpoint param_shapes (ps : list Param) (ns : list Z) : option (list Shape) :=
  match ps with
  | [] => Some []
  | p :: ps' => s ← shape (p_type p) ns; ss ← param_shapes ps' ns; Some (s :: ss)
  end.

Definition join_tail (ss : list Shape) : list Z :=
  flat_map (λ s, bytes "," ++ shape_key s) ss.
Definition join_keys (ss : list Shape) : list Z :=
  match ss with [] => [] | s :: ss' => shape_key s ++ join_tail ss' end.

Inductive ResponseShape :=
  | NoResponse
  | ResultResponse (success error : Shape)
  | Response (params : list Shape).

(** A method as its callers see it: qualified name, parameters, response. *)
Definition method_shape (ns iface : list Z) (m : Method)
    : option (list Z * list Shape * ResponseShape) :=
  ps ← param_shapes (m_params m) ns;
  r ← (if is_result_response m then
         s ← shape (result_success m) ns; e ← shape (result_error m) ns;
         Some (ResultResponse s e)
       else if has_response m then
         rs ← param_shapes (response_params m) ns; Some (Response rs)
       else Some NoResponse);
  Some (QualName ns iface ++ bytes "." ++ m_name m, ps, r).

Definition response_key (r : ResponseShape) : list Z :=
  match r with
  | NoResponse => []
  | ResultResponse s e =>
      bytes "->result<" ++ shape_key s ++ bytes "," ++ shape_key e ++ bytes ">"
  | Response rs => bytes "->(" ++ join_keys rs ++ bytes ")"
  end.

Definition params_ok (ps : list Param) : Prop := Forall (λ p, type_ok (p_type p)) ps.
Definition method_ok (m : Method) : Prop :=
  name_ok (m_name m) ∧ params_ok (m_params m) ∧ params_ok (response_params m) ∧
  type_ok (result_success m) ∧ type_ok (result_error m).

Lemma param_shapes_total ps ns :
  params_ok ps → name_ok ns → ∃ ss, param_shapes ps ns = Some ss ∧ Forall shape_ok ss.
Proof.
  intros H Hns. induction H as [|p ps Hp H (ss & E & IH)]; [by exists []|]. simpl.
  destruct (shape_total (p_type p) ns Hp Hns) as (s & -> & Hs). cbn. rewrite E. cbn.
  eexists. split; [reflexivity|]. by constructor.
Qed.

Lemma JoinParams_shapes ps ns : JoinParams ps ns = join_keys <$> param_shapes ps ns.
Proof.
  induction ps as [|p ps IH]; [done|]. cbn [JoinParams param_shapes].
  rewrite TypeKey_shape, IH.
  destruct ps as [|p' ps]; cbn [param_shapes] in *; destruct (shape (p_type p) ns) as [s|];
    try done; [cbn; by rewrite app_nil_r|].
  destruct (shape (p_type p') ns) as [s'|]; [|done]. cbn.
  destruct (param_shapes ps ns); [|done]. cbn. by rewrite <- ?app_assoc.
Qed.

Lemma MethodKey_shape ns iface m :
  MethodKey ns iface m =
  (λ '(q, ps, r), bytes "func " ++ q ++ bytes "(" ++ join_keys ps ++ bytes ")" ++ response_key r)
    <$> method_shape ns iface m.
Proof.
  unfold MethodKey, method_shape. rewrite !JoinParams_shapes.
  destruct (param_shapes (m_params m) ns) as [ps|]; [|done]. cbn -[bytes].
  destruct (is_result_response m); [|destruct (has_response m)].
  - rewrite !TypeKey_shape. destruct (shape (result_success m) ns) as [s|]; [|done]. cbn -[bytes].
    destruct (shape (result_error m) ns) as [e|]; [|done]. cbn -[bytes].
    by rewrite <- ?app_assoc.
  - destruct (param_shapes (response_params m) ns) as [rs|]; [|done]. cbn -[bytes].
    by rewrite <- ?app_assoc.
  - cbn -[bytes]. by rewrite <- ?app_assoc, ?app_nil_r.
Qed.

(** A shape's key is not empty and opens no parenthesis. *)
Lemma shape_key_head s r : ∃ c l, shape_key s ++ r = c :: l ∧ c ≠ ch ")".
Proof.
  destruct s as [k n|k q n|e z n|k e n]; [destruct k|destruct k|destruct z|];
    cbn; (eexists _, _; split; [reflexivity|]); done.
Qed.

Lemma join_tail_closes ss r : closes (join_tail ss ++ bytes ")" ++ r).
Proof. by destruct ss. Qed.

Lemma join_tail_inj ss1 ss2 r1 r2 :
  Forall shape_ok ss1 → Forall shape_ok ss2 →
  join_tail ss1 ++ bytes ")" ++ r1 = join_tail ss2 ++ bytes ")" ++ r2 → ss1 = ss2 ∧ r1 = r2.
Proof.
  intros H1. revert ss2. induction H1 as [|s1 ss1 Hs1 H1 IH]; intros ss2 H2 E;
    destruct H2 as [|s2 ss2 Hs2 H2]; try discriminate E.
  - split; [done|]. by simplify_eq/=.
  - cbn [join_tail flat_map] in E. rewrite <- !app_assoc in E. apply app_inv_head in E.
    apply shape_key_inj in E as [-> E]; [|done|done|apply join_tail_closes..].
    by apply IH in E as [-> ->].
Qed.

Lemma join_keys_inj ss1 ss2 r1 r2 :
  Forall shape_ok ss1 → Forall shape_ok ss2 →
  join_keys ss1 ++ bytes ")" ++ r1 = join_keys ss2 ++ bytes ")" ++ r2 → ss1 = ss2 ∧ r1 = r2.
Proof.
  intros H1 H2 E. destruct H1 as [|s1 ss1 Hs1 H1], H2 as [|s2 ss2 Hs2 H2];
    cbn [join_keys] in E; rewrite <- ?app_assoc in E.
  - by simplify_eq/=.
  - destruct (shape_key_head s2 (join_tail ss2 ++ bytes ")" ++ r2)) as (c & l & E' & Hc).
    rewrite E' in E. by injection E as E _.
  - destruct (shape_key_head s1 (join_tail ss1 ++ bytes ")" ++ r1)) as (c & l & E' & Hc).
    rewrite E' in E. by injection E as E _.
  - apply shape_key_inj in E as [-> E]; [|done|done|apply join_tail_closes..].
    by apply join_tail_inj in E as [-> ->].
Qed.

Lemma response_key_inj r1 r2 :
  match r1 with NoResponse => True | ResultResponse s e => shape_ok s ∧ shape_ok e
  | Response rs => Forall shape_ok rs end →
  match r2 with NoResponse => True | ResultResponse s e => shape_ok s ∧ shape_ok e
  | Response rs => Forall shape_ok rs end →
  response_key r1 = response_key r2 → r1 = r2.
Proof.
  destruct r1 as [|s1 e1|rs1], r2 as [|s2 e2|rs2]; intros H1 H2 E; try done.
  - cbn [response_key] in E. apply app_inv_head in E. destruct H1, H2.
    apply shape_key_inj in E as [-> E]; [|done..].
    apply app_inv_head in E. by apply shape_key_inj in E as [-> E].
  - cbn [response_key] in E. apply app_inv_head in E.
    by apply (join_keys_inj rs1 rs2 [] [] H1 H2) in E as [-> _].
Qed.

Lemma method_shape_total ns iface m :
  method_ok m → name_ok ns → name_ok iface →
  ∃ q ps r, method_shape ns iface m = Some (q, ps, r) ∧ name_ok q ∧ Forall shape_ok ps ∧
    match r with NoResponse => True | ResultResponse s e => shape_ok s ∧ shape_ok e
    | Response rs => Forall shape_ok rs end.
Proof.
  intros (Hn & Hps & Hrs & Hs & He) Hns Hi. unfold method_shape.
  destruct (param_shapes_total _ ns Hps Hns) as (ps & -> & Hps'). cbn -[bytes].
  assert (name_ok (QualName ns iface ++ bytes "." ++ m_name m)) as Hq
    by (apply name_ok_dot; [by apply QualName_ok|done]).
  destruct (is_result_response m); [|destruct (has_response m)].
  - destruct (shape_total _ ns Hs Hns) as (s & -> & Hs').
    destruct (shape_total _ ns He Hns) as (e & -> & He'). cbn -[bytes].
    eexists _, _, _. by split_and!.
  - destruct (param_shapes_total _ ns Hrs Hns) as (rs & -> & Hrs'). cbn -[bytes].
    eexists _, _, _. by split_and!.
  - eexists _, _, _. by split_and!.
Qed.

(** [InternMethod] gives two methods the same key exactly when they have
    the same qualified name, parameter types and response: their commas and
    brackets cannot be confused with those inside the types. *)
Theorem method_key_canonical ns1 ns2 iface1 iface2 m1 m2 :
  method_ok m1 → method_ok m2 → name_ok ns1 → name_ok ns2 → name_ok iface1 → name_ok iface2 →
  is_Some (MethodKey ns1 iface1 m1) ∧
  (MethodKey ns1 iface1 m1 = MethodKey ns2 iface2 m2 ↔
   method_shape ns1 iface1 m1 = method_shape ns2 iface2 m2).
Proof.
  intros M1 M2 N1 N2 I1 I2. rewrite !MethodKey_shape.
  destruct (method_shape_total ns1 iface1 m1 M1 N1 I1) as (q1 & ps1 & r1 & -> & Q1 & P1 & R1).
  destruct (method_shape_total ns2 iface2 m2 M2 N2 I2) as (q2 & ps2 & r2 & -> & Q2 & P2 & R2).
  cbn -[bytes]. split; [by eexists|]. split; [|by intros [= -> -> ->]]. intros [= E].
  apply name_inj in E as [-> E]; [|done..]. injection E as E.
  apply join_keys_inj in E as [-> E]; [|done..].
  by apply response_key_inj in E as ->.
Qed.

Definition no_enable_if : EnableIf :=
  mkEnableIf (mkEnableIfClause kNone []) (mkEnableIfClause kNone []).
Definition demo_param (t : TypeSpec) : Param := mkParam t (bytes "x") 0 0 false no_enable_if.
Definition demo_method (ps rs : list Param) : Method :=
  mkMethod (bytes "Ping") 0 false ps true rs false (TypeSpec_init kBool) (TypeSpec_init kBool)
    false 0 no_enable_if.
Definition demo_map : TypeSpec :=
  mkTypeSpec kMap [] (Some (TypeSpec_init kInt8)) (Some (TypeSpec_init kString)) false [] [] 0.

Lemma method_key_canonical_witness :
  let m1 := demo_method [demo_param demo_map] [demo_param (TypeSpec_init kBool)] in
  let m2 := demo_method [demo_param (TypeSpec_init kString); demo_param (TypeSpec_init kInt8)]
              [demo_param (TypeSpec_init kBool)] in
  is_Some (MethodKey (bytes "a") (bytes "I") m1) ∧
  (MethodKey (bytes "a") (bytes "I") m1 = MethodKey (bytes "a") (bytes "I") m2 ↔
   method_shape (bytes "a") (bytes "I") m1 = method_shape (bytes "a") (bytes "I") m2).
Proof. apply method_key_canonical; repeat constructor; cbn; by repeat constructor. Defined.

(** ** Nested types *)

Definition dotless (l : list Z) : Prop := ¬ In (ch ".") l.

Lemma QualName_inj ns1 ns2 n1 n2 :
  dotless n1 → dotless n2 → QualName ns1 n1 = QualName ns2 n2 → ns1 = ns2 ∧ n1 = n2.
Proof.
  assert (∀ a n n' : list Z, dotless n' → a ++ ch "." :: n ≠ n') as Hno.
  { intros a n n' H <-. apply H, in_or_app. right. by left. }
  intros H1 H2. unfold QualName.
  destruct (bool_decide_reflect (ns1 = [])) as [->|A], (bool_decide_reflect (ns2 = [])) as [->|B];
    intros E; [done|exfalso; by apply (Hno ns2 n2 n1)|exfalso; by apply (Hno ns1 n1 n2)|].
  revert ns2 A B E. induction ns1 as [|c ns1 IH]; intros ns2 A B E; [done|].
  destruct ns2 as [|c2 ns2]; [done|]. cbn in E. injection E as -> E.
  destruct (decide (ns1 = [])) as [->|A'], (decide (ns2 = [])) as [->|B'].
  - cbn in E. by simplify_eq.
  - destruct ns2 as [|c ns2]; [done|]. cbn in E. simplify_eq. exfalso. by apply (Hno ns2 n2 _ H1).
  - destruct ns1 as [|c ns1]; [done|]. cbn in E. simplify_eq. exfalso. by apply (Hno ns1 n1 _ H2).
  - destruct (IH ns2 A' B' E) as [-> ->]. done.
Qed.

(** The namespace a name is looked up in. *)
Definition resolved_ns (t : TypeSpec) (current_ns : list Z) : list Z :=
  if bool_decide (owner_namespace t = []) then current_ns else owner_namespace t.

(** The key of a struct reference is its namespace, name and nullability
    and nothing else: the interface it is nested in does not count, so two
    different nested structs (with different C++ names) of the same name are
    one type for [Identical]. *)
Theorem struct_key_ignores_container t1 t2 ns1 ns2 :
  t_kind t1 = kStructRef → t_kind t2 = kStructRef → type_ok t1 → type_ok t2 →
  name_ok ns1 → name_ok ns2 → dotless (t_name t1) → dotless (t_name t2) →
  TypeKey t1 ns1 = TypeKey t2 ns2 ↔
  resolved_ns t1 ns1 = resolved_ns t2 ns2 ∧ t_name t1 = t_name t2 ∧ nullable t1 = nullable t2.
Proof.
  intros K1 K2 T1 T2 N1 N2 D1 D2. rewrite TypeKey_eq by done.
  destruct t1 as [k1 n1 el1 ke1 nl1 on1 oc1 fs1], t2 as [k2 n2 el2 ke2 nl2 on2 oc2 fs2].
  cbn in K1, K2, D1, D2. subst. unfold resolved_ns. cbn -[QualName]. split.
  - intros [= E ->]. by apply QualName_inj in E as [-> ->].
  - by intros (-> & -> & ->).
Qed.

(** [struct Params] nested in [First] and in [Second]. *)
Definition nested_params (container : list Z) : TypeSpec :=
  mkTypeSpec kStructRef (bytes "Params") None None false [] container 0.

Lemma struct_key_ignores_container_witness :
  EmbedDeclKey (bytes "First") (bytes "Params") ≠ EmbedDeclKey (bytes "Second") (bytes "Params") ∧
  TypeKey (nested_params (bytes "First")) (bytes "a") =
  TypeKey (nested_params (bytes "Second")) (bytes "a").
Proof.
  split; [by vm_compute|].
  apply (struct_key_ignores_container (nested_params (bytes "First"))
    (nested_params (bytes "Second")) (bytes "a") (bytes "a")); try done;
    try (repeat constructor; cbn; by repeat constructor);
    cbn; unfold dotless; cbn; intuition discriminate.
Defined.
