(* ===== verification/Codec.v ===== *)
(** * Wire encoding

    [WASMHolePunch/include/whp/codec.h] (namespace [whp::internal]).  A buffer
    is a list of bytes at an address; pointers are 64-bit addresses, and a load
    or store that leaves the buffer is undefined behaviour ([None]).  Integers
    are little-endian.  The packed header structs are their field offsets. *)
From S2P Require Import Prelude.

Record Buf := mkBuf { buf_addr : Z; buf_bytes : list Z }.

Definition buf_size (b : Buf) : Z := Z.of_nat (length (buf_bytes b)).

(** ** Memory *)

Definition in_buf (b : Buf) (p n : Z) : bool :=
  (0 <=? n) && (buf_addr b <=? p) && (p + n <=? buf_addr b + buf_size b).

(** The bytes [l] written at index [i]. *)
Definition splice (i : nat) (l d : list Z) : list Z := take i d ++ l ++ drop (i + length l) d.

Definition load (b : Buf) (p n : Z) : option (list Z) :=
  if in_buf b p n then Some (take (Z.to_nat n) (drop (Z.to_nat (p - buf_addr b)) (buf_bytes b)))
  else None.
Definition store (p : Z) (l : list Z) (b : Buf) : option Buf :=
  if in_buf b p (Z.of_nat (length l))
  then Some (mkBuf (buf_addr b) (splice (Z.to_nat (p - buf_addr b)) l (buf_bytes b)))
  else None.

Fixpoint le_value (l : list Z) : Z :=
  match l with [] => 0 | b :: l' => b + 256 * le_value l' end.
Fixpoint le_bytes (n : nat) (v : Z) : list Z :=
  match n with O => [] | S n' => u8 v :: le_bytes n' (v / 256) end.

Definition load_u32 (b : Buf) (p : Z) : option Z := le_value <$> load b p 4.
Definition load_u64 (b : Buf) (p : Z) : option Z := le_value <$> load b p 8.
Definition store_u32 (p v : Z) (b : Buf) : option Buf := store p (le_bytes 4 v) b.
Definition store_u64 (p v : Z) (b : Buf) : option Buf := store p (le_bytes 8 v) b.

(** ** codec.h *)

Definition Align (size : Z) : Z := Z.land (u64 (size + 7)) (u64 (Z.lnot 7)).

Definition IsAligned (ptr : Z) : bool := Z.land ptr 7 =? 0.

(** [slot] is the address of the [uint64_t] that holds the offset. *)
Definition EncodePointer (ptr slot : Z) (b : Buf) : option Buf :=
  if ptr =? 0 then store_u64 slot 0 b else store_u64 slot (u64 (ptr - slot)) b.

Definition DecodePointer (b : Buf) (slot : Z) : option Z :=
  off ← load_u64 b slot;
  Some (if off =? 0 then 0 else u64 (slot + off)).

(** [Pointer::is_null]. *)
Definition pointer_is_null (b : Buf) (slot : Z) : option bool :=
  off ← load_u64 b slot; Some (off =? 0).

Definition kEncodedInvalidHandleValue : Z := 4294967295.
Definition kUnionDataSize : Z := 16.

(** [HandleData::is_valid]. *)
Definition HandleData_is_valid (value : Z) : bool := negb (value =? kEncodedInvalidHandleValue).

(** [StructHeader]. *)
Definition num_bytes : Z := 0.
Definition version_ : Z := 4.
Definition sizeof_StructHeader : Z := 8.
(** [ArrayHeader]. *)
Definition num_elements : Z := 4.
Definition sizeof_ArrayHeader : Z := 8.
(** [MessageHeader] to [MessageHeaderV3]. *)
Definition interface_id_ : Z := 8.
Definition name_ : Z := 12.
Definition flags_ : Z := 16.
Definition trace_nonce_ : Z := 20.
Definition sizeof_MessageHeader : Z := 24.
Definition request_id_ : Z := 24.
Definition sizeof_MessageHeaderV1 : Z := 32.
Definition payload_ : Z := 32.
Definition payload_interface_ids_ : Z := 40.
Definition sizeof_MessageHeaderV2 : Z := 48.
Definition creation_timeticks_us_ : Z := 48.
Definition sizeof_MessageHeaderV3 : Z := 56.

Definition StringDataSize (num_chars : Z) : Z :=
  Align (u64 (sizeof_ArrayHeader + num_chars + 1)).

Definition EncodeString (dest : Z) (s : list Z) (b : Buf) : option Buf :=
  let n := Z.of_nat (length s) in
  b1 ← store_u32 (dest + num_elements) (u32 n) b;
  b2 ← store_u32 (dest + num_bytes) (u32 (StringDataSize n)) b1;
  let chars := dest + sizeof_ArrayHeader in
  b3 ← (if n =? 0 then Some b2 else store chars s b2);
  store (chars + n) [0] b3.

(** [None] inside is the answer [false]. *)
Definition DecodeString (b : Buf) (header max_bytes : Z) : option (option (list Z)) :=
  if header =? 0 then Some None
  else
    nb ← load_u32 b (header + num_bytes);
    if (nb <? sizeof_ArrayHeader) || (max_bytes <? nb) then Some None
    else
      ne ← load_u32 b (header + num_elements);
      if nb <? u64 (sizeof_ArrayHeader + ne + 1) then Some None
      else
        s ← load b (header + sizeof_ArrayHeader) ne;
        Some (Some s).

(** * Properties of the wire encoding *)

(** ** Little-endian integers *)

Definition byte_ok (b : Z) : Prop := 0 <= b < 256.

Lemma length_le_bytes n v : length (le_bytes n v) = n.
Proof. revert v. induction n as [|n IH]; intros v; simpl; [done|]. by rewrite IH. Qed.

Lemma le_value_bytes n v : 0 <= v < 256 ^ Z.of_nat n → le_value (le_bytes n v) = v.
Proof.
  revert v. induction n as [|n IH]; intros v Hv; simpl.
  { change (256 ^ Z.of_nat 0) with 1 in Hv. lia. }
  rewrite Nat2Z.inj_succ, Z.pow_succ_r in Hv by lia.
  rewrite IH by (split; [apply Z.div_pos; lia|apply Z.div_lt_upper_bound; lia]).
  unfold u8. change (2 ^ 8) with 256. pose proof (Z_div_mod_eq_full v 256). lia.
Qed.

Lemma le_value_range l :
  Forall byte_ok l → 0 <= le_value l < 256 ^ Z.of_nat (length l).
Proof.
  induction 1 as [|b l Hb Hl IH]; [simpl; lia|]. cbn [le_value length].
  rewrite Nat2Z.inj_succ, Z.pow_succ_r by lia. unfold byte_ok in Hb. lia.
Qed.

Lemma le_bytes_ok n v : Forall byte_ok (le_bytes n v).
Proof. revert v. induction n; simpl; constructor; [apply u8_range|auto]. Qed.

(** ** Loads and stores at an offset *)

Lemma in_buf_at a d k n :
  0 <= k → 0 <= n → k + n <= Z.of_nat (length d) → in_buf (mkBuf a d) (a + k) n = true.
Proof. intros. unfold in_buf, buf_size. simpl. lia. Qed.

Lemma load_at a d k n :
  0 <= k → 0 <= n → k + n <= Z.of_nat (length d) →
  load (mkBuf a d) (a + k) n = Some (take (Z.to_nat n) (drop (Z.to_nat k) d)).
Proof.
  intros. unfold load. rewrite in_buf_at by done. simpl. by replace (a + k - a) with k by lia.
Qed.

Lemma store_at a d k l :
  0 <= k → k + Z.of_nat (length l) <= Z.of_nat (length d) →
  store (a + k) l (mkBuf a d) = Some (mkBuf a (splice (Z.to_nat k) l d)).
Proof.
  intros. unfold store. rewrite in_buf_at by lia. simpl. by replace (a + k - a) with k by lia.
Qed.

(** The integers at an offset of the bytes of a buffer. *)
Definition word32 (d : list Z) (k : Z) : Z := le_value (take 4 (drop (Z.to_nat k) d)).
Definition word64 (d : list Z) (k : Z) : Z := le_value (take 8 (drop (Z.to_nat k) d)).

Lemma load_u32_at a d k :
  0 <= k → k + 4 <= Z.of_nat (length d) → load_u32 (mkBuf a d) (a + k) = Some (word32 d k).
Proof. intros. unfold load_u32. by rewrite load_at by lia. Qed.

Lemma load_u64_at a d k :
  0 <= k → k + 8 <= Z.of_nat (length d) → load_u64 (mkBuf a d) (a + k) = Some (word64 d k).
Proof. intros. unfold load_u64. by rewrite load_at by lia. Qed.

Lemma store_u32_at a d k v :
  0 <= k → k + 4 <= Z.of_nat (length d) →
  store_u32 (a + k) v (mkBuf a d) = Some (mkBuf a (splice (Z.to_nat k) (le_bytes 4 v) d)).
Proof. intros. unfold store_u32. apply store_at; rewrite ?length_le_bytes; lia. Qed.

Lemma store_u64_at a d k v :
  0 <= k → k + 8 <= Z.of_nat (length d) →
  store_u64 (a + k) v (mkBuf a d) = Some (mkBuf a (splice (Z.to_nat k) (le_bytes 8 v) d)).
Proof. intros. unfold store_u64. apply store_at; rewrite ?length_le_bytes; lia. Qed.

Lemma sub_bytes_range d i j : Forall byte_ok d → Forall byte_ok (take i (drop j d)).
Proof. intros. by apply Forall_take, Forall_drop. Qed.

Lemma word32_range d k : Forall byte_ok d → 0 <= word32 d k < 2 ^ 32.
Proof.
  intros H. pose proof (le_value_range _ (sub_bytes_range d 4 (Z.to_nat k) H)) as Hr.
  unfold word32. split; [lia|]. eapply Z.lt_le_trans; [apply Hr|].
  change (2 ^ 32) with (256 ^ 4). apply Z.pow_le_mono_r; [lia|].
  rewrite length_take. lia.
Qed.

Lemma word64_range d k : Forall byte_ok d → 0 <= word64 d k < 2 ^ 64.
Proof.
  intros H. pose proof (le_value_range _ (sub_bytes_range d 8 (Z.to_nat k) H)) as Hr.
  unfold word64. split; [lia|]. eapply Z.lt_le_trans; [apply Hr|].
  change (2 ^ 64) with (256 ^ 8). apply Z.pow_le_mono_r; [lia|].
  rewrite length_take. lia.
Qed.

(** ** Splicing *)

Lemma length_splice i l d :
  (i + length l <= length d)%nat → length (splice i l d) = length d.
Proof. intros. unfold splice. rewrite !length_app, length_take, length_drop. lia. Qed.

Lemma splice_same i l d :
  (i + length l <= length d)%nat → take (length l) (drop i (splice i l d)) = l.
Proof.
  intros. unfold splice. rewrite drop_app_length' by (rewrite length_take; lia).
  by rewrite take_app_length.
Qed.

(** What lies entirely before or after the bytes written stays. *)
Lemma splice_other i l d j n :
  (i + length l <= length d)%nat → (j + n <= i ∨ i + length l <= j)%nat →
  take n (drop j (splice i l d)) = take n (drop j d).
Proof.
  intros Hl [Hj|Hj]; unfold splice.
  - rewrite drop_app_le by (rewrite length_take; lia).
    rewrite take_app_le by (rewrite length_drop, length_take; lia).
    rewrite !take_drop_commute, take_take. by rewrite Nat.min_l by lia.
  - rewrite app_assoc, drop_app_ge by (rewrite length_app, length_take; lia).
    rewrite drop_drop. do 2 f_equal. rewrite length_app, length_take. lia.
Qed.

Lemma take_splice i l d j :
  (i + length l <= length d)%nat → (j <= i)%nat → take j (splice i l d) = take j d.
Proof. intros. pose proof (splice_other i l d 0 j) as E. rewrite !drop_0 in E. apply E; lia. Qed.

Lemma drop_splice i l d j :
  (i + length l <= length d)%nat → (i + length l <= j)%nat → drop j (splice i l d) = drop j d.
Proof.
  intros. pose proof (splice_other i l d j (length d)) as E.
  rewrite !take_ge in E by (rewrite length_drop, ?length_splice; lia). apply E; lia.
Qed.

(** ** Alignment *)

Lemma Align_eq size : 0 <= size <= 2 ^ 64 - 8 → Align size = (size + 7) / 8 * 8.
Proof.
  intros H. unfold Align. rewrite (u64_small (size + 7)) by lia.
  change (u64 (Z.lnot 7)) with (Z.shiftl (Z.ones 61) 3).
  change 8 with (2 ^ 3). rewrite <- Z.shiftr_div_pow2, <- Z.shiftl_mul_pow2 by lia.
  apply Z.bits_inj'. intros i Hi. rewrite Z.land_spec, !Z.shiftl_spec by lia.
  destruct (decide (i < 3)).
  { rewrite !(Z.testbit_neg_r _ (i - 3)) by lia. by rewrite andb_false_r. }
  rewrite Z.shiftr_spec by lia. replace (i - 3 + 3) with i by lia.
  destruct (decide (i < 64)).
  { by rewrite Z.ones_spec_low, andb_true_r by lia. }
  rewrite Z.ones_spec_high, andb_false_r by lia. symmetry.
  destruct (decide (size + 7 = 0)) as [->|]; [apply Z.bits_0|].
  apply Z.bits_above_log2; [lia|]. apply Z.log2_lt_pow2; [lia|].
  eapply Z.lt_le_trans; [|apply (Z.pow_le_mono_r 2 64 i); lia]. lia.
Qed.

(** [Align] rounds up to the next multiple of 8, and the result passes
    [IsAligned]. *)
Lemma align_rounds_up size :
  0 <= size <= 2 ^ 64 - 8 →
  size <= Align size < size + 8 ∧ IsAligned (Align size) = true.
Proof.
  intros H. rewrite Align_eq by done. pose proof (Z_div_mod_eq_full (size + 7) 8) as Hd.
  pose proof (Z.mod_pos_bound (size + 7) 8 ltac:(lia)). split; [lia|].
  unfold IsAligned. change 7 with (Z.ones 3). rewrite Z.land_ones by lia.
  change (2 ^ 3) with 8. by rewrite Z.mod_mul by lia.
Qed.

(** A pointer stored relative to its slot is read back, wherever target
    and slot lie and also when the distance wraps; the one exception is the
    slot's own address, which reads back as null. *)
Theorem pointer_roundtrip b ptr slot :
  0 <= ptr < 2 ^ 64 → 0 <= slot < 2 ^ 64 → in_buf b slot 8 = true →
  ∃ b', EncodePointer ptr slot b = Some b' ∧
    DecodePointer b' slot = Some (if ptr =? slot then 0 else ptr) ∧
    pointer_is_null b' slot = Some ((ptr =? 0) || (ptr =? slot)).
Proof.
  intros Hp Hs Hin. destruct b as [a d]. unfold in_buf, buf_size in Hin. cbn in Hin.
  assert (∃ k, slot = a + k ∧ 0 <= k ∧ k + 8 <= Z.of_nat (length d)) as (k & -> & Hk & Hk8).
  { exists (slot - a). lia. }
  assert (∀ v, 0 <= v < 2 ^ 64 → ∃ b', store_u64 (a + k) v (mkBuf a d) = Some b' ∧
            load_u64 b' (a + k) = Some v) as Hst.
  { intros v Hv. rewrite store_u64_at by lia. eexists. split; [done|].
    rewrite load_u64_at; [|lia|].
    - unfold word64. pose proof (splice_same (Z.to_nat k) (le_bytes 8 v) d) as E.
      rewrite length_le_bytes in E. rewrite E by lia. by rewrite le_value_bytes.
    - rewrite length_splice by (rewrite length_le_bytes; lia). lia. }
  unfold EncodePointer, DecodePointer, pointer_is_null.
  destruct (Z.eqb_spec ptr 0) as [->|Hne].
  - destruct (Hst 0) as (b' & E1 & E2); [lia|]. exists b'. rewrite E2.
    split_and!; [done| |done]. cbn [mbind option_bind]. change (0 =? 0) with true. by destruct (0 =? a + k).
  - destruct (Hst (u64 (ptr - (a + k)))) as (b' & E1 & E2); [apply u64_range|].
    exists b'. rewrite E2. split; [done|]. cbn [mbind option_bind].
    assert ((u64 (ptr - (a + k)) =? 0) = (ptr =? a + k)) as ->.
    { destruct (Z.eqb_spec ptr (a + k)) as [->|Hne']; [by rewrite Z.sub_diag|].
      apply Z.eqb_neq. unfold u64. intros [q Hq]%Z.mod_divide; [|lia].
      assert (q = 0) by lia. lia. }
    split; [|done]. destruct (Z.eqb_spec ptr (a + k)); [done|]. f_equal. unfold u64.
    rewrite Zplus_mod_idemp_r. replace (a + k + (ptr - (a + k))) with ptr by lia.
    by rewrite Z.mod_small.
Qed.

Lemma pointer_roundtrip_witness :
  ∃ b', EncodePointer 4096 4104 (mkBuf 4096 (replicate 16 0)) = Some b' ∧
    DecodePointer b' 4104 = Some (if 4096 =? 4104 then 0 else 4096) ∧
    pointer_is_null b' 4104 = Some ((4096 =? 0) || (4096 =? 4104)).
Proof. apply pointer_roundtrip; [lia|lia|reflexivity]. Defined.

(** ** Strings *)

Lemma StringDataSize_bounds n :
  0 <= n < 2 ^ 32 → 8 + n + 1 <= StringDataSize n < 8 + n + 1 + 8.
Proof.
  intros H. unfold StringDataSize. rewrite u64_small by (unfold sizeof_ArrayHeader; lia).
  rewrite Align_eq by (unfold sizeof_ArrayHeader; lia). unfold sizeof_ArrayHeader.
  pose proof (Z_div_mod_eq_full (8 + n + 1 + 7) 8).
  pose proof (Z.mod_pos_bound (8 + n + 1 + 7) 8 ltac:(lia)). lia.
Qed.

(** The bytes [EncodeString] leaves, from [k] on: size, length, characters and
    terminator, written in the code's order. *)
Definition with_length (d : list Z) (k : Z) (s : list Z) : list Z :=
  splice (Z.to_nat (k + 4)) (le_bytes 4 (u32 (Z.of_nat (length s)))) d.
Definition with_size (d : list Z) (k : Z) (s : list Z) : list Z :=
  splice (Z.to_nat (k + 0)) (le_bytes 4 (u32 (StringDataSize (Z.of_nat (length s)))))
    (with_length d k s).
Definition with_chars (d : list Z) (k : Z) (s : list Z) : list Z :=
  splice (Z.to_nat (k + 8)) s (with_size d k s).
Definition encoded (d : list Z) (k : Z) (s : list Z) : list Z :=
  splice (Z.to_nat (k + 8 + Z.of_nat (length s))) [0] (with_chars d k s).

Section strings.
Context (d : list Z) (k : Z) (s : list Z).
Context (Hk : 0 <= k) (Hs : StringDataSize (Z.of_nat (length s)) < 2 ^ 32).
Context (Hlen : Z.of_nat (length s) < 2 ^ 32).
Context (Hin : k + StringDataSize (Z.of_nat (length s)) <= Z.of_nat (length d)).
#[local] Set Default Proof Using "All".

#[local] Abbreviation n := (Z.of_nat (length s)).
#[local] Abbreviation sz := (StringDataSize (Z.of_nat (length s))).

(** Every write is in bounds, so no length changes. *)
Lemma encode_room : 8 + n + 1 <= sz < 8 + n + 1 + 8.
Proof. apply StringDataSize_bounds. lia. Qed.

Lemma encode_lengths :
  length (with_length d k s) = length d ∧ length (with_size d k s) = length d ∧
  length (with_chars d k s) = length d ∧ length (encoded d k s) = length d.
Proof.
  pose proof encode_room.
  assert (length (with_length d k s) = length d) as L1.
  { unfold with_length. apply length_splice. rewrite length_le_bytes. lia. }
  assert (length (with_size d k s) = length d) as L2.
  { unfold with_size. rewrite length_splice; [done|]. rewrite length_le_bytes. lia. }
  assert (length (with_chars d k s) = length d) as L3.
  { unfold with_chars. rewrite length_splice; [done|]. lia. }
  split_and!; [done..|]. unfold encoded. rewrite length_splice; [done|]. simpl. lia.
Qed.

Lemma EncodeString_eq a : EncodeString (a + k) s (mkBuf a d) = Some (mkBuf a (encoded d k s)).
Proof.
  pose proof encode_room. destruct encode_lengths as (L1 & L2 & L3 & L4).
  unfold EncodeString, num_elements, num_bytes, sizeof_ArrayHeader.
  rewrite <- !Z.add_assoc, store_u32_at by lia. cbn [mbind option_bind]. fold (with_length d k s).
  rewrite store_u32_at by lia. cbn [mbind option_bind]. fold (with_size d k s).
  assert ((if n =? 0 then Some (mkBuf a (with_size d k s))
           else store (a + (k + 8)) s (mkBuf a (with_size d k s))) =
          Some (mkBuf a (with_chars d k s))) as ->.
  { destruct (Z.eqb_spec n 0) as [E|E]; [|by rewrite store_at by lia].
    destruct s; [|cbn in E; lia]. unfold with_chars, splice. simpl.
    by rewrite Nat.add_0_r, take_drop. }
  cbn [mbind option_bind]. replace (k + (8 + n)) with (k + 8 + n) by lia.
  by rewrite store_at by (simpl; lia).
Qed.

Ltac room := rewrite ?length_le_bytes; cbn [length]; lia.

Lemma encoded_outside :
  take (Z.to_nat k) (encoded d k s) = take (Z.to_nat k) d ∧
  drop (Z.to_nat (k + sz)) (encoded d k s) = drop (Z.to_nat (k + sz)) d.
Proof.
  pose proof encode_room. destruct encode_lengths as (L1 & L2 & L3 & L4).
  unfold encoded. rewrite take_splice, drop_splice by room.
  unfold with_chars. rewrite take_splice, drop_splice by room.
  unfold with_size. rewrite take_splice, drop_splice by room.
  unfold with_length. by rewrite take_splice, drop_splice by room.
Qed.

Lemma encoded_fields :
  word32 (encoded d k s) (k + 0) = sz ∧ word32 (encoded d k s) (k + 4) = n ∧
  take (length s) (drop (Z.to_nat (k + 8)) (encoded d k s)) = s.
Proof.
  pose proof encode_room. destruct encode_lengths as (L1 & L2 & L3 & L4).
  assert (∀ v, 0 <= v < 2 ^ 32 → le_value (le_bytes 4 (u32 v)) = v) as Hv.
  { intros v Hv. rewrite u32_small by lia. by apply le_value_bytes. }
  unfold encoded, word32. rewrite !splice_other by room.
  unfold with_chars at 1 2. rewrite !splice_other by room. split_and!.
  - unfold with_size. pose proof (splice_same (Z.to_nat (k + 0)) (le_bytes 4 (u32 sz))
      (with_length d k s)) as E. rewrite length_le_bytes in E. rewrite E by lia. apply Hv. lia.
  - unfold with_size. rewrite splice_other by room. unfold with_length.
    pose proof (splice_same (Z.to_nat (k + 4)) (le_bytes 4 (u32 n)) d) as E.
    rewrite length_le_bytes in E. rewrite E by lia. apply Hv. lia.
  - unfold with_chars. by rewrite splice_same by lia.
Qed.

Lemma DecodeString_encoded a max :
  0 < a → sz <= max → DecodeString (mkBuf a (encoded d k s)) (a + k) max = Some (Some s).
Proof.
  intros Ha Hmax. pose proof encode_room. destruct encode_lengths as (L1 & L2 & L3 & L4).
  destruct encoded_fields as (N0 & N4 & E).
  unfold DecodeString, num_bytes, num_elements, sizeof_ArrayHeader.
  rewrite (proj2 (Z.eqb_neq (a + k) 0)), <- !Z.add_assoc by lia.
  rewrite (load_u32_at _ _ (k + 0)), N0 by lia. cbn [mbind option_bind].
  replace ((sz <? 8) || (max <? sz)) with false by lia.
  rewrite (load_u32_at _ _ (k + 4)), N4 by lia. cbn [mbind option_bind].
  rewrite u64_small by lia. replace (sz <? 8 + n + 1) with false by lia.
  rewrite load_at by lia. rewrite Nat2Z.id. by rewrite E.
Qed.
End strings.

(** A string encoded into [StringDataSize] bytes is in bounds, is decoded
    back from them (given a limit of at least that size), and nothing outside
    those bytes changes. *)
Theorem string_roundtrip a d k s max :
  0 <= k → 0 < a → StringDataSize (Z.of_nat (length s)) < 2 ^ 32 →
  Z.of_nat (length s) < 2 ^ 32 →
  k + StringDataSize (Z.of_nat (length s)) <= Z.of_nat (length d) →
  StringDataSize (Z.of_nat (length s)) <= max →
  ∃ d', EncodeString (a + k) s (mkBuf a d) = Some (mkBuf a d') ∧
    length d' = length d ∧ take (Z.to_nat k) d' = take (Z.to_nat k) d ∧
    drop (Z.to_nat (k + StringDataSize (Z.of_nat (length s)))) d' =
    drop (Z.to_nat (k + StringDataSize (Z.of_nat (length s)))) d ∧
    DecodeString (mkBuf a d') (a + k) max = Some (Some s).
Proof.
  intros Hk Ha H32 Hlen Hin Hmax. exists (encoded d k s).
  destruct (encoded_outside d k s) as [E1 E2]; try done.
  split_and!; [by apply EncodeString_eq|by apply encode_lengths|done|done|].
  by apply DecodeString_encoded.
Qed.

Lemma string_roundtrip_witness :
  ∃ d', EncodeString (4096 + 8) [104; 105] (mkBuf 4096 (replicate 32 7)) = Some (mkBuf 4096 d') ∧
    length d' = length (replicate 32 7) ∧
    take (Z.to_nat 8) d' = take (Z.to_nat 8) (replicate 32 7) ∧
    drop (Z.to_nat (8 + StringDataSize 2)) d' =
    drop (Z.to_nat (8 + StringDataSize 2)) (replicate 32 7) ∧
    DecodeString (mkBuf 4096 d') (4096 + 8) 16 = Some (Some [104; 105]).
Proof.
  exact (string_roundtrip 4096 (replicate 32 7) 8 [104; 105] 16 ltac:(lia) ltac:(lia)
    ltac:(by vm_compute) ltac:(by vm_compute) ltac:(by vm_compute) ltac:(by vm_compute)).
Defined.
