(* ===== verification/Message.v ===== *)
(** * Messages over the kernel, and the validation of their headers

    Class [Message] ([WASMHolePunch/include/whp/message.h],
    [src/bindings/message.cc]) and [MessageHeaderValidator]
    ([src/bindings/message_header_validator.cc]).  A [Message] is its handle.
    The data of a message is the [std::vector] of the kernel's message object;
    where the allocator put it is the parameter [vector_data].  A failed
    [WHP_CHECK] aborts and is, like undefined behaviour, no result. *)
From S2P Require Import Prelude Core Traps Messages Api Codec.

Definition kFlagExpectsResponse : Z := 1.
Definition kFlagIsResponse : Z := 2.
Definition kFlagIsSync : Z := 4.
Definition kFlagNoInterrupt : Z := 8.
Definition kFlagIsUrgent : Z := 16.

Definition kInvalidInterfaceId : Z := 4294967295.
Definition kPrimaryInterfaceId : Z := 0.
Definition IsValidInterfaceId (id : Z) : bool := negb (id =? kInvalidInterfaceId).
Definition IsPrimaryInterfaceId (id : Z) : bool := id =? kPrimaryInterfaceId.

Definition WHP_MESSAGE_HANDLE_INVALID : Z := 0.

Definition WHP_CHECK (b : bool) : M Core unit := if b then ret tt else ub.

(** ** The validator on a buffer *)

(** [ValidationContext(data, num_bytes)] is the pair. *)
Definition ValidationContext : Type := Z * Z.

Definition ClaimMemory (ctx : ValidationContext) (ptr size : Z) : bool :=
  let '(data, n) := ctx in negb ((ptr <? data) || (u64 (data + n) <? u64 (ptr + size))).

Definition ValidateStructHeaderAndClaimMemory (b : Buf) (data : Z) (ctx : ValidationContext)
    : option bool :=
  if negb (ClaimMemory ctx data sizeof_StructHeader) then Some false
  else
    nb ← load_u32 b (data + num_bytes);
    if nb <? sizeof_StructHeader then Some false else Some (ClaimMemory ctx data nb).

(** The [do { ... } while (false)] of [IsValidMessageHeader]. *)
Definition version_size_ok (version nb : Z) : bool :=
  if version =? 0 then nb =? sizeof_MessageHeader
  else if version =? 1 then nb =? sizeof_MessageHeaderV1
  else if version =? 2 then nb =? sizeof_MessageHeaderV2
  else if version =? 3 then nb =? sizeof_MessageHeaderV3
  else sizeof_MessageHeaderV3 <=? nb.

Definition kRequestIdFlags : Z := Z.lor kFlagExpectsResponse kFlagIsResponse.

(** The loop over the interface ids from [ids] on. *)
Fixpoint check_interface_ids (b : Buf) (ids : Z) (n : nat) : option bool :=
  match n with
  | O => Some true
  | S n' =>
      id ← load_u32 b ids;
      if negb (IsValidInterfaceId id) || IsPrimaryInterfaceId id then Some false
      else check_interface_ids b (ids + 4) n'
  end.

Definition IsValidMessageHeader (b : Buf) (header : Z) (ctx : ValidationContext) : option bool :=
  version ← load_u32 b (header + version_);
  nb ← load_u32 b (header + num_bytes);
  if negb (version_size_ok version nb) then Some false
  else
    flags ← load_u32 b (header + flags_);
    if (version =? 0) && negb (Z.land flags kRequestIdFlags =? 0) then Some false
    else if Z.land flags kRequestIdFlags =? kRequestIdFlags then Some false
    else if version <? 2 then Some true
    else
      payload_null ← pointer_is_null b (header + payload_);
      if (payload_null : bool) then Some false
      else
        payload ← DecodePointer b (header + payload_);
        let begin := fst ctx in
        let end_ := u64 (begin + snd ctx) in
        if (payload <? begin) || (end_ <? payload) then Some false
        else if (payload <? end_) && negb (ClaimMemory ctx payload 1) then Some false
        else
          ids_null ← pointer_is_null b (header + payload_interface_ids_);
          if (ids_null : bool) then Some true
          else
            arr ← DecodePointer b (header + payload_interface_ids_);
            if negb (ClaimMemory ctx arr sizeof_ArrayHeader) then Some false
            else
              bytes ← load_u32 b (arr + num_bytes);
              if (bytes <? sizeof_ArrayHeader) || negb (ClaimMemory ctx arr bytes)
              then Some false
              else
                n ← load_u32 b (arr + num_elements);
                check_interface_ids b (arr + sizeof_ArrayHeader) (Z.to_nat n).

(** ** Class Message *)

Section message.
Context {host : Host} {client : Client}.
(** [std::vector::data()] of the non-empty vector of a message. *)
Context (vector_data : list Z → Z).

(** [GetBuffer]: a null buffer for a null data pointer; and the size. *)
Definition GetBuffer (h : Z) : M Core (Buf * Z) :=
  let! '(_, out) := WhpGetMessageData h false None in
  let bs := default [] (md_bytes out) in
  ret (mkBuf (if bool_decide (bs = []) then 0 else vector_data bs) bs,
       default 0 (md_num_bytes out)).

(** A store through [mutable_data()]. *)
Definition write_data (h : Z) (f : Buf → option Buf) : M Core unit :=
  let! '(b, _) := GetBuffer h in
  let! b' := of_option (f b) in
  with_message h tt (λ msg, store_message h (with_bytes (buf_bytes b') msg)).

Definition read_data {A} (h : Z) (f : Buf → option A) : M Core A :=
  let! '(b, _) := GetBuffer h in of_option (f b).

Definition data (h : Z) : M Core Buf := let! '(b, _) := GetBuffer h in ret b.
Definition data_num_bytes (h : Z) : M Core Z := let! '(_, n) := GetBuffer h in ret n.

(** A field of [header()], [header_v1()], ... at its offset. *)
Definition header_u32 (off : Z) (h : Z) : M Core Z :=
  read_data h (λ b, load_u32 b (buf_addr b + off)).

Definition version (h : Z) : M Core Z := header_u32 version_ h.
Definition interface_id (h : Z) : M Core Z := header_u32 interface_id_ h.
Definition set_interface_id (h id : Z) : M Core unit :=
  write_data h (λ b, store_u32 (buf_addr b + interface_id_) id b).
Definition name (h : Z) : M Core Z := header_u32 name_ h.
Definition has_flag (h flag : Z) : M Core bool :=
  let! fl := header_u32 flags_ h in ret (negb (Z.land fl flag =? 0)).
Definition request_id (h : Z) : M Core Z :=
  read_data h (λ b, load_u64 b (buf_addr b + request_id_)).
Definition set_request_id (h id : Z) : M Core unit :=
  write_data h (λ b, store_u64 (buf_addr b + request_id_) id b).

Definition payload (h : Z) : M Core Z :=
  let! v := version h in
  let! b := data h in
  if v <? 2 then
    let! nb := header_u32 num_bytes h in ret (buf_addr b + nb)
  else read_data h (λ b, DecodePointer b (buf_addr b + payload_)).

Definition payload_num_bytes (h : Z) : M Core Z :=
  let! v := version h in
  let! n := data_num_bytes h in
  if v <? 2 then
    let! nb := header_u32 num_bytes h in ret (u32 (u64 (n - nb)))
  else
    let! begin := read_data h (λ b, DecodePointer b (buf_addr b + payload_)) in
    let! ids := read_data h (λ b, DecodePointer b (buf_addr b + payload_interface_ids_)) in
    let! b := data h in
    let end_ := if ids =? 0 then u64 (buf_addr b + n) else ids in
    ret (u32 (u64 (end_ - begin))).

Definition payload_num_interface_ids (h : Z) : M Core Z :=
  let! v := version h in
  if v <? 2 then ret 0
  else
    let! null := read_data h (λ b, pointer_is_null b (buf_addr b + payload_interface_ids_)) in
    if (null : bool) then ret 0
    else read_data h (λ b,
      arr ← DecodePointer b (buf_addr b + payload_interface_ids_);
      load_u32 b (arr + num_elements)).

Definition payload_interface_ids (h : Z) : M Core Z :=
  let! v := version h in
  if v <? 2 then ret 0
  else
    let! null := read_data h (λ b, pointer_is_null b (buf_addr b + payload_interface_ids_)) in
    if (null : bool) then ret 0
    else read_data h (λ b,
      arr ← DecodePointer b (buf_addr b + payload_interface_ids_);
      Some (u64 (arr + sizeof_ArrayHeader))).

(** [AllocatePayload]: the address of the new bytes. *)
Definition AllocatePayload (h n : Z) : M Core Z :=
  let! '(r, _) := WhpAppendMessageData h (u32 n) [] None in
  WHP_CHECK (r =? WHP_RESULT_OK) ;;
  let! p := payload h in
  let! total := payload_num_bytes h in
  ret (u64 (p + u32 (total - u32 n))).

Definition Reset (h : Z) : M Core Z :=
  (if h =? WHP_MESSAGE_HANDLE_INVALID then ret tt
   else let! _ := WhpDestroyMessage h in ret tt) ;;
  ret WHP_MESSAGE_HANDLE_INVALID.

(** [Message(Message&&)], [operator=] of two objects and
    [CreateFromMessageHandle]: the new object and what it took from. *)
Definition Message_move (other : Z) : Z * Z := (other, WHP_MESSAGE_HANDLE_INVALID).
Definition Message_assign (this other : Z) : M Core (Z * Z) :=
  let! _ := Reset this in ret (other, WHP_MESSAGE_HANDLE_INVALID).
Definition CreateFromMessageHandle (handle : Z) : M Core (Z * Z) :=
  let! _ := WhpInit in ret (handle, WHP_MESSAGE_HANDLE_INVALID).

Definition header_v3_init (name flags : Z) (b : Buf) : option Buf :=
  let h := buf_addr b in
  b ← store h (replicate 56 0) b;
  b ← store_u32 (h + num_bytes) sizeof_MessageHeaderV3 b;
  b ← store_u32 (h + version_) 3 b;
  b ← store_u32 (h + name_) name b;
  b ← store_u32 (h + flags_) flags b;
  EncodePointer (u64 (h + sizeof_MessageHeaderV3)) (h + payload_) b.

Definition EnsureHeaderV3 (name flags : Z) : M Core Z :=
  let! '(r, h) := WhpCreateMessage true in
  WHP_CHECK (r =? WHP_RESULT_OK) ;;
  let h := default WHP_MESSAGE_HANDLE_INVALID h in
  let! '(r, _) := WhpAppendMessageData h sizeof_MessageHeaderV3 [] None in
  WHP_CHECK (r =? WHP_RESULT_OK) ;;
  write_data h (header_v3_init name flags) ;;
  ret h.

(** [Message()], [Message(name, flags, size)] and [Message(payload, handles)]. *)
Definition Message_default : M Core Z :=
  let! _ := WhpInit in ret WHP_MESSAGE_HANDLE_INVALID.
Definition Message_new (name flags estimated_payload_size : Z) : M Core Z :=
  let! _ := WhpInit in
  let! h := EnsureHeaderV3 name flags in
  (if estimated_payload_size =? 0 then ret tt
   else let! _ := AllocatePayload h estimated_payload_size in ret tt) ;;
  ret h.
Definition Message_from (payload handles : list Z) : M Core Z :=
  let! _ := WhpInit in
  let! '(r, h) := WhpCreateMessage true in
  WHP_CHECK (r =? WHP_RESULT_OK) ;;
  let h := default WHP_MESSAGE_HANDLE_INVALID h in
  let! '(r, _) := WhpAppendMessageData h (u32 (Z.of_nat (length payload))) handles
                    (Some WHP_APPEND_MESSAGE_DATA_FLAG_COMMIT_SIZE) in
  WHP_CHECK (r =? WHP_RESULT_OK) ;;
  (if bool_decide (payload = []) then ret tt
   else write_data h (λ b, store (buf_addr b) payload b)) ;;
  ret h.

Definition TakeMojoMessage (h : Z) : M Core (Z * Z) :=
  let! _ := WhpAppendMessageData h 0 [] (Some WHP_APPEND_MESSAGE_DATA_FLAG_COMMIT_SIZE) in
  ret (h, WHP_MESSAGE_HANDLE_INVALID).

(** [MessageHeaderValidator::Accept]; [None] is a null pointer. *)
Definition Accept (message : option Z) : M Core bool :=
  match message with
  | None => ret false
  | Some h =>
      if h =? WHP_MESSAGE_HANDLE_INVALID then ret false
      else
        let! '(b, n) := GetBuffer h in
        let ctx := (buf_addr b, n) in
        let! ok := of_option (ValidateStructHeaderAndClaimMemory b (buf_addr b) ctx) in
        if negb ok then ret false
        else of_option (IsValidMessageHeader b (buf_addr b) ctx)
  end.
End message.
