(* ===== verification/MessageProps.v ===== *)
(** * Properties of messages and of header validation *)
From S2P Require Import Prelude Core Traps Messages DataPipes Buffers Api.
From S2P Require Import CoreInv TrapsInv KernelInv TransferInv PipeSpec KernelProps.
From S2P Require Import Codec Message.

(** ** Validation as a function of the bytes *)

(** The payload's and the interface ids' offsets from the start of the
    message, by the header's relative pointers. *)
Definition payload_pos (d : list Z) : Z := u64 (32 + word64 d 32).
Definition ids_pos (d : list Z) : Z := u64 (40 + word64 d 40).

Definition both_flags (fl : Z) : bool := Z.land fl kRequestIdFlags =? kRequestIdFlags.

(** The contract on the fixed part of the header. *)
Definition header_ok (d : list Z) : bool :=
  let n := Z.of_nat (length d) in
  let nb := word32 d 0 in
  let v := word32 d 4 in
  let fl := word32 d 16 in
  (8 <=? n) && (8 <=? nb) && (nb <=? n) && version_size_ok v nb &&
  negb ((v =? 0) && negb (Z.land fl kRequestIdFlags =? 0)) && negb (both_flags fl) &&
  ((v <? 2) || (negb (word64 d 32 =? 0) && (payload_pos d <=? n))).

Definition interface_id_ok (id : Z) : bool := IsValidInterfaceId id && negb (IsPrimaryInterfaceId id).

(** The ids of the array at [q]. *)
Definition ids_at (d : list Z) (q : Z) (n : nat) : list Z :=
  map (λ i, word32 d (q + 8 + 4 * Z.of_nat i)) (seq 0 n).

(** No interface ids. *)
Definition no_ids (d : list Z) : Prop := word32 d 4 < 2 ∨ word64 d 40 = 0.

(** The array of interface ids starts inside the message and its elements fit
    in the size it states. *)
Definition ids_wf (d : list Z) : Prop :=
  ids_pos d + 8 <= Z.of_nat (length d) ∧
  8 + 4 * word32 d (ids_pos d + 4) <= word32 d (ids_pos d).

Definition ids_ok (d : list Z) : bool :=
  (word32 d 4 <? 2) || (word64 d 40 =? 0) ||
  ((ids_pos d + word32 d (ids_pos d) <=? Z.of_nat (length d)) &&
   forallb interface_id_ok (ids_at d (ids_pos d) (Z.to_nat (word32 d (ids_pos d + 4))))).

(** A buffer that the allocator can have returned: one that ends in the lower
    half of the address space, so that a 32-bit size added to an address inside
    it does not wrap. *)
Definition placed (a : Z) (d : list Z) : Prop :=
  0 <= a ∧ a + Z.of_nat (length d) < 2 ^ 63.

Section validator.
Context (a : Z) (d : list Z).
Context (Hplaced : placed a d) (Hbytes : Forall byte_ok d).
#[local] Set Default Proof Using "All".

#[local] Abbreviation n := (Z.of_nat (length d)).
#[local] Abbreviation ctx := (a, n).

Lemma claim_at k size :
  0 <= k → 0 <= size → a + k + size < 2 ^ 64 →
  ClaimMemory ctx (a + k) size = (k + size <=? n).
Proof.
  destruct Hplaced. intros. unfold ClaimMemory.
  rewrite !u64_small by lia. lia.
Qed.

(** A relative pointer at offset [k]: where it leads. *)
Lemma decode_at k :
  0 <= k → k + 8 <= n → word64 d k ≠ 0 →
  DecodePointer (mkBuf a d) (a + k) = Some (u64 (a + u64 (k + word64 d k))).
Proof.
  intros Hk Hk8 H0. unfold DecodePointer. rewrite load_u64_at by lia. cbn [mbind option_bind].
  rewrite (proj2 (Z.eqb_neq _ _)) by done. f_equal. unfold u64.
  rewrite Zplus_mod_idemp_r. f_equal. lia.
Qed.

Lemma null_at k :
  0 <= k → k + 8 <= n → pointer_is_null (mkBuf a d) (a + k) = Some (word64 d k =? 0).
Proof. intros. unfold pointer_is_null. by rewrite load_u64_at by lia. Qed.

(** Inside the buffer an address is its offset. *)
Lemma inside q : 0 <= q < 2 ^ 64 →
  (a <=? u64 (a + q)) && (u64 (a + q) <=? a + n) = (q <=? n).
Proof.
  destruct Hplaced. intros Hq.
  destruct (decide (a + q < 2 ^ 64)).
  - rewrite u64_small by lia. lia.
  - unfold u64. replace (a + q) with (a + q - 2 ^ 64 + 1 * 2 ^ 64) by lia.
    rewrite Z.mod_add, Z.mod_small by lia. lia.
Qed.

Lemma check_ids_spec k m :
  0 <= k → k + 4 * Z.of_nat m <= n →
  check_interface_ids (mkBuf a d) (a + k) m =
  Some (forallb interface_id_ok (map (λ i, word32 d (k + 4 * Z.of_nat i)) (seq 0 m))).
Proof.
  revert k. induction m as [|m IH]; intros k Hk Hm; [done|].
  cbn [check_interface_ids seq map forallb]. rewrite load_u32_at by lia.
  cbn [mbind option_bind]. rewrite Z.mul_0_r, Z.add_0_r. unfold interface_id_ok at 1.
  destruct (IsValidInterfaceId _); [|done]. destruct (IsPrimaryInterfaceId _); [done|].
  cbn [negb orb andb]. rewrite <- Z.add_assoc, IH by lia. f_equal.
  rewrite <- seq_shift, map_map. f_equal. apply map_ext. intros i. f_equal. lia.
Qed.

(** The whole of [Accept] on the buffer. *)
Definition accept_buf : option bool :=
  ok ← ValidateStructHeaderAndClaimMemory (mkBuf a d) a ctx;
  if negb ok then Some false else IsValidMessageHeader (mkBuf a d) a ctx.

Lemma version_size_bounds v nb :
  0 <= v → version_size_ok v nb = true → 24 <= nb ∧ (2 <= v → 48 <= nb).
Proof.
  unfold version_size_ok, sizeof_MessageHeader, sizeof_MessageHeaderV1,
    sizeof_MessageHeaderV2, sizeof_MessageHeaderV3. intros Hv.
  repeat (case_match; [zbool; lia|]). zbool. lia.
Qed.

Lemma struct_header_spec :
  ValidateStructHeaderAndClaimMemory (mkBuf a d) a ctx =
  Some ((8 <=? n) && (8 <=? word32 d 0) && (word32 d 0 <=? n)).
Proof.
  destruct Hplaced as [Ha Han]. pose proof (word32_range d 0 Hbytes) as H0.
  unfold ValidateStructHeaderAndClaimMemory, num_bytes, sizeof_StructHeader.
  pose proof (claim_at 0 8 ltac:(lia) ltac:(lia) ltac:(lia)) as C8.
  rewrite Z.add_0_r in C8. rewrite C8, Z.add_0_l.
  destruct (Z.leb_spec 8 n) as [H8|H8]; [|done]. cbn [negb].
  rewrite load_u32_at by lia. cbn [mbind option_bind].
  destruct (Z.ltb_spec (word32 d 0) 8), (Z.leb_spec 8 (word32 d 0)); try lia; [done|].
  pose proof (claim_at 0 (word32 d 0) ltac:(lia) ltac:(lia) ltac:(lia)) as C0.
  rewrite Z.add_0_r in C0. by rewrite C0, Z.add_0_l.
Qed.

(** The end of [IsValidMessageHeader], on the interface ids. *)
Definition ids_check : option bool :=
  ids_null ← pointer_is_null (mkBuf a d) (a + payload_interface_ids_);
  if (ids_null : bool) then Some true
  else
    arr ← DecodePointer (mkBuf a d) (a + payload_interface_ids_);
    if negb (ClaimMemory ctx arr sizeof_ArrayHeader) then Some false
    else
      bytes ← load_u32 (mkBuf a d) (arr + num_bytes);
      if (bytes <? sizeof_ArrayHeader) || negb (ClaimMemory ctx arr bytes)
      then Some false
      else
        m ← load_u32 (mkBuf a d) (arr + num_elements);
        check_interface_ids (mkBuf a d) (arr + sizeof_ArrayHeader) (Z.to_nat m).

Lemma ids_check_array :
  48 <= n → word64 d 40 ≠ 0 → ids_pos d + 8 <= n →
  ids_check =
  if (word32 d (ids_pos d) <? 8) || (n <? ids_pos d + word32 d (ids_pos d)) then Some false
  else check_interface_ids (mkBuf a d) (a + (ids_pos d + 8))
         (Z.to_nat (word32 d (ids_pos d + 4))).
Proof.
  intros Hn E Hq. destruct Hplaced as [Ha Han].
  unfold ids_check, payload_interface_ids_, sizeof_ArrayHeader, num_bytes, num_elements.
  rewrite null_at by lia. cbn [mbind option_bind]. rewrite (proj2 (Z.eqb_neq _ _)) by done.
  rewrite decode_at by (done || lia). cbn [mbind option_bind]. fold (ids_pos d).
  pose proof (u64_range (40 + word64 d 40)) as Hq0. fold (ids_pos d) in Hq0.
  set (q := ids_pos d) in *. rewrite (u64_small (a + q)) by lia.
  rewrite claim_at by lia. rewrite (proj2 (Z.leb_le (q + 8) n)) by lia. cbn [negb].
  pose proof (word32_range d q Hbytes). pose proof (word32_range d (q + 4) Hbytes).
  rewrite <- !Z.add_assoc, (load_u32_at _ _ (q + 0)), Z.add_0_r by lia. cbn [mbind option_bind].
  rewrite claim_at by lia.
  replace (negb (q + word32 d q <=? n)) with (n <? q + word32 d q) by lia.
  rewrite (load_u32_at _ _ (q + 4)) by lia. done.
Qed.

Lemma ids_check_spec :
  48 <= n → 2 <= word32 d 4 → word64 d 40 = 0 ∨ ids_wf d → ids_check = Some (ids_ok d).
Proof.
  intros Hn Hv Hids. unfold ids_ok. rewrite (proj2 (Z.ltb_ge (word32 d 4) 2)) by lia.
  destruct (Z.eqb_spec (word64 d 40) 0) as [E|E].
  { unfold ids_check, payload_interface_ids_. rewrite null_at by lia. by rewrite E. }
  destruct Hids as [?|[Hq Hfit]]; [done|]. rewrite ids_check_array by done.
  pose proof (u64_range (40 + word64 d 40)) as Hq0. fold (ids_pos d) in Hq0.
  pose proof (word32_range d (ids_pos d + 4) Hbytes).
  rewrite (proj2 (Z.ltb_ge (word32 d (ids_pos d)) 8)) by lia. cbn [orb].
  destruct (Z.leb_spec (ids_pos d + word32 d (ids_pos d)) n) as [Hle|Hle].
  - rewrite (proj2 (Z.ltb_ge n _)) by lia. rewrite check_ids_spec by lia. done.
  - by rewrite (proj2 (Z.ltb_lt n _)) by lia.
Qed.

(** The part of the header before the interface ids. *)
Definition fixed_ok : bool :=
  version_size_ok (word32 d 4) (word32 d 0) &&
  negb ((word32 d 4 =? 0) && negb (Z.land (word32 d 16) kRequestIdFlags =? 0)) &&
  negb (both_flags (word32 d 16)) &&
  ((word32 d 4 <? 2) || (negb (word64 d 32 =? 0) && (payload_pos d <=? n))).

Lemma valid_header_fixed :
  8 <= word32 d 0 <= n →
  IsValidMessageHeader (mkBuf a d) a ctx =
  if fixed_ok then if word32 d 4 <? 2 then Some true else ids_check else Some false.
Proof.
  intros Hnb. destruct Hplaced as [Ha Han]. pose proof (word32_range d 4 Hbytes) as H4.
  unfold IsValidMessageHeader, version_, num_bytes, flags_, fixed_ok.
  rewrite (load_u32_at _ _ 4) by lia. cbn [mbind option_bind].
  rewrite (load_u32_at _ _ 0) by lia. cbn [mbind option_bind].
  destruct (version_size_ok _ _) eqn:Hvs; [|done]. cbn [negb andb].
  apply version_size_bounds in Hvs as [H24 H48]; [|lia].
  rewrite (load_u32_at _ _ 16) by lia. cbn [mbind option_bind].
  destruct ((word32 d 4 =? 0) && _); [done|]. cbn [negb andb]. unfold both_flags.
  destruct (Z.land _ _ =? kRequestIdFlags); [done|]. cbn [negb andb].
  destruct (Z.ltb_spec (word32 d 4) 2) as [H2|H2]; [done|]. specialize (H48 H2).
  unfold payload_. rewrite (null_at 32) by lia. cbn [mbind option_bind orb].
  destruct (Z.eqb_spec (word64 d 32) 0) as [E|E]; [done|]. cbn [negb andb].
  rewrite (decode_at 32) by (done || lia). cbn [mbind option_bind fst snd].
  rewrite (u64_small (a + n)) by lia. fold (payload_pos d).
  pose proof (u64_range (32 + word64 d 32)) as Hp. fold (payload_pos d) in Hp.
  pose proof (inside (payload_pos d) ltac:(lia)) as Hin.
  destruct (Z.leb_spec (payload_pos d) n) as [Hle|Hle].
  - rewrite (u64_small (a + payload_pos d)) by lia.
    rewrite (proj2 (Z.ltb_ge (a + payload_pos d) a)), (proj2 (Z.ltb_ge (a + n) _)) by lia.
    rewrite claim_at by lia. cbn [orb andb].
    by replace ((a + payload_pos d <? a + n) && negb (payload_pos d + 1 <=? n)) with false by lia.
  - by replace ((u64 (a + payload_pos d) <? a) || (a + n <? u64 (a + payload_pos d)))
      with true by lia.
Qed.

Lemma accept_buf_fixed :
  accept_buf =
  if header_ok d then if word32 d 4 <? 2 then Some true else ids_check else Some false.
Proof.
  unfold accept_buf. rewrite struct_header_spec. cbn [mbind option_bind].
  unfold header_ok. destruct (_ && _ && _) eqn:E; [|done]. zbool. cbn [negb andb].
  by rewrite valid_header_fixed by lia.
Qed.

Lemma header_ok_size : header_ok d = true → 2 <= word32 d 4 → 48 <= n.
Proof.
  intros Hh Hv. unfold header_ok in Hh. zbool.
  destruct (version_size_bounds (word32 d 4) (word32 d 0)) as [_ H48]; [lia|done|].
  specialize (H48 Hv). lia.
Qed.

Lemma accept_buf_spec :
  no_ids d ∨ ids_wf d → accept_buf = Some (header_ok d && ids_ok d).
Proof.
  intros Hids. rewrite accept_buf_fixed. destruct (header_ok d) eqn:Hh; [|done]. cbn [andb].
  destruct (Z.ltb_spec (word32 d 4) 2) as [H2|H2].
  { unfold ids_ok. by rewrite (proj2 (Z.ltb_lt _ _) H2). }
  apply ids_check_spec; [by apply header_ok_size|done|].
  destruct Hids as [[?|?]|?]; [lia|by left|by right].
Qed.

(** Ids that are valid as far as the message goes, and more of them than it
    holds: the loop leaves the message. *)
Lemma check_ids_past_end k m :
  0 <= k <= n → n < k + 4 * Z.of_nat m →
  (∀ i : nat, k + 4 * Z.of_nat i + 4 <= n → interface_id_ok (word32 d (k + 4 * Z.of_nat i)) = true) →
  check_interface_ids (mkBuf a d) (a + k) m = None.
Proof.
  revert k. induction m as [|m IH]; intros k Hk Hm Hok; [lia|].
  cbn [check_interface_ids]. destruct (decide (k + 4 <= n)) as [Hin|Hout].
  - rewrite load_u32_at by lia. cbn [mbind option_bind].
    pose proof (Hok 0%nat ltac:(lia)) as H0. rewrite Z.mul_0_r, Z.add_0_r in H0.
    unfold interface_id_ok in H0. apply andb_prop in H0 as [-> H0].
    destruct (IsPrimaryInterfaceId _); [done|]. cbn [negb orb].
    rewrite <- Z.add_assoc. apply IH; [lia|lia|]. intros i Hi.
    replace (k + 4 + 4 * Z.of_nat i) with (k + 4 * Z.of_nat (S i)) by lia. apply Hok. lia.
  - unfold load_u32, load, in_buf, buf_size. cbn.
    replace ((a <=? a + k) && (a + k + 4 <=? a + n)) with false by lia. done.
Qed.

Lemma accept_buf_past_end :
  header_ok d = true → 2 <= word32 d 4 → word64 d 40 ≠ 0 →
  8 <= word32 d (ids_pos d) → ids_pos d + word32 d (ids_pos d) <= n →
  n < ids_pos d + 8 + 4 * word32 d (ids_pos d + 4) →
  (∀ i : nat, ids_pos d + 8 + 4 * Z.of_nat i + 4 <= n →
     interface_id_ok (word32 d (ids_pos d + 8 + 4 * Z.of_nat i)) = true) →
  accept_buf = None.
Proof.
  intros Hh Hv H40 H8 Hfit Hover Hok. pose proof (header_ok_size Hh Hv) as H48.
  rewrite accept_buf_fixed, Hh, (proj2 (Z.ltb_ge (word32 d 4) 2)) by lia.
  pose proof (u64_range (40 + word64 d 40)) as Hq0. fold (ids_pos d) in Hq0.
  pose proof (word32_range d (ids_pos d + 4) Hbytes).
  rewrite ids_check_array, (proj2 (Z.ltb_ge (word32 d (ids_pos d)) 8)), (proj2 (Z.ltb_ge n _))
    by (done || lia).
  apply check_ids_past_end; [lia|lia|done].
Qed.
End validator.

(** ** Messages in the kernel *)

Section kernel.
Context {host : Host}.
Context (vector_data : list Z → Z).

(** The message under [h] becomes [m]; no other handle, no pipe and not the
    size of the table differs from [c]. *)
Record message_step (c : Core) (h : Z) (m : MessageObj) (c' : Core) : Prop := {
  ms_wf : wf c';
  ms_this : Lookup c' h = Some (message_slot m);
  ms_rest h' : h' ≠ h → Lookup c' h' = Lookup c h';
  ms_pipes : pipe_states c' = pipe_states c;
  ms_len : length (slots c') = length (slots c)
}.

(** The same for a new handle [h]. *)
Record message_made (c : Core) (h : Z) (m : MessageObj) (c' : Core) : Prop := {
  mm_fresh : Lookup c h = None;
  mm_wf : wf c';
  mm_this : Lookup c' h = Some (message_slot m);
  mm_rest h' : h' ≠ h → Lookup c' h' = Lookup c h';
  mm_pipes : pipe_states c' = pipe_states c;
  mm_len : (length (slots c') <= S (length (slots c)))%nat
}.

Lemma message_made_step c h m c1 m' c2 :
  message_made c h m c1 → message_step c1 h m' c2 → message_made c h m' c2.
Proof.
  intros [? ? ? R1 P1 L1] [? ? R2 P2 L2].
  split; [done|done|done|intros h' Hne; by rewrite R2, R1|congruence|lia].
Qed.

Lemma wp_store_message c h m m' :
  wf c → Lookup c h = Some (message_slot m) →
  wp (store_message h m') (λ _ c', message_step c h m' c') c.
Proof.
  intros Hwf Hl. unfold store_message. pose proof Hl as (Hr & Hs & _)%Lookup_inv; [|apply Hwf].
  eapply wp_store_inert; [done|exact Hl|done|done|done|]. intros Hwf'.
  split; [done|by rewrite (Lookup_stored _ _ _ _ (wf_table _ Hwf) Hl)| |done|apply length_insert].
  intros h' Hne. destruct (decide (0 < h')) as [Hp|Hp].
  - unfold Lookup. simpl. rewrite length_insert, list_lookup_insert_ne by lia. done.
  - rewrite !Lookup_negative; [done|apply Hwf|lia|apply Hwf'|lia].
Qed.

Lemma wp_create_message c :
  wf c → Z.of_nat (length (slots c)) < 2 ^ 32 →
  wp (WhpCreateMessage true) (λ r c', ∃ h, r = (WHP_RESULT_OK, Some h) ∧
    message_made c h MessageObj_init c') c.
Proof.
  intros Hwf Hlen. unfold WhpCreateMessage. simpl. wp_step.
  eapply wp_mono; [apply Alloc_spec; [apply (wf_table _ Hwf)|done..]|].
  intros h c1 (i & sl & fl & -> & F & Hh). wp_step. exists h. split; [done|].
  destruct (filled_lookup c _ _ _ _ (wf_table _ Hwf) F) as (A1 & A2 & A3); [done|].
  assert (h = Z.of_nat i) as -> by (destruct Hh as [->|[-> ->]]; [done|apply u32_small; lia]).
  split; [done|by eapply wf_fill|done|done|done|apply (filled_length _ _ _ _ _ F)].
Qed.

(** [options] as the code passes them. *)
Definition commit_option (commit : bool) : option Z :=
  if commit then Some WHP_APPEND_MESSAGE_DATA_FLAG_COMMIT_SIZE else None.

Lemma wp_append c h m n commit :
  wf c → Lookup c h = Some (message_slot m) → committed m = false ∨ n = 0 → 0 <= n →
  wp (WhpAppendMessageData h n [] (commit_option commit)) (λ r c', fst r = WHP_RESULT_OK ∧
    message_step c h (mkMessageObj (msg_bytes m ++ replicate (Z.to_nat n) 0) (msg_handles m)
      (commit || committed m) (msg_context m) (serializer m) (destructor m)) c') c.
Proof.
  intros Hwf Hl Hc Hn. unfold WhpAppendMessageData, with_message. wp_step. rewrite Hl. simpl.
  wp_step. replace (committed m && negb (n =? 0)) with false
    by (destruct Hc as [-> | ->]; [done|by rewrite andb_false_r]).
  wp_step. eapply wp_mono; [by eapply wp_store_message|]. intros [] c' H. wp_step.
  split; [done|].
  assert ((if n =? 0 then msg_bytes m else resize (Z.of_nat (length (msg_bytes m)) + n) (msg_bytes m))
    = msg_bytes m ++ replicate (Z.to_nat n) 0) as E.
  { destruct (Z.eqb_spec n 0) as [->|]; [by rewrite app_nil_r|].
    unfold resize. rewrite take_ge by lia. f_equal. f_equal. lia. }
  rewrite E, app_nil_r in H. destruct commit; exact H.
Qed.

Definition data_addr (d : list Z) : Z := if bool_decide (d = []) then 0 else vector_data d.

Lemma GetBuffer_eq c h m :
  Lookup c h = Some (message_slot m) →
  GetBuffer vector_data h c =
  Some ((mkBuf (data_addr (msg_bytes m)) (msg_bytes m), u32 (Z.of_nat (length (msg_bytes m)))), c).
Proof.
  intros Hl. unfold GetBuffer, WhpGetMessageData, with_message, bind, get, ret. by rewrite Hl.
Qed.

Lemma wp_GetBuffer c h m (Q : Buf * Z → Core → Prop) :
  Lookup c h = Some (message_slot m) → Z.of_nat (length (msg_bytes m)) < 2 ^ 32 →
  Q (mkBuf (data_addr (msg_bytes m)) (msg_bytes m), Z.of_nat (length (msg_bytes m))) c →
  wp (GetBuffer vector_data h) Q c.
Proof.
  intros Hl Hn HQ. unfold wp. by rewrite (GetBuffer_eq _ _ _ Hl), u32_small by lia.
Qed.

Lemma wp_write_bytes c h m f b :
  wf c → Lookup c h = Some (message_slot m) →
  f (mkBuf (data_addr (msg_bytes m)) (msg_bytes m)) = Some b →
  wp (write_data vector_data h f) (λ _ c', message_step c h (with_bytes (buf_bytes b) m) c') c.
Proof.
  intros Hwf Hl Hf. unfold write_data. wp_step. unfold wp at 1. rewrite (GetBuffer_eq _ _ _ Hl).
  rewrite Hf. wp_step. unfold with_message. wp_step. rewrite Hl. simpl. wp_step.
  by eapply wp_store_message.
Qed.

Lemma read_data_eq {A} c h m (f : Buf → option A) x :
  Lookup c h = Some (message_slot m) →
  f (mkBuf (data_addr (msg_bytes m)) (msg_bytes m)) = Some x →
  read_data vector_data h f c = Some (x, c).
Proof.
  intros Hl Hf. unfold read_data, bind. rewrite (GetBuffer_eq _ _ _ Hl). by rewrite Hf.
Qed.

Lemma header_u32_eq c h m k :
  Lookup c h = Some (message_slot m) → 0 <= k → k + 4 <= Z.of_nat (length (msg_bytes m)) →
  header_u32 vector_data k h c = Some (word32 (msg_bytes m) k, c).
Proof.
  intros Hl Hk Hk4. unfold header_u32. eapply read_data_eq; [done|]. simpl.
  by apply load_u32_at.
Qed.

(** ** The header a message is created with *)

Definition header_bytes (name flags : Z) : list Z :=
  le_bytes 4 56 ++ le_bytes 4 3 ++ le_bytes 4 0 ++ le_bytes 4 name ++ le_bytes 4 flags ++
  le_bytes 4 0 ++ le_bytes 8 0 ++ le_bytes 8 24 ++ le_bytes 8 0 ++ le_bytes 8 0.

Lemma header_v3_init_eq a name flags :
  0 <= a < 2 ^ 63 →
  header_v3_init name flags (mkBuf a (replicate 56 0)) = Some (mkBuf a (header_bytes name flags)).
Proof.
  intros Ha. unfold header_v3_init. cbn [buf_addr].
  replace (store a (replicate 56 0) (mkBuf a (replicate 56 0)))
    with (Some (mkBuf a (replicate 56 0))).
  2: { rewrite <- (Z.add_0_r a) at 2. by rewrite store_at by done. }
  cbn [mbind option_bind].
  unfold num_bytes, version_, name_, flags_, payload_, sizeof_MessageHeaderV3, EncodePointer.
  rewrite store_u32_at by done. cbn [mbind option_bind].
  rewrite store_u32_at by done. cbn [mbind option_bind].
  rewrite store_u32_at by done. cbn [mbind option_bind].
  rewrite store_u32_at by done. cbn [mbind option_bind].
  rewrite (u64_small (a + 56)) by lia.
  rewrite (proj2 (Z.eqb_neq (a + 56) 0)) by lia.
  rewrite store_u64_at by done.
  replace (a + 56 - (a + 32)) with 24 by lia. reflexivity.
Qed.

Section fields.
Context (name flags : Z) (body : list Z).
Context (Hname : 0 <= name < 2 ^ 32) (Hflags : 0 <= flags < 2 ^ 32).
#[local] Set Default Proof Using "All".

Lemma field_name : word32 (header_bytes name flags ++ body) 12 = name.
Proof. transitivity (le_value (le_bytes 4 name)); [done|]. by apply le_value_bytes. Qed.

Lemma field_flags : word32 (header_bytes name flags ++ body) 16 = flags.
Proof. transitivity (le_value (le_bytes 4 flags)); [done|]. by apply le_value_bytes. Qed.

Lemma header_bytes_ok : Forall byte_ok (header_bytes name flags).
Proof. unfold header_bytes. repeat (apply Forall_app; split); apply le_bytes_ok. Qed.

Lemma header_bytes_valid :
  Forall byte_ok body → Z.of_nat (length body) < 2 ^ 32 →
  header_ok (header_bytes name flags ++ body) && ids_ok (header_bytes name flags ++ body) =
  negb (both_flags flags).
Proof.
  intros Hb Hn. set (d := header_bytes name flags ++ body).
  assert (Z.of_nat (length d) = 56 + Z.of_nat (length body)) as Hlen.
  { unfold d. rewrite length_app. change (length (header_bytes name flags)) with 56%nat. lia. }
  assert (ids_ok d = true) as -> by reflexivity. rewrite andb_true_r.
  unfold header_ok. rewrite Hlen. unfold d. rewrite field_flags.
  change (word32 (header_bytes name flags ++ body) 0) with 56.
  change (word32 (header_bytes name flags ++ body) 4) with 3.
  change (word64 (header_bytes name flags ++ body) 32) with 24.
  change (payload_pos (header_bytes name flags ++ body)) with 56.
  rewrite (proj2 (Z.leb_le 8 _)), (proj2 (Z.leb_le 56 _)) by lia. cbn.
  by rewrite andb_true_r.
Qed.
End fields.

(** [Accept] on a message of the kernel is the validator on its bytes. *)
Lemma Accept_eq c h m :
  wf c → Lookup c h = Some (message_slot m) → Forall byte_ok (msg_bytes m) →
  Z.of_nat (length (msg_bytes m)) < 2 ^ 32 → placed (data_addr (msg_bytes m)) (msg_bytes m) →
  no_ids (msg_bytes m) ∨ ids_wf (msg_bytes m) →
  Accept vector_data (Some h) c =
  Some (header_ok (msg_bytes m) && ids_ok (msg_bytes m), c).
Proof.
  intros Hwf Hl Hb Hn Hp Hids. unfold Accept, WHP_MESSAGE_HANDLE_INVALID.
  pose proof Hl as (Hr & _)%Lookup_inv; [|apply Hwf].
  rewrite (proj2 (Z.eqb_neq h 0)) by lia. unfold bind. rewrite (GetBuffer_eq _ _ _ Hl).
  rewrite u32_small by lia. cbn [buf_addr].
  pose proof (accept_buf_spec _ _ Hp Hb Hids) as E. unfold accept_buf in E.
  destruct (ValidateStructHeaderAndClaimMemory _ _ _) as [ok|]; [|done]. cbn in E |- *.
  destruct ok; cbn in E |- *.
  - rewrite E. done.
  - by injection E as <-.
Qed.

(** What the accessors say of a message with that header. *)
Record header_view (h : Z) (c : Core) (nm fl : Z) (body : list Z) : Prop := {
  hv_version : version vector_data h c = Some (3, c);
  hv_name : name vector_data h c = Some (nm, c);
  hv_flag f : has_flag vector_data h f c = Some (negb (Z.land fl f =? 0), c);
  hv_interface : interface_id vector_data h c = Some (0, c);
  hv_payload :
    payload vector_data h c = Some (vector_data (header_bytes nm fl ++ body) + 56, c);
  hv_payload_size :
    payload_num_bytes vector_data h c = Some (Z.of_nat (length body), c);
  hv_ids : payload_num_interface_ids vector_data h c = Some (0, c);
  hv_accept : Accept vector_data (Some h) c = Some (negb (both_flags fl), c)
}.

Lemma header_view_of c h m nm fl body :
  wf c → Lookup c h = Some (message_slot m) → msg_bytes m = header_bytes nm fl ++ body →
  0 <= nm < 2 ^ 32 → 0 <= fl < 2 ^ 32 → Forall byte_ok body →
  Z.of_nat (length body) + 56 < 2 ^ 32 →
  0 <= vector_data (msg_bytes m) < 2 ^ 63 - 2 ^ 32 →
  header_view h c nm fl body.
Proof using host.
  intros Hwf Hl Em Hnm Hfl Hb Hn Hvd.
  assert (Z.of_nat (length (msg_bytes m)) = 56 + Z.of_nat (length body)) as Hlen.
  { rewrite Em, length_app. change (length (header_bytes nm fl)) with 56%nat. lia. }
  assert (Forall byte_ok (msg_bytes m)) as Hbytes.
  { rewrite Em. apply Forall_app. split; [by apply header_bytes_ok|done]. }
  assert (data_addr (msg_bytes m) = vector_data (msg_bytes m)) as Ha.
  { unfold data_addr. rewrite bool_decide_false; [done|]. by rewrite Em. }
  assert (placed (data_addr (msg_bytes m)) (msg_bytes m)) as Hp by (rewrite Ha; split; lia).
  assert (version vector_data h c = Some (3, c)) as Hv.
  { unfold version, version_. rewrite (header_u32_eq _ _ _ 4 Hl) by lia. by rewrite Em. }
  assert (word64 (msg_bytes m) 32 = 24) as W32 by (by rewrite Em).
  assert (word64 (msg_bytes m) 40 = 0) as W40 by (by rewrite Em).
  assert (DecodePointer (mkBuf (data_addr (msg_bytes m)) (msg_bytes m))
    (data_addr (msg_bytes m) + payload_) = Some (vector_data (msg_bytes m) + 56)) as Dp.
  { unfold payload_. rewrite decode_at by (done || lia). rewrite W32, Ha.
    f_equal. rewrite (u64_small (32 + 24)) by lia. by rewrite u64_small by lia. }
  assert (DecodePointer (mkBuf (data_addr (msg_bytes m)) (msg_bytes m))
    (data_addr (msg_bytes m) + payload_interface_ids_) = Some 0) as Di.
  { unfold payload_interface_ids_, DecodePointer. rewrite load_u64_at by lia.
    by rewrite W40. }
  split.
  - done.
  - unfold name, name_. rewrite (header_u32_eq _ _ _ 12 Hl) by lia. by rewrite Em, field_name.
  - intros f. unfold has_flag, bind, flags_. rewrite (header_u32_eq _ _ _ 16 Hl) by lia.
    by rewrite Em, field_flags.
  - unfold interface_id, interface_id_. rewrite (header_u32_eq _ _ _ 8 Hl) by lia. by rewrite Em.
  - rewrite <- Em. unfold payload, bind. rewrite Hv. unfold data, bind. rewrite (GetBuffer_eq _ _ _ Hl).
    cbn. rewrite (read_data_eq c h m _ _ Hl Dp). done.
  - unfold payload_num_bytes, data_num_bytes, data, bind. rewrite Hv, (GetBuffer_eq _ _ _ Hl).
    cbn -[Z.add]. rewrite (read_data_eq c h m _ _ Hl Dp), (read_data_eq c h m _ _ Hl Di).
    rewrite (GetBuffer_eq _ _ _ Hl). cbn -[Z.add]. rewrite Ha, Hlen, (u32_small (56 + _)) by lia.
    rewrite (u64_small (_ + (56 + _))) by lia.
    rewrite u64_small, u32_small by lia. unfold ret. do 2 f_equal. lia.
  - unfold payload_num_interface_ids, bind. rewrite Hv. cbn.
    assert (pointer_is_null (mkBuf (data_addr (msg_bytes m)) (msg_bytes m))
      (data_addr (msg_bytes m) + payload_interface_ids_) = Some true) as Ni.
    { unfold payload_interface_ids_. rewrite null_at by (done || lia). by rewrite W40. }
    rewrite (read_data_eq c h m (λ b, pointer_is_null b (buf_addr b + payload_interface_ids_))
      _ Hl Ni). done.
  - erewrite Accept_eq; [|done|done|done|lia|done|by left; right].
    by rewrite Em, header_bytes_valid by (done || lia).
Qed.

Lemma Lookup_set_inited b c h : Lookup (set_inited b c) h = Lookup c h.
Proof. by apply Lookup_ext. Qed.

Lemma wp_EnsureHeaderV3 c nm fl :
  wf c → Z.of_nat (length (slots c)) < 2 ^ 32 →
  (∀ l, length l = 56%nat → 0 <= vector_data l < 2 ^ 63 - 2 ^ 32) →
  wp (EnsureHeaderV3 vector_data nm fl) (λ h c',
    message_made c h (mkMessageObj (header_bytes nm fl) [] false 0 None None) c') c.
Proof.
  intros Hwf Hlen Hvd. unfold EnsureHeaderV3. wp_step.
  eapply wp_mono; [by apply wp_create_message|]. intros r c1 (h & -> & S1). wp_step.
  cbn [default]. unfold WHP_CHECK at 1. simpl. wp_step.
  eapply wp_mono; [apply (wp_append c1 h MessageObj_init 56 false (mm_wf _ _ _ _ S1)
    (mm_this _ _ _ _ S1)); [by left|done]|].
  intros [r o] c2 [Hr S2]. wp_step. simpl in Hr. subst r.
  unfold WHP_CHECK. simpl. wp_step.
  assert (data_addr (replicate 56 0) = vector_data (replicate 56 0)) as Ea by done.
  eapply wp_mono; [eapply wp_write_bytes; [apply S2|apply S2|]|].
  - cbn [msg_bytes MessageObj_init app]. change (Z.to_nat 56) with 56%nat.
    apply header_v3_init_eq. rewrite Ea. pose proof (Hvd (replicate 56 0) eq_refl). lia.
  - intros [] c3 S3. wp_step. eapply message_made_step; [by eapply message_made_step|exact S3].
Qed.
End kernel.

(** A new [Message] is a fresh handle whose accessors return what it was
    made with: name, flags, no interface, a payload of the estimated size right
    after the header; the validator accepts it unless both request flags are
    set.  No other handle changes. *)
Theorem message_new_view {host : Host} vector_data c nm fl n :
  wf c → Z.of_nat (length (slots c)) < 2 ^ 32 →
  0 <= nm < 2 ^ 32 → 0 <= fl < 2 ^ 32 → 0 <= n < 2 ^ 32 - 56 →
  (∀ l, 0 <= vector_data l < 2 ^ 63 - 2 ^ 32) →
  wp (Message_new vector_data nm fl n) (λ h c',
    Lookup c h = None ∧ (∀ h', h' ≠ h → Lookup c' h' = Lookup c h') ∧
    header_view vector_data h c' nm fl (replicate (Z.to_nat n) 0)) c.
Proof.
  intros Hwf Hlen Hnm Hfl Hn Hvd. unfold Message_new, WhpInit, WhpInit_write. wp_step.
  eapply wp_mono; [apply wp_EnsureHeaderV3; [by apply wf_set_inited|done|auto]|].
  intros h c1 S1. wp_step.
  assert (∀ c2, message_step c1 h (mkMessageObj (header_bytes nm fl ++ replicate (Z.to_nat n) 0)
                  [] false 0 None None) c2 →
    Lookup c h = None ∧ (∀ h', h' ≠ h → Lookup c2 h' = Lookup c h') ∧
    header_view vector_data h c2 nm fl (replicate (Z.to_nat n) 0)) as Hend.
  { intros c2 S2. pose proof (message_made_step _ _ _ _ _ _ S1 S2) as [F W L R _ _].
    rewrite Lookup_set_inited in F.
    split_and!; [done|intros h' Hne; by rewrite R, Lookup_set_inited|].
    eapply header_view_of; try done; [|rewrite length_replicate; lia].
    by apply Forall_replicate. }
  destruct (Z.eqb_spec n 0) as [->|Hne].
  { wp_step. apply Hend. split; [apply S1| |done..]. rewrite app_nil_r. apply S1. }
  unfold AllocatePayload. wp_step. rewrite (u32_small n) by lia.
  eapply wp_mono; [apply (wp_append c1 _ _ n false (mm_wf _ _ _ _ S1) (mm_this _ _ _ _ S1));
    [by left|lia]|].
  intros [r o] c2 [Hr S2]. simpl in Hr. subst r. wp_step. unfold WHP_CHECK. simpl. wp_step.
  destruct (Hend c2 S2) as (E0 & E1 & Hview).
  eapply wp_of_eq; [apply (hv_payload _ _ _ _ _ _ Hview)|]. wp_step.
  eapply wp_of_eq; [apply (hv_payload_size _ _ _ _ _ _ Hview)|]. by wp_step.
Qed.

Lemma message_new_view_witness :
  wp (Message_new (λ _, 65536) 7 1 16) (λ h c',
    Lookup demo h = None ∧ (∀ h', h' ≠ h → Lookup c' h' = Lookup demo h') ∧
    header_view (λ _, 65536) h c' 7 1 (replicate (Z.to_nat 16) 0)) demo.
Proof.
  assert (Z.of_nat (length (slots demo)) < 2 ^ 32) as Hlen by (by vm_compute).
  assert (∀ l : list Z, 0 <= 65536 < 2 ^ 63 - 2 ^ 32) as Hvd by (intros; lia).
  exact (message_new_view (host := posix_host) (λ _, 65536) demo 7 1 16 demo_wf Hlen ltac:(lia) ltac:(lia)
    ltac:(lia) Hvd).
Defined.

(** C12: What the validator decides, for any bytes without interface ids or
    with an array of them whose elements fit in its stated size: it accepts
    exactly the messages with a header of the size of its version inside the
    message, consistent request flags, from version 2 on a payload pointer into
    the message (its end included), and an array inside the message of valid,
    non-primary ids.  It reads nothing outside the message. *)
Theorem validator_decides {host : Host} vector_data c h m :
  wf c → Lookup c h = Some (message_slot m) → Forall byte_ok (msg_bytes m) →
  Z.of_nat (length (msg_bytes m)) < 2 ^ 32 →
  (msg_bytes m ≠ [] → placed (vector_data (msg_bytes m)) (msg_bytes m)) →
  no_ids (msg_bytes m) ∨ ids_wf (msg_bytes m) →
  Accept vector_data (Some h) c =
  Some (header_ok (msg_bytes m) && ids_ok (msg_bytes m), c).
Proof.
  intros Hwf Hl Hb Hn Hp Hids. apply Accept_eq; try done. unfold data_addr.
  destruct (bool_decide_reflect (msg_bytes m = [])) as [->|Hne]; [done|auto].
Qed.

(** The demonstration core with other bytes in its message 3. *)
Definition message_core (d : list Z) : Core :=
  set_slots (λ l, <[3%nat := message_slot (mkMessageObj d [] false 0 None None)]> l) demo.

Lemma message_core_wf d : wf (message_core d).
Proof.
  apply (wf_store demo 3 (message_slot (mkMessageObj [0] [] false 0 None None)));
    [apply demo_wf|by vm_compute|done| |done]. done.
Qed.

(** A version-2 header with the offset of its interface ids, followed by an
    array header and [ids]. *)
Definition v2_message (payload_offset ids_offset bytes count : Z) (ids : list Z) : list Z :=
  le_bytes 4 48 ++ le_bytes 4 2 ++ le_bytes 4 0 ++ le_bytes 4 9 ++ le_bytes 4 0 ++
  le_bytes 4 0 ++ le_bytes 8 0 ++ le_bytes 8 payload_offset ++ le_bytes 8 ids_offset ++
  le_bytes 4 bytes ++ le_bytes 4 count ++ flat_map (le_bytes 4) ids.

Definition good_message : list Z := v2_message 24 8 16 2 [5; 6].

Lemma validator_decides_witness :
  Accept (λ _, 65536) (Some 3) (message_core good_message) =
  Some (true, message_core good_message).
Proof.
  apply (validator_decides (host := posix_host) (λ _, 65536) (message_core good_message) 3
    (mkMessageObj good_message [] false 0 None None) (message_core_wf _));
    [by vm_compute| |by vm_compute|by split|right; by vm_compute].
  repeat constructor; by vm_compute.
Defined.

(** ** What the validator misses *)

(** The number of interface ids is not compared with the size of their
    array: when the array lies inside the message but states more ids than the
    message holds, and those it holds are valid, the validator reads past the
    end of the message (undefined behaviour). *)
Theorem validator_reads_past_end vector_data c h m :
  let d := msg_bytes m in
  Lookup c h = Some (message_slot m) → h ≠ 0 → Forall byte_ok d →
  Z.of_nat (length d) < 2 ^ 32 → placed (vector_data d) d →
  header_ok d = true → 2 <= word32 d 4 → word64 d 40 ≠ 0 →
  8 <= word32 d (ids_pos d) → ids_pos d + word32 d (ids_pos d) <= Z.of_nat (length d) →
  Z.of_nat (length d) < ids_pos d + 8 + 4 * word32 d (ids_pos d + 4) →
  (∀ i : nat, ids_pos d + 8 + 4 * Z.of_nat i + 4 <= Z.of_nat (length d) →
     interface_id_ok (word32 d (ids_pos d + 8 + 4 * Z.of_nat i)) = true) →
  Accept vector_data (Some h) c = None.
Proof.
  intros d Hl Hh Hb Hn Hp H1 H2 H3 H4 H5 H6 H7. unfold Accept, WHP_MESSAGE_HANDLE_INVALID.
  rewrite (proj2 (Z.eqb_neq h 0)) by done. unfold bind. rewrite (GetBuffer_eq _ _ _ _ Hl).
  assert (data_addr vector_data d = vector_data d) as Ea.
  { unfold data_addr. rewrite bool_decide_false; [done|]. intros E. by rewrite E in H1. }
  fold d. rewrite Ea, u32_small by lia.
  pose proof (accept_buf_past_end _ _ Hp Hb H1 H2 H3 H4 H5 H6 H7) as E. unfold accept_buf in E.
  cbn [buf_addr]. destruct (ValidateStructHeaderAndClaimMemory _ _ _) as [[]|];
    cbn in E |- *; [by rewrite E|done|done].
Qed.

(** One id stated, none there. *)
Definition short_message : list Z := v2_message 24 8 8 1 [].

Lemma validator_reads_past_end_witness :
  Accept (λ _, 65536) (Some 3) (message_core short_message) = None.
Proof.
  apply (validator_reads_past_end (λ _, 65536) (message_core short_message) 3
    (mkMessageObj short_message [] false 0 None None)); try done; try by vm_compute.
  - repeat constructor; by vm_compute.
  - intros i Hi. exfalso. change (Z.of_nat (length _)) with 56 in Hi.
    change (ids_pos _) with 48 in Hi. lia.
Defined.

(** Nothing orders the payload and the interface ids: an accepted message
    whose ids lie before its payload has, by [payload_num_bytes], a payload of
    2^32 less the distance, far beyond the end of the message. *)
Theorem accepted_payload_overruns {host : Host} vector_data c h m :
  let d := msg_bytes m in
  wf c → Lookup c h = Some (message_slot m) → Forall byte_ok d →
  Z.of_nat (length d) < 2 ^ 31 → placed (vector_data d) d → 0 < vector_data d →
  header_ok d = true → ids_ok d = true → 2 <= word32 d 4 → word64 d 40 ≠ 0 → ids_wf d →
  ids_pos d < payload_pos d →
  Accept vector_data (Some h) c = Some (true, c) ∧
  payload_num_bytes vector_data h c = Some (2 ^ 32 - (payload_pos d - ids_pos d), c) ∧
  Z.of_nat (length d) < payload_pos d + (2 ^ 32 - (payload_pos d - ids_pos d)).
Proof.
  intros d Hwf Hl Hb Hn Hp Hpos H1 H2 Hv H40 Hids Hlt.
  assert (data_addr vector_data d = vector_data d) as Ea.
  { unfold data_addr. rewrite bool_decide_false; [done|]. intros E. by rewrite E in H1. }
  split.
  { rewrite (Accept_eq _ _ _ _ Hwf Hl Hb); [fold d; by rewrite H1, H2|fold d; lia| |by right].
    fold d. by rewrite Ea. }
  pose proof (header_ok_size (vector_data d) d Hp Hb H1 Hv) as H48.
  assert (word64 d 32 ≠ 0 ∧ payload_pos d <= Z.of_nat (length d)) as [H32 Hpp].
  { unfold header_ok in H1. rewrite (proj2 (Z.ltb_ge (word32 d 4) 2)) in H1 by lia. zbool.
    intuition lia. }
  pose proof Hp as [Ha Han]. destruct Hids as [Hids _].
  pose proof (u64_range (32 + word64 d 32)) as Hp0. fold (payload_pos d) in Hp0.
  pose proof (u64_range (40 + word64 d 40)) as Hq0. fold (ids_pos d) in Hq0.
  assert (DecodePointer (mkBuf (vector_data d) d) (vector_data d + 32) =
    Some (vector_data d + payload_pos d)) as Dp.
  { rewrite decode_at by (done || lia). f_equal. fold (payload_pos d). apply u64_small. lia. }
  assert (DecodePointer (mkBuf (vector_data d) d) (vector_data d + 40) =
    Some (vector_data d + ids_pos d)) as Di.
  { rewrite decode_at by (done || lia). f_equal. fold (ids_pos d). apply u64_small. lia. }
  rewrite <- Ea in Dp at 1 2. rewrite <- Ea in Di at 1 2. split; [|lia].
  unfold payload_num_bytes, version, data_num_bytes, data, bind, version_.
  rewrite (header_u32_eq _ _ _ _ 4 Hl) by (fold d; lia).
  rewrite (GetBuffer_eq _ _ _ _ Hl). fold d. cbn -[Z.add Z.pow].
  rewrite (proj2 (Z.ltb_ge (word32 d 4) 2)) by lia.
  rewrite (read_data_eq _ c h m _ _ Hl Dp), (read_data_eq _ c h m _ _ Hl Di).
  rewrite (GetBuffer_eq _ _ _ _ Hl). cbn -[Z.add Z.pow Z.sub].
  rewrite (proj2 (Z.eqb_neq (vector_data d + ids_pos d) 0)) by lia. unfold ret. do 2 f_equal.
  replace (vector_data d + ids_pos d - (vector_data d + payload_pos d))
    with (ids_pos d - payload_pos d) by lia.
  unfold u32, u64. rewrite <- (Z.mod_add (ids_pos d - payload_pos d) 1 (2 ^ 64)) by lia.
  rewrite (Z.mod_small (_ + _)) by lia.
  replace (ids_pos d - payload_pos d + 1 * 2 ^ 64) with
    (2 ^ 32 - (payload_pos d - ids_pos d) + (2 ^ 32 - 1) * 2 ^ 32) by lia.
  rewrite Z.mod_add, Z.mod_small by lia. lia.
Qed.

(** Ids at 48, payload at the end. *)
Definition crossed_message : list Z := v2_message 32 8 16 2 [5; 6].

Lemma accepted_payload_overruns_witness :
  Accept (λ _, 65536) (Some 3) (message_core crossed_message) =
    Some (true, message_core crossed_message) ∧
  payload_num_bytes (λ _, 65536) 3 (message_core crossed_message) =
    Some (4294967280, message_core crossed_message) ∧
  64 < 64 + 4294967280.
Proof.
  apply (accepted_payload_overruns (host := posix_host) (λ _, 65536)
    (message_core crossed_message) 3 (mkMessageObj crossed_message [] false 0 None None)
    (message_core_wf _)); try done; try by vm_compute.
  repeat constructor; by vm_compute.
Defined.
