(* ===== verification/Invitation.v ===== *)
(** * Cross-process invitations

    [WASMHolePunch/src/platform/invitation.cc] and its header: one message pipe
    bridged over a connected datagram path.  The state is the kernel, the
    [Invitation] object and the path.  Of the path (a UDP socket) the model
    keeps the datagrams that went out and what each following receive will
    find; [udp_send], the return value of [::send] given what was sent before,
    is a parameter.  Time-outs are receives that find nothing.

    The loops of [FlushPipeToNet] and [IngestNet] stop when a read or a receive
    finds nothing; their fuel is one more than the messages in the kernel's
    queues and than the receives foreseen, and running out of it is no result. *)
From S2P Require Import Prelude Core Traps Messages Api Codec Message.
From Stdlib Require Import Ascii.

Definition kRunMessageId : Z := 4294967295.
Definition kBindingsVersion : Z := 3.

Definition kMagic : list Z := bytes "WHP2".
(** [FrameType]. *)
Definition kInvite : Z := 1.
Definition kAccept : Z := 2.
Definition kMojo : Z := 3.
Definition kClose : Z := 4.

(** What one poll and receive find. *)
Inductive NetEvent :=
  | PollTimeout
  | PollError
  | RecvError (would_block : bool)
  | Datagram (bytes : list Z).

Record Net := mkNet { net_sent : list (list Z); net_inbox : list NetEvent }.

(** [path_.is_valid()] stands for the path; the rest are the members. *)
Record Invitation := mkInvitation {
  path_valid : bool;
  local_ : Z;
  net_ : Z;
  next_request_id_ : Z;
  offerer_ : bool;
  closed_ : bool
}.

Definition Invitation_init : Invitation := mkInvitation false 0 0 1 false false.

Record Session := mkSession { s_core : Core; inv : Invitation; net : Net }.

Definition set_s_core (c : Core) (s : Session) : Session := mkSession c (inv s) (net s).
Definition set_inv (f : Invitation → Invitation) (s : Session) : Session :=
  mkSession (s_core s) (f (inv s)) (net s).
Definition set_net (f : Net → Net) (s : Session) : Session :=
  mkSession (s_core s) (inv s) (f (net s)).

Definition with_pipes (l n : Z) (i : Invitation) : Invitation :=
  mkInvitation (path_valid i) l n (next_request_id_ i) (offerer_ i) (closed_ i).
Definition with_closed (b : bool) (i : Invitation) : Invitation :=
  mkInvitation (path_valid i) (local_ i) (net_ i) (next_request_id_ i) (offerer_ i) b.

Definition is_attached (i : Invitation) : bool := negb (local_ i =? 0) && path_valid i.

(** [WriteU16LE] and [ReadU16LE] of the byte pair. *)
Definition WriteU16LE (v : Z) : list Z := [u8 v; u8 (Z.shiftr v 8)].
Definition ReadU16LE (lo hi : Z) : Z := u16 (Z.lor lo (Z.shiftl hi 8)).

(** A call into the kernel. *)
Definition kern {A} (m : M Core A) : M Session A :=
  λ s, match m (s_core s) with
       | Some (a, c') => Some (a, set_s_core c' s)
       | None => None
       end.

Section invitation.
Context {host : Host} {client : Client}.
Context (vector_data : list Z → Z).
(** [::send]: the datagrams already sent and the new one. *)
Context (udp_send : list (list Z) → list Z → Z).

(** The datagram [SendFrame] builds from the [n] bytes at [payload]; a null
    [payload] leaves zeros. *)
Definition frame (type : Z) (payload : option (list Z)) (n : Z) : list Z :=
  kMagic ++ [type; 0] ++ WriteU16LE (u16 n) ++
  match payload with
  | Some p => take (Z.to_nat n) p
  | None => replicate (Z.to_nat n) 0
  end.

Definition SendFrame (type : Z) (payload : option (list Z)) (n : Z) : M Session Z :=
  let! s := get in
  if negb (path_valid (inv s)) || (65535 <? n) then ret WHP_RESULT_INVALID_ARGUMENT
  else
    let buf := frame type payload n in
    let r := udp_send (net_sent (net s)) buf in
    if negb (r =? Z.of_nat (length buf)) then ret WHP_RESULT_UNKNOWN
    else
      modify (set_net (λ nt, mkNet (net_sent nt ++ [buf]) (net_inbox nt))) ;;
      ret WHP_RESULT_OK.

(** The next event; nothing more to come is a time-out. *)
Definition next_event : M Session NetEvent :=
  let! s := get in
  match net_inbox (net s) with
  | [] => ret PollTimeout
  | e :: es => modify (set_net (λ nt, mkNet (net_sent nt) es)) ;; ret e
  end.

(** The datagram as [RecvFrame] takes it apart. *)
Definition parse_frame (buf : list Z) : Z * option (Z * list Z) :=
  let got := Z.of_nat (length buf) in
  if (got <? 8) || negb (bool_decide (take 4 buf = kMagic)) then (WHP_RESULT_SHOULD_WAIT, None)
  else
    let len := ReadU16LE (nth 6 buf 0) (nth 7 buf 0) in
    if got <? 8 + len then (WHP_RESULT_DATA_LOSS, None)
    else (WHP_RESULT_OK, Some (nth 4 buf 0, take (Z.to_nat len) (drop 8 buf))).

Definition RecvFrame : M Session (Z * option (Z * list Z)) :=
  let! s := get in
  if negb (path_valid (inv s)) then ret (WHP_RESULT_INVALID_ARGUMENT, None)
  else
    let! e := next_event in
    match e with
    | PollTimeout => ret (WHP_RESULT_SHOULD_WAIT, None)
    | PollError => ret (WHP_RESULT_UNKNOWN, None)
    | RecvError true => ret (WHP_RESULT_SHOULD_WAIT, None)
    | RecvError false => ret (WHP_RESULT_UNKNOWN, None)
    | Datagram buf => ret (parse_frame buf)
    end.

Definition Close : M Session unit :=
  let! s := get in
  let i := inv s in
  if closed_ i && (local_ i =? 0) && (net_ i =? 0) then ret tt
  else
    (if path_valid i && negb (closed_ i) then let! _ := SendFrame kClose None 0 in ret tt
     else ret tt) ;;
    modify (set_inv (with_closed true)) ;;
    (if local_ i =? 0 then ret tt
     else
       let! _ := kern (WhpClose (local_ i)) in
       modify (set_inv (λ i, with_pipes 0 (net_ i) i))) ;;
    (if net_ i =? 0 then ret tt
     else
       let! _ := kern (WhpClose (net_ i)) in
       modify (set_inv (λ i, with_pipes (local_ i) 0 i))).

(** [Invitation(Invitation&&)]: the new object and what is left of the other,
    whose path is moved from. *)
Definition Invitation_move (other : Invitation) : Invitation * Invitation :=
  (other, mkInvitation false 0 0 (next_request_id_ other) (offerer_ other) true).

(** [operator=]: [this] is the session's invitation. *)
Definition Invitation_assign (other : Invitation) (other_net : Net) : M Session Invitation :=
  Close ;;
  modify (set_inv (λ _, other)) ;;
  modify (set_net (λ _, other_net)) ;;
  ret (snd (Invitation_move other)).

(** The receive loops of [Handshake], at iteration [i] with [n] to go. *)
Fixpoint handshake_offerer (role i : Z) (n : nat) : M Session Z :=
  match n with
  | O => ret WHP_RESULT_DEADLINE_EXCEEDED
  | S n' =>
      (if (0 <? i) && (i mod 8 =? 0)
       then let! _ := SendFrame kInvite (Some [role]) 1 in ret tt else ret tt) ;;
      let! '(r, f) := RecvFrame in
      if r =? WHP_RESULT_SHOULD_WAIT then handshake_offerer role (i + 1) n'
      else
        match f with
        | None => ret r
        | Some (type, _) =>
            if type =? kAccept then ret WHP_RESULT_OK
            else if type =? kInvite then
              let! _ := SendFrame kAccept (Some [role]) 1 in ret WHP_RESULT_OK
            else handshake_offerer role (i + 1) n'
        end
  end.

Fixpoint handshake_answerer (role : Z) (n : nat) : M Session Z :=
  match n with
  | O => ret WHP_RESULT_DEADLINE_EXCEEDED
  | S n' =>
      let! '(r, f) := RecvFrame in
      if r =? WHP_RESULT_SHOULD_WAIT then handshake_answerer role n'
      else
        match f with
        | None => ret r
        | Some (type, _) =>
            if type =? kInvite then SendFrame kAccept (Some [role]) 1
            else handshake_answerer role n'
        end
  end.

Definition Handshake (is_offerer : bool) : M Session Z :=
  if is_offerer then
    let! r := SendFrame kInvite (Some [1]) 1 in
    if negb (r =? WHP_RESULT_OK) then ret WHP_RESULT_UNKNOWN
    else handshake_offerer 1 0 80
  else handshake_answerer 0 80.

(** [path] is a new path: whether it is valid, and what it will receive. *)
Definition Attach (path : bool) (events : list NetEvent) (is_offerer : bool) : M Session Z :=
  if negb path then ret WHP_RESULT_INVALID_ARGUMENT
  else
    Close ;;
    modify (set_inv (λ i, mkInvitation true (local_ i) (net_ i) (next_request_id_ i)
                            is_offerer false)) ;;
    modify (set_net (λ _, mkNet [] events)) ;;
    let! _ := kern WhpInit in
    let! '(r, hs) := kern (WhpCreateMessagePipe true true) in
    if negb (r =? WHP_RESULT_OK) then ret WHP_RESULT_INTERNAL
    else
      let '(l, n) := default (0, 0) hs in
      modify (set_inv (with_pipes l n)) ;;
      let! hs := Handshake is_offerer in
      if negb (hs =? WHP_RESULT_OK) then Close ;; ret hs
      else ret WHP_RESULT_OK.

(** One turn of [FlushPipeToNet] on a message that was read: 1 if it went
    out. *)
Definition flush_message (msg : Z) : M Session Z :=
  let! '(b, sz) := kern (GetBuffer vector_data msg) in
  let! n :=
    (if negb (buf_addr b =? 0) && negb (sz =? 0) then
       let! r := SendFrame kMojo (Some (buf_bytes b)) sz in
       ret (if r =? WHP_RESULT_OK then 1 else 0)
     else ret 0) in
  let! _ := kern (WhpDestroyMessage msg) in
  ret n.

Fixpoint flush_loop (fuel : nat) (pipe n : Z) : M Session Z :=
  match fuel with
  | O => ub
  | S fuel' =>
      let! '(r, msg) := kern (WhpReadMessage pipe true) in
      match msg with
      | None => ret n
      | Some msg =>
          let! k := flush_message msg in
          flush_loop fuel' pipe (n + k)
      end
  end.

(** All messages in the kernel's queues. *)
Definition queued (c : Core) : nat :=
  map_fold (λ _ st n, (length (at0 (queues st)) + length (at1 (queues st)) + n)%nat) 0%nat
    (pipe_states c).

Definition FlushPipeToNet : M Session Z :=
  let! s := get in
  if net_ (inv s) =? 0 then ret 0
  else flush_loop (S (queued (s_core s))) (net_ (inv s)) 0.

(** The fields of [AsV3], for a payload that is long enough. *)
Definition AsV3 (bytes : list Z) : option (Z * Z * Z) :=
  if Z.of_nat (length bytes) <? sizeof_MessageHeaderV3 then None
  else
    let b := mkBuf 0 bytes in
    nm ← load_u32 b name_; fl ← load_u32 b flags_; rid ← load_u64 b request_id_;
    Some (nm, fl, rid).

Definition SendRunResponse (request_id : Z) : M Session unit :=
  let! reply := kern (Message_new vector_data kRunMessageId kFlagIsResponse 12) in
  kern (set_interface_id vector_data reply kPrimaryInterfaceId) ;;
  kern (set_request_id vector_data reply request_id) ;;
  let! p := kern (payload vector_data reply) in
  (if p =? 0 then ret tt
   else kern (write_data vector_data reply (λ b,
     b ← store_u32 (p + num_bytes) 12 b;
     b ← store_u32 (p + version_) 0 b;
     store_u32 (p + 8) kBindingsVersion b))) ;;
  let! '(b, n) := kern (GetBuffer vector_data reply) in
  (if negb (buf_addr b =? 0) && negb (n =? 0)
   then let! _ := SendFrame kMojo (Some (buf_bytes b)) n in ret tt else ret tt) ;;
  let! _ := kern (Reset reply) in
  ret tt.

(** The test of [HandleControl] and of [swallow_run] alike: a run request. *)
Definition run_request (bytes : list Z) : option Z :=
  match AsV3 bytes with
  | Some (nm, fl, rid) =>
      if (nm =? kRunMessageId) && (Z.land fl kFlagIsResponse =? 0) then Some rid else None
  | None => None
  end.

Definition HandleControl (bytes : list Z) : M Session unit :=
  match run_request bytes with
  | Some rid => SendRunResponse rid
  | None => ret tt
  end.

(** A frame of type [kMojo] that is no run request goes into the pipe. *)
Definition ingest_message (pipe : Z) (payload : list Z) : M Session unit :=
  let! msg := kern (Message_from vector_data payload []) in
  let! '(raw, _) := kern (TakeMojoMessage msg) in
  let! r := kern (WhpWriteMessage pipe raw) in
  if negb (r =? WHP_RESULT_OK) then let! _ := kern (WhpDestroyMessage raw) in ret tt
  else ret tt.

Fixpoint ingest_loop (fuel : nat) (n : Z) : M Session Z :=
  match fuel with
  | O => ub
  | S fuel' =>
      let! '(r, f) := RecvFrame in
      match f with
      | None => ret n
      | Some (type, payload) =>
          let! s := get in
          let pipe := net_ (inv s) in
          if type =? kClose then
            (if pipe =? 0 then ret tt
             else
               let! _ := kern (WhpClose pipe) in
               modify (set_inv (λ i, with_pipes (local_ i) 0 i))) ;;
            ret (n + 1)
          else if negb (type =? kMojo) || bool_decide (payload = []) || (pipe =? 0)
          then ingest_loop fuel' (n + 1)
          else
            HandleControl payload ;;
            match run_request payload with
            | Some _ => ingest_loop fuel' (n + 1)
            | None => ingest_message pipe payload ;; ingest_loop fuel' (n + 1)
            end
      end
  end.

Definition IngestNet : M Session Z :=
  let! s := get in ingest_loop (S (length (net_inbox (net s)))) 0.

Definition Pump : M Session Z :=
  let! s := get in
  if negb (is_attached (inv s)) then ret 0
  else
    let! a := FlushPipeToNet in
    let! b := IngestNet in
    let! c := FlushPipeToNet in
    ret (a + b + c).

(** [payload] is null or leads to [n] bytes. *)
Definition Fire (ordinal : Z) (payload_bytes : option (list Z)) (n flags : Z) : M Session Z :=
  let! s := get in
  if negb (is_attached (inv s)) then ret WHP_RESULT_FAILED_PRECONDITION
  else
    let! msg := kern (Message_new vector_data ordinal flags n) in
    kern (set_interface_id vector_data msg kPrimaryInterfaceId) ;;
    kern (set_request_id vector_data msg (next_request_id_ (inv s))) ;;
    modify (set_inv (λ i, mkInvitation (path_valid i) (local_ i) (net_ i)
      (u64 (next_request_id_ i + 1)) (offerer_ i) (closed_ i))) ;;
    (match payload_bytes with
     | Some p =>
         if n =? 0 then ret tt
         else
           let! d := kern (payload vector_data msg) in
           if d =? 0 then ret tt
           else kern (write_data vector_data msg (store d (take (Z.to_nat n) p)))
     | None => ret tt
     end) ;;
    let! '(h, _) := kern (TakeMojoMessage msg) in
    let! r := kern (WhpWriteMessage (local_ (inv s)) h) in
    if negb (r =? WHP_RESULT_OK) then
      (if r =? WHP_RESULT_INVALID_ARGUMENT
       then let! _ := kern (WhpDestroyMessage h) in ret tt else ret tt) ;;
      ret r
    else let! _ := FlushPipeToNet in ret WHP_RESULT_OK.

(** [Recv]: [out] is null or the handle in the message it points to; the
    handle it holds afterwards. *)
Definition Recv (out : option Z) : M Session (Z * option Z) :=
  match out with
  | None => ret (WHP_RESULT_INVALID_ARGUMENT, None)
  | Some held =>
      let! _ := Pump in
      let! s := get in
      if local_ (inv s) =? 0 then ret (WHP_RESULT_FAILED_PRECONDITION, Some held)
      else
        let! '(r, h) := kern (WhpReadMessage (local_ (inv s)) true) in
        match h with
        | Some h =>
            let! '(m, _) := kern (CreateFromMessageHandle h) in
            let! '(m, _) := kern (Message_assign held m) in
            ret (WHP_RESULT_OK, Some m)
        | None => ret (r, Some held)
        end
  end.

(** [session] may be null. *)
Definition InviteOver (session path : bool) (events : list NetEvent) (is_offerer : bool)
    : M Session Z :=
  if negb session then ret WHP_RESULT_INVALID_ARGUMENT else Attach path events is_offerer.
End invitation.
