(* ===== verification/InvitationProps.v ===== *)
(** * Properties of cross-process invitations *)
From S2P Require Import Prelude Core Traps Messages DataPipes Buffers Api.
From S2P Require Import CoreInv TrapsInv KernelInv TransferInv PipeSpec KernelProps.
From S2P Require Import Codec Message MessageProps Invitation.

(** ** Frames *)

Lemma u16_roundtrip n : 0 <= n < 65536 → ReadU16LE (u8 n) (u8 (Z.shiftr n 8)) = n.
Proof.
  intros Hn. unfold ReadU16LE. rewrite (u8_small (Z.shiftr n 8)).
  2: { rewrite Z.shiftr_div_pow2 by lia. change (2 ^ 8) with 256.
       split; [apply Z.div_pos; lia|apply Z.div_lt_upper_bound; lia]. }
  assert (Z.lor (u8 n) (Z.shiftl (Z.shiftr n 8) 8) = n) as ->; [|by apply u16_small].
  apply Z.bits_inj'. intros i Hi. unfold u8. rewrite Z.lor_spec, Z.shiftl_spec by lia.
  destruct (decide (i < 8)).
  - rewrite Z.mod_pow2_bits_low, (Z.testbit_neg_r _ (i - 8)) by lia. apply orb_false_r.
  - rewrite Z.mod_pow2_bits_high, Z.shiftr_spec by lia. simpl. f_equal. lia.
Qed.

(** The frame of a whole payload. *)
Definition frame_of (type : Z) (p : list Z) : list Z :=
  frame type (Some p) (Z.of_nat (length p)).

Lemma frame_of_eq type p :
  Z.of_nat (length p) < 65536 →
  frame_of type p = kMagic ++ [type; 0] ++ WriteU16LE (Z.of_nat (length p)) ++ p.
Proof.
  intros H. unfold frame_of, frame. rewrite u16_small by lia.
  by rewrite Nat2Z.id, (take_ge p) by lia.
Qed.

Lemma length_frame_of type p :
  Z.of_nat (length p) < 65536 → Z.of_nat (length (frame_of type p)) = 8 + Z.of_nat (length p).
Proof.
  intros H. rewrite frame_of_eq by done. rewrite !length_app.
  change (length kMagic) with 4%nat. cbn [length WriteU16LE]. lia.
Qed.

Lemma parse_frame_of type p :
  Z.of_nat (length p) < 65536 →
  parse_frame (frame_of type p) = (WHP_RESULT_OK, Some (type, p)).
Proof.
  intros H. unfold parse_frame. rewrite length_frame_of by done.
  rewrite (proj2 (Z.ltb_ge _ 8)) by lia. rewrite frame_of_eq by done.
  rewrite bool_decide_true by done. cbn [negb orb].
  change (nth 6 (kMagic ++ [type; 0] ++ WriteU16LE (Z.of_nat (length p)) ++ p) 0)
    with (u8 (Z.of_nat (length p))).
  change (nth 7 (kMagic ++ [type; 0] ++ WriteU16LE (Z.of_nat (length p)) ++ p) 0)
    with (u8 (Z.shiftr (Z.of_nat (length p)) 8)).
  rewrite u16_roundtrip by lia. rewrite (proj2 (Z.ltb_ge _ _)) by lia.
  change (drop 8 (kMagic ++ [type; 0] ++ WriteU16LE (Z.of_nat (length p)) ++ p)) with p.
  by rewrite Nat2Z.id, take_ge by lia.
Qed.

(** ** Kernel calls *)

Lemma wp_kern {A} (m : M Core A) Q s :
  wp m (λ a c', Q a (set_s_core c' s)) (s_core s) → wp (kern m) Q s.
Proof. unfold wp, kern. by destruct (m (s_core s)) as [[a c']|]. Qed.

(** Handles that are no traps keep their objects. *)
Definition keeps (c c' : Core) : Prop :=
  ∀ h s, Lookup c h = Some s → kind s ≠ HandleKind_Trap → Lookup c' h = Some s.

Lemma keeps_trans c1 c2 c3 : keeps c1 c2 → keeps c2 c3 → keeps c1 c3.
Proof. intros H1 H2 h s Hl Hk. apply H2; [by apply H1|done]. Qed.

(** [h] is dead and every other handle is as before; no slot was added. *)
Record gone (h : Z) (c c' : Core) : Prop := {
  gone_dead : Lookup c' h = None;
  gone_rest h' : h' ≠ h → same_handle c c' h';
  gone_len : length (slots c') = length (slots c)
}.

(** A message that was made and is gone again leaves the rest alone. *)
Lemma keeps_gone c c1 c2 h :
  Lookup c h = None → (∀ h', h' ≠ h → Lookup c1 h' = Lookup c h') → gone h c1 c2 → keeps c c2.
Proof.
  intros Hf Hr [_ Hs _] h' s Hl Hk. assert (h' ≠ h) by congruence.
  eapply same_handle_keep; [by apply Hs| |done]. by rewrite Hr.
Qed.

Section bridge.
Context {host : Host} {client : Client}.
Context (vector_data : list Z → Z) (udp_send : list (list Z) → list Z → Z).
#[local] Set Default Proof Using "Type".

(** Destroying a message that has no destructor. *)
Lemma wp_destroy_message c h m :
  wf c → Lookup c h = Some (message_slot m) → destructor m = None →
  wp (WhpDestroyMessage h) (λ _ c', wf c' ∧ gone h c c' ∧ pipe_states c' = pipe_states c) c.
Proof.
  intros Hwf Hl Hd. unfold WhpDestroyMessage, WhpClose, WhpClose_locked. wp_step.
  rewrite Hl. wp_step. unfold close_kind. simpl. wp_step.
  eapply wp_mono; [by eapply wp_store_message|]. intros [] c1 [W1 L1 R1 P1 N1]. wp_step.
  rewrite Hd. simpl.
  pose proof (wp_Free_Collect c1 h _ W1 L1 eq_refl) as H. rewrite wp_bind in H.
  eapply wp_mono; [exact H|]. intros [] c2 H2. wp_step.
  eapply wp_mono; [exact H2|]. intros [] c3 (W3 & [K1 K2 K3 K4] & S3). wp_step.
  split; [done|]. split; [|by rewrite (ss_pipes _ _ S3)].
  split; [done| |by rewrite K4].
  intros h' Hne. eapply same_handle_trans; [|by apply K2]. by apply same_handle_eq, R1.
Qed.

(** Writing a committed message without serializer is its locked section. *)
Lemma wp_write_committed c p h m Q :
  Lookup c h = Some (message_slot m) → committed m = true → serializer m = None →
  wp (WhpWriteMessage_locked p h) Q c → wp (WhpWriteMessage p h) Q c.
Proof.
  intros Hl Hc Hs H. unfold WhpWriteMessage, WhpSerializeMessage, WhpSerializeMessage_begin,
    with_message. wp_step. rewrite Hl. simpl. wp_step. rewrite Hc, Hs. simpl. by wp_step.
Qed.

(** The path takes every datagram. *)
Definition reliable : Prop := ∀ sent d, udp_send sent d = Z.of_nat (length d).

Lemma wp_SendFrame type p s (Q : Z → Session → Prop) :
  reliable → path_valid (inv s) = true → Z.of_nat (length p) < 65536 →
  Q WHP_RESULT_OK (set_net (λ nt, mkNet (net_sent nt ++ [frame_of type p]) (net_inbox nt)) s) →
  wp (SendFrame udp_send type (Some p) (Z.of_nat (length p))) Q s.
Proof.
  intros Hrel Hp Hn HQ. unfold SendFrame. wp_step. rewrite Hp. simpl.
  rewrite (proj2 (Z.ltb_ge 65535 _)) by lia. wp_step.
  rewrite Hrel, Z.eqb_refl. wp_step. exact HQ.
Qed.

(** ** From the pipe to the path *)

(** A message the bridge can carry: not empty, small enough for the receive
    buffer, no destructor of its own and no run request. *)
Definition carried (m : MessageObj) : Prop :=
  (0 < length (msg_bytes m))%nat ∧ Z.of_nat (length (msg_bytes m)) <= 65528 ∧
  destructor m = None ∧ run_request (msg_bytes m) = None.

(** What flushing does to a session: the frames go out, the pipe end is
    drained. *)
Record flushed (s : Session) (e : PipeEnd) (st : PipeState) (ms rest : list MessageObj)
    (s' : Session) : Prop := {
  fl_wf : wf (s_core s');
  fl_sent : net_sent (net s') = net_sent (net s) ++ map (λ m, frame_of kMojo (msg_bytes m)) ms;
  fl_inbox : net_inbox (net s') = net_inbox (net s);
  fl_inv : inv s' = inv s;
  fl_keeps : keeps (s_core s) (s_core s');
  fl_pipes : pipe_states (s_core s') =
    <[pe_state e := set_queue (pe_end e) rest st]> (pipe_states (s_core s));
  fl_len : (length (slots (s_core s')) <= length ms + length (slots (s_core s)))%nat
}.

Lemma set_queue_twice i q q' st : set_queue i q (set_queue i q' st) = set_queue i q st.
Proof. destruct st as [[] ? ? ?]. by destruct i. Qed.

Lemma sel_set_queue i q st : sel (queues (set_queue i q st)) i = q.
Proof. apply sel_upd_eq. Qed.

Lemma set_queue_same i q st : sel (queues st) i = q → set_queue i q st = st.
Proof. intros <-. destruct st as [[] ? ? ?]. by destruct i. Qed.

(** One message that was read. *)
Lemma wp_flush_message s h m :
  reliable → (∀ l, 0 < vector_data l) → wf (s_core s) → path_valid (inv s) = true →
  Lookup (s_core s) h = Some (message_slot m) → carried m →
  wp (flush_message vector_data udp_send h) (λ k s', k = 1 ∧
    net_sent (net s') = net_sent (net s) ++ [frame_of kMojo (msg_bytes m)] ∧
    net_inbox (net s') = net_inbox (net s) ∧ inv s' = inv s ∧
    wf (s_core s') ∧ gone h (s_core s) (s_core s') ∧
    pipe_states (s_core s') = pipe_states (s_core s)) s.
Proof.
  intros Hrel Hvd Hwf Hp Hl (H0 & Hn & Hd & _). unfold flush_message. wp_step.
  apply wp_kern. apply (wp_GetBuffer vector_data _ _ m); [done|lia|]. wp_step. cbn [buf_addr].
  assert (data_addr vector_data (msg_bytes m) = vector_data (msg_bytes m)) as Ea.
  { unfold data_addr. rewrite bool_decide_false; [done|]. intros E. rewrite E in H0. simpl in H0. lia. }
  rewrite Ea. specialize (Hvd (msg_bytes m)).
  rewrite (proj2 (Z.eqb_neq (vector_data _) 0)), (proj2 (Z.eqb_neq (Z.of_nat _) 0)) by lia.
  cbn [negb andb buf_bytes]. wp_step. apply wp_SendFrame; [done|done|lia|].
  rewrite Z.eqb_refl. wp_step. apply wp_kern. cbn [set_net s_core set_s_core].
  eapply wp_mono; [by eapply wp_destroy_message|]. intros r c' (W & G & P). wp_step.
  by split_and!.
Qed.

Lemma wp_flush_loop ms fuel n s e st p :
  reliable → (∀ l, 0 < vector_data l) → wf (s_core s) → path_valid (inv s) = true →
  Z.of_nat (length (slots (s_core s)) + length ms) < 2 ^ 32 →
  Lookup (s_core s) p = Some (pipe_slot e) →
  pipe_states (s_core s) !! pe_state e = Some st →
  sel (queues st) (pe_end e) = ms → Forall carried ms → (length ms < fuel)%nat →
  wp (flush_loop vector_data udp_send fuel p n)
     (λ k s', k = n + Z.of_nat (length ms) ∧ flushed s e st ms [] s') s.
Proof.
  intros Hrel Hvd. revert ms n s st. induction fuel as [|fuel IH];
    intros ms n s st Hwf Hp Hlen Hl Hst Hq Hms Hf; [lia|].
  cbn [flush_loop]. wp_step. apply wp_kern.
  eapply wp_mono; [by eapply wp_read|]. intros [r o] c1 [W1 Hr]. wp_step. unfold read_post in Hr.
  rewrite Hq in Hr. destruct ms as [|m ms].
  { destruct Hr as [-> [= _ ->]]. wp_step. split; [simpl; lia|].
    split; try done; [by rewrite app_nil_r|by intros ? ? ? ?|].
    cbn. by rewrite (set_queue_same _ _ _ Hq), insert_id. }
  destruct Hr as (i & h & [= _ ->] & Hh & Hfresh & Hm & Hrest & Hps & Hle).
  simpl in Hlen, Hf. apply Forall_cons_1 in Hms as [Hcm Hms].
  assert (h = Z.of_nat i) as -> by (destruct Hh as [->|[-> ->]]; [done|apply u32_small; lia]).
  wp_step. eapply wp_mono; [by apply (wp_flush_message (set_s_core c1 s) _ m)|].
  intros k s2 (-> & S2 & I2 & V2 & W2 & G2 & P2). wp_step. cbn [s_core set_s_core net inv] in *.
  pose proof (keeps_gone _ _ _ _ Hfresh Hrest G2) as K2.
  eapply wp_mono; [eapply (IH ms (n + 1) s2 (set_queue (pe_end e) ms st))|].
  - done.
  - by rewrite V2.
  - rewrite (gone_len _ _ _ G2). lia.
  - by apply K2.
  - by rewrite P2, Hps, lookup_insert_eq.
  - apply sel_set_queue.
  - done.
  - lia.
  - intros k s3 [-> [F1 F2 F3 F4 F5 F6 F7]]. split; [simpl; lia|]. split.
    + done.
    + rewrite F2, S2. by rewrite <- app_assoc.
    + by rewrite F3, I2.
    + by rewrite F4, V2.
    + by eapply keeps_trans.
    + rewrite F6, P2, Hps, insert_insert_eq. by rewrite set_queue_twice.
    + rewrite (gone_len _ _ _ G2) in F7. simpl. lia.
Qed.

(** The fuel covers the queue. *)
Lemma queued_enough c id st i :
  pipe_states c !! id = Some st → (length (sel (queues st) i) <= queued c)%nat.
Proof.
  intros H. unfold queued. rewrite <- (insert_id _ _ _ H), <- insert_delete_eq.
  rewrite map_fold_insert_L; [|intros; lia|by rewrite lookup_delete_eq].
  destruct i; simpl; lia.
Qed.

Lemma wp_FlushPipeToNet s e st :
  reliable → (∀ l, 0 < vector_data l) → wf (s_core s) → path_valid (inv s) = true →
  Lookup (s_core s) (net_ (inv s)) = Some (pipe_slot e) →
  pipe_states (s_core s) !! pe_state e = Some st →
  Z.of_nat (length (slots (s_core s)) + length (sel (queues st) (pe_end e))) < 2 ^ 32 →
  Forall carried (sel (queues st) (pe_end e)) →
  wp (FlushPipeToNet vector_data udp_send)
     (λ k s', k = Z.of_nat (length (sel (queues st) (pe_end e))) ∧
       flushed s e st (sel (queues st) (pe_end e)) [] s') s.
Proof.
  intros Hrel Hvd Hwf Hp Hl Hst Hlen Hms. unfold FlushPipeToNet. wp_step.
  pose proof Hl as (Hr & _)%Lookup_inv; [|apply Hwf].
  rewrite (proj2 (Z.eqb_neq _ 0)) by lia.
  eapply wp_mono; [eapply wp_flush_loop; try done|].
  - pose proof (queued_enough _ _ _ (pe_end e) Hst). lia.
  - intros k s' [-> H]. by split.
Qed.

(** ** From the path to the pipe *)

(** What arrives in the pipe for the bytes [b]. *)
Definition plain (b : list Z) : MessageObj := mkMessageObj b [] true 0 None None.

Lemma wp_Message_from c b :
  wf c → Z.of_nat (length (slots c)) < 2 ^ 32 → Z.of_nat (length b) < 2 ^ 32 →
  wp (Message_from vector_data b []) (λ h c', message_made c h (plain b) c') c.
Proof.
  intros Hwf Hlen Hb. unfold Message_from, WhpInit, WhpInit_write. wp_step.
  eapply wp_mono; [apply wp_create_message; [by apply wf_set_inited|done]|].
  intros r c1 (h & -> & [F1 W1 L1 R1 P1 N1]). rewrite Lookup_set_inited in F1.
  assert (message_made c h MessageObj_init c1) as S1.
  { split; [done..| |exact P1|exact N1]. intros h' Hne. by rewrite R1, Lookup_set_inited. }
  wp_step. cbn [default]. unfold WHP_CHECK at 1. simpl. wp_step. rewrite u32_small by lia.
  eapply wp_mono; [apply (wp_append c1 h MessageObj_init _ true W1 L1); [by left|lia]|].
  intros [r o] c2 [Hr S2]. simpl in Hr. subst r. wp_step. unfold WHP_CHECK. simpl. wp_step.
  rewrite Nat2Z.id in S2. cbn [msg_bytes MessageObj_init app orb] in S2.
  pose proof (message_made_step _ _ _ _ _ _ S1 S2) as S3.
  case_bool_decide as E; wp_step; [by subst b|].
  eapply wp_mono; [eapply wp_write_bytes; [apply S2|apply S2|]|].
  - cbn [msg_bytes buf_addr]. rewrite <- (Z.add_0_r (data_addr vector_data _)) at 1.
    apply store_at; [done|]. rewrite length_replicate. lia.
  - intros [] c3 S4. wp_step. eapply message_made_step; [exact S3|].
    replace (plain b) with (with_bytes (buf_bytes (mkBuf (data_addr vector_data
      (replicate (length b) 0)) (splice (Z.to_nat 0) b (replicate (length b) 0))))
      (mkMessageObj (replicate (length b) 0) [] true 0 None None)); [exact S4|].
    unfold with_bytes, plain, splice. cbn. f_equal.
    by rewrite drop_ge, app_nil_r by (rewrite length_replicate; lia).
Qed.

(** The bytes waiting in a queue, and room for those of [bs]. *)
Definition queue_total (q : list MessageObj) : nat := sum_list_with (λ m, length (msg_bytes m)) q.

Definition room (st : PipeState) (i : bool) (bs : list (list Z)) : Prop :=
  Z.of_nat (length (sel (queues st) i) + length bs) <= sel (quota_count st) i ∧
  Z.of_nat (queue_total (sel (queues st) i) + sum_list_with length bs) <= sel (quota_bytes st) i ∧
  sel (quota_bytes st) i < 2 ^ 64.

Lemma QueueBytes_total q :
  Z.of_nat (queue_total q) < 2 ^ 64 → QueueBytes q = Z.of_nat (queue_total q).
Proof.
  unfold QueueBytes. intros H.
  assert (∀ n, 0 <= n → n + Z.of_nat (queue_total q) < 2 ^ 64 →
    fold_left (λ n m, u64 (n + Z.of_nat (length (msg_bytes m)))) q n = n + Z.of_nat (queue_total q))
    as G; [|by rewrite G].
  clear H. induction q as [|m q IH]; intros n Hn H; [simpl; lia|].
  unfold queue_total in *. simpl in *. rewrite u64_small by lia. rewrite IH by lia. lia.
Qed.

Lemma room_cons st i b bs m :
  room st i (b :: bs) → msg_bytes m = b →
  over_quota st i m = false ∧
  ∀ m', msg_bytes m' = b → room (set_queue i (sel (queues st) i ++ [m']) st) i bs.
Proof.
  intros (H1 & H2 & H3) Hm. simpl in H1, H2. split.
  - unfold over_quota. rewrite QueueBytes_total, Hm by lia. rewrite u64_small by lia.
    apply orb_false_iff. split; [apply Z.leb_gt|apply Z.ltb_ge]; lia.
  - intros m' Hm'. unfold room. rewrite sel_set_queue. unfold queue_total in *.
    rewrite length_app, sum_list_with_app. cbn [sum_list_with length]. rewrite Hm'.
    change (quota_count (set_queue _ _ _)) with (quota_count st).
    change (quota_bytes (set_queue _ _ _)) with (quota_bytes st). lia.
Qed.
(** The peer's queue took what [bs] holds. *)
Definition arrived (st : PipeState) (i : bool) (bs : list (list Z)) : PipeState :=
  set_queue i (sel (queues st) i ++ map plain bs) st.

Lemma arrived_cons st i b bs m :
  m = plain b →
  arrived (set_queue i (sel (queues st) i ++ [m]) st) i bs = arrived st i (b :: bs).
Proof.
  intros ->. unfold arrived. rewrite set_queue_twice, sel_set_queue, <- app_assoc. done.
Qed.

Lemma wp_ingest_message s p e st b bs :
  wf (s_core s) → Z.of_nat (length (slots (s_core s))) < 2 ^ 32 → Z.of_nat (length b) < 2 ^ 32 →
  Lookup (s_core s) p = Some (pipe_slot e) → pipe_states (s_core s) !! pe_state e = Some st →
  sel (closed st) (negb (pe_end e)) = false → room st (negb (pe_end e)) (b :: bs) →
  wp (ingest_message vector_data p b) (λ _ s', ∃ c', s' = set_s_core c' s ∧ wf c' ∧
    keeps (s_core s) c' ∧ (length (slots c') <= S (length (slots (s_core s))))%nat ∧
    pipe_states c' = <[pe_state e := arrived st (negb (pe_end e)) [b]]>
      (pipe_states (s_core s))) s.
Proof.
  intros Hwf Hlen Hb Hp Hst Hc Hroom. unfold ingest_message. wp_step. apply wp_kern.
  eapply wp_mono; [by apply wp_Message_from|]. intros h c1 S1. wp_step. apply wp_kern.
  cbn [s_core set_s_core]. unfold TakeMojoMessage. wp_step.
  eapply wp_mono; [apply (wp_append c1 h (plain b) 0 true (mm_wf _ _ _ _ S1)
    (mm_this _ _ _ _ S1)); [by right|done]|].
  intros r c2 [_ S2]. wp_step. change (Z.to_nat 0) with 0%nat in S2.
  cbn [replicate plain orb msg_bytes msg_handles msg_context serializer destructor] in S2.
  rewrite app_nil_r in S2. fold (plain b) in S2.
  destruct (message_made_step _ _ _ _ _ _ S1 S2) as [F2 W2 L2 R2 P2 N2].
  apply wp_kern. cbn [s_core set_s_core]. eapply wp_write_committed; [exact L2|done..|].
  assert (Lookup c2 p = Some (pipe_slot e)) as Hp2 by (rewrite R2; [done|congruence]).
  destruct (room_cons _ _ _ _ (plain b) Hroom eq_refl) as [Ho _].
  eapply wp_mono; [apply (wp_write c2 p h e st (plain b)); [done|done|by rewrite P2|done]|].
  intros r' c3 [W3 H3]. unfold write_post in H3. rewrite Hc, Ho in H3.
  destruct H3 as (-> & [D3 R3 _ N3] & P3). wp_step. exists c3.
  split_and!; [done|done| |lia|by rewrite P3, P2].
  intros h' x Hl Hk. assert (h' ≠ h) by congruence.
  eapply same_handle_keep; [by apply R3| |done]. by rewrite R2.
Qed.

(** A payload that crosses the path. *)
Definition deliverable (b : list Z) : Prop :=
  (0 < length b)%nat ∧ Z.of_nat (length b) <= 65528 ∧ run_request b = None.

Record ingested (s : Session) (e : PipeEnd) (st : PipeState) (bs : list (list Z))
    (s' : Session) : Prop := {
  in_wf : wf (s_core s');
  in_sent : net_sent (net s') = net_sent (net s);
  in_inbox : net_inbox (net s') = [];
  in_inv : inv s' = inv s;
  in_keeps : keeps (s_core s) (s_core s');
  in_pipes : pipe_states (s_core s') =
    <[pe_state e := arrived st (negb (pe_end e)) bs]> (pipe_states (s_core s))
}.

Lemma wp_ingest_loop bs fuel n s e st :
  wf (s_core s) → path_valid (inv s) = true → net_ (inv s) ≠ 0 →
  net_inbox (net s) = map (λ b, Datagram (frame_of kMojo b)) bs → Forall deliverable bs →
  Z.of_nat (length (slots (s_core s)) + length bs) < 2 ^ 32 →
  Lookup (s_core s) (net_ (inv s)) = Some (pipe_slot e) →
  pipe_states (s_core s) !! pe_state e = Some st →
  sel (closed st) (negb (pe_end e)) = false → room st (negb (pe_end e)) bs →
  (length bs < fuel)%nat →
  wp (ingest_loop vector_data udp_send fuel n)
     (λ k s', k = n + Z.of_nat (length bs) ∧ ingested s e st bs s') s.
Proof.
  revert bs n s st. induction fuel as [|fuel IH];
    intros bs n s st Hwf Hp Hn Hin Hbs Hlen Hl Hst Hc Hroom Hf; [lia|].
  cbn [ingest_loop]. unfold RecvFrame, next_event. wp_step. rewrite Hp. simpl. wp_step.
  rewrite Hin. destruct bs as [|b bs]; cbn [map].
  { wp_step. split; [simpl; lia|]. split; try done; [by intros ? ? ? ?|].
    unfold arrived. cbn [map]. by rewrite app_nil_r, (set_queue_same _ _ _ eq_refl), insert_id. }
  apply Forall_cons_1 in Hbs as [(Hb0 & Hb & Hrun) Hbs]. simpl in Hlen, Hf.
  wp_step. rewrite parse_frame_of by lia. wp_step. cbn [inv set_net].
  change (kMojo =? kClose) with false. change (negb (kMojo =? kMojo)) with false. cbn [orb].
  rewrite (bool_decide_false (b = [])) by (intros ->; simpl in Hb0; lia).
  rewrite (proj2 (Z.eqb_neq _ 0) Hn). cbn [orb]. unfold HandleControl. rewrite Hrun. wp_step.
  eapply wp_mono; [eapply wp_ingest_message; cbn [s_core set_net];
    [done|lia|lia|exact Hl|exact Hst|exact Hc|exact Hroom]|].
  intros [] s1 (c1 & -> & W1 & K1 & N1 & P1). cbn [s_core set_net] in *. wp_step.
  destruct (room_cons _ _ _ _ (plain b) Hroom eq_refl) as [_ Hroom'].
  eapply wp_mono; [eapply (IH bs (n + 1) _ (arrived st (negb (pe_end e)) [b]))|].
  - done.
  - done.
  - done.
  - done.
  - done.
  - cbn. lia.
  - by apply K1.
  - cbn. by rewrite P1, lookup_insert_eq.
  - done.
  - by apply Hroom'.
  - lia.
  - intros k s2 (-> & [I1 I2 I3 I4 I5 I6]). split; [simpl; lia|]. split; try done.
    + by eapply keeps_trans.
    + rewrite I6. cbn [s_core set_s_core]. rewrite P1, insert_insert_eq.
      f_equal. by apply (arrived_cons st _ b bs).
Qed.

(** An attached session: its path is valid and [net_] is the end [e] of a pipe
    in the state [st]. *)
Record bridging (s : Session) (e : PipeEnd) (st : PipeState) : Prop := {
  br_wf : wf (s_core s);
  br_path : path_valid (inv s) = true;
  br_net : Lookup (s_core s) (net_ (inv s)) = Some (pipe_slot e);
  br_pipe : pipe_states (s_core s) !! pe_state e = Some st
}.

Lemma wp_IngestNet s e st bs :
  bridging s e st → net_inbox (net s) = map (λ b, Datagram (frame_of kMojo b)) bs →
  Forall deliverable bs → Z.of_nat (length (slots (s_core s)) + length bs) < 2 ^ 32 →
  sel (closed st) (negb (pe_end e)) = false → room st (negb (pe_end e)) bs →
  wp (IngestNet vector_data udp_send)
     (λ k s', k = Z.of_nat (length bs) ∧ ingested s e st bs s') s.
Proof.
  intros [Hwf Hp Hl Hst] Hin Hbs Hlen Hc Hroom. unfold IngestNet. wp_step.
  pose proof Hl as (Hr & _)%Lookup_inv; [|apply Hwf].
  eapply wp_mono; [eapply wp_ingest_loop; try done; [lia|]|].
  - rewrite Hin, length_map. lia.
  - intros k s' [-> H]. by split.
Qed.
End bridge.

(** C13: A bridged pipe delivers, in order and complete, what was queued at its
    far side, when nothing on the way refuses it.  Flushing an attached session over
    a path that takes every datagram drains its pipe end; a session that then receives
    exactly the datagrams sent finds the bytes of the same messages, in the same order
    and behind what was there, in the queue of its local end (attached handles do not
    cross).  Both report the number of messages, and no live handle but the traps'
    changes on either side.  The conditions: every message queued has 1 to 65528
    bytes, no destructor and is not one of the supervisor's run requests; the far pipe end is open and its queue has
    room for the messages and their bytes; and neither core runs out of handles. *)
Theorem bridge_relays {host : Host} {client : Client} vector_data udp_send sa ea sta sb eb stb :
  let ms := sel (queues sta) (pe_end ea) in
  let peer := negb (pe_end eb) in
  reliable udp_send → (∀ l, 0 < vector_data l) →
  bridging sa ea sta → bridging sb eb stb → Forall carried ms →
  Z.of_nat (length (slots (s_core sa)) + length ms) < 2 ^ 32 →
  Z.of_nat (length (slots (s_core sb)) + length ms) < 2 ^ 32 →
  sel (closed stb) peer = false → room stb peer (map msg_bytes ms) →
  wp (FlushPipeToNet vector_data udp_send) (λ k sa',
    k = Z.of_nat (length ms) ∧ inv sa' = inv sa ∧ keeps (s_core sa) (s_core sa') ∧
    bridging sa' ea (set_queue (pe_end ea) [] sta) ∧
    let wire := drop (length (net_sent (net sa))) (net_sent (net sa')) in
    wp (IngestNet vector_data udp_send) (λ k' sb',
      k' = k ∧ inv sb' = inv sb ∧ keeps (s_core sb) (s_core sb') ∧
      bridging sb' eb (set_queue peer
        (sel (queues stb) peer ++ map (λ m, plain (msg_bytes m)) ms) stb))
      (set_net (λ nt, mkNet (net_sent nt) (map Datagram wire)) sb)) sa.
Proof.
  intros ms peer Hrel Hvd [Wa Pa La Sa] Hb Hms Hla Hlb Hc Hroom.
  eapply wp_mono; [by apply (wp_FlushPipeToNet _ _ sa ea sta)|].
  intros k sa' [-> [F1 F2 F3 F4 F5 F6 F7]]. fold ms in F2, F6. split_and!; [done..| |].
  - split; [done|by rewrite F4|rewrite F4; by apply F5|by rewrite F6, lookup_insert_eq].
  - cbn zeta. rewrite F2, drop_app_length.
    eapply wp_mono; [apply (wp_IngestNet _ _ _ eb stb (map msg_bytes ms))|].
    + destruct Hb as [? ? ? ?]. by split.
    + cbn. by rewrite !map_map.
    + apply Forall_map. eapply Forall_impl; [exact Hms|]. by intros m (? & ? & _ & ?).
    + by rewrite length_map.
    + done.
    + done.
    + intros k' sb' [-> [I1 I2 I3 I4 I5 I6]]. destruct Hb as [Wb Pb Lb Sb].
      split_and!; [by rewrite length_map|done|done|].
      split; [done|by rewrite I4|rewrite I4; by apply I5|].
      rewrite I6, lookup_insert_eq. unfold arrived. by rewrite map_map.
Qed.

(** The demonstration core with two messages in its pipe, and sessions on it
    and on the core without them. *)
Definition bridge_pipe : PipeState := set_queue true [plain [0]; plain [0; 0]] PipeState_init.
Definition bridge_core : Core := set_pipes <[0%nat := bridge_pipe]> demo.

Lemma bridge_core_wf : wf bridge_core.
Proof. apply (wf_put_pipe demo 0 PipeState_init); [exact demo_wf|by vm_compute|done]. Qed.

Definition bridge_inv : Invitation := mkInvitation true 1 2 1 true false.
Definition bridge_a : Session := mkSession bridge_core bridge_inv (mkNet [] []).
Definition bridge_b : Session := mkSession demo bridge_inv (mkNet [] []).

#[local] Existing Instance posix_host.
#[local] Instance idle_client : Client :=
  {| call_serializer _ _ _ c := c; call_destructor _ _ c := c; call_trap_handler _ _ c := c |}.

Lemma bridge_relays_witness :
  wp (FlushPipeToNet (λ _, 65536) (λ _ d, Z.of_nat (length d))) (λ k sa',
    k = 2 ∧ inv sa' = inv bridge_a ∧ keeps (s_core bridge_a) (s_core sa') ∧
    bridging sa' (mkPipeEnd 0 true) (set_queue true [] bridge_pipe) ∧
    wp (IngestNet (λ _, 65536) (λ _ d, Z.of_nat (length d))) (λ k' sb',
      k' = k ∧ inv sb' = inv bridge_b ∧ keeps (s_core bridge_b) (s_core sb') ∧
      bridging sb' (mkPipeEnd 0 true)
        (set_queue false [plain [0]; plain [0; 0]] PipeState_init))
      (set_net (λ nt, mkNet (net_sent nt) (map Datagram
        (drop (length (net_sent (net bridge_a))) (net_sent (net sa'))))) bridge_b))
    bridge_a.
Proof.
  assert (bridging bridge_a (mkPipeEnd 0 true) bridge_pipe) as Ha.
  { split; [exact bridge_core_wf|by vm_compute..]. }
  assert (bridging bridge_b (mkPipeEnd 0 true) PipeState_init) as Hb.
  { split; [exact demo_wf|by vm_compute..]. }
  assert (Forall carried (sel (queues bridge_pipe) (pe_end (mkPipeEnd 0 true)))) as Hms.
  { repeat constructor; by vm_compute. }
  assert (Z.of_nat (length (slots (s_core bridge_a)) +
    length (sel (queues bridge_pipe) (pe_end (mkPipeEnd 0 true)))) < 2 ^ 32) as Hla by (by vm_compute).
  assert (Z.of_nat (length (slots (s_core bridge_b)) +
    length (sel (queues bridge_pipe) (pe_end (mkPipeEnd 0 true)))) < 2 ^ 32) as Hlb by (by vm_compute).
  assert (room PipeState_init (negb (pe_end (mkPipeEnd 0 true)))
    (map msg_bytes (sel (queues bridge_pipe) (pe_end (mkPipeEnd 0 true))))) as Hroom.
  { split_and!; by vm_compute. }
  assert (reliable (λ _ d, Z.of_nat (length d))) as Hrel by done.
  assert (∀ l : list Z, 0 < 65536) as Hvd by done.
  exact (bridge_relays (host := posix_host) _ _ bridge_a (mkPipeEnd 0 true) bridge_pipe
    bridge_b (mkPipeEnd 0 true) PipeState_init Hrel Hvd Ha Hb Hms Hla Hlb eq_refl Hroom).
Defined.
