(* ===== verification/Scan.v ===== *)
(** * Parse errors and the two scans before parsing

    The first part of [src/src/parser.cc]: what a parse can throw, number
    literals, and the scans over the whole token vector that its constructor
    makes, [CollectDeclaredNames] and [CollectEnumValues].  A position in the
    token vector is the suffix that starts there. *)
From S2P Require Import Prelude Lexer Ast.
From Stdlib Require Import Ascii SpecFloat.

(** What parsing can end with instead of a result: [ParseError], with the
    message as the code builds it before the line is appended; an exception of
    the standard conversions; undefined behaviour; and lack of fuel in this
    model, which [parse_total] excludes. *)
Inductive ParseException :=
  | ParseError (msg : list Z) (line : Z)
  | StdOutOfRange
  | StdInvalidArgument
  | SignedOverflow
  | BadAccess
  | NoFuel.

Definition Parsed (A : Type) : Type := ParseException + A.

(** ** Numbers *)

Definition i64 (z : Z) : Z :=
  let v := u64 z in if v <? 2 ^ 63 then v else v - 2 ^ 64.

(** The value of a number token with its base detected as by [std::stoll] with
    base 0.  The text is one or more digits, or [0x] and hex digits. *)
Definition auto_value (digits : list Z) : option Z :=
  match digits with
  | [] => None
  | c0 :: x :: hs =>
      if (c0 =? ch "0") && ((x =? ch "x") || (x =? ch "X")) then Some (number_value 16 hs)
      else if c0 =? ch "0" then Some (number_value 8 (x :: hs))
      else Some (number_value 10 digits)
  | _ => Some (number_value 10 digits)
  end.

(** [std::sto*] of a token text: its value, if it is at most [max]. *)
Definition checked (max : Z) (v : option Z) : Parsed Z :=
  match v with
  | None => inl StdInvalidArgument
  | Some v => if max <? v then inl StdOutOfRange else inr v
  end.

Definition stoll (digits : list Z) : Parsed Z := checked (2 ^ 63 - 1) (auto_value digits).
Definition stoull (digits : list Z) : Parsed Z := checked (2 ^ 64 - 1) (auto_value digits).

Definition decimal_value (digits : list Z) : option Z :=
  if bool_decide (digits = []) then None else Some (number_value 10 digits).

Definition ParseIntLiteral (negative : bool) (digits : list Z) : Parsed Z :=
  if negative then
    match stoll digits with inr v => inr (- v) | inl e => inl e end
  else
    match stoull digits with inr v => inr (i64 v) | inl e => inl e end.

(** The type kinds of a keyword. *)
Definition kScalarKeywords (t : list Z) : option TypeKind :=
  if bool_decide (t = bytes "bool") then Some kBool
  else if bool_decide (t = bytes "int8") then Some kInt8
  else if bool_decide (t = bytes "uint8") then Some kUint8
  else if bool_decide (t = bytes "int16") then Some kInt16
  else if bool_decide (t = bytes "uint16") then Some kUint16
  else if bool_decide (t = bytes "int32") then Some kInt32
  else if bool_decide (t = bytes "uint32") then Some kUint32
  else if bool_decide (t = bytes "int64") then Some kInt64
  else if bool_decide (t = bytes "uint64") then Some kUint64
  else if bool_decide (t = bytes "float") then Some kFloat
  else if bool_decide (t = bytes "double") then Some kDouble
  else None.

Definition kPendingKeywords (t : list Z) : option TypeKind :=
  if bool_decide (t = bytes "pending_remote") then Some kPendingRemote
  else if bool_decide (t = bytes "pending_receiver") then Some kPendingReceiver
  else if bool_decide (t = bytes "pending_associated_remote") then Some kPendingAssociatedRemote
  else if bool_decide (t = bytes "pending_associated_receiver") then Some kPendingAssociatedReceiver
  else None.

Definition IsLegalConstType (k : TypeKind) : bool :=
  match k with
  | kBool | kInt8 | kUint8 | kInt16 | kUint16 | kInt32 | kUint32 | kInt64 | kUint64
  | kFloat | kDouble | kString | kEnumRef => true
  | _ => false
  end.

(** ** [CollectDeclaredNames] *)

Record DeclaredNames := mkDeclaredNames {
  d_structs : gset (list Z);
  d_unions : gset (list Z);
  d_enums : gset (list Z);
  enum_container : gmap (list Z) (list Z);
  container_enums : gmap (list Z) (gset (list Z));
  struct_container : gmap (list Z) (list Z);
  container_structs : gmap (list Z) (gset (list Z));
  union_container : gmap (list Z) (list Z);
  container_unions : gmap (list Z) (gset (list Z))
}.

Definition DeclaredNames_init : DeclaredNames := mkDeclaredNames ∅ ∅ ∅ ∅ ∅ ∅ ∅ ∅ ∅.

(** [m[owner].insert(name)]. *)
Definition insert_member (owner name : list Z) (m : gmap (list Z) (gset (list Z)))
    : gmap (list Z) (gset (list Z)) :=
  <[owner := {[name]} ∪ default ∅ (m !! owner)]> m.

Definition member_of (owner name : list Z) (m : gmap (list Z) (gset (list Z)))
    : gmap (list Z) (gset (list Z)) :=
  if bool_decide (owner = []) then m else insert_member owner name m.

Inductive DeclKind := DK_struct | DK_union | DK_enum | DK_interface.

Definition decl_kind (t : list Z) : option DeclKind :=
  if bool_decide (t = bytes "struct") then Some DK_struct
  else if bool_decide (t = bytes "union") then Some DK_union
  else if bool_decide (t = bytes "enum") then Some DK_enum
  else if bool_decide (t = bytes "interface") then Some DK_interface
  else None.

Definition declare (k : DeclKind) (name owner : list Z) (d : DeclaredNames) : DeclaredNames :=
  let '(mkDeclaredNames ss us es ec ce sc cs uc cu) := d in
  match k with
  | DK_struct =>
      mkDeclaredNames ({[name]} ∪ ss) us es ec ce (<[name := owner]> sc)
        (member_of owner name cs) uc cu
  | DK_union =>
      mkDeclaredNames ss ({[name]} ∪ us) es ec ce sc cs (<[name := owner]> uc)
        (member_of owner name cu)
  | DK_enum =>
      mkDeclaredNames ss us ({[name]} ∪ es) (<[name := owner]> ec) (member_of owner name ce)
        sc cs uc cu
  | DK_interface => d
  end.

(** The loop; [pending] is [pending_kind] and [pending_name], nothing when they
    are empty, and the last container is the head of [container_stack]. *)
Fixpoint collect_names (ts : list Token) (pending : option (DeclKind * list Z))
    (container_stack : list (list Z)) (names : DeclaredNames) : DeclaredNames :=
  match ts with
  | [] => names
  | tok :: rest =>
      let decl :=
        match rest with
        | next :: _ =>
            if bool_decide (tok_type tok = kName) && bool_decide (tok_type next = kName)
            then match decl_kind (text tok) with Some k => Some (k, text next) | None => None end
            else None
        | [] => None
        end in
      match decl with
      | Some (k, name) =>
          let owner := match container_stack with o :: _ => o | [] => [] end in
          collect_names rest (Some (k, name)) container_stack (declare k name owner names)
      | None =>
          if bool_decide (tok_type tok = kLBrace) then
            collect_names rest None
              (match pending with
               | Some (DK_struct, name) | Some (DK_interface, name) => name
               | _ => []
               end :: container_stack) names
          else if bool_decide (tok_type tok = kRBrace) then
            collect_names rest pending (tail container_stack) names
          else collect_names rest pending container_stack names
      end
  end.

Definition CollectDeclaredNames (tokens : list Token) : DeclaredNames :=
  collect_names tokens None [] DeclaredNames_init.

(** ** [CollectEnumValues] *)

Definition EnumValue_init (name : list Z) (value : Z) : EnumValue :=
  mkEnumValue name value 0 false EnableIf_init.

Fixpoint find_value (name : list Z) (vs : list EnumValue) : option EnumValue :=
  match vs with
  | v :: vs' => if bool_decide (v_name v = name) then Some v else find_value name vs'
  | [] => None
  end.

(** [value + 1] in an [int32_t]. *)
Definition succ32 (value : Z) : Parsed Z :=
  if value =? 2 ^ 31 - 1 then inl SignedOverflow else inr (value + 1).

Fixpoint skip_to_bracket (ts : list Token) : list Token :=
  match ts with
  | t :: r => if bool_decide (tok_type t = kRBracket) then r else skip_to_bracket r
  | [] => []
  end.

(** The value after an enumerator's name and what follows it. *)
Definition scan_value (ts : list Token) (next_value : Z) (so_far : list EnumValue)
    : Parsed (Z * list Token) :=
  match ts with
  | e :: r1 =>
      if bool_decide (tok_type e = kEquals) then
        let '(negative, r2) :=
          match r1 with
          | m :: r2 => if bool_decide (tok_type m = kMinus) then (true, r2) else (false, r1)
          | [] => (false, r1)
          end in
        match r2 with
        | n :: r3 =>
            if bool_decide (tok_type n = kNumber) || bool_decide (tok_type n = kHexNumber) then
              match ParseIntLiteral negative (text n) with
              | inr v => inr (i32 v, r3)
              | inl x => inl x
              end
            else if bool_decide (tok_type n = kName) then
              inr (match find_value (text n) so_far with Some v => v_value v | None => 0 end, r3)
            else inr (0, r2)
        | [] => inr (0, [])
        end
      else inr (next_value, ts)
  | [] => inr (next_value, ts)
  end.

Fixpoint scan_values (fuel : nat) (ts : list Token) (next_value : Z) (values : list EnumValue)
    : Parsed (list EnumValue * list Token) :=
  match fuel with
  | O => inl NoFuel
  | S fuel' =>
      match ts with
      | [] => inr (values, [])
      | t :: r =>
          if bool_decide (tok_type t = kLBracket)
          then scan_values fuel' (skip_to_bracket ts) next_value values
          else if negb (bool_decide (tok_type t = kName)) then inr (values, ts)
          else
            match scan_value r next_value values with
            | inl x => inl x
            | inr (v, r2) =>
                match succ32 v with
                | inl x => inl x
                | inr next_value =>
                    let values := values ++ [EnumValue_init (text t) v] in
                    match r2 with
                    | c :: r3 =>
                        if bool_decide (tok_type c = kComma)
                        then scan_values fuel' r3 next_value values
                        else inr (values, r2)
                    | [] => inr (values, [])
                    end
                end
            end
      end
  end.

(** The scan of one enum whose name is followed by [ts]. *)
Definition scan_enum (ts : list Token) : Parsed (list EnumValue * list Token) :=
  match ts with
  | b :: r =>
      if bool_decide (tok_type b = kLBrace) then scan_values (S (length r)) r 0 []
      else inr ([], ts)
  | [] => inr ([], ts)
  end.

Fixpoint collect_enums (fuel : nat) (ts : list Token) (result : gmap (list Z) EnumDecl)
    : Parsed (gmap (list Z) EnumDecl) :=
  match fuel with
  | O => inl NoFuel
  | S fuel' =>
      match ts with
      | t :: ((n :: r) as rest) =>
          if negb (bool_decide (tok_type t = kName)) || negb (bool_decide (text t = bytes "enum"))
             || negb (bool_decide (tok_type n = kName))
          then collect_enums fuel' rest result
          else
            match scan_enum r with
            | inl x => inl x
            | inr (values, r') =>
                collect_enums fuel' r'
                  (<[text n := mkEnumDecl (text n) values false false EnableIf_init]> result)
            end
      | _ => inr result
      end
  end.

Definition CollectEnumValues (tokens : list Token) : Parsed (gmap (list Z) EnumDecl) :=
  collect_enums (S (length tokens)) tokens ∅.
