(* ===== verification/Embed.v ===== *)
(** * Cycles of complete types

    [CheckCompleteTypeAcyclic] of [src/src/parser.cc]: Kahn's algorithm on the
    graph of structs and unions that hold each other by value.  The message
    names the first key that [std::unordered_map] happens to list with
    predecessors left; the model's error carries one such key, the smallest. *)
From S2P Require Import Prelude Lexer Ast Scan.
From Stdlib Require Import Ascii.

(** ** [std::set<std::string>] *)

(** The order of strings: that of their bytes. *)
Fixpoint str_cmp (a b : list Z) : comparison :=
  match a, b with
  | [], [] => Eq
  | [], _ => Lt
  | _, [] => Gt
  | x :: a', y :: b' => match x ?= y with Eq => str_cmp a' b' | c => c end
  end.

(** The set as a sorted list without duplicates; [begin()] is its head. *)
Fixpoint set_insert (x : list Z) (s : list (list Z)) : list (list Z) :=
  match s with
  | [] => [x]
  | y :: s' =>
      match str_cmp x y with
      | Lt => x :: s
      | Eq => s
      | Gt => y :: set_insert x s'
      end
  end.

(** ** The graph *)

(** Every struct and union with the types of its fields. *)
Definition struct_node (s : StructDecl) : list Z * list TypeSpec :=
  (EmbedDeclKey (s_owner_container s) (s_name s), map f_type (s_fields s)).
Definition union_node (u : UnionDecl) : list Z * list TypeSpec :=
  (EmbedDeclKey (u_owner_container u) (u_name u), map uf_type (u_fields u)).

Definition module_nodes (m : Module_) : list (list Z * list TypeSpec) :=
  map struct_node (mod_structs m) ++ map union_node (mod_unions m) ++
  flat_map (λ i, map struct_node (i_structs i) ++ map union_node (i_unions i)) (mod_interfaces m).

(** [outgoing] and [indeg]. *)
Record Graph := mkGraph {
  outgoing : gmap (list Z) (list (list Z));
  indeg : gmap (list Z) Z
}.

Definition add_edge (d owner : list Z) (g : Graph) : Graph :=
  mkGraph (<[d := default [] (outgoing g !! d) ++ [owner]]> (outgoing g))
    (<[owner := default 0 (indeg g !! owner) + 1]> (indeg g)).

(** [add_owner]: one edge per distinct local dependency of a field. *)
Fixpoint add_deps (local : gset (list Z)) (owner : list Z) (deps : list (list Z))
    (seen : gset (list Z)) (g : Graph) : Graph :=
  match deps with
  | [] => g
  | d :: deps' =>
      if bool_decide (d ∈ local) && negb (bool_decide (d ∈ seen))
      then add_deps local owner deps' ({[d]} ∪ seen) (add_edge d owner g)
      else add_deps local owner deps' seen g
  end.

Definition add_owner (local : gset (list Z)) (owner : list Z) (g : Graph) (t : TypeSpec)
    : Parsed Graph :=
  match AppendCompleteTypeDeps t with
  | Some deps => inr (add_deps local owner deps ∅ g)
  | None => inl BadAccess
  end.

Fixpoint add_fields (local : gset (list Z)) (owner : list Z) (ts : list TypeSpec) (g : Graph)
    : Parsed Graph :=
  match ts with
  | [] => inr g
  | t :: ts' =>
      match add_owner local owner g t with
      | inr g' => add_fields local owner ts' g'
      | inl e => inl e
      end
  end.

Fixpoint add_nodes (local : gset (list Z)) (nodes : list (list Z * list TypeSpec)) (g : Graph)
    : Parsed Graph :=
  match nodes with
  | [] => inr g
  | (owner, ts) :: nodes' =>
      match add_fields local owner ts g with
      | inr g' => add_nodes local nodes' g'
      | inl e => inl e
      end
  end.

(** ** The sort *)

(** [if (--indeg[nxt] == 0) ready.insert(nxt)] for the successors. *)
Fixpoint release (succs : list (list Z)) (indeg : gmap (list Z) Z) (ready : list (list Z))
    : gmap (list Z) Z * list (list Z) :=
  match succs with
  | [] => (indeg, ready)
  | n :: succs' =>
      let d := default 0 (indeg !! n) - 1 in
      release succs' (<[n := d]> indeg) (if d =? 0 then set_insert n ready else ready)
  end.

(** The loop: the keys taken, in order, and the degrees left. *)
Fixpoint kahn (fuel : nat) (outgoing : gmap (list Z) (list (list Z))) (indeg : gmap (list Z) Z)
    (ready taken : list (list Z)) : Parsed (list (list Z) * gmap (list Z) Z) :=
  match ready with
  | [] => inr (taken, indeg)
  | n :: ready' =>
      match fuel with
      | O => inl NoFuel
      | S fuel' =>
          let '(indeg', ready'') := release (default [] (outgoing !! n)) indeg ready' in
          kahn fuel' outgoing indeg' ready'' (taken ++ [n])
      end
  end.

Definition set_of (l : list (list Z)) : list (list Z) := foldr set_insert [] l.

(** The keys with that property, sorted. *)
Definition keys_with (p : Z → bool) (indeg : gmap (list Z) Z) : list (list Z) :=
  set_of (map fst (List.filter (λ kv, p (snd kv)) (map_to_list indeg))).

Definition CheckCompleteTypeAcyclic (m : Module_) (line : Z) : Parsed unit :=
  let nodes := module_nodes m in
  let local : gset (list Z) := list_to_set (map fst nodes) in
  match add_nodes local nodes (mkGraph ∅ (gset_to_gmap 0 local)) with
  | inl e => inl e
  | inr g =>
      match kahn (S (size local)) (outgoing g) (indeg g) (keys_with (Z.eqb 0) (indeg g)) [] with
      | inl e => inl e
      | inr (taken, indeg') =>
          if bool_decide (length taken = size local) then inr tt
          else
            inl (ParseError (bytes "'" ++ List.hd [] (keys_with (Z.ltb 0) indeg') ++
              bytes "' embeds another struct/union by value in a cycle (direct member, optional, or array<T, N>) -- array<T> and map<K, T> may reference T while T is still incomplete (generated as WASMSafeSpace CageVector/CageMap)") line)
      end
  end.
