(* ===== verification/Parser.v ===== *)
(** * The .voodoom parser: state, primitives, literals, attributes and types

    [Parser::Impl] of [src/src/parser.cc].  The cursor is the suffix [rest] of
    the token vector; the members the parse reads are in [Env].  [embed_order_],
    which is written and never read, is left out, and so is the overflow of the
    [int] counters.  [leftover_attrs_] is [None] when [leftover_attrs_set_] is
    false.  Then the functions that read the environment without changing it: number
    literals, attribute lists, name resolution and type specifications. *)
From S2P Require Import Prelude Lexer Ast Scan.
From Stdlib Require Import Ascii SpecFloat.

(** The value of an attribute, by [ParsedAttribute::ValueKind]. *)
Inductive AttrValue :=
  | AV_None
  | AV_Int (v : Z)
  | AV_Float (v : spec_float)
  | AV_Bool (b : bool)
  | AV_String (s : list Z)
  | AV_Identifier (s : list Z)
  | AV_PipeList (l : list (list Z))
  | AV_AmpList (l : list (list Z)).

Record ParsedAttribute := mkParsedAttribute {
  a_name : list Z;
  a_value : AttrValue;
  a_line : Z
}.

Definition a_has_value (a : ParsedAttribute) : bool :=
  match a_value a with AV_None => false | _ => true end.

Record Env := mkEnv {
  module_name_ : list Z;
  declared_ : DeclaredNames;
  enum_values_ : gmap (list Z) EnumDecl;
  local_names_ : gset (list Z);
  local_enum_values_ : gmap (list Z) EnumDecl;
  const_by_name_ : gmap (list Z) ConstDecl;
  next_const_order_ : Z;
  next_embed_order_ : Z;
  pending_result_unions_ : list UnionDecl;
  owner_by_name_ : gmap (list Z) (list Z);
  container_by_name_ : gmap (list Z) (list Z);
  container_enums_ : gmap (list Z) (gset (list Z));
  const_container_ : gmap (list Z) (list Z);
  leftover_attrs_ : option (list ParsedAttribute)
}.

Record Parser := mkParser { rest : list Token; env : Env }.

Definition set_module_name (F : list Z → list Z) (x : Env) : Env :=
  let '(mkEnv a b c d e f g h i j k l m n) := x in mkEnv (F a) b c d e f g h i j k l m n.
Definition set_declared (F : DeclaredNames → DeclaredNames) (x : Env) : Env :=
  let '(mkEnv a b c d e f g h i j k l m n) := x in mkEnv a (F b) c d e f g h i j k l m n.
Definition set_enum_values (F : gmap (list Z) EnumDecl → gmap (list Z) EnumDecl) (x : Env) : Env :=
  let '(mkEnv a b c d e f g h i j k l m n) := x in mkEnv a b (F c) d e f g h i j k l m n.
Definition set_local_names (F : gset (list Z) → gset (list Z)) (x : Env) : Env :=
  let '(mkEnv a b c d e f g h i j k l m n) := x in mkEnv a b c (F d) e f g h i j k l m n.
Definition set_local_enum_values (F : gmap (list Z) EnumDecl → gmap (list Z) EnumDecl) (x : Env) : Env :=
  let '(mkEnv a b c d e f g h i j k l m n) := x in mkEnv a b c d (F e) f g h i j k l m n.
Definition set_const_by_name (F : gmap (list Z) ConstDecl → gmap (list Z) ConstDecl) (x : Env) : Env :=
  let '(mkEnv a b c d e f g h i j k l m n) := x in mkEnv a b c d e (F f) g h i j k l m n.
Definition set_next_const_order (F : Z → Z) (x : Env) : Env :=
  let '(mkEnv a b c d e f g h i j k l m n) := x in mkEnv a b c d e f (F g) h i j k l m n.
Definition set_next_embed_order (F : Z → Z) (x : Env) : Env :=
  let '(mkEnv a b c d e f g h i j k l m n) := x in mkEnv a b c d e f g (F h) i j k l m n.
Definition set_pending_result_unions (F : list UnionDecl → list UnionDecl) (x : Env) : Env :=
  let '(mkEnv a b c d e f g h i j k l m n) := x in mkEnv a b c d e f g h (F i) j k l m n.
Definition set_owner_by_name (F : gmap (list Z) (list Z) → gmap (list Z) (list Z)) (x : Env) : Env :=
  let '(mkEnv a b c d e f g h i j k l m n) := x in mkEnv a b c d e f g h i (F j) k l m n.
Definition set_container_by_name (F : gmap (list Z) (list Z) → gmap (list Z) (list Z)) (x : Env) : Env :=
  let '(mkEnv a b c d e f g h i j k l m n) := x in mkEnv a b c d e f g h i j (F k) l m n.
Definition set_container_enums (F : gmap (list Z) (gset (list Z)) → gmap (list Z) (gset (list Z))) (x : Env) : Env :=
  let '(mkEnv a b c d e f g h i j k l m n) := x in mkEnv a b c d e f g h i j k (F l) m n.
Definition set_const_container (F : gmap (list Z) (list Z) → gmap (list Z) (list Z)) (x : Env) : Env :=
  let '(mkEnv a b c d e f g h i j k l m n) := x in mkEnv a b c d e f g h i j k l (F m) n.
Definition set_leftover_attrs (F : option (list ParsedAttribute) → option (list ParsedAttribute)) (x : Env) : Env :=
  let '(mkEnv a b c d e f g h i j k l m n) := x in mkEnv a b c d e f g h i j k l m (F n).

(** ** The monad

    A computation on the parser that may throw. *)
Definition P (A : Type) : Type := Parser → Parsed (A * Parser).

Definition pret {A} (a : A) : P A := λ p, inr (a, p).
Definition pbind {A B} (m : P A) (k : A → P B) : P B :=
  λ p, match m p with inr (a, p') => k a p' | inl e => inl e end.
Definition throw {A} (e : ParseException) : P A := λ _, inl e.
Definition lift {A} (m : Parsed A) : P A :=
  λ p, match m with inr a => inr (a, p) | inl e => inl e end.
Definition asks {A} (f : Env → A) : P A := λ p, inr (f (env p), p).
Definition update (f : Env → Env) : P unit := λ p, inr (tt, mkParser (rest p) (f (env p))).

Declare Scope parser_scope.
Delimit Scope parser_scope with parser.
Notation "'let!' x := m 'in' k" := (pbind m (λ x, k))
  (at level 10, x binder, m at level 100, k at level 200,
   format "'[v' 'let!'  x  :=  m  'in' '/' k ']'") : parser_scope.
Notation "'let!' ' p := m 'in' k" := (pbind m (λ x, match x with p => k end))
  (at level 10, p pattern, m at level 100, k at level 200) : parser_scope.
Notation "m ;; k" := (pbind m (λ _, k))
  (at level 100, k at level 200, right associativity) : parser_scope.
#[global] Open Scope parser_scope.

(** A loop: [body] goes on with [inl] and ends with [inr].  Every turn of the
    code's loops takes a token, so the tokens left bound the turns. *)
Fixpoint loop {A B} (fuel : nat) (body : A → P (A + B)) (a : A) : P B :=
  match fuel with
  | O => throw NoFuel
  | S fuel' =>
      let! r := body a in
      match r with inl a' => loop fuel' body a' | inr b => pret b end
  end.
Definition while_ {A B} (body : A → P (A + B)) (a : A) : P B :=
  λ p, loop (S (length (rest p))) body a p.

(** A loop over a container whose body may throw. *)
Fixpoint for_each {A B} (f : B → A → Parsed B) (b : B) (l : list A) : Parsed B :=
  match l with
  | [] => inr b
  | a :: l' => match f b a with inr b' => for_each f b' l' | inl e => inl e end
  end.

(** ** Tokens *)

Definition Cur : P Token :=
  λ p, match rest p with t :: _ => inr (t, p) | [] => inl BadAccess end.
Definition Advance : P unit :=
  λ p, match rest p with
       | _ :: (_ :: _) as r => inr (tt, mkParser r (env p))
       | _ => inr (tt, p)
       end.
Definition At (ty : TokenType) : P bool :=
  let! t := Cur in pret (bool_decide (tok_type t = ty)).
Definition AtKeyword (kw : list Z) : P bool :=
  let! t := Cur in pret (bool_decide (tok_type t = kName) && bool_decide (text t = kw)).

(** [Cur().text.empty() ? "<eof>" : Cur().text] in the messages. *)
Definition shown (t : Token) : list Z :=
  if bool_decide (text t = []) then bytes "<eof>" else text t.

Definition fail_here {A} (msg : list Z) : P A :=
  let! t := Cur in throw (ParseError msg (tok_line t)).

Definition Expect (ty : TokenType) (what : list Z) : P Token :=
  let! t := Cur in
  if bool_decide (tok_type t = ty) then Advance ;; pret t
  else throw (ParseError (bytes "expected " ++ what ++ bytes ", got '" ++ shown t ++ bytes "'")
                (tok_line t)).
Definition ExpectKeyword (kw : list Z) : P Token :=
  let! t := Cur in
  let! ok := AtKeyword kw in
  if ok then Advance ;; pret t
  else throw (ParseError (bytes "expected '" ++ kw ++ bytes "', got '" ++ shown t ++ bytes "'")
                (tok_line t)).

(** The type of the token [n] places ahead; past the end, [kEnd]. *)
Definition peek (n : nat) : P TokenType :=
  λ p, inr (match rest p !! n with Some t => tok_type t | None => kEnd end, p).

(** [while (At(kDot)) { Advance(); acc = f(acc, Expect(kName, what)); }]. *)
Definition dotted {A} (sep : TokenType) (what : list Z) (f : A → Token → A) (acc : A) : P A :=
  while_ (λ acc,
    let! more := At sep in
    if more then Advance ;; let! t := Expect kName what in pret (inl (f acc t))
    else pret (inr acc)) acc.

(** ** Floating-point literals *)

Definition double_of_Z (v : Z) : spec_float := binary_normalize 53 1024 v 0 false.

(** [m * 10^x] for a positive [m], correctly rounded. *)
Definition decimal_float (m x : Z) : spec_float :=
  let den := if x <? 0 then Z.to_pos (10 ^ (- x)) else 1%positive in
  let num := if x <? 0 then Z.to_pos m else Z.to_pos (m * 10 ^ x) in
  SFdiv 53 1024 (S754_finite false num 0) (S754_finite false den 0).

(** The exponent after [e] or [E]. *)
Definition exponent_value (l : list Z) : Z :=
  match l with
  | s :: ds =>
      if s =? ch "-" then - number_value 10 ds
      else if s =? ch "+" then number_value 10 ds else number_value 10 l
  | [] => 0
  end.

Definition below_normal (f : spec_float) : bool :=
  match f with
  | S754_zero _ => true
  | S754_finite _ m _ => Pos.ltb (digits2_pos m) 53
  | _ => false
  end.

Section parser.
(** [LONG_MAX] of the host, and whether its [strtod] reports a range error for
    results below the normal range. *)
Context (LONG_MAX : Z) (underflow_erange : bool).

(** [std::stod] of a float token: digits, a fraction, an exponent. *)
Definition stod (t : list Z) : Parsed spec_float :=
  let '(ds, l1) := span isdigit t in
  let '(fs, l2) :=
    match l1 with
    | d :: l1' => if d =? ch "." then span isdigit l1' else ([], l1)
    | [] => ([], [])
    end in
  let expo := match l2 with _ :: l3 => exponent_value l3 | [] => 0 end in
  let m := number_value 10 (ds ++ fs) in
  if bool_decide (ds ++ fs = []) then inl StdInvalidArgument
  else if m =? 0 then inr (S754_zero false)
  else
    match decimal_float m (expo - Z.of_nat (length fs)) with
    | S754_infinity _ => inl StdOutOfRange
    | f => if underflow_erange && below_normal f then inl StdOutOfRange else inr f
    end.

(** ** Numbers *)

Definition stoul (digits : list Z) : Parsed Z :=
  checked (2 * LONG_MAX + 1) (decimal_value digits).
Definition stoi (digits : list Z) : Parsed Z := checked (2 ^ 31 - 1) (decimal_value digits).

Definition ParseSignedNumber : P (bool * list Z) :=
  let! negative := At kMinus in
  (if negative then Advance else pret tt) ;;
  let! hex := At kHexNumber in
  if hex then let! num := Cur in Advance ;; pret (negative, text num)
  else let! num := Expect kNumber (bytes "number") in pret (negative, text num).

Definition ParseFloatValue : P spec_float :=
  let! negative := At kMinus in
  (if negative then Advance else pret tt) ;;
  let! t := Cur in
  let! v :=
    (match tok_type t with
     | kFloatNumber => let! v := lift (stod (text t)) in Advance ;; pret v
     | kHexNumber | kNumber =>
         let! v := lift (stoll (text t)) in Advance ;; pret (double_of_Z v)
     | _ => throw (ParseError (bytes "expected a float/double literal") (tok_line t))
     end) in
  pret (if negative then SFopp v else v).

(** ** Attributes *)

(** The segments of a dotted name after its first. *)
Definition join_dot (acc : list Z) (t : Token) : list Z := acc ++ bytes "." ++ text t.

(** The value after [=]. *)
Definition ParseAttributeValue : P AttrValue :=
  let! t := Cur in
  let! is_true := AtKeyword (bytes "true") in
  let! is_false := AtKeyword (bytes "false") in
  if bool_decide (tok_type t = kStringLiteral) then Advance ;; pret (AV_String (text t))
  else if is_true || is_false then Advance ;; pret (AV_Bool is_true)
  else if bool_decide (tok_type t = kName) then
    Advance ;;
    let! first := dotted kDot (bytes "name after '.'") join_dot (text t) in
    let! pipe := At kPipe in
    let! amp := At kAmpersand in
    if pipe then
      let! l := dotted kPipe (bytes "name after '|'") (λ l t, l ++ [text t]) [first] in
      pret (AV_PipeList l)
    else if amp then
      let! l := dotted kAmpersand (bytes "name after '&'") (λ l t, l ++ [text t]) [first] in
      pret (AV_AmpList l)
    else pret (AV_Identifier first)
  else
    let! ty := peek (if bool_decide (tok_type t = kMinus) then 1 else 0) in
    if bool_decide (ty = kFloatNumber) then
      let! v := ParseFloatValue in pret (AV_Float v)
    else
      let! '(neg, digits) := ParseSignedNumber in
      let! v := lift (ParseIntLiteral neg digits) in pret (AV_Int v).

Definition ParseAttributeList : P (list ParsedAttribute) :=
  let! _ := Expect kLBracket (bytes "'['") in
  let! attrs := while_ (λ attrs,
    let! name_tok := Expect kName (bytes "attribute name") in
    let! eq := At kEquals in
    let! value := (if eq then Advance ;; ParseAttributeValue else pret AV_None) in
    let attrs := attrs ++ [mkParsedAttribute (text name_tok) value (tok_line name_tok)] in
    let! comma := At kComma in
    if comma then Advance ;; pret (inl attrs) else pret (inr attrs)) [] in
  let! _ := Expect kRBracket (bytes "']'") in
  pret attrs.

(** An attribute list if one starts here. *)
Definition ParseAttributes : P (list ParsedAttribute) :=
  let! b := At kLBracket in
  if b then ParseAttributeList else pret [].

Definition FillEnableIf (dst : EnableIf) (a : ParsedAttribute) : Parsed EnableIf :=
  let positive := bool_decide (a_name a = bytes "EnableIf") in
  if negb positive && negb (bool_decide (a_name a = bytes "EnableIfNot")) then inr dst
  else
    let set c := if positive then mkEnableIf c (enable_if_not dst) else mkEnableIf (enable_if dst) c in
    match a_value a with
    | AV_None =>
        inl (ParseError (bytes "'[" ++ a_name a ++ bytes "=...]' requires a flag name") (a_line a))
    | AV_Identifier s => inr (set (mkEnableIfClause kAny [s]))
    | AV_PipeList l => inr (set (mkEnableIfClause kAny l))
    | AV_AmpList l => inr (set (mkEnableIfClause kAll l))
    | _ =>
        inl (ParseError (bytes "'[" ++ a_name a ++
          bytes "=...]' value must be a flag name, a|b, or a&b") (a_line a))
    end.

(** [for (a : attrs) FillEnableIf(dst, a)]. *)
Definition FillEnableIfs (attrs : list ParsedAttribute) : Parsed EnableIf :=
  for_each FillEnableIf EnableIf_init attrs.

(** The branches for a flag like [Extensible] that takes no value, and for
    [MinVersion]: [None] if the attribute is another one. *)
Definition flag_attr (name : list Z) (a : ParsedAttribute) : option (Parsed unit) :=
  if bool_decide (a_name a = name) then
    Some (if a_has_value a
          then inl (ParseError (bytes "'[" ++ name ++ bytes "]' doesn't take a value") (a_line a))
          else inr tt)
  else None.

Definition min_version_attr (a : ParsedAttribute) : option (Parsed Z) :=
  if bool_decide (a_name a = bytes "MinVersion") then
    Some (match a_value a with
          | AV_Int v =>
              if v <? 0
              then inl (ParseError (bytes "'[MinVersion=N]': N must be non-negative") (a_line a))
              else inr (u32 v)
          | _ => inl (ParseError (bytes "'[MinVersion=N]' requires an integer value") (a_line a))
          end)
  else None.

(** ** Name resolution *)

Definition lookup_name (name : list Z) (m : gmap (list Z) (list Z)) : list Z :=
  default [] (m !! name).

Definition OwnerOf (e : Env) (name : list Z) : list Z :=
  if bool_decide (name ∈ local_names_ e) then [] else lookup_name name (owner_by_name_ e).

Definition OwnerForQualified (e : Env) (qual name : list Z) : list Z :=
  if bool_decide (qual = []) || bool_decide (qual = module_name_ e) then OwnerOf e name else qual.

Definition ContainerOf (e : Env) (name : list Z) : list Z :=
  match enum_container (declared_ e) !! name with
  | Some c => c
  | None => lookup_name name (container_by_name_ e)
  end.

Definition ContainerEnums (e : Env) (container : list Z) : option (gset (list Z)) :=
  match container_enums (declared_ e) !! container with
  | Some s => Some s
  | None => container_enums_ e !! container
  end.

Definition StructContainerOf (e : Env) (name : list Z) : list Z :=
  lookup_name name (struct_container (declared_ e)).
Definition UnionContainerOf (e : Env) (name : list Z) : list Z :=
  lookup_name name (union_container (declared_ e)).
Definition ContainerStructs (e : Env) (container : list Z) : option (gset (list Z)) :=
  container_structs (declared_ e) !! container.
Definition ContainerUnions (e : Env) (container : list Z) : option (gset (list Z)) :=
  container_unions (declared_ e) !! container.
Definition ConstContainerOf (e : Env) (name : list Z) : list Z :=
  lookup_name name (const_container_ e).

Definition EnumForDefault (e : Env) (field_type : TypeSpec) : option EnumDecl :=
  let any := enum_values_ e !! t_name field_type in
  if bool_decide (owner_namespace field_type = []) then
    match local_enum_values_ e !! t_name field_type with Some d => Some d | None => any end
  else any.

(** A reference to a struct, union or enum. *)
Definition named_type (k : TypeKind) (name ns container : list Z) : TypeSpec :=
  mkTypeSpec k name None None false ns container 0.

(** The declared type of that name: struct, then union, then enum. *)
Definition declared_type (e : Env) (name ns : list Z) : option TypeSpec :=
  if bool_decide (name ∈ d_structs (declared_ e))
  then Some (named_type kStructRef name ns (StructContainerOf e name))
  else if bool_decide (name ∈ d_unions (declared_ e))
  then Some (named_type kUnionRef name ns (UnionContainerOf e name))
  else if bool_decide (name ∈ d_enums (declared_ e))
  then Some (named_type kEnumRef name ns (ContainerOf e name))
  else None.

Definition ExternalType (e : Env) (qual type_name : list Z) : TypeSpec :=
  let ns := if bool_decide (type_name ∈ local_names_ e) then [] else qual in
  match declared_type e type_name ns with
  | Some t => t
  | None => named_type kStructRef type_name qual []
  end.

Definition TakeQualifiedName (first : Token) : P (list Z * list Z) :=
  let! segs := dotted kDot (bytes "name after '.'") (λ l t, l ++ [text t]) [text first] in
  match segs with
  | [name] => pret ([], name)
  | s :: segs =>
      pret (fold_left (λ q x, q ++ bytes "." ++ x) (pop_back segs) s, List.last segs [])
  | [] => throw BadAccess
  end.

(** What a dotted name stands for: the segments after the first. *)
Definition qualified_type (e : Env) (first : list Z) (segs : list (list Z)) : TypeSpec :=
  let last := List.last segs [] in
  let qualifier := fold_left (λ q x, q ++ bytes "." ++ x) (pop_back segs) first in
  let owner := owner_by_name_ e !! last in
  let owner_ok := bool_decide (owner = Some qualifier) in
  let self_ok := negb (bool_decide (module_name_ e = []))
    && bool_decide (qualifier = module_name_ e)
    && (bool_decide (owner = None) || bool_decide (owner = Some [])) in
  let own :=
    if owner_ok || self_ok
    then declared_type e last (if owner_ok then qualifier else []) else None in
  let nested (s : option (gset (list Z))) :=
    match s with Some s => bool_decide (last ∈ s) | None => false end in
  match own with
  | Some t => t
  | None =>
      if bool_decide (length segs = 1%nat) then
        if nested (ContainerEnums e first)
        then named_type kEnumRef last (OwnerOf e first) first
        else if nested (ContainerStructs e first)
        then named_type kStructRef last (OwnerOf e first) first
        else if nested (ContainerUnions e first)
        then named_type kUnionRef last (OwnerOf e first) first
        else ExternalType e qualifier last
      else ExternalType e qualifier last
  end.

(** ** Types *)

(** [CheckNullableAllowed]: every kind the parser makes is allowed. *)
Definition CheckNullableAllowed (t : TypeSpec) : P unit :=
  match t_kind t with
  | kEnumRef | kBool | kInt8 | kUint8 | kInt16 | kUint16 | kInt32 | kUint32
  | kInt64 | kUint64 | kFloat | kDouble => pret tt
  | kString | kArray | kMap | kStructRef | kUnionRef
  | kPendingRemote | kPendingReceiver | kPendingAssociatedRemote | kPendingAssociatedReceiver
  | kHandle | kHandleMessagePipe | kHandleDataPipeConsumer | kHandleDataPipeProducer
  | kHandleSharedBuffer | kHandlePlatform => pret tt
  end.

Definition CheckValidMapKeyType (key : TypeSpec) : P unit :=
  if nullable key then fail_here (bytes "map key type cannot be nullable")
  else
    match t_kind key with
    | kString | kEnumRef | kStructRef | kUnionRef | kBool | kInt8 | kUint8 | kInt16 | kUint16
    | kInt32 | kUint32 | kInt64 | kUint64 => pret tt
    | _ => fail_here (bytes "map key type must be bool/integer/string/enum/struct/union (never float/double/array/map/pending_*)")
    end.

Definition handle_subtype (t : list Z) : option TypeKind :=
  if bool_decide (t = bytes "message_pipe") then Some kHandleMessagePipe
  else if bool_decide (t = bytes "data_pipe_consumer") then Some kHandleDataPipeConsumer
  else if bool_decide (t = bytes "data_pipe_producer") then Some kHandleDataPipeProducer
  else if bool_decide (t = bytes "shared_buffer") then Some kHandleSharedBuffer
  else if bool_decide (t = bytes "platform") || bool_decide (t = bytes "mach_send")
          || bool_decide (t = bytes "mach_receive") || bool_decide (t = bytes "mach_port")
  then Some kHandlePlatform
  else None.

(** [array < element , N >], after the keyword. *)
Definition ParseArray (ParseTypeSpec : P TypeSpec) : P TypeSpec :=
  let! _ := Expect kLAngle (bytes "'<'") in
  let! elem := ParseTypeSpec in
  let! comma := At kComma in
  let! fixed_size :=
    (if comma then
       Advance ;;
       let! size_tok := Expect kNumber (bytes "fixed array size") in
       let! n := lift (stoi (text size_tok)) in
       if n <=? 0
       then throw (ParseError (bytes "fixed array size must be a positive integer")
                     (tok_line size_tok))
       else pret n
     else pret 0) in
  let! _ := Expect kRAngle (bytes "'>'") in
  pret (mkTypeSpec kArray [] (Some elem) None false [] [] fixed_size).

Definition ParseMap (ParseTypeSpec : P TypeSpec) : P TypeSpec :=
  let! _ := Expect kLAngle (bytes "'<'") in
  let! k := ParseTypeSpec in
  CheckValidMapKeyType k ;;
  let! _ := Expect kComma (bytes "',' between map key and value types") in
  let! value := ParseTypeSpec in
  let! _ := Expect kRAngle (bytes "'>'") in
  pret (mkTypeSpec kMap [] (Some value) (Some k) false [] [] 0).

Definition ParseHandle : P TypeSpec :=
  let! angle := At kLAngle in
  if angle then
    Advance ;;
    let! subtype_tok := Expect kName (bytes "handle subtype") in
    let! _ := Expect kRAngle (bytes "'>'") in
    match handle_subtype (text subtype_tok) with
    | Some k => pret (TypeSpec_init k)
    | None =>
        throw (ParseError (bytes "unsupported handle subtype '" ++ text subtype_tok ++
          bytes "' -- this compiler supports 'message_pipe', 'data_pipe_consumer', 'data_pipe_producer', 'shared_buffer', 'platform', and 'mach_send'/'mach_receive'/'mach_port' (as handle<platform>)")
          (tok_line subtype_tok))
    end
  else pret (TypeSpec_init kHandle).

Definition ParseAssociated : P TypeSpec :=
  let! iface_tok := Expect kName (bytes "associated interface name") in
  let! '(qual, iface) := TakeQualifiedName iface_tok in
  let! recv := At kAmpersand in
  (if recv then Advance else pret tt) ;;
  let! ns := asks (λ e, OwnerForQualified e qual iface) in
  pret (named_type (if recv then kPendingAssociatedReceiver else kPendingAssociatedRemote)
          iface ns []).

Definition ParsePending (k : TypeKind) : P TypeSpec :=
  let! _ := Expect kLAngle (bytes "'<'") in
  let! iface_tok := Expect kName (bytes "interface name") in
  let! '(qual, iface) := TakeQualifiedName iface_tok in
  let! _ := Expect kRAngle (bytes "'>'") in
  let! ns := asks (λ e, OwnerForQualified e qual iface) in
  pret (named_type k iface ns []).

(** A type named by the program. *)
Definition ParseNamedType (name : list Z) : P TypeSpec :=
  let! dot := At kDot in
  if dot then
    let! segs := dotted kDot (bytes "name after '.'") (λ l t, l ++ [text t]) [] in
    asks (λ e, qualified_type e name segs)
  else
    asks (λ e,
      match declared_type e name (OwnerOf e name) with
      | Some t => t
      | None => ExternalType e [] name
      end).

Definition ParseTypeSpecInner (ParseTypeSpec : P TypeSpec) : P TypeSpec :=
  let! name := Expect kName (bytes "type name") in
  let n := text name in
  if bool_decide (n = bytes "string") then pret (TypeSpec_init kString)
  else if bool_decide (n = bytes "array") then ParseArray ParseTypeSpec
  else if bool_decide (n = bytes "map") || bool_decide (n = bytes "hash_map")
  then ParseMap ParseTypeSpec
  else if bool_decide (n = bytes "handle") then ParseHandle
  else if bool_decide (n = bytes "associated") then ParseAssociated
  else
    match kPendingKeywords n with
    | Some k => ParsePending k
    | None =>
        match kScalarKeywords n with
        | Some k => pret (TypeSpec_init k)
        | None => ParseNamedType n
        end
    end.

Definition set_nullable (t : TypeSpec) : TypeSpec :=
  mkTypeSpec (t_kind t) (t_name t) (element t) (key t) true (owner_namespace t)
    (owner_container t) (fixed_array_size t).

(** The recursion takes a token at every level. *)
Fixpoint ParseTypeSpec_fuel (fuel : nat) : P TypeSpec :=
  match fuel with
  | O => throw NoFuel
  | S fuel' =>
      let! t := ParseTypeSpecInner (ParseTypeSpec_fuel fuel') in
      let! question := At kQuestion in
      if question then Advance ;; CheckNullableAllowed t ;; pret (set_nullable t)
      else pret t
  end.

Definition ParseTypeSpec : P TypeSpec :=
  λ p, ParseTypeSpec_fuel (S (length (rest p))) p.
End parser.
