(* ===== verification/ParseDecl.v ===== *)
(** * The .voodoom parser: declarations

    Default values, constants, enums, structs, unions, interfaces, features and
    the two entry points [ParseHeader] and [ParseBody] of [Parser::Impl]. *)
From S2P Require Import Prelude Lexer Ast Scan Parser Embed.
From S2P Require TypeIntern.
From Stdlib Require Import Ascii SpecFloat.

Section parser.
Context (LONG_MAX : Z) (underflow_erange : bool).

#[local] Abbreviation ParseAttributeList := (Parser.ParseAttributeList underflow_erange).
#[local] Abbreviation ParseAttributes := (Parser.ParseAttributes underflow_erange).
#[local] Abbreviation ParseFloatValue := (Parser.ParseFloatValue underflow_erange).
#[local] Abbreviation stoul := (Parser.stoul LONG_MAX).

(** ** Default values *)

Definition ResolveConstDefault (field_type : TypeSpec) (name : list Z) (line : Z) : P ConstDecl :=
  let! c := asks (λ e, const_by_name_ e !! name) in
  match c with
  | None =>
      throw (ParseError (bytes "'" ++ name ++ bytes "' must be a previously declared const (earlier in this file, or in one of its imports) to use as a field default") line)
  | Some c =>
      if bool_decide (t_kind (c_type c) = t_kind field_type) then pret c
      else
        throw (ParseError (bytes "const '" ++ name ++ bytes "' has a different type than this field -- a field default must match its field's type exactly") line)
  end.

Definition ResolveConstReference (field_type : TypeSpec) : P ConstDecl :=
  let! name_tok := Expect kName (bytes "const name") in
  let! segs := dotted kDot (bytes "const name after '.'") (λ l t, l ++ [t]) [name_tok] in
  match segs with
  | [_] => ResolveConstDefault field_type (text name_tok) (tok_line name_tok)
  | first :: _ =>
      let member := List.last segs name_tok in
      let! c := ResolveConstDefault field_type (text member) (tok_line member) in
      let! actual := asks (λ e, ConstContainerOf e (text member)) in
      if bool_decide (length segs = 2%nat) && negb (bool_decide (actual = text first)) then
        throw (ParseError (bytes "'" ++ text first ++ bytes "' has no nested const '" ++
          text member ++ bytes "'" ++
          (if bool_decide (actual = []) then bytes " (it's a top-level const)"
           else bytes " (it belongs to '" ++ actual ++ bytes "')")) (tok_line member))
      else pret c
  | [] => throw BadAccess
  end.

(** A default that names a constant: the value of its type's kind, and the
    expression. *)
Definition const_default (field_type : TypeSpec) : P DefaultValue :=
  let! c := ResolveConstReference field_type in
  let v := c_value c in
  let! ns := asks (λ e, OwnerOf e (c_name c)) in
  let! container := asks (λ e, ConstContainerOf e (c_name c)) in
  pret (match t_kind field_type with
        | kBool => mkDefaultValue true (bool_value v) 0 (S754_zero false) FS_kNone []
                     (c_name c) ns container
        | kFloat | kDouble => mkDefaultValue true false 0 (float_value v) (float_special v) []
                     (c_name c) ns container
        | kString => mkDefaultValue true false 0 (S754_zero false) FS_kNone (string_value v)
                     (c_name c) ns container
        | _ => mkDefaultValue true false (int_value v) (S754_zero false) FS_kNone []
                 (c_name c) ns container
        end).

Definition bool_default (b : bool) : DefaultValue :=
  mkDefaultValue true b 0 (S754_zero false) FS_kNone [] [] [] [].
Definition int_default (v : Z) : DefaultValue :=
  mkDefaultValue true false v (S754_zero false) FS_kNone [] [] [] [].
Definition float_default (v : spec_float) (s : FloatSpecial) : DefaultValue :=
  mkDefaultValue true false 0 v s [] [] [] [].
Definition string_default (v : list Z) : DefaultValue :=
  mkDefaultValue true false 0 (S754_zero false) FS_kNone v [] [] [].
Definition named_default (v : Z) (expr ns container : list Z) : DefaultValue :=
  mkDefaultValue true false v (S754_zero false) FS_kNone [] expr ns container.

(** [float.INFINITY] and the like: the token after the dot decides. *)
Definition float_literal (t : list Z) : option DefaultValue :=
  if bool_decide (t = bytes "INFINITY") then Some (float_default (S754_infinity false) FS_kInfinity)
  else if bool_decide (t = bytes "NEGATIVE_INFINITY")
  then Some (float_default (S754_infinity true) FS_kNegativeInfinity)
  else if bool_decide (t = bytes "NAN") then Some (float_default S754_nan FS_kNaN)
  else None.

Definition at_float_literal : P (option DefaultValue) :=
  λ p, inr (match rest p with
            | t :: d :: w :: _ =>
                if bool_decide (tok_type t = kName)
                   && (bool_decide (text t = bytes "float") || bool_decide (text t = bytes "double"))
                   && bool_decide (tok_type d = kDot)
                then float_literal (text w) else None
            | _ => None
            end, p).

Definition enum_default (field_type : TypeSpec) : P DefaultValue :=
  let! value_name := Expect kName (bytes "enum value name for field default") in
  let! enumerator := dotted kDot (bytes "enum value name after '.'") (λ _ t, text t)
                       (text value_name) in
  let! decl := asks (λ e, EnumForDefault e field_type) in
  match decl with
  | None =>
      throw (ParseError (bytes "enum '" ++ t_name field_type ++ bytes "' must be declared (fully, in this file or one of its imports) before its values can be used as a field default") (tok_line value_name))
  | Some e =>
      let v := match find_value enumerator (e_values e) with Some v => v_value v | None => 0 end in
      pret (named_default v (t_name field_type ++ bytes "::" ++ enumerator)
              (owner_namespace field_type) (owner_container field_type))
  end.

Definition ParseDefaultValue (field_type : TypeSpec) : P DefaultValue :=
  let! t := Cur in
  let! is_true := AtKeyword (bytes "true") in
  let! is_false := AtKeyword (bytes "false") in
  let is_name := bool_decide (tok_type t = kName) in
  match t_kind field_type with
  | kBool =>
      if is_true || is_false then Advance ;; pret (bool_default is_true)
      else if is_name then const_default field_type
      else fail_here (bytes "expected 'true', 'false', or a previously declared const name for a bool field default, got '" ++ shown t ++ bytes "'")
  | kInt8 | kUint8 | kInt16 | kUint16 | kInt32 | kUint32 | kInt64 | kUint64 =>
      if is_name then const_default field_type
      else
        let! '(negative, digits) := ParseSignedNumber in
        let! v := lift (ParseIntLiteral negative digits) in
        pret (int_default v)
  | kFloat | kDouble =>
      let! special := at_float_literal in
      match special with
      | Some d => Advance ;; Advance ;; Advance ;; pret d
      | None =>
          if is_name then const_default field_type
          else let! v := ParseFloatValue in pret (float_default v FS_kNone)
      end
  | kString =>
      if is_name then const_default field_type
      else
        let! s := Expect kStringLiteral (bytes "string field default") in
        pret (string_default (text s))
  | kEnumRef => enum_default field_type
  | k =>
      let! declared := asks (λ e, bool_decide (t_name field_type ∈ d_structs (declared_ e))) in
      if bool_decide (k = kStructRef) && negb declared && is_name then
        Advance ;;
        let! enumerator := dotted kDot (bytes "name after '.'") (λ _ t, text t) (text t) in
        pret (named_default 0 enumerator [] [])
      else
        fail_here (bytes "field defaults are only supported for bool/integer/float/double/string/enum types (never struct/union/array/map/pending_*)")
  end.

(** ** Constants and features *)

Definition ParseConst : P ConstDecl :=
  let! _ := ExpectKeyword (bytes "const") in
  let! type_start := Cur in
  let! ty := ParseTypeSpec in
  if nullable ty || negb (IsLegalConstType (t_kind ty)) then
    throw (ParseError (bytes "const type must be bool/integer/float/double/string/enum (never nullable, struct/union/array/map/pending_*)") (tok_line type_start))
  else
    let! name := Expect kName (bytes "const name") in
    let! _ := Expect kEquals (bytes "'=' in const declaration") in
    let! value := ParseDefaultValue ty in
    let! _ := Expect kSemi (bytes "';' after const declaration") in
    pret (mkConstDecl ty (text name) value 0 EnableIf_init).

(** A constant with its attributes and index, entered under its container, if
    it has one. *)
Definition ParseConstIn (container : option (list Z)) (attrs : list ParsedAttribute) : P ConstDecl :=
  let! c := ParseConst in
  let! enable := lift (FillEnableIfs attrs) in
  let! i := asks next_const_order_ in
  let c := mkConstDecl (c_type c) (c_name c) (c_value c) i enable in
  update (set_next_const_order (Z.add 1)) ;;
  (match container with
   | Some n => update (set_const_container <[c_name c := n]>)
   | None => pret tt
   end) ;;
  update (set_const_by_name <[c_name c := c]>) ;;
  pret c.

Definition ParseFeature (attrs : list ParsedAttribute) : P FeatureDecl :=
  let! _ := ExpectKeyword (bytes "feature") in
  let! name := Expect kName (bytes "feature name") in
  let! _ := Expect kLBrace (bytes "'{'") in
  let! consts := while_ (λ consts,
    let! done := At kRBrace in
    if done then pret (inr consts)
    else
      let! attrs := ParseAttributes in
      let! is_const := AtKeyword (bytes "const") in
      if negb is_const then
        let! t := Cur in
        throw (ParseError (bytes "feature '" ++ text name ++ bytes "': only 'const' declarations are allowed inside a 'feature { ... }' body (matching real mojom's own FeatureBody grammar), got '" ++ shown t ++ bytes "'") (tok_line t))
      else
        let! c := ParseConstIn (Some (text name)) attrs in
        pret (inl (consts ++ [c]))) [] in
  let! _ := Expect kRBrace (bytes "'}'") in
  let! _ := Expect kSemi (bytes "';' after feature body") in
  let! enable := lift (FillEnableIfs attrs) in
  pret (mkFeatureDecl (text name) consts enable).

(** ** Enums *)

(** What an attribute list says of an enum. *)
Definition enum_attr (e : EnumDecl) (a : ParsedAttribute) : Parsed EnumDecl :=
  let '(mkEnumDecl n vs ext nat enable) := e in
  match flag_attr (bytes "Extensible") a with
  | Some r => match r with inr _ => inr (mkEnumDecl n vs true nat enable) | inl x => inl x end
  | None =>
      match flag_attr (bytes "Native") a with
      | Some r => match r with inr _ => inr (mkEnumDecl n vs ext true enable) | inl x => inl x end
      | None =>
          match FillEnableIf enable a with
          | inr enable => inr (mkEnumDecl n vs ext nat enable)
          | inl x => inl x
          end
      end
  end.

Definition enum_value_attr (v : EnumValue) (a : ParsedAttribute) : Parsed EnumValue :=
  let '(mkEnumValue n x mv def enable) := v in
  match min_version_attr a with
  | Some r => match r with inr mv => inr (mkEnumValue n x mv def enable) | inl x => inl x end
  | None =>
      match flag_attr (bytes "Default") a with
      | Some r => match r with inr _ => inr (mkEnumValue n x mv true enable) | inl x => inl x end
      | None =>
          match FillEnableIf enable a with
          | inr enable => inr (mkEnumValue n x mv def enable)
          | inl x => inl x
          end
      end
  end.

(** The value after the name: an alias, a number, or the next one. *)
Definition ParseEnumNumber (name : list Z) (so_far : list EnumValue) (next_value : Z) : P Z :=
  let! eq := At kEquals in
  if eq then
    Advance ;;
    let! t := Cur in
    if bool_decide (tok_type t = kName) then
      Advance ;;
      match find_value (text t) so_far with
      | Some v => pret (v_value v)
      | None =>
          throw (ParseError (bytes "enum value '" ++ name ++ bytes "' aliases unknown value '" ++
            text t ++ bytes "'") (tok_line t))
      end
    else
      let! '(negative, digits) := ParseSignedNumber in
      let! v := lift (ParseIntLiteral negative digits) in
      pret (i32 v)
  else pret next_value.

(** The value and the next one. *)
Definition ParseEnumValue (so_far : list EnumValue) (next_value : Z) : P (EnumValue * Z) :=
  let! attrs := ParseAttributes in
  let! v := lift (for_each enum_value_attr (EnumValue_init [] 0) attrs) in
  let! name := Expect kName (bytes "enum value name") in
  let! value := ParseEnumNumber (text name) so_far next_value in
  let! next_value := lift (succ32 value) in
  pret (mkEnumValue (text name) value (v_min_version v) (v_is_default v) (v_enable_if v),
        next_value).

(** The enumerators up to the closing brace. *)
Definition ParseEnumBody : P (list EnumValue) :=
  let! empty := At kRBrace in
  if empty then pret []
  else
    let! '(v, next_value) := ParseEnumValue [] 0 in
    while_ (λ '(values, next_value),
      let! comma := At kComma in
      if comma then
        Advance ;;
        let! trailing := At kRBrace in
        if trailing then pret (inr values)
        else
          let! '(v, next_value) := ParseEnumValue values next_value in
          pret (inl (values ++ [v], next_value))
      else pret (inr values)) ([v], next_value).

Definition count_if {A} (f : A → bool) (l : list A) : nat := length (List.filter f l).

Definition ParseEnum (top_attrs : list ParsedAttribute) : P EnumDecl :=
  let! _ := ExpectKeyword (bytes "enum") in
  let! e := lift (for_each enum_attr (mkEnumDecl [] [] false false EnableIf_init) top_attrs) in
  let! name := Expect kName (bytes "enum name") in
  let decl values :=
    mkEnumDecl (text name) values (e_is_extensible e) (e_is_native e) (e_enable_if e) in
  let! semi := At kSemi in
  if semi then Advance ;; pret (decl [])
  else
    let! _ := Expect kLBrace (bytes "'{'") in
    let! values := ParseEnumBody in
    let! _ := Expect kRBrace (bytes "'}'") in
    let! _ := Expect kSemi (bytes "';' after enum body") in
    if (1 <? count_if v_is_default values)%nat
    then fail_here (bytes "enum '" ++ text name ++ bytes "': at most one value may be [Default]")
    else pret (decl values).

(** ** Structs *)

Definition StructField_init : StructField :=
  mkStructField (TypeSpec_init kBool) [] DefaultValue_init 0 0 false EnableIf_init.

(** [@N], a [uint32_t], and whether it is there. *)
Definition ParseOrdinal (what : list Z) : P (option Z) :=
  let! at_ := At kAt in
  if at_ then
    Advance ;;
    let! num := Expect kNumber what in
    let! n := lift (stoul (text num)) in
    pret (Some (u32 n))
  else pret None.

(** [MinVersion] and [EnableIf] of a field or parameter. *)
Definition versioned_attr (v : Z * EnableIf) (a : ParsedAttribute) : Parsed (Z * EnableIf) :=
  match min_version_attr a with
  | Some r => match r with inr mv => inr (mv, snd v) | inl x => inl x end
  | None => match FillEnableIf (snd v) a with inr e => inr (fst v, e) | inl x => inl x end
  end.

Definition ParseStructField (attrs : list ParsedAttribute) : P StructField :=
  let! '(mv, enable) := lift (for_each versioned_attr (0, EnableIf_init) attrs) in
  let! ty := ParseTypeSpec in
  let! name := Expect kName (bytes "field name") in
  let! ordinal := ParseOrdinal (bytes "field ordinal") in
  let! eq := At kEquals in
  let! d := (if eq then Advance ;; ParseDefaultValue ty else pret DefaultValue_init) in
  let! _ := Expect kSemi (bytes "';' after field declaration") in
  pret (mkStructField ty (text name) d mv (default 0 ordinal)
          (match ordinal with Some _ => true | None => false end) enable).

(** Whether the struct is native, and its [EnableIf]. *)
Definition struct_attr (v : bool * EnableIf) (a : ParsedAttribute) : Parsed (bool * EnableIf) :=
  match flag_attr (bytes "Native") a with
  | Some r => match r with inr _ => inr (true, snd v) | inl x => inl x end
  | None => match FillEnableIf (snd v) a with inr e => inr (fst v, e) | inl x => inl x end
  end.

(** The members of a struct body; [version] grows with the fields. *)
Record StructBody := mkStructBody {
  sb_fields : list StructField;
  sb_enums : list EnumDecl;
  sb_consts : list ConstDecl;
  sb_version : Z
}.

Definition ParseStructMember (name : list Z) (b : StructBody) : P (StructBody + StructBody) :=
  let! done := At kRBrace in
  if done then pret (inr b)
  else
    let! attrs := ParseAttributes in
    let! is_enum := AtKeyword (bytes "enum") in
    let! is_const := AtKeyword (bytes "const") in
    let '(mkStructBody fields enums consts version) := b in
    if is_enum then
      let! e := ParseEnum attrs in
      pret (inl (mkStructBody fields (enums ++ [e]) consts version))
    else if is_const then
      let! c := ParseConstIn (Some name) attrs in
      pret (inl (mkStructBody fields enums (consts ++ [c]) version))
    else
      let! f := ParseStructField attrs in
      pret (inl (mkStructBody (fields ++ [f]) enums consts (Z.max version (f_min_version f)))).

(** [decl_index] and [owner_container] are the caller's. *)
Definition ParseStruct (top_attrs : list ParsedAttribute) : P StructDecl :=
  let! _ := ExpectKeyword (bytes "struct") in
  let! '(native, enable) := lift (for_each struct_attr (false, EnableIf_init) top_attrs) in
  let! name := Expect kName (bytes "struct name") in
  let! semi := At kSemi in
  if semi then
    Advance ;; pret (mkStructDecl (text name) [] [] [] 0 0 [] native enable)
  else
    let! _ := Expect kLBrace (bytes "'{'") in
    let! b := while_ (ParseStructMember (text name)) (mkStructBody [] [] [] 0) in
    let! _ := Expect kRBrace (bytes "'}'") in
    let! _ := Expect kSemi (bytes "';' after struct body") in
    pret (mkStructDecl (text name) (sb_fields b) (sb_enums b) (sb_consts b) 0 (sb_version b) []
            native enable).

(** A struct with its place: its container and the next index. *)
Definition ParseStructIn (container : list Z) (attrs : list ParsedAttribute) : P StructDecl :=
  let! s := ParseStruct attrs in
  let! i := asks next_embed_order_ in
  update (set_next_embed_order (Z.add 1)) ;;
  pret (mkStructDecl (s_name s) (s_fields s) (s_enums s) (s_consts s) i (s_version s) container
          (s_is_native s) (s_enable_if s)).

(** ** Unions *)

Definition union_field_attr (f : UnionField) (a : ParsedAttribute) : Parsed UnionField :=
  let '(mkUnionField ty n tag ex mv def enable) := f in
  match min_version_attr a with
  | Some r => match r with inr mv => inr (mkUnionField ty n tag ex mv def enable) | inl x => inl x end
  | None =>
      match flag_attr (bytes "Default") a with
      | Some r =>
          match r with inr _ => inr (mkUnionField ty n tag ex mv true enable) | inl x => inl x end
      | None =>
          match FillEnableIf enable a with
          | inr enable => inr (mkUnionField ty n tag ex mv def enable)
          | inl x => inl x
          end
      end
  end.

(** A field with [next_implicit] for its tag if it has none; the next. *)
Definition ParseUnionField (next_implicit : Z) : P (UnionField * Z) :=
  let! attrs := ParseAttributes in
  let! f := lift (for_each union_field_attr
    (mkUnionField (TypeSpec_init kBool) [] 0 false 0 false EnableIf_init) attrs) in
  let! ty := ParseTypeSpec in
  let! name := Expect kName (bytes "field name") in
  let! tag := ParseOrdinal (bytes "tag number") in
  let! _ := Expect kSemi (bytes "';' after field declaration") in
  let field tag ex :=
    mkUnionField ty (text name) tag ex (uf_min_version f) (uf_is_default f) (uf_enable_if f) in
  pret (match tag with
        | Some t => (field t true, next_implicit)
        | None => (field next_implicit false, u32 (next_implicit + 1))
        end).

Definition set_tag (t : Z) (f : UnionField) : UnionField :=
  mkUnionField (uf_type f) (uf_name f) t (uf_has_explicit_tag f) (uf_min_version f)
    (uf_is_default f) (uf_enable_if f).

(** [while (used.count(next)) ++next;] in [uint32_t]. *)
Fixpoint next_unused (fuel : nat) (used : gset Z) (next : Z) : Parsed Z :=
  match fuel with
  | O => inl NoFuel
  | S fuel' =>
      if bool_decide (next ∈ used) then next_unused fuel' used (u32 (next + 1)) else inr next
  end.

(** The tags of untagged fields among tagged ones. *)
Fixpoint fill_tags (fs : list UnionField) (used : gset Z) (next : Z) : Parsed (list UnionField) :=
  match fs with
  | [] => inr []
  | f :: fs' =>
      if uf_has_explicit_tag f then
        match fill_tags fs' used next with inr l => inr (f :: l) | inl e => inl e end
      else
        match next_unused (S (size used)) used next with
        | inl e => inl e
        | inr t =>
            match fill_tags fs' ({[t]} ∪ used) (u32 (t + 1)) with
            | inr l => inr (set_tag t f :: l)
            | inl e => inl e
            end
        end
  end.

Definition explicit_tags (fs : list UnionField) : gset Z :=
  list_to_set (map uf_tag (List.filter uf_has_explicit_tag fs)).

Definition assign_tags (fs : list UnionField) : Parsed (list UnionField) :=
  if existsb uf_has_explicit_tag fs && existsb (λ f, negb (uf_has_explicit_tag f)) fs
  then fill_tags fs (explicit_tags fs) 0 else inr fs.

(** Whether the union or interface is extensible, and its [EnableIf]. *)
Definition extensible_attr (v : bool * EnableIf) (a : ParsedAttribute) : Parsed (bool * EnableIf) :=
  match flag_attr (bytes "Extensible") a with
  | Some r => match r with inr _ => inr (true, snd v) | inl x => inl x end
  | None => match FillEnableIf (snd v) a with inr e => inr (fst v, e) | inl x => inl x end
  end.

Definition max_version {A} (f : A → Z) (l : list A) : Z := fold_left (λ v x, Z.max v (f x)) l 0.

Definition ParseUnion (top_attrs : list ParsedAttribute) : P UnionDecl :=
  let! _ := ExpectKeyword (bytes "union") in
  let! '(extensible, enable) := lift (for_each extensible_attr (false, EnableIf_init) top_attrs) in
  let! name := Expect kName (bytes "union name") in
  let! _ := Expect kLBrace (bytes "'{'") in
  let! fields := while_ (λ '(fields, next_implicit),
    let! done := At kRBrace in
    if done then pret (inr fields)
    else
      let! '(f, next_implicit) := ParseUnionField next_implicit in
      pret (inl (fields ++ [f], next_implicit))) ([], 0) in
  let! _ := Expect kRBrace (bytes "'}'") in
  let! _ := Expect kSemi (bytes "';' after union body") in
  let! fields := lift (assign_tags fields) in
  if bool_decide (fields = [])
  then fail_here (bytes "union '" ++ text name ++ bytes "': must have at least one field")
  else if (1 <? count_if uf_is_default fields)%nat
  then fail_here (bytes "union '" ++ text name ++ bytes "': at most one field may be [Default]")
  else pret (mkUnionDecl (text name) fields 0 (max_version uf_min_version fields) extensible []
               enable).

Definition ParseUnionIn (container : list Z) (attrs : list ParsedAttribute) : P UnionDecl :=
  let! u := ParseUnion attrs in
  let! i := asks next_embed_order_ in
  update (set_next_embed_order (Z.add 1)) ;;
  pret (mkUnionDecl (u_name u) (u_fields u) i (u_version u) (u_is_extensible u) container
          (u_enable_if u)).

(** ** Methods and interfaces *)

Definition ParseParam : P Param :=
  let! attrs := ParseAttributes in
  let! '(mv, enable) := lift (for_each versioned_attr (0, EnableIf_init) attrs) in
  let! ty := ParseTypeSpec in
  let! name := Expect kName (bytes "parameter name") in
  let! ordinal := ParseOrdinal (bytes "parameter ordinal") in
  pret (mkParam ty (text name) mv (default 0 ordinal)
          (match ordinal with Some _ => true | None => false end) enable).

Definition ParseParamList : P (list Param) :=
  let! p := ParseParam in
  while_ (λ params,
    let! comma := At kComma in
    if comma then Advance ;; let! p := ParseParam in pret (inl (params ++ [p]))
    else pret (inr params)) [p].

(** [( params )] with the list possibly empty, after the opening. *)
Definition ParseParams : P (list Param) :=
  let! empty := At kRParen in
  let! params := (if empty then pret [] else ParseParamList) in
  let! _ := Expect kRParen (bytes "')'") in
  pret params.

Definition MakeResultUnion (iface_name method_name : list Z) (value_type error_type : TypeSpec)
    : P TypeSpec :=
  let name := iface_name ++ bytes "_" ++ method_name ++ bytes "Result" in
  let field ty n tag := mkUnionField ty n tag false 0 false EnableIf_init in
  let! i := asks next_embed_order_ in
  update (set_next_embed_order (Z.add 1)) ;;
  update (set_pending_result_unions (λ l, l ++
    [mkUnionDecl name [field value_type (bytes "value") 0; field error_type (bytes "error") 1]
       i 0 false [] EnableIf_init])) ;;
  pret (named_type kUnionRef name [] []).

(** [take_method_ordinal], at the [@]: [prior] is the ordinal taken before. *)
Definition take_method_ordinal (name : list Z) (prior : option Z) : P (option Z) :=
  let! at_ := At kAt in
  if negb at_ then pret prior
  else
    let! at_tok := Cur in
    Advance ;;
    let! num := Expect kNumber (bytes "ordinal number") in
    match prior with
    | Some _ =>
        throw (ParseError (bytes "method '" ++ name ++ bytes "': ordinal specified twice")
                 (tok_line at_tok))
    | None =>
        let! n := lift (stoul (text num)) in
        let ordinal := u32 n in
        if 4294967294 <=? ordinal then
          throw (ParseError (bytes "method '" ++ name ++ bytes "': ordinal " ++
            TypeIntern.to_string ordinal ++ bytes " collides with a reserved control-message ordinal (0xFFFFFFFE and 0xFFFFFFFF are reserved for QueryVersion/RequireVersion)")
            (tok_line at_tok))
        else pret (Some ordinal)
    end.

(** The attributes of a method: whether it is sync, its version and [EnableIf]. *)
Definition method_attr (v : bool * (Z * EnableIf)) (a : ParsedAttribute)
    : Parsed (bool * (Z * EnableIf)) :=
  match flag_attr (bytes "Sync") a with
  | Some r => match r with inr _ => inr (true, snd v) | inl x => inl x end
  | None => match versioned_attr (snd v) a with inr w => inr (fst v, w) | inl x => inl x end
  end.

(** What follows [=>]: the response parameters, and the two types of a result. *)
Definition ParseResponse (iface_name method_name : list Z)
    : P (list Param * option (TypeSpec * TypeSpec)) :=
  let! is_result := AtKeyword (bytes "result") in
  if is_result then
    Advance ;;
    let! _ := Expect kLAngle (bytes "'<'") in
    let! value_type := ParseTypeSpec in
    let! _ := Expect kComma (bytes "',' between result<T, E>'s two types") in
    let! error_type := ParseTypeSpec in
    let! _ := Expect kRAngle (bytes "'>'") in
    let! u := MakeResultUnion iface_name method_name value_type error_type in
    pret ([mkParam u (bytes "result") 0 0 false EnableIf_init], Some (value_type, error_type))
  else
    let! _ := Expect kLParen (bytes "'(' after '=>'") in
    let! params := ParseParams in
    pret (params, None).

Definition ParseMethod (top_attrs : list ParsedAttribute) (iface_name : list Z) : P Method :=
  let! '(sync, (mv, enable)) := lift (for_each method_attr (false, (0, EnableIf_init)) top_attrs) in
  let! name := Expect kName (bytes "method name") in
  let name := text name in
  let! ordinal := take_method_ordinal name None in
  let! _ := Expect kLParen (bytes "'('") in
  let! params := ParseParams in
  let! ordinal := take_method_ordinal name ordinal in
  let! arrow := At kArrow in
  let! '(response, result) :=
    (if arrow then Advance ;; ParseResponse iface_name name else pret ([], None)) in
  let! _ := Expect kSemi (bytes "';' after method declaration") in
  if sync && negb arrow then
    fail_here (bytes "'[Sync]' method '" ++ name ++ bytes "' must have a response (=> (...)) -- there's nothing to block for otherwise")
  else
    pret (mkMethod name (default 0 ordinal)
            (match ordinal with Some _ => true | None => false end) params arrow response
            (match result with Some _ => true | None => false end)
            (match result with Some (t, _) => t | None => TypeSpec_init kBool end)
            (match result with Some (_, t) => t | None => TypeSpec_init kBool end)
            sync mv enable).

Definition set_ordinal (n : Z) (m : Method) : Method :=
  mkMethod (m_name m) n (m_has_explicit_ordinal m) (m_params m) (has_response m)
    (response_params m) (is_result_response m) (result_success m) (result_error m) (is_sync m)
    (m_min_version m) (m_enable_if m).

(** The interface so far and [next_implicit]. *)
Definition ParseInterfaceMember (acc : Interface * Z) : P ((Interface * Z) + Interface) :=
  let '(mkInterface name ms es cs ss us v ext enable, next_implicit) := acc in
  let! done := At kRBrace in
  if done then pret (inr (mkInterface name ms es cs ss us v ext enable))
  else
    let! attrs := ParseAttributes in
    let! is_enum := AtKeyword (bytes "enum") in
    let! is_struct := AtKeyword (bytes "struct") in
    let! is_union := AtKeyword (bytes "union") in
    let! is_const := AtKeyword (bytes "const") in
    if is_enum then
      let! e := ParseEnum attrs in
      pret (inl (mkInterface name ms (es ++ [e]) cs ss us v ext enable, next_implicit))
    else if is_struct then
      let! s := ParseStructIn name attrs in
      pret (inl (mkInterface name ms es cs (ss ++ [s]) us v ext enable, next_implicit))
    else if is_union then
      let! u := ParseUnionIn name attrs in
      pret (inl (mkInterface name ms es cs ss (us ++ [u]) v ext enable, next_implicit))
    else if is_const then
      let! c := ParseConstIn (Some name) attrs in
      pret (inl (mkInterface name ms es (cs ++ [c]) ss us v ext enable, next_implicit))
    else
      let! m := ParseMethod attrs name in
      let '(m, next_implicit) :=
        if m_has_explicit_ordinal m then (m, next_implicit)
        else (set_ordinal next_implicit m, u32 (next_implicit + 1)) in
      pret (inl (mkInterface name (ms ++ [m]) es cs ss us (Z.max v (m_min_version m)) ext enable,
                 next_implicit)).

Definition ParseInterface (top_attrs : list ParsedAttribute) : P Interface :=
  let! '(ext, enable) := lift (for_each extensible_attr (false, EnableIf_init) top_attrs) in
  let! _ := ExpectKeyword (bytes "interface") in
  let! name := Expect kName (bytes "interface name") in
  let! _ := Expect kLBrace (bytes "'{'") in
  let! iface := while_ ParseInterfaceMember
                  (mkInterface (text name) [] [] [] [] [] 0 ext enable, 0) in
  let! _ := Expect kRBrace (bytes "'}'") in
  let! _ := Expect kSemi (bytes "';' after interface body") in
  if existsb m_has_explicit_ordinal (i_methods iface)
     && existsb (λ m, negb (m_has_explicit_ordinal m)) (i_methods iface)
  then fail_here (bytes "interface '" ++ text name ++ bytes "': either every method has an explicit @ordinal or none do")
  else pret iface.

(** ** The header *)

Record FileHeader := mkFileHeader { h_module_name : list Z; h_imports : list ImportDecl }.

(** Whether the list belonged to [module] or [import]; otherwise it is kept for
    [ParseBody]. *)
Definition ConsumeHeaderAttributeList : P bool :=
  let! b := At kLBracket in
  if negb b then pret false
  else
    let! attrs := ParseAttributeList in
    let! m := AtKeyword (bytes "module") in
    let! i := AtKeyword (bytes "import") in
    if m || i then pret true
    else update (set_leftover_attrs (λ _, Some attrs)) ;; pret false.

Definition ParseImport : P ImportDecl :=
  let! _ := ExpectKeyword (bytes "import") in
  let! t := Cur in
  let! path := Expect kStringLiteral (bytes "import path string") in
  let! _ := Expect kSemi (bytes "';' after import statement") in
  pret (mkImportDecl (text path) (tok_line t) []).

Definition ParseImports : P (list ImportDecl) :=
  while_ (λ imports,
    let! b := At kLBracket in
    let! go := (if b then ConsumeHeaderAttributeList else pret true) in
    if negb go then pret (inr imports)
    else
      let! is_import := AtKeyword (bytes "import") in
      if is_import then let! i := ParseImport in pret (inl (imports ++ [i]))
      else pret (inr imports)) [].

Definition ParseModuleStatement : P (list Z) :=
  let! is_module := AtKeyword (bytes "module") in
  if is_module then
    Advance ;;
    let! t := Expect kName (bytes "module name") in
    let! name := dotted kDot (bytes "module name segment") join_dot (text t) in
    let! _ := Expect kSemi (bytes "';' after module name") in
    update (set_module_name (λ _, name)) ;;
    pret name
  else pret [].

Definition ParseHeader : P FileHeader :=
  let! b := At kLBracket in
  let! go := (if b then ConsumeHeaderAttributeList else pret true) in
  if negb go then pret (mkFileHeader [] [])
  else
    let! name := ParseModuleStatement in
    let! imports := ParseImports in
    pret (mkFileHeader name imports).

(** ** The body *)

(** [struct Prelude]. *)
Record Prelude_ := mkPrelude {
  prelude_module : Module_;
  prelude_owner_by_name : gmap (list Z) (list Z)
}.

Definition Prelude_init : Prelude_ := mkPrelude Module_init ∅.

Definition add_struct_name (n : list Z) (d : DeclaredNames) : DeclaredNames :=
  let '(mkDeclaredNames a b c e f g h i j) := d in mkDeclaredNames ({[n]} ∪ a) b c e f g h i j.
Definition add_union_name (n : list Z) (d : DeclaredNames) : DeclaredNames :=
  let '(mkDeclaredNames a b c e f g h i j) := d in mkDeclaredNames a ({[n]} ∪ b) c e f g h i j.
Definition add_enum_name (n : list Z) (d : DeclaredNames) : DeclaredNames :=
  let '(mkDeclaredNames a b c e f g h i j) := d in mkDeclaredNames a b ({[n]} ∪ c) e f g h i j.
Definition add_nested_struct (owner n : list Z) (d : DeclaredNames) : DeclaredNames :=
  let '(mkDeclaredNames a b c e f g h i j) := d in
  mkDeclaredNames ({[n]} ∪ a) b c e f (<[n := owner]> g) (insert_member owner n h) i j.
Definition add_nested_union (owner n : list Z) (d : DeclaredNames) : DeclaredNames :=
  let '(mkDeclaredNames a b c e f g h i j) := d in
  mkDeclaredNames a ({[n]} ∪ b) c e f g h (<[n := owner]> i) (insert_member owner n j).

Definition seed_enum (e : EnumDecl) (x : Env) : Env :=
  set_enum_values <[e_name e := e]> (set_declared (add_enum_name (e_name e)) x).
Definition seed_nested_enum (owner : list Z) (x : Env) (e : EnumDecl) : Env :=
  set_container_enums (insert_member owner (e_name e))
    (set_container_by_name <[e_name e := owner]> (seed_enum e x)).
Definition seed_nested_const (owner : list Z) (x : Env) (c : ConstDecl) : Env :=
  set_const_container <[c_name c := owner]> (set_const_by_name <[c_name c := c]> x).
Definition seed_index (i : Z) (x : Env) : Env :=
  set_next_embed_order (λ n, Z.max n (i + 1)) x.

(** The enums and constants nested in a struct. *)
Definition seed_struct_members (s : StructDecl) (x : Env) : Env :=
  fold_left (seed_nested_const (s_name s)) (s_consts s)
    (fold_left (seed_nested_enum (s_name s)) (s_enums s) x).

Definition seed_struct (x : Env) (s : StructDecl) : Env :=
  seed_struct_members s
    (seed_index (s_decl_index s) (set_declared (add_struct_name (s_name s)) x)).
Definition seed_union (x : Env) (u : UnionDecl) : Env :=
  seed_index (u_decl_index u) (set_declared (add_union_name (u_name u)) x).

Definition seed_interface (x : Env) (i : Interface) : Env :=
  let x := fold_left (seed_nested_enum (i_name i)) (i_enums i) x in
  let x := fold_left (seed_nested_const (i_name i)) (i_consts i) x in
  let x := fold_left (λ x s,
    seed_struct_members s
      (seed_index (s_decl_index s) (set_declared (add_nested_struct (i_name i) (s_name s)) x)))
    (i_structs i) x in
  fold_left (λ x u,
    seed_index (u_decl_index u) (set_declared (add_nested_union (i_name i) (u_name u)) x))
    (i_unions i) x.

Definition SeedFromPrelude (p : Prelude_) (x : Env) : Env :=
  let m := prelude_module p in
  let x := set_owner_by_name (λ _, prelude_owner_by_name p) x in
  let x := fold_left seed_struct (mod_structs m) x in
  let x := fold_left seed_union (mod_unions m) x in
  let x := fold_left (λ x e, seed_enum e x) (mod_enums m) x in
  let x := fold_left seed_interface (mod_interfaces m) x in
  let x := fold_left (λ x c, set_const_by_name <[c_name c := c]> x) (mod_consts m) x in
  fold_left (λ x ft, fold_left (seed_nested_const (ft_name ft)) (ft_consts ft) x)
    (mod_features m) x.

(** One declaration with its attributes. *)
Definition ParseTopLevel (mod_ : Module_) (attrs : list ParsedAttribute) : P Module_ :=
  let '(mkModule name imports es ss us is_ cs fs) := mod_ in
  let! is_interface := AtKeyword (bytes "interface") in
  let! is_union := AtKeyword (bytes "union") in
  let! is_enum := AtKeyword (bytes "enum") in
  let! is_struct := AtKeyword (bytes "struct") in
  let! is_const := AtKeyword (bytes "const") in
  let! is_feature := AtKeyword (bytes "feature") in
  if is_interface then
    let! i := ParseInterface attrs in pret (mkModule name imports es ss us (is_ ++ [i]) cs fs)
  else if is_union then
    let! u := ParseUnionIn [] attrs in pret (mkModule name imports es ss (us ++ [u]) is_ cs fs)
  else if is_enum then
    let! e := ParseEnum attrs in pret (mkModule name imports (es ++ [e]) ss us is_ cs fs)
  else if is_struct then
    let! s := ParseStructIn [] attrs in pret (mkModule name imports es (ss ++ [s]) us is_ cs fs)
  else if is_const then
    let! c := ParseConstIn None attrs in pret (mkModule name imports es ss us is_ (cs ++ [c]) fs)
  else if is_feature then
    let! f := ParseFeature attrs in pret (mkModule name imports es ss us is_ cs (fs ++ [f]))
  else
    let! t := Cur in
    throw (ParseError (bytes "expected 'interface', 'union', 'enum', 'struct', 'const', or 'feature' after attribute list, got '" ++ shown t ++ bytes "'") (tok_line t)).

Definition decl_keywords : list (list Z) :=
  [bytes "interface"; bytes "union"; bytes "enum"; bytes "struct"; bytes "const"; bytes "feature"].

(** One turn of the loop of [ParseBody]. *)
Definition ParseBodyStep (mod_ : Module_) : P (Module_ + Module_) :=
  let! at_end := At kEnd in
  if at_end then pret (inr mod_)
  else
    let! leftover := asks leftover_attrs_ in
    let! bracket := At kLBracket in
    let! t := Cur in
    let keyword := bool_decide (tok_type t = kName) && bool_decide (text t ∈ decl_keywords) in
    let kw s := bool_decide (tok_type t = kName) && bool_decide (text t = bytes s) in
    match leftover with
    | Some attrs =>
        update (set_leftover_attrs (λ _, None)) ;;
        let! m := ParseTopLevel mod_ attrs in pret (inl m)
    | None =>
        if bracket || keyword then
          let! attrs := ParseAttributes in
          let! m := ParseTopLevel mod_ attrs in pret (inl m)
        else if kw "module"%string then
          throw (ParseError (bytes "'module' statement must be the first thing in the file") (tok_line t))
        else if kw "import"%string then
          throw (ParseError (bytes "'import' statements must come before any other declaration") (tok_line t))
        else
          throw (ParseError (bytes "expected 'interface', 'struct', 'union', 'enum', or 'const', got '" ++ shown t ++ bytes "'") (tok_line t))
    end.

(** The snapshots at the start of [ParseBody]. *)
Definition snapshot_locals (x : Env) : Env :=
  let d := declared_ x in
  set_local_enum_values (λ _, enum_values_ x)
    (set_local_names (λ n, n ∪ d_enums d ∪ d_structs d ∪ d_unions d) x).

Definition ParseBody (prelude : option Prelude_) : P Module_ :=
  update snapshot_locals ;;
  update (λ x, match prelude with Some p => SeedFromPrelude p x | None => x end) ;;
  let! m := while_ ParseBodyStep Module_init in
  let! results := asks pending_result_unions_ in
  let m := mkModule (mod_name m) (mod_imports m) (mod_enums m) (mod_structs m)
             (mod_unions m ++ results) (mod_interfaces m) (mod_consts m) (mod_features m) in
  let! t := Cur in
  lift (CheckCompleteTypeAcyclic m (tok_line t)) ;;
  pret m.

(** [Parser(tokens)]: the constructor of [Impl] makes the two scans. *)
Definition Parser_new (tokens : list Token) : Parsed Parser :=
  match CollectEnumValues tokens with
  | inl e => inl e
  | inr enums =>
      inr (mkParser tokens
             (mkEnv [] (CollectDeclaredNames tokens) enums ∅ ∅ ∅ 0 0 [] ∅ ∅ ∅ ∅ None))
  end.

(** [Parse]: one file, no imports resolved. *)
Definition Parse (tokens : list Token) : Parsed Module_ :=
  match Parser_new tokens with
  | inl e => inl e
  | inr p =>
      match (let! h := ParseHeader in
             let! m := ParseBody None in
             pret (mkModule (h_module_name h) (h_imports h) (mod_enums m) (mod_structs m)
                     (mod_unions m) (mod_interfaces m) (mod_consts m) (mod_features m))) p with
      | inr (m, _) => inr m
      | inl e => inl e
      end
  end.
End parser.
