(* ===== verification/EmbedProps.v ===== *)
(** * The check for cycles of complete types

    First what loops have in common that repeatedly take a node without predecessors
    left: the parser's check for cycles ([Embed]) and the order in which the generator
    emits classes ([GenNames]).  Then: [CheckCompleteTypeAcyclic] accepts a module
    exactly when no struct or union holds itself by value, however indirectly. *)
From S2P Require Import Prelude Lexer Ast Scan Embed.

(** ** Topological sorting

    A graph is a list of edges from predecessors to successors, which may repeat. *)

Section topo.
Context {K : Type} `{HK : Countable K}.

#[local] Abbreviation Edge := (K * K)%type.

Definition out (d : K) (E : list Edge) : list K := snd <$> filter (λ e, e.1 = d) E.
(** The edges into [o] from outside [taken]. *)
Definition into (taken : list K) (o : K) (E : list Edge) : list Edge :=
  filter (λ e, e.2 = o ∧ e.1 ∉ taken) E.

Definition count (o : K) (l : list K) : Z := Z.of_nat (length (filter (λ x, x = o) l)).

Lemma count_cons o x l : count o (x :: l) = (if decide (x = o) then 1 else 0) + count o l.
Proof. unfold count. rewrite filter_cons. destruct (decide (x = o)); simpl; lia. Qed.

Lemma count_nonneg o l : 0 <= count o l.
Proof. unfold count. lia. Qed.

Lemma count_pos o l : o ∈ l → 0 < count o l.
Proof.
  unfold count. intros H. destruct (filter (λ x, x = o) l) eqn:E; [|simpl; lia].
  assert (o ∈ filter (λ x, x = o) l) as F by (by apply list_elem_of_filter).
  rewrite E in F. by apply not_elem_of_nil in F.
Qed.

Lemma count_zero o l : o ∉ l → count o l = 0.
Proof.
  unfold count. intros H. destruct (filter (λ x, x = o) l) as [|y l'] eqn:E; [done|].
  assert (y ∈ filter (λ x, x = o) l) as [-> ?]%list_elem_of_filter by (rewrite E; left). done.
Qed.

(** What such a loop keeps: the keys taken and the ready ones are those
    without predecessors left, and every key taken comes after its own. *)
Record sorting (local : gset K) (E : list Edge) (deg : K → Z) (ready taken : list K) : Prop := {
  so_nodup : NoDup (taken ++ ready);
  so_local o : o ∈ taken ++ ready → o ∈ local;
  so_deg o : deg o = Z.of_nat (length (into taken o E));
  so_zero o : o ∈ local → (o ∈ taken ++ ready ↔ deg o = 0);
  so_order i o d : taken !! i = Some o → (d, o) ∈ E → d ∈ take i taken
}.

Lemma into_take taken n o E :
  n ∉ taken →
  Z.of_nat (length (into taken o E)) =
    Z.of_nat (length (into (taken ++ [n]) o E)) + count o (out n E).
Proof.
  intros Hn. unfold into, count, out. induction E as [|[a b] E IH]; [done|].
  rewrite !filter_cons. cbn [fst snd].
  destruct (decide (a = n)) as [->|Ha], (decide (b = o)) as [->|Hb]; cbn [fmap list_fmap fst snd];
    rewrite ?filter_cons, ?(decide_True (P := o = o)), ?(decide_False (P := b = o)) by done.
  - rewrite (decide_True (P := o = o ∧ n ∉ taken)), (decide_False (P := o = o ∧ n ∉ taken ++ [n])) by set_solver.
    simpl. lia.
  - rewrite (decide_False (P := b = o ∧ n ∉ taken)), (decide_False (P := b = o ∧ n ∉ taken ++ [n])) by tauto.
    done.
  - destruct (decide (a ∈ taken)).
    + rewrite (decide_False (P := o = o ∧ a ∉ taken)), (decide_False (P := o = o ∧ a ∉ taken ++ [n])) by set_solver.
      done.
    + rewrite (decide_True (P := o = o ∧ a ∉ taken)), (decide_True (P := o = o ∧ a ∉ taken ++ [n])) by set_solver.
      simpl. lia.
  - rewrite (decide_False (P := b = o ∧ a ∉ taken)), (decide_False (P := b = o ∧ a ∉ taken ++ [n])) by tauto.
    done.
Qed.

Lemma elem_of_out n o E : o ∈ out n E ↔ (n, o) ∈ E.
Proof.
  unfold out. rewrite list_elem_of_fmap. split.
  - intros ([a b] & -> & [Ha Hb]%list_elem_of_filter). by simpl in Ha; subst.
  - intros H. exists (n, o). split; [done|]. by apply list_elem_of_filter.
Qed.

Lemma elem_of_into taken d o E : (d, o) ∈ into taken o E ↔ (d, o) ∈ E ∧ d ∉ taken.
Proof. unfold into. rewrite list_elem_of_filter. simpl. tauto. Qed.

Lemma deg_zero_into local E deg ready taken d o :
  sorting local E deg ready taken → deg o = 0 → (d, o) ∈ E → d ∈ taken.
Proof.
  intros Hs Hz Hd. destruct (decide (d ∈ taken)) as [|Hn]; [done|]. exfalso.
  rewrite (so_deg _ _ _ _ _ Hs) in Hz.
  assert ((d, o) ∈ into taken o E) as Hi by (by apply elem_of_into).
  destruct (into taken o E); [by apply not_elem_of_nil in Hi|simpl in Hz; lia].
Qed.

(** What a step may release is not ready yet. *)
Lemma sorting_release local E deg n ready taken :
  (∀ d o, (d, o) ∈ E → o ∈ local) → sorting local E deg (n :: ready) taken →
  (n ∉ taken) ∧ NoDup ready ∧ ∀ o, o ∈ out n E → (o ∉ ready) ∧ count o (out n E) <= deg o.
Proof.
  intros HE [H1 H2 H3 H4 H5]. apply NoDup_app in H1 as (Ht & Hdis & [Hn Hr]%NoDup_cons).
  assert (n ∉ taken) as Hnt by (intros H'; apply (Hdis n H'); left). split; [done|]. split; [done|].
  intros o Ho. pose proof (into_take taken n o E Hnt) as Hi. rewrite <- H3 in Hi. split; [|lia].
  intros Hor. assert (deg o = 0) by (apply H4; [apply H2|]; set_solver).
  pose proof (count_pos _ _ Ho). lia.
Qed.

(** One step: [n] is taken, and the degrees of its successors decreased. *)
Lemma sorting_step local E deg n ready taken deg' ready' :
  (∀ d o, (d, o) ∈ E → o ∈ local) → sorting local E deg (n :: ready) taken →
  NoDup ready' → (∀ o, deg' o = deg o - count o (out n E)) →
  (∀ o, o ∈ ready' ↔ o ∈ ready ∨ o ∈ out n E ∧ deg o = count o (out n E)) →
  sorting local E deg' ready' (taken ++ [n]).
Proof.
  intros HE Hs R1 R2 R3. pose proof Hs as [H1 H2 H3 H4 H5].
  apply NoDup_app in H1 as (Ht & Hdis & [Hn Hr]%NoDup_cons).
  assert (n ∉ taken) as Hnt by (intros H'; apply (Hdis n H'); left).
  assert (deg n = 0) as Hz by (apply H4; [apply H2|]; set_solver).
  assert (∀ o, deg' o = Z.of_nat (length (into (taken ++ [n]) o E))) as Hdeg.
  { intros o. rewrite R2, H3. pose proof (into_take taken n o E Hnt). lia. }
  assert (∀ o, o ∈ ready' ↔ o ∈ ready ∨ o ∈ out n E ∧ deg' o = 0) as Hin.
  { intros o. rewrite R3, R2. split; intros [?|[? ?]]; auto; right; (split; [done|lia]). }
  assert (∀ o, o ∈ out n E → o ∉ taken) as Hout.
  { intros o Ho Hot. assert (deg o = 0) by (apply H4; [apply H2|]; set_solver).
    apply Hnt, (deg_zero_into _ _ _ _ _ n o Hs); [done|by apply elem_of_out]. }
  assert (n ∉ out n E) as Hnn.
  { intros Ho. by apply Hnt, (deg_zero_into _ _ _ _ _ n n Hs), elem_of_out. }
  split.
  - rewrite <- app_assoc. simpl. apply NoDup_app. split_and!; [done| |constructor; [|done]].
    + intros o Ho [->|[Hor|[Hoo _]]%Hin]%elem_of_cons; [done| |by apply (Hout o)].
      apply (Hdis o Ho). by right.
    + rewrite Hin. intros [?|[? _]]; auto.
  - intros o. rewrite !elem_of_app, list_elem_of_singleton, Hin.
    intros [[? | ->]|[?|[Ho _]]]; [apply H2; set_solver..|]. apply elem_of_out in Ho. by eapply HE.
  - done.
  - intros o Ho. rewrite !elem_of_app, list_elem_of_singleton, Hin.
    specialize (H4 o Ho). rewrite elem_of_app, elem_of_cons in H4.
    pose proof (count_nonneg o (out n E)) as Hc. rewrite R2, H3 in *.
    pose proof (into_take taken n o E Hnt) as Hi. split.
    + intros [[? | ->]|[?|[_ ?]]]; try lia; assert (Z.of_nat (length (into taken o E)) = 0) by tauto; lia.
    + intros Hz'. destruct (decide (o ∈ out n E)) as [|Hno]; [right; right; split; [done|lia]|].
      rewrite (count_zero _ _ Hno) in *. assert (Z.of_nat (length (into taken o E)) = 0) as Hq by lia.
      apply H4 in Hq. tauto.
  - intros i o d Hi Hd. apply lookup_app_Some in Hi as [Hi|[Hi Hn']].
    + rewrite take_app_le by (apply lookup_lt_Some in Hi; lia). by eapply H5.
    + apply list_lookup_singleton_Some in Hn' as [Hl <-].
      rewrite take_app_ge by lia. replace (i - length taken)%nat with 0%nat by lia. simpl.
      rewrite app_nil_r. by apply (deg_zero_into _ _ _ _ _ d n Hs).
Qed.

Lemma taken_length local E deg ready taken :
  sorting local E deg ready taken → (length taken + length ready <= size local)%nat.
Proof.
  intros [H1 H2 _ _ _]. rewrite <- length_app, <- (size_list_to_set (C := gset K)) by done.
  apply subseteq_size. intros o. rewrite elem_of_list_to_set. apply H2.
Qed.

(** ** Cycles *)

(** A key all of whose predecessors in a finite set have predecessors there
    comes after a cycle. *)
Lemma cycle_upstream (R : K → K → Prop) (U : gset K) :
  (∀ x, x ∈ U → ∃ y, y ∈ U ∧ R y x) → ∀ k, k ∈ U → ∃ c, tc R c c ∧ rtc R c k.
Proof.
  intros HU k Hk.
  assert (∀ n (V : gset K) x, (size (U ∖ V) <= n)%nat → x ∈ U → x ∉ V → rtc R x k →
    (∀ v, v ∈ V → tc R x v) → ∃ c, tc R c c ∧ rtc R c k) as H;
    [|by apply (H _ ∅ k (Nat.le_refl _)); [..|intros v []%not_elem_of_empty]].
  induction n as [|n IH]; intros V x Hn Hx HxV Hr HV.
  { assert (size (U ∖ V) ≠ 0%nat); [|lia]. apply size_non_empty_iff.
    intros He. specialize (He x). set_solver. }
  destruct (HU x Hx) as (y & Hy & Hyx).
  destruct (decide (y ∈ {[x]} ∪ V)) as [Hin|Hnin].
  - exists y. split; [|by eapply rtc_l]. apply elem_of_union in Hin as [->%elem_of_singleton|Hv].
    + by apply tc_once.
    + eapply tc_l; [done|]. by apply HV.
  - apply (IH ({[x]} ∪ V) y); [|done..|by eapply rtc_l|].
    + assert (size (U ∖ ({[x]} ∪ V)) < size (U ∖ V))%nat; [|lia]. apply subset_size.
      split; [set_solver|]. intros H. specialize (H x). set_solver.
    + intros v [->%elem_of_singleton|Hv]%elem_of_union; [by apply tc_once|].
      eapply tc_l; [done|]. by apply HV.
Qed.

(** Keys in an order in which each comes after its predecessors lie on no cycle. *)
Lemma order_acyclic (R : K → K → Prop) (l : list K) :
  NoDup l → (∀ i o d, l !! i = Some o → R d o → d ∈ take i l) → ∀ k, k ∈ l → ¬ tc R k k.
Proof.
  intros Hnd Ho k Hk Hc.
  assert (∀ d o, tc R d o → ∀ i, l !! i = Some o → d ∈ take i l) as Hd.
  { induction 1 as [d o H|d e o H _ IH]; intros i Hi; [by eapply Ho|].
    specialize (IH i Hi). apply list_elem_of_lookup in IH as [j Hj].
    apply lookup_take_Some in Hj as [Hj Hlt]. specialize (Ho j e d Hj H).
    apply list_elem_of_lookup in Ho as [j' [Hj' ?]%lookup_take_Some].
    apply list_elem_of_lookup. exists j'. apply lookup_take_Some. split; [done|lia]. }
  apply list_elem_of_lookup in Hk as [i Hi]. specialize (Hd k k Hc i Hi).
  apply list_elem_of_lookup in Hd as [j [Hj Hlt]%lookup_take_Some].
  pose proof (NoDup_lookup l i j k Hnd Hi Hj). lia.
Qed.

(** With nothing ready and no cycle, all is taken. *)
Lemma sorting_complete local E deg taken :
  (∀ d o, (d, o) ∈ E → d ∈ local ∧ o ∈ local) → sorting local E deg [] taken →
  (∀ k, ¬ tc (λ d o, (d, o) ∈ E) k k) → ∀ o, o ∈ local → o ∈ taken.
Proof.
  intros HE [S1 S2 S3 S4 S5] Hac o Ho. rewrite app_nil_r in *.
  destruct (decide (o ∈ taken)) as [|Hn]; [done|exfalso].
  destruct (cycle_upstream (λ d o, (d, o) ∈ E) (local ∖ list_to_set taken)) with o as (c & Hc & _); [| |by apply (Hac c)].
  - intros x [Hx Hxt]%elem_of_difference. rewrite elem_of_list_to_set in Hxt.
    destruct (into taken x E) as [|[d x'] l] eqn:Ei.
    { exfalso. apply Hxt, S4; [done|]. by rewrite S3, Ei. }
    assert ((d, x') ∈ into taken x E) as [[Hx' Hd] Hi]%list_elem_of_filter by (rewrite Ei; left).
    cbn in *. subst x'. exists d. rewrite elem_of_difference, elem_of_list_to_set.
    split; [|done]. split; [by apply (HE d x)|done].
  - rewrite elem_of_difference, elem_of_list_to_set. done.
Qed.
End topo.

Abbreviation Key := (list Z).

(** ** Sets of strings *)

Lemma str_cmp_eq a b : str_cmp a b = Eq → a = b.
Proof.
  revert b. induction a as [|x a IH]; intros [|y b]; simpl; try done.
  destruct (Z.compare_spec x y) as [->| |]; try done. by intros ->%IH.
Qed.

Lemma elem_of_set_insert x s z : z ∈ set_insert x s ↔ z = x ∨ z ∈ s.
Proof.
  induction s as [|y s IH]; simpl; [set_solver|].
  destruct (str_cmp x y) eqn:E; [apply str_cmp_eq in E as ->; set_solver|set_solver|].
  rewrite elem_of_cons, IH. set_solver.
Qed.

Lemma NoDup_set_insert x s : x ∉ s → NoDup s → NoDup (set_insert x s).
Proof.
  intros Hx. induction 1 as [|y s Hy Hs IH]; simpl; [by repeat constructor|].
  apply not_elem_of_cons in Hx as [Hxy Hx].
  destruct (str_cmp x y) eqn:E; [by apply str_cmp_eq in E|by repeat constructor; set_solver|].
  constructor; [|by apply IH]. rewrite elem_of_set_insert. set_solver.
Qed.

Lemma elem_of_set_of l z : z ∈ set_of l ↔ z ∈ l.
Proof. induction l as [|x l IH]; simpl; [done|]. rewrite elem_of_set_insert, IH. set_solver. Qed.

Lemma NoDup_set_of l : NoDup l → NoDup (set_of l).
Proof.
  induction 1 as [|x l Hx _ IH]; simpl; [constructor|]. apply NoDup_set_insert; [|done].
  by rewrite elem_of_set_of.
Qed.

Lemma elem_of_keys_with (p : Z → bool) (m : gmap Key Z) (k : Key) :
  k ∈ keys_with p m ↔ ∃ v, m !! k = Some v ∧ p v = true.
Proof.
  unfold keys_with. rewrite elem_of_set_of, list_elem_of_In, in_map_iff. split.
  - intros ([k' v] & <- & [H1 H2]%List.filter_In). exists v. split; [|done].
    apply elem_of_map_to_list. by apply list_elem_of_In.
  - intros (v & H1 & H2). exists (k, v). split; [done|]. apply List.filter_In. split; [|done].
    by apply list_elem_of_In, elem_of_map_to_list.
Qed.

Lemma NoDup_keys_with (p : Z → bool) (m : gmap Key Z) : NoDup (keys_with p m).
Proof.
  unfold keys_with. apply NoDup_set_of.
  pose proof (NoDup_fst_map_to_list m) as H. revert H.
  generalize (map_to_list m). intros l. induction l as [|[k v] l IH]; simpl; intros H; [constructor|].
  apply NoDup_cons in H as [H1 H2]. destruct (p v); simpl; [|auto].
  constructor; [|auto]. intros Hk. apply H1.
  apply list_elem_of_In, in_map_iff in Hk as (x & <- & [Hx _]%List.filter_In).
  by apply list_elem_of_fmap_2, list_elem_of_In.
Qed.

(** ** The graph *)

#[local] Abbreviation Edge := (Key * Key)%type.

Record represents (local : gset Key) (E : list Edge) (g : Graph) : Prop := {
  rep_out d : default [] (outgoing g !! d) = out d E;
  rep_in o : o ∈ local → indeg g !! o = Some (Z.of_nat (length (into [] o E)));
  rep_dom o : o ∉ local → indeg g !! o = None;
  rep_ends d o : (d, o) ∈ E → d ∈ local ∧ o ∈ local
}.

Lemma represents_init local : represents local [] (mkGraph ∅ (gset_to_gmap 0 local)).
Proof.
  split; simpl.
  - intros d. by rewrite lookup_empty.
  - intros o Ho. by apply lookup_gset_to_gmap_Some.
  - intros o Ho. by apply lookup_gset_to_gmap_None.
  - intros d o []%not_elem_of_nil.
Qed.

Lemma represents_add local E g d o :
  d ∈ local → o ∈ local → represents local E g → represents local (E ++ [(d, o)]) (add_edge d o g).
Proof.
  intros Hd Ho [H1 H2 H3 H4]. split; simpl.
  - intros d'. unfold out in *. rewrite filter_app, fmap_app, <- H1, filter_cons, filter_nil. simpl.
    destruct (decide (d = d')) as [->|Hne].
    + by rewrite lookup_insert_eq.
    + by rewrite lookup_insert_ne, app_nil_r.
  - intros o' Ho'. unfold into in *. rewrite filter_app, length_app, filter_cons, filter_nil. simpl.
    destruct (decide (o = o')) as [->|Hne].
    + rewrite lookup_insert_eq, H2 by done. rewrite decide_True by (split; [done|set_solver]).
      simpl. f_equal. lia.
    + rewrite lookup_insert_ne, H2 by done. rewrite decide_False by tauto. simpl. f_equal. lia.
  - intros o' Ho'. rewrite lookup_insert_ne by congruence. by apply H3.
  - intros d' o'. rewrite elem_of_app, list_elem_of_singleton. intros [?|[= -> ->]]; [by apply H4|done].
Qed.

(** [o] has a field whose type needs [d] complete. *)
Definition needs (nodes : list (Key * list TypeSpec)) (local : gset Key) (d o : Key) : Prop :=
  ∃ ts t deps, (o, ts) ∈ nodes ∧ t ∈ ts ∧ AppendCompleteTypeDeps t = Some deps ∧ d ∈ deps ∧
    d ∈ local.

Lemma add_deps_spec local o deps seen E g :
  o ∈ local → represents local E g →
  ∃ E', represents local E' (add_deps local o deps seen g) ∧
    ∀ a b, (a, b) ∈ E' ↔ (a, b) ∈ E ∨ (b = o ∧ a ∈ deps ∧ a ∈ local ∧ a ∉ seen).
Proof.
  intros Ho. revert seen E g. induction deps as [|d deps IH]; intros seen E g Hr; simpl.
  { exists E. split; [done|]. intros a b. set_solver. }
  destruct (bool_decide_reflect (d ∈ local)) as [Hd|Hd];
    [destruct (bool_decide_reflect (d ∈ seen)) as [Hs|Hs]|]; cbn [andb negb].
  - destruct (IH seen E g Hr) as (E' & Hr' & HE'). exists E'. split; [done|].
    intros a b. rewrite HE'. set_solver.
  - destruct (IH ({[d]} ∪ seen) (E ++ [(d, o)]) (add_edge d o g)) as (E' & Hr' & HE').
    { by apply represents_add. }
    exists E'. split; [done|]. intros a b. rewrite HE', elem_of_app, list_elem_of_singleton.
    destruct (decide (a = d)); set_solver.
  - destruct (IH seen E g Hr) as (E' & Hr' & HE'). exists E'. split; [done|].
    intros a b. rewrite HE'. set_solver.
Qed.

Definition typed (t : TypeSpec) : Prop := is_Some (AppendCompleteTypeDeps t).

Lemma add_fields_spec local o ts E g :
  o ∈ local → represents local E g → Forall typed ts →
  ∃ E' g', add_fields local o ts g = inr g' ∧ represents local E' g' ∧
    ∀ a b, (a, b) ∈ E' ↔ (a, b) ∈ E ∨ needs [(o, ts)] local a b.
Proof.
  intros Ho. revert E g. induction ts as [|t ts IH]; intros E g Hr Ht; simpl.
  { exists E, g. split_and!; [done..|]. intros a b. split; [by left|].
    intros [?|(ts & t & ? & [= -> ->]%list_elem_of_singleton & Ht' & _)]; [done|].
    by apply not_elem_of_nil in Ht'. }
  apply Forall_cons_1 in Ht as [[deps Hd] Ht]. unfold add_owner. rewrite Hd.
  destruct (add_deps_spec local o deps ∅ E g Ho Hr) as (E1 & Hr1 & HE1).
  destruct (IH E1 _ Hr1 Ht) as (E2 & g2 & -> & Hr2 & HE2).
  exists E2, g2. split_and!; [done..|]. intros a b. rewrite HE2, HE1. unfold needs. split.
  - intros [[?|(-> & Ha & Hl & _)]|(ts' & t' & deps' & [= -> ->]%list_elem_of_singleton & ?)].
    + by left.
    + right. exists (t :: ts), t, deps. split_and!; [by apply list_elem_of_singleton|left|done..].
    + right. exists (t :: ts), t', deps'. split; [by apply list_elem_of_singleton|]. set_solver.
  - intros [?|(ts' & t' & deps' & [= -> ->]%list_elem_of_singleton & Ht' & Hd' & Ha & Hl)]; [by auto|].
    apply elem_of_cons in Ht' as [->|Ht'].
    + rewrite Hd in Hd'. injection Hd' as ->. left. right. split_and!; [done..|set_solver].
    + right. exists ts, t', deps'. split_and!; [by apply list_elem_of_singleton|done..].
Qed.

Lemma add_nodes_spec local nodes E g :
  Forall (λ nd, nd.1 ∈ local ∧ Forall typed nd.2) nodes → represents local E g →
  ∃ E' g', add_nodes local nodes g = inr g' ∧ represents local E' g' ∧
    ∀ a b, (a, b) ∈ E' ↔ (a, b) ∈ E ∨ needs nodes local a b.
Proof.
  revert E g. induction nodes as [|[o ts] nodes IH]; intros E g Hn Hr; simpl.
  { exists E, g. split_and!; [done..|]. intros a b. split; [by left|].
    intros [?|(ts & t & ? & []%not_elem_of_nil & _)]. done. }
  apply Forall_cons_1 in Hn as [[Ho Ht] Hn]. cbn [fst snd] in *.
  destruct (add_fields_spec local o ts E g Ho Hr Ht) as (E1 & g1 & -> & Hr1 & HE1).
  destruct (IH E1 g1 Hn Hr1) as (E2 & g2 & -> & Hr2 & HE2).
  exists E2, g2. split_and!; [done..|]. intros a b. rewrite HE2, HE1. unfold needs. split.
  - intros [[?|(ts' & t & deps & H1%list_elem_of_singleton & H2)]|(ts' & t & deps & H1 & H2)].
    + by left.
    + right. exists ts', t, deps. split; [rewrite H1; left|done].
    + right. exists ts', t, deps. split; [by right|done].
  - intros [?|(ts' & t & deps & [H1|H1]%elem_of_cons & H2)]; [by auto| |].
    + left. right. exists ts', t, deps. split; [by apply list_elem_of_singleton|done].
    + right. by exists ts', t, deps.
Qed.

(** ** The sort *)

Definition deg (m : gmap Key Z) (o : Key) : Z := default 0 (m !! o).
Lemma deg_insert m n v o : deg (<[n := v]> m) o = if decide (n = o) then v else deg m o.
Proof.
  unfold deg. destruct (decide (n = o)) as [->|]; [by rewrite lookup_insert_eq|by rewrite lookup_insert_ne].
Qed.

Lemma release_spec succs m ready :
  NoDup ready → (∀ o, o ∈ succs → (o ∉ ready) ∧ count o succs <= deg m o) →
  let r := release succs m ready in
  NoDup (snd r) ∧ (∀ o, deg (fst r) o = deg m o - count o succs) ∧
  (∀ o, o ∈ snd r ↔ o ∈ ready ∨ o ∈ succs ∧ deg m o = count o succs).
Proof.
  revert m ready. induction succs as [|n succs IH]; intros m ready Hnd Hs; cbn [release].
  { split_and!; [done|intros o; unfold count; simpl; lia|set_solver]. }
  destruct (Hs n) as [Hn Hc]; [left|]. rewrite count_cons, decide_True in Hc by done.
  pose proof (count_nonneg n succs) as Hp. fold (deg m n). set (d := deg m n - 1).
  assert (n ∈ succs → deg m n ≠ 1) as Hin by (intros H%count_pos; lia).
  set (ready' := if d =? 0 then _ else _).
  assert (∀ o, o ∈ ready' ↔ o ∈ ready ∨ o = n ∧ deg m n = 1) as Hr.
  { intros o. unfold ready'. destruct (Z.eqb_spec d 0); [rewrite elem_of_set_insert|];
      unfold d in *; split; intros H; intuition lia. }
  destruct (IH (<[n := d]> m) ready') as (IH1 & IH2 & IH3).
  - unfold ready'. destruct (d =? 0); [by apply NoDup_set_insert|done].
  - intros o Ho. rewrite Hr, deg_insert. destruct (Hs o) as [H1 H2]; [by right|].
    rewrite count_cons in H2. destruct (decide (n = o)) as [->|]; [|intuition congruence].
    split; [intuition|unfold d; lia].
  - split_and!; [done| |].
    + intros o. rewrite IH2, deg_insert, count_cons. destruct (decide (n = o)) as [->|]; unfold d; lia.
    + intros o. rewrite IH3, Hr, deg_insert, count_cons, elem_of_cons.
      destruct (decide (n = o)) as [<-|Hne].
      * unfold d. split; [intros [[?|[_ ?]]|[? ?]]|intros [?|[_ ?]]]; try (by auto).
        -- right. split; [by left|]. destruct (decide (n ∈ succs)) as [Hi|Hi].
           ++ by apply Hin in Hi.
           ++ rewrite count_zero by done. lia.
        -- right. split; [by left|lia].
        -- destruct (decide (n ∈ succs)); [right; split; [done|lia]|]. left. right. split; [done|].
           rewrite count_zero in * by done. lia.
      * split; intros H; intuition congruence.
Qed.

Lemma kahn_spec local E fuel outg m ready taken :
  (∀ d, default [] (outg !! d) = out d E) → (∀ d o, (d, o) ∈ E → o ∈ local) →
  sorting local E (deg m) ready taken → (size local < fuel + length taken)%nat →
  ∃ taken' m', kahn fuel outg m ready taken = inr (taken', m') ∧ sorting local E (deg m') [] taken'.
Proof.
  intros Ho HE. revert m ready taken.
  induction fuel as [|fuel IH]; intros m [|n ready] taken Hs Hf; try (by eexists _, _);
    pose proof (taken_length _ _ _ _ _ Hs) as Hl; simpl in Hl; [lia|].
  cbn [kahn]. rewrite Ho. destruct (sorting_release _ _ _ _ _ _ HE Hs) as (_ & Hr & Hrel).
  destruct (release_spec (out n E) m ready Hr Hrel) as (R1 & R2 & R3).
  pose proof (sorting_step _ _ _ _ _ _ _ _ HE Hs R1 R2 R3) as Hs'.
  destruct (release (out n E) m ready) as [m' ready']. apply (IH _ _ _ Hs').
  rewrite length_app. simpl. lia.
Qed.

(** [d] is a struct or union of [m], and [o] one with a member of type [d] by value. *)
Definition embeds (m : Module_) : Key → Key → Prop :=
  needs (module_nodes m) (list_to_set (map fst (module_nodes m))).

Definition typed_module (m : Module_) : Prop :=
  Forall (λ nd, Forall typed nd.2) (module_nodes m).

Lemma embeds_local m d o : embeds m d o →
  d ∈ (list_to_set (map fst (module_nodes m)) : gset Key) ∧
  o ∈ (list_to_set (map fst (module_nodes m)) : gset Key).
Proof.
  intros (ts & t & deps & H1 & H2 & H3 & H4 & H5). split; [done|].
  apply elem_of_list_to_set, list_elem_of_In. change o with (fst (o, ts)). by apply in_map, list_elem_of_In.
Qed.

Lemma tc_local m d o :
  tc (embeds m) d o → o ∈ (list_to_set (map fst (module_nodes m)) : gset Key).
Proof. induction 1 as [d o H|]; [|done]. by apply embeds_local in H as []. Qed.

Lemma CheckCompleteTypeAcyclic_spec m line : typed_module m →
  (CheckCompleteTypeAcyclic m line = inr tt ∧ ∀ k, ¬ tc (embeds m) k k) ∨
  (∃ k text, CheckCompleteTypeAcyclic m line = inl (ParseError (bytes "'" ++ k ++ text) line) ∧
     ∃ c, tc (embeds m) c c ∧ rtc (embeds m) c k).
Proof.
  intros Ht. unfold CheckCompleteTypeAcyclic. set (nodes := module_nodes m).
  set (local := list_to_set (map fst nodes) : gset Key).
  destruct (add_nodes_spec local nodes [] (mkGraph ∅ (gset_to_gmap 0 local)))
    as (E & g & -> & Hrep & HE).
  { apply Forall_forall. intros [k ts] Hk. split.
    - apply elem_of_list_to_set, list_elem_of_In.
      change k with (fst (k, ts)). by apply in_map, list_elem_of_In.
    - unfold typed_module in Ht. rewrite Forall_forall in Ht. by apply (Ht (k, ts)). }
  { apply represents_init. }
  assert (∀ d o, (d, o) ∈ E ↔ embeds m d o) as HEm.
  { intros d o. rewrite HE. split; [intros [[]%not_elem_of_nil|]|]; auto. }
  assert (∀ o, deg (indeg g) o = Z.of_nat (length (into [] o E))) as Hdeg.
  { intros o. unfold deg. destruct (decide (o ∈ local)) as [Ho|Ho].
    - by rewrite (rep_in _ _ _ Hrep).
    - rewrite (rep_dom _ _ _ Hrep) by done. destruct (into [] o E) as [|[d o'] l] eqn:Ei; [done|].
      assert ((d, o') ∈ into [] o E) as Hi by (rewrite Ei; left).
      apply list_elem_of_filter in Hi as [[Hi _] HiE]. simpl in Hi. subst o'.
      by apply (rep_ends _ _ _ Hrep) in HiE as []. }
  assert (sorting local E (deg (indeg g)) (keys_with (Z.eqb 0) (indeg g)) []) as Hs.
  { assert (∀ o, o ∈ keys_with (Z.eqb 0) (indeg g) ↔ o ∈ local ∧ deg (indeg g) o = 0) as Hk.
    { intros o. rewrite elem_of_keys_with. unfold deg. split.
      - intros (v & Hv & Hz). rewrite Hv. simpl. split; [|lia].
        destruct (decide (o ∈ local)); [done|]. by rewrite (rep_dom _ _ _ Hrep) in Hv.
      - intros [Ho Hz]. rewrite (rep_in _ _ _ Hrep) in * by done. eexists. split; [done|].
        simpl in Hz. rewrite Hz. done. }
    split; simpl; [apply NoDup_keys_with|by intros o [? _]%Hk|apply Hdeg| |done].
    intros o Ho. rewrite Hk. tauto. }
  assert (∀ d o, (d, o) ∈ E → o ∈ local) as HEl by (by intros d o []%(rep_ends _ _ _ Hrep)).
  destruct (kahn_spec local E (S (size local)) (outgoing g) (indeg g) _ []
    (rep_out _ _ _ Hrep) HEl Hs) as (taken & m' & -> & [S1 S2 S3 S4 S5]); [simpl; lia|].
  rewrite app_nil_r in *.
  assert (size (list_to_set taken : gset Key) = length taken) as Hsize by by apply size_list_to_set.
  case_bool_decide as Hlen; [left|right].
  - split; [done|]. intros k Hc.
    assert (list_to_set taken = local) as Heq.
    { apply set_subseteq_size_eq; [|lia]. intros o. rewrite elem_of_list_to_set. apply S2. }
    apply (order_acyclic _ taken S1 (λ i o d Hi Hd, S5 i o d Hi (proj2 (HEm d o) Hd)) k); [|done].
    rewrite <- (elem_of_list_to_set (C := gset Key)), Heq.
    by apply tc_local in Hc.
  - eexists _, _. split; [done|].
    assert (∀ o, 0 < deg m' o → ∃ d, (d, o) ∈ E ∧ d ∉ taken) as Hpred.
    { intros o Hp. rewrite S3 in Hp. destruct (into taken o E) as [|[d o'] l] eqn:Ei; [done|].
      assert ((d, o') ∈ into taken o E) as [[Ho' Hd] HiE]%list_elem_of_filter by (rewrite Ei; left).
      simpl in *. subst o'. by exists d. }
    assert (∀ o, o ∈ keys_with (Z.ltb 0) m' ↔ o ∈ local ∖ list_to_set taken) as Hk.
    { intros o. rewrite elem_of_keys_with, elem_of_difference, elem_of_list_to_set. unfold deg in *. split.
      - intros (v & Hv & Hp). destruct (Hpred o) as (d & Hd & _); [rewrite Hv; simpl; lia|].
        assert (o ∈ local) as Ho by (by apply (rep_ends _ _ _ Hrep) in Hd as []).
        split; [done|]. rewrite S4, Hv by done. simpl. lia.
      - intros [Ho Hn]. rewrite S4 in Hn by done. specialize (S3 o).
        destruct (m' !! o) as [v|]; [|done]. exists v. split; [done|]. simpl in *. lia. }
    apply (cycle_upstream (embeds m) (local ∖ list_to_set taken)).
    + intros x Hx. pose proof Hx as (v & Hv & Hp)%Hk%elem_of_keys_with.
      destruct (Hpred x) as (d & Hd & Hdt); [unfold deg; rewrite Hv; simpl; lia|].
      exists d. split; [|by apply HEm]. apply elem_of_difference. rewrite elem_of_list_to_set.
      split; [by apply (rep_ends _ _ _ Hrep) in Hd as []|done].
    + rewrite <- Hk. destruct (keys_with (Z.ltb 0) m') as [|k ks] eqn:Ek; [|left].
      exfalso. apply Hlen. rewrite <- Hsize. f_equal. apply set_eq. intros o.
      rewrite elem_of_list_to_set. split; [apply S2|]. intros Ho.
      destruct (decide (o ∈ taken)) as [|Hn]; [done|].
      assert (o ∈ @nil Key) as []%not_elem_of_nil. apply Hk, elem_of_difference.
      by rewrite elem_of_list_to_set.
Qed.

Lemma accepted_acyclic m line :
  typed_module m → CheckCompleteTypeAcyclic m line = inr tt → ∀ k, ¬ tc (embeds m) k k.
Proof.
  intros Hm E. by destruct (CheckCompleteTypeAcyclic_spec m line Hm) as [[_ ?]|(k & text & E' & _)];
    [|rewrite E in E'].
Qed.

(** ** Who holds whom, without the code's own collection *)

(** The C++ name of a struct or union: nested in an interface it has the interface's name
    in front. *)
Definition class_name (container name : Key) : Key :=
  if decide (container = []) then name else container ++ bytes "_" ++ name.

(** A value of the type [t] has a value of this module's class [d] in it: a struct or union
    that is not optional, or the elements of an array of fixed size. *)
Inductive by_value (d : Key) : TypeSpec → Prop :=
  | by_value_class t : t_kind t = kStructRef ∨ t_kind t = kUnionRef → nullable t = false →
      owner_namespace t = [] → d = class_name (owner_container t) (t_name t) → by_value d t
  | by_value_array t e : t_kind t = kArray → fixed_array_size t ≠ 0 → element t = Some e →
      by_value d e → by_value d t.

(** The structs and unions of a module and of its interfaces, with the types of their members. *)
Definition struct_of (m : Module_) (s : StructDecl) : Prop :=
  s ∈ mod_structs m ∨ ∃ i, i ∈ mod_interfaces m ∧ s ∈ i_structs i.
Definition union_of (m : Module_) (u : UnionDecl) : Prop :=
  u ∈ mod_unions m ∨ ∃ i, i ∈ mod_interfaces m ∧ u ∈ i_unions i.
Definition is_class (m : Module_) (k : Key) (members : list TypeSpec) : Prop :=
  (∃ s, struct_of m s ∧ k = class_name (s_owner_container s) (s_name s) ∧ members = map f_type (s_fields s)) ∨
  (∃ u, union_of m u ∧ k = class_name (u_owner_container u) (u_name u) ∧ members = map uf_type (u_fields u)).

(** The class [o] has a member that has a value of the class [d] in it. *)
Definition holds (m : Module_) (d o : Key) : Prop :=
  ∃ members t others, is_class m o members ∧ t ∈ members ∧ by_value d t ∧ is_class m d others.

Lemma class_name_key container name : EmbedDeclKey container name = class_name container name.
Proof. unfold EmbedDeclKey, class_name. by case_bool_decide; case_decide. Qed.

(** How deep arrays go. *)
Fixpoint array_depth (t : TypeSpec) : nat :=
  S match element t with Some e => array_depth e | None => 0 end.

Lemma by_value_deps d t : by_value d t ↔ ∃ ds, AppendCompleteTypeDeps t = Some ds ∧ d ∈ ds.
Proof.
  split.
  - induction 1 as [t Hk Hn Ho ->|t e Hk Hf He _ (ds & E & Hd)].
    + exists [EmbedDeclKey (owner_container t) (t_name t)]. rewrite class_name_key. split; [|by left].
      destruct t as [k nm el ke nl on oc fs]. cbn in *. subst. destruct Hk as [->| ->]; cbn; by rewrite class_name_key.
    + exists ds. split; [|done]. destruct t as [k nm el ke nl on oc fs]. cbn in *. subst.
      by rewrite (proj2 (Z.eqb_neq _ _) Hf).
  - intros (ds & E & Hd). remember (array_depth t) as n eqn:Hn. revert t ds E Hd Hn.
    induction n as [|n IH]; intros [k nm el ke nl on oc fs] ds E Hd Hn; [done|].
    destruct k; cbn in E; try (injection E as <-; by apply not_elem_of_nil in Hd).
    + destruct nl; [injection E as <-; by apply not_elem_of_nil in Hd|].
      case_bool_decide as Hon; cbn in E; injection E as <-; [|by apply not_elem_of_nil in Hd].
      apply list_elem_of_singleton in Hd as ->. apply by_value_class; cbn; auto using class_name_key.
    + destruct nl; [injection E as <-; by apply not_elem_of_nil in Hd|].
      case_bool_decide as Hon; cbn in E; injection E as <-; [|by apply not_elem_of_nil in Hd].
      apply list_elem_of_singleton in Hd as ->. apply by_value_class; cbn; auto using class_name_key.
    + destruct (Z.eqb_spec fs 0) as [|Hf]; [injection E as <-; by apply not_elem_of_nil in Hd|].
      destruct el as [e|]; [|done]. apply (by_value_array d _ e); [done..|]. apply (IH e ds E Hd). cbn in Hn. congruence.
Qed.

Lemma is_class_nodes m k ts : is_class m k ts ↔ (k, ts) ∈ module_nodes m.
Proof.
  unfold module_nodes. rewrite !elem_of_app, !list_elem_of_In, !in_map_iff, in_flat_map.
  setoid_rewrite in_app_iff. setoid_rewrite in_map_iff. unfold is_class, struct_of, union_of, struct_node, union_node.
  setoid_rewrite <- list_elem_of_In. split.
  - intros [(s & [Hs|(i & Hi & Hs)] & -> & ->)|(u & [Hu|(i & Hi & Hu)] & -> & ->)].
    + left. exists s. by rewrite class_name_key.
    + right; right. exists i. split; [done|]. left. exists s. by rewrite class_name_key.
    + right; left. exists u. by rewrite class_name_key.
    + right; right. exists i. split; [done|]. right. exists u. by rewrite class_name_key.
  - intros [(s & [= <- <-] & Hs)|[(u & [= <- <-] & Hu)|(i & Hi & [(s & [= <- <-] & Hs)|(u & [= <- <-] & Hu)])]];
      rewrite class_name_key; [left; exists s|right; exists u|left; exists s|right; exists u]; eauto 10.
Qed.

Lemma elem_of_firsts {A B} (a : A) (l : list (A * B)) : a ∈ map fst l ↔ ∃ b, (a, b) ∈ l.
Proof.
  rewrite list_elem_of_In, in_map_iff. split.
  - intros ([a' b] & <- & Hin). exists b. by apply list_elem_of_In.
  - intros [b Hin]. exists (a, b). split; [done|]. by apply list_elem_of_In.
Qed.

Lemma holds_embeds m d o : holds m d o ↔ embeds m d o.
Proof.
  unfold holds, embeds, needs. setoid_rewrite is_class_nodes. setoid_rewrite by_value_deps.
  setoid_rewrite elem_of_list_to_set. setoid_rewrite elem_of_firsts. split.
  - intros (ts & t & ts' & H1 & H2 & (ds & H3 & H4) & H5). exists ts, t, ds. split_and!; [done..|by exists ts'].
  - intros (ts & t & ds & H1 & H2 & H3 & H4 & ts' & H5). exists ts, t, ts'. split_and!; [done..|by exists ds|done].
Qed.

Lemma tc_holds m d o : tc (holds m) d o ↔ tc (embeds m) d o.
Proof.
  split; (induction 1 as [x y H|x y z H _ IH]; [apply tc_once|eapply tc_l; [|exact IH]]; by apply holds_embeds).
Qed.
Lemma rtc_holds m d o : rtc (embeds m) d o → rtc (holds m) d o.
Proof. induction 1 as [x|x y z H _ IH]; [done|]. eapply rtc_l; [|exact IH]. by apply holds_embeds. Qed.


(** A module in which [A] holds two [B]s, [B] an [A], and [C] a [B]. *)
Definition demo_struct (n : Key) (t : TypeSpec) : StructDecl :=
  mkStructDecl n [mkStructField t (bytes "x") DefaultValue_init 0 0 false EnableIf_init] [] [] 0
    0 [] false EnableIf_init.
Definition demo_ref (n : Key) : TypeSpec := mkTypeSpec kStructRef n None None false [] [] 0.
Definition demo_module : Module_ :=
  mkModule [] [] []
    [demo_struct (bytes "A") (mkTypeSpec kArray [] (Some (demo_ref (bytes "B"))) None false [] [] 2);
     demo_struct (bytes "B") (demo_ref (bytes "A")); demo_struct (bytes "C") (demo_ref (bytes "B"))]
    [] [] [] [].

