(* ===== verification/ParseSafe.v ===== *)
(** * Safety and termination of the parser

    A program logic for the parser monad in the style of a weakest
    precondition, and with it: from a token vector that ends with [kEnd], as
    [Tokenize] returns it, every function of the parser ends, reads no token
    past the end, and makes only types whose elements and keys are there. *)
From S2P Require Import Prelude Lexer Ast Scan Parser ParseDecl Embed EmbedProps.
From Stdlib Require Import Sorted Ascii SpecFloat.

(** * Tags of union fields

    What [assign_tags] of [ParseUnion] computes when tagged and untagged fields
    are mixed: the untagged fields get, in order, the smallest numbers that no
    tagged field has. *)

Definition implicit_tags (fs : list UnionField) : list Z :=
  map uf_tag (List.filter (λ f, negb (uf_has_explicit_tag f)) fs).

Record tags_ok (fs : list UnionField) : Prop := {
  tags_sorted : StronglySorted Z.lt (implicit_tags fs);
  tags_disjoint t : t ∈ implicit_tags fs → t ∉ explicit_tags fs;
  tags_no_gap t n : t ∈ implicit_tags fs → 0 <= n < t →
    n ∈ explicit_tags fs ∨ n ∈ implicit_tags fs
}.

(** Only the tag of an untagged field differs. *)
Definition retagged (f f' : UnionField) : Prop :=
  f' = set_tag (uf_tag f') f ∧ (uf_has_explicit_tag f = true → f' = f).

Lemma full_size (X : gset Z) k : 0 <= k → (∀ n, 0 <= n < k → n ∈ X) → k <= Z.of_nat (size X).
Proof.
  intros Hk HX. assert (list_to_set (seqZ 0 k) ⊆ X) as Hs.
  { intros n. rewrite elem_of_list_to_set, elem_of_seqZ. intros ?. apply HX. lia. }
  apply subseteq_size in Hs. rewrite size_list_to_set in Hs by apply NoDup_seqZ.
  rewrite length_seqZ in Hs. lia.
Qed.

Lemma next_unused_spec fuel used next :
  0 <= next → (∀ n, 0 <= n < next → n ∈ used) → Z.of_nat (size used) < 2 ^ 32 - 1 →
  Z.of_nat (size used) < Z.of_nat fuel + next →
  ∃ t, next_unused fuel used next = inr t ∧ next <= t ∧ (t ∉ used) ∧
    (∀ n, 0 <= n < t → n ∈ used).
Proof.
  revert next. induction fuel as [|fuel IH]; intros next H0 Hfull Hs Hf.
  { pose proof (full_size used next H0 Hfull). lia. }
  cbn [next_unused]. case_bool_decide as Hin; [|by exists next].
  assert (∀ n, 0 <= n < next + 1 → n ∈ used) as Hfull'.
  { intros n Hn. destruct (decide (n = next)) as [->|]; [done|]. apply Hfull. lia. }
  pose proof (full_size used (next + 1) ltac:(lia) Hfull').
  rewrite u32_small by lia. destruct (IH (next + 1)) as (t & -> & ? & ? & ?); [lia|done|done|lia|].
  exists t. split_and!; [done|lia|done..].
Qed.

Lemma retagged_explicit fs fs' : Forall2 retagged fs fs' → explicit_tags fs' = explicit_tags fs.
Proof.
  unfold explicit_tags. intros H. f_equal. induction H as [|f f' fs fs' [E1 E2] _ IH]; [done|].
  simpl. replace (uf_has_explicit_tag f') with (uf_has_explicit_tag f) by (by rewrite E1).
  destruct (uf_has_explicit_tag f) eqn:E; [|done]. simpl. rewrite IH. by rewrite E2.
Qed.

Lemma fill_tags_spec fs used next :
  0 <= next → (∀ n, 0 <= n < next → n ∈ used) →
  Z.of_nat (size used + length fs) < 2 ^ 32 - 1 →
  ∃ fs', fill_tags fs used next = inr fs' ∧ Forall2 retagged fs fs' ∧
    StronglySorted Z.lt (implicit_tags fs') ∧
    (∀ t, t ∈ implicit_tags fs' → next <= t ∧ t ∉ used) ∧
    (∀ t n, t ∈ implicit_tags fs' → 0 <= n < t → n ∈ used ∨ n ∈ implicit_tags fs').
Proof.
  revert used next. induction fs as [|f fs IH]; intros used next H0 Hfull Hs.
  { exists []. split_and!; try done; [constructor|..]; intros ? * []%not_elem_of_nil. }
  cbn [length fill_tags] in *. destruct (uf_has_explicit_tag f) eqn:Hf.
  - destruct (IH used next) as (fs' & -> & H1 & H2 & H3 & H4); [done..|lia|].
    exists (f :: fs'). unfold implicit_tags in *. simpl. rewrite Hf. simpl. split_and!; try done.
    constructor; [|done]. split; [by destruct f|done].
  - destruct (next_unused_spec (S (size used)) used next) as (t & -> & Ht & Hn & Hlt);
      [lia|done|lia|lia|].
    pose proof (full_size used t ltac:(lia) Hlt). rewrite u32_small by lia.
    destruct (IH ({[t]} ∪ used) (t + 1)) as (fs' & -> & H1 & H2 & H3 & H4).
    + lia.
    + intros n Hn'. destruct (decide (n = t)) as [->|]; [set_solver|].
      apply elem_of_union_r, Hlt. lia.
    + rewrite size_union, size_singleton by set_solver. lia.
    + assert (implicit_tags (set_tag t f :: fs') = t :: implicit_tags fs') as E.
      { unfold implicit_tags. simpl. by rewrite Hf. }
      exists (set_tag t f :: fs'). rewrite E. split_and!; [done| | |..].
      * constructor; [|done]. split; [done|congruence].
      * constructor; [done|]. apply Forall_forall. intros x Hx%H3. lia.
      * intros x [->|Hx]%elem_of_cons; [done|]. apply H3 in Hx as [? Hx]. split; [lia|set_solver].
      * intros x n [->|Hx]%elem_of_cons Hnx; [left; by apply Hlt|].
        rewrite elem_of_cons. destruct (H4 x n Hx Hnx) as [Hu|]; [|by auto].
        apply elem_of_union in Hu as [->%elem_of_singleton|]; auto.
Qed.

(** Untagged fields alone keep the numbers they were given. *)
Definition numbered (fs : list UnionField) (next : Z) : Prop :=
  0 <= next ∧ implicit_tags fs = seqZ 0 next.

Lemma sorted_seqZ m n : 0 <= n → StronglySorted Z.lt (seqZ m n).
Proof.
  intros Hn. revert m. pattern n. apply natlike_ind; [constructor| |done].
  clear n Hn. intros n Hn IH m. rewrite seqZ_cons by lia. rewrite Z.pred_succ.
  constructor; [apply IH|]. apply Forall_forall. intros x [? ?]%elem_of_seqZ. lia.
Qed.

Lemma numbered_ok fs next :
  numbered fs next → explicit_tags fs = ∅ ∨ implicit_tags fs = [] → tags_ok fs.
Proof.
  intros [H0 E] He. split; rewrite ?E.
  - by apply sorted_seqZ.
  - intros t Ht. destruct He as [->|He]; [set_solver|]. rewrite E in He. rewrite He in Ht.
    by apply not_elem_of_nil in Ht.
  - intros t n [? ?]%elem_of_seqZ Hn. right. apply elem_of_seqZ. lia.
Qed.

Lemma size_explicit fs : (size (explicit_tags fs) <= length fs)%nat.
Proof.
  unfold explicit_tags. induction fs as [|f fs IH]; simpl; [done|].
  destruct (uf_has_explicit_tag f); simpl; [|lia].
  destruct (decide (uf_tag f ∈ (list_to_set (map uf_tag (List.filter uf_has_explicit_tag fs)) : gset Z))).
  - replace ({[uf_tag f]} ∪ _) with (list_to_set (map uf_tag (List.filter uf_has_explicit_tag fs)) : gset Z)
      by set_solver. lia.
  - rewrite size_union, size_singleton by set_solver. lia.
Qed.

Lemma filter_none {A} (p : A → bool) l : existsb p l = false → List.filter p l = [].
Proof. induction l as [|x l IH]; simpl; [done|].
  intros [-> ?]%orb_false_iff. auto. Qed.

Lemma retagged_refl fs : Forall2 retagged fs fs.
Proof. induction fs as [|f fs IH]; constructor; [|done]. split; [by destruct f|done]. Qed.

Lemma assign_tags_spec fs next :
  numbered fs next → Z.of_nat (length fs) < 2 ^ 31 →
  ∃ fs', assign_tags fs = inr fs' ∧ Forall2 retagged fs fs' ∧ tags_ok fs'.
Proof.
  intros Hn Hl. unfold assign_tags. destruct (_ && _) eqn:Hm.
  - pose proof (size_explicit fs).
    destruct (fill_tags_spec fs (explicit_tags fs) 0) as (fs' & E & H1 & H2 & H3 & H4); [lia..|].
    exists fs'. split_and!; [done|done|]. pose proof (retagged_explicit _ _ H1) as Ee.
    split; rewrite ?Ee; [done|intros t Ht; by apply H3|done].
  - exists fs. split_and!; [done|apply retagged_refl|]. apply (numbered_ok _ next); [done|].
    unfold explicit_tags, implicit_tags.
    apply andb_false_iff in Hm as [Hm%filter_none|Hm%filter_none]; rewrite Hm; auto.
Qed.

(** ** The logic *)

(** The exceptions that can escape: neither lack of fuel, nor an access outside
    a vector or through a null pointer, nor a conversion of no digits. *)
Definition benign (e : ParseException) : Prop :=
  match e with NoFuel | BadAccess | StdInvalidArgument => False | _ => True end.

Definition pwp {A} (m : P A) (Q : A → Parser → Prop) (p : Parser) : Prop :=
  match m p with inr (a, p') => Q a p' | inl e => benign e end.

Lemma pwp_ret {A} (a : A) Q p : Q a p → pwp (pret a) Q p.
Proof. done. Qed.

Lemma pwp_bind {A B} (m : P A) (k : A → P B) Q p :
  pwp m (λ a p', pwp (k a) Q p') p → pwp (pbind m k) Q p.
Proof. unfold pwp, pbind. by destruct (m p) as [|[]]. Qed.

Lemma pwp_mono {A} (m : P A) (Q Q' : A → Parser → Prop) p :
  pwp m Q p → (∀ a p', Q a p' → Q' a p') → pwp m Q' p.
Proof. unfold pwp. destruct (m p) as [|[]]; auto. Qed.

Lemma pwp_throw {A} e (Q : A → Parser → Prop) p : benign e → pwp (throw e) Q p.
Proof. done. Qed.

Definition fine {A} (R : A → Prop) (x : Parsed A) : Prop :=
  match x with inl e => benign e | inr a => R a end.

Lemma pwp_lift {A} (x : Parsed A) (R : A → Prop) (Q : A → Parser → Prop) p :
  fine R x → (∀ a, R a → Q a p) → pwp (lift x) Q p.
Proof. unfold pwp, lift, fine. destruct x; auto. Qed.

Lemma pwp_asks {A} (f : Env → A) (Q : A → Parser → Prop) p : Q (f (env p)) p → pwp (asks f) Q p.
Proof. done. Qed.

Lemma pwp_update f (Q : unit → Parser → Prop) p :
  Q tt (mkParser (rest p) (f (env p))) → pwp (update f) Q p.
Proof. done. Qed.

(** ** Well-formed modules *)

(** Array elements, map keys and values are there, and theirs too. *)
Fixpoint type_wf (t : TypeSpec) : bool :=
  match t_kind t with
  | kArray => match element t with Some e => type_wf e | None => false end
  | kMap =>
      match element t with Some e => type_wf e | None => false end
      && match key t with Some k => type_wf k | None => false end
  | _ => true
  end.

Definition wf_type (t : TypeSpec) : Prop := type_wf t = true.
Definition wf_const (c : ConstDecl) : Prop := wf_type (c_type c).
Definition wf_param (p : Param) : Prop := wf_type (p_type p).
Definition wf_field (f : StructField) : Prop := wf_type (f_type f).
Definition wf_ufield (f : UnionField) : Prop := wf_type (uf_type f).

Definition int32 (v : Z) : Prop := - 2 ^ 31 <= v < 2 ^ 31.

Record enum_ok (e : EnumDecl) : Prop := {
  eo_values : Forall (λ v, int32 (v_value v)) (e_values e);
  eo_default : (count_if v_is_default (e_values e) <= 1)%nat
}.

Record struct_ok (s : StructDecl) : Prop := {
  so_fields : Forall wf_field (s_fields s);
  so_consts : Forall wf_const (s_consts s);
  so_enums : Forall enum_ok (s_enums s);
  so_version : s_version s = max_version f_min_version (s_fields s)
}.

Record union_ok (u : UnionDecl) : Prop := {
  uo_fields : Forall wf_ufield (u_fields u);
  uo_tags : tags_ok (u_fields u);
  uo_nonempty : u_fields u ≠ [];
  uo_default : (count_if uf_is_default (u_fields u) <= 1)%nat;
  uo_version : u_version u = max_version uf_min_version (u_fields u)
}.

Record method_ok (m : Method) : Prop := {
  mo_params : Forall wf_param (m_params m);
  mo_response : Forall wf_param (response_params m);
  mo_success : wf_type (result_success m);
  mo_error : wf_type (result_error m);
  mo_result : is_result_response m = true → ∃ p, response_params m = [p];
  mo_sync : is_sync m = true → has_response m = true;
  mo_ordinal : m_has_explicit_ordinal m = true → 0 <= m_ordinal m < 4294967294
}.

(** Either every method has an explicit ordinal, or the ordinals are the
    positions. *)
Definition ordinals_ok (ms : list Method) : Prop :=
  Forall (λ m, m_has_explicit_ordinal m = true) ms ∨
  Forall (λ m, m_has_explicit_ordinal m = false) ms ∧
  map m_ordinal ms = seqZ 0 (Z.of_nat (length ms)).

Record interface_ok (i : Interface) : Prop := {
  io_methods : Forall method_ok (i_methods i);
  io_ordinals : ordinals_ok (i_methods i);
  io_length : Z.of_nat (length (i_methods i)) < 2 ^ 31;
  io_enums : Forall enum_ok (i_enums i);
  io_consts : Forall wf_const (i_consts i);
  io_structs : Forall struct_ok (i_structs i);
  io_unions : Forall union_ok (i_unions i);
  io_version : i_version i = max_version m_min_version (i_methods i)
}.

Definition wf_feature (f : FeatureDecl) : Prop := Forall wf_const (ft_consts f).

Record module_ok (m : Module_) : Prop := {
  mdo_enums : Forall enum_ok (mod_enums m);
  mdo_structs : Forall struct_ok (mod_structs m);
  mdo_unions : Forall union_ok (mod_unions m);
  mdo_interfaces : Forall interface_ok (mod_interfaces m);
  mdo_consts : Forall wf_const (mod_consts m);
  mdo_features : Forall wf_feature (mod_features m)
}.

(** Types with their elements have dependencies. *)
Lemma wf_typed : ∀ t, wf_type t → typed t.
Proof.
  fix IH 1. intros [k n e ky nu ns c sz]. unfold wf_type, typed. simpl.
  destruct k; simpl; intros H; try (by eexists); try (by repeat case_match; eexists).
  destruct (sz =? 0); [by eexists|]. destruct e as [e|]; [|done]. by apply IH.
Qed.

(** ** The invariant of the parser *)

Definition number_ok (t : Token) : Prop :=
  match tok_type t with
  | kNumber | kHexNumber => text t ≠ []
  | kFloatNumber => fine (λ _, True) (stod true (text t)) ∧ fine (λ _, True) (stod false (text t))
  | _ => True
  end.

Record good (p : Parser) : Prop := {
  good_ends : ∃ l t, rest p = l ++ [t] ∧ tok_type t = kEnd;
  good_numbers : Forall number_ok (rest p);
  good_unions : Forall union_ok (pending_result_unions_ (env p));
  good_length : Z.of_nat (length (rest p)) < 2 ^ 31
}.

Lemma good_cons p : good p → ∃ t r, rest p = t :: r ∧ number_ok t.
Proof.
  intros [(l & t & E & _) Hn _ _]. destruct l as [|t' l]; simpl in E; eauto.
  - exists t, []. rewrite E in Hn. by apply Forall_cons_1 in Hn as [? _].
  - exists t', (l ++ [t]). rewrite E in Hn. by apply Forall_cons_1 in Hn as [? _].
Qed.

Lemma number_text t : number_ok t → tok_type t = kNumber ∨ tok_type t = kHexNumber → text t ≠ [].
Proof. unfold number_ok. by intros H [E|E]; rewrite E in H. Qed.

(** A token that is not the end can be taken. *)
Lemma good_advance p t r :
  good p → rest p = t :: r → tok_type t ≠ kEnd → good (mkParser r (env p)) ∧ r ≠ [].
Proof.
  intros [(l & t' & E & Hk) Hn Hu Hl] E' Ht. rewrite E' in Hl. rewrite E in E'. destruct l as [|t0 l]; simpl in E'.
  { by injection E' as -> ->. }
  injection E' as -> <-. split; [|by destruct l].
  split; cbn [rest env length] in *; [by exists l, t'| |done|lia]. rewrite E in Hn. by apply Forall_cons_1 in Hn as [_ ?].
Qed.

Lemma pwp_Cur (Q : Token → Parser → Prop) p :
  good p → (∀ t r, rest p = t :: r → number_ok t → Q t p) → pwp Cur Q p.
Proof.
  intros Hg HQ. destruct (good_cons p Hg) as (t & r & E & Hn).
  unfold pwp, Cur. rewrite E. eauto.
Qed.

Lemma pwp_Cur_known (Q : Token → Parser → Prop) p t r :
  rest p = t :: r → Q t p → pwp Cur Q p.
Proof. intros E HQ. unfold pwp, Cur. by rewrite E. Qed.

Lemma pwp_Advance (Q : unit → Parser → Prop) p t r :
  good p → rest p = t :: r → tok_type t ≠ kEnd →
  (good (mkParser r (env p)) → length (rest p) = S (length r) → Q tt (mkParser r (env p))) →
  pwp Advance Q p.
Proof.
  intros Hg E Ht HQ. destruct (good_advance p t r Hg E Ht) as [Hg' Hr].
  specialize (HQ Hg'). rewrite E in HQ. unfold pwp, Advance. rewrite E.
  destruct r; [done|by apply HQ].
Qed.

(** [m] takes at least [k] tokens, keeps the invariant, and its result
    satisfies [R]. *)
Definition step {A} (k : nat) (R : A → Prop) (m : P A) : Prop :=
  ∀ p, good p → pwp m (λ a p', good p' ∧ (length (rest p') + k <= length (rest p))%nat ∧ R a) p.

Lemma pwp_step {A} k (R : A → Prop) (m : P A) (Q : A → Parser → Prop) p :
  step k R m → good p →
  (∀ a p', good p' → (length (rest p') + k <= length (rest p))%nat → R a → Q a p') →
  pwp m Q p.
Proof. intros Hs Hg HQ. eapply pwp_mono; [by apply Hs|]. intros a p' (? & ? & ?). auto. Qed.

Definition any {A} (_ : A) : Prop := True.

(** At the end [Advance] stays. *)
Lemma Advance_step : step 0 any Advance.
Proof.
  intros p Hg. pose proof (good_cons p Hg) as (t & r & E & _).
  unfold pwp, Advance. rewrite E. destruct r as [|t' r].
  { split_and!; [done|rewrite E; simpl; lia|done]. }
  destruct Hg as [(l & e & E' & He) Hn Hu Hlen]. split_and!; [|simpl; lia|done].
  rewrite E in E', Hn, Hlen. destruct l as [|? l]; [done|]. injection E' as -> E'.
  split; cbn [rest env length] in *; [by rewrite E'; eauto| |done|lia]. by apply Forall_cons_1 in Hn as [_ ?].
Qed.

Lemma pwp_peek n (Q : TokenType → Parser → Prop) p : (∀ ty, Q ty p) → pwp (peek n) Q p.
Proof. unfold pwp, peek. auto. Qed.

Create HintDb step.
#[export] Hint Resolve number_text or_introl or_intror : step.

(** The token at hand is not the end: some test on its type succeeded. *)
Ltac not_end t :=
  let H := fresh in
  intros H; rewrite ?H in *;
  repeat match goal with
  | E : context [bool_decide (tok_type t = ?k)] |- _ =>
      rewrite (bool_decide_false (tok_type t = k)) in E by (rewrite H; discriminate)
  | E : context [bool_decide (kEnd = ?k)] |- _ =>
      rewrite (bool_decide_false (kEnd = k)) in E by discriminate
  end; rewrite ?andb_false_r, ?orb_false_r in *; simpl in *; congruence.

(** Takes one step of a goal [pwp m Q p]. *)
Ltac pstep1 :=
  lazymatch goal with
  | |- pwp (pbind _ _) _ _ => apply pwp_bind
  | |- pwp (pret _) _ _ => apply pwp_ret
  | |- pwp (throw _) _ _ => apply pwp_throw; exact I
  | |- pwp (lift _) _ _ => eapply pwp_lift; [solve [eauto with step]|intros ? ?]
  | |- pwp (asks _) _ _ => apply pwp_asks
  | |- pwp (peek _) _ _ => apply pwp_peek; intros ?
  | |- pwp (fail_here _) _ _ => unfold fail_here
  | E : rest ?p = _ :: _ |- pwp Cur _ ?p => apply (pwp_Cur_known _ _ _ _ E)
  | H : good ?p |- pwp Cur _ ?p => apply pwp_Cur; [exact H|intros ? ? ? ?]
  | |- pwp (At _) _ _ => unfold At
  | |- pwp (AtKeyword _) _ _ => unfold AtKeyword
  | H : good ?p, E : rest ?p = ?t :: _ |- pwp Advance _ ?p =>
      eapply (pwp_Advance _ p); [exact H|exact E|not_end t|intros ? ?]
  | |- pwp (if bool_decide ?P then _ else _) _ _ => destruct (bool_decide_reflect P)
  | |- pwp (if bool_decide ?P && _ then _ else _) _ _ =>
      destruct (bool_decide_reflect P); cbn [andb]
  | |- pwp (if ?b then _ else _) _ _ => destruct b eqn:?
  | |- pwp (match ?x with _ => _ end) _ _ => first [is_var x; destruct x | destruct x eqn:?]
  | H : good ?p |- pwp _ _ ?p =>
      eapply pwp_step; [solve [eauto with step]|exact H|intros ? ? ? ? ?; cbn beta in *; destruct_and?]
  end; cbn beta.

(** The end of a branch. *)
Ltac pend :=
  repeat match goal with E : rest ?p = _ :: _ |- _ =>
    lazymatch goal with
    | _ : length (rest p) = S _ |- _ => fail
    | _ => pose proof (f_equal length E) as ?; cbn [length] in *
    end end;
  cbn beta in *; cbn [rest env] in *; destruct_and?; split_and?; try done; try lia; eauto with step.
Ltac psteps := repeat pstep1; try solve [pend].

Lemma Expect_step ty what :
  bool_decide (ty = kEnd) = false →
  step 1 (λ t, tok_type t = ty ∧ number_ok t) (Expect ty what).
Proof.
  intros Hty%bool_decide_eq_false p Hg. unfold Expect. psteps.
Qed.
#[export] Hint Resolve Expect_step : step.
#[export] Hint Extern 1 (bool_decide _ = false) => reflexivity : step.

Lemma ExpectKeyword_step kw : step 1 any (ExpectKeyword kw).
Proof. intros p Hg. unfold ExpectKeyword. psteps. Qed.
#[export] Hint Resolve ExpectKeyword_step : step.

(** A loop every turn of which takes a token; the invariant may speak of the
    number of tokens left. *)
Lemma while_step_len {A B} (I : A → nat → Prop) (R : B → Prop) (body : A → P (A + B)) a p :
  (∀ a p, I a (length (rest p)) → good p → pwp (body a) (λ r p', good p' ∧
     match r with
     | inl a' => I a' (length (rest p')) ∧ (length (rest p') < length (rest p))%nat
     | inr b => R b ∧ (length (rest p') <= length (rest p))%nat
     end) p) →
  I a (length (rest p)) → good p →
  pwp (while_ body a) (λ b p', good p' ∧ (length (rest p') <= length (rest p))%nat ∧ R b) p.
Proof.
  intros Hb Ha Hg. unfold while_.
  assert (∀ fuel a p, I a (length (rest p)) → good p → (length (rest p) < fuel)%nat →
    pwp (loop fuel body a) (λ b p', good p' ∧ (length (rest p') <= length (rest p))%nat ∧ R b) p)
    as H; [|by apply H; [| |lia]].
  clear a p Ha Hg. intros fuel. induction fuel as [|fuel IH]; intros a p Ha Hg Hf; [lia|].
  cbn [loop]. apply pwp_bind. eapply pwp_mono; [by apply Hb|].
  intros [a'|b] p' [Hg' [HI Hl]].
  - eapply pwp_mono; [apply IH; [done|done|lia]|]. intros b p'' (? & ? & ?).
    split_and!; [done|lia|done].
  - apply pwp_ret. by split_and!.
Qed.

Lemma while_step {A B} (I : A → Prop) (R : B → Prop) (body : A → P (A + B)) a :
  (∀ a p, I a → good p → pwp (body a) (λ r p', good p' ∧
     match r with
     | inl a' => I a' ∧ (length (rest p') < length (rest p))%nat
     | inr b => R b ∧ (length (rest p') <= length (rest p))%nat
     end) p) →
  I a → step 0 R (while_ body a).
Proof.
  intros Hb Ha p Hg.
  eapply pwp_mono; [by apply (while_step_len (λ a _, I a) R)|].
  intros b p' (? & ? & ?). split_and!; [done|lia|done].
Qed.

Lemma dotted_step {A} sep what (f : A → Token → A) acc (I : A → Prop) :
  bool_decide (sep = kEnd) = false → I acc → (∀ a t, I a → tok_type t = kName → I (f a t)) →
  step 0 I (dotted sep what f acc).
Proof.
  intros Hs%bool_decide_eq_false Ha Hf. unfold dotted. apply while_step with (I := I); [|done].
  clear acc Ha. intros acc p Ha Hg. psteps.
Qed.

#[export] Hint Extern 1 (step _ _ (dotted _ _ _ _)) => apply (dotted_step _ _ _ _ any) : step.
#[export] Hint Extern 1 (any _) => exact I : step.

(** ** Literals *)

Definition digits_ok (d : bool * list Z) : Prop := snd d ≠ [].
#[export] Hint Unfold digits_ok : step.

Lemma ParseSignedNumber_step : step 1 digits_ok ParseSignedNumber.
Proof.
  intros p Hg. unfold ParseSignedNumber. psteps.
Qed.
#[export] Hint Resolve ParseSignedNumber_step : step.

Lemma checked_fine max v : v ≠ None → fine any (checked max v).
Proof. unfold checked. destruct v; [|done]. by case_match. Qed.

Lemma auto_value_some d : d ≠ [] → auto_value d ≠ None.
Proof. unfold auto_value. destruct d as [|? [|? ?]]; [done..|]. intros _. by repeat case_match. Qed.

Lemma decimal_value_some d : d ≠ [] → decimal_value d ≠ None.
Proof. unfold decimal_value. by case_bool_decide. Qed.
#[export] Hint Resolve checked_fine auto_value_some decimal_value_some : step.

Lemma ParseIntLiteral_fine neg d : digits_ok (neg, d) → fine any (ParseIntLiteral neg d).
Proof.
  intros Hd. pose proof (checked_fine (2 ^ 63 - 1) _ (auto_value_some d Hd)) as H1.
  pose proof (checked_fine (2 ^ 64 - 1) _ (auto_value_some d Hd)) as H2.
  unfold ParseIntLiteral, stoll, stoull. destruct neg; by repeat case_match.
Qed.
#[export] Hint Resolve ParseIntLiteral_fine : step.

Lemma stoll_fine d : d ≠ [] → fine any (stoll d).
Proof. unfold stoll. auto with step. Qed.
Lemma stoul_fine LM d : d ≠ [] → fine any (stoul LM d).
Proof. unfold stoul. auto with step. Qed.
Lemma stoi_fine d : d ≠ [] → fine any (stoi d).
Proof. unfold stoi. auto with step. Qed.
#[export] Hint Resolve stoll_fine stoul_fine stoi_fine : step.

Lemma for_each_fine {A B} (f : B → A → Parsed B) b l :
  (∀ b a, fine any (f b a)) → fine any (for_each f b l).
Proof.
  intros Hf. revert b. induction l as [|a l IH]; intros b; [done|]. cbn [for_each].
  specialize (Hf b a). by destruct (f b a).
Qed.

Lemma FillEnableIf_fine e a : fine any (FillEnableIf e a).
Proof. unfold FillEnableIf. by repeat case_match. Qed.

Lemma flag_attr_fine n a r : flag_attr n a = Some r → fine any r.
Proof. unfold flag_attr. case_bool_decide; [|done]. intros [= <-]. by case_match. Qed.

Lemma min_version_attr_fine a r : min_version_attr a = Some r → fine any r.
Proof. unfold min_version_attr. case_bool_decide; [|done]. intros [= <-]. by repeat case_match. Qed.

(** A chain of tests on an attribute. *)
Ltac attr_fine :=
  repeat match goal with
  | H : flag_attr _ _ = Some _ |- _ => apply flag_attr_fine in H
  | H : min_version_attr _ = Some _ |- _ => apply min_version_attr_fine in H
  | H : FillEnableIf ?e ?a = inl _ |- _ =>
      let F := fresh in pose proof (FillEnableIf_fine e a) as F; rewrite H in F; clear H
  | |- fine _ (match ?x with _ => _ end) => destruct x eqn:?
  end; try done.
#[export] Hint Extern 2 (fine _ (for_each _ _ _)) =>
  apply for_each_fine; intros ? ?; solve [auto with step] : step.
#[export] Hint Resolve FillEnableIf_fine : step.

Section parser.
Context (LONG_MAX : Z) (ue : bool).

Lemma stod_fine t : number_ok t → tok_type t = kFloatNumber → fine any (stod ue (text t)).
Proof.
  unfold number_ok. intros H E. rewrite E in H. destruct H as [H1 H2].
  unfold fine in *. destruct ue; [destruct (stod true _)|destruct (stod false _)]; done.
Qed.
#[local] Hint Resolve stod_fine : step.

Lemma ParseFloatValue_step : step 1 any (ParseFloatValue ue).
Proof. intros p Hg. unfold ParseFloatValue. psteps. Qed.
#[local] Hint Resolve ParseFloatValue_step : step.

Lemma ParseAttributeValue_step : step 1 any (ParseAttributeValue ue).
Proof. intros p Hg. unfold ParseAttributeValue. psteps. Qed.
#[local] Hint Resolve ParseAttributeValue_step : step.

Lemma ParseAttributeList_step : step 1 any (ParseAttributeList ue).
Proof.
  intros p Hg. unfold ParseAttributeList. pstep1. pstep1. pstep1.
  eapply pwp_step; [apply (while_step any any); [|done]|done|].
  { intros attrs q _ Hq. psteps. }
  intros attrs q Hq Hl _. psteps.
Qed.
#[local] Hint Resolve ParseAttributeList_step : step.

Lemma ParseAttributes_step : step 0 any (ParseAttributes ue).
Proof. intros p Hg. unfold ParseAttributes. psteps. Qed.
#[local] Hint Resolve ParseAttributes_step : step.
End parser.

(** ** Types *)

Lemma wf_leaf k name ns c : k ≠ kArray → k ≠ kMap → wf_type (named_type k name ns c).
Proof. by destruct k. Qed.

Lemma wf_leaf_init k : k ≠ kArray → k ≠ kMap → wf_type (TypeSpec_init k).
Proof. by destruct k. Qed.

Lemma declared_type_wf e n ns t : declared_type e n ns = Some t → wf_type t.
Proof. unfold declared_type. repeat case_bool_decide; naive_solver. Qed.

Lemma ExternalType_wf e q n : wf_type (ExternalType e q n).
Proof. unfold ExternalType. case_match eqn:E; [by eapply declared_type_wf|done]. Qed.

Lemma qualified_type_wf e n segs : wf_type (qualified_type e n segs).
Proof.
  unfold qualified_type. case_match eqn:E.
  - case_match; [by eapply declared_type_wf|done].
  - repeat case_match; try apply ExternalType_wf; done.
Qed.

Lemma set_nullable_wf t : wf_type t → wf_type (set_nullable t).
Proof. destruct t as [k ????? ??]. by destruct k. Qed.

Lemma map_wf k v : wf_type k → wf_type v →
  wf_type (mkTypeSpec kMap [] (Some v) (Some k) false [] [] 0).
Proof. unfold wf_type. simpl. by intros -> ->. Qed.
#[export] Hint Resolve map_wf : step.
#[export] Hint Resolve wf_leaf wf_leaf_init declared_type_wf ExternalType_wf qualified_type_wf
  set_nullable_wf : step.

Lemma handle_subtype_leaf n k : handle_subtype n = Some k → wf_type (TypeSpec_init k).
Proof. unfold handle_subtype. repeat case_match; naive_solver. Qed.
Lemma pending_leaf n k name ns c : kPendingKeywords n = Some k → wf_type (named_type k name ns c).
Proof. unfold kPendingKeywords. repeat case_match; naive_solver. Qed.
Lemma scalar_leaf n k : kScalarKeywords n = Some k → wf_type (TypeSpec_init k).
Proof. unfold kScalarKeywords. repeat case_match; naive_solver. Qed.
#[export] Hint Resolve handle_subtype_leaf pending_leaf scalar_leaf : step.

Lemma CheckNullableAllowed_step t : step 0 any (CheckNullableAllowed t).
Proof. intros p Hg. unfold CheckNullableAllowed. psteps. Qed.
Lemma CheckValidMapKeyType_step t : step 0 any (CheckValidMapKeyType t).
Proof. intros p Hg. unfold CheckValidMapKeyType. psteps. Qed.
Lemma TakeQualifiedName_step t : step 0 any (TakeQualifiedName t).
Proof.
  intros p Hg. unfold TakeQualifiedName. pstep1.
  eapply pwp_step; [apply (dotted_step _ _ _ _ (λ l, l ≠ [])); [done..|]| |].
  { intros l x Hl _. by destruct l. }
  - done.
  - intros segs q Hq Hl Hne. psteps.
Qed.
#[export] Hint Resolve CheckNullableAllowed_step CheckValidMapKeyType_step TakeQualifiedName_step
  : step.

Lemma ParseHandle_step : step 0 wf_type ParseHandle.
Proof. intros p Hg. unfold ParseHandle. psteps. Qed.
Lemma ParseAssociated_step : step 0 wf_type ParseAssociated.
Proof. intros p Hg. unfold ParseAssociated. psteps. Qed.
Lemma ParsePending_step n k : kPendingKeywords n = Some k → step 0 wf_type (ParsePending k).
Proof. intros Hk p Hg. unfold ParsePending. psteps. Qed.
Lemma ParseNamedType_step n : step 0 wf_type (ParseNamedType n).
Proof. intros p Hg. unfold ParseNamedType. psteps. case_match; pend. Qed.
#[export] Hint Extern 1 (_ ≠ _) => discriminate : step.
#[export] Hint Resolve ParseHandle_step ParseAssociated_step ParsePending_step ParseNamedType_step
  : step.

(** The recursive calls are made with tokens taken. *)
Section recursion.
Context (n : nat) (T : P TypeSpec).
Context (HT : ∀ p, good p → (length (rest p) < n)%nat →
  pwp T (λ t p', good p' ∧ (length (rest p') + 1 <= length (rest p))%nat ∧ wf_type t) p).

Lemma pwp_rec (Q : TypeSpec → Parser → Prop) p :
  good p → (length (rest p) < n)%nat →
  (∀ t p', good p' → (length (rest p') + 1 <= length (rest p))%nat → wf_type t → Q t p') →
  pwp T Q p.
Proof using HT. intros Hg Hn HQ. eapply pwp_mono; [by apply HT|]. intros ? ? (? & ? & ?). auto. Qed.

Lemma ParseArray_rec p :
  good p → (length (rest p) < n)%nat →
  pwp (ParseArray T) (λ t p', good p' ∧ (length (rest p') + 1 <= length (rest p))%nat ∧ wf_type t) p.
Proof using HT.
  intros Hg Hn. unfold ParseArray. do 2 pstep1. pstep1. apply pwp_rec; [done|lia|].
  intros. psteps.
Qed.

Lemma ParseMap_rec p :
  good p → (length (rest p) < n)%nat →
  pwp (ParseMap T) (λ t p', good p' ∧ (length (rest p') + 1 <= length (rest p))%nat ∧ wf_type t) p.
Proof using HT.
  intros Hg Hn. unfold ParseMap. do 3 pstep1. apply pwp_rec; [done|lia|].
  intros k q Hq Hl Hk. do 4 pstep1. pstep1. apply pwp_rec; [done|lia|].
  intros v q' Hq' Hl' Hv. psteps.
Qed.

Lemma ParseTypeSpecInner_rec p :
  good p → (length (rest p) <= n)%nat →
  pwp (ParseTypeSpecInner T)
    (λ t p', good p' ∧ (length (rest p') + 1 <= length (rest p))%nat ∧ wf_type t) p.
Proof using HT.
  intros Hg Hn. unfold ParseTypeSpecInner. do 2 pstep1. psteps.
  - eapply pwp_mono; [apply ParseArray_rec; [done|lia]|]. intros; pend.
  - eapply pwp_mono; [apply ParseMap_rec; [done|lia]|]. intros; pend.
Qed.
End recursion.

Lemma ParseTypeSpec_fuel_step n p :
  good p → (length (rest p) < n)%nat →
  pwp (ParseTypeSpec_fuel n)
    (λ t p', good p' ∧ (length (rest p') + 1 <= length (rest p))%nat ∧ wf_type t) p.
Proof.
  revert p. induction n as [|n IH]; intros p Hg Hn; [lia|]. cbn [ParseTypeSpec_fuel].
  apply pwp_bind. eapply pwp_mono; [apply (ParseTypeSpecInner_rec n); [exact IH|done|lia]|].
  intros t q (Hq & Hl & Ht). psteps.
Qed.

Lemma ParseTypeSpec_step : step 1 wf_type ParseTypeSpec.
Proof. intros p Hg. unfold ParseTypeSpec. apply ParseTypeSpec_fuel_step; [done|lia]. Qed.
#[export] Hint Resolve ParseTypeSpec_step : step.

(** ** Declarations *)

Lemma Forall_snoc {A} (R : A → Prop) l x : Forall R l → R x → Forall R (l ++ [x]).
Proof. intros. apply Forall_app_2; auto. Qed.
Lemma Forall_one {A} (R : A → Prop) x : R x → Forall R [x].
Proof. auto. Qed.
#[export] Hint Resolve Forall_snoc Forall_one Forall_nil_2 : step.
#[export] Hint Unfold wf_const wf_param wf_field wf_ufield wf_feature : step.

(** Updates of the environment that leave the pending unions alone. *)
Lemma good_update p f :
  good p → pending_result_unions_ (f (env p)) = pending_result_unions_ (env p) →
  good (mkParser (rest p) (f (env p))).
Proof. intros [H1 H2 H3 H4] E. split; [done|done| |done]. cbn [env]. by rewrite E. Qed.

Lemma update_step f :
  (∀ e, pending_result_unions_ (f e) = pending_result_unions_ e) → step 0 any (update f).
Proof.
  intros Hf p Hg. apply pwp_update. split_and!; [by apply good_update|simpl; lia|done].
Qed.
#[export] Hint Extern 1 (step _ _ (update _)) => apply update_step; intros []; reflexivity : step.

Section decls.
Context (LONG_MAX : Z) (ue : bool).
#[local] Hint Resolve ParseAttributes_step ParseAttributeList_step ParseFloatValue_step : step.

Lemma ResolveConstDefault_step ty n l : step 0 any (ResolveConstDefault ty n l).
Proof. intros p Hg. unfold ResolveConstDefault. psteps. Qed.
#[local] Hint Resolve ResolveConstDefault_step : step.

Lemma ResolveConstReference_step ty : step 1 any (ResolveConstReference ty).
Proof.
  intros p Hg. unfold ResolveConstReference. do 3 pstep1.
  eapply pwp_step; [apply (dotted_step _ _ _ _ (λ l, l ≠ [])); [done..|]|done|].
  { intros l x Hl _. by destruct l. }
  intros segs q Hq Hl Hne. psteps.
Qed.
#[local] Hint Resolve ResolveConstReference_step : step.

Lemma const_default_step ty : step 1 any (const_default ty).
Proof. intros p Hg. unfold const_default. psteps. Qed.
#[local] Hint Resolve const_default_step : step.

Lemma enum_default_step ty : step 1 any (enum_default ty).
Proof. intros p Hg. unfold enum_default. psteps. Qed.

Lemma at_float_literal_step : step 0 any at_float_literal.
Proof. intros p Hg. unfold pwp, at_float_literal. split_and!; [done|lia|done]. Qed.
#[local] Hint Resolve enum_default_step at_float_literal_step Advance_step : step.

Lemma ParseDefaultValue_step ty : step 0 any (ParseDefaultValue ue ty).
Proof. intros p Hg. unfold ParseDefaultValue. psteps. Qed.
#[local] Hint Resolve ParseDefaultValue_step : step.

Lemma ParseConst_step : step 1 wf_const (ParseConst ue).
Proof. intros p Hg. unfold ParseConst. psteps. Qed.
#[local] Hint Resolve ParseConst_step : step.

Lemma ParseConstIn_step c attrs : step 1 wf_const (ParseConstIn ue c attrs).
Proof. intros p Hg. unfold ParseConstIn, FillEnableIfs. psteps. Qed.
#[local] Hint Resolve ParseConstIn_step : step.

(** ** Enums *)

Lemma enum_attr_fine e a : fine any (enum_attr e a).
Proof. unfold enum_attr. destruct e. attr_fine. Qed.
Lemma enum_value_attr_fine v a : fine any (enum_value_attr v a).
Proof. unfold enum_value_attr. destruct v. attr_fine. Qed.
Lemma versioned_attr_fine v a : fine any (versioned_attr v a).
Proof. unfold versioned_attr. attr_fine. Qed.
Lemma struct_attr_fine v a : fine any (struct_attr v a).
Proof. unfold struct_attr. attr_fine. Qed.
Lemma extensible_attr_fine v a : fine any (extensible_attr v a).
Proof. unfold extensible_attr. attr_fine. Qed.
Lemma union_field_attr_fine v a : fine any (union_field_attr v a).
Proof. unfold union_field_attr. destruct v. attr_fine. Qed.
Lemma method_attr_fine v a : fine any (method_attr v a).
Proof.
  unfold method_attr. attr_fine. pose proof (versioned_attr_fine (snd v) a) as H.
  by rewrite Heqp in H.
Qed.
#[local] Hint Resolve enum_attr_fine enum_value_attr_fine versioned_attr_fine struct_attr_fine
  extensible_attr_fine union_field_attr_fine method_attr_fine : step.

Lemma i32_range z : int32 (i32 z).
Proof.
  unfold i32, int32. pose proof (u32_range z). destruct (Z.ltb_spec (u32 z) (2 ^ 31)); lia.
Qed.

Lemma succ32_fine z : int32 z → fine int32 (succ32 z).
Proof. unfold succ32, int32. intros H. by destruct (Z.eqb_spec z (2 ^ 31 - 1)); simpl; [|lia]. Qed.

Definition values_ok (vs : list EnumValue) : Prop := Forall (λ v, int32 (v_value v)) vs.

Lemma find_value_range n vs v : values_ok vs → find_value n vs = Some v → int32 (v_value v).
Proof.
  intros H. induction H as [|x vs Hx _ IH]; simpl; [done|]. case_bool_decide; [|done].
  by intros [= <-].
Qed.
#[local] Hint Resolve i32_range succ32_fine find_value_range : step.

Lemma ParseEnumNumber_step n vs next :
  values_ok vs → int32 next → step 0 int32 (ParseEnumNumber n vs next).
Proof. intros Hvs Hn p Hg. unfold ParseEnumNumber. psteps. Qed.
#[local] Hint Resolve ParseEnumNumber_step : step.

Definition value_ok (vn : EnumValue * Z) : Prop := int32 (v_value (fst vn)) ∧ int32 (snd vn).

Lemma ParseEnumValue_step vs next :
  values_ok vs → int32 next → step 1 value_ok (ParseEnumValue ue vs next).
Proof. intros Hvs Hn p Hg. unfold ParseEnumValue. psteps. Qed.
#[local] Hint Resolve ParseEnumValue_step : step.

Lemma int32_0 : int32 0.
Proof. by split. Qed.
#[local] Hint Resolve int32_0 : step.
#[local] Hint Unfold values_ok : step.

Lemma ParseEnumBody_step : step 0 values_ok (ParseEnumBody ue).
Proof.
  intros p Hg. unfold ParseEnumBody. do 6 pstep1; [by psteps|].
  apply pwp_bind. eapply pwp_step; [eauto with step|done|].
  intros [v next] q Hq Hl [Hv Hn]. cbn [fst snd] in *.
  eapply pwp_step; [apply (while_step (λ vn, values_ok (fst vn) ∧ int32 (snd vn)) values_ok)| |].
  - intros [vs nx] q' [Hvs Hnx] Hq'. simpl in Hvs, Hnx. psteps.
    unfold value_ok in *. simpl in *. pend.
  - simpl. auto with step.
  - done.
  - intros. pend.
Qed.
#[local] Hint Resolve ParseEnumBody_step : step.

Lemma ParseEnum_step attrs : step 1 enum_ok (ParseEnum ue attrs).
Proof.
  intros p Hg. unfold ParseEnum. psteps.
  - pend. split; [by apply Forall_nil_2|apply Nat.le_0_l].
  - pend. split; [done|]. by apply Nat.ltb_ge.
Qed.
#[local] Hint Resolve ParseEnum_step : step.

(** ** Structs *)

Lemma ParseOrdinal_step what : step 0 any (ParseOrdinal LONG_MAX what).
Proof. intros p Hg. unfold ParseOrdinal. psteps. Qed.
#[local] Hint Resolve ParseOrdinal_step : step.

Lemma ParseStructField_step attrs : step 1 wf_field (ParseStructField LONG_MAX ue attrs).
Proof. intros p Hg. unfold ParseStructField. psteps. Qed.
#[local] Hint Resolve ParseStructField_step : step.

Lemma max_version_snoc {A} (f : A → Z) l x :
  max_version f (l ++ [x]) = Z.max (max_version f l) (f x).
Proof. unfold max_version. by rewrite fold_left_app. Qed.

Record body_ok (b : StructBody) : Prop := {
  bo_fields : Forall wf_field (sb_fields b);
  bo_consts : Forall wf_const (sb_consts b);
  bo_enums : Forall enum_ok (sb_enums b);
  bo_version : sb_version b = max_version f_min_version (sb_fields b)
}.

Lemma ParseStructMember_step n b p :
  body_ok b → good p → pwp (ParseStructMember LONG_MAX ue n b) (λ r p', good p' ∧
    match r with
    | inl b' => body_ok b' ∧ (length (rest p') < length (rest p))%nat
    | inr b' => body_ok b' ∧ (length (rest p') <= length (rest p))%nat
    end) p.
Proof.
  intros Hb Hg. unfold ParseStructMember. destruct b as [fs es cs v].
  destruct Hb as [H1 H2 H3 H4]. cbn [sb_fields sb_consts sb_enums sb_version] in *. psteps.
  all: pend; split; cbn [sb_fields sb_consts sb_enums sb_version]; eauto with step.
  all: by rewrite max_version_snoc, H4.
Qed.

Lemma ParseStructBody_step n :
  step 0 body_ok (while_ (ParseStructMember LONG_MAX ue n) (mkStructBody [] [] [] 0)).
Proof. apply while_step with (I := body_ok); [apply ParseStructMember_step|done]. Qed.
#[local] Hint Resolve ParseStructBody_step : step.

Lemma ParseStruct_step attrs : step 1 struct_ok (ParseStruct LONG_MAX ue attrs).
Proof.
  intros p Hg. unfold ParseStruct. psteps.
  match goal with H : body_ok _ |- _ => destruct H end; pend; by split.
Qed.
#[local] Hint Resolve ParseStruct_step : step.

Lemma ParseStructIn_step c attrs : step 1 struct_ok (ParseStructIn LONG_MAX ue c attrs).
Proof.
  intros p Hg. unfold ParseStructIn. psteps.
  match goal with H : struct_ok _ |- _ => destruct H end; pend; by split.
Qed.
#[local] Hint Resolve ParseStructIn_step : step.

(** ** Unions *)

(** The field read and the next implicit tag. *)
Definition field_read (next : Z) (r : UnionField * Z) : Prop :=
  wf_ufield (fst r) ∧
  if uf_has_explicit_tag (fst r) then snd r = next
  else uf_tag (fst r) = next ∧ snd r = u32 (next + 1).

Lemma ParseUnionField_step next : step 1 (field_read next) (ParseUnionField LONG_MAX ue next).
Proof.
  intros p Hg. unfold ParseUnionField. psteps. pend. unfold field_read.
  case_match; simpl; by split_and!.
Qed.
#[local] Hint Resolve ParseUnionField_step : step.

(** The fields read so far; with the tokens left they are at most [n]. *)
Definition fields_ok (n : nat) (fn : list UnionField * Z) (left : nat) : Prop :=
  Forall wf_ufield (fst fn) ∧ numbered (fst fn) (snd fn) ∧ (length (fst fn) + left <= n)%nat.

Lemma numbered_le fs next : numbered fs next → next <= Z.of_nat (length fs).
Proof.
  intros [H E]. apply (f_equal length) in E. unfold implicit_tags in E.
  rewrite length_map, length_seqZ in E.
  pose proof (List.filter_length_le (λ f, negb (uf_has_explicit_tag f)) fs). lia.
Qed.

Lemma numbered_snoc fs next r :
  numbered fs next → field_read next r → next < 2 ^ 31 → numbered (fs ++ [fst r]) (snd r).
Proof.
  destruct r as [f next']. unfold numbered, field_read, implicit_tags. cbn [fst snd].
  intros [H E] [_ Hf] Hn. rewrite List.filter_app, map_app, E. simpl.
  destruct (uf_has_explicit_tag f); simpl in *.
  - subst next'. by rewrite app_nil_r.
  - destruct Hf as [<- ->]. rewrite u32_small by lia. split; [lia|].
    rewrite seqZ_app by lia. f_equal.
Qed.

Lemma ParseUnionFields_step p :
  good p → pwp (while_ (λ '(fields, next_implicit),
      let! done := At kRBrace in
      if done then pret (inr fields)
      else
        let! '(f, next_implicit) := ParseUnionField LONG_MAX ue next_implicit in
        pret (inl (fields ++ [f], next_implicit))) ([], 0))
    (λ fs p', good p' ∧ (length (rest p') <= length (rest p))%nat ∧
      Forall wf_ufield fs ∧ ∃ next, numbered fs next ∧ Z.of_nat (length fs) < 2 ^ 31) p.
Proof.
  intros Hg. pose proof (good_length p Hg) as Hlen.
  apply (while_step_len (fields_ok (length (rest p)))); [|by split_and!|done].
  intros [fs next] q (Hwf & Hnum & Hn) Hq. cbn [fst snd] in *.
  pose proof (numbered_le _ _ Hnum) as Hle. do 6 pstep1.
  { pstep1. pend. exists next. split; [done|lia]. }
  apply pwp_bind. eapply pwp_step; [eauto with step|done|].
  intros [f next'] q' Hq' Hl Hf. psteps. split_and!; [done| |lia].
  unfold fields_ok. cbn [fst snd]. split_and!.
  - apply Forall_snoc; [done|apply Hf].
  - apply (numbered_snoc _ _ (f, next') Hnum Hf). lia.
  - rewrite length_app. simpl. lia.
Qed.

Lemma retagged_wf fs fs' : Forall2 retagged fs fs' → Forall wf_ufield fs → Forall wf_ufield fs'.
Proof.
  induction 1 as [|f f' fs fs' [-> _] _ IH]; intros H; [done|].
  apply Forall_cons_1 in H as [? ?]. constructor; [done|auto].
Qed.

Lemma assign_tags_fine fs next :
  Forall wf_ufield fs → numbered fs next → Z.of_nat (length fs) < 2 ^ 31 →
  fine (λ fs', Forall wf_ufield fs' ∧ tags_ok fs') (assign_tags fs).
Proof.
  intros Hwf Hn Hl. destruct (assign_tags_spec fs next Hn Hl) as (fs' & -> & H1 & H2).
  simpl. eauto using retagged_wf.
Qed.

Lemma ParseUnion_step attrs : step 1 union_ok (ParseUnion LONG_MAX ue attrs).
Proof.
  intros p Hg. unfold ParseUnion. psteps.
  eapply pwp_mono; [by apply ParseUnionFields_step|].
  intros fs q (Hq & Hl & Hwf & next & Hn & Hlen).
  pose proof (assign_tags_fine fs next Hwf Hn Hlen). psteps.
  pend. split; try done. by apply Nat.ltb_ge.
Qed.
#[local] Hint Resolve ParseUnion_step : step.

Lemma ParseUnionIn_step c attrs : step 1 union_ok (ParseUnionIn LONG_MAX ue c attrs).
Proof.
  intros p Hg. unfold ParseUnionIn. psteps.
  match goal with H : union_ok _ |- _ => destruct H end; pend; by split.
Qed.
#[local] Hint Resolve ParseUnionIn_step : step.

(** ** Methods and interfaces *)

Lemma ParseParam_step : step 1 wf_param (ParseParam LONG_MAX ue).
Proof. intros p Hg. unfold ParseParam. psteps. Qed.
#[local] Hint Resolve ParseParam_step : step.

Lemma ParseParamList_step : step 1 (Forall wf_param) (ParseParamList LONG_MAX ue).
Proof.
  intros p Hg. unfold ParseParamList. do 2 pstep1.
  eapply pwp_step; [apply (while_step (Forall wf_param) (Forall wf_param))|done|].
  - intros ps q Hps Hq. psteps.
  - auto with step.
  - intros. pend.
Qed.
#[local] Hint Resolve ParseParamList_step : step.

Lemma ParseParams_step : step 0 (Forall wf_param) (ParseParams LONG_MAX ue).
Proof. intros p Hg. unfold ParseParams. psteps. Qed.
#[local] Hint Resolve ParseParams_step : step.

Lemma MakeResultUnion_step i m t1 t2 :
  wf_type t1 → wf_type t2 → step 0 wf_type (MakeResultUnion i m t1 t2).
Proof.
  intros H1 H2 p Hg. unfold MakeResultUnion. do 4 pstep1.
  apply pwp_bind, pwp_update. pstep1. split_and!; [|cbn [rest]; lia|done].
  destruct p' as [r e]. destruct e. destruct H. split; cbn in *; try done.
  apply Forall_snoc; [done|]. split; cbn.
  - repeat constructor; done.
  - apply (numbered_ok _ 2); [by split|by left].
  - done.
  - lia.
  - done.
Qed.
#[local] Hint Resolve MakeResultUnion_step : step.

(** An ordinal taken is below the reserved ones. *)
Definition ordinal_ok (o : option Z) : Prop :=
  match o with Some n => 0 <= n < 4294967294 | None => True end.

Lemma take_method_ordinal_step n prior :
  ordinal_ok prior → step 0 ordinal_ok (take_method_ordinal LONG_MAX n prior).
Proof.
  intros Ho p Hg. unfold take_method_ordinal. psteps.
  pend. pose proof (u32_range a0). unfold ordinal_ok. lia.
Qed.
#[local] Hint Resolve take_method_ordinal_step : step.

Definition response_ok (r : list Param * option (TypeSpec * TypeSpec)) : Prop :=
  Forall wf_param (fst r) ∧
  match snd r with Some (t1, t2) => wf_type t1 ∧ wf_type t2 ∧ ∃ p, fst r = [p] | None => True end.

Lemma ParseResponse_step i m : step 1 response_ok (ParseResponse LONG_MAX ue i m).
Proof.
  intros p Hg. unfold ParseResponse. psteps. pend. split; cbn; split_and?; auto with step; by eexists.
Qed.
#[local] Hint Resolve ParseResponse_step : step.

Lemma ParseMethod_step attrs i : step 1 method_ok (ParseMethod LONG_MAX ue attrs i).
Proof.
  intros p Hg. unfold ParseMethod. psteps.
  all: pend; unfold response_ok, ordinal_ok in *; cbn [fst snd] in *; destruct_and?.
  all: split; cbn; try done.
  all: try (repeat case_match; naive_solver).
Qed.
#[local] Hint Resolve ParseMethod_step : step.

Definition numbered_methods (ms : list Method) (next : Z) : Prop :=
  0 <= next ∧
  map m_ordinal (List.filter (λ m, negb (m_has_explicit_ordinal m)) ms) = seqZ 0 next.

Lemma numbered_methods_snoc ms next m :
  numbered_methods ms next → next < 2 ^ 31 →
  if m_has_explicit_ordinal m then numbered_methods (ms ++ [m]) next
  else numbered_methods (ms ++ [set_ordinal next m]) (u32 (next + 1)).
Proof.
  unfold numbered_methods. intros [H E] Hn. destruct (m_has_explicit_ordinal m) eqn:Hm.
  - rewrite List.filter_app, map_app, E. simpl. rewrite Hm. simpl. by rewrite app_nil_r.
  - rewrite List.filter_app, map_app, E. simpl. rewrite Hm. simpl. rewrite u32_small by lia.
    split; [lia|]. by rewrite seqZ_app by lia.
Qed.

Lemma numbered_methods_le ms next : numbered_methods ms next → next <= Z.of_nat (length ms).
Proof.
  intros [H E]. apply (f_equal length) in E. rewrite length_map, length_seqZ in E.
  pose proof (List.filter_length_le (λ m, negb (m_has_explicit_ordinal m)) ms). lia.
Qed.

Lemma existsb_false_Forall {A} (f : A → bool) l :
  existsb f l = false → Forall (λ x, f x = false) l.
Proof. induction l; simpl; [constructor|]. intros [? ?]%orb_false_iff. auto. Qed.

Lemma filter_all {A} (f : A → bool) l : Forall (λ x, f x = true) l → List.filter f l = l.
Proof. induction 1 as [|x l Hx _ IH]; simpl; [done|]. by rewrite Hx, IH. Qed.

Lemma numbered_methods_ok ms next :
  numbered_methods ms next →
  existsb m_has_explicit_ordinal ms && existsb (λ m, negb (m_has_explicit_ordinal m)) ms = false →
  ordinals_ok ms.
Proof.
  intros [H E] [Hm%existsb_false_Forall|Hm%existsb_false_Forall]%andb_false_iff; [right|left].
  - split; [done|]. rewrite filter_all in E.
    2: { eapply Forall_impl; [exact Hm|]. simpl. by intros m ->. }
    rewrite E. f_equal. apply (f_equal length) in E. rewrite length_map, length_seqZ in E. lia.
  - eapply Forall_impl; [exact Hm|]. simpl. by intros m ->%negb_false_iff.
Qed.

(** The interface so far; with the tokens left the methods are at most [n]. *)
Record member_ok (n : nat) (acc : Interface * Z) (left : nat) : Prop := {
  mb_methods : Forall method_ok (i_methods (fst acc));
  mb_numbered : numbered_methods (i_methods (fst acc)) (snd acc);
  mb_enums : Forall enum_ok (i_enums (fst acc));
  mb_consts : Forall wf_const (i_consts (fst acc));
  mb_structs : Forall struct_ok (i_structs (fst acc));
  mb_unions : Forall union_ok (i_unions (fst acc));
  mb_version : i_version (fst acc) = max_version m_min_version (i_methods (fst acc));
  mb_length : (length (i_methods (fst acc)) + left <= n)%nat
}.

Lemma set_ordinal_ok n m : method_ok m → m_has_explicit_ordinal m = false → method_ok (set_ordinal n m).
Proof. intros [] E. split; try done. cbn. by rewrite E. Qed.

Lemma numbered_added ms next m0 m z :
  (if m_has_explicit_ordinal m0 then (m0, next) else (set_ordinal next m0, u32 (next + 1)))
    = (m, z) →
  method_ok m0 → numbered_methods ms next → next < 2 ^ 31 →
  method_ok m ∧ numbered_methods (ms ++ [m]) z.
Proof.
  intros E Hm Hn Hb. pose proof (numbered_methods_snoc ms next m0 Hn Hb) as Hs.
  destruct (m_has_explicit_ordinal m0) eqn:Ex; simplify_eq; split; auto using set_ordinal_ok.
Qed.

Lemma ParseInterfaceMember_step n acc p :
  (n < 2 ^ 31)%Z → member_ok (Z.to_nat n) acc (length (rest p)) → good p →
  pwp (ParseInterfaceMember LONG_MAX ue acc) (λ r p', good p' ∧
    match r with
    | inl acc' =>
        member_ok (Z.to_nat n) acc' (length (rest p')) ∧ (length (rest p') < length (rest p))%nat
    | inr i =>
        (∃ next, member_ok (Z.to_nat n) (i, next) 0) ∧ (length (rest p') <= length (rest p))%nat
    end) p.
Proof.
  intros Hn Hb Hg. unfold ParseInterfaceMember.
  destruct acc as [[name ms es cs ss us v ext enable] next].
  destruct Hb as [H1 H2 H3 H4 H5 H6 H7 H8]. cbn [fst snd i_methods i_enums i_consts i_structs
    i_unions i_version] in *. do 6 pstep1.
  { pstep1. pend. exists next. split; cbn; try done. lia. }
  pose proof (numbered_methods_le _ _ H2). psteps.
  1-4: pend; split; cbn; auto with step; lia.
  all: edestruct numbered_added as [Hm' Hn']; [eassumption..|lia|].
  all: pend; split; cbn [fst snd i_methods i_enums i_consts i_structs i_unions i_version];
    auto with step; [by rewrite max_version_snoc, H7|].
  all: rewrite length_app; simpl; lia.
Qed.

Lemma ParseInterfaceBody_step acc p :
  member_ok (length (rest p)) acc (length (rest p)) → good p →
  pwp (while_ (ParseInterfaceMember LONG_MAX ue) acc) (λ i p', good p' ∧
    (length (rest p') <= length (rest p))%nat ∧
    ∃ n next, Z.of_nat n < 2 ^ 31 ∧ member_ok n (i, next) 0) p.
Proof.
  intros Hb Hg. eapply pwp_mono.
  - apply (while_step_len (λ acc l, member_ok (length (rest p)) acc l)
      (λ i, ∃ next, member_ok (length (rest p)) (i, next) 0)); [|done..].
    intros acc' q Hacc Hq. pose proof (good_length p Hg) as Hl.
    rewrite <- (Nat2Z.id (length (rest p))) in Hacc |- *. by apply ParseInterfaceMember_step.
  - simpl. intros i q (? & ? & next & ?). split_and!; [done..|]. exists (length (rest p)), next.
    split; [by apply good_length|done].
Qed.

Lemma ParseInterface_step attrs : step 1 interface_ok (ParseInterface LONG_MAX ue attrs).
Proof.
  intros p Hg. unfold ParseInterface. do 9 pstep1. apply pwp_bind.
  eapply pwp_mono; [apply ParseInterfaceBody_step; [|done]|].
  { split; cbn; try done; by split. }
  intros i q (Hq & Hl & n & next & Hn & [Hm Hnum He Hc Hs Hu Hv Hlen]). cbn [fst snd] in *.
  psteps. pend. split; try done; [by eapply numbered_methods_ok|lia].
Qed.
#[local] Hint Resolve ParseInterface_step : step.

(** ** The header and the body *)

Lemma ParseFeature_step attrs : step 1 wf_feature (ParseFeature ue attrs).
Proof.
  intros p Hg. unfold ParseFeature, FillEnableIfs. psteps.
  eapply pwp_step; [apply (while_step (Forall wf_const) (Forall wf_const))|done|].
  - intros cs q Hcs Hq. psteps.
  - auto with step.
  - intros. psteps.
Qed.
#[local] Hint Resolve ParseFeature_step : step.

Lemma ConsumeHeaderAttributeList_step : step 0 any (ConsumeHeaderAttributeList ue).
Proof. intros p Hg. unfold ConsumeHeaderAttributeList. psteps. Qed.
#[local] Hint Resolve ConsumeHeaderAttributeList_step : step.

Lemma ParseImport_step : step 1 any ParseImport.
Proof. intros p Hg. unfold ParseImport. psteps. Qed.
#[local] Hint Resolve ParseImport_step : step.

Lemma ParseImports_step : step 0 any (ParseImports ue).
Proof.
  apply (while_step any); [|done]. intros is_ p _ Hg. psteps.
Qed.
#[local] Hint Resolve ParseImports_step : step.

Lemma ParseModuleStatement_step : step 0 any ParseModuleStatement.
Proof. intros p Hg. unfold ParseModuleStatement. psteps. Qed.
#[local] Hint Resolve ParseModuleStatement_step : step.

Lemma ParseHeader_step : step 0 any (ParseHeader ue).
Proof. intros p Hg. unfold ParseHeader. psteps. Qed.
#[local] Hint Resolve ParseHeader_step : step.

Lemma ParseTopLevel_step m attrs :
  module_ok m → step 1 module_ok (ParseTopLevel LONG_MAX ue m attrs).
Proof.
  intros [H1 H2 H3 H4 H5 H6] p Hg. unfold ParseTopLevel. destruct m as [n im es ss us is_ cs fs].
  cbn [mod_enums mod_structs mod_unions mod_interfaces mod_consts mod_features] in *. psteps.
  all: pend; split; cbn; auto with step.
Qed.
#[local] Hint Resolve ParseTopLevel_step : step.

Lemma ParseBodyStep_step m p :
  module_ok m → good p → pwp (ParseBodyStep LONG_MAX ue m) (λ r p', good p' ∧
    match r with
    | inl m' => module_ok m' ∧ (length (rest p') < length (rest p))%nat
    | inr m' => module_ok m' ∧ (length (rest p') <= length (rest p))%nat
    end) p.
Proof. intros Hm Hg. unfold ParseBodyStep. psteps. Qed.

(** A prelude leaves the unions of results alone. *)
Definition keeps_unions {A} (f : Env → A → Env) : Prop :=
  ∀ x a, pending_result_unions_ (f x a) = pending_result_unions_ x.

Lemma fold_keeps {A} (f : Env → A → Env) l x :
  keeps_unions f → pending_result_unions_ (fold_left f l x) = pending_result_unions_ x.
Proof. intros Hf. revert x. induction l as [|a l IH]; intros x; simpl; [done|]. by rewrite IH. Qed.

Lemma seed_struct_members_keeps s x :
  pending_result_unions_ (seed_struct_members s x) = pending_result_unions_ x.
Proof. unfold seed_struct_members. rewrite !fold_keeps by (by intros [] ?). done. Qed.

Lemma SeedFromPrelude_keeps pre x :
  pending_result_unions_ (SeedFromPrelude pre x) = pending_result_unions_ x.
Proof.
  unfold SeedFromPrelude. rewrite !fold_keeps; [by destruct x|..].
  - intros y s. unfold seed_struct. rewrite seed_struct_members_keeps. by destruct y.
  - by intros [] ?.
  - by intros [] ?.
  - intros y i. unfold seed_interface. rewrite !fold_keeps; [done|by intros [] ?..| |by intros [] ?].
    intros z s. rewrite seed_struct_members_keeps. by destruct z.
  - by intros [] ?.
  - intros y f. by rewrite fold_keeps by (by intros [] ?).
Qed.

Lemma module_typed m : module_ok m → typed_module m.
Proof.
  intros [_ Hs Hu Hi _ _]. unfold typed_module, module_nodes.
  assert (∀ ss, Forall struct_ok ss → Forall (λ nd, Forall typed nd.2) (map struct_node ss)) as HS.
  { intros ss H. apply Forall_map. eapply Forall_impl; [exact H|]. intros s []. simpl.
    apply Forall_map. by eapply Forall_impl; [|intros; apply wf_typed]. }
  assert (∀ us, Forall union_ok us → Forall (λ nd, Forall typed nd.2) (map union_node us)) as HU.
  { intros us H. apply Forall_map. eapply Forall_impl; [exact H|]. intros u []. simpl.
    apply Forall_map. by eapply Forall_impl; [|intros; apply wf_typed]. }
  rewrite !Forall_app. split_and!; [auto..|]. apply Forall_flat_map.
  eapply Forall_impl; [exact Hi|]. intros i []. rewrite Forall_app. auto.
Qed.

Definition acyclic (m : Module_) : Prop := ∀ k, ¬ tc (embeds m) k k.

Lemma CheckCompleteTypeAcyclic_fine m line :
  module_ok m → fine (λ _, acyclic m) (CheckCompleteTypeAcyclic m line).
Proof.
  intros Hm. by destruct (CheckCompleteTypeAcyclic_spec m line (module_typed m Hm))
    as [[-> ?]|(k & msg & -> & _)].
Qed.
#[local] Hint Resolve CheckCompleteTypeAcyclic_fine : step.

Lemma ParseBody_step pre :
  step 0 (λ m, module_ok m ∧ acyclic m) (ParseBody LONG_MAX ue pre).
Proof.
  intros p Hg. unfold ParseBody. do 2 pstep1. apply pwp_bind.
  eapply pwp_step; [apply update_step|done|].
  { intros x. destruct pre; [apply SeedFromPrelude_keeps|done]. }
  intros _ q Hq Hl _. apply pwp_bind.
  eapply pwp_step; [apply (while_step module_ok module_ok); [apply ParseBodyStep_step|done]|done|].
  intros m q' Hq' Hl' [He Hs Hu Hi Hc Hf]. do 2 pstep1.
  assert (module_ok (mkModule (mod_name m) (mod_imports m) (mod_enums m) (mod_structs m)
    (mod_unions m ++ pending_result_unions_ (env q')) (mod_interfaces m) (mod_consts m)
    (mod_features m))) as Hm.
  { split; cbn; try done. apply Forall_app. split; [done|]. by destruct Hq'. }
  psteps.
Qed.
End decls.
