(* ===== verification/ParseTotal.v ===== *)
(** * The parser on the tokens of a source

    The two scans of the parser's constructor end; the tokens of any source meet
    the invariant of [ParseSafe]; and so [Parse] ends on every source, with a
    well-formed module without cycles or an exception. *)
From S2P Require Import Prelude Lexer Ast Scan Parser ParseDecl Embed LexProps.
From S2P Require Import ParseSafe EmbedProps.
From Stdlib Require Import Ascii SpecFloat.

(** ** [CollectEnumValues] *)

Definition scannable (ts : list Token) : Prop := Forall number_ok ts.

(** [r] is what is left of [ts]. *)
Definition tail_of (r ts : list Token) : Prop :=
  (length r <= length ts)%nat ∧ (scannable ts → scannable r).

Lemma tail_refl ts : tail_of ts ts.
Proof. by split. Qed.

Lemma tail_trans a b c : tail_of a b → tail_of b c → tail_of a c.
Proof. intros [? ?] [? ?]. split; [lia|auto]. Qed.

Lemma tail_cons t r ts : tail_of (t :: r) ts → tail_of r ts.
Proof.
  intros [H1 H2]. split; [simpl in H1; lia|]. intros H%H2. by apply Forall_cons_1 in H as [_ ?].
Qed.

Lemma skip_to_bracket_tail ts : tail_of (skip_to_bracket ts) ts.
Proof.
  induction ts as [|t ts IH]; simpl; [apply tail_refl|].
  assert (tail_of ts (t :: ts)) as Ht by apply (tail_cons t), tail_refl.
  case_bool_decide; [done|]. by eapply tail_trans.
Qed.

Lemma scan_value_fine ts next vs :
  scannable ts → int32 next → values_ok vs →
  fine (λ vr, int32 (fst vr) ∧ tail_of (snd vr) ts) (scan_value ts next vs).
Proof.
  intros Hs Hn Hv. unfold scan_value. destruct ts as [|e r1]; [by split; [|apply tail_refl]|].
  case_bool_decide as He; [|by split; [|apply tail_refl]].
  assert (tail_of r1 (e :: r1)) as T1 by apply (tail_cons e), tail_refl.
  set (mr := match r1 with [] => _ | _ => _ end).
  assert (tail_of (snd mr) (e :: r1)) as T2.
  { unfold mr. destruct r1 as [|m r2]; [done|]. case_bool_decide; [|done]. by eapply tail_cons. }
  destruct mr as [neg r2]. cbn [snd] in T2. destruct r2 as [|n r3].
  { split; [by split|done]. }
  pose proof (tail_cons _ _ _ T2) as T3.
  destruct (bool_decide _ || _) eqn:Hk.
  - assert (text n ≠ []) as Hne.
    { assert (Forall number_ok (n :: r3)) as Hs' by apply T2, Hs.
      apply Forall_cons_1 in Hs' as [Hn' _].
      apply (number_text _ Hn'). apply orb_true_iff in Hk as [Hk|Hk];
        apply bool_decide_eq_true in Hk; auto. }
    pose proof (ParseIntLiteral_fine neg (text n) Hne) as Hf.
    destruct (ParseIntLiteral neg (text n)) as [|v]; [done|]. split; [apply i32_range|done].
  - clear Hk. destruct (bool_decide_reflect (tok_type n = kName)); [|split; [by split|done]]. split; [|done]. cbn [fst].
    destruct (find_value _ _) eqn:Ef; [by eapply find_value_range|by split].
Qed.

Lemma scan_values_fine fuel ts next vs :
  (length ts < fuel)%nat → scannable ts → int32 next → values_ok vs →
  fine (λ vr, values_ok (fst vr) ∧ tail_of (snd vr) ts) (scan_values fuel ts next vs).
Proof.
  revert ts next vs. induction fuel as [|fuel IH]; intros ts next vs Hf Hs Hn Hv; [lia|].
  destruct ts as [|t r]; [by split; [|apply tail_refl]|]. cbn [scan_values].
  assert (tail_of r (t :: r)) as T1 by apply (tail_cons t), tail_refl. simpl in Hf.
  assert (∀ ts' next vs, tail_of ts' r → int32 next → values_ok vs →
    fine (λ vr, values_ok (fst vr) ∧ tail_of (snd vr) (t :: r)) (scan_values fuel ts' next vs)) as Hrec.
  { intros ts' nx vs' T Hnx Hvs. pose proof (tail_trans _ _ _ T T1) as T'.
    specialize (IH ts' nx vs'). destruct T as [Tl _], T' as [T'l T's].
    specialize (IH ltac:(lia) (T's Hs) Hnx Hvs).
    destruct (scan_values fuel ts' nx vs') as [|[vs2 r2]]; [done|]. destruct IH as [? IH].
    split; [done|]. by eapply tail_trans; [|split; [exact T'l|exact T's]]. }
  case_bool_decide as Hb.
  { apply Hrec; [|done..]. simpl. rewrite bool_decide_false by (by rewrite Hb).
    apply skip_to_bracket_tail. }
  destruct (negb _) eqn:Hname; [by split; [|apply tail_refl]|].
  pose proof (scan_value_fine r next vs (proj2 T1 Hs) Hn Hv) as Hval.
  destruct (scan_value r next vs) as [|[v r2]]; [done|]. destruct Hval as [Hv32 T2].
  cbn [fst snd] in *. pose proof (succ32_fine v Hv32) as Hsucc.
  destruct (succ32 v) as [|next']; [done|]. simpl in Hsucc.
  assert (values_ok (vs ++ [EnumValue_init (text t) v])) as Hvs' by (by apply Forall_snoc).
  destruct r2 as [|c r3]; [split; [done|]; by eapply tail_trans|].
  destruct (bool_decide_reflect (tok_type c = kComma)); [|split; [done|]; by eapply tail_trans].
  apply Hrec; [|done..]. by eapply tail_cons.
Qed.

Lemma scan_enum_fine ts :
  scannable ts → fine (λ vr, values_ok (fst vr) ∧ tail_of (snd vr) ts) (scan_enum ts).
Proof.
  intros Hs. unfold scan_enum. destruct ts as [|b r]; [split; [apply Forall_nil_2|apply tail_refl]|].
  case_bool_decide; [|split; [apply Forall_nil_2|apply tail_refl]].
  assert (tail_of r (b :: r)) as T by apply (tail_cons b), tail_refl.
  pose proof (scan_values_fine (S (length r)) r 0 [] ltac:(lia) (proj2 T Hs) ltac:(by split)
    (Forall_nil_2 _)) as Hv.
  destruct (scan_values _ _ _ _) as [|[vs r']]; [done|]. destruct Hv. split; [done|].
  by eapply tail_trans.
Qed.

Lemma collect_enums_fine fuel ts result :
  (length ts < fuel)%nat → scannable ts → fine any (collect_enums fuel ts result).
Proof.
  revert ts result. induction fuel as [|fuel IH]; intros ts result Hf Hs; [lia|].
  destruct ts as [|t [|n r]]; [done..|]. cbn [collect_enums]. simpl in Hf.
  assert (tail_of (n :: r) (t :: n :: r)) as T1 by apply (tail_cons t), tail_refl.
  pose proof (tail_cons _ _ _ T1) as T2.
  destruct (_ || _ || _); [apply IH; [simpl; lia|by apply T1]|].
  pose proof (scan_enum_fine r (proj2 T2 Hs)) as H.
  destruct (scan_enum r) as [|[vs r']]; [done|]. destruct H as [_ [Hl Hr]]. cbn [snd] in *.
  apply IH; [lia|]. by apply Hr, T2.
Qed.

Lemma CollectEnumValues_fine ts : scannable ts → fine any (CollectEnumValues ts).
Proof. apply collect_enums_fine. lia. Qed.

(** ** The tokens of a source *)

Lemma digits_not_dot l : starts_with isdigit (ch "." :: l) = false.
Proof. done. Qed.

Lemma stod_shape ue ds frac expo :
  digits ds → fraction frac → exponent expo → ds ≠ [] ∨ frac ≠ [] →
  fine any (stod ue (ds ++ frac ++ expo)).
Proof.
  intros Hd Hf He Hne.
  assert (starts_with isdigit (frac ++ expo) = false) as Hst.
  { destruct Hf as [->|(fs & -> & _)]; [|done].
    destruct He as [->|(e & sg & es & -> & [-> | ->] & _)]; done. }
  assert (starts_with isdigit expo = false) as Hse.
  { destruct He as [->|(e & sg & es & -> & [-> | ->] & _)]; done. }
  unfold stod. rewrite span_app by done.
  assert (∀ ds' l2, ds ++ ds' ≠ [] → fine any
    (let expo := match l2 with _ :: l3 => exponent_value l3 | [] => 0 end in
     let m := number_value 10 (ds ++ ds') in
     if bool_decide (ds ++ ds' = []) then inl StdInvalidArgument
     else if m =? 0 then inr (S754_zero false)
     else match decimal_float m (expo - Z.of_nat (length ds')) with
          | S754_infinity _ => inl StdOutOfRange
          | f => if ue && below_normal f then inl StdOutOfRange else inr f
          end)) as Hend.
  { intros ds' l2 H. cbn zeta. rewrite bool_decide_false by done. by repeat case_match. }
  destruct Hf as [->|(fs & -> & Hfs & Hfd)].
  - destruct Hne as [Hne|]; [|done]. rewrite app_nil_l.
    destruct He as [->|(e & sg & es & -> & He & _)]; [apply (Hend [] []); by rewrite app_nil_r|].
    cbn [app]. rewrite (proj2 (Z.eqb_neq e (ch "."))) by (by destruct He as [-> | ->]).
    apply (Hend [] (e :: sg ++ es)). by rewrite app_nil_r.
  - cbn [app]. rewrite Z.eqb_refl, span_app by done. apply (Hend fs expo).
    destruct ds; [by rewrite app_nil_l|done].
Qed.

Lemma token_number_ok t : token_ok t → number_ok t.
Proof.
  unfold token_ok, number_ok. destruct (tok_type t); try done.
  - by intros [? _].
  - by intros (x & l & -> & _).
  - intros (ds & frac & expo & -> & ? & ? & ? & _ & ?). split; by apply stod_shape.
Qed.

Lemma scans_length LONG_MAX l line ts :
  scans LONG_MAX l line ts → (length ts <= S (length l))%nat.
Proof.
  induction 1 as [|c l line rest line' ts E _ IH|c l line t rest line' ts E _ IH]; simpl; [lia|..].
  all: pose proof (lex_one_ok LONG_MAX c l line) as Hs; rewrite E in Hs.
  - destruct Hs as (pre & Hl & Hne & _). apply (f_equal length) in Hl.
    rewrite length_app in Hl. simpl in Hl. lia.
  - destruct Hs as ((pre & Hl & Hne & _) & _). apply (f_equal length) in Hl.
    rewrite length_app in Hl. destruct pre; [done|]. simpl in Hl. lia.
Qed.

Lemma Tokenize_good LONG_MAX src ts e :
  Tokenize LONG_MAX src = inr ts → Z.of_nat (length src) < 2 ^ 31 - 1 →
  pending_result_unions_ e = [] → good (mkParser ts e).
Proof.
  intros E Hl He. pose proof (lex_loop_ok LONG_MAX (length src) src 1 (le_n _)) as H.
  unfold Tokenize in E. rewrite E in H. pose proof (scans_length _ _ _ _ H) as Hlen.
  destruct (scans_sound _ _ _ _ H) as (body & -> & Hb).
  split; cbn [rest env].
  - by eexists body, _.
  - apply Forall_app. split; [|by repeat constructor].
    eapply Forall_impl; [exact Hb|]. intros t [Ht _]. by apply token_number_ok.
  - rewrite He. constructor.
  - lia.
Qed.

Lemma Parse_fine LONG_MAX ue src ts :
  Tokenize LONG_MAX src = inr ts → Z.of_nat (length src) < 2 ^ 31 - 1 →
  fine (λ m, module_ok m ∧ acyclic m) (Parse LONG_MAX ue ts).
Proof.
  intros E Hl. unfold Parse, Parser_new.
  pose proof (Tokenize_good _ _ _ (mkEnv [] (CollectDeclaredNames ts) ∅ ∅ ∅ ∅ 0 0 [] ∅ ∅ ∅ ∅ None)
    E Hl eq_refl) as Hs.
  pose proof (CollectEnumValues_fine ts (good_numbers _ Hs)) as Hc.
  destruct (CollectEnumValues ts) as [|enums]; [done|].
  pose proof (Tokenize_good _ _ _ (mkEnv [] (CollectDeclaredNames ts) enums ∅ ∅ ∅ 0 0 [] ∅ ∅ ∅ ∅ None)
    E Hl eq_refl) as Hg. clear Hs Hc.
  match goal with |- fine _ (match ?run ?p with _ => _ end) =>
    assert (pwp run (λ m _, module_ok m ∧ acyclic m) p) as H; [|revert H; unfold pwp;
      generalize (run p)] end.
  { apply pwp_bind. eapply pwp_step; [apply ParseHeader_step|exact Hg|].
    intros h p Hp _ _. apply pwp_bind. eapply pwp_step; [apply ParseBody_step|exact Hp|].
    intros m q _ _ [Hm Ha]. apply pwp_ret. destruct Hm. split; [by split|].
    exact Ha. }
  by intros [|[m q]].
Qed.

(** A source with every kind of member, to try the properties on. *)
Definition sample_source : list Z :=
  bytes "module a.b; enum E { A = 3, B, [Default] C }; const int8 K = -0x10; "
  ++ bytes "struct S { array<map<string, E>> x; [MinVersion=2] T? t; double d = 1.5e3; }; "
  ++ bytes "struct T { array<U, 2> u; }; union U { int8 a; bool b@0; string c@1; E d; }; "
  ++ bytes "interface I { [Sync] F@1(S s) => (T t); G@0() => result<int32, E>; };".
Definition sample_tokens : list Token :=
  match Tokenize (2 ^ 63 - 1) sample_source with inr ts => ts | inl _ => [] end.
Definition sample_module : Module_ :=
  match Parse (2 ^ 63 - 1) false sample_tokens with inr m => m | inl _ => Module_init end.

Lemma sample_tokenizes : Tokenize (2 ^ 63 - 1) sample_source = inr sample_tokens.
Proof. vm_compute. reflexivity. Qed.

Lemma sample_parses : Parse (2 ^ 63 - 1) false sample_tokens = inr sample_module.
Proof. vm_compute. reflexivity. Qed.

(** ** The properties *)

(** C15: The parser is total and safe: on the tokens of any source below two
    gigabytes it returns a module, or throws a [ParseError] or
    [std::out_of_range], or overflows the [int32_t] of an enumerator; no loop
    runs on, no token is read outside the vector, no null type is followed and
    no conversion is handed a text without digits. *)
Theorem parse_total LONG_MAX ue src ts :
  Tokenize LONG_MAX src = inr ts → Z.of_nat (length src) < 2 ^ 31 - 1 →
  match Parse LONG_MAX ue ts with
  | inr _ | inl (ParseError _ _) | inl StdOutOfRange | inl SignedOverflow => True
  | inl StdInvalidArgument | inl BadAccess | inl NoFuel => False
  end.
Proof.
  intros E Hl. pose proof (Parse_fine LONG_MAX ue src ts E Hl) as H.
  by destruct (Parse LONG_MAX ue ts) as [[]|].
Qed.

Lemma parse_total_witness : 
  match Parse (2 ^ 63 - 1) false sample_tokens with
  | inr _ | inl (ParseError _ _) | inl StdOutOfRange | inl SignedOverflow => True
  | inl StdInvalidArgument | inl BadAccess | inl NoFuel => False
  end.
Proof.
  apply (parse_total (2 ^ 63 - 1) false sample_source sample_tokens);
    [exact sample_tokenizes|vm_compute; reflexivity].
Defined.

(** C16: What the parser returns is well typed: arrays have elements, maps keys
    and values; enumerators are 32-bit and at most one is the default; a union
    has a member, and its untagged members the smallest tags, in order, that no
    tagged member has; the version of a struct,
    union or interface is the largest of its members'; a [Sync] method has a
    response, one that returns a result has one response parameter; explicit ordinals stay below the two reserved ones; and the
    methods of an interface all have explicit ordinals or are numbered in
    order. *)
Theorem parse_module_ok LONG_MAX ue src ts m :
  Tokenize LONG_MAX src = inr ts → Z.of_nat (length src) < 2 ^ 31 - 1 →
  Parse LONG_MAX ue ts = inr m → module_ok m.
Proof.
  intros E Hl Hm. pose proof (Parse_fine LONG_MAX ue src ts E Hl) as H.
  rewrite Hm in H. apply H.
Qed.

Lemma parse_module_ok_witness : module_ok sample_module.
Proof.
  apply (parse_module_ok (2 ^ 63 - 1) false sample_source sample_tokens sample_module);
    [exact sample_tokenizes|vm_compute; reflexivity|exact sample_parses].
Defined.

(** No struct or union of a parsed module holds itself by value, whatever
    the path: so the C++ classes made of them can be completed in some order. *)
Theorem parse_acyclic LONG_MAX ue src ts m :
  Tokenize LONG_MAX src = inr ts → Z.of_nat (length src) < 2 ^ 31 - 1 →
  Parse LONG_MAX ue ts = inr m → acyclic m.
Proof.
  intros E Hl Hm. pose proof (Parse_fine LONG_MAX ue src ts E Hl) as H.
  rewrite Hm in H. apply H.
Qed.

Lemma parse_acyclic_witness : acyclic sample_module.
Proof.
  apply (parse_acyclic (2 ^ 63 - 1) false sample_source sample_tokens sample_module);
    [exact sample_tokenizes|vm_compute; reflexivity|exact sample_parses].
Defined.
