(* ===== verification/EnableIf.v ===== *)
(** * [EnableIf]

    The end of [src/src/parser.cc]: whether the flags of the command line enable
    a declaration, and [ApplyEnableIf], which drops what they do not enable from
    a module before code is generated from it. *)
From S2P Require Import Prelude Lexer Ast ParseDecl Embed EmbedProps.

(** What [x.enable_if] means for the types [EraseDisabled] is used at. *)
Class Gated (A : Type) := enable_of : A → EnableIf.
#[export] Instance Gated_EnumValue : Gated EnumValue := v_enable_if.
#[export] Instance Gated_EnumDecl : Gated EnumDecl := e_enable_if.
#[export] Instance Gated_ConstDecl : Gated ConstDecl := c_enable_if.
#[export] Instance Gated_StructField : Gated StructField := f_enable_if.
#[export] Instance Gated_StructDecl : Gated StructDecl := s_enable_if.
#[export] Instance Gated_UnionField : Gated UnionField := uf_enable_if.
#[export] Instance Gated_UnionDecl : Gated UnionDecl := u_enable_if.
#[export] Instance Gated_Method : Gated Method := m_enable_if.
#[export] Instance Gated_Interface : Gated Interface := i_enable_if.
#[export] Instance Gated_FeatureDecl : Gated FeatureDecl := ft_enable_if.

Section filter.
Context (enabled : gset (list Z)).

Definition ClauseMatches (clause : EnableIfClause) (negate : bool) : bool :=
  let count f := bool_decide (f ∈ enabled) in
  match mode clause with
  | kNone => true
  | kAny =>
      let hit := existsb count (flags clause) in if negate then negb hit else hit
  | kAll =>
      let hit := negb (bool_decide (flags clause = [])) && forallb count (flags clause) in
      if negate then negb hit else hit
  end.

Definition IsDeclEnabled (spec : EnableIf) : bool :=
  ClauseMatches (enable_if spec) false && ClauseMatches (enable_if_not spec) true.

Definition EraseDisabled {A} `{Gated A} (v : list A) : list A :=
  List.filter (λ x, IsDeclEnabled (enable_of x)) v.

Definition FilterEnum (e : EnumDecl) : EnumDecl :=
  mkEnumDecl (e_name e) (EraseDisabled (e_values e)) (e_is_extensible e) (e_is_native e)
    (e_enable_if e).

Definition FilterStruct (s : StructDecl) : StructDecl :=
  let fields := EraseDisabled (s_fields s) in
  mkStructDecl (s_name s) fields (map FilterEnum (EraseDisabled (s_enums s)))
    (EraseDisabled (s_consts s)) (s_decl_index s)
    (max_version f_min_version fields)
    (s_owner_container s) (s_is_native s) (s_enable_if s).

Definition FilterUnion (u : UnionDecl) : UnionDecl :=
  let fields := EraseDisabled (u_fields u) in
  mkUnionDecl (u_name u) fields (u_decl_index u)
    (max_version uf_min_version fields)
    (u_is_extensible u) (u_owner_container u) (u_enable_if u).

(** [erase(remove_if(fields.empty()))]. *)
Definition drop_empty (us : list UnionDecl) : list UnionDecl :=
  List.filter (λ u, negb (bool_decide (length (u_fields u) = 0%nat))) us.

Definition FilterInterface (i : Interface) : Interface :=
  let methods := EraseDisabled (i_methods i) in
  mkInterface (i_name i) methods (map FilterEnum (EraseDisabled (i_enums i)))
    (EraseDisabled (i_consts i)) (map FilterStruct (EraseDisabled (i_structs i)))
    (drop_empty (map FilterUnion (EraseDisabled (i_unions i))))
    (max_version m_min_version methods)
    (i_is_extensible i) (i_enable_if i).

Definition FilterFeature (ft : FeatureDecl) : FeatureDecl :=
  mkFeatureDecl (ft_name ft) (EraseDisabled (ft_consts ft)) (ft_enable_if ft).

Definition ApplyEnableIf (m : Module_) : Module_ :=
  mkModule (mod_name m) (mod_imports m)
    (map FilterEnum (EraseDisabled (mod_enums m)))
    (map FilterStruct (EraseDisabled (mod_structs m)))
    (drop_empty (map FilterUnion (EraseDisabled (mod_unions m))))
    (map FilterInterface (EraseDisabled (mod_interfaces m)))
    (EraseDisabled (mod_consts m))
    (map FilterFeature (EraseDisabled (mod_features m))).
End filter.

(** * What [ApplyEnableIf] keeps

    The flags decide each declaration by itself; what is left is a module all of
    whose declarations are enabled, with versions to match, and filtering such a
    module changes nothing.  A module without cycles of complete types stays
    without them. *)

(** The flags as the attributes mean them. *)
Definition enabled_by (enabled : gset Key) (spec : EnableIf) : Prop :=
  match mode (enable_if spec) with
  | kNone => True
  | kAny => ∃ f, f ∈ flags (enable_if spec) ∧ f ∈ enabled
  | kAll => flags (enable_if spec) ≠ [] ∧ ∀ f, f ∈ flags (enable_if spec) → f ∈ enabled
  end ∧
  match mode (enable_if_not spec) with
  | kNone => True
  | kAny => ∀ f, f ∈ flags (enable_if_not spec) → f ∉ enabled
  | kAll => flags (enable_if_not spec) = [] ∨ ∃ f, f ∈ flags (enable_if_not spec) ∧ f ∉ enabled
  end.

Section filter.
Context (enabled : gset Key).

Lemma any_hit fs :
  existsb (λ f, bool_decide (f ∈ enabled)) fs = true ↔ ∃ f, f ∈ fs ∧ f ∈ enabled.
Proof.
  rewrite existsb_exists. setoid_rewrite bool_decide_eq_true. by setoid_rewrite <- list_elem_of_In.
Qed.

Lemma all_hit fs :
  forallb (λ f, bool_decide (f ∈ enabled)) fs = true ↔ ∀ f, f ∈ fs → f ∈ enabled.
Proof.
  rewrite forallb_forall. setoid_rewrite bool_decide_eq_true. by setoid_rewrite <- list_elem_of_In.
Qed.

Lemma any_miss fs :
  existsb (λ f, bool_decide (f ∈ enabled)) fs = false ↔ ∀ f, f ∈ fs → f ∉ enabled.
Proof. rewrite <- not_true_iff_false, any_hit. naive_solver. Qed.

Lemma all_miss fs :
  forallb (λ f, bool_decide (f ∈ enabled)) fs = false ↔ ∃ f, f ∈ fs ∧ f ∉ enabled.
Proof.
  induction fs as [|x fs IH]; simpl; [set_solver|]. rewrite andb_false_iff, IH, bool_decide_eq_false.
  split; [intros [?|(f & ? & ?)]; [exists x|exists f]; set_solver|].
  intros (f & [->|?]%elem_of_cons & ?); eauto.
Qed.

Lemma IsDeclEnabled_iff spec : IsDeclEnabled enabled spec = true ↔ enabled_by enabled spec.
Proof.
  unfold IsDeclEnabled, enabled_by, ClauseMatches. rewrite andb_true_iff.
  destruct (mode (enable_if spec)), (mode (enable_if_not spec));
    rewrite ?negb_andb, ?negb_involutive, ?orb_true_iff, ?andb_true_iff, ?negb_true_iff,
      ?bool_decide_eq_true, ?bool_decide_eq_false, ?any_hit, ?all_hit, ?any_miss, ?all_miss; tauto.
Qed.

Definition on {A} `{Gated A} (x : A) : Prop := enabled_by enabled (enable_of x).

(** ** Modules in which everything is enabled *)

Definition gated_enum (e : EnumDecl) : Prop := Forall on (e_values e).

Record gated_struct (s : StructDecl) : Prop := {
  gs_fields : Forall on (s_fields s);
  gs_enums : Forall (λ e, on e ∧ gated_enum e) (s_enums s);
  gs_consts : Forall on (s_consts s);
  gs_version : s_version s = max_version f_min_version (s_fields s)
}.

Record gated_union (u : UnionDecl) : Prop := {
  gu_fields : Forall on (u_fields u);
  gu_some : u_fields u ≠ [];
  gu_version : u_version u = max_version uf_min_version (u_fields u)
}.

Record gated_interface (i : Interface) : Prop := {
  gi_methods : Forall on (i_methods i);
  gi_enums : Forall (λ e, on e ∧ gated_enum e) (i_enums i);
  gi_consts : Forall on (i_consts i);
  gi_structs : Forall (λ s, on s ∧ gated_struct s) (i_structs i);
  gi_unions : Forall (λ u, on u ∧ gated_union u) (i_unions i);
  gi_version : i_version i = max_version m_min_version (i_methods i)
}.

Record gated_module (m : Module_) : Prop := {
  gm_enums : Forall (λ e, on e ∧ gated_enum e) (mod_enums m);
  gm_structs : Forall (λ s, on s ∧ gated_struct s) (mod_structs m);
  gm_unions : Forall (λ u, on u ∧ gated_union u) (mod_unions m);
  gm_interfaces : Forall (λ i, on i ∧ gated_interface i) (mod_interfaces m);
  gm_consts : Forall on (mod_consts m);
  gm_features : Forall (λ f, on f ∧ Forall on (ft_consts f)) (mod_features m)
}.

Lemma EraseDisabled_on {A} `{Gated A} (v : list A) : Forall on (EraseDisabled enabled v).
Proof.
  unfold EraseDisabled. induction v as [|x v IH]; simpl; [constructor|].
  destruct (IsDeclEnabled _ _) eqn:E; [|done]. constructor; [|done]. by apply IsDeclEnabled_iff.
Qed.

Lemma EraseDisabled_id {A} `{Gated A} (v : list A) : Forall on v → EraseDisabled enabled v = v.
Proof.
  unfold EraseDisabled. induction 1 as [|x v Hx _ IH]; simpl; [done|].
  by rewrite (proj2 (IsDeclEnabled_iff _) Hx), IH.
Qed.

(** A member list is filtered, then its members. *)
Lemma filtered_on {A} `{Gated A} (f : A → A) (good : A → Prop) v :
  (∀ x, enable_of (f x) = enable_of x) → (∀ x, good (f x)) →
  Forall (λ x, on x ∧ good x) (map f (EraseDisabled enabled v)).
Proof.
  intros Hf Hg. apply Forall_map. eapply Forall_impl; [apply EraseDisabled_on|].
  intros x Hx. unfold on in *. simpl. by rewrite Hf.
Qed.

Lemma filtered_id {A} `{Gated A} (f : A → A) (good : A → Prop) v :
  (∀ x, good x → f x = x) → Forall (λ x, on x ∧ good x) v →
  map f (EraseDisabled enabled v) = v.
Proof.
  intros Hf Hv. rewrite EraseDisabled_id by (eapply Forall_impl; [exact Hv|]; by intros x []).
  induction Hv as [|x v [_ Hx] _ IH]; simpl; [done|]. by rewrite Hf, IH.
Qed.

Lemma drop_empty_Forall (Q : UnionDecl → Prop) us :
  Forall (λ u, u_fields u ≠ [] → Q u) us → Forall Q (drop_empty us).
Proof.
  unfold drop_empty. induction 1 as [|u us Hu _ IH]; simpl; [constructor|].
  case_bool_decide as E; simpl; [done|]. constructor; [|done]. apply Hu. by intros Hn; rewrite Hn in E.
Qed.

Lemma drop_empty_id us : Forall (λ u, on u ∧ gated_union u) us → drop_empty us = us.
Proof.
  unfold drop_empty. induction 1 as [|u us [_ [_ Hu _]] _ IH]; simpl; [done|].
  rewrite bool_decide_false by (by intros ?%nil_length_inv). simpl. by rewrite IH.
Qed.

Lemma FilterEnum_gated e : gated_enum (FilterEnum enabled e).
Proof. apply EraseDisabled_on. Qed.

Lemma FilterEnum_id e : gated_enum e → FilterEnum enabled e = e.
Proof. intros H. destruct e. unfold FilterEnum. simpl in *. by rewrite EraseDisabled_id. Qed.

Lemma FilterStruct_gated s : gated_struct (FilterStruct enabled s).
Proof.
  split; [apply EraseDisabled_on|apply (filtered_on (FilterEnum enabled)); [done|apply FilterEnum_gated]
    |apply EraseDisabled_on|done].
Qed.

Lemma FilterStruct_id s : gated_struct s → FilterStruct enabled s = s.
Proof.
  intros [H1 H2 H3 H4]. destruct s. unfold FilterStruct. simpl in *.
  rewrite (filtered_id _ gated_enum), !EraseDisabled_id by (done || apply FilterEnum_id). by rewrite H4.
Qed.

Lemma FilterUnion_gated u : u_fields (FilterUnion enabled u) ≠ [] → gated_union (FilterUnion enabled u).
Proof. intros H. split; [apply EraseDisabled_on|done..]. Qed.

Lemma FilterUnion_id u : gated_union u → FilterUnion enabled u = u.
Proof.
  intros [H1 H2 H3]. destruct u. unfold FilterUnion. simpl in *.
  rewrite EraseDisabled_id by done. by rewrite H3.
Qed.

Lemma FilterUnions_gated us :
  Forall (λ u, on u ∧ gated_union u) (drop_empty (map (FilterUnion enabled) (EraseDisabled enabled us))).
Proof.
  apply drop_empty_Forall, Forall_map. eapply Forall_impl; [apply EraseDisabled_on|].
  intros u Hu Hne. split; [exact Hu|by apply FilterUnion_gated].
Qed.

Lemma FilterUnions_id us :
  Forall (λ u, on u ∧ gated_union u) us →
  drop_empty (map (FilterUnion enabled) (EraseDisabled enabled us)) = us.
Proof.
  intros H. rewrite (filtered_id _ gated_union) by (done || apply FilterUnion_id).
  by apply drop_empty_id.
Qed.

Lemma FilterInterface_gated i : gated_interface (FilterInterface enabled i).
Proof.
  split; [apply EraseDisabled_on| |apply EraseDisabled_on| |apply FilterUnions_gated|done].
  - apply (filtered_on (FilterEnum enabled)); [done|apply FilterEnum_gated].
  - apply (filtered_on (FilterStruct enabled)); [done|apply FilterStruct_gated].
Qed.

Lemma FilterInterface_id i : gated_interface i → FilterInterface enabled i = i.
Proof.
  intros [H1 H2 H3 H4 H5 H6]. destruct i. unfold FilterInterface. simpl in *.
  rewrite FilterUnions_id, (filtered_id _ gated_enum), (filtered_id _ gated_struct), !EraseDisabled_id
    by (done || apply FilterEnum_id || apply FilterStruct_id). by rewrite H6.
Qed.

Lemma FilterFeature_id f : Forall on (ft_consts f) → FilterFeature enabled f = f.
Proof. intros H. destruct f. unfold FilterFeature. simpl in *. by rewrite EraseDisabled_id. Qed.

Lemma ApplyEnableIf_gated m : gated_module (ApplyEnableIf enabled m).
Proof.
  split; [..|apply EraseDisabled_on|].
  - apply (filtered_on (FilterEnum enabled)); [done|apply FilterEnum_gated].
  - apply (filtered_on (FilterStruct enabled)); [done|apply FilterStruct_gated].
  - apply FilterUnions_gated.
  - apply (filtered_on (FilterInterface enabled)); [done|apply FilterInterface_gated].
  - apply (filtered_on (FilterFeature enabled)); [done|intros f; apply EraseDisabled_on].
Qed.

Lemma ApplyEnableIf_id m : gated_module m → ApplyEnableIf enabled m = m.
Proof.
  intros [H1 H2 H3 H4 H5 H6]. destruct m. unfold ApplyEnableIf. simpl in *.
  rewrite FilterUnions_id, (filtered_id _ gated_enum), (filtered_id _ gated_struct),
    (filtered_id _ gated_interface), (filtered_id _ (λ f, Forall on (ft_consts f))), EraseDisabled_id
    by (done || apply FilterEnum_id || apply FilterStruct_id || apply FilterInterface_id ||
        apply FilterFeature_id). done.
Qed.
End filter.

(** ** What is kept *)

Section kept.
Context (enabled : gset Key).

(** [v'] is [v] without what is not enabled: the rest in order, unchanged. *)
Definition kept {A} `{Gated A} (v v' : list A) : Prop :=
  v' `sublist_of` v ∧ ∀ x, x ∈ v' ↔ x ∈ v ∧ on enabled x.

Lemma elem_of_EraseDisabled {A} `{Gated A} (v : list A) x :
  x ∈ EraseDisabled enabled v ↔ x ∈ v ∧ on enabled x.
Proof.
  unfold EraseDisabled, on. rewrite <- IsDeclEnabled_iff, !list_elem_of_In. by rewrite List.filter_In.
Qed.

Lemma EraseDisabled_kept {A} `{Gated A} (v : list A) : kept v (EraseDisabled enabled v).
Proof.
  split; [|apply elem_of_EraseDisabled]. unfold EraseDisabled.
  induction v as [|x v IH]; simpl; [done|]. destruct (IsDeclEnabled _ _); by constructor.
Qed.

Lemma in_filtered {A} `{Gated A} (f : A → A) v x :
  x ∈ v → on enabled x → f x ∈ map f (EraseDisabled enabled v).
Proof.
  intros Hx Ho. rewrite list_elem_of_In. apply in_map, list_elem_of_In. by apply elem_of_EraseDisabled.
Qed.

Lemma in_drop_empty u us : u_fields u ≠ [] → u ∈ us → u ∈ drop_empty us.
Proof.
  intros Hu Hin. unfold drop_empty. apply list_elem_of_In, List.filter_In.
  split; [by apply list_elem_of_In|]. rewrite bool_decide_false; [done|]. by intros ?%nil_length_inv.
Qed.

(** ** Cycles *)

Lemma drop_empty_in us u : u ∈ drop_empty us → u ∈ us.
Proof. unfold drop_empty. rewrite !list_elem_of_In, List.filter_In. tauto. Qed.

Lemma filtered_in {A} `{Gated A} (f : A → A) v y :
  y ∈ map f (EraseDisabled enabled v) → ∃ x, y = f x ∧ x ∈ v ∧ on enabled x.
Proof.
  rewrite list_elem_of_In, in_map_iff. intros (x & <- & Hx%list_elem_of_In).
  apply elem_of_EraseDisabled in Hx as [? ?]. by exists x.
Qed.

(** Nodes of the graph, with some of their types. *)
Definition within (nodes' nodes : list (Key * list TypeSpec)) : Prop :=
  ∀ o ts', (o, ts') ∈ nodes' → ∃ ts, (o, ts) ∈ nodes ∧ ts' ⊆ ts.

Lemma within_app a a' b b' : within a' a → within b' b → within (a' ++ b') (a ++ b).
Proof.
  intros Ha Hb o ts' [H|H]%elem_of_app; [apply Ha in H as (ts & ? & ?)|apply Hb in H as (ts & ? & ?)];
    exists ts; split; try done; apply elem_of_app; auto.
Qed.

Lemma map_subset {A} (f : A → TypeSpec) (v v' : list A) :
  (∀ x, x ∈ v' → x ∈ v) → map f v' ⊆ map f v.
Proof.
  intros H t. rewrite !list_elem_of_In, !in_map_iff. intros (x & <- & Hx).
  exists x. split; [done|]. by apply list_elem_of_In, H, list_elem_of_In.
Qed.

Lemma structs_within ss :
  within (map struct_node (map (FilterStruct enabled) (EraseDisabled enabled ss))) (map struct_node ss).
Proof.
  intros o ts'. rewrite list_elem_of_In, in_map_iff. intros (s' & E & Hs%list_elem_of_In).
  apply filtered_in in Hs as (s & -> & Hs & _). unfold struct_node in E. simpl in E. injection E as <- <-.
  exists (map f_type (s_fields s)). split.
  - apply list_elem_of_In, (in_map struct_node), list_elem_of_In, Hs.
  - apply map_subset. intros x Hx. by apply elem_of_EraseDisabled in Hx as [].
Qed.

Lemma unions_within us :
  within (map union_node (drop_empty (map (FilterUnion enabled) (EraseDisabled enabled us))))
    (map union_node us).
Proof.
  intros o ts'. rewrite list_elem_of_In, in_map_iff. intros (u' & E & Hu%list_elem_of_In).
  apply drop_empty_in, filtered_in in Hu as (u & -> & Hu & _).
  unfold union_node in E. simpl in E. injection E as <- <-.
  exists (map uf_type (u_fields u)). split.
  - apply list_elem_of_In, (in_map union_node), list_elem_of_In, Hu.
  - apply map_subset. intros x Hx. by apply elem_of_EraseDisabled in Hx as [].
Qed.

Lemma ApplyEnableIf_within m : within (module_nodes (ApplyEnableIf enabled m)) (module_nodes m).
Proof.
  unfold module_nodes. simpl. apply within_app; [apply structs_within|].
  apply within_app; [apply unions_within|].
  intros o ts'. rewrite list_elem_of_In, in_flat_map. intros (i' & Hi%list_elem_of_In & Ho).
  apply filtered_in in Hi as (i & -> & Hi & _). simpl in Ho. apply list_elem_of_In in Ho.
  apply (within_app _ _ _ _ (structs_within (i_structs i)) (unions_within (i_unions i))) in Ho
    as (ts & Hts & Hsub).
  exists ts. split; [|done]. apply list_elem_of_In, in_flat_map. exists i.
  split; [by apply list_elem_of_In|]. by apply list_elem_of_In.
Qed.

Lemma embeds_within m m' d o :
  within (module_nodes m') (module_nodes m) → embeds m' d o → embeds m d o.
Proof.
  intros Hw (ts' & t & deps & H1 & H2 & H3 & H4 & H5).
  destruct (Hw _ _ H1) as (ts & Hts & Hsub). exists ts, t, deps. split_and!; [done|by apply Hsub|done..|].
  apply elem_of_list_to_set in H5. apply elem_of_list_to_set.
  apply list_elem_of_In, in_map_iff in H5 as ([d' dts] & <- & Hd%list_elem_of_In).
  destruct (Hw _ _ Hd) as (dts' & Hdts & _). apply list_elem_of_In, (in_map fst) with (x := (d', dts')).
  by apply list_elem_of_In.
Qed.

Lemma tc_embeds_within m m' k o :
  within (module_nodes m') (module_nodes m) → tc (embeds m') k o → tc (embeds m) k o.
Proof.
  intros Hw. induction 1 as [x y H|x y z H _ IH].
  - apply tc_once. by apply (embeds_within m m').
  - eapply tc_l; [|exact IH]. by apply (embeds_within m m').
Qed.

(** ** The properties *)

(** After [ApplyEnableIf] every declaration, at every depth, is one that the
    flags enable, no union is empty and versions are those of the members left;
    and a module is left unchanged exactly when it is like that already, so
    applying it twice is applying it once. *)
Theorem enable_if_normal_form m :
  gated_module enabled (ApplyEnableIf enabled m) ∧
  (ApplyEnableIf enabled m = m ↔ gated_module enabled m).
Proof.
  split; [apply ApplyEnableIf_gated|]. split; [|apply ApplyEnableIf_id].
  intros <-. apply ApplyEnableIf_gated.
Qed.

(** [ApplyEnableIf] drops nothing else, and numbers nothing anew: an enabled
    struct, union or interface stays under its name with exactly its enabled
    fields or methods, each unchanged with its tag or ordinal, in order; only a
    union that lost all its members goes. *)
Theorem enable_if_keeps m :
  let m' := ApplyEnableIf enabled m in
  (∀ s, s ∈ mod_structs m → on enabled s → ∃ s', s' ∈ mod_structs m' ∧
     s_name s' = s_name s ∧ s_decl_index s' = s_decl_index s ∧ kept (s_fields s) (s_fields s')) ∧
  (∀ u, u ∈ mod_unions m → on enabled u → (∃ f, f ∈ u_fields u ∧ on enabled f) →
     ∃ u', u' ∈ mod_unions m' ∧
     u_name u' = u_name u ∧ u_decl_index u' = u_decl_index u ∧ kept (u_fields u) (u_fields u')) ∧
  (∀ i, i ∈ mod_interfaces m → on enabled i → ∃ i', i' ∈ mod_interfaces m' ∧
     i_name i' = i_name i ∧ kept (i_methods i) (i_methods i')) ∧
  (∀ e, e ∈ mod_enums m → on enabled e → ∃ e', e' ∈ mod_enums m' ∧
     e_name e' = e_name e ∧ kept (e_values e) (e_values e')) ∧
  kept (mod_consts m) (mod_consts m').
Proof.
  cbn zeta. split_and!; [..|apply EraseDisabled_kept].
  - intros s Hs Ho. exists (FilterStruct enabled s).
    split_and!; [by apply (in_filtered (FilterStruct enabled))|done..|apply EraseDisabled_kept].
  - intros u Hu Ho (f & Hf & Hon). exists (FilterUnion enabled u).
    split_and!; [|done..|apply EraseDisabled_kept].
    apply in_drop_empty; [|by apply (in_filtered (FilterUnion enabled))]. simpl.
    assert (f ∈ EraseDisabled enabled (u_fields u)) as Hin by (by apply elem_of_EraseDisabled).
    intros E. rewrite E in Hin. by apply not_elem_of_nil in Hin.
  - intros i Hi Ho. exists (FilterInterface enabled i).
    split_and!; [by apply (in_filtered (FilterInterface enabled))|done|apply EraseDisabled_kept].
  - intros e He Ho. exists (FilterEnum enabled e).
    split_and!; [by apply (in_filtered (FilterEnum enabled))|done|apply EraseDisabled_kept].
Qed.

(** What [ApplyEnableIf] leaves of a module without cycles of complete types
    has none either, so the check of the parser need not be made again. *)
Theorem enable_if_acyclic m :
  (∀ k, ¬ tc (embeds m) k k) → ∀ k, ¬ tc (embeds (ApplyEnableIf enabled m)) k k.
Proof. intros H k Hk. apply (H k). eapply tc_embeds_within; [apply ApplyEnableIf_within|exact Hk]. Qed.
End kept.

(** [A] holds two [B]s, and if [x] is given one more; [C] holds a [B]. *)
Definition gated_field (n : Key) (t : TypeSpec) (fl : list Key) : StructField :=
  mkStructField t n DefaultValue_init 0 0 false
    (mkEnableIf (mkEnableIfClause (if bool_decide (fl = []) then kNone else kAny) fl)
       EnableIfClause_init).
Definition gated_demo : Module_ :=
  mkModule [] [] []
    [mkStructDecl (bytes "A")
       [gated_field (bytes "p") (mkTypeSpec kArray [] (Some (demo_ref (bytes "B"))) None false [] [] 2) [];
        gated_field (bytes "q") (demo_ref (bytes "B")) [bytes "x"]] [] [] 0 0 [] false EnableIf_init;
     demo_struct (bytes "B") (TypeSpec_init kInt8); demo_struct (bytes "C") (demo_ref (bytes "B"))]
    [] [] [] [].

Lemma enable_if_acyclic_witness :
  (∀ k, ¬ tc (embeds gated_demo) k k) ∧ ∀ k, ¬ tc (embeds (ApplyEnableIf ∅ gated_demo)) k k.
Proof.
  assert (∀ k, ¬ tc (embeds gated_demo) k k) as H.
  { apply (accepted_acyclic gated_demo 0); [repeat constructor; by eexists|by vm_compute]. }
  split; [exact H|]. exact (enable_if_acyclic ∅ gated_demo H).
Defined.
