(* ===== verification/Loader.v ===== *)
(** * The module loader

    [src/src/module_loader.cc]: paths, the search for an import, and the loading
    of a file after its imports into a graph in dependency order.  [read_file]
    is a parameter, as in the code; so are the options of a run. *)
From S2P Require Import Prelude Lexer Ast TypeIntern Scan Parser ParseDecl EnableIf.
From Stdlib Require Import Ascii.

(** ** Paths *)

Definition SLASH : Z := 47.
Definition is_sep (c : Z) : bool := (c =? SLASH) || (c =? BACKSLASH).

(** [path.substr(0, path.find_last_of(...))]. *)
Definition DirName (path : list Z) : list Z :=
  match snd (span (λ c, negb (is_sep c)) (rev path)) with
  | _ :: dir => rev dir
  | [] => []
  end.

Definition JoinPath (dir rel : list Z) : list Z :=
  if bool_decide (dir = []) then rel
  else if is_sep (List.last dir 0) then dir ++ rel else dir ++ [SLASH] ++ rel.

(** The pieces between slashes. *)
Fixpoint split_path (l : list Z) : list (list Z) :=
  match l with
  | [] => [[]]
  | c :: l' =>
      if c =? SLASH then [] :: split_path l'
      else match split_path l' with s :: ss => (c :: s) :: ss | [] => [[c]] end
  end.

Definition DOT : list Z := bytes ".".
Definition DOTS : list Z := bytes "..".

(** One segment; the head of [stack] is its [back()]. *)
Definition push_segment (prefix : list Z) (stack : list (list Z)) (seg : list Z) : list (list Z) :=
  if bool_decide (seg = []) || bool_decide (seg = DOT) then stack
  else if bool_decide (seg = DOTS) then
    match stack with
    | top :: stack' =>
        if negb (bool_decide (top = DOTS)) then stack'
        else if bool_decide (prefix = []) then DOTS :: stack else stack
    | [] => if bool_decide (prefix = []) then [DOTS] else []
    end
  else seg :: stack.

Fixpoint join_path (segs : list (list Z)) : list Z :=
  match segs with
  | [] => []
  | [s] => s
  | s :: segs' => s ++ [SLASH] ++ join_path segs'
  end.

(** The prefix, [/] or a drive or nothing, and what follows. *)
Definition path_prefix (unified : list Z) : list Z * list Z :=
  match unified with
  | a :: b :: c :: l =>
      if isalpha a && (b =? ch ":") && (c =? SLASH) then ([a; b; c], l)
      else if a =? SLASH then ([SLASH], b :: c :: l) else ([], unified)
  | a :: l => if a =? SLASH then ([SLASH], l) else ([], unified)
  | [] => ([], [])
  end.

Definition unify (path : list Z) : list Z :=
  map (λ c, if c =? BACKSLASH then SLASH else c) path.

Definition NormalizePath (path : list Z) : list Z :=
  let '(prefix, l) := path_prefix (unify path) in
  let stack := fold_left (push_segment prefix) (split_path l) [] in
  let result := prefix ++ join_path (rev stack) in
  if bool_decide (result = []) then DOT else result.

(** ** Messages *)

(** [LexError::what()] and [ParseError::what()]. *)
Definition at_line (msg : list Z) (line : Z) : list Z :=
  msg ++ bytes " (line " ++ to_string line ++ bytes ")".
Definition lex_text (m : LexMessage) : list Z :=
  match m with
  | UnterminatedBlockComment => bytes "unterminated block comment"
  | InvalidHexLiteral => bytes "invalid hex literal (no digits after '0x')"
  | OctalNotAllowed => bytes "octal values are not allowed"
  | UnterminatedStringLiteral => bytes "unterminated string literal"
  | UnexpectedCharacter c => bytes "unexpected character '" ++ [c] ++ bytes "'"
  end.

(** How a load can fail: [LoadError], or an exception it does not catch; and
    lack of fuel in this model, which [load_terminates] excludes. *)
Inductive LoadFailure :=
  | LoadError (msg : list Z)
  | LexEscape (e : LexException)
  | ParseEscape (e : ParseException)
  | LoadNoFuel.

Definition LoadError_at (msg in_file : list Z) (line : Z) : LoadFailure :=
  LoadError (msg ++ bytes " (" ++ in_file ++
    (if 0 <? line then bytes ":" ++ to_string line else []) ++ bytes ")").

Fixpoint chain (loading : list (list Z)) : list Z :=
  match loading with [] => [] | p :: l => p ++ bytes " -> " ++ chain l end.
Definition CycleChainMessage (loading : list (list Z)) (closing_path : list Z) : list Z :=
  bytes "import cycle: " ++ chain loading ++ closing_path.

(** ** Declarations of earlier files *)

(** [for (x : xs) owner_by_name[x.name] = ns]. *)
Definition own {A} (name : A → list Z) (ns : list Z) (xs : list A) (owner : gmap (list Z) (list Z))
    : gmap (list Z) (list Z) :=
  fold_left (λ o x, <[name x := ns]> o) xs owner.

Definition own_struct (ns : list Z) (owner : gmap (list Z) (list Z)) (s : StructDecl)
    : gmap (list Z) (list Z) :=
  own c_name ns (s_consts s) (own e_name ns (s_enums s) (<[s_name s := ns]> owner)).

Definition own_interface (ns : list Z) (owner : gmap (list Z) (list Z)) (i : Interface)
    : gmap (list Z) (list Z) :=
  let owner := <[i_name i := ns]> owner in
  let owner := own c_name ns (i_consts i) (own e_name ns (i_enums i) owner) in
  own u_name ns (i_unions i) (fold_left (own_struct ns) (i_structs i) owner).

Definition own_module (ns : list Z) (src : Module_) (owner : gmap (list Z) (list Z))
    : gmap (list Z) (list Z) :=
  let owner := own e_name ns (mod_enums src) owner in
  let owner := fold_left (own_struct ns) (mod_structs src) owner in
  let owner := own u_name ns (mod_unions src) owner in
  let owner := fold_left (own_interface ns) (mod_interfaces src) owner in
  let owner := own c_name ns (mod_consts src) owner in
  fold_left (λ o ft, own c_name ns (ft_consts ft) o) (mod_features src) owner.

Definition MergeIntoAccumulated (accumulated : Prelude_) (src : Module_) (owner_namespace : list Z)
    : Prelude_ :=
  let dst := prelude_module accumulated in
  mkPrelude
    (mkModule (mod_name dst) (mod_imports dst) (mod_enums dst ++ mod_enums src)
       (mod_structs dst ++ mod_structs src) (mod_unions dst ++ mod_unions src)
       (mod_interfaces dst ++ mod_interfaces src) (mod_consts dst ++ mod_consts src)
       (mod_features dst ++ mod_features src))
    (own_module owner_namespace src (prelude_owner_by_name accumulated)).

(** ** Loading *)

Record LoadedFile := mkLoadedFile { resolved_path : list Z; lf_module : Module_ }.

(** What a load changes: the members of [LoadState] that are no options, the
    accumulated declarations and the graph. *)
Record LoadState := mkLoadState {
  merged : gset (list Z);
  loading : list (list Z);
  failed : gset (list Z);
  skipped : list (list Z);
  accumulated : Prelude_;
  graph : list LoadedFile
}.

Definition LoadState_init : LoadState := mkLoadState ∅ [] ∅ [] Prelude_init [].

Definition Load (A : Type) : Type := LoadFailure + A.

Definition push_loading (path : list Z) (st : LoadState) : LoadState :=
  mkLoadState (merged st) (loading st ++ [path]) (failed st) (skipped st) (accumulated st) (graph st).
Definition skip (msg : list Z) (st : LoadState) : LoadState :=
  mkLoadState (merged st) (loading st) (failed st) (skipped st ++ [msg]) (accumulated st) (graph st).

(** An import with the path it was found at. *)
Definition resolve_to (path : list Z) (imp : ImportDecl) : ImportDecl :=
  mkImportDecl (imp_path imp) (imp_line imp) path.

Section loader.
Context (LONG_MAX : Z) (underflow_erange : bool).
Context (import_dirs : list (list Z)) (read_file : list Z → option (list Z)).
(** [enabled_features], and whether [skipped] is not null. *)
Context (enabled : gset (list Z)) (per_file : bool).

(** The first of the paths that can be read, with its content. *)
Fixpoint first_readable (candidates : list (list Z)) : option (list Z * list Z) :=
  match candidates with
  | [] => None
  | c :: cs =>
      match read_file c with Some content => Some (c, content) | None => first_readable cs end
  end.

Definition ResolveImport (import_path importer_dir : list Z) : option (list Z * list Z) :=
  first_readable (NormalizePath (JoinPath importer_dir import_path) ::
    map (λ dir, NormalizePath (JoinPath dir import_path)) import_dirs).

Definition GiveUp (path msg : list Z) (st : LoadState) : Load LoadState :=
  let st := mkLoadState ({[path]} ∪ merged st) (removelast (loading st)) ({[path]} ∪ failed st)
              (skipped st) (accumulated st) (graph st) in
  if per_file then inr (skip msg st) else inl (LoadError msg).

Definition in_file (path what : list Z) : list Z :=
  bytes "in '" ++ path ++ bytes "': " ++ what.

(** The loop over the imports of the file at [path]. *)
Fixpoint load_imports (load : list Z → list Z → LoadState → Load LoadState) (path : list Z)
    (imports : list ImportDecl) (st : LoadState) : Load (list ImportDecl * LoadState) :=
  match imports with
  | [] => inr ([], st)
  | imp :: imports' =>
      match ResolveImport (imp_path imp) (DirName path) with
      | None =>
          if per_file then
            match load_imports load path imports'
              (skip (bytes "cannot resolve import '" ++ imp_path imp ++ bytes "' (imported from '" ++
                 path ++ bytes "')") st) with
            | inr (l, st) => inr (resolve_to [] imp :: l, st)
            | inl e => inl e
            end
          else
            inl (LoadError_at (bytes "cannot resolve import '" ++ imp_path imp ++ bytes "'") path
                   (imp_line imp))
      | Some (found, content) =>
          match load found content st with
          | inl e => inl e
          | inr st =>
              match load_imports load path imports' st with
              | inr (l, st') =>
                  inr (resolve_to (if bool_decide (found ∈ failed st) then [] else found) imp :: l, st')
              | inl e => inl e
              end
          end
      end
  end.

(** The module with its header, the imports resolved. *)
Definition file_module (h : FileHeader) (imports : list ImportDecl) (body : Module_) : Module_ :=
  mkModule (h_module_name h) imports (mod_enums body) (mod_structs body) (mod_unions body)
    (mod_interfaces body) (mod_consts body) (mod_features body).

(** The end of a load that succeeds. *)
Definition add_file (path : list Z) (h : FileHeader) (imports : list ImportDecl) (body : Module_)
    (st : LoadState) : LoadState :=
  let m := ApplyEnableIf enabled (file_module h imports body) in
  mkLoadState ({[path]} ∪ merged st) (removelast (loading st)) (failed st) (skipped st)
    (MergeIntoAccumulated (accumulated st) m (h_module_name h))
    (graph st ++ [mkLoadedFile path m]).

(** The file at [path], whose path was pushed on [loading]. *)
Definition load_file (load : list Z → list Z → LoadState → Load LoadState) (path content : list Z)
    (st : LoadState) : Load LoadState :=
  match Tokenize LONG_MAX content with
  | inl (LexError m line) => GiveUp path (in_file path (at_line (lex_text m) line)) st
  | inl e => inl (LexEscape e)
  | inr tokens =>
      match Parser_new tokens with
      | inl e => inl (ParseEscape e)
      | inr p =>
          match ParseHeader underflow_erange p with
          | inl (ParseError m line) => GiveUp path (in_file path (at_line m line)) st
          | inl e => inl (ParseEscape e)
          | inr (h, p) =>
              match load_imports load path (h_imports h) st with
              | inl e => inl e
              | inr (imports, st) =>
                  match ParseBody LONG_MAX underflow_erange (Some (accumulated st)) p with
                  | inl (ParseError m line) => GiveUp path (in_file path (at_line m line)) st
                  | inl e => inl (ParseEscape e)
                  | inr (body, _) => inr (add_file path h imports body st)
                  end
              end
          end
      end
  end.

Fixpoint LoadFileInto (fuel : nat) (path content : list Z) (st : LoadState) : Load LoadState :=
  match fuel with
  | O => inl LoadNoFuel
  | S fuel' =>
      if bool_decide (path ∈ merged st) then inr st
      else if bool_decide (path ∈ loading st) then
        inl (LoadError (CycleChainMessage (loading st) path))
      else load_file (LoadFileInto fuel') path content (push_loading path st)
  end.

(** The graph, the messages of the files skipped, and [entry_loaded]. *)
Definition LoadModuleGraph (fuel : nat) (entry_path : list Z)
    : Load (list LoadedFile * list (list Z) * bool) :=
  let normalized_entry := NormalizePath entry_path in
  match read_file normalized_entry with
  | None => inl (LoadError (bytes "cannot open '" ++ entry_path ++ bytes "' for reading"))
  | Some entry_content =>
      match LoadFileInto fuel normalized_entry entry_content LoadState_init with
      | inl e => inl e
      | inr st =>
          inr (graph st, skipped st,
               match last (graph st) with
               | Some f => bool_decide (resolved_path f = normalized_entry)
               | None => false
               end)
      end
  end.
End loader.
