(* ===== verification/PathProps.v ===== *)
(** * Paths

    [NormalizePath] of the module loader is idempotent, and two paths have the
    same normal form exactly when they lead to the same place from everywhere. *)
From S2P Require Import Prelude Lexer Loader.
From Stdlib Require Import Ascii.

(** ** Segments *)

Definition no_slash (s : list Z) : Prop := SLASH ∉ s.

Lemma split_path_ne l : split_path l ≠ [].
Proof. destruct l as [|c l]; simpl; [done|]. case_match; [done|]. by case_match. Qed.

Lemma split_path_no_slash l : Forall no_slash (split_path l).
Proof.
  induction l as [|c l IH]; simpl; [by repeat constructor; apply not_elem_of_nil|].
  destruct (Z.eqb_spec c SLASH) as [->|Hc]; [constructor; [apply not_elem_of_nil|done]|].
  destruct (split_path l) as [|s ss]; [repeat constructor; apply not_elem_of_cons; split;
    [done|apply not_elem_of_nil]|].
  apply Forall_cons_1 in IH as [Hs Hss]. constructor; [|done]. by apply not_elem_of_cons.
Qed.

Lemma split_path_app s l : no_slash s → split_path (s ++ SLASH :: l) = s :: split_path l.
Proof.
  induction s as [|c s IH]; simpl; [done|]. intros [Hc Hs]%not_elem_of_cons.
  rewrite IH by done. by rewrite (proj2 (Z.eqb_neq c SLASH)).
Qed.

Lemma split_path_one s : no_slash s → split_path s = [s].
Proof.
  induction s as [|c s IH]; simpl; [done|]. intros [Hc Hs]%not_elem_of_cons.
  rewrite IH by done. by rewrite (proj2 (Z.eqb_neq c SLASH)).
Qed.

Lemma split_join segs : segs ≠ [] → Forall no_slash segs → split_path (join_path segs) = segs.
Proof.
  induction segs as [|s segs IH]; [done|]. intros _ [Hs Hss]%Forall_cons_1.
  destruct segs as [|s' segs']; [by apply split_path_one|].
  change (join_path (s :: s' :: segs')) with (s ++ SLASH :: join_path (s' :: segs')).
  rewrite split_path_app by done. by rewrite IH.
Qed.

(** ** Stacks *)

Definition plain (s : list Z) : Prop := s ≠ [] ∧ s ≠ DOT ∧ s ≠ DOTS.

(** Names over [k] times [..], the head being the last segment; only a relative
    path climbs. *)
Definition stack_ok (prefix : list Z) (stack : list (list Z)) : Prop :=
  ∃ names k, stack = names ++ replicate k DOTS ∧ Forall plain names ∧ (prefix ≠ [] → k = 0%nat).

Definition normal (prefix : list Z) (segs : list (list Z)) : list (list Z) :=
  fold_left (push_segment prefix) segs [].

(** Going down a path from a directory, the innermost name first; from the root
    [..] leads to the root. *)
Definition step_dir (d : list (list Z)) (seg : list Z) : list (list Z) :=
  if bool_decide (seg = []) || bool_decide (seg = DOT) then d
  else if bool_decide (seg = DOTS) then tail d
  else seg :: d.
Definition walk (d : list (list Z)) (segs : list (list Z)) : list (list Z) :=
  fold_left step_dir segs d.

Lemma walk_snoc d segs s : walk d (segs ++ [s]) = step_dir (walk d segs) s.
Proof. unfold walk. by rewrite fold_left_app. Qed.

Lemma step_dir_plain d s : plain s → step_dir d s = s :: d.
Proof. intros (H1 & H2 & H3). unfold step_dir. by rewrite !bool_decide_false. Qed.

Lemma walk_stack d names k :
  Forall plain names → walk d (rev (names ++ replicate k DOTS)) = names ++ drop k d.
Proof.
  induction 1 as [|s names Hs _ IH]; simpl.
  - assert (rev (replicate k DOTS) = replicate k DOTS) as ->.
    { clear. induction k as [|k IH]; simpl; [done|]. by rewrite IH, <- replicate_S_end. }
    revert d. induction k as [|k IH]; intros d; [by rewrite drop_0|]. simpl.
    change (step_dir d DOTS) with (tail d). rewrite IH. destruct d; simpl; [by rewrite drop_nil|done].
  - by rewrite walk_snoc, IH, step_dir_plain.
Qed.

Lemma push_ok prefix stack seg : stack_ok prefix stack → stack_ok prefix (push_segment prefix stack seg).
Proof.
  intros (names & k & -> & Hn & Hk). unfold push_segment.
  destruct (bool_decide_reflect (seg = [])) as [|H1]; [by exists names, k|].
  destruct (bool_decide_reflect (seg = DOT)) as [|H2]; [by exists names, k|]. cbn [orb].
  destruct (bool_decide_reflect (seg = DOTS)) as [_|H3].
  - destruct Hn as [|s names [? [? Hs]] Hn]; simpl.
    + destruct k as [|k]; simpl; case_bool_decide as Hp.
      * by exists [], 1%nat.
      * by exists [], 0%nat.
      * by exists [], (S (S k)).
      * by specialize (Hk Hp).
    + rewrite bool_decide_false by done. simpl. by exists names, k.
  - exists (seg :: names), k. split_and!; [done|by constructor|done].
Qed.

Lemma normal_ok prefix segs : stack_ok prefix (normal prefix segs).
Proof.
  unfold normal. assert (stack_ok prefix []) as H by (exists [], 0%nat; by repeat constructor).
  revert H. generalize (@nil (list Z)). induction segs as [|s segs IH]; intros st H; [done|].
  by apply IH, push_ok.
Qed.

(** A segment means the same on the stack as on the way. *)
Lemma push_walk prefix stack seg d :
  stack_ok prefix stack → (prefix ≠ [] → d = []) →
  walk d (rev (push_segment prefix stack seg)) = step_dir (walk d (rev stack)) seg.
Proof.
  intros (names & k & -> & Hn & Hk) Hd. unfold push_segment, step_dir at 1.
  destruct (bool_decide_reflect (seg = [])) as [->|H1]; [done|].
  destruct (bool_decide_reflect (seg = DOT)) as [->|H2]; [done|]. cbn [orb].
  destruct (bool_decide_reflect (seg = DOTS)) as [->|H3].
  - destruct Hn as [|s names Hs Hn]; simpl.
    + destruct k as [|k]; simpl; case_bool_decide as Hp; [done|by rewrite Hd| |by specialize (Hk Hp)].
      exact (walk_snoc d (rev (replicate k DOTS) ++ [DOTS]) DOTS).
    + rewrite bool_decide_false by apply Hs. simpl. by rewrite walk_snoc, step_dir_plain.
  - simpl. rewrite walk_snoc, step_dir_plain; done.
Qed.

Lemma normal_walk prefix segs d :
  (prefix ≠ [] → d = []) → walk d (rev (normal prefix segs)) = walk d segs.
Proof.
  intros Hd. induction segs as [|s segs IH] using rev_ind; [done|].
  unfold normal in *. rewrite fold_left_app, walk_snoc, <- IH. simpl.
  apply push_walk; [apply normal_ok|done].
Qed.

(** Stacks that lead to the same place from everywhere are equal. *)
Lemma stack_inj prefix st1 st2 :
  stack_ok prefix st1 → stack_ok prefix st2 →
  (∀ d, (prefix ≠ [] → d = []) → walk d (rev st1) = walk d (rev st2)) → st1 = st2.
Proof.
  intros (n1 & k1 & -> & H1 & K1) (n2 & k2 & -> & H2 & K2) H.
  assert (n1 = n2) as <-.
  { specialize (H [] (λ _, eq_refl)). by rewrite !walk_stack, !drop_nil, !app_nil_r in H. }
  destruct (decide (prefix = [])) as [->|Hp]; [|by rewrite K1, K2].
  specialize (H (replicate (k1 + k2) []) ltac:(done)). rewrite !walk_stack in H by done.
  apply app_inv_head, (f_equal length) in H. rewrite !length_drop, !length_replicate in H.
  by replace k2 with k1 by lia.
Qed.

(** Pushing the segments of a normal stack gives it back. *)
Lemma normal_rev prefix stack : stack_ok prefix stack → normal prefix (rev stack) = stack.
Proof.
  intros Hs. apply (stack_inj prefix); [apply normal_ok|done|].
  intros d Hd. by apply normal_walk.
Qed.

(** ** Normal forms *)

Definition clean (s : list Z) : Prop := no_slash s ∧ BACKSLASH ∉ s.

Lemma DOTS_clean : clean DOTS.
Proof. split; unfold no_slash; by apply (bool_decide_unpack _). Qed.

Lemma unify_clean p : BACKSLASH ∉ unify p.
Proof.
  unfold unify. rewrite list_elem_of_In, in_map_iff. intros (c & E & _).
  destruct (Z.eqb_spec c BACKSLASH); [done|congruence].
Qed.

Lemma unify_id u : BACKSLASH ∉ u → unify u = u.
Proof.
  unfold unify. induction u as [|c u IH]; simpl; [done|]. intros [Hc Hu]%not_elem_of_cons.
  rewrite IH by done. by rewrite (proj2 (Z.eqb_neq c BACKSLASH)).
Qed.

Lemma path_prefix_app u : u = fst (path_prefix u) ++ snd (path_prefix u).
Proof.
  destruct u as [|a [|b [|c l]]]; simpl; repeat case_match; simpl; try done.
  all: repeat match goal with H : (_ =? _) = true |- _ => apply Z.eqb_eq in H as -> end; done.
Qed.

(** A prefix that is there is found again. *)
Lemma path_prefix_again u pre l l' :
  path_prefix u = (pre, l) → pre ≠ [] → path_prefix (pre ++ l') = (pre, l').
Proof.
  intros E Hp. assert (pre = [SLASH] ∨ ∃ a b c, pre = [a; b; c] ∧
    isalpha a && (b =? ch ":") && (c =? SLASH) = true) as [->|(a & b & c & -> & H)].
  { destruct u as [|a [|b [|c l0]]]; simpl in E; repeat case_match; simplify_eq; auto.
    right. eexists _, _, _. split; [done|]. done. }
  - by destruct l' as [|b [|c l']].
  - simpl. by rewrite H.
Qed.

Lemma split_path_clean l : BACKSLASH ∉ l → Forall clean (split_path l).
Proof.
  intros H. assert (Forall (λ s, BACKSLASH ∉ s) (split_path l)) as Hb.
  { induction l as [|c l IH]; simpl; [repeat constructor; apply not_elem_of_nil|].
    apply not_elem_of_cons in H as [Hc Hl]. specialize (IH Hl).
    case_match; [constructor; [apply not_elem_of_nil|done]|].
    destruct (split_path l) as [|s ss]; [repeat constructor; apply not_elem_of_cons;
      split; [done|apply not_elem_of_nil]|].
    apply Forall_cons_1 in IH as [? ?]. constructor; [|done]. by apply not_elem_of_cons. }
  pose proof (split_path_no_slash l) as Hs. rewrite Forall_forall in *. intros s Hin. split; auto.
Qed.

Lemma normal_clean prefix segs : Forall clean segs → Forall clean (normal prefix segs).
Proof.
  unfold normal. assert (Forall clean []) as H by constructor. revert H.
  generalize (@nil (list Z)). induction segs as [|s segs IH]; intros st Hst; [done|].
  intros [Hs Hss]%Forall_cons_1. simpl. apply IH; [|done]. unfold push_segment.
  destruct (_ || _); [done|]. case_bool_decide; [|by constructor].
  pose proof DOTS_clean. destruct Hst as [|top st Ht Hst]; repeat case_match;
    repeat (apply Forall_cons_2; [done|]); by try apply Forall_nil_2.
Qed.

Lemma join_clean segs : Forall clean segs → BACKSLASH ∉ join_path segs.
Proof.
  induction 1 as [|s segs [_ Hs] Hss IH]; [apply not_elem_of_nil|].
  destruct segs as [|s' segs']; [done|].
  change (join_path (s :: s' :: segs')) with (s ++ SLASH :: join_path (s' :: segs')).
  rewrite not_elem_of_app, not_elem_of_cons. done.
Qed.

Lemma normal_join pre st :
  stack_ok pre st → Forall clean st → normal pre (split_path (join_path (rev st))) = st.
Proof.
  intros Hs Hc. destruct st as [|s st0 _] using rev_ind; [done|].
  rewrite split_join; [by apply normal_rev|by rewrite rev_app_distr|].
  apply Forall_rev. by eapply Forall_impl; [exact Hc|intros ? []].
Qed.

(** A path that ends in a normal stack is its own normal form. *)
Lemma NormalizePath_fixed u pre st :
  path_prefix u = (pre, join_path (rev st)) → stack_ok pre st → Forall clean st → BACKSLASH ∉ u →
  u ≠ [] → NormalizePath u = u.
Proof.
  intros E Hs Hc Hb Hu. unfold NormalizePath. rewrite unify_id, E by done.
  fold (normal pre (split_path (join_path (rev st)))). rewrite normal_join by done.
  pose proof (path_prefix_app u) as Eu. rewrite E in Eu. simpl in Eu. rewrite <- Eu.
  by rewrite bool_decide_false.
Qed.

(** The prefix and the stack of the normal form of a path. *)
Definition path_stack (p : list Z) : list (list Z) :=
  normal (fst (path_prefix (unify p))) (split_path (snd (path_prefix (unify p)))).

Lemma NormalizePath_eq p :
  NormalizePath p =
    let r := fst (path_prefix (unify p)) ++ join_path (rev (path_stack p)) in
    if bool_decide (r = []) then DOT else r.
Proof. unfold NormalizePath, path_stack, normal. by destruct (path_prefix (unify p)). Qed.

Lemma path_stack_spec p :
  stack_ok (fst (path_prefix (unify p))) (path_stack p) ∧ Forall clean (path_stack p) ∧
  BACKSLASH ∉ fst (path_prefix (unify p)).
Proof.
  pose proof (unify_clean p) as Hc. rewrite (path_prefix_app (unify p)) in Hc.
  apply not_elem_of_app in Hc as [H1 H2].
  split_and!; [apply normal_ok|by apply normal_clean, split_path_clean|done].
Qed.

Lemma NormalizePath_ne p : NormalizePath p ≠ [].
Proof. rewrite NormalizePath_eq. cbn zeta. by case_bool_decide. Qed.

(** A relative normal form may still read as a drive path: [./C:/x]. *)
Lemma drive_stack st a b c l :
  Forall clean st → stack_ok [] st → path_prefix (join_path (rev st)) = ([a; b; c], l) →
  ∃ st', l = join_path (rev st') ∧ stack_ok [a; b; c] st' ∧ Forall clean st'.
Proof.
  intros Hc Hs E. pose proof (path_prefix_app (join_path (rev st))) as Eu. rewrite E in Eu. simpl in Eu.
  assert (isalpha a && (b =? ch ":") && (c =? SLASH) = true) as Hd.
  { rewrite Eu in E. simpl in E. repeat case_match; done. }
  apply andb_true_iff in Hd as [[Ha Hb]%andb_true_iff Hcs].
  apply Z.eqb_eq in Hb as ->, Hcs as ->.
  destruct st as [|s1 st _] using rev_ind; [done|]. rewrite rev_app_distr in Eu. simpl in Eu.
  apply Forall_app in Hc as [Hc [[Hs1 _] _]%Forall_cons_1].
  destruct (rev st) as [|s2 ss] eqn:Er.
  { exfalso. apply Hs1. simpl in Eu. rewrite Eu. unfold ch. set_solver. }
  change (s1 ++ SLASH :: join_path (s2 :: ss) = a :: ch ":" :: SLASH :: l) in Eu.
  assert (a ≠ SLASH) as Ha' by (intros ->; by vm_compute in Ha).
  assert (s1 = [a; ch ":"] ∧ join_path (s2 :: ss) = l) as [-> <-].
  { destruct s1 as [|x [|y [|z s1]]]; simpl in Eu; simplify_eq; try done.
    exfalso. apply Hs1. set_solver. }
  exists st. rewrite Er. split_and!; [done| |done].
  destruct Hs as (names & k & Est & Hn & _). exists st, 0%nat. split_and!; [by rewrite app_nil_r| |done].
  destruct k as [|k].
  - rewrite app_nil_r in Est. rewrite <- Est in Hn. by apply Forall_app in Hn as [? _].
  - exfalso. rewrite replicate_S_end, app_assoc in Est. apply app_inj_tail in Est as [_ Es].
    injection Es as -> _. by vm_compute in Ha.
Qed.

Lemma not_rooted st l : Forall clean st → stack_ok [] st → path_prefix (join_path (rev st)) ≠ ([SLASH], l).
Proof.
  intros Hc Hs E. pose proof (path_prefix_app (join_path (rev st))) as Eu. rewrite E in Eu. simpl in Eu.
  destruct st as [|s1 st _] using rev_ind; [done|]. rewrite rev_app_distr in Eu. simpl in Eu.
  apply Forall_app in Hc as [_ [[Hs1 _] _]%Forall_cons_1].
  assert (s1 ≠ []) as Hne.
  { destruct Hs as (names & k & Est & Hn & _). intros ->.
    assert ([] ∈ names ++ replicate k DOTS) as [Hin|Hin]%elem_of_app.
    { rewrite <- Est. apply elem_of_app. right. by left. }
    - rewrite Forall_forall in Hn. by destruct (Hn _ Hin).
    - by apply elem_of_replicate in Hin as [? _]. }
  destruct s1 as [|x s1]; [done|]. apply Hs1. destruct (rev st); simpl in Eu; simplify_eq; left.
Qed.

Lemma prefix_cases u :
  fst (path_prefix u) = [] ∨ fst (path_prefix u) = [SLASH] ∨ ∃ a b c, fst (path_prefix u) = [a; b; c].
Proof. destruct u as [|a [|b [|c l]]]; simpl; repeat case_match; simpl; eauto 10. Qed.

Lemma NormalizePath_idem p : NormalizePath (NormalizePath p) = NormalizePath p.
Proof.
  pose proof (path_stack_spec p) as (Hs & Hc & Hb). pose proof (join_clean _ (Forall_rev Hc)) as Hj.
  rewrite (NormalizePath_eq p). cbn zeta. destruct (path_prefix (unify p)) as [pre l] eqn:Ep. cbn [fst] in *.
  case_bool_decide as Hr; [done|].
  destruct (decide (pre = [])) as [->|Hp].
  - cbn [app] in *. destruct (prefix_cases (join_path (rev (path_stack p)))) as [E|[E|(a & b & c & E)]];
      destruct (path_prefix (join_path (rev (path_stack p)))) as [pre' l'] eqn:E'; cbn [fst] in E; subst pre'.
    + apply (NormalizePath_fixed _ [] (path_stack p)); try done. rewrite E'. f_equal.
      pose proof (path_prefix_app (join_path (rev (path_stack p)))) as Eu. by rewrite E' in Eu.
    + by apply not_rooted in E'.
    + destruct (drive_stack _ _ _ _ _ Hc Hs E') as (st' & -> & Hs' & Hc').
      by apply (NormalizePath_fixed _ [a; b; c] st').
  - apply (NormalizePath_fixed _ pre (path_stack p)); try done.
    + by apply (path_prefix_again (unify p) pre l).
    + by apply not_elem_of_app.
Qed.

(** ** What a path means *)

(** Where the path leads from the directory [d]: a root, or nothing, and the
    names from there. *)
Definition place (p : list Z) (d : list (list Z)) : list Z * list (list Z) :=
  let '(prefix, l) := path_prefix (unify p) in
  (prefix, walk (if bool_decide (prefix = []) then d else []) (split_path l)).

(** Normalizing does not make a drive of the first segment, as of [./C:/x]. *)
Definition keeps_prefix (p : list Z) : Prop :=
  fst (path_prefix (NormalizePath p)) = fst (path_prefix (unify p)).

Lemma place_stack p d :
  place p d = (fst (path_prefix (unify p)),
    walk (if bool_decide (fst (path_prefix (unify p)) = []) then d else []) (rev (path_stack p))).
Proof.
  unfold place, path_stack. destruct (path_prefix (unify p)) as [prefix l]. cbn [fst snd].
  rewrite normal_walk; [done|]. intros Hp. by rewrite bool_decide_false.
Qed.

(** The stack can be read off the normal form. *)
Lemma stack_of_normal p :
  normal (fst (path_prefix (unify p)))
    (split_path (drop (length (fst (path_prefix (unify p)))) (NormalizePath p))) = path_stack p.
Proof.
  pose proof (path_stack_spec p) as (Hs & Hc & _). rewrite NormalizePath_eq. cbn zeta.
  set (prefix := fst _) in *. case_bool_decide as Hr.
  - apply app_nil in Hr as [Hp Hj]. rewrite Hp in *. simpl.
    rewrite <- (normal_join [] (path_stack p)) by done. by rewrite Hj.
  - rewrite drop_app_length. by apply normal_join.
Qed.

(** Normal forms of paths are canonical.  Normalizing twice is normalizing
    once; and two paths, of which neither has a first segment that reads as a
    drive, have the same normal form exactly when they lead from every directory
    to the same place, so the spellings of a file's path are told apart from
    other files' and only from those. *)
Theorem normalize_canonical p q :
  keeps_prefix p → keeps_prefix q →
  NormalizePath (NormalizePath p) = NormalizePath p ∧
  (NormalizePath p = NormalizePath q ↔ ∀ d, place p d = place q d).
Proof.
  intros Hp Hq. split; [apply NormalizePath_idem|].
  pose proof (path_stack_spec p) as (Sp & _). pose proof (path_stack_spec q) as (Sq & _). split.
  - intros E d. unfold keeps_prefix in *. rewrite E, Hq in Hp.
    rewrite !place_stack, <- (stack_of_normal p), <- (stack_of_normal q), E. by rewrite Hp.
  - intros E. assert (fst (path_prefix (unify p)) = fst (path_prefix (unify q))) as Epre.
    { specialize (E []). rewrite !place_stack in E. by injection E. }
    rewrite !NormalizePath_eq. rewrite Epre in *. f_equal.
    assert (path_stack p = path_stack q) as ->; [|done].
    apply (stack_inj (fst (path_prefix (unify q)))); [done..|]. intros d Hd.
    specialize (E d). rewrite !place_stack, Epre in E. injection E as E.
    case_bool_decide as Hb; [done|]. by rewrite (Hd Hb).
Qed.

Lemma normalize_canonical_witness :
  keeps_prefix (bytes "a/./../b//c") ∧ keeps_prefix (bytes "b\c") ∧
  NormalizePath (NormalizePath (bytes "a/./../b//c")) = NormalizePath (bytes "a/./../b//c") ∧
  (NormalizePath (bytes "a/./../b//c") = NormalizePath (bytes "b\c") ↔
   ∀ d, place (bytes "a/./../b//c") d = place (bytes "b\c") d).
Proof.
  assert (keeps_prefix (bytes "a/./../b//c")) as H1 by (by vm_compute).
  assert (keeps_prefix (bytes "b\c")) as H2 by (by vm_compute).
  split; [exact H1|]. split; [exact H2|].
  exact (normalize_canonical (bytes "a/./../b//c") (bytes "b\c") H1 H2).
Defined.
