(* ===== verification/LoaderProps.v ===== *)
(** * The module loader

    A load ends, and its graph holds each file once, after the files it imports,
    parsed in view of exactly the files before it. *)
From S2P Require Import Prelude Lexer Ast Scan Parser ParseDecl Embed EnableIf Loader.
From S2P Require Import LexProps EmbedProps ParseSafe ParseTotal EnableIf PathProps.
From Stdlib Require Import Ascii.

(** What a load may do to the state. *)
Record extends (st st' : LoadState) : Prop := {
  ex_loading : loading st' = loading st;
  ex_graph : ∃ more, graph st' = graph st ++ more;
  ex_merged : merged st ⊆ merged st';
  ex_failed : failed st ⊆ failed st'
}.

Lemma extends_refl st : extends st st.
Proof. split; try done. exists []. by rewrite app_nil_r. Qed.

Lemma extends_trans a b c : extends a b → extends b c → extends a c.
Proof.
  intros [L1 (m1 & G1) M1 F1] [L2 (m2 & G2) M2 F2]. split; [congruence| |set_solver..].
  exists (m1 ++ m2). by rewrite G2, G1, app_assoc.
Qed.

Lemma extends_skip msg st : extends st (skip msg st).
Proof. split; try done. exists []. by rewrite app_nil_r. Qed.
Section loader.
Context (LONG_MAX : Z) (ue : bool) (import_dirs : list Key) (read_file : Key → option Key).
Context (enabled : gset Key) (per_file : bool).

#[local] Abbreviation ResolveImport := (ResolveImport import_dirs read_file).
#[local] Abbreviation load_imports := (load_imports import_dirs read_file per_file).
#[local] Abbreviation load_file := (load_file LONG_MAX ue import_dirs read_file enabled per_file).
#[local] Abbreviation LoadFileInto := (LoadFileInto LONG_MAX ue import_dirs read_file enabled per_file).

(** The readable files are finitely many and of less than two gigabytes. *)
Context (files : gset Key).
Definition readable : Prop :=
  ∀ p c, read_file p = Some c → p ∈ files ∧ Z.of_nat (length c) < 2 ^ 31 - 1.

Definition paths (g : list LoadedFile) : list Key := map resolved_path g.

(** What the files of a graph declare, in the order they were loaded. *)
Definition prelude_of (g : list LoadedFile) : Prelude_ :=
  fold_left (λ a f, MergeIntoAccumulated a (lf_module f) (mod_name (lf_module f))) g Prelude_init.

(** The module of the file at [path], imports resolved to [imports], is what the
    parser makes of the file's content in view of the files [before] it. *)
Definition parsed_as (path : Key) (before : list LoadedFile) (imports : list ImportDecl)
    (m : Module_) : Prop :=
  ∃ content tokens p0 h p1 body p2,
    read_file path = Some content ∧ Tokenize LONG_MAX content = inr tokens ∧
    Parser_new tokens = inr p0 ∧ ParseHeader ue p0 = inr (h, p1) ∧
    ParseBody LONG_MAX ue (Some (prelude_of before)) p1 = inr (body, p2) ∧
    Forall2 (λ i i', i' = resolve_to (imp_resolved_path i') i) (h_imports h) imports ∧
    m = file_module h imports body.

(** Where an import of the file at [path] may be: in the directory of the importing
    file, then in each import directory. *)
Definition candidate (path import_path : Key) (i : nat) : option Key :=
  (λ dir, NormalizePath (JoinPath dir import_path)) <$> (DirName path :: import_dirs) !! i.
(** [found] is the first candidate that can be read. *)
Definition first_found (path import_path found : Key) : Prop :=
  ∃ i, candidate path import_path i = Some found ∧ is_Some (read_file found) ∧
    ∀ j other, (j < i)%nat → candidate path import_path j = Some other → read_file other = None.
Definition none_found (path import_path : Key) : Prop :=
  ∀ i other, candidate path import_path i = Some other → read_file other = None.

(** An import of the file at [path] leads to the first candidate that can be read, which
    is one of [before]; in the mode that skips files it leads nowhere if there is no
    such candidate, or if that one is not among them. *)
Definition import_ok (path : Key) (before : list LoadedFile) (imp : ImportDecl) : Prop :=
  first_found path (imp_path imp) (imp_resolved_path imp) ∧ imp_resolved_path imp ∈ paths before ∨
  per_file = true ∧ imp_resolved_path imp = [] ∧
  (none_found path (imp_path imp) ∨
   ∃ found, first_found path (imp_path imp) found ∧ found ∉ paths before).

Record file_ok (f : LoadedFile) (before : list LoadedFile) : Prop := {
  fo_parsed : ∃ m, parsed_as (resolved_path f) before (mod_imports (lf_module f)) m ∧
    lf_module f = ApplyEnableIf enabled m;
  fo_imports : Forall (import_ok (resolved_path f) before) (mod_imports (lf_module f));
  fo_acyclic : acyclic (lf_module f)
}.

Record load_inv (st : LoadState) : Prop := {
  li_files i f : graph st !! i = Some f → file_ok f (take i (graph st));
  li_nodup : NoDup (paths (graph st));
  li_merged p : p ∈ merged st ↔ p ∈ failed st ∨ p ∈ paths (graph st);
  li_failed p : p ∈ failed st → p ∉ paths (graph st);
  li_strict : per_file = false → failed st = ∅;
  li_stack : NoDup (loading st);
  li_loading p : p ∈ loading st → (p ∉ merged st) ∧ p ∈ files;
  li_acc : accumulated st = prelude_of (graph st)
}.

(** How a load may fail. *)
Definition fair (e : LoadFailure) : Prop :=
  match e with
  | LoadError _ | LexEscape StolOutOfRange | ParseEscape (StdOutOfRange | SignedOverflow) => True
  | _ => False
  end.

(** The end of a load of [path] from [st]. *)
Definition loaded (path : Key) (st : LoadState) (enough : Prop) (r : Load LoadState) : Prop :=
  match r with
  | inr st' =>
      load_inv st' ∧ extends st st' ∧ path ∈ merged st' ∧
      (path ∉ merged st → path ∈ failed st' ∨ resolved_path <$> last (graph st') = Some path)
  | inl e => enough → fair e
  end.

Lemma loading_room st :
  load_inv st → (length (loading st) <= size files)%nat.
Proof.
  intros H. rewrite <- (size_list_to_set (C := gset Key)) by apply (li_stack _ H).
  apply subseteq_size. intros p. rewrite elem_of_list_to_set. apply (li_loading _ H).
Qed.

Lemma first_readable_Some cs p c :
  first_readable read_file cs = Some (p, c) →
  read_file p = Some c ∧ ∃ i, cs !! i = Some p ∧ ∀ j x, (j < i)%nat → cs !! j = Some x → read_file x = None.
Proof.
  induction cs as [|x cs IH]; simpl; [done|]. destruct (read_file x) eqn:E.
  - intros [= -> ->]. split; [done|]. exists 0%nat. split; [done|]. intros; lia.
  - intros (Hc & i & Hi & Hj)%IH. split; [done|]. exists (S i). split; [done|].
    intros [|j] y Hlt; simpl; [congruence|]. apply Hj. lia.
Qed.
Lemma first_readable_None cs :
  first_readable read_file cs = None → ∀ i x, cs !! i = Some x → read_file x = None.
Proof.
  induction cs as [|x cs IH]; simpl; [done|]. destruct (read_file x) eqn:E; [done|].
  intros H [|i] y; simpl; [congruence|by apply IH].
Qed.
Lemma candidate_lookup path ip i :
  candidate path ip i = (NormalizePath (JoinPath (DirName path) ip) ::
    map (λ dir, NormalizePath (JoinPath dir ip)) import_dirs) !! i.
Proof. destruct i; [done|]. unfold candidate. cbn. symmetry. apply list_lookup_fmap. Qed.

Lemma ResolveImport_Some ip path p c :
  ResolveImport ip (DirName path) = Some (p, c) → read_file p = Some c ∧ first_found path ip p.
Proof.
  intros (Hr & i & Hi & Hj)%first_readable_Some. split; [done|]. exists i. rewrite candidate_lookup.
  split_and!; [done|by eexists|]. intros j x Hlt. rewrite candidate_lookup. by apply Hj.
Qed.
Lemma ResolveImport_None ip path : ResolveImport ip (DirName path) = None → none_found path ip.
Proof. intros H i x. rewrite candidate_lookup. by apply first_readable_None. Qed.

Lemma load_inv_skip msg st : load_inv st → load_inv (skip msg st).
Proof. by intros []. Qed.


(** ** Files that are given up *)

Lemma GiveUp_spec path msg st st0 (enough : Prop) :
  load_inv st → extends (push_loading path st0) st → load_inv st0 → path ∉ merged st0 →
  loaded path st0 enough (GiveUp per_file path msg st).
Proof.
  intros [H1 H2 H3 H4 H5 H6 H7 H8] [L G M F] H0 Hp. unfold GiveUp. simpl in L.
  assert (path ∈ loading st) as Hin by (rewrite L; set_solver).
  destruct (H7 _ Hin) as [Hpm Hpf]. rewrite H3 in Hpm.
  assert (path ∉ paths (graph st)) as Hpg by tauto.
  destruct per_file eqn:Epf; [|by intros _]. split_and!; [|split| |]; cbn.
  - split; cbn; try done.
    + intros p. rewrite elem_of_union, elem_of_singleton, H3, elem_of_union, elem_of_singleton. tauto.
    + intros p [->%elem_of_singleton|Hpp]%elem_of_union; [done|by apply H4].
    + by rewrite Epf.
    + rewrite L, removelast_last. apply li_stack in H0. done.
    + rewrite L, removelast_last. intros p Hpl. split; [|by apply (li_loading _ H0)].
      rewrite not_elem_of_union, not_elem_of_singleton. rewrite L in H6.
      apply NoDup_app in H6 as (_ & Hd & _). split; [intros ->; apply (Hd _ Hpl); left|].
      apply (H7 p). rewrite L. set_solver.
  - by rewrite L, removelast_last.
  - done.
  - simpl in M. set_solver.
  - simpl in F. set_solver.
  - set_solver.
  - set_solver.
Qed.

(** ** Files that are added *)

Lemma prelude_of_snoc g f :
  prelude_of (g ++ [f]) = MergeIntoAccumulated (prelude_of g) (lf_module f) (mod_name (lf_module f)).
Proof. unfold prelude_of. by rewrite fold_left_app. Qed.

Lemma add_file_spec path h imports body st st0 (enough : Prop) :
  load_inv st → extends (push_loading path st0) st → load_inv st0 → path ∉ merged st0 →
  parsed_as path (graph st) imports (file_module h imports body) →
  acyclic (file_module h imports body) →
  Forall (import_ok path (graph st)) imports →
  loaded path st0 enough (inr (add_file enabled path h imports body st)).
Proof.
  intros [H1 H2 H3 H4 H5 H6 H7 H8] [L G M F] H0 Hp Hm Hac Himp. simpl in L.
  set (m := file_module h imports body) in *.
  assert (graph (add_file enabled path h imports body st) =
    graph st ++ [mkLoadedFile path (ApplyEnableIf enabled m)]) as Hg by done.
  assert (path ∈ loading st) as Hin by (rewrite L; set_solver).
  destruct (H7 _ Hin) as [Hpm Hpf]. rewrite H3 in Hpm.
  unfold loaded. split_and!.
  - split; rewrite ?Hg; unfold paths; rewrite ?map_app; cbn [map resolved_path].
    + intros i f Hi. apply lookup_app_Some in Hi as [Hi|[Hi Hf]].
      * rewrite take_app_le by (apply lookup_lt_Some in Hi; lia). by apply H1.
      * apply list_lookup_singleton_Some in Hf as [Hl <-]. rewrite take_app_ge by lia.
        replace (i - length (graph st))%nat with 0%nat by lia. simpl. rewrite app_nil_r.
        split; [by exists m|done|].
        intros k Hk. apply (Hac k). eapply tc_embeds_within; [apply ApplyEnableIf_within|exact Hk].
    + apply NoDup_app. split_and!; [done| |apply NoDup_singleton].
      intros p Hpp ->%list_elem_of_singleton. tauto.
    + intros p. cbn. rewrite elem_of_union, elem_of_singleton, elem_of_app, list_elem_of_singleton, H3.
      unfold paths. tauto.
    + intros p Hpf'. cbn in Hpf'. rewrite elem_of_app, list_elem_of_singleton.
      intros [Hpp| ->]; [by apply (H4 p)|tauto].
    + done.
    + cbn. rewrite L, removelast_last. apply (li_stack _ H0).
    + cbn. rewrite L, removelast_last. intros p Hpl. split; [|by apply (li_loading _ H0)].
      rewrite not_elem_of_union, not_elem_of_singleton. rewrite L in H6.
      apply NoDup_app in H6 as (_ & Hd & _). split; [intros ->; apply (Hd _ Hpl); left|].
      apply (H7 p). rewrite L. set_solver.
    + by rewrite prelude_of_snoc, <- H8.
  - split; rewrite ?Hg; cbn.
    + by rewrite L, removelast_last.
    + destruct G as [more G]. simpl in G. exists (more ++ [mkLoadedFile path (ApplyEnableIf enabled m)]).
      by rewrite G, app_assoc.
    + simpl in M. set_solver.
    + simpl in F. set_solver.
  - cbn. set_solver.
  - intros _. right. rewrite Hg. by rewrite last_snoc.
Qed.

(** ** The imports of a file *)

Lemma load_imports_spec load path imps stack st (enough : Prop) :
  (∀ found content st, load_inv st → read_file found = Some content → loading st = stack →
     loaded found st enough (load found content st)) →
  load_inv st → loading st = stack →
  match load_imports load path imps st with
  | inr (l, st') =>
      load_inv st' ∧ extends st st' ∧ Forall (import_ok path (graph st')) l ∧
      Forall2 (λ i i', i' = resolve_to (imp_resolved_path i') i) imps l
  | inl e => enough → fair e
  end.
Proof.
  intros Hload. revert st. induction imps as [|imp imps IH]; intros st Hst Hp; simpl.
  { split_and!; [done|apply extends_refl|constructor|constructor]. }
  destruct (ResolveImport (imp_path imp) (DirName path)) as [[found content]|] eqn:Er.
  - destruct (ResolveImport_Some _ _ _ _ Er) as [Hread Hfirst].
    pose proof (Hload found content st Hst Hread Hp) as Hl.
    destruct (load found content st) as [e|st1]; [done|]. destruct Hl as (H1 & E1 & Hm & _).
    assert (loading st1 = stack) as Hp1 by (by rewrite (ex_loading _ _ E1)).
    specialize (IH st1 H1 Hp1). destruct (load_imports load path imps st1) as [e|[l st2]]; [done|].
    destruct IH as (H2 & E2 & Hl & Hf). split_and!; [done|by eapply extends_trans| |by constructor].
    constructor; [|done]. apply (li_merged _ H1) in Hm. unfold import_ok. cbn.
    case_bool_decide as Hfail; cbn.
    + right. split_and!; [|done|].
      * destruct per_file eqn:Epf; [done|]. by rewrite (li_strict _ H1 Epf) in Hfail.
      * right. exists found. split; [done|]. by apply (li_failed _ H2), (ex_failed _ _ E2).
    + left. destruct Hm as [?|Hm]; [done|]. split; [done|].
      destruct (ex_graph _ _ E2) as [more ->]. unfold paths. rewrite map_app. apply elem_of_app. by left.
  - destruct per_file eqn:Epf; [|by intros _].
    match goal with |- context [skip ?msg st] => set (st1 := skip msg st) end.
    assert (load_inv st1) as H1 by (by apply load_inv_skip).
    specialize (IH st1 H1 Hp). destruct (Loader.load_imports _ _ _ load path imps st1) as [e|[l st2]]; [done|].
    destruct IH as (H2 & E2 & Hl & Hf). split_and!; [done| | |by constructor].
    + eapply extends_trans; [apply extends_skip|exact E2].
    + constructor; [|done]. right. split_and!; [done..|]. left. by apply ResolveImport_None.
Qed.

(** ** A file *)

Lemma load_inv_push path st :
  load_inv st → path ∉ merged st → path ∉ loading st → path ∈ files →
  load_inv (push_loading path st).
Proof.
  intros [H1 H2 H3 H4 H5 H6 H7 H8] Hm Hl Hf. split; cbn; try done.
  - apply NoDup_app. split_and!; [done| |apply NoDup_singleton].
    intros p Hp ->%list_elem_of_singleton. done.
  - intros p [?| ->%list_elem_of_singleton]%elem_of_app; [by apply H7|done].
Qed.

Lemma Parser_new_good src tokens :
  Tokenize LONG_MAX src = inr tokens → Z.of_nat (length src) < 2 ^ 31 - 1 →
  fine good (Parser_new tokens).
Proof.
  intros E Hl. unfold Parser_new.
  pose proof (Tokenize_good _ _ _ (mkEnv [] (CollectDeclaredNames tokens) ∅ ∅ ∅ ∅ 0 0 [] ∅ ∅ ∅ ∅ None)
    E Hl eq_refl) as Hs.
  pose proof (CollectEnumValues_fine tokens (good_numbers _ Hs)) as Hc.
  destruct (CollectEnumValues tokens) as [|enums]; [done|]. by apply (Tokenize_good LONG_MAX src).
Qed.

(** The scan that the constructor of the parser makes throws no [ParseError]. *)
Definition no_ParseError {A} (x : Parsed A) : Prop :=
  match x with inl (ParseError _ _) => False | _ => True end.
Lemma scan_value_no_error ts v so_far : no_ParseError (scan_value ts v so_far).
Proof.
  unfold scan_value. destruct ts as [|e r1]; [done|]. case_bool_decide; [|done].
  destruct (match r1 with [] => _ | _ => _ end) as [negative [|n r3]]; [done|].
  destruct (_ || _); [|by case_bool_decide].
  unfold ParseIntLiteral, stoll, stoull, checked.
  destruct negative; (destruct (auto_value _); [|done]); by destruct (_ <? _).
Qed.
Lemma scan_values_no_error fuel ts v values : no_ParseError (scan_values fuel ts v values).
Proof.
  revert ts v values. induction fuel as [|fuel IH]; intros ts v values; [done|]. cbn [scan_values].
  destruct ts as [|t r]; [done|]. case_bool_decide; [apply IH|]. destruct (negb _); [done|].
  pose proof (scan_value_no_error r v values) as H1. destruct (scan_value r v values) as [|[x r2]]; [done|].
  unfold succ32. destruct (_ =? _); [done|]. destruct r2 as [|c r3]; [done|]. case_bool_decide; [apply IH|done].
Qed.
Lemma collect_enums_no_error fuel ts result : no_ParseError (collect_enums fuel ts result).
Proof.
  revert ts result. induction fuel as [|fuel IH]; intros ts result; [done|]. cbn [collect_enums].
  destruct ts as [|t [|n r]]; [done..|]. destruct (_ || _ || _); [apply IH|].
  assert (no_ParseError (scan_enum r)) as H1.
  { unfold scan_enum. destruct r; [done|]. case_bool_decide; [apply scan_values_no_error|done]. }
  destruct (scan_enum r) as [|[vs r']]; [done|]. apply IH.
Qed.
Lemma Parser_new_no_error tokens : no_ParseError (Parser_new tokens).
Proof.
  unfold Parser_new. pose proof (collect_enums_no_error (S (length tokens)) tokens ∅) as H.
  unfold CollectEnumValues. by destruct (collect_enums _ _ _).
Qed.

Lemma load_file_spec load path content st0 (enough : Prop) :
  readable → load_inv st0 → path ∉ merged st0 → path ∉ loading st0 →
  read_file path = Some content →
  (∀ found content st, load_inv st → read_file found = Some content →
     loading st = loading st0 ++ [path] → loaded found st enough (load found content st)) →
  loaded path st0 enough (load_file load path content (push_loading path st0)).
Proof.
  intros Hread Hst Hm Hnl Hc Hload. destruct (Hread _ _ Hc) as [Hf Hlen].
  pose proof (load_inv_push path st0 Hst Hm Hnl Hf) as Hpush. set (st := push_loading path st0) in *.
  assert (extends st st) as Hrefl by apply extends_refl.
  unfold load_file. pose proof (lex_loop_ok LONG_MAX (length content) content 1 (le_n _)) as Hlex.
  fold (Tokenize LONG_MAX content) in Hlex.
  destruct (Tokenize LONG_MAX content) as [[m l| |]|tokens] eqn:Et; [by apply (GiveUp_spec _ _ st)|done..|].
  pose proof (Parser_new_good _ _ Et Hlen) as Hnew.
  pose proof (Parser_new_no_error tokens) as Hthrow.
  destruct (Parser_new tokens) as [e|p0] eqn:Ep; [by intros _; destruct e|]. simpl in Hnew.
  pose proof (ParseHeader_step ue p0 Hnew) as Hh. unfold pwp in Hh.
  destruct (ParseHeader ue p0) as [e|[h p1]] eqn:Eh.
  { destruct e; [by apply (GiveUp_spec _ _ st)|by intros _..]. }
  destruct Hh as (Hp1 & _ & _).
  pose proof (load_imports_spec load path (h_imports h) (loading st) st enough Hload Hpush eq_refl) as Himp.
  destruct (load_imports load path (h_imports h) st) as [e|[imports st1]]; [done|].
  destruct Himp as (H1 & E1 & Hok & Hres).
  pose proof (ParseBody_step LONG_MAX ue (Some (accumulated st1)) p1 Hp1) as Hb. unfold pwp in Hb.
  destruct (ParseBody _ _ _ p1) as [e|[body p2]] eqn:Eb.
  { destruct e; [by apply (GiveUp_spec _ _ st1)|by intros _..]. }
  destruct Hb as (_ & _ & _ & Hac). apply add_file_spec; try done.
  exists content, tokens, p0, h, p1, body, p2. split_and!; try done. by rewrite <- (li_acc _ H1).
Qed.

Lemma LoadFileInto_spec fuel path content st :
  readable → load_inv st → read_file path = Some content →
  loaded path st (size files < fuel + length (loading st))%nat (LoadFileInto fuel path content st).
Proof.
  intros Hread. revert path content st.
  induction fuel as [|fuel IH]; intros path content st Hst Hc; cbn [LoadFileInto].
  { intros H. pose proof (loading_room st Hst). lia. }
  case_bool_decide as Hm; [split_and!; [done|apply extends_refl|done|done]|].
  case_bool_decide as Hl; [by intros _|].
  apply load_file_spec; [done..|]. intros found c st' Hst' Hr Hlo.
  specialize (IH found c st' Hst' Hr). rewrite Hlo, length_app in IH.
  unfold loaded in *. destruct (LoadFileInto fuel found c st'); [|done].
  intros H. apply IH. simpl. lia.
Qed.

Lemma load_inv_init : load_inv LoadState_init.
Proof. split; cbn; try done; try constructor; try set_solver. Qed.

#[local] Abbreviation LoadModuleGraph :=
  (LoadModuleGraph LONG_MAX ue import_dirs read_file enabled per_file).

Lemma LoadModuleGraph_spec fuel entry :
  readable →
  match LoadModuleGraph fuel entry with
  | inr (g, _, ok) => ∃ st, load_inv st ∧ graph st = g ∧
      (ok = true ∧ resolved_path <$> last g = Some (NormalizePath entry) ∨
       ok = false ∧ NormalizePath entry ∈ failed st)
  | inl e => (size files < fuel)%nat → fair e
  end.
Proof.
  intros Hread. unfold Loader.LoadModuleGraph.
  destruct (read_file (NormalizePath entry)) as [content|] eqn:Er; [|by intros _].
  pose proof (LoadFileInto_spec fuel _ content _ Hread load_inv_init Er) as H.
  destruct (LoadFileInto fuel (NormalizePath entry) content LoadState_init) as [e|st].
  { intros He. apply H. simpl. lia. }
  destruct H as (Hst & _ & _ & Hend). exists st. split_and!; [done..|].
  destruct Hend as [Hf|Hl]; [cbn; set_solver|right|left].
  - split; [|done]. destruct (last (graph st)) as [f|] eqn:El; [|done].
    apply bool_decide_false. intros Ef. apply (li_failed _ Hst _ Hf). rewrite <- Ef.
    apply last_Some in El as [l ->]. unfold paths. rewrite map_app. apply elem_of_app. right. by left.
  - split; [|done]. destruct (last (graph st)) as [f|]; [|done]. injection Hl as Hl.
    by rewrite bool_decide_true.
Qed.

(** C17: Loading ends.  If the readable files are finitely many (and each shorter than two
    gigabytes), one unit of fuel more than their number is enough however they import each
    other, and the run ends with a graph, with a [LoadError], or with what number literals
    can bring about: [std::out_of_range], which neither the lexer nor the parser catches,
    or the overflow of an enumerator.  No [LexError] or [ParseError] leaves it, and nothing
    else is undefined. *)
Theorem load_terminates entry :
  readable →
  match LoadModuleGraph (S (size files)) entry with
  | inr _ | inl (LoadError _ | LexEscape StolOutOfRange | ParseEscape (StdOutOfRange | SignedOverflow)) => True
  | inl (LoadNoFuel | LexEscape _ | ParseEscape _) => False
  end.
Proof.
  intros Hread. pose proof (LoadModuleGraph_spec (S (size files)) entry Hread) as H.
  destruct (LoadModuleGraph _ entry) as [e|]; [|done]. specialize (H (Nat.lt_succ_diag_r _)).
  by destruct e as [|[]|[]|].
Qed.


(** What the files of the graph hold.  The module of each is what the parser
    makes of the file's content given the declarations of exactly the files
    before it in the graph, merged in that order, less what the flags do not
    enable; no complete type in it holds itself. *)
Theorem load_modules fuel entry g sk ok i f :
  readable → LoadModuleGraph fuel entry = inr (g, sk, ok) → g !! i = Some f →
  (∃ m, parsed_as (resolved_path f) (take i g) (mod_imports (lf_module f)) m ∧
     lf_module f = ApplyEnableIf enabled m) ∧
  gated_module enabled (lf_module f) ∧ acyclic (lf_module f).
Proof.
  intros Hread E Hi. pose proof (LoadModuleGraph_spec fuel entry Hread) as H. rewrite E in H.
  destruct H as (st & Hst & <- & _). destruct (li_files _ Hst i f Hi) as [(m & Hm & Ef) _ Hac].
  split_and!; [by exists m| |done]. rewrite Ef. apply ApplyEnableIf_gated.
Qed.
End loader.

(** ** Two files *)

(** [d/a] imports [d/../d/b] and [e], which is found in [lib]; [e] imports
    [../d/b] too. *)
Definition demo_text (p : Key) : option Key :=
  if bool_decide (p = bytes "d/a") then
    Some (bytes "import " ++ [QUOTE] ++ bytes "../d/b" ++ [QUOTE] ++ bytes ";import " ++ [QUOTE] ++
      bytes "e" ++ [QUOTE] ++ bytes ";struct A{B b;E e;};")
  else if bool_decide (p = bytes "d/b") then Some (bytes "module m;struct B{[EnableIf=x]int8 c;};")
  else if bool_decide (p = bytes "lib/e") then
    Some (bytes "import " ++ [QUOTE] ++ bytes "../d/b" ++ [QUOTE] ++ bytes ";enum E{K};")
  else None.
Definition demo_files : gset Key := {[bytes "d/a"; bytes "d/b"; bytes "lib/e"]}.
Definition demo_load : Load (list LoadedFile * list Key * bool) :=
  Loader.LoadModuleGraph (2 ^ 63 - 1) false [bytes "lib"] demo_text ∅ false 4 (bytes "d/./a").
Definition demo_graph : list LoadedFile :=
  match demo_load with inr (g, _, _) => g | inl _ => [] end.

Lemma demo_readable : readable demo_text demo_files.
Proof.
  intros p c. unfold demo_text, demo_files. repeat case_bool_decide; intros [= <-]; subst;
    (split; [set_solver|by vm_compute]).
Qed.

Lemma demo_loads :
  Loader.LoadModuleGraph (2 ^ 63 - 1) false [bytes "lib"] demo_text ∅ false 4 (bytes "d/./a") =
    inr (demo_graph, [], true).
Proof. vm_compute. reflexivity. Qed.

Lemma load_terminates_witness :
  readable demo_text demo_files ∧
  match Loader.LoadModuleGraph (2 ^ 63 - 1) false [bytes "lib"] demo_text ∅ false
          (S (size demo_files)) (bytes "d/./a") with
  | inr _ | inl (LoadError _ | LexEscape StolOutOfRange | ParseEscape (StdOutOfRange | SignedOverflow)) => True
  | inl (LoadNoFuel | LexEscape _ | ParseEscape _) => False
  end.
Proof.
  split; [exact demo_readable|].
  exact (load_terminates (2 ^ 63 - 1) false [bytes "lib"] demo_text ∅ false demo_files
    (bytes "d/./a") demo_readable).
Defined.


(** The first file of the graph, [d/b]. *)
Definition demo_file : LoadedFile := List.hd (mkLoadedFile [] Module_init) demo_graph.

Lemma demo_first : demo_graph !! 0%nat = Some demo_file.
Proof. vm_compute. reflexivity. Qed.

Lemma load_modules_witness :
  (∃ m, parsed_as (2 ^ 63 - 1) false demo_text (resolved_path demo_file) (take 0 demo_graph)
          (mod_imports (lf_module demo_file)) m ∧
     lf_module demo_file = ApplyEnableIf ∅ m) ∧
  gated_module ∅ (lf_module demo_file) ∧ acyclic (lf_module demo_file).
Proof.
  exact (load_modules (2 ^ 63 - 1) false [bytes "lib"] demo_text ∅ false demo_files 4 (bytes "d/./a")
    demo_graph [] true 0 demo_file demo_readable demo_loads demo_first).
Defined.
