(* ===== verification/Sandbox.v ===== *)
(** * The cage: [WASMSafeSpace/src/sandbox/sandbox.{h,cc}]

    A [Sandbox] is one block of memory with an allocator over it: first fit in a
    list of free blocks, then a bump pointer.  Also [sandboxed-pointer.h] (offsets
    into the cage) and [cage-allocator.h] (a container allocator over the
    current cage).

    Addresses and [size_t] have [uintptr_bits] bits (32 on wasm32, 64 natively)
    and every sum or difference of them is wrapped by [uw].  The answers of the
    operating system are arguments: [mem], what the reservation of the block
    returned, and [commit], whether [VirtualAlloc] would commit pages.  [ub] also
    stands for a failed [CHECK], which ends the process. *)
From Stdlib Require Import ZArith Lia.
From stdpp Require Import base list gmap sorting.
From S2P Require Import Prelude.

(** What the build fixes: the width of a pointer, and the [_WIN32] branches. *)
Class Platform := mkPlatform {
  uintptr_bits : Z;
  on_windows : bool
}.

Definition uw `{Platform} (z : Z) : Z := z mod 2 ^ uintptr_bits.

Definition nullptr : Z := 0.
Definition kDefaultSize : Z := 64 * 1024 * 1024.
Definition kCommitStep : Z := 64 * 1024.

Record FreeBlock := mkFreeBlock { fb_offset : Z; fb_size : Z }.

Record Sandbox := mkSandbox {
  base_ : Z;
  end_ : Z;
  size_ : Z;
  backing_ : Z;
  bump_offset_ : Z;
  committed_ : Z;
  initialized_ : bool;
  free_list_ : list FreeBlock
}.

(** [Sandbox sandbox;] *)
Definition new_sandbox : Sandbox := mkSandbox 0 0 0 nullptr 0 0 false [].

Definition set_free_list (fl : list FreeBlock) (s : Sandbox) : Sandbox :=
  mkSandbox (base_ s) (end_ s) (size_ s) (backing_ s) (bump_offset_ s)
    (committed_ s) (initialized_ s) fl.
Definition set_committed (c : Z) (s : Sandbox) : Sandbox :=
  mkSandbox (base_ s) (end_ s) (size_ s) (backing_ s) (bump_offset_ s)
    c (initialized_ s) (free_list_ s).
Definition set_bump (b : Z) (s : Sandbox) : Sandbox :=
  mkSandbox (base_ s) (end_ s) (size_ s) (backing_ s) b
    (committed_ s) (initialized_ s) (free_list_ s).

(** [CHECK(cond)]. *)
Definition CHECK {S} (cond : bool) : M S unit := if cond then ret tt else ub.

Lemma wp_CHECK {S} b (Q : unit → S → Prop) s :
  wp (CHECK b) Q s ↔ b = true ∧ Q tt s.
Proof. destruct b; unfold wp, CHECK, ret, ub; intuition done. Qed.

(** Blocks are sorted by [a.offset < c.offset]. *)
Definition by_offset (a c : FreeBlock) : Prop := fb_offset a ≤ fb_offset c.

#[export] Instance by_offset_dec a c : Decision (by_offset a c).
Proof. unfold by_offset. apply _. Defined.

Section sandbox.
Context `{Platform}.

Definition Initialize (mem : Z) (size : Z) : M Sandbox unit :=
  let! s := get in
  CHECK (negb (initialized_ s)) ;;
  CHECK (0 <? size) ;;
  CHECK (negb (mem =? nullptr)) ;;
  put (mkSandbox mem (uw (mem + size)) size mem 0
         (if on_windows then 0 else size) true []).

Definition Contains (s : Sandbox) (addr : Z) : bool :=
  initialized_ s && (base_ s <=? addr) && (addr <? end_ s).

(** [commit] is the answer of [VirtualAlloc(MEM_COMMIT)], if it is asked. *)
Definition CommitTo (commit : bool) (e : Z) : M Sandbox bool :=
  let! s := get in
  if e <=? committed_ s then ret true
  else if on_windows then
    let target := uw (uw (e + kCommitStep - 1) / kCommitStep * kCommitStep) in
    let target := if size_ s <? target then size_ s else target in
    if commit then put (set_committed target s) ;; ret true else ret false
  else ret (e <=? size_ s).

Definition AlignUp (v alignment : Z) : Z :=
  Z.land (uw (v + alignment - 1)) (uw (Z.lnot (uw (alignment - 1)))).

(** The search of [AllocateFromFreeList]: the first block that still holds
    [size] bytes once its start is aligned, with its index and the bytes the
    alignment skips. *)
Fixpoint first_fit (base_addr size alignment : Z) (i : nat)
    (blocks : list FreeBlock) : option (nat * FreeBlock * Z) :=
  match blocks with
  | [] => None
  | b :: blocks' =>
      let block_start := uw (base_addr + fb_offset b) in
      let aligned := AlignUp block_start alignment in
      let head := uw (aligned - block_start) in
      if fb_size b <? uw (head + size)
      then first_fit base_addr size alignment (S i) blocks'
      else Some (i, b, head)
  end.

Definition AllocateFromFreeList (size alignment : Z) : M Sandbox Z :=
  let! s := get in
  match first_fit (backing_ s) size alignment 0 (free_list_ s) with
  | None => ret nullptr
  | Some (i, b, head) =>
      let tail := uw (fb_size b - head - size) in
      let block_offset := fb_offset b in
      let fl := delete i (free_list_ s) in
      let fl := if 0 <? head then fl ++ [mkFreeBlock block_offset head] else fl in
      let fl := if 0 <? tail
        then fl ++ [mkFreeBlock (uw (block_offset + head + size)) tail] else fl in
      put (set_free_list (merge_sort by_offset fl) s) ;;
      ret (uw (backing_ s + uw (block_offset + head)))
  end.

Definition TryAllocate (commit : bool) (size alignment : Z) : M Sandbox Z :=
  let! s := get in
  CHECK (initialized_ s) ;;
  let! reused := AllocateFromFreeList size alignment in
  if negb (reused =? nullptr) then ret reused
  else
    let base_addr := backing_ s in
    let unaligned := uw (base_addr + bump_offset_ s) in
    let aligned := AlignUp unaligned alignment in
    let aligned_offset := uw (aligned - base_addr) in
    if (size_ s <? aligned_offset) || (uw (size_ s - aligned_offset) <? size)
    then ret nullptr
    else
      let! ok := CommitTo commit (uw (aligned_offset + size)) in
      if ok then
        modify (set_bump (uw (aligned_offset + size))) ;;
        ret (uw (backing_ s + aligned_offset))
      else ret nullptr.

Definition Allocate (commit : bool) (size alignment : Z) : M Sandbox Z :=
  let! result := TryAllocate commit size alignment in
  CHECK (negb (result =? nullptr)) ;;
  ret result.

(** [std::lower_bound] on the offsets: the blocks before the first one whose
    offset is not below [o], and the rest. *)
Fixpoint lower_bound (o : Z) (blocks : list FreeBlock)
    : list FreeBlock * list FreeBlock :=
  match blocks with
  | [] => ([], [])
  | b :: blocks' =>
      if fb_offset b <? o
      then let r := lower_bound o blocks' in (b :: r.1, r.2)
      else ([], blocks)
  end.

(** The block at [it] takes in the one after it if they touch. *)
Definition merge_next (it : FreeBlock) (after : list FreeBlock)
    : FreeBlock * list FreeBlock :=
  match after with
  | next :: after' =>
      if uw (fb_offset it + fb_size it) =? fb_offset next
      then (mkFreeBlock (fb_offset it) (uw (fb_size it + fb_size next)), after')
      else (it, after)
  | [] => (it, after)
  end.

(** The block before [it], if there is one and they touch, takes [it] in. *)
Definition merge_prev (before : list FreeBlock) (it : FreeBlock)
    : list FreeBlock :=
  match last before with
  | Some prev =>
      if uw (fb_offset prev + fb_size prev) =? fb_offset it
      then pop_back before ++
             [mkFreeBlock (fb_offset prev) (uw (fb_size prev + fb_size it))]
      else before ++ [it]
  | None => before ++ [it]
  end.

Definition Free (ptr size : Z) : M Sandbox unit :=
  let! s := get in
  CHECK (initialized_ s) ;;
  if (ptr =? nullptr) || (size =? 0) then ret tt
  else
    CHECK (Contains s ptr) ;;
    let offset := uw (ptr - backing_ s) in
    let r := lower_bound offset (free_list_ s) in
    let r' := merge_next (mkFreeBlock offset size) r.2 in
    put (set_free_list (merge_prev r.1 r'.1 ++ r'.2) s).
End sandbox.

(** ** Sandboxed pointers *)

Section sandboxed_pointer.
Context `{Platform}.

(** [%] by the size of a cage that is not initialized is undefined. *)
Definition DecodeSandboxedPointer (sandbox : Sandbox) (encoded : Z) : option Z :=
  if size_ sandbox =? 0 then None
  else Some (uw (base_ sandbox + uw (encoded mod size_ sandbox))).

Definition EncodeSandboxedPointer (sandbox : Sandbox) (pointer : Z) : option Z :=
  if Contains sandbox pointer
  then Some (u32 (u64 (pointer - base_ sandbox)))
  else None.
End sandboxed_pointer.

(** ** The current cage and the container allocator

    The process has any number of cages, by identity, and at most one is
    current. *)

Record World := mkWorld { cages : gmap nat Sandbox; current_ : option nat }.

Definition set_current (sandbox : option nat) : M World unit :=
  modify (λ w, mkWorld (cages w) sandbox).

(** A member function called on the cage [this]. *)
Definition on_cage {A} (this : nat) (m : M Sandbox A) : M World A :=
  let! w := get in
  let! s := of_option (cages w !! this) in
  match m s with
  | Some (a, s') =>
      put (mkWorld (<[this := s']> (cages w)) (current_ w)) ;; ret a
  | None => ub
  end.

Definition TearDown (this : nat) : M World unit :=
  let! initialized := on_cage this (let! s := get in ret (initialized_ s)) in
  CHECK initialized ;;
  modify (λ w, mkWorld (cages w)
    (if decide (current_ w = Some this) then None else current_ w)) ;;
  on_cage this (put new_sandbox).

(** [InsideSandbox], [OutsideSandbox]. *)
Definition InsideSandbox (w : World) (address : Z) : bool :=
  match current_ w with
  | Some this =>
      match cages w !! this with
      | Some s => Contains s address
      | None => false
      end
  | None => false
  end.

Definition OutsideSandbox (w : World) (address : Z) : bool :=
  negb (InsideSandbox w address).

(** [CageAllocator<T>] for a [T] of [sizeof_T] bytes aligned to [alignof_T].
    [heap] is what [::operator new] would return. *)
Section cage_allocator.
Context `{Platform} (sizeof_T alignof_T : Z).

Definition cage_allocate (commit : bool) (heap : Z) (n : Z) : M World Z :=
  if n =? 0 then ret nullptr
  else
    let! w := get in
    let! p :=
      match current_ w with
      | Some s => on_cage s (Allocate commit (uw (n * sizeof_T)) alignof_T)
      | None => ret nullptr
      end in
    if negb (p =? nullptr) then ret p else ret heap.

(** The answer says whether the memory went to [::operator delete]. *)
Definition cage_deallocate (p n : Z) : M World bool :=
  if p =? nullptr then ret false
  else
    let! w := get in
    match current_ w with
    | Some s =>
        let! mine := on_cage s (let! c := get in ret (Contains c p)) in
        if (mine : bool) then on_cage s (Free p (uw (n * sizeof_T))) ;; ret false
        else ret true
    | None => ret true
    end.
End cage_allocator.

(** ** A run *)

#[local] Instance linux64 : Platform := mkPlatform 64 false.

Example sandbox_test_coalesce :
  (Initialize 65536 256 ;;
   let! p1 := Allocate true 64 16 in
   let! p2 := Allocate true 64 16 in
   let! p3 := Allocate true 128 16 in
   Free p1 64 ;; Free p2 64 ;;
   let! merged := Allocate true 128 16 in
   ret (p1, p2, p3, merged)) new_sandbox
  = Some ((65536, 65600, 65664, 65536), mkSandbox 65536 65792 256 65536 256 256 true []).
Proof. vm_compute. reflexivity. Qed.
