(* ===== verification/SandboxProps.v ===== *)
(** * The cage keeps its regions apart

    The invariant of [Sandbox]'s allocator ([cage_inv]: free blocks are sorted,
    apart and below the bump pointer; live regions lie in the cage, overlap
    neither each other nor a free block), what [TryAllocate] and [Free] do to it,
    when [TryAllocate] fails, a size for which its check wraps, and the range
    of sandboxed pointers. *)
From Stdlib Require Import ZArith Lia.
From stdpp Require Import base list gmap sorting.
From S2P Require Import Prelude Sandbox.

(** What is assumed of the platform. *)
Class PlatformOk `{Platform} : Prop :=
  uintptr_width : uintptr_bits = 32 ∨ uintptr_bits = 64.

Definition power_of_two (a : Z) : Prop := ∃ k, 0 ≤ k ∧ a = 2 ^ k.

(** Byte [x] of the cage is in a free block. *)
Definition free_at (fl : list FreeBlock) (x : Z) : Prop :=
  Exists (λ b, fb_offset b ≤ x < fb_offset b + fb_size b) fl.

(** The blocks of [fl] are not empty, lie in [lo, hi) in order, and no two of
    them touch. *)
Fixpoint blocks_ok (lo : Z) (fl : list FreeBlock) (hi : Z) : Prop :=
  match fl with
  | [] => True
  | b :: fl' =>
      lo ≤ fb_offset b ∧ 0 < fb_size b ∧ fb_offset b + fb_size b ≤ hi ∧
      blocks_ok (fb_offset b + fb_size b + 1) fl' hi
  end.

Lemma blocks_weaken lo lo' fl hi hi' :
  blocks_ok lo fl hi → lo' ≤ lo → hi ≤ hi' → blocks_ok lo' fl hi'.
Proof.
  revert lo lo'. induction fl as [|b fl IH]; simpl; [done|].
  intros lo lo' (? & ? & ? & Hc) ??. repeat split; try lia.
  eapply IH; [exact Hc|lia|lia].
Qed.

Lemma blocks_app lo l1 b l2 hi :
  blocks_ok lo (l1 ++ b :: l2) hi ↔
  blocks_ok lo l1 (fb_offset b - 1) ∧ lo ≤ fb_offset b ∧ 0 < fb_size b ∧
  fb_offset b + fb_size b ≤ hi ∧ blocks_ok (fb_offset b + fb_size b + 1) l2 hi.
Proof.
  revert lo. induction l1 as [|a l1 IH]; intros lo; simpl; [tauto|].
  rewrite IH. intuition lia.
Qed.

Lemma blocks_snoc lo l b hi :
  blocks_ok lo (l ++ [b]) hi ↔
  blocks_ok lo l (fb_offset b - 1) ∧ lo ≤ fb_offset b ∧ 0 < fb_size b ∧
  fb_offset b + fb_size b ≤ hi.
Proof. rewrite blocks_app. simpl. tauto. Qed.

Lemma blocks_bound lo l hi x : blocks_ok lo l hi → free_at l x → lo ≤ x < hi.
Proof.
  revert lo. induction l as [|b l IH]; simpl; intros lo; unfold free_at.
  { by rewrite Exists_nil. }
  intros (? & ? & ? & Hc) [?|?]%Exists_cons; [lia|].
  specialize (IH _ Hc). unfold free_at in IH. intuition lia.
Qed.

Lemma free_at_app l1 l2 x : free_at (l1 ++ l2) x ↔ free_at l1 x ∨ free_at l2 x.
Proof. apply Exists_app. Qed.

Lemma free_at_cons b l x :
  free_at (b :: l) x ↔ (fb_offset b ≤ x < fb_offset b + fb_size b) ∨ free_at l x.
Proof. apply Exists_cons. Qed.

Lemma free_at_nil x : ¬ free_at [] x.
Proof. by intros []%Exists_nil. Qed.

(** A run of free bytes lies in one block. *)
Lemma blocks_run lo l hi x n :
  blocks_ok lo l hi → 0 < n → (∀ y, x ≤ y < x + n → free_at l y) →
  Exists (λ b, fb_offset b ≤ x ∧ x + n ≤ fb_offset b + fb_size b) l.
Proof.
  revert lo. induction l as [|b l IH]; intros lo Hc Hn Hrun.
  { destruct (free_at_nil x). apply Hrun. lia. }
  destruct Hc as (Hlo & Hs & Hhi & Hc). apply Exists_cons.
  assert (free_at (b :: l) x) as [Hx|Hx]%free_at_cons by (apply Hrun; lia).
  - left. split; [lia|]. destruct (Z.le_gt_cases (x + n) (fb_offset b + fb_size b)); [done|].
    assert (free_at (b :: l) (fb_offset b + fb_size b)) as [?|Hy]%free_at_cons
      by (apply Hrun; lia); [lia|].
    pose proof (blocks_bound _ _ _ _ Hc Hy). lia.
  - right. eapply IH; [exact Hc|done|]. intros y Hy.
    pose proof (blocks_bound _ _ _ _ Hc Hx).
    assert (free_at (b :: l) y) as [?|?]%free_at_cons by (apply Hrun; lia); [lia|done].
Qed.

(** Such blocks are sorted, so that sorting leaves them as they are. *)
Lemma blocks_above lo l hi : blocks_ok lo l hi → Forall (λ b, lo ≤ fb_offset b) l.
Proof.
  revert lo. induction l as [|b l IH]; intros lo; [constructor|].
  intros (? & ? & ? & Hc). constructor; [done|].
  eapply Forall_impl; [by eapply IH|]. simpl. intros. lia.
Qed.

Lemma blocks_sorted lo l hi : blocks_ok lo l hi → StronglySorted by_offset l.
Proof.
  revert lo. induction l as [|b l IH]; intros lo; [constructor|].
  intros (? & ? & ? & Hc). constructor; [by eapply IH|].
  eapply Forall_impl; [by eapply blocks_above|]. unfold by_offset. simpl. intros. lia.
Qed.

Lemma blocks_offset_inj lo l hi b c :
  blocks_ok lo l hi → b ∈ l → c ∈ l → fb_offset b = fb_offset c → b = c.
Proof.
  revert lo. induction l as [|a l IH]; intros lo; [by rewrite elem_of_nil|].
  intros (? & ? & ? & Hc) Hb Hd He. pose proof (blocks_above _ _ _ Hc) as Hab.
  rewrite Forall_forall in Hab.
  apply elem_of_cons in Hb as [->|Hb], Hd as [->|Hd]; [done|..].
  - specialize (Hab _ Hd). lia.
  - specialize (Hab _ Hb). lia.
  - by eapply IH.
Qed.

#[export] Instance by_offset_trans : Transitive by_offset.
Proof. intros x y z. unfold by_offset. lia. Qed.
#[export] Instance by_offset_total : Total by_offset.
Proof. intros x y. unfold by_offset. lia. Qed.

Lemma sort_blocks lo l l' hi : blocks_ok lo l hi → l' ≡ₚ l → merge_sort by_offset l' = l.
Proof.
  intros Hc Hp. pose proof (merge_sort_Permutation by_offset l') as Hm.
  apply (StronglySorted_unique_strong by_offset).
  - intros b c Hb Hd. rewrite Hm, Hp in Hb. unfold by_offset. intros.
    eapply blocks_offset_inj; [exact Hc|done..|lia].
  - apply (StronglySorted_merge_sort by_offset).
  - by eapply blocks_sorted.
  - by rewrite Hm.
Qed.

(** ** Machine arithmetic *)

Section props.
Context `{Platform} {P : PlatformOk}.

Lemma uw_small z : 0 ≤ z < 2 ^ uintptr_bits → uw z = z.
Proof. apply Z.mod_small. Qed.

Lemma uintptr_bits_pos : 0 ≤ uintptr_bits.
Proof using P. destruct uintptr_width as [-> | ->]; lia. Qed.

(** A mask clears the low [k] bits. *)
Lemma land_clear x k w :
  0 ≤ k ≤ w → 0 ≤ x < 2 ^ w →
  Z.land x (Z.lnot (2 ^ k - 1) mod 2 ^ w) = x / 2 ^ k * 2 ^ k.
Proof.
  intros [Hk Hw] Hx. rewrite <- (Z.land_ones _ w) by lia.
  rewrite Z.land_assoc, (Z.land_comm x), <- Z.land_assoc.
  rewrite (Z.land_comm (Z.lnot _)), (Z.land_ones x) by lia.
  rewrite (Z.mod_small x) by done.
  replace (2 ^ k - 1) with (Z.ones k) by (rewrite Z.ones_equiv; lia).
  rewrite <- Z.ldiff_land, Z.ldiff_ones_r by done.
  by rewrite Z.shiftl_mul_pow2, Z.shiftr_div_pow2 by done.
Qed.

Lemma AlignUp_spec v a :
  power_of_two a → 0 ≤ v → v + a ≤ 2 ^ uintptr_bits →
  v ≤ AlignUp v a < v + a ∧ AlignUp v a mod a = 0 ∧
  (∀ y, v ≤ y → y mod a = 0 → AlignUp v a ≤ y).
Proof using P.
  intros (k & Hk & ->) Hv Hw. unfold AlignUp.
  assert (0 < 2 ^ k) as Hp by (apply Z.pow_pos_nonneg; lia).
  assert (k ≤ uintptr_bits) as Hkw.
  { destruct (Z.le_gt_cases k uintptr_bits) as [?|Hlt]; [done|].
    pose proof (Z.pow_lt_mono_r 2 uintptr_bits k). pose proof uintptr_bits_pos. lia. }
  rewrite (uw_small (v + 2 ^ k - 1)), (uw_small (2 ^ k - 1)) by lia.
  unfold uw. rewrite land_clear by lia.
  pose proof (Z.div_mod (v + 2 ^ k - 1) (2 ^ k)) as Hdm.
  pose proof (Z.mod_pos_bound (v + 2 ^ k - 1) (2 ^ k)) as Hmb.
  split; [|split].
  - lia.
  - apply Z.mod_mul. lia.
  - intros y Hy Hm. apply Z.div_exact in Hm; [|lia]. rewrite Hm.
    rewrite (Z.mul_comm (2 ^ k)). apply Z.mul_le_mono_nonneg_r; [lia|].
    apply Z.lt_succ_r. apply Z.div_lt_upper_bound; [lia|]. nia.
Qed.
(** ** The invariant *)

Record cage_ok (s : Sandbox) : Prop := {
  ck_init : initialized_ s = true;
  ck_base : 0 < base_ s;
  ck_backing : backing_ s = base_ s;
  ck_end : end_ s = base_ s + size_ s;
  ck_top : end_ s < 2 ^ uintptr_bits;
  ck_size : 0 < size_ s;
  ck_bump : 0 ≤ bump_offset_ s ≤ committed_ s;
  ck_committed : committed_ s ≤ size_ s;
  ck_commit_all : on_windows = false → committed_ s = size_ s;
  ck_granule : on_windows = true → kCommitStep ≤ base_ s;
  ck_free : blocks_ok 0 (free_list_ s) (bump_offset_ s)
}.

(** [live]: the size of every region handed out and not given back. *)
Record cage_inv (s : Sandbox) (live : gmap Z Z) : Prop := {
  ci_ok : cage_ok s;
  ci_live p n : live !! p = Some n →
    0 < n ∧ base_ s ≤ p ∧ p + n ≤ base_ s + bump_offset_ s;
  ci_not_free p n x : live !! p = Some n →
    p ≤ x < p + n → ¬ free_at (free_list_ s) (x - base_ s);
  ci_apart p n q m : live !! p = Some n → live !! q = Some m → p ≠ q →
    p + n ≤ q ∨ q + m ≤ p
}.

(** A request whose alignment cannot carry an address past the top of the
    address space. *)
Definition sane (s : Sandbox) (size a : Z) : Prop :=
  power_of_two a ∧ 0 < size ∧ size + a ≤ 2 ^ uintptr_bits ∧
  end_ s + a ≤ 2 ^ uintptr_bits.

Lemma power_of_two_pos a : power_of_two a → 0 < a.
Proof. intros (k & ? & ->). apply Z.pow_pos_nonneg; lia. Qed.

(** No multiple of [a] in block [b] leaves room for [size] bytes. *)
Definition too_small (base size a : Z) (b : FreeBlock) : Prop :=
  ∀ x, fb_offset b ≤ x → (base + x) mod a = 0 → fb_offset b + fb_size b < x + size.

Lemma first_fit_spec base size a i l lo hi :
  power_of_two a → 0 < size → size + a ≤ 2 ^ uintptr_bits →
  0 < base → 0 ≤ lo → base + hi + a ≤ 2 ^ uintptr_bits → blocks_ok lo l hi →
  match first_fit base size a i l with
  | Some (j, b, head) => ∃ l1 l2, l = l1 ++ b :: l2 ∧ j = (i + length l1)%nat ∧
      0 ≤ head ∧ head + size ≤ fb_size b ∧ (base + fb_offset b + head) mod a = 0
  | None => Forall (too_small base size a) l
  end.
Proof using P.
  intros Ha Hs Hsa Hb Hlo Htop. revert i lo Hlo.
  induction l as [|b l IH]; intros i lo Hlo; simpl; [constructor|].
  intros (H1 & H2 & H3 & Hc). pose proof (power_of_two_pos _ Ha) as Hap.
  rewrite (uw_small (base + fb_offset b)) by lia.
  destruct (AlignUp_spec (base + fb_offset b) a) as (Hr & Hm & Hleast); [done|lia..|].
  revert Hr Hm Hleast. generalize (AlignUp (base + fb_offset b) a). intros al Hr Hm Hleast.
  rewrite (uw_small (al - _)) by lia. rewrite uw_small by lia.
  destruct (fb_size b <? _) eqn:E; zbool.
  - assert (0 ≤ fb_offset b + fb_size b + 1) as Hlo2 by lia.
    specialize (IH (S i) _ Hlo2 Hc).
    destruct (first_fit base size a (S i) l) as [[[j c] head]|].
    + destruct IH as (l1 & l2 & -> & -> & ?). exists (b :: l1), l2.
      split; [done|]. simpl. split; [lia|done].
    + constructor; [|done]. intros x Hx Hxm.
      specialize (Hleast (base + x) ltac:(lia) Hxm). lia.
  - exists [], l. simpl. repeat split; [lia..|].
    by replace (base + fb_offset b + (al - (base + fb_offset b))) with al by lia.
Qed.

(** What is left of a block once a region is cut out of it. *)
Definition split_block (b : FreeBlock) (head size : Z) : list FreeBlock :=
  (if 0 <? head then [mkFreeBlock (fb_offset b) head] else []) ++
  (if 0 <? fb_size b - head - size
   then [mkFreeBlock (fb_offset b + head + size) (fb_size b - head - size)] else []).

Lemma split_block_free b head size x :
  0 ≤ head → 0 < size → head + size ≤ fb_size b →
  free_at (split_block b head size) x ↔
  (fb_offset b ≤ x < fb_offset b + fb_size b) ∧
  ¬ (fb_offset b + head ≤ x < fb_offset b + head + size).
Proof.
  intros. unfold split_block. rewrite free_at_app.
  destruct (0 <? head) eqn:E1, (0 <? fb_size b - head - size) eqn:E2; zbool;
    rewrite ?free_at_cons; simpl; pose proof (free_at_nil x); intuition lia.
Qed.

Lemma split_block_ok lo l1 b l2 hi head size :
  0 ≤ head → 0 < size → head + size ≤ fb_size b →
  blocks_ok lo (l1 ++ b :: l2) hi → blocks_ok lo (l1 ++ split_block b head size ++ l2) hi.
Proof.
  intros ??? (H1 & H2 & H3 & H4 & H5)%blocks_app. unfold split_block.
  destruct (0 <? head) eqn:E1, (0 <? fb_size b - head - size) eqn:E2; zbool; simpl.
  - rewrite blocks_app. simpl. repeat split; try lia; [done|].
    eapply blocks_weaken; [exact H5|lia|lia].
  - rewrite blocks_app. simpl. repeat split; try lia; [done|].
    eapply blocks_weaken; [exact H5|lia|lia].
  - rewrite blocks_app. simpl. repeat split; try lia.
    + eapply blocks_weaken; [exact H1|lia|lia].
    + eapply blocks_weaken; [exact H5|lia|lia].
  - destruct l2 as [|c l2]; [rewrite app_nil_r; eapply blocks_weaken; [exact H1|lia|lia]|].
    destruct H5 as (? & ? & ? & ?). rewrite blocks_app. repeat split; try lia; [|done].
    eapply blocks_weaken; [exact H1|lia|lia].
Qed.
(** [x] is an offset in the region of [size] bytes at [p]. *)
Definition in_region (s : Sandbox) (p size x : Z) : Prop :=
  p - base_ s ≤ x < p - base_ s + size.

Lemma wp_AllocateFromFreeList s size a :
  cage_ok s → sane s size a →
  wp (AllocateFromFreeList size a) (λ p s',
    (p = nullptr ∧ s' = s ∧ Forall (too_small (base_ s) size a) (free_list_ s)) ∨
    (∃ fl, s' = set_free_list fl s ∧ blocks_ok 0 fl (bump_offset_ s) ∧
      base_ s ≤ p ∧ p mod a = 0 ∧
      (∀ x, in_region s p size x → free_at (free_list_ s) x) ∧
      (∀ x, free_at fl x ↔ free_at (free_list_ s) x ∧ ¬ in_region s p size x))) s.
Proof using P.
  intros Hok (Ha & Hs & Hsa & Htop). destruct Hok as [? ? Hbk ? ? ? ? ? ? ? Hc].
  unfold AllocateFromFreeList. wp_step. rewrite Hbk.
  pose proof (first_fit_spec (base_ s) size a 0 (free_list_ s) 0 (bump_offset_ s) Ha Hs Hsa) as Hff.
  specialize (Hff ltac:(lia) ltac:(lia) ltac:(lia) Hc).
  destruct (first_fit _ _ _ _ _) as [[[j b] head]|]; [|by left; wp_step].
  destruct Hff as (l1 & l2 & Hl & -> & Hh & Hfit & Hm). wp_step. right.
  rewrite Hl in *. simpl Nat.add. rewrite delete_middle.
  pose proof (proj1 (blocks_app _ _ _ _ _) Hc) as (Hc1 & ? & ? & ? & Hc2).
  rewrite (uw_small (fb_offset b + head)), (uw_small (base_ s + _)) by lia.
  rewrite (uw_small (fb_size b - head - size)), (uw_small (fb_offset b + head + size)) by lia.
  assert (∀ x, in_region s (base_ s + (fb_offset b + head)) size x ↔
    fb_offset b + head ≤ x < fb_offset b + head + size) as Hreg
    by (intros; unfold in_region; lia).
  exists (l1 ++ split_block b head size ++ l2). split; [|split; [|split; [|split; [|split]]]].
  - f_equal. eapply sort_blocks; [by eapply split_block_ok|].
    transitivity ((l1 ++ l2) ++ split_block b head size).
    + unfold split_block. destruct (0 <? head), (0 <? _); by rewrite ?app_nil_r, <- ?app_assoc.
    + rewrite <- app_assoc. f_equiv. apply Permutation_app_comm.
  - by apply split_block_ok.
  - lia.
  - rewrite <- Hm. f_equal. lia.
  - intros x Hx%Hreg. rewrite free_at_app, free_at_cons. right; left. lia.
  - intros x. rewrite Hreg, !free_at_app, free_at_cons, split_block_free by lia.
    assert (free_at l1 x → x < fb_offset b) 
      by (intros Hx; pose proof (blocks_bound _ _ _ _ Hc1 Hx); lia).
    assert (free_at l2 x → fb_offset b + fb_size b < x) 
      by (intros Hx; pose proof (blocks_bound _ _ _ _ Hc2 Hx); lia).
    intuition lia.
Qed.

(** No free run of [size] bytes starts at a multiple of [a]. *)
Definition no_free_run (s : Sandbox) (size a : Z) : Prop :=
  ∀ p, p mod a = 0 → ¬ (∀ x, in_region s p size x → free_at (free_list_ s) x).

Lemma too_small_no_run s size a :
  cage_ok s → 0 < size → Forall (too_small (base_ s) size a) (free_list_ s) →
  no_free_run s size a.
Proof.
  intros Hok Hs Hall p Hp Hrun. unfold in_region in Hrun.
  pose proof (blocks_run _ _ _ _ _ (ck_free _ Hok) Hs Hrun) as Hex.
  apply list.Exists_exists in Hex as (b & Hb & ? & ?).
  rewrite Forall_forall in Hall. specialize (Hall _ Hb (p - base_ s)).
  replace (base_ s + (p - base_ s)) with p in Hall by lia. specialize (Hall ltac:(lia) Hp). lia.
Qed.

(** A request at the top of what was handed out does not fit in the cage. *)
Definition no_room (s : Sandbox) (size a : Z) : Prop :=
  ∀ p, p mod a = 0 → base_ s + bump_offset_ s ≤ p → end_ s < p + size.

(** The new region is apart from every live one. *)
Definition apart (live : gmap Z Z) (p size : Z) : Prop :=
  ∀ q n, live !! q = Some n → p + size ≤ q ∨ q + n ≤ p.

Lemma free_apart s live p size :
  cage_inv s live → 0 < size →
  (∀ x, in_region s p size x → free_at (free_list_ s) x) → apart live p size.
Proof.
  intros [Hok Hl Hn _] Hs Hr q n Hq. pose proof (Hl _ _ Hq) as (? & ? & ?).
  destruct (Z.le_gt_cases (p + size) q); [by left|].
  destruct (Z.le_gt_cases (q + n) p); [by right|].
  destruct (Hn _ _ (Z.max p q) Hq ltac:(lia)). apply Hr. unfold in_region. lia.
Qed.

Lemma region_bound s p size :
  cage_ok s → 0 < size → (∀ x, in_region s p size x → free_at (free_list_ s) x) →
  base_ s ≤ p ∧ p + size ≤ base_ s + bump_offset_ s.
Proof.
  unfold in_region. intros Hok Hs Hr.
  pose proof (blocks_bound _ _ _ _ (ck_free _ Hok) (Hr (p - base_ s) ltac:(lia))).
  pose proof (blocks_bound _ _ _ _ (ck_free _ Hok) (Hr (p - base_ s + size - 1) ltac:(lia))).
  lia.
Qed.

Lemma cage_inv_set_free s live fl p size :
  cage_inv s live → blocks_ok 0 fl (bump_offset_ s) → 0 < size → base_ s ≤ p →
  (∀ x, in_region s p size x → free_at (free_list_ s) x) →
  (∀ x, free_at fl x ↔ free_at (free_list_ s) x ∧ ¬ in_region s p size x) →
  cage_inv (set_free_list fl s) (<[p:=size]> live).
Proof.
  intros Hinv Hc Hs Hp Hr Hfl. pose proof (free_apart _ _ _ _ Hinv Hs Hr) as Hsep.
  destruct Hinv as [Hok Hl Hn Ha]. pose proof (region_bound _ _ _ Hok Hs Hr).
  unfold in_region in *. split; simpl.
  - destruct Hok. by constructor.
  - intros q n [[<- <-]|[? Hq]]%lookup_insert_Some; [lia|by apply Hl].
  - intros q n x [[<- <-]|[? Hq]]%lookup_insert_Some Hx; rewrite Hfl; intros [??]; [lia|].
    by eapply Hn.
  - intros q n q' m [[<- <-]|[? Hq]]%lookup_insert_Some [[<- <-]|[? Hq']]%lookup_insert_Some ?;
      [done|by apply Hsep| |by eapply Ha].
    destruct (Hsep _ _ Hq); tauto.
Qed.
Lemma wp_CommitTo s commit e :
  cage_ok s → 0 ≤ e ≤ size_ s →
  wp (CommitTo commit e) (λ ok s',
    if ok : bool then ∃ c, s' = set_committed c s ∧ e ≤ c ≤ size_ s ∧
      (on_windows = false → c = size_ s)
    else s' = s ∧ on_windows = true ∧ commit = false) s.
Proof.
  intros Hok He. destruct Hok as [? ? ? ? ? ? ? ? Hall Hg ?].
  assert (s = set_committed (committed_ s) s) as Heta by by destruct s.
  unfold CommitTo. wp_step. destruct (e <=? committed_ s) eqn:E; zbool; wp_step.
  { exists (committed_ s). auto with lia. }
  destruct on_windows eqn:Ew; [|rewrite Hall in * by done; lia].
  assert (kCommitStep ≤ base_ s) as Hb by auto. unfold kCommitStep in *.
  pose proof (Z.div_mod (e + 65536 - 1) 65536 ltac:(lia)).
  pose proof (Z.mod_pos_bound (e + 65536 - 1) 65536 ltac:(lia)).
  change (64 * 1024) with 65536 in *.
  rewrite (uw_small (e + 65536 - 1)) by lia. rewrite uw_small by lia.
  destruct commit; wp_step; [|done].
  destruct (size_ s <? _) eqn:E2; zbool; eexists; (split; [done|]); (split; [lia|done]).
Qed.

Lemma cage_inv_bump s live c p size :
  cage_inv s live → 0 < size → base_ s + bump_offset_ s ≤ p →
  p - base_ s + size ≤ c ≤ size_ s → (on_windows = false → c = size_ s) →
  cage_inv (set_bump (p - base_ s + size) (set_committed c s)) (<[p:=size]> live).
Proof.
  intros [Hok Hl Hn Ha] Hs Hp Hc Hw. pose proof (ck_bump _ Hok). split; simpl.
  - destruct Hok. constructor; simpl; try done; [lia|lia|].
    eapply blocks_weaken; [done|lia|lia].
  - intros q n [[<- <-]|[? Hq]]%lookup_insert_Some; [lia|].
    specialize (Hl _ _ Hq). lia.
  - intros q n x [[<- <-]|[? Hq]]%lookup_insert_Some Hx; [|by eapply Hn].
    intros Hf. pose proof (blocks_bound _ _ _ _ (ck_free _ Hok) Hf). lia.
  - intros q n q' m [[<- <-]|[? Hq]]%lookup_insert_Some [[<- <-]|[? Hq']]%lookup_insert_Some ?;
      [done| | |by eapply Ha].
    + specialize (Hl _ _ Hq'). lia.
    + specialize (Hl _ _ Hq). lia.
Qed.

(** The outcome of [TryAllocate]. *)
Definition allocated (s : Sandbox) (live : gmap Z Z) (commit : bool) (size a : Z)
    (p : Z) (s' : Sandbox) : Prop :=
  if p =? nullptr then
    s' = s ∧ no_free_run s size a ∧
    (no_room s size a ∨ (on_windows = true ∧ commit = false))
  else
    p mod a = 0 ∧ base_ s ≤ p ∧ p + size ≤ end_ s ∧ apart live p size ∧
    base_ s' = base_ s ∧ end_ s' = end_ s ∧ cage_inv s' (<[p:=size]> live).

Lemma reused_allocated s live commit size a p fl :
  cage_inv s live → 0 < size → p mod a = 0 → base_ s ≤ p →
  blocks_ok 0 fl (bump_offset_ s) →
  (∀ x, in_region s p size x → free_at (free_list_ s) x) →
  (∀ x, free_at fl x ↔ free_at (free_list_ s) x ∧ ¬ in_region s p size x) →
  (p =? nullptr) = false ∧ allocated s live commit size a p (set_free_list fl s).
Proof.
  intros Hinv Hs Hm Hp Hc Hr Hfl. pose proof (ci_ok _ _ Hinv) as Hok.
  pose proof (region_bound _ _ _ Hok Hs Hr). destruct Hok.
  assert ((p =? nullptr) = false) as Hnz by (apply Z.eqb_neq; unfold nullptr; lia).
  split; [done|]. unfold allocated. rewrite Hnz.
  split; [done|]. split; [lia|]. split; [lia|]. split; [by eapply free_apart|].
  split; [done|]. split; [done|]. by apply cage_inv_set_free.
Qed.

Lemma bump_allocated s live commit size a p c :
  cage_inv s live → 0 < size → p mod a = 0 → base_ s + bump_offset_ s ≤ p →
  p - base_ s + size ≤ c ≤ size_ s → (on_windows = false → c = size_ s) →
  allocated s live commit size a p (set_bump (p - base_ s + size) (set_committed c s)).
Proof.
  intros Hinv Hs Hm Hp Hc Hw. pose proof Hinv as [Hok Hl _ _]. pose proof (ck_bump _ Hok).
  assert ((p =? nullptr) = false) as Hnz
    by (apply Z.eqb_neq; unfold nullptr; pose proof (ck_base _ Hok); lia).
  unfold allocated. rewrite Hnz. pose proof (ck_end _ Hok).
  split; [done|]. split; [lia|]. split; [lia|].
  split. { intros q n Hq. specialize (Hl _ _ Hq). lia. }
  split; [done|]. split; [done|]. by apply cage_inv_bump.
Qed.

(** [TryAllocate] never fails a [CHECK], and ends in one of these outcomes. *)
Lemma wp_TryAllocate s live commit size a :
  cage_inv s live → sane s size a →
  wp (TryAllocate commit size a) (allocated s live commit size a) s.
Proof using P.
  intros Hinv Hsane. pose proof Hsane as (Hpow & Hs & Hsa & Htop).
  pose proof (ci_ok _ _ Hinv) as Hok. pose proof (power_of_two_pos _ Hpow).
  unfold TryAllocate. wp_step. apply wp_CHECK. split; [apply (ck_init _ Hok)|].
  wp_step. eapply wp_mono; [by apply wp_AllocateFromFreeList|].
  intros p s' [(-> & -> & Hnone)|(fl & -> & Hc' & Hp & Hm & Hr & Hfl)].
  2: { destruct (reused_allocated _ _ commit _ _ _ _ Hinv Hs Hm Hp Hc' Hr Hfl) as [-> ?].
    by cbn [negb]. }
  pose proof (too_small_no_run _ _ _ Hok Hs Hnone) as Hnorun.
  pose proof Hok as [_ ? Hbk ? ? ? ? ? _ _ _]. simpl. rewrite Hbk.
  rewrite (uw_small (base_ s + bump_offset_ s)) by lia.
  destruct (AlignUp_spec (base_ s + bump_offset_ s) a) as (Hr & Hm & Hleast); [done|lia..|].
  revert Hr Hm Hleast. generalize (AlignUp (base_ s + bump_offset_ s) a). intros p Hr Hm Hleast.
  rewrite (uw_small (p - base_ s)) by lia.
  assert (∀ q, q mod a = 0 → base_ s + bump_offset_ s ≤ q → p ≤ q) as Hfirst by auto.
  destruct (size_ s <? p - base_ s) eqn:E; zbool; simpl.
  { wp_step. split; [done|]. split; [done|]. left. intros q Hq Hbq.
    specialize (Hfirst _ Hq Hbq). lia. }
  rewrite (uw_small (size_ s - (p - base_ s))) by lia.
  destruct (_ <? size) eqn:E'; zbool.
  { wp_step. split; [done|]. split; [done|]. left. intros q Hq Hbq.
    specialize (Hfirst _ Hq Hbq). lia. }
  rewrite (uw_small (p - base_ s + size)) by lia.
  wp_step. eapply wp_mono; [apply wp_CommitTo; [done|lia]|].
  intros [] s'; [|intros (-> & ? & ?); wp_step; split; [done|]; split; [done|]; by right].
  intros (c & -> & ? & ?). wp_step. rewrite uw_small by lia.
  replace (base_ s + (p - base_ s)) with p by lia. apply bump_allocated; (done || lia).
Qed.
(** ** Giving a region back *)

Lemma lower_bound_spec lo l hi o n :
  blocks_ok lo l hi → 0 < n → (∀ x, o ≤ x < o + n → ¬ free_at l x) →
  let r := lower_bound o l in
  l = r.1 ++ r.2 ∧ blocks_ok lo r.1 o ∧ blocks_ok (o + n) r.2 hi.
Proof.
  revert lo. induction l as [|b l IH]; intros lo Hc Hn Hfree; [done|].
  destruct Hc as (H1 & H2 & H3 & Hc). simpl. destruct (_ <? o) eqn:E; zbool; simpl.
  - destruct (IH _ Hc Hn) as (Hl & Hc1 & Hc2).
    { intros x Hx Hf. apply (Hfree x Hx). rewrite free_at_cons. by right. }
    rewrite <- Hl. split; [done|]. split; [|done]. repeat split; [lia..| |done].
    destruct (Z.le_gt_cases (fb_offset b + fb_size b) o); [done|].
    destruct (Hfree o ltac:(lia)). rewrite free_at_cons. left. lia.
  - split; [done|]. split; [done|]. repeat split; [|lia..|done].
    destruct (Z.le_gt_cases (o + n) (fb_offset b)); [done|].
    destruct (Hfree (fb_offset b) ltac:(lia)). rewrite free_at_cons. left. lia.
Qed.

Lemma merge_next_spec it after hi :
  0 ≤ fb_offset it → 0 < fb_size it → hi < 2 ^ uintptr_bits →
  fb_offset it + fb_size it ≤ hi → blocks_ok (fb_offset it + fb_size it) after hi →
  let r := merge_next it after in
  blocks_ok 0 (r.1 :: r.2) hi ∧ fb_offset r.1 = fb_offset it ∧
  ∀ x, free_at (r.1 :: r.2) x ↔ free_at (it :: after) x.
Proof.
  intros H0 Hs Hhi He Hc. destruct after as [|next after]; simpl; [done|].
  destruct Hc as (H1 & H2 & H3 & Hc). rewrite uw_small by lia.
  destruct (_ =? _) eqn:E; zbool; simpl.
  - rewrite uw_small by lia. split; [|split; [done|]].
    + repeat split; [lia..|]. eapply blocks_weaken; [exact Hc|lia|lia].
    + intros x. rewrite !free_at_cons. simpl. intuition lia.
  - repeat split; auto; lia.
Qed.

Lemma merge_prev_spec before it after hi :
  0 ≤ fb_offset it → hi < 2 ^ uintptr_bits →
  blocks_ok 0 before (fb_offset it) → blocks_ok 0 (it :: after) hi →
  blocks_ok 0 (merge_prev before it ++ after) hi ∧
  ∀ x, free_at (merge_prev before it ++ after) x ↔ free_at before x ∨ free_at (it :: after) x.
Proof.
  intros H0 Hhi Hb (_ & Hs & He & Hc).
  destruct before as [|prev before _] using rev_ind.
  { unfold merge_prev. simpl. split; [auto with lia|].
    intros x. pose proof (free_at_nil x). tauto. }
  apply blocks_snoc in Hb as (Hb & ? & ? & ?).
  unfold merge_prev. rewrite last_snoc, pop_back_snoc, uw_small by lia.
  destruct (_ =? _) eqn:E; zbool.
  - rewrite uw_small by lia. rewrite <- app_assoc. simpl. split.
    + rewrite blocks_app. simpl. repeat split; [done|lia..|].
      eapply blocks_weaken; [exact Hc|lia|lia].
    + intros x. rewrite !free_at_app, !free_at_cons. simpl.
      pose proof (free_at_nil x). intuition lia.
  - rewrite <- app_assoc. split.
    + simpl. rewrite blocks_app. split; [|repeat split; auto with lia].
      rewrite blocks_snoc. repeat split; auto with lia.
    + intros x. change (it :: after) with ([it] ++ after). rewrite !free_at_app. tauto.
Qed.

(** [Free] of a live region: exactly its bytes become free, nothing moves, and
    blocks that now touch are joined. *)
Lemma wp_cage_Free s live p n :
  cage_inv s live → live !! p = Some n →
  wp (Free p n) (λ _ s',
    cage_inv s' (delete p live) ∧ ∃ fl, s' = set_free_list fl s ∧
    ∀ x, free_at fl x ↔ free_at (free_list_ s) x ∨ in_region s p n x) s.
Proof using P.
  intros Hinv Hp. pose proof Hinv as [Hok Hl Hn Ha].
  pose proof (Hl _ _ Hp) as (Hpos & Hlo & Hhi).
  pose proof Hok as [Hi ? Hbk ? ? ? ? ? _ _ Hc].
  unfold Free. wp_step. apply wp_CHECK. split; [done|].
  rewrite (proj2 (Z.eqb_neq p nullptr)), (proj2 (Z.eqb_neq n 0)) by (unfold nullptr; lia).
  simpl. wp_step. apply wp_CHECK. split.
  { unfold Contains. rewrite Hi, (proj2 (Z.leb_le _ _)), (proj2 (Z.ltb_lt _ _)) by lia. done. }
  rewrite Hbk, uw_small by lia. set (o := p - base_ s).
  destruct (lower_bound_spec _ _ _ o n Hc Hpos) as (Heq & Hc1 & Hc2).
  { intros x Hx. replace x with (x + base_ s - base_ s) by lia.
    apply (Hn _ _ _ Hp). lia. }
  destruct (merge_next_spec (mkFreeBlock o n) (lower_bound o (free_list_ s)).2 (bump_offset_ s))
    as (Hm & Ho & Hf); simpl; [lia..|done|]. simpl in Ho.
  destruct (merge_prev_spec (lower_bound o (free_list_ s)).1 _ _ (bump_offset_ s)
    ltac:(rewrite Ho; lia) ltac:(lia) ltac:(by rewrite Ho) Hm) as (Hm' & Hf').
  set (fl := merge_prev _ _ ++ _) in *. wp_step.
  assert (∀ x, free_at fl x ↔ free_at (free_list_ s) x ∨ in_region s p n x) as Hfl.
  { intros x. rewrite Hf', Hf, free_at_cons. rewrite Heq at 3. rewrite free_at_app.
    unfold in_region. simpl. tauto. }
  split; [|by exists fl]. split; simpl.
  - destruct Hok. by constructor.
  - intros q m [_ Hq]%lookup_delete_Some. by apply Hl.
  - intros q m x [Hne Hq]%lookup_delete_Some Hx. rewrite Hfl. intros [Hfx|Hreg].
    + by eapply Hn.
    + unfold in_region in Hreg. destruct (Ha _ _ _ _ Hp Hq Hne); lia.
  - intros q m q' m' [_ Hq]%lookup_delete_Some [_ Hq']%lookup_delete_Some. by apply Ha.
Qed.
(** ** Runs of the allocator *)

(** A block of [size] bytes the operating system can return: not null, and its
    end is an address.  On Windows reservations start at multiples of 64K. *)
Definition reserved (mem size : Z) : Prop :=
  0 < mem ∧ mem + size < 2 ^ uintptr_bits ∧ (on_windows = true → kCommitStep ≤ mem).

Lemma Initialize_inv mem size :
  0 < size → reserved mem size →
  ∃ s, Initialize mem size new_sandbox = Some (tt, s) ∧ cage_inv s ∅ ∧
    base_ s = mem ∧ size_ s = size.
Proof.
  intros Hs (Hm & Ht & Hg). unfold Initialize. simpl.
  unfold bind, get, CHECK, put, ret. simpl. rewrite (proj2 (Z.ltb_lt _ _)) by done.
  rewrite (proj2 (Z.eqb_neq _ _)) by (unfold nullptr; lia). simpl.
  eexists. split; [done|]. split; [|done].
  split; [|intros *; by rewrite ?lookup_empty..].
  constructor; simpl; try done; rewrite ?uw_small by lia; try lia.
  - destruct on_windows; lia.
  - destruct on_windows; lia.
  - by intros ->.
Qed.

(** One call on the cage by a client that frees what it holds, with the size it
    asked for. *)
Inductive cage_step : Sandbox * gmap Z Z → Sandbox * gmap Z Z → Prop :=
  | step_allocate s live commit size a p s' :
      sane s size a → TryAllocate commit size a s = Some (p, s') → p ≠ nullptr →
      cage_step (s, live) (s', <[p:=size]> live)
  | step_refuse s live commit size a s' :
      sane s size a → TryAllocate commit size a s = Some (nullptr, s') →
      cage_step (s, live) (s', live)
  | step_free s live p n s' :
      live !! p = Some n → Free p n s = Some (tt, s') →
      cage_step (s, live) (s', delete p live).

Lemma cage_step_inv x y : cage_inv x.1 x.2 → cage_step x y → cage_inv y.1 y.2.
Proof using P.
  intros Hinv Hstep. destruct Hstep as [s live commit size a p s' Hsane E Hp
    |s live commit size a s' Hsane E|s live p n s' Hp E]; simpl in *.
  - pose proof (wp_TryAllocate _ _ commit _ _ Hinv Hsane) as Hw.
    unfold wp, allocated in Hw. rewrite E, (proj2 (Z.eqb_neq _ _)) in Hw by done. tauto.
  - pose proof (wp_TryAllocate _ _ commit _ _ Hinv Hsane) as Hw.
    unfold wp in Hw. rewrite E in Hw. by destruct Hw as [-> _].
  - pose proof (wp_cage_Free _ _ _ _ Hinv Hp) as Hw. unfold wp in Hw. rewrite E in Hw. tauto.
Qed.

(** What holds of a cage while [live] are the regions in use. *)
Definition cage_promise (s : Sandbox) (live : gmap Z Z) : Prop :=
  (∀ p n, live !! p = Some n → base_ s ≤ p ∧ p + n ≤ end_ s) ∧
  (∀ p n q m, live !! p = Some n → live !! q = Some m → p ≠ q →
    p + n ≤ q ∨ q + m ≤ p) ∧
  (∀ commit n a, sane s n a →
    wp (TryAllocate commit n a) (allocated s live commit n a) s) ∧
  (∀ p n, live !! p = Some n → ∃ s', Free p n s = Some (tt, s')).

(** C19: From the moment a cage is initialized, and after any sequence of requests
    that are [sane] (the alignment is a power of two, and added to the size or to the end of
    the cage it does not wrap around; see [TryAllocate_wraps] for one that does) and of frees of regions in use: no region in use leaves the cage or
    overlaps another; no [CHECK] of [TryAllocate], for a request of this kind, or of
    [Free] of a region in use can fail; a region handed out is aligned, inside the cage
    and apart from all others; and such a request is refused only if no aligned run of
    free bytes is long enough and the unused end of the cage is too short (or Windows
    refuses to commit it). *)
Theorem cage_safe mem size :
  0 < size → reserved mem size →
  ∃ s0, Initialize mem size new_sandbox = Some (tt, s0) ∧
  ∀ s live, rtc cage_step (s0, ∅) (s, live) → cage_promise s live.
Proof using P.
  intros Hs Hr. destruct (Initialize_inv _ _ Hs Hr) as (s0 & Hi & Hinv & _).
  exists s0. split; [done|]. intros s live Hrun.
  apply (rtc_invariant _ (λ x, cage_inv x.1 x.2) _ _ cage_step_inv) in Hrun; [|done].
  simpl in Hrun. pose proof Hrun as [Hok Hl _ Ha]. split; [|split; [done|split]].
  - intros p n Hp. specialize (Hl _ _ Hp). destruct Hok. lia.
  - intros. by apply wp_TryAllocate.
  - intros p n Hp. destruct (wp_run _ _ _ (wp_cage_Free _ _ _ _ Hrun Hp)) as ([] & s' & ? & _).
    by exists s'.
Qed.

(** Freed space is reclaimed: once a region is freed, exactly its bytes have
    been added to the free ones, with neighbours joined, and a request that fits
    at its address is granted. *)
Theorem free_reusable s live p n :
  cage_inv s live → live !! p = Some n →
  wp (Free p n) (λ _ s',
    cage_inv s' (delete p live) ∧
    (∀ x, free_at (free_list_ s') x ↔ free_at (free_list_ s) x ∨ in_region s p n x) ∧
    ∀ commit size a, sane s size a → size ≤ n → p mod a = 0 →
      wp (TryAllocate commit size a) (λ q _, q ≠ nullptr) s') s.
Proof using P.
  intros Hinv Hp. eapply wp_mono; [by apply wp_cage_Free|].
  intros [] s' (Hinv' & fl & -> & Hfl). split; [done|]. split; [done|].
  intros commit size a Hsane Hle Hm.
  eapply wp_mono; [by eapply wp_TryAllocate|].
  intros q s' Hq ->. unfold allocated in Hq. simpl in Hq. destruct Hq as (_ & Hno & _).
  apply (Hno p Hm). intros x Hx. simpl. apply Hfl. right. unfold in_region in *. simpl in Hx. lia.
Qed.

(** The check of [AllocateFromFreeList] wraps: if the first free block does
    not start at a multiple of the alignment, a request for [2^w - head] bytes,
    [head] being the bytes the alignment skips, is granted out of it, although it
    exceeds the whole cage, and the block is then free twice over. *)
Theorem TryAllocate_wraps s b rest a commit :
  cage_ok s → free_list_ s = b :: rest → power_of_two a →
  end_ s + a ≤ 2 ^ uintptr_bits → (base_ s + fb_offset b) mod a ≠ 0 →
  let head := AlignUp (base_ s + fb_offset b) a - (base_ s + fb_offset b) in
  let size := 2 ^ uintptr_bits - head in
  size_ s < size ∧
  wp (TryAllocate commit size a) (λ p s',
    p = base_ s + fb_offset b + head ∧
    mkFreeBlock (fb_offset b) head ∈ free_list_ s' ∧
    mkFreeBlock (fb_offset b) (fb_size b) ∈ free_list_ s') s.
Proof using P.
  intros Hok Hl Ha Htop Hmis. pose proof Hok as [Hi ? Hbk ? ? ? ? ? _ _ Hc].
  rewrite Hl in Hc. destruct Hc as (? & ? & ? & _). pose proof (power_of_two_pos _ Ha).
  destruct (AlignUp_spec (base_ s + fb_offset b) a) as (Hr & Hm & _); [done|lia..|].
  assert (AlignUp (base_ s + fb_offset b) a ≠ base_ s + fb_offset b) as Hne
    by (intros E; rewrite E in Hm; done).
  cbv zeta. remember (AlignUp (base_ s + fb_offset b) a - _) as head eqn:Hh.
  assert (0 < head) by lia. split; [lia|].
  assert (uw (head + (2 ^ uintptr_bits - head)) = 0) as Hwrap
    by (replace (head + _) with (2 ^ uintptr_bits) by lia; apply Z.mod_same; lia).
  assert (uw (fb_size b - head - (2 ^ uintptr_bits - head)) = fb_size b) as Htail.
  { replace (fb_size b - _ - _) with (fb_size b + (-1) * 2 ^ uintptr_bits) by lia.
    unfold uw. rewrite Z.mod_add by lia. apply uw_small. lia. }
  assert (uw (fb_offset b + head + (2 ^ uintptr_bits - head)) = fb_offset b) as Hoff.
  { replace (fb_offset b + _ + _) with (fb_offset b + 1 * 2 ^ uintptr_bits) by lia.
    unfold uw. rewrite Z.mod_add by lia. apply uw_small. lia. }
  unfold TryAllocate, AllocateFromFreeList. wp_step. rewrite wp_CHECK. split; [done|].
  wp_step. rewrite Hl, Hbk. cbn [first_fit].
  rewrite (uw_small (base_ s + fb_offset b)), <- Hh, (uw_small head), Hwrap by lia.
  rewrite (proj2 (Z.ltb_ge _ _)) by lia. wp_step.
  rewrite Htail, Hoff, (uw_small (fb_offset b + head)), uw_small by lia.
  rewrite (proj2 (Z.eqb_neq _ _)) by (unfold nullptr; lia). cbn [negb]. wp_step.
  split; [lia|]. rewrite !(proj2 (Z.ltb_lt _ _)) by lia. simpl.
  rewrite merge_sort_Permutation, !elem_of_app, !list_elem_of_singleton. tauto.
Qed.
(** ** Sandboxed pointers *)

(** Every 32-bit value decodes to an address inside the cage; an address of
    the cage comes back from encoding and decoding if the cage is at most 4 GiB,
    and one that lies 4 GiB or more above the base of a larger cage never does. *)
Theorem sandboxed_pointer_contained s :
  cage_ok s →
  (∀ encoded, 0 ≤ encoded < 2 ^ 32 →
    ∃ a, DecodeSandboxedPointer s encoded = Some a ∧ Contains s a = true) ∧
  (∀ p, Contains s p = false → EncodeSandboxedPointer s p = None) ∧
  (∀ p, Contains s p = true → ∃ encoded, EncodeSandboxedPointer s p = Some encoded ∧
    0 ≤ encoded < 2 ^ 32 ∧
    (DecodeSandboxedPointer s encoded = Some p ↔ p - base_ s < 2 ^ 32)).
Proof using P.
  intros [Hi Hb _ He Ht Hs _ _ _ _ _].
  assert (2 ^ 32 ≤ 2 ^ uintptr_bits ≤ 2 ^ 64) as Hw
    by (destruct uintptr_width as [-> | ->]; lia).
  assert (∀ o, 0 ≤ o < size_ s → uw (base_ s + uw o) = base_ s + o) as Hdec
    by (intros; rewrite !uw_small by (rewrite ?uw_small; lia); done).
  unfold DecodeSandboxedPointer, EncodeSandboxedPointer.
  rewrite (proj2 (Z.eqb_neq _ _)) by lia. split; [|split].
  - intros e He'. pose proof (Z.mod_pos_bound e (size_ s) Hs). eexists. split; [done|].
    unfold Contains. rewrite Hdec, Hi by lia. simpl.
    rewrite (proj2 (Z.leb_le _ _)), (proj2 (Z.ltb_lt _ _)) by lia. done.
  - by intros p ->.
  - intros p Hp. rewrite Hp. eexists. split; [done|]. unfold Contains in Hp. zbool.
    split; [apply u32_range|]. rewrite u64_small by lia. unfold u32.
    set (o := p - base_ s) in *. pose proof (Z.mod_pos_bound o (2 ^ 32) ltac:(lia)).
    pose proof (Z.mod_le o (2 ^ 32) ltac:(lia) ltac:(lia)).
    rewrite (Z.mod_small _ (size_ s)), Hdec by lia. split.
    + intros [= E]. lia.
    + intros Hlt. rewrite Z.mod_small by lia. f_equal. lia.
Qed.
(** ** Containers in the current cage *)

Lemma wp_on_cage {A} w this s (m : M Sandbox A) (Q : A → Sandbox → Prop) :
  cages w !! this = Some s → wp m Q s →
  wp (on_cage this m) (λ a w', ∃ s', Q a s' ∧
    w' = mkWorld (<[this := s']> (cages w)) (current_ w)) w.
Proof.
  intros Hs Hm. destruct (wp_run _ _ _ Hm) as (a & s' & E & HQ).
  unfold on_cage. wp_step. rewrite Hs. wp_step. rewrite E. wp_step. eauto.
Qed.

(** While a cage is current, memory of a container comes from it and goes back to
    it; memory from elsewhere goes to [::operator delete] and leaves the cage
    alone.  A full cage ends the process: [Allocate] never answers null. *)
Lemma container_memory sizeof_T alignof_T w this s live :
  current_ w = Some this → cages w !! this = Some s → cage_inv s live →
  (∀ commit heap n, 0 < n → n * sizeof_T < 2 ^ uintptr_bits →
    sane s (n * sizeof_T) alignof_T →
    match cage_allocate sizeof_T alignof_T commit heap n w with
    | Some (p, w') => p ≠ nullptr ∧ ∃ s',
        allocated s live commit (n * sizeof_T) alignof_T p s' ∧
        w' = mkWorld (<[this := s']> (cages w)) (Some this)
    | None => allocated s live commit (n * sizeof_T) alignof_T nullptr s
    end) ∧
  (∀ p n, live !! p = Some (n * sizeof_T) →
    wp (cage_deallocate sizeof_T p n) (λ global w', global = false ∧ ∃ s',
      w' = mkWorld (<[this := s']> (cages w)) (Some this) ∧
      cage_inv s' (delete p live)) w) ∧
  (∀ p n, p ≠ nullptr → Contains s p = false →
    wp (cage_deallocate sizeof_T p n) (λ global w', global = true ∧
      w' = mkWorld (<[this := s]> (cages w)) (Some this)) w).
Proof using P.
  intros Hcur Hs Hinv. pose proof Hinv as [Hok Hl _ _]. split; [|split].
  - intros commit heap n Hn Hb Hsane. pose proof Hsane as (_ & Hpos & _).
    destruct (wp_run _ _ _ (wp_TryAllocate _ _ commit _ _ Hinv Hsane)) as (p & s' & E & HQ).
    unfold cage_allocate. rewrite (proj2 (Z.eqb_neq _ _)) by lia.
    unfold bind at 1, get at 1. rewrite Hcur. unfold on_cage, Allocate.
    rewrite uw_small by lia. unfold bind, get, of_option, ret, CHECK, put. rewrite Hs, E.
    destruct (p =? nullptr) eqn:Ep; simpl.
    + apply Z.eqb_eq in Ep as ->. unfold allocated in *. simpl in *.
      by destruct HQ as (-> & ?).
    + rewrite Ep. simpl. rewrite Hcur. apply Z.eqb_neq in Ep. eauto.
  - intros p n Hp. specialize (Hl _ _ Hp). unfold cage_deallocate. destruct Hok.
    rewrite (proj2 (Z.eqb_neq p _)) by (unfold nullptr; lia). wp_step. rewrite Hcur. wp_step.
    eapply wp_mono; [apply (wp_on_cage w this s _ (λ b s', b = true ∧ s' = s) Hs)|].
    { wp_step. split; [|done]. unfold Contains.
      rewrite ck_init0, (proj2 (Z.leb_le _ _)), (proj2 (Z.ltb_lt _ _)) by lia. done. }
    intros b w' (s' & [-> ->] & ->). wp_step. rewrite uw_small by lia.
    eapply wp_mono; [eapply wp_on_cage; [apply lookup_insert_eq|by apply wp_cage_Free]|].
    intros [] w'' (s' & [Hinv' _] & ->). wp_step. split; [done|]. exists s'. simpl.
    by rewrite insert_insert_eq, Hcur.
  - intros p n Hp Hout. unfold cage_deallocate. rewrite (proj2 (Z.eqb_neq p _)) by done.
    wp_step. rewrite Hcur. wp_step.
    eapply wp_mono; [apply (wp_on_cage w this s _ (λ b s', b = false ∧ s' = s) Hs)|].
    { wp_step. done. }
    intros b w' (s' & [-> ->] & ->). wp_step. by rewrite Hcur.
Qed.
End props.

(** ** Witnesses *)

#[local] Instance linux64 : Platform := mkPlatform 64 false.
#[local] Instance linux64_ok : PlatformOk.
Proof. by right. Defined.

Lemma cage_safe_witness :
  0 < 256 ∧ reserved 65536 256 ∧
  ∃ s0, Initialize 65536 256 new_sandbox = Some (tt, s0) ∧
  ∀ s live, rtc cage_step (s0, ∅) (s, live) → cage_promise s live.
Proof.
  assert (reserved 65536 256) as H by (split; [lia|split; [simpl; lia|done]]).
  split; [lia|]. split; [exact H|]. apply (cage_safe 65536 256); [lia|exact H].
Defined.

(** A cage of 256 bytes: [0, 8) and [72, 80) are in use, [8, 72) is free. *)
Definition small_cage : Sandbox :=
  mkSandbox 65536 65792 256 65536 80 256 true [mkFreeBlock 8 64].
Definition small_live : gmap Z Z := <[65536:=8]> {[65608:=8]}.

Lemma small_cage_ok : cage_ok small_cage.
Proof. constructor; simpl; try done; lia. Qed.

Lemma small_live_cases p n :
  small_live !! p = Some n → (p = 65536 ∧ n = 8) ∨ (p = 65608 ∧ n = 8).
Proof.
  unfold small_live. intros [[<- <-]|[_ Hp]]%lookup_insert_Some; [by left|right].
  apply lookup_singleton_Some in Hp as [<- <-]. done.
Qed.

Lemma small_cage_inv : cage_inv small_cage small_live.
Proof.
  split; [exact small_cage_ok|..].
  - intros p n [[-> ->]|[-> ->]]%small_live_cases; simpl; lia.
  - intros p n x Hp%small_live_cases Hx [Hf|Hf]%free_at_cons; simpl in *.
    + destruct Hp as [[-> ->]|[-> ->]]; lia.
    + by apply free_at_nil in Hf.
  - intros p n q m Hp%small_live_cases Hq%small_live_cases. lia.
Qed.

Lemma free_reusable_witness :
  cage_inv small_cage small_live ∧ small_live !! 65536 = Some 8 ∧
  wp (Free 65536 8) (λ _ s',
    cage_inv s' (delete 65536 small_live) ∧
    (∀ x, free_at (free_list_ s') x ↔
      free_at (free_list_ small_cage) x ∨ in_region small_cage 65536 8 x) ∧
    ∀ commit size a, sane s' size a → size ≤ 8 → 65536 mod a = 0 →
      wp (TryAllocate commit size a) (λ q _, q ≠ nullptr) s') small_cage.
Proof.
  split; [exact small_cage_inv|]. split; [reflexivity|].
  apply (free_reusable small_cage small_live 65536 8); [exact small_cage_inv|reflexivity].
Defined.

Definition the_block : FreeBlock := mkFreeBlock 8 64.

Lemma TryAllocate_wraps_witness :
  cage_ok small_cage ∧ power_of_two 16 ∧
  (base_ small_cage + fb_offset the_block) mod 16 ≠ 0 ∧
  let head := AlignUp (base_ small_cage + fb_offset the_block) 16 -
    (base_ small_cage + fb_offset the_block) in
  let size := 2 ^ uintptr_bits - head in
  size_ small_cage < size ∧
  wp (TryAllocate true size 16) (λ p s',
    p = base_ small_cage + fb_offset the_block + head ∧
    mkFreeBlock (fb_offset the_block) head ∈ free_list_ s' ∧
    mkFreeBlock (fb_offset the_block) (fb_size the_block) ∈ free_list_ s') small_cage.
Proof.
  assert (power_of_two 16) as Hp by (exists 4; split; [lia|reflexivity]).
  split; [exact small_cage_ok|]. split; [exact Hp|]. split; [done|].
  apply (TryAllocate_wraps small_cage the_block [] 16 true);
    [exact small_cage_ok|reflexivity|exact Hp|simpl; lia|done].
Defined.

Lemma sandboxed_pointer_contained_witness :
  cage_ok small_cage ∧
  (∀ encoded, 0 ≤ encoded < 2 ^ 32 →
    ∃ a, DecodeSandboxedPointer small_cage encoded = Some a ∧ Contains small_cage a = true) ∧
  (∀ p, Contains small_cage p = false → EncodeSandboxedPointer small_cage p = None) ∧
  (∀ p, Contains small_cage p = true →
    ∃ encoded, EncodeSandboxedPointer small_cage p = Some encoded ∧
    0 ≤ encoded < 2 ^ 32 ∧
    (DecodeSandboxedPointer small_cage encoded = Some p ↔ p - base_ small_cage < 2 ^ 32)).
Proof.
  split; [exact small_cage_ok|].
  apply (sandboxed_pointer_contained small_cage). exact small_cage_ok.
Defined.
