(* ===== verification/Tables.v ===== *)
(** * The pointer tables of the sandbox

    [WASMSafeSpace/src/sandbox]: [tagged-payload.h] (pointer, tag and mark bit in
    one 64-bit word), [external-entity-table.h] (a vector of entries with a free
    list threaded through it) and the tables built from them: trusted, external,
    indirect and code pointers; and [cppheap-pointer-table.{h,cc}] of
    [WASMv8bindings], on the same base.

    The base is written against the interface [Entry], which every table's entry
    implements.  [ub] is an access outside the vector or the use of an empty
    [optional] (a [DCHECK] guards both, in debug builds only), or a failed
    [CHECK]. *)
From Stdlib Require Import ZArith Lia.
From stdpp Require Import base list gmap.
From S2P Require Import Prelude Sandbox.

(** ** Tag ranges: [v8-internal.h] *)

Record TagRange := mkTagRange { tr_first : Z; tr_last : Z }.

Definition TagRange_of (tag : Z) : TagRange := mkTagRange tag tag.

Definition TagRange_IsEmpty (r : TagRange) : bool :=
  (tr_first r =? 0) && (tr_last r =? 0).

Definition TagRange_Size (r : TagRange) : Z :=
  if TagRange_IsEmpty r then 0 else u32 (u32 (tr_last r - tr_first r) + 1).

Definition TagRange_Contains (r : TagRange) (tag : Z) : bool :=
  u32 (tag - tr_first r) <=? u32 (tr_last r - tr_first r).

(** ** Tagged payloads: [tagged-payload.h] *)

Class TaggingScheme := mkScheme {
  kMarkBit : Z;
  kTagShift : Z;
  kTagMask : Z;
  kPayloadMask : Z;
  kPayloadShift : Z;
  kFreeEntryTag : Z;
  kEvacuationEntryTag : Z
}.

(** [TaggedPayload<PayloadTaggingScheme>]. *)
Record TaggedPayload (S : TaggingScheme) := mkPayload { encoded_word_ : Z }.
Arguments mkPayload {S} _.
Arguments encoded_word_ {S} _.

Section payload.
Context {S : TaggingScheme}.
Implicit Types p : TaggedPayload S.

Definition Tag (pointer tag : Z) : Z :=
  Z.lor (u64 (Z.shiftl pointer kPayloadShift)) (u64 (Z.shiftl tag kTagShift)).

Definition Payload (pointer tag : Z) : TaggedPayload S := mkPayload (Tag pointer tag).

Definition word_tag (content : Z) : Z :=
  u16 (Z.shiftr (Z.land content kTagMask) kTagShift).

Definition CheckTag (content : Z) (tag_range : TagRange) : bool :=
  TagRange_Contains tag_range (word_tag content).

Definition word_payload (content : Z) : Z :=
  Z.shiftr (Z.land content kPayloadMask) kPayloadShift.

Definition UntagAllowNullHandle p (tag_range : TagRange) : Z :=
  let content := encoded_word_ p in
  if CheckTag content tag_range then word_payload content else 0.

Definition IsTaggedWithTagIn p (tag_range : TagRange) : bool :=
  CheckTag (encoded_word_ p) tag_range.

Definition IsTaggedWith p (tag : Z) : bool := IsTaggedWithTagIn p (TagRange_of tag).

Definition SetMarkBit p : TaggedPayload S := mkPayload (Z.lor (encoded_word_ p) kMarkBit).
Definition ClearMarkBit p : TaggedPayload S :=
  mkPayload (Z.land (encoded_word_ p) (u64 (Z.lnot kMarkBit))).
Definition HasMarkBitSet p : bool := negb (Z.land (encoded_word_ p) kMarkBit =? 0).

Definition payload_ExtractFreelistLink p : option Z :=
  if IsTaggedWith p kFreeEntryTag then Some (u32 (word_payload (encoded_word_ p)))
  else None.

Definition SetTag p (tag : Z) : TaggedPayload S :=
  mkPayload (Z.lor (Z.land (encoded_word_ p) (u64 (Z.lnot kTagMask)))
               (u64 (Z.shiftl tag kTagShift))).

Definition ExtractTag p : Z := word_tag (encoded_word_ p).

Definition payload_ContainsFreelistLink p : bool := IsTaggedWith p kFreeEntryTag.
Definition ContainsPointer p : bool := negb (payload_ContainsFreelistLink p).
End payload.

(** ** The base of every table: [external-entity-table.h] *)

(** What the template asks of its [Entry]. *)
Class Entry (E : Type) := {
  new_entry : E;
  MakeFreelistEntry : Z → E;
  ContainsFreelistLink : E → bool;
  ExtractFreelistLink : E → option Z
}.

Definition kNullIndex : Z := 4294967295.

Record ExternalEntityTable (E : Type) := mkTable {
  entries_ : list E;
  free_list_head_ : Z
}.
Arguments mkTable {E} _ _.
Arguments entries_ {E} _.
Arguments free_list_head_ {E} _.

Definition new_table {E} : ExternalEntityTable E := mkTable [] kNullIndex.

Section table.
Context {E : Type} `{Entry E}.
Implicit Types t : ExternalEntityTable E.

Definition SizeForTesting t : Z := Z.of_nat (length (entries_ t)).
Definition IsInBounds t (index : Z) : bool := index <? SizeForTesting t.

(** [entries_[index]]. *)
Definition entry_at (entries : list E) (index : Z) : option E :=
  entries !! Z.to_nat index.

(** [init] is what the caller's lambda makes of the entry. *)
Definition AllocateEntry (init : E → E) : M (ExternalEntityTable E) Z :=
  let! t := get in
  if negb (free_list_head_ t =? kNullIndex) then
    let index := free_list_head_ t in
    let! e := of_option (entry_at (entries_ t) index) in
    let! next := of_option (ExtractFreelistLink e) in
    put (mkTable (<[Z.to_nat index := init e]> (entries_ t)) next) ;;
    ret index
  else
    let index := u32 (SizeForTesting t) in
    let entries := entries_ t ++ [new_entry] in
    let! e := of_option (entry_at entries index) in
    put (mkTable (<[Z.to_nat index := init e]> entries) (free_list_head_ t)) ;;
    ret index.

Definition FreeEntry (index : Z) : M (ExternalEntityTable E) unit :=
  let! t := get in
  let! _ := of_option (entry_at (entries_ t) index) in
  put (mkTable
    (<[Z.to_nat index := MakeFreelistEntry (free_list_head_ t)]> (entries_ t)) index).

(** [at(index)], and an assignment to what it returns. *)
Definition at_ (index : Z) : M (ExternalEntityTable E) E :=
  let! t := get in of_option (entry_at (entries_ t) index).

Definition set_at (index : Z) (f : E → E) : M (ExternalEntityTable E) unit :=
  let! t := get in
  let! e := of_option (entry_at (entries_ t) index) in
  put (mkTable (<[Z.to_nat index := f e]> (entries_ t)) (free_list_head_ t)).

(** The first loop of [Compact]: at most every entry is popped. *)
Fixpoint trim (fuel : nat) (entries : list E) : list E :=
  match fuel with
  | O => entries
  | S fuel' =>
      match last entries with
      | Some back =>
          if ContainsFreelistLink back then trim fuel' (pop_back entries) else entries
      | None => entries
      end
  end.

(** Its second loop, from index [i]. *)
Fixpoint rebuild (i new_head : Z) (entries : list E) : list E * Z :=
  match entries with
  | [] => ([], new_head)
  | e :: entries' =>
      if ContainsFreelistLink e
      then let r := rebuild (u32 (i + 1)) i entries' in
           (MakeFreelistEntry new_head :: r.1, r.2)
      else let r := rebuild (u32 (i + 1)) new_head entries' in (e :: r.1, r.2)
  end.

Definition Compact : M (ExternalEntityTable E) unit :=
  modify (λ t,
    let entries := trim (length (entries_ t)) (entries_ t) in
    let r := rebuild 0 kNullIndex entries in
    mkTable r.1 r.2).
End table.

Definition kNullHandle : Z := 0.
Definition HandleToIndex (handle : Z) : Z := u32 (handle - 1).
Definition IndexToHandle (index : Z) : Z := u32 (index + 1).

(** ** Tables of tagged pointers

    The four tables of tagged pointers have the same entry and the same operations,
    each for its own scheme. *)

#[export] Instance tagged_entry (S : TaggingScheme) : Entry (TaggedPayload S) := {
  new_entry := mkPayload 0;
  MakeFreelistEntry next_free_index := Payload next_free_index kFreeEntryTag;
  ContainsFreelistLink := payload_ContainsFreelistLink;
  ExtractFreelistLink := payload_ExtractFreelistLink
}.

Section pointer_table.
Context (S : TaggingScheme).
Local Abbreviation PT := (ExternalEntityTable (TaggedPayload S)).

Definition table_Allocate (pointer tag : Z) : M PT Z :=
  let! index := AllocateEntry (λ _, Payload pointer tag) in
  ret (IndexToHandle index).

Definition table_Get (handle : Z) (tag_range : TagRange) : M PT Z :=
  if handle =? kNullHandle then ret 0
  else
    let! t := get in
    let index := HandleToIndex handle in
    if negb (IsInBounds t index) then ret 0
    else
      let! e := at_ index in
      ret (UntagAllowNullHandle e tag_range).

(** A null handle is caught by [DCHECK] only; its index is 0xffffffff. *)
Definition table_Set (handle pointer tag : Z) : M PT unit :=
  set_at (HandleToIndex handle) (λ _, Payload pointer tag).

Definition table_Free (handle : Z) : M PT unit :=
  if handle =? kNullHandle then ret tt
  else FreeEntry (HandleToIndex handle).

Definition table_Contains (handle : Z) : M PT bool :=
  if handle =? kNullHandle then ret false
  else
    let! t := get in
    let index := HandleToIndex handle in
    if negb (IsInBounds t index) then ret false
    else
      let! e := at_ index in
      ret (negb (ContainsFreelistLink e)).
End pointer_table.

Module TrustedPointerTable.
Definition scheme : TaggingScheme := {|
  kMarkBit := 0x0001000000000000;
  kTagShift := 49;
  kTagMask := 0xfffe000000000000;
  kPayloadMask := 0x0000ffffffffffff;
  kPayloadShift := 0;
  kFreeEntryTag := 0xff;
  kEvacuationEntryTag := 0xfe
|}.
Definition kGenericTrustedObjectTag : Z := 1.
Definition kCodeIndirectPointerTag : Z := 2.
Definition kLastIndirectPointerFastTag : Z := 0x0f.
Definition kUnpublishedIndirectPointerTag : Z := 0xfc.
Definition kAllIndirectPointerTags : TagRange :=
  mkTagRange kGenericTrustedObjectTag kLastIndirectPointerFastTag.
Definition kAllIndirectPointerTagsIncludingUnpublished : TagRange :=
  mkTagRange kGenericTrustedObjectTag kUnpublishedIndirectPointerTag.
Definition IsFastIndirectPointerTag (tag : Z) : bool :=
  (0 <? tag) && (Z.land tag (tag - 1) =? 0).
Definition IsValidIndirectPointerTag (tag : Z) : bool :=
  TagRange_Contains kAllIndirectPointerTags tag.

Definition AllocateAndInitializeEntry := table_Allocate scheme.
Definition Get := table_Get scheme.
Definition Set_ := table_Set scheme.
Definition FreeEntry := table_Free scheme.
Definition Contains := table_Contains scheme.
End TrustedPointerTable.

Module ExternalPointerTable.
Definition scheme : TaggingScheme := {|
  kMarkBit := 0x0000800000000000;
  kTagShift := 48;
  kTagMask := 0xffff000000000000;
  kPayloadMask := 0x00007fffffffffff;
  kPayloadShift := 0;
  kFreeEntryTag := 0x7fff;
  kEvacuationEntryTag := 0x7ffe
|}.
Definition kFirstManagedResourceTag : Z := 1.
Definition kLastManagedResourceTag : Z := 0x7ffc.
Definition kAnyExternalPointer : TagRange :=
  mkTagRange kFirstManagedResourceTag kLastManagedResourceTag.

Definition AllocateAndInitializeEntry := table_Allocate scheme.
Definition Get := table_Get scheme.
Definition Set_ := table_Set scheme.
Definition FreeEntry := table_Free scheme.
Definition Contains := table_Contains scheme.
End ExternalPointerTable.

Module IndirectPointerTable.
Definition scheme : TaggingScheme := {|
  kMarkBit := 0x0080000000000000;
  kTagShift := 56;
  kTagMask := 0xff00000000000000;
  kPayloadMask := 0x007fffffffffffff;
  kPayloadShift := 0;
  kFreeEntryTag := 0xff;
  kEvacuationEntryTag := 0xfe
|}.
Definition kFirstGuestResourceTag : Z := 1.
Definition kLastGuestResourceTag : Z := 0xfc.
Definition kAnyGuestPointer : TagRange :=
  mkTagRange kFirstGuestResourceTag kLastGuestResourceTag.

Definition AllocateAndInitializeEntry := table_Allocate scheme.
Definition Get := table_Get scheme.
Definition Set_ := table_Set scheme.
Definition FreeEntry := table_Free scheme.
Definition Contains := table_Contains scheme.
End IndirectPointerTable.

Module CppHeapPointerTable.
Definition scheme : TaggingScheme := {|
  kMarkBit := 0x0001000000000000;
  kTagShift := 49;
  kTagMask := 0xfffe000000000000;
  kPayloadMask := 0x0000ffffffffffff;
  kPayloadShift := 0;
  kFreeEntryTag := 0x7fff;
  kEvacuationEntryTag := 0x7ffe
|}.
Definition kFirstObjectWrappableTag : Z := 1.
Definition kLastObjectWrappableTag : Z := 0x7ffc.
Definition kAnyCppHeapPointer : TagRange :=
  mkTagRange kFirstObjectWrappableTag kLastObjectWrappableTag.

Definition AllocateAndInitializeEntry := table_Allocate scheme.
Definition Get := table_Get scheme.
(** A [CHECK] here, in every build. *)
Definition Set_ (handle pointer tag : Z) :
    M (ExternalEntityTable (TaggedPayload scheme)) unit :=
  CHECK (negb (handle =? kNullHandle)) ;;
  table_Set scheme handle pointer tag.
Definition FreeEntry := table_Free scheme.
Definition Contains := table_Contains scheme.

(** The counter behind run-time tags, [NextCppHeapPointerTagValue()]. *)
Definition AllocateCppHeapPointerTag : M Z Z :=
  let! next := get in put (u16 (next + 1)) ;; ret next.
Definition AllocateCppHeapPointerTagRange (count : Z) : M Z Z :=
  let! next := get in put (u16 (next + count)) ;; ret next.
End CppHeapPointerTable.

(** ** Code pointers *)

Module CodePointerTable.
Record CodePointerTableEntry := mkCode {
  is_free_ : bool;
  marked_ : bool;
  next_free_ : Z;
  code_object_ : Z;
  entrypoint_ : Z
}.

Definition MakeCodePointerEntry (code_object entrypoint : Z) : CodePointerTableEntry :=
  mkCode false false 0 code_object entrypoint.

#[export] Instance code_entry : Entry CodePointerTableEntry := {
  new_entry := mkCode true false 0 0 0;
  MakeFreelistEntry next_free_index := mkCode true false next_free_index 0 0;
  ContainsFreelistLink := is_free_;
  ExtractFreelistLink e := if is_free_ e then Some (next_free_ e) else None
}.

Definition CPT : Type := ExternalEntityTable CodePointerTableEntry.

Definition AllocateAndInitializeEntry (code_object entrypoint : Z) : M CPT Z :=
  let! index := AllocateEntry (λ _, MakeCodePointerEntry code_object entrypoint) in
  ret (IndexToHandle index).

(** [GetEntrypoint] and [GetCodeObject] differ in the field they read. *)
Definition get_field (field : CodePointerTableEntry → Z) (handle : Z) : M CPT Z :=
  if handle =? kNullHandle then ret 0
  else
    let! t := get in
    let index := HandleToIndex handle in
    if negb (IsInBounds t index) then ret 0
    else
      let! e := at_ index in
      if is_free_ e then ret 0 else ret (field e).

Definition GetEntrypoint : Z → M CPT Z := get_field entrypoint_.
Definition GetCodeObject : Z → M CPT Z := get_field code_object_.

Definition SetEntrypoint (handle value : Z) : M CPT unit :=
  set_at (HandleToIndex handle) (λ e,
    mkCode (is_free_ e) (marked_ e) (next_free_ e) (code_object_ e) value).
Definition SetCodeObject (handle value : Z) : M CPT unit :=
  set_at (HandleToIndex handle) (λ e,
    mkCode (is_free_ e) (marked_ e) (next_free_ e) value (entrypoint_ e)).

Definition FreeEntry (handle : Z) : M CPT unit :=
  if handle =? kNullHandle then ret tt
  else Tables.FreeEntry (HandleToIndex handle).

Definition Contains (handle : Z) : M CPT bool :=
  if handle =? kNullHandle then ret false
  else
    let! t := get in
    let index := HandleToIndex handle in
    if negb (IsInBounds t index) then ret false
    else
      let! e := at_ index in
      ret (negb (is_free_ e)).
End CodePointerTable.
