(* ===== verification/TableProps.v ===== *)
(** * What the pointer tables promise

    The free list of [ExternalEntityTable] and what each operation does to the
    entries in use ([live_at]), against the interface [EntryLaws]; the layout of
    tagged words; and a table of tagged pointers as a map from handles to pointer
    and tag, which its operations refine ([table_refines]). *)
From Stdlib Require Import ZArith Lia.
From stdpp Require Import base list gmap.
From S2P Require Import Prelude Sandbox Tables.

(** What the base relies on in an entry. *)
Class EntryLaws (E : Type) `{Entry E} : Prop := {
  make_link n : 0 ≤ n < 2 ^ 32 → ExtractFreelistLink (MakeFreelistEntry n) = Some n;
  contains_link e : ContainsFreelistLink e = bool_decide (is_Some (ExtractFreelistLink e))
}.

Section base.
Context {E : Type} `{Entry E} {L : EntryLaws E}.
Implicit Types (t : ExternalEntityTable E) (es : list E).

(** The chain of free entries from [head]. *)
Fixpoint freelist es (head : Z) (fl : list nat) : Prop :=
  match fl with
  | [] => head = kNullIndex
  | i :: fl' => head = Z.of_nat i ∧ ∃ e next,
      es !! i = Some e ∧ ExtractFreelistLink e = Some next ∧ freelist es next fl'
  end.

Record table_inv t (fl : list nat) : Prop := {
  ti_chain : freelist (entries_ t) (free_list_head_ t) fl;
  ti_nodup : NoDup fl;
  ti_all i e : entries_ t !! i = Some e → is_Some (ExtractFreelistLink e) → i ∈ fl;
  ti_size : SizeForTesting t ≤ kNullIndex
}.

(** The entry at [i], if it is in use. *)
Definition live_at t (i : nat) : option E :=
  match entries_ t !! i with
  | Some e => if ExtractFreelistLink e is Some _ then None else Some e
  | None => None
  end.

Lemma live_at_Some t i e :
  live_at t i = Some e ↔ entries_ t !! i = Some e ∧ ExtractFreelistLink e = None.
Proof.
  unfold live_at. destruct (entries_ t !! i) as [e'|]; [|naive_solver].
  destruct (ExtractFreelistLink e') eqn:Ee; naive_solver.
Qed.

Lemma freelist_elem es head fl i :
  freelist es head fl → i ∈ fl →
  ∃ e next, es !! i = Some e ∧ ExtractFreelistLink e = Some next.
Proof.
  revert head. induction fl as [|j fl IH]; intros head Hc; [by rewrite elem_of_nil|].
  destruct Hc as (_ & e & next & ? & ? & Hc). intros [->|Hi]%elem_of_cons; eauto.
Qed.

Lemma freelist_frame es es' head fl :
  (∀ i, i ∈ fl → es' !! i = es !! i) → freelist es head fl → freelist es' head fl.
Proof.
  revert head. induction fl as [|j fl IH]; intros head Heq; [done|].
  intros (-> & e & next & ? & ? & Hc). split; [done|]. exists e, next.
  rewrite Heq by apply list_elem_of_here. split; [done|]. split; [done|].
  apply IH; [|done]. intros i Hi. apply Heq. by apply list_elem_of_further.
Qed.

Lemma live_not_free t fl i e : table_inv t fl → live_at t i = Some e → i ∉ fl.
Proof.
  intros Ht [Hi Hn]%live_at_Some Hin.
  destruct (freelist_elem _ _ _ _ (ti_chain _ _ Ht) Hin) as (e' & next & ? & ?). congruence.
Qed.

Lemma live_at_insert t i e head j :
  (i < length (entries_ t))%nat →
  live_at (mkTable (<[i := e]> (entries_ t)) head) j =
  if decide (j = i) then (if ExtractFreelistLink e is Some _ then None else Some e) else live_at t j.
Proof.
  intros Hi. unfold live_at. simpl. destruct (decide (j = i)) as [->|Hne].
  - by rewrite list_lookup_insert_eq.
  - by rewrite list_lookup_insert_ne.
Qed.

Lemma new_table_inv : table_inv (@new_table E) [].
Proof. split; simpl; [done|constructor|intros i e; by rewrite lookup_nil|done]. Qed.

(** The entry that [AllocateEntry] uses next. *)
Definition next_index t (fl : list nat) : nat :=
  match fl with i :: _ => i | [] => length (entries_ t) end.

Lemma AllocateEntry_spec t fl e :
  table_inv t fl → SizeForTesting t < kNullIndex → ExtractFreelistLink e = None →
  ∃ t' fl', AllocateEntry (λ _, e) t = Some (Z.of_nat (next_index t fl), t') ∧
    table_inv t' fl' ∧ live_at t (next_index t fl) = None ∧
    (next_index t fl ≤ length (entries_ t))%nat ∧
    (∀ j, live_at t' j = if decide (j = next_index t fl) then Some e else live_at t j).
Proof.
  intros [Hc Hnd Hall Hsz] Hroom He. unfold AllocateEntry, bind, get.
  destruct fl as [|i fl]; simpl in Hc.
  - rewrite Hc. simpl. unfold SizeForTesting, kNullIndex in *.
    rewrite u32_small by lia. unfold entry_at. rewrite Nat2Z.id.
    rewrite list_lookup_middle by done. simpl. unfold put, ret.
    eexists _, []. split; [done|].
    rewrite insert_app_r_alt by lia. rewrite Nat.sub_diag. simpl.
    split; [|split; [|split; [done|]]].
    + split; simpl; [done|constructor| |].
      * intros j e' [Hj|[_ ->]]%lookup_app_Some_cases Hs; [by eapply Hall|].
        rewrite He in Hs. by destruct Hs.
      * unfold SizeForTesting. simpl. rewrite length_app. simpl. unfold kNullIndex. lia.
    + unfold live_at. by rewrite lookup_ge_None_2.
    + intros j. unfold live_at. simpl. destruct (decide (j = _)) as [->|Hne].
      * rewrite list_lookup_middle by done. by rewrite He.
      * destruct (lt_dec j (length (entries_ t))).
        -- by rewrite lookup_app_l.
        -- rewrite !lookup_ge_None_2; [done|lia|rewrite length_app; simpl; lia].
  - destruct Hc as (Hh & e0 & next & Hi & Hl & Hc). rewrite Hh.
    pose proof (lookup_lt_Some _ _ _ Hi) as Hlt. unfold SizeForTesting in *.
    rewrite (proj2 (Z.eqb_neq _ _)) by lia. simpl. unfold entry_at.
    rewrite Nat2Z.id, Hi. simpl. rewrite Hl. simpl. unfold put, ret.
    eexists _, fl. split; [done|]. apply NoDup_cons in Hnd as [Hni Hnd].
    split; [|split; [|split; [lia|]]].
    + split; simpl; [| done | |].
      * eapply freelist_frame; [|done]. intros j Hj. apply list_lookup_insert_ne.
        intros ->. done.
      * intros j e' [[-> ->]|[Hne Hj]]%list_lookup_insert_cases Hs.
        -- rewrite He in Hs. by destruct Hs.
        -- pose proof (Hall _ _ Hj Hs) as [->|?]%elem_of_cons; done.
      * unfold SizeForTesting. simpl. by rewrite length_insert.
    + unfold live_at. by rewrite Hi, Hl.
    + intros j. rewrite live_at_insert by done. by rewrite He.
Qed.
Lemma live_at_lookup t i e : live_at t i = Some e → entries_ t !! i = Some e.
Proof. intros [? _]%live_at_Some. done. Qed.

Lemma at_spec t i e : entries_ t !! i = Some e → at_ (Z.of_nat i) t = Some (e, t).
Proof. intros Hi. unfold at_, bind, get, entry_at. by rewrite Nat2Z.id, Hi. Qed.

Lemma FreeEntry_spec t fl i e :
  table_inv t fl → live_at t i = Some e →
  ∃ t', FreeEntry (Z.of_nat i) t = Some (tt, t') ∧ table_inv t' (i :: fl) ∧
    length (entries_ t') = length (entries_ t) ∧
    (∀ j, live_at t' j = if decide (j = i) then None else live_at t j).
Proof using L.
  intros Ht Hl. pose proof (live_not_free _ _ _ _ Ht Hl) as Hni.
  pose proof (live_at_lookup _ _ _ Hl) as Hi. destruct Ht as [Hc Hnd Hall Hsz].
  pose proof (lookup_lt_Some _ _ _ Hi) as Hlt.
  assert (0 ≤ free_list_head_ t < 2 ^ 32) as Hhead.
  { unfold SizeForTesting in *. destruct fl as [|k fl]; simpl in Hc; unfold kNullIndex in *; [lia|].
    destruct Hc as (-> & e' & next & Hk & _). apply lookup_lt_Some in Hk. lia. }
  pose proof (make_link _ Hhead) as Hmk.
  unfold FreeEntry, bind, get, entry_at. rewrite Nat2Z.id, Hi. simpl. unfold put.
  eexists. split; [done|]. split; [|split; [simpl; by rewrite length_insert|]].
  - split; simpl.
    + split; [done|]. eexists _, _. rewrite list_lookup_insert_eq by done.
      split; [done|]. split; [exact Hmk|]. eapply freelist_frame; [|done].
      intros j Hj. apply list_lookup_insert_ne. by intros ->.
    + by constructor.
    + intros j e' [[-> ->]|[Hne Hj]]%list_lookup_insert_cases Hs.
      * apply list_elem_of_here.
      * apply list_elem_of_further. by eapply Hall.
    + unfold SizeForTesting. simpl. by rewrite length_insert.
  - intros j. rewrite live_at_insert by done. by rewrite Hmk.
Qed.

Lemma set_at_spec t fl i e f :
  table_inv t fl → live_at t i = Some e → ExtractFreelistLink (f e) = None →
  ∃ t', set_at (Z.of_nat i) f t = Some (tt, t') ∧ table_inv t' fl ∧
    (∀ j, live_at t' j = if decide (j = i) then Some (f e) else live_at t j).
Proof.
  intros Ht Hl Hf. pose proof (live_not_free _ _ _ _ Ht Hl) as Hni.
  pose proof (live_at_lookup _ _ _ Hl) as Hi. destruct Ht as [Hc Hnd Hall Hsz].
  pose proof (lookup_lt_Some _ _ _ Hi) as Hlt.
  unfold set_at, bind, get, entry_at. rewrite Nat2Z.id, Hi. simpl. unfold put.
  eexists. split; [done|]. split.
  - split; simpl; [|done| |].
    + eapply freelist_frame; [|done]. intros j Hj. apply list_lookup_insert_ne. by intros ->.
    + intros j e' [[-> ->]|[Hne Hj]]%list_lookup_insert_cases Hs; [|by eapply Hall].
      rewrite Hf in Hs. by destruct Hs.
    + unfold SizeForTesting. simpl. by rewrite length_insert.
  - intros j. rewrite live_at_insert by done. by rewrite Hf.
Qed.

(** ** [Compact] *)

Lemma free_link e : ContainsFreelistLink e = true → ∃ n, ExtractFreelistLink e = Some n.
Proof using L. rewrite contains_link. intros [n ?]%bool_decide_eq_true. by exists n. Qed.

Lemma not_free_link e : ContainsFreelistLink e = false → ExtractFreelistLink e = None.
Proof using L. rewrite contains_link. intros Hn%bool_decide_eq_false. by apply eq_None_not_Some. Qed.

Lemma trim_spec fuel es :
  (length es ≤ fuel)%nat →
  ∃ n, trim fuel es = take n es ∧ (n ≤ length es)%nat ∧
    (∀ i e, (n ≤ i)%nat → es !! i = Some e → is_Some (ExtractFreelistLink e)) ∧
    (∀ e, last (take n es) = Some e → ContainsFreelistLink e = false).
Proof using L.
  revert es. induction fuel as [|fuel IH]; intros es Hf.
  { destruct es; [|simpl in Hf; lia]. exists 0%nat. simpl. repeat split; done. }
  simpl. destruct es as [|b es _] using rev_ind.
  { exists 0%nat. simpl. repeat split; done. }
  rewrite last_snoc, pop_back_snoc. rewrite length_app in *. simpl in Hf.
  destruct (ContainsFreelistLink b) eqn:Eb.
  - destruct (IH es ltac:(lia)) as (n & -> & Hn & Hfree & Hlast). exists n.
    rewrite take_app_le by done. split; [done|]. split; [lia|]. split; [|done].
    intros i e Hi [He|[_ ->]]%lookup_app_Some_cases; [by eapply Hfree|].
    destruct (free_link _ Eb) as [m ->]. done.
  - exists (length es + 1)%nat. rewrite take_ge by (rewrite length_app; simpl; lia).
    split; [done|]. split; [simpl; lia|]. split.
    + intros i e Hi He%lookup_lt_Some. rewrite length_app in He. simpl in He. lia.
    + intros e. rewrite last_snoc. by intros [= <-].
Qed.

Lemma rebuild_spec pre es h fl :
  table_inv (mkTable pre h) fl → Z.of_nat (length pre + length es) ≤ kNullIndex →
  let r := rebuild (Z.of_nat (length pre)) h es in
  ∃ fl', table_inv (mkTable (pre ++ r.1) r.2) fl' ∧ length r.1 = length es ∧
    ∀ j, live_at (mkTable (pre ++ r.1) r.2) j = live_at (mkTable (pre ++ es) h) j.
Proof using L.
  revert pre h fl. induction es as [|e es IH]; intros pre h fl Hinv Hsz; simpl.
  { exists fl. rewrite app_nil_r. done. }
  simpl in Hsz. unfold kNullIndex in Hsz.
  pose proof Hinv as [Hc Hnd Hall _]. simpl in *.
  rewrite u32_small by lia.
  replace (Z.of_nat (length pre) + 1) with (Z.of_nat (length (pre ++ [e])))
    by (rewrite length_app; simpl; lia).
  assert (∀ j, j ∈ fl → (j < length pre)%nat) as Hlow.
  { intros j Hj. destruct (freelist_elem _ _ _ _ Hc Hj) as (? & ? & Hl & _).
    by eapply lookup_lt_Some. }
  destruct (ContainsFreelistLink e) eqn:Ee.
  - assert (0 ≤ h < 2 ^ 32) as Hh.
    { destruct fl as [|k fl]; simpl in Hc; [subst h; unfold kNullIndex; lia|].
      specialize (Hlow k (list_elem_of_here _ _)). destruct Hc as (-> & _). lia. }
    pose proof (make_link _ Hh) as Hmk. destruct (free_link _ Ee) as [m Hm].
    assert (table_inv (mkTable (pre ++ [MakeFreelistEntry h]) (Z.of_nat (length pre)))
      (length pre :: fl)) as Hinv'.
    { split; simpl.
      - split; [done|]. eexists _, _. rewrite list_lookup_middle by done.
        split; [done|]. split; [exact Hmk|]. eapply freelist_frame; [|done].
        intros j Hj. apply lookup_app_l. by apply Hlow.
      - constructor; [|done]. intros Hj%Hlow. lia.
      - intros j e' [Hj|[-> _]]%lookup_app_Some_cases Hs; [|apply list_elem_of_here].
        apply list_elem_of_further. by eapply Hall.
      - unfold SizeForTesting. simpl. rewrite length_app. simpl. unfold kNullIndex. lia. }
    destruct (IH _ _ _ Hinv') as (fl' & Hok & Hlen & Hlive).
    { rewrite length_app. simpl. unfold kNullIndex. lia. }
    rewrite !length_app in *. simpl in *. rewrite <- !app_assoc in *. simpl in *.
    exists fl'. split; [done|]. split; [lia|]. intros j. rewrite Hlive.
    unfold live_at. simpl. destruct (decide (j = length pre)) as [->|Hne].
    + rewrite !list_lookup_middle by done. by rewrite Hm, Hmk.
    + destruct (lt_dec j (length pre)); [by rewrite !lookup_app_l by done|].
      rewrite !lookup_app_r by lia. by replace (j - length pre)%nat with (S (j - length pre - 1)) by lia.
  - assert (table_inv (mkTable (pre ++ [e]) h) fl) as Hinv'.
    { split; simpl; [|done| |].
      - eapply freelist_frame; [|done]. intros j Hj. apply lookup_app_l. by apply Hlow.
      - intros j e' [Hj|[-> ->]]%lookup_app_Some_cases Hs; [by eapply Hall|].
        rewrite not_free_link in Hs by done. by destruct Hs.
      - unfold SizeForTesting. simpl. rewrite length_app. simpl. unfold kNullIndex. lia. }
    destruct (IH _ _ _ Hinv') as (fl' & Hok & Hlen & Hlive).
    { rewrite length_app. simpl. unfold kNullIndex. lia. }
    rewrite !length_app in *. simpl in *. rewrite <- !app_assoc in *. simpl in *.
    exists fl'. split; [done|]. split; [lia|]. done.
Qed.

Lemma Compact_spec t fl :
  table_inv t fl →
  ∃ t' fl', Compact t = Some (tt, t') ∧ table_inv t' fl' ∧
    SizeForTesting t' ≤ SizeForTesting t ∧
    (entries_ t' = [] ∨ is_Some (live_at t' (length (entries_ t') - 1))) ∧
    (∀ j, live_at t' j = live_at t j).
Proof using L.
  intros [Hc Hnd Hall Hsz]. unfold Compact, modify.
  destruct (trim_spec (length (entries_ t)) (entries_ t)) as (n & -> & Hn & Hfree & Hlast);
    [done|].
  destruct (rebuild_spec [] (take n (entries_ t)) kNullIndex []) as (fl' & Hok & Hlen & Hlive).
  { apply new_table_inv. }
  { simpl. rewrite length_take. unfold SizeForTesting in Hsz. lia. }
  change (Z.of_nat (length (@nil E))) with 0 in *. simpl in *.
  eexists _, fl'. split; [done|]. split; [done|].
  assert (∀ j, live_at (mkTable (take n (entries_ t)) kNullIndex) j = live_at t j) as Hcut.
  { intros j. unfold live_at. simpl. destruct (lt_dec j n).
    - by rewrite lookup_take_lt by done.
    - rewrite lookup_take_ge by lia. destruct (entries_ t !! j) eqn:Ej; [|done].
      by destruct (Hfree j _ ltac:(lia) Ej) as [? ->]. }
  split; [|split].
  - unfold SizeForTesting. simpl. rewrite Hlen, length_take. lia.
  - simpl. rewrite Hlen, Hlive. destruct (last (take n (entries_ t))) as [e|] eqn:El.
    + right. exists e. apply live_at_Some. split; [|by apply not_free_link, Hlast].
      simpl. by rewrite last_lookup, <- Nat.sub_1_r in El.
    + left. apply last_None in El. rewrite El in Hlen |- *. done.
  - intros j. by rewrite Hlive, Hcut.
Qed.
End base.

(** ** A table as a map from handles

    [view] is what a client sees of an entry in use. *)
Section view.
Context {E : Type} `{Entry E} {L : EntryLaws E} {X : Type} (view : E → X).
Implicit Types (t : ExternalEntityTable E) (m : gmap Z X).

Definition contents t (h : Z) : option X :=
  if decide (0 < h) then view <$> live_at t (Z.to_nat (h - 1)) else None.

Definition table_rel t m : Prop :=
  (∃ fl, table_inv t fl) ∧ ∀ h, m !! h = contents t h.

Lemma contents_update t t' i o :
  (∀ j, live_at t' j = if decide (j = i) then o else live_at t j) →
  ∀ h, contents t' h = if decide (h = Z.of_nat i + 1) then view <$> o else contents t h.
Proof.
  intros Hl h. unfold contents. rewrite Hl.
  destruct (decide (h = Z.of_nat i + 1)) as [->|Hne].
  - rewrite decide_True by lia. by rewrite decide_True by lia.
  - destruct (decide (0 < h)); [|done]. by rewrite decide_False by lia.
Qed.

Lemma contents_inv t m h x :
  table_rel t m → m !! h = Some x →
  ∃ i e, h = Z.of_nat i + 1 ∧ live_at t i = Some e ∧ x = view e.
Proof.
  intros [_ Hm]. rewrite Hm. unfold contents. destruct (decide (0 < h)); [|done].
  intros (e & He & ->)%fmap_Some. exists (Z.to_nat (h - 1)), e. split; [lia|done].
Qed.

Lemma table_rel_null t m : table_rel t m → m !! 0 = None.
Proof. by intros [_ ->]. Qed.

Lemma table_rel_new : table_rel new_table ∅.
Proof.
  split; [exists []; apply new_table_inv|]. intros h. rewrite lookup_empty.
  unfold contents. by destruct (decide _).
Qed.

Lemma HandleToIndex_spec i : Z.of_nat i + 1 < 2 ^ 32 → HandleToIndex (Z.of_nat i + 1) = Z.of_nat i.
Proof. intros. unfold HandleToIndex. rewrite u32_small by lia. lia. Qed.

(** The entry behind a handle that is not null: none, a free one, or one in use. *)
Lemma handle_cases t m h :
  table_rel t m → 0 < h < 2 ^ 32 →
  ∃ i, h = Z.of_nat i + 1 ∧ HandleToIndex h = Z.of_nat i ∧
    IsInBounds t (Z.of_nat i) = bool_decide (is_Some (entries_ t !! i)) ∧
    m !! h = view <$> live_at t i.
Proof.
  intros [_ Hm] Hh. exists (Z.to_nat (h - 1)). split; [lia|]. split; [|split].
  - unfold HandleToIndex. rewrite u32_small by lia. lia.
  - unfold IsInBounds, SizeForTesting. apply eq_true_iff_eq.
    rewrite Z.ltb_lt, bool_decide_eq_true, lookup_lt_is_Some. lia.
  - rewrite Hm. unfold contents. by rewrite decide_True by lia.
Qed.

Lemma rel_Allocate t m e :
  table_rel t m → ExtractFreelistLink e = None → SizeForTesting t < kNullIndex →
  ∃ i t', AllocateEntry (λ _, e) t = Some (i, t') ∧ 0 < IndexToHandle i < 2 ^ 32 ∧
    m !! IndexToHandle i = None ∧ table_rel t' (<[IndexToHandle i := view e]> m).
Proof.
  intros [[fl Hinv] Hm] He Hroom.
  destruct (AllocateEntry_spec t fl e Hinv Hroom He)
    as (t' & fl' & Hrun & Hinv' & Hnone & Hle & Hlive).
  unfold SizeForTesting, kNullIndex in Hroom.
  exists (Z.of_nat (next_index t fl)), t'. split; [done|].
  unfold IndexToHandle. rewrite u32_small by lia. split; [lia|]. split.
  - rewrite Hm. unfold contents. rewrite decide_True by lia.
    by replace (Z.to_nat _) with (next_index t fl) by lia; rewrite Hnone.
  - split; [by exists fl'|]. intros h. rewrite (contents_update _ _ _ _ Hlive).
    destruct (decide _) as [->|Hne]; [by rewrite lookup_insert_eq|].
    by rewrite lookup_insert_ne.
Qed.

Lemma rel_Set t m h e f :
  table_rel t m → 0 ≤ h < 2 ^ 32 → 0 < h → live_at t (Z.to_nat (h - 1)) = Some e →
  ExtractFreelistLink (f e) = None →
  ∃ t', set_at (HandleToIndex h) f t = Some (tt, t') ∧ table_rel t' (<[h := view (f e)]> m).
Proof.
  intros [[fl Hinv] Hm] Hh Hpos Hl Hf.
  destruct (set_at_spec t fl _ e f Hinv Hl Hf) as (t' & Hrun & Hinv' & Hlive).
  exists t'. split.
  { unfold HandleToIndex. rewrite u32_small by lia. by rewrite Z2Nat.id in Hrun by lia. }
  split; [by exists fl|]. intros k. rewrite (contents_update _ _ _ _ Hlive).
  destruct (decide _) as [->|Hne].
  - by replace (Z.of_nat _ + 1) with h by lia; rewrite lookup_insert_eq.
  - rewrite lookup_insert_ne by lia. done.
Qed.

Lemma rel_Free t m h :
  table_rel t m → 0 ≤ h < 2 ^ 32 → is_Some (m !! h) →
  ∃ t', FreeEntry (HandleToIndex h) t = Some (tt, t') ∧ table_rel t' (delete h m).
Proof using L.
  intros Hrel Hh [x Hx]. destruct (contents_inv _ _ _ _ Hrel Hx) as (i & e & -> & Hl & _).
  destruct Hrel as [[fl Hinv] Hm].
  destruct (FreeEntry_spec t fl i e Hinv Hl) as (t' & Hrun & Hinv' & _ & Hlive).
  rewrite HandleToIndex_spec by lia. exists t'. split; [done|].
  split; [by exists (i :: fl)|]. intros k. rewrite (contents_update _ _ _ _ Hlive).
  destruct (decide _) as [->|Hne]; [by rewrite lookup_delete_eq|].
  by rewrite lookup_delete_ne.
Qed.

Lemma rel_Compact t m :
  table_rel t m → ∃ t', Compact t = Some (tt, t') ∧ table_rel t' m.
Proof using L.
  intros [[fl Hinv] Hm]. destruct (Compact_spec t fl Hinv) as (t' & fl' & Hrun & Hinv' & _ & _ & Hl).
  exists t'. split; [done|]. split; [by exists fl'|]. intros h. rewrite Hm.
  unfold contents. by rewrite Hl.
Qed.
End view.

(** ** Tag ranges and tagged words *)

(** A range in the right order contains the tags from its first to its last; one
    in the wrong order contains all tags but those strictly between them. *)
Lemma TagRange_Contains_spec a b t :
  0 ≤ a < 65536 → 0 ≤ b < 65536 → 0 ≤ t < 65536 →
  TagRange_Contains (mkTagRange a b) t = true ↔
  if decide (a ≤ b) then a ≤ t ≤ b else t ≤ b ∨ a ≤ t.
Proof.
  intros Ha Hb Ht. unfold TagRange_Contains, u32. simpl. rewrite Z.leb_le.
  assert (∀ x, -65536 < x < 65536 →
    x `mod` 2 ^ 32 = if decide (0 ≤ x) then x else x + 4294967296) as Hm.
  { intros x Hx. destruct (decide (0 ≤ x)); [apply Z.mod_small; lia|].
    rewrite <- (Z.mod_add x 1) by lia. apply Z.mod_small. lia. }
  rewrite !Hm by lia. repeat case_decide; lia.
Qed.

Lemma TagRange_of_spec f t :
  0 ≤ f < 65536 → 0 ≤ t < 65536 → TagRange_Contains (TagRange_of f) t = (t =? f).
Proof.
  intros Hf Ht. apply eq_true_iff_eq. unfold TagRange_of.
  rewrite TagRange_Contains_spec, Z.eqb_eq by done. case_decide; lia.
Qed.

(** The layout of a word: payload, mark bit, tag. *)
Class SchemeOk (S : TaggingScheme) := {
  payload_bits : Z;
  tag_bits : Z;
  so_payload : 32 ≤ payload_bits;
  so_tag : 0 < tag_bits ≤ 16;
  so_sum : payload_bits + 1 + tag_bits = 64;
  so_shift : kTagShift = payload_bits + 1;
  so_payload_shift : kPayloadShift = 0;
  so_payload_mask : kPayloadMask = Z.ones payload_bits;
  so_tag_mask : kTagMask = Z.shiftl (Z.ones tag_bits) (payload_bits + 1);
  so_mark : kMarkBit = 2 ^ payload_bits;
  so_free : 0 ≤ kFreeEntryTag < 2 ^ tag_bits
}.

#[export] Instance trusted_ok : SchemeOk TrustedPointerTable.scheme.
Proof. by apply (Build_SchemeOk _ 48 15). Defined.
#[export] Instance external_ok : SchemeOk ExternalPointerTable.scheme.
Proof. by apply (Build_SchemeOk _ 47 16). Defined.
#[export] Instance indirect_ok : SchemeOk IndirectPointerTable.scheme.
Proof. by apply (Build_SchemeOk _ 55 8). Defined.
#[export] Instance cppheap_ok : SchemeOk CppHeapPointerTable.scheme.
Proof. by apply (Build_SchemeOk _ 48 15). Defined.

Section words.
Context (S : TaggingScheme) {O : SchemeOk S}.

Lemma pow_split : 2 ^ (payload_bits + 1) * 2 ^ tag_bits = 2 ^ 64.
Proof. rewrite <- Z.pow_add_r, so_sum; [done|..]; pose proof so_payload; pose proof so_tag; lia. Qed.

Lemma tag_pow : 0 < 2 ^ tag_bits ≤ 65536.
Proof.
  pose proof so_tag. split; [apply Z.pow_pos_nonneg; lia|].
  change 65536 with (2 ^ 16). apply Z.pow_le_mono_r; lia.
Qed.

Lemma payload_pow : 2 ^ 32 ≤ 2 ^ payload_bits.
Proof. pose proof so_payload. apply Z.pow_le_mono_r; lia. Qed.

(** Of the word made from any 64-bit pointer and a tag: the tag read back is
    or-ed with what the pointer has above the payload and the mark bit. *)
Lemma word_tag_Tag p t :
  0 ≤ p < 2 ^ 64 → 0 ≤ t < 2 ^ tag_bits →
  word_tag (Tag p t) = Z.lor (p / 2 ^ (payload_bits + 1)) t.
Proof.
  intros Hp Ht. pose proof so_payload. pose proof so_tag. pose proof tag_pow.
  pose proof pow_split as Hsp.
  assert (0 < 2 ^ (payload_bits + 1)) by (apply Z.pow_pos_nonneg; lia).
  unfold word_tag, Tag. rewrite so_payload_shift, so_shift, so_tag_mask, Z.shiftl_0_r.
  rewrite (u64_small p) by lia.
  rewrite u64_small by (rewrite Z.shiftl_mul_pow2 by lia; nia).
  rewrite Z.shiftr_land, Z.shiftr_lor, !Z.shiftr_shiftl_l, Z.sub_diag, !Z.shiftl_0_r by lia.
  rewrite Z.land_lor_distr_l, !Z.land_ones by lia.
  rewrite Z.shiftr_div_pow2 by lia.
  assert (0 ≤ p / 2 ^ (payload_bits + 1) < 2 ^ tag_bits) as Hq.
  { split; [apply Z.div_pos; lia|]. apply Z.div_lt_upper_bound; [lia|]. nia. }
  rewrite !Z.mod_small by lia. apply u16_small.
  pose proof (Z.lor_nonneg (p / 2 ^ (payload_bits + 1)) t) as [_ Hnn].
  split; [apply Hnn; lia|].
  enough (Z.lor (p / 2 ^ (payload_bits + 1)) t < 2 ^ tag_bits) by lia.
  rewrite <- (Z.mod_small (p / _) _ Hq), <- (Z.mod_small t _ Ht), <- !Z.land_ones by lia.
  rewrite <- Z.land_lor_distr_l, Z.land_ones by lia. apply Z.mod_pos_bound. lia.
Qed.

Lemma word_payload_Tag p t :
  0 ≤ p < 2 ^ payload_bits → 0 ≤ t < 2 ^ tag_bits → word_payload (Tag p t) = p.
Proof.
  intros Hp Ht. pose proof so_payload. pose proof so_tag. pose proof pow_split as Hsp.
  assert (2 ^ (payload_bits + 1) = 2 * 2 ^ payload_bits) as Hpw
    by (rewrite Z.pow_add_r by lia; lia).
  assert (p < 2 ^ 64).
  { pose proof tag_pow. nia. }
  unfold word_payload, Tag. rewrite so_payload_shift, so_shift, so_payload_mask, Z.shiftl_0_r, Z.shiftr_0_r.
  rewrite (u64_small p), u64_small by (rewrite ?Z.shiftl_mul_pow2 by lia; nia).
  rewrite Z.land_lor_distr_l, !Z.land_ones, Z.shiftl_mul_pow2 by lia.
  rewrite (Z.mod_small p) by done.
  replace (t * 2 ^ (payload_bits + 1)) with (t * 2 * 2 ^ payload_bits) by (rewrite Hpw; lia).
  rewrite Z.mod_mul by lia. apply Z.lor_0_r.
Qed.

(** A pointer that fits, under a tag of the table's width. *)
Definition fits (p t : Z) : Prop := 0 ≤ p < 2 ^ payload_bits ∧ 0 ≤ t < 2 ^ tag_bits.

Lemma tag_roundtrip p t : fits p t → word_tag (Tag p t) = t.
Proof.
  intros [Hp Ht]. pose proof so_payload. pose proof so_tag. pose proof pow_split. pose proof tag_pow.
  assert (2 ^ (payload_bits + 1) = 2 * 2 ^ payload_bits) as Hpw
    by (rewrite Z.pow_add_r by lia; lia).
  rewrite word_tag_Tag by (lia || (split; [lia|nia])).
  rewrite Z.div_small by lia. apply Z.lor_0_l.
Qed.

Lemma link_of p t :
  fits p t → payload_ExtractFreelistLink (Payload p t : TaggedPayload S) =
  if t =? kFreeEntryTag then Some (u32 p) else None.
Proof.
  intros Hf. pose proof Hf as [Hp Ht]. pose proof tag_pow. pose proof so_free.
  unfold payload_ExtractFreelistLink, IsTaggedWith, IsTaggedWithTagIn, CheckTag, Payload.
  simpl. rewrite tag_roundtrip by done. rewrite TagRange_of_spec by lia.
  by rewrite word_payload_Tag by done.
Qed.

#[export] Instance tagged_laws : EntryLaws (TaggedPayload S).
Proof using O.
  split.
  - intros n Hn. pose proof payload_pow. simpl. rewrite link_of.
    + rewrite Z.eqb_refl. by rewrite u32_small by lia.
    + split; [lia|]. apply so_free.
  - intros e. simpl. unfold payload_ContainsFreelistLink, payload_ExtractFreelistLink.
    by destruct (IsTaggedWith e kFreeEntryTag).
Qed.
End words.

(** ** A table of tagged pointers as a map *)

Inductive table_call :=
  | CallAllocate (pointer tag : Z)
  | CallGet (handle : Z) (tag_range : TagRange)
  | CallSet (handle pointer tag : Z)
  | CallFree (handle : Z)
  | CallContains (handle : Z)
  | CallCompact.

Inductive table_ret :=
  | RetHandle (handle : Z)
  | RetPointer (pointer : Z)
  | RetBool (b : bool)
  | RetVoid.

Section refinement.
Context (S : TaggingScheme) {O : SchemeOk S}.
Local Abbreviation PT := (ExternalEntityTable (TaggedPayload S)).
Implicit Types (t : PT) (m : gmap Z (Z * Z)).

Definition table_run (c : table_call) : M PT table_ret :=
  match c with
  | CallAllocate p tag => let! h := table_Allocate S p tag in ret (RetHandle h)
  | CallGet h r => let! p := table_Get S h r in ret (RetPointer p)
  | CallSet h p tag => table_Set S h p tag ;; ret RetVoid
  | CallFree h => table_Free S h ;; ret RetVoid
  | CallContains h => let! b := table_Contains S h in ret (RetBool b)
  | CallCompact => Compact ;; ret RetVoid
  end.

(** The specification: a map from the handles in use to what they stand for. *)
Definition table_spec m (c : table_call) (r : table_ret) m' : Prop :=
  match c with
  | CallAllocate p tag => ∃ h, r = RetHandle h ∧ 0 < h < 2 ^ 32 ∧ m !! h = None ∧
      m' = <[h := (p, tag)]> m
  | CallGet h range => m' = m ∧ r = RetPointer
      match m !! h with
      | Some (p, tag) => if TagRange_Contains range tag then p else 0
      | None => 0
      end
  | CallSet h p tag => r = RetVoid ∧ m' = <[h := (p, tag)]> m
  | CallFree h => r = RetVoid ∧ m' = delete h m
  | CallContains h => m' = m ∧ r = RetBool (bool_decide (is_Some (m !! h)))
  | CallCompact => r = RetVoid ∧ m' = m
  end.

(** A pointer a client may store. *)
Definition storable (p tag : Z) : Prop := fits S p tag ∧ tag ≠ kFreeEntryTag.

(** What a client may do.  Any 32-bit number may be looked up. *)
Definition table_legal t m (c : table_call) : Prop :=
  match c with
  | CallAllocate p tag => storable p tag ∧ SizeForTesting t < kNullIndex
  | CallGet h range => 0 ≤ h < 2 ^ 32 ∧ TagRange_Contains range kFreeEntryTag = false
  | CallSet h p tag => 0 ≤ h < 2 ^ 32 ∧ is_Some (m !! h) ∧ storable p tag
  | CallFree h => 0 ≤ h < 2 ^ 32 ∧ (h = kNullHandle ∨ is_Some (m !! h))
  | CallContains h => 0 ≤ h < 2 ^ 32
  | CallCompact => True
  end.

(** What a client sees: pointer and tag. *)
Definition tagged_view (e : TaggedPayload S) : Z * Z :=
  (word_payload (encoded_word_ e), ExtractTag e).

Local Abbreviation rel := (table_rel tagged_view).

Lemma storable_live p tag :
  storable p tag → payload_ExtractFreelistLink (Payload p tag : TaggedPayload S) = None.
Proof. intros [Hf Hne]. rewrite (link_of S) by done. by rewrite (proj2 (Z.eqb_neq _ _)). Qed.

Lemma storable_view p tag : storable p tag → tagged_view (Payload p tag) = (p, tag).
Proof.
  intros [Hf _]. unfold tagged_view, ExtractTag, Payload. simpl.
  rewrite (tag_roundtrip S) by done. destruct Hf. by rewrite (word_payload_Tag S).
Qed.

(** A free entry carries the free tag. *)
Lemma free_tag (e : TaggedPayload S) :
  is_Some (payload_ExtractFreelistLink e) → word_tag (encoded_word_ e) = kFreeEntryTag.
Proof using O.
  pose proof so_free. pose proof (tag_pow S).
  unfold payload_ExtractFreelistLink, IsTaggedWith, IsTaggedWithTagIn, CheckTag.
  rewrite TagRange_of_spec by (lia || apply u16_range).
  destruct (_ =? _) eqn:E; [|by intros [? ?]]. by zbool.
Qed.

Lemma sim_Get t m h range :
  rel t m → 0 ≤ h < 2 ^ 32 → TagRange_Contains range kFreeEntryTag = false →
  table_Get S h range t = Some (match m !! h with
    | Some (p, tag) => if TagRange_Contains range tag then p else 0
    | None => 0 end, t).
Proof using O.
  intros Hrel Hh Hr. unfold table_Get, kNullHandle. destruct (h =? 0) eqn:E; zbool.
  { subst h. by rewrite (table_rel_null _ _ _ Hrel). }
  destruct (handle_cases _ _ _ h Hrel ltac:(lia)) as (i & Hi & -> & Hb & ->).
  unfold bind, get, ret. rewrite Hb. case_bool_decide as Hs; simpl.
  - destruct Hs as [e He]. rewrite (at_spec _ _ _ He). unfold live_at. rewrite He.
    simpl. destruct (payload_ExtractFreelistLink e) eqn:Ef; [|done].
    unfold UntagAllowNullHandle, CheckTag. rewrite (free_tag e) by done. by rewrite Hr.
  - apply eq_None_not_Some in Hs. unfold live_at. by rewrite Hs.
Qed.

Lemma sim_Contains t m h :
  rel t m → 0 ≤ h < 2 ^ 32 →
  table_Contains S h t = Some (bool_decide (is_Some (m !! h)), t).
Proof using O.
  intros Hrel Hh. unfold table_Contains, kNullHandle. destruct (h =? 0) eqn:E; zbool.
  { subst h. by rewrite (table_rel_null _ _ _ Hrel). }
  destruct (handle_cases _ _ _ h Hrel ltac:(lia)) as (i & Hi & -> & Hb & ->).
  unfold bind, get, ret. rewrite Hb. case_bool_decide as Hs; simpl.
  - destruct Hs as [e He]. rewrite (at_spec _ _ _ He). unfold live_at. rewrite He.
    pose proof (contains_link e) as Hc. simpl in *. rewrite Hc.
    by destruct (payload_ExtractFreelistLink e).
  - apply eq_None_not_Some in Hs. unfold live_at. by rewrite Hs.
Qed.

Lemma sim_Allocate t m p tag :
  rel t m → storable p tag → SizeForTesting t < kNullIndex →
  ∃ h t', table_Allocate S p tag t = Some (h, t') ∧ 0 < h < 2 ^ 32 ∧ m !! h = None ∧
    rel t' (<[h := (p, tag)]> m).
Proof using O.
  intros Hrel Hst Hroom.
  destruct (rel_Allocate _ t m (Payload p tag) Hrel (storable_live _ _ Hst) Hroom)
    as (i & t' & Hrun & Hh & Hnone & Hrel').
  rewrite storable_view in Hrel' by done.
  unfold table_Allocate, bind, ret. rewrite Hrun. by eexists _, t'.
Qed.

Lemma sim_Set t m h p tag :
  rel t m → 0 ≤ h < 2 ^ 32 → is_Some (m !! h) → storable p tag →
  ∃ t', table_Set S h p tag t = Some (tt, t') ∧ rel t' (<[h := (p, tag)]> m).
Proof using O.
  intros Hrel Hh [x Hx] Hst.
  destruct (contents_inv _ _ _ _ _ Hrel Hx) as (i & e & -> & Hl & _).
  rewrite <- (storable_view p tag) by done.
  apply (rel_Set _ t m _ e (λ _, Payload p tag)); [done|done|lia| |by apply storable_live].
  by replace (Z.to_nat _) with i by lia.
Qed.

Lemma sim_Free t m h :
  rel t m → 0 ≤ h < 2 ^ 32 → h = kNullHandle ∨ is_Some (m !! h) →
  ∃ t', table_Free S h t = Some (tt, t') ∧ rel t' (delete h m).
Proof using O.
  intros Hrel Hh Hor. unfold table_Free, kNullHandle in *. destruct (h =? 0) eqn:E; zbool.
  { subst h. exists t. split; [done|]. rewrite delete_id; [done|].
    by apply table_rel_null in Hrel. }
  destruct Hor as [?|Hx]; [done|]. by apply rel_Free.
Qed.

Lemma table_sim t m c :
  rel t m → table_legal t m c →
  ∃ r t' m', table_run c t = Some (r, t') ∧ table_spec m c r m' ∧ rel t' m'.
Proof using O.
  intros Hrel Hleg. unfold table_run, bind, ret. destruct c; simpl in Hleg.
  - destruct Hleg as [Hst Hroom].
    destruct (sim_Allocate _ _ _ _ Hrel Hst Hroom) as (h & t' & -> & Hh & Hn & Hrel').
    eexists _, t', _. split; [done|]. split; [|done]. by exists h.
  - destruct Hleg as [Hh Hr]. rewrite (sim_Get _ _ _ _ Hrel Hh Hr).
    by eexists _, t, m.
  - destruct Hleg as (Hh & Hs & Hst).
    destruct (sim_Set _ _ _ _ _ Hrel Hh Hs Hst) as (t' & -> & Hrel'). by eexists _, t', _.
  - destruct Hleg as [Hh Hor]. destruct (sim_Free _ _ _ Hrel Hh Hor) as (t' & -> & Hrel').
    by eexists _, t', _.
  - rewrite (sim_Contains _ _ _ Hrel Hleg). by eexists _, t, m.
  - destruct (rel_Compact _ _ _ Hrel) as (t' & -> & Hrel'). by eexists _, t', m.
Qed.

(** C20: A table of tagged pointers refines a map from handles to pointers with
    their tags.  The empty table is the empty map; every legal call ends (no access
    outside the vector, no use of an empty link) with the result and effect of
    the map: [Allocate] returns a non-null handle that was not in use; [Get] of
    any handle returns what is stored under it if its tag is in the range,
    and null otherwise, freed and invented handles included; [Compact] changes
    nothing. *)
Theorem table_refines :
  rel new_table ∅ ∧
  ∀ t m c, rel t m → table_legal t m c →
    ∃ r t' m', table_run c t = Some (r, t') ∧ table_spec m c r m' ∧ rel t' m'.
Proof using O. split; [apply table_rel_new|]. intros. by apply table_sim. Qed.
(** The tables that legal calls lead to from the empty one, with the calls made. *)
Inductive table_reach : PT → gmap Z (Z * Z) → list table_call → Prop :=
  | reach_new : table_reach new_table ∅ []
  | reach_call t m calls c r t' m' :
      table_reach t m calls → table_legal t m c → table_run c t = Some (r, t') →
      table_spec m c r m' → rel t' m' → table_reach t' m' (c :: calls).

(** A call stored pointer [p] under [tag]. *)
Definition stores (calls : list table_call) (p tag : Z) : Prop :=
  CallAllocate p tag ∈ calls ∨ ∃ h, CallSet h p tag ∈ calls.

Lemma reach_rel t m calls : table_reach t m calls → rel t m.
Proof. destruct 1; [apply table_rel_new|done]. Qed.

Lemma stores_cons c calls p tag : stores calls p tag → stores (c :: calls) p tag.
Proof. unfold stores. setoid_rewrite elem_of_cons. naive_solver. Qed.

Lemma reach_stores t m calls h p tag :
  table_reach t m calls → m !! h = Some (p, tag) → stores calls p tag.
Proof.
  intros Hr. revert h. induction Hr as [|t m calls c r t' m' _ IH _ _ Hsp _]; intros h Hh;
    [by rewrite lookup_empty in Hh|].
  destruct c; simpl in Hsp.
  - destruct Hsp as (h' & _ & _ & _ & ->).
    apply lookup_insert_Some in Hh as [[_ [= -> ->]]|[_ Hh]]; [|by eapply stores_cons, IH].
    left. apply list_elem_of_here.
  - destruct Hsp as [-> _]. by eapply stores_cons, IH.
  - destruct Hsp as [_ ->].
    apply lookup_insert_Some in Hh as [[_ [= -> ->]]|[_ Hh]]; [|by eapply stores_cons, IH].
    right. eexists. apply list_elem_of_here.
  - destruct Hsp as [_ ->]. apply lookup_delete_Some in Hh as [_ Hh]. by eapply stores_cons, IH.
  - destruct Hsp as [-> _]. by eapply stores_cons, IH.
  - destruct Hsp as [_ ->]. by eapply stores_cons, IH.
Qed.

(** C21: No forged pointer: after any legal calls on a table, looking up any 32-bit
    number under any range of tags without the free tag ends and changes nothing,
    and a pointer it returns was stored by an earlier call under a tag in that
    range: freed, invented or wrongly typed handles give null. *)
Theorem table_no_forgery t m calls h range :
  table_reach t m calls → 0 ≤ h < 2 ^ 32 → TagRange_Contains range kFreeEntryTag = false →
  ∃ p, table_Get S h range t = Some (p, t) ∧
    (p = 0 ∨ ∃ tag, TagRange_Contains range tag = true ∧ m !! h = Some (p, tag) ∧
      stores calls p tag).
Proof using O.
  intros Hr Hh Hrange. rewrite (sim_Get _ _ _ _ (reach_rel _ _ _ Hr) Hh Hrange).
  eexists. split; [done|]. destruct (m !! h) as [[p tag]|] eqn:Eh; [|by left].
  destruct (TagRange_Contains range tag) eqn:Et; [|by left]. right.
  exists tag. split; [done|]. split; [done|]. by eapply reach_stores.
Qed.

(** A handle can outlive its entry: the entry freed last is the first to be
    used again, so after [FreeEntry] and the next [AllocateAndInitializeEntry] the
    old handle denotes the new pointer, and looking it up under the new one's tag
    returns it. *)
Theorem stale_handle_resolves t m h p tag range :
  rel t m → 0 ≤ h < 2 ^ 32 → is_Some (m !! h) → storable p tag →
  SizeForTesting t < kNullIndex →
  TagRange_Contains range tag = true → TagRange_Contains range kFreeEntryTag = false →
  wp (table_Free S h ;; let! h' := table_Allocate S p tag in
      let! got := table_Get S h range in ret (h', got))
    (λ r t', r = (h, p) ∧ rel t' (<[h := (p, tag)]> m)) t.
Proof using O.
  intros Hrel Hh [x Hx] Hst Hroom Hin Hout.
  destruct (contents_inv _ _ _ _ _ Hrel Hx) as (i & e & -> & Hl & _).
  pose proof Hrel as [[fl Hinv] Hm].
  destruct (FreeEntry_spec t fl i e Hinv Hl) as (t1 & Hfree & Hinv1 & Hlen & Hlive1).
  assert (SizeForTesting t1 < kNullIndex) as Hroom1 by (unfold SizeForTesting in *; by rewrite Hlen).
  destruct (AllocateEntry_spec t1 (i :: fl) (Payload p tag) Hinv1 Hroom1 (storable_live _ _ Hst))
    as (t2 & fl2 & Halloc & Hinv2 & _ & _ & Hlive2). simpl in Halloc, Hlive2.
  assert (rel t2 (<[Z.of_nat i + 1 := (p, tag)]> m)) as Hrel2.
  { split; [by exists fl2|]. intros k. rewrite (contents_update _ _ _ _ _ Hlive2).
    destruct (decide _) as [->|Hne]; [rewrite lookup_insert_eq; simpl; by rewrite storable_view|].
    rewrite lookup_insert_ne by done. rewrite Hm. rewrite (contents_update _ _ _ _ _ Hlive1).
    by rewrite decide_False. }
  unfold table_Free, table_Allocate. rewrite (proj2 (Z.eqb_neq _ _)) by (unfold kNullHandle; lia).
  rewrite HandleToIndex_spec by lia. unfold wp, bind, ret. rewrite Hfree, Halloc.
  unfold IndexToHandle. rewrite u32_small by lia.
  rewrite (sim_Get _ _ _ _ Hrel2 Hh Hout), lookup_insert_eq, Hin. done.
Qed.
End refinement.

(** ** Code pointers *)

Import CodePointerTable.

#[export] Instance code_laws : EntryLaws CodePointerTableEntry.
Proof.
  split; [done|]. intros [f mk n c e]. simpl. by destruct f.
Qed.

(** What a client sees of an entry: code object and entry point. *)
Definition code_view (e : CodePointerTableEntry) : Z * Z := (code_object_ e, entrypoint_ e).

Lemma code_get field (pick : Z * Z → Z) t m h :
  (∀ e, field e = pick (code_view e)) →
  table_rel code_view t m → 0 ≤ h < 2 ^ 32 →
  get_field field h t = Some (match m !! h with Some x => pick x | None => 0 end, t).
Proof.
  intros Hf Hrel Hh. unfold get_field, kNullHandle. destruct (h =? 0) eqn:E; zbool.
  { subst h. by rewrite (table_rel_null _ _ _ Hrel). }
  destruct (handle_cases _ _ _ h Hrel ltac:(lia)) as (i & Hi & -> & Hb & ->).
  unfold bind, get, ret. rewrite Hb. case_bool_decide as Hs; simpl.
  - destruct Hs as [e He]. rewrite (at_spec _ _ _ He). unfold live_at. rewrite He. simpl.
    destruct (is_free_ e); simpl; by rewrite ?Hf.
  - apply eq_None_not_Some in Hs. unfold live_at. by rewrite Hs.
Qed.

Lemma code_set t m h c e f :
  table_rel code_view t m → 0 ≤ h < 2 ^ 32 → m !! h = Some (c, e) →
  (∀ x, is_free_ (f x) = is_free_ x) →
  ∃ x t', set_at (HandleToIndex h) f t = Some (tt, t') ∧ code_view x = (c, e) ∧
    table_rel code_view t' (<[h := code_view (f x)]> m).
Proof.
  intros Hrel Hh Hx Hf.
  destruct (contents_inv _ _ _ _ _ Hrel Hx) as (i & x & -> & Hl & Hv).
  pose proof (proj2 (proj1 (live_at_Some _ _ _) Hl)) as Hlink. simpl in Hlink.
  destruct (rel_Set code_view t m (Z.of_nat i + 1) x f) as (t' & Hrun & Hrel');
    [done|done|lia|by replace (Z.to_nat _) with i by lia| |by exists x, t'].
  simpl. rewrite Hf. by destruct (is_free_ x).
Qed.

(** The code pointer table refines a map from handles to code object and entry
    point: an entry point obtained through any 32-bit number is one registered
    under that handle and not freed since, or null. *)
Theorem code_table_refines t m h :
  table_rel code_view t m → 0 ≤ h < 2 ^ 32 →
  GetEntrypoint h t = Some (match m !! h with Some (_, e) => e | None => 0 end, t) ∧
  GetCodeObject h t = Some (match m !! h with Some (c, _) => c | None => 0 end, t) ∧
  (∀ c e, SizeForTesting t < kNullIndex →
    ∃ h' t', AllocateAndInitializeEntry c e t = Some (h', t') ∧ 0 < h' < 2 ^ 32 ∧
      m !! h' = None ∧ table_rel code_view t' (<[h' := (c, e)]> m)) ∧
  (∀ c e v, m !! h = Some (c, e) →
    (∃ t', SetEntrypoint h v t = Some (tt, t') ∧ table_rel code_view t' (<[h := (c, v)]> m)) ∧
    (∃ t', SetCodeObject h v t = Some (tt, t') ∧ table_rel code_view t' (<[h := (v, e)]> m)) ∧
    (∃ t', CodePointerTable.FreeEntry h t = Some (tt, t') ∧
      table_rel code_view t' (delete h m))).
Proof.
  intros Hrel Hh. split; [|split; [|split]].
  - unfold GetEntrypoint. rewrite (code_get _ snd t m h) by done. by destruct (m !! h) as [[]|].
  - unfold GetCodeObject. rewrite (code_get _ fst t m h) by done. by destruct (m !! h) as [[]|].
  - intros c e Hroom.
    destruct (rel_Allocate _ t m (MakeCodePointerEntry c e) Hrel ltac:(done) Hroom)
      as (i & t' & Hrun & Hi & Hn & Hrel').
    unfold AllocateAndInitializeEntry, bind, ret. rewrite Hrun. by eexists _, t'.
  - intros c e v Hx. split; [|split].
    + edestruct (code_set t m h c e) as (x & t' & Hrun & Hv & Hrel'); [done..| |exists t'].
      2: { split; [exact Hrun|]. injection Hv as Hc He. unfold code_view in Hrel'.
        simpl in Hrel'. by rewrite Hc in Hrel'. }
      done.
    + edestruct (code_set t m h c e) as (x & t' & Hrun & Hv & Hrel'); [done..| |exists t'].
      2: { split; [exact Hrun|]. injection Hv as Hc He. unfold code_view in Hrel'.
        simpl in Hrel'. by rewrite He in Hrel'. }
      done.
    + unfold CodePointerTable.FreeEntry. rewrite (proj2 (Z.eqb_neq _ _)).
      * by apply rel_Free.
      * intros ->. unfold kNullHandle in Hx. by rewrite (table_rel_null _ _ _ Hrel) in Hx.
Qed.

(** ** Witnesses *)

Definition heap_scheme : TaggingScheme := CppHeapPointerTable.scheme.
Definition a_table : ExternalEntityTable (TaggedPayload heap_scheme) := new_table.
Definition one_entry : ExternalEntityTable (TaggedPayload heap_scheme) :=
  mkTable [Payload 4096 7] kNullIndex.
Definition one_map : gmap Z (Z * Z) := {[1 := (4096, 7)]}.
Definition objects : TagRange := CppHeapPointerTable.kAnyCppHeapPointer.

Lemma storable_example : storable heap_scheme 4096 7 ∧ storable heap_scheme 8192 7.
Proof. repeat split; vm_compute; congruence. Qed.

Lemma allocate_legal : table_legal heap_scheme a_table ∅ (CallAllocate 4096 7).
Proof. split; [apply storable_example|vm_compute; reflexivity]. Qed.

Lemma one_entry_reach :
  table_reach heap_scheme one_entry one_map [CallAllocate 4096 7] ∧
  table_rel (tagged_view heap_scheme) one_entry one_map.
Proof.
  assert (table_rel (tagged_view heap_scheme) one_entry one_map) as Hrel.
  { destruct (rel_Allocate (tagged_view heap_scheme) a_table ∅ (Payload 4096 7))
      as (i & t' & Hrun & _ & _ & Hrel); [apply table_rel_new|vm_compute; done..|].
    vm_compute in Hrun. injection Hrun as <- <-. exact Hrel. }
  split; [|exact Hrel].
  refine (reach_call heap_scheme new_table ∅ [] _ (RetHandle 1) _ _
    (reach_new _) allocate_legal _ _ Hrel); [vm_compute; reflexivity|].
  exists 1. split; [done|]. split; [lia|]. done.
Qed.

Lemma table_refines_witness :
  table_rel (tagged_view heap_scheme) a_table ∅ ∧
  table_legal heap_scheme a_table ∅ (CallAllocate 4096 7) ∧
  ∃ r t' m', table_run heap_scheme (CallAllocate 4096 7) a_table = Some (r, t') ∧
    table_spec ∅ (CallAllocate 4096 7) r m' ∧ table_rel (tagged_view heap_scheme) t' m'.
Proof.
  pose proof (proj1 (table_refines heap_scheme)) as Hnew.
  split; [exact Hnew|]. split; [exact allocate_legal|].
  exact (proj2 (table_refines heap_scheme) a_table ∅ (CallAllocate 4096 7) Hnew allocate_legal).
Defined.

Lemma table_no_forgery_witness :
  table_reach heap_scheme one_entry one_map [CallAllocate 4096 7] ∧
  TagRange_Contains objects (@kFreeEntryTag heap_scheme) = false ∧
  ∃ p, table_Get heap_scheme 77 objects one_entry = Some (p, one_entry) ∧
    (p = 0 ∨ ∃ tag, TagRange_Contains objects tag = true ∧ one_map !! 77 = Some (p, tag) ∧
      stores [CallAllocate 4096 7] p tag).
Proof.
  split; [apply one_entry_reach|]. split; [reflexivity|].
  apply (table_no_forgery heap_scheme one_entry one_map [CallAllocate 4096 7] 77 objects);
    [apply one_entry_reach|lia|reflexivity].
Defined.

Lemma stale_handle_resolves_witness :
  table_rel (tagged_view heap_scheme) one_entry one_map ∧ is_Some (one_map !! 1) ∧
  storable heap_scheme 8192 7 ∧
  wp (table_Free heap_scheme 1 ;; let! h' := table_Allocate heap_scheme 8192 7 in
      let! got := table_Get heap_scheme 1 objects in ret (h', got))
    (λ r t', r = (1, 8192) ∧
      table_rel (tagged_view heap_scheme) t' (<[1 := (8192, 7)]> one_map)) one_entry.
Proof.
  split; [apply one_entry_reach|]. split; [by eexists|]. split; [apply storable_example|].
  apply (stale_handle_resolves heap_scheme one_entry one_map 1 8192 7 objects);
    [apply one_entry_reach|lia|by eexists|apply storable_example|reflexivity..].
Defined.

Lemma code_table_refines_witness :
  table_rel code_view new_table ∅ ∧
  GetEntrypoint 5 new_table =
    Some (match (∅ : gmap Z (Z * Z)) !! 5 with Some (_, e) => e | None => 0 end, new_table).
Proof.
  split; [apply table_rel_new|].
  apply (code_table_refines new_table ∅ 5); [apply table_rel_new|lia].
Defined.
