(* ===== verification/RuntimeTypes.v ===== *)
(** * Types at run time: [WASMCadidumBindings/src/lib/type_intern.cc]

    [InternType] gives every type key (an address) a number, a record in the
    current cage that a [TrustedPointerTable] names, and a tag of its own from the
    process-wide counter; [NameObject], [GetObject] and [FreeObject] keep C++
    objects in a [CppHeapPointerTable] under the tag of their type.  The state
    joins the function-local statics of that file with what they use: the cages,
    the tag counter, and the records, by address. *)
From Stdlib Require Import ZArith Lia.
From stdpp Require Import base list gmap.
From S2P Require Import Prelude Sandbox Tables.

Record InternedTypeRec := mkInternedTypeRec { type_key : Z; intern_id : Z }.

Abbreviation HeapTable := (ExternalEntityTable (TaggedPayload CppHeapPointerTable.scheme)).
Abbreviation TypesTable := (ExternalEntityTable (TaggedPayload TrustedPointerTable.scheme)).

Record InternState := mkInternState {
  heap : HeapTable;
  types : TypesTable;
  by_key : gmap Z Z;
  tags : list Z;
  tpt : list Z
}.

Record TypeWorld := mkTypeWorld {
  ts : InternState;
  tw : World;
  next_tag : Z;
  records : gmap Z InternedTypeRec
}.

(** A computation on a part of the state. *)
Definition zoom {S T A} (part : S → T) (set : T → S → S) (m : M T A) : M S A :=
  let! s := get in
  match m (part s) with
  | Some (a, t) => put (set t s) ;; ret a
  | None => ub
  end.

Definition in_world {A} : M World A → M TypeWorld A :=
  zoom tw (λ w s, mkTypeWorld (ts s) w (next_tag s) (records s)).
Definition in_heap {A} : M HeapTable A → M TypeWorld A :=
  zoom (λ s, heap (ts s)) (λ t s,
    mkTypeWorld (mkInternState t (types (ts s)) (by_key (ts s)) (tags (ts s)) (tpt (ts s)))
      (tw s) (next_tag s) (records s)).
Definition in_types {A} : M TypesTable A → M TypeWorld A :=
  zoom (λ s, types (ts s)) (λ t s,
    mkTypeWorld (mkInternState (heap (ts s)) t (by_key (ts s)) (tags (ts s)) (tpt (ts s)))
      (tw s) (next_tag s) (records s)).
Definition in_counter {A} : M Z A → M TypeWorld A :=
  zoom next_tag (λ n s, mkTypeWorld (ts s) (tw s) n (records s)).

Section runtime_types.
Context `{Platform}.

(** The static [owned], the cage that [Cage()] makes current when none is. *)
Variable owned : nat.

(** [mem] is the answer of the system if a cage must be reserved. *)
Definition initialize_cage (mem : Z) (this : nat) : M World unit :=
  let! initialized := on_cage this (let! s := get in ret (initialized_ s)) in
  if (initialized : bool) then ret tt
  else on_cage this (Initialize mem kDefaultSize).

Definition Cage (mem : Z) : M World nat :=
  let! w := get in
  match current_ w with
  | Some c => initialize_cage mem c ;; ret c
  | None =>
      let! _ := match cages w !! owned with
                | Some _ => ret tt
                | None => put (mkWorld (<[owned := new_sandbox]> (cages w)) (current_ w))
                end in
      let! initialized := on_cage owned (let! s := get in ret (initialized_ s)) in
      if (initialized : bool) then ret owned
      else
        on_cage owned (Initialize mem kDefaultSize) ;;
        set_current (Some owned) ;;
        ret owned
  end.

Definition TypeCage (mem : Z) : M TypeWorld nat := in_world (Cage mem).

(** A pointer and a 32-bit number, padded to a pointer's alignment. *)
Definition pointer_bytes : Z := uintptr_bits / 8.
Definition sizeof_InternedTypeRec : Z := 2 * pointer_bytes.

Definition InternType (mem : Z) (commit : bool) (key : Z) : M TypeWorld Z :=
  let! s := get in
  match by_key (ts s) !! key with
  | Some id => ret id
  | None =>
      let id := u32 (Z.of_nat (length (tags (ts s))) + 1) in
      let! tag := in_counter CppHeapPointerTable.AllocateCppHeapPointerTag in
      let! rec := in_world
        (let! c := Cage mem in
         on_cage c (Allocate commit sizeof_InternedTypeRec pointer_bytes)) in
      modify (λ s, mkTypeWorld (ts s) (tw s) (next_tag s)
        (<[rec := mkInternedTypeRec key id]> (records s))) ;;
      let! th := in_types (TrustedPointerTable.AllocateAndInitializeEntry rec
        TrustedPointerTable.kGenericTrustedObjectTag) in
      modify (λ s, mkTypeWorld
        (mkInternState (heap (ts s)) (types (ts s)) (<[key := id]> (by_key (ts s)))
           (tags (ts s) ++ [tag]) (tpt (ts s) ++ [th]))
        (tw s) (next_tag s) (records s)) ;;
      ret id
  end.

Definition TypeTag (mem : Z) (commit : bool) (key : Z) : M TypeWorld Z :=
  let! id := InternType mem commit key in
  let! s := get in
  of_option (tags (ts s) !! Z.to_nat (u32 (id - 1))).

(** The address of the record. *)
Definition InternedType (mem : Z) (commit : bool) (key : Z) : M TypeWorld Z :=
  let! id := InternType mem commit key in
  let! s := get in
  let! th := of_option (tpt (ts s) !! Z.to_nat (u32 (id - 1))) in
  in_types (TrustedPointerTable.Get th
    (TagRange_of TrustedPointerTable.kGenericTrustedObjectTag)).

Definition NameObject (mem : Z) (commit : bool) (p key : Z) : M TypeWorld Z :=
  let! tag := TypeTag mem commit key in
  in_heap (CppHeapPointerTable.AllocateAndInitializeEntry p tag).

Definition GetObject (mem : Z) (commit : bool) (h key : Z) : M TypeWorld Z :=
  let! tag := TypeTag mem commit key in
  in_heap (CppHeapPointerTable.Get h (TagRange_of tag)).

Definition FreeObject (h : Z) : M TypeWorld unit :=
  in_heap (CppHeapPointerTable.FreeEntry h).
End runtime_types.

Definition new_types : TypeWorld :=
  mkTypeWorld (mkInternState new_table new_table ∅ [] []) (mkWorld ∅ None)
    CppHeapPointerTable.kFirstObjectWrappableTag ∅.

(** ** A run *)

#[local] Instance linux64 : Platform := mkPlatform 64 false.

Example two_types :
  (λ r, match r with Some (a, s) => Some (a, next_tag s) | None => None end)
  ((let! h := NameObject 0 65536 true 4096 100 in
    let! same := GetObject 0 65536 true h 100 in
    let! other := GetObject 0 65536 true h 200 in
    let! rec := InternedType 0 65536 true 200 in
    ret (h, same, other, rec)) new_types)
  = Some ((1, 4096, 0, 65552), 3).
Proof. vm_compute. reflexivity. Qed.
