(* ===== verification/RuntimeTypesProps.v ===== *)
(** * Interned types name one type each

    The invariant [interned] of the state behind [InternType], with the records
    in the cage, the trusted table over them and the tags; that an object comes
    back under its own type and under no other; and that the tag counter, which
    nothing bounds, breaks this after 32768 tags. *)
From Stdlib Require Import ZArith Lia.
From stdpp Require Import base list gmap.
From S2P Require Import Prelude Sandbox SandboxProps Tables TableProps RuntimeTypes.

Lemma wp_zoom {S T A} (part : S → T) set (m : M T A) (Q : A → S → Prop) s :
  wp m (λ a t, Q a (set t s)) (part s) → wp (zoom part set m) Q s.
Proof. unfold zoom, wp, bind, get, put, ret, ub. by destruct (m (part s)) as [[]|]. Qed.

Abbreviation object_scheme := CppHeapPointerTable.scheme.
Abbreviation types_scheme := TrustedPointerTable.scheme.

Section props.
Context `{Platform} {P : PlatformOk} (owned : nat).

(** The current cage: where the records are. *)
Record cage_holds (s : TypeWorld) (addrs : list Z) (c : nat) (cg : Sandbox)
    (live : gmap Z Z) : Prop := {
  ch_current : current_ (tw s) = Some c;
  ch_cage : cages (tw s) !! c = Some cg;
  ch_inv : cage_inv cg live;
  ch_sane : sane cg sizeof_InternedTypeRec pointer_bytes;
  ch_low : end_ cg ≤ 2 ^ 48;
  ch_live : ∀ a, a ∈ addrs → live !! a = Some sizeof_InternedTypeRec
}.

(** The types [keys] have been interned, in this order. *)
Record interned (s : TypeWorld) (keys addrs : list Z) : Prop := {
  in_nodup : NoDup keys;
  in_keys k id : by_key (ts s) !! k = Some id ↔
    ∃ i, keys !! i = Some k ∧ id = Z.of_nat i + 1;
  in_lengths : length addrs = length keys ∧ length (tags (ts s)) = length keys ∧
    length (tpt (ts s)) = length keys;
  in_tags_nodup : NoDup (tags (ts s));
  in_tags t : t ∈ tags (ts s) → 1 ≤ t < next_tag s;
  in_next : 1 ≤ next_tag s ≤ 0x7fff ∧ Z.of_nat (length keys) < next_tag s;
  in_records i k a : keys !! i = Some k → addrs !! i = Some a →
    records s !! a = Some (mkInternedTypeRec k (Z.of_nat i + 1));
  in_types : ∃ m, table_rel (tagged_view types_scheme) (types (ts s)) m ∧
    ∀ i th a, tpt (ts s) !! i = Some th → addrs !! i = Some a →
      0 < th < 2 ^ 32 ∧ m !! th = Some (a, 1);
  in_heap_rel : ∃ m, table_rel (tagged_view object_scheme) (heap (ts s)) m;
  in_cage : ∃ c cg live, cage_holds s addrs c cg live
}.

(** What interning a new key needs: tags left, a handle, and room in the cage. *)
Definition room_for (s : TypeWorld) (commit : bool) : Prop :=
  next_tag s < 0x7fff ∧ SizeForTesting (types (ts s)) < kNullIndex ∧
  (on_windows = true → commit = true) ∧
  ∀ c cg, current_ (tw s) = Some c → cages (tw s) !! c = Some cg →
    ¬ (no_free_run cg sizeof_InternedTypeRec pointer_bytes ∧
       no_room cg sizeof_InternedTypeRec pointer_bytes).

Lemma wp_Cage_current mem w c cg Q :
  current_ w = Some c → cages w !! c = Some cg → initialized_ cg = true →
  Q c (mkWorld (<[c := cg]> (cages w)) (current_ w)) → wp (Cage owned mem) Q w.
Proof.
  intros Hc Hcg Hi HQ. unfold Cage, initialize_cage. wp_step. rewrite Hc. wp_step.
  eapply wp_mono; [apply (wp_on_cage _ _ cg _ (λ b s', b = true ∧ s' = cg) Hcg)|].
  { by wp_step. }
  intros b w' (s' & [-> ->] & ->). wp_step. by wp_step.
Qed.

(** The allocation of a record, with the cage as it is. *)
Lemma wp_alloc_record s mem commit addrs c cg live :
  cage_holds s addrs c cg live → room_for s commit →
  wp (let! c := Cage owned mem in
      on_cage c (Allocate commit sizeof_InternedTypeRec pointer_bytes)) (λ a w',
    ∃ cg', w' = mkWorld (<[c := cg']> (<[c := cg]> (cages (tw s)))) (current_ (tw s)) ∧
      0 < a < 2 ^ 48 ∧ (a ∉ addrs) ∧ cage_inv cg' (<[a := sizeof_InternedTypeRec]> live) ∧
      end_ cg' = end_ cg) (tw s).
Proof using P.
  intros [Hcur Hcg Hinv Hsane Hlow Hlive] (_ & _ & Hw & Hroom).
  pose proof (ci_ok _ _ Hinv) as Hok.
  wp_step. eapply wp_Cage_current; [done|done|apply (ck_init _ Hok)|].
  eapply wp_mono; [apply (wp_on_cage _ c cg _ (λ a cg',
    0 < a < 2 ^ 48 ∧ (a ∉ addrs) ∧ cage_inv cg' (<[a := sizeof_InternedTypeRec]> live) ∧
    end_ cg' = end_ cg))|].
  - simpl. by rewrite lookup_insert_eq.
  - unfold Allocate. wp_step. eapply wp_mono; [by apply wp_TryAllocate|].
    intros a cg' Ha. unfold allocated in Ha. destruct (a =? nullptr) eqn:E.
    + destruct Ha as (_ & Hno & [Hr|[Hwin Hcom]]).
      * destruct (Hroom _ _ Hcur Hcg). by split.
      * specialize (Hw Hwin). congruence.
    + destruct Ha as (_ & Hlo & Hhi & Hap & _ & Hend & Hinv'). wp_step. apply wp_CHECK.
      split; [done|]. wp_step. pose proof (ck_base _ Hok).
      destruct Hsane as (_ & Hpos & _). split; [lia|]. split; [|done].
      intros Hin. specialize (Hlive _ Hin). specialize (Hap _ _ Hlive). lia.
  - intros a w' (cg' & (Ha & Hn & Hi & He) & ->). exists cg'. done.
Qed.
(** [InternType] of a key that is known changes nothing. *)
Lemma InternType_known s mem commit keys addrs key :
  interned s keys addrs → key ∈ keys →
  ∃ i, keys !! i = Some key ∧ InternType owned mem commit key s = Some (Z.of_nat i + 1, s).
Proof.
  intros Hin [i Hi]%list_elem_of_lookup. exists i. split; [done|].
  unfold InternType, bind, get. by rewrite (proj2 (in_keys _ _ _ Hin key (Z.of_nat i + 1))) by eauto.
Qed.

Lemma lookup_snoc_cases {A} (l : list A) x i y :
  (l ++ [x]) !! i = Some y → (l !! i = Some y ∧ (i < length l)%nat) ∨ (i = length l ∧ y = x).
Proof.
  intros [Hi|?]%lookup_app_Some_cases; [left|by right]. split; [done|]. by eapply lookup_lt_Some.
Qed.

(** The state after interning a new key. *)
Definition with_type (s : TypeWorld) (w : World) (key a th : Z) (t : TypesTable) : TypeWorld :=
  let id := Z.of_nat (length (tags (ts s))) + 1 in
  mkTypeWorld (mkInternState (heap (ts s)) t (<[key := id]> (by_key (ts s)))
    (tags (ts s) ++ [next_tag s]) (tpt (ts s) ++ [th])) w (next_tag s + 1)
    (<[a := mkInternedTypeRec key id]> (records s)).

Lemma interned_snoc s keys addrs w key a th t m c cg live :
  interned s keys addrs → key ∉ keys → a ∉ addrs → next_tag s < 0x7fff →
  table_rel (tagged_view types_scheme) t (<[th := (a, 1)]> m) →
  m !! th = None → 0 < th < 2 ^ 32 →
  (∀ i th a, tpt (ts s) !! i = Some th → addrs !! i = Some a →
    0 < th < 2 ^ 32 ∧ m !! th = Some (a, 1)) →
  cage_holds (with_type s w key a th t) (addrs ++ [a]) c cg live →
  interned (with_type s w key a th t) (keys ++ [key]) (addrs ++ [a]).
Proof.
  intros [Hnd Hk (Hla & Hlt & Hlh) Htn Ht Hn Hr _ Hh _] Hkey Ha Hroom Hrel Hth Hthr Hm Hcage.
  unfold with_type in *. split; simpl in *.
  - apply NoDup_app. split; [done|]. split; [|apply NoDup_singleton].
    intros x Hx ->%list_elem_of_singleton. done.
  - intros k id. rewrite Hlt, lookup_insert_Some, Hk. split.
    + intros [[<- <-]|[Hne (i & Hi & ->)]].
      * exists (length keys). by rewrite list_lookup_middle.
      * exists i. by rewrite lookup_app_l by (by eapply lookup_lt_Some).
    + intros (i & [[Hi Hlt']|[-> ->]]%lookup_snoc_cases & ->); [right|by left].
      split; [|by eauto]. intros ->. apply Hkey. by eapply list_elem_of_lookup_2.
  - rewrite !length_app, Hla, Hlt, Hlh. done.
  - apply NoDup_app. split; [done|]. split; [|apply NoDup_singleton].
    intros x Hx ->%list_elem_of_singleton. specialize (Ht _ Hx). lia.
  - intros x [Hx| ->%list_elem_of_singleton]%elem_of_app; [specialize (Ht _ Hx)|]; lia.
  - rewrite length_app. simpl. lia.
  - intros i k b Hi Hb. rewrite Hlt, lookup_insert_Some.
    apply lookup_snoc_cases in Hi as [[Hi Hil]|[-> ->]],
      Hb as [[Hb Hbl]|[He ->]]; try lia.
    + right. split; [|by apply Hr]. intros <-. apply Ha. by eapply list_elem_of_lookup_2.
    + left. done.
  - exists (<[th:=(a, 1)]> m). split; [done|]. intros i th' b Hi Hb.
    apply lookup_snoc_cases in Hi as [[Hi Hil]|[-> ->]],
      Hb as [[Hb Hbl]|[He ->]]; try lia.
    + destruct (Hm _ _ _ Hi Hb) as [? Hmt]. split; [done|].
      rewrite lookup_insert_ne; [done|]. intros <-. congruence.
    + by rewrite lookup_insert_eq.
  - done.
  - eauto.
Qed.

(** [InternType] of a new key: the next number, a record in the cage named by the
    trusted table, the next tag. *)
Lemma wp_InternType_new s mem commit keys addrs key :
  interned s keys addrs → key ∉ keys → room_for s commit →
  wp (InternType owned mem commit key) (λ id s',
    id = Z.of_nat (length keys) + 1 ∧ heap (ts s') = heap (ts s) ∧
    tags (ts s') = tags (ts s) ++ [next_tag s] ∧
    ∃ a, interned s' (keys ++ [key]) (addrs ++ [a])) s.
Proof using P.
  intros Hin Hkey Hroom. pose proof Hroom as (Htag & Hsize & _).
  pose proof (in_lengths _ _ _ Hin) as (Hla & Hlt & Hlh).
  pose proof (in_next _ _ _ Hin) as [Hnext Hlen].
  destruct (in_types _ _ _ Hin) as (m & Hrel & Hm).
  destruct (in_cage _ _ _ Hin) as (c & cg & live & Hcage).
  unfold InternType. wp_step.
  destruct (by_key (ts s) !! key) eqn:Ek.
  { apply (in_keys _ _ _ Hin) in Ek as (i & Hi & _). destruct Hkey.
    by eapply list_elem_of_lookup_2. }
  rewrite Hlt, u32_small by lia. wp_step.
  apply wp_zoom. unfold CppHeapPointerTable.AllocateCppHeapPointerTag. wp_step.
  rewrite u16_small by lia. wp_step. apply wp_zoom. simpl.
  eapply wp_mono; [by apply (wp_alloc_record s mem commit addrs c cg live)|].
  intros a w' (cg' & -> & Ha & Hfresh & Hinv' & Hend'). wp_step. apply wp_zoom. simpl.
  destruct (sim_Allocate types_scheme (types (ts s)) m a
    TrustedPointerTable.kGenericTrustedObjectTag) as (th & t' & Hrun & Hth & Hnone & Hrel');
    [done| |done|].
  { split; [split; [|done]|done]. change payload_bits with 48. lia. }
  unfold wp at 1. unfold TrustedPointerTable.AllocateAndInitializeEntry. rewrite Hrun.
  wp_step. split; [done|]. split; [done|]. split; [done|]. exists a.
  replace (Z.of_nat (length keys) + 1) with (Z.of_nat (length (tags (ts s))) + 1) by lia.
  eapply (interned_snoc s keys addrs _ key a th t' m c cg' _ Hin); [done..|].
  destruct Hcage as [Hcur Hcg Hinv Hsane Hlow Hlive]. split; simpl.
  - done.
  - by rewrite lookup_insert_eq.
  - exact Hinv'.
  - unfold sane in *. by rewrite Hend'.
  - by rewrite Hend'.
  - intros b [Hb| ->%list_elem_of_singleton]%elem_of_app; [|by rewrite lookup_insert_eq].
    rewrite lookup_insert_ne; [by apply Hlive|]. by intros ->.
Qed.
(** ** Types *)

Definition can_intern (s : TypeWorld) (keys : list Z) (commit : bool) (key : Z) : Prop :=
  key ∈ keys ∨ room_for s commit.

(** State [s'] has [key] at place [i], with tag [t], and all that [s] had. *)
Definition has_type (s s' : TypeWorld) (keys keys' : list Z) (i : nat) (key t : Z) : Prop :=
  keys' !! i = Some key ∧ tags (ts s') !! i = Some t ∧
  keys `prefix_of` keys' ∧ tags (ts s) `prefix_of` tags (ts s') ∧
  heap (ts s') = heap (ts s).

Lemma wp_InternType s mem commit keys addrs key :
  interned s keys addrs → can_intern s keys commit key →
  wp (InternType owned mem commit key) (λ id s', ∃ keys' addrs' i t,
    interned s' keys' addrs' ∧ id = Z.of_nat i + 1 ∧ has_type s s' keys keys' i key t) s.
Proof using P.
  intros Hin Hcan. pose proof (in_lengths _ _ _ Hin) as (_ & Hlt & _).
  destruct (decide (key ∈ keys)) as [Hk|Hk].
  - destruct (InternType_known s mem commit _ _ _ Hin Hk) as (i & Hi & E).
    eapply wp_of_eq; [exact E|]. pose proof (lookup_lt_Some _ _ _ Hi) as Hil.
    rewrite <- Hlt in Hil. apply lookup_lt_is_Some in Hil as [t Ht].
    exists keys, addrs, i, t. split; [done|]. split; [done|]. by repeat split.
  - destruct Hcan as [?|Hroom]; [done|].
    eapply wp_mono; [by apply wp_InternType_new|].
    intros id s' (-> & Hh & Ht & a & Hin').
    exists (keys ++ [key]), (addrs ++ [a]), (length keys), (next_tag s).
    split; [done|]. split; [done|]. unfold has_type. rewrite Ht.
    rewrite list_lookup_middle by done. split; [done|].
    rewrite <- Hlt, list_lookup_middle by done. split; [done|].
    split; [by eexists|]. split; [by eexists|done].
Qed.

Lemma small_index s keys addrs i k :
  interned s keys addrs → keys !! i = Some k →
  Z.to_nat (u32 (Z.of_nat i + 1 - 1)) = i.
Proof.
  intros Hin Hi%lookup_lt_Some. pose proof (in_next _ _ _ Hin) as [? ?].
  rewrite u32_small by lia. lia.
Qed.

Lemma wp_TypeTag s mem commit keys addrs key :
  interned s keys addrs → can_intern s keys commit key →
  wp (TypeTag owned mem commit key) (λ t s', ∃ keys' addrs' i,
    interned s' keys' addrs' ∧ has_type s s' keys keys' i key t) s.
Proof using P.
  intros Hin Hcan. unfold TypeTag. wp_step. eapply wp_mono; [by eapply wp_InternType|].
  intros id s' (keys' & addrs' & i & t & Hin' & -> & Hty). wp_step.
  rewrite (small_index _ _ _ _ _ Hin' (proj1 Hty)), (proj1 (proj2 Hty)). wp_step. eauto.
Qed.

(** Interned types are canonical: the record that [InternedType] finds for a
    key, through the trusted pointer table and in the cage, bears this key and
    its number; asking for the number again gives it and changes nothing; types
    interned before keep theirs, and no two keys share a place. *)
Theorem intern_type_canonical s mem commit keys addrs key :
  interned s keys addrs → can_intern s keys commit key →
  wp (InternedType owned mem commit key) (λ a s', ∃ keys' addrs' i,
    interned s' keys' addrs' ∧ NoDup keys' ∧ keys `prefix_of` keys' ∧
    keys' !! i = Some key ∧
    records s' !! a = Some (mkInternedTypeRec key (Z.of_nat i + 1)) ∧
    InternType owned mem commit key s' = Some (Z.of_nat i + 1, s')) s.
Proof using P.
  intros Hin Hcan. unfold InternedType. wp_step. eapply wp_mono; [by eapply wp_InternType|].
  intros id s' (keys' & addrs' & i & t & Hin' & -> & Hk & _ & Hpre & _). wp_step.
  rewrite (small_index _ _ _ _ _ Hin' Hk). pose proof (lookup_lt_Some _ _ _ Hk) as Hil.
  destruct (in_lengths _ _ _ Hin') as (Hla & _ & Hlh).
  destruct (lookup_lt_is_Some_2 (tpt (ts s')) i ltac:(lia)) as [th Hth].
  destruct (lookup_lt_is_Some_2 addrs' i ltac:(lia)) as [a Ha].
  rewrite Hth. wp_step. apply wp_zoom.
  destruct (in_types _ _ _ Hin') as (m & Hrel & Hm). destruct (Hm _ _ _ Hth Ha) as [Hr Hma].
  unfold wp, TrustedPointerTable.Get. rewrite (sim_Get types_scheme _ m) by (done || lia).
  rewrite Hma. change (TagRange_Contains _ _) with true. cbv iota.
  destruct s' as [[] ? ? ?]. simpl in *.
  exists keys', addrs', i. split; [done|]. split; [apply (in_nodup _ _ _ Hin')|].
  split; [done|]. split; [done|]. split; [by apply (in_records _ _ _ Hin')|].
  destruct (InternType_known _ mem commit _ _ key Hin') as (j & Hj & ->).
  { by eapply list_elem_of_lookup_2. }
  by rewrite (NoDup_lookup _ _ _ _ (in_nodup _ _ _ Hin') Hj Hk).
Qed.

(** The objects named do not matter to the types. *)
Lemma interned_heap s keys addrs t m :
  interned s keys addrs → table_rel (tagged_view object_scheme) t m →
  interned (mkTypeWorld
    (mkInternState t (types (ts s)) (by_key (ts s)) (tags (ts s)) (tpt (ts s)))
    (tw s) (next_tag s) (records s)) keys addrs.
Proof.
  intros [] Hrel. split; simpl; [done..| |].
  - by exists m.
  - destruct in_cage0 as (c & cg & live & []). by exists c, cg, live.
Qed.

(** An object keeps its type: what [NameObject] stores under a type key comes
    back under this key, and under any other key, known or new, [GetObject] gives
    null. *)
Theorem objects_keep_their_type s mem commit p keys addrs key :
  interned s keys addrs → can_intern s keys commit key → 0 < p < 2 ^ 48 →
  SizeForTesting (heap (ts s)) < kNullIndex →
  wp (NameObject owned mem commit p key) (λ h s', ∃ keys' addrs',
    interned s' keys' addrs' ∧ key ∈ keys' ∧ h ≠ 0 ∧
    ∀ key2, can_intern s' keys' commit key2 →
      wp (GetObject owned mem commit h key2)
        (λ q _, q = if decide (key2 = key) then p else 0) s') s.
Proof using P.
  intros Hin Hcan Hp Hsize. unfold NameObject. wp_step.
  eapply wp_mono; [by eapply wp_TypeTag|].
  intros t s1 (keys1 & addrs1 & i & Hin1 & Hk & Ht & _ & _ & Hh). apply wp_zoom.
  destruct (in_heap_rel _ _ _ Hin1) as [m Hrel].
  pose proof (in_tags _ _ _ Hin1 t ltac:(by eapply list_elem_of_lookup_2)) as Htr.
  pose proof (in_next _ _ _ Hin1) as [Hnext _].
  assert (storable object_scheme p t) as Hst.
  { split; [split|]; [change payload_bits with 48; lia|change tag_bits with 15; lia|].
    change kFreeEntryTag with 0x7fff. lia. }
  destruct (sim_Allocate object_scheme (heap (ts s1)) m p t Hrel Hst) as (h & t' & Hrun & Hhr & _ & Hrel').
  { by rewrite Hh. }
  unfold wp at 1, CppHeapPointerTable.AllocateAndInitializeEntry. rewrite Hrun.
  exists keys1, addrs1. split; [|split; [by eapply list_elem_of_lookup_2|split; [lia|]]].
  { by eapply interned_heap. }
  intros key2 Hcan2. unfold GetObject. wp_step. eapply wp_mono.
  { eapply wp_TypeTag; [|exact Hcan2]. by eapply interned_heap. }
  intros t2 s2 (keys2 & addrs2 & j & Hin2 & Hk2 & Ht2 & Hpre & Htpre & Hh2). simpl in *.
  apply wp_zoom. rewrite Hh2. unfold wp, CppHeapPointerTable.Get.
  pose proof (in_tags _ _ _ Hin2 t2 ltac:(by eapply list_elem_of_lookup_2)) as Ht2r.
  pose proof (in_next _ _ _ Hin2) as [Hnext2 _].
  rewrite (sim_Get object_scheme _ _ _ _ Hrel'), lookup_insert_eq.
  - rewrite TagRange_of_spec by lia.
    pose proof (prefix_lookup_Some _ _ _ _ Ht Htpre) as Htj.
    pose proof (prefix_lookup_Some _ _ _ _ Hk Hpre) as Hkj.
    case_decide as Hd.
    + subst key2. rewrite (NoDup_lookup _ _ _ _ (in_nodup _ _ _ Hin2) Hk2 Hkj) in Ht2.
      by replace t2 with t by congruence; rewrite Z.eqb_refl.
    + rewrite (proj2 (Z.eqb_neq _ _)); [done|]. intros <-. apply Hd.
      pose proof (NoDup_lookup _ _ _ _ (in_tags_nodup _ _ _ Hin2) Ht2 Htj) as ->. congruence.
  - lia.
  - rewrite TagRange_of_spec by (change kFreeEntryTag with 0x7fff; lia).
    apply Z.eqb_neq. change kFreeEntryTag with 0x7fff. lia.
Qed.
(** ** From the start *)

Lemma pointer_bytes_pow : power_of_two pointer_bytes ∧ 4 ≤ pointer_bytes ≤ 8.
Proof using P.
  unfold pointer_bytes. destruct uintptr_width as [-> | ->].
  - split; [by exists 2|by vm_compute].
  - split; [by exists 3|by vm_compute].
Qed.

Lemma wp_Cage_first mem cg :
  Initialize mem kDefaultSize new_sandbox = Some (tt, cg) →
  wp (Cage owned mem) (λ c w, c = owned ∧ current_ w = Some owned ∧
    cages w !! owned = Some cg) (mkWorld ∅ None).
Proof.
  intros Hrun. unfold Cage, set_current. wp_step. simpl. rewrite lookup_empty. wp_step.
  eapply wp_mono; [apply (wp_on_cage _ owned new_sandbox _ (λ b s, b = false ∧ s = new_sandbox))|].
  { simpl. by rewrite lookup_insert_eq. }
  { by wp_step. }
  intros b w (s & [-> ->] & ->). wp_step.
  eapply wp_mono; [apply (wp_on_cage _ owned new_sandbox _ (λ _ s, s = cg))|].
  { simpl. by rewrite lookup_insert_eq. }
  { by apply (wp_of_eq _ _ _ tt cg). }
  intros u w (s & -> & ->). wp_step. simpl. by rewrite lookup_insert_eq.
Qed.

(** The first use reserves a cage and makes it current; no types yet. *)
Lemma first_cage mem :
  reserved mem kDefaultSize → mem + kDefaultSize + 16 ≤ 2 ^ uintptr_bits →
  mem + kDefaultSize ≤ 2 ^ 48 →
  ∃ s, TypeCage owned mem new_types = Some (owned, s) ∧ interned s [] [] ∧
    room_for s true ∧ heap (ts s) = new_table.
Proof using P.
  intros Hres Htop Hlow. pose proof pointer_bytes_pow as [Hpow Hpb].
  destruct (Initialize_inv mem kDefaultSize ltac:(by vm_compute) Hres)
    as (cg & Hrun & Hinv & Hbase & Hsz).
  pose proof (ci_ok _ _ Hinv) as Hok. pose proof (ck_end _ Hok) as Hend.
  rewrite Hbase, Hsz in Hend.
  destruct (wp_run _ _ _ (wp_Cage_first _ _ Hrun)) as (c & w & Hc & -> & Hcur & Hcg).
  unfold TypeCage, in_world, zoom, bind, get, put, ret. change (tw new_types) with (mkWorld ∅ None). rewrite Hc.
  eexists. split; [done|]. split; [|split; [|done]].
  - assert (sane cg sizeof_InternedTypeRec pointer_bytes) as Hsane.
    { split; [done|]. unfold sizeof_InternedTypeRec, kDefaultSize in *. destruct Hres as [? _]. lia. }
    assert (∀ A i (x : A), [] !! i = Some x → False) as Hnil
      by (intros A i x Hx; by rewrite lookup_nil in Hx).
    split; simpl.
    + constructor.
    + intros k id. rewrite lookup_empty. split; [done|]. by intros (i & Hi%Hnil & _).
    + done.
    + constructor.
    + intros t Hin. by apply not_elem_of_nil in Hin.
    + done.
    + by intros i k a Hi%Hnil.
    + eexists. split; [apply table_rel_new|]. by intros i th a Hi%Hnil.
    + eexists. apply table_rel_new.
    + exists owned, cg, ∅. split; simpl; [done..|by rewrite Hend|].
      intros a Hin. by apply not_elem_of_nil in Hin.
  - split; [done|]. split; [done|]. split; [done|]. simpl.
    intros c cg' Hc' Hcg' [_ Hroom]. replace cg' with cg in Hroom by congruence.
    (* an aligned record fits above an empty cage *)
    assert (0 < pointer_bytes) as Hpos by lia.
    assert (pointer_bytes ≠ 0) as Hnz by lia.
    pose proof (Z.div_mod (mem + pointer_bytes - 1) pointer_bytes Hnz) as Hdm.
    pose proof (Z.mod_pos_bound (mem + pointer_bytes - 1) pointer_bytes Hpos) as Hmb.
    assert (∃ q, q mod pointer_bytes = 0 ∧ mem ≤ q < mem + pointer_bytes) as (q & Hq & Hqr).
    { exists ((mem + pointer_bytes - 1) / pointer_bytes * pointer_bytes).
      split; [apply Z.mod_mul; lia|]. rewrite Z.mul_comm. lia. }
    specialize (Hroom q Hq). rewrite Hend in Hroom.
    assert (bump_offset_ cg = 0) as Hbump.
    { revert Hrun. unfold Initialize, bind, get, CHECK, put, ret. simpl.
      destruct (negb (mem =? nullptr)); [|done]. by intros [= <-]. }
    rewrite Hbase, Hbump in Hroom. unfold sizeof_InternedTypeRec, kDefaultSize in *.
    lia.
Qed.

(** ** The tag counter wraps *)

(** A tag of 16 bits loses its highest bit in the word. *)
Lemma tag_truncated p t :
  0 ≤ t → (Payload p (t + 2 ^ 15) : TaggedPayload object_scheme) = Payload p t.
Proof.
  intros Ht. unfold Payload, Tag. f_equal. f_equal. unfold u64.
  change kTagShift with 49. rewrite !Z.shiftl_mul_pow2 by lia.
  replace ((t + 2 ^ 15) * 2 ^ 49) with (t * 2 ^ 49 + 1 * 2 ^ 64) by lia.
  by rewrite Z.mod_add by lia.
Qed.

Lemma TypeTag_known s mem commit key i t :
  by_key (ts s) !! key = Some (Z.of_nat i + 1) → tags (ts s) !! i = Some t →
  Z.of_nat i + 1 < 2 ^ 32 → TypeTag owned mem commit key s = Some (t, s).
Proof.
  intros Hk Ht Hi. unfold TypeTag, InternType, bind, get, of_option, ret. rewrite Hk.
  rewrite u32_small by lia. replace (Z.to_nat _) with i by lia. by rewrite Ht.
Qed.

(** Nothing bounds the tag counter, which the table cuts to 15 bits.  If two
    types have tags 32768 apart, an object of the second, stored by [NameObject],
    is null under its own type and is returned as an object of the first. *)
Theorem tags_confused s mem commit p k1 k2 i j t m :
  by_key (ts s) !! k1 = Some (Z.of_nat i + 1) → tags (ts s) !! i = Some t →
  by_key (ts s) !! k2 = Some (Z.of_nat j + 1) → tags (ts s) !! j = Some (t + 2 ^ 15) →
  Z.of_nat i + 1 < 2 ^ 32 → Z.of_nat j + 1 < 2 ^ 32 → 0 ≤ t < 0x7fff →
  table_rel (tagged_view object_scheme) (heap (ts s)) m →
  SizeForTesting (heap (ts s)) < kNullIndex → 0 < p < 2 ^ 48 →
  wp (let! h := NameObject owned mem commit p k2 in
      let! own := GetObject owned mem commit h k2 in
      let! other := GetObject owned mem commit h k1 in
      ret (own, other)) (λ r _, r = (0, p)) s.
Proof.
  intros Hk1 Ht1 Hk2 Ht2 Hi Hj Ht Hrel Hsize Hp.
  assert (storable object_scheme p t) as Hst.
  { split; [split|]; [change payload_bits with 48; lia|change tag_bits with 15; lia|].
    change kFreeEntryTag with 0x7fff. lia. }
  destruct (sim_Allocate object_scheme _ m p t Hrel Hst Hsize) as (h & t' & Hrun & Hh & _ & Hrel').
  assert (∀ x, 0 ≤ x < 65536 → x ≠ 0x7fff →
    table_Get object_scheme h (TagRange_of x) t' = Some (if t =? x then p else 0, t')) as Hget.
  { intros x Hx Hne. rewrite (sim_Get object_scheme _ _ _ _ Hrel'), lookup_insert_eq by
      (lia || (rewrite TagRange_of_spec by (change kFreeEntryTag with 0x7fff; lia);
        apply Z.eqb_neq; change kFreeEntryTag with 0x7fff; lia)).
    by rewrite TagRange_of_spec by lia. }
  unfold wp, NameObject, GetObject. unfold bind at 1.
  unfold bind at 1. rewrite (TypeTag_known s _ _ _ _ _ Hk2 Ht2 Hj).
  unfold in_heap, zoom, CppHeapPointerTable.AllocateAndInitializeEntry, table_Allocate.
  rewrite (tag_truncated p t) by lia.
  fold (table_Allocate object_scheme p t). unfold bind at 1, get at 1. rewrite Hrun.
  unfold put at 1, bind at 1, ret at 1.
  set (s1 := mkTypeWorld _ _ _ _).
  unfold bind at 1. unfold bind at 1. rewrite (TypeTag_known s1 _ _ k2 j _ Hk2 Ht2 Hj).
  unfold CppHeapPointerTable.Get, bind at 1, get at 1. simpl heap. rewrite Hget by lia.
  rewrite (proj2 (Z.eqb_neq _ _)) by lia. unfold put at 1, bind at 1, ret at 1.
  set (s2 := mkTypeWorld _ _ _ _).
  unfold bind at 1. unfold bind at 1. rewrite (TypeTag_known s2 _ _ k1 i _ Hk1 Ht1 Hi).
  unfold bind at 1, get at 1. simpl heap. rewrite Hget by lia.
  by rewrite Z.eqb_refl.
Qed.
End props.

(** ** Witnesses *)

#[local] Instance linux64 : Platform := mkPlatform 64 false.
#[local] Instance linux64_ok : PlatformOk.
Proof. by right. Defined.

Definition first_state : TypeWorld :=
  match TypeCage 0 65536 new_types with Some (_, s) => s | None => new_types end.

Lemma first_state_ok :
  interned first_state [] [] ∧ room_for first_state true ∧
  heap (ts first_state) = new_table.
Proof.
  destruct (first_cage 0 65536) as (s & Hrun & Hs);
    [split; [lia|split; [by vm_compute|done]]|by vm_compute|by vm_compute|].
  unfold first_state. rewrite Hrun. exact Hs.
Qed.

Lemma first_can_intern key : can_intern first_state [] true key.
Proof. right. apply first_state_ok. Qed.

Lemma first_heap_room : SizeForTesting (heap (ts first_state)) < kNullIndex.
Proof. rewrite (proj2 (proj2 first_state_ok)). by vm_compute. Qed.

Lemma intern_type_canonical_witness :
  interned first_state [] [] ∧ can_intern first_state [] true 100 ∧
  wp (InternedType 0 65536 true 100) (λ a s', ∃ keys' addrs' i,
    interned s' keys' addrs' ∧ NoDup keys' ∧ [] `prefix_of` keys' ∧
    keys' !! i = Some 100 ∧
    records s' !! a = Some (mkInternedTypeRec 100 (Z.of_nat i + 1)) ∧
    InternType 0 65536 true 100 s' = Some (Z.of_nat i + 1, s')) first_state.
Proof.
  split; [apply first_state_ok|]. split; [apply first_can_intern|].
  apply (intern_type_canonical 0 first_state 65536 true [] [] 100);
    [apply first_state_ok|apply first_can_intern].
Defined.

Lemma objects_keep_their_type_witness :
  interned first_state [] [] ∧ can_intern first_state [] true 100 ∧
  wp (NameObject 0 65536 true 4096 100) (λ h s', ∃ keys' addrs',
    interned s' keys' addrs' ∧ 100 ∈ keys' ∧ h ≠ 0 ∧
    ∀ key2, can_intern s' keys' true key2 →
      wp (GetObject 0 65536 true h key2)
        (λ q _, q = if decide (key2 = 100) then 4096 else 0) s') first_state.
Proof.
  split; [apply first_state_ok|]. split; [apply first_can_intern|].
  apply (objects_keep_their_type 0 first_state 65536 true 4096 [] [] 100);
    [apply first_state_ok|apply first_can_intern|lia|apply first_heap_room].
Defined.

(** Two types, between which other users of the counter took 32767 tags. *)
Definition far_tags : TypeWorld :=
  mkTypeWorld (mkInternState new_table new_table (<[200 := 2]> {[100 := 1]})
    [1; 1 + 2 ^ 15] [1; 2]) (tw first_state) (2 + 2 ^ 15) ∅.

Lemma tags_confused_witness :
  by_key (ts far_tags) !! 100 = Some (Z.of_nat 0 + 1) ∧
  by_key (ts far_tags) !! 200 = Some (Z.of_nat 1 + 1) ∧
  table_rel (tagged_view object_scheme) (heap (ts far_tags)) ∅ ∧
  wp (let! h := NameObject 0 65536 true 4096 200 in
      let! own := GetObject 0 65536 true h 200 in
      let! other := GetObject 0 65536 true h 100 in
      ret (own, other)) (λ r _, r = (0, 4096)) far_tags.
Proof.
  split; [reflexivity|]. split; [reflexivity|]. split; [apply table_rel_new|].
  apply (tags_confused 0 far_tags 65536 true 4096 100 200 0 1 1 ∅);
    [reflexivity..|lia|lia|lia|apply table_rel_new|reflexivity|lia].
Defined.
