(* ===== verification/BindMessage.v ===== *)
(** * Messages of the C++ bindings

    [WASMCadidumBindings]: class [mojo::Message] ([message.{h,cc}]) over a vector
    of bytes, the wire format of what generated code writes into it
    ([lib/wire_primitives.h]) and the reserved interface messages
    ([lib/interface_control_messages.h], [lib/response_dispatcher.h]).

    The headers have the layout of [codec.h] ([Codec]).  A vector is a [Buf]: its
    bytes and the address of its data, which is an argument wherever a vector can
    be (re)allocated.  [None] is a load or store outside the bytes of the vector.
    Messages travel as the bytes they hold. *)
From Stdlib Require Import ZArith Lia.
From stdpp Require Import base list.
From S2P Require Import Prelude Sandbox Codec.

(** ** Interface ids and flags *)

Definition kPrimaryInterfaceId : Z := 0.
Definition kInvalidInterfaceId : Z := 4294967295.
Definition kInterfaceIdNamespaceMask : Z := 2147483648.
Definition IsPrimaryInterfaceId (id : Z) : bool := id =? kPrimaryInterfaceId.

Definition kFlagExpectsResponse : Z := 1.
Definition kFlagIsResponse : Z := 2.

(** ** [mojo::Message] *)

Record Message := mkMessage { buffer_ : Buf; handles_ : list Z }.

(** [Message()], the null message. *)
Definition null_message : Message := mkMessage (mkBuf 0 []) [].

Definition IsNull (m : Message) : bool := buf_size (buffer_ m) =? 0.

(** The field at offset [off] of the header. *)
Definition header_u32 (m : Message) (off : Z) : option Z :=
  load_u32 (buffer_ m) (buf_addr (buffer_ m) + off).
Definition version (m : Message) : option Z := header_u32 m version_.
Definition interface_id (m : Message) : option Z := header_u32 m interface_id_.
Definition name (m : Message) : option Z := header_u32 m name_.
Definition flags (m : Message) : option Z := header_u32 m flags_.
Definition has_flag (m : Message) (flag : Z) : option bool :=
  f ← flags m; Some (negb (Z.land f flag =? 0)).
Definition request_id (m : Message) : option Z :=
  load_u64 (buffer_ m) (buf_addr (buffer_ m) + request_id_).
Definition set_request_id (id : Z) (m : Message) : option Message :=
  b ← store_u64 (buf_addr (buffer_ m) + request_id_) id (buffer_ m);
  Some (mkMessage b (handles_ m)).
Definition set_interface_id (id : Z) (m : Message) : option Message :=
  b ← store_u32 (buf_addr (buffer_ m) + interface_id_) id (buffer_ m);
  Some (mkMessage b (handles_ m)).

Definition kV2PayloadOffset : Z := sizeof_MessageHeaderV2 - sizeof_MessageHeaderV1.

(** [Message(name, flags, interface_id)]; the vector's data is at [a]. *)
Definition Message_new (a name flags interface_id : Z) : option Message :=
  let b := mkBuf a (replicate (Z.to_nat sizeof_MessageHeaderV2) 0) in
  b ← store_u32 (a + num_bytes) (u32 (buf_size b)) b;
  b ← store_u32 (a + version_) 2 b;
  b ← store_u32 (a + interface_id_) interface_id b;
  b ← store_u32 (a + name_) name b;
  b ← store_u32 (a + flags_) flags b;
  b ← store_u32 (a + trace_nonce_) 0 b;
  b ← store_u64 (a + request_id_) 0 b;
  b ← store_u64 (a + payload_) kV2PayloadOffset b;
  b ← store_u64 (a + payload_interface_ids_) 0 b;
  Some (mkMessage b []).

(** The vector's data is at [a] after the bytes have been inserted. *)
Definition WritePayload (a : Z) (bytes : list Z) (m : Message) : option Message :=
  let b := mkBuf a (buf_bytes (buffer_ m) ++ bytes) in
  b ← store_u32 (a + num_bytes) (u32 (buf_size b)) b;
  Some (mkMessage b (handles_ m)).

Definition AttachHandle (handle : Z) (m : Message) : Message :=
  mkMessage (buffer_ m) (handles_ m ++ [handle]).
Definition TakeHandles (m : Message) : list Z * Message :=
  (handles_ m, mkMessage (buffer_ m) []).

Section message.
Context `{Platform}.

(** [payload()], an address. *)
Definition payload (m : Message) : option Z :=
  let b := buffer_ m in
  if buf_size b =? 0 then Some nullptr
  else
    v ← version m;
    if v <? 2 then Some (uw (buf_addr b + sizeof_MessageHeaderV1))
    else
      offset ← load_u64 b (buf_addr b + payload_);
      if offset =? 0 then Some (uw (buf_addr b + sizeof_MessageHeaderV2))
      else Some (uw (buf_addr b + payload_ + offset)).

Definition payload_num_bytes (m : Message) : option Z :=
  let b := buffer_ m in
  if buf_size b =? 0 then Some 0
  else p ← payload m; Some (u32 (buf_addr b + buf_size b - p)).

Definition HeaderSizeForVersion (version : Z) : Z :=
  if version =? 0 then sizeof_MessageHeader
  else if version =? 1 then sizeof_MessageHeaderV1
  else sizeof_MessageHeaderV2.

(** The checks of [WrapWireBytes]: version, address and size of the incoming
    payload, or nothing for bytes that give a null message. *)
Definition incoming (bytes : Buf) : option (option (Z * Z * Z)) :=
  let a := buf_addr bytes in
  let size := buf_size bytes in
  if size <? sizeof_MessageHeader then Some None
  else
    version ← load_u32 bytes (a + version_);
    if 2 <? version then Some None
    else
      let header := HeaderSizeForVersion version in
      if size <? header then Some None
      else
        let whole := Some (Some (version, a + header, u32 (size - header))) in
        if version <? 2 then whole
        else
          offset ← load_u64 bytes (a + payload_);
          if offset =? 0 then whole
          else
            let p := uw (a + payload_ + offset) in
            if (p <? a) || (a + size <? p) then Some None
            else Some (Some (version, p, u32 (a + size - p))).

(** [a] and [capacity] are those of the vector that [resize] makes, [a'] the
    address of its data if [insert] has to move it.  [out] points at [a]. *)
Definition WrapWireBytes (a capacity a' : Z) (bytes : Buf) (handles : list Z)
    : option Message :=
  r ← incoming bytes;
  match r with
  | None => Some null_message
  | Some (version, incoming_payload, incoming_payload_size) =>
      let out := a in
      let b := mkBuf a (replicate (Z.to_nat sizeof_MessageHeaderV2) 0) in
      h ← load bytes (buf_addr bytes) sizeof_MessageHeader;
      b ← store out h b;
      b ← store_u32 (out + version_) 2 b;
      id ← (if 1 <=? version then load_u64 bytes (buf_addr bytes + request_id_) else Some 0);
      b ← store_u64 (out + request_id_) id b;
      b ← store_u64 (out + payload_) kV2PayloadOffset b;
      b ← store_u64 (out + payload_interface_ids_) 0 b;
      data ← load bytes incoming_payload incoming_payload_size;
      let new_size := buf_size b + incoming_payload_size in
      let b := mkBuf (if capacity <? new_size then a' else a) (buf_bytes b ++ data) in
      b ← store_u32 (out + num_bytes) (u32 (buf_size b)) b;
      Some (mkMessage b handles)
  end.

(** ** Scalars and strings on the wire

    A reader answers [Some None] for [false], and otherwise the value and the
    offset after it. *)

Definition WriteScalar (n : nat) (a value : Z) (m : Message) : option Message :=
  WritePayload a (le_bytes n value) m.

Definition ReadScalar (n : nat) (m : Message) (offset : Z) : option (option (Z * Z)) :=
  p ← payload m;
  avail ← payload_num_bytes m;
  if avail <? uw (offset + Z.of_nat n) then Some None
  else
    l ← load (buffer_ m) (p + offset) (Z.of_nat n);
    Some (Some (le_value l, uw (offset + Z.of_nat n))).

Definition WriteStructHeader (a1 a2 num_bytes version : Z) (m : Message) : option Message :=
  m ← WriteScalar 4 a1 num_bytes m; WriteScalar 4 a2 version m.

Definition ReadStructHeader (m : Message) (offset : Z) : option (option (Z * Z * Z)) :=
  r ← ReadScalar 4 m offset;
  match r with
  | None => Some None
  | Some (num_bytes, offset) =>
      r ← ReadScalar 4 m offset;
      Some match r with
           | None => None
           | Some (version, offset) => Some (num_bytes, version, offset)
           end
  end.

(** [dest] is an address in the buffer. *)
Definition PatchUint32 (dest value : Z) (m : Message) : option Message :=
  b ← store_u32 dest value (buffer_ m); Some (mkMessage b (handles_ m)).
Definition PatchStructHeader (dest num_bytes version : Z) (m : Message) : option Message :=
  m ← PatchUint32 dest num_bytes m; PatchUint32 (dest + 4) version m.

Definition WriteString (a1 a2 : Z) (s : list Z) (m : Message) : option Message :=
  m ← WriteScalar 4 a1 (u32 (Z.of_nat (length s))) m;
  match s with [] => Some m | _ => WritePayload a2 s m end.

Definition ReadString (m : Message) (offset : Z) : option (option (list Z * Z)) :=
  r ← ReadScalar 4 m offset;
  match r with
  | None => Some None
  | Some (len, offset) =>
      avail ← payload_num_bytes m;
      if avail <? uw (offset + len) then Some None
      else
        p ← payload m;
        s ← load (buffer_ m) (p + offset) len;
        Some (Some (s, uw (offset + len)))
  end.

(** ** Interface control messages *)

Definition kRunMessageId : Z := 4294967295.
Definition kRunOrClosePipeMessageId : Z := 4294967294.
Definition kRunQueryVersionResult : Z := 0.
Definition kRunRequireVersion : Z := 0.

(** The response of [HandleQueryVersionMessage], which the router then sends. *)
Definition HandleQueryVersionMessage (a1 a2 a3 : Z) (message : Message) (id version : Z)
    : option Message :=
  request ← request_id message;
  response ← Message_new a1 kRunMessageId kFlagIsResponse id;
  response ← set_request_id request response;
  response ← WriteScalar 4 a2 kRunQueryVersionResult response;
  WriteScalar 4 a3 version response.

Definition HandleRequireVersionMessage (message : Message) (version : Z) : option bool :=
  r ← ReadScalar 4 message 0;
  match r with
  | None => Some false
  | Some (tag, offset) =>
      if negb (tag =? kRunRequireVersion) then Some false
      else
        r ← ReadScalar 4 message offset;
        Some match r with
             | None => false
             | Some (required_version, _) => required_version <=? version
             end
  end.
End message.

(** ** A run *)

#[local] Instance linux64 : Platform := mkPlatform 64 false.

Example query_version :
  (m ← Message_new 1000 7 kFlagExpectsResponse 3;
   m ← WriteScalar 4 2000 kRunRequireVersion m;
   m ← WriteString 3000 4000 [104; 105] m;
   w ← WrapWireBytes 5000 100 6000 (buffer_ m) [];
   n ← name w; id ← interface_id w; s ← ReadString w 4;
   Some (n, id, s, bool_decide (buf_bytes (buffer_ w) = buf_bytes (buffer_ m))))
  = Some (7, 3, Some ([104; 105], 10), true).
Proof. vm_compute. reflexivity. Qed.
