(* ===== verification/BindMessageProps.v ===== *)
(** * Properties of the bindings' messages

    The bytes of a message ([v2_bytes]); that bytes read from a pipe become the
    message that was sent, unless the write through a stale pointer spoils it;
    that reading never leaves the message on a 64-bit host, and how it does on a
    32-bit one; and that fields are read back as written. *)
From Stdlib Require Import ZArith Lia.
From stdpp Require Import base list.
From S2P Require Import Prelude Sandbox SandboxProps Codec BindMessage.

Definition header_bytes (size id name flags nonce request : Z) : list Z :=
  le_bytes 4 size ++ le_bytes 4 2 ++ le_bytes 4 id ++ le_bytes 4 name ++
  le_bytes 4 flags ++ le_bytes 4 nonce ++ le_bytes 8 request ++
  le_bytes 8 kV2PayloadOffset ++ le_bytes 8 0.

(** A message of the bindings: its header, version 2, and its payload. *)
Definition v2_bytes (id name flags nonce request : Z) (pl : list Z) : list Z :=
  header_bytes (u32 (48 + Z.of_nat (length pl))) id name flags nonce request ++ pl.

Lemma length_header size id name flags nonce request :
  length (header_bytes size id name flags nonce request) = 48%nat.
Proof. unfold header_bytes. by rewrite !length_app, !length_le_bytes. Qed.

Lemma length_v2 id name flags nonce request pl :
  length (v2_bytes id name flags nonce request pl) = (48 + length pl)%nat.
Proof. unfold v2_bytes. by rewrite length_app, length_header. Qed.

Lemma Message_new_eq a name flags id :
  Message_new a name flags id =
  Some (mkMessage (mkBuf a (v2_bytes id name flags 0 0 [])) []).
Proof.
  unfold Message_new.
  repeat (first [rewrite store_u32_at by (done || (simpl; lia))
                |rewrite store_u64_at by (done || (simpl; lia))];
          cbn [mbind option_bind]).
  reflexivity.
Qed.

Lemma splice_app i l d1 d2 :
  (i + length l <= length d1)%nat → splice i l (d1 ++ d2) = splice i l d1 ++ d2.
Proof.
  intros Hl. unfold splice. rewrite take_app_le, drop_app_le by lia. by rewrite <- !app_assoc.
Qed.

(** ** Accessors and updates *)

Section layout.
Variables (a : Z) (hs : list Z) (id nm fl nonce request : Z) (pl : list Z).
Let m : Message := mkMessage (mkBuf a (v2_bytes id nm fl nonce request pl)) hs.

Lemma load32_v2 k :
  0 <= k → k + 4 <= 48 →
  load_u32 (buffer_ m) (a + k) = Some (word32 (v2_bytes id nm fl nonce request pl) k).
Proof. intros. apply load_u32_at; [done|]. rewrite length_v2. lia. Qed.

Lemma load64_v2 k :
  0 <= k → k + 8 <= 48 →
  load_u64 (buffer_ m) (a + k) = Some (word64 (v2_bytes id nm fl nonce request pl) k).
Proof. intros. apply load_u64_at; [done|]. rewrite length_v2. lia. Qed.

Lemma version_eq : version m = Some 2.
Proof. unfold version, header_u32. simpl buf_addr. by rewrite load32_v2. Qed.

Lemma name_eq : 0 <= nm < 2 ^ 32 → name m = Some nm.
Proof.
  intros. unfold name, header_u32. simpl buf_addr. rewrite load32_v2 by done.
  change (word32 _ name_) with (le_value (le_bytes 4 nm)). by rewrite le_value_bytes.
Qed.

Lemma interface_id_eq : 0 <= id < 2 ^ 32 → interface_id m = Some id.
Proof.
  intros. unfold interface_id, header_u32. simpl buf_addr. rewrite load32_v2 by done.
  change (word32 _ interface_id_) with (le_value (le_bytes 4 id)). by rewrite le_value_bytes.
Qed.

Lemma flags_eq : 0 <= fl < 2 ^ 32 → flags m = Some fl.
Proof.
  intros. unfold flags, header_u32. simpl buf_addr. rewrite load32_v2 by done.
  change (word32 _ flags_) with (le_value (le_bytes 4 fl)). by rewrite le_value_bytes.
Qed.

Lemma request_id_eq : 0 <= request < 2 ^ 64 → request_id m = Some request.
Proof.
  intros. unfold request_id. simpl buf_addr. rewrite load64_v2 by done.
  change (word64 _ request_id_) with (le_value (le_bytes 8 request)). by rewrite le_value_bytes.
Qed.

Lemma set_request_id_eq r :
  set_request_id r m = Some (mkMessage (mkBuf a (v2_bytes id nm fl nonce r pl)) hs).
Proof.
  unfold set_request_id. simpl buf_addr. simpl buffer_. rewrite store_u64_at by (rewrite ?length_v2; unfold request_id_; lia).
  unfold v2_bytes. rewrite splice_app by (rewrite length_header; vm_compute; lia). reflexivity.
Qed.

Lemma set_size size bytes :
  splice 0 (le_bytes 4 size) (v2_bytes id nm fl nonce request pl ++ bytes) =
  header_bytes size id nm fl nonce request ++ pl ++ bytes.
Proof.
  unfold v2_bytes. rewrite <- app_assoc, splice_app by (rewrite length_header, length_le_bytes; lia).
  reflexivity.
Qed.

Lemma WritePayload_eq a' bytes :
  WritePayload a' bytes m = Some (mkMessage (mkBuf a' (v2_bytes id nm fl nonce request (pl ++ bytes))) hs).
Proof.
  unfold WritePayload, m. cbn [buf_bytes buffer_ handles_].
  rewrite store_u32_at by (rewrite ?length_app, ?length_v2; unfold num_bytes; lia).
  cbn [mbind option_bind]. change (Z.to_nat num_bytes) with 0%nat. rewrite set_size.
  unfold buf_size, v2_bytes at 2. cbn [buf_bytes]. rewrite !length_app, length_v2.
  by replace (Z.of_nat (48 + length pl + length bytes))
    with (48 + Z.of_nat (length pl + length bytes)) by lia.
Qed.

Lemma TakeHandles_eq : TakeHandles m = (hs, mkMessage (buffer_ m) []).
Proof. done. Qed.
End layout.

(** ** The payload of a message *)

(** Any header of version 2 whose payload follows it; [mid] is what lies between
    the version and the request id. *)
Definition header_raw (size : Z) (mid : list Z) (request : Z) : list Z :=
  le_bytes 4 size ++ le_bytes 4 2 ++ mid ++ le_bytes 8 request ++
  le_bytes 8 kV2PayloadOffset ++ le_bytes 8 0.

Lemma header_raw_eq size id name flags nonce request :
  header_bytes size id name flags nonce request =
  header_raw size (le_bytes 4 id ++ le_bytes 4 name ++ le_bytes 4 flags ++ le_bytes 4 nonce) request.
Proof. unfold header_bytes, header_raw. by rewrite <- !app_assoc. Qed.

Lemma length_header_raw size mid request :
  length mid = 16%nat → length (header_raw size mid request) = 48%nat.
Proof. intros Hm. unfold header_raw. by rewrite !length_app, !length_le_bytes, Hm. Qed.

Lemma list_length_S {A} (l : list A) n : length l = S n → ∃ x l', l = x :: l' ∧ length l' = n.
Proof. destruct l as [|x l]; [done|]. intros [= <-]. by exists x, l. Qed.

(** A list of known length, element by element. *)
Ltac spell_out l H :=
  repeat match type of H with
  | length l = O => apply length_zero_iff_nil in H; subst l
  | length l = S _ =>
      let x := fresh "x" in let l' := fresh "l" in let E := fresh "E" in
      let H' := fresh "H" in
      destruct (list_length_S _ _ H) as (x & l' & E & H'); subst l; clear H;
      rename l' into l; rename H' into H
  end.

Section payload.
Context `{Platform} {P : PlatformOk}.

Lemma word_pow : 2 ^ 32 <= 2 ^ uintptr_bits <= 2 ^ 64.
Proof using P. destruct uintptr_width as [-> | ->]; lia. Qed.

(** A message as [Message_new] and [WrapWireBytes] make them, whose vector lies in
    the address space. *)
Record wire_message (m : Message) (pl : list Z) : Prop := {
  wm_bytes : ∃ size mid request, length mid = 16%nat ∧
    buf_bytes (buffer_ m) = header_raw size mid request ++ pl;
  wm_addr : 0 < buf_addr (buffer_ m);
  wm_top : buf_addr (buffer_ m) + buf_size (buffer_ m) < 2 ^ uintptr_bits;
  wm_small : Z.of_nat (length pl) < 2 ^ 32
}.

Lemma wire_size m pl : wire_message m pl → buf_size (buffer_ m) = 48 + Z.of_nat (length pl).
Proof.
  intros [(size & mid & request & Hm & Hb) _ _ _]. unfold buf_size.
  rewrite Hb, length_app, length_header_raw by done. lia.
Qed.

Lemma wire_payload m pl : wire_message m pl → payload m = Some (buf_addr (buffer_ m) + 48).
Proof using P.
  intros Hw. pose proof (wire_size _ _ Hw) as Hs. pose proof word_pow.
  destruct Hw as [(size & mid & request & Hm & Hb) Ha Ht Hl].
  unfold payload. rewrite (proj2 (Z.eqb_neq _ _)) by lia.
  unfold version, header_u32. destruct (buffer_ m) as [a d]. cbn [buf_addr buf_bytes] in *.
  unfold buf_size in *. cbn [buf_bytes] in *. subst d.
  rewrite load_u32_at, load_u64_at by (rewrite ?length_app, ?length_header_raw by done; unfold version_, payload_; lia).
  spell_out mid Hm.
  change (word32 _ version_) with (le_value (le_bytes 4 2)).
  change (word64 _ payload_) with (le_value (le_bytes 8 kV2PayloadOffset)).
  rewrite !le_value_bytes by done. cbn [mbind option_bind].
  change (2 <? 2) with false. change (kV2PayloadOffset =? 0) with false. cbv iota.
  unfold payload_, kV2PayloadOffset, sizeof_MessageHeaderV2, sizeof_MessageHeaderV1.
  rewrite uw_small by lia. f_equal. lia.
Qed.

Lemma wire_num_bytes m pl :
  wire_message m pl → payload_num_bytes m = Some (Z.of_nat (length pl)).
Proof using P.
  intros Hw. pose proof (wire_size _ _ Hw) as Hs. unfold payload_num_bytes.
  rewrite (proj2 (Z.eqb_neq _ _)) by lia. rewrite (wire_payload _ _ Hw). cbn [mbind option_bind].
  f_equal. rewrite u32_small; [lia|]. destruct Hw. lia.
Qed.

(** A load inside the payload. *)
Lemma wire_load m pl o n :
  wire_message m pl → 0 <= o → 0 <= n → o + n <= Z.of_nat (length pl) →
  load (buffer_ m) (buf_addr (buffer_ m) + 48 + o) n =
  Some (take (Z.to_nat n) (drop (Z.to_nat o) pl)).
Proof.
  intros [(size & mid & request & Hm & Hb) _ _ _] Ho Hn Hl.
  destruct (buffer_ m) as [a d]. cbn [buf_addr buf_bytes] in *. subst d.
  replace (a + 48 + o) with (a + (48 + o)) by lia.
  rewrite load_at by (rewrite ?length_app, ?length_header_raw by done; lia).
  rewrite drop_app_ge by (rewrite length_header_raw by done; lia).
  rewrite length_header_raw by done. do 3 f_equal. lia.
Qed.

(** ** Readers *)

Lemma ReadScalar_eq n m pl o :
  wire_message m pl → 0 <= o → o + Z.of_nat n < 2 ^ uintptr_bits →
  ReadScalar n m o =
  if Z.of_nat (length pl) <? o + Z.of_nat n then Some None
  else Some (Some (le_value (take n (drop (Z.to_nat o) pl)), o + Z.of_nat n)).
Proof using P.
  intros Hw Ho Hn. unfold ReadScalar. rewrite (wire_payload _ _ Hw), (wire_num_bytes _ _ Hw).
  cbn [mbind option_bind]. rewrite !uw_small by lia.
  destruct (_ <? _) eqn:E; zbool; [done|].
  rewrite (wire_load _ _ _ _ Hw) by lia. cbn [mbind option_bind]. by rewrite Nat2Z.id.
Qed.

Lemma ReadString_eq m pl o :
  wire_message m pl → 0 <= o <= Z.of_nat (length pl) → Forall byte_ok pl →
  uintptr_bits = 64 →
  ReadString m o =
  if Z.of_nat (length pl) <? o + 4 then Some None
  else
    let len := le_value (take 4 (drop (Z.to_nat o) pl)) in
    if Z.of_nat (length pl) <? o + 4 + len then Some None
    else Some (Some (take (Z.to_nat len) (drop (Z.to_nat (o + 4)) pl), o + 4 + len)).
Proof using P.
  intros Hw Ho Hok H64. pose proof (wm_small _ _ Hw). unfold ReadString.
  assert (o + Z.of_nat 4 < 2 ^ uintptr_bits) by (rewrite H64; lia).
  rewrite (ReadScalar_eq 4 m pl o Hw) by lia. change (Z.of_nat 4) with 4.
  destruct (_ <? o + 4) eqn:E; zbool; cbn [mbind option_bind]; [done|].
  pose proof (word32_range pl o Hok) as Hr. unfold word32 in Hr. cbv zeta.
  rewrite (wire_num_bytes _ _ Hw). cbn [mbind option_bind]. rewrite !uw_small by (rewrite H64; lia).
  destruct (_ <? _) eqn:E2; zbool; [done|].
  rewrite (wire_payload _ _ Hw). cbn [mbind option_bind].
  rewrite (wire_load _ _ _ _ Hw) by lia. done.
Qed.
End payload.

(** ** Wrapping bytes from the pipe *)

(** The header that [WrapWireBytes] makes. *)
Lemma stores_header a h request :
  length h = 24%nat →
  (b ← store a h (mkBuf a (replicate (Z.to_nat sizeof_MessageHeaderV2) 0));
   b ← store_u32 (a + version_) 2 b;
   b ← store_u64 (a + request_id_) request b;
   b ← store_u64 (a + payload_) kV2PayloadOffset b;
   store_u64 (a + payload_interface_ids_) 0 b) =
  Some (mkBuf a (take 4 h ++ le_bytes 4 2 ++ drop 8 h ++ le_bytes 8 request ++
    le_bytes 8 kV2PayloadOffset ++ le_bytes 8 0)).
Proof.
  intros Hh. rewrite <- (Z.add_0_r a) at 1. rewrite store_at by (rewrite ?Hh; simpl; lia).
  spell_out h Hh. cbn [mbind option_bind].
  repeat (first [rewrite store_u32_at by (done || (simpl; lia))
                |rewrite store_u64_at by (done || (simpl; lia))];
          cbn [mbind option_bind]).
  reflexivity.
Qed.
Section wrap.
Context `{Platform} {P : PlatformOk}.
Variables (ab : Z) (d : list Z).
Let bytes : Buf := mkBuf ab d.
Let size : Z := Z.of_nat (length d).

(** The vector read from the pipe lies in the address space, and its size in a
    [uint32_t], as the kernel's sizes do. *)
Definition read_buffer : Prop := 0 < ab ∧ ab + size < 2 ^ uintptr_bits ∧ size < 2 ^ 32.

Lemma incoming_spec :
  read_buffer →
  incoming bytes = Some None ∨
  ∃ v p n, incoming bytes = Some (Some (v, p, n)) ∧ 24 <= size ∧ (1 <= v → 32 <= size) ∧
    ab <= p ∧ 0 <= n ∧ p + n = ab + size.
Proof.
  intros (Ha & Ht & Hs). unfold incoming. change (buf_size bytes) with size. unfold bytes. cbn [buf_addr].
  unfold sizeof_MessageHeader. destruct (size <? 24) eqn:E1; zbool; [by left|].
  rewrite load_u32_at by (unfold version_; lia). cbn [mbind option_bind].
  set (v := word32 d version_). destruct (2 <? v) eqn:E2; zbool; [by left|].
  unfold HeaderSizeForVersion, sizeof_MessageHeader, sizeof_MessageHeaderV1, sizeof_MessageHeaderV2.
  set (hdr := if v =? 0 then 24 else if v =? 1 then 32 else 48).
  assert (24 <= hdr <= 48 ∧ (1 <= v → 32 <= hdr) ∧ (v = 2 → hdr = 48)) as (Hh & Hv1 & Hv2).
  { subst hdr. destruct (v =? 0) eqn:E3, (v =? 1) eqn:E4; zbool; lia. }
  clearbody hdr. destruct (size <? hdr) eqn:E3; zbool; [by left|].
  assert (∃ v0 p n, Some (Some (v, ab + hdr, u32 (size - hdr))) = Some (Some (v0, p, n)) ∧
    24 <= size ∧ (1 <= v0 → 32 <= size) ∧ ab <= p ∧ 0 <= n ∧ p + n = ab + size) as Hwhole.
  { exists v, (ab + hdr), (size - hdr). rewrite u32_small by lia. split; [done|]. lia. }
  destruct (v <? 2) eqn:E4; zbool; [by right|].
  assert (hdr = 48) by (apply Hv2; lia).
  rewrite load_u64_at by (unfold payload_; lia). cbn [mbind option_bind].
  destruct (_ =? 0); [by right|]. set (p := uw _).
  destruct (_ || _) eqn:E5; [by left|]. zbool. right.
  exists v, p, (ab + size - p). rewrite u32_small by lia. split; [done|]. lia.
Qed.

(** The message that bytes with an acceptable header become, if the stale pointer
    still points to the vector. *)
Definition wrapped (a p request : Z) (hs : list Z) : Message :=
  let pl := drop (Z.to_nat (p - ab)) d in
  mkMessage (mkBuf a
    (header_raw (u32 (48 + Z.of_nat (length pl))) (take 16 (drop 8 d)) request ++ pl)) hs.

Lemma WrapWireBytes_eq a capacity a' hs v p n :
  read_buffer → incoming bytes = Some (Some (v, p, n)) →
  ∃ request, WrapWireBytes a capacity a' bytes hs =
    (b ← store_u32 a (u32 (48 + n)) (mkBuf (if capacity <? 48 + n then a' else a)
      (take 4 d ++ le_bytes 4 2 ++ take 16 (drop 8 d) ++ le_bytes 8 request ++
       le_bytes 8 kV2PayloadOffset ++ le_bytes 8 0 ++ drop (Z.to_nat (p - ab)) d));
     Some (mkMessage b hs)) ∧
    n = Z.of_nat (length (drop (Z.to_nat (p - ab)) d)) ∧ (24 <= length d)%nat ∧
    request = if 1 <=? v then word64 d request_id_ else 0.
Proof.
  intros Hrb Hin. destruct (incoming_spec Hrb) as [?|(v' & p' & n' & E & H24 & H32 & Hp & Hn & Hpn)];
    [congruence|]. rewrite Hin in E. injection E as <- <- <-.
  assert (size = Z.of_nat (length d)) as Hsize by done.
  set (request := if 1 <=? v then word64 d request_id_ else 0). exists request.
  unfold WrapWireBytes. rewrite Hin. cbn [mbind option_bind]. unfold bytes. cbn [buf_addr].
  assert (load (mkBuf ab d) ab sizeof_MessageHeader = Some (take 24 d)) as Hld.
  { pose proof (load_at ab d 0 24) as L. rewrite Z.add_0_r in L. apply L; lia. }
  rewrite Hld. cbn [mbind option_bind].
  assert ((if 1 <=? v then load_u64 (mkBuf ab d) (ab + request_id_) else Some 0) = Some request) as Hreq.
  { unfold request. destruct (1 <=? v) eqn:E; zbool; [|done].
    apply load_u64_at; unfold request_id_; [lia|]. specialize (H32 E). lia. }
  rewrite Hreq.
  assert (length (take 24 d) = 24%nat) as Hl24 by (rewrite length_take; lia).
  pose proof (stores_header a (take 24 d) request Hl24) as Hst.
  destruct (store a (take 24 d) _) as [b1|]; [|done]. cbn [mbind option_bind] in *.
  destruct (store_u32 (a + version_) 2 b1) as [b2|]; [|done]. cbn [mbind option_bind] in *.
  destruct (store_u64 (a + request_id_) request b2) as [b3|]; [|done]. cbn [mbind option_bind] in *.
  destruct (store_u64 (a + payload_) kV2PayloadOffset b3) as [b4|]; [|done]. cbn [mbind option_bind] in *.
  rewrite Hst. cbn [mbind option_bind].
  replace p with (ab + (p - ab)) at 1 by lia. rewrite load_at by lia. cbn [mbind option_bind].
  assert (take (Z.to_nat n) (drop (Z.to_nat (p - ab)) d) = drop (Z.to_nat (p - ab)) d) as Htk
    by (apply take_ge; rewrite length_drop; lia).
  rewrite Htk. rewrite take_take, skipn_firstn_comm. change (min 4 24) with 4%nat. change (24 - 8)%nat with 16%nat.
  assert (Z.of_nat (length (drop (Z.to_nat (p - ab)) d)) = n) as Hn' by (rewrite length_drop; lia).
  split; [|split; [done|split; [lia|done]]].
  unfold buf_size. cbn [buf_bytes]. unfold num_bytes. rewrite Z.add_0_r.
  rewrite !length_app, !length_le_bytes, !length_take, length_drop.
  replace (Z.of_nat _ + n) with (48 + n) by lia.
  replace (Z.of_nat _) with (48 + n) by lia.
  by rewrite <- !app_assoc.
Qed.
End wrap.

Section wrap_results.
Context `{Platform} {P : PlatformOk}.

(** What [WrapWireBytes] answers while the vector stays where [resize] made it. *)
Lemma WrapWireBytes_stays a capacity a' ab d hs v p n :
  read_buffer ab d → incoming (mkBuf ab d) = Some (Some (v, p, n)) → 48 + n <= capacity →
  ∃ request pl, pl = drop (Z.to_nat (p - ab)) d ∧ n = Z.of_nat (length pl) ∧
    request = (if 1 <=? v then word64 d request_id_ else 0) ∧
    WrapWireBytes a capacity a' (mkBuf ab d) hs =
    Some (mkMessage (mkBuf a (header_raw (u32 (48 + n)) (take 16 (drop 8 d)) request ++ pl)) hs).
Proof using P.
  intros Hrb Hin Hcap.
  destruct (WrapWireBytes_eq ab d a capacity a' hs v p n Hrb Hin) as (request & Heq & Hn & Hd & Hreq).
  exists request, (drop (Z.to_nat (p - ab)) d). split_and!; [done..|].
  rewrite Heq. assert ((capacity <? 48 + n) = false) as -> by lia.
  replace a with (a + 0) at 1 by lia.
  rewrite store_u32_at by (rewrite ?length_app, ?length_take, ?length_le_bytes; lia).
  cbn [mbind option_bind]. do 3 f_equal. change (Z.to_nat 0) with 0%nat.
  assert (length (take 4 d) = 4%nat) as H4 by (rewrite length_take; lia).
  unfold splice, header_raw. rewrite length_le_bytes. change (0 + 4)%nat with 4%nat.
  rewrite take_0, drop_app_ge, H4 by (rewrite H4; lia). rewrite Nat.sub_diag, drop_0.
  rewrite <- !app_assoc. done.
Qed.

(** And when [insert] has to move it: [out] still points at the old one. *)
Lemma WrapWireBytes_moves a capacity a' ab d hs v p n :
  read_buffer ab d → incoming (mkBuf ab d) = Some (Some (v, p, n)) →
  capacity < 48 + n → a + 48 <= a' ∨ a' + 48 + n <= a →
  WrapWireBytes a capacity a' (mkBuf ab d) hs = None.
Proof using P.
  intros Hin Hacc Hcap Hdisj.
  destruct (WrapWireBytes_eq ab d a capacity a' hs v p n Hin Hacc) as (r & -> & Hl & Hd & _).
  assert ((capacity <? 48 + n) = true) as -> by lia. unfold store_u32, store, in_buf, buf_size.
  cbn [buf_addr buf_bytes]. rewrite !length_app, !length_le_bytes, !length_take, !length_drop in *.
  destruct (_ && _ && _) eqn:E; [|done]. exfalso. zbool. lia.
Qed.

(** The message that was sent, read back. *)
Lemma incoming_v2 ab id nm fl nonce request pl :
  let d := v2_bytes id nm fl nonce request pl in
  read_buffer ab d → incoming (mkBuf ab d) = Some (Some (2, ab + 48, Z.of_nat (length pl))).
Proof using P.
  intros d (Ha & Ht & Hs). unfold d in *. rewrite length_v2 in *. pose proof word_pow.
  unfold incoming, buf_size, sizeof_MessageHeader. cbn [buf_addr buf_bytes]. rewrite length_v2.
  assert ((Z.of_nat (48 + length pl) <? 24) = false) as -> by (apply Z.ltb_ge; lia).
  rewrite load_u32_at by (rewrite ?length_v2; unfold version_; lia).
  change (word32 _ version_) with (le_value (le_bytes 4 2)).
  rewrite le_value_bytes by done. cbn [mbind option_bind].
  unfold HeaderSizeForVersion, sizeof_MessageHeader, sizeof_MessageHeaderV1, sizeof_MessageHeaderV2.
  change (2 <? 2) with false. change (2 =? 0) with false. change (2 =? 1) with false. cbv iota.
  assert ((Z.of_nat (48 + length pl) <? 48) = false) as -> by (apply Z.ltb_ge; lia).
  rewrite load_u64_at by (rewrite ?length_v2; unfold payload_; lia).
  change (word64 _ payload_) with (le_value (le_bytes 8 kV2PayloadOffset)).
  rewrite le_value_bytes by done. cbn [mbind option_bind].
  change (kV2PayloadOffset =? 0) with false. cbv iota. cbv zeta.
  unfold payload_, kV2PayloadOffset, sizeof_MessageHeaderV2, sizeof_MessageHeaderV1.
  rewrite uw_small by lia.
  assert ((ab + 32 + (48 - 32) <? ab) = false) as -> by (apply Z.ltb_ge; lia).
  assert ((ab + Z.of_nat (48 + length pl) <? ab + 32 + (48 - 32)) = false) as -> by (apply Z.ltb_ge; lia).
  cbn [orb]. rewrite u32_small by lia. do 3 f_equal; [f_equal|]; lia.
Qed.

(** C22: what one side's bindings send comes out of the other side's [WrapWireBytes]
    exactly if the vector of the new message does not move.  Bytes of a version 2 message
    read from the pipe become the same bytes in a vector of the message's own, with the
    handles that came with them, when the capacity that [resize] left is enough for header
    and payload.  Otherwise [insert] moves the vector, and the call has no defined outcome:
    the size is written through the pointer taken before.  [resize] promises room for the
    header only, so every message with a payload depends on what the allocator adds. *)
Theorem wrap_roundtrip a capacity a' ab hs id nm fl nonce request pl
    (Hin : read_buffer ab (v2_bytes id nm fl nonce request pl))
    (Hr : 0 <= request < 2 ^ 64) (Hcap : 48 <= capacity)
    (Hdisj : a + 48 <= a' \/ a' + 48 + Z.of_nat (length pl) <= a) :
  WrapWireBytes a capacity a' (mkBuf ab (v2_bytes id nm fl nonce request pl)) hs =
  if bool_decide (48 + Z.of_nat (length pl) <= capacity)
  then Some (mkMessage (mkBuf a (v2_bytes id nm fl nonce request pl)) hs)
  else None.
Proof using P.
  pose proof (incoming_v2 _ _ _ _ _ _ _ Hin) as Hacc.
  case_bool_decide as Hc; [|apply (WrapWireBytes_moves a capacity a' ab _ hs _ _ _ Hin Hacc); lia].
  destruct (WrapWireBytes_stays a capacity a' ab _ hs _ _ _ Hin Hacc Hc) as (r & pl' & -> & Hn & -> & ->).
  do 3 f_equal. replace (Z.to_nat (ab + 48 - ab)) with 48%nat by lia.
  change (1 <=? 2) with true. cbv iota.
  change (word64 (v2_bytes id nm fl nonce request pl) request_id_) with (le_value (le_bytes 8 request)).
  rewrite le_value_bytes by done. reflexivity.
Qed.

(** Any bytes at all, from a peer that sends what it likes, are a null message
    or one whose header has been normalised to version 2 and whose payload is a
    suffix of the bytes received; nothing is read outside them.  Provided, again,
    that the vector has room: here for anything as large as the bytes. *)
Theorem wrap_is_safe a capacity a' ab d hs
    (Hin : read_buffer ab d) (Ha : 0 < a) (Ht : a + 48 + Z.of_nat (length d) < 2 ^ uintptr_bits)
    (Hcap : 48 + Z.of_nat (length d) <= capacity) :
  ∃ m, WrapWireBytes a capacity a' (mkBuf ab d) hs = Some m ∧
    (m = null_message ∨
     ∃ pl, suffix pl d ∧ wire_message m pl ∧ handles_ m = hs ∧ version m = Some 2 ∧
       payload m = Some (a + 48) ∧ payload_num_bytes m = Some (Z.of_nat (length pl))).
Proof using P.
  destruct (incoming_spec ab d Hin) as [E|(v & p & n & E & H24 & Hv & Hp & Hn & Hpn)].
  { exists null_message. split; [|by left]. unfold WrapWireBytes. by rewrite E. }
  destruct (WrapWireBytes_stays a capacity a' ab d hs v p n Hin E) as (r & pl & Hpl & Hl & _ & ->); [lia|].
  set (mid := take 16 (drop 8 d)).
  assert (length mid = 16%nat) as Hmid by (unfold mid; rewrite length_take, length_drop; lia).
  eexists. split; [done|]. right. exists pl.
  assert (suffix pl d) as Hsuf by (rewrite Hpl; apply suffix_drop).
  set (m := mkMessage _ _).
  assert (wire_message m pl) as Hw.
  { split; [by exists (u32 (48 + n)), mid, r|done| |destruct Hin; lia].
    unfold m, buf_size. cbn [buffer_ buf_addr buf_bytes].
    rewrite length_app, length_header_raw by done. lia. }
  split_and!; [done|done|done| |exact (wire_payload _ _ Hw)|exact (wire_num_bytes _ _ Hw)].
  unfold version, header_u32, m. cbn [buffer_ buf_addr].
  rewrite load_u32_at by (rewrite ?length_app, ?length_header_raw by done; unfold version_; lia).
  clearbody mid. clear -Hmid. spell_out mid Hmid.
  change (word32 _ version_) with (le_value (le_bytes 4 2)). by rewrite le_value_bytes.
Qed.

(** With the room that [resize] promises, that of the header, the write of
    [out->num_bytes] goes to memory that the vector no longer owns, for every accepted
    message with a payload. *)
Theorem wrap_writes_stale a a' ab d hs v p n
    (Hin : read_buffer ab d) (Hacc : incoming (mkBuf ab d) = Some (Some (v, p, n)))
    (Hn : 0 < n) (Hdisj : a + 48 <= a' \/ a' + 48 + n <= a) :
  WrapWireBytes a sizeof_MessageHeaderV2 a' (mkBuf ab d) hs = None.
Proof using P.
  apply (WrapWireBytes_moves a sizeof_MessageHeaderV2 a' ab d hs v p n Hin Hacc); unfold sizeof_MessageHeaderV2; lia.
Qed.
End wrap_results.

(** ** Reading fields *)

Section fields.
Context `{Platform} {P : PlatformOk}.

(** On a 64-bit host no string field can make its reader leave the message:
    whatever the length it announces, [ReadString] answers false or a substring of
    the payload that starts after the length word. *)
Theorem ReadString_inside m pl o
    (Hw : wire_message m pl) (Ho : 0 <= o <= Z.of_nat (length pl))
    (Hok : Forall byte_ok pl) (H64 : uintptr_bits = 64) :
  ∃ r, ReadString m o = Some r ∧
    match r with
    | None => Z.of_nat (length pl) < o + 4 + word32 pl o
    | Some (s, o') => o + 4 <= o' <= Z.of_nat (length pl) ∧ o' - (o + 4) = word32 pl o ∧
        s = take (Z.to_nat (o' - (o + 4))) (drop (Z.to_nat (o + 4)) pl)
    end.
Proof using P.
  rewrite (ReadString_eq m pl o Hw Ho Hok H64). pose proof (word32_range pl o Hok) as Hr.
  destruct (_ <? o + 4) eqn:E; zbool; [exists None; split; [done|lia]|].
  change (le_value (take 4 (drop (Z.to_nat o) pl))) with (word32 pl o). cbv zeta.
  destruct (_ <? _) eqn:E2; zbool; [exists None; by split; [|lia]|].
  eexists. split; [done|]. cbn. split; [lia|]. split; [lia|].
  by replace (o + 4 + word32 pl o - (o + 4)) with (word32 pl o) by lia.
Qed.

(** On a 32-bit host (the wasm32 targets) the check [*offset + len > avail] is
    computed in a 32-bit [size_t]: a length word that makes it wrap below the size
    of the payload passes, and the string is then taken from bytes beyond the end
    of the message. *)
Theorem ReadString_wraps m pl o
    (Hw : wire_message m pl) (Ho : 0 <= o) (Ho4 : o + 4 <= Z.of_nat (length pl))
    (Hok : Forall byte_ok pl) (H32 : uintptr_bits = 32)
    (Hwrap : 2 ^ 32 <= o + 4 + word32 pl o) :
  ReadString m o = None.
Proof using P.
  pose proof (wire_size _ _ Hw) as Hs. pose proof (word32_range pl o Hok) as Hr.
  pose proof (wm_top _ _ Hw) as Ht. pose proof (wm_addr _ _ Hw) as Ha. rewrite H32 in Ht.
  unfold ReadString. rewrite (ReadScalar_eq 4 m pl o Hw) by (rewrite ?H32; lia).
  change (Z.of_nat 4) with 4. assert ((Z.of_nat (length pl) <? o + 4) = false) as -> by (apply Z.ltb_ge; lia).
  cbn [mbind option_bind]. rewrite (wire_num_bytes _ _ Hw). cbn [mbind option_bind].
  change (le_value (take 4 (drop (Z.to_nat o) pl))) with (word32 pl o).
  set (len := word32 pl o) in *.
  assert (uw (o + 4 + len) = o + 4 + len - 2 ^ 32) as ->.
  { unfold uw. rewrite H32. replace (o + 4 + len) with (o + 4 + len - 2 ^ 32 + 1 * 2 ^ 32) at 1 by lia.
    rewrite Z.mod_add by lia. apply Z.mod_small. lia. }
  destruct (_ <? _) eqn:E; zbool; [exfalso; lia|].
  rewrite (wire_payload _ _ Hw). cbn [mbind option_bind]. unfold load.
  destruct (in_buf _ _ _) eqn:Ein; [|done]. exfalso. unfold in_buf in Ein. zbool. lia.
Qed.

(** A string appended to a message is read back at the offset where the payload
    ended, with the offset of what is appended next, and everything before it is
    unchanged. *)
Theorem field_roundtrip a a1 a2 hs id nm fl nonce request pl s
    (Ha : 0 < a2) (Hs : Forall byte_ok s)
    (Hpl : Forall byte_ok pl) (Ha1 : 0 < a1) (H64 : uintptr_bits = 64)
    (Ht1 : a1 < 2 ^ 62) (Ht2 : a2 < 2 ^ 62)
    (Hlen : Z.of_nat (length pl) + 4 + Z.of_nat (length s) < 2 ^ 32) :
  ∃ m, WriteString a1 a2 s (mkMessage (mkBuf a (v2_bytes id nm fl nonce request pl)) hs) = Some m ∧
    wire_message m (pl ++ le_bytes 4 (Z.of_nat (length s)) ++ s) ∧ handles_ m = hs ∧
    ReadString m (Z.of_nat (length pl)) = Some (Some (s, Z.of_nat (length pl) + 4 + Z.of_nat (length s))).
Proof using P.
  set (pl' := pl ++ le_bytes 4 (Z.of_nat (length s)) ++ s).
  set (at2 := match s with [] => a1 | _ => a2 end).
  assert (WriteString a1 a2 s (mkMessage (mkBuf a (v2_bytes id nm fl nonce request pl)) hs) =
    Some (mkMessage (mkBuf at2 (v2_bytes id nm fl nonce request pl')) hs)) as ->.
  { unfold WriteString, WriteScalar. rewrite WritePayload_eq. cbn [mbind option_bind].
    rewrite u32_small by lia. unfold pl', at2. destruct s; [by rewrite app_nil_r|].
    by rewrite WritePayload_eq, <- app_assoc. }
  eexists. split; [done|].
  assert (length pl' = (length pl + 4 + length s)%nat) as Hl
    by (unfold pl'; rewrite !length_app, length_le_bytes; lia).
  assert (0 < at2 < 2 ^ 62) as Hat by (unfold at2; destruct s; lia).
  assert (wire_message (mkMessage (mkBuf at2 (v2_bytes id nm fl nonce request pl')) hs) pl') as Hw.
  { split; cbn [buffer_ buf_addr buf_bytes]; [|lia| |lia].
    - unfold v2_bytes. rewrite header_raw_eq. eexists _, _, _. split; [|done].
      by rewrite !length_app, !length_le_bytes.
    - unfold buf_size. cbn [buf_bytes]. rewrite length_v2, H64. lia. }
  split; [done|]. split; [done|].
  assert (Forall byte_ok pl') as Hok' by (unfold pl'; rewrite !Forall_app; split_and!; auto using le_bytes_ok).
  rewrite (ReadString_eq _ _ _ Hw) by (done || lia).
  assert (drop (Z.to_nat (Z.of_nat (length pl))) pl' = le_bytes 4 (Z.of_nat (length s)) ++ s) as ->
    by (rewrite Nat2Z.id; unfold pl'; by rewrite drop_app_length).
  assert (le_value (take 4 (le_bytes 4 (Z.of_nat (length s)) ++ s)) = Z.of_nat (length s)) as ->.
  { rewrite take_app_le by (rewrite length_le_bytes; lia).
    rewrite take_ge by (rewrite length_le_bytes; lia). apply le_value_bytes. lia. }
  cbv zeta. rewrite !(proj2 (Z.ltb_ge _ _)) by lia. do 3 f_equal.
  replace (Z.to_nat (Z.of_nat (length pl) + 4)) with (length pl + 4)%nat by lia.
  rewrite Nat2Z.id. unfold pl'. rewrite <- drop_drop, drop_app_length.
  rewrite drop_app_ge by (rewrite length_le_bytes; lia). rewrite length_le_bytes, Nat.sub_diag.
  rewrite drop_0. by apply take_ge.
Qed.
End fields.

(** ** The theorems at work *)

#[local] Instance linux64 : Platform := mkPlatform 64 false.
#[local] Instance linux64_ok : PlatformOk.
Proof. by right. Qed.
#[local] Instance wasm32 : Platform := mkPlatform 32 false.
#[local] Instance wasm32_ok : PlatformOk.
Proof. by left. Qed.

(** A request 7 of interface 3 with the payload [1; 0; 0; 0]. *)
Definition a_message : list Z := v2_bytes 3 7 kFlagExpectsResponse 0 9 [1; 0; 0; 0].

(** With room for 64 bytes the message comes through, with room for 48 it does not. *)
Lemma wrap_roundtrip_witness :
  read_buffer (H := linux64) 4096 a_message ∧
  WrapWireBytes (H := linux64) 8192 64 9000 (mkBuf 4096 a_message) [5] =
    Some (mkMessage (mkBuf 8192 a_message) [5]) ∧
  WrapWireBytes (H := linux64) 8192 48 9000 (mkBuf 4096 a_message) [5] = None.
Proof.
  assert (read_buffer (H := linux64) 4096 a_message) as Hin by done.
  split; [exact Hin|]. split.
  - apply (wrap_roundtrip (H := linux64) 8192 64 9000 4096 [5] 3 7 kFlagExpectsResponse 0 9 [1; 0; 0; 0] Hin);
      [lia|lia|left; lia].
  - apply (wrap_roundtrip (H := linux64) 8192 48 9000 4096 [5] 3 7 kFlagExpectsResponse 0 9 [1; 0; 0; 0] Hin);
      [lia|lia|left; lia].
Defined.

Lemma wrap_is_safe_witness :
  ∃ m, WrapWireBytes (H := linux64) 8192 100 9000 (mkBuf 4096 a_message) [5] = Some m ∧
    (m = null_message ∨
     ∃ pl, suffix pl a_message ∧ wire_message (H := linux64) m pl ∧ handles_ m = [5] ∧ version m = Some 2 ∧
       payload (H := linux64) m = Some (8192 + 48) ∧
       payload_num_bytes (H := linux64) m = Some (Z.of_nat (length pl))).
Proof.
  apply (wrap_is_safe (H := linux64) (P := linux64_ok) 8192 100 9000 4096 a_message [5]); done.
Defined.

Lemma a_message_accepted :
  incoming (H := linux64) (mkBuf 4096 a_message) = Some (Some (2, 4144, 4)).
Proof. reflexivity. Qed.

Lemma wrap_writes_stale_witness :
  WrapWireBytes (H := linux64) 8192 sizeof_MessageHeaderV2 9000 (mkBuf 4096 a_message) [5] = None.
Proof.
  apply (wrap_writes_stale (H := linux64) (P := linux64_ok) 8192 9000 4096 a_message [5] 2 4144 4);
    [done|exact a_message_accepted|done|left; done].
Defined.

(** A string field that announces 4294967292 bytes, at the end of the payload. *)
Definition long_string : Message :=
  mkMessage (mkBuf 8192 (v2_bytes 3 7 0 0 0 [252; 255; 255; 255])) [].

Lemma long_string_wire : wire_message (H := wasm32) long_string [252; 255; 255; 255].
Proof.
  split; [|by vm_compute|by vm_compute|by vm_compute]. unfold long_string, v2_bytes. rewrite header_raw_eq.
  eexists _, _, _. by split; [|done].
Qed.

Lemma ReadString_wraps_witness : ReadString (H := wasm32) long_string 0 = None.
Proof.
  apply (ReadString_wraps (H := wasm32) (P := wasm32_ok) long_string [252; 255; 255; 255] 0);
    [exact long_string_wire|done|done|by repeat constructor|done|done].
Defined.

(** The same field on a 64-bit host is refused. *)
Example long_string_64 : ReadString (H := linux64) long_string 0 = Some None.
Proof. reflexivity. Qed.
