(* ===== verification/GcSpace.v ===== *)
(** * The collected heap's memory: headers and free list

    [WASMv8bindings/src/heap/internal]: [heap-object-header.h] over
    [src/base/bit-field.h], [free-list.{h,cc}] over [src/base/bits.h].

    The memory of the heap is what the heap itself keeps there: a header of two
    16-bit halves at the address of an object or free entry ([headers]), and the
    [next_] of a free entry ([nexts], by the entry's address).  Reading an address
    where neither was written is undefined behaviour, as is a failed [DCHECK]. *)
From Stdlib Require Import ZArith Lia.
From stdpp Require Import base list gmap.
From S2P Require Import Prelude Sandbox.

(** ** [src/base] *)

(** [BitField16<T, shift, size>]. *)
Record BitField16 := mkBitField16 { kShift : Z; kSize : Z }.

Definition kMax (f : BitField16) : Z := u16 (2 ^ kSize f - 1).
Definition kMask (f : BitField16) : Z := u16 (Z.shiftl (kMax f) (kShift f)).
Definition encode (f : BitField16) (value : Z) : Z :=
  u16 (Z.shiftl (Z.land (u16 value) (kMax f)) (kShift f)).
Definition decode (f : BitField16) (storage : Z) : Z :=
  Z.land (Z.shiftr storage (kShift f)) (kMax f).

(** [BitField::Next<U, size>]. *)
Definition Next (f : BitField16) (size : Z) : BitField16 :=
  mkBitField16 (kShift f + kSize f) size.

Definition RoundDownToPowerOfTwo32 (value : Z) : Z :=
  if value =? 0 then 0
  else
    let result := value in
    let result := Z.lor result (Z.shiftr result 1) in
    let result := Z.lor result (Z.shiftr result 2) in
    let result := Z.lor result (Z.shiftr result 4) in
    let result := Z.lor result (Z.shiftr result 8) in
    let result := Z.lor result (Z.shiftr result 16) in
    u32 (result - Z.shiftr result 1).

(** [31 - __builtin_clz(value)], which is undefined for 0. *)
Definition WhichPowerOfTwo (value : Z) : option Z :=
  if value =? 0 then None else Some (Z.log2 value).

(** ** [HeapObjectHeader] *)

Section header.
Context `{Platform}.

Definition kAllocationGranularity : Z := uintptr_bits / 8.
Definition sizeof_HeapObjectHeader : Z := kAllocationGranularity.
Definition kPageSizeLog2 : Z := 17.
Definition kPageSize : Z := Z.shiftl 1 kPageSizeLog2.
Definition kLargeObjectSizeThreshold : Z := kPageSize / 2.
Definition kFreeListGCInfoIndex : Z := 0.
Definition kFreeListEntrySize : Z := 2 * (uintptr_bits / 8).
Definition kMaxGCInfoIndex : Z := Z.shiftl 1 14.
Definition kMaxSize : Z := Z.shiftl 1 17 - 1.
Definition kLargeObjectSizeInHeader : Z := 0.

Record HeapObjectHeader := mkHeader { encoded_high_ : Z; encoded_low_ : Z }.

Definition GCInfoIndexField : BitField16 := mkBitField16 0 14.
Definition UnusedField1 : BitField16 := Next GCInfoIndexField 1.
Definition FullyConstructedField : BitField16 := Next UnusedField1 1.
Definition MarkBitField : BitField16 := mkBitField16 0 1.
Definition SizeField : BitField16 := Next MarkBitField 15.

Definition DecodeSize (encoded : Z) : Z := decode SizeField encoded * kAllocationGranularity.
Definition EncodeSize (size : Z) : Z := encode SizeField (size / kAllocationGranularity).

(** [StoreEncoded] on the half it is given. *)
Definition StoreEncoded (half bits mask : Z) : Z :=
  Z.lor (Z.land half (u16 (Z.lnot mask))) bits.

Definition GetGCInfoIndex (h : HeapObjectHeader) : Z := decode GCInfoIndexField (encoded_high_ h).
Definition AllocatedSize (h : HeapObjectHeader) : Z := DecodeSize (encoded_low_ h).
Definition IsLargeObject (h : HeapObjectHeader) : bool :=
  AllocatedSize h =? kLargeObjectSizeInHeader.
Definition ObjectSize (h : HeapObjectHeader) : Z := AllocatedSize h - sizeof_HeapObjectHeader.
Definition IsInConstruction (h : HeapObjectHeader) : bool :=
  decode FullyConstructedField (encoded_high_ h) =? 0.
Definition MarkAsFullyConstructed (h : HeapObjectHeader) : HeapObjectHeader :=
  mkHeader (StoreEncoded (encoded_high_ h) (encode FullyConstructedField 1)
              (kMask FullyConstructedField)) (encoded_low_ h).
Definition IsMarked (h : HeapObjectHeader) : bool :=
  negb (decode MarkBitField (encoded_low_ h) =? 0).
Definition store_mark (mark : Z) (h : HeapObjectHeader) : HeapObjectHeader :=
  mkHeader (encoded_high_ h)
    (StoreEncoded (encoded_low_ h) (encode MarkBitField mark) (kMask MarkBitField)).

(** [Unmark]; [None] is the failed [DCHECK]. *)
Definition Unmark (h : HeapObjectHeader) : option HeapObjectHeader :=
  if IsMarked h then Some (store_mark 0 h) else None.
Definition TryMarkAtomic (h : HeapObjectHeader) : bool * HeapObjectHeader :=
  if IsMarked h then (false, h) else (true, store_mark 1 h).
Definition IsFree (h : HeapObjectHeader) : bool := GetGCInfoIndex h =? kFreeListGCInfoIndex.

(** [HeapObjectHeader(size, gc_info_index)]. *)
Definition new_header (size gc_info_index : Z) : option HeapObjectHeader :=
  let h := mkHeader (encode GCInfoIndexField gc_info_index) (EncodeSize size) in
  if (gc_info_index <? kMaxGCInfoIndex) &&
     (Z.land size (sizeof_HeapObjectHeader - 1) =? 0) &&
     (size <=? kMaxSize) && IsInConstruction h
  then Some h else None.

(** [ObjectStart], [FromObject]: between a header and its object. *)
Definition ObjectStart (header : Z) : Z := header + sizeof_HeapObjectHeader.
Definition FromObject (object : Z) : Z := object - sizeof_HeapObjectHeader.

(** ** The free list *)

Record Block := mkBlock { address : Z; bsize : Z }.

(** The memory of the heap and the free list whose entries lie in it. *)
Record Space := mkSpace {
  headers : gmap Z HeapObjectHeader;
  nexts : gmap Z Z;
  free_list_heads_ : list Z;
  free_list_tails_ : list Z;
  biggest_free_list_index_ : Z
}.

Definition set_headers (f : gmap Z HeapObjectHeader → gmap Z HeapObjectHeader) (s : Space) : Space :=
  mkSpace (f (headers s)) (nexts s) (free_list_heads_ s) (free_list_tails_ s)
    (biggest_free_list_index_ s).
Definition set_nexts (f : gmap Z Z → gmap Z Z) (s : Space) : Space :=
  mkSpace (headers s) (f (nexts s)) (free_list_heads_ s) (free_list_tails_ s)
    (biggest_free_list_index_ s).
Definition set_heads (l : list Z) (s : Space) : Space :=
  mkSpace (headers s) (nexts s) l (free_list_tails_ s) (biggest_free_list_index_ s).
Definition set_tails (l : list Z) (s : Space) : Space :=
  mkSpace (headers s) (nexts s) (free_list_heads_ s) l (biggest_free_list_index_ s).
Definition set_biggest (i : Z) (s : Space) : Space :=
  mkSpace (headers s) (nexts s) (free_list_heads_ s) (free_list_tails_ s) i.

(** The header at an address; its construction there, with placement [new]. *)
Definition header_at (a : Z) : M Space HeapObjectHeader :=
  let! s := get in of_option (headers s !! a).
Definition construct_header (a size index : Z) : M Space unit :=
  if a =? nullptr then ub
  else
    let! h := of_option (new_header size index) in
    modify (set_headers <[a := h]>).

Definition BucketIndexForSize (size : Z) : option Z :=
  WhichPowerOfTwo (RoundDownToPowerOfTwo32 size).

(** [array[index]], which is undefined out of range. *)
Definition array_get (l : list Z) (index : Z) : option Z := l !! Z.to_nat index.

(** [Filler::CreateAt], [Entry::CreateAt]. *)
Definition CreateFiller (a size : Z) : M Space unit :=
  construct_header a size kFreeListGCInfoIndex.
Definition CreateEntry (a size : Z) : M Space unit :=
  construct_header a size kFreeListGCInfoIndex ;;
  modify (set_nexts <[a := nullptr]>).
Definition entry_next (entry : Z) : M Space Z :=
  let! s := get in of_option (nexts s !! entry).

(** [entry.Link(&free_list_heads_[index])], [entry.Unlink(...)]. *)
Definition Link (entry index : Z) : M Space unit :=
  let! s := get in
  let! head := of_option (array_get (free_list_heads_ s) index) in
  modify (set_nexts <[entry := head]>) ;;
  modify (set_heads (<[Z.to_nat index := entry]> (free_list_heads_ s))).
Definition Unlink (entry index : Z) : M Space unit :=
  let! next := entry_next entry in
  modify (λ s, set_heads (<[Z.to_nat index := next]> (free_list_heads_ s)) s) ;;
  modify (set_nexts <[entry := nullptr]>).

Definition FreeList_Add (block : Block) : M Space unit :=
  let size := bsize block in
  CHECK (size <? kPageSize) ;;
  CHECK (sizeof_HeapObjectHeader <=? size) ;;
  if size <? kFreeListEntrySize then CreateFiller (address block) size
  else
    let entry := address block in
    CreateEntry entry size ;;
    let! index := of_option (BucketIndexForSize (u32 size)) in
    Link entry index ;;
    modify (λ s, set_biggest (Z.max (biggest_free_list_index_ s) index) s) ;;
    let! next := entry_next entry in
    if next =? nullptr
    then modify (λ s, set_tails (<[Z.to_nat index := entry]> (free_list_tails_ s)) s)
    else ret tt.

Definition IsConsistent (index : Z) : M Space bool :=
  let! s := get in
  let! head := of_option (array_get (free_list_heads_ s) index) in
  let! tail := of_option (array_get (free_list_tails_ s) index) in
  if (head =? nullptr) && (tail =? nullptr) then ret true
  else if negb (head =? nullptr) && negb (tail =? nullptr) then
    let! next := entry_next tail in ret (next =? nullptr)
  else ret false.

(** The loop of [Allocate] from [index] down; the code's [bucket_size] is
    [1 << index] throughout. *)
Fixpoint allocate_loop (allocation_size : Z) (index : nat) : M Space Block :=
  match index with
  | O => modify (set_biggest 0) ;; ret (mkBlock nullptr 0)
  | S index' =>
      let i := Z.of_nat index in
      let bucket_size := uw (Z.shiftl 1 i) in
      let fail := modify (set_biggest i) ;; ret (mkBlock nullptr 0) in
      let! ok := IsConsistent i in
      CHECK ok ;;
      let! s := get in
      let! entry := of_option (array_get (free_list_heads_ s) i) in
      let take :=
        if entry =? nullptr then allocate_loop allocation_size index'
        else
          let! next := entry_next entry in
          (if next =? nullptr
           then modify (λ s, set_tails (<[index := nullptr]> (free_list_tails_ s)) s)
           else ret tt) ;;
          Unlink entry i ;;
          modify (set_biggest i) ;;
          let! h := header_at entry in
          ret (mkBlock entry (AllocatedSize h)) in
      if bucket_size <? allocation_size then
        if entry =? nullptr then fail
        else
          let! h := header_at entry in
          if AllocatedSize h <? allocation_size then fail else take
      else take
  end.

Definition FreeList_Allocate (allocation_size : Z) : M Space Block :=
  let! s := get in
  allocate_loop allocation_size (Z.to_nat (biggest_free_list_index_ s)).

Definition Clear : M Space unit :=
  modify (λ s, mkSpace (headers s) (nexts s)
    (replicate (length (free_list_heads_ s)) nullptr)
    (replicate (length (free_list_tails_ s)) nullptr) 0).

Definition new_space : Space :=
  mkSpace ∅ ∅ (replicate (Z.to_nat kPageSizeLog2) nullptr)
    (replicate (Z.to_nat kPageSizeLog2) nullptr) 0.

(** [Size] and [IsEmpty]; the fuel bounds the entries followed. *)
Fixpoint chain_size (fuel : nat) (entry : Z) : M Space Z :=
  if entry =? nullptr then ret 0
  else match fuel with
  | O => ub
  | S fuel =>
      let! h := header_at entry in
      let! next := entry_next entry in
      let! rest := chain_size fuel next in
      ret (uw (AllocatedSize h + rest))
  end.

Fixpoint chains_size (fuel : nat) (heads : list Z) : M Space Z :=
  match heads with
  | [] => ret 0
  | e :: heads =>
      let! n := chain_size fuel e in
      let! rest := chains_size fuel heads in ret (uw (n + rest))
  end.

Definition FreeList_Size : M Space Z :=
  let! s := get in chains_size (size (headers s)) (free_list_heads_ s).

Definition IsEmpty (s : Space) : bool :=
  forallb (λ entry, entry =? nullptr) (free_list_heads_ s).
End header.
