(* ===== verification/GcSpaceProps.v ===== *)
(** * Properties of headers and of the free list

    The fields of a header are independent ([header_wf] and the lemmas on it); a
    bucket index is the logarithm of the size; and the free list, as lists of
    entries by bucket ([fl_rep]): what [Add] and [Allocate] do to them. *)
From Stdlib Require Import ZArith Lia Bool.
From stdpp Require Import base list gmap.
From S2P Require Import Prelude Sandbox SandboxProps GcSpace.

(** ** Bits *)

Lemma land_mask a n k : 0 <= n → k = 2 ^ n - 1 → Z.land a k = a mod 2 ^ n.
Proof.
  intros Hn ->. replace (2 ^ n - 1) with (Z.ones n) by (rewrite Z.ones_equiv; lia).
  by apply Z.land_ones.
Qed.

Lemma land_double n m : 0 <= n < 2 ^ 15 → 0 <= m < 2 → Z.land (2 * n + m) 65534 = 2 * n.
Proof.
  intros Hn Hm. apply Z.bits_inj'. intros k Hk. rewrite Z.land_spec.
  destruct (decide (k = 0)) as [->|Hk0].
  { rewrite Z.testbit_even_0. by rewrite andb_false_r. }
  replace k with (Z.succ (k - 1)) by lia. change 65534 with (2 * Z.ones 15).
  rewrite !Z.testbit_even_succ by lia.
  assert (Z.testbit (2 * n + m) (Z.succ (k - 1)) = Z.testbit n (k - 1)) as ->.
  { assert (m = 0 ∨ m = 1) as [-> | ->] by lia;
      [rewrite Z.add_0_r; apply Z.testbit_even_succ|apply Z.testbit_odd_succ]; lia. }
  rewrite <- Z.land_spec, Z.land_ones, Z.mod_small by lia. done.
Qed.

Lemma lor_disjoint a b n : 0 <= n → 0 <= b < 2 ^ n → Z.lor (2 ^ n * a) b = 2 ^ n * a + b.
Proof.
  intros Hn Hb. rewrite Z.mul_comm, <- Z.shiftl_mul_pow2 by done.
  rewrite <- Z.lxor_lor, <- Z.add_nocarry_lxor; [done|..];
  apply Z.bits_inj'; intros k Hk; rewrite Z.land_spec, Z.bits_0;
  destruct (decide (k < n)).
  all: try (rewrite Z.shiftl_spec_low by done; done).
  all: assert (Z.testbit b k = false) as -> by
    (destruct (decide (b = 0)) as [->|]; [apply Z.bits_0|
     apply Z.bits_above_log2; [lia|apply Z.lt_le_trans with n; [apply Z.log2_lt_pow2; lia|lia]]]);
    apply andb_false_r.
Qed.

(** *** Rounding down to a power of two *)

(** The [k] bits from the highest one of [v] down are set in [x], none above is. *)
Definition top_set (v k x : Z) : Prop :=
  ∀ j, 0 <= j → (Z.log2 v < j → Z.testbit x j = false) ∧
    (Z.log2 v - k < j <= Z.log2 v → Z.testbit x j = true).

Lemma top_set_start v : 0 < v → top_set v 1 v.
Proof.
  intros Hv j Hj. split; intros; [by apply Z.bits_above_log2; lia|].
  replace j with (Z.log2 v) by lia. by apply Z.bit_log2.
Qed.

Lemma top_set_step v k x :
  0 <= k → top_set v k x → top_set v (2 * k) (Z.lor x (Z.shiftr x k)).
Proof.
  intros Hk Hx j Hj. rewrite Z.lor_spec, Z.shiftr_spec by done. split; intros Hlt.
  - rewrite (proj1 (Hx j Hj)) by lia. by rewrite (proj1 (Hx (j + k) ltac:(lia))) by lia.
  - destruct (decide (Z.log2 v - k < j)).
    + by rewrite (proj2 (Hx j Hj)) by lia.
    + by rewrite (proj2 (Hx (j + k) ltac:(lia))), orb_true_r by lia.
Qed.

Lemma RoundDown_eq v : 0 < v < 2 ^ 32 → RoundDownToPowerOfTwo32 v = 2 ^ Z.log2 v.
Proof.
  intros Hv. unfold RoundDownToPowerOfTwo32. rewrite (proj2 (Z.eqb_neq _ _)) by lia. cbv zeta.
  pose proof (Z.log2_nonneg v). assert (Z.log2 v < 32) by (apply Z.log2_lt_pow2; lia).
  assert (∀ x, top_set v 32 x → x = Z.ones (Z.log2 v + 1)) as Hall.
  { intros x Hx. apply Z.bits_inj'. intros j Hj. destruct (decide (j < Z.log2 v + 1)).
    - rewrite Z.ones_spec_low by lia. apply Hx; lia.
    - rewrite Z.ones_spec_high by lia. apply Hx; lia. }
  pose proof (top_set_start v ltac:(lia)) as H1.
  apply (top_set_step v 1) in H1; [|lia]. apply (top_set_step v 2) in H1; [|lia].
  apply (top_set_step v 4) in H1; [|lia]. apply (top_set_step v 8) in H1; [|lia].
  apply (top_set_step v 16) in H1; [|lia].
  rewrite (Hall _ H1). rewrite Z.shiftr_div_pow2 by lia.
  rewrite Z.ones_equiv, Z.pow_add_r by lia. change (2 ^ 1) with 2.
  pose proof (Z.pow_pos_nonneg 2 (Z.log2 v) ltac:(lia) ltac:(lia)).
  assert (2 ^ Z.log2 v <= 2 ^ 31) by (apply Z.pow_le_mono_r; lia).
  replace (Z.pred (2 ^ Z.log2 v * 2) / 2) with (2 ^ Z.log2 v - 1)
    by (apply Z.div_unique with 1; lia).
  rewrite u32_small by lia. lia.
Qed.

Lemma BucketIndex_eq v : 0 < v < 2 ^ 32 → BucketIndexForSize v = Some (Z.log2 v).
Proof.
  intros Hv. unfold BucketIndexForSize, WhichPowerOfTwo. rewrite RoundDown_eq by done.
  pose proof (Z.log2_nonneg v). pose proof (Z.pow_pos_nonneg 2 (Z.log2 v) ltac:(lia) ltac:(lia)).
  rewrite (proj2 (Z.eqb_neq _ _)) by lia. by rewrite Z.log2_pow2.
Qed.

(** ** Headers *)

Section header.
Context `{Platform} {P : PlatformOk}.

Lemma granularity_cases : kAllocationGranularity = 4 ∨ kAllocationGranularity = 8.
Proof using P. unfold kAllocationGranularity. destruct uintptr_width as [-> | ->]; [by left|by right]. Qed.

Lemma granularity_range : 4 <= kAllocationGranularity <= 8.
Proof using P. destruct granularity_cases; lia. Qed.

Definition aligned (a : Z) : Prop := (kAllocationGranularity | a).

(** A header: type index, size, and whether it is constructed and marked. *)
Definition header_of (index size : Z) (constructed marked : bool) : HeapObjectHeader :=
  mkHeader (index + 2 ^ 15 * Z.b2z constructed)
    (2 * (size / kAllocationGranularity) + Z.b2z marked).

Definition size_ok (n : Z) : Prop := aligned n ∧ 0 <= n <= kMaxSize.
Definition index_ok (i : Z) : Prop := 0 <= i < kMaxGCInfoIndex.

Lemma units_ok n : size_ok n → 0 <= n / kAllocationGranularity < 2 ^ 15.
Proof using P.
  intros [Ha Hn]. pose proof granularity_range. change kMaxSize with 131071 in Hn.
  split; [apply Z.div_pos; lia|]. apply Z.div_lt_upper_bound; lia.
Qed.

Lemma units_mul n : aligned n → n / kAllocationGranularity * kAllocationGranularity = n.
Proof using P.
  intros [k ->]. pose proof granularity_range. rewrite Z.div_mul by lia. done.
Qed.

Lemma header_size i n c m : size_ok n → AllocatedSize (header_of i n c m) = n.
Proof using P.
  intros Hn. pose proof (units_ok n Hn). unfold AllocatedSize, DecodeSize, decode, header_of.
  cbn [encoded_low_]. change (kShift SizeField) with 1. change (kMax SizeField) with 32767.
  rewrite Z.shiftr_div_pow2, (land_mask _ 15) by done. change (2 ^ 1) with 2.
  replace ((2 * (n / kAllocationGranularity) + Z.b2z m) / 2) with (n / kAllocationGranularity)
    by (apply Z.div_unique with (Z.b2z m); [left; destruct m; simpl; lia|lia]).
  rewrite Z.mod_small by done. apply units_mul, Hn.
Qed.

Lemma header_marked i n c m : size_ok n → IsMarked (header_of i n c m) = m.
Proof using P.
  intros Hn. unfold IsMarked, decode, header_of. cbn [encoded_low_].
  change (kShift MarkBitField) with 0. change (kMax MarkBitField) with 1.
  rewrite Z.shiftr_0_r, (land_mask _ 1) by done. change (2 ^ 1) with 2.
  rewrite Z.add_comm, Z.mul_comm, Z_mod_plus_full. by destruct m.
Qed.

Lemma header_index i n c m : index_ok i → GetGCInfoIndex (header_of i n c m) = i.
Proof using P.
  intros Hi. unfold GetGCInfoIndex, decode, header_of. cbn [encoded_high_].
  change (kShift GCInfoIndexField) with 0. change (kMax GCInfoIndexField) with (2 ^ 14 - 1).
  rewrite Z.shiftr_0_r, (land_mask _ 14) by done.
  replace (i + 2 ^ 15 * Z.b2z c) with (i + 2 * Z.b2z c * 2 ^ 14) by lia.
  rewrite Z_mod_plus_full. apply Z.mod_small. exact Hi.
Qed.

Lemma header_constructed i n c m : index_ok i → IsInConstruction (header_of i n c m) = negb c.
Proof using P.
  intros Hi. change (0 <= i < 16384) in Hi. unfold IsInConstruction, decode, header_of. cbn [encoded_high_].
  change (kShift FullyConstructedField) with 15. change (kMax FullyConstructedField) with 1.
  rewrite Z.shiftr_div_pow2, (land_mask _ 1) by done. change (2 ^ 1) with 2.
  replace ((i + 2 ^ 15 * Z.b2z c) / 2 ^ 15) with (Z.b2z c)
    by (apply Z.div_unique with i; [left|]; lia).
  by destruct c.
Qed.

Lemma header_store_mark i n c m b :
  size_ok n → store_mark (Z.b2z b) (header_of i n c m) = header_of i n c b.
Proof using P.
  intros Hn. pose proof (units_ok n Hn). unfold store_mark, header_of, StoreEncoded. cbn [encoded_high_ encoded_low_].
  f_equal. change (u16 (Z.lnot (kMask MarkBitField))) with 65534.
  rewrite land_double by (destruct m; simpl; lia).
  replace (encode MarkBitField (Z.b2z b)) with (Z.b2z b) by (by destruct b).
  apply (lor_disjoint _ _ 1); [done|]. by destruct b.
Qed.

Lemma header_fully_constructed i n c m :
  index_ok i → MarkAsFullyConstructed (header_of i n c m) = header_of i n true m.
Proof using P.
  intros Hi. change (0 <= i < 16384) in Hi. unfold MarkAsFullyConstructed, header_of, StoreEncoded.
  cbn [encoded_high_ encoded_low_]. f_equal.
  change (u16 (Z.lnot (kMask FullyConstructedField))) with (2 ^ 15 - 1).
  rewrite (land_mask _ 15) by done. rewrite Z.add_comm, Z.mul_comm, Z.add_comm, Z_mod_plus_full.
  rewrite Z.mod_small by lia. change (encode FullyConstructedField 1) with (2 ^ 15 * 1).
  rewrite Z.lor_comm, lor_disjoint by lia. simpl Z.b2z. lia.
Qed.

Lemma header_free i n c m : index_ok i → IsFree (header_of i n c m) = (i =? 0).
Proof using P. intros Hi. unfold IsFree. by rewrite header_index. Qed.

Lemma header_Unmark i n c m :
  size_ok n → Unmark (header_of i n c m) = if m then Some (header_of i n c false) else None.
Proof using P.
  intros Hn. unfold Unmark. rewrite header_marked by done. destruct m; [|done].
  f_equal. exact (header_store_mark i n c true false Hn).
Qed.

Lemma header_TryMark i n c m :
  size_ok n → TryMarkAtomic (header_of i n c m) = (negb m, header_of i n c true).
Proof using P.
  intros Hn. unfold TryMarkAtomic. rewrite header_marked by done. destruct m; [done|].
  f_equal. exact (header_store_mark i n c false true Hn).
Qed.

Lemma header_new n i :
  size_ok n → index_ok i → new_header n i = Some (header_of i n false false).
Proof using P.
  intros Hn Hi. pose proof (units_ok n Hn) as Hu. destruct Hn as [Ha Hn].
  change (0 <= i < 16384) in Hi. unfold new_header.
  assert (EncodeSize n = 2 * (n / kAllocationGranularity)) as Hes.
  { unfold EncodeSize, encode. change (kShift SizeField) with 1. change (kMax SizeField) with 32767.
    rewrite (u16_small (n / _)), (land_mask _ 15), Z.mod_small by lia.
    rewrite Z.shiftl_mul_pow2 by done. rewrite u16_small by lia. lia. }
  assert (encode GCInfoIndexField i = i) as Hei.
  { unfold encode. change (kShift GCInfoIndexField) with 0. change (kMax GCInfoIndexField) with 16383.
    rewrite (u16_small i), (land_mask _ 14), Z.mod_small by lia.
    rewrite Z.shiftl_0_r. rewrite u16_small by lia. done. }
  rewrite Hes, Hei.
  assert (mkHeader i (2 * (n / kAllocationGranularity)) = header_of i n false false) as ->
    by (unfold header_of; simpl Z.b2z; f_equal; lia).
  rewrite header_constructed by done.
  assert ((i <? kMaxGCInfoIndex) = true) as -> by (apply Z.ltb_lt; change kMaxGCInfoIndex with 16384; lia).
  assert ((n <=? kMaxSize) = true) as -> by (apply Z.leb_le; lia).
  assert (Z.land n (sizeof_HeapObjectHeader - 1) = 0) as ->; [|done].
  unfold sizeof_HeapObjectHeader. unfold aligned in Ha.
  destruct granularity_cases as [E|E]; rewrite E in *;
    [rewrite (land_mask _ 2)|rewrite (land_mask _ 3)]; try done; by apply Z.mod_divide.
Qed.
End header.

(** ** The free list *)

Section free_list.
Context `{Platform} {P : PlatformOk}.

(** The header at [a], with its fields. *)
Definition hdr (s : Space) (a i n : Z) (c m : bool) : Prop :=
  headers s !! a = Some (header_of i n c m) ∧ size_ok n ∧ index_ok i.

(** [l] is linked by the [next_] of its entries. *)
Fixpoint chain (nx : gmap Z Z) (l : list Z) : Prop :=
  match l with
  | [] => True
  | e :: l => e ≠ nullptr ∧ nx !! e = Some (hd nullptr l) ∧ chain nx l
  end.

Definition entry_ok (s : Space) (i : nat) (e : Z) : Prop :=
  ∃ n, hdr s e kFreeListGCInfoIndex n false false ∧
    2 ^ Z.of_nat i <= n < 2 ^ (Z.of_nat i + 1) ∧ kFreeListEntrySize <= n.

(** One bucket. *)
Record bucket_ok (s : Space) (i : nat) (l : list Z) : Prop := {
  bo_head : free_list_heads_ s !! i = Some (hd nullptr l);
  bo_tail : free_list_tails_ s !! i = Some (List.last l nullptr);
  bo_chain : chain (nexts s) l;
  bo_entries : Forall (entry_ok s i) l
}.

Record fl_rep (s : Space) (ls : list (list Z)) : Prop := {
  fl_length : length ls = 17%nat;
  fl_heads : length (free_list_heads_ s) = 17%nat;
  fl_tails : length (free_list_tails_ s) = 17%nat;
  fl_buckets : ∀ i l, ls !! i = Some l → bucket_ok s i l;
  fl_nodup : NoDup (concat ls);
  fl_biggest : 0 <= biggest_free_list_index_ s < 17;
  fl_above : ∀ i l, ls !! i = Some l → biggest_free_list_index_ s < Z.of_nat i → l = []
}.

Lemma elem_of_concat {A} (ls : list (list A)) x :
  x ∈ concat ls ↔ ∃ i l, ls !! i = Some l ∧ x ∈ l.
Proof.
  rewrite list_elem_of_In, in_concat. split.
  - intros (l & Hl & Hx). apply list_elem_of_In, list_elem_of_lookup in Hl as [i Hi].
    exists i, l. by rewrite list_elem_of_In.
  - intros (i & l & Hl & Hx). exists l. rewrite <- !list_elem_of_In.
    split; [by eapply list_elem_of_lookup_2|done].
Qed.

Lemma chain_insert nx a v l : a ∉ l → chain nx l → chain (<[a := v]> nx) l.
Proof.
  induction l as [|e l IH]; [done|]. intros [Hne Ha]%not_elem_of_cons (He & Hn & Hc). simpl.
  rewrite lookup_insert_ne by done. auto.
Qed.

(** What a bucket depends on. *)
Lemma bucket_frame s s' i l :
  free_list_heads_ s' !! i = free_list_heads_ s !! i →
  free_list_tails_ s' !! i = free_list_tails_ s !! i →
  (∀ e, e ∈ l → headers s' !! e = headers s !! e ∧ nexts s' !! e = nexts s !! e) →
  bucket_ok s i l → bucket_ok s' i l.
Proof.
  intros Hh Ht Heq [H1 H2 H3 H4]. split; [congruence|congruence| |].
  - clear H1 H2 H4 Hh Ht. induction l as [|e l IH]; [done|]. destruct H3 as (He & Hn & Hc).
    simpl. split; [done|]. split; [by rewrite (proj2 (Heq e (list_elem_of_here _ _)))|].
    apply IH; [|done]. intros x Hx. apply Heq. by apply list_elem_of_further.
  - rewrite Forall_forall in *. intros e He. destruct (H4 e He) as (n & (Hd & ?) & ?).
    exists n. split; [|done]. split; [|done]. by rewrite (proj1 (Heq e He)).
Qed.

Lemma fl_frame s s' ls :
  free_list_heads_ s' = free_list_heads_ s → free_list_tails_ s' = free_list_tails_ s →
  biggest_free_list_index_ s' = biggest_free_list_index_ s →
  (∀ e, e ∈ concat ls → headers s' !! e = headers s !! e ∧ nexts s' !! e = nexts s !! e) →
  fl_rep s ls → fl_rep s' ls.
Proof.
  intros Hh Ht Hb Heq [H1 H2 H3 H4 H5 H6 H7]. split; rewrite ?Hh, ?Ht, ?Hb; try done.
  intros i l Hl. apply (bucket_frame s); [by rewrite Hh|by rewrite Ht| |by apply H4].
  intros e He. apply Heq, elem_of_concat. eauto.
Qed.

Lemma entry_of s ls e :
  fl_rep s ls → e ∈ concat ls → e ≠ nullptr ∧ ∃ i, entry_ok s i e.
Proof.
  intros Hr (i & l & Hl & He)%elem_of_concat. pose proof (fl_buckets _ _ Hr i l Hl) as [_ _ Hc Hes].
  split; [|exists i; by rewrite Forall_forall in Hes; apply Hes].
  clear -Hc He. induction l as [|x l IH]; [by apply elem_of_nil in He|].
  destruct Hc as (Hx & _ & Hc). apply elem_of_cons in He as [->|He]; auto.
Qed.

(** *** [Add] *)

Definition add_entry (a n : Z) (ls : list (list Z)) : list (list Z) :=
  if n <? kFreeListEntrySize then ls else alter (cons a) (Z.to_nat (Z.log2 n)) ls.

Lemma concat_alter_cons (a : Z) i ls :
  (i < length ls)%nat → concat (alter (cons a) i ls) ≡ₚ a :: concat ls.
Proof.
  revert i. induction ls as [|l ls IH]; intros [|i] Hi; simpl in *; try lia; [done|].
  change (list_alter (cons a) i ls) with (alter (cons a) i ls).
  rewrite IH by lia. by rewrite Permutation_middle.
Qed.

Lemma log2_bucket n : 0 < n < kPageSize → (Z.to_nat (Z.log2 n) < 17)%nat.
Proof.
  intros Hn. pose proof (Z.log2_nonneg n). enough (Z.log2 n < 17) by lia.
  apply Z.log2_lt_pow2; [lia|]. exact (proj2 Hn).
Qed.

Lemma elem_of_add_entry a n ls x :
  length ls = 17%nat → 0 < n < kPageSize →
  x ∈ concat (add_entry a n ls) ↔ x ∈ concat ls ∨ (x = a ∧ kFreeListEntrySize <= n).
Proof.
  intros Hl Hn. unfold add_entry. destruct (n <? kFreeListEntrySize) eqn:E; zbool.
  { intuition lia. }
  rewrite concat_alter_cons by (rewrite Hl; by apply log2_bucket).
  rewrite elem_of_cons. intuition.
Qed.

Lemma wp_FreeList_Add s ls a n :
  fl_rep s ls → a ≠ nullptr → a ∉ concat ls → size_ok n →
  kAllocationGranularity <= n < kPageSize →
  wp (FreeList_Add (mkBlock a n)) (λ _ s',
    headers s' = <[a := header_of kFreeListGCInfoIndex n false false]> (headers s) ∧
    fl_rep s' (add_entry a n ls)) s.
Proof using P.
  intros Hr Ha Hnin Hn Hrange. pose proof granularity_range as Hg.
  unfold FreeList_Add. cbn [bsize address]. wp_step.
  rewrite wp_CHECK. split; [apply Z.ltb_lt; lia|]. wp_step.
  rewrite wp_CHECK. split; [apply Z.leb_le, Hrange|].
  unfold add_entry. destruct (n <? kFreeListEntrySize) eqn:E; zbool.
  - unfold CreateFiller, construct_header. rewrite (proj2 (Z.eqb_neq _ _) Ha). wp_step. rewrite header_new by done. wp_step.
    split; [done|]. apply (fl_frame s); [done..| |done].
    intros e He. cbn. rewrite lookup_insert_ne by (intros ->; done). done.
  - unfold CreateEntry, construct_header. rewrite (proj2 (Z.eqb_neq _ _) Ha). wp_step. rewrite header_new by done. wp_step.
    assert (n < 131072) by (apply Hrange).
    rewrite u32_small, BucketIndex_eq by lia. wp_step.
    set (i := Z.to_nat (Z.log2 n)). pose proof (log2_bucket n ltac:(lia)) as Hi. fold i in Hi.
    pose proof (Z.log2_nonneg n).
    destruct (lookup_lt_is_Some_2 ls i) as [l Hl]; [by rewrite (fl_length _ _ Hr)|].
    pose proof (fl_buckets _ _ Hr i l Hl) as [Hhd Htl Hc Hes].
    unfold Link, array_get. wp_step. cbn. fold i. rewrite Hhd. wp_step. cbn.
    unfold entry_next. wp_step. cbn. rewrite lookup_insert_eq. wp_step.
    match goal with |- wp _ _ ?x => set (s1 := x) end.
    set (s2 := mkSpace (headers s1) (nexts s1) (free_list_heads_ s1)
                 (if hd nullptr l =? nullptr then <[i := a]> (free_list_tails_ s1) else free_list_tails_ s1)
                 (biggest_free_list_index_ s1)).
    assert (∀ Q : unit → Space → Prop, Q tt s2 →
      wp (if hd nullptr l =? nullptr
          then modify (λ s, set_tails (<[i := a]> (free_list_tails_ s)) s) else ret tt) Q s1) as Hk.
    { intros Q HQ. unfold s2 in HQ. destruct (_ =? _); wp_step; exact HQ. }
    apply Hk. clear Hk. split; [done|]. subst s2 s1. cbn.
    assert (∀ j l', ls !! j = Some l' → a ∉ l') as Hfresh
      by (intros j l' Hl' Hin; apply Hnin, elem_of_concat; eauto).
    assert (match l with [] => a | _ :: _ => List.last l nullptr end =
      if hd nullptr l =? nullptr then a else List.last l nullptr) as Hlast.
    { destruct l as [|x l]; [done|]. destruct Hc as (Hx & _). simpl hd.
      rewrite (proj2 (Z.eqb_neq _ _)) by done. done. }
    split; cbn; [| | | | | |].
    + by rewrite length_alter, (fl_length _ _ Hr).
    + by rewrite length_insert, (fl_heads _ _ Hr).
    + destruct (_ =? _); rewrite ?length_insert; apply (fl_tails _ _ Hr).
    + intros j l' Hl'. destruct (decide (j = i)) as [->|Hne].
      * rewrite list_lookup_alter_eq, Hl in Hl'. cbn in Hl'. injection Hl' as <-. split; cbn.
        -- by rewrite list_lookup_insert_eq by (rewrite (fl_heads _ _ Hr); lia).
        -- rewrite Hlast. destruct (_ =? _); [|done].
           by rewrite list_lookup_insert_eq by (rewrite (fl_tails _ _ Hr); lia).
        -- split; [done|]. rewrite lookup_insert_eq. split; [done|].
           apply chain_insert; [by eapply Hfresh|]. apply chain_insert; [by eapply Hfresh|done].
        -- constructor.
           ++ exists n. unfold hdr. cbn. rewrite lookup_insert_eq. split; [done|].
              unfold i. rewrite Z2Nat.id by done.
              split; [|lia]. replace (Z.log2 n + 1) with (Z.succ (Z.log2 n)) by lia.
              apply Z.log2_spec. lia.
           ++ rewrite Forall_forall in *. intros e He. destruct (Hes e He) as (k & (Hk & ?) & ?).
              exists k. split; [|done]. split; [|done]. cbn.
              rewrite lookup_insert_ne; [done|]. intros ->. by eapply Hfresh.
      * rewrite list_lookup_alter_ne in Hl' by done.
        apply (bucket_frame s); cbn; [by rewrite list_lookup_insert_ne by done| | |by apply (fl_buckets _ _ Hr)].
        -- destruct (_ =? _); [by rewrite list_lookup_insert_ne by done|done].
        -- intros e He. assert (a ≠ e) by (intros ->; by eapply Hfresh).
           by rewrite !lookup_insert_ne by done.
    + rewrite concat_alter_cons by (rewrite (fl_length _ _ Hr); lia).
      constructor; [done|apply (fl_nodup _ _ Hr)].
    + pose proof (fl_biggest _ _ Hr). lia.
    + intros j l' Hl' Hj. destruct (decide (j = i)) as [->|Hne]; [lia|].
      rewrite list_lookup_alter_ne in Hl' by done. apply (fl_above _ _ Hr j l' Hl'). lia.
Qed.

(** *** [Allocate] *)

Definition allocated (s : Space) (ls : list (list Z)) (n : Z) (b : Block) (s' : Space) : Prop :=
  headers s' = headers s ∧
  ((b = mkBlock nullptr 0 ∧ fl_rep s' ls ∧ nexts s' = nexts s ∧
    ∀ e k, e ∈ concat ls → hdr s e kFreeListGCInfoIndex k false false → k < 2 * n) ∨
   (address b ≠ nullptr ∧ n <= bsize b ∧
    hdr s (address b) kFreeListGCInfoIndex (bsize b) false false ∧
    ∃ ls', fl_rep s' ls' ∧ concat ls ≡ₚ address b :: concat ls')).

Lemma concat_alter_tail (e : Z) l i ls :
  ls !! i = Some (e :: l) → concat ls ≡ₚ e :: concat (<[i := l]> ls).
Proof.
  revert i. induction ls as [|l' ls IH]; intros [|i]; simpl; try done.
  - by intros [= ->].
  - intros Hl. change (list_insert i l ls) with (<[i := l]> ls). rewrite (IH i Hl).
    by rewrite Permutation_middle.
Qed.

(** The head of a bucket is taken. *)
Lemma take_head s ls i e l n :
  fl_rep s ls → ls !! i = Some (e :: l) → hdr s e kFreeListGCInfoIndex n false false →
  (∀ j l', ls !! j = Some l' → (i < j)%nat → l' = []) →
  wp (let! next := entry_next e in
      (if next =? nullptr
       then modify (λ s, set_tails (<[i := nullptr]> (free_list_tails_ s)) s)
       else ret tt) ;;
      Unlink e (Z.of_nat i) ;;
      modify (set_biggest (Z.of_nat i)) ;;
      let! h := header_at e in
      ret (mkBlock e (AllocatedSize h))) (λ b s', b = mkBlock e n ∧ headers s' = headers s ∧
        fl_rep s' (<[i := l]> ls)) s.
Proof using P.
  intros Hr Hl Hd Habove. pose proof (fl_buckets _ _ Hr i _ Hl) as [Hhd Htl (He & Hnx & Hc) Hes].
  assert (i < 17)%nat as Hi by (rewrite <- (fl_length _ _ Hr); by eapply lookup_lt_Some).
  assert (NoDup (e :: l)) as [Hel _]%NoDup_cons.
  { pose proof (fl_nodup _ _ Hr) as Hnd. clear -Hnd Hl.
    revert i Hl. induction ls as [|x ls IH]; intros [|i]; simpl; [done..| |].
    - intros [= ->]. by apply NoDup_app in Hnd as [? _].
    - apply NoDup_app in Hnd as (_ & _ & Hnd). by apply IH. }
  unfold Unlink, entry_next. wp_step. rewrite Hnx. wp_step.
  set (tails := if hd nullptr l =? nullptr then <[i := nullptr]> (free_list_tails_ s)
                else free_list_tails_ s).
  assert (∀ Q : unit → Space → Prop, Q tt (set_tails tails s) →
    wp (if hd nullptr l =? nullptr
        then modify (λ s, set_tails (<[i := nullptr]> (free_list_tails_ s)) s) else ret tt) Q s) as Hk.
  { intros Q HQ. unfold tails in HQ. destruct (_ =? _); wp_step; [exact HQ|].
    by destruct s. }
  apply Hk. clear Hk. wp_step. cbn. rewrite Hnx. wp_step. unfold header_at. wp_step. cbn.
  destruct Hd as (Hh & Hn & Hi0). rewrite Hh. wp_step. rewrite header_size by done.
  split; [done|]. split; [done|]. rewrite Nat2Z.id.
  assert (∀ j l', <[i := l]> ls !! j = Some l' → j ≠ i → ls !! j = Some l' ∧ e ∉ l') as Hother.
  { intros j l' Hl' Hne. split; [by rewrite list_lookup_insert_ne in Hl' by done|].
    intros Hin. pose proof (fl_nodup _ _ Hr) as Hnd.
    rewrite (concat_alter_tail e l i ls Hl) in Hnd. apply NoDup_cons in Hnd as [Hnd _].
    apply Hnd, elem_of_concat. by exists j, l'. }
  split; cbn.
  - by rewrite length_insert, (fl_length _ _ Hr).
  - by rewrite length_insert, (fl_heads _ _ Hr).
  - unfold tails. destruct (_ =? _); rewrite ?length_insert; apply (fl_tails _ _ Hr).
  - intros j l' Hl'. destruct (decide (j = i)) as [->|Hne].
    + rewrite list_lookup_insert_eq in Hl' by (rewrite (fl_length _ _ Hr); lia). injection Hl' as <-.
      split; cbn.
      * by rewrite list_lookup_insert_eq by (rewrite (fl_heads _ _ Hr); lia).
      * unfold tails. destruct l as [|x l].
        -- change (hd nullptr [] =? nullptr) with true. cbv iota.
           by rewrite list_lookup_insert_eq by (rewrite (fl_tails _ _ Hr); lia).
        -- destruct Hc as (Hx & _). simpl hd. rewrite (proj2 (Z.eqb_neq _ _)) by done. exact Htl.
      * by apply chain_insert.
      * by apply Forall_cons in Hes as [_ ?].
    + destruct (Hother j l' Hl' Hne) as [Hl2 Hnin].
      apply (bucket_frame s); cbn; [by rewrite list_lookup_insert_ne by done| | |by apply (fl_buckets _ _ Hr)].
      * unfold tails. destruct (_ =? _); [by rewrite list_lookup_insert_ne by done|done].
      * intros x Hx. split; [done|]. apply lookup_insert_ne. by intros ->.
  - pose proof (fl_nodup _ _ Hr) as Hnd. rewrite (concat_alter_tail e l i ls Hl) in Hnd.
    by apply NoDup_cons in Hnd as [_ ?].
  - lia.
  - intros j l' Hl' Hj. destruct (decide (j = i)) as [->|Hne]; [lia|].
    apply (Habove j l'); [by apply Hother|lia].
Qed.

Lemma size_pos s i e : entry_ok s i e → (3 <= i)%nat.
Proof using P.
  intros (n & _ & Hn & Hge). unfold kFreeListEntrySize in Hge.
  change (uintptr_bits / 8) with kAllocationGranularity in Hge. pose proof granularity_range.
  destruct (decide (3 <= i)%nat); [done|]. exfalso.
  assert (2 ^ (Z.of_nat i + 1) <= 2 ^ 3) by (apply Z.pow_le_mono_r; lia).
  change (2 ^ 3) with 8 in *. lia.
Qed.

Lemma hdr_size_inj s a i i' n n' c c' m m' :
  hdr s a i n c m → hdr s a i' n' c' m' → n = n'.
Proof using P.
  intros (H1 & Hn & _) (H2 & Hn' & _). rewrite H1 in H2. injection H2 as H2 H3.
  rewrite <- (header_size i n c m Hn), <- (header_size i' n' c' m' Hn').
  unfold AllocatedSize, header_of. cbn. by rewrite H3.
Qed.

(** An entry is at most twice as large as what its bucket promises. *)
Lemma bucket_bound s ls i n :
  fl_rep s ls → 2 ^ Z.of_nat i < n →
  (∀ j l, ls !! j = Some l → (i < j)%nat → l = []) →
  ∀ e k, e ∈ concat ls → hdr s e kFreeListGCInfoIndex k false false → k < 2 * n.
Proof using P.
  intros Hr Hlt Habove e k (j & l & Hl & He)%elem_of_concat Hk.
  destruct (decide (i < j)%nat).
  { rewrite (Habove j l Hl) in He by done. by apply elem_of_nil in He. }
  pose proof (fl_buckets _ _ Hr j l Hl) as [_ _ _ Hes]. rewrite Forall_forall in Hes.
  destruct (Hes e He) as (k' & Hk' & Hr' & _). rewrite (hdr_size_inj _ _ _ _ _ _ _ _ _ _ Hk Hk').
  assert (2 ^ (Z.of_nat j + 1) <= 2 ^ (Z.of_nat i + 1)) by (apply Z.pow_le_mono_r; lia).
  assert (2 ^ (Z.of_nat i + 1) = 2 * 2 ^ Z.of_nat i) by (rewrite Z.pow_add_r by lia; lia). lia.
Qed.

Lemma fl_set_biggest s ls i :
  fl_rep s ls → (i < 17)%nat → (∀ j l, ls !! j = Some l → (i < j)%nat → l = []) →
  fl_rep (set_biggest (Z.of_nat i) s) ls.
Proof.
  intros [H1 H2 H3 H4 H5 H6 H7] Hi Ha. split; cbn; try done; [|lia|].
  - intros j l Hl. by apply (bucket_frame s); [..|apply H4].
  - intros j l Hl Hj. apply (Ha j l Hl). lia.
Qed.

Lemma wp_IsConsistent s i l (Q : bool → Space → Prop) :
  bucket_ok s i l → Q true s → wp (IsConsistent (Z.of_nat i)) Q s.
Proof.
  intros [Hhd Htl Hc _] HQ. unfold IsConsistent, array_get. wp_step. rewrite Nat2Z.id, Hhd.
  wp_step. rewrite Htl. wp_step.
  destruct l as [|x l]; [exact HQ|]. simpl hd. destruct Hc as (Hx & Hnx & Hc).
  rewrite (proj2 (Z.eqb_neq x _)) by done. cbn [andb negb].
  assert (List.last (x :: l) nullptr ≠ nullptr ∧
    nexts s !! List.last (x :: l) nullptr = Some nullptr) as [Hne Hln].
  { clear -Hx Hnx Hc. revert x Hx Hnx. induction l as [|y l IH]; intros x Hx Hnx; [done|].
    destruct Hc as (Hy & Hny & Hc). apply (IH Hc y Hy Hny). }
  rewrite (proj2 (Z.eqb_neq _ _)) by done. cbn [negb]. unfold entry_next. wp_step. rewrite Hln.
  wp_step. exact HQ.
Qed.

Lemma wp_allocate_loop s ls n index :
  fl_rep s ls → 0 < n → (index < 17)%nat →
  (∀ j l, ls !! j = Some l → (index < j)%nat → l = []) →
  wp (allocate_loop n index) (allocated s ls n) s.
Proof using P.
  intros Hr Hn. induction index as [|index IH]; intros Hi Habove.
  { cbn [allocate_loop]. wp_step. split; [done|]. left. split; [done|]. split; [|split; [done|]].
    - by apply (fl_set_biggest s ls 0).
    - intros e k (j & l & Hl & He)%elem_of_concat _.
      pose proof (fl_buckets _ _ Hr j l Hl) as [_ _ _ Hes].
      rewrite Forall_forall in Hes. pose proof (size_pos _ _ _ (Hes e He)).
      rewrite (Habove j l Hl) in He by lia. by apply elem_of_nil in He. }
  cbn [allocate_loop]. set (i := S index) in *.
  destruct (lookup_lt_is_Some_2 ls i) as [l Hl]; [rewrite (fl_length _ _ Hr); lia|].
  pose proof (fl_buckets _ _ Hr i l Hl) as Hb. pose proof Hb as [Hhd _ Hc Hes].
  assert (uw (Z.shiftl 1 (Z.of_nat i)) = 2 ^ Z.of_nat i) as Hbs.
  { rewrite Z.shiftl_mul_pow2, Z.mul_1_l by lia. unfold uw. apply Z.mod_small.
    split; [apply Z.pow_nonneg; lia|]. destruct uintptr_width as [-> | ->]; apply Z.pow_lt_mono_r; lia. }
  wp_step. apply (wp_IsConsistent _ _ l _ Hb). wp_step. rewrite wp_CHECK. split; [done|].
  unfold array_get. wp_step. rewrite Nat2Z.id, Hhd. wp_step. rewrite Hbs.
  assert (2 ^ Z.of_nat i < n →
    allocated s ls n (mkBlock nullptr 0) (set_biggest (Z.of_nat i) s)) as Hfail.
  { intros Hlt. split; [done|]. left. split; [done|]. split; [|split; [done|]].
    - by apply (fl_set_biggest s ls i).
    - by apply (bucket_bound s ls i). }
  destruct l as [|e l].
  - simpl hd. destruct (2 ^ Z.of_nat i <? n) eqn:E; zbool; cbn; wp_step; [by apply Hfail|].
    apply IH; [lia|]. intros j l' Hl' Hj. destruct (decide (j = i)) as [->|]; [congruence|].
    apply (Habove j l' Hl'). lia.
  - simpl hd. destruct Hc as (He & _). rewrite (proj2 (Z.eqb_neq e _)) by done.
    apply Forall_cons in Hes as [(k & Hk & Hkr & _) _].
    assert (n <= k → wp (let! next := entry_next e in
      (if next =? nullptr
       then modify (λ s, set_tails (<[i := nullptr]> (free_list_tails_ s)) s) else ret tt) ;;
      Unlink e (Z.of_nat i) ;; modify (set_biggest (Z.of_nat i)) ;;
      let! h := header_at e in ret (mkBlock e (AllocatedSize h))) (allocated s ls n) s) as Htake.
    { intros Hnk. eapply wp_mono; [by apply (take_head s ls i e l k Hr Hl Hk)|].
      intros b s' (-> & Hh & Hr'). split; [done|]. right. cbn. split; [done|]. split; [done|].
      split; [done|]. exists (<[i := l]> ls). split; [done|]. by apply concat_alter_tail. }
    destruct (2 ^ Z.of_nat i <? n) eqn:E; zbool.
    + unfold header_at at 1. wp_step. destruct Hk as (Hk & Hks & Hki). rewrite Hk. wp_step.
      rewrite header_size by done. destruct (k <? n) eqn:E2; zbool; [wp_step; by apply Hfail|].
      by apply Htake.
    + apply Htake. lia.
Qed.

Lemma wp_FreeList_Allocate s ls n :
  fl_rep s ls → 0 < n → wp (FreeList_Allocate n) (allocated s ls n) s.
Proof using P.
  intros Hr Hn. unfold FreeList_Allocate. wp_step. pose proof (fl_biggest _ _ Hr).
  apply wp_allocate_loop; [done|done|lia|].
  intros j l Hl Hj. apply (fl_above _ _ Hr j l Hl). lia.
Qed.

Lemma wp_Clear s ls (Q : unit → Space → Prop) :
  fl_rep s ls →
  (∀ s', headers s' = headers s → nexts s' = nexts s → fl_rep s' (replicate 17 []) → Q tt s') →
  wp Clear Q s.
Proof.
  intros Hr HQ. unfold Clear. wp_step. apply HQ; [done..|].
  rewrite (fl_heads _ _ Hr), (fl_tails _ _ Hr). split;
    cbn [headers nexts free_list_heads_ free_list_tails_ biggest_free_list_index_]; try done.
  - intros i l (-> & Hi)%lookup_replicate. split;
    cbn [headers nexts free_list_heads_ free_list_tails_]; [| |done|by constructor];
      by apply lookup_replicate_2.
  - constructor.
  - intros i l (-> & _)%lookup_replicate. done.
Qed.

Lemma concat_empty : concat (replicate 17 ([] : list Z)) = [].
Proof. done. Qed.
End free_list.
