(* ===== verification/Job.v ===== *)
(** * Jobs: [WASMv8bindings/src/heap/internal/platform.cc]

    [DefaultJobHandle] and [Platform::PostJob].  There is no pool of workers: a job
    runs on the thread that posts or joins it, as long as it asks for another
    worker.  The job's own state is [S], and what its task does is any computation
    on the handle (by way of the delegate) and that state. *)
From Stdlib Require Import ZArith Lia.
From stdpp Require Import base list.
From S2P Require Import Prelude.

Inductive TaskPriority := kBestEffort | kUserVisible | kUserBlocking.
#[export] Instance TaskPriority_eq_dec : EqDecision TaskPriority.
Proof. solve_decision. Defined.

(** [task_id_] is kept by the delegate. *)
Record JobHandle := mkJobHandle {
  has_task_ : bool;
  cancelled_ : bool;
  running_ : bool;
  completed_ : bool;
  joining_ : bool;
  task_id_ : Z;
  priority_ : TaskPriority
}.

Definition new_handle (priority : TaskPriority) : JobHandle :=
  mkJobHandle true false false false false 0 priority.

Definition ShouldYield (h : JobHandle) : bool := cancelled_ h.
Definition IsJoiningThread (h : JobHandle) : bool := joining_ h.
Definition IsActive (h : JobHandle) : bool := negb (completed_ h) && (running_ h || has_task_ h).
Definition IsValid (h : JobHandle) : bool := negb (completed_ h).

(** [Cancel], [CancelAndDetach]. *)
Definition Drop (h : JobHandle) : JobHandle :=
  mkJobHandle false true false true (joining_ h) (task_id_ h) (priority_ h).

Section job.
Context {S : Type}.

Record JobTask := mkJobTask {
  Run : M (JobHandle * S) unit;
  GetMaxConcurrency : nat → S → nat
}.

Definition on_handle (f : JobHandle → JobHandle) : M (JobHandle * S) unit :=
  modify (λ x, (f x.1, x.2)).

Definition start_running (h : JobHandle) : JobHandle :=
  mkJobHandle (has_task_ h) (cancelled_ h) true (completed_ h) (joining_ h) (task_id_ h) (priority_ h).
Definition stop_running (h : JobHandle) : JobHandle :=
  mkJobHandle false (cancelled_ h) false true (joining_ h) (task_id_ h) (priority_ h).
Definition set_joining (b : bool) (h : JobHandle) : JobHandle :=
  mkJobHandle (has_task_ h) (cancelled_ h) (running_ h) (completed_ h) b (task_id_ h) (priority_ h).
Definition set_task_id (n : nat) (h : JobHandle) : JobHandle :=
  mkJobHandle (has_task_ h) (cancelled_ h) (running_ h) (completed_ h) (joining_ h)
    (u8 (Z.of_nat n)) (priority_ h).
Definition set_priority (p : TaskPriority) (h : JobHandle) : JobHandle :=
  mkJobHandle (has_task_ h) (cancelled_ h) (running_ h) (completed_ h) (joining_ h) (task_id_ h) p.

Section task.
Variable task : JobTask.

(** The task is gone once [Drop] has run inside its own [Run]: calling it again is
    undefined behaviour. *)
Fixpoint run_loop (fuel worker_count : nat) : M (JobHandle * S) unit :=
  let! x := get in
  if negb (has_task_ x.1) then ub
  else if (worker_count <? GetMaxConcurrency task worker_count x.2)%nat && negb (ShouldYield x.1) then
    match fuel with
    | O => ub
    | Datatypes.S fuel =>
        on_handle (set_task_id worker_count) ;; Run task ;; run_loop fuel (Datatypes.S worker_count)
    end
  else ret tt.

Definition RunWorkers (fuel : nat) : M (JobHandle * S) unit :=
  let! x := get in
  if completed_ x.1 || negb (has_task_ x.1) then ret tt
  else on_handle start_running ;; run_loop fuel 0 ;; on_handle stop_running.

Definition Join (fuel : nat) : M (JobHandle * S) unit :=
  on_handle (set_joining true) ;; RunWorkers fuel ;; on_handle (set_joining false).

Definition NotifyConcurrencyIncrease (fuel : nat) : M (JobHandle * S) unit :=
  let! x := get in
  let h := x.1 in
  if joining_ h && negb (running_ h) && has_task_ h && negb (completed_ h)
  then RunWorkers fuel else ret tt.

Definition UpdatePriority (fuel : nat) (new_priority : TaskPriority) : M (JobHandle * S) unit :=
  let! x := get in
  if decide (new_priority = priority_ x.1) then ret tt
  else
    on_handle (set_priority new_priority) ;;
    let h := x.1 in
    if negb (bool_decide (new_priority = kBestEffort)) && negb (completed_ h) &&
       negb (running_ h) && has_task_ h
    then Join fuel else ret tt.

(** [PostJob], with the task not null. *)
Definition PostJob (fuel : nat) (priority : TaskPriority) : M S JobHandle :=
  λ s,
  match (if decide (priority = kBestEffort) then ret tt else Join fuel)
          (new_handle priority, s) with
  | Some (_, x) => Some x
  | None => None
  end.

(** [handle->Join()] by the owner of the handle, and its destructor. *)
Definition join_handle (fuel : nat) (handle : JobHandle) : M S JobHandle :=
  λ s, match Join fuel (handle, s) with Some (_, x) => Some x | None => None end.
Definition destroy_handle (fuel : nat) (handle : JobHandle) : M S unit :=
  if IsValid handle then join_handle fuel handle ;; ret tt else ret tt.
End task.
End job.
Arguments JobTask : clear implicits.

(** ** Properties

    [Join] returns when the task asks for no more workers than have run already,
    which need not mean that its work is done. *)

(** A task with a queue of items, of which each [Run] takes one, and which asks for
    as many workers as there are items. *)
Definition take_item : JobTask nat :=
  mkJobTask (λ x, Some (tt, (x.1, pred x.2))) (λ _ n, n).

Section job.
Context {S : Type}.

(** A task that runs to the end: it does not cancel its own job. *)
Record runs (task : JobTask S) (bound : nat) : Prop := {
  rn_max : ∀ k s, (GetMaxConcurrency task k s <= bound)%nat;
  rn_run : ∀ h s, has_task_ h = true → completed_ h = false →
    ∃ h' s', Run task (h, s) = Some (tt, (h', s')) ∧ has_task_ h' = true ∧ completed_ h' = false
}.

Lemma run_loop_ends task bound fuel k h s :
  runs task bound → has_task_ h = true → completed_ h = false → (bound <= k + fuel)%nat →
  ∃ h' s', run_loop task fuel k (h, s) = Some (tt, (h', s')).
Proof.
  intros Hr. revert k h s. induction fuel as [|fuel IH]; intros k h s Ht Hc Hb;
    pose proof (rn_max _ _ Hr k s) as Hm; cbn [run_loop]; unfold bind, get; cbn; rewrite Ht; cbn.
  - destruct (_ && _) eqn:E; [|by eexists _, _].
    apply andb_prop in E as [E _]. apply Nat.ltb_lt in E. lia.
  - destruct (_ && _) eqn:E; [|by eexists _, _]. unfold on_handle, modify. cbn.
    destruct (rn_run _ _ Hr (set_task_id k h) s Ht Hc) as (h' & s' & -> & Ht' & Hc').
    apply IH; [done|done|lia].
Qed.

(** [Join] returns: if the task never asks for more than [bound] workers and
    does not fail or cancel its job, it is run at most [bound] times, and then the
    job is completed. *)
Theorem Join_ends (task : JobTask S) bound p s :
  runs task bound →
  ∃ h' s', Join task bound (new_handle p, s) = Some (tt, (h', s')) ∧ IsValid h' = false ∧
    IsActive h' = false.
Proof.
  intros Hr. unfold Join, RunWorkers, bind, on_handle, modify, get. cbn. unfold bind. cbn.
  destruct (run_loop_ends task bound bound 0 (start_running (set_joining true (new_handle p))) s Hr)
    as (h' & s' & E); [done|done|lia|].
  rewrite E. by eexists _, _.
Qed.
End job.

(** What is left of [n] items when [k] workers have run. *)
Definition left_over (n k : nat) : nat := n - (n - k + 1) / 2.

Lemma left_over_step n k : (k < n)%nat → left_over (pred n) (S k) = left_over n k.
Proof.
  intros Hk. unfold left_over. destruct (decide (n = S k)) as [->|Hne].
  - replace (pred (S k) - S k + 1)%nat with 1%nat by lia. replace (S k - k + 1)%nat with 2%nat by lia.
    change (1 / 2)%nat with 0%nat. change (2 / 2)%nat with 1%nat. lia.
  - replace (n - k + 1)%nat with (pred n - S k + 1 + 1 * 2)%nat by lia. rewrite Nat.div_add by lia. lia.
Qed.

Lemma left_over_done n k : (n <= k)%nat → left_over n k = n.
Proof.
  intros Hk. unfold left_over. replace (n - k + 1)%nat with 1%nat by lia.
  change (1 / 2)%nat with 0%nat. lia.
Qed.

Lemma take_items fuel : ∀ n k h,
  has_task_ h = true → cancelled_ h = false → (n <= fuel + k)%nat →
  ∃ h', run_loop take_item fuel k (h, n) = Some (tt, (h', left_over n k)).
Proof.
  induction fuel as [|fuel IH]; intros n k h Ht Hc Hf; cbn [run_loop]; unfold bind, get; cbn -[Nat.ltb];
    rewrite Ht; cbn -[Nat.ltb]; unfold ShouldYield; rewrite Hc.
  all: destruct (decide (k < n)%nat) as [Hk|Hk].
  all: try (rewrite (proj2 (Nat.ltb_ge k n)) by lia; rewrite left_over_done by lia; by exists h).
  rewrite (proj2 (Nat.ltb_lt k n)) by lia. cbn. unfold on_handle, modify. cbn.
  rewrite <- left_over_step by done. apply IH; [done|done|lia].
Qed.

(** [Join] leaves work undone: the loop compares the number of runs so far, not
    that of running workers, with what the task asks for, so that of [n] items of
    which each run takes one, half are still there when the job has completed and
    dropped its task. *)
Theorem Join_leaves_work n p :
  ∃ h', Join take_item n (new_handle p, n) = Some (tt, (h', n / 2)%nat) ∧
    has_task_ h' = false ∧ IsValid h' = false.
Proof.
  destruct (take_items n n 0 (start_running (set_joining true (new_handle p)))) as [h' E]; [done|done|lia|].
  assert (left_over n 0 = n / 2)%nat as E2.
  { unfold left_over. rewrite Nat.sub_0_r.
    pose proof (Nat.div_mod_eq n 2). pose proof (Nat.mod_upper_bound n 2 ltac:(lia)).
    pose proof (Nat.div_mod_eq (n + 1) 2). pose proof (Nat.mod_upper_bound (n + 1) 2 ltac:(lia)). lia. }
  rewrite E2 in E. exists (set_joining false (stop_running h')). split; [|done].
  unfold Join, RunWorkers, bind, on_handle, modify, get. cbn -[Nat.div]. unfold bind. cbn -[Nat.div].
  by rewrite E.
Qed.

(** A task that runs once. *)
Definition once : JobTask bool := mkJobTask (λ x, Some (tt, (x.1, true))) (λ k _, if (k <? 1)%nat then 1%nat else 0%nat).

Lemma once_runs : runs once 1.
Proof.
  split.
  - intros k s. cbn -[Nat.ltb]. destruct (k <? 1)%nat; lia.
  - intros h s Ht Hc. by exists h, true.
Qed.

Lemma Join_ends_witness :
  runs once 1 ∧
  ∃ h' s', Join once 1 (new_handle kBestEffort, false) = Some (tt, (h', s')) ∧ IsValid h' = false ∧
    IsActive h' = false.
Proof. split; [apply once_runs|]. exact (Join_ends once 1 kBestEffort false once_runs). Defined.
