(* ===== verification/GcHeap.v ===== *)
(** * The collected heap: [WASMv8bindings/src/heap/internal/heap.{h,cc}]

    Also [gc-info-table.{h,cc}], [marking-visitor.h], [normal-page.h] and, of
    [include/cppgc], [persistent.h], [internal/persistent-node.h], [member.h],
    [visitor.h] and [allocation.h].

    What objects hold is known to the collector by their [Trace] methods only:
    [fields] is the list of [Member]s, [WeakMember]s and [UntracedMember]s of each
    constructed object, by the address of the object, in the order in which its
    [Trace] visits them.  [finalized] lists the objects whose finalizer has run.

    The addresses that [new] and the sandbox return are arguments ([nullptr] for a
    failure).  An allocation ends with an object or ends the process, in one of three
    ways ([Allocation]): the check of the size, the check of [Sandbox::Allocate], or the
    out-of-memory handler.  All other failed checks are undefined here ([None]), and
    shown not to happen. *)
From Stdlib Require Import ZArith Lia.
From stdpp Require Import base list gmap.
From S2P Require Import Prelude Sandbox GcSpace Job.

(** ** [GCInfoTable] *)

(** Whether the type has a finalizer; its trace callback visits [fields]. *)
Record GCInfo := mkGCInfo { finalize : bool }.

Record GCInfoTable := mkGCInfoTable {
  table_ : gmap Z GCInfo;
  current_index_ : Z;
  limit_ : Z
}.

Definition kMaxIndex : Z := Z.shiftl 1 14.
Definition kMinIndex : Z := 1.
Definition kInitialWantedLimit : Z := 512.

Definition Resize : M GCInfoTable unit :=
  let! t := get in
  let new_limit := if limit_ t =? 0 then kInitialWantedLimit else u16 (2 * limit_ t) in
  CHECK (limit_ t <? new_limit) ;;
  let clamped_limit := Z.min new_limit kMaxIndex in
  CHECK (limit_ t <? clamped_limit) ;;
  put (mkGCInfoTable (table_ t) (current_index_ t) clamped_limit).

Definition new_table : M GCInfoTable unit :=
  put (mkGCInfoTable ∅ kMinIndex 0) ;; Resize.

(** The result is also the new value of [registered_index]. *)
Definition RegisterNewGCInfo (registered_index : Z) (info : GCInfo) : M GCInfoTable Z :=
  if negb (registered_index =? 0) then ret registered_index
  else
    let! t := get in
    (if current_index_ t =? limit_ t then Resize else ret tt) ;;
    let! t := get in
    let new_index := current_index_ t in
    CHECK (new_index <? kMaxIndex) ;;
    put (mkGCInfoTable (<[new_index := info]> (table_ t)) (u16 (new_index + 1)) (limit_ t)) ;;
    ret new_index.

Definition GCInfoFromIndex (t : GCInfoTable) (index : Z) : option GCInfo :=
  if (kMinIndex <=? index) && (index <? kMaxIndex) then table_ t !! index else None.

(** ** [PersistentRegion]

    A node is named by its position in the slabs of 256 nodes, in order. *)

Inductive PersistentNode := UsedNode (owner_ : Z) | FreeNode (next_ : option nat).

Record PersistentRegion := mkRegion {
  nodes_ : list PersistentNode;
  free_list_head_ : option nat;
  nodes_in_use_ : Z
}.

Definition new_region : PersistentRegion := mkRegion [] None 0.
Definition kSlots : nat := 256.
Definition IsUsed (n : PersistentNode) : bool :=
  match n with UsedNode _ => true | FreeNode _ => false end.

Definition TryAllocateNodeFromFreeList (owner : Z) : M PersistentRegion (option nat) :=
  let! r := get in
  match free_list_head_ r with
  | None => ret None
  | Some k =>
      match nodes_ r !! k with
      | Some (FreeNode next) =>
          put (mkRegion (<[k := UsedNode owner]> (nodes_ r)) next (u64 (nodes_in_use_ r + 1))) ;;
          ret (Some k)
      | _ => ub
      end
  end.

(** The nodes from position [k] on, each put at the head of the free list. *)
Fixpoint free_nodes (k n : nat) (head : option nat) : list PersistentNode * option nat :=
  match n with
  | O => ([], head)
  | S n => let r := free_nodes (S k) n (Some k) in (FreeNode head :: r.1, r.2)
  end.

Definition RefillFreeListAndAllocateNode (owner : Z) : M PersistentRegion nat :=
  let! r := get in
  let slots := free_nodes (length (nodes_ r)) kSlots (free_list_head_ r) in
  put (mkRegion (nodes_ r ++ slots.1) slots.2 (nodes_in_use_ r)) ;;
  let! node := TryAllocateNodeFromFreeList owner in
  of_option node.

Definition AllocateNode (owner : Z) : M PersistentRegion nat :=
  let! node := TryAllocateNodeFromFreeList owner in
  match node with Some k => ret k | None => RefillFreeListAndAllocateNode owner end.

Definition FreeNode_ (node : nat) : M PersistentRegion unit :=
  let! r := get in
  match nodes_ r !! node with
  | Some (UsedNode _) =>
      CHECK (0 <? nodes_in_use_ r) ;;
      put (mkRegion (<[node := FreeNode (free_list_head_ r)]> (nodes_ r)) (Some node)
             (nodes_in_use_ r - 1))
  | _ => ub
  end.

Definition UpdateOwner (node : nat) (owner : Z) : M PersistentRegion unit :=
  let! r := get in
  match nodes_ r !! node with
  | Some (UsedNode _) =>
      put (mkRegion (<[node := UsedNode owner]> (nodes_ r)) (free_list_head_ r) (nodes_in_use_ r))
  | _ => ub
  end.

(** ** The heap *)

Record NormalPage := mkPage { memory_ : Z; sandboxed_ : bool }.

Inductive MemberTag := StrongMemberTag | WeakMemberTag | UntracedMemberTag.
Record BasicMember := mkMember { member_tag : MemberTag; storage_ : Z }.

(** [Persistent] and [WeakPersistent]; [region_] is the region of its kind while
    there is a node. *)
Record BasicPersistent := mkPersistent {
  IsStrongPersistent : bool;
  value_ : Z;
  node_ : option nat
}.

Record Heap := mkHeap {
  space : Space;
  normal_pages_ : list NormalPage;
  lab_start : Z;
  lab_size : Z;
  large_objects_ : list Z;
  strong_persistents_ : PersistentRegion;
  weak_persistents_ : PersistentRegion;
  persistents : gmap Z BasicPersistent;
  fields : gmap Z (list BasicMember);
  gc_infos : GCInfoTable;
  finalized : list Z
}.

Definition set_space (x : Space) (h : Heap) : Heap :=
  mkHeap x (normal_pages_ h) (lab_start h) (lab_size h) (large_objects_ h) (strong_persistents_ h)
    (weak_persistents_ h) (persistents h) (fields h) (gc_infos h) (finalized h).
Definition set_pages (x : list NormalPage) (h : Heap) : Heap :=
  mkHeap (space h) x (lab_start h) (lab_size h) (large_objects_ h) (strong_persistents_ h)
    (weak_persistents_ h) (persistents h) (fields h) (gc_infos h) (finalized h).
Definition set_lab (start size : Z) (h : Heap) : Heap :=
  mkHeap (space h) (normal_pages_ h) start size (large_objects_ h) (strong_persistents_ h)
    (weak_persistents_ h) (persistents h) (fields h) (gc_infos h) (finalized h).
Definition set_large (x : list Z) (h : Heap) : Heap :=
  mkHeap (space h) (normal_pages_ h) (lab_start h) (lab_size h) x (strong_persistents_ h)
    (weak_persistents_ h) (persistents h) (fields h) (gc_infos h) (finalized h).
Definition set_region (strong : bool) (x : PersistentRegion) (h : Heap) : Heap :=
  mkHeap (space h) (normal_pages_ h) (lab_start h) (lab_size h) (large_objects_ h)
    (if strong then x else strong_persistents_ h) (if strong then weak_persistents_ h else x)
    (persistents h) (fields h) (gc_infos h) (finalized h).
Definition set_persistents (x : gmap Z BasicPersistent) (h : Heap) : Heap :=
  mkHeap (space h) (normal_pages_ h) (lab_start h) (lab_size h) (large_objects_ h)
    (strong_persistents_ h) (weak_persistents_ h) x (fields h) (gc_infos h) (finalized h).
Definition set_fields (x : gmap Z (list BasicMember)) (h : Heap) : Heap :=
  mkHeap (space h) (normal_pages_ h) (lab_start h) (lab_size h) (large_objects_ h)
    (strong_persistents_ h) (weak_persistents_ h) (persistents h) x (gc_infos h) (finalized h).
Definition set_finalized (x : list Z) (h : Heap) : Heap :=
  mkHeap (space h) (normal_pages_ h) (lab_start h) (lab_size h) (large_objects_ h)
    (strong_persistents_ h) (weak_persistents_ h) (persistents h) (fields h) (gc_infos h) x.

Definition GetPersistentRegion (strong : bool) (h : Heap) : PersistentRegion :=
  if strong then strong_persistents_ h else weak_persistents_ h.

(** A computation on a part of the heap. *)
Definition on_space {A} (m : M Space A) : M Heap A :=
  λ h, match m (space h) with Some (a, s) => Some (a, set_space s h) | None => None end.
Definition on_region {A} (strong : bool) (m : M PersistentRegion A) : M Heap A :=
  λ h, match m (GetPersistentRegion strong h) with
       | Some (a, r) => Some (a, set_region strong r h)
       | None => None
       end.

(** Bytes from [lo] up to [hi] no longer hold what the heap wrote there. *)
Definition clobber {A} (lo hi : Z) (m : gmap Z A) : gmap Z A :=
  filter (λ '(a, _), ¬ (lo ≤ a < hi)) m.
Definition clobber_space (lo hi : Z) (s : Space) : Space :=
  set_headers (clobber lo hi) (set_nexts (clobber lo hi) s).

Section heap.
Context `{Platform}.

Definition RoundUp (value alignment : Z) : Z :=
  Z.land (uw (value + alignment - 1)) (uw (Z.lnot (uw (alignment - 1)))).

(** [NormalPage]. *)
Definition PayloadSize : Z := kPageSize - kAllocationGranularity.
Definition PayloadStart (p : NormalPage) : Z := memory_ p.
Definition PayloadEnd (p : NormalPage) : Z := memory_ p + PayloadSize.

Definition new_heap (t : GCInfoTable) : Heap :=
  mkHeap new_space [] nullptr 0 [] new_region new_region ∅ ∅ t [].

(** ** Allocation *)

Definition ReplaceLinearAllocationBuffer (new_start new_size : Z) : M Heap unit :=
  let! h := get in
  (if 0 <? lab_size h then on_space (FreeList_Add (mkBlock (lab_start h) (lab_size h)))
   else ret tt) ;;
  modify (set_lab new_start new_size).

(** [true], [false], or the process ends in [Sandbox::Allocate]. *)
Inductive Refill := Refilled | PageRefused | SandboxFull.

(** [page] is what [NormalPage::Create] obtained: it returns null for a refusal of
    [new], but a refusal of the sandbox fails the check of [Sandbox::Allocate]. *)
Definition RefillLinearAllocationBuffer (page : NormalPage) (size : Z) : M Heap Refill :=
  let! block := on_space (FreeList_Allocate size) in
  if negb (address block =? nullptr) then
    ReplaceLinearAllocationBuffer (address block) (bsize block) ;; ret Refilled
  else
    if memory_ page =? nullptr then ret (if sandboxed_ page then SandboxFull else PageRefused)
    else
      modify (λ h, set_pages (normal_pages_ h ++ [page]) h) ;;
      ReplaceLinearAllocationBuffer (PayloadStart page) PayloadSize ;;
      ret Refilled.

(** [LinearAllocationBuffer::Allocate]. *)
Definition lab_Allocate (allocation_size : Z) : M Heap Z :=
  let! h := get in
  CHECK (allocation_size <=? lab_size h) ;;
  modify (set_lab (lab_start h + allocation_size) (lab_size h - allocation_size)) ;;
  ret (lab_start h).

(** How an allocation ends. *)
Inductive Allocation := Allocates (object : Z) | SizeCheckFails | SandboxCheckFails | OutOfMemory.

Definition AllocateLarge (base allocation_size gc_info_index : Z) : M Heap Allocation :=
  if base =? nullptr then ret OutOfMemory
  else
    on_space (construct_header base allocation_size gc_info_index) ;;
    modify (λ h, set_large (large_objects_ h ++ [base]) h) ;;
    ret (Allocates (ObjectStart base)).

(** ** Marking: [MarkingVisitor]

    The back of [worklist_] is the head of the list. *)

Inductive Slot := MemberSlot (object : Z) (i : nat) | PersistentSlot (owner : Z).
Record MarkingVisitor := mkVisitor { worklist_ : list Z; weak_edges_ : list (Z * Slot) }.

Definition set_worklist (l : list Z) (x : Heap * MarkingVisitor) : Heap * MarkingVisitor :=
  (x.1, mkVisitor l (weak_edges_ x.2)).

Definition on_heap {A} (m : M Heap A) : M (Heap * MarkingVisitor) A :=
  λ x, match m x.1 with Some (a, h) => Some (a, (h, x.2)) | None => None end.

Definition Visit (object : Z) : M (Heap * MarkingVisitor) unit :=
  let header := FromObject object in
  let! hd := on_heap (on_space (header_at header)) in
  let r := TryMarkAtomic hd in
  on_heap (on_space (modify (set_headers <[header := r.2]>))) ;;
  if r.1 then modify (λ x, set_worklist (object :: worklist_ x.2) x) else ret tt.

Definition VisitWeak (object : Z) (slot : Slot) : M (Heap * MarkingVisitor) unit :=
  modify (λ x, (x.1, mkVisitor (worklist_ x.2) (weak_edges_ x.2 ++ [(object, slot)]))).

Definition TraceStrong (object : Z) : M (Heap * MarkingVisitor) unit :=
  if object =? nullptr then ret tt else Visit object.
Definition TraceWeak (object : Z) (slot : Slot) : M (Heap * MarkingVisitor) unit :=
  if object =? nullptr then ret tt else VisitWeak object slot.

(** What a [Trace] method does with the members of [object] from the [i]th on. *)
Fixpoint trace_members (object : Z) (i : nat) (l : list BasicMember)
    : M (Heap * MarkingVisitor) unit :=
  match l with
  | [] => ret tt
  | m :: l =>
      match member_tag m with
      | StrongMemberTag => TraceStrong (storage_ m)
      | WeakMemberTag => TraceWeak (storage_ m) (MemberSlot object i)
      | UntracedMemberTag => ret tt
      end ;;
      trace_members object (S i) l
  end.

Definition trace_object (object : Z) : M (Heap * MarkingVisitor) unit :=
  let! x := get in
  let! l := of_option (fields x.1 !! object) in
  trace_members object 0 l.

Fixpoint RunToFixpoint (fuel : nat) : M (Heap * MarkingVisitor) unit :=
  let! x := get in
  match worklist_ x.2 with
  | [] => ret tt
  | object :: rest =>
      match fuel with
      | O => ub
      | S fuel =>
          modify (set_worklist rest) ;; trace_object object ;; RunToFixpoint fuel
      end
  end.

(** [BasicPersistent::Trace]. *)
Definition trace_persistent (owner : Z) : M (Heap * MarkingVisitor) unit :=
  let! x := get in
  let! p := of_option (persistents x.1 !! owner) in
  if IsStrongPersistent p then TraceStrong (value_ p)
  else TraceWeak (value_ p) (PersistentSlot owner).

(** [PersistentRegion::Iterate]: [done] is what it has seen of the nodes. *)
Fixpoint iterate_nodes (strong : bool) (k : nat) (nodes : list PersistentNode)
    : M (Heap * MarkingVisitor) unit :=
  match nodes with
  | [] => ret tt
  | UsedNode owner :: nodes => trace_persistent owner ;; iterate_nodes strong (S k) nodes
  | FreeNode _ :: nodes =>
      on_heap (on_region strong (modify (λ r,
        mkRegion (<[k := FreeNode (free_list_head_ r)]> (nodes_ r)) (Some k) (nodes_in_use_ r)))) ;;
      iterate_nodes strong (S k) nodes
  end.

Definition Iterate (strong : bool) : M (Heap * MarkingVisitor) unit :=
  on_heap (on_region strong (modify (λ r, mkRegion (nodes_ r) None (nodes_in_use_ r)))) ;;
  let! x := get in
  iterate_nodes strong 0 (nodes_ (GetPersistentRegion strong x.1)).

(** [entry.clear(entry.slot)]. *)
Definition clear_slot (slot : Slot) : M Heap unit :=
  let! h := get in
  match slot with
  | MemberSlot object i =>
      let! l := of_option (fields h !! object) in
      let! m := of_option (l !! i) in
      put (set_fields (<[object := <[i := mkMember (member_tag m) nullptr]> l]> (fields h)) h)
  | PersistentSlot owner =>
      let! p := of_option (persistents h !! owner) in
      put (set_persistents
        (<[owner := mkPersistent (IsStrongPersistent p) nullptr (node_ p)]> (persistents h)) h)
  end.

Fixpoint process_edges (edges : list (Z * Slot)) : M Heap unit :=
  match edges with
  | [] => ret tt
  | (target, slot) :: edges =>
      let! hd := on_space (header_at (FromObject target)) in
      (if IsMarked hd then ret tt else clear_slot slot) ;;
      process_edges edges
  end.

Definition ProcessWeakEdges : M (Heap * MarkingVisitor) unit :=
  let! x := get in
  on_heap (process_edges (weak_edges_ x.2)) ;;
  modify (λ x, (x.1, mkVisitor (worklist_ x.2) [])).

(** One unit of fuel per header in memory: every object is traced once. *)
Definition Mark : M Heap unit :=
  λ h,
  match (Iterate true ;;
         RunToFixpoint (size (headers (space h))) ;;
         Iterate false ;;
         ProcessWeakEdges) (h, mkVisitor [] []) with
  | Some (_, x) => Some (tt, x.1)
  | None => None
  end.

(** ** Sweeping *)

(** [Finalize], and the end of the object's lifetime. *)
Definition Finalize (header : Z) : M Heap unit :=
  let! h := get in
  let! hd := of_option (headers (space h) !! header) in
  let! info := of_option (GCInfoFromIndex (gc_infos h) (GetGCInfoIndex hd)) in
  (if finalize info then modify (λ h, set_finalized (finalized h ++ [ObjectStart header]) h)
   else ret tt) ;;
  modify (λ h, set_fields (delete (ObjectStart header) (fields h)) h).

(** The walk of [SweepNormalPage]: at [current], with the start of the run of free
    bytes that ends there, if any. *)
Fixpoint sweep_walk (fuel : nat) (e current : Z) (free_run_start : option Z)
    (free_runs : list Block) (live_bytes : Z) : M Heap (list Block * Z) :=
  if current <? e then
    match fuel with
    | O => ub
    | S fuel =>
        let! hd := on_space (header_at current) in
        let size := AllocatedSize hd in
        let is_free := IsFree hd in
        if is_free || negb (IsMarked hd) then
          (if is_free then ret tt else Finalize current) ;;
          sweep_walk fuel e (current + size)
            (Some (default current free_run_start)) free_runs live_bytes
        else
          let! hd := of_option (Unmark hd) in
          on_space (modify (set_headers <[current := hd]>)) ;;
          sweep_walk fuel e (current + size) None
            match free_run_start with
            | Some start => free_runs ++ [mkBlock start (current - start)]
            | None => free_runs
            end (live_bytes + size)
    end
  else ret (match free_run_start with
            | Some start => free_runs ++ [mkBlock start (e - start)]
            | None => free_runs
            end, live_bytes).

(** A page holds at most one object per granule. *)
Definition SweepNormalPage (page : NormalPage) : M Heap (list Block * Z) :=
  sweep_walk (Z.to_nat (PayloadSize / kAllocationGranularity))
    (PayloadEnd page) (PayloadStart page) None [] 0.

(** [NormalPage::Destroy]. *)
Definition Destroy (page : NormalPage) : M Heap unit :=
  modify (λ h, set_space (clobber_space (memory_ page) (memory_ page + kPageSize) (space h)) h).

Fixpoint add_runs (runs : list Block) : M Heap unit :=
  match runs with
  | [] => ret tt
  | run :: runs => on_space (FreeList_Add run) ;; add_runs runs
  end.

Fixpoint sweep_pages (pages surviving : list NormalPage) : M Heap (list NormalPage) :=
  match pages with
  | [] => ret surviving
  | page :: pages =>
      let! r := SweepNormalPage page in
      if r.2 =? 0 then Destroy page ;; sweep_pages pages surviving
      else add_runs r.1 ;; sweep_pages pages (surviving ++ [page])
  end.

Fixpoint sweep_large (large surviving : list Z) : M Heap (list Z) :=
  match large with
  | [] => ret surviving
  | header :: large =>
      let! hd := on_space (header_at header) in
      if IsMarked hd then
        let! hd' := of_option (Unmark hd) in
        on_space (modify (set_headers <[header := hd']>)) ;;
        sweep_large large (surviving ++ [header])
      else
        Finalize header ;;
        modify (λ h, set_space (clobber_space header (header + AllocatedSize hd) (space h)) h) ;;
        sweep_large large surviving
  end.

Definition Sweep : M Heap unit :=
  ReplaceLinearAllocationBuffer nullptr 0 ;;
  on_space Clear ;;
  let! h := get in
  let! surviving_pages := sweep_pages (normal_pages_ h) [] in
  modify (set_pages surviving_pages) ;;
  let! h := get in
  let! surviving_large := sweep_large (large_objects_ h) [] in
  modify (set_large surviving_large).
End heap.

Section collect.
Context `{Platform}.

(** [GcJob]. *)
Definition GcJob (phase : M Heap unit) : JobTask Heap :=
  mkJobTask
    (λ x, if ShouldYield x.1 then Some (tt, x)
          else match phase x.2 with Some (_, h) => Some (tt, (x.1, h)) | None => None end)
    (λ worker_count _, if (worker_count <? 1)%nat then 1%nat else 0%nat).

Definition RunGcJob (phase : M Heap unit) : M Heap unit :=
  let! handle := PostJob (GcJob phase) 1 kUserBlocking in
  let! handle := join_handle (GcJob phase) 1 handle in
  destroy_handle (GcJob phase) 1 handle.

Definition CollectGarbage : M Heap unit := RunGcJob Mark ;; RunGcJob Sweep.

(** [page] and [page'] are what [NormalPage::Create] obtains the first and the
    second time. *)
Definition AllocateNormal (page page' : NormalPage) (allocation_size gc_info_index : Z)
    : M Heap Allocation :=
  let! h := get in
  let! refill :=
    (if lab_size h <? allocation_size then
       let! refill := RefillLinearAllocationBuffer page allocation_size in
       match refill with
       | PageRefused => CollectGarbage ;; RefillLinearAllocationBuffer page' allocation_size
       | _ => ret refill
       end
     else ret Refilled) in
  match refill with
  | SandboxFull => ret SandboxCheckFails
  | PageRefused => ret OutOfMemory
  | Refilled =>
      let! raw := lab_Allocate allocation_size in
      on_space (construct_header raw allocation_size gc_info_index) ;;
      ret (Allocates (ObjectStart raw))
  end.

(** [base] is what [new] obtains for a large object. *)
Definition Allocate (page page' : NormalPage) (base object_size gc_info_index : Z)
    : M Heap Allocation :=
  let allocation_size := RoundUp (uw (sizeof_HeapObjectHeader + object_size)) kAllocationGranularity in
  if negb (allocation_size <=? kMaxSize) then ret SizeCheckFails
  else if kLargeObjectSizeThreshold <=? allocation_size
  then AllocateLarge base allocation_size gc_info_index
  else AllocateNormal page page' allocation_size gc_info_index.

(** The constructor that [MakeGarbageCollected] runs on the memory it obtained, as
    far as the collector can see: the object's bytes are written and its members
    hold [members]. *)
Definition construct_object (object : Z) (members : list BasicMember) : M Heap unit :=
  let! hd := on_space (header_at (FromObject object)) in
  modify (λ h, set_space (clobber_space object (object + ObjectSize hd) (space h)) h) ;;
  modify (λ h, set_fields (<[object := members]> (fields h)) h).

Definition MarkObjectAsFullyConstructed (payload : Z) : M Heap unit :=
  let! hd := on_space (header_at (FromObject payload)) in
  on_space (modify (set_headers <[FromObject payload := MarkAsFullyConstructed hd]>)).

(** Assignment to a [Member] of a live object. *)
Definition set_member (object : Z) (i : nat) (raw : Z) : M Heap unit :=
  let! h := get in
  let! l := of_option (fields h !! object) in
  let! m := of_option (l !! i) in
  put (set_fields (<[object := <[i := mkMember (member_tag m) raw]> l]> (fields h)) h).

(** ** [BasicPersistent]: constructor, [Assign], [Clear], move, destructor *)

Definition new_persistent (this : Z) (strong : bool) : M Heap unit :=
  modify (λ h, set_persistents (<[this := mkPersistent strong nullptr None]> (persistents h)) h).

Definition put_persistent (this : Z) (p : BasicPersistent) : M Heap unit :=
  modify (λ h, set_persistents (<[this := p]> (persistents h)) h).

Definition free_node_of (p : BasicPersistent) : M Heap unit :=
  match node_ p with
  | Some node => on_region (IsStrongPersistent p) (FreeNode_ node)
  | None => ret tt
  end.

Definition Assign (this raw : Z) : M Heap unit :=
  let! h := get in
  let! p := of_option (persistents h !! this) in
  free_node_of p ;;
  if raw =? nullptr then put_persistent this (mkPersistent (IsStrongPersistent p) nullptr None)
  else
    let! node := on_region (IsStrongPersistent p) (AllocateNode this) in
    put_persistent this (mkPersistent (IsStrongPersistent p) raw (Some node)).

Definition Clear_persistent (this : Z) : M Heap unit :=
  let! h := get in
  let! p := of_option (persistents h !! this) in
  free_node_of p ;;
  put_persistent this (mkPersistent (IsStrongPersistent p) nullptr None).

Definition Move (this other : Z) : M Heap unit :=
  let! h := get in
  let! p := of_option (persistents h !! other) in
  match node_ p with
  | Some node => on_region (IsStrongPersistent p) (UpdateOwner node this)
  | None => ret tt
  end ;;
  put_persistent this p ;;
  put_persistent other (mkPersistent (IsStrongPersistent p) nullptr None).

Definition destroy_persistent (this : Z) : M Heap unit :=
  Clear_persistent this ;;
  modify (λ h, set_persistents (delete this (persistents h)) h).

(** ** [~Heap] *)

Fixpoint finalize_page (fuel : nat) (e current : Z) : M Heap unit :=
  if current <? e then
    match fuel with
    | O => ub
    | S fuel =>
        let! hd := on_space (header_at current) in
        (if IsFree hd then ret tt else Finalize current) ;;
        finalize_page fuel e (current + AllocatedSize hd)
    end
  else ret tt.

Fixpoint finalize_pages (pages : list NormalPage) : M Heap unit :=
  match pages with
  | [] => ret tt
  | page :: pages =>
      finalize_page (Z.to_nat (PayloadSize / kAllocationGranularity))
        (PayloadEnd page) (PayloadStart page) ;;
      Destroy page ;;
      finalize_pages pages
  end.

Fixpoint finalize_large (large : list Z) : M Heap unit :=
  match large with
  | [] => ret tt
  | header :: large =>
      let! hd := on_space (header_at header) in
      Finalize header ;;
      modify (λ h, set_space (clobber_space header (header + AllocatedSize hd) (space h)) h) ;;
      finalize_large large
  end.

Definition destroy_heap : M Heap unit :=
  ReplaceLinearAllocationBuffer nullptr 0 ;;
  let! h := get in
  finalize_pages (normal_pages_ h) ;;
  modify (set_pages []) ;;
  finalize_large (large_objects_ h) ;;
  modify (set_large []).
End collect.
