(* ===== verification/GcMark.v ===== *)
(** * Marking

    What [Mark] does, independently of where objects lie: the objects it marks are
    exactly those reachable from strong persistents through strong members
    ([reach]); it clears exactly the weak references whose target it left unmarked;
    and it ends, whatever the graph of objects. *)
From Stdlib Require Import ZArith Lia Bool.
From stdpp Require Import base list gmap.
From S2P Require Import Prelude Sandbox SandboxProps GcSpace GcSpaceProps Job GcHeap.

(** ** The parts of the heap *)

Lemma wp_on_space {A} (m : M Space A) (Q : A → Heap → Prop) h :
  wp (on_space m) Q h = wp m (λ a s, Q a (set_space s h)) (space h).
Proof. unfold wp, on_space. by destruct (m (space h)) as [[]|]. Qed.

Lemma wp_on_region {A} b (m : M PersistentRegion A) (Q : A → Heap → Prop) h :
  wp (on_region b m) Q h = wp m (λ a r, Q a (set_region b r h)) (GetPersistentRegion b h).
Proof. unfold wp, on_region. by destruct (m (GetPersistentRegion b h)) as [[]|]. Qed.

Lemma wp_on_heap {A} (m : M Heap A) (Q : A → Heap * MarkingVisitor → Prop) x :
  wp (on_heap m) Q x = wp m (λ a h, Q a (h, x.2)) x.1.
Proof. unfold wp, on_heap. by destruct (m x.1) as [[]|]. Qed.

Lemma set_space_same h : set_space (space h) h = h.
Proof. by destruct h. Qed.

#[export] Hint Rewrite @wp_on_space @wp_on_region @wp_on_heap : wp.

Section mark.
Context `{Platform} {P : PlatformOk}.

(** ** Reachability *)

Inductive reach (h : Heap) : Z → Prop :=
  | reach_root owner p :
      persistents h !! owner = Some p → IsStrongPersistent p = true → value_ p ≠ nullptr →
      reach h (value_ p)
  | reach_member object l m :
      reach h object → fields h !! object = Some l → m ∈ l →
      member_tag m = StrongMemberTag → storage_ m ≠ nullptr → reach h (storage_ m).

(** References lead to constructed objects, which have headers. *)
Record graph_ok (h : Heap) : Prop := {
  go_header : ∀ p, is_Some (fields h !! p) →
    p ≠ nullptr ∧ ∃ i n c, hdr (space h) (FromObject p) i n c false;
  go_member : ∀ p l m, fields h !! p = Some l → m ∈ l →
    member_tag m ≠ UntracedMemberTag → storage_ m ≠ nullptr → is_Some (fields h !! storage_ m);
  go_persistent : ∀ o p, persistents h !! o = Some p → value_ p ≠ nullptr →
    is_Some (fields h !! value_ p)
}.

(** ** The nodes of a region *)

Fixpoint node_chain (nodes : list PersistentNode) (head : option nat) (l : list nat) : Prop :=
  match l with
  | [] => head = None
  | k :: l => head = Some k ∧ ∃ next, nodes !! k = Some (FreeNode next) ∧ node_chain nodes next l
  end.

Definition used (n : PersistentNode) : Prop := IsUsed n = true.
#[local] Instance used_dec n : Decision (used n).
Proof. unfold used. apply _. Defined.

Record region_ok (r : PersistentRegion) : Prop := {
  ro_chain : ∃ l, node_chain (nodes_ r) (free_list_head_ r) l ∧ NoDup l ∧
    ∀ k, k ∈ l ↔ ∃ next, nodes_ r !! k = Some (FreeNode next);
  ro_in_use : nodes_in_use_ r = u64 (Z.of_nat (length (filter used (nodes_ r))))
}.

(** Nodes and persistents name each other, and a persistent that points somewhere
    has its node. *)
Record regions_ok (h : Heap) : Prop := {
  rs_region : ∀ strong, region_ok (GetPersistentRegion strong h);
  rs_nodes : ∀ strong k o,
    nodes_ (GetPersistentRegion strong h) !! k = Some (UsedNode o) ↔
    ∃ p, persistents h !! o = Some p ∧ IsStrongPersistent p = strong ∧ node_ p = Some k;
  rs_value : ∀ o p, persistents h !! o = Some p → value_ p ≠ nullptr → is_Some (node_ p)
}.

(** ** Marked headers *)

Definition mark_headers (S : gset Z) (m : gmap Z HeapObjectHeader) : gmap Z HeapObjectHeader :=
  map_imap (λ a hd, Some (if decide (ObjectStart a ∈ S) then store_mark 1 hd else hd)) m.

Definition with_marks (S : gset Z) (h : Heap) : Heap :=
  set_space (set_headers (mark_headers S) (space h)) h.

Lemma lookup_mark_headers S m a :
  mark_headers S m !! a =
  (λ hd, if decide (ObjectStart a ∈ S) then store_mark 1 hd else hd) <$> m !! a.
Proof. unfold mark_headers. rewrite map_lookup_imap. by destruct (m !! a). Qed.

Lemma mark_headers_empty m : mark_headers ∅ m = m.
Proof.
  apply map_eq. intros a. rewrite lookup_mark_headers.
  destruct (m !! a); [cbn|done]. by rewrite decide_False by apply not_elem_of_empty.
Qed.

Lemma start_from p : ObjectStart (FromObject p) = p.
Proof. unfold ObjectStart, FromObject. lia. Qed.

Lemma from_start a : FromObject (ObjectStart a) = a.
Proof. unfold ObjectStart, FromObject. lia. Qed.

Lemma with_marks_header S h p i n c :
  hdr (space h) (FromObject p) i n c false →
  headers (space (with_marks S h)) !! FromObject p = Some (header_of i n c (bool_decide (p ∈ S))).
Proof using P.
  intros (Hh & Hn & Hi). unfold with_marks. cbn. rewrite lookup_mark_headers, start_from, Hh. cbn.
  case_bool_decide as Hp; [rewrite decide_True by done|by rewrite decide_False by done].
  f_equal. exact (header_store_mark i n c false true Hn).
Qed.

(** *** [Visit] *)

Lemma wp_Visit S h v p (Q : unit → Heap * MarkingVisitor → Prop) :
  (∃ i n c, hdr (space h) (FromObject p) i n c false) →
  Q tt (with_marks ({[p]} ∪ S) h,
        if decide (p ∈ S) then v else mkVisitor (p :: worklist_ v) (weak_edges_ v)) →
  wp (Visit p) Q (with_marks S h, v).
Proof using P.
  intros (i & n & c & Hd) HQ. pose proof (with_marks_header S h p i n c Hd) as Hm.
  destruct Hd as (Hh & Hn & Hi).
  unfold Visit, header_at. wp_step. cbn [fst snd]. rewrite Hm. wp_step.
  rewrite header_TryMark by done. cbn [fst snd].
  assert (set_space (set_headers <[FromObject p := header_of i n c true]> (space (with_marks S h)))
    (with_marks S h) = with_marks ({[p]} ∪ S) h) as Heq.
  { unfold with_marks, set_space, set_headers. cbn. f_equal. f_equal. apply map_eq. intros a.
    destruct (decide (a = FromObject p)) as [->|Hne].
    - rewrite lookup_insert_eq, lookup_mark_headers, start_from, Hh. cbn.
      rewrite decide_True by set_solver. f_equal. symmetry. exact (header_store_mark i n c false true Hn).
    - rewrite lookup_insert_ne, !lookup_mark_headers by done. destruct (headers (space h) !! a); [cbn|done].
      f_equal. assert (ObjectStart a ≠ p) by (intros <-; apply Hne; symmetry; apply from_start).
      apply decide_ext. set_solver. }
  rewrite set_space_same, Heq. destruct (decide (p ∈ S)) as [Hp|Hp];
    [rewrite bool_decide_true by done|rewrite bool_decide_false by done]; cbn [negb]; wp_step; exact HQ.
Qed.

(** *** Tracing an object *)

(** What [Visit] makes of the marks and the work list, object by object. *)
Fixpoint visit_all (S : gset Z) (w : list Z) (ps : list Z) : gset Z * list Z :=
  match ps with
  | [] => (S, w)
  | p :: ps => visit_all ({[p]} ∪ S) (if decide (p ∈ S) then w else p :: w) ps
  end.

Definition strong_targets (l : list BasicMember) : list Z :=
  omap (λ m, match member_tag m with
             | StrongMemberTag => if storage_ m =? nullptr then None else Some (storage_ m)
             | _ => None
             end) l.

Fixpoint weak_targets (object : Z) (i : nat) (l : list BasicMember) : list (Z * Slot) :=
  match l with
  | [] => []
  | m :: l =>
      match member_tag m with
      | WeakMemberTag => if storage_ m =? nullptr then [] else [(storage_ m, MemberSlot object i)]
      | _ => []
      end ++ weak_targets object (Datatypes.S i) l
  end.

Lemma elem_of_strong_targets l q :
  q ∈ strong_targets l ↔
  ∃ m, m ∈ l ∧ member_tag m = StrongMemberTag ∧ storage_ m ≠ nullptr ∧ q = storage_ m.
Proof using P.
  unfold strong_targets. rewrite list_elem_of_omap. split.
  - intros (m & Hm & E). exists m. destruct (member_tag m); try done.
    destruct (_ =? _) eqn:E0; [done|]. zbool. by injection E as <-.
  - intros (m & Hm & Ht & Hn & ->). exists m. split; [done|]. rewrite Ht.
    by rewrite (proj2 (Z.eqb_neq _ _)).
Qed.

Lemma elem_of_weak_targets object l e k :
  e ∈ weak_targets object k l ↔
  ∃ i m, l !! i = Some m ∧ member_tag m = WeakMemberTag ∧ storage_ m ≠ nullptr ∧
    e = (storage_ m, MemberSlot object (k + i)).
Proof.
  revert k. induction l as [|m l IH]; intros k; simpl.
  { rewrite elem_of_nil. split; [done|]. by intros (i & m & Hi & _). }
  rewrite elem_of_app, IH. split.
  - intros [He|(i & m' & Hi & Ht & Hn & ->)].
    + exists 0%nat, m. rewrite Nat.add_0_r. destruct (member_tag m); [by apply elem_of_nil in He| |by apply elem_of_nil in He].
      destruct (_ =? _) eqn:E0; [by apply elem_of_nil in He|]. zbool.
      by apply list_elem_of_singleton in He as ->.
    + exists (Datatypes.S i), m'. split; [done|]. split; [done|]. split; [done|]. do 2 f_equal. lia.
  - intros (i & m' & Hi & Ht & Hn & ->). destruct i as [|i]; simpl in Hi.
    + left. injection Hi as ->. rewrite Ht, (proj2 (Z.eqb_neq _ _)) by done.
      rewrite Nat.add_0_r. by apply list_elem_of_singleton.
    + right. exists i, m'. split; [done|]. split; [done|]. split; [done|]. do 2 f_equal. lia.
Qed.

Definition object_ok (h : Heap) (p : Z) : Prop := ∃ i n c, hdr (space h) (FromObject p) i n c false.

Lemma wp_trace_members S h w we o i l (Q : unit → Heap * MarkingVisitor → Prop) :
  (∀ p, p ∈ strong_targets l → object_ok h p) →
  let r := visit_all S w (strong_targets l) in
  Q tt (with_marks r.1 h, mkVisitor r.2 (we ++ weak_targets o i l)) →
  wp (trace_members o i l) Q (with_marks S h, mkVisitor w we).
Proof using P.
  revert S w we i. induction l as [|m l IH]; intros S w we i Hok; simpl.
  { rewrite app_nil_r. by intros HQ. }
  unfold strong_targets in *. simpl in *. intros HQ. wp_step.
  unfold TraceStrong, TraceWeak, VisitWeak. destruct (member_tag m) eqn:Et.
  - destruct (_ =? _) eqn:E0; wp_step; [by apply IH|].
    apply wp_Visit; [apply Hok; by left|]. destruct (decide (storage_ m ∈ S)) as [Hd|Hd].
    + apply IH; [by intros p Hp; apply Hok; right|]. simpl in HQ. by rewrite decide_True in HQ.
    + apply IH; [by intros p Hp; apply Hok; right|]. simpl in HQ. by rewrite decide_False in HQ.
  - destruct (_ =? _) eqn:E0; wp_step; [by apply IH|]. cbn [fst snd worklist_ weak_edges_].
    apply IH; [done|]. by rewrite <- app_assoc.
  - wp_step. by apply IH.
Qed.

Lemma visit_all_spec S w ps :
  let r := visit_all S w ps in
  (∀ p, p ∈ r.1 ↔ p ∈ S ∨ p ∈ ps) ∧
  (∃ new, r.2 = new ++ w ∧ NoDup new ∧ ∀ p, p ∈ new ↔ p ∈ ps ∧ p ∉ S).
Proof.
  revert S w. induction ps as [|p ps IH]; intros S w; simpl.
  { split; [intros p; rewrite elem_of_nil; naive_solver|]. exists [].
    split; [done|]. split; [constructor|]. intros p. rewrite !elem_of_nil. naive_solver. }
  destruct (IH ({[p]} ∪ S) (if decide (p ∈ S) then w else p :: w)) as [Hs (new & Hw & Hnd & Hnew)].
  split; [intros q; rewrite Hs, elem_of_union, elem_of_singleton, elem_of_cons; tauto|].
  rewrite Hw. destruct (decide (p ∈ S)) as [Hp|Hp].
  - exists new. split; [done|]. split; [done|]. intros q. rewrite Hnew, elem_of_union, elem_of_singleton, elem_of_cons.
    split; [tauto|]. intros [[->|?] Hq]; [done|]. split; [done|]. by intros [->|?].
  - exists (new ++ [p]). split; [by rewrite <- app_assoc|]. split.
    + apply NoDup_app. split; [done|]. split; [|apply NoDup_singleton].
      intros q Hq Hq'. apply list_elem_of_singleton in Hq' as ->. apply Hnew in Hq as [_ Hq].
      by apply Hq, elem_of_union_l, elem_of_singleton.
    + intros q. rewrite elem_of_app, list_elem_of_singleton, Hnew, elem_of_union, elem_of_singleton, elem_of_cons.
      destruct (decide (q = p)) as [->|]; tauto.
Qed.

(** ** The work list *)

Record mark_inv (h : Heap) (S : gset Z) (w : list Z) (we : list (Z * Slot)) : Prop := {
  mi_nodup : NoDup w;
  mi_work : ∀ p, p ∈ w → p ∈ S;
  mi_valid : ∀ p, p ∈ S → is_Some (fields h !! p);
  mi_reach : ∀ p, p ∈ S → reach h p;
  mi_closed : ∀ p l q, p ∈ S → p ∉ w → fields h !! p = Some l → q ∈ strong_targets l → q ∈ S;
  mi_weak : ∀ e, e ∈ we ↔
    ∃ p l, p ∈ S ∧ (p ∉ w) ∧ fields h !! p = Some l ∧ e ∈ weak_targets p 0 l
}.

Lemma graph_object_ok h p : graph_ok h → is_Some (fields h !! p) → object_ok h p.
Proof. intros Hg Hp. exact (proj2 (go_header h Hg p Hp)). Qed.

Lemma strong_valid h p l q :
  graph_ok h → fields h !! p = Some l → q ∈ strong_targets l → is_Some (fields h !! q).
Proof using P.
  intros Hg Hl (m & Hm & Ht & Hn & ->)%elem_of_strong_targets.
  apply (go_member h Hg p l m Hl Hm); [by rewrite Ht|done].
Qed.

(** One object taken from the work list. *)
Lemma mark_inv_step h S p w we l :
  graph_ok h → mark_inv h S (p :: w) we → fields h !! p = Some l →
  let r := visit_all S w (strong_targets l) in
  mark_inv h r.1 r.2 (we ++ weak_targets p 0 l) ∧
  ∃ new, r.2 = new ++ w ∧ NoDup new ∧ (∀ q, q ∈ new → (q ∉ S) ∧ is_Some (fields h !! q)) ∧
    ∀ q, q ∈ r.1 ↔ q ∈ S ∨ q ∈ new.
Proof using P.
  intros Hg Hinv Hl r. destruct (visit_all_spec S w (strong_targets l)) as [HS (new & Hw & Hnd & Hnew)].
  fold r in HS, Hw. destruct Hinv as [H1 H2 H3 H4 H5 H6].
  apply NoDup_cons in H1 as [Hpw Hndw].
  assert (p ∈ S) as HpS by (apply H2; left).
  assert (∀ q, q ∈ strong_targets l → is_Some (fields h !! q)) as Hval
    by (intros q; by apply strong_valid with p).
  split.
  - rewrite Hw. split.
    + apply NoDup_app. split; [done|]. split; [|done].
      intros q Hq Hq'. apply Hnew in Hq as [_ Hq]. apply Hq, H2. by right.
    + intros q. rewrite elem_of_app, HS, Hnew. intros [[? _]|Hq]; [by right|left].
      apply H2. by right.
    + intros q [Hq|Hq]%HS; [by apply H3|by apply Hval].
    + intros q [Hq|Hq]%HS; [by apply H4|].
      apply elem_of_strong_targets in Hq as (m & Hm & Ht & Hn & ->).
      eapply reach_member; eauto.
    + intros q l' q' Hq Hnw Hl' Hq'. rewrite HS.
      destruct (decide (q = p)) as [->|Hne].
      { right. congruence. }
      left. assert (q ∈ S) as HqS.
      { apply HS in Hq as [?|Hq]; [done|]. destruct (decide (q ∈ S)); [done|].
        exfalso. apply Hnw, elem_of_app. left. by apply Hnew. }
      apply (H5 q l' q' HqS); [|done|done].
      rewrite elem_of_cons. intros [?|?]; [done|]. apply Hnw, elem_of_app. by right.
    + intros e. rewrite elem_of_app, H6. split.
      * intros [(q & l' & Hq & Hnw & Hl' & He)|He].
        -- exists q, l'. apply not_elem_of_cons in Hnw as [Hne Hnw].
           split; [rewrite HS; by left|]. split; [|done].
           rewrite elem_of_app, Hnew. by intros [[_ ?]|?].
        -- exists p, l. split; [rewrite HS; by left|]. split; [|done].
           rewrite elem_of_app, Hnew. by intros [[_ ?]|?].
      * intros (q & l' & Hq & Hnw & Hl' & He). destruct (decide (q = p)) as [->|Hne].
        { right. congruence. }
        left. exists q, l'. rewrite not_elem_of_app in Hnw. destruct Hnw as [Hn1 Hn2].
        split; [|split; [by apply not_elem_of_cons|done]].
        apply HS in Hq as [?|Hq]; [done|]. destruct (decide (q ∈ S)); [done|].
        exfalso. apply Hn1. by apply Hnew.
  - exists new. split; [done|]. split; [done|]. split.
    + intros q [Hq ?]%Hnew. auto.
    + intros q. rewrite HS, Hnew. destruct (decide (q ∈ S)); tauto.
Qed.

(** Objects still to be marked. *)
Definition unmarked (h : Heap) (S : gset Z) : nat := size (dom (fields h) ∖ S).

Lemma unmarked_step h S S' new :
  NoDup new → (∀ q, q ∈ new → (q ∉ S) ∧ is_Some (fields h !! q)) →
  (∀ q, q ∈ S' ↔ q ∈ S ∨ q ∈ new) →
  (unmarked h S' + length new = unmarked h S)%nat.
Proof.
  intros Hnd Hnew HS'. unfold unmarked. rewrite <- (size_list_to_set (C := gset Z) new) by done.
  rewrite <- size_union.
  - f_equal. apply set_eq. intros q.
    rewrite elem_of_union, !elem_of_difference, elem_of_list_to_set, elem_of_dom, HS'.
    split; [|destruct (decide (q ∈ new)); tauto].
    intros [[? ?]|Hq]; [tauto|]. apply Hnew in Hq. tauto.
  - intros q. rewrite elem_of_difference, elem_of_list_to_set, HS'. tauto.
Qed.

Lemma wp_RunToFixpoint h fuel S w we (Q : unit → Heap * MarkingVisitor → Prop) :
  graph_ok h → mark_inv h S w we → (unmarked h S + length w <= fuel)%nat →
  (∀ S' we', mark_inv h S' [] we' → S ⊆ S' → Q tt (with_marks S' h, mkVisitor [] we')) →
  wp (RunToFixpoint fuel) Q (with_marks S h, mkVisitor w we).
Proof using P.
  intros Hg. revert S w we. induction fuel as [|fuel IH]; intros S w we Hinv Hf HQ.
  { destruct w as [|p w]; [cbn [RunToFixpoint]; wp_step; by apply HQ|]. simpl in Hf. lia. }
  destruct w as [|p w]; [cbn [RunToFixpoint]; wp_step; by apply HQ|]. simpl in Hf.
  cbn [RunToFixpoint]. wp_step. cbn [worklist_ fst snd]. wp_step. unfold set_worklist. cbn [fst snd weak_edges_].
  destruct (mi_valid _ _ _ _ Hinv p) as [l Hl]; [apply (mi_work _ _ _ _ Hinv); left|].
  unfold trace_object. wp_step. cbn [fst]. change (fields (with_marks S h)) with (fields h).
  rewrite Hl. wp_step.
  destruct (mark_inv_step h S p w we l Hg Hinv Hl) as [Hinv' (new & Hw & Hnd & Hnew & HS')].
  apply wp_trace_members.
  { intros q Hq. apply graph_object_ok; [done|]. by apply (strong_valid h p l). }
  pose proof (unmarked_step h S _ new Hnd Hnew HS') as Hsz.
  apply IH; [done| |].
  - rewrite Hw, length_app. lia.
  - intros S' we' Hinv2 Hsub. apply HQ; [done|]. intros q Hq. apply Hsub, HS'. by left.
Qed.

(** ** Roots *)

Lemma reach_frame h h' p :
  fields h' = fields h → persistents h' = persistents h → reach h p → reach h' p.
Proof.
  intros Hf Hp. induction 1 as [o p Ho Hs Hv|o l m Ho IH Hl Hm Ht Hn].
  - eapply reach_root; [by rewrite Hp|done|done].
  - eapply reach_member; [done|by rewrite Hf|done|done|done].
Qed.

Definition roots (h : Heap) (nodes : list PersistentNode) : list Z :=
  omap (λ n, match n with
             | UsedNode o => p ← persistents h !! o;
                             if value_ p =? nullptr then None else Some (value_ p)
             | FreeNode _ => None
             end) nodes.

Definition weak_roots (h : Heap) (nodes : list PersistentNode) : list (Z * Slot) :=
  omap (λ n, match n with
             | UsedNode o => p ← persistents h !! o;
                             if value_ p =? nullptr then None else Some (value_ p, PersistentSlot o)
             | FreeNode _ => None
             end) nodes.

(** The nodes from position [k] on with the free ones linked anew. *)
Fixpoint relink (k : nat) (head : option nat) (nodes : list PersistentNode)
    : list PersistentNode * option nat :=
  match nodes with
  | [] => ([], head)
  | UsedNode o :: nodes => let r := relink (Datatypes.S k) head nodes in (UsedNode o :: r.1, r.2)
  | FreeNode _ :: nodes =>
      let r := relink (Datatypes.S k) (Some k) nodes in (FreeNode head :: r.1, r.2)
  end.

Definition relink_region (r : PersistentRegion) : PersistentRegion :=
  let x := relink 0 None (nodes_ r) in mkRegion x.1 x.2 (nodes_in_use_ r).

Lemma node_chain_app nodes nodes' head l :
  node_chain nodes head l → node_chain (nodes ++ nodes') head l.
Proof.
  revert head. induction l as [|k l IH]; intros head; [done|].
  intros (-> & next & Hk & Hc). split; [done|]. exists next. split; [|by apply IH].
  by apply lookup_app_l_Some.
Qed.

Lemma relink_chain nodes pre k head l :
  length pre = k → node_chain pre head l → NoDup l →
  (∀ j, j ∈ l ↔ ∃ next, pre !! j = Some (FreeNode next)) →
  let r := relink k head nodes in
  ∃ l', node_chain (pre ++ r.1) r.2 l' ∧ NoDup l' ∧
    ∀ j, j ∈ l' ↔ ∃ next, (pre ++ r.1) !! j = Some (FreeNode next).
Proof.
  revert pre k head l. induction nodes as [|[o|nx] nodes IH]; intros pre k head l Hk Hc Hnd Hl; simpl.
  - exists l. by rewrite app_nil_r.
  - destruct (IH (pre ++ [UsedNode o]) (Datatypes.S k) head l) as (l' & H1 & H2 & H3).
    + rewrite length_app. simpl. lia.
    + by apply node_chain_app.
    + done.
    + intros j. rewrite Hl. split; intros [next Hj]; exists next.
      * by apply lookup_app_l_Some.
      * by apply lookup_app_Some_cases in Hj as [?|[_ ?]].
    + exists l'. rewrite <- app_assoc in H1. setoid_rewrite <- app_assoc in H3. done.
  - destruct (IH (pre ++ [FreeNode head]) (Datatypes.S k) (Some k) (k :: l)) as (l' & H1 & H2 & H3).
    + rewrite length_app. simpl. lia.
    + split; [done|]. exists head. split; [|by apply node_chain_app].
      rewrite lookup_app_r by lia. by replace (k - length pre)%nat with 0%nat by lia.
    + apply NoDup_cons. split; [|done]. rewrite Hl. intros [next Hn].
      apply lookup_lt_Some in Hn. lia.
    + intros j. rewrite elem_of_cons, Hl. split.
      * intros [->|[next Hj]].
        -- exists head. rewrite lookup_app_r by lia. by replace (k - length pre)%nat with 0%nat by lia.
        -- exists next. by apply lookup_app_l_Some.
      * intros [next Hj]. apply lookup_app_Some_cases in Hj as [?|[-> _]]; [right; by exists next|by left].
    + exists l'. rewrite <- app_assoc in H1. setoid_rewrite <- app_assoc in H3. done.
Qed.

Lemma relink_used k head nodes j o :
  (relink k head nodes).1 !! j = Some (UsedNode o) ↔ nodes !! j = Some (UsedNode o).
Proof.
  revert k head j. induction nodes as [|[o'|nx] nodes IH]; intros k head [|j]; simpl; try done; apply IH.
Qed.

Lemma relink_count k head nodes :
  length (filter used (relink k head nodes).1) = length (filter used nodes).
Proof.
  revert k head. induction nodes as [|[o'|nx] nodes IH]; intros k head; cbn [relink fst]; [done|..].
  - rewrite !filter_cons_True by done. cbn [length]. by rewrite IH.
  - rewrite !filter_cons_False by done. apply IH.
Qed.

Lemma relink_region_ok r : region_ok r → region_ok (relink_region r).
Proof.
  intros [_ Hu]. split.
  - destruct (relink_chain (nodes_ r) [] 0 None []) as (l & H1 & H2 & H3); try done.
    { constructor. }
    { intros j. rewrite elem_of_nil. split; [done|]. by intros [? ?]. }
    by exists l.
  - cbn. by rewrite relink_count.
Qed.

(** *** [Iterate] *)

Definition iterated (strong : bool) (S : gset Z) (w : list Z) (we : list (Z * Slot)) (h : Heap)
    (nodes : list PersistentNode) : gset Z * list Z * list (Z * Slot) :=
  if strong then (visit_all S w (roots h nodes), we) else (S, w, we ++ weak_roots h nodes).

Lemma wp_iterate_nodes strong nodes pre h S w we (Q : unit → Heap * MarkingVisitor → Prop) :
  graph_ok h → nodes_ (GetPersistentRegion strong h) = pre ++ nodes →
  (∀ o, UsedNode o ∈ nodes → ∃ p, persistents h !! o = Some p ∧ IsStrongPersistent p = strong) →
  let x := iterated strong S w we h nodes in
  let r := relink (length pre) (free_list_head_ (GetPersistentRegion strong h)) nodes in
  Q tt (with_marks x.1.1 (set_region strong (mkRegion (pre ++ r.1) r.2
          (nodes_in_use_ (GetPersistentRegion strong h))) h), mkVisitor x.1.2 x.2) →
  wp (iterate_nodes strong (length pre) nodes) Q (with_marks S h, mkVisitor w we).
Proof using P.
  intros Hg. revert pre h Hg S w we. induction nodes as [|[o|nx] nodes IH]; intros pre h Hg S w we Hns Hu;
    cbn [iterate_nodes relink fst snd].
  { intros HQ. wp_step. unfold iterated in HQ. rewrite app_nil_r in Hns. rewrite <- Hns, !app_nil_r in HQ.
    assert (set_region strong (mkRegion (nodes_ (GetPersistentRegion strong h))
      (free_list_head_ (GetPersistentRegion strong h)) (nodes_in_use_ (GetPersistentRegion strong h))) h = h) as E.
    { destruct h as [????? [] []]; by destruct strong. }
    rewrite E in HQ. by destruct strong. }
  - intros HQ. destruct (Hu o) as (p & Hp & Hs); [by left|].
    wp_step. unfold trace_persistent. wp_step. cbn [fst].
    change (persistents (with_marks S h)) with (persistents h). rewrite Hp. wp_step. rewrite Hs.
    assert (∀ S' w' we', iterated strong S w we h (UsedNode o :: nodes) = iterated strong S' w' we' h nodes →
      wp (iterate_nodes strong (Datatypes.S (length pre)) nodes) Q (with_marks S' h, mkVisitor w' we')) as Hnext.
    { intros S' w' we' E. replace (Datatypes.S (length pre)) with (length (pre ++ [UsedNode o]))
        by (rewrite length_app; simpl; lia).
      apply IH; [done|by rewrite <- app_assoc|by intros o' Ho'; apply Hu; right|].
      rewrite <- E, <- app_assoc, length_app. cbn [length app]. rewrite Nat.add_1_r. exact HQ. }
    unfold iterated, roots, weak_roots in Hnext. simpl in Hnext. rewrite Hp in Hnext. simpl in Hnext.
    unfold TraceStrong, TraceWeak, VisitWeak. destruct strong.
    + destruct (value_ p =? nullptr) eqn:E0; wp_step; [by apply Hnext|]. zbool.
      apply wp_Visit; [apply graph_object_ok; [done|]; by eapply go_persistent|].
      destruct (decide (value_ p ∈ S)) as [Hd|Hd]; apply Hnext; simpl;
        [by rewrite decide_True|by rewrite decide_False].
    + destruct (value_ p =? nullptr) eqn:E0; wp_step; [by apply Hnext|]. cbn [fst snd worklist_ weak_edges_].
      apply Hnext. by rewrite <- app_assoc.
  - intros HQ. wp_step. cbn [fst snd].
    set (g := free_list_head_ (GetPersistentRegion strong h)) in *.
    set (r' := mkRegion (pre ++ FreeNode g :: nodes) (Some (length pre))
                 (nodes_in_use_ (GetPersistentRegion strong h))).
    assert (mkRegion (<[length pre := FreeNode (free_list_head_ (GetPersistentRegion strong (with_marks S h)))]>
        (nodes_ (GetPersistentRegion strong (with_marks S h)))) (Some (length pre))
        (nodes_in_use_ (GetPersistentRegion strong (with_marks S h))) = r') as ->.
    { unfold r'. f_equal. change (GetPersistentRegion strong (with_marks S h)) with (GetPersistentRegion strong h).
      rewrite Hns, insert_app_r_alt by done. by rewrite Nat.sub_diag. }
    change (set_region strong r' (with_marks S h)) with (with_marks S (set_region strong r' h)).
    replace (Datatypes.S (length pre)) with (length (pre ++ [FreeNode g])) by (rewrite length_app; simpl; lia).
    assert (GetPersistentRegion strong (set_region strong r' h) = r') as Er by (by destruct strong).
    apply IH.
    + destruct Hg as [G1 G2 G3]. by split.
    + rewrite Er. unfold r'. by rewrite <- app_assoc.
    + intros o Ho. apply Hu. by right.
    + rewrite Er. unfold r' at 2 3 4 5 6 7. cbn [free_list_head_ nodes_in_use_].
      rewrite <- app_assoc, length_app. cbn [length app]. rewrite Nat.add_1_r.
      by destruct strong.
Qed.

Lemma wp_Iterate strong h S w we (Q : unit → Heap * MarkingVisitor → Prop) :
  graph_ok h → regions_ok h →
  let nodes := nodes_ (GetPersistentRegion strong h) in
  let x := iterated strong S w we h nodes in
  Q tt (with_marks x.1.1 (set_region strong (relink_region (GetPersistentRegion strong h)) h),
        mkVisitor x.1.2 x.2) →
  wp (Iterate strong) Q (with_marks S h, mkVisitor w we).
Proof using P.
  intros Hg Hr nodes x HQ. unfold Iterate. wp_step. cbn [fst snd].
  change (GetPersistentRegion strong (with_marks S h)) with (GetPersistentRegion strong h).
  set (r' := mkRegion _ None _).
  change (set_region strong r' (with_marks S h)) with (with_marks S (set_region strong r' h)).
  assert (GetPersistentRegion strong (set_region strong r' h) = r') as Er by (by destruct strong).
  change (GetPersistentRegion strong (with_marks S (set_region strong r' h)))
    with (GetPersistentRegion strong (set_region strong r' h)). rewrite Er.
  apply (wp_iterate_nodes strong (nodes_ r') []).
  - destruct Hg as [G1 G2 G3]. by split.
  - by rewrite Er.
  - intros o [k Hk]%list_elem_of_lookup. apply (rs_nodes h Hr) in Hk as (p & Hp & Hs & _). by exists p.
  - rewrite Er. by destruct strong.
Qed.

(** ** Weak references *)

#[local] Instance Slot_eq_dec : EqDecision Slot.
Proof. solve_decision. Defined.

(** Whether [edges] holds a reference from [slot] to an object not in [S]. *)
Definition dead_edge (S : gset Z) (edges : list (Z * Slot)) (slot : Slot) : bool :=
  existsb (λ e, negb (bool_decide (e.1 ∈ S)) && bool_decide (e.2 = slot)) edges.

Definition cleared_fields (S : gset Z) (edges : list (Z * Slot)) (F : gmap Z (list BasicMember))
    : gmap Z (list BasicMember) :=
  map_imap (λ p l, Some (imap (λ i m,
    if dead_edge S edges (MemberSlot p i) then mkMember (member_tag m) nullptr else m) l)) F.

Definition cleared_persistents (S : gset Z) (edges : list (Z * Slot))
    (Ps : gmap Z BasicPersistent) : gmap Z BasicPersistent :=
  map_imap (λ o p, Some (if dead_edge S edges (PersistentSlot o)
    then mkPersistent (IsStrongPersistent p) nullptr (node_ p) else p)) Ps.

Definition cleared (S : gset Z) (edges : list (Z * Slot)) (h : Heap) : Heap :=
  set_persistents (cleared_persistents S edges (persistents h))
    (set_fields (cleared_fields S edges (fields h)) h).

Definition slot_ok (h : Heap) (slot : Slot) : Prop :=
  match slot with
  | MemberSlot p i => ∃ l, fields h !! p = Some l ∧ is_Some (l !! i)
  | PersistentSlot o => is_Some (persistents h !! o)
  end.

Lemma cleared_nil S h : cleared S [] h = h.
Proof.
  destruct h. unfold cleared, set_persistents, set_fields. cbn. f_equal.
  - apply map_eq. intros o. unfold cleared_persistents. rewrite map_lookup_imap. by destruct (_ !! o).
  - apply map_eq. intros p. unfold cleared_fields. rewrite map_lookup_imap.
    destruct (_ !! p) as [l|]; [cbn|done]. f_equal. apply list_eq. intros i.
    rewrite list_lookup_imap. by destruct (l !! i).
Qed.

Lemma cleared_cons_live S e edges h :
  e.1 ∈ S → cleared S (e :: edges) h = cleared S edges h.
Proof.
  intros He. unfold cleared, cleared_persistents, cleared_fields, dead_edge. simpl.
  by rewrite bool_decide_true.
Qed.

Lemma cleared_cons_dead S t slot edges h h' :
  t ∉ S → wp (clear_slot slot) (λ _ h2, h2 = h') h →
  cleared S ((t, slot) :: edges) h = cleared S edges h'.
Proof.
  intros Ht. unfold clear_slot. wp_step. destruct slot as [p i|o]; wp_step.
  - destruct (fields h !! p) as [l|] eqn:Hl; [wp_step|by intros []].
    destruct (l !! i) as [m|] eqn:Hm; [wp_step|by intros []]. intros <-.
    unfold cleared. destruct h. cbn in *. unfold set_fields, set_persistents. cbn. f_equal.
    + apply map_eq. intros o. unfold cleared_persistents. rewrite !map_lookup_imap.
      destruct (_ !! o); [cbn|done]. by rewrite bool_decide_false, (bool_decide_false (_ = PersistentSlot _)) by done.
    + apply map_eq. intros q. unfold cleared_fields. rewrite !map_lookup_imap.
      destruct (decide (q = p)) as [->|Hne].
      * rewrite lookup_insert_eq, Hl. cbn. f_equal. apply list_eq. intros j.
        rewrite !list_lookup_imap. destruct (decide (j = i)) as [->|Hji].
        -- rewrite list_lookup_insert_eq by (by eapply lookup_lt_Some). rewrite Hm. cbn.
           rewrite bool_decide_false, bool_decide_true by done. cbn.
           by destruct (dead_edge _ _ _).
        -- rewrite list_lookup_insert_ne by done. destruct (l !! j); [cbn|done].
           rewrite (bool_decide_false (MemberSlot _ _ = _)) by congruence. by rewrite andb_false_r.
      * rewrite lookup_insert_ne by done. destruct (_ !! q) as [l'|]; [cbn|done]. f_equal.
        apply list_eq. intros j. rewrite !list_lookup_imap. destruct (l' !! j); [cbn|done].
        rewrite (bool_decide_false (MemberSlot _ _ = _)) by congruence. by rewrite andb_false_r.
  - destruct (persistents h !! o) as [p|] eqn:Hp; [wp_step|by intros []]. intros <-.
    unfold cleared. destruct h. cbn in *. unfold set_fields, set_persistents. cbn. f_equal.
    + apply map_eq. intros o'. unfold cleared_persistents. rewrite !map_lookup_imap.
      destruct (decide (o' = o)) as [->|Hne].
      * rewrite lookup_insert_eq, Hp. cbn. rewrite bool_decide_false, bool_decide_true by done. cbn.
        by destruct (dead_edge _ _ _).
      * rewrite lookup_insert_ne by done. destruct (_ !! o'); [cbn|done].
        rewrite (bool_decide_false (PersistentSlot _ = _)) by congruence. by rewrite andb_false_r.
    + apply map_eq. intros q. unfold cleared_fields. rewrite !map_lookup_imap.
      destruct (_ !! q) as [l|]; [cbn|done]. f_equal. apply list_eq. intros j.
      rewrite !list_lookup_imap. destruct (l !! j); [cbn|done].
      rewrite (bool_decide_false (PersistentSlot _ = _)) by done. by rewrite andb_false_r.
Qed.

Lemma wp_clear_slot h slot :
  slot_ok h slot → wp (clear_slot slot) (λ _ h', space h' = space h ∧
    ∀ slot', slot_ok h slot' → slot_ok h' slot') h.
Proof.
  intros Hs. unfold clear_slot. wp_step. destruct slot as [p i|o]; wp_step.
  - destruct Hs as (l & Hl & [m Hm]). rewrite Hl. wp_step. rewrite Hm. wp_step. split; [done|].
    intros [q j|o]; [|done]. intros (l' & Hl' & Hj). simpl.
    destruct (decide (q = p)) as [->|Hne].
    + rewrite lookup_insert_eq. eexists. split; [done|]. assert (l' = l) as -> by congruence.
      by apply lookup_lt_is_Some_2; rewrite length_insert; apply lookup_lt_is_Some_1.
    + rewrite lookup_insert_ne by done. by exists l'.
  - destruct Hs as [p Hp]. rewrite Hp. wp_step. split; [done|].
    intros [q j|o']; [done|]. simpl. intros Ho'. destruct (decide (o' = o)) as [->|Hne];
      [by rewrite lookup_insert_eq|by rewrite lookup_insert_ne].
Qed.

Lemma wp_process_edges S h0 edges h (Q : unit → Heap → Prop) :
  Forall (λ e, object_ok h0 e.1 ∧ slot_ok h e.2) edges →
  space h = space (with_marks S h0) →
  Q tt (cleared S edges h) → wp (process_edges edges) Q h.
Proof using P.
  revert h. induction edges as [|[t slot] edges IH]; intros h Hok Hsp; simpl.
  { rewrite cleared_nil. by wp_step. }
  intros HQ. apply Forall_cons in Hok as [[(i & n & c & Hd) Hs] Hok]. wp_step. unfold header_at. wp_step.
  cbn [fst snd] in *. rewrite Hsp, (with_marks_header _ _ _ _ _ _ Hd). wp_step.
  rewrite <- Hsp, set_space_same.
  destruct Hd as (_ & Hn & _). rewrite header_marked by done.
  case_bool_decide as Ht; wp_step.
  - apply IH; [done|done|]. by rewrite cleared_cons_live in HQ.
  - pose proof (wp_clear_slot h slot Hs) as Hc. apply wp_run in Hc as (a & h' & Hrun & Hsp' & Hmono).
    eapply wp_of_eq; [exact Hrun|]. apply IH.
    + eapply Forall_impl; [exact Hok|]. intros e [? ?]. auto.
    + congruence.
    + rewrite (cleared_cons_dead S t slot edges h h') in HQ; [done|done|].
      by eapply wp_of_eq.
Qed.

Lemma dead_edge_true S edges slot :
  dead_edge S edges slot = true ↔ ∃ t, (t ∉ S) ∧ (t, slot) ∈ edges.
Proof.
  unfold dead_edge. rewrite existsb_exists. split.
  - intros ([t s] & Hin & [Ht Hs]%andb_prop). apply negb_true_iff, bool_decide_eq_false in Ht.
    apply bool_decide_eq_true in Hs. cbn in *. subst s. exists t. split; [done|].
    by apply list_elem_of_In.
  - intros (t & Ht & Hin). exists (t, slot). split; [by apply list_elem_of_In|].
    apply andb_true_intro. split; [by apply negb_true_iff, bool_decide_eq_false|].
    by apply bool_decide_eq_true.
Qed.

(** ** [Mark] *)

Definition clear_weak (S : gset Z) (l : list BasicMember) : list BasicMember :=
  map (λ m, match member_tag m with
            | WeakMemberTag => if decide (storage_ m ∈ S) then m else mkMember WeakMemberTag nullptr
            | _ => m
            end) l.

Definition clear_weak_persistent (S : gset Z) (p : BasicPersistent) : BasicPersistent :=
  if IsStrongPersistent p || bool_decide (value_ p ∈ S) then p
  else mkPersistent false nullptr (node_ p).

(** The heap after marking, if [S] is what is marked. *)
Definition mark_result (S : gset Z) (h : Heap) : Heap :=
  set_persistents (clear_weak_persistent S <$> persistents h)
    (set_fields (map_imap (λ p l, Some (if decide (p ∈ S) then clear_weak S l else l)) (fields h))
      (with_marks S
        (set_region false (relink_region (weak_persistents_ h))
          (set_region true (relink_region (strong_persistents_ h)) h)))).

Lemma graph_frame h h' :
  space h' = space h → fields h' = fields h → persistents h' = persistents h →
  graph_ok h → graph_ok h'.
Proof. intros E1 E2 E3 [G1 G2 G3]. split; rewrite ?E1, ?E2, ?E3; done. Qed.

Lemma regions_relink h strong :
  regions_ok h → regions_ok (set_region strong (relink_region (GetPersistentRegion strong h)) h).
Proof.
  intros [R1 R2 R3]. split; [| |done].
  - intros b. destruct (decide (b = strong)) as [->|Hne].
    + pose proof (relink_region_ok _ (R1 strong)). by destruct strong.
    + pose proof (R1 b). by destruct b, strong.
  - intros b k o. rewrite <- R2. destruct (decide (b = strong)) as [->|Hne].
    + pose proof (relink_used 0 None (nodes_ (GetPersistentRegion strong h)) k o).
      by destruct strong.
    + by destruct b, strong.
Qed.

Lemma fields_fuel h : graph_ok h → (size (dom (fields h)) <= size (headers (space h)))%nat.
Proof.
  intros Hg. rewrite <- (size_dom (headers (space h))). unfold size, set_size. cbn.
  rewrite <- (length_fmap FromObject). apply submseteq_length, NoDup_submseteq.
  - apply NoDup_fmap_2; [|apply NoDup_elements]. intros p q. unfold FromObject. lia.
  - intros a (p & -> & Hp)%list_elem_of_fmap. apply elem_of_elements in Hp. apply elem_of_elements.
    apply elem_of_dom in Hp. destruct (go_header h Hg p Hp) as (_ & i & n & c & Hd & _).
    apply elem_of_dom. by eexists.
Qed.

Lemma elem_of_roots h nodes q :
  q ∈ roots h nodes ↔ ∃ o p, UsedNode o ∈ nodes ∧ persistents h !! o = Some p ∧
    value_ p ≠ nullptr ∧ q = value_ p.
Proof.
  unfold roots. rewrite list_elem_of_omap. split.
  - intros ([o|] & Hn & E); [|done]. destruct (persistents h !! o) as [p|] eqn:Hp; [|done]. cbn in E.
    destruct (_ =? _) eqn:E0; [done|]. zbool. injection E as <-. by exists o, p.
  - intros (o & p & Hn & Hp & Hv & ->). exists (UsedNode o). split; [done|]. rewrite Hp. cbn.
    by rewrite (proj2 (Z.eqb_neq _ _)).
Qed.

Lemma elem_of_weak_roots h nodes e :
  e ∈ weak_roots h nodes ↔ ∃ o p, UsedNode o ∈ nodes ∧ persistents h !! o = Some p ∧
    value_ p ≠ nullptr ∧ e = (value_ p, PersistentSlot o).
Proof.
  unfold weak_roots. rewrite list_elem_of_omap. split.
  - intros ([o|] & Hn & E); [|done]. destruct (persistents h !! o) as [p|] eqn:Hp; [|done]. cbn in E.
    destruct (_ =? _) eqn:E0; [done|]. zbool. injection E as <-. by exists o, p.
  - intros (o & p & Hn & Hp & Hv & ->). exists (UsedNode o). split; [done|]. rewrite Hp. cbn.
    by rewrite (proj2 (Z.eqb_neq _ _)).
Qed.

(** The nodes of the region of a kind lead to the persistents of this kind. *)
Lemma region_persistents h strong o p :
  regions_ok h → persistents h !! o = Some p → value_ p ≠ nullptr →
  UsedNode o ∈ nodes_ (GetPersistentRegion strong h) ↔ IsStrongPersistent p = strong.
Proof.
  intros Hr Hp Hv. split.
  - intros [k Hk]%list_elem_of_lookup. apply (rs_nodes h Hr) in Hk as (p' & Hp' & Hs & _). congruence.
  - intros Hs. destruct (rs_value h Hr o p Hp Hv) as [k Hk].
    eapply list_elem_of_lookup_2. apply (rs_nodes h Hr). by exists p.
Qed.

Lemma start_inv h :
  graph_ok h → regions_ok h →
  let r := visit_all ∅ [] (roots h (nodes_ (strong_persistents_ h))) in
  mark_inv h r.1 r.2 [] ∧ (unmarked h r.1 + length r.2 <= size (headers (space h)))%nat ∧
  ∀ o p, persistents h !! o = Some p → IsStrongPersistent p = true → value_ p ≠ nullptr →
    value_ p ∈ r.1.
Proof.
  intros Hg Hr r.
  destruct (visit_all_spec ∅ [] (roots h (nodes_ (strong_persistents_ h)))) as [HS (new & Hw & Hnd & Hnew)].
  fold r in HS, Hw. rewrite app_nil_r in Hw.
  assert (∀ q, q ∈ r.1 ↔ q ∈ new) as HSn.
  { intros q. rewrite HS, Hnew. pose proof (not_elem_of_empty (C := gset Z) q). tauto. }
  assert (∀ q, q ∈ new → is_Some (fields h !! q) ∧ reach h q) as Hroot.
  { intros q [(o & p & Ho & Hp & Hv & ->)%elem_of_roots _]%Hnew.
    split; [by eapply go_persistent|]. eapply reach_root; [done| |done].
    by apply (region_persistents h true o p Hr Hp Hv). }
  split; [|split].
  - rewrite Hw. split; [done|by intros p Hp; apply HSn|by intros p Hp%HSn; apply Hroot
      |by intros p Hp%HSn; apply Hroot| |].
    + intros p l q Hp%HSn Hn. done.
    + intros e. rewrite elem_of_nil. split; [done|]. intros (p & l & Hp%HSn & Hn & _). done.
  - rewrite Hw. rewrite (unmarked_step h ∅ r.1 new Hnd).
    + unfold unmarked. rewrite difference_empty_L. by apply fields_fuel.
    + intros q Hq. split; [apply not_elem_of_empty|by apply Hroot].
    + intros q. rewrite HSn. pose proof (not_elem_of_empty (C := gset Z) q). tauto.
  - intros o p Hp Hs Hv. apply HS. right. apply elem_of_roots. exists o, p.
    split; [|done]. by apply (region_persistents h true o p Hr Hp Hv).
Qed.

(** What the recorded edges clear. *)
Lemma cleared_marks h S we :
  graph_ok h → regions_ok h → mark_inv h S [] we → nullptr ∉ S →
  cleared S (we ++ weak_roots h (nodes_ (weak_persistents_ h))) (with_marks S h) =
  set_persistents (clear_weak_persistent S <$> persistents h)
    (set_fields (map_imap (λ p l, Some (if decide (p ∈ S) then clear_weak S l else l)) (fields h))
      (with_marks S h)).
Proof.
  intros Hg Hr Hinv Hnull. unfold cleared. change (persistents (with_marks S h)) with (persistents h).
  change (fields (with_marks S h)) with (fields h). f_equal; [|f_equal].
  - apply map_eq. intros o. unfold cleared_persistents. rewrite map_lookup_imap, lookup_fmap.
    destruct (persistents h !! o) as [p|] eqn:Hp; [cbn|done]. f_equal. unfold clear_weak_persistent.
    destruct (dead_edge _ _ _) eqn:E.
    + apply dead_edge_true in E as (t & Ht & [He|He]%elem_of_app).
      { apply (mi_weak _ _ _ _ Hinv) in He as (q & l & _ & _ & _ & He).
        apply elem_of_weak_targets in He as (i & m & _ & _ & _ & [=]). }
      apply elem_of_weak_roots in He as (o' & p' & Hn & Hp' & Hv & [= -> <-]).
      assert (p' = p) as -> by congruence.
      rewrite (proj1 (region_persistents h false o p Hr Hp Hv)) by done. by rewrite bool_decide_false.
    + destruct (IsStrongPersistent p) eqn:Es; [done|]. cbn. case_bool_decide as Hv; [done|].
      destruct (decide (value_ p = nullptr)) as [E0|Hv0].
      { destruct p. cbn in *. by subst. }
      exfalso. assert (dead_edge S (we ++ weak_roots h (nodes_ (weak_persistents_ h))) (PersistentSlot o) = true); [|congruence].
      apply dead_edge_true. exists (value_ p). split; [done|]. apply elem_of_app. right.
      apply elem_of_weak_roots. exists o, p. split; [|done].
      by apply (region_persistents h false o p Hr Hp Hv0).
  - apply map_eq. intros p. unfold cleared_fields. rewrite !map_lookup_imap.
    destruct (fields h !! p) as [l|] eqn:Hl; [cbn|done]. f_equal. apply list_eq. intros i.
    rewrite list_lookup_imap.
    assert ((if decide (p ∈ S) then clear_weak S l else l) !! i =
      (λ m, if decide (p ∈ S) then
        match member_tag m with
        | WeakMemberTag => if decide (storage_ m ∈ S) then m else mkMember WeakMemberTag nullptr
        | _ => m
        end else m) <$> l !! i) as ->.
    { destruct (decide (p ∈ S)); [by unfold clear_weak; rewrite list_lookup_fmap|].
      by destruct (l !! i). }
    destruct (l !! i) as [m|] eqn:Hm; [cbn|done]. f_equal.
    destruct (dead_edge _ _ _) eqn:E.
    + apply dead_edge_true in E as (t & Ht & [He|He]%elem_of_app).
      * apply (mi_weak _ _ _ _ Hinv) in He as (q & l' & Hq & _ & Hl' & He).
        apply elem_of_weak_targets in He as (j & m' & Hm' & Htag & Hn & [= -> -> ->]).
        assert (l' = l) as -> by congruence. assert (m' = m) as -> by congruence.
        rewrite Htag. by rewrite !decide_True, decide_False by done.
      * apply elem_of_weak_roots in He as (o' & p' & _ & _ & _ & [=]).
    + destruct (decide (p ∈ S)) as [HpS|]; [|done].
      destruct (member_tag m) eqn:Htag; try done. destruct (decide (storage_ m ∈ S)) as [|HmS]; [done|].
      destruct (decide (storage_ m = nullptr)) as [E0|Hn].
      { destruct m. cbn in *. by subst. }
      exfalso. assert (dead_edge S (we ++ weak_roots h (nodes_ (weak_persistents_ h))) (MemberSlot p i) = true); [|congruence].
      apply dead_edge_true. exists (storage_ m). split; [done|]. apply elem_of_app. left.
      apply (mi_weak _ _ _ _ Hinv). exists p, l. split; [done|]. split; [apply not_elem_of_nil|].
      split; [done|]. apply elem_of_weak_targets. by exists i, m.
Qed.

Lemma wp_Mark_run (Q : unit → Heap → Prop) h :
  wp (Iterate true ;; RunToFixpoint (size (headers (space h))) ;; Iterate false ;; ProcessWeakEdges)
    (λ _ x, Q tt x.1) (h, mkVisitor [] []) → wp Mark Q h.
Proof.
  unfold wp, Mark. destruct (bind (Iterate true) _ _) as [[[] x]|]; done.
Qed.

Lemma with_marks_empty h : with_marks ∅ h = h.
Proof.
  unfold with_marks, set_space, set_headers. rewrite mark_headers_empty. by destruct h as [[] ??????????].
Qed.

(** [Mark] ends; what it marks is what is reachable; weak references to the rest are
    cleared; nothing else changes. *)
Lemma wp_Mark h :
  graph_ok h → regions_ok h →
  ∃ S : gset Z, (∀ p, p ∈ S ↔ reach h p) ∧ wp Mark (λ _ h', h' = mark_result S h) h.
Proof using P.
  intros Hg Hr. set (h1 := set_region true (relink_region (strong_persistents_ h)) h).
  assert (graph_ok h1) as Hg1 by (by apply (graph_frame h)).
  assert (regions_ok h1) as Hr1 by (by apply (regions_relink h true)).
  destruct (start_inv h Hg Hr) as (Hinv & Hfuel & Hroots).
  set (r := visit_all ∅ [] _) in *.
  assert (mark_inv h1 r.1 r.2 []) as Hinv1.
  { destruct Hinv as [I1 I2 I3 I4 I5 I6]. split; try done.
    intros p Hp. apply (reach_frame h); [done|done|]. by apply I4. }
  assert (∃ S we, mark_inv h1 S [] we ∧ r.1 ⊆ S ∧
    ∀ Q : unit → Heap * MarkingVisitor → Prop, Q tt (with_marks S h1, mkVisitor [] we) →
      wp (RunToFixpoint (size (headers (space h)))) Q (with_marks r.1 h1, mkVisitor r.2 []))
    as (S & we & HinvS & Hsub & Hrun).
  { pose proof (wp_RunToFixpoint h1 (size (headers (space h))) r.1 r.2 []
      (λ _ x, ∃ S we, mark_inv h1 S [] we ∧ r.1 ⊆ S ∧ x = (with_marks S h1, mkVisitor [] we))
      Hg1 Hinv1 Hfuel) as Hw.
    assert (wp (RunToFixpoint (size (headers (space h)))) (λ _ x, ∃ S we, mark_inv h1 S [] we ∧ r.1 ⊆ S ∧
      x = (with_marks S h1, mkVisitor [] we)) (with_marks r.1 h1, mkVisitor r.2 [])) as Hw'.
    { apply Hw. intros S we HS Hsub. by exists S, we. }
    apply wp_run in Hw' as ([] & x & Hx & S & we & HS & Hsub & ->).
    exists S, we. split; [done|]. split; [done|]. intros Q HQ. by eapply wp_of_eq. }
  exists S. split.
  - intros p. split.
    + intros Hp. apply (reach_frame h1); [done|done|]. by apply (mi_reach _ _ _ _ HinvS).
    + induction 1 as [o p Hp Hs Hv|o l m Ho IH Hl Hm Ht Hn].
      * by apply Hsub, (Hroots o).
      * apply (mi_closed _ _ _ _ HinvS o l); [done|apply not_elem_of_nil|done|].
        apply elem_of_strong_targets. by exists m.
  - apply wp_Mark_run.
    assert ((h, mkVisitor [] []) = (with_marks ∅ h, mkVisitor [] [])) as -> by (by rewrite with_marks_empty).
    wp_step.
    apply wp_Iterate; [done|done|]. unfold iterated. cbn [fst snd].
    change (GetPersistentRegion true h) with (strong_persistents_ h). fold r. fold h1.
    wp_step. apply Hrun. wp_step. apply wp_Iterate; [done|done|].
    unfold iterated. cbn [fst snd]. set (h2 := set_region false _ h1).
    assert (graph_ok h2) as Hg2 by (by apply (graph_frame h1)).
    assert (regions_ok h2) as Hr2 by (by apply (regions_relink h1 false)).
    unfold ProcessWeakEdges. wp_step. cbn [fst snd weak_edges_].
    assert (nullptr ∉ S) as Hnull.
    { intros Hn. by destruct (go_header h1 Hg1 _ (mi_valid _ _ _ _ HinvS _ Hn)) as [? _]. }
    change (weak_edges_ _) with (we ++ weak_roots h1 (nodes_ (weak_persistents_ h1))).
    apply (wp_process_edges S h2); [|done|].
    + apply Forall_forall. intros e [He|He]%elem_of_app.
      * apply (mi_weak _ _ _ _ HinvS) in He as (p & l & Hp & _ & Hl & He).
        apply elem_of_weak_targets in He as (i & m & Hm & Ht & Hn & ->). cbn.
        split; [|by exists l].
        apply graph_object_ok; [done|]. apply (go_member h1 Hg1 p l m Hl); [by eapply list_elem_of_lookup_2| |done].
        by rewrite Ht.
      * apply elem_of_weak_roots in He as (o & p & _ & Hp & Hv & ->). cbn. split; [|by exists p].
        apply graph_object_ok; [done|]. by apply (go_persistent h1 Hg1 o p).
    + wp_step. cbn [fst].
      pose proof (cleared_marks h1 S we Hg1 Hr1 HinvS Hnull) as Hc.
      unfold mark_result. fold h1. change (weak_persistents_ h) with (weak_persistents_ h1). fold h2.
      change (GetPersistentRegion false h1) with (weak_persistents_ h1) in *.
      transitivity (set_region false (relink_region (weak_persistents_ h1))
        (cleared S (we ++ weak_roots h1 (nodes_ (weak_persistents_ h1))) (with_marks S h1))); [done|].
      by rewrite Hc.
Qed.
End mark.
