(* ===== verification/GcLayout.v ===== *)
(** * The layout of the heap

    Every page is a sequence of cells without gaps: objects, free cells and the
    linear allocation buffer ([Layout], [heap_ok]).  The lemmas are about addresses
    of cells, and about merging the cells of dead objects and free cells into runs
    as the sweeper does ([coalesce]). *)
From Stdlib Require Import ZArith Lia Bool.
From stdpp Require Import base list gmap.
From S2P Require Import Prelude Sandbox SandboxProps GcSpace GcSpaceProps Job GcHeap GcMark.

Inductive Cell := LabCell (n : Z) | FreeCell (n : Z) | ObjCell (n : Z).

Definition csize (c : Cell) : Z :=
  match c with LabCell n | FreeCell n | ObjCell n => n end.

(** Cells with their addresses, from [a] on, and the address after them. *)
Fixpoint cells_at (a : Z) (l : list Cell) : list (Z * Cell) :=
  match l with [] => [] | c :: l => (a, c) :: cells_at (a + csize c) l end.

Definition cells_end (a : Z) (l : list Cell) : Z := foldl (λ x c, x + csize c) a l.

Lemma cells_at_app a l l' : cells_at a (l ++ l') = cells_at a l ++ cells_at (cells_end a l) l'.
Proof. revert a. induction l as [|c l IH]; intros a; simpl; [done|]. by rewrite IH. Qed.

Lemma cells_end_app a l l' : cells_end a (l ++ l') = cells_end (cells_end a l) l'.
Proof. apply foldl_app. Qed.

Record Layout := mkLayout {
  lpages : list (NormalPage * list Cell);
  llarge : list (Z * Z)
}.

Definition page_cells (x : NormalPage * list Cell) : list (Z * Cell) := cells_at (memory_ x.1) x.2.

Definition object_of (x : Z * Cell) : option Z :=
  match x.2 with ObjCell _ => Some x.1 | _ => None end.

(** The headers of the objects of a page; of all objects. *)
Definition page_objects (x : NormalPage * list Cell) : list Z := omap object_of (page_cells x).
Definition objects (L : Layout) : list Z := concat (map page_objects (lpages L)) ++ (llarge L).*1.

Section layout.
Context `{Platform} {P : PlatformOk}.

#[local] Abbreviation g := kAllocationGranularity.

(** [S] is what is marked. *)
Definition cell_ok (S : gset Z) (h : Heap) (a : Z) (c : Cell) : Prop :=
  match c with
  | LabCell n => a = lab_start h ∧ n = lab_size h ∧ 0 < n ∧ aligned n
  | FreeCell n => hdr (space h) a kFreeListGCInfoIndex n false false ∧ g <= n
  | ObjCell n => ∃ i b, hdr (space h) a i n b (bool_decide (ObjectStart a ∈ S)) ∧
      kFreeListGCInfoIndex < i ∧ is_Some (table_ (gc_infos h) !! i) ∧ g <= n
  end.

Definition tiles (S : gset Z) (h : Heap) (a : Z) (l : list Cell) (e : Z) : Prop :=
  cells_end a l = e ∧ ∀ x c, (x, c) ∈ cells_at a l → cell_ok S h x c.

Definition large_ok (S : gset Z) (h : Heap) (a n : Z) : Prop :=
  ∃ i b, hdr (space h) a i n b (bool_decide (ObjectStart a ∈ S)) ∧
    kFreeListGCInfoIndex < i ∧ is_Some (table_ (gc_infos h) !! i) ∧ g <= n.

(** Blocks of memory: address and size. *)
Definition page_block (x : NormalPage * list Cell) : Z * Z := (memory_ x.1, kPageSize).
Definition blocks (L : Layout) : list (Z * Z) := (page_block <$> lpages L) ++ llarge L.

Definition apart (b c : Z * Z) : Prop := b.1 + b.2 <= c.1 ∨ c.1 + c.2 <= b.1.
Definition block_ok (b : Z * Z) : Prop := 0 < b.1 ∧ aligned b.1.
Fixpoint blocks_ok (l : list (Z * Z)) : Prop :=
  match l with [] => True | b :: l => block_ok b ∧ Forall (apart b) l ∧ blocks_ok l end.

(** The free list has the free cells of [pages] that are large enough for an entry. *)
Definition free_ok (h : Heap) (pages : list (NormalPage * list Cell)) : Prop :=
  ∃ ls, fl_rep (space h) ls ∧
    ∀ e, e ∈ concat ls ↔ ∃ x n, x ∈ pages ∧ (e, FreeCell n) ∈ page_cells x ∧ kFreeListEntrySize <= n.

Record heap_shape (S : gset Z) (h : Heap) (L : Layout) : Prop := {
  ho_pages : normal_pages_ h = (lpages L).*1;
  ho_large : large_objects_ h = (llarge L).*1;
  ho_tiles : ∀ x, x ∈ lpages L → tiles S h (memory_ x.1) x.2 (PayloadEnd x.1);
  ho_large_ok : ∀ a n, (a, n) ∈ llarge L → large_ok S h a n;
  ho_blocks : blocks_ok (blocks L);
  ho_lab_size : 0 <= lab_size h;
  ho_lab : lab_size h = 0 ∨ ∃ x, x ∈ lpages L ∧ (lab_start h, LabCell (lab_size h)) ∈ page_cells x
}.

Record heap_ok (S : gset Z) (h : Heap) (L : Layout) : Prop := {
  ho_shape :> heap_shape S h L;
  ho_free : free_ok h (lpages L)
}.

#[export] Instance blocks_perm : Proper ((≡ₚ) ==> iff) blocks_ok.
Proof.
  assert (∀ b c, apart b c → apart c b) as Hsym by (unfold apart; intros; lia).
  assert (∀ l l', l ≡ₚ l' → blocks_ok l → blocks_ok l') as Hp.
  { induction 1 as [|b l l' Hl IH|b c l|l1 l2 l3 _ IH1 _ IH2]; simpl; [done| | |by auto].
    - intros (? & Hf & ?). split; [done|]. split; [by rewrite <- Hl|auto].
    - rewrite !Forall_cons. intros (? & (? & ?) & ? & ? & ?). auto 10. }
  intros l l' Hl. split; by apply Hp.
Qed.

(** ** Addresses of cells *)

Definition sized (l : list Cell) : Prop := Forall (λ c, g <= csize c ∧ aligned (csize c)) l.

Lemma sized_end a l : sized l → a <= cells_end a l.
Proof using P.
  pose proof granularity_range. intros Hs. revert a. induction Hs as [|c l [Hc _] _ IH]; intros a; simpl.
  { unfold cells_end. simpl. lia. }
  specialize (IH (a + csize c)). unfold cells_end in *. simpl. lia.
Qed.

Lemma sized_range a l x c :
  sized l → (x, c) ∈ cells_at a l → a <= x ∧ x + csize c <= cells_end a l ∧ g <= csize c.
Proof using P.
  pose proof granularity_range. intros Hs. revert a. induction Hs as [|c' l [Hc Hc'] Hs IH]; intros a; simpl.
  { intros Hx. by apply elem_of_nil in Hx. }
  intros [[= -> ->]|Hx]%elem_of_cons.
  - pose proof (sized_end (a + csize c') l Hs). unfold cells_end in *. simpl. lia.
  - specialize (IH _ Hx). unfold cells_end in *. simpl. lia.
Qed.

(** Cells do not overlap. *)
Lemma sized_apart a l x y c d :
  sized l → (x, c) ∈ cells_at a l → (y, d) ∈ cells_at a l →
  (x = y ∧ c = d) ∨ x + csize c <= y ∨ y + csize d <= x.
Proof using P.
  intros Hs. revert a. induction Hs as [|c' l Hc Hs IH]; intros a; simpl.
  { intros Hx. by apply elem_of_nil in Hx. }
  intros [[= -> ->]|Hx]%elem_of_cons [[= -> ->]|Hy]%elem_of_cons.
  - by left.
  - right. left. by destruct (sized_range _ _ _ _ Hs Hy).
  - right. right. by destruct (sized_range _ _ _ _ Hs Hx).
  - eauto.
Qed.

Lemma sized_length a l : sized l → Z.of_nat (length l) * g <= cells_end a l - a.
Proof using P.
  intros Hs. revert a. induction Hs as [|c l [Hc _] _ IH]; intros a; simpl.
  { unfold cells_end. simpl. lia. }
  specialize (IH (a + csize c)). unfold cells_end in *. simpl. lia.
Qed.


Lemma payload_range : g < PayloadSize < kPageSize ∧ PayloadSize <= kMaxSize.
Proof using P.
  pose proof granularity_range. unfold PayloadSize. change kPageSize with 131072.
  change kMaxSize with 131071. lia.
Qed.

Lemma entry_size : kFreeListEntrySize = 2 * g.
Proof. done. Qed.

Lemma aligned_pos n : aligned n → 0 < n → g <= n.
Proof using P.
  intros [k ->] Hn. pose proof granularity_range. set (w := g) in *. clearbody w.
  assert (0 < k) by (destruct (Z.le_gt_cases k 0); [nia|done]). nia.
Qed.

Lemma cell_size S h a c : cell_ok S h a c → g <= csize c ∧ aligned (csize c).
Proof using P.
  destruct c as [n|n|n]; simpl.
  - intros (_ & -> & Hn & Ha). split; [by apply aligned_pos|done].
  - by intros [(_ & [Ha _] & _) Hn].
  - by intros (i & b & (_ & [Ha _] & _) & _ & _ & Hn).
Qed.

Lemma tiles_sized S h a l e : tiles S h a l e → sized l.
Proof using P.
  intros [_ Hc]. revert a Hc. induction l as [|c l IH]; intros a Hc; [constructor|].
  constructor; [|apply (IH (a + csize c)); intros x d Hx; apply Hc; by right].
  apply (cell_size S h a). apply Hc. by left.
Qed.

(** What a cell depends on. *)
Lemma cell_frame S S' h h' a c :
  cell_ok S h a c →
  lab_start h' = lab_start h → lab_size h' = lab_size h → gc_infos h' = gc_infos h →
  headers (space h') !! a = headers (space h) !! a →
  (ObjectStart a ∈ S ↔ ObjectStart a ∈ S') →
  cell_ok S' h' a c.
Proof.
  intros Hc Hl1 Hl2 Hg Hh HS. destruct c as [n|n|n]; simpl in *.
  - by rewrite Hl1, Hl2.
  - unfold hdr. by rewrite Hh.
  - destruct Hc as (i & b & Hd & Hi). exists i, b. rewrite Hg. split; [|done].
    unfold hdr. rewrite Hh. by rewrite <- (bool_decide_ext _ _ HS).
Qed.
End layout.
#[export] Hint Immediate ho_shape : core.
