(* ===== verification/GcSweep.v ===== *)
(** * Sweeping

    The walk over one page leaves the marked objects unmarked, finalizes the others
    and reports the runs between ([wp_SweepNormalPage]); pages without a marked
    object are given back, the runs of the others become the free list
    ([wp_sweep_pages]); and [Sweep] as a whole keeps exactly the marked objects
    ([wp_Sweep]). *)
From Stdlib Require Import ZArith Lia Bool.
From stdpp Require Import base list gmap.
From S2P Require Import Prelude Sandbox SandboxProps GcSpace GcSpaceProps Job GcHeap GcMark GcLayout.

Definition free_block (x : Z * Cell) : option Block :=
  match x.2 with FreeCell n => Some (mkBlock x.1 n) | _ => None end.
Definition free_blocks (a : Z) (l : list Cell) : list Block := omap free_block (cells_at a l).

Section sweep.
Context `{Platform} {P : PlatformOk}.

#[local] Abbreviation g := kAllocationGranularity.

(** ** Runs *)

Definition alive (S : gset Z) (a : Z) (c : Cell) : bool :=
  match c with ObjCell _ => bool_decide (ObjectStart a ∈ S) | _ => false end.

Definition free_cell (run : Z) : list Cell := if 0 <? run then [FreeCell run] else [].

(** The cells from [a] on, after [run] bytes that are free, once everything that is
    not alive has become part of a run. *)
Fixpoint coalesce (S : gset Z) (a run : Z) (l : list Cell) : list Cell :=
  match l with
  | [] => free_cell run
  | c :: l =>
      if alive S a c then free_cell run ++ c :: coalesce S (a + csize c) 0 l
      else coalesce S (a + csize c) (run + csize c) l
  end.

Fixpoint live_bytes (S : gset Z) (a : Z) (l : list Cell) : Z :=
  match l with
  | [] => 0
  | c :: l => (if alive S a c then csize c else 0) + live_bytes S (a + csize c) l
  end.

Lemma free_cell_end run a : 0 <= run → cells_end (a - run) (free_cell run) = a.
Proof.
  intros Hr. unfold free_cell. destruct (0 <? run) eqn:E; zbool; unfold cells_end; simpl; lia.
Qed.

Lemma coalesce_end S a run l :
  0 <= run → sized l → cells_end (a - run) (coalesce S a run l) = cells_end a l.
Proof using P.
  pose proof granularity_range. intros Hr Hs. revert a run Hr.
  induction Hs as [|c l [Hc _] Hs IH]; intros a run Hr; simpl; [by apply free_cell_end|].
  change (cells_end a (c :: l)) with (cells_end (a + csize c) l). destruct (alive S a c).
  - rewrite cells_end_app, free_cell_end by done.
    change (cells_end a (c :: ?x)) with (cells_end (a + csize c) x).
    rewrite <- (IH (a + csize c) 0) by lia. by rewrite Z.sub_0_r.
  - rewrite <- (IH (a + csize c) (run + csize c)) by lia. f_equal. lia.
Qed.

(** What the cells of the result are. *)
Lemma coalesce_cells S a run l x c :
  0 <= run → aligned run → sized l →
  (x, c) ∈ cells_at (a - run) (coalesce S a run l) →
  (alive S x c = true ∧ (x, c) ∈ cells_at a l) ∨
  ∃ n, c = FreeCell n ∧ g <= n ∧ aligned n ∧ a - run <= x ∧ x + n <= cells_end a l.
Proof using P.
  pose proof granularity_range as Hg. intros Hr Har Hs. revert a run Hr Har.
  assert (∀ a run, 0 <= run → aligned run → (x, c) ∈ cells_at (a - run) (free_cell run) →
    ∃ n, c = FreeCell n ∧ g <= n ∧ aligned n ∧ a - run <= x ∧ x + n <= a) as Hfree.
  { intros a run Hr Har Hx. unfold free_cell in Hx. destruct (0 <? run) eqn:E; zbool;
      [|by apply elem_of_nil in Hx].
    apply list_elem_of_singleton in Hx as [= -> ->]. exists run. split; [done|].
    split; [by apply aligned_pos|]. split; [done|]. lia. }
  induction Hs as [|c' l [Hc Hca] Hs IH]; intros a run Hr Har; simpl.
  - intros Hx. right. apply Hfree in Hx as (n & ? & ? & ? & ? & ?); [|done..]. exists n.
    unfold cells_end. simpl. auto.
  - change (cells_end a (c' :: l)) with (cells_end (a + csize c') l).
    pose proof (sized_end (a + csize c') l Hs). destruct (alive S a c') eqn:Eal.
    + rewrite cells_at_app, elem_of_app, free_cell_end by done. intros [Hx|Hx].
      * right. apply Hfree in Hx as (n & ? & ? & ? & ? & ?); [|done..]. exists n.
        split_and!; try done. lia.
      * simpl in Hx. apply elem_of_cons in Hx as [[= -> ->]|Hx]; [left; split; [done|by left]|].
        rewrite <- (Z.sub_0_r (a + csize c')) in Hx at 1.
        apply IH in Hx as [[? ?]|(n & ? & ? & ? & ? & ?)]; [left; split; [done|by right]| |lia|].
        -- right. exists n. split_and!; try done. lia.
        -- by exists 0.
    + intros Hx. replace (a - run) with (a + csize c' - (run + csize c')) in Hx by lia.
      apply IH in Hx as [[? ?]|(n & ? & ? & ? & ? & ?)]; [left; split; [done|by right]| |lia|].
      * right. exists n. split_and!; try done. lia.
      * by apply Z.divide_add_r.
Qed.

Lemma coalesce_live S a run l x c :
  0 <= run → alive S x c = true → (x, c) ∈ cells_at a l → sized l →
  (x, c) ∈ cells_at (a - run) (coalesce S a run l).
Proof using P.
  pose proof granularity_range as Hg. intros Hr Hal Hx Hs. revert a run Hr Hx.
  induction Hs as [|c' l [Hc Hca] Hs IH]; intros a run Hr Hx; simpl in *; [by apply elem_of_nil in Hx|].
  apply elem_of_cons in Hx as [[= -> ->]|Hx].
  - rewrite Hal, cells_at_app, free_cell_end by done. apply elem_of_app. right. by left.
  - destruct (alive S a c').
    + rewrite cells_at_app, free_cell_end by done. apply elem_of_app. right. right.
      rewrite <- (Z.sub_0_r (a + csize c')) at 1. apply IH; [lia|done].
    + replace (a - run) with (a + csize c' - (run + csize c')) by lia. apply IH; [lia|done].
Qed.

Lemma coalesce_sized S a run l : 0 <= run → aligned run → sized l → sized (coalesce S a run l).
Proof using P.
  pose proof granularity_range as Hg. intros Hr Har Hs. revert a run Hr Har.
  assert (∀ run, 0 <= run → aligned run → sized (free_cell run)) as Hfree.
  { intros run Hr Har. unfold free_cell. destruct (0 <? run) eqn:E; zbool; [|constructor].
    constructor; [|constructor]. split; [by apply aligned_pos|done]. }
  induction Hs as [|c l Hc Hs IH]; intros a run Hr Har; simpl; [by apply Hfree|].
  destruct (alive S a c).
  - apply Forall_app. split; [by apply Hfree|]. constructor; [done|]. apply IH; [lia|by exists 0].
  - apply IH; [lia|]. apply Z.divide_add_r; [done|apply Hc].
Qed.

Lemma live_bytes_nonneg S a l : sized l → 0 <= live_bytes S a l.
Proof using P.
  pose proof granularity_range as Hg. intros Hs. revert a.
  induction Hs as [|c l [Hc _] Hs IH]; intros a; simpl; [lia|].
  specialize (IH (a + csize c)). destruct (alive S a c); lia.
Qed.

(** Nothing lives exactly if no object is marked. *)
Lemma live_bytes_zero S a l :
  sized l → live_bytes S a l = 0 ↔ ∀ x c, (x, c) ∈ cells_at a l → alive S x c = false.
Proof using P.
  pose proof granularity_range as Hg. intros Hs. revert a.
  induction Hs as [|c l [Hc _] Hs IH]; intros a; simpl.
  { split; [|done]. intros _ x c Hx. by apply elem_of_nil in Hx. }
  pose proof (live_bytes_nonneg S (a + csize c) l Hs). destruct (alive S a c) eqn:E.
  - split; [lia|]. intros Hall. specialize (Hall a c ltac:(by left)). congruence.
  - rewrite Z.add_0_l, IH. split.
    + intros Hall x d [[= -> ->]|Hx]%elem_of_cons; [done|by apply Hall].
    + intros Hall x d Hx. apply Hall. by right.
Qed.

(** ** The effect on headers, members and the log *)

Definition live (S : gset Z) (objs : list Z) : list Z := filter (λ a, ObjectStart a ∈ S) objs.
Definition dead (S : gset Z) (objs : list Z) : list Z := filter (λ a, ObjectStart a ∉ S) objs.

Definition unmark (objs : list Z) (m : gmap Z HeapObjectHeader) : gmap Z HeapObjectHeader :=
  map_imap (λ a hd, Some (if decide (a ∈ objs) then store_mark 0 hd else hd)) m.

Definition remove (objs : list Z) (F : gmap Z (list BasicMember)) : gmap Z (list BasicMember) :=
  map_imap (λ p l, if decide (FromObject p ∈ objs) then None else Some l) F.

(** The objects of a list whose type has a finalizer. *)
Definition finalizable (h : Heap) (objs : list Z) : list Z :=
  omap (λ a, hd ← headers (space h) !! a;
             info ← GCInfoFromIndex (gc_infos h) (GetGCInfoIndex hd);
             if finalize info then Some (ObjectStart a) else None) objs.

Definition swept (S : gset Z) (objs : list Z) (h : Heap) : Heap :=
  set_finalized (finalized h ++ finalizable h (dead S objs))
    (set_fields (remove (dead S objs) (fields h))
      (set_space (set_headers (unmark (live S objs)) (space h)) h)).

Lemma lookup_unmark objs m a :
  unmark objs m !! a = (λ hd, if decide (a ∈ objs) then store_mark 0 hd else hd) <$> m !! a.
Proof. unfold unmark. rewrite map_lookup_imap. by destruct (m !! a). Qed.

Lemma lookup_remove objs F p :
  remove objs F !! p = if decide (FromObject p ∈ objs) then None else F !! p.
Proof. unfold remove. rewrite map_lookup_imap. destruct (F !! p); [done|]. by destruct (decide _). Qed.

Lemma store_mark_twice hd : store_mark 0 (store_mark 0 hd) = store_mark 0 hd.
Proof.
  unfold store_mark, StoreEncoded. cbn. f_equal. change (encode MarkBitField 0) with 0.
  rewrite !Z.lor_0_r, <- Z.land_assoc. f_equal.
Qed.

Lemma swept_nil S h : swept S [] h = h.
Proof.
  unfold swept, set_finalized, set_fields, set_space, set_headers. cbn.
  rewrite app_nil_r. destruct h as [[hd nx hs ts b] ? ? ? ? ? ? ? F ? ?]. cbn. f_equal; [f_equal|].
  - apply map_eq. intros a. rewrite lookup_unmark. by destruct (hd !! a).
  - apply map_eq. intros a. rewrite lookup_remove. done.
Qed.

Lemma swept_app S o1 o2 h : swept S o2 (swept S o1 h) = swept S (o1 ++ o2) h.
Proof.
  unfold swept, set_finalized, set_fields, set_space, set_headers. cbn. unfold live, dead.
  rewrite !filter_app. f_equal; [f_equal| |].
  - apply map_eq. intros a. rewrite !lookup_unmark. destruct (_ !! a) as [hd|]; [cbn|done]. f_equal.
    destruct (decide (a ∈ filter (λ a, ObjectStart a ∈ S) o1 ++ filter (λ a, ObjectStart a ∈ S) o2)) as [Hin|Hin];
      rewrite elem_of_app in Hin;
      destruct (decide (a ∈ filter (λ a, ObjectStart a ∈ S) o2)),
        (decide (a ∈ filter (λ a, ObjectStart a ∈ S) o1)); try tauto; try done.
    apply store_mark_twice.
  - apply map_eq. intros p. rewrite !lookup_remove.
    destruct (decide (FromObject p ∈ filter (λ a, ObjectStart a ∉ S) o1 ++ filter (λ a, ObjectStart a ∉ S) o2)) as [Hin|Hin];
      rewrite elem_of_app in Hin;
      destruct (decide (FromObject p ∈ filter (λ a, ObjectStart a ∉ S) o2)),
        (decide (FromObject p ∈ filter (λ a, ObjectStart a ∉ S) o1)); tauto || done.
  - rewrite <- app_assoc. f_equal. unfold finalizable. rewrite omap_app. f_equal. cbn.
    apply list_omap_ext, Forall2_same_length_lookup. split; [done|]. intros i x y Hx Hy.
    assert (x = y) as -> by congruence. rewrite lookup_unmark. destruct (_ !! y); [cbn|done].
    by destruct (decide _).
Qed.

Lemma swept_header S objs h a :
  headers (space (swept S objs h)) !! a =
  (λ hd, if decide (a ∈ objs ∧ ObjectStart a ∈ S) then store_mark 0 hd else hd) <$> headers (space h) !! a.
Proof.
  cbn. rewrite lookup_unmark. destruct (_ !! a); [cbn|done]. f_equal. apply decide_ext.
  unfold live. rewrite list_elem_of_filter. tauto.
Qed.

(** *** One object *)

Lemma dead_one S a : ObjectStart a ∉ S → live S [a] = [] ∧ dead S [a] = [a].
Proof.
  intros Ha. unfold live, dead. split.
  - by rewrite filter_cons_False.
  - by rewrite filter_cons_True.
Qed.

Lemma live_one S a : ObjectStart a ∈ S → live S [a] = [a] ∧ dead S [a] = [].
Proof.
  intros Ha. unfold live, dead. split.
  - by rewrite filter_cons_True.
  - rewrite filter_cons_False; [done|]. by intros Hn.
Qed.

Lemma wp_Finalize S h a i n b m (Q : unit → Heap → Prop) :
  hdr (space h) a i n b m → kFreeListGCInfoIndex < i → is_Some (table_ (gc_infos h) !! i) →
  ObjectStart a ∉ S → Q tt (swept S [a] h) → wp (Finalize a) Q h.
Proof using P.
  intros (Hh & Hn & Hi) Hi0 [info Hinfo] HaS HQ. unfold Finalize. wp_step. rewrite Hh. wp_step.
  rewrite header_index by done. unfold GCInfoFromIndex.
  change kMinIndex with 1. change kMaxIndex with kMaxGCInfoIndex. change kFreeListGCInfoIndex with 0 in Hi0.
  destruct Hi as [_ Hi]. rewrite (proj2 (Z.leb_le 1 i)), (proj2 (Z.ltb_lt _ _)) by lia. cbn [andb].
  rewrite Hinfo. wp_step.
  assert (swept S [a] h = set_fields (delete (ObjectStart a) (fields h))
    (set_finalized (finalized h ++ (if finalize info then [ObjectStart a] else [])) h)) as E.
  { unfold swept. destruct (dead_one S a HaS) as [-> ->].
    unfold finalizable. cbn [omap list_omap]. rewrite Hh. cbn.
    rewrite header_index by (split; lia). unfold GCInfoFromIndex. change kMinIndex with 1.
    change kMaxIndex with kMaxGCInfoIndex.
    rewrite (proj2 (Z.leb_le 1 i)), (proj2 (Z.ltb_lt _ _)) by lia. cbn [andb]. rewrite Hinfo. cbn.
    unfold set_finalized, set_fields, set_space, set_headers. cbn.
    assert (unmark [] (headers (space h)) = headers (space h)) as ->.
    { apply map_eq. intros x. rewrite lookup_unmark. by destruct (_ !! x). }
    assert (remove [a] (fields h) = delete (ObjectStart a) (fields h)) as ->.
    { apply map_eq. intros p. rewrite lookup_remove. destruct (decide (p = ObjectStart a)) as [->|Hne].
      - rewrite from_start, decide_True, lookup_delete_eq by (by left). done.
      - rewrite lookup_delete_ne by done. rewrite decide_False; [done|].
        rewrite list_elem_of_singleton. intros E. apply Hne. rewrite <- E. symmetry. apply start_from. }
    assert (mkSpace (headers (space h)) (nexts (space h)) (free_list_heads_ (space h))
      (free_list_tails_ (space h)) (biggest_free_list_index_ (space h)) = space h) as -> by (by destruct (space h)).
    by destruct (finalize info). }
  rewrite E in HQ. destruct (finalize info); wp_step; [exact HQ|].
  rewrite app_nil_r in HQ. by destruct h.
Qed.

Lemma swept_unmark S h a i n b m :
  hdr (space h) a i n b m → ObjectStart a ∈ S →
  set_space (set_headers <[a := header_of i n b false]> (space h)) h = swept S [a] h.
Proof using P.
  intros (Hh & Hn & Hi) HaS. unfold swept. destruct (live_one S a HaS) as [-> ->].
  unfold set_finalized, set_fields, set_space, set_headers. cbn. rewrite app_nil_r.
  assert (remove [] (fields h) = fields h) as ->.
  { apply map_eq. intros p. by rewrite lookup_remove. }
  f_equal. f_equal. apply map_eq. intros x. rewrite lookup_unmark. destruct (decide (x = a)) as [->|Hne].
  - rewrite lookup_insert_eq, Hh. cbn. rewrite decide_True by (by left). f_equal. symmetry.
    exact (header_store_mark i n b m false Hn).
  - rewrite lookup_insert_ne by done. destruct (_ !! x); [cbn|done]. f_equal.
    rewrite decide_False; [done|]. by rewrite list_elem_of_singleton.
Qed.

(** *** One page *)

Lemma tiles_cons S h a c l e :
  tiles S h a (c :: l) e → cell_ok S h a c ∧ tiles S h (a + csize c) l e.
Proof.
  intros [He Hc]. split; [apply Hc; by left|]. split; [done|]. intros x d Hx. apply Hc. by right.
Qed.

Lemma tiles_frame S S' h h' a l e :
  tiles S h a l e →
  lab_start h' = lab_start h → lab_size h' = lab_size h → gc_infos h' = gc_infos h →
  (∀ x c, (x, c) ∈ cells_at a l → headers (space h') !! x = headers (space h) !! x ∧
    (ObjectStart x ∈ S ↔ ObjectStart x ∈ S')) →
  tiles S' h' a l e.
Proof.
  intros [He Hc] H1 H2 H3 Hx. split; [done|]. intros x c Hin. destruct (Hx x c Hin).
  by apply (cell_frame S S' h h'); [apply Hc|..].
Qed.

Lemma swept_others S o h x : x ∉ o → headers (space (swept S o h)) !! x = headers (space h) !! x.
Proof.
  intros Hx. rewrite swept_header. destruct (headers (space h) !! x); [cbn|done].
  by rewrite decide_False by tauto.
Qed.

Lemma swept_tail S h a c l e o :
  sized (c :: l) → (∀ x, x ∈ o → x = a) → tiles S h (a + csize c) l e →
  tiles S (swept S o h) (a + csize c) l e.
Proof using P.
  intros [[Hc _] Hs]%Forall_cons Ho Ht. pose proof granularity_range.
  apply (tiles_frame S S h); [done..|]. intros x d Hx. split; [|done].
  apply swept_others. intros ->%Ho. apply sized_range in Hx; [|done]. lia.
Qed.

Definition run_start (a run : Z) : option Z := if 0 <? run then Some (a - run) else None.

Lemma run_start_default a run : 0 <= run → default a (run_start a run) = a - run.
Proof. intros Hr. unfold run_start. destruct (0 <? run) eqn:E; zbool; simpl; lia. Qed.

Lemma end_run a run (runs : list Block) :
  match run_start a run with Some start => runs ++ [mkBlock start (a - start)] | None => runs end =
  runs ++ free_blocks (a - run) (free_cell run).
Proof.
  unfold run_start, free_cell. destruct (0 <? run); cbn; [|by rewrite app_nil_r].
  do 3 f_equal. lia.
Qed.

Lemma free_blocks_app a l l' : free_blocks a (l ++ l') = free_blocks a l ++ free_blocks (cells_end a l) l'.
Proof. unfold free_blocks. by rewrite cells_at_app, omap_app. Qed.

Lemma wp_sweep_walk S e fuel l : ∀ h a run runs bytes Q,
  tiles S h a l e → lab_size h = 0 → (length l <= fuel)%nat → 0 <= run →
  Q (runs ++ free_blocks (a - run) (coalesce S a run l), bytes + live_bytes S a l)
    (swept S (omap object_of (cells_at a l)) h) →
  wp (sweep_walk fuel e a (run_start a run) runs bytes) Q h.
Proof using P.
  pose proof granularity_range as Hg. revert fuel.
  induction l as [|c l IH]; intros fuel h a run runs bytes Q Ht Hlab Hf Hr HQ.
  { destruct Ht as [He _]. cbn in He. subst e. destruct fuel; cbn [sweep_walk]; rewrite Z.ltb_irrefl;
      wp_step; rewrite end_run; cbn in HQ; by rewrite Z.add_0_r, swept_nil in HQ. }
  destruct fuel as [|fuel]; [simpl in Hf; lia|]. pose proof (tiles_sized _ _ _ _ _ Ht) as Hs.
  pose proof (Forall_inv Hs) as [Hc0 Hca]. pose proof (Forall_inv_tail Hs) as Hs'.
  destruct (tiles_cons _ _ _ _ _ _ Ht) as [Hc Ht']. destruct Ht as [He _].
  change (cells_end a (c :: l)) with (cells_end (a + csize c) l) in He.
  pose proof (sized_end (a + csize c) l Hs'). cbn [sweep_walk].
  rewrite (proj2 (Z.ltb_lt a e)) by lia. unfold header_at. wp_step.
  assert (∀ o m Q', (∀ x, x ∈ o → x = a) → swept S (o ++ omap object_of (cells_at (a + csize c) l)) h =
      swept S (omap object_of (cells_at a (c :: l))) h → m = swept S o h →
    alive S a c = false →
    (∀ r, Q r (swept S (omap object_of (cells_at a (c :: l))) h) → Q' r (swept S (omap object_of (cells_at a (c :: l))) h)) →
    wp (sweep_walk fuel e (a + csize c) (Some (default a (run_start a run))) runs bytes) Q' m) as Hfree.
  { intros o m Q' Ho Hsw -> Hal HQ'. rewrite run_start_default by done.
    assert (Some (a - run) = run_start (a + csize c) (run + csize c)) as ->.
    { unfold run_start. rewrite (proj2 (Z.ltb_lt _ _)) by lia. f_equal. lia. }
    apply IH; [by apply swept_tail|done|simpl in Hf; lia|lia|].
    rewrite swept_app, Hsw. apply HQ'. cbn [coalesce live_bytes] in HQ. rewrite Hal in HQ.
    by replace (a + csize c - (run + csize c)) with (a - run) by lia. }
  destruct c as [n|n|n]; cbn [csize cell_ok] in *.
  - lia.
  - destruct Hc as [(Hh & Hn & Hi) _]. rewrite Hh. wp_step. rewrite header_free by done. cbn. wp_step.
    rewrite header_size by done. rewrite set_space_same.
    apply (Hfree [] h); [by intros x Hx%elem_of_nil|done|by rewrite swept_nil|done|done].
  - destruct Hc as (i & b & Hd & Hi & Hinfo & _). pose proof Hd as (Hh & Hn & Hix).
    rewrite Hh. wp_step. rewrite header_free, header_marked by done.
    change kFreeListGCInfoIndex with 0 in Hi.
    rewrite (proj2 (Z.eqb_neq i 0)) by lia. cbn [orb]. rewrite header_size by done. rewrite set_space_same.
    destruct (decide (ObjectStart a ∈ S)) as [HaS|HaS].
    + rewrite bool_decide_true by done. cbn [negb]. rewrite header_Unmark by done.
      wp_step. rewrite (swept_unmark S h a i n b (bool_decide (ObjectStart a ∈ S))) by done.
      rewrite end_run. change None with (run_start (a + n) 0).
      apply IH; [|done|simpl in Hf; lia|lia|].
      * apply (swept_tail S h a (ObjCell n)); [done| |done]. by intros x ->%list_elem_of_singleton.
      * rewrite swept_app. cbn [cells_at omap list_omap object_of snd fst csize] in HQ.
        cbn [coalesce live_bytes alive csize] in HQ. rewrite bool_decide_true in HQ by done.
        rewrite free_blocks_app, free_cell_end in HQ by done.
        rewrite <- !app_assoc, Z.sub_0_r, <- Z.add_assoc. exact HQ.
    + rewrite bool_decide_false by done. cbn [negb]. wp_step.
      apply (wp_Finalize S h a i n b (bool_decide (ObjectStart a ∈ S))); [done|done|done|done|].
      wp_step. apply (Hfree [a]); [by intros x ->%list_elem_of_singleton|done|done| |done].
      cbn. by rewrite bool_decide_false.
Qed.
End sweep.
