(* ===== verification/GcSweepHeap.v ===== *)
(** * Sweeping the whole heap

    Page by page and object by object, the heap is divided into what has been swept
    and what has not ([sweeping]); at the end it has the layout of the survivors
    ([wp_Sweep]). *)
From Stdlib Require Import ZArith Lia Bool.
From stdpp Require Import base list gmap.
From S2P Require Import Prelude Sandbox SandboxProps GcSpace GcSpaceProps Job GcHeap GcMark GcLayout GcSweep.

Lemma lookup_clobber {A} lo hi (m : gmap Z A) a :
  a < lo ∨ hi <= a → clobber lo hi m !! a = m !! a.
Proof.
  intros Ha. unfold clobber. destruct (m !! a) as [v|] eqn:E.
  - apply map_lookup_filter_Some. split; [done|]. lia.
  - apply map_lookup_filter_None. by left.
Qed.

Section sweep.
Context `{Platform} {P : PlatformOk}.

#[local] Abbreviation g := kAllocationGranularity.

(** ** Adding runs to the free list *)

Lemma elem_of_free_cells b c cs x n :
  (x, FreeCell n) ∈ cells_at b (c :: cs) ↔
  (x = b ∧ c = FreeCell n) ∨ (x, FreeCell n) ∈ cells_at (b + csize c) cs.
Proof. simpl. rewrite elem_of_cons. naive_solver. Qed.

Definition run_ok (ls : list (list Z)) (x n : Z) : Prop :=
  x ≠ nullptr ∧ (x ∉ concat ls) ∧ size_ok n ∧ g <= n < kPageSize.

Lemma wp_add_runs cs : ∀ b h ls (Q : unit → Heap → Prop),
  fl_rep (space h) ls → sized cs →
  (∀ x n, (x, FreeCell n) ∈ cells_at b cs → run_ok ls x n) →
  (∀ s' ls', fl_rep s' ls' →
    (∀ e, e ∈ concat ls' ↔ e ∈ concat ls ∨
      ∃ n, (e, FreeCell n) ∈ cells_at b cs ∧ kFreeListEntrySize <= n) →
    (∀ x n, (x, FreeCell n) ∈ cells_at b cs → hdr s' x kFreeListGCInfoIndex n false false) →
    (∀ x, (∀ n, (x, FreeCell n) ∉ cells_at b cs) → headers s' !! x = headers (space h) !! x) →
    Q tt (set_space s' h)) →
  wp (add_runs (free_blocks b cs)) Q h.
Proof using P.
  pose proof granularity_range as Hg.
  induction cs as [|c cs IH]; intros b h ls Q Hfl Hs Hok HQ.
  { cbn. wp_step. rewrite <- (set_space_same h). apply (HQ _ ls); [done| |by intros x n Hx%elem_of_nil|done].
    intros e. split; [by left|]. intros [He|(n & Hn%elem_of_nil & _)]; done. }
  pose proof (Forall_inv Hs) as [Hc0 _]. pose proof (Forall_inv_tail Hs) as Hs'.
  assert ((∀ n, c ≠ FreeCell n) ∨ ∃ n, c = FreeCell n) as [Hnf|[n ->]]
    by (destruct c; [left|right; by eexists|left]; intros ? [=]).
  { assert (free_blocks b (c :: cs) = free_blocks (b + csize c) cs) as ->.
    { destruct c as [m|m|m]; [done|by destruct (Hnf m)|done]. }
    assert (∀ x m, (x, FreeCell m) ∈ cells_at b (c :: cs) ↔ (x, FreeCell m) ∈ cells_at (b + csize c) cs) as Hiff.
    { intros x m. rewrite elem_of_free_cells. split; [intros [[_ ->]|?]; [by destruct (Hnf m)|done]|by right]. }
    apply (IH _ _ ls); [done|done| |].
    - intros x m Hx. apply Hok. by apply Hiff.
    - intros s' ls' Hfl' Hls Hh Ho. apply (HQ s' ls'); [done| | |].
      + intros e. rewrite Hls. by setoid_rewrite Hiff.
      + intros x m Hx%Hiff. by apply Hh.
      + intros x Hx. apply Ho. intros m. rewrite <- Hiff. apply Hx. }
  change (free_blocks b (FreeCell n :: cs)) with (mkBlock b n :: free_blocks (b + n) cs).
  destruct (Hok b n) as (Hb & Hnin & Hsz & Hr); [by left|]. cbn [add_runs csize] in *. wp_step.
  eapply wp_mono; [by apply (wp_FreeList_Add (space h) ls b n)|]. cbn. intros _ s1 [Hh1 Hfl1]. wp_step.
  assert (∀ x d, (x, d) ∈ cells_at (b + n) cs → b < x) as Hlt.
  { intros x d Hx. apply sized_range in Hx; [|done]. lia. }
  assert (length ls = 17%nat) as Hlen by apply (fl_length _ _ Hfl).
  apply (IH _ _ (add_entry b n ls)); [done|done| |].
  - intros x m Hx. destruct (Hok x m) as (? & Hx' & ? & ?); [by right|]. split_and!; try done; [|lia..].
    rewrite elem_of_add_entry by (done || lia). apply Hlt in Hx. intros [?|[-> _]]; [done|lia].
  - cbn. intros s' ls' Hfl' Hls Hhd Ho. apply (HQ s' ls'); [done| | |].
    + intros e. rewrite Hls, elem_of_add_entry by (done || lia). setoid_rewrite elem_of_free_cells. cbn [csize].
      split.
      * intros [[?|[-> ?]]|(m & ? & ?)]; [by left|right; exists n; auto|right; exists m; auto].
      * intros [?|(m & [[-> [= ->]]|?] & ?)]; [auto|left; right; auto|right; eauto].
    + intros x m [[-> [= ->]]|Hx]%elem_of_free_cells; [|by apply Hhd].
      split; [|split; [done|by split]]. rewrite Ho.
      * by rewrite Hh1, lookup_insert_eq.
      * intros k Hk%Hlt. lia.
    + intros x Hx. rewrite Ho.
      * rewrite Hh1, lookup_insert_ne; [done|]. intros <-. apply (Hx n). by left.
      * intros k Hk. apply (Hx k). by right.
Qed.

(** ** What sweeping does to everything but the layout *)

Definition rest (h : Heap) :=
  (normal_pages_ h, large_objects_ h, lab_start h, lab_size h, gc_infos h,
   (strong_persistents_ h, weak_persistents_ h, persistents h)).

(** [o] is what has been swept. *)
Record effect (S : gset Z) (o : list Z) (h h' : Heap) : Prop := {
  ef_fields : fields h' = remove (dead S o) (fields h);
  ef_finalized : finalized h' = finalized h ++ finalizable h (dead S o);
  ef_live : ∀ a, a ∈ o → ObjectStart a ∈ S →
    headers (space h') !! a = store_mark 0 <$> headers (space h) !! a;
  ef_rest : rest h' = rest h
}.

(** Headers changed in one block only. *)
Definition outside (b : Z * Z) (h h' : Heap) : Prop :=
  ∀ y, y < b.1 ∨ b.1 + b.2 <= y → headers (space h') !! y = headers (space h) !! y.

Lemma remove_app o1 o2 F : remove o2 (remove o1 F) = remove (o1 ++ o2) F.
Proof.
  apply map_eq. intros p. rewrite !lookup_remove.
  destruct (decide (FromObject p ∈ o1 ++ o2)) as [Hp|Hp]; rewrite elem_of_app in Hp;
    destruct (decide (FromObject p ∈ o2)), (decide (FromObject p ∈ o1)); tauto || done.
Qed.

Lemma finalizable_frame h h' o :
  gc_infos h' = gc_infos h → (∀ a, a ∈ o → headers (space h') !! a = headers (space h) !! a) →
  finalizable h' o = finalizable h o.
Proof.
  intros Hg Ho. unfold finalizable. rewrite Hg.
  apply list_omap_ext, Forall2_same_length_lookup. split; [done|]. intros i x y Hx Hy.
  assert (x = y) as -> by congruence. by rewrite Ho by (by eapply list_elem_of_lookup_2).
Qed.

Lemma effect_app S o1 o2 h h1 h2 :
  effect S o1 h h1 → effect S o2 h1 h2 →
  (∀ a, a ∈ o2 → headers (space h1) !! a = headers (space h) !! a) →
  (∀ a, a ∈ o1 → headers (space h2) !! a = headers (space h1) !! a) →
  effect S (o1 ++ o2) h h2.
Proof.
  intros [F1 N1 L1 R1] [F2 N2 L2 R2] H2 H1. split.
  - rewrite F2, F1, remove_app. unfold dead. by rewrite filter_app.
  - rewrite N2, N1. unfold dead. rewrite filter_app, <- app_assoc. f_equal.
    unfold finalizable at 3. rewrite omap_app. f_equal. apply finalizable_frame.
    + injection R1. auto.
    + intros a [_ Ha]%list_elem_of_filter. by apply H2.
  - intros a [Ha|Ha]%elem_of_app HS; [by rewrite H1, L1|by rewrite L2, H2].
  - congruence.
Qed.

Lemma effect_nil S h : effect S [] h h.
Proof.
  split; [| |by intros a Ha%elem_of_nil|done].
  - apply map_eq. intros p. by rewrite lookup_remove.
  - cbn. by rewrite app_nil_r.
Qed.

Lemma effect_swept S o h : effect S o h (swept S o h).
Proof.
  split; [done|done| |done]. intros a Ha HS. rewrite swept_header.
  destruct (headers (space h) !! a); [cbn|done]. by rewrite decide_True.
Qed.

(** A later change of headers that are not those of survivors. *)
Lemma effect_space S o h h' s :
  effect S o h h' → (∀ a, a ∈ o → ObjectStart a ∈ S → headers s !! a = headers (space h') !! a) →
  effect S o h (set_space s h').
Proof. intros [F1 N1 L1 R1] Hs. split; try done. intros a Ha HS. cbn. rewrite Hs by done. auto. Qed.

(** ** Pages *)

Lemma coalesce_objects S l : ∀ a run, 0 <= run → sized l →
  omap object_of (cells_at (a - run) (coalesce S a run l)) = live S (omap object_of (cells_at a l)).
Proof using P.
  assert (∀ a run, omap object_of (cells_at a (free_cell run)) = []) as Hfree
    by (intros a run; unfold free_cell; by destruct (0 <? run)).
  induction l as [|c l IH]; intros a run Hr Hs; cbn [coalesce]; [apply Hfree|].
  pose proof (Forall_inv Hs) as [Hc0 _]. pose proof (Forall_inv_tail Hs) as Hs'.
  pose proof granularity_range as Hg.
  destruct (alive S a c) eqn:Eal.
  - rewrite cells_at_app, omap_app, Hfree, free_cell_end by done. destruct c as [n|n|n]; try done.
    cbn [alive] in Eal. apply bool_decide_eq_true in Eal. unfold live. cbn [app cells_at omap list_omap object_of snd fst csize].
    rewrite filter_cons_True by done. f_equal.
    rewrite <- (Z.sub_0_r (a + n)) at 1. by apply IH.
  - replace (a - run) with (a + csize c - (run + csize c)) by lia. rewrite IH by (done || lia).
    destruct c as [n|n|n]; try done. cbn [alive] in Eal. apply bool_decide_eq_false in Eal.
    unfold live. cbn [cells_at omap list_omap object_of snd fst csize]. by rewrite filter_cons_False.
Qed.

Definition sweep_page (S : gset Z) (x : NormalPage * list Cell) : NormalPage * list Cell :=
  (x.1, coalesce S (memory_ x.1) 0 x.2).

Lemma sweep_page_objects S x :
  sized x.2 → page_objects (sweep_page S x) = live S (page_objects x).
Proof using P.
  intros Hs. unfold page_objects, page_cells. cbn [sweep_page fst snd].
  rewrite <- (Z.sub_0_r (memory_ x.1)) at 1. by apply coalesce_objects.
Qed.

Definition page_tiles (S : gset Z) (h : Heap) (x : NormalPage * list Cell) : Prop :=
  tiles S h (memory_ x.1) x.2 (PayloadEnd x.1).

(** Cells lie in the block of their page. *)
Lemma page_cell_range S h x a c :
  page_tiles S h x → (a, c) ∈ page_cells x →
  memory_ x.1 <= a ∧ a + csize c <= memory_ x.1 + PayloadSize ∧ g <= csize c.
Proof using P.
  intros Ht Ha. pose proof (tiles_sized _ _ _ _ _ Ht) as Hs. destruct Ht as [He _].
  apply sized_range in Ha; [|done]. by rewrite He in Ha.
Qed.

Lemma page_object_range S h x a :
  page_tiles S h x → a ∈ page_objects x → memory_ x.1 <= a < memory_ x.1 + PayloadSize.
Proof using P.
  intros Ht ([y c] & Hy & E)%list_elem_of_omap. pose proof granularity_range.
  destruct c; try done. injection E as ->. eapply page_cell_range in Hy; [|done]. cbn in Hy. lia.
Qed.

(** Pages and large objects that lie outside of what has changed. *)
Lemma page_tiles_outside S h h' b x :
  page_tiles S h x → outside b h h' → apart b (page_block x) → rest h' = rest h →
  page_tiles S h' x.
Proof using P.
  intros Ht Ho Ha Hr. pose proof granularity_range. injection Hr as ????????.
  apply (tiles_frame S S h); [done..|]. intros a c Hc.
  pose proof (page_cell_range S h x a c Ht Hc) as (? & ? & ?). split; [|done]. apply Ho.
  unfold apart, page_block, PayloadSize in *. cbn in *. lia.
Qed.

Lemma large_ok_outside S h h' b a n :
  large_ok S h a n → outside b h h' → apart b (a, n) → rest h' = rest h → large_ok S h' a n.
Proof using P.
  intros (i & c & (Hh & Hd) & Hi & Hinfo & Hn) Ho Ha Hr. pose proof granularity_range.
  injection Hr as ????????. exists i, c. split; [|split; [done|split; [congruence|done]]].
  split; [|done]. rewrite <- Hh. apply Ho. unfold apart in Ha. cbn in Ha. lia.
Qed.

Lemma live_none S x :
  sized x.2 → live_bytes S (memory_ x.1) x.2 = 0 ↔ live S (page_objects x) = [].
Proof using P.
  intros Hs. rewrite live_bytes_zero by done. unfold page_objects. split.
  - intros Hall. unfold live. apply list.nil_length_inv.
    destruct (filter _ _) as [|a l] eqn:E; [done|]. exfalso.
    assert (a ∈ filter (λ a, ObjectStart a ∈ S) (omap object_of (page_cells x))) as Ha by (rewrite E; left).
    apply list_elem_of_filter in Ha as [HaS ([y c] & Hy & Ey)%list_elem_of_omap].
    destruct c; try done. injection Ey as ->. specialize (Hall _ _ Hy). cbn in Hall.
    by apply bool_decide_eq_false in Hall.
  - intros E a c Hc. destruct c; try done. cbn. apply bool_decide_eq_false. intros HaS.
    assert (a ∈ live S (omap object_of (page_cells x))) as Ha; [|by rewrite E in Ha; apply elem_of_nil in Ha].
    apply list_elem_of_filter. split; [done|]. apply list_elem_of_omap. by exists (a, ObjCell n).
Qed.

(** ** The heap half swept *)

Record sweeping (S : gset Z) (h : Heap) (dn td : list (NormalPage * list Cell)) (ld lt : list (Z * Z)) := {
  sw_done : ∀ x, x ∈ dn → page_tiles ∅ h x;
  sw_todo : ∀ x, x ∈ td → page_tiles S h x;
  sw_ldone : ∀ a n, (a, n) ∈ ld → large_ok ∅ h a n;
  sw_ltodo : ∀ a n, (a, n) ∈ lt → large_ok S h a n;
  sw_blocks : blocks_ok ((page_block <$> dn ++ td) ++ ld ++ lt);
  sw_lab : lab_size h = 0;
  sw_free : free_ok h dn
}.

(** The block that is swept next lies apart from all others. *)
Lemma sweeping_apart_page S h dn x td ld lt :
  sweeping S h dn (x :: td) ld lt →
  block_ok (page_block x) ∧ (∀ y, y ∈ dn ++ td → apart (page_block x) (page_block y)) ∧
  (∀ b, b ∈ ld ++ lt → apart (page_block x) b) ∧ blocks_ok ((page_block <$> dn ++ td) ++ ld ++ lt).
Proof.
  intros [_ _ _ _ Hb _ _]. rewrite <- Permutation_middle in Hb. cbn in Hb.
  destruct Hb as (H1 & H2 & H3). rewrite Forall_forall in H2. split; [done|]. split; [|split; [|done]].
  - intros y Hy. apply H2, elem_of_app. left. by apply list_elem_of_fmap_2.
  - intros b Hy. apply H2, elem_of_app. by right.
Qed.

Lemma sweeping_page S h h' dn dn' x td ld lt :
  sweeping S h dn (x :: td) ld lt → outside (page_block x) h h' → rest h' = rest h →
  (dn' = dn ∨ (dn' = dn ++ [sweep_page S x] ∧ page_tiles ∅ h' (sweep_page S x))) →
  free_ok h' dn' → sweeping S h' dn' td ld lt.
Proof using P.
  intros Hsw Ho Hr Hdn Hfr. destruct (sweeping_apart_page _ _ _ _ _ _ _ Hsw) as (_ & Hp & Hl & Hb).
  pose proof Hsw as [S1 S2 S3 S4 S5 S6 S7].
  assert (∀ y, y ∈ dn → page_tiles ∅ h' y) as Hdone.
  { intros y Hy. apply (page_tiles_outside _ h _ (page_block x)); auto. apply Hp, elem_of_app. by left. }
  split.
  - destruct Hdn as [->|[-> Hx]]; [done|]. intros y [Hy| ->%list_elem_of_singleton]%elem_of_app; auto.
  - intros y Hy. apply (page_tiles_outside _ h _ (page_block x)); [apply S2; by right|done| |done].
    apply Hp, elem_of_app. by right.
  - intros a n Ha. apply (large_ok_outside _ h _ (page_block x)); [by apply S3|done| |done].
    apply Hl, elem_of_app. by left.
  - intros a n Ha. apply (large_ok_outside _ h _ (page_block x)); [by apply S4|done| |done].
    apply Hl, elem_of_app. by right.
  - destruct Hdn as [->|[-> _]]; [done|]. rewrite <- app_assoc. cbn [app].
    rewrite fmap_app, fmap_cons. rewrite fmap_app, fmap_cons in S5. exact S5.
  - injection Hr as ????????. congruence.
  - done.
Qed.

Lemma sweeping_large S h h' dn a n ld ld' lt :
  sweeping S h dn [] ld ((a, n) :: lt) → outside (a, n) h h' → rest h' = rest h →
  (ld' = ld ∨ (ld' = ld ++ [(a, n)] ∧ large_ok ∅ h' a n)) →
  free_ok h' dn → sweeping S h' dn [] ld' lt.
Proof using P.
  intros [S1 S2 S3 S4 S5 S6 S7] Ho Hr Hld Hfr. pose proof S5 as Hb.
  rewrite (app_assoc _ ld), <- Permutation_middle in Hb. cbn in Hb. rewrite app_nil_r, <- app_assoc in Hb.
  destruct Hb as (_ & H2 & H3). rewrite Forall_forall in H2.
  assert (∀ b m, (b, m) ∈ ld → large_ok ∅ h' b m) as Hdone.
  { intros b m Hy. apply (large_ok_outside _ h _ (a, n)); [by apply S3|done| |done].
    apply H2. apply elem_of_app. right. apply elem_of_app. by left. }
  split.
  - intros y Hy. apply (page_tiles_outside _ h _ (a, n)); [by apply S1|done| |done].
    apply H2, elem_of_app. left. by apply list_elem_of_fmap_2.
  - by intros y Hy%elem_of_nil.
  - destruct Hld as [->|[-> Hx]]; [done|].
    intros b m [Hy|[= -> ->]%list_elem_of_singleton]%elem_of_app; auto.
  - intros b m Ha. apply (large_ok_outside _ h _ (a, n)); [apply S4; by right|done| |done].
    apply H2. apply elem_of_app. right. apply elem_of_app. by right.
  - rewrite app_nil_r. destruct Hld as [->|[-> _]]; [done|]. rewrite <- app_assoc. cbn.
    by rewrite app_nil_r in S5.
  - injection Hr as ????????. congruence.
  - done.
Qed.

(** The free list stays as it is if nothing happens where its entries lie. *)
Lemma free_ok_frame h s pages :
  free_ok h pages →
  free_list_heads_ s = free_list_heads_ (space h) → free_list_tails_ s = free_list_tails_ (space h) →
  biggest_free_list_index_ s = biggest_free_list_index_ (space h) →
  (∀ x a c, x ∈ pages → (a, c) ∈ page_cells x →
    headers s !! a = headers (space h) !! a ∧ nexts s !! a = nexts (space h) !! a) →
  ∀ h', space h' = s → free_ok h' pages.
Proof.
  intros (ls & Hfl & Hls) H1 H2 H3 Hx h' <-. exists ls. split; [|done].
  apply (fl_frame (space h)); [done..| |done]. intros e (x & n & Hp & Hc & _)%Hls. by eapply Hx.
Qed.

(** ** One page *)

Lemma wp_SweepNormalPage S x h Q :
  page_tiles S h x → lab_size h = 0 →
  Q (free_blocks (memory_ x.1) (sweep_page S x).2, live_bytes S (memory_ x.1) x.2)
    (swept S (page_objects x) h) →
  wp (SweepNormalPage x.1) Q h.
Proof using P.
  intros Ht Hl HQ. pose proof granularity_range as Hg. unfold SweepNormalPage.
  change None with (run_start (PayloadStart x.1) 0). apply (wp_sweep_walk S _ _ x.2); [done|done| |lia|].
  - pose proof (sized_length (memory_ x.1) x.2 (tiles_sized _ _ _ _ _ Ht)) as Hs.
    rewrite (proj1 Ht) in Hs. unfold PayloadEnd in Hs.
    apply Nat2Z.inj_le. rewrite Z2Nat.id by (apply Z.div_pos; pose proof payload_range; lia).
    apply Z.div_le_lower_bound; lia.
  - rewrite Z.sub_0_r, Z.add_0_l. exact HQ.
Qed.

Lemma swept_outside S x h : page_tiles S h x → outside (page_block x) h (swept S (page_objects x) h).
Proof using P.
  intros Ht y Hy. apply swept_others. intros Hin. eapply page_object_range in Hin; [|done].
  pose proof payload_range. unfold page_block in Hy. cbn in Hy. lia.
Qed.

(** Cells of other pages are outside. *)
Lemma other_page_cell S h x y a c :
  page_tiles S h y → apart (page_block x) (page_block y) → (a, c) ∈ page_cells y →
  a < memory_ x.1 ∨ memory_ x.1 + kPageSize <= a.
Proof using P.
  intros Hy Ha Hc. pose proof (page_cell_range _ _ _ _ _ Hy Hc) as (? & ? & ?).
  pose proof payload_range. pose proof granularity_range. unfold apart, page_block in Ha. cbn in Ha. lia.
Qed.

Lemma done_free_ok S h dn x td ld lt s :
  sweeping S h dn (x :: td) ld lt →
  free_list_heads_ s = free_list_heads_ (space h) → free_list_tails_ s = free_list_tails_ (space h) →
  biggest_free_list_index_ s = biggest_free_list_index_ (space h) →
  (∀ y, y < memory_ x.1 ∨ memory_ x.1 + kPageSize <= y →
    headers s !! y = headers (space h) !! y ∧ nexts s !! y = nexts (space h) !! y) →
  ∀ h', space h' = s → free_ok h' dn.
Proof using P.
  intros Hsw H1 H2 H3 Ho. destruct (sweeping_apart_page _ _ _ _ _ _ _ Hsw) as (_ & Hp & _ & _).
  apply (free_ok_frame h); [apply Hsw|done..|]. intros y a c Hy Hc. apply Ho.
  apply (other_page_cell ∅ h x y a c); [by apply (sw_done _ _ _ _ _ _ Hsw)| |done].
  apply Hp, elem_of_app. by left.
Qed.

(** A page without survivors. *)
Lemma drop_page S h dn x td ld lt (Q : unit → Heap → Prop) :
  sweeping S h dn (x :: td) ld lt → live S (page_objects x) = [] →
  (∀ h', sweeping S h' dn td ld lt → effect S (page_objects x) h h' →
    outside (page_block x) h h' → Q tt h') →
  wp (Destroy x.1) Q (swept S (page_objects x) h).
Proof using P.
  intros Hsw Hlive HQ. pose proof (sw_todo _ _ _ _ _ _ Hsw x ltac:(by left)) as Ht.
  unfold Destroy. wp_step. set (h1 := swept S (page_objects x) h). set (h2 := set_space _ h1).
  assert (∀ y, y < memory_ x.1 ∨ memory_ x.1 + kPageSize <= y →
    headers (space h2) !! y = headers (space h) !! y ∧ nexts (space h2) !! y = nexts (space h) !! y) as Ho.
  { intros y Hy. rewrite <- (swept_outside S x h Ht y Hy). split; apply lookup_clobber; lia. }
  apply HQ.
  - apply (sweeping_page S h h2 dn dn x); [done|by intros y Hy; apply Ho|done|by left|].
    by apply (done_free_ok S h dn x td ld lt (space h2) Hsw).
  - apply effect_space; [apply effect_swept|]. intros a Ha HaS. exfalso.
    assert (a ∈ live S (page_objects x)) as Hin by (by apply list_elem_of_filter).
    rewrite Hlive in Hin. by apply elem_of_nil in Hin.
  - intros y Hy. by apply Ho.
Qed.

(** A page with survivors. *)
Lemma keep_page S h dn x td ld lt (Q : unit → Heap → Prop) :
  sweeping S h dn (x :: td) ld lt →
  (∀ h', sweeping S h' (dn ++ [sweep_page S x]) td ld lt → effect S (page_objects x) h h' →
    outside (page_block x) h h' → Q tt h') →
  wp (add_runs (free_blocks (memory_ x.1) (sweep_page S x).2)) Q (swept S (page_objects x) h).
Proof using P.
  intros Hsw HQ. pose proof (sw_todo _ _ _ _ _ _ Hsw x ltac:(by left)) as Ht.
  set (h1 := swept S (page_objects x) h) in *.
  assert (free_ok h1 dn) as (ls & Hfl & Hls).
  { apply (done_free_ok S h dn x td ld lt (space h1) Hsw); [done..| |done].
    intros y Hy. split; [by apply swept_outside|done]. }
  destruct (sweeping_apart_page _ _ _ _ _ _ _ Hsw) as ([Hx0 Hxa] & Hp & _ & _).
  cbn in Hx0, Hxa. pose proof (tiles_sized _ _ _ _ _ Ht) as Hs. pose proof granularity_range as Hg.
  pose proof payload_range as Hpr.
  assert (∀ a c, (a, c) ∈ cells_at (memory_ x.1) (sweep_page S x).2 →
    (alive S a c = true ∧ (a, c) ∈ page_cells x) ∨
    ∃ n, c = FreeCell n ∧ g <= n ∧ aligned n ∧ memory_ x.1 <= a ∧ a + n <= memory_ x.1 + PayloadSize) as Hcells.
  { intros a c Ha. rewrite <- (Z.sub_0_r (memory_ x.1)) in Ha at 1.
    apply coalesce_cells in Ha as [Ha|(n & ? & ? & ? & Hlo & Hhi)]; [by left| |lia|by exists 0|done].
    right. exists n. rewrite (proj1 Ht) in Hhi. unfold PayloadEnd in Hhi. rewrite Z.sub_0_r in Hlo. auto. }
  assert (sized (sweep_page S x).2) as Hs' by (apply coalesce_sized; [lia|by exists 0|done]).
  apply (wp_add_runs _ _ _ ls); [done|done| |].
  { intros a n Ha. destruct (Hcells _ _ Ha) as [[Hal _]|(m & [= <-] & ? & ? & ? & ?)]; [done|].
    split; [unfold nullptr; lia|]. split; [|split; [split; [done|lia]|lia]].
    intros (y & m & Hy & Hc & _)%Hls.
    pose proof (sw_done _ _ _ _ _ _ Hsw y Hy) as Hty. pose proof (Hp y ltac:(apply elem_of_app; by left)) as Hap.
    apply (other_page_cell ∅ h x y a _ Hty Hap) in Hc. lia. }
  intros s' ls' Hfl' Hls' Hh Ho.
  assert (outside (page_block x) h (set_space s' h1)) as Hout.
  { intros y Hy. rewrite <- (swept_outside S x h Ht y Hy). apply Ho. intros n Hn.
    destruct (Hcells _ _ Hn) as [[Hal _]|(m & [= <-] & ? & ? & ? & ?)]; [done|]. cbn in Hy. lia. }
  assert (∀ a c, alive S a c = true → (a, c) ∈ page_cells x →
    headers s' !! a = headers (space h1) !! a) as Hal.
  { intros a c Hal Hc. apply Ho. intros n Hn.
    pose proof (coalesce_live S (memory_ x.1) 0 x.2 a c ltac:(lia) Hal Hc Hs) as Hc'.
    rewrite Z.sub_0_r in Hc'.
    destruct (sized_apart _ _ _ _ _ _ Hs' Hc' Hn) as [[_ ->]|Hd]; [done|].
    apply sized_range in Hc'; [|done]. apply sized_range in Hn; [|done]. lia. }
  apply HQ; [| |done].
  - apply (sweeping_page S h _ dn _ x); [done|done|done|right; split; [done|]|].
    + split.
      * cbn [sweep_page fst snd].
        pose proof (coalesce_end S (memory_ x.1) 0 x.2 (Z.le_refl 0) Hs) as E.
        rewrite Z.sub_0_r in E. rewrite E. apply Ht.
      * intros a c Hc. destruct (Hcells a c Hc) as [[Hl Hin]|(n & -> & ? & ? & ? & ?)].
        -- pose proof (proj2 Ht a c Hin) as Hok. destruct c as [n|n|n]; try done.
           destruct Hok as (i & b & (Hhd & Hn & Hix) & Hi & Hinfo & Hgn). exists i, b.
           split; [|done]. rewrite bool_decide_false by (apply not_elem_of_empty).
           split; [|done]. change (headers s' !! a = Some (header_of i n b false)).
           rewrite (Hal a _ Hl Hin). cbn [alive] in Hl. apply bool_decide_eq_true in Hl.
           unfold h1. rewrite swept_header, Hhd. cbn. rewrite decide_True.
           ++ f_equal. exact (header_store_mark i n b _ false Hn).
           ++ split; [|done]. apply list_elem_of_omap. by exists (a, ObjCell n).
        -- split; [by apply Hh|done].
    + exists ls'. split; [done|]. intros e. rewrite Hls', Hls. setoid_rewrite elem_of_app. split.
      * intros [(y & n & Hy & Hc & Hn)|(n & Hc & Hn)]; [exists y, n; auto|].
        exists (sweep_page S x), n. split; [right; by left|]. split; [exact Hc|done].
      * intros (y & n & [Hy| ->%list_elem_of_singleton] & Hc & Hn); [left; exists y, n; auto|right].
        exists n. split; [exact Hc|done].
  - apply effect_space; [apply effect_swept|].
    intros a ([b c] & Hb & E)%list_elem_of_omap HaS. destruct c; try done. injection E as ->.
    eapply Hal; [|done]. by apply bool_decide_eq_true.
Qed.

(** ** All pages, all large objects *)

Definition kept (bs : list (Z * Z)) (h h' : Heap) : Prop :=
  ∀ y, Forall (λ b, y < b.1 ∨ b.1 + b.2 <= y) bs →
    headers (space h') !! y = headers (space h) !! y.

Lemma kept_cons b bs h h1 h2 : outside b h h1 → kept bs h1 h2 → kept (b :: bs) h h2.
Proof. intros Ho Hk y [Hb Hbs]%Forall_cons. rewrite Hk by done. by apply Ho. Qed.

Definition all_objects (pages : list (NormalPage * list Cell)) : list Z :=
  concat (map page_objects pages).

Lemma live_app S o1 o2 : live S (o1 ++ o2) = live S o1 ++ live S o2.
Proof. apply filter_app. Qed.

Lemma all_objects_range S h dn td ld lt a :
  sweeping S h dn td ld lt → a ∈ all_objects td →
  ∃ y, y ∈ td ∧ memory_ y.1 <= a < memory_ y.1 + kPageSize.
Proof using P.
  intros Hsw Ha. apply list_elem_of_In, in_concat in Ha as (l & Hl & Ha).
  apply in_map_iff in Hl as (y & <- & Hy). apply list_elem_of_In in Hy, Ha. exists y. split; [done|].
  eapply page_object_range in Ha; [|by apply (sw_todo _ _ _ _ _ _ Hsw)]. pose proof payload_range. lia.
Qed.

Lemma wp_sweep_pages S ld lt td : ∀ h dn (Q : list NormalPage → Heap → Prop),
  sweeping S h dn td ld lt →
  (∀ h' new, sweeping S h' (dn ++ new) [] ld lt → effect S (all_objects td) h h' →
    kept (page_block <$> td) h h' →
    new = sweep_page S <$> filter (λ x, live S (page_objects x) ≠ []) td → Q (dn ++ new).*1 h') →
  wp (sweep_pages td.*1 dn.*1) Q h.
Proof using P.
  induction td as [|x td IH]; intros h dn Q Hsw HQ; cbn [fmap list_fmap sweep_pages].
  { wp_step. specialize (HQ h []). rewrite app_nil_r in HQ. apply HQ; [done|apply effect_nil| |done].
    by intros y _. }
  pose proof (sw_todo _ _ _ _ _ _ Hsw x ltac:(by left)) as Ht.
  assert (∀ h1 dn1 new1, sweeping S h1 dn1 td ld lt → effect S (page_objects x) h h1 →
    outside (page_block x) h h1 → dn1 = dn ++ new1 →
    new1 = (if decide (live S (page_objects x) ≠ []) then [sweep_page S x] else []) →
    wp (sweep_pages td.*1 dn1.*1) Q h1) as Hk.
  { intros h1 dn1 new1 Hsw1 He Ho -> ->. apply IH; [done|]. intros h' new Hsw' He' Hkept Hnew.
    rewrite <- app_assoc. apply HQ.
    - by rewrite app_assoc.
    - change (all_objects (x :: td)) with (page_objects x ++ all_objects td).
      destruct (sweeping_apart_page _ _ _ _ _ _ _ Hsw) as (_ & Hap & _ & _).
      apply (effect_app S _ _ h h1 h'); [done|done| |].
      + intros a Ha. apply Ho. eapply all_objects_range in Ha as (y & Hy & Hr); [|exact Hsw1].
        specialize (Hap y ltac:(apply elem_of_app; by right)). unfold apart, page_block in *. cbn in *. lia.
      + intros a Ha. apply Hkept. apply Forall_forall. intros b (y & -> & Hy)%list_elem_of_fmap.
        eapply page_object_range in Ha; [|done]. pose proof payload_range.
        specialize (Hap y ltac:(apply elem_of_app; by right)). unfold apart, page_block in *. cbn in *. lia.
    - by apply (kept_cons _ _ h h1 h').
    - rewrite Hnew. destruct (decide _) as [Hl|Hl]; [by rewrite filter_cons_True|by rewrite filter_cons_False]. }
  wp_step. apply (wp_SweepNormalPage S); [done|apply Hsw|]. cbn [fst snd].
  pose proof (live_none S x (tiles_sized _ _ _ _ _ Ht)) as Hnone.
  destruct (_ =? 0) eqn:E; zbool; wp_step.
  - apply Hnone in E. apply (drop_page S h dn x td ld lt); [done|done|]. intros h1 Hsw1 He Ho.
    apply (Hk h1 dn []); [done|done|done|by rewrite app_nil_r|]. by rewrite decide_False by tauto.
  - apply (keep_page S h dn x td ld lt); [done|]. intros h1 Hsw1 He Ho.
    change (dn.*1 ++ [x.1]) with (dn.*1 ++ [sweep_page S x].*1). rewrite <- fmap_app.
    apply (Hk h1 _ [sweep_page S x]); [done|done|done|done|]. rewrite decide_True; [done|]. tauto.
Qed.

Lemma sweeping_apart_large S h dn a n ld lt :
  sweeping S h dn [] ld ((a, n) :: lt) →
  (∀ x, x ∈ dn → apart (a, n) (page_block x)) ∧ (∀ b, b ∈ lt → apart (a, n) b).
Proof.
  intros Hsw. pose proof (sw_blocks _ _ _ _ _ _ Hsw) as Hb.
  rewrite (app_assoc _ ld), <- Permutation_middle, app_nil_r, <- app_assoc in Hb. cbn in Hb.
  destruct Hb as (_ & H2 & _). rewrite Forall_forall in H2. split.
  - intros x Hx. apply H2, elem_of_app. left. by apply list_elem_of_fmap_2.
  - intros b Hx. apply H2, elem_of_app. right. apply elem_of_app. by right.
Qed.

Lemma large_size_pos S h dn td ld lt a n : sweeping S h dn td ld lt → (a, n) ∈ lt → 0 < n.
Proof using P.
  intros Hsw Ha. pose proof granularity_range.
  destruct (sw_ltodo _ _ _ _ _ _ Hsw a n Ha) as (_ & _ & _ & _ & _ & ?). lia.
Qed.

(** [s] is what is left of the memory when a large object has been swept. *)
Definition large_swept (S : gset Z) (h : Heap) (a n : Z) (s : Space) : Prop :=
  (∀ y, y < a ∨ a + n <= y → headers s !! y = headers (space (swept S [a] h)) !! y ∧
     nexts s !! y = nexts (space h) !! y) ∧
  free_list_heads_ s = free_list_heads_ (space h) ∧ free_list_tails_ s = free_list_tails_ (space h) ∧
  biggest_free_list_index_ s = biggest_free_list_index_ (space h) ∧
  (ObjectStart a ∈ S → s = space (swept S [a] h)).

Definition keep_large (S : gset Z) (a n : Z) : list (Z * Z) :=
  if decide (ObjectStart a ∈ S) then [(a, n)] else [].

Lemma large_step S h dn a n ld lt s :
  sweeping S h dn [] ld ((a, n) :: lt) → large_swept S h a n s →
  let h1 := set_space s (swept S [a] h) in
  sweeping S h1 dn [] (ld ++ keep_large S a n) lt ∧ effect S [a] h h1 ∧ outside (a, n) h h1.
Proof using P.
  intros Hsw (Hs & H1 & H2 & H3 & HsS) h1. pose proof granularity_range as Hg.
  destruct (sw_ltodo _ _ _ _ _ _ Hsw a n) as (i & b & Hd & Hi & Hinfo & Hgn); [by left|].
  destruct (sweeping_apart_large _ _ _ _ _ _ _ Hsw) as [Hap _].
  assert (outside (a, n) h (swept S [a] h)) as Hout1.
  { intros y Hy. apply swept_others. intros ->%list_elem_of_singleton. cbn in Hy. lia. }
  assert (outside (a, n) h h1) as Ho by (intros y Hy; rewrite <- (Hout1 y Hy); by apply Hs).
  split; [|split; [|done]].
  - apply (sweeping_large S h h1 dn a n ld _ lt); [done|done|done| |].
    + unfold keep_large. destruct (decide _) as [HaS|HaS]; [right|left; by rewrite app_nil_r]. split; [done|].
      exists i, b. rewrite bool_decide_false by (apply not_elem_of_empty).
      split; [|done]. destruct Hd as (Hh & Hn & Hix). split; [|done].
      change (headers s !! a = Some (header_of i n b false)). rewrite HsS by done.
      rewrite swept_header, Hh. cbn. rewrite decide_True by (split; [by left|done]). f_equal.
      exact (header_store_mark i n b _ false Hn).
    + apply (free_ok_frame h s); [apply Hsw|done..| |done]. intros x y c Hx Hc.
      assert (y < a ∨ a + n <= y) as Hy.
      { pose proof (page_cell_range _ _ _ _ _ (sw_done _ _ _ _ _ _ Hsw x Hx) Hc) as (? & ? & ?).
        specialize (Hap x Hx). pose proof payload_range.
        unfold apart, page_block in Hap. cbn in Hap. lia. }
      rewrite <- (Hout1 y Hy). by apply Hs.
  - apply effect_space; [apply effect_swept|].
    intros x ->%list_elem_of_singleton HxS. by rewrite HsS.
Qed.

Lemma wp_sweep_large S dn lt : ∀ h ld (Q : list Z → Heap → Prop),
  sweeping S h dn [] ld lt →
  (∀ h', sweeping S h' dn [] (ld ++ filter (λ b, ObjectStart b.1 ∈ S) lt) [] →
    effect S lt.*1 h h' → kept lt h h' → Q (ld ++ filter (λ b, ObjectStart b.1 ∈ S) lt).*1 h') →
  wp (sweep_large lt.*1 ld.*1) Q h.
Proof using P.
  induction lt as [|[a n] lt IH]; intros h ld Q Hsw HQ; cbn [fmap list_fmap sweep_large fst].
  { wp_step. specialize (HQ h). rewrite app_nil_r in HQ. apply HQ; [done|apply effect_nil|by intros y _]. }
  destruct (sw_ltodo _ _ _ _ _ _ Hsw a n) as (i & b & Hd & Hi & Hinfo & Hgn); [by left|].
  destruct (sweeping_apart_large _ _ _ _ _ _ _ Hsw) as [_ Hap].
  assert (∀ s, large_swept S h a n s →
    wp (sweep_large lt.*1 (ld ++ keep_large S a n).*1) Q (set_space s (swept S [a] h))) as Hk.
  { intros s Hs. destruct (large_step _ _ _ _ _ _ _ _ Hsw Hs) as (Hsw1 & He & Ho).
    set (h1 := set_space _ _) in *. apply IH; [done|]. intros h' Hsw' He' Hkept.
    assert (filter (λ b, ObjectStart b.1 ∈ S) ((a, n) :: lt) =
      keep_large S a n ++ filter (λ b, ObjectStart b.1 ∈ S) lt) as E.
    { unfold keep_large. destruct (decide _); [by rewrite filter_cons_True|by rewrite filter_cons_False]. }
    rewrite <- app_assoc in *. rewrite <- E in *. apply HQ; [done| |by apply (kept_cons _ _ h h1 h')].
    change ((a, n) :: lt).*1 with ([a] ++ lt.*1). apply (effect_app S _ _ h h1 h'); [done|done| |].
    - intros y ([y' m] & -> & Hy)%list_elem_of_fmap. apply Ho. specialize (Hap _ Hy).
      pose proof (large_size_pos S h dn [] ld _ y' m Hsw ltac:(by right)).
      unfold apart in Hap. cbn in *. lia.
    - intros y ->%list_elem_of_singleton. apply Hkept, Forall_forall. intros [y' m] Hm. specialize (Hap _ Hm).
      pose proof (large_size_pos S h dn [] ld _ a n Hsw ltac:(by left)).
      pose proof (large_size_pos S h dn [] ld _ y' m Hsw ltac:(by right)).
      unfold apart in Hap. cbn in *. lia. }
  pose proof Hd as (Hh & Hn & Hix). unfold header_at. wp_step. rewrite Hh. wp_step.
  rewrite header_marked, set_space_same by done. unfold keep_large in Hk.
  destruct (decide (ObjectStart a ∈ S)) as [HaS|HaS].
  - rewrite bool_decide_true by done. rewrite header_Unmark by done. wp_step.
    rewrite (swept_unmark S h a i n b (bool_decide (ObjectStart a ∈ S))) by done.
    change (ld.*1 ++ [a]) with (ld.*1 ++ [(a, n)].*1). rewrite <- fmap_app.
    rewrite <- (set_space_same (swept S [a] h)). by apply Hk.
  - rewrite bool_decide_false by done. wp_step.
    apply (wp_Finalize S h a i n b (bool_decide (ObjectStart a ∈ S))); [done|done|done|done|]. wp_step.
    rewrite header_size by done. rewrite app_nil_r in Hk. apply Hk. split; [|done].
    intros y Hy. split; by apply lookup_clobber.
Qed.
End sweep.
