(* ===== verification/GcProps.v ===== *)
(** * Properties of the collected heap *)
From Stdlib Require Import ZArith Lia Bool.
From stdpp Require Import base list gmap.
From S2P Require Import Prelude Sandbox SandboxProps GcSpace GcSpaceProps Job GcHeap GcMark GcLayout GcSweep GcSweepHeap GcCollect.

Section props.
Context `{Platform} {P : PlatformOk}.

Lemma run_job (phase : M Heap unit) h : RunGcJob phase h = phase h.
Proof.
  unfold RunGcJob, PostJob. rewrite decide_False by done.
  destruct (phase h) as [[[] h']|] eqn:E;
    unfold join_handle, destroy_handle, Join, RunWorkers, on_handle, bind; cbn;
    unfold bind, on_handle; cbn; rewrite E; reflexivity.
Qed.

(** Posting a phase of the collector as a job, joining the job and dropping its
    handle runs the phase exactly once and does nothing else, whether it succeeds or
    not. *)
Theorem RunGcJob_once (phase : M Heap unit) h : RunGcJob phase h = phase h.
Proof. apply run_job. Qed.

(** ** The invariant of the heap *)

(** [L] is the layout of the memory; constructed objects are objects of it. *)
Record gc_inv (h : Heap) (L : Layout) : Prop := {
  gi_layout : heap_ok ∅ h L;
  gi_graph : graph_ok h;
  gi_regions : regions_ok h;
  gi_fields : ∀ p, is_Some (fields h !! p) → FromObject p ∈ objects L
}.

(** *** Marking keeps the layout *)

Lemma free_not_object S h L x a n :
  heap_shape S h L → x ∈ lpages L → (a, FreeCell n) ∈ page_cells x → a ∉ objects L.
Proof using P.
  intros Hok Hx Ha Hin. pose proof granularity_range.
  apply elem_of_objects in Hin as [(y & m & Hy & Hc)|[m Hm]].
  - pose proof (cells_same _ _ _ _ _ _ _ _ Hok Hx Hy Ha Hc). done.
  - destruct (ho_large_ok _ _ _ Hok _ _ Hm) as (_ & _ & _ & _ & _ & ?).
    pose proof (cell_large_apart _ _ _ _ _ _ _ _ Hok Hx Ha Hm).
    pose proof (page_cell_range _ _ _ _ _ (shape_pages _ _ _ _ Hok Hx) Ha). cbn in *. lia.
Qed.

Lemma mark_hdr S s a i n b :
  hdr s a i n b (bool_decide (ObjectStart a ∈ (∅ : gset Z))) →
  hdr (set_headers (mark_headers S) s) a i n b (bool_decide (ObjectStart a ∈ S)).
Proof using P.
  intros (Hh & Hn & Hi). split; [|done]. rewrite (bool_decide_false _ (not_elem_of_empty _)) in Hh. cbn.
  rewrite lookup_mark_headers, Hh. cbn. f_equal.
  destruct (decide (ObjectStart a ∈ S)); [rewrite bool_decide_true by done|by rewrite bool_decide_false].
  exact (header_store_mark i n b false true Hn).
Qed.

Lemma mark_unmarked S m a : ObjectStart a ∉ S → mark_headers S m !! a = m !! a.
Proof.
  intros Ha. rewrite lookup_mark_headers. destruct (m !! a); [cbn|done]. by rewrite decide_False.
Qed.

Lemma heap_ok_marked S h L :
  heap_ok ∅ h L → (∀ p, p ∈ S → FromObject p ∈ objects L) → heap_ok S (mark_result S h) L.
Proof using P.
  intros Hok HS. assert (∀ a, a ∉ objects L → ObjectStart a ∉ S) as Hnot.
  { intros a Ha Hin. apply Ha. rewrite <- (from_start a). by apply HS. }
  split; [split; try apply Hok|].
  - intros x Hx. destruct (ho_tiles _ _ _ Hok x Hx) as [He Hc]. split; [done|]. intros a c Ha.
    pose proof (Hc a c Ha) as Hac. destruct c as [n|n|n]; [exact Hac| |].
    + destruct Hac as [(Hh & Hn) Hg]. split; [|done]. split; [|done]. cbn. rewrite mark_unmarked; [done|].
      apply Hnot. exact (free_not_object _ _ _ _ _ _ Hok Hx Ha).
    + destruct Hac as (i & b & Hd & Hr). exists i, b. split; [|exact Hr]. by apply mark_hdr.
  - intros a n Ha. destruct (ho_large_ok _ _ _ Hok a n Ha) as (i & b & Hd & Hr). exists i, b.
    split; [|exact Hr]. by apply mark_hdr.
  - destruct (ho_free _ _ _ Hok) as (ls & Hfl & Hls). exists ls. split; [|done].
    apply (fl_frame (space h)); [done..| |done]. intros e (x & n & Hx & Hc & _)%Hls. split; [|done].
    apply mark_unmarked, Hnot. exact (free_not_object _ _ _ _ _ _ Hok Hx Hc).
Qed.

Lemma regions_marked S h : regions_ok h → regions_ok (mark_result S h).
Proof.
  intros Hr. apply (regions_relink _ true) in Hr. apply (regions_relink _ false) in Hr.
  destruct Hr as [R1 R2 R3]. split.
  - intros b. by destruct (R1 b).
  - intros b k o. change (GetPersistentRegion b (mark_result S h)) with
      (GetPersistentRegion b (set_region false (relink_region (weak_persistents_ h))
        (set_region true (relink_region (strong_persistents_ h)) h))).
    rewrite R2. cbn. rewrite lookup_fmap. split.
    + intros (p & -> & Hs & Hn). eexists. split; [done|]. unfold clear_weak_persistent.
      destruct (IsStrongPersistent p) eqn:E; cbn; [by rewrite E|]. case_bool_decide; cbn; by rewrite ?E.
    + intros (p' & Hp & Hs & Hn). destruct (persistents h !! o) as [p|] eqn:Ep; [|done].
      exists p. split; [done|]. injection Hp as <-. unfold clear_weak_persistent in *.
      destruct (IsStrongPersistent p) eqn:E; cbn in *; [by rewrite E in Hs|].
      case_bool_decide; cbn in *; by rewrite ?E in *.
  - intros o p. cbn. rewrite lookup_fmap. destruct (persistents h !! o) as [q|] eqn:Eq; [|done].
    intros [= <-] Hv. unfold clear_weak_persistent in *. destruct (_ || _); [|done]. by apply (R3 o q).
Qed.

(** ** Collection *)

(** What a collection does, if [S] is what is reachable. *)
Record collected (S : gset Z) (h : Heap) (L : Layout) (h' : Heap) (L' : Layout) : Prop := {
  co_objects : objects L' = live S (objects L);
  co_blocks : blocks L' ⊆ blocks L;
  co_headers : ∀ a, a ∈ objects L' → headers (space h') !! a = headers (space h) !! a;
  co_fields : ∀ p, fields h' !! p = if decide (p ∈ S) then clear_weak S <$> fields h !! p else None;
  co_persistents : persistents h' = clear_weak_persistent S <$> persistents h;
  co_finalized : finalized h' = finalized h ++ finalizable h (dead S (objects L));
  co_gc_infos : gc_infos h' = gc_infos h
}.

Lemma reach_fields h p : graph_ok h → reach h p → is_Some (fields h !! p).
Proof.
  intros Hg [o q Hq Hs Hv|o l m _ Hl Hm Ht Hn]; [by eapply go_persistent|].
  eapply go_member; [done|done|done| |done]. by rewrite Ht.
Qed.

Lemma clear_weak_elem S l m :
  m ∈ clear_weak S l → ∃ m0, m0 ∈ l ∧ member_tag m = member_tag m0 ∧
    (storage_ m = nullptr ∨ (storage_ m = storage_ m0 ∧ (member_tag m = WeakMemberTag → storage_ m ∈ S))).
Proof.
  intros (m0 & -> & Hm)%list_elem_of_fmap. exists m0. split; [done|].
  destruct (member_tag m0) eqn:E; [by rewrite E; split; [|right]| |by rewrite E; split; [|right]].
  destruct (decide _); [by rewrite E; split; [|right]|]. by split; [|left].
Qed.

Lemma elem_of_live S o a : a ∈ live S o ↔ a ∈ o ∧ ObjectStart a ∈ S.
Proof. unfold live. rewrite list_elem_of_filter. tauto. Qed.

Lemma elem_of_dead S o a : a ∈ dead S o ↔ a ∈ o ∧ ObjectStart a ∉ S.
Proof. unfold dead. rewrite list_elem_of_filter. tauto. Qed.

(** Every object has a header without mark. *)
Lemma object_hdr S h L a :
  heap_shape S h L → a ∈ objects L → ∃ i n b, hdr (space h) a i n b (bool_decide (ObjectStart a ∈ S)) ∧
    kFreeListGCInfoIndex < i ∧ is_Some (table_ (gc_infos h) !! i).
Proof.
  intros Hok [(x & n & Hx & Hc)|[n Hn]]%elem_of_objects.
  - destruct (proj2 (ho_tiles _ _ _ Hok x Hx) _ _ Hc) as (i & b & ? & ? & ? & _). eauto 10.
  - destruct (ho_large_ok _ _ _ Hok _ _ Hn) as (i & b & ? & ? & ? & _). eauto 10.
Qed.

Lemma survived_collected S h L h' L' :
  gc_inv h L → (∀ p, p ∈ S ↔ reach h p) → survived S (mark_result S h) L h' L' →
  collected S h L h' L'.
Proof using P.
  intros [Hok Hg Hr Hf] HS [V1 V2 V3 V4 V5 V6 _ V8 _ _ V11]. split; [done| | | |done| |done].
  - assert (∀ l : list (NormalPage * list Cell), page_block <$> l = (λ p, (memory_ p, kPageSize)) <$> l.*1) as Epb
      by (intros l; exact (list_fmap_compose fst (λ p, (memory_ p, kPageSize)) l)).
    unfold blocks. rewrite !Epb, V2, V3. intros b. rewrite !elem_of_app.
    intros [(p & -> & (x & -> & [_ Hx]%list_elem_of_filter)%list_elem_of_fmap)%list_elem_of_fmap|[_ ?]%list_elem_of_filter];
      [left|by right].
    rewrite <- Epb. by apply (list_elem_of_fmap_2 page_block).
  - intros a Ha. rewrite V1 in Ha. apply elem_of_live in Ha as [Ha HaS]. rewrite V6 by done.
    destruct (object_hdr _ _ _ _ Hok Ha) as (i & n & b & (Hh & Hn & _) & _).
    cbn. rewrite lookup_mark_headers, Hh. cbn. rewrite decide_True by done. f_equal.
    rewrite (bool_decide_false _ (not_elem_of_empty _)).
    rewrite (header_store_mark i n b false true Hn : store_mark 1 _ = _).
    exact (header_store_mark i n b true false Hn).
  - intros p. rewrite V4, lookup_remove. cbn. rewrite map_lookup_imap.
    destruct (decide (p ∈ S)) as [Hp|Hp].
    + rewrite decide_False by (rewrite elem_of_dead, start_from; tauto). by destruct (fields h !! p).
    + destruct (fields h !! p) eqn:E; [|by destruct (decide _)].
      rewrite decide_True; [done|]. rewrite elem_of_dead, start_from. split; [by apply Hf|done].
  - rewrite V5. cbn. f_equal. apply finalizable_frame; [done|].
    intros a [_ Ha]%elem_of_dead. cbn. by apply mark_unmarked.
Qed.

Lemma collected_inv S h L h' L' :
  gc_inv h L → (∀ p, p ∈ S ↔ reach h p) → survived S (mark_result S h) L h' L' → heap_ok ∅ h' L' →
  gc_inv h' L'.
Proof using P.
  intros Hinv HS Hsv Hok'. pose proof (survived_collected _ _ _ _ _ Hinv HS Hsv) as [C1 _ C2 C3 C4 _ _].
  destruct Hinv as [Hok Hg Hr Hf].
  assert (∀ p, p ∈ S → FromObject p ∈ objects L') as Hin.
  { intros p Hp. rewrite C1, elem_of_live, start_from. split; [|done]. by apply Hf, reach_fields, HS. }
  assert (∀ p l', fields h' !! p = Some l' → p ∈ S ∧ ∃ l, fields h !! p = Some l ∧ l' = clear_weak S l) as Hfl.
  { intros p l'. rewrite C3. destruct (decide _); [|done]. destruct (fields h !! p); [|done]. intros [= <-]. eauto. }
  assert (∀ p, p ∈ S → is_Some (fields h' !! p)) as Hsome.
  { intros p Hp. rewrite C3, decide_True by done. destruct (reach_fields h p Hg) as [l ->]; [by apply HS|].
    by eexists. }
  split; [done| | |].
  - split.
    + intros p (l' & (Hp & l & Hl & _)%Hfl). destruct (go_header h Hg p) as (? & i & n & c & Hh & Hn); [by eexists|].
      split; [done|]. exists i, n, c. split; [|done]. by rewrite C2 by (by apply Hin).
    + intros p l' m Hl' Hm Ht Hn. apply Hfl in Hl' as (Hp & l & Hl & ->). apply Hsome.
      apply clear_weak_elem in Hm as (m0 & Hm0 & Htag & [?|[Es Hw]]); [done|].
      destruct (member_tag m) eqn:E; [|by apply Hw|done]. apply HS. rewrite Es.
      eapply reach_member; [by apply HS|done|done|by rewrite <- Htag|congruence].
    + intros o p. rewrite C4, lookup_fmap. destruct (persistents h !! o) as [q|] eqn:Eq; [|done].
      intros [= <-]. unfold clear_weak_persistent. destruct (IsStrongPersistent q) eqn:E; cbn.
      * intros Hv. apply Hsome, HS. by eapply reach_root.
      * case_bool_decide as Hv; [|done]. intros _. by apply Hsome.
  - destruct (regions_marked S h Hr) as [R1 R2 R3].
    pose proof (sv_persistents _ _ _ _ _ Hsv) as Ep.
    assert (∀ b, GetPersistentRegion b h' = GetPersistentRegion b (mark_result S h)) as Eb.
    { intros []; [apply (sv_strong _ _ _ _ _ Hsv)|apply (sv_weak _ _ _ _ _ Hsv)]. }
    split; [|setoid_rewrite Eb; setoid_rewrite Ep; exact R2|setoid_rewrite Ep; exact R3].
    intros b. rewrite Eb. apply R1.
  - intros p [l' (Hp & _)%Hfl]. by apply Hin.
Qed.

Lemma wp_CollectGarbage h L :
  gc_inv h L →
  ∃ S : gset Z, (∀ p, p ∈ S ↔ reach h p) ∧
    wp CollectGarbage (λ _ h', ∃ L', gc_inv h' L' ∧ collected S h L h' L') h.
Proof using P.
  intros Hinv. destruct (wp_Mark h (gi_graph _ _ Hinv) (gi_regions _ _ Hinv)) as (S & HS & HM).
  exists S. split; [done|].
  assert (wp CollectGarbage (λ _ h', ∃ L', gc_inv h' L' ∧ collected S h L h' L') h =
    wp (Mark ;; Sweep) (λ _ h', ∃ L', gc_inv h' L' ∧ collected S h L h' L') h) as ->.
  { unfold wp, CollectGarbage, bind. rewrite run_job. destruct (Mark h) as [[[] h1]|]; [|done].
    by rewrite run_job. }
  wp_step. eapply wp_mono; [exact HM|]. intros _ h1 ->.
  apply (wp_Sweep S _ L).
  { apply heap_ok_marked; [apply Hinv|]. intros p Hp. apply (gi_fields _ _ Hinv).
    apply reach_fields; [apply Hinv|by apply HS]. }
  intros h' L' Hok' Hsv. exists L'. split; [by apply (collected_inv S h L)|by apply survived_collected].
Qed.
End props.
