(* ===== verification/GcAlloc.v ===== *)
(** * Allocation

    Allocation replaces one cell by others ([replace_cell], [shape_replace]): a free
    cell by the linear allocation buffer, the buffer by an object and what is left
    of it.  [wp_Allocate]: the new object lies apart from every object that is kept,
    and a collection happens only if there is no memory otherwise. *)
From Stdlib Require Import ZArith Lia Bool.
From stdpp Require Import base list gmap.
From S2P Require Import Prelude Sandbox SandboxProps GcSpace GcSpaceProps Job GcHeap GcMark GcLayout GcSweep GcSweepHeap GcCollect GcProps.

(** The cell at [b] replaced, of cells from [a] on. *)
Fixpoint replace_at (a b : Z) (new l : list Cell) : list Cell :=
  match l with
  | [] => []
  | c :: l => if a =? b then new ++ l else c :: replace_at (a + csize c) b new l
  end.

Definition replace_page (b : Z) (new : list Cell) (x : NormalPage * list Cell) :=
  (x.1, replace_at (memory_ x.1) b new x.2).
Definition replace_cell (b : Z) (new : list Cell) (L : Layout) : Layout :=
  mkLayout (map (replace_page b new) (lpages L)) (llarge L).

Section alloc.
Context `{Platform} {P : PlatformOk}.

#[local] Abbreviation g := kAllocationGranularity.

Lemma replace_at_none a b new l : (∀ c, (b, c) ∉ cells_at a l) → replace_at a b new l = l.
Proof.
  revert a. induction l as [|c l IH]; intros a Hb; simpl; [done|].
  rewrite (proj2 (Z.eqb_neq a b)) by (intros ->; apply (Hb c); by left).
  rewrite IH; [done|]. intros d Hd. apply (Hb d). by right.
Qed.

Lemma replace_at_some a b c new l :
  sized l → (b, c) ∈ cells_at a l → cells_end b new = b + csize c →
  cells_end a (replace_at a b new l) = cells_end a l ∧
  ∀ x d, (x, d) ∈ cells_at a (replace_at a b new l) ↔
    ((x, d) ∈ cells_at a l ∧ x ≠ b) ∨ (x, d) ∈ cells_at b new.
Proof using P.
  pose proof granularity_range. intros Hs. revert a.
  induction Hs as [|c' l [Hc _] Hs IH]; intros a Hb He; cbn [replace_at]; [by apply elem_of_nil in Hb|].
  apply elem_of_cons in Hb as [[= -> ->]|Hb].
  - rewrite Z.eqb_refl. split; [rewrite cells_end_app, He; done|].
    intros x d. rewrite cells_at_app, elem_of_app, He. cbn [cells_at]. rewrite elem_of_cons. split.
    + intros [Hx|Hx]; [by right|left]. split; [by right|]. apply sized_range in Hx; [|done]. lia.
    + intros [[[[= -> ->]|Hx] Hne]|Hx]; [done|by right|by left].
  - pose proof (sized_range _ _ _ _ Hs Hb) as (? & _ & _). rewrite (proj2 (Z.eqb_neq a b)) by lia.
    destruct (IH (a + csize c') Hb He) as [IH1 IH2]. split; [exact IH1|].
    intros x d. cbn [cells_at]. rewrite !elem_of_cons, IH2. split.
    + intros [[= -> ->]|[[Hx Hne]|Hx]]; [left; split; [by left|lia]|left; split; [by right|done]|by right].
    + intros [[[E|Hx] Hne]|Hx]; [by left|right; by left|right; by right].
Qed.

(** [elem_of_replace]: the cells of the new layout. *)
Lemma elem_of_replace S h L x b c new y d :
  heap_shape S h L → x ∈ lpages L → (b, c) ∈ page_cells x → cells_end b new = b + csize c →
  y ∈ lpages L →
  (d ∈ page_cells (replace_page b new y) ↔
    (d ∈ page_cells y ∧ d.1 ≠ b) ∨ (y = x ∧ d ∈ cells_at b new)) ∧
  cells_end (memory_ y.1) (replace_page b new y).2 = cells_end (memory_ y.1) y.2.
Proof using P.
  intros Hok Hx Hb He Hy. pose proof granularity_range. pose proof payload_range.
  pose proof (shape_pages _ _ _ _ Hok Hx) as Htx. pose proof (shape_pages _ _ _ _ Hok Hy) as Hty.
  destruct (blocks_page L x (ho_blocks _ _ _ Hok) Hx) as (_ & Hap & _).
  pose proof (page_cell_range _ _ _ _ _ Htx Hb) as (? & ? & ?).
  destruct (Hap y Hy) as [->|Ha].
  - destruct (replace_at_some (memory_ x.1) b c new x.2) as [E1 E2]; [by eapply tiles_sized|done|done|].
    split; [|exact E1]. destruct d as [z d]. unfold page_cells. cbn. rewrite E2. tauto.
  - assert (∀ c', (b, c') ∉ cells_at (memory_ y.1) y.2) as Hnone.
    { intros c' Hc'. apply (page_cell_range _ _ _ _ _ Hty) in Hc'. unfold apart, page_block in Ha. cbn in Ha. lia. }
    unfold page_cells. cbn. rewrite replace_at_none by done. split; [|done]. destruct d as [z d]. cbn. split.
    + intros Hz. left. split; [done|]. intros ->. by apply (Hnone d).
    + intros [[? _]|[-> _]]; [done|]. unfold apart, page_block in Ha. cbn in Ha. lia.
Qed.

(** The old cell is not the buffer, or it was the buffer. *)
Lemma shape_replace S h h' L x b c new :
  heap_shape S h L → x ∈ lpages L → (b, c) ∈ page_cells x → cells_end b new = b + csize c →
  normal_pages_ h' = normal_pages_ h → large_objects_ h' = large_objects_ h →
  gc_infos h' = gc_infos h →
  (∀ a, a < b ∨ b + csize c <= a → headers (space h') !! a = headers (space h) !! a) →
  (∀ y n z, y ∈ lpages L → (z, LabCell n) ∈ page_cells y → z = b) →
  (∀ z d, (z, d) ∈ cells_at b new → cell_ok S h' z d) →
  0 <= lab_size h' → (lab_size h' = 0 ∨ (lab_start h', LabCell (lab_size h')) ∈ cells_at b new) →
  heap_shape S h' (replace_cell b new L).
Proof using P.
  intros Hok Hx Hb He Hp Hl Hg Hh Hlab Hnew Hl0 Hl1. pose proof granularity_range.
  split; cbn.
  - rewrite Hp, (ho_pages _ _ _ Hok). exact (list_fmap_compose (replace_page b new) fst (lpages L)).
  - by rewrite Hl, (ho_large _ _ _ Hok).
  - intros y (y0 & -> & Hy)%list_elem_of_fmap. cbn.
    pose proof (shape_pages _ _ _ _ Hok Hy) as [Hend Hcells]. split.
    + destruct (elem_of_replace S h L x b c new y0 (b, c)) as [_ E]; [done..|]. exact (eq_trans E Hend).
    + intros z d Hz. destruct (elem_of_replace S h L x b c new y0 (z, d)) as [Hiff _]; [done..|].
      apply Hiff in Hz as [[Hz Hne]|[-> Hz]]; [|by apply Hnew]. cbn in Hne. pose proof (Hcells z d Hz) as Hd.
      destruct d as [n|n|n]; [by destruct Hne; apply (Hlab y0 n)|..].
      all: destruct (cells_apart _ _ _ _ _ _ _ _ _ Hok Hx Hy Hb Hz) as [[? _]|Hap]; [congruence|].
      all: pose proof (page_cell_range _ _ _ _ _ (shape_pages _ _ _ _ Hok Hy) Hz) as (? & ? & ?); cbn [csize] in *.
      all: assert (headers (space h') !! z = headers (space h) !! z) as Hz' by (apply Hh; lia).
      all: cbn in *; unfold hdr; rewrite Hz', ?Hg; exact Hd.
  - intros a n Ha. destruct (ho_large_ok _ _ _ Hok a n Ha) as (i & k & (Hd & Hn) & Hi & Hr & Hgn).
    exists i, k. rewrite Hg. split; [|done]. split; [|done]. rewrite <- Hd. apply Hh.
    pose proof (cell_large_apart _ _ _ _ _ _ _ _ Hok Hx Hb Ha). lia.
  - pose proof (ho_blocks _ _ _ Hok) as Hbl. unfold blocks in *. cbn.
    rewrite <- (list_fmap_compose (replace_page b new) page_block). exact Hbl.
  - done.
  - destruct Hl1 as [?|Hl1]; [by left|right]. exists (replace_page b new x).
    split; [by apply list_elem_of_fmap_2|].
    destruct (elem_of_replace S h L x b c new x (lab_start h', LabCell (lab_size h'))) as [Hiff _]; [done..|].
    apply Hiff. by right.
Qed.

Definition free_entry (L : Layout) (e : Z) : Prop :=
  ∃ x n, x ∈ lpages L ∧ (e, FreeCell n) ∈ page_cells x ∧ kFreeListEntrySize <= n.

Lemma free_entry_replace S h L x b c new e :
  heap_shape S h L → x ∈ lpages L → (b, c) ∈ page_cells x → cells_end b new = b + csize c →
  (∀ z n, (z, FreeCell n) ∉ cells_at b new) →
  free_entry (replace_cell b new L) e ↔ free_entry L e ∧ e ≠ b.
Proof using P.
  intros Hok Hx Hb He Hnew. unfold free_entry. cbn. split.
  - intros (y & n & (y0 & -> & Hy)%list_elem_of_fmap & Hz & Hn).
    destruct (elem_of_replace S h L x b c new y0 (e, FreeCell n)) as [Hiff _]; [done..|].
    apply Hiff in Hz as [[Hz Hne]|[-> Hz]]; [|by apply Hnew in Hz]. split; [|done]. by exists y0, n.
  - intros [(y & n & Hy & Hz & Hn) Hne]. exists (replace_page b new y), n.
    split; [by apply list_elem_of_fmap_2|]. split; [|done].
    destruct (elem_of_replace S h L x b c new y (e, FreeCell n)) as [Hiff _]; [done..|]. apply Hiff. by left.
Qed.

Lemma objects_replace S h L x b c new a :
  heap_shape S h L → x ∈ lpages L → (b, c) ∈ page_cells x → cells_end b new = b + csize c →
  a ∈ objects (replace_cell b new L) ↔
  (a ∈ objects L ∧ a ≠ b) ∨ ∃ n, (a, ObjCell n) ∈ cells_at b new.
Proof using P.
  intros Hok Hx Hb He. rewrite !elem_of_objects. cbn. pose proof granularity_range.
  assert (∀ n, (b, n) ∉ llarge L) as Hlarge.
  { intros n Hn. destruct (ho_large_ok _ _ _ Hok _ _ Hn) as (_ & _ & _ & _ & _ & ?).
    pose proof (cell_large_apart _ _ _ _ _ _ _ _ Hok Hx Hb Hn).
    pose proof (page_cell_range _ _ _ _ _ (shape_pages _ _ _ _ Hok Hx) Hb). lia. }
  assert (∀ y n, y ∈ lpages L → (a, ObjCell n) ∈ page_cells (replace_page b new y) ↔
    ((a, ObjCell n) ∈ page_cells y ∧ a ≠ b) ∨ (y = x ∧ (a, ObjCell n) ∈ cells_at b new)) as Hiff.
  { intros y n Hy. exact (proj1 (elem_of_replace S h L x b c new y (a, ObjCell n) Hok Hx Hb He Hy)). }
  split.
  - intros [(y & n & (y0 & -> & Hy)%list_elem_of_fmap & Hz)|[n Hn]].
    + apply Hiff in Hz as [[Hz Hne]|[-> Hz]]; [|right; by exists n|done]. left. split; [|done]. left. by exists y0, n.
    + left. split; [right; by exists n|]. intros ->. by apply (Hlarge n).
  - intros [[[(y & n & Hy & Hz)|Hl] Hne]|[n Hz]]; [|by right|].
    + left. exists (replace_page b new y), n. split; [by apply list_elem_of_fmap_2|]. apply Hiff; [done|by left].
    + left. exists (replace_page b new x), n. split; [by apply list_elem_of_fmap_2|]. apply Hiff; [done|by right].
Qed.

(** ** Pages *)

(** A page that [NormalPage::Create] may obtain, or a refusal. *)
Definition page_fresh (L : Layout) (page : NormalPage) : Prop :=
  memory_ page = nullptr ∨
  (block_ok (memory_ page, kPageSize) ∧ Forall (apart (memory_ page, kPageSize)) (blocks L)).

Definition add_page (page : NormalPage) (L : Layout) : Layout :=
  mkLayout (lpages L ++ [(page, [LabCell PayloadSize])]) (llarge L).

Lemma payload_aligned : aligned PayloadSize.
Proof using P.
  unfold PayloadSize, aligned. apply Z.divide_sub_r; [|done].
  destruct granularity_cases as [-> | ->]; [by exists 32768|by exists 16384].
Qed.

Lemma shape_add_page S h L page :
  heap_shape S h L → memory_ page ≠ nullptr → page_fresh L page → lab_size h = 0 →
  heap_shape S (set_lab (PayloadStart page) PayloadSize (set_pages (normal_pages_ h ++ [page]) h))
    (add_page page L).
Proof using P.
  intros Hok Hp [?|[Hb Hap]] Hl; [done|]. pose proof payload_range as Hpr. pose proof granularity_range.
  split; cbn.
  - by rewrite (ho_pages _ _ _ Hok), fmap_app.
  - apply (ho_large _ _ _ Hok).
  - intros y [Hy| ->%list_elem_of_singleton]%elem_of_app.
    + destruct (shape_pages _ _ _ _ Hok Hy) as [He Hc]. split; [done|]. intros z d Hz.
      pose proof (Hc z d Hz) as Hd. destruct d as [n|n|n]; [|exact Hd..]. destruct Hd as (_ & -> & ? & _). lia.
    + split; [done|]. cbn. intros z d [= -> ->]%list_elem_of_singleton. cbn.
      split; [done|]. split; [done|]. split; [lia|apply payload_aligned].
  - intros a n Ha. exact (ho_large_ok _ _ _ Hok a n Ha).
  - unfold blocks. cbn [lpages llarge add_page]. rewrite fmap_app, <- app_assoc.
    cbn [fmap list_fmap app]. rewrite <- Permutation_middle. cbn [blocks_ok].
    split; [exact Hb|]. split; [exact Hap|apply (ho_blocks _ _ _ Hok)].
  - lia.
  - right. exists (page, [LabCell PayloadSize]). split; [apply elem_of_app; right; by left|]. by left.
Qed.

Lemma add_page_objects page L a : a ∈ objects (add_page page L) ↔ a ∈ objects L.
Proof.
  rewrite !elem_of_objects. cbn. setoid_rewrite elem_of_app. split.
  - intros [(y & n & [Hy| ->%list_elem_of_singleton] & Hz)|?]; [left; eauto| |by right].
    cbn in Hz. by apply list_elem_of_singleton in Hz.
  - intros [(y & n & Hy & Hz)|?]; [left; exists y, n; auto|by right].
Qed.

Lemma add_page_free page L e : free_entry (add_page page L) e ↔ free_entry L e.
Proof.
  unfold free_entry. cbn. setoid_rewrite elem_of_app. split.
  - intros (y & n & [Hy| ->%list_elem_of_singleton] & Hz & Hn); [by exists y, n|].
    cbn in Hz. by apply list_elem_of_singleton in Hz.
  - intros (y & n & Hy & Hz & Hn). exists y, n. auto.
Qed.

(** ** Refilling the linear allocation buffer *)

(** The objects and what the collector knows of them stay as they are. *)
Record unchanged (h : Heap) (L : Layout) (h' : Heap) (L' : Layout) : Prop := {
  un_objects : ∀ a, a ∈ objects L' ↔ a ∈ objects L;
  un_headers : ∀ a, a ∈ objects L → headers (space h') !! a = headers (space h) !! a;
  un_fields : fields h' = fields h;
  un_persistents : persistents h' = persistents h;
  un_regions : strong_persistents_ h' = strong_persistents_ h ∧ weak_persistents_ h' = weak_persistents_ h;
  un_gc_infos : gc_infos h' = gc_infos h;
  un_finalized : finalized h' = finalized h
}.

Lemma shape_space S h s L :
  heap_shape S h L → headers s = headers (space h) → heap_shape S (set_space s h) L.
Proof.
  intros [H1 H2 H3 H4 H5 H6 H7] Hs. split; try done.
  - intros x Hx. apply (tiles_frame S S h); [by apply H3|done..|]. intros a c _. cbn. by rewrite Hs.
  - intros a n Ha. destruct (H4 a n Ha) as (i & b & (Hd & Hn) & Hr). exists i, b.
    split; [|exact Hr]. split; [|done]. cbn. by rewrite Hs.
Qed.

Lemma retired_lab S h L y n z :
  heap_shape S h L → lab_size h = 0 → y ∈ lpages L → (z, LabCell n) ∈ page_cells y → False.
Proof.
  intros Hok Hl Hy Hz. destruct (proj2 (shape_pages _ _ _ _ Hok Hy) _ _ Hz) as (_ & -> & ? & _). lia.
Qed.

(** A free cell becomes the buffer. *)
Lemma take_cell h s L ls e n x :
  heap_shape ∅ (set_lab nullptr 0 (set_space s h)) L → x ∈ lpages L → (e, FreeCell n) ∈ page_cells x →
  fl_rep s ls → (∀ a, a ∈ concat ls ↔ free_entry L a ∧ a ≠ e) →
  heap_ok ∅ (set_lab e n (set_space s h)) (replace_cell e [LabCell n] L) ∧
  ∀ a, a ∈ objects (replace_cell e [LabCell n] L) ↔ a ∈ objects L.
Proof using P.
  intros Hok Hx He Hfl Hls. pose proof granularity_range as Hg.
  destruct (proj2 (shape_pages _ _ _ _ Hok Hx) _ _ He) as [(_ & [Han _] & _) Hgn].
  split; [split|].
  - apply (shape_replace ∅ _ _ _ x e (FreeCell n) [LabCell n] Hok); try done.
    + intros y m z Hy Hz. exfalso. by eapply retired_lab.
    + intros z d [= -> ->]%list_elem_of_singleton. cbn. split; [done|]. split; [done|]. split; [lia|done].
    + cbn. lia.
    + right. by left.
  - exists ls. split; [exact Hfl|]. intros a. rewrite Hls. symmetry.
    apply (free_entry_replace ∅ _ L x e (FreeCell n) [LabCell n] a Hok); [done|done|done|].
    by intros z m Hz%list_elem_of_singleton.
  - intros a. rewrite (objects_replace ∅ _ L x e (FreeCell n) [LabCell n] a Hok) by done. split.
    + intros [[? _]|[m Hm%list_elem_of_singleton]]; done.
    + intros Ha. left. split; [done|]. intros ->. exact (free_not_object _ _ _ _ _ _ Hok Hx He Ha).
Qed.

Lemma wp_Replace_pages start size p (Q : unit → Heap → Prop) h :
  wp (ReplaceLinearAllocationBuffer start size) (λ u h', Q u (set_pages p h')) h →
  wp (ReplaceLinearAllocationBuffer start size) Q (set_pages p h).
Proof.
  unfold ReplaceLinearAllocationBuffer. wp_step. change (lab_size (set_pages p h)) with (lab_size h).
  change (lab_start (set_pages p h)) with (lab_start h). destruct (0 <? lab_size h); wp_step; [|done].
  change (space (set_pages p h)) with (space h). unfold wp.
  destruct (FreeList_Add _ _) as [[[] s]|]; [|done]. by wp_step.
Qed.

Lemma wp_RefillLinearAllocationBuffer h L page size (Q : Refill → Heap → Prop) :
  heap_ok ∅ h L → 0 < size → size <= PayloadSize → page_fresh L page →
  (∀ h' L', heap_ok ∅ h' L' → unchanged h L h' L' → size <= lab_size h' → Q Refilled h') →
  (∀ h', memory_ page = nullptr → heap_ok ∅ h' L → unchanged h L h' L →
     (∀ e x n, x ∈ lpages L → (e, FreeCell n) ∈ page_cells x → kFreeListEntrySize <= n → n < 2 * size) →
     Q (if sandboxed_ page then SandboxFull else PageRefused) h') →
  wp (RefillLinearAllocationBuffer page size) Q h.
Proof using P.
  intros [Hok (ls & Hfl & Hls)] Hsz Hsz2 Hpage HQ1 HQ2. unfold RefillLinearAllocationBuffer. wp_step.
  eapply wp_mono; [by apply (wp_FreeList_Allocate (space h) ls)|]. cbn beta.
  intros b s [Hs [(-> & Hfl' & _ & Hsmall)|(Hb & Hbn & Hbh & ls' & Hfl' & Hperm)]].
  - pose proof (shape_space _ _ _ _ Hok Hs) as Hok1. wp_step.
    cbn [address negb]. rewrite Z.eqb_refl. cbn [negb].
    destruct (memory_ page =? nullptr) eqn:Ep; zbool; wp_step.
    + apply HQ2; [done| | |].
      * split; [done|]. by exists ls.
      * split; try done. intros a _. cbn. by rewrite Hs.
      * intros e x n Hx He Hn. apply (Hsmall e n); [apply Hls; eauto|].
        exact (proj1 (proj2 (shape_pages _ _ _ _ Hok Hx) _ _ He)).
    + apply wp_Replace_pages. apply (wp_Replace_shape ∅ _ L ls); [done|done| |].
      { intros e (x & n & Hx & Hc & _)%Hls. eauto. }
      intros s2 ls2 Hok2 Hfl2 Hls2 Hs2. wp_step.
      apply (HQ1 _ (add_page page (retired L))).
      * split.
        -- assert (page_fresh (retired L) page) as Hpage'.
           { destruct Hpage as [?|[? Hap]]; [by left|right]. split; [done|]. unfold blocks, retired in *. cbn.
             by rewrite <- (list_fmap_compose retire_page page_block). }
           exact (shape_add_page ∅ _ (retired L) page Hok2 Ep Hpage' eq_refl).
        -- exists ls2. split; [exact Hfl2|]. intros e. rewrite Hls2, Hls.
           symmetry. etransitivity; [apply add_page_free|]. exact (elem_of_free_retired _ _ _ e Hok).
      * split; try done.
        -- intros a. by rewrite add_page_objects, retired_objects.
        -- intros a Ha. cbn. rewrite Hs2 by exact (object_not_lab _ _ _ _ Hok Ha). by rewrite <- Hs.
      * cbn. lia.
  - pose proof (shape_space _ _ _ _ Hok Hs) as Hok1. wp_step. rewrite (proj2 (Z.eqb_neq _ _)) by done. cbn [negb].
    destruct b as [e n]. cbn in *.
    assert (free_entry L e) as (x & m & Hx & Hc & Hm) by (apply Hls; rewrite Hperm; by left).
    assert (m = n) as ->.
    { destruct (proj2 (shape_pages _ _ _ _ Hok Hx) _ _ Hc) as [Hd _]. by eapply hdr_size_inj. }
    pose proof (fl_nodup _ _ Hfl) as Hnd. rewrite Hperm in Hnd. apply NoDup_cons in Hnd as [Hnin _].
    wp_step. apply (wp_Replace_shape ∅ _ L ls'); [done|done| |].
    { intros a Ha. destruct (proj1 (Hls a)) as (y & k & Hy & Hk & _); [rewrite Hperm; by right|eauto]. }
    intros s2 ls2 Hok2 Hfl2 Hls2 Hs2. wp_step.
    assert (retire_page x ∈ lpages (retired L)) as Hx' by (by apply list_elem_of_fmap_2).
    destruct (take_cell (set_space s h) s2 (retired L) ls2 e n (retire_page x) Hok2 Hx') as [Hend Hobj].
    { apply elem_of_retired. by exists (FreeCell n). }
    { done. }
    { intros a. rewrite Hls2. unfold free_entry. rewrite (elem_of_free_retired _ _ _ a Hok).
      assert (a ∈ concat ls' ↔ a ∈ concat ls ∧ a ≠ e) as ->.
      { rewrite Hperm, elem_of_cons. split; [|tauto]. intros Ha. split; [by right|]. by intros ->. }
      rewrite Hls. cbn. split; [|tauto]. intros [?|[-> Hn]]; [tauto|]. split; [by right|]. intros E.
      destruct (ho_lab _ _ _ Hok) as [E0|(y & Hy & Hlc)]; [rewrite entry_size in Hn; pose proof granularity_range; lia|].
      rewrite E in Hlc. pose proof (cells_same _ _ _ _ _ _ _ _ Hok Hx Hy Hc Hlc). done. }
    apply (HQ1 _ _ Hend); [|done]. split; try done.
    + intros a. by rewrite Hobj, retired_objects.
    + intros a Ha. cbn. rewrite Hs2 by exact (object_not_lab _ _ _ _ Hok Ha). cbn. by rewrite <- Hs.
Qed.

(** ** The new object *)

Record new_object (h : Heap) (L : Layout) (a k index : Z) (h' : Heap) (L' : Layout) : Prop := {
  no_fresh : a ∉ objects L;
  no_objects : ∀ b, b ∈ objects L' ↔ b = a ∨ b ∈ objects L;
  no_header : hdr (space h') a index k false false;
  no_headers : ∀ b, b ∈ objects L → headers (space h') !! b = headers (space h) !! b;
  no_fields : fields h' = fields h;
  no_persistents : persistents h' = persistents h;
  no_regions : strong_persistents_ h' = strong_persistents_ h ∧ weak_persistents_ h' = weak_persistents_ h;
  no_gc_infos : gc_infos h' = gc_infos h;
  no_finalized : finalized h' = finalized h
}.

Definition registered (h : Heap) (index : Z) : Prop :=
  0 < index < kMaxGCInfoIndex ∧ is_Some (table_ (gc_infos h) !! index).

Lemma wp_construct_header a k index (Q : unit → Space → Prop) s :
  a ≠ nullptr → size_ok k → index_ok index →
  Q tt (set_headers <[a := header_of index k false false]> s) →
  wp (construct_header a k index) Q s.
Proof using P.
  intros Ha Hk Hi HQ. unfold construct_header. rewrite (proj2 (Z.eqb_neq _ _) Ha), header_new by done.
  by wp_step.
Qed.

(** An object at the start of the buffer. *)
Definition bump (k n : Z) : list Cell := ObjCell k :: (if n =? k then [] else [LabCell (n - k)]).

Lemma bump_cells a k n z d :
  (z, d) ∈ cells_at a (bump k n) ↔
  (z = a ∧ d = ObjCell k) ∨ (n ≠ k ∧ z = a + k ∧ d = LabCell (n - k)).
Proof.
  unfold bump. cbn. rewrite elem_of_cons. destruct (n =? k) eqn:E; zbool; cbn.
  - rewrite elem_of_nil. naive_solver.
  - rewrite list_elem_of_singleton. naive_solver.
Qed.

Lemma bump_end a k n : cells_end a (bump k n) = a + n.
Proof. unfold bump, cells_end. destruct (n =? k) eqn:E; zbool; cbn; lia. Qed.

Lemma wp_bump h L k index :
  heap_ok ∅ h L → k <= lab_size h → aligned k → g <= k → size_ok k → registered h index →
  wp (let! raw := lab_Allocate k in on_space (construct_header raw k index) ;; ret (Allocates (ObjectStart raw)))
    (λ r h', r = Allocates (ObjectStart (lab_start h)) ∧
      ∃ L', heap_ok ∅ h' L' ∧ new_object h L (lab_start h) k index h' L') h.
Proof using P.
  intros [Hok (ls & Hfl & Hls)] Hk Hka Hkg Hks [Hi Hinfo]. pose proof granularity_range as Hg.
  destruct (ho_lab _ _ _ Hok) as [?|(x & Hx & Hlc)]; [lia|].
  set (a := lab_start h) in *. set (n := lab_size h) in *.
  destruct (proj2 (shape_pages _ _ _ _ Hok Hx) _ _ Hlc) as (_ & _ & Hn0 & Hna). fold n in Hna.
  assert (index_ok index) as Hix by (unfold index_ok; lia).
  pose proof (page_cell_range _ _ _ _ _ (shape_pages _ _ _ _ Hok Hx) Hlc) as (? & _).
  destruct (blocks_page L x (ho_blocks _ _ _ Hok) Hx) as ([Hpos0 _] & _). cbn in Hpos0.
  unfold lab_Allocate. wp_step. rewrite wp_CHECK. split; [by apply Z.leb_le|]. wp_step.
  apply wp_construct_header; [unfold nullptr; fold a; lia|done|done|]. wp_step. fold a n.
  set (h' := set_space _ _). split; [done|].
  assert (∀ b, b ∈ objects L → b ≠ a) as Hfresh.
  { intros b Hb ->. pose proof (object_not_lab _ _ _ _ Hok Hb) as [E|E]; [fold n in E; lia|done]. }
  assert (∀ y m z, y ∈ lpages L → (z, LabCell m) ∈ page_cells y → z = a ∧ m = n) as Hlab.
  { intros y m z Hy Hz. by destruct (proj2 (shape_pages _ _ _ _ Hok Hy) _ _ Hz) as (-> & -> & _). }
  pose proof (bump_end a k n) as Hend.
  exists (replace_cell a (bump k n) L). split; [split|].
  - apply (shape_replace ∅ h h' L x a (LabCell n) (bump k n)); try done.
    + intros b Hb. cbn. apply lookup_insert_ne. cbn in Hb. lia.
    + intros y m z Hy Hz. by destruct (Hlab y m z Hy Hz).
    + intros z d [[-> ->]|(Hne & -> & ->)]%bump_cells.
      * exists index, false. rewrite (bool_decide_false _ (not_elem_of_empty _)). split; [|by split; [unfold kFreeListGCInfoIndex; lia|]].
        split; [cbn; by rewrite lookup_insert_eq|done].
      * cbn. split; [done|]. split; [done|]. split; [lia|]. by apply Z.divide_sub_r.
    + cbn. lia.
    + cbn. destruct (decide (n = k)) as [E|Hne]; [left; lia|right]. apply bump_cells. by right.
  - exists ls. assert (∀ z m, (z, FreeCell m) ∉ cells_at a (bump k n)) as Hnf.
    { by intros z m [[_ ?]|(_ & _ & ?)]%bump_cells. }
    split.
    + apply (fl_frame (space h)); [done..| |done]. intros e (y & m & Hy & Hc & _)%Hls. split; [|done].
      cbn. apply lookup_insert_ne. intros <-. pose proof (cells_same _ _ _ _ _ _ _ _ Hok Hx Hy Hlc Hc). done.
    + intros e. rewrite Hls. symmetry.
      etransitivity; [by apply (free_entry_replace ∅ h L x a (LabCell n) (bump k n) e Hok)|]. unfold free_entry.
      split; [tauto|]. intros (y & m & Hy & Hc & Hm). split; [eauto|]. intros ->.
      pose proof (cells_same _ _ _ _ _ _ _ _ Hok Hx Hy Hlc Hc). done.
  - split; try done.
    + intros Ha. by apply (Hfresh a).
    + intros b. rewrite (objects_replace ∅ h L x a (LabCell n) (bump k n) b Hok) by done. split.
      * intros [[? _]|[m [[-> _]|(_ & _ & ?)]%bump_cells]]; [by right|by left|done].
      * intros [->|Hb]; [right; exists k; apply bump_cells; by left|left]. split; [done|by apply Hfresh].
    + split; [cbn; by rewrite lookup_insert_eq|done].
    + intros b Hb%Hfresh. cbn. by rewrite lookup_insert_ne.
Qed.

(** A large object. *)
Definition block_fresh (L : Layout) (base k : Z) : Prop :=
  base = nullptr ∨ (block_ok (base, k) ∧ Forall (apart (base, k)) (blocks L)).

Lemma wp_AllocateLarge h L base k index :
  heap_ok ∅ h L → base ≠ nullptr → block_fresh L base k → g <= k → size_ok k → registered h index →
  wp (AllocateLarge base k index)
    (λ r h', r = Allocates (ObjectStart base) ∧ ∃ L', heap_ok ∅ h' L' ∧ new_object h L base k index h' L') h.
Proof using P.
  intros [Hok (ls & Hfl & Hls)] Hb0 [?|[Hb Hap]] Hkg Hks [Hi Hinfo]; [done|]. pose proof granularity_range as Hg.
  assert (index_ok index) as Hix by (unfold index_ok; lia).
  unfold AllocateLarge. rewrite (proj2 (Z.eqb_neq _ _)) by done. wp_step.
  apply wp_construct_header; [done|done|done|]. wp_step. set (h' := set_large _ _). split; [done|].
  rewrite Forall_forall in Hap.
  assert (∀ y z d, y ∈ lpages L → (z, d) ∈ page_cells y → z ≠ base) as Hcell.
  { intros y z d Hy Hz ->. pose proof payload_range.
    pose proof (page_cell_range _ _ _ _ _ (shape_pages _ _ _ _ Hok Hy) Hz) as (? & ? & ?).
    assert (page_block y ∈ blocks L) as Hin by (apply elem_of_app; left; by apply list_elem_of_fmap_2).
    specialize (Hap _ Hin). unfold apart, page_block in Hap. cbn in Hap. lia. }
  assert (∀ b m, (b, m) ∈ llarge L → b ≠ base) as Hlg.
  { intros b m Hm ->. specialize (Hap (base, m) ltac:(apply elem_of_app; by right)).
    destruct (ho_large_ok _ _ _ Hok _ _ Hm) as (_ & _ & _ & _ & _ & ?). unfold apart in Hap. cbn in Hap. lia. }
  assert (∀ b, b ∈ objects L → b ≠ base) as Hfresh.
  { intros b [(y & m & Hy & Hm)|[m Hm]]%elem_of_objects; eauto. }
  exists (mkLayout (lpages L) (llarge L ++ [(base, k)])). split; [split|].
  - split; cbn; try apply Hok.
    + by rewrite (ho_large _ _ _ Hok), fmap_app.
    + intros y Hy. apply (tiles_frame ∅ ∅ h); [exact (shape_pages _ _ _ _ Hok Hy)|done..|].
      intros z d Hz. split; [|done]. cbn. rewrite lookup_insert_ne; [done|]. intros <-. by eapply Hcell.
    + intros b m [Hm|[= -> ->]%list_elem_of_singleton]%elem_of_app.
      * destruct (ho_large_ok _ _ _ Hok _ _ Hm) as (i & c & (Hd & Hn) & Hr). exists i, c. split; [|exact Hr].
        split; [|done]. cbn. rewrite lookup_insert_ne; [done|]. intros <-. by eapply Hlg.
      * exists index, false. rewrite (bool_decide_false _ (not_elem_of_empty _)). split; [|by split; [unfold kFreeListGCInfoIndex; lia|]].
        split; [cbn; by rewrite lookup_insert_eq|done].
    + unfold blocks. cbn [lpages llarge]. rewrite app_assoc, (Permutation_app_comm _ [_]). cbn [app blocks_ok].
      split; [exact Hb|]. split; [by apply Forall_forall|apply (ho_blocks _ _ _ Hok)].
  - exists ls. split; [|done]. apply (fl_frame (space h)); [done..| |done].
    intros e (y & m & Hy & Hc & _)%Hls. split; [|done]. cbn. apply lookup_insert_ne. intros <-. by eapply Hcell.
  - split; try done.
    + intros Ha. by apply (Hfresh base).
    + intros b. unfold objects. cbn. rewrite fmap_app, !elem_of_app. cbn. rewrite list_elem_of_singleton. tauto.
    + split; [cbn; by rewrite lookup_insert_eq|done].
    + intros b Hbo%Hfresh. cbn. by rewrite lookup_insert_ne.
Qed.

(** ** [Allocate] *)

(** The invariant depends on headers of objects and on what the collector knows. *)
Lemma gc_inv_frame h L h' L' :
  gc_inv h L → heap_ok ∅ h' L' → (∀ a, a ∈ objects L → a ∈ objects L') →
  (∀ a, a ∈ objects L → headers (space h') !! a = headers (space h) !! a) →
  fields h' = fields h → persistents h' = persistents h →
  strong_persistents_ h' = strong_persistents_ h ∧ weak_persistents_ h' = weak_persistents_ h →
  gc_inv h' L'.
Proof using P.
  intros [_ [G1 G2 G3] [R1 R2 R3] Hf] Hok Hobj Hh Hfl Hp [Hs Hw].
  assert (∀ b, GetPersistentRegion b h' = GetPersistentRegion b h) as Hb by (by intros []).
  split; [done|..].
  - split; [|by rewrite Hfl|by rewrite Hp, Hfl]. rewrite Hfl. intros p Hpf.
    destruct (G1 p Hpf) as (? & i & n & c & Hd & Hn). split; [done|]. exists i, n, c. split; [|done].
    by rewrite Hh by (by apply Hf).
  - split; [by intros b; rewrite Hb|by intros b; rewrite Hb, Hp|by rewrite Hp].
  - rewrite Hfl. auto.
Qed.

Lemma gc_inv_new h L a k index h' L' :
  gc_inv h L → heap_ok ∅ h' L' → new_object h L a k index h' L' → gc_inv h' L'.
Proof using P.
  intros Hinv Hok [N1 N2 N3 N4 N5 N6 N7 _ _]. apply (gc_inv_frame h L); try done.
  intros b Hb. apply N2. by right.
Qed.

Lemma gc_inv_unchanged h L h' L' :
  gc_inv h L → heap_ok ∅ h' L' → unchanged h L h' L' → gc_inv h' L'.
Proof using P.
  intros Hinv Hok [N1 N2 N3 N4 N5 _ _]. apply (gc_inv_frame h L); try done. intros b Hb. by apply N1.
Qed.

Lemma new_unchanged h L h1 L1 a k index h' L' :
  unchanged h L h1 L1 → new_object h1 L1 a k index h' L' → new_object h L a k index h' L'.
Proof using P.
  intros [U1 U2 U3 U4 [U5 U6] U7 U8] [N1 N2 N3 N4 N5 N6 [N7 N8] N9 N10].
  split; [by rewrite <- U1|intros b; by rewrite N2, U1|done| |congruence|congruence|split; congruence|congruence..].
  intros b Hb. rewrite N4 by (by apply U1). by apply U2.
Qed.

Lemma unchanged_trans h L h1 L1 h2 L2 :
  unchanged h L h1 L1 → unchanged h1 L1 h2 L2 → unchanged h L h2 L2.
Proof using P.
  intros [U1 U2 U3 U4 [U5 U6] U7 U8] [V1 V2 V3 V4 [V5 V6] V7 V8].
  split; [intros a; by rewrite V1, U1| |congruence|congruence|split; congruence|congruence..].
  intros a Ha. rewrite V2 by (by apply U1). by apply U2.
Qed.

(** The first try to refill changes nothing if it fails: what follows is about the
    heap as it was. *)
Lemma collected_unchanged S h h1 L h' L' :
  unchanged h L h1 L → collected S h1 L h' L' → collected S h L h' L'.
Proof using P.
  intros [_ U2 U3 U4 _ U7 U8] [C1 C2 C3 C4 C5 C6 C7]. split; [done|done| |intros p; by rewrite C4, U3|congruence| |congruence].
  - intros a Ha. rewrite C3 by done. apply U2. rewrite C1 in Ha. by apply elem_of_live in Ha as [? _].
  - rewrite C6, U8. f_equal. apply finalizable_frame; [done|]. intros a [Ha _]%elem_of_dead. by apply U2.
Qed.

Lemma page_fresh_subset L L' page : blocks L' ⊆ blocks L → page_fresh L page → page_fresh L' page.
Proof.
  intros Hb [?|[H1 H2]]; [by left|right]. split; [done|]. rewrite Forall_forall in *. auto.
Qed.

(** How the new object came to be: without a collection, or after one that was run
    since there was no memory. *)
Definition allocated_at (h : Heap) (L : Layout) (page : NormalPage) (p k index : Z) (h' : Heap) : Prop :=
  ∃ L', gc_inv h' L' ∧
  (new_object h L (FromObject p) k index h' L' ∨
   (memory_ page = nullptr ∧ ∃ S h1 L1, (∀ q, q ∈ S ↔ reach h q) ∧ gc_inv h1 L1 ∧
      collected S h L h1 L1 ∧ new_object h1 L1 (FromObject p) k index h' L')).

(** Memory that the system refuses, and a sandbox that has no room for a page. *)
Definition refuses (page : NormalPage) : Prop := memory_ page = nullptr ∧ sandboxed_ page = false.
Definition is_full (page : NormalPage) : Prop := memory_ page = nullptr ∧ sandboxed_ page = true.

(** What [AllocateNormal] does to have room in the buffer. *)
Lemma wp_ensure h L page page' k :
  gc_inv h L → 0 < k → k <= PayloadSize → page_fresh L page → page_fresh L page' →
  wp (if lab_size h <? k then
        let! refill := RefillLinearAllocationBuffer page k in
        match refill with
        | PageRefused => CollectGarbage ;; RefillLinearAllocationBuffer page' k
        | _ => ret refill
        end
      else ret Refilled)
    (λ refill h',
      match refill with
      | Refilled => ∃ L', gc_inv h' L' ∧ k <= lab_size h' ∧
        (unchanged h L h' L' ∨
         (memory_ page = nullptr ∧ ∃ S h1 L1, (∀ q, q ∈ S ↔ reach h q) ∧ gc_inv h1 L1 ∧
            collected S h L h1 L1 ∧ unchanged h1 L1 h' L'))
      | PageRefused => refuses page ∧ refuses page'
      | SandboxFull => is_full page ∨ refuses page ∧ is_full page'
      end) h.
Proof using P.
  intros Hinv Hk0 Hk Hp Hp'. destruct (lab_size h <? k) eqn:E; zbool; wp_step.
  2: { exists L. split; [done|]. split; [lia|]. left. by split. }
  apply (wp_RefillLinearAllocationBuffer h L); [apply Hinv|done|done|done| |].
  { intros h' L' Hok Hun Hsz. wp_step. exists L'. split; [by apply (gc_inv_unchanged h L)|]. auto. }
  intros h1 Hp0 Hok1 Hun1 _. destruct (sandboxed_ page) eqn:Es; wp_step; [by left|]. pose proof (gc_inv_unchanged _ _ _ _ Hinv Hok1 Hun1) as Hinv1.
  destruct (wp_CollectGarbage h1 L Hinv1) as (S & HS & HC). eapply wp_mono; [exact HC|].
  intros _ h2 (L2 & Hinv2 & Hcol). wp_step.
  assert (∀ q, q ∈ S ↔ reach h q) as HS'.
  { intros q. rewrite HS. split; apply reach_frame; symmetry; apply Hun1 || (symmetry; apply Hun1). }
  apply (wp_RefillLinearAllocationBuffer h2 L2); [apply Hinv2|done|done| | |].
  - apply (page_fresh_subset L); [apply Hcol|done].
  - intros h3 L3 Hok3 Hun3 Hsz. exists L3. split; [by apply (gc_inv_unchanged h2 L2)|]. split; [done|]. right.
    split; [done|]. exists S, h2, L2. split; [done|]. split; [done|]. split; [|done].
    by apply (collected_unchanged S h h1).
  - intros h3 Hp1 _ _ _. destruct (sandboxed_ page') eqn:Es'; [by right|done].
Qed.

Lemma wp_AllocateNormal h L page page' k index :
  gc_inv h L → g <= k → k <= PayloadSize → size_ok k → registered h index →
  page_fresh L page → page_fresh L page' →
  wp (AllocateNormal page page' k index) (λ r h',
    match r with
    | Allocates p => allocated_at h L page p k index h'
    | SizeCheckFails => False
    | SandboxCheckFails => is_full page ∨ refuses page ∧ is_full page'
    | OutOfMemory => refuses page ∧ refuses page'
    end) h.
Proof using P.
  intros Hinv Hkg Hk Hks Hreg Hp Hp'. pose proof granularity_range. unfold AllocateNormal. wp_step.
  eapply wp_mono; [apply (wp_ensure h L page page' k); [done|lia|done..]|]. cbn beta.
  intros [] h1 H1; [|by wp_step|by wp_step]. destruct H1 as (L1 & Hinv1 & Hsz & Hhow).
  assert (registered h1 index) as Hreg1.
  { destruct Hreg as [? Hinfo]. split; [done|]. destruct Hhow as [Hun|(_ & S & h2 & L2 & _ & _ & Hcol & Hun)].
    - by rewrite (un_gc_infos _ _ _ _ Hun).
    - by rewrite (un_gc_infos _ _ _ _ Hun), (co_gc_infos _ _ _ _ _ Hcol). }
  eapply wp_mono; [apply (wp_bump h1 L1 k index); [apply Hinv1|done|apply Hks|done|done|done]|]. cbn beta.
  intros r h' (-> & L' & Hok' & Hnew). exists L'. split; [by eapply gc_inv_new|]. rewrite from_start.
  destruct Hhow as [Hun|(Hp0 & S & h2 & L2 & HS & Hinv2 & Hcol & Hun)].
  - left. by eapply new_unchanged.
  - right. split; [done|]. exists S, h2, L2. split; [done|]. split; [done|]. split; [done|]. by eapply new_unchanged.
Qed.

(** The size of an object with its header. *)
Lemma RoundUp_size n :
  0 < n → n + 2 * g <= 2 ^ uintptr_bits →
  let k := RoundUp (uw (sizeof_HeapObjectHeader + n)) g in
  aligned k ∧ g + n <= k < n + 2 * g.
Proof using P.
  intros Hn Hw k. pose proof granularity_range. change sizeof_HeapObjectHeader with g in k.
  assert (power_of_two g) as Hg by (destruct granularity_cases as [-> | ->]; [by exists 2|by exists 3]).
  destruct (AlignUp_spec (g + n) g Hg) as (H1 & H2 & _); [lia|lia|].
  subst k. rewrite uw_small by lia. change RoundUp with AlignUp.
  split; [|lia]. apply Z.mod_divide; [lia|done].
Qed.

(** [Allocate], for what the system may give it. *)
(** When an allocation of [k] bytes ends the process, and how. *)
Definition ends_process (page page' : NormalPage) (base k : Z) (r : Allocation) : Prop :=
  match r with
  | Allocates _ => False
  | SizeCheckFails => kMaxSize < k
  | SandboxCheckFails =>
      k < kLargeObjectSizeThreshold ∧ (is_full page ∨ refuses page ∧ is_full page')
  | OutOfMemory =>
      k <= kMaxSize ∧
      if kLargeObjectSizeThreshold <=? k then base = nullptr else refuses page ∧ refuses page'
  end.

Lemma wp_Allocate h L page page' base n index :
  gc_inv h L → registered h index → 0 < n → n + 2 * g <= 2 ^ uintptr_bits →
  let k := RoundUp (uw (sizeof_HeapObjectHeader + n)) g in
  page_fresh L page → page_fresh L page' → block_fresh L base k →
  wp (Allocate page page' base n index) (λ r h',
    match r with
    | Allocates p => g + n <= k ∧ allocated_at h L page p k index h'
    | r => ends_process page page' base k r
    end) h.
Proof using P.
  intros Hinv Hreg Hn Hw k Hp Hp' Hb. pose proof granularity_range. pose proof payload_range.
  destruct (RoundUp_size n Hn Hw) as (Ha & Hk1 & Hk2). fold k in Ha, Hk1, Hk2.
  unfold Allocate. fold k. destruct (k <=? kMaxSize) eqn:Emax; zbool; cbn [negb]; [|by wp_step].
  assert (size_ok k) as Hks by (split; [done|lia]).
  destruct (kLargeObjectSizeThreshold <=? k) eqn:El.
  - destruct (decide (base = nullptr)) as [->|Hb0].
    { unfold AllocateLarge. rewrite Z.eqb_refl. wp_step. split; [done|]. by rewrite El. }
    eapply wp_mono; [apply (wp_AllocateLarge h L); [apply Hinv|done|done|lia|done|done]|]. cbn beta.
    intros r h' (-> & L' & Hok & Hnew). split; [done|]. exists L'. split; [by eapply gc_inv_new|].
    left. by rewrite from_start.
  - assert (k <= PayloadSize) as Hkp.
    { zbool. unfold PayloadSize. change kLargeObjectSizeThreshold with 65536 in El. change kPageSize with 131072. lia. }
    eapply wp_mono; [apply (wp_AllocateNormal h L); [done|lia|done..]|]. cbn beta.
    intros [p| | |] h' H'; [done|done|split; [by zbool|done]|]. split; [done|]. by rewrite El.
Qed.
End alloc.
