(* ===== verification/GcDestroy.v ===== *)
(** * Persistents, and the end of the heap

    What [AllocateNode], [FreeNode] and [UpdateOwner] do to the nodes that are in use;
    the free list of nodes always has exactly the other nodes ([region_ok]).  No address
    is that of two objects ([objects_nodup]), and [~Heap] finalizes every object that is
    left ([wp_destroy_heap]). *)
From Stdlib Require Import ZArith Lia Bool.
From stdpp Require Import base list gmap.
From S2P Require Import Prelude Sandbox SandboxProps GcSpace GcSpaceProps Job GcHeap GcMark GcLayout GcSweep GcSweepHeap GcCollect GcProps.

(** A region with room to count its nodes. *)
Definition countable_region (r : PersistentRegion) : Prop :=
  Z.of_nat (length (nodes_ r)) + 256 < 2 ^ 64.

#[local] Existing Instance used_dec.

Definition used_count (nodes : list PersistentNode) : nat := length (filter used nodes).
Definition one_used (n : PersistentNode) : nat := if IsUsed n then 1 else 0.

Lemma used_count_cons n nodes : used_count (n :: nodes) = (one_used n + used_count nodes)%nat.
Proof.
  unfold used_count, one_used. destruct (IsUsed n) eqn:E.
  - by rewrite filter_cons_True.
  - rewrite filter_cons_False; [done|]. unfold used. by rewrite E.
Qed.

Lemma used_count_app l l' : used_count (l ++ l') = (used_count l + used_count l')%nat.
Proof. unfold used_count. by rewrite filter_app, length_app. Qed.

Lemma used_count_insert nodes k x v :
  nodes !! k = Some x → (used_count (<[k := v]> nodes) + one_used x = used_count nodes + one_used v)%nat.
Proof.
  revert k. induction nodes as [|n nodes IH]; intros [|k]; [done..| |].
  - intros [= ->]. change (<[0%nat := v]> (x :: nodes)) with (v :: nodes). rewrite !used_count_cons. lia.
  - intros Hk. change (<[S k := v]> (n :: nodes)) with (n :: <[k := v]> nodes).
    rewrite !used_count_cons. specialize (IH k Hk). lia.
Qed.

Lemma used_count_le nodes : (used_count nodes <= length nodes)%nat.
Proof. unfold used_count. apply length_filter. Qed.

Lemma used_count_pos nodes k o : nodes !! k = Some (UsedNode o) → (0 < used_count nodes)%nat.
Proof.
  intros Hk. pose proof (used_count_insert nodes k _ (FreeNode None) Hk) as E. cbn in E. lia.
Qed.

(** *** The chain of free nodes *)

Lemma chain_set nodes head l k v :
  k ∉ l → node_chain nodes head l → node_chain (<[k := v]> nodes) head l.
Proof.
  revert head. induction l as [|j l IH]; intros head; [done|].
  intros [Hne Hk]%not_elem_of_cons (-> & next & Hj & Hc). split; [done|]. exists next.
  rewrite list_lookup_insert_ne by done. auto.
Qed.

Lemma chain_extend nodes nodes' head l : node_chain nodes head l → node_chain (nodes ++ nodes') head l.
Proof.
  revert head. induction l as [|j l IH]; intros head; [done|]. intros (-> & next & Hj & Hc).
  split; [done|]. exists next. split; [by apply lookup_app_l_Some|auto].
Qed.

Lemma free_nodes_spec n : ∀ nodes head l,
  node_chain nodes head l →
  let r := free_nodes (length nodes) n head in
  length r.1 = n ∧ Forall (λ x, ∃ next, x = FreeNode next) r.1 ∧
  node_chain (nodes ++ r.1) r.2 (rev (seq (length nodes) n) ++ l).
Proof.
  induction n as [|n IH]; intros nodes head l Hc; cbn [free_nodes fst snd].
  { rewrite app_nil_r. auto. }
  destruct (IH (nodes ++ [FreeNode head]) (Some (length nodes)) (length nodes :: l)) as (H1 & H2 & H3).
  { split; [done|]. exists head. split; [by apply list_lookup_middle|by apply chain_extend]. }
  rewrite length_app in *. replace (length nodes + length [FreeNode head])%nat with (S (length nodes)) in * by (cbn; lia).
  cbn. split; [by rewrite H1|]. split; [constructor; eauto|].
  rewrite <- app_assoc in H3. cbn in H3. rewrite <- app_assoc. exact H3.
Qed.

(** ** Operations *)

Definition uses (r : PersistentRegion) (k : nat) (o : Z) : Prop := nodes_ r !! k = Some (UsedNode o).

Lemma region_count r : region_ok r → countable_region r →
  nodes_in_use_ r = Z.of_nat (used_count (nodes_ r)).
Proof.
  intros [_ ->] Hc. unfold countable_region in Hc. fold (used_count (nodes_ r)). pose proof (used_count_le (nodes_ r)).
  apply Z.mod_small. lia.
Qed.

(** Taking the first node of the free list. *)
Lemma wp_TryAllocateNode r owner k l (Q : option nat → PersistentRegion → Prop) :
  node_chain (nodes_ r) (free_list_head_ r) (k :: l) → NoDup (k :: l) →
  (∀ j, j ∈ k :: l ↔ ∃ next, nodes_ r !! j = Some (FreeNode next)) →
  nodes_in_use_ r = u64 (Z.of_nat (used_count (nodes_ r))) →
  (∀ r', region_ok r' → (∀ o, ¬ uses r k o) →
    (∀ j o, uses r' j o ↔ (j = k ∧ o = owner) ∨ uses r j o) → Q (Some k) r') →
  wp (TryAllocateNodeFromFreeList owner) Q r.
Proof.
  intros (Hh & next & Hk & Hc) [Hkl Hnd]%NoDup_cons Hfree Huse HQ.
  unfold TryAllocateNodeFromFreeList. wp_step. rewrite Hh. wp_step. rewrite Hk. wp_step.
  assert (k < length (nodes_ r))%nat as Hlen by (by eapply lookup_lt_Some).
  apply HQ.
  - split; cbn.
    + exists l. split; [by apply chain_set|]. split; [done|]. intros j. destruct (decide (j = k)) as [->|Hne].
      * rewrite list_lookup_insert_eq by done. split; [done|]. by intros [? ?].
      * rewrite list_lookup_insert_ne, <- Hfree, elem_of_cons by done. tauto.
    + rewrite Huse. pose proof (used_count_insert (nodes_ r) k _ (UsedNode owner) Hk) as E. cbn in E.
      fold (used_count (<[k := UsedNode owner]> (nodes_ r))).
      replace (used_count (<[k := UsedNode owner]> (nodes_ r))) with (S (used_count (nodes_ r))) by lia.
      unfold u64. rewrite Z.add_mod_idemp_l by done. f_equal. lia.
  - unfold uses. intros o Ho. congruence.
  - unfold uses. cbn. intros j o. destruct (decide (j = k)) as [->|Hne].
    + rewrite list_lookup_insert_eq by done. split; [intros [= ->]; by left|].
      intros [[_ ->]|E]; [done|congruence].
    + rewrite list_lookup_insert_ne by done. split; [by right|]. by intros [[? _]|?].
Qed.

Lemma wp_AllocateNode r owner (Q : nat → PersistentRegion → Prop) :
  region_ok r →
  (∀ k r', region_ok r' → (∀ o, ¬ uses r k o) →
    (∀ j o, uses r' j o ↔ (j = k ∧ o = owner) ∨ uses r j o) → Q k r') →
  wp (AllocateNode owner) Q r.
Proof.
  intros Hr HQ. destruct (ro_chain _ Hr) as (l & Hc & Hnd & Hl). pose proof (ro_in_use _ Hr) as Hu.
  unfold AllocateNode. wp_step. destruct l as [|k l].
  - cbn in Hc. unfold TryAllocateNodeFromFreeList at 1. wp_step. rewrite Hc. wp_step.
    unfold RefillFreeListAndAllocateNode. wp_step. rewrite Hc.
    destruct (free_nodes_spec kSlots (nodes_ r) None []) as (H1 & H2 & H3); [done|].
    set (f := free_nodes (length (nodes_ r)) kSlots None) in *.
    rewrite app_nil_r in H3. set (n := length (nodes_ r)) in *.
    assert (∀ j, j ∈ rev (seq n kSlots) ↔ ∃ next, (nodes_ r ++ f.1) !! j = Some (FreeNode next)) as Hfr.
    { intros j. rewrite list_elem_of_In, <- in_rev, in_seq. split.
      - intros [Hj1 Hj2]. rewrite lookup_app_r by done.
        destruct (lookup_lt_is_Some_2 f.1 (j - length (nodes_ r))%nat) as [x Hx]; [fold n; lia|].
        rewrite Hx. rewrite Forall_forall in H2. destruct (H2 x) as [next ->]; [by eapply list_elem_of_lookup_2|]. eauto.
      - intros [next Hj]. destruct (decide (j < n)%nat) as [Hlt|Hge].
        + rewrite lookup_app_l in Hj by done. exfalso.
          assert (j ∈ @nil nat) as Hin%elem_of_nil by (apply Hl; eauto). done.
        + apply lookup_lt_Some in Hj. rewrite length_app, H1 in Hj. fold n in Hj. lia. }
    destruct (rev (seq n kSlots)) as [|k l'] eqn:Er; [by apply (f_equal length) in Er; rewrite length_rev, length_seq in Er|].
    assert (∀ j o, (nodes_ r ++ f.1) !! j = Some (UsedNode o) ↔ nodes_ r !! j = Some (UsedNode o)) as Hsame.
    { intros j o. split; [|by apply lookup_app_l_Some]. intros Hj. apply lookup_app_Some in Hj as [?|[_ Hj]]; [done|].
      rewrite Forall_forall in H2. destruct (H2 (UsedNode o)) as [? ?]; [by eapply list_elem_of_lookup_2|done]. }
    apply (wp_TryAllocateNode _ owner k l'); cbn [nodes_ free_list_head_ nodes_in_use_].
    + exact H3.
    + rewrite <- Er. apply NoDup_ListNoDup, NoDup_rev, seq_NoDup.
    + exact Hfr.
    + rewrite Hu. f_equal. fold (used_count (nodes_ r)). rewrite used_count_app.
      assert (used_count f.1 = 0%nat) as ->; [|lia]. clearbody f. clear -H2. induction H2 as [|x t [next ->] _ IH]; [done|].
      by rewrite used_count_cons, IH.
    + intros r' Hr' Hk Hu'. wp_step. apply HQ; [done| |].
      * intros o Ho. apply (Hk o). by apply Hsame.
      * intros j o. rewrite Hu'. unfold uses. cbn [nodes_]. by rewrite Hsame.
  - apply (wp_TryAllocateNode r owner k l); [done..|]. intros r' Hr' Hk Hu'. wp_step. by apply HQ.
Qed.

Lemma wp_FreeNode r k o (Q : unit → PersistentRegion → Prop) :
  region_ok r → countable_region r → uses r k o →
  (∀ r', region_ok r' → (∀ j o', uses r' j o' ↔ uses r j o' ∧ j ≠ k) → Q tt r') →
  wp (FreeNode_ k) Q r.
Proof.
  intros Hr Hcr Hk HQ. destruct (ro_chain _ Hr) as (l & Hc & Hnd & Hl).
  pose proof (region_count r Hr Hcr) as Hu. unfold uses in *. unfold FreeNode_. wp_step. rewrite Hk. wp_step.
  pose proof (used_count_pos _ _ _ Hk) as Hpos.
  rewrite wp_CHECK. split; [apply Z.ltb_lt; lia|]. wp_step.
  assert (k < length (nodes_ r))%nat as Hlen by (by eapply lookup_lt_Some).
  assert (k ∉ l) as Hkl by (rewrite Hl; intros [next ?]; congruence).
  apply HQ.
  - split; cbn.
    + exists (k :: l). split; [|split; [by constructor|]].
      * split; [done|]. exists (free_list_head_ r). split; [by rewrite list_lookup_insert_eq|by apply chain_set].
      * intros j. rewrite elem_of_cons. destruct (decide (j = k)) as [->|Hne].
        -- rewrite list_lookup_insert_eq by done. split; [eauto|by left].
        -- rewrite list_lookup_insert_ne, Hl by done. tauto.
    + pose proof (used_count_insert (nodes_ r) k _ (FreeNode (free_list_head_ r)) Hk) as E. cbn in E.
      fold (used_count (<[k := FreeNode (free_list_head_ r)]> (nodes_ r))).
      unfold countable_region in Hcr. pose proof (used_count_le (nodes_ r)).
      unfold u64. rewrite Z.mod_small by lia. lia.
  - intros j o'. cbn. destruct (decide (j = k)) as [->|Hne].
    + rewrite list_lookup_insert_eq by done. split; [done|tauto].
    + rewrite list_lookup_insert_ne by done. tauto.
Qed.

Lemma wp_UpdateOwner r k o owner (Q : unit → PersistentRegion → Prop) :
  region_ok r → uses r k o →
  (∀ r', region_ok r' → (∀ j o', uses r' j o' ↔ (j = k ∧ o' = owner) ∨ (uses r j o' ∧ j ≠ k)) → Q tt r') →
  wp (UpdateOwner k owner) Q r.
Proof.
  intros Hr Hk HQ. destruct (ro_chain _ Hr) as (l & Hc & Hnd & Hl). unfold uses in *.
  unfold UpdateOwner. wp_step. rewrite Hk. wp_step.
  assert (k < length (nodes_ r))%nat as Hlen by (by eapply lookup_lt_Some).
  assert (k ∉ l) as Hkl by (rewrite Hl; intros [next ?]; congruence).
  apply HQ.
  - split; cbn.
    + exists l. split; [by apply chain_set|]. split; [done|]. intros j. destruct (decide (j = k)) as [->|Hne].
      * rewrite list_lookup_insert_eq by done. split; [done|]. by intros [? ?].
      * by rewrite list_lookup_insert_ne.
    + rewrite (ro_in_use _ Hr). f_equal.
      pose proof (used_count_insert (nodes_ r) k _ (UsedNode owner) Hk) as E. cbn in E.
      fold (used_count (<[k := UsedNode owner]> (nodes_ r))). fold (used_count (nodes_ r)). lia.
  - intros j o'. cbn. destruct (decide (j = k)) as [->|Hne].
    + rewrite list_lookup_insert_eq by done. split; [intros [= ->]; by left|]. by intros [[_ ->]|[_ ?]].
    + rewrite list_lookup_insert_ne by done. split; [by right|]. intros [[? _]|[? _]]; done.
Qed.

(** ** The end of the heap *)

Section destroy.
Context `{Platform} {P : PlatformOk}.

#[local] Abbreviation g := kAllocationGranularity.

(** ** Addresses of objects *)

Lemma blocks_ok_app l l' : blocks_ok (l ++ l') → blocks_ok l ∧ blocks_ok l'.
Proof.
  induction l as [|b l IH]; cbn; [done|]. intros (Hb & Hf & Hl). apply Forall_app in Hf as [? _].
  destruct (IH Hl). auto.
Qed.

Lemma cells_nodup a l : sized l → NoDup (cells_at a l).*1.
Proof using P.
  pose proof granularity_range. intros Hs. revert a. induction Hs as [|c l [Hc _] Hs IH]; intros a; cbn; constructor; [|apply IH].
  intros ([x d] & -> & Hx)%list_elem_of_fmap. apply sized_range in Hx; [|done]. cbn in Hx. lia.
Qed.

Lemma page_objects_nodup S h x : page_tiles S h x → NoDup (page_objects x).
Proof using P.
  intros Ht. pose proof (cells_nodup (memory_ x.1) x.2 (tiles_sized _ _ _ _ _ Ht)) as Hnd.
  unfold page_objects, page_cells. induction (cells_at _ _) as [|[a c] l IH]; [constructor|].
  apply NoDup_cons in Hnd as [Ha Hnd]. destruct c as [n|n|n]; [by apply IH|by apply IH|].
  change (omap object_of ((a, ObjCell n) :: l)) with (a :: omap object_of l). constructor; [|by apply IH].
  intros ([b d] & Hb & E)%list_elem_of_omap. apply Ha, list_elem_of_fmap. exists (b, d). split; [|done].
  destruct d; try done. by injection E as ->.
Qed.

Lemma all_objects_nodup S h pages :
  (∀ x, x ∈ pages → page_tiles S h x) → blocks_ok (page_block <$> pages) → NoDup (all_objects pages).
Proof using P.
  intros Ht. induction pages as [|x pages IH]; [constructor|]. intros (_ & Hf & Hb).
  change (all_objects (x :: pages)) with (page_objects x ++ all_objects pages).
  rewrite Forall_fmap, Forall_forall in Hf. apply NoDup_app. split; [apply (page_objects_nodup S h), Ht; by left|].
  split; [|apply IH; [intros y Hy; apply Ht; by right|done]].
  intros a Ha Hin. apply list_elem_of_In, in_concat in Hin as (l & Hl & Hin).
  apply in_map_iff in Hl as (y & <- & Hy). apply list_elem_of_In in Hy, Hin.
  apply (page_object_range S h) in Ha; [|apply Ht; by left].
  apply (page_object_range S h) in Hin; [|apply Ht; by right].
  pose proof payload_range. specialize (Hf y Hy). unfold apart, page_block in Hf. cbn in Hf. lia.
Qed.

Lemma objects_nodup S h L : heap_shape S h L → NoDup (objects L).
Proof using P.
  intros Hok. pose proof granularity_range. destruct (blocks_ok_app _ _ (ho_blocks _ _ _ Hok)) as [Hbp Hbl].
  unfold objects. apply NoDup_app. split; [|split].
  - apply (all_objects_nodup S h); [|exact Hbp]. intros x Hx. exact (shape_pages _ _ _ _ Hok Hx).
  - intros a Ha ([b n] & -> & Hb)%list_elem_of_fmap. cbn in Ha.
    apply list_elem_of_In, in_concat in Ha as (l & (x & <- & Hx)%in_map_iff & Ha).
    apply list_elem_of_In in Hx, Ha. apply list_elem_of_omap in Ha as ([b' c] & Hc & E).
    destruct c; try done. injection E as ->. destruct (ho_large_ok _ _ _ Hok _ _ Hb) as (_ & _ & _ & _ & _ & ?).
    pose proof (page_cell_range _ _ _ _ _ (shape_pages _ _ _ _ Hok Hx) Hc) as (_ & _ & ?).
    pose proof (cell_large_apart _ _ _ _ _ _ _ _ Hok Hx Hc Hb). cbn in *. lia.
  - pose proof (ho_large_ok _ _ _ Hok) as Hl. clear Hbp. induction (llarge L) as [|[a n] l IH]; [constructor|].
    destruct Hbl as (_ & Hf & Hb). rewrite Forall_forall in Hf. cbn. constructor.
    + intros ([b m] & -> & Hin)%list_elem_of_fmap. specialize (Hf _ Hin). cbn in *.
      destruct (Hl _ n ltac:(by left)) as (_ & _ & _ & _ & _ & ?).
      destruct (Hl _ m ltac:(by right)) as (_ & _ & _ & _ & _ & ?). unfold apart in Hf. cbn in Hf. lia.
    + apply IH; [done|]. intros b m Hm. apply Hl. by right.
Qed.

(** ** [~Heap] *)

Record tearing (S : gset Z) (h : Heap) (td : list (NormalPage * list Cell)) (lt : list (Z * Z)) : Prop := {
  te_pages : ∀ x, x ∈ td → page_tiles S h x;
  te_large : ∀ a n, (a, n) ∈ lt → large_ok S h a n;
  te_blocks : blocks_ok ((page_block <$> td) ++ lt);
  te_lab : lab_size h = 0
}.

Lemma live_empty o : live ∅ o = [].
Proof.
  unfold live. induction o as [|a o IH]; [done|]. rewrite filter_cons_False; [done|]. apply not_elem_of_empty.
Qed.

Lemma dead_empty o : dead ∅ o = o.
Proof.
  unfold dead. induction o as [|a o IH]; [done|]. rewrite filter_cons_True; [by rewrite IH|]. apply not_elem_of_empty.
Qed.

Lemma wp_finalize_page S e l : ∀ fuel h a (Q : unit → Heap → Prop),
  tiles S h a l e → lab_size h = 0 → (length l <= fuel)%nat →
  Q tt (swept ∅ (omap object_of (cells_at a l)) h) → wp (finalize_page fuel e a) Q h.
Proof using P.
  pose proof granularity_range as Hg.
  induction l as [|c l IH]; intros fuel h a Q Ht Hlab Hf HQ.
  { destruct Ht as [He _]. cbn in He. subst e. destruct fuel; cbn [finalize_page]; rewrite Z.ltb_irrefl;
      wp_step; cbn in HQ; by rewrite swept_nil in HQ. }
  destruct fuel as [|fuel]; [simpl in Hf; lia|]. pose proof (tiles_sized _ _ _ _ _ Ht) as Hs.
  pose proof (Forall_inv Hs) as [Hc0 _]. pose proof (Forall_inv_tail Hs) as Hs'.
  destruct (tiles_cons _ _ _ _ _ _ Ht) as [Hc Ht']. destruct Ht as [He _].
  change (cells_end a (c :: l)) with (cells_end (a + csize c) l) in He.
  pose proof (sized_end (a + csize c) l Hs'). cbn [finalize_page].
  rewrite (proj2 (Z.ltb_lt a e)) by lia. unfold header_at. wp_step.
  destruct c as [n|n|n]; cbn [csize cell_ok] in *; [lia|..].
  - destruct Hc as [(Hh & Hn & Hi) _]. rewrite Hh. wp_step. rewrite header_free by done. cbn. wp_step.
    rewrite header_size, set_space_same by done. apply IH; [done|done|simpl in Hf; lia|exact HQ].
  - destruct Hc as (i & b & Hd & Hi & Hinfo & _). pose proof Hd as (Hh & Hn & Hix).
    rewrite Hh. wp_step. rewrite header_free by done. change kFreeListGCInfoIndex with 0 in Hi.
    rewrite (proj2 (Z.eqb_neq i 0)) by lia. rewrite set_space_same.
    apply (wp_Finalize ∅ h a i n b (bool_decide (ObjectStart a ∈ S))); [done|done|done|apply not_elem_of_empty|].
    wp_step. rewrite header_size by done. apply IH; [|done|simpl in Hf; lia|by rewrite swept_app].
    apply (tiles_frame S S h); [done..|]. intros x d Hx. split; [|done]. apply swept_others.
    intros ->%list_elem_of_singleton. apply sized_range in Hx; [|done]. lia.
Qed.

Lemma tearing_page S h h' x td lt :
  tearing S h (x :: td) lt → outside (page_block x) h h' → rest h' = rest h → tearing S h' td lt.
Proof using P.
  intros [T1 T2 (_ & Hf & Hb) T4] Ho Hr. rewrite Forall_forall in Hf. split; [| |done|].
  - intros y Hy. apply (page_tiles_outside _ h _ (page_block x)); [apply T1; by right|done| |done].
    apply Hf, elem_of_app. left. by apply list_elem_of_fmap_2.
  - intros a n Ha. apply (large_ok_outside _ h _ (page_block x)); [by apply T2|done| |done].
    apply Hf, elem_of_app. by right.
  - injection Hr as ????????. congruence.
Qed.

Lemma wp_finalize_pages S lt td : ∀ h (Q : unit → Heap → Prop),
  tearing S h td lt →
  (∀ h', tearing S h' [] lt → effect ∅ (all_objects td) h h' → kept (page_block <$> td) h h' → Q tt h') →
  wp (finalize_pages td.*1) Q h.
Proof using P.
  induction td as [|x td IH]; intros h Q Hte HQ; cbn [fmap list_fmap finalize_pages].
  { wp_step. apply HQ; [done|apply effect_nil|by intros y _]. }
  pose proof (te_pages _ _ _ _ Hte x ltac:(by left)) as Ht. pose proof granularity_range as Hg.
  pose proof payload_range as Hpr. wp_step.
  apply (wp_finalize_page S _ x.2); [exact Ht|apply Hte| |].
  { pose proof (sized_length (memory_ x.1) x.2 (tiles_sized _ _ _ _ _ Ht)) as Hs.
    rewrite (proj1 Ht) in Hs. unfold PayloadEnd in Hs.
    apply Nat2Z.inj_le. rewrite Z2Nat.id by (apply Z.div_pos; lia).
    apply Z.div_le_lower_bound; lia. }
  wp_step. unfold Destroy. wp_step. fold (page_objects x). set (h1 := set_space _ _).
  assert (outside (page_block x) h h1) as Ho.
  { intros y Hy. cbn in Hy. unfold h1. cbn [space set_space clobber_space headers set_headers].
    etransitivity; [by apply lookup_clobber|]. apply swept_others. intros Hin.
    eapply page_object_range in Hin; [|done]. lia. }
  apply IH; [by apply (tearing_page S h h1 x)|]. intros h' Hte' He Hk.
  destruct (te_blocks _ _ _ _ Hte) as (_ & Hf & _). rewrite Forall_forall in Hf.
  apply HQ; [done| |by apply (kept_cons _ _ h h1 h')].
  change (all_objects (x :: td)) with (page_objects x ++ all_objects td).
  apply (effect_app ∅ _ _ h h1 h'); [|done| |].
  - apply effect_space; [apply effect_swept|]. intros a _ Ha. by apply not_elem_of_empty in Ha.
  - intros a Ha. apply Ho. apply list_elem_of_In, in_concat in Ha as (l & (y & <- & Hy)%in_map_iff & Ha).
    apply list_elem_of_In in Hy, Ha.
    eapply page_object_range in Ha; [|by apply (te_pages _ _ _ _ Hte); right].
    specialize (Hf (page_block y) ltac:(apply elem_of_app; left; by apply list_elem_of_fmap_2)).
    unfold apart, page_block in *. cbn in *. lia.
  - intros a Ha. apply Hk, Forall_forall. intros b (y & -> & Hy)%list_elem_of_fmap.
    eapply page_object_range in Ha; [|done].
    specialize (Hf (page_block y) ltac:(apply elem_of_app; left; by apply list_elem_of_fmap_2)).
    unfold apart, page_block in *. cbn in *. lia.
Qed.

Lemma wp_finalize_large S lt : ∀ h (Q : unit → Heap → Prop),
  tearing S h [] lt →
  (∀ h', effect ∅ lt.*1 h h' → kept lt h h' → Q tt h') →
  wp (finalize_large lt.*1) Q h.
Proof using P.
  induction lt as [|[a n] lt IH]; intros h Q Hte HQ; cbn [fmap list_fmap finalize_large fst].
  { wp_step. apply HQ; [apply effect_nil|by intros y _]. }
  pose proof granularity_range as Hg.
  destruct (te_large _ _ _ _ Hte a n) as (i & b & Hd & Hi & Hinfo & Hgn); [by left|].
  pose proof Hd as (Hh & Hn & Hix). destruct (te_blocks _ _ _ _ Hte) as (_ & Hf & Hb). cbn in Hf, Hb.
  rewrite Forall_forall in Hf. unfold header_at. wp_step. rewrite Hh. wp_step. rewrite set_space_same.
  apply (wp_Finalize ∅ h a i n b (bool_decide (ObjectStart a ∈ S))); [done|done|done|apply not_elem_of_empty|].
  wp_step. rewrite header_size by done. set (h1 := set_space _ _).
  assert (outside (a, n) h h1) as Ho.
  { intros y Hy. cbn in Hy. unfold h1. cbn [space set_space clobber_space headers set_headers].
    etransitivity; [by apply lookup_clobber|]. apply swept_others. intros ->%list_elem_of_singleton. lia. }
  assert (∀ b m, (b, m) ∈ lt → 0 < m) as Hpos.
  { intros c m Hc. destruct (te_large _ _ _ _ Hte c m) as (_ & _ & _ & _ & _ & ?); [by right|lia]. }
  apply IH.
  - split; [by intros y Hy%elem_of_nil| |done|apply Hte].
    intros c m Hc. apply (large_ok_outside _ h _ (a, n)); [apply (te_large _ _ _ _ Hte); by right|done|by apply Hf|done].
  - intros h' He Hk. apply HQ; [|by apply (kept_cons _ _ h h1 h')].
    change ((a, n) :: lt).*1 with ([a] ++ lt.*1). apply (effect_app ∅ _ _ h h1 h'); [|done| |].
    + apply effect_space; [apply effect_swept|]. intros z _ Hz. by apply not_elem_of_empty in Hz.
    + intros y ([c m] & -> & Hc)%list_elem_of_fmap. apply Ho. specialize (Hf _ Hc). pose proof (Hpos _ _ Hc).
      unfold apart in Hf. cbn in *. lia.
    + intros y ->%list_elem_of_singleton. apply Hk, Forall_forall. intros [c m] Hc. specialize (Hf _ Hc).
      pose proof (Hpos _ _ Hc). unfold apart in Hf. cbn in *. lia.
Qed.

Lemma wp_destroy_heap S h L (Q : unit → Heap → Prop) :
  heap_ok S h L → (∀ p, is_Some (fields h !! p) → FromObject p ∈ objects L) →
  (∀ h', normal_pages_ h' = [] → large_objects_ h' = [] → fields h' = ∅ → gc_infos h' = gc_infos h →
    finalized h' = finalized h ++ finalizable h (objects L) → Q tt h') →
  wp destroy_heap Q h.
Proof using P.
  intros Hok Hf HQ. unfold destroy_heap. wp_step.
  apply (wp_ReplaceLinearAllocationBuffer S h L); [done|]. intros s Hok1 Hs. wp_step.
  set (h1 := set_lab nullptr 0 (set_space s h)) in *.
  assert (tearing S h1 (lpages (retired L)) (llarge (retired L))) as Hte.
  { split; [|apply Hok1|apply Hok1|done]. intros x Hx. exact (shape_pages _ _ _ _ Hok1 Hx). }
  assert (normal_pages_ h1 = (lpages (retired L)).*1) as -> by apply (ho_pages _ _ _ Hok1).
  apply (wp_finalize_pages S (llarge L)); [exact Hte|]. intros h2 Hte2 He2 Hk2. wp_step.
  pose proof (ef_rest _ _ _ _ He2) as Hr2. injection Hr2 as R1 R2 R3 R4 R5 R6 R7 R8.
  assert (large_objects_ h1 = (llarge L).*1) as -> by apply (ho_large _ _ _ Hok1).
  apply (wp_finalize_large S (llarge L)).
  { destruct Hte2. by split. }
  intros h3 He3 Hk3. wp_step. pose proof (ef_rest _ _ _ _ He3) as Hr3. injection Hr3 as T1 T2 T3 T4 T5 T6 T7 T8.
  assert (effect ∅ (all_objects (lpages (retired L))) (set_pages [] h1) (set_pages [] h2)) as He2'.
  { destruct He2. split; try done. unfold rest. cbn. congruence. }
  pose proof (effect_pages_large S ∅ h1 (retired L) _ _ h3 Hok1 He2' He3 Hk2 Hk3) as He.
  rewrite retired_objects in He.
  apply HQ; [cbn; by rewrite T1|done| |cbn; by rewrite T5, R5|].
  - cbn. rewrite (ef_fields _ _ _ _ He). cbn. apply map_eq. intros p. rewrite lookup_remove, lookup_empty, dead_empty.
    destruct (decide _) as [|Hn]; [done|]. destruct (fields h !! p) eqn:E; [|done]. exfalso. apply Hn, Hf. by eexists.
  - etransitivity; [exact (ef_finalized _ _ _ _ He)|]. cbn. f_equal. rewrite dead_empty.
    apply finalizable_frame; [done|]. intros a Ha. cbn. apply Hs. exact (object_not_lab _ _ _ _ Hok Ha).
Qed.
End destroy.
