(* ===== verification/GcSteps.v ===== *)
(** * What a program does with the heap

    Every operation of a program on the heap keeps the invariant ([gc_inv]), and so do
    all sequences of them ([gc_step], [gc_run]). *)
From Stdlib Require Import ZArith Lia Bool.
From stdpp Require Import base list gmap.
From S2P Require Import Prelude Sandbox SandboxProps GcSpace GcSpaceProps Job GcHeap GcMark GcLayout GcSweep GcSweepHeap GcCollect GcProps GcAlloc GcDestroy.

Section steps.
Context `{Platform} {P : PlatformOk}.

#[local] Abbreviation g := kAllocationGranularity.

(** ** Persistents *)

Definition node_at (h : Heap) (o : Z) (b : bool) (k : nat) : Prop :=
  ∃ p, persistents h !! o = Some p ∧ IsStrongPersistent p = b ∧ node_ p = Some k.

(** The regions without the persistent [this]. *)
Definition regions_except (this : Z) (h : Heap) : Prop :=
  (∀ b, region_ok (GetPersistentRegion b h)) ∧
  ∀ b k o, uses (GetPersistentRegion b h) k o ↔ node_at h o b k ∧ o ≠ this.

Definition values_ok (h : Heap) : Prop :=
  ∀ o p, persistents h !! o = Some p → value_ p ≠ nullptr → is_Some (node_ p).

Lemma regions_put this p h :
  (∀ b, region_ok (GetPersistentRegion b h)) →
  (∀ b k o, uses (GetPersistentRegion b h) k o ↔
    (node_at h o b k ∧ o ≠ this) ∨ (o = this ∧ IsStrongPersistent p = b ∧ node_ p = Some k)) →
  values_ok h → (value_ p ≠ nullptr → is_Some (node_ p)) →
  regions_ok (set_persistents (<[this := p]> (persistents h)) h).
Proof.
  intros Hr Hu Hv Hp. split.
  - intros b. apply (Hr b).
  - intros b k o. etransitivity; [exact (Hu b k o)|]. cbn. destruct (decide (o = this)) as [->|Hne].
    + rewrite lookup_insert_eq. split; [intros [[_ ?]|(_ & ? & ?)]; [done|eauto]|].
      intros (q & [= <-] & ? & ?). by right.
    + rewrite lookup_insert_ne by done. unfold node_at. split; [intros [[? _]|[? _]]; done|]. by left.
  - intros o q. cbn. destruct (decide (o = this)) as [->|Hne].
    + rewrite lookup_insert_eq. by intros [= <-].
    + rewrite lookup_insert_ne by done. apply Hv.
Qed.

Definition countable (h : Heap) : Prop := ∀ b, countable_region (GetPersistentRegion b h).

Lemma set_region_same b h : set_region b (GetPersistentRegion b h) h = h.
Proof. by destruct b, h. Qed.

Lemma region_set b b' r h :
  GetPersistentRegion b' (set_region b r h) = if decide (b' = b) then r else GetPersistentRegion b' h.
Proof. by destruct b, b'. Qed.

Lemma uses_owner h : regions_ok h → ∀ b k o, uses (GetPersistentRegion b h) k o ↔ node_at h o b k.
Proof. intros Hr b k o. apply (rs_nodes h Hr). Qed.

Lemma wp_free_node_of h this p (Q : unit → Heap → Prop) :
  regions_ok h → countable h → persistents h !! this = Some p →
  (∀ r, regions_except this (set_region (IsStrongPersistent p) r h) →
    Q tt (set_region (IsStrongPersistent p) r h)) →
  wp (free_node_of p) Q h.
Proof.
  intros Hr Hc Hp HQ. pose proof (uses_owner h Hr) as Hu. unfold free_node_of.
  destruct (node_ p) as [k|] eqn:Ek; wp_step.
  - assert (uses (GetPersistentRegion (IsStrongPersistent p) h) k this) as Hk.
    { apply Hu. by exists p. }
    apply (wp_FreeNode _ k this); [apply Hr|apply Hc|exact Hk|]. intros r Hr' Hu'. apply HQ. split.
    + intros b. rewrite region_set. destruct (decide _); [done|apply Hr].
    + intros b j o. rewrite region_set. destruct (decide (b = _)) as [->|Hne].
      * rewrite Hu', Hu. split; intros [(q & Hq & Hs & Hn) Hne]; (split; [by exists q|]).
        -- intros ->. congruence.
        -- intros ->. assert (uses (GetPersistentRegion (IsStrongPersistent p) h) k o) as Hk2 by (apply Hu; by exists q).
           unfold uses in *. congruence.
      * rewrite Hu. split; [|by intros [? _]]. intros (q & Hq & Hs & Hn). split; [by exists q|].
        intros ->. congruence.
  - specialize (HQ (GetPersistentRegion (IsStrongPersistent p) h)). rewrite set_region_same in HQ.
    apply HQ. split; [apply Hr|]. intros b k o. rewrite Hu. split; [|by intros [? _]].
    intros (q & Hq & Hs & Hn). split; [by exists q|]. intros ->. congruence.
Qed.

(** The graph after a change of one persistent. *)
Lemma graph_put this p h :
  graph_ok h → (value_ p ≠ nullptr → is_Some (fields h !! value_ p)) →
  graph_ok (set_persistents (<[this := p]> (persistents h)) h).
Proof.
  intros [G1 G2 G3] Hp. split; [done|done|]. intros o q. cbn. destruct (decide (o = this)) as [->|Hne].
  - rewrite lookup_insert_eq. by intros [= <-].
  - rewrite lookup_insert_ne by done. apply G3.
Qed.

(** What the layout depends on. *)
Lemma heap_ok_frame S h h' L :
  heap_ok S h L → space h' = space h → normal_pages_ h' = normal_pages_ h →
  large_objects_ h' = large_objects_ h → lab_start h' = lab_start h → lab_size h' = lab_size h →
  gc_infos h' = gc_infos h → heap_ok S h' L.
Proof.
  intros [[H1 H2 H3 H4 H5 H6 H7] (ls & Hfl & Hls)] E1 E2 E3 E4 E5 E6. split; [split|]; rewrite ?E2, ?E3, ?E4, ?E5; try done.
  - intros x Hx. apply (tiles_frame S S h); [by apply H3|done..|]. by rewrite E1.
  - intros a n Ha. unfold large_ok. rewrite E1, E6. by apply H4.
  - exists ls. by rewrite E1.
Qed.

Lemma inv_persistents h L h' :
  gc_inv h L → space h' = space h → normal_pages_ h' = normal_pages_ h →
  large_objects_ h' = large_objects_ h → lab_start h' = lab_start h → lab_size h' = lab_size h →
  gc_infos h' = gc_infos h → fields h' = fields h → graph_ok h' → regions_ok h' → gc_inv h' L.
Proof.
  intros [I1 I2 I3 I4] E1 E2 E3 E4 E5 E6 E7 Hg Hr. split; [by apply (heap_ok_frame _ h)|done|done|].
  by rewrite E7.
Qed.

(** Nothing is finalized and no object changes its type. *)
Definition quiet (L : Layout) (h h' : Heap) : Prop :=
  gc_infos h' = gc_infos h ∧ finalized h' = finalized h ∧
  ∀ a, a ∈ objects L →
    GetGCInfoIndex <$> headers (space h') !! a = GetGCInfoIndex <$> headers (space h) !! a.

Definition valid (h : Heap) (raw : Z) : Prop := raw = nullptr ∨ is_Some (fields h !! raw).

Lemma wp_new_persistent h L this strong (Q : unit → Heap → Prop) :
  gc_inv h L → persistents h !! this = None →
  (∀ h', gc_inv h' L → quiet L h h' → fields h' = fields h → Q tt h') → wp (new_persistent this strong) Q h.
Proof.
  intros Hinv Hp HQ. unfold new_persistent. wp_step. pose proof (gi_regions _ _ Hinv) as Hr.
  apply HQ; [|by split_and!|done]. apply (inv_persistents h); try done; [by apply graph_put; [apply Hinv|]|].
  apply regions_put; [apply Hr| |exact (rs_value h Hr)|done]. intros b k o. rewrite (uses_owner h Hr). split.
  - intros (q & Hq & Hs). left. split; [by exists q|]. intros ->. congruence.
  - intros [[? _]|(_ & _ & ?)]; done.
Qed.

Lemma put_empty h this (b : bool) : regions_except this h → values_ok h →
  regions_ok (set_persistents (<[this := mkPersistent b nullptr None]> (persistents h)) h).
Proof.
  intros [H1 H2] Hv. apply regions_put; [done| |done|done]. intros b' k o. rewrite H2. cbn.
  split; [by left|]. intros [?|(_ & _ & ?)]; done.
Qed.

Lemma wp_Clear_persistent h L this (Q : unit → Heap → Prop) :
  gc_inv h L → countable h → is_Some (persistents h !! this) →
  (∀ h', gc_inv h' L → quiet L h h' → fields h' = fields h →
    (∃ b, persistents h' = <[this := mkPersistent b nullptr None]> (persistents h)) →
    Q tt h') → wp (Clear_persistent this) Q h.
Proof.
  intros Hinv Hc [p Hp] HQ. pose proof (gi_regions _ _ Hinv) as Hr. unfold Clear_persistent. wp_step.
  rewrite Hp. wp_step. apply (wp_free_node_of h this p); [done|done|done|]. intros r Hex.
  unfold put_persistent. wp_step. apply HQ; [|by split_and!|done|by eexists]. apply (inv_persistents h); try done.
  - apply (graph_put this); [|done]. by apply (graph_frame h); [..|apply Hinv].
  - apply put_empty; [done|exact (rs_value h Hr)].
Qed.

Lemma wp_Assign h L this raw (Q : unit → Heap → Prop) :
  gc_inv h L → countable h → is_Some (persistents h !! this) → valid h raw →
  (∀ h' b k, gc_inv h' L → quiet L h h' → fields h' = fields h →
    persistents h' = <[this := mkPersistent b raw k]> (persistents h) → Q tt h') →
  wp (Assign this raw) Q h.
Proof.
  intros Hinv Hc [p Hp] Hraw HQ. pose proof (gi_regions _ _ Hinv) as Hr. unfold Assign. wp_step.
  rewrite Hp. wp_step. apply (wp_free_node_of h this p); [done|done|done|]. intros r Hex.
  set (b := IsStrongPersistent p) in *. set (h1 := set_region b r h) in *.
  assert (graph_ok h1) as Hg1 by (by apply (graph_frame h); [..|apply Hinv]).
  destruct (raw =? nullptr) eqn:E; zbool.
  - unfold put_persistent. wp_step. subst raw. apply (HQ _ b None); [|by split_and!|done|done].
    apply (inv_persistents h); try done; [by apply (graph_put this)|]. apply put_empty; [done|exact (rs_value h Hr)].
  - destruct Hraw as [?|Hraw]; [done|]. destruct Hex as [Hro Hu]. wp_step.
    apply wp_AllocateNode; [apply Hro|]. intros k r' Hr' Hk Hu'. unfold put_persistent. wp_step.
    apply (HQ _ b (Some k)); [|by split_and!|done|done]. set (h2 := set_region b r' h1).
    apply (inv_persistents h); try done.
    + apply (graph_put this); [|done]. by apply (graph_frame h1).
    + apply (regions_put this _ h2); [| |exact (rs_value h Hr)|by eexists].
      * intros b'. unfold h2. rewrite region_set. destruct (decide _); [done|apply Hro].
      * intros b' j o. unfold h2. rewrite region_set. cbn [IsStrongPersistent node_].
        destruct (decide (b' = b)) as [->|Hne].
        -- rewrite Hu', Hu. split; [intros [[-> ->]|?]; [by right|by left]|].
           intros [?|(-> & _ & [= ->])]; [by right|by left].
        -- rewrite Hu. split; [by left|]. intros [?|(_ & ? & _)]; [done|congruence].
Qed.

Lemma wp_Move h L this other (Q : unit → Heap → Prop) :
  gc_inv h L → persistents h !! this = None → is_Some (persistents h !! other) →
  (∀ h', gc_inv h' L → quiet L h h' → fields h' = fields h → Q tt h') → wp (Move this other) Q h.
Proof.
  intros Hinv Hthis [p Hp] HQ. pose proof (gi_regions _ _ Hinv) as Hr. pose proof (uses_owner h Hr) as Hu.
  assert (this ≠ other) as Hne by (intros ->; congruence). set (b := IsStrongPersistent p).
  unfold Move. wp_step. rewrite Hp. wp_step.
  assert (∀ h1, (∀ b, region_ok (GetPersistentRegion b h1)) →
    (∀ b' k o, uses (GetPersistentRegion b' h1) k o ↔
      (node_at h o b' k ∧ o ≠ other) ∨ (o = this ∧ b' = b ∧ node_ p = Some k)) →
    (∃ r, h1 = set_region b r h) →
    wp (put_persistent this p ;; put_persistent other (mkPersistent b nullptr None)) Q h1) as Hk.
  { intros h1 Hro Hu1 [r ->]. unfold put_persistent. wp_step. apply HQ; [|by split_and!|done].
    pose proof (rs_value h Hr : values_ok h) as Hv.
    set (h2 := set_persistents (<[this := p]> (persistents h)) (set_region b r h)).
    apply (inv_persistents h); try done.
    - apply (graph_put other _ h2); [|done]. apply (graph_put this p (set_region b r h)).
      + by apply (graph_frame h); [..|apply Hinv].
      + intros Hvp. by apply (go_persistent h (gi_graph _ _ Hinv) other).
    - apply (regions_put other _ h2); [exact Hro| |..].
      + intros b' k o. etransitivity; [exact (Hu1 b' k o)|]. unfold node_at, h2. cbn. split.
        * intros [[(q & Hq & Hs & Hn) Ho]|(-> & -> & Hn)]; left; (split; [|done]).
          -- exists q. split; [|done]. rewrite lookup_insert_ne; [done|]. intros ->. congruence.
          -- exists p. by rewrite lookup_insert_eq.
        * intros [[(q & Hq & Hs & Hn) Ho]|(_ & _ & ?)]; [|done]. destruct (decide (o = this)) as [->|Hot].
          -- rewrite lookup_insert_eq in Hq. injection Hq as <-. right. by subst b'.
          -- rewrite lookup_insert_ne in Hq by done. left. split; [|done]. by exists q.
      + intros o q. cbn. destruct (decide (o = this)) as [->|Hot].
        * rewrite lookup_insert_eq. intros [= <-]. by apply Hv with other.
        * rewrite lookup_insert_ne by done. apply Hv.
      + done. }
  destruct (node_ p) as [k|] eqn:Ek; wp_step.
  - assert (uses (GetPersistentRegion b h) k other) as Hko by (apply Hu; by exists p).
    apply (wp_UpdateOwner _ k other); [apply Hr|done|]. intros r Hr' Hu'. apply Hk; [| |by exists r].
    + intros b'. rewrite region_set. destruct (decide _); [done|apply Hr].
    + intros b' j o. rewrite region_set. fold b. destruct (decide (b' = b)) as [->|Hnb].
      * rewrite Hu', Hu. split.
        -- intros [[-> ->]|[(q & Hq & Hs & Hn) Hjk]]; [by right|left]. split; [by exists q|]. intros ->. congruence.
        -- intros [[(q & Hq & Hs & Hn) Ho]|(-> & _ & [= ->])]; [right|by left]. split; [by exists q|].
           intros ->. assert (uses (GetPersistentRegion b h) k o) as Hk2 by (apply Hu; by exists q).
           unfold uses in *. congruence.
      * rewrite Hu. split; [|intros [[? _]|(_ & ? & _)]; done]. intros (q & Hq & Hs & Hn). left.
        split; [by exists q|]. intros ->. apply Hnb. unfold b. congruence.
  - apply Hk; [apply Hr| |exists (GetPersistentRegion b h); by rewrite set_region_same].
    intros b' k o. rewrite Hu. split; [|intros [[? _]|(_ & _ & ?)]; done]. intros (q & Hq & Hs & Hn). left.
    split; [by exists q|]. intros ->. congruence.
Qed.

(** ** Objects lie apart *)

Lemma large_apart S h L a n b m :
  heap_shape S h L → (a, n) ∈ llarge L → (b, m) ∈ llarge L →
  (a = b ∧ n = m) ∨ a + n <= b ∨ b + m <= a.
Proof using P.
  intros Hok Ha Hb. pose proof (ho_blocks _ _ _ Hok) as Hbl. unfold blocks in Hbl.
  apply elem_of_Permutation in Ha as [l Hl]. rewrite Hl, <- Permutation_middle in Hbl. cbn in Hbl.
  destruct Hbl as (_ & Hbl & _). rewrite Forall_forall in Hbl. rewrite Hl in Hb.
  apply elem_of_cons in Hb as [[= -> ->]|Hb]; [by left|right].
  exact (Hbl (b, m) ltac:(apply elem_of_app; by right)).
Qed.

(** [z] is the address of a cell or large object. *)
Definition in_layout (L : Layout) (z : Z) : Prop :=
  (∃ x d, x ∈ lpages L ∧ (z, d) ∈ page_cells x) ∨ ∃ n, (z, n) ∈ llarge L.

Lemma object_in_layout L a : a ∈ objects L → in_layout L a.
Proof. intros [(x & n & Hx & Ha)|?]%elem_of_objects; [left; eauto|by right]. Qed.

Lemma object_apart S h L a i n b m z :
  heap_shape S h L → a ∈ objects L → hdr (space h) a i n b m → in_layout L z → z ≤ a ∨ a + n <= z.
Proof using P.
  intros Hok Ha Hd Hz. pose proof granularity_range. apply elem_of_objects in Ha as [(x & k & Hx & Hc)|[k Hk]].
  - destruct (proj2 (shape_pages _ _ _ _ Hok Hx) _ _ Hc) as (i' & b' & Hd' & _).
    assert (k = n) as -> by (by eapply hdr_size_inj). destruct Hz as [(y & d & Hy & Hz)|[k Hk]].
    + pose proof (page_cell_range _ _ _ _ _ (shape_pages _ _ _ _ Hok Hy) Hz) as (_ & _ & ?).
      destruct (cells_apart _ _ _ _ _ _ _ _ _ Hok Hx Hy Hc Hz) as [[-> _]|?]; cbn in *; lia.
    + destruct (ho_large_ok _ _ _ Hok _ _ Hk) as (_ & _ & _ & _ & _ & ?).
      pose proof (cell_large_apart _ _ _ _ _ _ _ _ Hok Hx Hc Hk). cbn in *. lia.
  - destruct (ho_large_ok _ _ _ Hok _ _ Hk) as (i' & b' & Hd' & _ & _ & ?).
    assert (k = n) as -> by (by eapply hdr_size_inj). destruct Hz as [(y & d & Hy & Hz)|[k' Hk']].
    + pose proof (page_cell_range _ _ _ _ _ (shape_pages _ _ _ _ Hok Hy) Hz) as (_ & _ & ?).
      pose proof (cell_large_apart _ _ _ _ _ _ _ _ Hok Hy Hz Hk). lia.
    + destruct (ho_large_ok _ _ _ Hok _ _ Hk') as (_ & _ & _ & _ & _ & ?).
      destruct (large_apart _ _ _ _ _ _ _ Hok Hk Hk') as [[-> _]|?]; lia.
Qed.

(** The layout depends on the headers and links of its cells only. *)
Lemma heap_ok_space S h s L :
  heap_ok S h L →
  (∀ z, in_layout L z → headers s !! z = headers (space h) !! z ∧ nexts s !! z = nexts (space h) !! z) →
  free_list_heads_ s = free_list_heads_ (space h) → free_list_tails_ s = free_list_tails_ (space h) →
  biggest_free_list_index_ s = biggest_free_list_index_ (space h) →
  heap_ok S (set_space s h) L.
Proof.
  intros [[H1 H2 H3 H4 H5 H6 H7] (ls & Hfl & Hls)] Hs E1 E2 E3. split; [split|]; try done.
  - intros x Hx. apply (tiles_frame S S h); [by apply H3|done..|]. intros a c Ha. split; [|done].
    apply Hs. left. eauto.
  - intros a n Ha. destruct (H4 a n Ha) as (i & b & (Hd & Hn) & Hr). exists i, b. split; [|done]. split; [|done].
    rewrite <- Hd. apply Hs. right. eauto.
  - exists ls. split; [|done]. apply (fl_frame (space h)); [done..| |done]. intros e (x & n & Hx & Hc & _)%Hls.
    apply Hs. left. eauto.
Qed.

(** ** Objects and members *)

Definition members_valid (h : Heap) (self : Z) (l : list BasicMember) : Prop :=
  ∀ m, m ∈ l → member_tag m ≠ UntracedMemberTag → storage_ m = self ∨ valid h (storage_ m).

Lemma graph_construct h s p members :
  graph_ok h → p ≠ nullptr → (∃ i n c, hdr s (FromObject p) i n c false) →
  (∀ q, is_Some (fields h !! q) → headers s !! FromObject q = headers (space h) !! FromObject q) →
  members_valid h p members →
  graph_ok (set_fields (<[p := members]> (fields h)) (set_space s h)).
Proof.
  intros [G1 G2 G3] Hp Hd Hs Hm.
  assert (∀ q, is_Some (fields h !! q) → is_Some (<[p := members]> (fields h) !! q)) as Hsome.
  { intros q Hq. destruct (decide (q = p)) as [->|]; [rewrite lookup_insert_eq; by eexists|by rewrite lookup_insert_ne]. }
  split; cbn.
  - intros q Hq. destruct (decide (q = p)) as [->|Hne]; [done|]. rewrite lookup_insert_ne in Hq by done.
    destruct (G1 q Hq) as (? & i & n & c & Hh & Hn). split; [done|]. exists i, n, c. split; [|done].
    by rewrite Hs.
  - intros q l m. destruct (decide (q = p)) as [->|Hne].
    + rewrite lookup_insert_eq. intros [= <-] Hin Ht Hn. destruct (Hm m Hin Ht) as [->|[?|?]]; [|done|by apply Hsome].
      rewrite lookup_insert_eq. by eexists.
    + rewrite lookup_insert_ne by done. intros Hl Hin Ht Hn. apply Hsome. by eapply G2.
  - intros o q Ho Hv. apply Hsome. by eapply G3.
Qed.

Lemma fields_regions f h : regions_ok h → regions_ok (set_fields f h).
Proof. by intros []. Qed.

Lemma space_regions s h : regions_ok h → regions_ok (set_space s h).
Proof. by intros []. Qed.

Lemma wp_construct_object h L p members (Q : unit → Heap → Prop) :
  gc_inv h L → FromObject p ∈ objects L → members_valid h p members →
  (∀ h', gc_inv h' L → quiet L h h' → fields h' = <[p := members]> (fields h) → Q tt h') →
  wp (construct_object p members) Q h.
Proof using P.
  intros [Hok Hg Hr Hf] Hp Hm HQ. pose proof granularity_range as Hgr.
  destruct (object_hdr _ _ _ _ Hok Hp) as (i & n & b & Hd & Hi & _). pose proof Hd as (Hh & Hn & _).
  unfold construct_object, header_at. wp_step. rewrite Hh. wp_step. rewrite set_space_same.
  unfold ObjectSize. rewrite header_size by done.
  set (s := clobber_space _ _ _). set (h1 := set_space s h).
  assert (∀ z, in_layout L z → headers s !! z = headers (space h) !! z ∧ nexts s !! z = nexts (space h) !! z) as Hs.
  { intros z Hz. pose proof (object_apart _ _ _ _ _ _ _ _ z Hok Hp Hd Hz) as Hap. unfold FromObject in Hap.
    change sizeof_HeapObjectHeader with g in *. split; apply lookup_clobber; lia. }
  assert (heap_ok ∅ h1 L) as Hok1 by (apply heap_ok_space; done).
  apply HQ; [|split_and!; [done|done|]; intros a Ha; f_equal; exact (proj1 (Hs a (object_in_layout _ _ Ha)))|done]. split; [by apply (heap_ok_frame _ h1)| | |].
  - apply (graph_construct h s p members); [done| | | |done].
    + intros ->. apply object_in_layout in Hp as [(x & d & Hx & Hz)|[m Hz]].
      * pose proof (cell_pos _ _ _ _ _ _ Hok Hx Hz). unfold FromObject, nullptr in *.
        change sizeof_HeapObjectHeader with g in *. lia.
      * pose proof (ho_blocks _ _ _ Hok) as Hbl. unfold blocks in Hbl.
        apply elem_of_Permutation in Hz as [l Hl]. rewrite Hl, <- Permutation_middle in Hbl. cbn in Hbl.
        destruct Hbl as ([Hb _] & _). unfold FromObject, nullptr in *. cbn in Hb.
        change sizeof_HeapObjectHeader with g in *. lia.
    + exists i, n, b. rewrite (bool_decide_false _ (not_elem_of_empty _)) in Hd. split; [|apply Hd].
      rewrite (proj1 (Hs _ (object_in_layout _ _ Hp))). apply Hd.
    + intros q Hq. apply Hs, object_in_layout. by apply Hf.
  - by apply fields_regions, space_regions.
  - intros q. cbn. destruct (decide (q = p)) as [->|Hne]; [done|]. rewrite lookup_insert_ne by done. apply Hf.
Qed.

(** Being constructed does not concern the layout. *)
Lemma heap_ok_constructed h L a i n b :
  heap_ok ∅ h L → a ∈ objects L → hdr (space h) a i n b false →
  heap_ok ∅ (set_space (set_headers <[a := header_of i n true false]> (space h)) h) L.
Proof using P.
  intros [Hok (ls & Hfl & Hls)] Ha Hd. set (s := set_headers _ _).
  assert (∀ z, z ≠ a → headers s !! z = headers (space h) !! z) as Hz
    by (intros z Hz; cbn; by rewrite lookup_insert_ne).
  assert (∀ z j k c, hdr (space h) z j k c false → kFreeListGCInfoIndex < j → is_Some (table_ (gc_infos h) !! j) →
    ∃ j' c', hdr s z j' k c' false ∧ kFreeListGCInfoIndex < j' ∧ is_Some (table_ (gc_infos h) !! j')) as Hobj.
  { intros z j k c Hzd Hj Hinfo. destruct (decide (z = a)) as [->|Hne].
    - exists i, true. assert (n = k) as <- by (by eapply hdr_size_inj).
      assert (i = j) as ->.
      { destruct Hd as (E1 & Hn & Hi), Hzd as (E2 & _ & Hj'). rewrite E1 in E2. injection E2 as E2.
        rewrite <- (header_index i n b false Hi), <- (header_index j n c false Hj').
        unfold GetGCInfoIndex, header_of. cbn [encoded_high_]. by rewrite E2. }
      split; [|done]. split; [cbn; by rewrite lookup_insert_eq|apply Hzd].
    - exists j, c. split; [|done]. split; [by rewrite Hz; [apply Hzd|]|apply Hzd]. }
  split; [split|]; try apply Hok.
  - intros x Hx. destruct (shape_pages _ _ _ _ Hok Hx) as [He Hc]. split; [done|]. intros z d Hzd.
    pose proof (Hc z d Hzd) as Hcd. destruct d as [m|m|m]; [exact Hcd|..].
    + destruct Hcd as [(Hh & Hm) Hg]. split; [|done]. split; [|done]. cbn. rewrite lookup_insert_ne; [done|].
      intros <-. exact (free_not_object _ _ _ _ _ _ Hok Hx Hzd Ha).
    + destruct Hcd as (j & c & Hd2 & Hj & Hinfo & Hg). rewrite (bool_decide_false _ (not_elem_of_empty _)) in Hd2.
      destruct (Hobj z j m c Hd2 Hj Hinfo) as (j' & c' & Hd3 & Hj' & Hinfo'). exists j', c'.
      by rewrite (bool_decide_false _ (not_elem_of_empty _)).
  - intros z m Hm. destruct (ho_large_ok _ _ _ Hok _ _ Hm) as (j & c & Hd2 & Hj & Hinfo & Hg).
    rewrite (bool_decide_false _ (not_elem_of_empty _)) in Hd2.
    destruct (Hobj z j m c Hd2 Hj Hinfo) as (j' & c' & Hd3 & Hj' & Hinfo'). exists j', c'.
    by rewrite (bool_decide_false _ (not_elem_of_empty _)).
  - exists ls. split; [|done]. apply (fl_frame (space h)); [done..| |done]. intros e (x & m & Hx & Hc & _)%Hls.
    split; [|done]. apply Hz. intros ->. exact (free_not_object _ _ _ _ _ _ Hok Hx Hc Ha).
Qed.

Lemma wp_MarkObjectAsFullyConstructed h L p (Q : unit → Heap → Prop) :
  gc_inv h L → FromObject p ∈ objects L →
  (∀ h', gc_inv h' L → quiet L h h' → fields h' = fields h → persistents h' = persistents h →
    (∃ i n, hdr (space h') (FromObject p) i n true false) → Q tt h') →
  wp (MarkObjectAsFullyConstructed p) Q h.
Proof using P.
  intros Hinv Hp HQ. pose proof (gi_layout _ _ Hinv) as Hok.
  destruct (object_hdr _ _ _ _ Hok Hp) as (i & n & b & Hd & _).
  rewrite (bool_decide_false _ (not_elem_of_empty _)) in Hd. pose proof Hd as (Hh & Hn & Hix).
  unfold MarkObjectAsFullyConstructed, header_at. wp_step. rewrite Hh. wp_step.
  rewrite set_space_same, header_fully_constructed by done.
  pose proof (heap_ok_constructed h L _ i n b Hok Hp Hd) as Hok'. set (s := set_headers _ _) in *.
  assert (headers s !! FromObject p = Some (header_of i n true false)) as Hzp by (cbn; by rewrite lookup_insert_eq).
  apply HQ; [|split_and!; [done|done|]|done|done|by exists i, n].
  2: { intros a _. cbn. destruct (decide (a = FromObject p)) as [->|Hne]; [|by rewrite lookup_insert_ne].
    rewrite lookup_insert_eq, Hh. cbn [fmap option_fmap option_map]. by rewrite !header_index. }
  destruct Hinv as [_ [G1 G2 G3] Hr Hf]. split; [done| | |done].
  - split; [|done|done]. intros q Hq. destruct (G1 q Hq) as (? & j & k & c & Hqd). split; [done|].
    destruct (decide (FromObject q = FromObject p)) as [->|Hne]; [by exists i, n, true|].
    exists j, k, c. split; [|apply Hqd]. cbn. rewrite lookup_insert_ne by done. apply Hqd.
  - by apply space_regions.
Qed.

Lemma wp_set_member h L p i raw l (Q : unit → Heap → Prop) :
  gc_inv h L → fields h !! p = Some l → (i < length l)%nat → valid h raw →
  (∀ h' t, gc_inv h' L → quiet L h h' → fields h' = <[p := <[i := mkMember t raw]> l]> (fields h) → Q tt h') →
  wp (set_member p i raw) Q h.
Proof using P.
  intros Hinv Hl Hi Hraw HQ. pose proof Hinv as [Hok Hg Hr Hf].
  destruct (lookup_lt_is_Some_2 l i Hi) as [m Hm].
  unfold set_member. wp_step. rewrite Hl. wp_step. rewrite Hm. wp_step.
  apply (HQ _ (member_tag m)); [|by split_and!|done]. split; [by apply (heap_ok_frame _ h)| | |].
  - rewrite <- (set_space_same h) at 2. apply graph_construct; [done|by apply (go_header h Hg p)| |done|].
    + by apply (go_header h Hg p).
    + intros m' Hm' Ht. right. apply list_elem_of_lookup in Hm' as [j Hj]. destruct (decide (j = i)) as [->|Hne].
      * rewrite list_lookup_insert_eq in Hj by done. by injection Hj as <-.
      * rewrite list_lookup_insert_ne in Hj by done.
        destruct (decide (storage_ m' = nullptr)) as [?|Hn]; [by left|right].
        apply (go_member h Hg p l m'); [done|by eapply list_elem_of_lookup_2|done|done].
  - by apply fields_regions.
  - intros q. cbn. destruct (decide (q = p)) as [->|Hne]; [intros _; apply Hf; by eexists|].
    rewrite lookup_insert_ne by done. apply Hf.
Qed.

Lemma wp_destroy_persistent h L this (Q : unit → Heap → Prop) :
  gc_inv h L → countable h → is_Some (persistents h !! this) →
  (∀ h', gc_inv h' L → quiet L h h' → fields h' = fields h → persistents h' = delete this (persistents h) → Q tt h') →
  wp (destroy_persistent this) Q h.
Proof.
  intros Hinv Hc Hp HQ. unfold destroy_persistent. wp_step. apply (wp_Clear_persistent h L); [done..|].
  intros h1 Hinv1 Hq1 Hf [b Hp1]. wp_step. apply HQ; [|exact Hq1|done|cbn; rewrite Hp1; apply delete_insert_eq].
  pose proof Hinv1 as [_ [G1 G2 G3] [R1 R2 R3] _]. apply (inv_persistents h1); try done.
  - split; [done|done|]. intros o q. cbn. intros [_ Hq]%lookup_delete_Some. by apply (G3 o).
  - split; [done| |].
    + intros s k o. etransitivity; [exact (R2 s k o)|]. cbn. rewrite Hp1. destruct (decide (o = this)) as [->|Hne].
      * rewrite lookup_insert_eq, lookup_delete_eq. split; [intros (q & [= <-] & _ & ?); done|by intros (q & ? & _)].
      * by rewrite lookup_delete_ne.
    + intros o q. cbn. intros [_ Hq]%lookup_delete_Some. by apply (R3 o).
Qed.

(** ** Sequences of operations *)

Inductive Op :=
  | OpAllocate (page page' : NormalPage) (base n index : Z)
  | OpConstruct (p : Z) (members : list BasicMember)
  | OpFullyConstructed (p : Z)
  | OpSetMember (p : Z) (i : nat) (raw : Z)
  | OpNewPersistent (this : Z) (strong : bool)
  | OpAssign (this raw : Z)
  | OpClear (this : Z)
  | OpMove (this other : Z)
  | OpDestroyPersistent (this : Z)
  | OpCollect.

(** [Allocates nullptr] is the end of an operation that has no result. *)
Definition run_op (op : Op) : M Heap Allocation :=
  match op with
  | OpAllocate page page' base n index => Allocate page page' base n index
  | OpConstruct p members => construct_object p members ;; ret (Allocates nullptr)
  | OpFullyConstructed p => MarkObjectAsFullyConstructed p ;; ret (Allocates nullptr)
  | OpSetMember p i raw => set_member p i raw ;; ret (Allocates nullptr)
  | OpNewPersistent this strong => new_persistent this strong ;; ret (Allocates nullptr)
  | OpAssign this raw => Assign this raw ;; ret (Allocates nullptr)
  | OpClear this => Clear_persistent this ;; ret (Allocates nullptr)
  | OpMove this other => Move this other ;; ret (Allocates nullptr)
  | OpDestroyPersistent this => destroy_persistent this ;; ret (Allocates nullptr)
  | OpCollect => CollectGarbage ;; ret (Allocates nullptr)
  end.

(** The memory that the heap has. *)
Definition used_blocks (h : Heap) : list (Z * Z) :=
  ((λ p, (memory_ p, kPageSize)) <$> normal_pages_ h) ++
  ((λ a, (a, default 0 (AllocatedSize <$> headers (space h) !! a))) <$> large_objects_ h).

Definition new_block (h : Heap) (a n : Z) : Prop :=
  block_ok (a, n) ∧ Forall (apart (a, n)) (used_blocks h).
Definition fresh_memory (h : Heap) (a n : Z) : Prop := a = nullptr ∨ new_block h a n.

Definition fresh_payload (h : Heap) (page : NormalPage) : Prop :=
  memory_ page = nullptr ∨ new_block h (memory_ page) kPageSize.

(** What a program may do; the system and the sandbox may refuse it memory at any time.
    [young] are the objects that it has allocated but not
    constructed, of which nothing is left after a collection. *)
Definition op_pre (op : Op) (h : Heap) (young : gset Z) : Prop :=
  match op with
  | OpAllocate page page' base n index =>
      registered h index ∧ 0 < n ∧ n + 2 * g <= 2 ^ uintptr_bits ∧
      fresh_payload h page ∧ fresh_payload h page' ∧
      fresh_memory h base (RoundUp (uw (sizeof_HeapObjectHeader + n)) g)
  | OpConstruct p members => p ∈ young ∧ members_valid h p members
  | OpFullyConstructed p => is_Some (fields h !! p)
  | OpSetMember p i raw => (∃ l, fields h !! p = Some l ∧ (i < length l)%nat) ∧ valid h raw
  | OpNewPersistent this _ => persistents h !! this = None
  | OpAssign this raw => countable h ∧ is_Some (persistents h !! this) ∧ valid h raw
  | OpClear this => countable h ∧ is_Some (persistents h !! this)
  | OpMove this other => persistents h !! this = None ∧ is_Some (persistents h !! other)
  | OpDestroyPersistent this => countable h ∧ is_Some (persistents h !! this)
  | OpCollect => True
  end.

Definition next_young (op : Op) (r : Allocation) (young : gset Z) : gset Z :=
  match op with
  | OpAllocate page _ _ _ _ =>
      match r with
      | Allocates p => {[p]} ∪ (if decide (memory_ page = nullptr) then ∅ else young)
      | _ => young
      end
  | OpConstruct p _ => young ∖ {[p]}
  | OpCollect => ∅
  | _ => young
  end.

(** The program goes on unless an allocation has ended the process. *)
Definition goes_on (r : Allocation) : Prop := ∃ p, r = Allocates p.

Definition gc_state : Type := Heap * gset Z.

(** [n] finalizers have run or will have to. *)
Definition finalizers (n : nat) (h : Heap) (L : Layout) : Prop :=
  (length (finalized h) + length (finalizable h (objects L)) = n)%nat.

(** The finalizers that an allocation adds. *)
Definition made (h : Heap) (op : Op) : nat :=
  match op with
  | OpAllocate _ _ _ _ index =>
      match table_ (gc_infos h) !! index with Some info => if finalize info then 1 else 0 | None => 0 end
  | _ => 0
  end.

Definition gc_ok (n : nat) (x : gc_state) : Prop :=
  ∃ L, gc_inv x.1 L ∧ finalizers n x.1 L ∧
    ∀ p, p ∈ x.2 → FromObject p ∈ objects L ∧ fields x.1 !! p = None.

Lemma finalizable_quiet L h h' : quiet L h h' → finalizable h' (objects L) = finalizable h (objects L).
Proof.
  intros (Hg & _ & Hq). unfold finalizable. rewrite Hg.
  apply list_omap_ext, Forall2_same_length_lookup. split; [done|]. intros i x y Hx Hy.
  assert (x = y) as -> by congruence. specialize (Hq y ltac:(by eapply list_elem_of_lookup_2)).
  destruct (headers (space h') !! y), (headers (space h) !! y); try done. cbn in Hq. injection Hq as Hq.
  cbn. by rewrite Hq.
Qed.

Lemma finalizers_quiet n L h h' : quiet L h h' → finalizers n h L → finalizers n h' L.
Proof. unfold finalizers. intros Hq <-. rewrite (finalizable_quiet L h h' Hq). by destruct Hq as (_ & -> & _). Qed.

Lemma finalizable_perm h o o' : o ≡ₚ o' → length (finalizable h o) = length (finalizable h o').
Proof. intros Ho. unfold finalizable. by rewrite Ho. Qed.

(** The live and the dead. *)
Lemma finalizable_split h S o :
  length (finalizable h o) = (length (finalizable h (live S o)) + length (finalizable h (dead S o)))%nat.
Proof.
  rewrite <- length_app. unfold finalizable. rewrite <- omap_app. fold (finalizable h (live S o ++ dead S o)).
  apply finalizable_perm. unfold live, dead. induction o as [|a o IH]; [done|].
  destruct (decide (ObjectStart a ∈ S)) as [Ha|Ha].
  - rewrite filter_cons_True by done. rewrite (filter_cons_False (λ a, ObjectStart a ∉ S)) by (by intros Hn).
    cbn. by rewrite <- IH.
  - rewrite filter_cons_False by done. rewrite (filter_cons_True (λ a, ObjectStart a ∉ S)) by done.
    rewrite <- Permutation_middle. by rewrite <- IH.
Qed.

Lemma finalizers_collected n S h L h' L' :
  gc_inv h L → collected S h L h' L' → finalizers n h L → finalizers n h' L'.
Proof.
  unfold finalizers. intros Hinv [C1 _ C3 _ _ C6 C7] <-. rewrite C6, length_app, (finalizable_split h S (objects L)).
  rewrite (finalizable_frame h h') by done. rewrite C1. lia.
Qed.

Lemma finalizers_new n h L a k index h' L' :
  heap_shape ∅ h L → heap_shape ∅ h' L' → new_object h L a k index h' L' → registered h index →
  finalizers n h L →
  finalizers (n + match table_ (gc_infos h) !! index with
    | Some info => if finalize info then 1 else 0 | None => 0 end)%nat h' L'.
Proof using P.
  intros Hok Hok' [N1 N2 (Hh & _ & Hi) N4 _ _ _ N8 N9] [Hreg [info Hinfo]]. unfold finalizers. intros <-.
  rewrite (finalizable_perm h' (objects L') (a :: objects L)).
  - rewrite N9, Hinfo. change (a :: objects L) with ([a] ++ objects L). unfold finalizable at 1. rewrite omap_app.
    fold (finalizable h' [a]) (finalizable h' (objects L)). rewrite (finalizable_frame h h' (objects L)) by done.
    rewrite length_app. assert (length (finalizable h' [a]) = if finalize info then 1%nat else 0%nat) as ->; [|lia].
    unfold finalizable. cbn [omap list_omap]. rewrite Hh, N8. cbn [mbind option_bind]. rewrite header_index by done.
    unfold GCInfoFromIndex. change kMinIndex with 1. change kMaxIndex with kMaxGCInfoIndex.
    rewrite (proj2 (Z.leb_le 1 index)), (proj2 (Z.ltb_lt _ _)) by lia. cbn [andb]. rewrite Hinfo. cbn.
    by destruct (finalize info).
  - apply NoDup_Permutation; [by apply (objects_nodup ∅ h')|constructor; [done|by apply (objects_nodup ∅ h)]|].
    intros b. rewrite N2, elem_of_cons. done.
Qed.

Lemma used_blocks_layout S h L : heap_shape S h L → used_blocks h = blocks L.
Proof using P.
  intros Hok. unfold used_blocks, blocks. rewrite (ho_pages _ _ _ Hok), (ho_large _ _ _ Hok). f_equal.
  - symmetry. exact (list_fmap_compose fst (λ p, (memory_ p, kPageSize)) (lpages L)).
  - rewrite <- list_fmap_compose. rewrite <- (list_fmap_id (llarge L)) at 2. apply list_fmap_ext.
    intros i [a n] Hi. apply list_elem_of_lookup_2 in Hi.
    destruct (ho_large_ok _ _ _ Hok _ _ Hi) as (j & b & (Hh & Hn & _) & _). cbn. rewrite Hh. cbn.
    by rewrite header_size.
Qed.

Lemma fresh_page h L page : gc_inv h L → fresh_payload h page → page_fresh L page.
Proof using P.
  intros Hinv [?|[H1 H2]]; [by left|right]. split; [done|].
  by rewrite <- (used_blocks_layout ∅ h L (ho_shape _ _ _ (gi_layout _ _ Hinv))).
Qed.

Lemma young_new h L a k index h' L' (young : gset Z) :
  new_object h L a k index h' L' →
  (∀ p, p ∈ young → FromObject p ∈ objects L ∧ fields h !! p = None) →
  (∀ p, is_Some (fields h !! p) → FromObject p ∈ objects L) →
  ∀ p, p ∈ {[ObjectStart a]} ∪ young → FromObject p ∈ objects L' ∧ fields h' !! p = None.
Proof.
  intros [N1 N2 _ _ N5 _ _ _ _] Hy Hf p [->%elem_of_singleton|Hp]%elem_of_union.
  - rewrite from_start, N5. split; [apply N2; by left|]. destruct (fields h !! ObjectStart a) eqn:E; [|done].
    exfalso. apply N1. rewrite <- (from_start a). apply Hf. by eexists.
  - destruct (Hy p Hp) as [H1 H2]. rewrite N5. split; [apply N2; by right|done].
Qed.

Lemma allocate_step m h L young page page' base n index :
  gc_inv h L → finalizers m h L → (∀ p, p ∈ young → FromObject p ∈ objects L ∧ fields h !! p = None) →
  op_pre (OpAllocate page page' base n index) h young →
  wp (Allocate page page' base n index)
    (λ r h', (goes_on r ∨ ends_process page page' base (RoundUp (uw (sizeof_HeapObjectHeader + n)) g) r) ∧
      (goes_on r → gc_ok (m + made h (OpAllocate page page' base n index))
      (h', next_young (OpAllocate page page' base n index) r young))) h.
Proof using P.
  intros Hinv Hfin Hy (Hreg & Hn & Hw & Hp & Hp' & Hb).
  assert (block_fresh L base (RoundUp (uw (sizeof_HeapObjectHeader + n)) g)) as Hb'.
  { destruct Hb as [?|[H1 H2]]; [by left|right]. split; [done|].
    by rewrite <- (used_blocks_layout ∅ h L (ho_shape _ _ _ (gi_layout _ _ Hinv))). }
  eapply wp_mono; [apply (wp_Allocate h L); [done|done|done|done|by eapply fresh_page|by eapply fresh_page|done]|].
  cbn beta. intros r h' Hr. destruct r as [p| | |]; (split; [|intros [q Hq]; try done]);
    [left; by eexists| |by right..]. destruct Hr as (_ & L' & Hinv' & Hhow). exists L'. split; [done|].
  cbn [next_young made]. rewrite <- (start_from p).
  destruct Hhow as [Hnew|(Hp0 & S & h1 & L1 & _ & Hinv1 & Hcol & Hnew)].
  - split; [by eapply finalizers_new; [apply Hinv|apply Hinv'|done..]|]. intros q' Hq'. apply (young_new h L _ _ _ h' L' young Hnew Hy); [apply Hinv|].
    destruct (decide (memory_ page = nullptr)); set_solver.
  - split.
    { pose proof (finalizers_collected _ _ _ _ _ _ Hinv Hcol Hfin) as Hfin1.
      rewrite <- (co_gc_infos _ _ _ _ _ Hcol). eapply finalizers_new; [apply Hinv1|apply Hinv'|done| |done].
      unfold registered. by rewrite (co_gc_infos _ _ _ _ _ Hcol). }
    rewrite decide_True by done. apply (young_new h1 L1 _ _ _ h' L' ∅ Hnew); [set_solver|apply Hinv1].
Qed.

(** The operations that end the process. *)
Definition fatal (op : Op) (r : Allocation) : Prop :=
  ∃ page page' base n index, op = OpAllocate page page' base n index ∧
    ends_process page page' base (RoundUp (uw (sizeof_HeapObjectHeader + n)) g) r.

Lemma proceeds op (R : Prop) :
  R → (goes_on (Allocates nullptr) ∨ fatal op (Allocates nullptr)) ∧ (goes_on (Allocates nullptr) → R).
Proof. intros HR. split; [left; by eexists|done]. Qed.

Lemma op_ok m x op :
  gc_ok m x → op_pre op x.1 x.2 →
  wp (run_op op) (λ r h', (goes_on r ∨ fatal op r) ∧
    (goes_on r → gc_ok (m + made x.1 op) (h', next_young op r x.2))) x.1.
Proof using P.
  destruct x as [h young]. intros (L & Hinv & Hfin & Hy) Hpre. cbn [fst snd] in *.
  assert (∀ h', gc_inv h' L → quiet L h h' → fields h' = fields h →
    gc_ok (m + 0) (h', young)) as Hsame.
  { intros h' Hinv' Hq Hf. exists L. split; [done|]. rewrite Nat.add_0_r. split; [by eapply finalizers_quiet|].
    cbn. rewrite Hf. exact Hy. }
  destruct op as [page page' base n index|p members|p|p i raw|this strong|this raw|this|this other|this|];
    cbn [run_op op_pre next_young made] in *.
  - eapply wp_mono; [by apply (allocate_step m h L young)|]. intros r h' [Hr Hgo]. split; [|done].
    destruct Hr as [?|Hr]; [by left|right]. by exists page, page', base, n, index.
  - destruct Hpre as [Hp Hm]. destruct (Hy p Hp) as [Hpo Hpf]. wp_step.
    apply (wp_construct_object h L p members); [done|done|done|]. intros h' Hinv' Hq' Hf. wp_step. apply proceeds. exists L.
    split; [done|]. rewrite Nat.add_0_r. split; [by eapply finalizers_quiet|]. cbn. intros q [Hq Hne]%elem_of_difference. rewrite Hf, lookup_insert_ne; [by apply Hy|].
    intros <-. by apply Hne, elem_of_singleton.
  - wp_step. apply (wp_MarkObjectAsFullyConstructed h L); [done|by apply (gi_fields _ _ Hinv)|]. intros h' Hinv' Hq' Hf _ _. wp_step.
    apply proceeds. by apply Hsame.
  - destruct Hpre as ((l & Hl & Hi) & Hraw). wp_step. apply (wp_set_member h L p i raw l); [done..|].
    intros h' t Hinv' Hq' Hf. wp_step. apply proceeds. exists L. split; [done|]. rewrite Nat.add_0_r.
    split; [by eapply finalizers_quiet|]. cbn. rewrite Hf. intros q Hq.
    destruct (Hy q Hq) as [H1 H2]. split; [done|]. rewrite lookup_insert_ne; [done|]. intros <-. congruence.
  - wp_step. apply (wp_new_persistent h L); [done|done|]. intros h' Hinv' Hq' Hf. wp_step. apply proceeds. by apply Hsame.
  - destruct Hpre as (Hc & Hp & Hraw). wp_step. apply (wp_Assign h L); [done..|].
    intros h' b k Hinv' Hq' Hf _. wp_step. apply proceeds. by apply Hsame.
  - destruct Hpre as (Hc & Hp). wp_step. apply (wp_Clear_persistent h L); [done..|].
    intros h' Hinv' Hq' Hf _. wp_step. apply proceeds. by apply Hsame.
  - destruct Hpre as (Hc & Hp). wp_step. apply (wp_Move h L); [done..|].
    intros h' Hinv' Hq' Hf. wp_step. apply proceeds. by apply Hsame.
  - destruct Hpre as (Hc & Hp). wp_step. apply (wp_destroy_persistent h L); [done..|].
    intros h' Hinv' Hq' Hf _. wp_step. apply proceeds. by apply Hsame.
  - wp_step. destruct (wp_CollectGarbage h L Hinv) as (S & _ & HC). eapply wp_mono; [exact HC|].
    intros _ h' (L' & Hinv' & Hcol). wp_step. apply proceeds. exists L'. split; [done|]. rewrite Nat.add_0_r.
    split; [exact (finalizers_collected _ _ _ _ _ _ Hinv Hcol Hfin)|]. cbn. set_solver.
Qed.

(** From one state to another; the objects with a finalizer that have been allocated
    on the way are counted. *)
Inductive gc_run (x : gc_state) : nat → gc_state → Prop :=
  | gc_run_nil : gc_run x 0 x
  | gc_run_op n y op r h' :
      gc_run x n y → op_pre op y.1 y.2 → run_op op y.1 = Some (r, h') → goes_on r →
      gc_run x (n + made y.1 op) (h', next_young op r y.2).

Lemma new_heap_ok t : gc_ok 0 (new_heap t, ∅).
Proof using P.
  exists (mkLayout [] []). split; [split|split; [done|set_solver]].
  - split; [split; cbn; try done; [by intros x Hx%elem_of_nil|by intros a n Hx%elem_of_nil|by left]|].
    exists (replicate 17 []). split.
    + split; cbn [headers nexts free_list_heads_ free_list_tails_ biggest_free_list_index_ new_heap space new_space];
        try done.
      * intros i l (-> & Hi)%lookup_replicate.
        split; cbn [headers nexts free_list_heads_ free_list_tails_ new_heap space new_space];
          [by apply lookup_replicate_2..|done|constructor].
      * constructor.
      * by intros i l (-> & _)%lookup_replicate.
    + intros e. rewrite concat_empty. split; [by intros He%elem_of_nil|]. by intros (x & n & Hx%elem_of_nil & _).
  - split; cbn; [by intros p [? ?]|done|done].
  - split.
    + intros []; (split; [exists []; split; [done|split; [constructor|]]|done]);
        intros k; cbn; (split; [by intros Hk%elem_of_nil|by intros [? ?]]).
    + intros b k o. cbn. split; [by destruct b|]. by intros (p & ? & _).
    + done.
  - by intros p [? ?].
Qed.

Lemma gc_run_ok t n x : gc_run (new_heap t, ∅) n x → gc_ok n x.
Proof using P.
  induction 1 as [|n y op r h' _ IH Hpre Hrun Hgo]; [apply new_heap_ok|].
  pose proof (op_ok n y op IH Hpre) as Hw. unfold wp in Hw. rewrite Hrun in Hw. by apply Hw.
Qed.
End steps.
