(* ===== verification/GcClaims.v ===== *)
(** * What programs may rely on

    For every heap that a program can bring about ([gc_run]): references lead to
    objects, objects do not overlap, collection and allocation keep exactly what is
    reachable, and every finalizer runs once. *)
From Stdlib Require Import ZArith Lia Bool.
From stdpp Require Import base list gmap.
From S2P Require Import Prelude Sandbox SandboxProps GcSpace GcSpaceProps Job GcHeap GcMark GcLayout GcSweep GcSweepHeap GcCollect GcProps GcAlloc GcDestroy GcSteps.

Section claims.
Context `{Platform} {P : PlatformOk}.

#[local] Abbreviation g := kAllocationGranularity.

(** The bytes of an object, with its header. *)
Definition object_block (h : Heap) (p : Z) : Z * Z :=
  (FromObject p, default 0 (AllocatedSize <$> headers (space h) !! FromObject p)).

Definition has_finalizer (h : Heap) (p : Z) : Prop :=
  ∃ hd info, headers (space h) !! FromObject p = Some hd ∧
    GCInfoFromIndex (gc_infos h) (GetGCInfoIndex hd) = Some info ∧ finalize info = true.

(** *** Objects *)

Lemma object_block_hdr h a i n b m : hdr (space h) a i n b m → object_block h (ObjectStart a) = (a, n).
Proof using P.
  intros (Hh & Hn & _). unfold object_block. rewrite from_start, Hh. cbn. by rewrite header_size.
Qed.

Lemma objects_apart S h L a b :
  heap_shape S h L → a ∈ objects L → b ∈ objects L → a ≠ b →
  apart (object_block h (ObjectStart a)) (object_block h (ObjectStart b)).
Proof using P.
  intros Hok Ha Hb Hne.
  destruct (object_hdr _ _ _ _ Hok Ha) as (i & n & c & Hd & _).
  destruct (object_hdr _ _ _ _ Hok Hb) as (i' & n' & c' & Hd' & _).
  rewrite (object_block_hdr _ _ _ _ _ _ Hd), (object_block_hdr _ _ _ _ _ _ Hd'). unfold apart. cbn.
  pose proof (object_apart _ _ _ _ _ _ _ _ b Hok Ha Hd (object_in_layout _ _ Hb)).
  pose proof (object_apart _ _ _ _ _ _ _ _ a Hok Hb Hd' (object_in_layout _ _ Ha)). lia.
Qed.

Lemma elem_of_finalizable h o p :
  p ∈ finalizable h o ↔ FromObject p ∈ o ∧ has_finalizer h p.
Proof using P.
  unfold finalizable, has_finalizer. rewrite list_elem_of_omap. split.
  - intros (a & Ha & E). destruct (headers (space h) !! a) as [hd|] eqn:Eh; [|done]. cbn in E.
    destruct (GCInfoFromIndex _ _) as [info|] eqn:Ei; [|done]. cbn in E.
    destruct (finalize info) eqn:Ef; [|done]. injection E as <-. rewrite from_start. split; [done|]. by exists hd, info.
  - intros (Ha & hd & info & Eh & Ei & Ef). exists (FromObject p). split; [done|]. rewrite Eh. cbn.
    rewrite Ei. cbn. by rewrite Ef, start_from.
Qed.

Lemma finalizable_nodup h o : NoDup o → NoDup (finalizable h o).
Proof.
  intros Hnd. unfold finalizable. induction Hnd as [|a o Ha Hnd IH]; [constructor|]. cbn [omap list_omap].
  destruct (headers (space h) !! a ≫= _) as [p|] eqn:E; [|exact IH]. constructor; [|exact IH].
  intros (b & Hb & Eb)%list_elem_of_omap. apply Ha. assert (a = b) as ->; [|done].
  assert (∀ a p, (headers (space h) !! a ≫= λ hd, GCInfoFromIndex (gc_infos h) (GetGCInfoIndex hd) ≫= λ info,
    if finalize info then Some (ObjectStart a) else None) = Some p → a = FromObject p) as Hinj.
  { clear. intros a p. destruct (headers (space h) !! a) as [hd|]; [|done]. cbn.
    destruct (GCInfoFromIndex _ _) as [info|]; [|done]. cbn. destruct (finalize info); [|done].
    intros [= <-]. by rewrite from_start. }
  by rewrite (Hinj a p E), (Hinj b p Eb).
Qed.

(** ** Claims *)

(** C23: whatever a program has done before, an operation that it may apply to the heap
    ([op_pre]: its references lead to objects or are null, and a size with its header does
    not wrap around) is never undefined, and fails no check but those two that limit an allocation: it
    completes, or it is an allocation that ends the process, because the size with its
    header and alignment exceeds what headers hold (the [CHECK_LE] of [Allocate]),
    because the sandbox in use has no room for a page (the check of [Sandbox::Allocate]),
    or, by the out-of-memory handler, because the system refuses the memory of a large
    object, or that of a page both before and after a collection. *)
Theorem gc_runs_safely t n x op :
  gc_run (new_heap t, ∅) n x → op_pre op x.1 x.2 →
  ∃ r h', run_op op x.1 = Some (r, h') ∧ (goes_on r ∨ fatal op r).
Proof using P.
  intros Hrun Hpre. pose proof (op_ok n x op (gc_run_ok t n x Hrun) Hpre) as Hw.
  apply wp_run in Hw as (r & h' & E & Hr & _). by exists r, h'.
Qed.

(** C24: there are no dangling references: every persistent and every member of an
    object that the collector knows leads to an object that is constructed and has a
    header of its own, unmarked and not that of a free entry; and the bytes of
    different objects do not overlap, whether constructed or not. *)
Theorem gc_no_dangling t n x :
  gc_run (new_heap t, ∅) n x →
  let h := x.1 in
  (∀ o p, persistents h !! o = Some p → value_ p ≠ nullptr → is_Some (fields h !! value_ p)) ∧
  (∀ p l m, fields h !! p = Some l → m ∈ l → member_tag m ≠ UntracedMemberTag →
     storage_ m ≠ nullptr → is_Some (fields h !! storage_ m)) ∧
  (∀ p, is_Some (fields h !! p) ∨ p ∈ x.2 →
     ∃ hd, headers (space h) !! FromObject p = Some hd ∧ IsFree hd = false ∧ IsMarked hd = false) ∧
  (∀ p q, is_Some (fields h !! p) ∨ p ∈ x.2 → is_Some (fields h !! q) ∨ q ∈ x.2 → p ≠ q →
     apart (object_block h p) (object_block h q)).
Proof using P.
  intros Hrun h. destruct (gc_run_ok t n x Hrun) as (L & Hinv & _ & Hy). fold h in Hinv, Hy.
  assert (∀ p, is_Some (fields h !! p) ∨ p ∈ x.2 → FromObject p ∈ objects L) as Hobj.
  { intros p [Hp|Hp]; [by apply (gi_fields _ _ Hinv)|by apply Hy]. }
  pose proof (ho_shape _ _ _ (gi_layout _ _ Hinv)) as Hok. split; [|split; [|split]].
  - apply (gi_graph _ _ Hinv).
  - apply (gi_graph _ _ Hinv).
  - intros p Hp%Hobj. destruct (object_hdr _ _ _ _ Hok Hp) as (i & k & b & (Hh & Hn & Hi) & Hi0 & _).
    rewrite (bool_decide_false _ (not_elem_of_empty _)) in Hh.
    eexists. split; [exact Hh|]. rewrite header_free, header_marked by done. split; [|done].
    change kFreeListGCInfoIndex with 0 in Hi0. apply Z.eqb_neq. lia.
  - intros p q Hp%Hobj Hq%Hobj Hne. rewrite <- (start_from p), <- (start_from q).
    apply (objects_apart ∅ h L); [done|done|done|]. unfold FromObject. lia.
Qed.

(** C25: a collection keeps exactly the objects that can be reached from strong
    persistents through strong members, with their headers and what they hold,
    except that it clears exactly the weak members and weak persistents whose target
    it does not keep; and it finalizes each constructed object that it does not keep,
    if its type has a finalizer, exactly once. *)
Theorem collect_exact t n x :
  gc_run (new_heap t, ∅) n x →
  ∃ (S : gset Z) h', (∀ p, p ∈ S ↔ reach x.1 p) ∧ CollectGarbage x.1 = Some (tt, h') ∧
    (∀ p, fields h' !! p = if decide (p ∈ S) then clear_weak S <$> fields x.1 !! p else None) ∧
    (∀ p, p ∈ S → headers (space h') !! FromObject p = headers (space x.1) !! FromObject p) ∧
    persistents h' = clear_weak_persistent S <$> persistents x.1 ∧
    ∃ gone, finalized h' = finalized x.1 ++ gone ∧ NoDup gone ∧
      ∀ p, is_Some (fields x.1 !! p) → p ∈ gone ↔ ¬ reach x.1 p ∧ has_finalizer x.1 p.
Proof using P.
  intros Hrun. destruct (gc_run_ok t n x Hrun) as (L & Hinv & _ & _).
  destruct (wp_CollectGarbage x.1 L Hinv) as (S & HS & HC).
  apply wp_run in HC as ([] & h' & E & L' & Hinv' & [C1 C2 C3 C4 C5 C6 C7]).
  exists S, h'. split; [done|]. split; [done|]. split; [done|]. split; [|split; [done|]].
  - intros p Hp. apply C3. rewrite C1. apply elem_of_live. rewrite start_from. split; [|done].
    apply (gi_fields _ _ Hinv). apply reach_fields; [apply Hinv|by apply HS].
  - eexists. split; [exact C6|]. split.
    + apply finalizable_nodup. apply NoDup_filter. exact (objects_nodup _ _ _ (ho_shape _ _ _ (gi_layout _ _ Hinv))).
    + intros p Hp. rewrite elem_of_finalizable, elem_of_dead, start_from, HS.
      pose proof (gi_fields _ _ Hinv p Hp). tauto.
Qed.

(** A collection takes no account of objects whose constructor has not returned:
    it frees them, and if their type has a finalizer, runs it on them. *)
Theorem collect_finalizes_unconstructed t n x p :
  gc_run (new_heap t, ∅) n x → p ∈ x.2 → has_finalizer x.1 p →
  ∃ h' gone, CollectGarbage x.1 = Some (tt, h') ∧ finalized h' = finalized x.1 ++ gone ∧ p ∈ gone.
Proof using P.
  intros Hrun Hp Hfin. destruct (gc_run_ok t n x Hrun) as (L & Hinv & _ & Hy).
  destruct (Hy p Hp) as [Hpo Hpf].
  destruct (wp_CollectGarbage x.1 L Hinv) as (S & HS & HC).
  apply wp_run in HC as ([] & h' & E & L' & Hinv' & [_ _ _ _ _ C6 _]).
  exists h', (finalizable x.1 (dead S (objects L))). split; [done|]. split; [done|].
  rewrite elem_of_finalizable, elem_of_dead, start_from, HS. split; [|done]. split; [done|].
  intros Hr. apply reach_fields in Hr; [|apply Hinv]. rewrite Hpf in Hr. by destruct Hr.
Qed.

(** C26: every finalizer runs exactly once: when the heap is destroyed, however it came
    about, as many have run as objects with one have been allocated, and nothing is
    left of it. *)
Theorem finalizers_run_once t n x :
  gc_run (new_heap t, ∅) n x →
  ∃ h', destroy_heap x.1 = Some (tt, h') ∧ length (finalized h') = n ∧
    normal_pages_ h' = [] ∧ large_objects_ h' = [] ∧ fields h' = ∅.
Proof using P.
  intros Hrun. destruct (gc_run_ok t n x Hrun) as (L & Hinv & Hfin & _).
  assert (wp destroy_heap (λ _ h', length (finalized h') = n ∧
    normal_pages_ h' = [] ∧ large_objects_ h' = [] ∧ fields h' = ∅) x.1) as Hw.
  { apply (wp_destroy_heap ∅ x.1 L); [apply Hinv|apply (gi_fields _ _ Hinv)|].
    intros h' H1 H2 H3 _ H4. split; [|done]. rewrite H4, length_app. exact Hfin. }
  apply wp_run in Hw as ([] & h' & E & Hr). by exists h'.
Qed.

Lemma new_object_apart h L a k index h' L' p :
  gc_inv h L → gc_inv h' L' → new_object h L a k index h' L' → is_Some (fields h' !! p) →
  apart (object_block h' p) (object_block h' (ObjectStart a)).
Proof using P.
  intros Hinv Hinv' Hnew Hp. pose proof (no_fields _ _ _ _ _ _ _ Hnew) as Hf. rewrite Hf in Hp.
  pose proof (gi_fields _ _ Hinv p Hp) as Hpo. rewrite <- (start_from p).
  apply (objects_apart ∅ h' L'); [apply Hinv'|apply Hnew; by right|apply Hnew; by left|].
  intros E. rewrite E in Hpo. by apply (no_fresh _ _ _ _ _ _ _ Hnew).
Qed.

(** [Allocate] checks the size first. *)
Lemma size_check page page' base n index h r h' :
  Allocate page page' base n index h = Some (r, h') →
  r = SizeCheckFails ↔ kMaxSize < RoundUp (uw (sizeof_HeapObjectHeader + n)) g.
Proof.
  unfold Allocate. destruct (_ <=? kMaxSize) eqn:E; zbool; cbn [negb].
  2: { unfold ret. intros [= <- <-]. done. }
  intros HA. split; [intros ->; exfalso|lia]. revert HA. destruct (_ <=? RoundUp _ _).
  - unfold AllocateLarge. destruct (base =? nullptr); [done|]. unfold bind, modify, ret.
    by destruct (on_space _ h) as [[[] ?]|].
  - unfold AllocateNormal, bind, get. destruct (if _ <? _ then _ else _) as [[[] h1]|]; try done.
    destruct (lab_Allocate _ h1) as [[raw h2]|]; [|done]. by destruct (on_space _ h2) as [[[] ?]|].
Qed.

(** C27: an allocation, of a size that does not wrap around with its header, that returns
    gives an object of the type that was asked for, as
    large as was asked for, not yet constructed, that overlaps no object that is
    kept.  All objects are kept with what they hold; only if the system refused a
    page, they may have been collected, and then those that could be reached are
    kept.  One that does not return ends the process: by the check of the size exactly if
    headers cannot hold it; by the check of the sandbox, for a small object, only if a
    sandbox is in use and has no room for a page; by the out-of-memory handler only if
    the system refuses the memory of a large object or, for a small one, a page both
    before and after a collection. *)
Theorem allocate_correct t m x page page' base n index :
  gc_run (new_heap t, ∅) m x → op_pre (OpAllocate page page' base n index) x.1 x.2 →
  let k := RoundUp (uw (sizeof_HeapObjectHeader + n)) g in
  ∃ r h', Allocate page page' base n index x.1 = Some (r, h') ∧
  (r = SizeCheckFails ↔ kMaxSize < k) ∧
  match r with
  | Allocates p =>
      g + n <= k ∧ hdr (space h') (FromObject p) index k false false ∧ fields h' !! p = None ∧
      (∀ q, is_Some (fields h' !! q) → apart (object_block h' q) (object_block h' p)) ∧
      ((fields h' = fields x.1 ∧ persistents h' = persistents x.1 ∧ finalized h' = finalized x.1) ∨
       (memory_ page = nullptr ∧ ∀ q, is_Some (fields h' !! q) ↔ reach x.1 q))
  | SizeCheckFails => True
  | SandboxCheckFails => k < kLargeObjectSizeThreshold ∧ (is_full page ∨ refuses page ∧ is_full page')
  | OutOfMemory =>
      if kLargeObjectSizeThreshold <=? k then base = nullptr else refuses page ∧ refuses page'
  end.
Proof using P.
  intros Hrun (Hreg & Hn & Hw & Hp & Hp' & Hb) k.
  destruct (gc_run_ok t m x Hrun) as (L & Hinv & _ & _).
  assert (block_fresh L base k) as Hb'.
  { destruct Hb as [?|[H1 H2]]; [by left|right]. split; [done|].
    by rewrite <- (used_blocks_layout ∅ _ L (ho_shape _ _ _ (gi_layout _ _ Hinv))). }
  pose proof (wp_Allocate x.1 L page page' base n index Hinv Hreg Hn Hw
    (fresh_page _ _ _ Hinv Hp) (fresh_page _ _ _ Hinv Hp') Hb') as HA.
  apply wp_run in HA as (r & h' & E & HA). exists r, h'. split; [done|]. fold k in HA.
  split; [exact (size_check page page' base n index x.1 r h' E)|].
  destruct r as [p| | |]; [|done|done|by destruct HA]. destruct HA as (Hk & L' & Hinv' & Hhow). split; [done|].
  assert (∀ h1 L1, gc_inv h1 L1 → new_object h1 L1 (FromObject p) k index h' L' →
    hdr (space h') (FromObject p) index k false false ∧ fields h' !! p = None ∧
    (∀ q, is_Some (fields h' !! q) → apart (object_block h' q) (object_block h' p))) as Hall.
  { intros h1 L1 Hinv1 Hnew. split; [apply Hnew|]. split.
    - rewrite (no_fields _ _ _ _ _ _ _ Hnew). destruct (fields h1 !! p) eqn:Ef; [|done]. exfalso.
      apply (no_fresh _ _ _ _ _ _ _ Hnew), (gi_fields _ _ Hinv1). by eexists.
    - intros q Hq. rewrite <- (start_from p). by apply (new_object_apart h1 L1 _ k index h' L'). }
  destruct Hhow as [Hnew|(Hp0 & S & h1 & L1 & HS & Hinv1 & Hcol & Hnew)].
  - destruct (Hall x.1 L Hinv Hnew) as (H1 & H2 & H3). split_and!; try done. left.
    destruct Hnew. done.
  - destruct (Hall h1 L1 Hinv1 Hnew) as (H1 & H2 & H3). split_and!; try done. right. split; [done|]. intros q.
    rewrite (no_fields _ _ _ _ _ _ _ Hnew), (co_fields _ _ _ _ _ Hcol), <- HS.
    destruct (decide (q ∈ S)) as [Hq|Hq].
    + split; [done|]. intros _. apply HS in Hq. apply reach_fields in Hq as [l ->]; [by eexists|apply Hinv].
    + split; [by intros [? ?]|done].
Qed.

(** Large objects are no exception to the limit of headers. *)
Lemma allocate_above_limit page page' base n index h :
  kMaxSize < RoundUp (uw (sizeof_HeapObjectHeader + n)) g →
  Allocate page page' base n index h = Some (SizeCheckFails, h).
Proof.
  intros Hk. unfold Allocate. by rewrite (proj2 (Z.leb_gt _ _)).
Qed.

(** If it is the sandbox in use that has no room for a page, there is no collection and
    no second try: the process ends. *)
Lemma sandbox_full_fails t page' base n index :
  let k := RoundUp (uw (sizeof_HeapObjectHeader + n)) g in
  0 < k → k < kLargeObjectSizeThreshold →
  ∃ h', Allocate (mkPage nullptr true) page' base n index (new_heap t) = Some (SandboxCheckFails, h') ∧
    finalized h' = [].
Proof.
  intros k Hk0 Hk. change kLargeObjectSizeThreshold with 65536 in Hk.
  assert (kMaxSize = 131071) as Em by done. unfold Allocate. fold k. rewrite Em.
  change kLargeObjectSizeThreshold with 65536.
  rewrite (proj2 (Z.leb_le k 131071)) by lia. rewrite (proj2 (Z.leb_gt 65536 k)) by done. cbn [negb].
  unfold AllocateNormal, bind at 1 2, get at 1. cbn [lab_size new_heap].
  rewrite (proj2 (Z.ltb_lt 0 k)) by done.
  eexists. split; reflexivity.
Qed.

(** A header is faithful: the type index, the size, the mark and whether the object
    is constructed read back as they were stored, whichever of the others change. *)
Theorem header_faithful i n c m :
  size_ok n → index_ok i →
  new_header n i = Some (header_of i n false false) ∧
  AllocatedSize (header_of i n c m) = n ∧ GetGCInfoIndex (header_of i n c m) = i ∧
  IsInConstruction (header_of i n c m) = negb c ∧ IsMarked (header_of i n c m) = m ∧
  TryMarkAtomic (header_of i n c m) = (negb m, header_of i n c true) ∧
  Unmark (header_of i n c m) = (if m then Some (header_of i n c false) else None) ∧
  MarkAsFullyConstructed (header_of i n c m) = header_of i n true m.
Proof using P.
  intros Hn Hi. split; [by apply header_new|]. split; [by apply header_size|].
  split; [by apply header_index|]. split; [by apply header_constructed|]. split; [by apply header_marked|].
  split; [by apply header_TryMark|]. split; [by apply header_Unmark|by apply header_fully_constructed].
Qed.

(** The free list gives a block that is at least as large as asked for, which it
    then no longer has, and keeps all others; it fails only if all its blocks are
    smaller than twice what was asked for, and then keeps them all. *)
Theorem FreeList_Allocate_correct s ls n :
  fl_rep s ls → 0 < n →
  ∃ b s', FreeList_Allocate n s = Some (b, s') ∧ headers s' = headers s ∧
  ((address b = nullptr ∧ fl_rep s' ls ∧
    ∀ e k, e ∈ concat ls → hdr s e kFreeListGCInfoIndex k false false → k < 2 * n) ∨
   (address b ∈ concat ls ∧ n <= bsize b ∧
    hdr s (address b) kFreeListGCInfoIndex (bsize b) false false ∧
    ∃ ls', fl_rep s' ls' ∧ concat ls ≡ₚ address b :: concat ls')).
Proof using P.
  intros Hfl Hn. pose proof (wp_FreeList_Allocate s ls n Hfl Hn) as Hw.
  apply wp_run in Hw as (b & s' & E & Hs & Hcase). exists b, s'. split; [done|]. split; [done|].
  destruct Hcase as [(-> & Hfl' & _ & Hall)|(Hb & Hbn & Hbh & ls' & Hfl' & Hperm)]; [by left|right].
  split; [rewrite Hperm; by left|]. split; [done|]. split; [done|]. by exists ls'.
Qed.
End claims.

(** ** A program *)

#[local] Instance linux64 : Platform := mkPlatform 64 false.
#[local] Instance linux64_ok : PlatformOk.
Proof. by right. Qed.

(** One type, with a finalizer. *)
Definition one_type : GCInfoTable := mkGCInfoTable {[1 := mkGCInfo true]} 2 512.

Definition after (op : Op) (x : gc_state) : gc_state :=
  match run_op op x.1 with Some (r, h') => (h', next_young op r x.2) | None => x end.

Definition succeeds (op : Op) (x : gc_state) : bool :=
  match run_op op x.1 with
  | Some (Allocates _, _) => true
  | Some _ => false
  | None => false
  end.

Lemma gc_run_after op y n x m z :
  gc_run x n y → op_pre op y.1 y.2 → succeeds op y = true → z = after op y → m = (n + made y.1 op)%nat →
  gc_run x m z.
Proof.
  intros Hrun Hpre Hs -> ->. unfold succeeds in Hs. unfold after.
  destruct (run_op op y.1) as [[r h']|] eqn:E; [|done].
  eapply gc_run_op; [done..|]. destruct r; try done. by eexists.
Qed.

Definition page1 : NormalPage := mkPage 131072 false.
Definition no_page : NormalPage := mkPage nullptr false.
Definition first_object : Z := 131080.

(** An object is allocated; it is constructed and a persistent refers to it. *)
Definition program1 : gc_state := after (OpAllocate page1 no_page nullptr 24 1) (new_heap one_type, ∅).
Definition program2 : gc_state :=
  after (OpAssign 8 first_object) (after (OpNewPersistent 8 true)
    (after (OpConstruct first_object [mkMember WeakMemberTag first_object]) program1)).

Lemma program1_run : gc_run (new_heap one_type, ∅) 1 program1.
Proof.
  eapply (gc_run_after (OpAllocate page1 no_page nullptr 24 1) (new_heap one_type, ∅) 0);
    [constructor| |vm_compute; reflexivity|reflexivity|vm_compute; reflexivity].
  split; [split; [done|by eexists]|]. split; [done|]. split; [done|]. split; [|split; by left].
  right. split; [|by constructor]. split; [done|]. by exists 16384.
Qed.

Definition program1b : gc_state := after (OpConstruct first_object [mkMember WeakMemberTag first_object]) program1.
Definition program1c : gc_state := after (OpNewPersistent 8 true) program1b.

Lemma program2_run : gc_run (new_heap one_type, ∅) 1 program2.
Proof.
  eapply (gc_run_after (OpAssign 8 first_object) program1c 1);
    [|split; [|split]|vm_compute; reflexivity|reflexivity|reflexivity].
  - eapply (gc_run_after (OpNewPersistent 8 true) program1b 1);
      [|vm_compute; reflexivity|vm_compute; reflexivity|reflexivity|reflexivity].
    eapply (gc_run_after (OpConstruct first_object [mkMember WeakMemberTag first_object]) program1 1);
      [apply program1_run|split|vm_compute; reflexivity|reflexivity|reflexivity].
    + apply (bool_decide_unpack _). vm_compute. exact I.
    + intros m ->%list_elem_of_singleton _. by left.
  - intros []; vm_compute; reflexivity.
  - eexists. vm_compute. reflexivity.
  - right. eexists. vm_compute. reflexivity.
Qed.

Lemma new_space_rep : fl_rep new_space (replicate 17 []).
Proof.
  split; cbn [headers nexts free_list_heads_ free_list_tails_ biggest_free_list_index_ new_space]; try done.
  - intros i l (-> & Hi)%lookup_replicate.
    split; cbn [headers nexts free_list_heads_ free_list_tails_ new_space];
      [by apply lookup_replicate_2..|done|constructor].
  - constructor.
  - by intros i l (-> & _)%lookup_replicate.
Qed.

(** A free list with one block. *)
Definition one_block : Space :=
  match FreeList_Add (mkBlock 4096 64) new_space with Some (_, s) => s | None => new_space end.

Lemma one_block_rep : fl_rep one_block (add_entry 4096 64 (replicate 17 [])).
Proof.
  assert (wp (FreeList_Add (mkBlock 4096 64)) (λ _ s,
    headers s = <[4096 := header_of kFreeListGCInfoIndex 64 false false]> (headers new_space) ∧
    fl_rep s (add_entry 4096 64 (replicate 17 []))) new_space) as Hw.
  { apply wp_FreeList_Add; [apply new_space_rep|done| |split; [by exists 8|done]|done].
    rewrite concat_empty. by intros ?%elem_of_nil. }
  unfold wp in Hw. unfold one_block. destruct (FreeList_Add _ _) as [[[] s]|]; [by destruct Hw|done].
Qed.

Lemma gc_runs_safely_witness :
  gc_run (new_heap one_type, ∅) 1 program2 ∧ op_pre OpCollect program2.1 program2.2 ∧
  ∃ r h', run_op OpCollect program2.1 = Some (r, h') ∧ (goes_on r ∨ fatal OpCollect r).
Proof.
  split; [apply program2_run|]. split; [done|].
  exact (gc_runs_safely (P := linux64_ok) one_type 1 program2 OpCollect program2_run I).
Defined.

Lemma gc_no_dangling_witness :
  gc_run (new_heap one_type, ∅) 1 program2 ∧
  (∀ o p, persistents program2.1 !! o = Some p → value_ p ≠ nullptr → is_Some (fields program2.1 !! value_ p)).
Proof.
  split; [apply program2_run|].
  exact (proj1 (gc_no_dangling (P := linux64_ok) one_type 1 program2 program2_run)).
Defined.

Lemma collect_exact_witness :
  gc_run (new_heap one_type, ∅) 1 program2 ∧
  ∃ (S : gset Z) h', (∀ p, p ∈ S ↔ reach program2.1 p) ∧ CollectGarbage program2.1 = Some (tt, h').
Proof.
  split; [apply program2_run|].
  destruct (collect_exact (P := linux64_ok) one_type 1 program2 program2_run) as (S & h' & HS & E & _).
  exists S, h'. split; [exact HS|exact E].
Defined.

Lemma first_finalizer : has_finalizer program1.1 first_object.
Proof. eexists _, _. split; [vm_compute; reflexivity|]. split; vm_compute; reflexivity. Qed.

Lemma first_young : first_object ∈ program1.2.
Proof. apply (bool_decide_unpack _). vm_compute. exact I. Qed.

Lemma collect_finalizes_unconstructed_witness :
  gc_run (new_heap one_type, ∅) 1 program1 ∧ first_object ∈ program1.2 ∧ has_finalizer program1.1 first_object ∧
  ∃ h' gone, CollectGarbage program1.1 = Some (tt, h') ∧ finalized h' = finalized program1.1 ++ gone ∧
    first_object ∈ gone.
Proof.
  split; [apply program1_run|]. split; [apply first_young|]. split; [apply first_finalizer|].
  exact (collect_finalizes_unconstructed (P := linux64_ok) one_type 1 program1 first_object
    program1_run first_young first_finalizer).
Defined.

Lemma finalizers_run_once_witness :
  gc_run (new_heap one_type, ∅) 1 program2 ∧
  ∃ h', destroy_heap program2.1 = Some (tt, h') ∧ length (finalized h') = 1%nat ∧
    normal_pages_ h' = [] ∧ large_objects_ h' = [] ∧ fields h' = ∅.
Proof.
  split; [apply program2_run|].
  exact (finalizers_run_once (P := linux64_ok) one_type 1 program2 program2_run).
Defined.

Lemma second_pre : op_pre (OpAllocate no_page no_page nullptr 40 1) program2.1 program2.2.
Proof.
  split; [split; [done|]|]; [eexists; vm_compute; reflexivity|].
  split; [done|]. split; [done|]. split; [by left|]. split; by left.
Qed.

Lemma allocate_correct_witness :
  gc_run (new_heap one_type, ∅) 1 program2 ∧
  op_pre (OpAllocate no_page no_page nullptr 40 1) program2.1 program2.2 ∧
  ∃ r h', Allocate no_page no_page nullptr 40 1 program2.1 = Some (r, h').
Proof.
  split; [apply program2_run|]. split; [apply second_pre|].
  destruct (allocate_correct (P := linux64_ok) one_type 1 program2 no_page no_page nullptr 40 1
    program2_run second_pre) as (r & h' & E & _). by exists r, h'.
Defined.

Lemma header_faithful_witness :
  size_ok 64 ∧ index_ok 5 ∧ IsMarked (header_of 5 64 true true) = true.
Proof.
  assert (size_ok 64) as Hn by (split; [by exists 8|done]). assert (index_ok 5) as Hi by done.
  split; [done|]. split; [done|].
  exact (proj1 (proj2 (proj2 (proj2 (proj2 (header_faithful (P := linux64_ok) 5 64 true true Hn Hi)))))).
Defined.

Lemma FreeList_Allocate_correct_witness :
  fl_rep one_block (add_entry 4096 64 (replicate 17 [])) ∧ 0 < 48 ∧
  ∃ b s', FreeList_Allocate 48 one_block = Some (b, s').
Proof.
  assert (0 < 48) as Hn by done. split; [apply one_block_rep|]. split; [done|].
  destruct (FreeList_Allocate_correct (P := linux64_ok) one_block _ 48 one_block_rep Hn) as (b & s' & E & _).
  by exists b, s'.
Defined.
