(* ===== verification/GenNames.v ===== *)
(** * Names in generated C++: [src/src/cpp_generator.cc]

    How the generator spells modules, containers, types and values, and in which
    order a struct's fields go on the wire.  Text is a list of bytes; what the code
    writes with [<<] is appended. *)
From Stdlib Require Import ZArith Lia Ascii.
From stdpp Require Import base list gmap.
From S2P Require Import Prelude Ast TypeIntern.

(** What the generator throws: [std::logic_error]; [NullElement] is the undefined
    use of a null [element] or [key]. *)
Inductive GenError := LogicError (what : list Z) | NullElement | GenNoFuel.
Abbreviation Gen A := (GenError + A)%type.

Definition gen_bind {A B} (m : Gen A) (k : A → Gen B) : Gen B :=
  match m with inr a => k a | inl e => inl e end.
Notation "'let?' x := m 'in' k" := (gen_bind m (λ x, k))
  (at level 10, x binder, m at level 100, k at level 200).
Definition need {A} (o : option A) : Gen A := match o with Some a => inr a | None => inl NullElement end.

(** [text "..."], in which a backquote stands for a double quote and a bar for the
    end of a line. *)
Definition text (s : string) : list Z :=
  map (λ c, if c =? 96 then 34 else if c =? 124 then 10 else c) (bytes s).

Record GeneratorOptions := mkGeneratorOptions {
  typemaps : gmap (list Z) (list Z);
  extra_includes : list (list Z)
}.

Definition MangledNestedName (container name : list Z) : list Z := container ++ text "_" ++ name.
Definition CppEmbedName (container name : list Z) : list Z :=
  if bool_decide (container = []) then name else MangledNestedName container name.
Definition CppEmbedName_struct (s : StructDecl) : list Z := CppEmbedName (s_owner_container s) (s_name s).
Definition CppEmbedName_union (u : UnionDecl) : list Z := CppEmbedName (u_owner_container u) (u_name u).
Definition CppEmbedName_type (t : TypeSpec) : list Z := CppEmbedName (owner_container t) (t_name t).

Definition LookupTypemap (opt : GeneratorOptions) (name container module_ns : list Z)
    : option (list Z) :=
  let find k := typemaps opt !! k in
  match find name with
  | Some m => Some m
  | None =>
      match (if bool_decide (container = []) then None else find (container ++ text "_" ++ name)) with
      | Some m => Some m
      | None => if bool_decide (module_ns = []) then None else find (module_ns ++ text "." ++ name)
      end
  end.

(** [std::stable_sort]: each index goes before the first later index that it is
    less than. *)
Fixpoint insert_by (less : nat → nat → bool) (x : nat) (l : list nat) : list nat :=
  match l with
  | [] => [x]
  | y :: l => if less y x then y :: insert_by less x l else x :: y :: l
  end.
Definition stable_sort (less : nat → nat → bool) (l : list nat) : list nat :=
  foldr (insert_by less) [] l.

Definition wire_less (s : StructDecl) (a b : nat) : bool :=
  let version i := match s_fields s !! i with Some f => f_min_version f | None => 0 end in
  if negb (version a =? version b) then version a <? version b else (a <? b)%nat.
Definition WireFieldOrder (s : StructDecl) : list nat :=
  stable_sort (wire_less s) (seq 0 (length (s_fields s))).

Definition AllStructs (m : Module_) : list StructDecl :=
  mod_structs m ++ flat_map i_structs (mod_interfaces m).
Definition AllUnions (m : Module_) : list UnionDecl :=
  mod_unions m ++ flat_map i_unions (mod_interfaces m).

(** ** Spelling *)

(** [namespace::], [Container_]. *)
Definition NamespacePrefix (owner_namespace : list Z) : list Z :=
  if bool_decide (owner_namespace = []) then []
  else concat (map (λ c, if c =? 46 then text "::" else [c]) owner_namespace) ++ text "::".
Definition ContainerMangle (owner_container : list Z) : list Z :=
  if bool_decide (owner_container = []) then [] else owner_container ++ text "_".
Definition QualifierPrefix (owner_namespace owner_container : list Z) : list Z :=
  NamespacePrefix owner_namespace ++ ContainerMangle owner_container.
Definition qualified (t : TypeSpec) : list Z :=
  QualifierPrefix (owner_namespace t) (owner_container t) ++ t_name t.

Definition HandleCppType (k : TypeKind) : Gen (list Z) :=
  match k with
  | kHandle => inr (text "mojo::ScopedHandle")
  | kHandleMessagePipe => inr (text "mojo::ScopedMessagePipeHandle")
  | kHandleDataPipeConsumer => inr (text "mojo::ScopedDataPipeConsumerHandle")
  | kHandleDataPipeProducer => inr (text "mojo::ScopedDataPipeProducerHandle")
  | kHandleSharedBuffer => inr (text "mojo::ScopedSharedBufferHandle")
  | kHandlePlatform => inr (text "mojo::PlatformHandle")
  | _ => inl (LogicError (text "HandleCppType: not a handle TypeKind"))
  end.

Definition HandleRawClassName (k : TypeKind) : Gen (list Z) :=
  match k with
  | kHandle => inr (text "mojo::Handle")
  | kHandleMessagePipe => inr (text "mojo::MessagePipeHandle")
  | kHandleDataPipeConsumer => inr (text "mojo::DataPipeConsumerHandle")
  | kHandleDataPipeProducer => inr (text "mojo::DataPipeProducerHandle")
  | kHandleSharedBuffer => inr (text "mojo::SharedBufferHandle")
  | kHandlePlatform => inr (text "mojo::Handle")
  | _ => inl (LogicError (text "HandleRawClassName: not a handle TypeKind"))
  end.

Definition CppScalarType (k : TypeKind) : Gen (list Z) :=
  match k with
  | kBool => inr (text "bool")
  | kInt8 => inr (text "int8_t")
  | kUint8 => inr (text "uint8_t")
  | kInt16 => inr (text "int16_t")
  | kUint16 => inr (text "uint16_t")
  | kInt32 => inr (text "int32_t")
  | kUint32 => inr (text "uint32_t")
  | kInt64 => inr (text "int64_t")
  | kUint64 => inr (text "uint64_t")
  | kFloat => inr (text "float")
  | kDouble => inr (text "double")
  | _ => inl (LogicError (text "CppScalarType: not a scalar TypeKind"))
  end.

Fixpoint CppValueType (t : TypeSpec) : Gen (list Z) :=
  let elem := match element t with Some e => CppValueType e | None => inl NullElement end in
  let wrap base := if nullable t then text "std::optional<" ++ base ++ text ">" else base in
  match t_kind t with
  | kString => inr (wrap (text "std::string"))
  | kEnumRef | kStructRef | kUnionRef => inr (wrap (qualified t))
  | kArray =>
      let? e := elem in
      inr (wrap (if 0 <? fixed_array_size t
                 then text "std::array<" ++ e ++ text ", " ++ to_string (fixed_array_size t) ++ text ">"
                 else text "v8::internal::CageVector<" ++ e ++ text ">"))
  | kMap =>
      let? k := match key t with Some k => CppValueType k | None => inl NullElement end in
      let? e := elem in
      inr (wrap (text "v8::internal::CageMap<" ++ k ++ text ", " ++ e ++ text ">"))
  | kPendingRemote => inr (text "mojo::PendingRemote<" ++ qualified t ++ text ">")
  | kPendingReceiver => inr (text "mojo::PendingReceiver<" ++ qualified t ++ text ">")
  | kPendingAssociatedRemote => inr (text "mojo::PendingAssociatedRemote<" ++ qualified t ++ text ">")
  | kPendingAssociatedReceiver => inr (text "mojo::PendingAssociatedReceiver<" ++ qualified t ++ text ">")
  | kHandle | kHandleMessagePipe | kHandleDataPipeConsumer | kHandleDataPipeProducer
  | kHandleSharedBuffer | kHandlePlatform => HandleCppType (t_kind t)
  | k => let? base := CppScalarType k in inr (wrap base)
  end.

(** ** Handles *)

Definition IsHandleBearing (k : TypeKind) : bool :=
  match k with
  | kPendingRemote | kPendingReceiver | kPendingAssociatedRemote | kPendingAssociatedReceiver
  | kHandle | kHandleMessagePipe | kHandleDataPipeConsumer | kHandleDataPipeProducer
  | kHandleSharedBuffer | kHandlePlatform => true
  | _ => false
  end.

(** [TypeNeedsHandleCtx], and [field_needs] of [BuildHandleCtx]. *)
Fixpoint TypeNeedsHandleCtx (t : TypeSpec) (ctx : gset (list Z)) : Gen bool :=
  if IsHandleBearing (t_kind t) then inr true
  else
    match t_kind t with
    | kStructRef | kUnionRef => inr (bool_decide (CppEmbedName_type t ∈ ctx))
    | kArray | kMap =>
        match element t with Some e => TypeNeedsHandleCtx e ctx | None => inl NullElement end
    | _ => inr false
    end.

(** Whether one of the fields needs it: the loop stops at the first. *)
Fixpoint any_needs (ts : list TypeSpec) (ctx : gset (list Z)) : Gen bool :=
  match ts with
  | [] => inr false
  | t :: ts => let? b := TypeNeedsHandleCtx t ctx in if b then inr true else any_needs ts ctx
  end.

(** A pass over structs or unions: names with the types of their fields. *)
Fixpoint ctx_pass (decls : list (list Z * list TypeSpec)) (ctx : gset (list Z)) (changed : bool)
    : Gen (gset (list Z) * bool) :=
  match decls with
  | [] => inr (ctx, changed)
  | (key, ts) :: decls =>
      if bool_decide (key ∈ ctx) then ctx_pass decls ctx changed
      else
        let? b := any_needs ts ctx in
        if b then ctx_pass decls ({[key]} ∪ ctx) true else ctx_pass decls ctx changed
  end.

Definition ctx_decls (m : Module_) : list (list Z * list TypeSpec) :=
  map (λ s, (CppEmbedName_struct s, map f_type (s_fields s))) (AllStructs m) ++
  map (λ u, (CppEmbedName_union u, map uf_type (u_fields u))) (AllUnions m).

Fixpoint ctx_loop (fuel : nat) (decls : list (list Z * list TypeSpec)) (ctx : gset (list Z))
    : Gen (gset (list Z)) :=
  match fuel with
  | O => inl GenNoFuel
  | S fuel =>
      let? r := ctx_pass decls ctx false in
      if r.2 then ctx_loop fuel decls r.1 else inr r.1
  end.

(** Every pass that changes something adds a name. *)
Definition BuildHandleCtx (m : Module_) : Gen (gset (list Z)) :=
  let decls := ctx_decls m in ctx_loop (S (length decls)) decls ∅.

(** * The order of generated classes: [SortEmbeds]

    A struct or union that holds another by value is emitted after it. *)

Record Embed := mkEmbed { decl_index : Z; decl : StructDecl + UnionDecl }.

Definition embed_name (e : Embed) : list Z :=
  match decl e with
  | inl s => EmbedDeclKey (s_owner_container s) (s_name s)
  | inr u => EmbedDeclKey (u_owner_container u) (u_name u)
  end.

Definition embed_types (e : Embed) : list TypeSpec :=
  match decl e with inl s => map f_type (s_fields s) | inr u => map uf_type (u_fields u) end.

(** [deps]. *)
Fixpoint append_deps (ts : list TypeSpec) : Gen (list (list Z)) :=
  match ts with
  | [] => inr []
  | t :: ts =>
      let? deps := need (AppendCompleteTypeDeps t) in
      let? rest := append_deps ts in inr (deps ++ rest)
  end.

(** [index[name] = i], in order. *)
Fixpoint index_of (embeds : list Embed) (i : nat) (index : gmap (list Z) nat) : gmap (list Z) nat :=
  match embeds with
  | [] => index
  | e :: embeds => index_of embeds (S i) (<[embed_name e := i]> index)
  end.

(** [outgoing] and [indeg]. *)
Record OrderGraph := mkOrderGraph { outgoing : list (list nat); indeg : list Z }.

Definition add_edge (d i : nat) (g : OrderGraph) : OrderGraph :=
  mkOrderGraph (alter (λ l, l ++ [i]) d (outgoing g)) (alter (Z.add 1) i (indeg g)).

Fixpoint add_deps (index : gmap (list Z) nat) (i : nat) (deps : list (list Z)) (seen : gset (list Z))
    (g : OrderGraph) : OrderGraph :=
  match deps with
  | [] => g
  | d :: deps =>
      if bool_decide (d ∈ seen) then add_deps index i deps seen g
      else
        add_deps index i deps ({[d]} ∪ seen)
          match index !! d with Some j => add_edge j i g | None => g end
  end.

Fixpoint add_embeds (index : gmap (list Z) nat) (embeds : list Embed) (i : nat) (g : OrderGraph)
    : Gen OrderGraph :=
  match embeds with
  | [] => inr g
  | e :: embeds =>
      let? deps := append_deps (embed_types e) in
      add_embeds index embeds (S i) (add_deps index i deps ∅ g)
  end.

(** [std::set<std::pair<int, int>>], in order. *)
Definition pair_less (a b : Z * nat) : bool :=
  (a.1 <? b.1) || ((a.1 =? b.1) && (a.2 <? b.2)%nat).
Fixpoint pair_insert (x : Z * nat) (s : list (Z * nat)) : list (Z * nat) :=
  match s with
  | [] => [x]
  | y :: s' =>
      if pair_less x y then x :: s
      else if pair_less y x then y :: pair_insert x s' else s
  end.

Section sort.
Variable embeds : list Embed.

Definition index_at (i : nat) : Z := match embeds !! i with Some e => decl_index e | None => 0 end.

(** [if (--indeg[j] == 0) ready.insert(...)] for the successors. *)
Fixpoint release (succs : list nat) (indeg : list Z) (ready : list (Z * nat))
    : list Z * list (Z * nat) :=
  match succs with
  | [] => (indeg, ready)
  | j :: succs =>
      let d := default 0 (indeg !! j) - 1 in
      release succs (<[j := d]> indeg) (if d =? 0 then pair_insert (index_at j, j) ready else ready)
  end.

(** The loop: the indices taken, in order. *)
Fixpoint take_ready (fuel : nat) (outgoing : list (list nat)) (indeg : list Z)
    (ready : list (Z * nat)) (taken : list nat) : Gen (list nat) :=
  match ready with
  | [] => inr taken
  | (_, i) :: ready =>
      match fuel with
      | O => inl GenNoFuel
      | S fuel =>
          let r := release (default [] (outgoing !! i)) indeg ready in
          take_ready fuel outgoing r.1 r.2 (taken ++ [i])
      end
  end.

Definition ready_at_first (indeg : list Z) : list (Z * nat) :=
  foldl (λ ready i, if default 0 (indeg !! i) =? 0 then pair_insert (index_at i, i) ready else ready)
    [] (seq 0 (length embeds)).

(** Every turn takes another index. *)
Definition SortEmbeds : Gen (list Embed) :=
  let n := length embeds in
  let? g := add_embeds (index_of embeds 0 ∅) embeds 0 (mkOrderGraph (replicate n []) (replicate n 0)) in
  let? taken := take_ready n (outgoing g) (indeg g) (ready_at_first (indeg g)) [] in
  let out := omap (λ i, embeds !! i) taken in
  if bool_decide (length out = n) then inr out
  else inl (LogicError (text "struct/union complete-type cycle in codegen (parser should have rejected this)")).
End sort.

(** The [embeds] of [GenerateCppHeader]. *)
Definition module_embeds (m : Module_) : list Embed :=
  map (λ s, mkEmbed (s_decl_index s) (inl s)) (AllStructs m) ++
  map (λ u, mkEmbed (u_decl_index u) (inr u)) (AllUnions m).
