(* ===== verification/GenOrderProps.v ===== *)
(** * Classes are emitted after those they hold by value

    [SortEmbeds] orders any module that the parser accepts: what a class needs
    complete comes before it, and otherwise the order is that of the file. *)
From Stdlib Require Import ZArith Lia Sorted.
From stdpp Require Import base list gmap.
From S2P Require Import Prelude Lexer Ast Scan Embed EmbedProps Parser ParseDecl ParseSafe ParseTotal EnableIf GenNames.

Lemma gen_bind_inr {A B} (m : Gen A) (k : A → Gen B) b :
  gen_bind m k = inr b ↔ ∃ a, m = inr a ∧ k a = inr b.
Proof. destruct m as [|a]; cbn; split; [done|by intros (? & ? & _)|by eexists|by intros (? & [= ->] & ?)]. Qed.

(** Taking apart what an emitter has returned. *)
Ltac gen_inv := repeat match goal with
  | E : gen_bind _ _ = inr _ |- _ =>
      let a := fresh "a" in let Ea := fresh "Ea" in
      apply gen_bind_inr in E as (a & Ea & E)
  | E : inr _ = inr _ |- _ => injection E; clear E; intros; subst
  | a : (_ * _)%type |- _ => destruct a
  end; cbn [fst snd] in *.

(** ** The set of ready ones *)

Lemma pair_less_antisym a b : pair_less a b = false → pair_less b a = false → a = b.
Proof.
  destruct a as [k i], b as [k' i']. unfold pair_less. cbn [fst snd]. intros H1 H2.
  destruct (Z.ltb_spec k k'), (Z.ltb_spec k' k); try done.
  assert (k = k') as -> by lia. rewrite Z.eqb_refl in *. cbn [andb orb] in *.
  apply Nat.ltb_ge in H1, H2. f_equal. lia.
Qed.

Lemma pair_less_trans a b c : pair_less a b = true → pair_less b c = true → pair_less a c = true.
Proof.
  destruct a as [k i], b as [k' i'], c as [k'' i'']. unfold pair_less. cbn [fst snd].
  rewrite !orb_true_iff, !andb_true_iff, !Z.ltb_lt, !Z.eqb_eq, !Nat.ltb_lt. lia.
Qed.

Lemma pair_less_asym a b : pair_less a b = true → pair_less b a = false.
Proof.
  destruct a as [k i], b as [k' i']. unfold pair_less. cbn [fst snd].
  rewrite orb_true_iff, andb_true_iff, Z.ltb_lt, Z.eqb_eq, Nat.ltb_lt. intros H.
  apply orb_false_iff. rewrite andb_false_iff, Z.ltb_ge, Z.eqb_neq, Nat.ltb_ge. lia.
Qed.

Lemma elem_of_pair_insert x s z : z ∈ pair_insert x s ↔ z = x ∨ z ∈ s.
Proof.
  induction s as [|y s IH]; cbn; [rewrite elem_of_cons; intuition|].
  destruct (pair_less x y) eqn:E; [by rewrite elem_of_cons|].
  destruct (pair_less y x) eqn:E'.
  - rewrite !elem_of_cons, IH. intuition.
  - rewrite (pair_less_antisym x y E E'), elem_of_cons. intuition.
Qed.

(** In order, the least first. *)
Definition ordered (s : list (Z * nat)) : Prop := StronglySorted (λ a b, pair_less a b = true) s.

Lemma ordered_insert x s : ordered s → ordered (pair_insert x s).
Proof.
  unfold ordered. induction 1 as [|y s Hs IH Hy]; cbn; [by repeat constructor|].
  destruct (pair_less x y) eqn:E.
  - constructor; [by constructor|]. constructor; [done|]. rewrite Forall_forall in *.
    intros z Hz. eapply pair_less_trans; [done|by apply Hy].
  - destruct (pair_less y x) eqn:E'; [|by constructor]. constructor; [done|].
    rewrite Forall_forall in *. intros z [->|Hz]%elem_of_pair_insert; auto.
Qed.

Lemma ordered_nodup s : ordered s → NoDup s.
Proof.
  induction 1 as [|y s Hs IH Hy]; constructor; [|done]. intros Hin.
  rewrite Forall_forall in Hy. specialize (Hy y Hin). by rewrite (pair_less_asym y y Hy) in Hy.
Qed.

Section order.
Context (embeds : list Embed).

#[local] Abbreviation n := (length embeds).
#[local] Abbreviation key := (λ i, (index_at embeds i, i)).

(** The ready ones are their indices, each with its place in the file. *)
Definition keyed (ready : list (Z * nat)) : Prop := ordered ready ∧ ∀ x, x ∈ ready → x = key x.2.

Lemma keyed_nodup ready : keyed ready → NoDup (ready.*2).
Proof.
  intros [Ho Hk]. apply ordered_nodup in Ho. apply NoDup_fmap_2_strong; [|done].
  intros x y Hx Hy E. rewrite (Hk x Hx), (Hk y Hy). by rewrite E.
Qed.

Lemma elem_of_keyed ready i : keyed ready → i ∈ ready.*2 ↔ key i ∈ ready.
Proof.
  intros [_ Hk]. rewrite list_elem_of_fmap. split.
  - intros (x & -> & Hx). by rewrite <- (Hk x Hx).
  - intros H. by exists (key i).
Qed.

Lemma keyed_insert i ready : keyed ready → keyed (pair_insert (key i) ready).
Proof.
  intros [Ho Hk]. split; [by apply ordered_insert|]. intros x [->|Hx]%elem_of_pair_insert; [done|auto].
Qed.

Lemma elem_of_insert i ready j :
  keyed ready → j ∈ (pair_insert (key i) ready).*2 ↔ j = i ∨ j ∈ ready.*2.
Proof.
  intros Hk. rewrite elem_of_keyed by by apply keyed_insert.
  rewrite elem_of_pair_insert, elem_of_keyed by done. split; intros [H|H]; auto.
  - injection H as _ ->. by left.
  - left. by rewrite H.
Qed.

(** ** The degrees *)

Definition deg (m : list Z) (o : nat) : Z := default 0 (m !! o).

Lemma order_deg_insert m j v o : (j < length m)%nat → deg (<[j := v]> m) o = if decide (j = o) then v else deg m o.
Proof.
  intros Hj. unfold deg. destruct (decide (j = o)) as [->|Hne]; [by rewrite list_lookup_insert_eq|].
  by rewrite list_lookup_insert_ne.
Qed.

Lemma order_release_spec succs m ready :
  keyed ready → (∀ o, o ∈ succs → (o < length m)%nat ∧ (o ∉ ready.*2) ∧ count o succs <= deg m o) →
  let r := release embeds succs m ready in
  keyed r.2 ∧ length r.1 = length m ∧ (∀ o, deg r.1 o = deg m o - count o succs) ∧
  (∀ o, o ∈ r.2.*2 ↔ o ∈ ready.*2 ∨ o ∈ succs ∧ deg m o = count o succs).
Proof.
  revert m ready. induction succs as [|j succs IH]; intros m ready Hk Hs; cbn [release].
  { split_and!; [done|done|intros o; unfold count; cbn; lia|set_solver]. }
  destruct (Hs j) as (Hj & Hn & Hc); [left|]. rewrite count_cons, decide_True in Hc by done.
  pose proof (count_nonneg j succs) as Hp. fold (deg m j). set (d := deg m j - 1).
  assert (j ∈ succs → deg m j ≠ 1) as Hin by (intros H%count_pos; lia).
  set (ready' := if d =? 0 then _ else _).
  assert (keyed ready') as Hk' by (unfold ready'; destruct (d =? 0); [by apply keyed_insert|done]).
  assert (∀ o, o ∈ ready'.*2 ↔ o ∈ ready.*2 ∨ o = j ∧ deg m j = 1) as Hr.
  { intros o. unfold ready'. destruct (Z.eqb_spec d 0); [rewrite elem_of_insert by done|];
      unfold d in *; split; intros H; intuition lia. }
  destruct (IH (<[j := d]> m) ready' Hk') as (IH1 & IH2 & IH3 & IH4).
  - intros o Ho. rewrite length_insert, Hr, order_deg_insert by done. destruct (Hs o) as (H0 & H1 & H2); [by right|].
    rewrite count_cons in H2. split; [done|]. destruct (decide (j = o)) as [->|]; [|intuition congruence].
    split; [intuition|unfold d; lia].
  - rewrite length_insert in IH2. split_and!; [done|done| |].
    + intros o. rewrite IH3, order_deg_insert, count_cons by done. destruct (decide (j = o)) as [->|]; unfold d; lia.
    + intros o. rewrite IH4, Hr, order_deg_insert, count_cons, elem_of_cons by done.
      destruct (decide (j = o)) as [<-|Hne].
      * unfold d. split; [intros [[?|[_ ?]]|[? ?]]|intros [?|[_ ?]]]; try (by auto).
        -- right. split; [by left|]. destruct (decide (j ∈ succs)) as [Hi|Hi].
           ++ by apply Hin in Hi.
           ++ rewrite count_zero by done. lia.
        -- right. split; [by left|lia].
        -- destruct (decide (j ∈ succs)); [right; split; [done|lia]|]. left. right. split; [done|].
           rewrite count_zero in * by done. lia.
      * split; intros H; intuition congruence.
Qed.

(** ** The graph *)

Record represents (E : list (nat * nat)) (g : OrderGraph) : Prop := {
  rep_out d : default [] (outgoing g !! d) = out d E;
  rep_in o : (o < n)%nat → indeg g !! o = Some (Z.of_nat (length (into [] o E)));
  rep_len : length (outgoing g) = n ∧ length (indeg g) = n;
  rep_ends d o : (d, o) ∈ E → (d < n)%nat ∧ (o < n)%nat
}.

Lemma order_represents_init : represents [] (mkOrderGraph (replicate n []) (replicate n 0)).
Proof.
  split; cbn [outgoing indeg].
  - intros d. unfold out. rewrite filter_nil. cbn. destruct (replicate n [] !! d) eqn:E; [|done].
    by apply lookup_replicate in E as [-> _].
  - intros o Ho. by apply lookup_replicate_2.
  - by rewrite !length_replicate.
  - by intros d o []%not_elem_of_nil.
Qed.

Lemma order_represents_add E g d o :
  (d < n)%nat → (o < n)%nat → represents E g → represents (E ++ [(d, o)]) (add_edge d o g).
Proof.
  intros Hd Ho [H1 H2 [H3 H3'] H4]. split; cbn [outgoing indeg add_edge].
  - intros d'. specialize (H1 d'). unfold out in *. rewrite filter_app, fmap_app, <- H1, filter_cons, filter_nil.
    cbn. destruct (decide (d = d')) as [->|Hne].
    + rewrite list_lookup_alter_eq. destruct (lookup_lt_is_Some_2 (outgoing g) d') as [l ->]; [lia|done].
    + by rewrite list_lookup_alter_ne, app_nil_r.
  - intros o' Ho'. unfold into in *. rewrite filter_app, length_app, filter_cons, filter_nil. cbn [fst snd].
    destruct (decide (o = o')) as [->|Hne].
    + rewrite list_lookup_alter_eq, H2 by done. rewrite decide_True by (split; [done|set_solver]).
      cbn. f_equal. lia.
    + rewrite list_lookup_alter_ne, H2 by done. rewrite decide_False by tauto. cbn. f_equal. lia.
  - by rewrite !length_alter.
  - intros d' o'. rewrite elem_of_app, list_elem_of_singleton. intros [?|[= -> ->]]; [by apply H4|done].
Qed.

Lemma order_add_deps_spec index o deps seen E g :
  (o < n)%nat → (∀ d j, index !! d = Some j → (j < n)%nat) → represents E g →
  ∃ E', represents E' (add_deps index o deps seen g) ∧
    ∀ a b, (a, b) ∈ E' ↔ (a, b) ∈ E ∨ (b = o ∧ ∃ d, d ∈ deps ∧ (d ∉ seen) ∧ index !! d = Some a).
Proof.
  intros Ho Hix. revert seen E g. induction deps as [|d deps IH]; intros seen E g Hr; cbn [add_deps].
  { exists E. split; [done|]. intros a b. set_solver. }
  destruct (bool_decide_reflect (d ∈ seen)) as [Hs|Hs].
  - destruct (IH seen E g Hr) as (E' & Hr' & HE'). exists E'. split; [done|].
    intros a b. rewrite HE'. set_solver.
  - destruct (index !! d) as [j|] eqn:Ej.
    + destruct (IH ({[d]} ∪ seen) (E ++ [(j, o)]) (add_edge j o g)) as (E' & Hr' & HE').
      { apply order_represents_add; [by eapply Hix|done..]. }
      exists E'. split; [done|]. intros a b. rewrite HE', elem_of_app, list_elem_of_singleton. split.
      * intros [[?|[= -> ->]]|(-> & d' & H1 & H2 & H3)]; [by left| |]; right; (split; [done|]);
          [exists d|exists d']; set_solver.
      * intros [?|(-> & d' & [->|H1]%elem_of_cons & H2 & H3)]; [by auto| |].
        -- left. right. congruence.
        -- destruct (decide (d' = d)) as [->|Hne]; [left; right; congruence|].
           right. split; [done|]. exists d'. set_solver.
    + destruct (IH ({[d]} ∪ seen) E g Hr) as (E' & Hr' & HE'). exists E'. split; [done|].
      intros a b. rewrite HE'. split.
      * intros [?|(-> & d' & H1 & H2 & H3)]; [by left|right]. split; [done|]. exists d'. set_solver.
      * intros [?|(-> & d' & [->|H1]%elem_of_cons & H2 & H3)]; [by left|congruence|]. right. split; [done|].
        exists d'. split; [done|]. split; [|done]. intros [->%elem_of_singleton|?]%elem_of_union; [congruence|done].
Qed.
End order.

(** ** What classes need *)

(** [e] has a member for which it needs [d] complete. *)
Definition needs_complete (d : list Z) (e : Embed) : Prop :=
  ∃ t deps, t ∈ embed_types e ∧ AppendCompleteTypeDeps t = Some deps ∧ d ∈ deps.

Definition embed_typed (e : Embed) : Prop := Forall typed (embed_types e).

Lemma append_deps_spec ts : Forall typed ts →
  ∃ deps, append_deps ts = inr deps ∧
    ∀ d, d ∈ deps ↔ ∃ t ds, t ∈ ts ∧ AppendCompleteTypeDeps t = Some ds ∧ d ∈ ds.
Proof.
  induction 1 as [|t ts [ds Hd] _ (rest & E & IH)]; cbn [append_deps].
  { exists []. split; [done|]. intros d. split; [by intros []%not_elem_of_nil|].
    by intros (t & ? & []%not_elem_of_nil & _). }
  exists (ds ++ rest). unfold need. rewrite Hd. cbn. rewrite E. split; [done|]. intros d.
  rewrite elem_of_app, IH. split.
  - intros [?|(t' & ds' & H1 & H2 & H3)]; [exists t, ds|exists t', ds']; set_solver.
  - intros (t' & ds' & [->|H1]%elem_of_cons & H2 & H3); [left; congruence|right; eauto].
Qed.

Lemma add_embeds_spec embeds index rest i E g :
  (∀ d j, index !! d = Some j → (j < length embeds)%nat) →
  (i + length rest = length embeds)%nat → Forall embed_typed rest → represents embeds E g →
  ∃ E' g', add_embeds index rest i g = inr g' ∧ represents embeds E' g' ∧
    ∀ a b, (a, b) ∈ E' ↔ (a, b) ∈ E ∨
      ∃ k e d, rest !! k = Some e ∧ b = (i + k)%nat ∧ needs_complete d e ∧ index !! d = Some a.
Proof.
  intros Hix. revert i E g. induction rest as [|e rest IH]; intros i E g Hl Ht Hr; cbn [add_embeds].
  { exists E, g. split_and!; [done..|]. intros a b. split; [by left|]. by intros [?|(k & e & d & ? & _)]. }
  apply Forall_cons_1 in Ht as [He Ht]. destruct (append_deps_spec _ He) as (deps & -> & Hdeps). cbn [gen_bind].
  cbn [length] in Hl.
  destruct (order_add_deps_spec embeds index i deps ∅ E g) as (E1 & Hr1 & HE1); [lia|done|done|].
  destruct (IH (S i) E1 _ ltac:(lia) Ht Hr1) as (E2 & g2 & -> & Hr2 & HE2).
  exists E2, g2. split_and!; [done..|]. intros a b. rewrite HE2, HE1. split.
  - intros [[?|(-> & d & H1 & _ & H3)]|(k & e' & d & Hk & -> & H1 & H2)]; [by left| |].
    + right. exists 0%nat, e, d. split_and!; [done|lia|by apply Hdeps|done].
    + right. exists (S k), e', d. split_and!; [done|lia|done..].
  - intros [?|([|k] & e' & d & Hk & -> & H1 & H2)]; [by auto| |].
    + injection Hk as <-. left. right. split; [lia|]. exists d. split; [by apply Hdeps|]. split; [set_solver|done].
    + right. exists k, e', d. split_and!; [done|lia|done..].
Qed.

(** [index] has the last class of each name. *)
Lemma index_of_spec embeds i index d j :
  index_of embeds i index !! d = Some j →
  (∃ k e, embeds !! k = Some e ∧ embed_name e = d ∧ j = (i + k)%nat) ∨ index !! d = Some j.
Proof.
  revert i index. induction embeds as [|e embeds IH]; intros i index; cbn [index_of]; [by right|].
  intros [(k & e' & H1 & H2 & ->)|H]%IH.
  - left. exists (S k), e'. split_and!; [done..|lia].
  - destruct (decide (embed_name e = d)) as [Hd|Hd].
    + rewrite Hd, lookup_insert_eq in H. injection H as <-. left. exists 0%nat, e. split_and!; [done..|lia].
    + rewrite lookup_insert_ne in H by done. by right.
Qed.

Lemma index_of_some embeds i index d :
  d ∈ map embed_name embeds ∨ is_Some (index !! d) → is_Some (index_of embeds i index !! d).
Proof.
  revert i index. induction embeds as [|e embeds IH]; intros i index; cbn [index_of map].
  { intros [[]%not_elem_of_nil|?]. done. }
  intros H. apply IH. destruct (decide (embed_name e = d)) as [<-|Hd]; [right; rewrite lookup_insert_eq; by eexists|].
  rewrite lookup_insert_ne by done. destruct H as [[->|?]%elem_of_cons|?]; [done|by left|by right].
Qed.

(** ** The loop *)

Section loop.
Context (embeds : list Embed).

#[local] Abbreviation n := (length embeds).
#[local] Abbreviation key := (λ i, (index_at embeds i, i)).

Definition indices : gset nat := list_to_set (seq 0 n).

Lemma elem_of_indices i : i ∈ indices ↔ (i < n)%nat.
Proof. unfold indices. rewrite elem_of_list_to_set, elem_of_seq. lia. Qed.

Lemma size_indices : size indices = n.
Proof. unfold indices. rewrite size_list_to_set by apply NoDup_seq. apply length_seq. Qed.

(** Of those that can be next, the first in the file is. *)
Definition in_file_order (E : list (nat * nat)) (taken : list nat) : Prop :=
  ∀ k i j, taken !! k = Some i → (j < n)%nat → j ∉ take k taken →
    (∀ d, (d, j) ∈ E → d ∈ take k taken) → pair_less (key j) (key i) = false.

Lemma in_file_order_snoc E m x ready taken :
  sorting indices E (deg m) (x :: ready).*2 taken → keyed embeds (x :: ready) →
  in_file_order E taken → in_file_order E (taken ++ [x.2]).
Proof.
  intros Hs Hk Ho k i j Hi Hj Hn Hd. apply lookup_app_Some in Hi as [Hi|[Hi Hx]].
  - rewrite take_app_le in * by (apply lookup_lt_Some in Hi; lia). by apply (Ho k i j).
  - apply list_lookup_singleton_Some in Hx as [Hx <-]. rewrite take_app_ge in * by lia.
    replace (k - length taken)%nat with 0%nat in * by lia. rewrite app_nil_r in *.
    assert (j ∈ (x :: ready).*2) as Hr.
    { assert (j ∈ taken ++ (x :: ready).*2) as [?|?]%elem_of_app; [|done|done].
      apply (so_zero _ _ _ _ _ Hs); [by apply elem_of_indices|]. rewrite (so_deg _ _ _ _ _ Hs).
      destruct (into taken j E) as [|[d j'] l] eqn:Ei; [done|exfalso].
      assert ((d, j') ∈ into taken j E) as [[Hj' Hdt] HdE]%list_elem_of_filter by (rewrite Ei; left).
      cbn in *. subst j'. by apply Hdt, Hd. }
    rewrite elem_of_keyed in Hr by done. destruct Hk as [Hord Hkey].
    rewrite (Hkey x (list_elem_of_here _ _)) in *. cbn in *.
    apply elem_of_cons in Hr as [Hr|Hr].
    + injection Hr as _ ->. destruct (pair_less (key x.2) (key x.2)) eqn:El; [|done].
      by rewrite (pair_less_asym _ _ El) in El.
    + apply StronglySorted_inv in Hord as [_ Hf]. rewrite Forall_forall in Hf.
      by apply pair_less_asym, Hf.
Qed.

Lemma take_ready_spec E fuel outg m ready taken :
  (∀ d, default [] (outg !! d) = out d E) → (∀ d o, (d, o) ∈ E → (d < n)%nat ∧ (o < n)%nat) →
  sorting indices E (deg m) (ready.*2) taken → keyed embeds ready → length m = n →
  in_file_order E taken → (n <= fuel + length taken)%nat →
  ∃ taken' m', take_ready embeds fuel outg m ready taken = inr taken' ∧
    sorting indices E (deg m') [] taken' ∧ in_file_order E taken'.
Proof.
  intros Ho HE. revert m ready taken.
  assert (∀ d o, (d, o) ∈ E → o ∈ indices) as HEi by (intros d o Hd; apply elem_of_indices, (HE d o Hd)).
  induction fuel as [|fuel IH]; intros m [|[k i] ready] taken Hs Hk Hm Hord Hf.
  - by exists taken, m.
  - pose proof (taken_length _ _ _ _ _ Hs) as Hl. rewrite size_indices in Hl. cbn in Hl. lia.
  - by exists taken, m.
  - cbn [take_ready]. rewrite Ho. cbn [fmap list_fmap snd] in Hs.
    destruct (sorting_release _ _ _ _ _ _ HEi Hs) as (_ & Hr & Hrel).
    assert (keyed embeds ready) as Hk'.
    { destruct Hk as [H1 H2]. split; [by apply StronglySorted_inv in H1 as []|]. intros x Hx. apply H2. by right. }
    destruct (order_release_spec embeds (out i E) m ready Hk') as (R1 & R2 & R3 & R4).
    { intros o Hoo. split; [|by apply Hrel]. rewrite Hm. apply elem_of_out in Hoo. by apply (HE i o). }
    pose proof (sorting_step _ _ _ _ _ _ _ _ HEi Hs (keyed_nodup _ _ R1) R3 R4) as Hs'.
    apply (IH _ _ _ Hs' R1); [by rewrite R2|by apply (in_file_order_snoc E m (k, i) ready)|].
    rewrite length_app. cbn. lia.
Qed.

Lemma ready_at_first_spec m :
  keyed embeds (ready_at_first embeds m) ∧
  ∀ o, o ∈ (ready_at_first embeds m).*2 ↔ (o < n)%nat ∧ deg m o = 0.
Proof.
  unfold ready_at_first. assert (∀ l ready, keyed embeds ready →
    let r := foldl (λ ready i, if default 0 (m !! i) =? 0 then pair_insert (key i) ready else ready) ready l in
    keyed embeds r ∧ ∀ o, o ∈ r.*2 ↔ o ∈ ready.*2 ∨ o ∈ l ∧ deg m o = 0) as H.
  { induction l as [|i l IH]; intros ready Hk; cbn [foldl]; [split; [done|set_solver]|].
    fold (deg m i). destruct (Z.eqb_spec (deg m i) 0) as [Hz|Hz].
    - destruct (IH (pair_insert (key i) ready)) as [H1 H2]; [by apply keyed_insert|]. split; [done|].
      intros o. rewrite H2, elem_of_insert, elem_of_cons by done. intuition congruence.
    - destruct (IH ready Hk) as [H1 H2]. split; [done|]. intros o. rewrite H2, elem_of_cons. intuition congruence. }
  destruct (H (seq 0 n) []) as [H1 H2].
  { split; [constructor|]. by intros x []%not_elem_of_nil. }
  split; [done|]. intros o. rewrite H2, elem_of_seq. split; [intros [[]%not_elem_of_nil|[? ?]]|intros [? ?]; right];
    (split; [lia|done]).
Qed.
End loop.

(** ** Modules *)

(** The classes of a module are the nodes of the parser's graph. *)
Lemma module_nodes_embeds m :
  module_nodes m ≡ₚ map (λ e, (embed_name e, embed_types e)) (module_embeds m).
Proof.
  assert (flat_map (λ i, map struct_node (i_structs i) ++ map union_node (i_unions i)) (mod_interfaces m) ≡ₚ
    map struct_node (flat_map i_structs (mod_interfaces m)) ++
    map union_node (flat_map i_unions (mod_interfaces m))) as Hi.
  { induction (mod_interfaces m) as [|i l IH]; [done|]. cbn [flat_map]. rewrite !map_app, IH. solve_Permutation. }
  unfold module_nodes, module_embeds, AllStructs, AllUnions. rewrite Hi, map_app, !map_map.
  etransitivity; [|apply Permutation_app; rewrite map_app; reflexivity]. fold struct_node union_node.
  change (λ x, (embed_name (mkEmbed (s_decl_index x) (inl x)), embed_types (mkEmbed (s_decl_index x) (inl x))))
    with struct_node.
  change (λ x, (embed_name (mkEmbed (u_decl_index x) (inr x)), embed_types (mkEmbed (u_decl_index x) (inr x))))
    with union_node.
  solve_Permutation.
Qed.

Lemma elem_of_nodes m o ts :
  (o, ts) ∈ module_nodes m ↔ ∃ e, e ∈ module_embeds m ∧ embed_name e = o ∧ embed_types e = ts.
Proof.
  rewrite module_nodes_embeds, list_elem_of_In, in_map_iff. setoid_rewrite list_elem_of_In.
  split; intros (e & H1 & H2); exists e; [by injection H1 as <- <-|by destruct H2 as [<- <-]].
Qed.

Lemma embeds_complete m d e :
  e ∈ module_embeds m → needs_complete d e → d ∈ map embed_name (module_embeds m) →
  embeds m d (embed_name e).
Proof.
  intros He (t & deps & Ht & Hd & Hin) Hdn. exists (embed_types e), t, deps.
  split; [by apply elem_of_nodes; exists e|]. split_and!; [done..|].
  rewrite elem_of_list_to_set. rewrite module_nodes_embeds, map_map. exact Hdn.
Qed.

Lemma typed_embeds m : typed_module m → Forall embed_typed (module_embeds m).
Proof.
  unfold typed_module. rewrite !Forall_forall. intros H e He.
  apply (H (embed_name e, embed_types e)). apply elem_of_nodes. by exists e.
Qed.

Lemma omap_lookup_seq {A} (l : list A) (idx : list nat) :
  (∀ i, i ∈ idx → (i < length l)%nat) →
  length (omap (λ i, l !! i) idx) = length idx ∧
  ∀ k i, idx !! k = Some i → omap (λ i, l !! i) idx !! k = l !! i.
Proof.
  induction idx as [|i idx IH]; intros Hi; [done|]. cbn.
  destruct (lookup_lt_is_Some_2 l i) as [x Hx]; [apply Hi; by left|]. rewrite Hx.
  destruct IH as [H1 H2]; [intros j Hj; apply Hi; by right|]. cbn. split; [by rewrite H1|].
  intros [|k] j Hk; [by injection Hk as <-|by apply H2].
Qed.

Lemma omap_seq_id {A} (l : list A) : omap (λ i, l !! i) (seq 0 (length l)) = l.
Proof.
  destruct (omap_lookup_seq l (seq 0 (length l))) as [H1 H2]; [intros i Hi%elem_of_seq; lia|].
  apply list_eq. intros k. destruct (decide (k < length l)%nat) as [Hk|Hk].
  - apply H2. by apply lookup_seq_lt.
  - rewrite !lookup_ge_None_2; [done|lia|]. rewrite H1, length_seq. lia.
Qed.

Lemma omap_take {A} (l : list A) (idx : list nat) k :
  (∀ i, i ∈ idx → (i < length l)%nat) → omap (λ i, l !! i) (take k idx) = take k (omap (λ i, l !! i) idx).
Proof.
  revert k. induction idx as [|i idx IH]; intros [|k] Hi; [done..|]. cbn.
  destruct (lookup_lt_is_Some_2 l i) as [x ->]; [apply Hi; by left|]. cbn. f_equal. apply IH.
  intros j Hj. apply Hi. by right.
Qed.

Lemma elem_of_omap_lookup {A} (l : list A) (idx : list nat) x :
  x ∈ omap (λ i, l !! i) idx ↔ ∃ i, i ∈ idx ∧ l !! i = Some x.
Proof. apply list_elem_of_omap. Qed.

(** What a class needs comes before it; of the classes that could come next, the one
    that the file has first does. *)
Record emitted_order (embeds out : list Embed) : Prop := {
  eo_all : out ≡ₚ embeds;
  eo_needs i e d : out !! i = Some e → needs_complete d e → d ∈ map embed_name embeds →
    d ∈ map embed_name (take i out);
  eo_file i e e' : NoDup (map embed_name embeds) → out !! i = Some e → e' ∈ drop i out →
    (∀ d, needs_complete d e' → d ∈ map embed_name embeds → d ∈ map embed_name (take i out)) →
    decl_index e <= decl_index e'
}.

Lemma SortEmbeds_spec m :
  typed_module m → (∀ k, ¬ tc (embeds m) k k) →
  ∃ out, SortEmbeds (module_embeds m) = inr out ∧ emitted_order (module_embeds m) out.
Proof.
  intros Ht Hac. set (es := module_embeds m). set (n := length es).
  assert (∀ d j, index_of es 0 ∅ !! d = Some j → ∃ e, es !! j = Some e ∧ embed_name e = d) as Hix.
  { intros d j [(k & e & H1 & H2 & ->)|H]%index_of_spec; [by exists e|by rewrite lookup_empty in H]. }
  destruct (add_embeds_spec es (index_of es 0 ∅) es 0 [] (mkOrderGraph (replicate n []) (replicate n 0)))
    as (E & g & Eg & Hrep & HE).
  { intros d j (e & He & _)%Hix. by apply lookup_lt_Some in He. }
  { done. }
  { by apply typed_embeds. }
  { apply order_represents_init. }
  destruct Hrep as [R1 R2 [R3 R3'] R4].
  destruct (ready_at_first_spec es (indeg g)) as [Hk Hr].
  assert (∀ o, deg (indeg g) o = Z.of_nat (length (into [] o E))) as Hdeg.
  { intros o. unfold deg. destruct (decide (o < n)%nat) as [Ho|Ho]; [by rewrite R2|].
    rewrite (lookup_ge_None_2 (indeg g) o) by (unfold n in *; lia). cbn.
    destruct (into [] o E) as [|[d o'] l] eqn:Ei; [done|].
    assert ((d, o') ∈ into [] o E) as [[Ho' _] HiE]%list_elem_of_filter by (rewrite Ei; left).
    cbn in Ho'. subst o'. by destruct (R4 _ _ HiE). }
  destruct (take_ready_spec es E n (outgoing g) (indeg g) (ready_at_first es (indeg g)) [])
    as (taken & m' & Etk & Hs & Hord); [done|done| |done|done|by intros k i j H|cbn; lia|].
  { split; cbn [app].
    - by apply keyed_nodup with (embeds := es).
    - intros o [Ho _]%Hr. by apply elem_of_indices.
    - done.
    - intros o Ho%elem_of_indices. rewrite Hr. tauto.
    - by intros k o d H. }
  assert (∀ a b, (a, b) ∈ E → ∃ e d, es !! b = Some e ∧ needs_complete d e ∧ index_of es 0 ∅ !! d = Some a) as HE'.
  { intros a b [[]%not_elem_of_nil|(k & e & d & H1 & -> & H2 & H3)]%HE. by exists e, d. }
  assert (∀ o, o ∈ indices es → o ∈ taken) as Hall.
  { apply (sorting_complete _ _ _ _ ltac:(intros d o [H1 H2]%R4; by rewrite !elem_of_indices) Hs).
    assert (∀ a b, tc (λ d o, (d, o) ∈ E) a b → ∃ ea eb, es !! a = Some ea ∧ es !! b = Some eb ∧
      tc (embeds m) (embed_name ea) (embed_name eb)) as Htc.
    { assert (∀ a b, (a, b) ∈ E → ∃ ea eb, es !! a = Some ea ∧ es !! b = Some eb ∧
        embeds m (embed_name ea) (embed_name eb)) as Hone.
      { intros a b (eb & d & Hb & Hd & (ea & Ha & <-)%Hix)%HE'. exists ea, eb. split; [done|]. split; [done|].
        apply embeds_complete; [by eapply list_elem_of_lookup_2|done|].
        apply list_elem_of_In, in_map, list_elem_of_In. by eapply list_elem_of_lookup_2. }
      induction 1 as [a b H|a b c H _ (eb & ec & Hb & Hc & IH)].
      - destruct (Hone _ _ H) as (ea & eb & Ha & Hb & Hm). exists ea, eb. split_and!; [done..|by apply tc_once].
      - destruct (Hone _ _ H) as (ea & eb' & Ha & Hb' & Hm). rewrite Hb in Hb'. injection Hb' as <-.
        exists ea, ec. split_and!; [done..|]. by eapply tc_l. }
    intros k (ea & eb & Ha & Hb & Hm)%Htc. rewrite Ha in Hb. injection Hb as <-. by apply (Hac (embed_name ea)). }
  pose proof Hs as [S1 S2 S3 S4 S5]. rewrite app_nil_r in *.
  assert (∀ i, i ∈ taken → (i < length es)%nat) as Hlt by (intros i Hi%S2; by apply elem_of_indices).
  assert (taken ≡ₚ seq 0 n) as Hperm.
  { apply NoDup_Permutation; [done|apply NoDup_seq|]. intros i. rewrite elem_of_seq. split.
    - intros ?%Hlt. unfold n. lia.
    - intros [_ ?]. by apply Hall, elem_of_indices. }
  destruct (omap_lookup_seq es taken Hlt) as [Hlen Hlk].
  exists (omap (λ i, es !! i) taken). split.
  { unfold SortEmbeds. fold n. rewrite Eg. cbn [gen_bind]. rewrite Etk. cbn [gen_bind].
    rewrite bool_decide_true; [done|]. rewrite Hlen, Hperm. apply length_seq. }
  assert (∀ d, d ∈ map embed_name es → ∃ a ea, index_of es 0 ∅ !! d = Some a ∧ es !! a = Some ea ∧ embed_name ea = d)
    as Hname.
  { intros d Hd. destruct (index_of_some es 0 ∅ d) as [a Ha]; [by left|].
    destruct (Hix d a Ha) as (ea & H1 & H2). by exists a, ea. }
  assert (∀ k e, omap (λ i, es !! i) taken !! k = Some e → ∃ b, taken !! k = Some b ∧ es !! b = Some e) as Hback.
  { intros k e Hk'. destruct (lookup_lt_is_Some_2 taken k) as [b Hb].
    - apply lookup_lt_Some in Hk'. lia.
    - exists b. split; [done|]. by rewrite <- (Hlk k b Hb). }
  split.
  - rewrite Hperm. unfold n. by rewrite omap_seq_id.
  - intros i e d Hi Hd (a & ea & Ha & Hea & <-)%Hname. destruct (Hback _ _ Hi) as (b & Hb & He).
    assert (a ∈ take i taken) as Hat.
    { apply (S5 i b a Hb), HE. right. exists b, e, (embed_name ea). by split_and!. }
    apply list_elem_of_In, in_map, list_elem_of_In. rewrite <- omap_take by done.
    apply elem_of_omap_lookup. by exists a.
  - intros i e e' Hnd Hi [k Hk']%list_elem_of_lookup Hpre. rewrite lookup_drop in Hk'.
    destruct (Hback _ _ Hi) as (b & Hb & He), (Hback _ _ Hk') as (j & Hj & He').
    assert (pair_less (index_at es j, j) (index_at es b, b) = false) as Hle.
    { apply (Hord i b j Hb).
      - by apply lookup_lt_Some in He'.
      - intros (i' & Hi')%list_elem_of_lookup. apply lookup_take_Some in Hi' as [Hi' Hlt'].
        pose proof (NoDup_lookup _ _ _ _ S1 Hi' Hj). lia.
      - intros a (e2 & d & He2 & Hd & Ha)%HE'. rewrite He' in He2. injection He2 as <-.
        destruct (Hix d a Ha) as (ea & Hea & Hn).
        assert (d ∈ map embed_name (take i (omap (λ i, es !! i) taken))) as Hin.
        { apply Hpre; [done|]. rewrite <- Hn. apply list_elem_of_In, in_map, list_elem_of_In.
          by eapply list_elem_of_lookup_2. }
        apply list_elem_of_In, in_map_iff in Hin as (ec & Hec & Hin%list_elem_of_In).
        rewrite <- omap_take in Hin by done. apply elem_of_omap_lookup in Hin as (c & Hc & Hes).
        assert (a = c) as ->; [|done].
        apply (NoDup_lookup (embed_name <$> es) a c d Hnd); rewrite list_lookup_fmap; [rewrite Hea|rewrite Hes];
          cbn; congruence. }
    unfold pair_less, index_at in Hle. cbn [fst snd] in Hle. rewrite He, He' in Hle.
    apply orb_false_iff in Hle as [Hle _]. apply Z.ltb_ge in Hle. exact Hle.
Qed.

Lemma enabled_typed enabled m : typed_module m → typed_module (ApplyEnableIf enabled m).
Proof.
  unfold typed_module. rewrite !Forall_forall. intros H [o ts'] Hn.
  destruct (ApplyEnableIf_within enabled m o ts' Hn) as (ts & Hts & Hsub). specialize (H _ Hts).
  cbn in *. rewrite Forall_forall in *. auto.
Qed.

(** ** The order, without the code's own collection *)

Definition class_id (e : Embed) : list Z :=
  match decl e with
  | inl s => class_name (s_owner_container s) (s_name s)
  | inr u => class_name (u_owner_container u) (u_name u)
  end.
Definition member_types (e : Embed) : list TypeSpec :=
  match decl e with inl s => map f_type (s_fields s) | inr u => map uf_type (u_fields u) end.
(** [e] has a member that has a value of the class [d] in it. *)
Definition class_holds (d : list Z) (e : Embed) : Prop := ∃ t, t ∈ member_types e ∧ by_value d t.

(** [out] has the classes of [m], each once, behind those that they hold by value; and of
    the classes that could come next the one that comes is the first in the file. *)
Record class_order (m : Module_) (out : list Embed) : Prop := {
  co_once : out ≡ₚ module_embeds m;
  co_structs s : struct_of m s ↔ ∃ e, e ∈ out ∧ decl e = inl s ∧ decl_index e = s_decl_index s;
  co_unions u : union_of m u ↔ ∃ e, e ∈ out ∧ decl e = inr u ∧ decl_index e = u_decl_index u;
  co_held i e d : out !! i = Some e → class_holds d e → d ∈ map class_id out → d ∈ map class_id (take i out);
  co_file i e e' : NoDup (map class_id out) → out !! i = Some e → e' ∈ drop i out →
    (∀ d, class_holds d e' → d ∈ map class_id out → d ∈ map class_id (take i out)) →
    decl_index e <= decl_index e'
}.

Lemma class_id_name es : map class_id es = map embed_name es.
Proof.
  apply map_ext. intros e. unfold class_id, embed_name. by destruct (decl e); rewrite class_name_key.
Qed.
Lemma class_holds_needs d e : class_holds d e ↔ needs_complete d e.
Proof.
  unfold class_holds, needs_complete. setoid_rewrite by_value_deps. unfold member_types, embed_types. split.
  - intros (t & Ht & ds & H1 & H2). by exists t, ds.
  - intros (t & ds & Ht & H1 & H2). exists t. split; [done|]. by exists ds.
Qed.

Lemma elem_of_parts {A} (x : A) l (f : Interface → list A) ints :
  x ∈ l ++ flat_map f ints ↔ x ∈ l ∨ ∃ i, i ∈ ints ∧ x ∈ f i.
Proof.
  rewrite elem_of_app, (list_elem_of_In (flat_map f ints)), in_flat_map. setoid_rewrite <- list_elem_of_In. done.
Qed.
Lemma module_embeds_structs m s :
  struct_of m s ↔ ∃ e, e ∈ module_embeds m ∧ decl e = inl s ∧ decl_index e = s_decl_index s.
Proof.
  unfold struct_of. rewrite <- elem_of_parts. unfold module_embeds, AllStructs. split.
  - intros H. exists (mkEmbed (s_decl_index s) (inl s)). split; [|done].
    apply elem_of_app. left. apply list_elem_of_fmap. by exists s.
  - intros (e & [(x & -> & Hx)%list_elem_of_fmap|(x & -> & Hx)%list_elem_of_fmap]%elem_of_app & E & _);
      [by injection E as <-|done].
Qed.
Lemma module_embeds_unions m u :
  union_of m u ↔ ∃ e, e ∈ module_embeds m ∧ decl e = inr u ∧ decl_index e = u_decl_index u.
Proof.
  unfold union_of. rewrite <- elem_of_parts. unfold module_embeds, AllUnions. split.
  - intros H. exists (mkEmbed (u_decl_index u) (inr u)). split; [|done].
    apply elem_of_app. right. apply list_elem_of_fmap. by exists u.
  - intros (e & [(x & -> & Hx)%list_elem_of_fmap|(x & -> & Hx)%list_elem_of_fmap]%elem_of_app & E & _);
      [done|by injection E as <-].
Qed.

Lemma emitted_class_order m out : emitted_order (module_embeds m) out → class_order m out.
Proof.
  intros [H1 H2 H3].
  assert (∀ d, d ∈ map embed_name (module_embeds m) ↔ d ∈ map embed_name out) as Hm.
  { intros d. assert (map embed_name out ≡ₚ map embed_name (module_embeds m)) as -> by (by apply Permutation_map). done. }
  split; try done.
  - intros s. rewrite module_embeds_structs. by setoid_rewrite H1.
  - intros u. rewrite module_embeds_unions. by setoid_rewrite H1.
  - intros i e d Hi Hd%class_holds_needs. rewrite !class_id_name, <- Hm. by apply (H2 i e d).
  - intros i e e' Hnd Hi He Hx. apply (H3 i e e'); [|done..|].
    + rewrite class_id_name in Hnd. assert (map embed_name (module_embeds m) ≡ₚ map embed_name out) as -> by (by apply Permutation_map). done.
    + intros d Hd Hin. rewrite <- class_id_name. apply Hx; [by apply class_holds_needs|]. rewrite class_id_name. by apply Hm.
Qed.



(** In the sample, [S] has a [T] as an optional member only, and [T] two [U]s: [S] comes
    before [T], which its [std::optional] needs complete. *)
Example sample_order :
  match SortEmbeds (module_embeds sample_module) with
  | inr out => map embed_name out | inl _ => [] end = [bytes "S"; bytes "U"; bytes "T"; bytes "I_GResult"].
Proof. vm_compute. reflexivity. Qed.
