(* ===== verification/GenCode.v ===== *)
(** * The statements that the generator writes

    The functions that write and read a struct, a union or the parameters of a method
    are built as statements; [print_stmts] gives the text that [src/src/cpp_generator.cc]
    sends to its stream for them, so that what is emitted can both be compared with
    the code and be run ([GenSem]). *)
From Stdlib Require Import ZArith Lia.
From stdpp Require Import base list.
From S2P Require Import Prelude Ast TypeIntern GenNames.

(** Local variables.  The [uid] of the code keeps apart those of one function. *)
Inductive Var :=
  | V_value | V_out
  | V_has (id : Z) | V_opt (id : Z) | V_n (id : Z) | V_e (id : Z) | V_p (id : Z)
  | V_i (id : Z) | V_k (id : Z) | V_v (id : Z)
  | V_h_version (id : Z) | V_h_handle (id : Z) | V_h_iid (id : Z) | V_h_pipe (id : Z)
  | V_iid | V_version | V_header_offset | V_num_bytes | V_struct_end
  | V_union_size | V_union_end | V_tag | V_wvc_v
  | V_param (name : list Z).

#[export] Instance Var_eq_dec : EqDecision Var.
Proof. solve_decision. Defined.

Definition var_name (x : Var) : list Z :=
  match x with
  | V_value => text "value" | V_out => text "out"
  | V_has id => text "wvc_has" ++ to_string id
  | V_opt id => text "wvc_opt" ++ to_string id
  | V_n id => text "wvc_n" ++ to_string id
  | V_e id => text "wvc_e" ++ to_string id
  | V_p id => text "wvc_p" ++ to_string id
  | V_i id => text "wvc_i" ++ to_string id
  | V_k id => text "wvc_k" ++ to_string id
  | V_v id => text "wvc_v" ++ to_string id
  | V_h_version id => text "wvc_h" ++ to_string id ++ text "_version"
  | V_h_handle id => text "wvc_h" ++ to_string id ++ text "_handle"
  | V_h_iid id => text "wvc_h" ++ to_string id ++ text "_iid"
  | V_h_pipe id => text "wvc_h" ++ to_string id ++ text "_pipe"
  | V_iid => text "wvc_iid" | V_version => text "wvc_version"
  | V_header_offset => text "wvc_header_offset" | V_num_bytes => text "wvc_num_bytes"
  | V_struct_end => text "wvc_struct_end"
  | V_union_size => text "wvc_union_size" | V_union_end => text "wvc_union_end"
  | V_tag => text "wvc_tag" | V_wvc_v => text "wvc_v"
  | V_param name => name
  end.

(** Expressions that denote an object. *)
Inductive Expr :=
  | EVar (x : Var)
  | EDot (e : Expr) (f : list Z)
  | EArrow (e : Expr) (f : list Z)
  | EAccess (e : Expr) (f : list Z)
  | EDeref (e : Expr)
  | EFirst (e : Expr)
  | ESecond (e : Expr)
  | EAt (e : Expr) (i : Var).

Fixpoint print_expr (e : Expr) : list Z :=
  match e with
  | EVar x => var_name x
  | EDot e f => print_expr e ++ text "." ++ f
  | EArrow e f => print_expr e ++ text "->" ++ f
  | EAccess e f => print_expr e ++ text "." ++ f ++ text "()"
  | EDeref e => text "(" ++ text "*" ++ print_expr e ++ text ")"
  | EFirst e => print_expr e ++ text ".first"
  | ESecond e => print_expr e ++ text ".second"
  | EAt e i => text "(" ++ print_expr e ++ text ")[" ++ var_name i ++ text "]"
  end.

(** What is assigned, or initialises a variable.  [take] is the next handle of the
    message. *)
Inductive Rhs :=
  | RFalse | RZero
  | RHasValue (e : Expr) | RIsValid (e : Expr) | RSize (e : Expr)
  | RPassVersion (e : Expr) | RPassHandle (e : Expr) | RPassPipe (e : Expr)
  | RReleaseWithoutClosing (x : Var)
  | RCast (type : list Z) (x : Var)
  | RMove (x : Var) | RNullopt
  | RTakeHandle (scoped raw : list Z)
  | RTakeRemote (interface : list Z) | RTakeReceiver (interface : list Z)
  | RLocalRemote (interface : list Z) | RLocalReceiver (interface : list Z)
  | RPayloadNumBytes | RStructEnd | RUnionSize | RUnionEnd.

(** The bound of a counting loop. *)
Inductive Bound := BVar (x : Var) | BFixed (n : Z).

(** What a union's reader does with a tag that no case has. *)
Inductive Otherwise :=
  | OtherwiseDefault (field : list Z) (tag : Z) (type : list Z) (t : TypeSpec)
  | OtherwiseUnknown
  | OtherwiseFail.

(** [x] and [n] stand for variables, [e] for an object, [b] for the statements
    inside braces. *)
Inductive Stmt :=
  | SDecl (type : list Z) (x : Var) (r : Rhs)
  | SDeclInit (type : list Z) (t : TypeSpec) (x : Var)
  | SAssign (e : Expr) (r : Rhs)
  | SBlock (b : list Stmt)
  | SIf (x : Var) (b : list Stmt)
  | SIfElse (x : Var) (b b' : list Stmt)
  | SIfVersion (v : Z) (b : list Stmt)
  | SForEach (mutable_ : bool) (x : Var) (e : Expr) (b : list Stmt)
  | SFor (i : Var) (n : Bound) (b : list Stmt)
  | SWriteScalar (e : Expr)
  | SWriteEnum (e : Expr)
  | SWriteString (e : Expr)
  | SWritePayload (x : Var)
  | SAttachHandle (e : Expr)
  | SWriteClass (ns name : list Z) (e : Expr)
  | SWriteStructHeader
  | SPatchStructHeader (version : Z)
  | SWriteUnionHeader
  | SSwitchWhich (cls : list Z) (cases : list (list Z * Z * list Stmt))
  | SPatchUnionSize
  | SReadVar (x : Var)
  | SReadScalar (e : Expr)
  | SReadString (e : Expr)
  | SCheckKnown (ns name : list Z) (x : Var) (version : option Var)
  | SReadClass (ns name : list Z) (e : Expr) (ctx : bool)
  | SResize (e : Expr) (n : Var)
  | SClear (e : Expr)
  | SEmplace (e : Expr) (k v : Var)
  | SUnusedContext
  | SReadStructHeader
  | SReadUnionSize
  | SFailIfLess (x : Var) (limit : list Z) (n : Z)
  | SFailIfPast (x : Var)
  | SSwitchTag (cls : list Z) (cases : list (list Z * Z * list Stmt)) (otherwise : Otherwise)
  | SSetUnion (field : list Z) (tag : Z) (x : Var)
  | SSetOffset (x : Var).

(** A case: the field, its tag and what is done. *)
Abbreviation Case := (list Z * Z * list Stmt)%type.

(** ** The text *)

(** How a function calls its message and its offset. *)
Record Spelling := mkSpelling { sp_msg : list Z; sp_msg_expr : list Z; sp_offset : list Z }.

(** In the functions of structs and unions. *)
Definition in_class : Spelling := mkSpelling (text "message") (text "message") (text "offset").

Definition take_text : list Z :=
  text "(" ++ text "*wvc_handles)[(" ++ text "*wvc_handle_idx)++].release().value()".
Definition pipe_text : list Z :=
  text "mojo::ScopedMessagePipeHandle(mojo::MessagePipeHandle(" ++ take_text ++ text "))".

Definition print_rhs (r : Rhs) : list Z :=
  match r with
  | RFalse => text "false"
  | RZero => text "0"
  | RHasValue e => print_expr e ++ text ".has_value()"
  | RIsValid e => print_expr e ++ text ".is_valid()"
  | RSize e => text "static_cast<uint32_t>(" ++ print_expr e ++ text ".size())"
  | RPassVersion e => print_expr e ++ text ".version()"
  | RPassHandle e => print_expr e ++ text ".PassHandle()"
  | RPassPipe e => print_expr e ++ text ".PassPipe()"
  | RReleaseWithoutClosing x => var_name x ++ text ".ReleaseWithoutClosing()"
  | RCast type x => text "static_cast<" ++ type ++ text ">(" ++ var_name x ++ text ")"
  | RMove x => text "std::move(" ++ var_name x ++ text ")"
  | RNullopt => text "std::nullopt"
  | RTakeHandle scoped raw => scoped ++ text "(" ++ raw ++ text "(" ++ take_text ++ text "))"
  | RTakeRemote i => text "mojo::PendingRemote<" ++ i ++ text ">(" ++ pipe_text ++ text ", wvc_version)"
  | RTakeReceiver i => text "mojo::PendingReceiver<" ++ i ++ text ">(" ++ pipe_text ++ text ")"
  | RLocalRemote i =>
      text "mojo::PendingAssociatedRemote<" ++ i ++
      text ">(router->CreateLocalEndpointHandle(wvc_iid), wvc_version)"
  | RLocalReceiver i =>
      text "mojo::PendingAssociatedReceiver<" ++ i ++
      text ">(router->CreateLocalEndpointHandle(wvc_iid))"
  | RPayloadNumBytes => text "message.payload_num_bytes()"
  | RStructEnd => text "|      *offset - 8u + wvc_num_bytes"
  | RUnionSize => text "static_cast<uint32_t>(|      message.payload_num_bytes() - wvc_header_offset)"
  | RUnionEnd => text "|      *offset - sizeof(wvc_union_size) + wvc_union_size"
  end.

Section print.
Variable sp : Spelling.

(** [if (!mojo::internal::Read...(message, offset, &...)) return false;] *)
Definition print_read (fn target : list Z) : list Z :=
  text "if (!mojo::internal::" ++ fn ++ text "(" ++ sp_msg_expr sp ++ text ", " ++
  sp_offset sp ++ text ", &" ++ target ++ text ")) return false;|".

Fixpoint print_stmt (ind : list Z) (s : Stmt) : list Z :=
  let inner := ind ++ text "  " in
  let print_stmts ind (l : list Stmt) := flat_map (print_stmt ind) l in
  match s with
  | SDecl type x r =>
      let eq := match r with RStructEnd | RUnionEnd => text " =" | _ => text " = " end in
      ind ++ type ++ text " " ++ var_name x ++ eq ++ print_rhs r ++ text ";|"
  | SDeclInit type _ x => ind ++ type ++ text " " ++ var_name x ++ text "{};|"
  | SAssign e r => ind ++ print_expr e ++ text " = " ++ print_rhs r ++ text ";|"
  | SBlock b => ind ++ text "{|" ++ print_stmts inner b ++ ind ++ text "}|"
  | SIf x b =>
      ind ++ text "if (" ++ var_name x ++ text ") {|" ++ print_stmts inner b ++ ind ++ text "}|"
  | SIfElse x b b' =>
      ind ++ text "if (" ++ var_name x ++ text ") {|" ++ print_stmts inner b ++
      ind ++ text "} else {|" ++ print_stmts inner b' ++ ind ++ text "}|"
  | SIfVersion v b =>
      ind ++ text "if (wvc_version >= " ++ to_string v ++ text "u) {|" ++ print_stmts inner b ++
      ind ++ text "}|"
  | SForEach mutable_ x e b =>
      ind ++ text "for (" ++ (if mutable_ then text "auto& " else text "const auto& ") ++
      var_name x ++ text " : " ++ print_expr e ++ text ") {|" ++ print_stmts inner b ++
      ind ++ text "}|"
  | SFor i n b =>
      let bound := match n with BVar x => var_name x | BFixed n => to_string n ++ text "u" end in
      ind ++ text "for (uint32_t " ++ var_name i ++ text " = 0; " ++ var_name i ++ text " < " ++
      bound ++ text "; ++" ++ var_name i ++ text ") {|" ++ print_stmts inner b ++ ind ++ text "}|"
  | SWriteScalar e =>
      ind ++ text "mojo::internal::WriteScalar(&" ++ sp_msg sp ++ text ", " ++ print_expr e ++ text ");|"
  | SWriteEnum e =>
      ind ++ text "mojo::internal::WriteScalar(&" ++ sp_msg sp ++ text ", static_cast<int32_t>(" ++
      print_expr e ++ text "));|"
  | SWriteString e =>
      ind ++ text "mojo::internal::WriteString(&" ++ sp_msg sp ++ text ", " ++ print_expr e ++ text ");|"
  | SWritePayload x =>
      ind ++ sp_msg sp ++ text ".WritePayload(&" ++ var_name x ++ text ", sizeof(" ++ var_name x ++
      text "));|"
  | SAttachHandle e =>
      ind ++ sp_msg sp ++ text ".AttachHandle(mojo::ScopedHandle(" ++ print_expr e ++
      text ".release()));|"
  | SWriteClass ns name e =>
      ind ++ ns ++ text "Write" ++ name ++ text "(" ++ sp_msg sp ++ text ", " ++ print_expr e ++
      text ");|"
  | SWriteStructHeader => ind ++ text "mojo::internal::WriteStructHeader(&message, 0, 0);|"
  | SPatchStructHeader version =>
      ind ++ text "mojo::internal::PatchStructHeader(|" ++
      text "      message.mutable_payload() + wvc_header_offset,|" ++
      text "      static_cast<uint32_t>(message.payload_num_bytes() - wvc_header_offset),|" ++
      text "      " ++ to_string version ++ text "u);|"
  | SWriteUnionHeader =>
      ind ++ text "mojo::internal::WriteScalar(&message, static_cast<uint32_t>(0));|" ++
      ind ++ text "mojo::internal::WriteScalar(&message, static_cast<int32_t>(value.which()));|"
  | SSwitchWhich cls cases =>
      ind ++ text "switch (value.which()) {|" ++
      flat_map (λ c : Case, ind ++ text "  case " ++ cls ++ text "::Tag::" ++ c.1.1 ++ text ":|" ++
        ind ++ text "    {|" ++ print_stmts (ind ++ text "      ") c.2 ++ ind ++ text "    }|" ++
        ind ++ text "    break;|") cases ++
      ind ++ text "  default:|" ++ ind ++ text "    break;|" ++ ind ++ text "}|"
  | SPatchUnionSize =>
      ind ++ text "mojo::internal::PatchUint32(message.mutable_payload() + " ++
      text "wvc_header_offset, wvc_union_size);|"
  | SReadVar x => ind ++ print_read (text "ReadScalar") (var_name x)
  | SReadScalar e => ind ++ print_read (text "ReadScalar") (text "(" ++ print_expr e ++ text ")")
  | SReadString e => ind ++ print_read (text "ReadString") (text "(" ++ print_expr e ++ text ")")
  | SCheckKnown ns name x version =>
      ind ++ text "if (!" ++ ns ++ text "IsKnown" ++ name ++
      match version with
      | Some v => text "AsOf(" ++ var_name x ++ text ", " ++ var_name v
      | None => text "(" ++ var_name x
      end ++ text ")) return false;|"
  | SReadClass ns name e ctx =>
      ind ++ text "if (!" ++ ns ++ text "Read" ++ name ++ text "(" ++ sp_msg_expr sp ++ text ", " ++
      sp_offset sp ++ text ", &(" ++ print_expr e ++ text ")" ++
      (if ctx then text ", wvc_handles, wvc_handle_idx, router" else []) ++ text ")) return false;|"
  | SResize e n => ind ++ text "(" ++ print_expr e ++ text ").resize(" ++ var_name n ++ text ");|"
  | SClear e => ind ++ text "(" ++ print_expr e ++ text ").clear();|"
  | SEmplace e k v =>
      ind ++ text "(" ++ print_expr e ++ text ").emplace(std::move(" ++ var_name k ++
      text "), std::move(" ++ var_name v ++ text "));|"
  | SUnusedContext =>
      ind ++ text "(void)wvc_handles;|" ++ ind ++ text "(void)wvc_handle_idx;|" ++
      ind ++ text "(void)router;|"
  | SReadStructHeader =>
      ind ++ text "if (!mojo::internal::ReadStructHeader(message, offset, &wvc_num_bytes, &wvc_version)) {|" ++
      ind ++ text "  return false;|" ++ ind ++ text "}|"
  | SReadUnionSize =>
      ind ++ text "if (!mojo::internal::ReadScalar(message, offset, &wvc_union_size)) {|" ++
      ind ++ text "  return false;|" ++ ind ++ text "}|"
  | SFailIfLess x limit _ =>
      ind ++ text "if (" ++ var_name x ++ text " < " ++ limit ++ text ") return false;|"
  | SFailIfPast x =>
      ind ++ text "if (" ++ var_name x ++ text " > message.payload_num_bytes()) return false;|"
  | SSwitchTag cls cases otherwise =>
      ind ++ text "switch (static_cast<" ++ cls ++ text "::Tag>(wvc_tag)) {|" ++
      flat_map (λ c : Case, ind ++ text "  case " ++ cls ++ text "::Tag::" ++ c.1.1 ++ text ": {|" ++
        print_stmts (ind ++ text "    ") c.2 ++
        ind ++ text "    break;|" ++ ind ++ text "  }|") cases ++
      ind ++ text "  default:|" ++
      match otherwise with
      | OtherwiseDefault f _ type _ =>
          ind ++ text "    out->set_" ++ f ++ text "(" ++ type ++ text "{});|" ++
          ind ++ text "    break;|"
      | OtherwiseUnknown => ind ++ text "    out->set_unknown();|" ++ ind ++ text "    break;|"
      | OtherwiseFail => ind ++ text "    return false;|"
      end ++ ind ++ text "}|"
  | SSetUnion f _ x =>
      ind ++ text "out->set_" ++ f ++ text "(std::move(" ++ var_name x ++ text "));|"
  | SSetOffset x => ind ++ text "*offset = " ++ var_name x ++ text ";|"
  end.
Definition print_stmts (ind : list Z) (l : list Stmt) : list Z := flat_map (print_stmt ind) l.
End print.
