(* ===== verification/GenIO.v ===== *)
(** * Generated functions that write and read structs and unions

    [EmitWriteValue], [EmitReadInto], [EmitStructIO] and [EmitUnionIO] of
    [src/src/cpp_generator.cc], as the statements that they emit.  [uid] is threaded
    as the code threads it: a number taken goes with the next one. *)
From Stdlib Require Import ZArith Lia.
From stdpp Require Import base list gmap.
From S2P Require Import Prelude Ast TypeIntern GenNames GenCode.

(** [enum_extensible], by bare name. *)
Definition IsEnumExtensible (enum_extensible : gmap (list Z) bool) (enum_name : list Z) : bool :=
  default false (enum_extensible !! enum_name).

Definition non_null (t : TypeSpec) : TypeSpec :=
  mkTypeSpec (t_kind t) (t_name t) (element t) (key t) false (owner_namespace t) (owner_container t)
    (fixed_array_size t).

(** ** Writing *)

Definition EmitHandleWritePayload (type : TypeSpec) (expr : Expr) (uid : Z) : list Stmt * Z :=
  let id := uid in
  let endpoint := text "mojo::ScopedInterfaceEndpointHandle" in
  let pipe := text "mojo::ScopedMessagePipeHandle" in
  (match t_kind type with
   | kPendingAssociatedRemote =>
       [SDecl (text "uint32_t") (V_h_version id) (RPassVersion expr);
        SDecl endpoint (V_h_handle id) (RPassHandle expr);
        SDecl (text "uint32_t") (V_h_iid id) (RReleaseWithoutClosing (V_h_handle id));
        SWritePayload (V_h_iid id);
        SWritePayload (V_h_version id)]
   | kPendingAssociatedReceiver =>
       [SDecl endpoint (V_h_handle id) (RPassHandle expr);
        SDecl (text "uint32_t") (V_h_iid id) (RReleaseWithoutClosing (V_h_handle id));
        SWritePayload (V_h_iid id)]
   | kPendingRemote =>
       [SDecl (text "uint32_t") (V_h_version id) (RPassVersion expr);
        SDecl pipe (V_h_pipe id) (RPassPipe expr);
        SAttachHandle (EVar (V_h_pipe id));
        SWritePayload (V_h_version id)]
   | kPendingReceiver =>
       [SDecl pipe (V_h_pipe id) (RPassPipe expr);
        SAttachHandle (EVar (V_h_pipe id))]
   | kHandle | kHandleMessagePipe | kHandleDataPipeConsumer | kHandleDataPipeProducer
   | kHandleSharedBuffer | kHandlePlatform => [SAttachHandle expr]
   | _ => []
   end, uid + 1).

(** [plain] is the code after the tests for handles and [nullable]: what the call
    for [non_null] comes to. *)
Fixpoint EmitWriteValue (ctx : gset (list Z)) (type : TypeSpec) (expr : Expr) (uid : Z)
    : Gen (list Stmt * Z) :=
  let plain expr uid :=
    match t_kind type with
    | kString => inr ([SWriteString expr], uid)
    | kEnumRef => inr ([SWriteEnum expr], uid)
    | kStructRef | kUnionRef =>
        inr ([SWriteClass (NamespacePrefix (owner_namespace type)) (CppEmbedName_type type) expr], uid)
    | kArray =>
        match element type with
        | None => inl NullElement
        | Some el =>
            let id := uid in
            let? mutable_ := TypeNeedsHandleCtx el ctx in
            let? r := EmitWriteValue ctx el (EVar (V_e id)) (uid + 1) in
            inr ([SBlock
                    ((if fixed_array_size type =? 0
                      then [SDecl (text "uint32_t") (V_n id) (RSize expr); SWritePayload (V_n id)]
                      else []) ++
                     [SForEach mutable_ (V_e id) expr r.1])], r.2)
        end
    | kMap =>
        match key type, element type with
        | Some k, Some el =>
            let id := uid in
            let? mutable_ := TypeNeedsHandleCtx el ctx in
            let? r1 := EmitWriteValue ctx k (EFirst (EVar (V_p id))) (uid + 1) in
            let? r2 := EmitWriteValue ctx el (ESecond (EVar (V_p id))) r1.2 in
            inr ([SBlock
                    [SDecl (text "uint32_t") (V_n id) (RSize expr); SWritePayload (V_n id);
                     SForEach mutable_ (V_p id) expr (r1.1 ++ r2.1)]], r2.2)
        | _, _ => inl NullElement
        end
    | _ => inr ([SWriteScalar expr], uid)
    end in
  if IsHandleBearing (t_kind type) then
    if nullable type then
      let id := uid in
      let r := EmitHandleWritePayload type expr (uid + 1) in
      inr ([SBlock [SDecl (text "bool") (V_has id) (RIsValid expr);
                    SWriteScalar (EVar (V_has id));
                    SIf (V_has id) r.1]], r.2)
    else inr (EmitHandleWritePayload type expr uid)
  else if nullable type then
    let id := uid in
    let? r := plain (EDeref expr) (uid + 1) in
    inr ([SBlock [SDecl (text "bool") (V_has id) (RHasValue expr);
                  SWriteScalar (EVar (V_has id));
                  SIf (V_has id) r.1]], r.2)
  else plain expr uid.

(** ** Reading *)

Definition EmitHandleReadInto (type : TypeSpec) (target_expr : Expr) : Gen (list Stmt) :=
  match t_kind type with
  | kPendingAssociatedRemote =>
      inr [SBlock
             [SDecl (text "uint32_t") V_iid RZero; SDecl (text "uint32_t") V_version RZero;
              SReadVar V_iid; SReadVar V_version;
              SAssign target_expr (RLocalRemote (qualified type))]]
  | kPendingAssociatedReceiver =>
      inr [SBlock
             [SDecl (text "uint32_t") V_iid RZero; SReadVar V_iid;
              SAssign target_expr (RLocalReceiver (qualified type))]]
  | kPendingRemote =>
      inr [SBlock
             [SDecl (text "uint32_t") V_version RZero; SReadVar V_version;
              SAssign target_expr (RTakeRemote (qualified type))]]
  | kPendingReceiver => inr [SAssign target_expr (RTakeReceiver (qualified type))]
  | kHandle | kHandleMessagePipe | kHandleDataPipeConsumer | kHandleDataPipeProducer
  | kHandleSharedBuffer | kHandlePlatform =>
      let? scoped := HandleCppType (t_kind type) in
      let? raw := HandleRawClassName (t_kind type) in
      inr [SAssign target_expr (RTakeHandle scoped raw)]
  | _ => inr []
  end.

Section read.
Variables (enum_extensible : gmap (list Z) bool) (ctx : gset (list Z)).

Fixpoint EmitReadInto (version_expr : option Var) (type : TypeSpec) (target_expr : Expr) (uid : Z)
    : Gen (list Stmt * Z) :=
  let plain target_expr uid :=
    match t_kind type with
    | kString => inr ([SReadString target_expr], uid)
    | kEnumRef =>
        let tmp := V_v uid in
        inr ([SDecl (text "int32_t") tmp RZero; SReadVar tmp] ++
             (if IsEnumExtensible enum_extensible (t_name type) then []
              else [SCheckKnown (NamespacePrefix (owner_namespace type))
                      (ContainerMangle (owner_container type) ++ t_name type) tmp version_expr]) ++
             [SAssign target_expr (RCast (qualified type) tmp)], uid + 1)
    | kStructRef | kUnionRef =>
        inr ([SReadClass (NamespacePrefix (owner_namespace type)) (CppEmbedName_type type) target_expr
                (bool_decide (CppEmbedName_type type ∈ ctx))], uid)
    | kArray =>
        match element type with
        | None => inl NullElement
        | Some el =>
            let id := uid in
            let? r := EmitReadInto version_expr el (EAt target_expr (V_i id)) (uid + 1) in
            inr ([SBlock
                    (if fixed_array_size type =? 0
                     then [SDecl (text "uint32_t") (V_n id) RZero; SReadVar (V_n id);
                           SResize target_expr (V_n id); SFor (V_i id) (BVar (V_n id)) r.1]
                     else [SFor (V_i id) (BFixed (fixed_array_size type)) r.1])], r.2)
        end
    | kMap =>
        match key type, element type with
        | Some k, Some el =>
            let id := uid in
            let? kt := CppValueType k in
            let? r1 := EmitReadInto version_expr k (EVar (V_k id)) (uid + 1) in
            let? vt := CppValueType el in
            let? r2 := EmitReadInto version_expr el (EVar (V_v id)) r1.2 in
            inr ([SBlock
                    [SDecl (text "uint32_t") (V_n id) RZero; SReadVar (V_n id);
                     SClear target_expr;
                     SFor (V_i id) (BVar (V_n id))
                       ([SDeclInit kt k (V_k id)] ++ r1.1 ++ [SDeclInit vt el (V_v id)] ++ r2.1 ++
                        [SEmplace target_expr (V_k id) (V_v id)])]], r2.2)
        | _, _ => inl NullElement
        end
    | _ => inr ([SReadScalar target_expr], uid)
    end in
  if IsHandleBearing (t_kind type) then
    let? r := EmitHandleReadInto type target_expr in
    if nullable type then
      let id := uid in
      inr ([SBlock [SDecl (text "bool") (V_has id) RFalse; SReadVar (V_has id); SIf (V_has id) r]],
           uid + 1)
    else inr (r, uid)
  else if nullable type then
    let id := uid in
    let? vt := CppValueType (non_null type) in
    let? r := plain (EVar (V_opt id)) (uid + 1) in
    inr ([SBlock [SDecl (text "bool") (V_has id) RFalse; SReadVar (V_has id);
                  SIfElse (V_has id)
                    ([SDeclInit vt (non_null type) (V_opt id)] ++ r.1 ++
                     [SAssign target_expr (RMove (V_opt id))])
                    [SAssign target_expr RNullopt]]], r.2)
  else plain target_expr uid.
End read.

(** ** The functions of a class *)

(** [Write<class>] and [Read<class>]; a typemapped class leaves both to
    [mojo::NativeTraits]. *)
Inductive Body := Native | Statements (b : list Stmt).
Record ClassIO := mkClassIO {
  io_name : list Z;
  io_needs_ctx : bool;
  io_write : Body;
  io_read : Body
}.

(** A field of the struct at an index of [WireFieldOrder]. *)
Definition wire_fields (s : StructDecl) : list StructField :=
  omap (λ i, s_fields s !! i) (WireFieldOrder s).

Fixpoint write_fields (ctx : gset (list Z)) (fs : list StructField) (uid : Z) : Gen (list Stmt) :=
  match fs with
  | [] => inr []
  | f :: fs =>
      let? r := EmitWriteValue ctx (f_type f) (EDot (EVar V_value) (f_name f)) uid in
      let? rest := write_fields ctx fs r.2 in
      inr (r.1 ++ rest)
  end.

Fixpoint read_fields (ext : gmap (list Z) bool) (ctx : gset (list Z)) (fs : list StructField) (uid : Z)
    : Gen (list Stmt) :=
  match fs with
  | [] => inr []
  | f :: fs =>
      let? r := EmitReadInto ext ctx (Some V_version) (f_type f) (EArrow (EVar V_out) (f_name f)) uid in
      let? rest := read_fields ext ctx fs r.2 in
      inr ((if f_min_version f =? 0 then r.1 else [SIfVersion (f_min_version f) r.1]) ++ rest)
  end.

Definition unused_context (needs_ctx : bool) : list Stmt := if needs_ctx then [SUnusedContext] else [].

Definition EmitStructIO (s : StructDecl) (ext : gmap (list Z) bool) (ctx : gset (list Z))
    (opt : GeneratorOptions) (module_ns : list Z) : Gen ClassIO :=
  let n := CppEmbedName_struct s in
  match LookupTypemap opt (s_name s) (s_owner_container s) module_ns with
  | Some _ => inr (mkClassIO n false Native Native)
  | None =>
      let needs_ctx := bool_decide (n ∈ ctx) in
      let? w := write_fields ctx (wire_fields s) 0 in
      let? r := read_fields ext ctx (wire_fields s) 0 in
      inr (mkClassIO n needs_ctx
        (Statements
          ([SDecl (text "size_t") V_header_offset RPayloadNumBytes; SWriteStructHeader] ++ w ++
           [SPatchStructHeader (s_version s)]))
        (Statements
          (unused_context needs_ctx ++
           [SDecl (text "uint32_t") V_num_bytes RZero; SDecl (text "uint32_t") V_version RZero;
            SReadStructHeader; SFailIfLess V_num_bytes (text "8u") 8;
            SDecl (text "size_t") V_struct_end RStructEnd; SFailIfPast V_struct_end] ++ r ++
           [SSetOffset V_struct_end])))
  end.

(** [uid] starts again in every case. *)
Fixpoint write_cases (ctx : gset (list Z)) (fs : list UnionField) : Gen (list Case) :=
  match fs with
  | [] => inr []
  | f :: fs =>
      let? r := EmitWriteValue ctx (uf_type f) (EAccess (EVar V_value) (uf_name f)) 0 in
      let? rest := write_cases ctx fs in
      inr ((uf_name f, uf_tag f, r.1) :: rest)
  end.

Fixpoint read_cases (ext : gmap (list Z) bool) (ctx : gset (list Z)) (fs : list UnionField)
    : Gen (list Case) :=
  match fs with
  | [] => inr []
  | f :: fs =>
      let? vt := CppValueType (uf_type f) in
      let? r := EmitReadInto ext ctx None (uf_type f) (EVar V_wvc_v) 0 in
      let? rest := read_cases ext ctx fs in
      inr ((uf_name f, uf_tag f,
            [SDeclInit vt (uf_type f) V_wvc_v] ++ r.1 ++ [SSetUnion (uf_name f) (uf_tag f) V_wvc_v])
           :: rest)
  end.

(** The field marked [Default]: the last one. *)
Definition default_field (u : UnionDecl) : option UnionField :=
  foldl (λ def f, if uf_is_default f then Some f else def) None (u_fields u).

Definition otherwise_of (u : UnionDecl) : Gen Otherwise :=
  if u_is_extensible u then
    match default_field u with
    | Some f => let? t := CppValueType (uf_type f) in inr (OtherwiseDefault (uf_name f) (uf_tag f) t (uf_type f))
    | None => inr OtherwiseUnknown
    end
  else inr OtherwiseFail.

Definition EmitUnionIO (u : UnionDecl) (ext : gmap (list Z) bool) (ctx : gset (list Z)) : Gen ClassIO :=
  let n := CppEmbedName_union u in
  let needs_ctx := bool_decide (n ∈ ctx) in
  let? w := write_cases ctx (u_fields u) in
  let? r := read_cases ext ctx (u_fields u) in
  let? other := otherwise_of u in
  inr (mkClassIO n needs_ctx
    (Statements
      [SDecl (text "size_t") V_header_offset RPayloadNumBytes; SWriteUnionHeader; SSwitchWhich n w;
       SDecl (text "uint32_t") V_union_size RUnionSize; SPatchUnionSize])
    (Statements
      (unused_context needs_ctx ++
       [SDecl (text "uint32_t") V_union_size RZero; SReadUnionSize;
        SFailIfLess V_union_size (text "sizeof(wvc_union_size)") 4;
        SDecl (text "size_t") V_union_end RUnionEnd; SFailIfPast V_union_end;
        SDecl (text "int32_t") V_tag RZero; SReadVar V_tag; SSwitchTag n r other;
        SSetOffset V_union_end]))).

(** [enum_extensible] of [GenerateCppHeader]: a later enum of a name replaces an
    earlier one. *)
Definition module_enum_decls (m : Module_) : list EnumDecl :=
  mod_enums m ++ flat_map s_enums (AllStructs m) ++ flat_map i_enums (mod_interfaces m).
Definition module_extensible (m : Module_) : gmap (list Z) bool :=
  foldl (λ ext e, <[e_name e := e_is_extensible e]> ext) ∅ (module_enum_decls m).

Fixpoint emit_classes (embeds : list Embed) (ext : gmap (list Z) bool) (ctx : gset (list Z))
    (opt : GeneratorOptions) (module_ns : list Z) : Gen (list ClassIO) :=
  match embeds with
  | [] => inr []
  | e :: embeds =>
      let? io := match decl e with
                 | inl s => EmitStructIO s ext ctx opt module_ns
                 | inr u => EmitUnionIO u ext ctx
                 end in
      let? rest := emit_classes embeds ext ctx opt module_ns in
      inr (io :: rest)
  end.

(** The pass of [GenerateCppHeader] over the classes in their order. *)
Definition GenerateIO (m : Module_) (opt : GeneratorOptions) : Gen (list ClassIO) :=
  let? ctx := BuildHandleCtx m in
  let? embeds := SortEmbeds (module_embeds m) in
  emit_classes embeds (module_extensible m) ctx opt (mod_name m).

(** ** Their text *)

Definition context_params (indent : list Z) : list Z :=
  text ",|" ++ indent ++ text "std::vector<mojo::ScopedHandle>" ++ text "* wvc_handles,|" ++
  indent ++ text "size_t* wvc_handle_idx,|" ++ indent ++ text "mojo::MultiplexRouter* router".

Definition EmitWriteReadForward (name : list Z) (needs_ctx : bool) : list Z :=
  text "void Write" ++ name ++ text "(mojo::Message& message, " ++
  (if needs_ctx then [] else text "const ") ++ name ++ text "& value);|" ++
  text "bool Read" ++ name ++ text "(const mojo::Message& message, size_t* offset, " ++ name ++
  text "* out" ++ (if needs_ctx then context_params (replicate 19 32) else []) ++ text ");|".

(** [wide] is the indentation of the context's parameters. *)
Definition print_class (wide : nat) (io : ClassIO) : list Z :=
  let n := io_name io in
  match io_write io with
  | Native =>
      text "inline void Write" ++ n ++ text "(mojo::Message& message, const " ++ n ++ text "& value) {|" ++
      text "  mojo::NativeTraits<" ++ n ++ text ">::Write(message, value);|}||"
  | Statements b =>
      text "inline void Write" ++ n ++ text "(mojo::Message& message, " ++
      (if io_needs_ctx io then [] else text "const ") ++ n ++ text "& value) {|" ++
      print_stmts in_class (text "  ") b ++ text "}||"
  end ++
  match io_read io with
  | Native =>
      text "inline bool Read" ++ n ++ text "(const mojo::Message& message, size_t* offset, " ++ n ++
      text "* out) {|" ++ text "  return mojo::NativeTraits<" ++ n ++ text ">::Read(message, offset, out);|}||"
  | Statements b =>
      text "inline bool Read" ++ n ++ text "(const mojo::Message& message, size_t* offset, " ++ n ++
      text "* out" ++ (if io_needs_ctx io then context_params (replicate wide 32) else []) ++
      text ") {|" ++ print_stmts in_class (text "  ") b ++ text "  return true;|}||"
  end.

(** ** Enums *)

(** What is emitted for an enum: its type, [IsKnown<name>] and [IsKnown<name>AsOf].
    [en_mapped] is the C++ type that a typemap gives it.  [en_known] are the cases of
    the two functions, each with its [MinVersion]. *)
Record EnumIO := mkEnumIO {
  en_name : list Z;
  en_mapped : option (list Z);
  en_values : list (list Z * Z);
  en_known : list (Z * Z)
}.

(** The loop with [seen]. *)
Fixpoint known_cases (values : list EnumValue) (seen : list Z) : list (Z * Z) :=
  match values with
  | [] => []
  | v :: values =>
      if bool_decide (v_value v ∈ seen) then known_cases values seen
      else (v_value v, v_min_version v) :: known_cases values (seen ++ [v_value v])
  end.

Definition EmitEnum (name : list Z) (e : EnumDecl) (opt : GeneratorOptions) (module_ns : list Z) : EnumIO :=
  mkEnumIO name (LookupTypemap opt name [] module_ns)
    (map (λ v, (v_name v, v_value v)) (e_values e)) (known_cases (e_values e) []).

Definition EmitNestedEnumDefinition (container : list Z) (e : EnumDecl) : GeneratorOptions → list Z → EnumIO :=
  EmitEnum (MangledNestedName container (e_name e)) e.

(** The enums of a module, in the order of [GenerateCppHeader]. *)
Definition enum_container (s : StructDecl) : list Z :=
  if bool_decide (s_owner_container s = []) then s_name s else CppEmbedName_struct s.
Definition emit_enums (m : Module_) (opt : GeneratorOptions) : list EnumIO :=
  map (λ e, EmitEnum (e_name e) e opt (mod_name m)) (mod_enums m) ++
  flat_map (λ s, map (λ e, EmitNestedEnumDefinition (enum_container s) e opt (mod_name m)) (s_enums s))
    (AllStructs m) ++
  flat_map (λ i, map (λ e, EmitNestedEnumDefinition (i_name i) e opt (mod_name m)) (i_enums i))
    (mod_interfaces m).

(** [os << value] of an [int32_t]. *)
Definition signed_string (z : Z) : list Z :=
  if z <? 0 then text "-" ++ to_string (- z) else to_string z.

Definition print_enum (io : EnumIO) : list Z :=
  let n := en_name io in
  match en_mapped io with
  | Some mapped =>
      text "using " ++ n ++ text " = " ++ mapped ++ text ";||" ++
      text "inline bool IsKnown" ++ n ++ text "(int32_t) { return true; }|" ++
      text "inline bool IsKnown" ++ n ++ text "AsOf(int32_t, uint32_t) { return true; }||"
  | None =>
      text "enum class " ++ n ++ text " : int32_t {|" ++
      flat_map (λ v, text "  " ++ v.1 ++ text " = " ++ signed_string v.2 ++ text ",|") (en_values io) ++
      text "};||" ++
      text "inline bool IsKnown" ++ n ++ text "(int32_t wvc_value) {|  switch (wvc_value) {|" ++
      flat_map (λ v, text "    case " ++ signed_string v.1 ++ text ":|") (en_known io) ++
      text "      return true;|    default:|      return false;|  }|}||" ++
      text "inline bool IsKnown" ++ n ++ text "AsOf(int32_t wvc_value, uint32_t wvc_version) {|" ++
      text "  (void)wvc_version;|  switch (wvc_value) {|" ++
      flat_map (λ v, text "    case " ++ signed_string v.1 ++ text ":|" ++
        (if v.2 =? 0 then text "      return true;|"
         else text "      return wvc_version >= " ++ to_string v.2 ++ text "u;|")) (en_known io) ++
      text "    default:|      return false;|  }|}||"
  end.

(** ** The functions of a module *)

Record Program := mkProgram {
  p_module : Module_;
  p_enums : list EnumIO;
  p_classes : list ClassIO
}.

Definition GenerateProgram (m : Module_) (opt : GeneratorOptions) : Gen Program :=
  let? classes := GenerateIO m opt in
  inr (mkProgram m (emit_enums m opt) classes).
