(* ===== verification/GenText.v ===== *)
(** * The text of a generated header: types, constants and what surrounds them

    The parts of [src/src/cpp_generator.cc] whose result is text only: the spelling of
    parameters and responses, literals and constants, the definitions of structs and
    unions, namespaces, and the two other files, [GenerateJsHeader] and
    [GenerateGnBuild].  Numbers are printed as [std::to_string] and a stream's
    [setprecision] print them. *)
From Stdlib Require Import ZArith Lia SpecFloat.
From stdpp Require Import base list gmap.
From S2P Require Import Prelude Ast TypeIntern GenNames GenIO.

Fixpoint map_gen {A B} (f : A → Gen B) (l : list A) : Gen (list B) :=
  match l with
  | [] => inr []
  | x :: l => let? y := f x in let? r := map_gen f l in inr (y :: r)
  end.

(** With [", "] between. *)
Definition commas (l : list (list Z)) : list Z :=
  match l with
  | [] => []
  | x :: l => x ++ flat_map (λ y, text ", " ++ y) l
  end.

(** ** Numbers *)

(** [std::to_string] of a 64-bit integer: at most twenty digits. *)
Definition digits (n : Z) : list Z := to_digits 20 n [].
Definition std_to_string (z : Z) : list Z := if z <? 0 then text "-" ++ digits (- z) else digits z.

(** To the nearest integer, ties to even. *)
Definition round_div (num den : Z) : Z :=
  let q := num / den in
  let r := num mod den in
  if 2 * r <? den then q else if den <? 2 * r then q + 1 else if Z.even q then q else q + 1.

(** The least power of ten that [num] has to be multiplied with to reach [den]. *)
Fixpoint tens_below (fuel : nat) (num den : Z) : Z :=
  match fuel with
  | O => 0
  | S fuel => if den <=? num then 0 else 1 + tens_below fuel (num * 10) den
  end.

(** The exponent of the first digit of [num / den]. *)
Definition exponent10 (num den : Z) : Z :=
  if den <=? num then Z.of_nat (length (to_digits 400 (num / den) [])) - 1
  else - tens_below 400 num den.

(** Without the zeros at its end. *)
Fixpoint trim_zeros (l : list Z) : list Z :=
  match l with
  | [] => []
  | c :: l => match trim_zeros l with [] => if c =? 48 then [] else [c] | l => c :: l end
  end.
Definition fraction (l : list Z) : list Z :=
  match trim_zeros l with [] => [] | l => text "." ++ l end.

(** [os << setprecision(prec) << v], as [%.{prec}g] prints it. *)
Definition format_g (prec : Z) (v : spec_float) : list Z :=
  match v with
  | S754_zero s => (if s then text "-" else []) ++ text "0"
  | S754_infinity s => (if s then text "-" else []) ++ text "inf"
  | S754_nan => text "nan"
  | S754_finite s m e =>
      let num := Z.pos m * 2 ^ Z.max e 0 in
      let den := 2 ^ Z.max (- e) 0 in
      let x := exponent10 num den in
      let scaled := if x <=? prec - 1 then round_div (num * 10 ^ (prec - 1 - x)) den
                    else round_div num (den * 10 ^ (x - (prec - 1))) in
      let '(d, x) := if scaled =? 10 ^ prec then (10 ^ (prec - 1), x + 1) else (scaled, x) in
      let ds := to_digits (Z.to_nat prec) d [] in
      (if s then text "-" else []) ++
      if (-4 <=? x) && (x <? prec) then
        if 0 <=? x then take (Z.to_nat (x + 1)) ds ++ fraction (drop (Z.to_nat (x + 1)) ds)
        else text "0" ++ fraction (replicate (Z.to_nat (- x - 1)) 48 ++ ds)
      else
        take 1 ds ++ fraction (drop 1 ds) ++ text "e" ++ (if x <? 0 then text "-" else text "+") ++
        (if Z.abs x <? 10 then text "0" else []) ++ digits (Z.abs x)
  end.

(** [s.find(t) != npos]. *)
Fixpoint starts_with (t s : list Z) : bool :=
  match t, s with
  | [], _ => true
  | a :: t, b :: s => (a =? b) && starts_with t s
  | _, [] => false
  end.
Fixpoint finds (t s : list Z) : bool :=
  starts_with t s || match s with [] => false | _ :: s => finds t s end.

Definition CppFloatLiteral (v : spec_float) (is_float : bool) : list Z :=
  let s := format_g (if is_float then 9 else 17) v in
  let s := if negb (finds (text ".") s) && negb (finds (text "e") s) && negb (finds (text "inf") s) &&
              negb (finds (text "nan") s)
           then s ++ text ".0" else s in
  if is_float then s ++ text "f" else s.

(** ** Values *)

Definition CppStringLiteral (s : list Z) : list Z :=
  text "`" ++ flat_map (λ c, if (c =? 92) || (c =? 34) then [92; c] else [c]) s ++ text "`".

Definition DefaultValueExpr (type : TypeSpec) (v : DefaultValue) : list Z :=
  if negb (bool_decide (named_expr v = [])) then
    QualifierPrefix (named_expr_owner_namespace v) (named_expr_owner_container v) ++ named_expr v
  else
    let t := if bool_decide (t_kind type = kFloat) then text "float" else text "double" in
    match float_special v with
    | FS_kInfinity => text "std::numeric_limits<" ++ t ++ text ">::infinity()"
    | FS_kNegativeInfinity => text "-std::numeric_limits<" ++ t ++ text ">::infinity()"
    | FS_kNaN => text "std::numeric_limits<" ++ t ++ text ">::quiet_NaN()"
    | FS_kNone =>
        match t_kind type with
        | kBool => if bool_value v then text "true" else text "false"
        | kString => CppStringLiteral (string_value v)
        | kFloat => CppFloatLiteral (float_value v) true
        | kDouble => CppFloatLiteral (float_value v) false
        | kUint64 => digits (int_value v mod 2 ^ 64) ++ text "ull"
        | kUint32 | kUint16 | kUint8 => digits (u32 (int_value v)) ++ text "u"
        | _ => std_to_string (int_value v)
        end
    end.

Definition CppFieldInitializer (f : StructField) : list Z :=
  if has_value (f_default_value f) then text "{" ++ DefaultValueExpr (f_type f) (f_default_value f) ++ text "}"
  else text "{}".

(** [name] is the one that it is emitted under. *)
Definition EmitConst (name : list Z) (c : ConstDecl) : Gen (list Z) :=
  let? type := CppValueType (c_type c) in
  inr ((if bool_decide (t_kind (c_type c) = kString) then text "inline const " else text "inline constexpr ") ++
       type ++ text " " ++ name ++ text " = " ++ DefaultValueExpr (c_type c) (c_value c) ++ text ";|").
Definition EmitNestedConstDefinition (container : list Z) (c : ConstDecl) : Gen (list Z) :=
  EmitConst (MangledNestedName container (c_name c)) c.

(** ** Parameters and responses *)

Definition CppParamDecl (p : Param) (ctx : gset (list Z)) : Gen (list Z) :=
  let? type := CppValueType (p_type p) in
  match t_kind (p_type p) with
  | kString | kArray | kMap | kStructRef | kUnionRef =>
      let? needs := TypeNeedsHandleCtx (p_type p) ctx in
      if needs then inr (type ++ text " " ++ p_name p)
      else inr (text "const " ++ type ++ text "& " ++ p_name p)
  | _ => inr (type ++ text " " ++ p_name p)
  end.

Definition ExpectedCppType (m : Method) : Gen (list Z) :=
  let? s := CppValueType (result_success m) in
  let? e := CppValueType (result_error m) in
  inr (text "base::expected<" ++ s ++ text ", " ++ e ++ text ">").

Definition ResponseValueType (m : Method) (rp : Param) : Gen (list Z) :=
  if is_result_response m then ExpectedCppType m else CppValueType (p_type rp).

Definition ResponseCallbackType (m : Method) : Gen (list Z) :=
  let? args := if is_result_response m then ExpectedCppType m
               else let? ts := map_gen (λ rp, CppValueType (p_type rp)) (response_params m) in inr (commas ts) in
  inr (text "base::OnceCallback<void(" ++ args ++ text ")>").

Definition ParamPassExpr (p : Param) (ctx : gset (list Z)) : Gen (list Z) :=
  let? needs := if IsHandleBearing (t_kind (p_type p)) then inr true else TypeNeedsHandleCtx (p_type p) ctx in
  inr (if needs then text "std::move(" ++ p_name p ++ text ")" else p_name p).

(** ** Structs and unions *)

Definition EmitTypeInternMembers (intern_key cpp_type : list Z) : list Z :=
  text "  // Object Type Identifier: intern_key is the shape string (Go++ go/types intern);|" ++
  text "  // type_key() is the C++ token (Go++ type_key_of<T>()); CHPT names objects|" ++
  text "  // with the interned tag (WASMv8Bindings + WASMSafeSpace). FromHandle fails|" ++
  text "  // unless the tag matches.|" ++
  text "  static constexpr const char* intern_key() { return `" ++ intern_key ++ text "`; }|" ++
  text "  static const void* type_key() { static char k; return &k; }|" ++
  text "  static v8::CppHeapPointerTag chpt_tag() {|" ++
  text "    return mojo::internal::TypeTag(type_key());|" ++
  text "  }|" ++
  text "  static v8::CppHeapPointerHandle NameOnHeap(" ++ cpp_type ++ text "* p) {|" ++
  text "    return mojo::internal::NameObject(p, type_key());|" ++
  text "  }|" ++
  text "  static " ++ cpp_type ++ text "* FromHandle(v8::CppHeapPointerHandle h) {|" ++
  text "    return static_cast<" ++ cpp_type ++ text "*>(mojo::internal::GetObject(h, type_key()));|" ++
  text "  }|".

Definition type_alias (name type : list Z) : list Z := text "  using " ++ name ++ text " = " ++ type ++ text ";|".

Definition EmitStructType (s : StructDecl) (module_ns : list Z) (opt : GeneratorOptions) : Gen (list Z) :=
  let n := CppEmbedName_struct s in
  match LookupTypemap opt (s_name s) (s_owner_container s) module_ns with
  | Some mapped => inr (text "using " ++ n ++ text " = " ++ mapped ++ text ";||")
  | None =>
      let? fields := map_gen (λ f, let? t := CppValueType (f_type f) in
                                   inr (text "  " ++ t ++ text " " ++ f_name f ++ CppFieldInitializer f ++ text ";|"))
                       (s_fields s) in
      inr (text "struct " ++ n ++ text " {|" ++
           flat_map (λ e, type_alias (e_name e) (MangledNestedName (s_name s) (e_name e))) (s_enums s) ++
           concat fields ++ EmitTypeInternMembers (NamedKey module_ns n (bytes "struct")) n ++ text "};||")
  end.

(** The first of no fields is undefined. *)
Definition EmitUnionType (u : UnionDecl) (module_ns : list Z) : Gen (list Z) :=
  let n := CppEmbedName_union u in
  let? accessors := map_gen (λ f, let? t := CppValueType (uf_type f) in
    inr (text "  void set_" ++ uf_name f ++ text "(" ++ t ++ text " value) {|" ++
         text "    tag_ = Tag::" ++ uf_name f ++ text ";|" ++
         text "    " ++ uf_name f ++ text "_ = std::move(value);|" ++
         text "  }|" ++
         text "  " ++ t ++ text "& " ++ uf_name f ++ text "() { return " ++ uf_name f ++ text "_; }|" ++
         text "  const " ++ t ++ text "& " ++ uf_name f ++ text "() const { return " ++ uf_name f ++ text "_; }||"))
    (u_fields u) in
  let? first := need (head (u_fields u)) in
  let? members := map_gen (λ f, let? t := CppValueType (uf_type f) in
    inr (text "  " ++ t ++ text " " ++ uf_name f ++ text "_{};|")) (u_fields u) in
  inr (text "class " ++ n ++ text " {|" ++
       text " public:|" ++
       text "  enum class Tag : int32_t {|" ++
       flat_map (λ f, text "    " ++ uf_name f ++ text " = " ++ signed_string (uf_tag f) ++ text ",|") (u_fields u) ++
       (if u_is_extensible u then text "    kUnknown = -1,|" else []) ++
       text "  };||" ++
       text "  static constexpr uint32_t kVersion = " ++ to_string (u_version u) ++ text "u;||" ++
       EmitTypeInternMembers (NamedKey module_ns n (bytes "union")) n ++
       text "  " ++ n ++ text "() = default;||" ++
       text "  Tag which() const { return tag_; }||" ++
       concat accessors ++
       (if u_is_extensible u then
          text "  // Set by ReadUnionName when the wire tag doesn't match any|" ++
          text "  // field this union declares -- see this function's own comment.|" ++
          text "  void set_unknown() { tag_ = Tag::kUnknown; }||"
        else []) ++
       text " private:|" ++
       text "  Tag tag_ = Tag::" ++ uf_name first ++ text ";|" ++
       concat members ++
       text "};||").

(** ** Namespaces *)

(** [::] becomes a dot. *)
Fixpoint normalize_ns (ns : list Z) : list Z :=
  match ns with
  | 58 :: 58 :: ns => 46 :: normalize_ns ns
  | c :: ns => c :: normalize_ns ns
  | [] => []
  end.
(** The segments between dots, without the empty ones; [cur] is the one begun. *)
Fixpoint segments (ns cur : list Z) : list (list Z) :=
  let done_ := if bool_decide (cur = []) then [] else [cur] in
  match ns with
  | [] => done_
  | c :: ns => if c =? 46 then done_ ++ segments ns [] else segments ns (cur ++ [c])
  end.
Definition SplitNamespace (ns : list Z) : list (list Z) := segments (normalize_ns ns) [].

Definition open_namespaces (nss : list (list Z)) : list Z :=
  flat_map (λ ns, text "namespace " ++ ns ++ text " {|") nss.
Definition close_namespaces (nss : list (list Z)) : list Z :=
  flat_map (λ ns, text "}  // namespace " ++ ns ++ text "|") (reverse nss).

(** ** The other files *)

Definition js_name (name : list Z) : list Z :=
  match name with
  | c :: l => if (65 <=? c) && (c <=? 90) then (c - 65 + 97) :: l else name
  | [] => []
  end.

Definition js_interface (cpp_namespace : list Z) (i : Interface) : list Z :=
  text "inline constexpr const char* k" ++ i_name i ++ text "JsName = `" ++ i_name i ++ text "`;|" ++
  text "inline constexpr JsMethod k" ++ i_name i ++ text "JsMethods[] = {|" ++
  flat_map (λ m, text "    {`" ++ m_name m ++ text "`, `" ++ js_name (m_name m) ++ text "`},|") (i_methods i) ++
  text "};|" ++
  text "inline constexpr const char* k" ++ i_name i ++ text "JsInternKey = `" ++
  NamedKey cpp_namespace (i_name i) (bytes "interface") ++ text "`;||".

Definition GenerateJsHeader (m : Module_) (cpp_namespace source_filename : list Z) : list Z :=
  let nss := SplitNamespace cpp_namespace in
  text "// Generated JS method table for WASMExtWrench wew.mojo.Remote.|" ++
  text "// Source: " ++ source_filename ++ text "|" ++
  text "// Install via wew.mojo.Remote; each entry is {mojom name, JS name}.|" ++
  text "#pragma once||" ++
  open_namespaces nss ++ text "|" ++
  text "struct JsMethod { const char* mojom; const char* js; };||" ++
  text "inline constexpr const char* kJsInterfaceNames[] = {|" ++
  flat_map (λ i, text "    `" ++ i_name i ++ text "`,|") (mod_interfaces m) ++
  text "};||" ++
  flat_map (js_interface cpp_namespace) (mod_interfaces m) ++
  close_namespaces nss.

Definition GenerateGnBuild (target_name generated_header : list Z) : list Z :=
  text "# Generated by voodoomc. Chromium-style source_set.|" ++
  text "source_set(`" ++ target_name ++ text "`) {|" ++
  text "  sources = [ `" ++ generated_header ++ text "` ]|" ++
  text "}|".
