(* ===== verification/GenIface.v ===== *)
(** * Generated interfaces: the code of proxies and stubs

    [EmitTopWritePrelude], [EmitTopWritePayload], [EmitTopReadParam], [EmitInterface]
    and [EmitSyncProxyMethod] of [src/src/cpp_generator.cc].  What is emitted for the
    parameters of a method are statements, like those of structs, with a few forms of
    their own; the rest of the classes is text around them.  [GenerateCppHeader] puts
    the whole header together. *)
From Stdlib Require Import ZArith Lia.
From stdpp Require Import base list gmap.
From S2P Require Import Prelude Ast TypeIntern GenNames GenCode GenIO GenText.

(** ** Statements for parameters *)

(** What a handle parameter that has been read is made from. *)
Inductive Make :=
  | MkLocalRemote (iid version : Var)
  | MkLocalReceiver (iid : Var)
  | MkRemote (version : Var)
  | MkReceiver
  | MkHandle (raw_class : list Z).

(** [QDeclare] declares a parameter that may stay absent, [QMake] makes it, [new] where
    it is declared.  [QFlag] writes the byte of a [bool]. *)
Inductive Piece :=
  | QStmt (s : Stmt)
  | QFlag (x : Var)
  | QDeclare (type : list Z) (t : TypeSpec) (x : Var)
  | QMake (new : bool) (type : list Z) (x : Var) (mk : Make).

(** [TGuarded] is the guard of a nullable parameter. *)
Inductive TopStmt :=
  | TPiece (q : Piece)
  | TGuarded (x : Var) (l : list Piece).

(** The variables of a parameter. *)
Definition param_var (p : Param) : Var := V_param (p_name p).
Definition suffixed (p : Param) (suffix : list Z) : Var := V_param (p_name p ++ suffix).
Definition present_var (p : Param) : Var := suffixed p (text "_present").
Definition version_of (p : Param) : Var := suffixed p (text "_version").
Definition handle_of (p : Param) : Var := suffixed p (text "_handle").
Definition iid_of (p : Param) : Var := suffixed p (text "_iid").
Definition pipe_of (p : Param) : Var := suffixed p (text "_pipe").

(** ** Writing *)

Definition EmitNullablePresenceDecl (p : Param) : list Stmt :=
  if nullable (p_type p) then [SDecl (text "bool") (present_var p) (RIsValid (EVar (param_var p)))] else [].

Definition EmitTopWritePrelude (p : Param) : list Stmt :=
  let e := EVar (param_var p) in
  let handle := [SDecl (text "mojo::ScopedInterfaceEndpointHandle") (handle_of p) (RPassHandle e);
                 SDecl (text "uint32_t") (iid_of p) (RReleaseWithoutClosing (handle_of p))] in
  let version := SDecl (text "uint32_t") (version_of p) (RPassVersion e) in
  let pipe := SDecl (text "mojo::ScopedMessagePipeHandle") (pipe_of p) (RPassPipe e) in
  match t_kind (p_type p) with
  | kPendingAssociatedRemote => EmitNullablePresenceDecl p ++ [version] ++ handle
  | kPendingAssociatedReceiver => EmitNullablePresenceDecl p ++ handle
  | kPendingRemote => EmitNullablePresenceDecl p ++ [pipe; version]
  | kPendingReceiver => EmitNullablePresenceDecl p ++ [pipe]
  | kHandle | kHandleMessagePipe | kHandleDataPipeConsumer | kHandleDataPipeProducer
  | kHandleSharedBuffer | kHandlePlatform => EmitNullablePresenceDecl p
  | _ => []
  end.

(** [EmitNullablePayloadGuardOpen] and [EmitNullablePayloadGuardClose] around [l]. *)
Definition payload_guard (p : Param) (l : list Piece) : list TopStmt :=
  if nullable (p_type p) then [TPiece (QFlag (present_var p)); TGuarded (present_var p) l]
  else map TPiece l.

Definition EmitTopWritePayload (ctx : gset (list Z)) (p : Param) (uid : Z) : Gen (list TopStmt * Z) :=
  let iid := QStmt (SWritePayload (iid_of p)) in
  let version := QStmt (SWritePayload (version_of p)) in
  let pipe := QStmt (SAttachHandle (EVar (pipe_of p))) in
  match t_kind (p_type p) with
  | kPendingAssociatedRemote => inr (payload_guard p [iid; version], uid)
  | kPendingAssociatedReceiver => inr (payload_guard p [iid], uid)
  | kPendingRemote => inr (payload_guard p [pipe; version], uid)
  | kPendingReceiver => inr (payload_guard p [pipe], uid)
  | kHandle | kHandleMessagePipe | kHandleDataPipeConsumer | kHandleDataPipeProducer
  | kHandleSharedBuffer | kHandlePlatform =>
      inr (payload_guard p [QStmt (SAttachHandle (EVar (param_var p)))], uid)
  | _ =>
      let? r := EmitWriteValue ctx (p_type p) (EVar (param_var p)) uid in
      inr (map (λ s, TPiece (QStmt s)) r.1, r.2)
  end.

(** ** Reading *)

Section read.
Variables (ext : gmap (list Z) bool) (ctx : gset (list Z)).

Definition EmitDeclareAndRead (t : TypeSpec) (x : Var) (uid : Z) : Gen (list Stmt * Z) :=
  let? type := CppValueType t in
  let? r := EmitReadInto ext ctx None t (EVar x) uid in
  inr (SDeclInit type t x :: r.1, r.2).

(** [EmitNullableReadGuardOpen], the statements [l] that read the parts, and the object
    made of them. *)
Definition read_guard (p : Param) (type : list Z) (l : list Piece) (mk : Make) : list TopStmt :=
  let x := param_var p in
  if nullable (p_type p) then
    [TPiece (QStmt (SDecl (text "bool") (present_var p) RFalse)); TPiece (QStmt (SReadVar (present_var p)));
     TPiece (QDeclare type (p_type p) x); TGuarded (present_var p) (l ++ [QMake false type x mk])]
  else map TPiece (l ++ [QMake true type x mk]).

Definition EmitTopReadParam (p : Param) (uid : Z) : Gen (list TopStmt * Z) :=
  let t := p_type p in
  let word x := QStmt (SDecl (text "uint32_t") x RZero) in
  let read x := QStmt (SReadVar x) in
  let pending kind := text "mojo::Pending" ++ kind ++ text "<" ++ qualified t ++ text ">" in
  match t_kind t with
  | kPendingAssociatedRemote =>
      inr (read_guard p (pending (text "AssociatedRemote"))
             [word (iid_of p); word (version_of p); read (iid_of p); read (version_of p)]
             (MkLocalRemote (iid_of p) (version_of p)), uid)
  | kPendingAssociatedReceiver =>
      inr (read_guard p (pending (text "AssociatedReceiver")) [word (iid_of p); read (iid_of p)]
             (MkLocalReceiver (iid_of p)), uid)
  | kPendingRemote =>
      inr (read_guard p (pending (text "Remote")) [word (version_of p); read (version_of p)]
             (MkRemote (version_of p)), uid)
  | kPendingReceiver => inr (read_guard p (pending (text "Receiver")) [] MkReceiver, uid)
  | kHandle | kHandleMessagePipe | kHandleDataPipeConsumer | kHandleDataPipeProducer
  | kHandleSharedBuffer | kHandlePlatform =>
      let? type := HandleCppType (t_kind t) in
      let? raw_class := HandleRawClassName (t_kind t) in
      inr (read_guard p type [] (MkHandle raw_class), uid)
  | _ =>
      let? r := EmitDeclareAndRead t (param_var p) uid in
      inr (map (λ s, TPiece (QStmt s)) r.1, r.2)
  end.

Fixpoint top_writes (ps : list Param) (uid : Z) : Gen (list TopStmt) :=
  match ps with
  | [] => inr []
  | p :: ps =>
      let? r := EmitTopWritePayload ctx p uid in
      let? rest := top_writes ps r.2 in inr (r.1 ++ rest)
  end.
Fixpoint top_reads (ps : list Param) (uid : Z) : Gen (list TopStmt) :=
  match ps with
  | [] => inr []
  | p :: ps =>
      let? r := EmitTopReadParam p uid in
      let? rest := top_reads ps r.2 in inr (r.1 ++ rest)
  end.

(** What is emitted for the parameters of a message: what they are called where they are
    read and where they are written, whether reading needs the message's handles, how
    they are written and how read. *)
Record ParamsIO := mkParamsIO {
  ps_params : list Param;
  ps_written : list Param;
  ps_needs_ctx : bool;
  ps_prelude : list Stmt;
  ps_payload : list TopStmt;
  ps_reads : list TopStmt
}.

Definition EmitParams (ps written : list Param) : Gen ParamsIO :=
  let? needs := any_needs (map p_type ps) ctx in
  let? w := top_writes written 0 in
  let? r := top_reads ps 0 in
  inr (mkParamsIO ps written needs (flat_map EmitTopWritePrelude written) w r).

(** [write_p]: the result goes through the variable [wvc_wire]. *)
Definition renamed (p : Param) : Param :=
  mkParam (p_type p) (text "wvc_wire") (p_min_version p) (p_ordinal p) (p_has_explicit_ordinal p) (p_enable_if p).
Definition response_written (m : Method) : list Param :=
  if is_result_response m then map renamed (response_params m) else response_params m.

Record MethodIO := mkMethodIO { mi_method : Method; mi_request : ParamsIO; mi_response : ParamsIO }.

Definition EmitMethod (m : Method) : Gen MethodIO :=
  let? q := EmitParams (m_params m) (m_params m) in
  let? r := EmitParams (response_params m) (response_written m) in
  inr (mkMethodIO m q r).
End read.

Record InterfaceIO := mkInterfaceIO { ii_interface : Interface; ii_methods : list MethodIO }.
Definition EmitInterface (ext : gmap (list Z) bool) (ctx : gset (list Z)) (i : Interface) : Gen InterfaceIO :=
  let? ms := map_gen (EmitMethod ext ctx) (i_methods i) in inr (mkInterfaceIO i ms).

(** ** Their text *)

Definition in_message (msg : list Z) : Spelling := mkSpelling msg (text "*" ++ msg) (text "&offset").

(** The handle of a message, over two lines. *)
Definition print_take (bi : list Z) : list Z :=
  text "|" ++ bi ++ text "     (" ++ text "*wvc_handles)[(" ++ text "*wvc_handle_idx)++].release().value()".

Definition print_make (bi : list Z) (mk : Make) : list Z :=
  let endpoint iid := text "(router->CreateLocalEndpointHandle(" ++ var_name iid ++ text ")" in
  let pipe := text "(mojo::ScopedMessagePipeHandle(mojo::MessagePipeHandle(" ++ print_take bi ++ text "))" in
  match mk with
  | MkLocalRemote iid version => endpoint iid ++ text ", " ++ var_name version ++ text ")"
  | MkLocalReceiver iid => endpoint iid ++ text ")"
  | MkRemote version => pipe ++ text ", " ++ var_name version ++ text ")"
  | MkReceiver => pipe ++ text ")"
  | MkHandle raw_class => text "(" ++ raw_class ++ text "(" ++ print_take bi ++ text "))"
  end.

Section print.
Variable sp : Spelling.

Definition print_piece (ind : list Z) (q : Piece) : list Z :=
  match q with
  | QStmt s => print_stmt sp ind s
  | QFlag x =>
      ind ++ sp_msg sp ++ text ".WritePayload(&" ++ var_name x ++ text ", sizeof(" ++ var_name x ++ text "));|"
  | QDeclare type _ x => ind ++ type ++ text " " ++ var_name x ++ text ";|"
  | QMake true type x mk => ind ++ type ++ text " " ++ var_name x ++ print_make ind mk ++ text ";|"
  | QMake false type x mk => ind ++ var_name x ++ text " = " ++ type ++ print_make ind mk ++ text ";|"
  end.

Definition print_top (ind : list Z) (s : TopStmt) : list Z :=
  match s with
  | TPiece q => print_piece ind q
  | TGuarded x l =>
      ind ++ text "if (" ++ var_name x ++ text ") {|" ++ flat_map (print_piece (ind ++ text "  ")) l ++
      ind ++ text "}|"
  end.
Definition print_tops (ind : list Z) (l : list TopStmt) : list Z := flat_map (print_top ind) l.
End print.

Definition EmitHandleContextDecls (ind msg_ptr : list Z) : list Z :=
  ind ++ text "std::vector<mojo::ScopedHandle> wvc_handles_store = " ++ msg_ptr ++ text "->TakeHandles();|" ++
  ind ++ text "std::vector<mojo::ScopedHandle>* wvc_handles = &wvc_handles_store;|" ++
  ind ++ text "size_t wvc_handle_idx_store = 0;|" ++
  ind ++ text "size_t* wvc_handle_idx = &wvc_handle_idx_store;|" ++
  ind ++ text "mojo::MultiplexRouter* router = router_;|".

Section methods.
Variable ctx : gset (list Z).

(** The parameters of a method, and the callback of one that has a response. *)
Definition method_params (m : Method) : Gen (list Z) :=
  let? ps := map_gen (λ p, CppParamDecl p ctx) (m_params m) in
  let? cb := if has_response m
             then let? t := ResponseCallbackType m in inr [t ++ text " callback"] else inr [] in
  inr (commas (ps ++ cb)).

(** [expected] of the response [rp] that has arrived, after [ind]. *)
Definition print_expected (ind : list Z) (m : Method) (rp : Param) : Gen (list Z) :=
  let? t := CppValueType (p_type rp) in
  let? e := ExpectedCppType m in
  inr (p_name rp ++ text ".which() == " ++ t ++ text "::Tag::value|" ++
       ind ++ text "    ? " ++ e ++ text "(std::move(" ++ p_name rp ++ text ".value()))|" ++
       ind ++ text "    : " ++ e ++ text "(base::unexpected(std::move(" ++ p_name rp ++ text ".error())))").

(** [Accept<m>] of the stub. *)
Definition print_accept (iface : list Z) (mi : MethodIO) : Gen (list Z) :=
  let m := mi_method mi in
  let q := mi_request mi in
  let r := mi_response mi in
  let? passed := map_gen (λ p, ParamPassExpr p ctx) (m_params m) in
  let? call :=
    if has_response m then
      let? args := map_gen (λ rp, let? t := ResponseValueType m rp in inr (t ++ text " " ++ p_name rp))
                     (response_params m) in
      let? wire :=
        if is_result_response m then
          let? rp := need (head (response_params m)) in
          let? t := CppValueType (p_type rp) in
          inr (text "        " ++ t ++ text " wvc_wire;|" ++
               text "        if (" ++ p_name rp ++ text ".has_value()) {|" ++
               text "          wvc_wire.set_value(std::move(" ++ p_name rp ++ text ".value()));|" ++
               text "        } else {|" ++
               text "          wvc_wire.set_error(std::move(" ++ p_name rp ++ text ".error()));|" ++
               text "        }|")
        else inr [] in
      inr (text "      const uint64_t request_id = message->request_id();|" ++
           (if ps_needs_ctx q then [] else text "      mojo::MultiplexRouter* router = router_;|") ++
           text "      const mojo::InterfaceId id = id_;|" ++
           text "      impl_->" ++ m_name m ++ text "(" ++ flat_map (λ e, e ++ text ", ") passed ++
           text "[router, id, request_id](" ++ commas args ++ text ") {|" ++ wire ++
           text "        mojo::Message response(" ++ iface ++ text "::k" ++ m_name m ++
           text "Name, mojo::Message::kFlagIsResponse, id);|" ++
           text "        response.set_request_id(request_id);|" ++
           print_stmts (in_message (text "response")) (text "        ") (ps_prelude r) ++
           print_tops (in_message (text "response")) (text "        ") (ps_payload r) ++
           text "        (void)router->SendMessage(&response);|" ++
           text "      });|")
    else inr (text "      impl_->" ++ m_name m ++ text "(" ++ commas passed ++ text ");|") in
  inr (text "    bool Accept" ++ m_name m ++ text "(mojo::Message* message) {|" ++
       text "      size_t offset = 0;|" ++
       match m_params m with
       | [] => (if has_response m then [] else text "      (void)message;|") ++ text "      (void)offset;|"
       | _ => []
       end ++
       (if ps_needs_ctx q then EmitHandleContextDecls (text "      ") (text "message") else []) ++
       print_tops (in_message (text "message")) (text "      ") (ps_reads q) ++
       call ++ text "      return true;|    }||").

(** The message of a call, after the closure of its response. *)
Definition print_request (message : list Z) (with_id : bool) (mi : MethodIO) : list Z :=
  let q := mi_request mi in
  print_stmts (in_message (text "message")) (text "    ") (ps_prelude q) ++
  text "    mojo::Message message(" ++ message ++ text ", id_);|" ++
  (if with_id then text "    message.set_request_id(request_id);|" else []) ++
  print_tops (in_message (text "message")) (text "    ") (ps_payload q).

(** A method of the proxy. *)
Definition print_call (mi : MethodIO) : Gen (list Z) :=
  let m := mi_method mi in
  let r := mi_response mi in
  let? params := method_params m in
  let? body :=
    if has_response m then
      let? run :=
        if is_result_response m then
          let? rp := need (head (response_params m)) in
          print_expected (text "          ") m rp
        else let? l := map_gen (λ rp, ParamPassExpr rp ctx) (response_params m) in inr (commas l) in
      inr (text "    uint64_t request_id = responses_.RegisterPendingResponse(|" ++
           text "        [callback = std::move(callback)" ++
           (if ps_needs_ctx r then text ", router = router_" else []) ++
           text "](mojo::Message* response) mutable {|" ++
           text "          size_t offset = 0;|" ++
           match response_params m with
           | [] => text "          (void)response;|          (void)offset;|"
           | _ => []
           end ++
           (if ps_needs_ctx r then
              text "          std::vector<mojo::ScopedHandle> wvc_handles_store = response->TakeHandles();|" ++
              text "          std::vector<mojo::ScopedHandle>* wvc_handles = &wvc_handles_store;|" ++
              text "          size_t wvc_handle_idx_store = 0;|" ++
              text "          size_t* wvc_handle_idx = &wvc_handle_idx_store;|" ++
              text "          (void)router;|"
            else []) ++
           print_tops (in_message (text "response")) (text "          ") (ps_reads r) ++
           text "          std::move(callback).Run(" ++ run ++ text ");|" ++
           text "          return true;|" ++
           text "        });|" ++
           print_request (text "k" ++ m_name m ++ text "Name, mojo::Message::kFlagExpectsResponse") true mi)
    else inr (print_request (text "k" ++ m_name m ++ text "Name, 0") false mi) in
  inr (text "  void " ++ m_name m ++ text "(" ++ params ++ text ") override {|" ++ body ++
       text "    (void)router_->SendMessage(&message);|" ++ text "  }||").

Definition EmitSyncProxyMethod (iface : list Z) (mi : MethodIO) : Gen (list Z) :=
  let m := mi_method mi in
  let r := mi_response mi in
  let? ps := map_gen (λ p, CppParamDecl p ctx) (m_params m) in
  let? outs := map_gen (λ rp, let? t := ResponseValueType m rp in inr (t ++ text "* " ++ p_name rp)) (response_params m) in
  let? locals := map_gen (λ rp, let? t := ResponseValueType m rp in
                                inr (text "    " ++ t ++ text " wvc_sync_" ++ p_name rp ++ text "{};|")) (response_params m) in
  let? results := map_gen (λ rp,
    let? v := if is_result_response m then print_expected (text "          ") m rp
              else inr (text "std::move(" ++ p_name rp ++ text ")") in
    inr (text "          wvc_sync_" ++ p_name rp ++ text " = " ++ v ++ text ";|")) (response_params m) in
  inr (text "  // [Sync] blocking overload -- see WASMCadidumBindings'|" ++
       text "  // Connector::SyncWaitFor for what `blocking` means here.|" ++
       text "  [[nodiscard]] bool " ++ m_name m ++ text "(" ++ commas (ps ++ outs) ++ text ") {|" ++
       text "    bool wvc_sync_done = false;|" ++ concat locals ++
       text "    uint64_t request_id = responses_.RegisterPendingResponse(|" ++
       text "        [&](mojo::Message* response) {|" ++
       text "          size_t offset = 0;|" ++
       (if ps_needs_ctx r then EmitHandleContextDecls (text "          ") (text "response") else []) ++
       print_tops (in_message (text "response")) (text "          ") (ps_reads r) ++
       concat results ++
       text "          wvc_sync_done = true;|" ++
       text "          return true;|" ++
       text "        });|" ++
       print_request (iface ++ text "::k" ++ m_name m ++ text "Name, mojo::Message::kFlagExpectsResponse") true mi ++
       text "    if (!router_->SendMessage(&message)) return false;|" ++
       text "    if (!router_->connector().SyncWaitFor(|" ++
       text "            [&] { return wvc_sync_done; })) {|" ++
       text "      return false;|" ++
       text "    }|" ++
       flat_map (λ rp, text "    *" ++ p_name rp ++ text " = std::move(wvc_sync_" ++ p_name rp ++ text ");|") (response_params m) ++
       text "    return true;|" ++
       text "  }||").
End methods.

(** C++'s or, which [text] does not spell. *)
Definition or_or : list Z := bytes "||".

(** [QueryVersion], [RequireVersion] and [Accept] of every proxy. *)
Definition print_control : list Z :=
  text "  void QueryVersion(base::OnceCallback<void(uint32_t)> callback) {|" ++
  text "    uint64_t request_id = responses_.RegisterPendingResponse(|" ++
  text "        [callback = std::move(callback)](mojo::Message* response) mutable {|" ++
  text "          size_t offset = 0;|" ++
  text "          uint32_t tag = 0;|" ++
  text "          uint32_t version = 0;|" ++
  text "          if (!mojo::internal::ReadScalar(*response, &offset, &tag) " ++ or_or ++ text "|" ++
  text "              tag != mojo::internal::kRunQueryVersionResult " ++ or_or ++ text "|" ++
  text "              !mojo::internal::ReadScalar(*response, &offset, &version)) {|" ++
  text "            return false;|" ++
  text "          }|" ++
  text "          std::move(callback).Run(version);|" ++
  text "          return true;|" ++
  text "        });|" ++
  text "    mojo::Message message(mojo::internal::kRunMessageId,|" ++
  text "                          mojo::Message::kFlagExpectsResponse, id_);|" ++
  text "    message.set_request_id(request_id);|" ++
  text "    mojo::internal::WriteScalar(&message, mojo::internal::kRunQueryVersion);|" ++
  text "    (void)router_->SendMessage(&message);|" ++
  text "  }||" ++
  text "  void RequireVersion(uint32_t version) {|" ++
  text "    mojo::Message message(mojo::internal::kRunOrClosePipeMessageId, 0, id_);|" ++
  text "    mojo::internal::WriteScalar(&message, mojo::internal::kRunRequireVersion);|" ++
  text "    mojo::internal::WriteScalar(&message, version);|" ++
  text "    (void)router_->SendMessage(&message);|" ++
  text "  }||" ++
  text "  [[nodiscard]] bool Accept(mojo::Message* message) override {|" ++
  text "    if (!message->has_flag(mojo::Message::kFlagIsResponse)) {|" ++
  text "      return false;|" ++
  text "    }|" ++
  text "    return responses_.DispatchResponse(message);|" ++
  text "  }||".

Definition print_interface (ctx : gset (list Z)) (module_ns : list Z) (ii : InterfaceIO) : Gen (list Z) :=
  let i := ii_interface ii in
  let n := i_name i in
  let? virtuals := map_gen (λ m, let? ps := method_params ctx m in
                                 inr (text "  virtual void " ++ m_name m ++ text "(" ++ ps ++ text ") = 0;|"))
                     (i_methods i) in
  let? accepts := map_gen (print_accept ctx n) (ii_methods ii) in
  let? calls := map_gen (λ mi,
    let? c := print_call ctx mi in
    let? s := if is_sync (mi_method mi) then EmitSyncProxyMethod ctx n mi else inr [] in inr (c ++ s)) (ii_methods ii) in
  inr (text "class " ++ n ++ text " {|" ++
       text " public:|" ++
       flat_map (λ e, type_alias (e_name e) (MangledNestedName n (e_name e))) (i_enums i) ++
       flat_map (λ s, type_alias (s_name s) (CppEmbedName_struct s)) (i_structs i) ++
       flat_map (λ u, type_alias (u_name u) (CppEmbedName_union u)) (i_unions i) ++
       text "  virtual ~" ++ n ++ text "() = default;|" ++
       concat virtuals ++ text "|" ++
       flat_map (λ m, text "  static constexpr uint32_t k" ++ m_name m ++ text "Name = " ++ to_string (m_ordinal m) ++
                      text ";|") (i_methods i) ++
       text "  static constexpr uint32_t kVersion = " ++ to_string (i_version i) ++ text "u;||" ++
       EmitTypeInternMembers (NamedKey module_ns n (bytes "interface")) n ++
       text "  class Proxy_;  // defined below, once " ++ n ++ text " is a complete type||" ++
       text "  class Stub_ : public mojo::MessageReceiver {|" ++
       text "   public:|" ++
       text "    Stub_(" ++ n ++ text "* impl,|" ++
       text "          mojo::MultiplexRouter* router,|" ++
       text "          mojo::InterfaceId id = mojo::kPrimaryInterfaceId)|" ++
       text "        : impl_(impl), router_(router), id_(id) {}||" ++
       text "    [[nodiscard]] bool Accept(mojo::Message* message) override {|" ++
       text "      if (message->name() == mojo::internal::kRunMessageId) {|" ++
       text "        return mojo::internal::HandleQueryVersionMessage(|" ++
       text "            message, router_, id_, kVersion);|" ++
       text "      }|" ++
       text "      if (message->name() == mojo::internal::kRunOrClosePipeMessageId) {|" ++
       text "        return mojo::internal::HandleRequireVersionMessage(|" ++
       text "            *message, kVersion);|" ++
       text "      }|" ++
       flat_map (λ m, text "      if (message->name() == k" ++ m_name m ++ text "Name) return Accept" ++ m_name m ++
                      text "(message);|") (i_methods i) ++
       (if i_is_extensible i then
          text "      // [Extensible]: an unrecognized message ordinal is|" ++
          text "      // tolerated, not a protocol error -- silently drop it|" ++
          text "      // rather than raising a connection error over it.|" ++
          text "      return true;|"
        else text "      return false;|") ++
       text "    }||" ++
       text "   private:|" ++
       concat accepts ++
       text "    " ++ n ++ text "* impl_;|" ++
       text "    mojo::MultiplexRouter* router_;|" ++
       text "    mojo::InterfaceId id_;|" ++
       text "  };|" ++
       text "};||" ++
       text "class " ++ n ++ text "::Proxy_ : public " ++ n ++ text ", public mojo::MessageReceiver {|" ++
       text " public:|" ++
       text "  explicit Proxy_(mojo::MultiplexRouter* router,|" ++
       text "                   mojo::InterfaceId id = mojo::kPrimaryInterfaceId)|" ++
       text "      : router_(router), id_(id) {}||" ++
       concat calls ++
       print_control ++
       text " private:|" ++
       text "  mojo::MultiplexRouter* router_;|" ++
       text "  mojo::InterfaceId id_;|" ++
       text "  mojo::internal::ResponseDispatcher responses_;|" ++
       text "};||").

(** ** The header *)

Definition include (h : list Z) : list Z := text "#include `" ++ h ++ text "`|".

Definition header_top (header_guard source_filename : list Z) (imported_headers : list (list Z))
    (options : GeneratorOptions) : list Z :=
  text "// Generated by WASMVoodooCompile (voodoomc) from '" ++ source_filename ++
  text "'. Do not edit by hand -- edit the .voodoom source and regenerate.|" ++
  text "#ifndef " ++ header_guard ++ text "|" ++
  text "#define " ++ header_guard ++ text "||" ++
  flat_map include
    [text "mojo/public/cpp/bindings/lib/interface_control_messages.h";
     text "mojo/public/cpp/bindings/lib/multiplex_router.h";
     text "mojo/public/cpp/bindings/lib/response_dispatcher.h";
     text "mojo/public/cpp/bindings/lib/wire_primitives.h";
     text "mojo/public/cpp/bindings/message.h";
     text "src/sandbox/cage-allocator.h";
     text "mojo/public/cpp/bindings/pending_associated_receiver.h";
     text "mojo/public/cpp/bindings/pending_associated_remote.h";
     text "mojo/public/cpp/bindings/pending_receiver.h";
     text "mojo/public/cpp/bindings/pending_remote.h";
     text "base/callback.h";
     text "base/expected.h";
     text "mojo/public/cpp/bindings/lib/type_intern.h";
     text "mojo/public/cpp/system/handle.h";
     text "mojo/public/cpp/system/platform_handle.h";
     text "mojo/public/cpp/system/message_pipe.h";
     text "mojo/public/cpp/system/data_pipe.h";
     text "mojo/public/cpp/system/buffer.h"] ++ text "|" ++
  flat_map (λ h, text "#include <" ++ h ++ text ">|")
    [text "array"; text "cstdint"; text "cstring"; text "limits"; text "functional"; text "optional";
     text "string"; text "unordered_map"; text "utility"; text "vector"] ++
  (if bool_decide (imported_headers = []) then [] else text "|" ++ flat_map include imported_headers) ++
  text "|" ++
  text "#ifndef MOJO_NATIVE_TRAITS_DEFINED|" ++
  text "#define MOJO_NATIVE_TRAITS_DEFINED|" ++
  text "namespace mojo {|" ++
  text "template <typename T>|" ++
  text "struct NativeTraits {|" ++
  text "  static void Write(Message&, const T&) = delete;|" ++
  text "  static bool Read(const Message&, size_t*, T*) = delete;|" ++
  text "};|" ++
  text "}  // namespace mojo|" ++
  text "#endif|" ++
  flat_map include (extra_includes options) ++ text "|".

(** The classes that are declared before anything else. *)
Definition forward_classes (m : Module_) (opt : GeneratorOptions) : list Z :=
  flat_map (λ i, text "class " ++ i_name i ++ text ";|") (mod_interfaces m) ++
  (if bool_decide (length (mod_interfaces m) = 0%nat) then [] else text "|") ++
  flat_map (λ s, match LookupTypemap opt (s_name s) (s_owner_container s) (mod_name m) with
                 | Some _ => []
                 | None => text "struct " ++ CppEmbedName_struct s ++ text ";|"
                 end) (AllStructs m) ++
  flat_map (λ u, text "class " ++ CppEmbedName_union u ++ text ";|") (AllUnions m) ++
  (if bool_decide (length (AllStructs m) = 0%nat) && bool_decide (length (AllUnions m) = 0%nat) then [] else text "|").

(** [ConstEmit]: a constant with its container, empty for one of the module. *)
Definition const_emits (m : Module_) : list (list Z * ConstDecl) :=
  map (λ c, ([], c)) (mod_consts m) ++
  flat_map (λ s, map (λ c, (enum_container s, c)) (s_consts s)) (AllStructs m) ++
  flat_map (λ i, map (λ c, (i_name i, c)) (i_consts i)) (mod_interfaces m) ++
  flat_map (λ ft, map (λ c, (ft_name ft, c)) (ft_consts ft)) (mod_features m).

(** [std::sort] by [decl_index], which no two constants share. *)
Fixpoint insert_const (c : list Z * ConstDecl) (l : list (list Z * ConstDecl)) : list (list Z * ConstDecl) :=
  match l with
  | [] => [c]
  | d :: l => if c_decl_index d.2 <? c_decl_index c.2 then d :: insert_const c l else c :: d :: l
  end.
Definition sorted_consts (m : Module_) : list (list Z * ConstDecl) := foldr insert_const [] (const_emits m).

Definition emit_consts (m : Module_) : Gen (list Z) :=
  let? cs := map_gen (λ ce : list Z * ConstDecl,
                        if bool_decide (ce.1 = []) then EmitConst (c_name ce.2) ce.2
                        else EmitNestedConstDefinition ce.1 ce.2) (sorted_consts m) in
  inr (concat cs ++ if bool_decide (length cs = 0%nat) then [] else text "|").

(** The definitions of the classes, then their functions' declarations, then those. *)
Definition emit_embeds (m : Module_) (opt : GeneratorOptions) (ctx : gset (list Z)) (embeds : list Embed)
    (classes : list ClassIO) : Gen (list Z) :=
  let? types := map_gen (λ e, match decl e with
                              | inl s => EmitStructType s (mod_name m) opt
                              | inr u => EmitUnionType u (mod_name m)
                              end) embeds in
  let forward := flat_map (λ e, match decl e with
    | inl s =>
        let n := CppEmbedName_struct s in
        let mapped := bool_decide (is_Some (LookupTypemap opt (s_name s) (s_owner_container s) (mod_name m))) in
        EmitWriteReadForward n (negb mapped && bool_decide (n ∈ ctx))
    | inr u => EmitWriteReadForward (CppEmbedName_union u) (bool_decide (CppEmbedName_union u ∈ ctx))
    end) embeds in
  inr (concat types ++
       (if bool_decide (length embeds = 0%nat) then []
        else forward ++ text "|" ++
          flat_map (λ x : Embed * ClassIO,
                      print_class (match decl x.1 with inl _ => 20%nat | inr _ => 19%nat end) x.2)
            (zip embeds classes))).

Definition GenerateCppHeader (m : Module_) (header_guard cpp_namespace source_filename : list Z)
    (imported_headers : list (list Z)) (options : GeneratorOptions) : Gen (list Z) :=
  let nss := SplitNamespace cpp_namespace in
  let ext := module_extensible m in
  let? ctx := BuildHandleCtx m in
  let? consts := emit_consts m in
  let? embeds := SortEmbeds (module_embeds m) in
  let? classes := emit_classes embeds ext ctx options (mod_name m) in
  let? body := emit_embeds m options ctx embeds classes in
  let? ifaces := map_gen (λ i, let? ii := EmitInterface ext ctx i in print_interface ctx (mod_name m) ii)
                   (mod_interfaces m) in
  inr (header_top header_guard source_filename imported_headers options ++
       open_namespaces nss ++ text "|" ++
       forward_classes m options ++
       flat_map print_enum (emit_enums m options) ++
       consts ++ body ++ concat ifaces ++
       close_namespaces nss ++ text "|" ++
       text "#endif  // " ++ header_guard ++ text "|").
