(* ===== verification/GenSem.v ===== *)
(** * Running generated code

    What the statements of [GenCode] do: a fragment of C++ over values, the
    message's payload and its handles.  The wire primitives are those of
    [BindMessage] on the bytes of a payload ([GenWire] relates the two); an unknown
    outcome of the language is a [Stop].

    Objects of the classes of other modules, and typemapped ones, are not run: their
    functions are not in this header. *)
From Stdlib Require Import ZArith Lia.
From stdpp Require Import base list gmap.
From S2P Require Import Prelude Ast TypeIntern Sandbox Codec GenNames GenCode GenIO.

(** ** Results *)

(** Why the code does not go on: [return false], a byte other than 0 or 1 read as a
    [bool], a handle taken from past the end of the vector, or something else that
    has no meaning in C++. *)
Inductive Stop := ReturnFalse | BadBool | NoHandle | Stuck | OutOfFuel.
Abbreviation Result A := (Stop + A)%type.
Definition res_bind {A B} (m : Result A) (k : A → Result B) : Result B :=
  match m with inr a => k a | inl e => inl e end.
Notation "'let*' x := m 'in' k" := (res_bind m (λ x, k))
  (at level 10, x binder, m at level 100, k at level 200).
Definition some {A} (o : option A) : Result A := match o with Some a => inr a | None => inl Stuck end.

(** ** Values *)

(** What is inside a scoped handle: a handle (0 if it has none), or an endpoint's
    id and whether it has its router. *)
Inductive Link := Pipe (h : Z) | Endpoint (live : bool) (iid : Z).

(** [VInit t d] is an object as its declaration leaves it, with the initialiser [d]:
    of a class, or with a value of its own.  A word is a scalar or enum of [n] bytes.  The list of a map is in the order in
    which the code meets its entries. *)
Inductive Val :=
  | VInit (t : TypeSpec) (d : DefaultValue)
  | VBool (b : bool)
  | VWord (n : nat) (w : Z)
  | VStr (s : list Z)
  | VOpt (o : option Val)
  | VArr (el : TypeSpec) (l : list Val)
  | VMap (l : list Val)
  | VPair (k v : Val)
  | VObj (fs : list (list Z * Val))
  | VUnion (tag : Z) (f : list Z) (v : Val)
  | VUnknown
  | VHandle (l : Link)
  | VPending (l : Link) (version : option Z).

Definition kInvalidInterfaceId : Z := 4294967295.
Definition no_endpoint : Link := Endpoint false kInvalidInterfaceId.
Definition link_valid (l : Link) : bool :=
  match l with Pipe h => negb (h =? 0) | Endpoint live _ => live end.
(** What a move or [release()] leaves. *)
Definition link_gone (l : Link) : Link :=
  match l with Pipe _ => Pipe 0 | Endpoint _ _ => no_endpoint end.

Definition scalar_size (k : TypeKind) : option nat :=
  match k with
  | kInt8 | kUint8 => Some 1%nat
  | kInt16 | kUint16 => Some 2%nat
  | kInt32 | kUint32 | kFloat => Some 4%nat
  | kInt64 | kUint64 | kDouble => Some 8%nat
  | _ => None
  end.

(** ** Classes *)

Definition find_struct (m : Module_) (t : TypeSpec) : option StructDecl :=
  snd <$> list_find (λ s, CppEmbedName_struct s = CppEmbedName_type t) (AllStructs m).
Definition find_union (m : Module_) (t : TypeSpec) : option UnionDecl :=
  snd <$> list_find (λ u, CppEmbedName_union u = CppEmbedName_type t) (AllUnions m).
Definition find_class (p : Program) (name : list Z) : option ClassIO :=
  snd <$> list_find (λ io, io_name io = name) (p_classes p).
Definition find_enum (p : Program) (name : list Z) : option EnumIO :=
  snd <$> list_find (λ io, en_name io = name) (p_enums p).

(** An object that is value-initialised; one of a class is opened when it is used. *)
Fixpoint init (t : TypeSpec) : Val :=
  match t_kind t with
  | kPendingRemote => VPending (Pipe 0) (Some 0)
  | kPendingReceiver => VPending (Pipe 0) None
  | kPendingAssociatedRemote => VPending no_endpoint (Some 0)
  | kPendingAssociatedReceiver => VPending no_endpoint None
  | kHandle | kHandleMessagePipe | kHandleDataPipeConsumer | kHandleDataPipeProducer
  | kHandleSharedBuffer | kHandlePlatform => VHandle (Pipe 0)
  | k =>
      if nullable t then VOpt None
      else
        match k with
        | kBool => VBool false
        | kString => VStr []
        | kEnumRef => VWord 4 0
        | kArray =>
            match element t with
            | Some el => VArr el (replicate (Z.to_nat (fixed_array_size t)) (init el))
            | None => VInit t DefaultValue_init
            end
        | kMap => VMap []
        | k => match scalar_size k with Some n => VWord n 0 | None => VInit t DefaultValue_init end
        end
  end.

(** A member with its initialiser. *)
Definition field_init (f : StructField) : Val :=
  if has_value (f_default_value f) then VInit (f_type f) (f_default_value f) else init (f_type f).

(** The members of an object of a class that is as its declaration left it. *)
Definition open_val (m : Module_) (v : Val) : Val :=
  match v with
  | VInit t d =>
      if has_value d then v
      else
        match t_kind t with
        | kStructRef =>
            match find_struct m t with
            | Some s => VObj (map (λ f, (f_name f, field_init f)) (s_fields s))
            | None => v
            end
        | kUnionRef =>
            match find_union m t with
            | Some u => match u_fields u with
                        | f :: _ => VUnion (uf_tag f) (uf_name f) (init (uf_type f))
                        | [] => v
                        end
            | None => v
            end
        | _ => v
        end
  | _ => v
  end.

(** The bytes of a scalar object, [None] for a [bool]. *)
Definition scalar_shape (m : Module_) (v : Val) : Result (option nat) :=
  match open_val m v with
  | VBool _ => inr None
  | VWord n _ => inr (Some n)
  | VInit t _ =>
      if nullable t then inl Stuck
      else match t_kind t with
           | kBool => inr None
           | k => match scalar_size k with Some n => inr (Some n) | None => inl Stuck end
           end
  | _ => inl Stuck
  end.

(** Whether the object is a [std::optional]. *)
Definition is_optional (v : Val) : bool :=
  match v with
  | VInit t _ => nullable t && negb (IsHandleBearing (t_kind t))
  | VOpt _ => true
  | _ => false
  end.

(** Assignment of a value to an object. *)
Definition assign (new old : Val) : Val :=
  match new with
  | VOpt _ => new
  | _ => if is_optional old then VOpt (Some new) else new
  end.

(** Keys compare by their bits. *)
Definition key_eq (a b : Val) : Result bool :=
  match a, b with
  | VBool a, VBool b => inr (bool_decide (a = b))
  | VWord n a, VWord n' b => inr (bool_decide (n = n') && (a =? b))
  | VStr a, VStr b => inr (bool_decide (a = b))
  | _, _ => inl Stuck
  end.

(** ** Places *)

Inductive Step := StField (f : list Z) | StSome | StFirst | StSecond | StAt (i : nat) | StActive (f : list Z).
Definition Place : Type := Var * list Step.

(** A variable holds an object or, the variable of a loop over a range, refers to one. *)
Inductive Binding := BVal (v : Val) | BRef (p : Place).
Definition Env : Type := list (Var * Binding).

(** The message: its payload, its handles (when reading, [*wvc_handles]), the next
    handle, the offset, and the endpoints that the router has been asked for. *)
Record Wire := mkWire {
  data : list Z;
  handles : list Z;
  handle_idx : nat;
  offset : Z;
  endpoints : list Z
}.
Definition State : Type := Env * Wire.

Section run.
Context `{Platform}.
Variable p : Program.

(** A part of the object: [g] works on it. *)
Fixpoint at_path {A} (path : list Step) (g : Val → Result (Val * A)) (v : Val) : Result (Val * A) :=
  match path with
  | [] => g v
  | s :: path =>
      match s, open_val (p_module p) v with
      | StField f, VObj fs =>
          match list_find (λ x, x.1 = f) fs with
          | Some (i, x) =>
              let* r := at_path path g x.2 in inr (VObj (<[i := (f, r.1)]> fs), r.2)
          | None => inl Stuck
          end
      | StSome, VOpt (Some v) => let* r := at_path path g v in inr (VOpt (Some r.1), r.2)
      | StFirst, VPair k v => let* r := at_path path g k in inr (VPair r.1 v, r.2)
      | StSecond, VPair k v => let* r := at_path path g v in inr (VPair k r.1, r.2)
      | StAt i, VArr el l =>
          let* v := some (l !! i) in
          let* r := at_path path g v in inr (VArr el (<[i := r.1]> l), r.2)
      | StAt i, VMap l =>
          let* v := some (l !! i) in
          let* r := at_path path g v in inr (VMap (<[i := r.1]> l), r.2)
      | StActive f, VUnion tag f' v =>
          if bool_decide (f = f') then let* r := at_path path g v in inr (VUnion tag f' r.1, r.2)
          else inl Stuck
      | _, _ => inl Stuck
      end
  end.

(** The innermost variable of a name. *)
Fixpoint lookup_var (x : Var) (env : Env) : Result Binding :=
  match env with
  | [] => inl Stuck
  | (y, b) :: env => if decide (x = y) then inr b else lookup_var x env
  end.

Fixpoint at_var {A} (x : Var) (g : Val → Result (Val * A)) (env : Env) : Result (Env * A) :=
  match env with
  | [] => inl Stuck
  | (y, b) :: env =>
      if decide (x = y) then
        match b with
        | BVal v => let* r := g v in inr ((y, BVal r.1) :: env, r.2)
        | BRef _ => inl Stuck
        end
      else let* r := at_var x g env in inr ((y, b) :: r.1, r.2)
  end.

Definition at_place {A} (pl : Place) (g : Val → Result (Val * A)) (env : Env) : Result (Env * A) :=
  at_var pl.1 (at_path pl.2 g) env.

(** A word in a variable. *)
Definition word_var (x : Var) (env : Env) : Result Z :=
  let* b := lookup_var x env in
  match b with BVal (VWord _ w) => inr w | _ => inl Stuck end.
Definition bool_var (x : Var) (env : Env) : Result bool :=
  let* b := lookup_var x env in
  match b with BVal (VBool b) => inr b | _ => inl Stuck end.

Fixpoint place_of (env : Env) (e : Expr) : Result Place :=
  let under e s := let* pl := place_of env e in inr (pl.1, pl.2 ++ [s]) in
  match e with
  | EVar x =>
      let* b := lookup_var x env in
      match b with BVal _ => inr (x, []) | BRef pl => inr pl end
  | EDot e f | EArrow e f => under e (StField f)
  | EAccess e f => under e (StActive f)
  | EDeref e => under e StSome
  | EFirst e => under e StFirst
  | ESecond e => under e StSecond
  | EAt e i => let* n := word_var i env in under e (StAt (Z.to_nat n))
  end.

(** [g] on the object that [e] denotes. *)
Definition at_expr {A} (e : Expr) (g : Val → Result (Val * A)) (env : Env) : Result (Env * A) :=
  let* pl := place_of env e in at_place pl g env.

(** The object itself; [open_val] does not change what it is. *)
Definition value_of (e : Expr) (env : Env) : Result Val :=
  let* r := at_expr e (λ v, inr (v, open_val (p_module p) v)) env in inr r.2.

(** ** The message *)

Definition with_data (d : list Z) (w : Wire) : Wire :=
  mkWire d (handles w) (handle_idx w) (offset w) (endpoints w).
Definition with_offset (o : Z) (w : Wire) : Wire :=
  mkWire (data w) (handles w) (handle_idx w) o (endpoints w).

(** [payload_num_bytes()]. *)
Definition num_bytes (w : Wire) : Z := u32 (Z.of_nat (length (data w))).

Definition WritePayload (l : list Z) (w : Wire) : Wire := with_data (data w ++ l) w.
Definition WriteString (s : list Z) (w : Wire) : Wire :=
  WritePayload s (WritePayload (le_bytes 4 (u32 (Z.of_nat (length s)))) w).
Definition AttachHandle (h : Z) (w : Wire) : Wire :=
  mkWire (data w) (handles w ++ [h]) (handle_idx w) (offset w) (endpoints w).

(** [PatchUint32] and [PatchStructHeader], at an offset of the payload. *)
Definition patch (o : Z) (l : list Z) (w : Wire) : Result Wire :=
  if (0 <=? o) && (o + Z.of_nat (length l) <=? Z.of_nat (length (data w)))
  then inr (with_data (splice (Z.to_nat o) l (data w)) w) else inl Stuck.

(** The next [n] bytes. *)
Definition read_bytes (n : Z) (w : Wire) : Result (list Z * Wire) :=
  let o := uw (offset w + n) in
  if num_bytes w <? o then inl ReturnFalse
  else if offset w + n <=? Z.of_nat (length (data w)) then
    inr (take (Z.to_nat n) (drop (Z.to_nat (offset w)) (data w)), with_offset o w)
  else inl Stuck.

Definition ReadScalar (n : nat) (w : Wire) : Result (Z * Wire) :=
  let* r := read_bytes (Z.of_nat n) w in inr (le_value r.1, r.2).

(** [ReadScalar<bool>]: a [bool] has the byte 0 or 1. *)
Definition ReadBool (w : Wire) : Result (bool * Wire) :=
  let* r := ReadScalar 1 w in
  if r.1 =? 0 then inr (false, r.2) else if r.1 =? 1 then inr (true, r.2) else inl BadBool.

Definition ReadString (w : Wire) : Result (list Z * Wire) :=
  let* r := ReadScalar 4 w in read_bytes r.1 r.2.

(** [ReadScalar] into an object. *)
Definition read_scalar (v : Val) (w : Wire) : Result (Val * Wire) :=
  let* shape := scalar_shape (p_module p) v in
  match shape with
  | None => let* r := ReadBool w in inr (VBool r.1, r.2)
  | Some n => let* r := ReadScalar n w in inr (VWord n r.1, r.2)
  end.

(** [WriteScalar] of an object. *)
Definition write_scalar (v : Val) (w : Wire) : Result Wire :=
  match v with
  | VBool b => inr (WritePayload [if b then 1 else 0] w)
  | VWord n x => inr (WritePayload (le_bytes n x) w)
  | _ => inl Stuck
  end.

(** [( *wvc_handles)[( *wvc_handle_idx)++].release().value()]. *)
Definition take_handle (w : Wire) : Result (Z * Wire) :=
  match handles w !! handle_idx w with
  | Some h => inr (h, mkWire (data w) (<[handle_idx w := 0]> (handles w)) (S (handle_idx w)) (offset w) (endpoints w))
  | None => inl NoHandle
  end.

(** [router->CreateLocalEndpointHandle(iid)]. *)
Definition create_endpoint (iid : Z) (w : Wire) : Link * Wire :=
  (Endpoint true iid, mkWire (data w) (handles w) (handle_idx w) (offset w) (endpoints w ++ [iid])).

(** [IsKnown] and [IsKnownAsOf] on the bits of an [int32_t]. *)
Definition IsKnown (io : EnumIO) (x : Z) : bool :=
  match en_mapped io with
  | Some _ => true
  | None => existsb (λ c, u32 c.1 =? x) (en_known io)
  end.
Definition IsKnownAsOf (io : EnumIO) (x version : Z) : bool :=
  match en_mapped io with
  | Some _ => true
  | None =>
      match List.find (λ c, u32 c.1 =? x) (en_known io) with
      | Some (_, min) => if min =? 0 then true else min <=? version
      | None => false
      end
  end.

(** ** Statements *)

(** The value of a right-hand side. *)
Definition eval_rhs (r : Rhs) (st : State) : Result (Val * State) :=
  let (env, w) := st in
  let pure v := inr (v, st) in
  match r with
  | RFalse => pure (VBool false)
  | RZero => pure (VWord 4 0)
  | RHasValue e =>
      let* v := value_of e env in
      match v with VOpt o => pure (VBool (bool_decide (is_Some o))) | _ => inl Stuck end
  | RIsValid e =>
      let* v := value_of e env in
      match v with VHandle l | VPending l _ => pure (VBool (link_valid l)) | _ => inl Stuck end
  | RSize e =>
      let* v := value_of e env in
      match v with
      | VArr _ l | VMap l => pure (VWord 4 (u32 (Z.of_nat (length l))))
      | _ => inl Stuck
      end
  | RPassVersion e =>
      let* v := value_of e env in
      match v with VPending _ (Some n) => pure (VWord 4 n) | _ => inl Stuck end
  | RPassHandle e | RPassPipe e =>
      let* r := at_expr e (λ v, match open_val (p_module p) v with
                                | VPending l n => inr (VPending (link_gone l) n, l)
                                | _ => inl Stuck
                                end) env in
      inr (VHandle r.2, (r.1, w))
  | RReleaseWithoutClosing x =>
      let* r := at_var x (λ v, match v with
                               | VHandle (Endpoint live iid) => inr (VHandle no_endpoint, iid)
                               | _ => inl Stuck
                               end) env in
      inr (VWord 4 r.2, (r.1, w))
  | RCast _ x => let* n := word_var x env in pure (VWord 4 n)
  | RMove x =>
      let* b := lookup_var x env in
      match b with BVal v => pure v | BRef _ => inl Stuck end
  | RNullopt => pure (VOpt None)
  | RTakeHandle _ _ => let* r := take_handle w in inr (VHandle (Pipe r.1), (env, r.2))
  | RTakeRemote _ =>
      let* version := word_var V_version env in
      let* r := take_handle w in inr (VPending (Pipe r.1) (Some version), (env, r.2))
  | RTakeReceiver _ => let* r := take_handle w in inr (VPending (Pipe r.1) None, (env, r.2))
  | RLocalRemote _ =>
      let* iid := word_var V_iid env in
      let* version := word_var V_version env in
      let (l, w) := create_endpoint iid w in inr (VPending l (Some version), (env, w))
  | RLocalReceiver _ =>
      let* iid := word_var V_iid env in
      let (l, w) := create_endpoint iid w in inr (VPending l None, (env, w))
  | RPayloadNumBytes => pure (VWord 8 (num_bytes w))
  | RStructEnd => let* n := word_var V_num_bytes env in pure (VWord 8 (uw (uw (offset w - 8) + n)))
  | RUnionSize => let* o := word_var V_header_offset env in pure (VWord 4 (u32 (num_bytes w - o)))
  | RUnionEnd => let* n := word_var V_union_size env in pure (VWord 8 (uw (uw (offset w - 4) + n)))
  end.

(** [which()], as 32 bits. *)
Definition which (v : Val) : Result Z :=
  match open_val (p_module p) v with
  | VUnion tag _ _ => inr (u32 tag)
  | VUnknown => inr 4294967295
  | _ => inl Stuck
  end.

(** What replaces the object of a variable. *)
Definition set_var (x : Var) (v : Val) (env : Env) : Result Env :=
  let* r := at_var x (λ _, inr (v, tt)) env in inr r.1.
Definition set_expr (e : Expr) (f : Val → Result Val) (env : Env) : Result Env :=
  let* r := at_expr e (λ v, let* v := f v in inr (v, tt)) env in inr r.1.

Definition resize (n : nat) (v : Val) : Result Val :=
  match open_val (p_module p) v with
  | VArr el l => inr (VArr el (take n l ++ replicate (n - length l) (init el)))
  | _ => inl Stuck
  end.

(** [emplace] keeps the entry of a key that is there. *)
Fixpoint has_key (k : Val) (l : list Val) : Result bool :=
  match l with
  | [] => inr false
  | VPair k' _ :: l => let* b := key_eq k k' in if b then inr true else has_key k l
  | _ :: _ => inl Stuck
  end.
Definition emplace (k v : Val) (m : Val) : Result Val :=
  match m with
  | VMap l => let* b := has_key k l in inr (VMap (if b then l else l ++ [VPair k v]))
  | _ => inl Stuck
  end.

(** The number of turns of a loop over a range. *)
Definition range_length (v : Val) : Result nat :=
  match v with VArr _ l | VMap l => inr (length l) | _ => inl Stuck end.

(** [body] for [k], [k + 1], ... *)
Fixpoint repeat_from (body : nat → State → Result State) (n k : nat) (st : State) : Result State :=
  match n with
  | O => inr st
  | S n => let* st := body k st in repeat_from body n (S k) st
  end.

(** The variables of a block end with it. *)
Definition leave (outer : nat) (st : State) : State := (drop (length st.1 - outer) st.1, st.2).

Section exec.
(** A function of the module: whether it writes, its name, whether it is given the
    context of handles, and its object. *)
Variable call : bool → list Z → bool → Val → Wire → Result (Val * Wire).

Fixpoint exec (s : Stmt) (st : State) {struct s} : Result State :=
  let run := fix run (b : list Stmt) (st : State) : Result State :=
    match b with [] => inr st | s :: b => let* st := exec s st in run b st end in
  let scope b st := let* st' := run b st in inr (leave (length st.1) st') in
  let turn b x (v : Binding) (st : State) :=
    let* st' := scope b ((x, v) :: st.1, st.2) in inr (leave (length st.1) st') in
  let (env, w) := st in
  match s with
  | SDecl _ x r => let* r := eval_rhs r st in inr ((x, BVal r.1) :: r.2.1, r.2.2)
  | SDeclInit _ t x => inr ((x, BVal (init t)) :: env, w)
  | SAssign e r =>
      let* r := eval_rhs r st in
      let* env := set_expr e (λ old, inr (assign r.1 old)) r.2.1 in inr (env, r.2.2)
  | SBlock b => scope b st
  | SIf x b => let* c := bool_var x env in if c then scope b st else inr st
  | SIfElse x b b' => let* c := bool_var x env in if c then scope b st else scope b' st
  | SIfVersion v b => let* n := word_var V_version env in if v <=? n then scope b st else inr st
  | SForEach _ x e b =>
      let* pl := place_of env e in
      let* v := value_of e env in
      let* n := range_length v in
      repeat_from (λ k, turn b x (BRef (pl.1, pl.2 ++ [StAt k]))) n 0 st
  | SFor i n b =>
      let* n := match n with BVar x => word_var x env | BFixed n => inr n end in
      repeat_from (λ k, turn b i (BVal (VWord 4 (Z.of_nat k)))) (Z.to_nat n) 0 st
  | SWriteScalar e | SWriteEnum e =>
      let* v := value_of e env in let* w := write_scalar v w in inr (env, w)
  | SWriteString e =>
      let* v := value_of e env in
      match v with VStr s => inr (env, WriteString s w) | _ => inl Stuck end
  | SWritePayload x => let* n := word_var x env in inr (env, WritePayload (le_bytes 4 n) w)
  | SAttachHandle e =>
      let* r := at_expr e (λ v, match open_val (p_module p) v with
                                | VHandle (Pipe h) => inr (VHandle (Pipe 0), h)
                                | _ => inl Stuck
                                end) env in
      inr (r.1, AttachHandle r.2 w)
  | SWriteClass ns name e =>
      if bool_decide (ns = []) then at_expr e (λ v, call true name false v w) env else inl Stuck
  | SWriteStructHeader => inr (env, WritePayload (le_bytes 4 0 ++ le_bytes 4 0) w)
  | SPatchStructHeader version =>
      let* o := word_var V_header_offset env in
      let* w := patch o (le_bytes 4 (u32 (num_bytes w - o)) ++ le_bytes 4 version) w in inr (env, w)
  | SWriteUnionHeader =>
      let* v := value_of (EVar V_value) env in
      let* tag := which v in
      inr (env, WritePayload (le_bytes 4 0 ++ le_bytes 4 tag) w)
  | SSwitchWhich _ cases =>
      let* v := value_of (EVar V_value) env in
      let* tag := which v in
      (fix pick (cases : list Case) : Result State :=
         match cases with
         | [] => inr st
         | (_, t, b) :: cases => if u32 t =? tag then scope b st else pick cases
         end) cases
  | SPatchUnionSize =>
      let* o := word_var V_header_offset env in
      let* n := word_var V_union_size env in
      let* w := patch o (le_bytes 4 n) w in inr (env, w)
  | SReadVar x =>
      at_var x (λ v, read_scalar v w) env
  | SReadScalar e => at_expr e (λ v, read_scalar v w) env
  | SReadString e =>
      at_expr e (λ _, let* r := ReadString w in inr (VStr r.1, r.2)) env
  | SCheckKnown ns name x version =>
      if bool_decide (ns = []) then
        let* io := some (find_enum p name) in
        let* n := word_var x env in
        let* known := match version with
                      | Some y => let* v := word_var y env in inr (IsKnownAsOf io n v)
                      | None => inr (IsKnown io n)
                      end in
        if known then inr st else inl ReturnFalse
      else inl Stuck
  | SReadClass ns name e ctx =>
      if bool_decide (ns = []) then at_expr e (λ v, call false name ctx v w) env else inl Stuck
  | SResize e x =>
      let* n := word_var x env in
      let* env := set_expr e (resize (Z.to_nat n)) env in inr (env, w)
  | SClear e =>
      let* env := set_expr e (λ v, match open_val (p_module p) v with
                                   | VMap _ => inr (VMap [])
                                   | _ => inl Stuck
                                   end) env in inr (env, w)
  | SEmplace e k v =>
      let* k := eval_rhs (RMove k) st in
      let* v := eval_rhs (RMove v) st in
      let* env := set_expr e (emplace k.1 v.1) env in inr (env, w)
  | SUnusedContext => inr st
  | SReadStructHeader =>
      let* r := ReadScalar 4 w in
      let* env := set_var V_num_bytes (VWord 4 r.1) env in
      let* r := ReadScalar 4 r.2 in
      let* env := set_var V_version (VWord 4 r.1) env in
      inr (env, r.2)
  | SReadUnionSize =>
      let* r := ReadScalar 4 w in
      let* env := set_var V_union_size (VWord 4 r.1) env in
      inr (env, r.2)
  | SFailIfLess x _ n => let* v := word_var x env in if v <? n then inl ReturnFalse else inr st
  | SFailIfPast x =>
      let* v := word_var x env in if num_bytes w <? v then inl ReturnFalse else inr st
  | SSwitchTag _ cases otherwise =>
      let* tag := word_var V_tag env in
      (fix pick (cases : list Case) : Result State :=
         match cases with
         | [] =>
             match otherwise with
             | OtherwiseDefault f tag _ t =>
                 let* env := set_var V_out (VUnion tag f (init t)) env in inr (env, w)
             | OtherwiseUnknown => let* env := set_var V_out VUnknown env in inr (env, w)
             | OtherwiseFail => inl ReturnFalse
             end
         | (_, t, b) :: cases => if u32 t =? tag then scope b st else pick cases
         end) cases
  | SSetUnion f tag x =>
      let* v := eval_rhs (RMove x) st in
      let* env := set_var V_out (VUnion tag f v.1) env in inr (env, w)
  | SSetOffset x => let* o := word_var x env in inr (env, with_offset o w)
  end.

Fixpoint run (b : list Stmt) (st : State) : Result State :=
  match b with [] => inr st | s :: b => let* st := exec s st in run b st end.
End exec.

(** A call of a function: [fuel] bounds the depth of calls.  The object's members
    are there from the start, so it is opened. *)
Fixpoint call (fuel : nat) (writes : bool) (name : list Z) (ctx : bool) (v : Val) (w : Wire)
    : Result (Val * Wire) :=
  match fuel with
  | O => inl OutOfFuel
  | S fuel =>
      let* io := some (find_class p name) in
      let x := if writes then V_value else V_out in
      match (if writes then io_write io else io_read io) with
      | Native => inl Stuck
      | Statements b =>
          if writes || bool_decide (ctx = io_needs_ctx io) then
            let* st := run (call fuel) b ([(x, BVal (open_val (p_module p) v))], w) in
            let* r := at_var x (λ v, inr (v, v)) st.1 in
            inr (r.2, st.2)
          else inl Stuck
      end
  end.

(** [WriteX(message, value)] and [ReadX(message, offset, out, ...)]. *)
Definition write_class (fuel : nat) (name : list Z) (v : Val) (w : Wire) : Result (Val * Wire) :=
  call fuel true name false v w.
Definition read_class (fuel : nat) (name : list Z) (ctx : bool) (v : Val) (w : Wire) : Result (Val * Wire) :=
  call fuel false name ctx v w.
End run.
