(* ===== verification/GenCall.v ===== *)
(** * Calls through generated proxies and stubs

    What the classes that [EmitInterface] emits do with messages: a method of [Proxy_]
    makes a message of its arguments, [Stub_::Accept] finds the method and calls the
    implementation with them, its callback makes the response, and [Proxy_::Accept]
    hands that to the callback that waits for it.  [ResponseDispatcher] is modelled
    with its map.  A message is its header and what [v2_bytes] has as the payload;
    [wrap_roundtrip] is about its bytes. *)
From Stdlib Require Import ZArith Lia.
From stdpp Require Import base list gmap.
From S2P Require Import Prelude Ast TypeIntern Sandbox BindMessage Codec GenNames GenCode GenIO GenSem GenText GenIface.

Record Sent := mkSent {
  sent_name : Z;
  sent_flags : Z;
  sent_id : Z;
  sent_request_id : Z;
  sent_data : list Z;
  sent_handles : list Z
}.

Definition has_flag (m : Sent) (flag : Z) : bool := negb (Z.land (sent_flags m) flag =? 0).

(** ** [ResponseDispatcher] *)

Section dispatcher.
Context {A : Type}.

Record ResponseDispatcher := mkDispatcher { next_request_id_ : Z; pending_ : gmap Z A }.
Definition ResponseDispatcher_init : ResponseDispatcher := mkDispatcher 1 ∅.

(** [emplace] keeps what is there. *)
Definition RegisterPendingResponse (handler : A) (d : ResponseDispatcher) : Z * ResponseDispatcher :=
  let id := next_request_id_ d in
  (id, mkDispatcher ((id + 1) mod 2 ^ 64)
         (match pending_ d !! id with Some _ => pending_ d | None => <[id := handler]> (pending_ d) end)).

(** The handler that is to be run on the message, which is erased before it runs. *)
Definition DispatchResponse (message : Sent) (d : ResponseDispatcher) : option (A * ResponseDispatcher) :=
  match pending_ d !! sent_request_id message with
  | None => None
  | Some handler => Some (handler, mkDispatcher (next_request_id_ d) (delete (sent_request_id message) (pending_ d)))
  end.

Definition has_pending_responses (d : ResponseDispatcher) : bool := negb (bool_decide (pending_ d = ∅)).
End dispatcher.
Arguments ResponseDispatcher : clear implicits.

(** ** Statements for parameters *)

Section run.
Context `{Platform}.
Variables (p : Program) (fuel : nat).
#[local] Abbreviation exec := (exec p (call p fuel)).
#[local] Abbreviation run := (run p (call p fuel)).

Definition make (mk : Make) (st : State) : Result (Val * State) :=
  let (env, w) := st in
  match mk with
  | MkLocalRemote iid version =>
      let* i := word_var iid env in
      let* n := word_var version env in
      let (l, w) := create_endpoint i w in inr (VPending l (Some n), (env, w))
  | MkLocalReceiver iid =>
      let* i := word_var iid env in
      let (l, w) := create_endpoint i w in inr (VPending l None, (env, w))
  | MkRemote version =>
      let* n := word_var version env in
      let* r := take_handle w in inr (VPending (Pipe r.1) (Some n), (env, r.2))
  | MkReceiver => let* r := take_handle w in inr (VPending (Pipe r.1) None, (env, r.2))
  | MkHandle _ => let* r := take_handle w in inr (VHandle (Pipe r.1), (env, r.2))
  end.

Definition exec_piece (q : Piece) (st : State) : Result State :=
  let (env, w) := st in
  match q with
  | QStmt s => exec s st
  | QFlag x => let* b := bool_var x env in inr (env, WritePayload [if b then 1 else 0] w)
  | QDeclare _ t x => inr ((x, BVal (init t)) :: env, w)
  | QMake new _ x mk =>
      let* r := make mk st in
      if new : bool then inr ((x, BVal r.1) :: r.2.1, r.2.2)
      else let* env := set_var x r.1 r.2.1 in inr (env, r.2.2)
  end.

Fixpoint run_pieces (l : list Piece) (st : State) : Result State :=
  match l with [] => inr st | q :: l => let* st := exec_piece q st in run_pieces l st end.

Definition exec_top (s : TopStmt) (st : State) : Result State :=
  match s with
  | TPiece q => exec_piece q st
  | TGuarded x l =>
      let* b := bool_var x st.1 in
      if b : bool then let* st' := run_pieces l st in inr (leave (length st.1) st') else inr st
  end.

Fixpoint run_tops (l : list TopStmt) (st : State) : Result State :=
  match l with [] => inr st | s :: l => let* st := exec_top s st in run_tops l st end.

(** ** Parameters in a message *)

Definition bindings (ps : list Param) (vs : list Val) : Env :=
  zip_with (λ q v, (param_var q, BVal v)) ps vs.

(** The payload and handles that the arguments [vs] make. *)
Definition write_params (ps : ParamsIO) (vs : list Val) : Result Wire :=
  let w := mkWire [] [] 0 0 [] in
  let* st := run (ps_prelude ps) (bindings (ps_written ps) vs, w) in
  let* st := run_tops (ps_payload ps) (st.1, w) in
  inr st.2.

Fixpoint params_values (ps : list Param) (env : Env) : Result (list Val) :=
  match ps with
  | [] => inr []
  | q :: ps =>
      let* b := lookup_var (param_var q) env in
      match b with
      | BVal v => let* vs := params_values ps env in inr (v :: vs)
      | BRef _ => inl Stuck
      end
  end.

(** The arguments that are read, and the message then: only code that needs them takes
    the handles of the message. *)
Definition read_params (ps : ParamsIO) (message : Sent) : Result (list Val * Wire) :=
  let w := mkWire (sent_data message) (if ps_needs_ctx ps then sent_handles message else []) 0 0 [] in
  let* st := run_tops (ps_reads ps) ([], w) in
  let* vs := params_values (ps_params ps) st.1 in
  inr (vs, st.2).

(** ** Proxies and stubs *)

(** What waits for a response: [QueryVersion]'s closure or a method's, with the
    callback's name. *)
Inductive Handler := HQueryVersion (k : nat) | HMethod (mi : MethodIO) (k : nat).

(** What a callback is run with: values, or the [base::expected] of a method's result. *)
Inductive Response := Values (vs : list Val) | Expected (r : Val + Val).

(** The result is a union on the wire. *)
Definition wire_of_expected (r : Val + Val) : Val :=
  match r with
  | inl v => VUnion 0 (bytes "value") v
  | inr e => VUnion 1 (bytes "error") e
  end.
(** [which() == Tag::value ? value() : unexpected(error())]. *)
Definition expected_of_wire (v : Val) : Result (Val + Val) :=
  match v with
  | VUnion tag f x =>
      if tag =? 0 then if bool_decide (f = bytes "value") then inr (inl x) else inl Stuck
      else if bool_decide (f = bytes "error") then inr (inr x) else inl Stuck
  | _ => inl Stuck
  end.

Definition wire_values (r : Response) : list Val :=
  match r with Values vs => vs | Expected r => [wire_of_expected r] end.
Definition response_of (m : Method) (vs : list Val) : Result Response :=
  if is_result_response m then
    match vs with [v] => let* r := expected_of_wire v in inr (Expected r) | _ => inl Stuck end
  else inr (Values vs).

(** What happens in the end: the callback [k] runs. *)
Definition Completion : Type := nat * Response.

Definition request_message (mi : MethodIO) (id request_id : Z) (w : Wire) : Sent :=
  mkSent (m_ordinal (mi_method mi)) (if has_response (mi_method mi) then kFlagExpectsResponse else 0) id request_id
    (data w) (handles w).

(** A call of the proxy's method on the endpoint [id]; [k] is the callback. *)
Definition proxy_call (mi : MethodIO) (id : Z) (vs : list Val) (k : nat) (d : ResponseDispatcher Handler)
    : Result (Sent * ResponseDispatcher Handler) :=
  let (request, d) :=
    if has_response (mi_method mi) then RegisterPendingResponse (HMethod mi k) d else (0, d) in
  let* w := write_params (mi_request mi) vs in
  inr (request_message mi id request w, d).

Definition proxy_query_version (id : Z) (k : nat) (d : ResponseDispatcher Handler) : Sent * ResponseDispatcher Handler :=
  let (request, d) := RegisterPendingResponse (HQueryVersion k) d in
  (mkSent kRunMessageId kFlagExpectsResponse id request (le_bytes 4 0) [], d).
Definition proxy_require_version (id version : Z) : Sent :=
  mkSent kRunOrClosePipeMessageId 0 id 0 (le_bytes 4 kRunRequireVersion ++ le_bytes 4 version) [].

(** [Proxy_::Accept]: what completes. *)
Definition run_handler (h : Handler) (message : Sent) : Result Completion :=
  match h with
  | HMethod mi k =>
      let* r := read_params (mi_response mi) message in
      let* v := response_of (mi_method mi) r.1 in inr (k, v)
  | HQueryVersion k =>
      let w := mkWire (sent_data message) [] 0 0 [] in
      let* r := ReadScalar 4 w in
      if negb (r.1 =? kRunQueryVersionResult) then inl ReturnFalse
      else let* r := ReadScalar 4 r.2 in inr (k, Values [VWord 4 r.1])
  end.
Definition proxy_accept (message : Sent) (d : ResponseDispatcher Handler)
    : Result Completion * ResponseDispatcher Handler :=
  if negb (has_flag message kFlagIsResponse) then (inl ReturnFalse, d)
  else match DispatchResponse message d with
       | None => (inl ReturnFalse, d)
       | Some (h, d) => (run_handler h message, d)
       end.

(** What a stub does with a message it accepts: it answers (if the router takes the
    answer, see [accept_returns]), calls the implementation, or does nothing. *)
Inductive Accepted :=
  | Replies (message : Sent)
  | Calls (mi : MethodIO) (vs : list Val)
  | Ignores.

Definition HandleQueryVersion (id version : Z) (message : Sent) : Accepted :=
  Replies (mkSent kRunMessageId kFlagIsResponse id (sent_request_id message)
             (le_bytes 4 kRunQueryVersionResult ++ le_bytes 4 version) []).
Definition HandleRequireVersion (version : Z) (message : Sent) : Result Accepted :=
  let* r := ReadScalar 4 (mkWire (sent_data message) [] 0 0 []) in
  if negb (r.1 =? kRunRequireVersion) then inl ReturnFalse
  else
    let* r := ReadScalar 4 r.2 in
    if r.1 <=? version then inr Ignores else inl ReturnFalse.

(** The first method of the message's ordinal. *)
Fixpoint find_method (mis : list MethodIO) (name : Z) : option MethodIO :=
  match mis with
  | [] => None
  | mi :: mis => if name =? m_ordinal (mi_method mi) then Some mi else find_method mis name
  end.

Definition stub_accept (ii : InterfaceIO) (id : Z) (message : Sent) : Result Accepted :=
  let i := ii_interface ii in
  if sent_name message =? kRunMessageId then inr (HandleQueryVersion id (i_version i) message)
  else if sent_name message =? kRunOrClosePipeMessageId then HandleRequireVersion (i_version i) message
  else
    match find_method (ii_methods ii) (sent_name message) with
    | Some mi => let* r := read_params (mi_request mi) message in inr (Calls mi r.1)
    | None => if i_is_extensible i then inr Ignores else inl ReturnFalse
    end.

(** What [Stub_::Accept] returns, given whether [SendMessage] takes an answer: the result
    of [HandleQueryVersionMessage] is that of [SendMessage]. *)
Definition accept_returns (sends : Sent → bool) (r : Result Accepted) : Result bool :=
  let* a := r in inr (match a with Replies m => sends m | Calls _ _ | Ignores => true end).

(** The callback that the implementation is given: it sends [r] as the response to
    the request. *)
Definition respond (mi : MethodIO) (id request_id : Z) (r : Response) : Result Sent :=
  let* w := write_params (mi_response mi) (wire_values r) in
  inr (mkSent (m_ordinal (mi_method mi)) kFlagIsResponse id request_id (data w) (handles w)).
End run.
