(* ===== verification/Router.v ===== *)
(** * Connector and router: [WASMCadidumBindings/src]

    [connector.cc], [lib/multiplex_router.cc] and [associated_group.cc]: one message
    pipe, from which messages are read and handed to the client of the endpoint that
    they are for, and the endpoints of associated interfaces.

    A client ([MessageReceiver]) is any behaviour: a computation that may call every
    function of this file and change [world], which stands for the application.
    Closures are known by numbers.  The pipe is what can be read from it and what has
    been written to it; whether it takes a message is a parameter.  A reference to an
    endpoint is its id and the number of its node in [endpoints_]: using it once the
    node is gone is undefined.  Destruction of the router, [SyncWaitFor] and
    [FlushForTesting], which wait in the executor, are left out. *)
From Stdlib Require Import ZArith Lia.
From stdpp Require Import base list gmap.
From S2P Require Import Prelude Sandbox BindMessage Codec GenSem GenCall.

Section state.
Context {Client W : Type}.

Record Endpoint := mkEndpoint {
  ep_node : Z;
  client : option Client;
  queued_messages : list Sent;
  peer_closed_handler : option nat;
  peer_closed_with_reason_handler : option nat;
  refs : Z
}.
Definition Endpoint_init (node : Z) : Endpoint := mkEndpoint node None [] None None 0.

(** The pipe: whether the connector has it, what comes out of it ([None] are bytes that
    are no message), whether the other end is closed, what has gone in.  [watching_] is
    both watchers. *)
Record Connector := mkConnector {
  pipe_ : bool;
  incoming : list (option Sent);
  peer_closed : bool;
  outgoing : list Sent;
  watching_ : bool;
  error_ : bool;
  paused_ : bool
}.

Record Router := mkRouter {
  connector_ : Connector;
  namespace_bit_ : bool;
  next_id_value_ : Z;
  next_node : Z;
  endpoints_ : gmap Z Endpoint;
  primary_client_ : option Client;
  connection_error_handler_ : option nat;
  connection_error_with_reason_handler_ : option nat;
  disconnect_custom_reason_ : Z;
  disconnect_description_ : list Z;
  flush_done_ : bool;
  world : W
}.

Definition Connector_init (incoming : list (option Sent)) : Connector := mkConnector true incoming false [] false false false.
(** The constructor makes the router the connector's receiver and its error handler. *)
Definition Router_init (incoming : list (option Sent)) (set_namespace_bit : bool) (w : W) : Router :=
  mkRouter (Connector_init incoming) set_namespace_bit 1 0 ∅ None None None 0 [] false w.

Definition with_connector (f : Connector → Connector) (r : Router) : Router :=
  mkRouter (f (connector_ r)) (namespace_bit_ r) (next_id_value_ r) (next_node r) (endpoints_ r) (primary_client_ r)
    (connection_error_handler_ r) (connection_error_with_reason_handler_ r) (disconnect_custom_reason_ r)
    (disconnect_description_ r) (flush_done_ r) (world r).
Definition with_endpoints (node : Z) (es : gmap Z Endpoint) (r : Router) : Router :=
  mkRouter (connector_ r) (namespace_bit_ r) (next_id_value_ r) node es (primary_client_ r)
    (connection_error_handler_ r) (connection_error_with_reason_handler_ r) (disconnect_custom_reason_ r)
    (disconnect_description_ r) (flush_done_ r) (world r).
Definition with_world (f : W → W) (r : Router) : Router :=
  mkRouter (connector_ r) (namespace_bit_ r) (next_id_value_ r) (next_node r) (endpoints_ r) (primary_client_ r)
    (connection_error_handler_ r) (connection_error_with_reason_handler_ r) (disconnect_custom_reason_ r)
    (disconnect_description_ r) (flush_done_ r) (f (world r)).
Definition with_primary (c : option Client) (r : Router) : Router :=
  mkRouter (connector_ r) (namespace_bit_ r) (next_id_value_ r) (next_node r) (endpoints_ r) c
    (connection_error_handler_ r) (connection_error_with_reason_handler_ r) (disconnect_custom_reason_ r)
    (disconnect_description_ r) (flush_done_ r) (world r).
Definition with_handlers (k k' : option nat) (r : Router) : Router :=
  mkRouter (connector_ r) (namespace_bit_ r) (next_id_value_ r) (next_node r) (endpoints_ r) (primary_client_ r)
    k k' (disconnect_custom_reason_ r) (disconnect_description_ r) (flush_done_ r) (world r).
Definition with_reason (reason : Z) (description : list Z) (r : Router) : Router :=
  mkRouter (connector_ r) (namespace_bit_ r) (next_id_value_ r) (next_node r) (endpoints_ r) (primary_client_ r)
    (connection_error_handler_ r) (connection_error_with_reason_handler_ r) reason description (flush_done_ r) (world r).

Definition with_flush_done (r : Router) : Router :=
  mkRouter (connector_ r) (namespace_bit_ r) (next_id_value_ r) (next_node r) (endpoints_ r) (primary_client_ r)
    (connection_error_handler_ r) (connection_error_with_reason_handler_ r) (disconnect_custom_reason_ r)
    (disconnect_description_ r) true (world r).

Definition with_client (c : option Client) (e : Endpoint) : Endpoint :=
  mkEndpoint (ep_node e) c (queued_messages e) (peer_closed_handler e) (peer_closed_with_reason_handler e) (refs e).
Definition with_queue (q : list Sent) (e : Endpoint) : Endpoint :=
  mkEndpoint (ep_node e) (client e) q (peer_closed_handler e) (peer_closed_with_reason_handler e) (refs e).
Definition with_closed (k k' : option nat) (e : Endpoint) : Endpoint :=
  mkEndpoint (ep_node e) (client e) (queued_messages e) k k' (refs e).
Definition with_refs (n : Z) (e : Endpoint) : Endpoint :=
  mkEndpoint (ep_node e) (client e) (queued_messages e) (peer_closed_handler e) (peer_closed_with_reason_handler e) n.

(** ** Endpoints *)

(** The node of the endpoint. *)
Definition FindOrCreateEndpoint (id : Z) : M Router Z :=
  let! r := get in
  match endpoints_ r !! id with
  | Some e => ret (ep_node e)
  | None =>
      put (with_endpoints (next_node r + 1) (<[id := Endpoint_init (next_node r)]> (endpoints_ r)) r) ;;
      ret (next_node r)
  end.

Definition deref (id node : Z) : M Router Endpoint :=
  let! r := get in
  match endpoints_ r !! id with
  | Some e => if ep_node e =? node then ret e else ub
  | None => ub
  end.
Definition update_endpoint (id node : Z) (f : Endpoint → Endpoint) : M Router unit :=
  let! e := deref id node in
  modify (λ r, with_endpoints (next_node r) (<[id := f e]> (endpoints_ r)) r).

(** [next_id_value_++], with the namespace bit. *)
Definition MintInterfaceId : M Router Z :=
  let! r := get in
  let id := next_id_value_ r in
  put (mkRouter (connector_ r) (namespace_bit_ r) (u32 (id + 1)) (next_node r) (endpoints_ r) (primary_client_ r)
         (connection_error_handler_ r) (connection_error_with_reason_handler_ r) (disconnect_custom_reason_ r)
         (disconnect_description_ r) (flush_done_ r) (world r)) ;;
  ret (if namespace_bit_ r then Z.lor id kInterfaceIdNamespaceMask else id).

Definition RetainEndpoint (id : Z) : M Router unit :=
  let! node := FindOrCreateEndpoint id in
  update_endpoint id node (λ e, with_refs (refs e + 1) e).

(** The handle made is its id. *)
Definition CreateLocalEndpointHandle (id : Z) : M Router Z :=
  FindOrCreateEndpoint id ;; RetainEndpoint id ;; ret id.
(** [local] and [remote_id]. *)
Definition CreatePairPendingAssociation : M Router (Z * Z) :=
  let! id := MintInterfaceId in
  FindOrCreateEndpoint id ;; RetainEndpoint id ;; ret (id, id).

Definition MaybeEraseEndpoint (id : Z) : M Router unit :=
  let! r := get in
  match endpoints_ r !! id with
  | None => ret tt
  | Some e =>
      if (refs e <=? 0) && negb (bool_decide (is_Some (client e))) && bool_decide (length (queued_messages e) = 0%nat)
      then put (with_endpoints (next_node r) (delete id (endpoints_ r)) r)
      else ret tt
  end.

Definition DetachEndpointClient (id : Z) : M Router unit :=
  modify (λ r, with_endpoints (next_node r) (alter (with_client None) id (endpoints_ r)) r) ;;
  MaybeEraseEndpoint id.

Definition DropEndpointHandle (id : Z) : M Router unit :=
  let! r := get in
  match endpoints_ r !! id with
  | None => ret tt
  | Some _ =>
      modify (λ r, with_endpoints (next_node r)
                     (alter (λ e, if 0 <? refs e then with_refs (refs e - 1) e else e) id (endpoints_ r)) r) ;;
      MaybeEraseEndpoint id
  end.
(** [ScopedInterfaceEndpointHandle::ReleaseWithoutClosing] of a valid handle. *)
Definition ReleaseWithoutClosing (id : Z) : M Router Z := DropEndpointHandle id ;; ret id.

Definition AttachPrimaryClient (c : Client) : M Router unit := modify (with_primary (Some c)).
Definition DetachPrimaryClient : M Router unit := modify (with_primary None).
Definition SetPeerClosedHandler (id : Z) (k : nat) : M Router unit :=
  let! node := FindOrCreateEndpoint id in
  update_endpoint id node (λ e, with_closed (Some k) (peer_closed_with_reason_handler e) e).
Definition SetPeerClosedWithReasonHandler (id : Z) (k : nat) : M Router unit :=
  let! node := FindOrCreateEndpoint id in
  update_endpoint id node (λ e, with_closed (peer_closed_handler e) (Some k) e).
Definition set_connection_error_handler (k : nat) : M Router unit :=
  modify (λ r, with_handlers (Some k) (connection_error_with_reason_handler_ r) r).
Definition set_connection_error_with_reason_handler (k : nat) : M Router unit :=
  modify (λ r, with_handlers (connection_error_handler_ r) (Some k) r).
End state.
Arguments Endpoint : clear implicits.
Arguments Router : clear implicits.

Section behaviour.
Context `{Platform} {Client W : Type}.
#[local] Abbreviation R := (Router Client W).

(** What clients and closures do, and whether the pipe takes a message. *)
Context (accept : Client → Sent → M R bool) (run_closure : nat → M R unit) (run_reason : nat → Z → list Z → M R unit)
  (takes : R → Sent → bool).

(** ** [Connector] *)

Definition CancelWatchers : M R unit :=
  modify (with_connector (λ c, mkConnector (pipe_ c) (incoming c) (peer_closed c) (outgoing c) false (error_ c) (paused_ c))).
(** [pipe_.reset()]: what is in the pipe is gone. *)
Definition reset_pipe : M R unit :=
  modify (with_connector (λ c, mkConnector false [] (peer_closed c) (outgoing c) (watching_ c) (error_ c) (paused_ c))).

Definition OnPipeError : M R unit :=
  let! r := get in
  match connection_error_with_reason_handler_ r with
  | Some k =>
      modify (with_handlers (connection_error_handler_ r) None) ;;
      run_reason k (disconnect_custom_reason_ r) (disconnect_description_ r)
  | None =>
      match connection_error_handler_ r with
      | Some k => modify (with_handlers None None) ;; run_closure k
      | None => ret tt
      end
  end.

Definition RaiseError : M R unit :=
  let! r := get in
  if error_ (connector_ r) then ret tt
  else
    modify (with_connector (λ c, mkConnector (pipe_ c) (incoming c) (peer_closed c) (outgoing c) (watching_ c) true (paused_ c))) ;;
    CancelWatchers ;; reset_pipe ;; OnPipeError.

(** [Connector::Accept], which is [SendMessage] of the router. *)
Definition SendMessage (message : Sent) : M R bool :=
  let! r := get in
  if negb (pipe_ (connector_ r)) || error_ (connector_ r) then ret false
  else if takes r message then
    modify (with_connector (λ c, mkConnector (pipe_ c) (incoming c) (peer_closed c) (outgoing c ++ [message]) (watching_ c)
                                   (error_ c) (paused_ c))) ;; ret true
  else RaiseError ;; ret false.

Definition StartReceiving : M R unit :=
  modify (with_connector (λ c,
    if negb (pipe_ c) || watching_ c then c
    else mkConnector (pipe_ c) (incoming c) (peer_closed c) (outgoing c) true (error_ c) (paused_ c))).
Definition PauseIncomingMethodCallProcessing : M R unit :=
  modify (with_connector (λ c, mkConnector (pipe_ c) (incoming c) (peer_closed c) (outgoing c) (watching_ c) (error_ c) true)) ;;
  CancelWatchers.
Definition ResumeIncomingMethodCallProcessing : M R unit :=
  let! r := get in
  if negb (paused_ (connector_ r)) then ret tt
  else
    modify (with_connector (λ c, mkConnector (pipe_ c) (incoming c) (peer_closed c) (outgoing c) (watching_ c) (error_ c) false)) ;;
    StartReceiving.
Definition CloseMessagePipe : M R unit := CancelWatchers ;; reset_pipe.
(** [PassMessagePipe], which is [UnbindPipe] of the router: whether there is one, and
    what is still in it. *)
Definition UnbindPipe : M R (bool * list (option Sent)) :=
  CancelWatchers ;;
  let! r := get in
  reset_pipe ;; ret (pipe_ (connector_ r), incoming (connector_ r)).

(** ** [MultiplexRouter] *)

Definition NotifyPeerEndpointClosed (id custom_reason : Z) (description : list Z) : M R unit :=
  let payload :=
    le_bytes 4 id ++
    (if negb (custom_reason =? 0) || negb (bool_decide (description = [])) then
       le_bytes 4 custom_reason ++ le_bytes 4 (u32 (Z.of_nat (length description))) ++ description
     else []) in
  SendMessage (mkSent 0 0 kInvalidInterfaceId 0 payload []) ;; ret tt.
Definition NotifyDisconnectReason (custom_reason : Z) (description : list Z) : M R unit :=
  NotifyPeerEndpointClosed kPrimaryInterfaceId custom_reason description.

Definition CloseEndpoint (id : Z) : M R unit :=
  NotifyPeerEndpointClosed id 0 [] ;;
  modify (λ r, with_endpoints (next_node r) (alter (with_client None) id (endpoints_ r)) r) ;;
  DropEndpointHandle id.

(** The queued messages go to [ep.client], which is read again for each. *)
Fixpoint drain (id node : Z) (queued : list Sent) : M R unit :=
  match queued with
  | [] => ret tt
  | msg :: queued =>
      let! ep := deref id node in
      match client ep with
      | None => RaiseError
      | Some c =>
          let! ok := accept c msg in
          if ok then drain id node queued else RaiseError
      end
  end.
(** [id] is that of the handle. *)
Definition AttachEndpointClient (id : Z) (c : Client) : M R unit :=
  let! node := FindOrCreateEndpoint id in
  update_endpoint id node (with_client (Some c)) ;;
  let! ep := deref id node in
  if bool_decide (length (queued_messages ep) = 0%nat) then ret tt
  else update_endpoint id node (with_queue []) ;; drain id node (queued_messages ep).

(** A [ReadScalar] or [ReadString] that fails returns false. *)
Definition or_false {A} (r : Result A) (k : A → M R bool) : M R bool :=
  match r with
  | inr a => k a
  | inl ReturnFalse => ret false
  | inl _ => ub
  end.

Definition kPipeControlFlushName : Z := 1.
Definition HandlePipeControlMessage (message : Sent) : M R bool :=
  if sent_name message =? kPipeControlFlushName then
    if has_flag message kFlagIsResponse then modify with_flush_done ;; ret true
    else
      SendMessage (mkSent kPipeControlFlushName kFlagIsResponse kInvalidInterfaceId (sent_request_id message) [] []) ;;
      ret true
  else
    or_false (ReadScalar 4 (mkWire (sent_data message) [] 0 0 [])) (λ '(closed_id, w),
    or_false (if offset w <? Z.of_nat (length (sent_data message)) then
                let* '(reason, w) := ReadScalar 4 w in
                let* '(description, w) := ReadString w in inr (reason, description)
              else inr (0, []))
      (λ '(custom_reason, description),
        (if IsPrimaryInterfaceId closed_id then modify (with_reason custom_reason description) else ret tt) ;;
        let! r := get in
        match endpoints_ r !! closed_id with
        | None => ret tt
        | Some e =>
            match peer_closed_with_reason_handler e, peer_closed_handler e with
            | Some k, k' =>
                update_endpoint closed_id (ep_node e) (with_closed k' None) ;; run_reason k custom_reason description
            | None, Some k =>
                update_endpoint closed_id (ep_node e) (with_closed None None) ;; run_closure k
            | None, None => ret tt
            end
        end ;;
        ret true)).

(** [MultiplexRouter::Accept]. *)
Definition Accept (message : Sent) : M R bool :=
  let id := sent_id message in
  if id =? kInvalidInterfaceId then HandlePipeControlMessage message
  else if IsPrimaryInterfaceId id then
    let! r := get in
    match primary_client_ r with
    | Some c => accept c message
    | None => ret true
    end
  else
    let! node := FindOrCreateEndpoint id in
    let! ep := deref id node in
    match client ep with
    | Some c => accept c message
    | None => update_endpoint id node (λ e, with_queue (queued_messages e ++ [message]) e) ;; ret true
    end.

(** ** Reading *)

Inductive ReadResult := Read (m : option Sent) | ShouldWait | ReadError.
(** [ReadMessageRaw] and [WrapWireBytes]: what is in the pipe can be read after the
    other end is closed. *)
Definition read_message : M R ReadResult :=
  let! r := get in
  let c := connector_ r in
  if negb (pipe_ c) then ret ReadError
  else match incoming c with
       | m :: rest =>
           put (with_connector (λ c, mkConnector (pipe_ c) rest (peer_closed c) (outgoing c) (watching_ c) (error_ c) (paused_ c)) r) ;;
           ret (Read m)
       | [] => ret (if peer_closed c then ReadError else ShouldWait)
       end.

(** [fuel] is the number of messages in the pipe and one more. *)
Fixpoint read_all (fuel : nat) : M R unit :=
  match fuel with
  | O => ub
  | S fuel =>
      let! m := read_message in
      match m with
      | ShouldWait => ret tt
      | ReadError => RaiseError
      | Read None => RaiseError
      | Read (Some message) =>
          let! ok := Accept message in
          if negb ok then RaiseError
          else
            let! r := get in
            if error_ (connector_ r) || paused_ (connector_ r) then ret tt else read_all fuel
      end
  end.
Definition ReadAllAvailableMessages : M R unit :=
  let! r := get in read_all (S (length (incoming (connector_ r)))).

Definition OnReadable (ok : bool) : M R unit :=
  let! r := get in
  if paused_ (connector_ r) || error_ (connector_ r) then ret tt
  else if ok then ReadAllAvailableMessages else RaiseError.
(** [closed_watcher_->Cancel()] leaves the other watcher. *)
Definition OnPeerClosed : M R unit :=
  let! r := get in
  if paused_ (connector_ r) || error_ (connector_ r) then ret tt
  else ReadAllAvailableMessages ;; RaiseError.
End behaviour.
