(* ===== verification/GenRun.v ===== *)
(** * Lemmas on the execution of generated code

    Where an expression points ([focus]), what each statement does there, and what
    the variables declared on the way do not disturb. *)
From Stdlib Require Import ZArith Lia.
From stdpp Require Import base list gmap.
From S2P Require Import Prelude Ast TypeIntern Sandbox Codec GenNames GenCode GenIO GenSem.

Lemma res_bind_inr {A B} (m : Result A) (k : A → Result B) b :
  res_bind m k = inr b ↔ ∃ a, m = inr a ∧ k a = inr b.
Proof. destruct m as [|a]; cbn; split; [done|by intros (? & ? & _)|by eexists|by intros (? & [= ->] & ?)]. Qed.

Lemma res_bind_assoc {A B C} (m : Result A) (k : A → Result B) (l : B → Result C) :
  res_bind (res_bind m k) l = res_bind m (λ a, res_bind (k a) l).
Proof. by destruct m. Qed.

Lemma res_bind_ext {A B} (m : Result A) (k l : A → Result B) :
  (∀ a, k a = l a) → res_bind m k = res_bind m l.
Proof. intros H. destruct m; cbn; [done|apply H]. Qed.

(** ** Holes in objects *)

Section places.
Context `{Platform}.
Variable p : Program.

(** The object [k v] has the part [v] at [path]. *)
Definition hole (path : list Step) (k : Val → Val) : Prop :=
  ∀ A (g : Val → Result (Val * A)) v,
    at_path p path g (k v) = let* r := g v in inr (k r.1, r.2).

Lemma hole_nil : hole [] (λ v, v).
Proof. intros A g v. cbn [at_path]. destruct (g v) as [|[]]; done. Qed.

Lemma at_path_app {A} path path' (g : Val → Result (Val * A)) v :
  at_path p (path ++ path') g v = at_path p path (at_path p path' g) v.
Proof.
  revert v. induction path as [|s path IH]; intros v; [done|]. cbn [at_path app].
  destruct s, (open_val (p_module p) v); try done;
    repeat first [apply res_bind_ext; intros ? | rewrite IH; done | case_match; try done].
Qed.

Lemma hole_app path path' k k' : hole path k → hole path' k' → hole (path ++ path') (λ v, k (k' v)).
Proof.
  intros H1 H2 A g v. rewrite at_path_app, H1, H2, res_bind_assoc. by apply res_bind_ext.
Qed.

Lemma hole_some : hole [StSome] (λ v, VOpt (Some v)).
Proof. intros A g v. cbn. by destruct (g v) as [|[]]. Qed.
Lemma hole_first v' : hole [StFirst] (λ v, VPair v v').
Proof. intros A g v. cbn. by destruct (g v) as [|[]]. Qed.
Lemma hole_second k : hole [StSecond] (λ v, VPair k v).
Proof. intros A g v. cbn. by destruct (g v) as [|[]]. Qed.
Lemma hole_active tag f : hole [StActive f] (λ v, VUnion tag f v).
Proof. intros A g v. cbn. rewrite bool_decide_true by done. by destruct (g v) as [|[]]. Qed.

Lemma hole_arr el a b : hole [StAt (length a)] (λ v, VArr el (a ++ v :: b)).
Proof.
  intros A g v. cbn. rewrite list_lookup_middle by done. cbn. destruct (g v) as [|[]]; [done|]. cbn.
  by rewrite insert_app_r_alt, Nat.sub_diag by done.
Qed.
Lemma hole_map a b : hole [StAt (length a)] (λ v, VMap (a ++ v :: b)).
Proof.
  intros A g v. cbn. rewrite list_lookup_middle by done. cbn. destruct (g v) as [|[]]; [done|]. cbn.
  by rewrite insert_app_r_alt, Nat.sub_diag by done.
Qed.

Lemma list_find_key {A} (f : list Z) (a b : list (list Z * A)) x :
  f ∉ a.*1 → list_find (λ x, x.1 = f) (a ++ (f, x) :: b) = Some (length a, (f, x)).
Proof.
  intros Hn. apply list_find_Some. split_and!; [by apply list_lookup_middle|done|].
  intros j y Hj Hlt Hy. rewrite lookup_app_l in Hj by done.
  apply Hn, list_elem_of_fmap. exists y. split; [done|]. by eapply list_elem_of_lookup_2.
Qed.

Lemma hole_field f a b : f ∉ a.*1 → hole [StField f] (λ v, VObj (a ++ (f, v) :: b)).
Proof.
  intros Hn A g v. cbn. rewrite list_find_key by done. cbn. destruct (g v) as [|[]]; [done|]. cbn.
  by rewrite insert_app_r_alt, Nat.sub_diag by done.
Qed.

(** ** Places in the variables *)

(** With the object at [pl] being [v], the variables are [E v]. *)
Definition frame (pl : Place) (E : Val → Env) : Prop :=
  ∀ A (g : Val → Result (Val * A)) v, at_place p pl g (E v) = let* r := g v in inr (E r.1, r.2).

Lemma frame_var x path k env : hole path k → frame (x, path) (λ v, (x, BVal (k v)) :: env).
Proof.
  intros Hk A g v. unfold at_place. cbn. rewrite decide_True by done. rewrite Hk, res_bind_assoc.
  by apply res_bind_ext.
Qed.

Lemma frame_push y b pl E : y ≠ pl.1 → frame pl E → frame pl (λ v, (y, b) :: E v).
Proof.
  intros Hy HE A g v. unfold at_place. cbn. rewrite decide_False by done.
  specialize (HE A g v). unfold at_place in HE. rewrite HE, res_bind_assoc. by apply res_bind_ext.
Qed.

Lemma at_var_path {A} x path (g : Val → Result (Val * A)) path' env :
  at_var x (at_path p (path ++ path') g) env = at_var x (at_path p path (at_path p path' g)) env.
Proof.
  induction env as [|[y b] env IH]; cbn; [done|]. destruct (decide _); [|by rewrite IH].
  destruct b; [|done]. by rewrite at_path_app.
Qed.

Lemma frame_hole pl E path k :
  frame pl E → hole path k → frame (pl.1, pl.2 ++ path) (λ v, E (k v)).
Proof.
  intros HE Hk A g v. unfold at_place. cbn [fst snd]. rewrite at_var_path.
  specialize (HE A (at_path p path g) (k v)). unfold at_place in HE. rewrite HE, Hk, res_bind_assoc.
  by apply res_bind_ext.
Qed.
End places.

(** ** Names of variables *)

(** What code emitted from [uid] on may declare. *)
Definition fresh (uid : Z) (x : Var) : Prop :=
  match x with
  | V_has id | V_opt id | V_n id | V_e id | V_p id | V_i id | V_k id | V_v id
  | V_h_version id | V_h_handle id | V_h_iid id | V_h_pipe id => uid <= id
  | _ => False
  end.
(** With the variables of the blocks that read handles. *)
Definition apart (uid : Z) (x : Var) : Prop := fresh uid x ∨ x = V_iid ∨ x = V_version.

Lemma fresh_later uid uid' x : uid <= uid' → fresh uid' x → fresh uid x.
Proof. destruct x; cbn; lia. Qed.
Lemma apart_later uid uid' x : uid <= uid' → apart uid' x → apart uid x.
Proof. intros Hle [Hf|?]; [left; by eapply fresh_later|by right]. Qed.
Lemma fresh_apart uid x : fresh uid x → apart uid x.
Proof. by left. Qed.

Fixpoint expr_vars (e : Expr) : list Var :=
  match e with
  | EVar x => [x]
  | EDot e _ | EArrow e _ | EAccess e _ | EDeref e | EFirst e | ESecond e => expr_vars e
  | EAt e i => i :: expr_vars e
  end.

(** ** Objects by their members *)

Definition fupd (f : list Z) (v : Val) (h : list Z → Val) : list Z → Val :=
  λ n, if decide (n = f) then v else h n.
Definition obj (names : list (list Z)) (h : list Z → Val) : Val := VObj (map (λ n, (n, h n)) names).

Lemma obj_ext names h h' : (∀ n, n ∈ names → h n = h' n) → obj names h = obj names h'.
Proof.
  intros Hh. unfold obj. f_equal. apply map_ext_in. intros n Hn. f_equal. apply Hh. by apply list_elem_of_In.
Qed.

Lemma obj_of fs : NoDup fs.*1 → ∃ h, VObj fs = obj fs.*1 h ∧ ∀ n x, (n, x) ∈ fs → h n = x.
Proof.
  induction fs as [|[n x] fs IH]; intros Hnd; [by exists (λ _, VStr []); split; [done|intros ?? ?%elem_of_nil]|].
  cbn in Hnd. apply NoDup_cons in Hnd as [Hn Hnd]. destruct (IH Hnd) as (h & E & Hh).
  exists (fupd n x h). split.
  - unfold obj. cbn. unfold fupd at 1. rewrite decide_True by done. do 2 f_equal.
    injection E as E. rewrite E at 1. apply map_ext_in. intros n' Hn'%list_elem_of_In.
    unfold fupd. by rewrite decide_False by (by intros ->).
  - intros n' y [[= -> ->]|Hy]%elem_of_cons; unfold fupd; [by rewrite decide_True|].
    rewrite decide_False; [by apply Hh|]. intros ->. apply Hn, list_elem_of_fmap. by exists (n, y).
Qed.

Lemma obj_fupd names h f : obj names (fupd f (h f) h) = obj names h.
Proof. apply obj_ext. intros n _. unfold fupd. destruct (decide _) as [->|]; done. Qed.

Section focus.
Context `{Platform}.
Variable p : Program.

(** The expression [e] denotes the object [v] of the variables [E v], whatever it is,
    and code emitted from [uid] on declares nothing that changes this. *)
Record focus (uid : Z) (e : Expr) (E : Val → Env) : Prop := {
  fo_place : ∃ pl, (∀ v, place_of (E v) e = inr pl) ∧ ¬ apart uid pl.1 ∧ frame p pl E;
  fo_vars : Forall (λ x, ¬ apart uid x) (expr_vars e);
  fo_length : ∀ v v', length (E v) = length (E v')
}.

Lemma focus_later uid uid' e E : uid <= uid' → focus uid e E → focus uid' e E.
Proof.
  intros Hle [(pl & H1 & H2 & H3) Hv Hl]. split; [|eapply Forall_impl; [done|]|done].
  - exists pl. split_and!; [done| |done]. intros Ha. by apply H2, (apart_later _ uid').
  - cbn. intros x Hx Ha. by apply Hx, (apart_later _ uid').
Qed.

Lemma place_of_push e y b env : y ∉ expr_vars e → place_of ((y, b) :: env) e = place_of env e.
Proof.
  induction e; cbn; intros Hy; try (by rewrite IHe by done).
  - rewrite list_elem_of_singleton in Hy. by rewrite decide_False by congruence.
  - apply not_elem_of_cons in Hy as [Hy1 Hy2]. unfold word_var. cbn [lookup_var].
    rewrite decide_False by congruence. apply res_bind_ext. intros n. by rewrite IHe.
Qed.

Lemma focus_push uid e E y b : apart uid y → focus uid e E → focus uid e (λ v, (y, b) :: E v).
Proof.
  intros Hy [(pl & H1 & H2 & H3) Hv Hl]. split; [|done|].
  - exists pl. split_and!; [|done|].
    + intros v. rewrite place_of_push; [done|]. intros Hin. rewrite Forall_forall in Hv. by apply (Hv y).
    + apply frame_push; [|done]. by intros ->.
  - intros v v'. cbn. by rewrite (Hl v v').
Qed.

Lemma focus_pushes uid e E ex :
  Forall (λ b, apart uid b.1) ex → focus uid e E → focus uid e (λ v, ex ++ E v).
Proof.
  induction 1 as [|[y b] ex Hy Hex IH]; intros HE; [done|]. by apply (focus_push _ _ (λ v, ex ++ E v)), IH.
Qed.

Lemma focus_at {A} uid e E (g : Val → Result (Val * A)) v :
  focus uid e E → at_expr p e g (E v) = let* r := g v in inr (E r.1, r.2).
Proof. intros [(pl & H1 & H2 & H3) _ _]. unfold at_expr. rewrite H1. apply H3. Qed.

Lemma focus_value uid e E v : focus uid e E → value_of p e (E v) = inr (open_val (p_module p) v).
Proof. intros HE. unfold value_of. by rewrite (focus_at _ _ _ _ _ HE). Qed.

Lemma focus_set uid e E f v :
  focus uid e E → set_expr p e f (E v) = let* v' := f v in inr (E v').
Proof. intros HE. unfold set_expr. rewrite (focus_at _ _ _ _ _ HE). by destruct (f v). Qed.

(** A part of the object. *)
Lemma focus_under uid e E e' s k :
  focus uid e E → hole p [s] k → expr_vars e' = expr_vars e →
  (∀ env, place_of env e' = let* pl := place_of env e in inr (pl.1, pl.2 ++ [s])) →
  focus uid e' (λ v, E (k v)).
Proof.
  intros [(pl & H1 & H2 & H3) Hv Hl] Hk Hvars He. split; [|by rewrite Hvars|done].
  exists (pl.1, pl.2 ++ [s]). split_and!; [|done|by apply frame_hole].
  intros v. by rewrite He, H1.
Qed.

Lemma focus_dot uid e E f a b :
  focus uid e E → f ∉ a.*1 → focus uid (EDot e f) (λ v, E (VObj (a ++ (f, v) :: b))).
Proof. intros HE Hf. by eapply focus_under; [|apply hole_field| |]. Qed.
Lemma focus_arrow uid e E f a b :
  focus uid e E → f ∉ a.*1 → focus uid (EArrow e f) (λ v, E (VObj (a ++ (f, v) :: b))).
Proof. intros HE Hf. by eapply focus_under; [|apply hole_field| |]. Qed.
Lemma focus_access uid e E tag f :
  focus uid e E → focus uid (EAccess e f) (λ v, E (VUnion tag f v)).
Proof. intros HE. by eapply focus_under; [|apply hole_active| |]. Qed.
Lemma focus_deref uid e E : focus uid e E → focus uid (EDeref e) (λ v, E (VOpt (Some v))).
Proof. intros HE. by eapply focus_under; [|apply hole_some| |]. Qed.
Lemma focus_first uid e E v' : focus uid e E → focus uid (EFirst e) (λ v, E (VPair v v')).
Proof. intros HE. by eapply focus_under; [|apply hole_first| |]. Qed.
Lemma focus_second uid e E k : focus uid e E → focus uid (ESecond e) (λ v, E (VPair k v)).
Proof. intros HE. by eapply focus_under; [|apply hole_second| |]. Qed.

(** A variable that holds the object. *)
Lemma focus_var uid x env : ¬ apart uid x → focus uid (EVar x) (λ v, (x, BVal v) :: env).
Proof.
  intros Hx. split; [|by repeat constructor|done]. exists (x, []). split_and!; [|done|].
  - intros v. cbn. by rewrite decide_True.
  - apply (frame_var p x [] (λ v, v)), hole_nil.
Qed.

Lemma focus_apart uid e E x pl v :
  focus uid e E → apart uid x → place_of (E v) e = inr pl → x ∉ expr_vars e ∧ x ≠ pl.1.
Proof.
  intros [(pl' & H1 & H2 & _) Hv _] Hx Hpl. rewrite H1 in Hpl. injection Hpl as <-. split.
  - intros Hin. rewrite Forall_forall in Hv. by apply (Hv x).
  - by intros ->.
Qed.

(** An element, under the variable of a counting loop. *)
Lemma focus_elem uid uid' e E i n el a b :
  focus uid e E → fresh uid i → ¬ apart uid' i → uid <= uid' → n = Z.of_nat (length a) →
  focus uid' (EAt e i) (λ v, (i, BVal (VWord 4 n)) :: E (VArr el (a ++ v :: b))).
Proof.
  intros HE Hi Hi' Hle ->. pose proof (fresh_apart _ _ Hi) as Ha.
  destruct (focus_later _ _ _ _ Hle HE) as [(pl & H1 & H2 & H3) Hv Hl].
  assert (∀ v, i ∉ expr_vars e ∧ i ≠ pl.1) as Hn by (intros v; by apply (focus_apart uid e E i pl v)).
  split; [|by constructor|].
  - exists (pl.1, pl.2 ++ [StAt (length a)]). split_and!; [|done|].
    + intros v. cbn [place_of]. unfold word_var. cbn [lookup_var]. rewrite decide_True by done. cbn [res_bind].
      rewrite place_of_push, H1 by (by destruct (Hn v)). cbn. by rewrite Nat2Z.id.
    + apply (frame_push p i (BVal (VWord 4 (Z.of_nat (length a))))).
      { by destruct (Hn (VStr [])). }
      apply (frame_hole p pl E [StAt (length a)] (λ v, VArr el (a ++ v :: b))); [done|apply hole_arr].
  - intros v v'. cbn. by rewrite (Hl _ (VArr el (a ++ v' :: b))).
Qed.

(** The variable of a loop over a range, which refers to an element. *)
Lemma focus_ref uid uid' e E x pl v0 s k :
  focus uid e E → fresh uid x → ¬ apart uid' x → uid <= uid' → place_of (E v0) e = inr pl →
  hole p [s] k → focus uid' (EVar x) (λ v, (x, BRef (pl.1, pl.2 ++ [s])) :: E (k v)).
Proof.
  intros HE Hx Hx' Hle Hpl Hk.
  destruct (focus_apart _ _ _ _ _ _ HE (fresh_apart _ _ Hx) Hpl) as [_ Hne].
  destruct (focus_later _ _ _ _ Hle HE) as [(pl' & H1 & H2 & H3) Hv Hl].
  rewrite H1 in Hpl. injection Hpl as ->. split; [|by repeat constructor|].
  - exists (pl.1, pl.2 ++ [s]). split_and!; [|done|].
    + intros v. cbn. by rewrite decide_True.
    + apply (frame_push p x (BRef (pl.1, pl.2 ++ [s])) (pl.1, pl.2 ++ [s]) (λ v, E (k v))); [done|].
      by apply frame_hole.
  - intros v v'. cbn. by rewrite (Hl (k v) (k v')).
Qed.

Lemma hole_obj names h f : NoDup names → f ∈ names → hole p [StField f] (λ v, obj names (fupd f v h)).
Proof.
  intros Hnd (a & b & ->)%list_elem_of_split A g v.
  apply NoDup_app in Hnd as (Ha & Hab & Hb). apply NoDup_cons in Hb as [Hf Hb].
  assert (∀ l v, f ∉ l → map (λ n, (n, fupd f v h n)) l = map (λ n, (n, h n)) l) as Hl.
  { intros l x Hn. apply map_ext_in. intros n Hin%list_elem_of_In. unfold fupd.
    by rewrite decide_False by (by intros ->). }
  assert (∀ v, obj (a ++ f :: b) (fupd f v h) = VObj (map (λ n, (n, h n)) a ++ (f, v) :: map (λ n, (n, h n)) b)) as Ho.
  { intros x. unfold obj. rewrite map_app. cbn [map]. rewrite !Hl by (done || by intros ?; eapply Hab; [|left]).
    unfold fupd. by rewrite decide_True. }
  rewrite Ho, hole_field; [by apply res_bind_ext; intros r; rewrite Ho|].
  rewrite list_elem_of_fmap. intros ([n x] & -> & Hin). apply list_elem_of_fmap in Hin as (n' & [= -> _] & Hin).
  by eapply Hab; [|left].
Qed.

Lemma focus_obj_dot uid e E names h f :
  focus uid e E → NoDup names → f ∈ names → focus uid (EDot e f) (λ v, E (obj names (fupd f v h))).
Proof. intros HE Hnd Hf. by eapply (focus_under _ _ _ _ _ _ HE (hole_obj _ h _ Hnd Hf)). Qed.
Lemma focus_obj_arrow uid e E names h f :
  focus uid e E → NoDup names → f ∈ names → focus uid (EArrow e f) (λ v, E (obj names (fupd f v h))).
Proof. intros HE Hnd Hf. by eapply (focus_under _ _ _ _ _ _ HE (hole_obj _ h _ Hnd Hf)). Qed.

(** A variable that holds the object, below others. *)
Lemma focus_var_below uid x pre env :
  ¬ apart uid x → x ∉ pre.*1 → focus uid (EVar x) (λ v, pre ++ (x, BVal v) :: env).
Proof.
  intros Hx Hn. split; [|by repeat constructor|by intros; rewrite !length_app].
  exists (x, []). split_and!; [|done|].
  - intros v. induction pre as [|[y b] pre IH]; cbn; [by rewrite decide_True|].
    cbn in Hn. apply not_elem_of_cons in Hn as [Hy Hn]. rewrite decide_False by done. by apply IH.
  - induction pre as [|[y b] pre IH]; [apply (frame_var p x [] (λ v, v)), hole_nil|].
    cbn in Hn. apply not_elem_of_cons in Hn as [Hy Hn].
    apply (frame_push p y b (x, []) (λ v, pre ++ (x, BVal v) :: env)); [by cbn; congruence|by apply IH].
Qed.
End focus.

(** ** Statements *)

Section exec.
Context `{Platform}.
Variable p : Program.
Variable call : bool → list Z → bool → Val → Wire → Result (Val * Wire).
#[local] Abbreviation run := (run p call).
#[local] Abbreviation exec := (exec p call).

Definition scope (b : list Stmt) (st : State) : Result State :=
  let* st' := run b st in inr (leave (length st.1) st').
Definition turn (b : list Stmt) (x : Var) (v : Binding) (st : State) : Result State :=
  let* st' := scope b ((x, v) :: st.1, st.2) in inr (leave (length st.1) st').

Lemma run_app b b' st : run (b ++ b') st = let* st := run b st in run b' st.
Proof.
  revert st. induction b as [|s b IH]; intros st; [done|]. cbn [app GenSem.run].
  rewrite res_bind_assoc. apply res_bind_ext. intros st'. apply IH.
Qed.
Lemma run_one s st : run [s] st = exec s st.
Proof. cbn. by destruct (exec s st). Qed.
Lemma run_cons s b st : run (s :: b) st = let* st := exec s st in run b st.
Proof. done. Qed.

Lemma exec_block b st : exec (SBlock b) st = scope b st.
Proof. by destruct st. Qed.
Lemma exec_if x b st :
  exec (SIf x b) st = let* c := bool_var x st.1 in if c then scope b st else inr st.
Proof. by destruct st. Qed.
Lemma exec_if_else x b b' st :
  exec (SIfElse x b b') st = let* c := bool_var x st.1 in if c then scope b st else scope b' st.
Proof. by destruct st. Qed.
Lemma exec_if_version v b st :
  exec (SIfVersion v b) st = let* n := word_var V_version st.1 in if v <=? n then scope b st else inr st.
Proof. by destruct st. Qed.
Lemma exec_for_each m x e b st :
  exec (SForEach m x e b) st =
  let* pl := place_of st.1 e in
  let* v := value_of p e st.1 in
  let* n := range_length v in
  repeat_from (λ k, turn b x (BRef (pl.1, pl.2 ++ [StAt k]))) n 0 st.
Proof. by destruct st. Qed.
Lemma exec_for i n b st :
  exec (SFor i n b) st =
  let* n := match n with BVar x => word_var x st.1 | BFixed n => inr n end in
  repeat_from (λ k, turn b i (BVal (VWord 4 (Z.of_nat k)))) (Z.to_nat n) 0 st.
Proof. by destruct st. Qed.

(** Where a switch goes. *)
Definition switch (tag : Z) (cases : list Case) (otherwise : Result State) (st : State) : Result State :=
  match List.find (λ c : Case, u32 c.1.2 =? tag) cases with
  | Some c => scope c.2 st
  | None => otherwise
  end.

Lemma exec_switch_which cls cases st :
  exec (SSwitchWhich cls cases) st =
  let* v := value_of p (EVar V_value) st.1 in
  let* tag := which p v in switch tag cases (inr st) st.
Proof.
  destruct st as [env w]. cbn. apply res_bind_ext. intros v. apply res_bind_ext. intros tag.
  unfold switch. induction cases as [|[[f t] b] cases IH]; cbn; [done|]. destruct (u32 t =? tag); [reflexivity|exact IH].
Qed.

Lemma exec_switch_tag cls cases other st :
  exec (SSwitchTag cls cases other) st =
  let* tag := word_var V_tag st.1 in
  switch tag cases
    match other with
    | OtherwiseDefault f tag _ t =>
        let* env := set_var V_out (VUnion tag f (init t)) st.1 in inr (env, st.2)
    | OtherwiseUnknown => let* env := set_var V_out VUnknown st.1 in inr (env, st.2)
    | OtherwiseFail => inl ReturnFalse
    end st.
Proof.
  destruct st as [env w]. cbn. apply res_bind_ext. intros tag.
  unfold switch. induction cases as [|[[f t] b] cases IH]; cbn; [done|]. destruct (u32 t =? tag); [reflexivity|exact IH].
Qed.

(** The variable declared last. *)
Lemma lookup_top x b env : lookup_var x ((x, b) :: env) = inr b.
Proof. cbn. by rewrite decide_True. Qed.
Lemma lookup_below x y b env : x ≠ y → lookup_var x ((y, b) :: env) = lookup_var x env.
Proof. intros Hne. cbn. by rewrite decide_False. Qed.
Lemma lookup_skip x ex env :
  Forall (λ b, x ≠ b.1) ex → lookup_var x (ex ++ env) = lookup_var x env.
Proof. induction 1 as [|[y b] ex Hy Hex IH]; [done|]. cbn in *. by rewrite decide_False. Qed.
Lemma value_of_top x v env : value_of p (EVar x) ((x, BVal v) :: env) = inr (open_val (p_module p) v).
Proof. unfold value_of, at_expr, at_place. cbn. rewrite decide_True by done. cbn. by rewrite decide_True. Qed.
Lemma bool_var_top x b env : bool_var x ((x, BVal (VBool b)) :: env) = inr b.
Proof. unfold bool_var. by rewrite lookup_top. Qed.
Lemma word_var_top x n z env : word_var x ((x, BVal (VWord n z)) :: env) = inr z.
Proof. unfold word_var. by rewrite lookup_top. Qed.
Lemma word_var_below x y b env : x ≠ y → word_var x ((y, b) :: env) = word_var x env.
Proof. intros Hne. unfold word_var. by rewrite lookup_below. Qed.
Lemma word_var_skip x ex env :
  Forall (λ b, x ≠ b.1) ex → word_var x (ex ++ env) = word_var x env.
Proof. intros Hex. unfold word_var. by rewrite lookup_skip. Qed.

(** The object of a function, below what was declared. *)
Lemma object_left x ex v :
  Forall (λ y, x ≠ y.1) ex →
  at_var x (λ v, inr (v, v)) (ex ++ [(x, BVal v)]) = inr (ex ++ [(x, BVal v)], v).
Proof.
  induction 1 as [|[y b] ex Hy Hex IH]; [cbn; by rewrite decide_True|]. cbn [app at_var].
  rewrite decide_False by done. by rewrite IH.
Qed.

Lemma set_var_top x v v0 env : set_var x v ((x, BVal v0) :: env) = inr ((x, BVal v) :: env).
Proof. unfold set_var. cbn. by rewrite decide_True. Qed.
Lemma set_var_below x y b v env :
  x ≠ y → set_var x v ((y, b) :: env) = let* e := set_var x v env in inr ((y, b) :: e).
Proof. intros Hne. unfold set_var. cbn. rewrite decide_False by done. by destruct (at_var x _ env). Qed.
Lemma set_var_skip x ex v env :
  Forall (λ y, x ≠ y.1) ex → set_var x v (ex ++ env) = let* e := set_var x v env in inr (ex ++ e).
Proof.
  induction 1 as [|[y b] ex Hy Hex IH]; cbn [app]; [by destruct (set_var x v env)|].
  rewrite set_var_below, IH by done. by destruct (set_var x v env).
Qed.

(** Leaving a block, whatever it has declared. *)
Lemma leave_app ex (env : Env) w n : n = length env → leave n (ex ++ env, w) = (env, w).
Proof.
  intros ->. unfold leave. cbn [fst snd]. f_equal.
  rewrite length_app. replace (length ex + length env - length env)%nat with (length ex) by lia.
  by rewrite drop_app_length.
Qed.

Lemma scope_run b ex (env env' : Env) w w' :
  run b (env, w) = inr (ex ++ env', w') → length env' = length env →
  scope b (env, w) = inr (env', w').
Proof. intros Hr Hl. unfold scope. rewrite Hr. cbn [res_bind fst]. by rewrite leave_app. Qed.

Lemma turn_run b x v ex (env env' : Env) w w' b' :
  run b ((x, v) :: env, w) = inr (ex ++ (x, b') :: env', w') → length env' = length env →
  turn b x v (env, w) = inr (env', w').
Proof.
  intros Hr Hl. unfold turn. cbn [fst snd].
  rewrite (scope_run b ex _ ((x, b') :: env') w w') by (done || by cbn; lia). cbn [res_bind].
  by rewrite (leave_app [(x, b')] env').
Qed.
End exec.
