(* ===== verification/GenWire.v ===== *)
(** * The wire format of generated code

    What a value looks like in a message, independently of the code: [Repr] relates a
    value of a type to its bytes, the handles that travel beside them and the ids of
    its endpoints.  With [exact] it is what a writer of this schema produces; without,
    what a reader has to accept: structs of any version, and bytes after the fields it
    knows.  Also here: the functions that a header holds ([program_ok]), and what lies
    ahead in a message that is being read ([ahead], [got]). *)
From Stdlib Require Import ZArith Lia.
From stdpp Require Import base list gmap sorting.
From S2P Require Import Prelude Ast ParseSafe TypeIntern Sandbox SandboxProps Codec BindMessageProps GenNames GenCode GenOrderProps GenIO GenSem.

(** ** The order of fields *)

(** The fields of a struct as they follow each other in a message: older ones first, and
    those of one version in the order of their declaration. *)
Definition goes_before (s : StructDecl) (i j : nat) : Prop :=
  ∃ f g, s_fields s !! i = Some f ∧ s_fields s !! j = Some g ∧
    (f_min_version f < f_min_version g ∨ f_min_version f = f_min_version g ∧ (i < j)%nat).
Definition wire_order (s : StructDecl) (l : list StructField) : Prop :=
  ∃ places, places ≡ₚ seq 0 (length (s_fields s)) ∧ StronglySorted (goes_before s) places ∧
    l = omap (λ i, s_fields s !! i) places.

Lemma insert_by_perm less x l : insert_by less x l ≡ₚ x :: l.
Proof.
  induction l as [|y l IH]; cbn; [done|]. destruct (less y x); [|done].
  rewrite IH. apply Permutation_swap.
Qed.
Lemma stable_sort_perm less l : stable_sort less l ≡ₚ l.
Proof. induction l as [|x l IH]; cbn; [done|]. by rewrite insert_by_perm, IH. Qed.

Lemma WireFieldOrder_perm s : WireFieldOrder s ≡ₚ seq 0 (length (s_fields s)).
Proof. apply stable_sort_perm. Qed.

Lemma wire_fields_perm s : wire_fields s ≡ₚ s_fields s.
Proof. unfold wire_fields. rewrite WireFieldOrder_perm. by rewrite omap_seq_id. Qed.

Lemma elem_of_wire_fields s f : f ∈ wire_fields s ↔ f ∈ s_fields s.
Proof. by rewrite wire_fields_perm. Qed.

Lemma wire_names_nodup s : NoDup (map f_name (s_fields s)) → NoDup (map f_name (wire_fields s)).
Proof. intros Hn. by rewrite wire_fields_perm. Qed.

Lemma insert_by_sorted (R : nat → nat → Prop) (less : nat → nat → bool) x l :
  Transitive R → (∀ y, y ∈ l → if less y x then R y x else R x y) →
  StronglySorted R l → StronglySorted R (insert_by less x l).
Proof.
  intros HT Hx Hl. induction Hl as [|y l Hl IH Hy]; cbn; [by repeat constructor|].
  pose proof (Hx y ltac:(by left)) as Hyx. destruct (less y x).
  - constructor; [apply IH; intros z Hz; apply Hx; by right|]. rewrite insert_by_perm. by constructor.
  - constructor; [by constructor|]. constructor; [done|]. eapply Forall_impl; [exact Hy|]. intros z Hz. by etransitivity.
Qed.
#[local] Instance goes_before_trans s : Transitive (goes_before s).
Proof.
  intros i j k (f & g & Hf & Hg & H1) (g' & h & Hg' & Hh & H2). rewrite Hg in Hg'. injection Hg' as <-.
  exists f, h. split_and!; [done..|]. destruct H1, H2; lia.
Qed.
Lemma wire_less_before s i j : (i < length (s_fields s))%nat → (j < length (s_fields s))%nat → i ≠ j →
  if wire_less s i j then goes_before s i j else goes_before s j i.
Proof.
  intros (f & Hf)%lookup_lt_is_Some (g & Hg)%lookup_lt_is_Some Hne. unfold wire_less. rewrite Hf, Hg.
  destruct (Z.eqb_spec (f_min_version f) (f_min_version g)) as [E|E]; cbn [negb].
  - destruct (Nat.ltb_spec i j); [exists f, g|exists g, f]; (split_and!; [done..|]); right; split; lia.
  - destruct (Z.ltb_spec (f_min_version f) (f_min_version g)); [exists f, g|exists g, f]; (split_and!; [done..|]); left; lia.
Qed.
Lemma wire_fields_order s : wire_order s (wire_fields s).
Proof.
  exists (WireFieldOrder s). split; [apply WireFieldOrder_perm|]. split; [|done]. unfold WireFieldOrder.
  assert (∀ l, NoDup l → Forall (λ i, i < length (s_fields s))%nat l → StronglySorted (goes_before s) (stable_sort (wire_less s) l)) as Hs.
  { induction l as [|i l IH]; intros Hnd Hl; cbn; [constructor|]. apply NoDup_cons in Hnd as [Hi Hnd]. apply Forall_cons in Hl as [Hil Hl].
    apply insert_by_sorted; [apply _| |by apply IH]. intros j Hj. change (j ∈ stable_sort (wire_less s) l) in Hj. rewrite stable_sort_perm in Hj.
    apply wire_less_before; [|done|congruence]. rewrite Forall_forall in Hl. by apply Hl. }
  apply Hs; [apply NoDup_seq|]. apply Forall_forall. intros i Hi%elem_of_seq. lia.
Qed.
(** There is one such order. *)
Lemma wire_order_fields s l : wire_order s l → l = wire_fields s.
Proof.
  intros (places & Hp & Hs & ->). destruct (wire_fields_order s) as (places' & Hp' & Hs' & ->). f_equal.
  apply (StronglySorted_unique_strong (goes_before s)); [|done|done|by rewrite Hp, Hp'].
  intros i j _ _ (f & g & Hf & Hg & H1) (g' & f' & Hg' & Hf' & H2). rewrite Hf in Hf'. rewrite Hg in Hg'.
  injection Hf' as <-. injection Hg' as <-. lia.
Qed.

(** ** Values *)

(** Bytes, handles and endpoint ids. *)
Record Bits := mkBits { b_data : list Z; b_handles : list Z; b_endpoints : list Z }.
Definition bits_app (a b : Bits) : Bits :=
  mkBits (b_data a ++ b_data b) (b_handles a ++ b_handles b) (b_endpoints a ++ b_endpoints b).
Infix "+++" := bits_app (at level 60, right associativity).
Definition no_bits : Bits := mkBits [] [] [].
Definition raw (l : list Z) : Bits := mkBits l [] [].

Lemma bits_app_assoc a b c : a +++ b +++ c = (a +++ b) +++ c.
Proof. unfold bits_app. cbn. by rewrite !app_assoc. Qed.
Lemma bits_app_nil a : a +++ no_bits = a.
Proof. destruct a. unfold bits_app. cbn. by rewrite !app_nil_r. Qed.
Lemma bits_nil_app a : no_bits +++ a = a.
Proof. by destruct a. Qed.

(** Every element satisfies [R] with its part of the bits. *)
Inductive Elems (R : Val → Bits → Prop) : list Val → Bits → Prop :=
  | Elems_nil : Elems R [] no_bits
  | Elems_cons x l o o' : R x o → Elems R l o' → Elems R (x :: l) (o +++ o').

(** A handle or interface that is there. *)
Inductive ReprLink (t : TypeSpec) : Val → Bits → Prop :=
  | L_remote h n : t_kind t = kPendingRemote → 0 <= n < 2 ^ 32 →
      ReprLink t (VPending (Pipe h) (Some n)) (mkBits (le_bytes 4 n) [h] [])
  | L_receiver h : t_kind t = kPendingReceiver →
      ReprLink t (VPending (Pipe h) None) (mkBits [] [h] [])
  | L_associated_remote iid n :
      t_kind t = kPendingAssociatedRemote → 0 <= iid < 2 ^ 32 → 0 <= n < 2 ^ 32 →
      ReprLink t (VPending (Endpoint true iid) (Some n)) (mkBits (le_bytes 4 iid ++ le_bytes 4 n) [] [iid])
  | L_associated_receiver iid : t_kind t = kPendingAssociatedReceiver → 0 <= iid < 2 ^ 32 →
      ReprLink t (VPending (Endpoint true iid) None) (mkBits (le_bytes 4 iid) [] [iid])
  | L_handle h :
      t_kind t ∈ [kHandle; kHandleMessagePipe; kHandleDataPipeConsumer; kHandleDataPipeProducer;
                  kHandleSharedBuffer; kHandlePlatform] →
      ReprLink t (VHandle (Pipe h)) (mkBits [] [h] []).

Lemma link_kind t v o : ReprLink t v o → IsHandleBearing (t_kind t) = true.
Proof. destruct 1 as [? ? ->|? ->|? ? ->|? ->|? Hk]; try done. destruct (t_kind t); set_solver. Qed.

Definition link_of (v : Val) : Link := match v with VHandle l | VPending l _ => l | _ => no_endpoint end.

(** What is left of a value that has been written: its handles are gone. *)
Fixpoint spent (v : Val) : Val :=
  match v with
  | VOpt (Some v) => VOpt (Some (spent v))
  | VArr el l => VArr el (map spent l)
  | VMap l => VMap (map spent l)
  | VPair k v => VPair k (spent v)
  | VObj fs => VObj (map (λ x, (x.1, spent x.2)) fs)
  | VUnion tag f v => VUnion tag f (spent v)
  | VHandle l => VHandle (link_gone l)
  | VPending l n => VPending (link_gone l) n
  | v => v
  end.

Section repr.
Variable p : Program.
Variable ext : gmap (list Z) bool.
Variable exact : bool.

(** The check that readers make of an enum: in a struct, as of its version. *)
Definition enum_accepts (version : option Z) (t : TypeSpec) (x : Z) : Prop :=
  IsEnumExtensible ext (t_name t) = true ∨
  owner_namespace t = [] ∧
  ∃ io, find_enum p (ContainerMangle (owner_container t) ++ t_name t) = Some io ∧
    match version with Some v => IsKnownAsOf io x v | None => IsKnown io x end = true.

(** No key twice. *)
Definition keys_ok (l : list Val) : Prop :=
  ∀ a k v b, l = a ++ VPair k v :: b → has_key k a = inr false.

(** A struct or union has its size, what it is, its contents and what follows. *)
Definition sized (size what : Z) (o : Bits) (tail : list Z) : Bits :=
  mkBits (le_bytes 4 size ++ le_bytes 4 what ++ b_data o ++ tail) (b_handles o) (b_endpoints o).
Definition size_of (o : Bits) (tail : list Z) : Z := Z.of_nat (8 + length (b_data o) + length tail).

Inductive Repr : option Z → TypeSpec → Val → Bits → Prop :=
  | R_bool ver t b : t_kind t = kBool → nullable t = false →
      Repr ver t (VBool b) (raw [if b then 1 else 0])
  | R_word ver t n x : scalar_size (t_kind t) = Some n → nullable t = false → 0 <= x < 256 ^ Z.of_nat n →
      Repr ver t (VWord n x) (raw (le_bytes n x))
  | R_string ver t s : t_kind t = kString → nullable t = false → Z.of_nat (length s) < 2 ^ 32 →
      Repr ver t (VStr s) (raw (le_bytes 4 (Z.of_nat (length s)) ++ s))
  | R_enum ver t x : t_kind t = kEnumRef → nullable t = false → 0 <= x < 2 ^ 32 → enum_accepts ver t x →
      Repr ver t (VWord 4 x) (raw (le_bytes 4 x))
  | R_null ver t : IsHandleBearing (t_kind t) = false → nullable t = true →
      Repr ver t (VOpt None) (raw [0])
  | R_some ver t v o : IsHandleBearing (t_kind t) = false → nullable t = true →
      Repr ver (non_null t) v o → Repr ver t (VOpt (Some v)) (raw [1] +++ o)
  | R_link ver t v o : nullable t = false → ReprLink t v o → Repr ver t v o
  | R_link_null ver t : IsHandleBearing (t_kind t) = true → nullable t = true →
      Repr ver t (init t) (raw [0])
  | R_link_some ver t v o : nullable t = true → ReprLink t v o → link_valid (link_of v) = true →
      Repr ver t v (raw [1] +++ o)
  | R_array ver t el l o : t_kind t = kArray → nullable t = false → element t = Some el →
      fixed_array_size t = 0 → Z.of_nat (length l) < 2 ^ 32 → ReprList ver el l o →
      Repr ver t (VArr el l) (raw (le_bytes 4 (Z.of_nat (length l))) +++ o)
  | R_fixed ver t el l o : t_kind t = kArray → nullable t = false → element t = Some el →
      fixed_array_size t = Z.of_nat (length l) → l ≠ [] → ReprList ver el l o →
      Repr ver t (VArr el l) o
  | R_map ver t k el l o : t_kind t = kMap → nullable t = false → key t = Some k → element t = Some el →
      Z.of_nat (length l) < 2 ^ 32 → keys_ok l → ReprPairs ver k el l o →
      Repr ver t (VMap l) (raw (le_bytes 4 (Z.of_nat (length l))) +++ o)
  | R_struct ver t s v l fs o tail :
      t_kind t = kStructRef → nullable t = false → owner_namespace t = [] → find_struct (p_module p) t = Some s →
      fs.*1 = map f_name (s_fields s) → 0 <= v < 2 ^ 32 → wire_order s l → ReprFields v l fs o →
      (exact = true → v = s_version s ∧ tail = []) → size_of o tail < 2 ^ 32 →
      Repr ver t (VObj fs) (sized (size_of o tail) v o tail)
  | R_union ver t u f v o tail :
      t_kind t = kUnionRef → nullable t = false → owner_namespace t = [] → find_union (p_module p) t = Some u →
      f ∈ u_fields u → Repr None (uf_type f) v o →
      (exact = true → tail = []) → size_of o tail < 2 ^ 32 →
      Repr ver t (VUnion (uf_tag f) (uf_name f) v) (sized (size_of o tail) (u32 (uf_tag f)) o tail)
  | R_union_unknown ver t u tag tail :
      t_kind t = kUnionRef → nullable t = false → owner_namespace t = [] → find_union (p_module p) t = Some u →
      exact = false → u_is_extensible u = true → 0 <= tag < 2 ^ 32 →
      Forall (λ f, u32 (uf_tag f) ≠ tag) (u_fields u) → size_of no_bits tail < 2 ^ 32 →
      Repr ver t
        match default_field u with
        | Some f => VUnion (uf_tag f) (uf_name f) (init (uf_type f))
        | None => VUnknown
        end (sized (size_of no_bits tail) tag no_bits tail)
(** The fields that a struct of version [v] has, in the order of the wire. *)
with ReprFields : Z → list StructField → list (list Z * Val) → Bits → Prop :=
  | RF_nil v fs : ReprFields v [] fs no_bits
  | RF_present v f l fs x o o' : f_min_version f <= v → (f_name f, x) ∈ fs →
      Repr (Some v) (f_type f) x o → ReprFields v l fs o' → ReprFields v (f :: l) fs (o +++ o')
  | RF_absent v f l fs o : v < f_min_version f → (f_name f, field_init f) ∈ fs →
      ReprFields v l fs o → ReprFields v (f :: l) fs o
with ReprList : option Z → TypeSpec → list Val → Bits → Prop :=
  | RL_nil ver el : ReprList ver el [] no_bits
  | RL_cons ver el x l o o' : Repr ver el x o → ReprList ver el l o' → ReprList ver el (x :: l) (o +++ o')
with ReprPairs : option Z → TypeSpec → TypeSpec → list Val → Bits → Prop :=
  | RP_nil ver k el : ReprPairs ver k el [] no_bits
  | RP_cons ver k el x y l o1 o2 o' : Repr ver k x o1 → spent x = x → Repr ver el y o2 →
      ReprPairs ver k el l o' → ReprPairs ver k el (VPair x y :: l) ((o1 +++ o2) +++ o').

Scheme Repr_mut := Induction for Repr Sort Prop
  with ReprFields_mut := Induction for ReprFields Sort Prop
  with ReprList_mut := Induction for ReprList Sort Prop
  with ReprPairs_mut := Induction for ReprPairs Sort Prop.
Combined Scheme Repr_all from Repr_mut, ReprFields_mut, ReprList_mut, ReprPairs_mut.
End repr.

(** ** A reference encoder *)

Fixpoint type_eqb (a b : TypeSpec) : bool :=
  let opt_eqb x y := match x, y with Some x, Some y => type_eqb x y | None, None => true | _, _ => false end in
  bool_decide (t_kind a = t_kind b) && bool_decide (t_name a = t_name b) &&
  opt_eqb (element a) (element b) && opt_eqb (key a) (key b) && Bool.eqb (nullable a) (nullable b) &&
  bool_decide (owner_namespace a = owner_namespace b) && bool_decide (owner_container a = owner_container b) &&
  (fixed_array_size a =? fixed_array_size b).

Lemma type_eqb_eq : ∀ a b, type_eqb a b = true → a = b.
Proof.
  fix IH 1. intros [k nm el ky nu ns c sz] [k' nm' el' ky' nu' ns' c' sz']. cbn.
  rewrite !andb_true_iff, !bool_decide_eq_true, Bool.eqb_true_iff, Z.eqb_eq.
  intros (((((((-> & ->) & He) & Hk) & ->) & ->) & ->) & ->). f_equal.
  - destruct el, el'; try done. f_equal. by apply IH.
  - destruct ky, ky'; try done. f_equal. by apply IH.
Qed.

Definition in_word (n : nat) (x : Z) : bool := (0 <=? x) && (x <? 256 ^ Z.of_nat n).
Definition fits (n : Z) : bool := n <? 2 ^ 32.

Definition encode_link (t : TypeSpec) (v : Val) : option Bits :=
  match t_kind t, v with
  | kPendingRemote, VPending (Pipe h) (Some n) =>
      if in_word 4 n then Some (mkBits (le_bytes 4 n) [h] []) else None
  | kPendingReceiver, VPending (Pipe h) None => Some (mkBits [] [h] [])
  | kPendingAssociatedRemote, VPending (Endpoint true iid) (Some n) =>
      if in_word 4 iid && in_word 4 n then Some (mkBits (le_bytes 4 iid ++ le_bytes 4 n) [] [iid]) else None
  | kPendingAssociatedReceiver, VPending (Endpoint true iid) None =>
      if in_word 4 iid then Some (mkBits (le_bytes 4 iid) [] [iid]) else None
  | kHandle, VHandle (Pipe h) | kHandleMessagePipe, VHandle (Pipe h) | kHandleDataPipeConsumer, VHandle (Pipe h)
  | kHandleDataPipeProducer, VHandle (Pipe h) | kHandleSharedBuffer, VHandle (Pipe h)
  | kHandlePlatform, VHandle (Pipe h) => Some (mkBits [] [h] [])
  | _, _ => None
  end.

(** Whether the value is the one that holds nothing. *)
Definition link_is_init (t : TypeSpec) (v : Val) : bool :=
  match t_kind t, v with
  | kPendingRemote, VPending (Pipe h) (Some n) => (h =? 0) && (n =? 0)
  | kPendingReceiver, VPending (Pipe h) None => h =? 0
  | kPendingAssociatedRemote, VPending (Endpoint false iid) (Some n) => (iid =? kInvalidInterfaceId) && (n =? 0)
  | kPendingAssociatedReceiver, VPending (Endpoint false iid) None => iid =? kInvalidInterfaceId
  | kHandle, VHandle (Pipe h) | kHandleMessagePipe, VHandle (Pipe h) | kHandleDataPipeConsumer, VHandle (Pipe h)
  | kHandleDataPipeProducer, VHandle (Pipe h) | kHandleSharedBuffer, VHandle (Pipe h)
  | kHandlePlatform, VHandle (Pipe h) => h =? 0
  | _, _ => false
  end.

Fixpoint concat_bits {A} (f : A → option Bits) (l : list A) : option Bits :=
  match l with
  | [] => Some no_bits
  | x :: l => match f x, concat_bits f l with Some o, Some o' => Some (o +++ o') | _, _ => None end
  end.

(** No key twice, and the keys are words, strings or flags. *)
Fixpoint keys_check (before l : list Val) : bool :=
  match l with
  | [] => true
  | VPair k v :: l =>
      match k with VBool _ | VWord _ _ | VStr _ => true | _ => false end &&
      match has_key k before with inr false => keys_check (before ++ [VPair k v]) l | _ => false end
  | _ :: _ => false
  end.

Section encode.
Variable p : Program.
Variable ext : gmap (list Z) bool.

Definition enum_check (version : option Z) (t : TypeSpec) (x : Z) : bool :=
  IsEnumExtensible ext (t_name t) ||
  bool_decide (owner_namespace t = []) &&
  match find_enum p (ContainerMangle (owner_container t) ++ t_name t) with
  | Some io => match version with Some v => IsKnownAsOf io x v | None => IsKnown io x end
  | None => false
  end.

(** What a writer of the module makes of a value of type [t], if it is one: [fuel]
    bounds its depth. *)
Fixpoint encode (fuel : nat) (ver : option Z) (t : TypeSpec) (v : Val) : option Bits :=
  match fuel with
  | O => None
  | S fuel =>
      if IsHandleBearing (t_kind t) then
        if nullable t then
          if link_is_init t v then Some (raw [0])
          else if link_valid (link_of v) then (bits_app (raw [1])) <$> encode_link t v else None
        else encode_link t v
      else if nullable t then
        match v with
        | VOpt None => Some (raw [0])
        | VOpt (Some v) => (bits_app (raw [1])) <$> encode fuel ver (non_null t) v
        | _ => None
        end
      else
        match t_kind t, v with
        | kBool, VBool b => Some (raw [if b then 1 else 0])
        | kString, VStr s =>
            if fits (Z.of_nat (length s)) then Some (raw (le_bytes 4 (Z.of_nat (length s)) ++ s)) else None
        | kEnumRef, VWord 4 x => if in_word 4 x && enum_check ver t x then Some (raw (le_bytes 4 x)) else None
        | kArray, VArr el l =>
            if match element t with Some el' => type_eqb el' el | None => false end then
              if fixed_array_size t =? 0 then
                if fits (Z.of_nat (length l))
                then (bits_app (raw (le_bytes 4 (Z.of_nat (length l))))) <$> concat_bits (encode fuel ver el) l
                else None
              else if fixed_array_size t =? Z.of_nat (length l) then concat_bits (encode fuel ver el) l else None
            else None
        | kMap, VMap l =>
            match key t, element t with
            | Some k, Some el =>
                if fits (Z.of_nat (length l)) && keys_check [] l
                then (bits_app (raw (le_bytes 4 (Z.of_nat (length l))))) <$>
                     concat_bits (λ pr, match pr with
                                        | VPair x y => match encode fuel ver k x, encode fuel ver el y with
                                                       | Some o1, Some o2 => Some (o1 +++ o2)
                                                       | _, _ => None
                                                       end
                                        | _ => None
                                        end) l
                else None
            | _, _ => None
            end
        | kStructRef, VObj fs =>
            match find_struct (p_module p) t with
            | Some s =>
                if bool_decide (owner_namespace t = []) && bool_decide (map fst fs = map f_name (s_fields s)) &&
                   in_word 4 (s_version s)
                then
                  o ← concat_bits (λ f,
                        if f_min_version f <=? s_version s then
                          match list_find (λ x, x.1 = f_name f) fs with
                          | Some (_, (_, x)) => encode fuel (Some (s_version s)) (f_type f) x
                          | None => None
                          end
                        else None) (wire_fields s);
                  if fits (size_of o []) then Some (sized (size_of o []) (s_version s) o []) else None
                else None
            | None => None
            end
        | kUnionRef, VUnion tag f v =>
            match find_union (p_module p) t with
            | Some u =>
                match List.find (λ g, bool_decide (uf_name g = f) && (uf_tag g =? tag)) (u_fields u) with
                | Some g =>
                    if bool_decide (owner_namespace t = []) then
                      o ← encode fuel None (uf_type g) v;
                      if fits (size_of o []) then Some (sized (size_of o []) (u32 tag) o []) else None
                    else None
                | None => None
                end
            | None => None
            end
        | k, VWord n x =>
            if bool_decide (scalar_size k = Some n) && in_word n x then Some (raw (le_bytes n x)) else None
        | _, _ => None
        end
  end.

Lemma in_word_range n x : in_word n x = true → 0 <= x < 256 ^ Z.of_nat n.
Proof. unfold in_word. lia. Qed.
Lemma in_word_4 x : in_word 4 x = true → 0 <= x < 2 ^ 32.
Proof. intros Hx%in_word_range. exact Hx. Qed.

Lemma encode_link_sound t v o : encode_link t v = Some o → ReprLink t v o.
Proof.
  unfold encode_link. intros He. destruct (t_kind t) eqn:Hk; try done;
    repeat (case_match; try done); simplify_eq;
    rewrite ?andb_true_iff in *; destruct_and?;
    by constructor; rewrite ?Hk; try (by apply in_word_4); set_solver.
Qed.

Lemma link_is_init_sound t v : link_is_init t v = true → v = init t.
Proof.
  destruct t as [k nm el ky nu ns c sz]. unfold link_is_init. cbn [t_kind].
  destruct k; try done; repeat (case_match; try done); rewrite ?andb_true_iff, ?Z.eqb_eq; intros; destruct_and?;
    by subst.
Qed.

Lemma keys_check_sound before l :
  keys_check before l = true → ∀ a k v b, l = a ++ VPair k v :: b → has_key k (before ++ a) = inr false ∧ spent k = k.
Proof.
  revert before. induction l as [|x l IH]; intros before Hc a k v b; [by destruct a|].
  cbn in Hc. destruct x as [| | | | | | |k' v'| | | | |]; try done.
  apply andb_prop in Hc as [Hk Hc]. destruct (has_key k' before) as [|[]] eqn:Hh; try done.
  destruct a as [|y a]; intros [= E1 E2]; subst.
  - rewrite app_nil_r. split; [done|]. by destruct k.
  - destruct (IH _ Hc a k v b eq_refl) as [H1 H2]. by rewrite <- app_assoc in H1.
Qed.

Lemma find_in {A} (f : A → bool) l x : List.find f l = Some x → x ∈ l ∧ f x = true.
Proof. intros [H1 H2]%List.find_some. split; [by apply list_elem_of_In|done]. Qed.

Lemma concat_list ver el f l o :
  (∀ x o, f x = Some o → Repr p ext true ver el x o) → concat_bits f l = Some o → ReprList p ext true ver el l o.
Proof.
  intros Hf. revert o. induction l as [|x l IH]; intros o Ho; cbn in Ho; [injection Ho as <-; constructor|].
  destruct (f x) as [o1|] eqn:E1; [|done]. destruct (concat_bits f l) as [o2|]; [|done]. injection Ho as <-.
  constructor; auto.
Qed.

Lemma concat_fields v fs f l o :
  (∀ g o, f g = Some o → f_min_version g <= v ∧ ∃ x, (f_name g, x) ∈ fs ∧ Repr p ext true (Some v) (f_type g) x o) →
  concat_bits f l = Some o → ReprFields p ext true v l fs o.
Proof.
  intros Hf. revert o. induction l as [|g l IH]; intros o Ho; cbn in Ho; [injection Ho as <-; constructor|].
  destruct (f g) as [o1|] eqn:E1; [|done]. destruct (concat_bits f l) as [o2|]; [|done]. injection Ho as <-.
  destruct (Hf _ _ E1) as (Hv & x & Hx & Hr). by apply RF_present with x; auto.
Qed.

Lemma concat_pairs ver k el f l o :
  (∀ pr o, pr ∈ l → f pr = Some o → ∃ x y o1 o2, pr = VPair x y ∧ o = o1 +++ o2 ∧ Repr p ext true ver k x o1 ∧
     spent x = x ∧ Repr p ext true ver el y o2) →
  concat_bits f l = Some o → ReprPairs p ext true ver k el l o.
Proof.
  revert o. induction l as [|pr l IH]; intros o Hf Ho; cbn in Ho; [injection Ho as <-; constructor|].
  destruct (f pr) as [o1|] eqn:E1; [|done]. destruct (concat_bits f l) as [o2|]; [|done]. injection Ho as <-.
  destruct (Hf pr o1 ltac:(left) E1) as (x & y & o3 & o4 & -> & -> & H1 & H2 & H3).
  constructor; [done..|]. apply IH; [|done]. intros pr' o' Hin. apply Hf. by right.
Qed.

Lemma enum_check_sound ver t x : enum_check ver t x = true → enum_accepts p ext ver t x.
Proof.
  unfold enum_check, enum_accepts. rewrite orb_true_iff, andb_true_iff, bool_decide_eq_true.
  intros [?|[Hns Hc]]; [by left|]. right. split; [done|]. destruct (find_enum p _) as [io|]; [|done]. by exists io.
Qed.
(** The reference encoder gives the wire format. *)
Lemma encode_sound fuel ver t v o : encode fuel ver t v = Some o → Repr p ext true ver t v o.
Proof.
  revert ver t v o. induction fuel as [|fuel IH]; intros ver t v o; [done|]. cbn [encode].
  destruct (IsHandleBearing (t_kind t)) eqn:Hh.
  { destruct (nullable t) eqn:Hn.
    - destruct (link_is_init t v) eqn:Hi.
      + intros [= <-]. rewrite (link_is_init_sound _ _ Hi). by constructor.
      + destruct (link_valid _) eqn:Hv; [|done]. intros (o' & Ho & ->)%fmap_Some.
        constructor; [done|by apply encode_link_sound|done].
    - intros Ho. by constructor; [|apply encode_link_sound]. }
  destruct (nullable t) eqn:Hn.
  { destruct v as [| | | |[v|]| | | | | | | |]; try done; [|intros [= <-]; by constructor].
    intros (o' & Ho & ->)%fmap_Some. constructor; [done|done|by apply IH]. }
  intros Ho. destruct (t_kind t) eqn:Hk; try done; destruct v; try done;
    try (destruct (bool_decide _) eqn:Hs in Ho; [|done]; apply bool_decide_eq_true in Hs;
         destruct (in_word _ _) eqn:Hw in Ho; [|done]; injection Ho as <-; apply in_word_range in Hw;
         apply R_word; [by rewrite Hk|done|done]).
  - injection Ho as <-. by constructor.
  - destruct (fits _) eqn:Hs in Ho; [|done]. injection Ho as <-. apply R_string; [done|done|]. unfold fits in Hs. lia.
  - do 4 (destruct n as [|n]; [done|]). destruct n; [|done].
    destruct (in_word _ _) eqn:Hw in Ho; [|done]. destruct (enum_check _ _ _) eqn:Hc in Ho; [|done]. injection Ho as <-.
    apply R_enum; [done|done|by apply in_word_4|by apply enum_check_sound].
  - destruct (find_struct _ t) as [s|] eqn:Hs; [|done].
    destruct (bool_decide _ && bool_decide _ && in_word _ _) eqn:Hc in Ho; [|done].
    rewrite !andb_true_iff, !bool_decide_eq_true in Hc. destruct Hc as [[Hns Hfs] Hv%in_word_4].
    destruct (concat_bits _ _) as [o'|] eqn:Hcc; [|done]. cbn [mbind option_bind] in Ho.
    destruct (fits _) eqn:Hsz in Ho; [|done]. injection Ho as <-. unfold fits in Hsz.
    apply (R_struct p ext true ver t s (s_version s) (wire_fields s) fs o' []); try done; [apply wire_fields_order| |lia].
    eapply concat_fields; [|exact Hcc]. intros g o1 Hg. cbn beta in Hg.
    destruct (f_min_version g <=? s_version s) eqn:Hle; [|done]. split; [lia|].
    destruct (list_find _ fs) as [[i [n x]]|] eqn:Hf; [|done]. apply list_find_Some in Hf as (Hi & Hn' & _).
    cbn in Hn'. subst n. exists x. split; [by eapply list_elem_of_lookup_2|by apply IH].
  - destruct (find_union _ t) as [u|] eqn:Hu; [|done].
    destruct (List.find _ _) as [g|] eqn:Hg; [|done]. apply find_in in Hg as [Hin Hg].
    apply andb_prop in Hg as [<-%bool_decide_eq_true <-%Z.eqb_eq].
    case_bool_decide; [|done]. destruct (encode fuel None (uf_type g) v) as [o'|] eqn:He; [|done].
    cbn [mbind option_bind] in Ho. destruct (fits _) eqn:Hsz in Ho; [|done]. injection Ho as <-. unfold fits in Hsz.
    apply (R_union p ext true ver t u g v o' []); try done; [by apply IH|lia].
  - destruct (element t) as [el'|] eqn:He; [|done]. destruct (type_eqb el' el) eqn:Ht; [|done].
    apply type_eqb_eq in Ht as ->. destruct (fixed_array_size t =? 0) eqn:Hz.
    + destruct (fits _) eqn:Hs in Ho; [|done]. apply fmap_Some in Ho as (o' & Ho & ->). unfold fits in Hs.
      apply R_array; try done; [lia|lia|]. eapply concat_list; [|exact Ho]. intros x o1. apply IH.
    + destruct (fixed_array_size t =? _) eqn:Hl in Ho; [|done].
      apply (R_fixed p ext true ver t el); try done; [lia|by intros ->; cbn in Hl; lia|].
      eapply concat_list; [|exact Ho]. intros x o1. apply IH.
  - destruct (key t) as [k|] eqn:Hky; [|done]. destruct (element t) as [el|] eqn:He; [|done].
    destruct (fits _) eqn:Hs in Ho; [|done]. destruct (keys_check [] l) eqn:Hc in Ho; [|done].
    apply fmap_Some in Ho as (o' & Ho & ->). unfold fits in Hs. pose proof (keys_check_sound _ _ Hc) as Hks.
    apply (R_map p ext true ver t k el); try done; [lia|intros a x y b ->; by apply (Hks a x y b)|].
    eapply concat_pairs; [|exact Ho]. intros pr o1 Hin Hpr. destruct pr as [| | | | | | |x y| | | | |]; try done.
    destruct (encode fuel ver k x) as [o2|] eqn:E1; [|done]. destruct (encode fuel ver el y) as [o3|] eqn:E2; [|done].
    injection Hpr as <-. exists x, y, o2, o3. split_and!; [done|done|by apply IH| |by apply IH].
    apply list_elem_of_split in Hin as (a & b & ->). by apply (Hks a x y b).
Qed.
End encode.

(** The types whose members can have an initialiser ([ParseDefaultValue]). *)
Definition plain_kind (k : TypeKind) : bool :=
  match k with
  | kBool | kString | kEnumRef => true
  | k => bool_decide (is_Some (scalar_size k))
  end.

(** What the theorems ask of a program: that it holds the functions of every class of
    its module, and that the C++ compiler accepts the classes: no two members of a
    struct have the same name, and no two fields of a union the same tag.  Only
    members of the plain types have initialisers. *)
Record program_ok (p : Program) (ext : gmap (list Z) bool) (ctx : gset (list Z)) : Prop := {
  pk_struct t s : find_struct (p_module p) t = Some s →
    ∃ io opt ns, find_class p (CppEmbedName_type t) = Some io ∧
      LookupTypemap opt (s_name s) (s_owner_container s) ns = None ∧
      EmitStructIO s ext ctx opt ns = inr io;
  pk_union t u : find_union (p_module p) t = Some u →
    ∃ io, find_class p (CppEmbedName_type t) = Some io ∧ EmitUnionIO u ext ctx = inr io;
  pk_fields t s : find_struct (p_module p) t = Some s → NoDup (map f_name (s_fields s));
  pk_versions t s : find_struct (p_module p) t = Some s →
    Forall (λ f, 0 <= f_min_version f <= s_version s) (s_fields s) ∧ 0 <= s_version s < 2 ^ 32;
  pk_defaults t s : find_struct (p_module p) t = Some s →
    Forall (λ f, has_value (f_default_value f) = true → plain_kind (t_kind (f_type f)) = true) (s_fields s);
  pk_tags t u : find_union (p_module p) t = Some u → NoDup (map (λ f, u32 (uf_tag f)) (u_fields u))
}.

(** ** The functions that a header holds *)

(** ** The functions of one class *)

Definition struct_writer (w : list Stmt) (version : Z) : list Stmt :=
  [SDecl (text "size_t") V_header_offset RPayloadNumBytes; SWriteStructHeader] ++ w ++
  [SPatchStructHeader version].
Definition struct_reader (needs_ctx : bool) (r : list Stmt) : list Stmt :=
  unused_context needs_ctx ++
  [SDecl (text "uint32_t") V_num_bytes RZero; SDecl (text "uint32_t") V_version RZero;
   SReadStructHeader; SFailIfLess V_num_bytes (text "8u") 8;
   SDecl (text "size_t") V_struct_end RStructEnd; SFailIfPast V_struct_end] ++ r ++
  [SSetOffset V_struct_end].

Lemma EmitStructIO_inv s ext ctx opt ns io :
  LookupTypemap opt (s_name s) (s_owner_container s) ns = None → EmitStructIO s ext ctx opt ns = inr io →
  ∃ w r, write_fields ctx (wire_fields s) 0 = inr w ∧ read_fields ext ctx (wire_fields s) 0 = inr r ∧
    io = mkClassIO (CppEmbedName_struct s) (bool_decide (CppEmbedName_struct s ∈ ctx))
           (Statements (struct_writer w (s_version s)))
           (Statements (struct_reader (bool_decide (CppEmbedName_struct s ∈ ctx)) r)).
Proof.
  unfold EmitStructIO. intros -> H. apply gen_bind_inr in H as (w & Hw & H).
  apply gen_bind_inr in H as (r & Hr & [= <-]). by exists w, r.
Qed.

Definition union_writer (n : list Z) (w : list Case) : list Stmt :=
  [SDecl (text "size_t") V_header_offset RPayloadNumBytes; SWriteUnionHeader; SSwitchWhich n w;
   SDecl (text "uint32_t") V_union_size RUnionSize; SPatchUnionSize].
Definition union_reader (n : list Z) (needs_ctx : bool) (r : list Case) (other : Otherwise) : list Stmt :=
  unused_context needs_ctx ++
  [SDecl (text "uint32_t") V_union_size RZero; SReadUnionSize;
   SFailIfLess V_union_size (text "sizeof(wvc_union_size)") 4;
   SDecl (text "size_t") V_union_end RUnionEnd; SFailIfPast V_union_end;
   SDecl (text "int32_t") V_tag RZero; SReadVar V_tag; SSwitchTag n r other; SSetOffset V_union_end].

Lemma EmitUnionIO_inv u ext ctx io :
  EmitUnionIO u ext ctx = inr io →
  ∃ w r other, write_cases ctx (u_fields u) = inr w ∧ read_cases ext ctx (u_fields u) = inr r ∧
    otherwise_of u = inr other ∧
    io = mkClassIO (CppEmbedName_union u) (bool_decide (CppEmbedName_union u ∈ ctx))
           (Statements (union_writer (CppEmbedName_union u) w))
           (Statements (union_reader (CppEmbedName_union u) (bool_decide (CppEmbedName_union u ∈ ctx)) r other)).
Proof.
  unfold EmitUnionIO. intros H. apply gen_bind_inr in H as (w & Hw & H).
  apply gen_bind_inr in H as (r & Hr & H). apply gen_bind_inr in H as (other & Ho & [= <-]).
  by exists w, r, other.
Qed.

Lemma find_struct_name m t s : find_struct m t = Some s → CppEmbedName_struct s = CppEmbedName_type t.
Proof.
  unfold find_struct. destruct (list_find _ _) as [[i s']|] eqn:E; cbn; [|done]. intros [= ->].
  by apply list_find_Some in E as (_ & ? & _).
Qed.
Lemma find_union_name m t u : find_union m t = Some u → CppEmbedName_union u = CppEmbedName_type t.
Proof.
  unfold find_union. destruct (list_find _ _) as [[i s']|] eqn:E; cbn; [|done]. intros [= ->].
  by apply list_find_Some in E as (_ & ? & _).
Qed.

(** ** From a module to its functions *)

(** What the C++ compiler asks of the names in a module: no two classes, no two members
    of a struct and no two fields' tags of a union are the same.  Versions are
    literals of 32 bits.  Initialisers are of plain types. *)
Definition class_names (m : Module_) : list (list Z) :=
  map CppEmbedName_struct (AllStructs m) ++ map CppEmbedName_union (AllUnions m).
Definition cpp_accepts (m : Module_) : bool :=
  bool_decide (NoDup (class_names m)) &&
  forallb (λ s, bool_decide (NoDup (map f_name (s_fields s))) &&
    forallb (λ f, (0 <=? f_min_version f) && (f_min_version f <=? s_version s)) (s_fields s) &&
    forallb (λ f, negb (has_value (f_default_value f)) || plain_kind (t_kind (f_type f))) (s_fields s) &&
    (0 <=? s_version s) && (s_version s <? 2 ^ 32)) (AllStructs m) &&
  forallb (λ u, bool_decide (NoDup (map (λ f, u32 (uf_tag f)) (u_fields u)))) (AllUnions m).

Definition embed_cpp_name (e : Embed) : list Z :=
  match decl e with inl s => CppEmbedName_struct s | inr u => CppEmbedName_union u end.

Lemma embed_cpp_names m : map embed_cpp_name (module_embeds m) = class_names m.
Proof. unfold module_embeds, class_names. rewrite map_app, !map_map. done. Qed.

Definition no_typemaps (opt : GeneratorOptions) : Prop := typemaps opt = ∅.
Lemma no_typemap opt n c ns : no_typemaps opt → LookupTypemap opt n c ns = None.
Proof.
  intros Ho. unfold LookupTypemap. rewrite Ho. cbv zeta beta. rewrite !lookup_empty.
  repeat case_bool_decide; done.
Qed.

Lemma emit_classes_spec opt ext ctx ns es ios :
  no_typemaps opt → emit_classes es ext ctx opt ns = inr ios →
  map io_name ios = map embed_cpp_name es ∧
  ∀ i e, es !! i = Some e → ∃ io, ios !! i = Some io ∧
    match decl e with inl s => EmitStructIO s ext ctx opt ns = inr io | inr u => EmitUnionIO u ext ctx = inr io end.
Proof.
  intros Ho. revert ios. induction es as [|e es IH]; intros ios Hi; cbn in Hi; gen_inv; [done|].
  destruct (IH _ Ea0) as [Hn Hes]. split.
  - cbn. rewrite Hn. f_equal. unfold embed_cpp_name. destruct (decl e) as [s|u].
    + by destruct (EmitStructIO_inv _ _ _ _ _ _ (no_typemap opt _ _ ns Ho) Ea) as (? & ? & _ & _ & ->).
    + by destruct (EmitUnionIO_inv _ _ _ _ Ea) as (? & ? & ? & _ & _ & _ & ->).
  - intros [|i] e' He; [|by apply Hes]. injection He as <-. eexists. split; [reflexivity|by destruct (decl e)].
Qed.

Lemma list_find_unique {A} (f : A → list Z) l i x :
  NoDup (map f l) → l !! i = Some x → list_find (λ y, f y = f x) l = Some (i, x).
Proof.
  intros Hnd Hi. apply list_find_Some. split_and!; [done|done|]. intros j y Hj Hlt Heq.
  assert (j = i); [|lia]. apply (NoDup_lookup (map f l) _ _ (f x)); [done| |];
    rewrite list_lookup_fmap; [by rewrite Hj; cbn; rewrite Heq|by rewrite Hi].
Qed.

Lemma find_struct_in m t s : find_struct m t = Some s → s ∈ AllStructs m.
Proof.
  unfold find_struct. destruct (list_find _ _) as [[i s']|] eqn:E; cbn; [|done]. intros [= ->].
  apply list_find_Some in E as (E & _). by eapply list_elem_of_lookup_2.
Qed.
Lemma find_union_in m t u : find_union m t = Some u → u ∈ AllUnions m.
Proof.
  unfold find_union. destruct (list_find _ _) as [[i s']|] eqn:E; cbn; [|done]. intros [= ->].
  apply list_find_Some in E as (E & _). by eapply list_elem_of_lookup_2.
Qed.

Lemma GenerateProgram_ok m opt p out :
  GenerateProgram m opt = inr p → SortEmbeds (module_embeds m) = inr out → out ≡ₚ module_embeds m →
  no_typemaps opt → cpp_accepts m = true →
  p_module p = m ∧ p_enums p = emit_enums m opt ∧
  ∃ ctx, BuildHandleCtx m = inr ctx ∧ program_ok p (module_extensible m) ctx.
Proof.
  intros Hp Hs Hperm Ho Hacc. unfold GenerateProgram, GenerateIO in Hp. gen_inv.
  rewrite Hs in Ea1. injection Ea1 as <-. split; [done|]. split; [done|]. exists a0. split; [done|].
  destruct (emit_classes_spec _ _ _ _ _ _ Ho Ea) as [Hn Hes].
  unfold cpp_accepts in Hacc. rewrite !andb_true_iff, !forallb_forall, bool_decide_eq_true in Hacc.
  destruct Hacc as [[Hnd Hst] Hun].
  assert (NoDup (map io_name a)) as Hnd'.
  { rewrite Hn. rewrite (Permutation_map embed_cpp_name Hperm), embed_cpp_names. done. }
  assert (∀ e, e ∈ module_embeds m → ∃ io, find_class (mkProgram m (emit_enums m opt) a) (embed_cpp_name e) = Some io ∧
    match decl e with inl s => EmitStructIO s (module_extensible m) a0 opt (mod_name m) = inr io
                    | inr u => EmitUnionIO u (module_extensible m) a0 = inr io end) as Hfind.
  { intros e He. rewrite <- Hperm in He. apply list_elem_of_lookup in He as [i Hi].
    destruct (Hes i e Hi) as (io & Hio & Hemit). exists io. split; [|done].
    assert (embed_cpp_name e = io_name io) as ->.
    { assert (map embed_cpp_name out !! i = map io_name a !! i) as Hni by by rewrite Hn.
      rewrite !list_lookup_fmap, Hi, Hio in Hni. by injection Hni. }
    unfold find_class. cbn. by rewrite (list_find_unique io_name a i io). }
  assert (∀ s, s ∈ AllStructs m → mkEmbed (s_decl_index s) (inl s) ∈ module_embeds m) as Hes'.
  { intros s Hin. unfold module_embeds. apply elem_of_app. left.
    by apply (list_elem_of_fmap_2 (λ s, mkEmbed (s_decl_index s) (inl s))). }
  assert (∀ u, u ∈ AllUnions m → mkEmbed (u_decl_index u) (inr u) ∈ module_embeds m) as Heu.
  { intros u Hin. unfold module_embeds. apply elem_of_app. right.
    by apply (list_elem_of_fmap_2 (λ u, mkEmbed (u_decl_index u) (inr u))). }
  split; cbn [p_module].
  - intros t s Hf. destruct (Hfind _ (Hes' s (find_struct_in _ _ _ Hf))) as (io & Hio & Hemit).
    exists io, opt, (mod_name m). cbn in Hio. rewrite (find_struct_name _ _ _ Hf) in Hio.
    split_and!; [done|by apply no_typemap|done].
  - intros t u Hf. destruct (Hfind _ (Heu u (find_union_in _ _ _ Hf))) as (io & Hio & Hemit).
    exists io. cbn in Hio. by rewrite (find_union_name _ _ _ Hf) in Hio.
  - intros t s Hf. specialize (Hst s ltac:(by apply list_elem_of_In, (find_struct_in _ t))).
    rewrite !andb_true_iff, bool_decide_eq_true in Hst. tauto.
  - intros t s Hf. specialize (Hst s ltac:(by apply list_elem_of_In, (find_struct_in _ t))).
    rewrite !andb_true_iff, !forallb_forall in Hst. destruct Hst as [[[[_ Hv] _] H0] H1]. split; [|lia].
    apply Forall_forall. intros f Hin. specialize (Hv f ltac:(by apply list_elem_of_In)). lia.
  - intros t s Hf. specialize (Hst s ltac:(by apply list_elem_of_In, (find_struct_in _ t))).
    rewrite !andb_true_iff, !forallb_forall in Hst. destruct Hst as [[[_ Hd] _] _].
    apply Forall_forall. intros f Hin Hv. specialize (Hd f ltac:(by apply list_elem_of_In)).
    by rewrite Hv in Hd.
  - intros t u Hf. specialize (Hun u ltac:(by apply list_elem_of_In, (find_union_in _ t))).
    by rewrite bool_decide_eq_true in Hun.
Qed.

(** ** What lies ahead in a message *)

Record ahead (o : Bits) (w : Wire) : Prop := {
  ah_data : b_data o `prefix_of` drop (Z.to_nat (offset w)) (data w);
  ah_handles : b_handles o `prefix_of` drop (handle_idx w) (handles w);
  ah_idx : (handle_idx w <= length (handles w))%nat;
  ah_offset : 0 <= offset w <= Z.of_nat (length (data w));
  ah_small : Z.of_nat (length (data w)) < 2 ^ 32
}.

(** [n] handles taken from [i] on. *)
Definition taken (i n : nat) (hs : list Z) : list Z := take i hs ++ replicate n 0 ++ drop (i + n) hs.

Definition got (o : Bits) (w : Wire) : Wire :=
  mkWire (data w) (taken (handle_idx w) (length (b_handles o)) (handles w))
    (handle_idx w + length (b_handles o)) (offset w + Z.of_nat (length (b_data o)))
    (endpoints w ++ b_endpoints o).

Lemma ahead_length o w : ahead o w → offset w + Z.of_nat (length (b_data o)) <= Z.of_nat (length (data w)).
Proof. intros [Hd _ _ Ho _]. apply prefix_length in Hd. rewrite length_drop in Hd. lia. Qed.

Lemma length_taken i n hs : (i + n <= length hs)%nat → length (taken i n hs) = length hs.
Proof. intros Hl. unfold taken. rewrite !length_app, length_take, length_replicate, length_drop. lia. Qed.

Lemma drop_taken i n hs : (i + n <= length hs)%nat → drop (i + n) (taken i n hs) = drop (i + n) hs.
Proof.
  intros Hl. unfold taken. rewrite app_assoc. rewrite drop_app_ge by (rewrite length_app, length_take, length_replicate; lia).
  rewrite length_app, length_take, length_replicate. replace (i + n - (i `min` length hs + n))%nat with 0%nat by lia. done.
Qed.

Lemma taken_taken i n m hs :
  (i + n + m <= length hs)%nat → taken (i + n) m (taken i n hs) = taken i (n + m) hs.
Proof.
  intros Hl. assert (length (take i hs ++ replicate n 0) = (i + n)%nat) as Hp.
  { rewrite length_app, length_take, length_replicate. lia. }
  assert (taken i n hs = (take i hs ++ replicate n 0) ++ drop (i + n) hs) as -> by apply app_assoc.
  unfold taken. rewrite (take_app_length' _ _ (i + n)) by done.
  rewrite drop_app_ge, Hp by lia. rewrite drop_drop, replicate_add, <- !app_assoc.
  by replace (i + n + (i + n + m - (i + n)))%nat with (i + (n + m))%nat by lia.
Qed.

Lemma taken_one i hs h : hs !! i = Some h → <[i := 0]> hs = taken i 1 hs.
Proof.
  intros Hi. unfold taken. rewrite (insert_take_drop hs i 0) by by eapply lookup_lt_Some.
  by rewrite Nat.add_1_r.
Qed.

Lemma got_none w : ahead no_bits w → got no_bits w = w.
Proof.
  destruct w. intros _. unfold got, taken. cbn. rewrite !Nat.add_0_r, Z.add_0_r, app_nil_r. by rewrite take_drop.
Qed.

Lemma ahead_handles o w : ahead o w → (handle_idx w + length (b_handles o) <= length (handles w))%nat.
Proof. intros [_ Hh Hi _ _]. apply prefix_length in Hh. rewrite length_drop in Hh. lia. Qed.

Lemma ahead_app a b w : ahead (a +++ b) w → ahead a w ∧ ahead b (got a w) ∧ got (a +++ b) w = got b (got a w).
Proof.
  intros Hab. pose proof (ahead_length _ _ Hab) as Hl. pose proof (ahead_handles _ _ Hab) as Hlh.
  destruct Hab as [[d Hd] [h Hh] Hi Ho Hs]. cbn in Hl, Hlh, Hd, Hh. rewrite length_app in Hl, Hlh.
  rewrite <- app_assoc in Hd, Hh. split_and!.
  - split; [by eexists|by eexists|done..].
  - split; cbn.
    + exists d. replace (Z.to_nat (offset w + Z.of_nat (length (b_data a))))
        with (Z.to_nat (offset w) + length (b_data a))%nat by lia.
      by rewrite <- drop_drop, Hd, drop_app_length.
    + exists h. rewrite drop_taken by lia. by rewrite <- drop_drop, Hh, drop_app_length.
    + rewrite length_taken by lia. lia.
    + lia.
    + done.
  - unfold got. cbn [data handles handle_idx offset endpoints b_data b_handles b_endpoints bits_app].
    rewrite !length_app, taken_taken, Nat.add_assoc, app_assoc by lia. f_equal. lia.
Qed.

(** Bytes to be read are at the offset. *)
Lemma ahead_take l w : ahead (raw l) w → take (length l) (drop (Z.to_nat (offset w)) (data w)) = l.
Proof. intros [[d Hd] _ _ _ _]. cbn in Hd. by rewrite Hd, take_app_length. Qed.

Lemma got_raw l w : ahead (raw l) w → got (raw l) w = with_offset (offset w + Z.of_nat (length l)) w.
Proof.
  intros _. unfold got, taken, with_offset. cbn. by rewrite !Nat.add_0_r, app_nil_r, take_drop.
Qed.

Section reads.
Context `{Platform} {PF : PlatformOk}.
Variable p : Program.

Lemma read_bytes_ahead l n w :
  ahead (raw l) w → n = Z.of_nat (length l) → read_bytes n w = inr (l, got (raw l) w).
Proof using PF.
  intros Ha ->. pose proof (ahead_length _ _ Ha) as Hl. pose proof (ahead_take _ _ Ha) as Ht.
  rewrite got_raw by done. destruct Ha as [_ _ _ Ho Hs]. cbn in Hl. pose proof word_pow.
  unfold read_bytes, num_bytes. rewrite u32_small by lia.
  rewrite uw_small by lia. rewrite (proj2 (Z.ltb_ge _ _)), (proj2 (Z.leb_le _ _)) by lia.
  by rewrite Nat2Z.id, Ht.
Qed.

Lemma ReadScalar_ahead n x w :
  ahead (raw (le_bytes n x)) w → 0 <= x < 256 ^ Z.of_nat n →
  ReadScalar n w = inr (x, got (raw (le_bytes n x)) w).
Proof using PF.
  intros Ha Hx. unfold ReadScalar. rewrite (read_bytes_ahead (le_bytes n x)) by (by rewrite ?length_le_bytes).
  cbn [res_bind fst snd]. by rewrite le_value_bytes.
Qed.

Lemma ReadBool_ahead (b : bool) w : ahead (raw [if b then 1 else 0]) w → ReadBool w = inr (b, got (raw [if b then 1 else 0]) w).
Proof using PF.
  intros Ha. unfold ReadBool. replace [if b then 1 else 0] with (le_bytes 1 (if b then 1 else 0)) in * by by destruct b.
  rewrite (ReadScalar_ahead 1 (if b then 1 else 0)) by (done || by destruct b). by destruct b.
Qed.

Lemma ReadString_ahead s w :
  ahead (raw (le_bytes 4 (Z.of_nat (length s)) ++ s)) w → Z.of_nat (length s) < 2 ^ 32 →
  ReadString w = inr (s, got (raw (le_bytes 4 (Z.of_nat (length s)) ++ s)) w).
Proof using PF.
  intros Ha Hs. change (raw (_ ++ s)) with (raw (le_bytes 4 (Z.of_nat (length s))) +++ raw s) in *.
  destruct (ahead_app _ _ _ Ha) as (H1 & H2 & ->). unfold ReadString.
  rewrite (ReadScalar_ahead 4 (Z.of_nat (length s))) by (done || cbn; lia). cbn [res_bind fst snd].
  by rewrite (read_bytes_ahead s) by done.
Qed.

Lemma read_scalar_ahead v0 n x w :
  scalar_shape (p_module p) v0 = inr (Some n) → ahead (raw (le_bytes n x)) w → 0 <= x < 256 ^ Z.of_nat n →
  read_scalar p v0 w = inr (VWord n x, got (raw (le_bytes n x)) w).
Proof using PF.
  intros Hv Ha Hx. unfold read_scalar. rewrite Hv. cbn [res_bind]. by rewrite (ReadScalar_ahead n x).
Qed.
End reads.
