(* ===== verification/GenTotal.v ===== *)
(** * Generation never fails

    Every module that the parser accepts, whatever flags leave of it, has its functions
    generated, and the generated header holds those of all its classes.  The classes that
    are given handles are those that can carry any. *)
From Stdlib Require Import ZArith Lia.
From stdpp Require Import base list gmap.
From S2P Require Import Prelude Lexer Ast Scan Embed EmbedProps Parser ParseDecl ParseSafe ParseTotal EnableIf GenNames GenCode GenOrderProps GenIO GenSem GenWire.

(** ** Handles *)

Section carries.
Context (decls : list (list Z * list TypeSpec)).

(** A value of the type may hold a handle or an interface. *)
Inductive bears : TypeSpec → Prop :=
  | bears_handle t : IsHandleBearing (t_kind t) = true → bears t
  | bears_ref t ts t' : t_kind t = kStructRef ∨ t_kind t = kUnionRef →
      (CppEmbedName_type t, ts) ∈ decls → t' ∈ ts → bears t' → bears t
  | bears_element t e : t_kind t = kArray ∨ t_kind t = kMap → element t = Some e → bears e → bears t.

Definition carries (name : list Z) : Prop := ∃ ts t, (name, ts) ∈ decls ∧ t ∈ ts ∧ bears t.

(** Arrays and maps have their elements. *)
Fixpoint has_elements (t : TypeSpec) : Prop :=
  match t_kind t with
  | kArray | kMap => match element t with Some e => has_elements e | None => False end
  | _ => True
  end.

Lemma wf_has_elements : ∀ t, type_wf t = true → has_elements t.
Proof.
  fix IH 1. intros [k n e ky nu ns c sz]. cbn.
  destruct k; try done; destruct e as [e|]; try done; [|intros [? _]%andb_prop]; by apply IH.
Qed.

Lemma TypeNeedsHandleCtx_total : ∀ t ctx, has_elements t → ∃ b, TypeNeedsHandleCtx t ctx = inr b.
Proof.
  fix IH 1. intros [k n e ky nu ns c sz] ctx. cbn.
  destruct k; cbn; try (by eexists); destruct e as [e|]; try done; apply IH.
Qed.

Lemma TypeNeedsHandleCtx_sound ctx : (∀ k, k ∈ ctx → carries k) →
  ∀ t, TypeNeedsHandleCtx t ctx = inr true → bears t.
Proof.
  intros Hc. fix IH 1. intros [k n e ky nu ns c sz]. cbn.
  destruct k; cbn; intros E; try (by apply bears_handle); try done.
  1,2: injection E as Hin%bool_decide_eq_true; destruct (Hc _ Hin) as (ts & t' & H1 & H2 & H3);
    eapply bears_ref; [by (left + right)|exact H1|exact H2|exact H3].
  all: destruct e as [e|]; [|done]; eapply bears_element; [by (left + right)|done|by apply IH].
Qed.

(** No other name of [rest] has a field that needs the context. *)
Definition settled (rest : list (list Z * list TypeSpec)) (ctx : gset (list Z)) : Prop :=
  ∀ name ts t, (name, ts) ∈ rest → t ∈ ts → TypeNeedsHandleCtx t ctx = inr true → name ∈ ctx.

Lemma TypeNeedsHandleCtx_complete ctx t : settled decls ctx → bears t → TypeNeedsHandleCtx t ctx = inr true.
Proof.
  intros Hc. induction 1 as [t H|t ts t' Hk Hd Ht _ IH|t e Hk He _ IH]; destruct t as [k n el ky nu ns c sz]; cbn in *.
  - by rewrite H.
  - assert (bool_decide (CppEmbedName_type (mkTypeSpec k n el ky nu ns c sz) ∈ ctx) = true) as Hin
      by (apply bool_decide_eq_true; by eapply Hc).
    destruct Hk as [-> | ->]; cbn; by rewrite Hin.
  - destruct Hk as [-> | ->]; cbn; by subst.
Qed.

Lemma any_needs_spec ts ctx :
  Forall has_elements ts →
  ∃ b, any_needs ts ctx = inr b ∧
    if b then ∃ t, t ∈ ts ∧ TypeNeedsHandleCtx t ctx = inr true
    else ∀ t, t ∈ ts → TypeNeedsHandleCtx t ctx = inr false.
Proof.
  induction 1 as [|t ts Ht _ (b & E & IH)]; cbn [any_needs].
  { exists false. split; [done|]. by intros t []%not_elem_of_nil. }
  destruct (TypeNeedsHandleCtx_total t ctx Ht) as [[] Eb]; rewrite Eb; cbn [gen_bind].
  - exists true. split; [done|]. exists t. split; [by left|done].
  - exists b. split; [done|]. destruct b.
    + destruct IH as (t' & H1 & H2). exists t'. split; [by right|done].
    + intros t' [->|H]%elem_of_cons; auto.
Qed.

Lemma ctx_pass_spec rest ctx changed :
  rest ⊆ decls → Forall (λ d, Forall has_elements d.2) rest → (∀ k, k ∈ ctx → carries k) →
  ∃ ctx' changed', ctx_pass rest ctx changed = inr (ctx', changed') ∧ (∀ k, k ∈ ctx' → carries k) ∧
    ((ctx' = ctx ∧ changed' = changed ∧ settled rest ctx) ∨ (ctx ⊂ ctx' ∧ changed' = true)).
Proof.
  intros Hsub Hel. revert ctx changed Hsub.
  induction Hel as [|[name ts] rest Ht _ IH]; intros ctx changed Hsub Hc; cbn [ctx_pass].
  { exists ctx, changed. split; [done|]. split; [done|]. left. split_and!; [done..|]. by intros name ts t []%not_elem_of_nil. }
  assert (rest ⊆ decls) as Hsub' by (intros x Hx; apply Hsub; by right).
  destruct (bool_decide_reflect (name ∈ ctx)) as [Hn|Hn].
  - destruct (IH ctx changed Hsub' Hc) as (ctx' & ch & E & H1 & [(-> & -> & H2)|H2]);
      eexists _, _; (split; [exact E|]; split; [exact H1|]); [left|by right].
    split_and!; [done..|]. intros name' ts' t [[= -> ->]|Hin]%elem_of_cons; [done|by apply H2].
  - destruct (any_needs_spec ts ctx Ht) as ([] & -> & Hb); cbn [gen_bind].
    + destruct Hb as (t & Hts & Hneed).
      destruct (IH ({[name]} ∪ ctx) true Hsub') as (ctx' & ch & E & H1 & H2).
      { intros k [->%elem_of_singleton|Hk]%elem_of_union; [|by apply Hc].
        exists ts, t. split; [apply Hsub; by left|]. split; [done|]. by apply (TypeNeedsHandleCtx_sound ctx Hc). }
      exists ctx', ch. split; [done|]. split; [done|]. right.
      destruct H2 as [(-> & -> & _)|[H2 ->]]; (split; [|done]); set_solver.
    + destruct (IH ctx changed Hsub' Hc) as (ctx' & ch & E & H1 & [(-> & -> & H2)|H2]);
        eexists _, _; (split; [exact E|]; split; [exact H1|]); [left|by right].
      split_and!; [done..|]. intros name' ts' t [[= -> ->]|Hin]%elem_of_cons Ht' Hneed; [|by eapply H2].
      by rewrite (Hb t Ht') in Hneed.
Qed.

Definition names : gset (list Z) := list_to_set (map fst decls).

Lemma carries_name k : carries k → k ∈ names.
Proof.
  intros (ts & t & H & _). unfold names. apply elem_of_list_to_set, list_elem_of_In.
  change k with (fst (k, ts)). by apply in_map, list_elem_of_In.
Qed.

Lemma ctx_loop_spec fuel ctx :
  Forall (λ d, Forall has_elements d.2) decls → (∀ k, k ∈ ctx → carries k) →
  (size names < fuel + size ctx)%nat →
  ∃ ctx', ctx_loop fuel decls ctx = inr ctx' ∧ (∀ k, k ∈ ctx' ↔ carries k) ∧ settled decls ctx'.
Proof.
  intros Hel. revert ctx. induction fuel as [|fuel IH]; intros ctx Hc Hf.
  { assert (size ctx <= size names)%nat; [|lia]. apply subseteq_size. intros k Hk. by apply carries_name, Hc. }
  cbn [ctx_loop]. destruct (ctx_pass_spec decls ctx false (λ x H, H) Hel Hc) as (ctx' & ch & -> & H1 & H2).
  cbn [gen_bind fst snd]. destruct H2 as [(-> & -> & Hset)|[Hss ->]].
  - exists ctx. split; [done|]. split; [|done]. intros k. split; [apply H1|]. intros (ts & t & H2 & H3 & H4).
    apply (Hset k ts t H2 H3). by apply TypeNeedsHandleCtx_complete.
  - apply IH; [done|]. pose proof (subset_size _ _ Hss). lia.
Qed.
End carries.

Lemma size_list_le (l : list (list Z)) : (size (list_to_set l : gset (list Z)) <= length l)%nat.
Proof.
  induction l as [|x l IH]; cbn; [by rewrite size_empty|].
  rewrite size_union_alt, size_singleton.
  assert (size (list_to_set l ∖ {[x]} : gset (list Z)) <= size (list_to_set l : gset (list Z)))%nat; [|lia].
  apply subseteq_size. set_solver.
Qed.

Lemma module_has_elements m : module_ok m → Forall (λ d, Forall has_elements d.2) (ctx_decls m).
Proof.
  intros [_ Hs Hu Hi _ _]. unfold ctx_decls.
  assert (∀ {A} (f : A → TypeSpec) l, Forall (λ x, wf_type (f x)) l → Forall has_elements (map f l)) as Hwf.
  { intros A f l H. apply Forall_map. eapply Forall_impl; [exact H|]. intros x. apply wf_has_elements. }
  apply Forall_app. split; apply Forall_map; unfold AllStructs, AllUnions; apply Forall_app; split.
  - eapply Forall_impl; [exact Hs|]. intros s []. by apply Hwf.
  - apply Forall_flat_map. eapply Forall_impl; [exact Hi|]. intros i []. eapply Forall_impl; [eassumption|].
    intros s []. by apply Hwf.
  - eapply Forall_impl; [exact Hu|]. intros u []. by apply Hwf.
  - apply Forall_flat_map. eapply Forall_impl; [exact Hi|]. intros i []. eapply Forall_impl; [eassumption|].
    intros u []. by apply Hwf.
Qed.

Lemma BuildHandleCtx_spec m : module_ok m →
  ∃ ctx, BuildHandleCtx m = inr ctx ∧ (∀ name, name ∈ ctx ↔ carries (ctx_decls m) name) ∧
    settled (ctx_decls m) ctx.
Proof.
  intros Hok. apply (ctx_loop_spec (ctx_decls m) (S (length (ctx_decls m))) ∅ (module_has_elements m Hok)); [set_solver|].
  pose proof (size_list_le (map fst (ctx_decls m))) as H. rewrite length_map in H.
  rewrite size_empty. unfold names. lia.
Qed.

(** The kinds of which a value is a handle or one end of an interface. *)
Definition handle_kinds : list TypeKind :=
  [kHandle; kHandleMessagePipe; kHandleDataPipeConsumer; kHandleDataPipeProducer; kHandleSharedBuffer;
   kHandlePlatform; kPendingRemote; kPendingReceiver; kPendingAssociatedRemote; kPendingAssociatedReceiver].

(** A value of the type can hold one: it is one, it is of a class of the module with a member
    that can, or an array or map with elements that can.  (References are resolved by container
    and name, as the generator does it: a class of an imported module is taken for the module's
    own of that name, and holds nothing if there is none.) *)
Inductive can_hold (m : Module_) : TypeSpec → Prop :=
  | can_hold_handle t : t_kind t ∈ handle_kinds → can_hold m t
  | can_hold_class t members t' : t_kind t = kStructRef ∨ t_kind t = kUnionRef →
      is_class m (class_name (owner_container t) (t_name t)) members →
      t' ∈ members → can_hold m t' → can_hold m t
  | can_hold_elements t e : t_kind t = kArray ∨ t_kind t = kMap → element t = Some e →
      can_hold m e → can_hold m t.

Lemma handle_kinds_all k : IsHandleBearing k = true ↔ k ∈ handle_kinds.
Proof. unfold handle_kinds. destruct k; cbn; split; intros H; try done; set_solver. Qed.

Lemma CppEmbedName_class container name : CppEmbedName container name = class_name container name.
Proof. unfold CppEmbedName, class_name, MangledNestedName. by case_bool_decide; case_decide. Qed.

Lemma AllStructs_of m s : s ∈ AllStructs m ↔ struct_of m s.
Proof. exact (elem_of_parts _ _ _ _). Qed.
Lemma AllUnions_of m u : u ∈ AllUnions m ↔ union_of m u.
Proof. exact (elem_of_parts _ _ _ _). Qed.

Lemma is_class_decls m k members : is_class m k members ↔ (k, members) ∈ ctx_decls m.
Proof.
  unfold is_class, ctx_decls. rewrite elem_of_app, !list_elem_of_fmap.
  setoid_rewrite AllStructs_of. setoid_rewrite AllUnions_of. split.
  - intros [(s & Hs & -> & ->)|(u & Hu & -> & ->)]; [left; exists s|right; exists u];
      (split; [|done]); by rewrite <- CppEmbedName_class.
  - intros [(s & [= -> ->] & Hs)|(u & [= -> ->] & Hu)]; [left; exists s|right; exists u];
      split_and!; try done; apply CppEmbedName_class.
Qed.

Lemma bears_can_hold m t : bears (ctx_decls m) t ↔ can_hold m t.
Proof.
  split.
  - induction 1 as [t H|t ts t' Hk Hd Ht _ IH|t e Hk He _ IH].
    + by apply can_hold_handle, handle_kinds_all.
    + apply (can_hold_class m t ts t'); [done| |done..]. rewrite <- CppEmbedName_class. by apply is_class_decls.
    + by apply (can_hold_elements m t e).
  - induction 1 as [t H|t ts t' Hk Hd Ht _ IH|t e Hk He _ IH].
    + by apply bears_handle, handle_kinds_all.
    + apply (bears_ref _ t ts t'); [done| |done..]. apply is_class_decls. unfold CppEmbedName_type.
      by rewrite CppEmbedName_class.
    + by apply (bears_element _ t e).
Qed.

(** C29: The classes of a module whose generated functions are given handles are exactly
    those of which a value can hold a handle or one end of an interface, of any kind:
    directly, in the elements of an array or a map, or in a class of this module, to which a
    reference leads by container and name alone (what an imported class holds is not looked
    at, see [imported_handles_missed]).  The same is
    decided for every type; and however the classes refer to each other, the search ends. *)
Theorem BuildHandleCtx_exact LONG_MAX ue src ts m :
  Tokenize LONG_MAX src = inr ts → Z.of_nat (length src) < 2 ^ 31 - 1 →
  Parse LONG_MAX ue ts = inr m →
  ∃ ctx, BuildHandleCtx m = inr ctx ∧
    (∀ name, name ∈ ctx ↔ ∃ members t, is_class m name members ∧ t ∈ members ∧ can_hold m t) ∧
    ∀ t, type_wf t = true → ∃ b, TypeNeedsHandleCtx t ctx = inr b ∧ (b = true ↔ can_hold m t).
Proof.
  intros E Hl Hm. pose proof (Parse_fine LONG_MAX ue src ts E Hl) as H. rewrite Hm in H. destruct H as [Hok _].
  destruct (BuildHandleCtx_spec m Hok) as (ctx & Ec & Hctx & Hset).
  exists ctx. split; [exact Ec|]. split.
  - intros name. rewrite Hctx. unfold carries. setoid_rewrite is_class_decls. by setoid_rewrite bears_can_hold.
  - intros t Ht. destruct (TypeNeedsHandleCtx_total t ctx (wf_has_elements t Ht)) as [b Hb]. exists b.
    split; [done|]. rewrite <- bears_can_hold. split.
    + intros ->. apply (TypeNeedsHandleCtx_sound _ ctx); [|done]. intros k. by apply Hctx.
    + intros Hbe. pose proof (TypeNeedsHandleCtx_complete _ ctx t Hset Hbe) as Hb'. rewrite Hb in Hb'. by injection Hb' as ->.
Qed.

Lemma BuildHandleCtx_exact_witness :
  ∃ ctx, BuildHandleCtx sample_module = inr ctx ∧
    (∀ name, name ∈ ctx ↔ ∃ members t, is_class sample_module name members ∧ t ∈ members ∧ can_hold sample_module t) ∧
    ∀ t, type_wf t = true → ∃ b, TypeNeedsHandleCtx t ctx = inr b ∧ (b = true ↔ can_hold sample_module t).
Proof.
  apply (BuildHandleCtx_exact (2 ^ 63 - 1) false sample_source sample_tokens sample_module);
    [exact sample_tokenizes|vm_compute; reflexivity|exact sample_parses].
Defined.

(** A struct [S] of the imported module [other] needs no handles, whatever its members are: a
    module without classes of its own sees none of them. *)
Example imported_handles_missed :
  let t := mkTypeSpec kStructRef (bytes "S") None None false (bytes "other") [] 0 in
  TypeNeedsHandleCtx t ∅ = inr false.
Proof. reflexivity. Qed.

(** ** Types *)

Lemma HandleCppType_total k : IsHandleBearing k = true →
  k ∉ [kPendingRemote; kPendingReceiver; kPendingAssociatedRemote; kPendingAssociatedReceiver] →
  (∃ r, HandleCppType k = inr r) ∧ ∃ r, HandleRawClassName k = inr r.
Proof. intros Hk Hn. destruct k; try done; try (by exfalso; apply Hn; set_solver); split; by eexists. Qed.

Lemma CppValueType_total : ∀ t, type_wf t = true → ∃ r, CppValueType t = inr r.
Proof.
  fix IH 1. intros [k nm el ky nu ns c sz] Hw. cbn [type_wf t_kind element key] in Hw.
  destruct k; cbn [CppValueType t_kind element key]; try (by eexists).
  - destruct el as [el|]; [|done]. destruct (IH el Hw) as [r ->]. by eexists.
  - apply andb_prop in Hw as [H1 H2]. destruct el as [el|]; [|done]. destruct ky as [ky|]; [|done].
    destruct (IH el H1) as [r ->], (IH ky H2) as [r' ->]. by eexists.
Qed.

Lemma non_null_wf t : type_wf t = true → type_wf (non_null t) = true.
Proof. by destruct t. Qed.

Lemma EmitWriteValue_total ctx : ∀ t e uid, type_wf t = true → ∃ r, EmitWriteValue ctx t e uid = inr r.
Proof.
  fix IH 1. intros [k nm el ky nu ns c sz] e uid Hw. cbn [type_wf t_kind element key] in Hw.
  destruct k; cbn [EmitWriteValue t_kind nullable element key IsHandleBearing]; try (destruct nu; by eexists).
  - destruct el as [el|]; [|done]. destruct (TypeNeedsHandleCtx_total el ctx (wf_has_elements el Hw)) as [b ->].
    destruct nu; cbn [gen_bind];
      match goal with |- context [EmitWriteValue ctx el ?e ?u] => destruct (IH el e u Hw) as [r ->] end; by eexists.
  - apply andb_prop in Hw as [H1 H2]. destruct el as [el|]; [|done]. destruct ky as [ky|]; [|done].
    destruct (TypeNeedsHandleCtx_total el ctx (wf_has_elements el H1)) as [b ->].
    destruct nu; cbn [gen_bind];
      (match goal with |- context [EmitWriteValue ctx ky ?e ?u] => destruct (IH ky e u H2) as [r ->] end);
      cbn [gen_bind];
      match goal with |- context [EmitWriteValue ctx el ?e ?u] => destruct (IH el e u H1) as [r' ->] end; by eexists.
Qed.

Lemma EmitHandleReadInto_total t e : ∃ r, EmitHandleReadInto t e = inr r.
Proof. unfold EmitHandleReadInto. destruct (t_kind t); by eexists. Qed.

Lemma EmitReadInto_total ext ctx ver : ∀ t e uid, type_wf t = true → ∃ r, EmitReadInto ext ctx ver t e uid = inr r.
Proof.
  fix IH 1. intros [k nm el ky nu ns c sz] e uid Hw. pose proof Hw as Hwf. cbn [type_wf t_kind element key] in Hw.
  assert (∃ r, CppValueType (non_null (mkTypeSpec k nm el ky nu ns c sz)) = inr r) as [vt Hvt]
    by by apply CppValueType_total.
  destruct (EmitHandleReadInto_total (mkTypeSpec k nm el ky nu ns c sz) e) as [hr Hhr].
  destruct k; cbn [EmitReadInto t_kind nullable element key IsHandleBearing]; rewrite ?Hvt, ?Hhr; cbn [gen_bind];
    try (destruct nu; by eexists).
  - destruct el as [el|]; [|done].
    destruct nu; cbn [gen_bind];
      match goal with |- context [EmitReadInto _ _ _ el ?e ?u] => destruct (IH el e u Hw) as [r ->] end; by eexists.
  - apply andb_prop in Hw as [H1 H2]. destruct el as [el|]; [|done]. destruct ky as [ky|]; [|done].
    destruct (CppValueType_total ky H2) as [kt ->], (CppValueType_total el H1) as [et ->].
    destruct nu; cbn [gen_bind];
      (match goal with |- context [EmitReadInto _ _ _ ky ?e ?u] => destruct (IH ky e u H2) as [r ->] end);
      cbn [gen_bind];
      match goal with |- context [EmitReadInto _ _ _ el ?e ?u] => destruct (IH el e u H1) as [r' ->] end; by eexists.
Qed.

(** ** Classes *)

Definition wf_module (m : Module_) : Prop := Forall (λ nd, Forall wf_type nd.2) (module_nodes m).

Lemma module_wf m : module_ok m → wf_module m.
Proof.
  intros [_ Hs Hu Hi _ _]. unfold wf_module, module_nodes.
  assert (∀ l, Forall struct_ok l → Forall (λ nd, Forall wf_type nd.2) (map struct_node l)) as Hst.
  { intros l Hl. apply Forall_map. eapply Forall_impl; [exact Hl|]. intros s []. cbn. apply Forall_map. done. }
  assert (∀ l, Forall union_ok l → Forall (λ nd, Forall wf_type nd.2) (map union_node l)) as Hun.
  { intros l Hl. apply Forall_map. eapply Forall_impl; [exact Hl|]. intros u []. cbn. apply Forall_map. done. }
  rewrite !Forall_app. split_and!; [by apply Hst|by apply Hun|].
  apply Forall_flat_map. eapply Forall_impl; [exact Hi|]. intros i []. apply Forall_app. split; auto.
Qed.

Lemma enabled_wf enabled m : wf_module m → wf_module (ApplyEnableIf enabled m).
Proof.
  unfold wf_module. rewrite !Forall_forall. intros Hw [o ts'] Hn.
  destruct (ApplyEnableIf_within enabled m o ts' Hn) as (ts & Hts & Hsub). specialize (Hw _ Hts).
  cbn in *. rewrite Forall_forall in *. auto.
Qed.

Lemma wf_embeds m : wf_module m → Forall (λ e, Forall wf_type (embed_types e)) (module_embeds m).
Proof.
  unfold wf_module. rewrite !Forall_forall. intros Hw e He.
  apply (Hw (embed_name e, embed_types e)). apply elem_of_nodes. by exists e.
Qed.

Lemma BuildHandleCtx_total m : wf_module m → ∃ ctx, BuildHandleCtx m = inr ctx.
Proof.
  intros Hw. assert (Forall (λ d, Forall has_elements d.2) (ctx_decls m)) as Hd.
  { unfold ctx_decls. pose proof (wf_embeds m Hw) as He. unfold module_embeds in He.
    apply Forall_app in He as [H1 H2]. rewrite !Forall_map in H1, H2.
    apply Forall_app. split; apply Forall_map; (eapply Forall_impl; [first [exact H1|exact H2]|]); intros x Hx;
      (eapply Forall_impl; [exact Hx|]); intros t; apply wf_has_elements. }
  destruct (ctx_loop_spec (ctx_decls m) (S (length (ctx_decls m))) ∅ Hd) as (ctx & Hc & _).
  - intros k []%not_elem_of_empty.
  - pose proof (size_list_le (map fst (ctx_decls m))) as Hs. rewrite length_map in Hs.
    rewrite size_empty. unfold names. lia.
  - by exists ctx.
Qed.

Lemma write_fields_total ctx fs uid : Forall wf_field fs → ∃ b, write_fields ctx fs uid = inr b.
Proof.
  intros Hf. revert uid. induction Hf as [|f fs Hf _ IH]; intros uid; cbn; [by eexists|].
  destruct (EmitWriteValue_total ctx (f_type f) (EDot (EVar V_value) (f_name f)) uid Hf) as [r ->]. cbn [gen_bind].
  destruct (IH r.2) as [b ->]. by eexists.
Qed.

Lemma read_fields_total ext ctx fs uid : Forall wf_field fs → ∃ b, read_fields ext ctx fs uid = inr b.
Proof.
  intros Hf. revert uid. induction Hf as [|f fs Hf _ IH]; intros uid; cbn; [by eexists|].
  destruct (EmitReadInto_total ext ctx (Some V_version) (f_type f) (EArrow (EVar V_out) (f_name f)) uid Hf) as [r ->].
  cbn [gen_bind]. destruct (IH r.2) as [b ->]. by eexists.
Qed.

Lemma write_cases_total ctx fs : Forall wf_ufield fs → ∃ c, write_cases ctx fs = inr c.
Proof.
  induction 1 as [|f fs Hf _ [c IH]]; cbn; [by eexists|].
  destruct (EmitWriteValue_total ctx (uf_type f) (EAccess (EVar V_value) (uf_name f)) 0 Hf) as [r ->]. cbn [gen_bind].
  rewrite IH. by eexists.
Qed.

Lemma read_cases_total ext ctx fs : Forall wf_ufield fs → ∃ c, read_cases ext ctx fs = inr c.
Proof.
  induction 1 as [|f fs Hf _ [c IH]]; cbn; [by eexists|].
  destruct (CppValueType_total (uf_type f) Hf) as [vt ->]. cbn [gen_bind].
  destruct (EmitReadInto_total ext ctx None (uf_type f) (EVar V_wvc_v) 0 Hf) as [r ->]. cbn [gen_bind].
  rewrite IH. by eexists.
Qed.

Lemma default_field_in u f : default_field u = Some f → f ∈ u_fields u.
Proof.
  unfold default_field. intros Hd.
  assert (∀ l d, foldl (λ def f, if uf_is_default f then Some f else def) d l = Some f → d = Some f ∨ f ∈ l) as Hg.
  { induction l as [|g l IH]; intros d Hl; cbn in Hl; [by left|].
    destruct (IH _ Hl) as [Hg|Hg]; [|right; by right]. destruct (uf_is_default g); [|by left].
    injection Hg as ->. right. by left. }
  destruct (Hg _ _ Hd) as [|]; done.
Qed.

Lemma EmitStructIO_total s ext ctx opt ns : Forall wf_field (s_fields s) → ∃ io, EmitStructIO s ext ctx opt ns = inr io.
Proof.
  intros Hs. unfold EmitStructIO. destruct (LookupTypemap _ _ _ _); [by eexists|].
  assert (Forall wf_field (wire_fields s)) as Hw by by rewrite wire_fields_perm.
  destruct (write_fields_total ctx _ 0 Hw) as [b ->]. cbn [gen_bind].
  destruct (read_fields_total ext ctx _ 0 Hw) as [r ->]. by eexists.
Qed.

Lemma EmitUnionIO_total u ext ctx : Forall wf_ufield (u_fields u) → ∃ io, EmitUnionIO u ext ctx = inr io.
Proof.
  intros Hu. unfold EmitUnionIO. destruct (write_cases_total ctx _ Hu) as [b ->]. cbn [gen_bind].
  destruct (read_cases_total ext ctx _ Hu) as [r ->]. cbn [gen_bind].
  assert (∃ other, otherwise_of u = inr other) as [other ->]; [|by eexists].
  unfold otherwise_of. destruct (u_is_extensible u); [|by eexists].
  destruct (default_field u) as [f|] eqn:Hd; [|by eexists].
  rewrite Forall_forall in Hu. destruct (CppValueType_total _ (Hu f (default_field_in u f Hd))) as [vt ->]. by eexists.
Qed.

Lemma emit_classes_total es ext ctx opt ns :
  Forall (λ e, Forall wf_type (embed_types e)) es → ∃ ios, emit_classes es ext ctx opt ns = inr ios.
Proof.
  induction 1 as [|e es He _ [ios IH]]; cbn; [by eexists|]. rewrite IH. unfold embed_types in He.
  destruct (decl e) as [s|u]; rewrite -> Forall_map in He.
  - destruct (EmitStructIO_total s ext ctx opt ns He) as [io ->]. by eexists.
  - destruct (EmitUnionIO_total u ext ctx He) as [io ->]. by eexists.
Qed.

(** ** Modules *)

Lemma GenerateProgram_total m opt :
  wf_module m → (∀ k, ¬ tc (embeds m) k k) → typed_module m → ∃ p out, GenerateProgram m opt = inr p ∧
    SortEmbeds (module_embeds m) = inr out ∧ out ≡ₚ module_embeds m.
Proof.
  intros Hw Hac Ht. destruct (SortEmbeds_spec m Ht Hac) as (out & Hs & [Hperm _ _]).
  unfold GenerateProgram, GenerateIO. destruct (BuildHandleCtx_total m Hw) as [ctx ->]. cbn [gen_bind].
  rewrite Hs. cbn [gen_bind].
  destruct (emit_classes_total out (module_extensible m) ctx opt (mod_name m)) as [ios ->].
  { rewrite Hperm. by apply wf_embeds. }
  cbn [gen_bind]. by exists (mkProgram m (emit_enums m opt) ios), out.
Qed.

(** What the generator makes of a source that the parser accepts, with the flags
    [enabled]. *)
Lemma generated LONG_MAX ue src ts m enabled opt :
  Tokenize LONG_MAX src = inr ts → Z.of_nat (length src) < 2 ^ 31 - 1 → Parse LONG_MAX ue ts = inr m →
  let m' := ApplyEnableIf enabled m in
  no_typemaps opt → cpp_accepts m' = true →
  ∃ p ctx, GenerateProgram m' opt = inr p ∧ p_module p = m' ∧ p_enums p = emit_enums m' opt ∧
    BuildHandleCtx m' = inr ctx ∧ program_ok p (module_extensible m') ctx.
Proof.
  intros E Hl Hm m' Ho Hacc. pose proof (Parse_fine LONG_MAX ue src ts E Hl) as Hf. rewrite Hm in Hf.
  destruct Hf as [Hok Hac].
  destruct (GenerateProgram_total m' opt) as (p & out & Hp & Hs & Hperm).
  - by apply enabled_wf, module_wf.
  - by apply enable_if_acyclic.
  - by apply enabled_typed, module_typed.
  - destruct (GenerateProgram_ok m' opt p out Hp Hs Hperm Ho Hacc) as (H1 & H2 & ctx & H3 & H4). by exists p, ctx.
Qed.
