(* ===== verification/GenWriteProps.v ===== *)
(** * Generated writers follow the wire format

    Running what [EmitWriteValue] emits for a value appends the bytes and handles that
    [Repr] gives it, and takes the handles out of the value. *)
From Stdlib Require Import ZArith Lia.
From stdpp Require Import base list gmap.
From S2P Require Import Prelude Ast TypeIntern Sandbox Codec GenNames GenCode GenOrderProps GenIO GenSem GenRun GenWire.

Definition put_bits (o : Bits) (w : Wire) : Wire :=
  mkWire (data w ++ b_data o) (handles w ++ b_handles o) (handle_idx w) (offset w) (endpoints w).

Lemma put_app a b w : put_bits (a +++ b) w = put_bits b (put_bits a w).
Proof. unfold put_bits. cbn. by rewrite !app_assoc. Qed.
Lemma put_raw l w : put_bits (raw l) w = WritePayload l w.
Proof. destruct w. unfold put_bits, WritePayload, with_data. cbn. by rewrite app_nil_r. Qed.
Lemma put_none w : put_bits no_bits w = w.
Proof. destruct w. unfold put_bits. cbn. by rewrite !app_nil_r. Qed.
Lemma data_put o w : data (put_bits o w) = data w ++ b_data o.
Proof. done. Qed.

(** ** The equations of the emitter *)

Lemma write_nullable ctx t e uid b uid' :
  IsHandleBearing (t_kind t) = false → nullable t = true →
  EmitWriteValue ctx t e uid = inr (b, uid') →
  ∃ b', EmitWriteValue ctx (non_null t) (EDeref e) (uid + 1) = inr (b', uid') ∧
    b = [SBlock [SDecl (text "bool") (V_has uid) (RHasValue e);
                 SWriteScalar (EVar (V_has uid)); SIf (V_has uid) b']].
Proof.
  intros Hk Hn. destruct t as [k nm el ky nu ns c sz]. cbn in Hk, Hn. subst nu.
  cbn [EmitWriteValue t_kind nullable]. rewrite Hk. intros Hb.
  apply gen_bind_inr in Hb as ([b' u'] & Hb' & [= <- <-]). exists b'. split; [|done].
  unfold non_null. cbn [EmitWriteValue t_kind nullable]. rewrite Hk. exact Hb'.
Qed.

Lemma write_link_nullable ctx t e uid b uid' :
  IsHandleBearing (t_kind t) = true → nullable t = true →
  EmitWriteValue ctx t e uid = inr (b, uid') →
  b = [SBlock [SDecl (text "bool") (V_has uid) (RIsValid e);
               SWriteScalar (EVar (V_has uid)); SIf (V_has uid) (EmitHandleWritePayload t e (uid + 1)).1]] ∧
  uid' = uid + 2.
Proof.
  intros Hk Hn. destruct t as [k nm el ky nu ns c sz]. cbn in Hk, Hn. subst nu.
  cbn [EmitWriteValue t_kind nullable]. rewrite Hk. intros [= <- <-]. split; [done|].
  unfold EmitHandleWritePayload. cbn. lia.
Qed.

Lemma EmitWriteValue_uid ctx : ∀ t e uid b uid',
  EmitWriteValue ctx t e uid = inr (b, uid') → uid <= uid'.
Proof.
  fix IH 1. intros [k nm el ky nu ns c sz] e uid b uid'.
  destruct k, nu; cbn [EmitWriteValue t_kind nullable element key IsHandleBearing]; intros Hb;
    try (injection Hb as <- <-; cbn; lia);
    try destruct el as [el|]; try destruct ky as [ky|]; try done;
    gen_inv; repeat match goal with
             | E : EmitWriteValue _ _ _ _ = inr (_, _) |- _ => apply IH in E
             end; cbn in *; lia.
Qed.

Lemma write_fields_uid ctx fs uid b : write_fields ctx fs uid = inr b → ∀ f fs', fs = f :: fs' →
  ∃ b1 u b2, EmitWriteValue ctx (f_type f) (EDot (EVar V_value) (f_name f)) uid = inr (b1, u) ∧
    write_fields ctx fs' u = inr b2 ∧ b = b1 ++ b2 ∧ uid <= u.
Proof.
  intros H f fs' ->. cbn in H. apply gen_bind_inr in H as ([b1 u] & H1 & H).
  apply gen_bind_inr in H as (b2 & H2 & [= <-]). exists b1, u, b2. split_and!; [done|done|done|].
  by eapply EmitWriteValue_uid.
Qed.

Section write.
Context `{Platform}.
Variables (p : Program) (ctx : gset (list Z)).

Section writes.
Variable cl : bool → list Z → bool → Val → Wire → Result (Val * Wire).
#[local] Abbreviation run := (run p cl).

(** The statements [b], emitted from [uid] on, append [o] and leave [v'] of [v]. *)
Definition writes (uid : Z) (b : list Stmt) (E : Val → Env) (v v' : Val) (o : Bits) : Prop :=
  ∀ w, Z.of_nat (length (data w) + length (b_data o)) < 2 ^ 32 →
    ∃ ex, Forall (λ x, fresh uid x.1) ex ∧ run b (E v, w) = inr (ex ++ E v', put_bits o w).

Lemma writes_intro uid b E v v' o :
  (∀ w, Z.of_nat (length (data w) + length (b_data o)) < 2 ^ 32 → run b (E v, w) = inr (E v', put_bits o w)) →
  writes uid b E v v' o.
Proof. intros Hr w Hw. exists []. split; [done|]. by apply Hr. Qed.

Lemma writes_later uid uid' b E v v' o : uid <= uid' → writes uid' b E v v' o → writes uid b E v v' o.
Proof.
  intros Hle Hw w Hs. destruct (Hw w Hs) as (ex & Hex & Hr). exists ex. split; [|done].
  eapply Forall_impl; [done|]. intros x. by apply fresh_later.
Qed.

(** A block leaves nothing behind. *)
Lemma writes_block uid b E v v' o :
  (∀ a b, length (E a) = length (E b)) → writes uid b E v v' o → writes uid [SBlock b] E v v' o.
Proof.
  intros Hl Hw. apply writes_intro. intros w Hs. destruct (Hw w Hs) as (ex & _ & Hr).
  rewrite run_one, exec_block. by rewrite (scope_run _ _ _ ex _ (E v') w (put_bits o w)).
Qed.

(** A variable declared first. *)
Lemma writes_decl uid s x y b E v v' v'' o o' :
  fresh uid x → (∀ w, exec p cl s (E v, w) = inr ((x, y) :: E v', w)) → o = o' →
  writes uid b (λ v, (x, y) :: E v) v' v'' o → writes uid (s :: b) E v v'' o'.
Proof.
  intros Hx Hs -> Hw w Hsm. rewrite run_cons, Hs. cbn [res_bind].
  destruct (Hw w Hsm) as (ex & Hex & Hr). exists (ex ++ [(x, y)]). split.
  - apply Forall_app. by repeat constructor.
  - etransitivity; [exact Hr|]. by rewrite <- app_assoc.
Qed.

(** A statement that only writes. *)
Lemma writes_step uid s b E v v' o o' :
  (∀ w, exec p cl s (E v, w) = inr (E v, put_bits o w)) →
  writes uid b E v v' o' → writes uid (s :: b) E v v' (o +++ o').
Proof.
  intros Hs Hw w Hsm. rewrite run_cons, Hs. cbn [res_bind]. cbn in Hsm. rewrite length_app in Hsm.
  destruct (Hw (put_bits o w)) as (ex & Hex & Hr); [cbn; rewrite length_app; lia|].
  exists ex. split; [done|]. by rewrite Hr, put_app.
Qed.

Lemma writes_nil uid E v : writes uid [] E v v no_bits.
Proof. apply writes_intro. intros w _. by rewrite put_none. Qed.

Lemma writes_one uid s E v v' o :
  (∀ w, Z.of_nat (length (data w) + length (b_data o)) < 2 ^ 32 → exec p cl s (E v, w) = inr (E v', put_bits o w)) →
  writes uid [s] E v v' o.
Proof. intros Hs. apply writes_intro. intros w Hw. rewrite run_one. by apply Hs. Qed.

(** Two parts of one object, one after the other. *)
Lemma writes_two uid uid' b b' E1 E2 v1 v1' v2 v2' o o' :
  uid <= uid' → writes uid b E1 v1 v1' o → E1 v1' = E2 v2 →
  (∀ ex, Forall (λ x, fresh uid x.1) ex → writes uid' b' (λ v, ex ++ E2 v) v2 v2' o') →
  ∀ w, Z.of_nat (length (data w) + length (b_data (o +++ o'))) < 2 ^ 32 →
    ∃ ex, Forall (λ x, fresh uid x.1) ex ∧ run (b ++ b') (E1 v1, w) = inr (ex ++ E2 v2', put_bits (o +++ o') w).
Proof.
  intros Hle H1 HE H2 w Hs. cbn in Hs. rewrite length_app in Hs.
  destruct (H1 w) as (ex & Hex & Hr); [lia|]. rewrite run_app, Hr. cbn [res_bind].
  destruct (H2 ex Hex (put_bits o w)) as (ex' & Hex' & Hr'); [cbn; rewrite length_app; lia|].
  rewrite HE. exists (ex' ++ ex). split.
  - apply Forall_app. split; [|done]. eapply Forall_impl; [done|]. intros x. by apply fresh_later.
  - etransitivity; [exact Hr'|]. by rewrite <- app_assoc, put_app.
Qed.

(** ** One value *)

Lemma writes_object uid e E v l :
  focus p uid e E → (∀ w, write_scalar (open_val (p_module p) v) w = inr (WritePayload l w)) →
  writes uid [SWriteScalar e] E v v (raw l).
Proof.
  intros HE Hv. apply writes_one. intros w _. cbn. rewrite (focus_value _ _ _ _ _ HE). cbn.
  by rewrite Hv, put_raw.
Qed.

(** A flag, and what it says is there. *)
Lemma writes_flag uid r b E v v' o (c : bool) :
  (∀ a b, length (E a) = length (E b)) → (∀ w, eval_rhs p r (E v, w) = inr (VBool c, (E v, w))) →
  (c = true → writes (uid + 1) b (λ v, (V_has uid, BVal (VBool true)) :: E v) v v' o) →
  (c = false → v' = v ∧ o = no_bits) →
  writes uid [SBlock [SDecl (text "bool") (V_has uid) r; SWriteScalar (EVar (V_has uid)); SIf (V_has uid) b]]
    E v v' (raw [if c then 1 else 0] +++ o).
Proof.
  intros Hl Hr Hb Hn. apply writes_block; [done|].
  apply (writes_decl uid _ (V_has uid) (BVal (VBool c)) _ E v v v' (raw [if c then 1 else 0] +++ o)); [cbn; lia| |done|].
  { intros w. cbn [exec]. by rewrite Hr. }
  apply (writes_step uid _ _ (λ v, (V_has uid, BVal (VBool c)) :: E v)).
  { intros w. cbn [exec]. rewrite value_of_top. cbn. by rewrite put_raw. }
  apply writes_one. intros w Hs. rewrite exec_if. cbn [fst]. rewrite bool_var_top. cbn [res_bind].
  destruct c.
  - destruct (Hb eq_refl w Hs) as (ex & _ & Hx). by rewrite (scope_run _ _ _ ex _ ((V_has uid, BVal (VBool true)) :: E v') w (put_bits o w)) by (done || cbn; by rewrite (Hl v' v)).
  - destruct (Hn eq_refl) as [-> ->]. by rewrite put_none.
Qed.

(** ** Handles and interfaces *)

Lemma exec_pass_version uid ty x e E l n w :
  focus p uid e E → exec p cl (SDecl ty x (RPassVersion e)) (E (VPending l (Some n)), w) =
  inr ((x, BVal (VWord 4 n)) :: E (VPending l (Some n)), w).
Proof. intros HE. cbn. by rewrite (focus_value _ _ _ _ _ HE). Qed.

Lemma exec_pass uid ty x r e E l n w :
  focus p uid e E → r ∈ [RPassHandle e; RPassPipe e] →
  exec p cl (SDecl ty x r) (E (VPending l n), w) =
  inr ((x, BVal (VHandle l)) :: E (VPending (link_gone l) n), w).
Proof.
  intros HE [->|[->|?%elem_of_nil]%elem_of_cons]%elem_of_cons; [| |done]; cbn; by rewrite (focus_at _ _ _ _ _ _ HE).
Qed.

Lemma exec_release ty x y live iid env w :
  exec p cl (SDecl ty y (RReleaseWithoutClosing x)) ((x, BVal (VHandle (Endpoint live iid))) :: env, w) =
  inr ((y, BVal (VWord 4 iid)) :: (x, BVal (VHandle no_endpoint)) :: env, w).
Proof. cbn. by rewrite decide_True. Qed.

Lemma exec_attach x h env w :
  exec p cl (SAttachHandle (EVar x)) ((x, BVal (VHandle (Pipe h))) :: env, w) =
  inr ((x, BVal (VHandle (Pipe 0))) :: env, AttachHandle h w).
Proof.
  cbn. unfold at_expr, at_place. cbn. rewrite decide_True by done. cbn. by rewrite decide_True.
Qed.

Lemma exec_payload x n env w :
  word_var x env = inr n → exec p cl (SWritePayload x) (env, w) = inr (env, WritePayload (le_bytes 4 n) w).
Proof. intros Hx. cbn. by rewrite Hx. Qed.

Ltac word_step := first [apply word_var_top | rewrite word_var_below by done; word_step].
Ltac run_step :=
  rewrite run_cons;
  first [erewrite exec_pass_version by eassumption
        |rewrite exec_release|rewrite exec_attach
        |erewrite exec_payload by word_step]; cbn [res_bind].

Lemma writes_link uid t e v o E :
  ReprLink t v o → focus p uid e E → writes uid (EmitHandleWritePayload t e uid).1 E v (spent v) o.
Proof.
  intros Hr HE w _. destruct Hr as [h n Hk Hn|h Hk|iid n Hk Hi Hn|iid Hk Hi|h Hk].
  - unfold EmitHandleWritePayload. rewrite Hk. cbn [fst].
    exists [(V_h_pipe uid, BVal (VHandle (Pipe 0))); (V_h_version uid, BVal (VWord 4 n))].
    split; [repeat constructor; cbn; lia|]. run_step. rewrite run_cons.
    rewrite (exec_pass uid _ _ _ e (λ v, (V_h_version uid, BVal (VWord 4 n)) :: E v) _ (Some n))
      by (apply focus_push; [by apply fresh_apart; cbn; lia|done] || set_solver).
    cbn [res_bind]. run_step. run_step. cbn. by destruct w.
  - unfold EmitHandleWritePayload. rewrite Hk. cbn [fst].
    exists [(V_h_pipe uid, BVal (VHandle (Pipe 0)))]. split; [repeat constructor; cbn; lia|].
    rewrite run_cons, (exec_pass uid _ _ _ e E) by (done || set_solver). cbn [res_bind].
    run_step. cbn. unfold put_bits, AttachHandle. cbn. by rewrite app_nil_r.
  - unfold EmitHandleWritePayload. rewrite Hk. cbn [fst].
    exists [(V_h_iid uid, BVal (VWord 4 iid)); (V_h_handle uid, BVal (VHandle no_endpoint));
            (V_h_version uid, BVal (VWord 4 n))].
    split; [repeat constructor; cbn; lia|]. run_step. rewrite run_cons.
    rewrite (exec_pass uid _ _ _ e (λ v, (V_h_version uid, BVal (VWord 4 n)) :: E v) _ (Some n))
      by (apply focus_push; [by apply fresh_apart; cbn; lia|done] || set_solver).
    cbn [res_bind]. run_step. run_step. run_step. cbn. unfold put_bits, WritePayload, with_data. cbn.
    by rewrite app_nil_r, <- app_assoc.
  - unfold EmitHandleWritePayload. rewrite Hk. cbn [fst].
    exists [(V_h_iid uid, BVal (VWord 4 iid)); (V_h_handle uid, BVal (VHandle no_endpoint))].
    split; [repeat constructor; cbn; lia|].
    rewrite run_cons, (exec_pass uid _ _ _ e E) by (done || set_solver). cbn [res_bind].
    run_step. run_step. cbn. unfold put_bits, WritePayload, with_data. cbn. by rewrite app_nil_r.
  - exists []. split; [done|]. unfold EmitHandleWritePayload.
    assert (exec p cl (SAttachHandle e) (E (VHandle (Pipe h)), w) =
            inr (E (VHandle (Pipe 0)), AttachHandle h w)) as He.
    { cbn. by rewrite (focus_at _ _ _ _ _ _ HE). }
    destruct (t_kind t); try (by exfalso; set_solver); cbn [fst]; rewrite run_one, He;
      unfold put_bits, AttachHandle; cbn; by rewrite app_nil_r.
Qed.

(** A nullable one. *)
Lemma writes_link_nullable t v v' o E e uid b uid' (c : bool) :
  IsHandleBearing (t_kind t) = true → nullable t = true → EmitWriteValue ctx t e uid = inr (b, uid') →
  focus p uid e E →
  (∃ l, ((∃ n, open_val (p_module p) v = VPending l n) ∨ open_val (p_module p) v = VHandle l) ∧ link_valid l = c) →
  (c = true → v' = spent v ∧ ReprLink t v o) → (c = false → v' = v ∧ o = no_bits) →
  writes uid b E v v' (raw [if c then 1 else 0] +++ o).
Proof.
  intros Hk Hn Hb HE Hv Ht Hf. destruct (write_link_nullable _ _ _ _ _ _ Hk Hn Hb) as [-> _].
  apply writes_flag; [apply (fo_length _ _ _ _ HE)| | |done].
  - intros w. cbn. rewrite (focus_value _ _ _ _ _ HE). cbn.
    by destruct Hv as (l & [[n ->] | ->] & ->).
  - intros ->. destruct (Ht eq_refl) as [-> Hl]. apply writes_link; [done|].
    apply (focus_later _ uid); [lia|]. apply focus_push; [left; cbn; lia|done].
Qed.

(** ** Loops over containers *)

Section loop.
Context (K : list Val → Val) (HK : ∀ a b, hole p [StAt (length a)] (λ v, K (a ++ v :: b))).

Lemma writes_loop uid uid' e E pl x b l o :
  focus p uid e E → (∀ v, place_of (E v) e = inr pl) → fresh uid x → ¬ apart uid' x → uid <= uid' →
  Elems (λ v o, ∀ E', focus p uid' (EVar x) E' → writes uid' b E' v (spent v) o) l o →
  ∀ pre w, Z.of_nat (length (data w) + length (b_data o)) < 2 ^ 32 →
  repeat_from (λ k, turn p cl b x (BRef (pl.1, pl.2 ++ [StAt k]))) (length l) (length pre)
    (E (K (pre ++ l)), w) = inr (E (K (pre ++ map spent l)), put_bits o w).
Proof using HK.
  intros HE Hpl Hx Hx' Hle. induction 1 as [|v l o o' Hv Hl IH]; intros pre w Hs; cbn [repeat_from length map].
  { by rewrite put_none. }
  cbn in Hs. rewrite length_app in Hs.
  pose proof (focus_ref _ uid uid' e E x pl (K (pre ++ v :: l)) _ _ HE Hx Hx' Hle (Hpl _) (HK pre l)) as HE'.
  destruct (Hv _ HE' w) as (ex & _ & Hr); [lia|].
  rewrite (turn_run _ _ b x _ ex _ (E (K (pre ++ spent v :: l))) w (put_bits o w) (BRef (pl.1, pl.2 ++ [StAt (length pre)])))
    by (done || apply (fo_length _ _ _ _ HE)). cbn [res_bind].
  replace (S (length pre)) with (length (pre ++ [spent v])) by (rewrite length_app; cbn; lia).
  replace (pre ++ spent v :: l) with ((pre ++ [spent v]) ++ l) by by rewrite <- app_assoc.
  rewrite IH by (cbn; rewrite length_app; lia). by rewrite put_app, <- app_assoc.
Qed.

(** With the number of elements before them, if they have one. *)
Lemma writes_container uid e E b m x l o (counted : bool) :
  focus p uid e E → fresh uid x → ¬ apart (uid + 1) x →
  (∀ l, open_val (p_module p) (K l) = K l ∧ range_length (K l) = inr (length l)) →
  (∀ w, eval_rhs p (RSize e) (E (K l), w) = inr (VWord 4 (u32 (Z.of_nat (length l))), (E (K l), w))) →
  (counted = true → Z.of_nat (length l) < 2 ^ 32) →
  Elems (λ v o, ∀ E', focus p (uid + 1) (EVar x) E' → writes (uid + 1) b E' v (spent v) o) l o →
  x ≠ V_n uid →
  writes uid
    [SBlock ((if counted then [SDecl (text "uint32_t") (V_n uid) (RSize e); SWritePayload (V_n uid)] else []) ++
             [SForEach m x e b])]
    E (K l) (K (map spent l)) (if counted then raw (le_bytes 4 (Z.of_nat (length l))) +++ o else o).
Proof using HK.
  intros HE Hx Hx' Hopen Hsize Hcount Hl Hne.
  assert (∀ E, focus p uid e E → writes uid [SForEach m x e b] E (K l) (K (map spent l)) o) as Hloop.
  { intros E' HE'. apply writes_one. intros w Hs. rewrite exec_for_each. cbn [fst].
    destruct (fo_place _ _ _ _ HE') as (pl & Hpl & _). rewrite Hpl. cbn [res_bind].
    rewrite (focus_value _ _ _ _ _ HE'). cbn [res_bind]. destruct (Hopen l) as [-> ->]. cbn [res_bind].
    by apply (writes_loop uid (uid + 1) e E' pl x b l o HE' Hpl Hx Hx' ltac:(lia) Hl [] w). }
  apply writes_block; [apply (fo_length _ _ _ _ HE)|]. destruct counted; [|by apply Hloop].
  cbn [app]. apply (writes_decl uid _ (V_n uid) (BVal (VWord 4 (Z.of_nat (length l)))) _ E (K l) (K l) _
    (raw (le_bytes 4 (Z.of_nat (length l))) +++ o)); [cbn; lia| |done|].
  { intros w. cbn [exec]. rewrite Hsize. cbn. rewrite u32_small; [done|]. specialize (Hcount eq_refl). lia. }
  apply (writes_step uid _ _ (λ v, (V_n uid, BVal (VWord 4 (Z.of_nat (length l)))) :: E v)).
  { intros w. rewrite (exec_payload (V_n uid) (Z.of_nat (length l))) by apply word_var_top. by rewrite put_raw. }
  apply Hloop. apply focus_push; [left; cbn; lia|done].
Qed.
End loop.
End writes.

(** ** The members of a struct *)

Definition spent_in (done : list (list Z)) (h : list Z → Val) : list Z → Val :=
  λ n, if decide (n ∈ done) then spent (h n) else h n.

(** What running the emitted code of [t] does, with calls [fuel] deep. *)
Definition written (t : TypeSpec) (v : Val) (o : Bits) : Prop :=
  ∀ fuel e uid b uid' E, (length (b_data o) < 8 * fuel)%nat → EmitWriteValue ctx t e uid = inr (b, uid') →
    focus p uid e E → writes (call p fuel) uid b E v (spent v) o.

Definition fields_written (fl : list StructField) (fs : list (list Z * Val)) (o : Bits) : Prop :=
  ∀ fuel uid b E names h, (length (b_data o) < 8 * fuel)%nat → write_fields ctx fl uid = inr b →
    focus p uid (EVar V_value) E → NoDup names → NoDup (map f_name fl) →
    (∀ f, f ∈ fl → f_name f ∈ names) → (∀ f x, f ∈ fl → (f_name f, x) ∈ fs → h (f_name f) = x) →
    writes (call p fuel) uid b E (obj names h) (obj names (spent_in (map f_name fl) h)) o.

Lemma fields_written_nil fs : fields_written [] fs no_bits.
Proof.
  intros fuel uid b E names h _ [= <-] _ _ _ _ _.
  assert (obj names (spent_in (map f_name []) h) = obj names h) as ->; [|apply writes_nil].
  apply obj_ext. intros n _. unfold spent_in. by rewrite decide_False by apply not_elem_of_nil.
Qed.

Lemma fields_written_cons f l fs x o o' :
  (f_name f, x) ∈ fs → written (f_type f) x o → fields_written l fs o' →
  fields_written (f :: l) fs (o +++ o').
Proof.
  intros Hx Hw Hl fuel uid b E names h Hf Hb HE Hnd Hnd' Hin Hh w Hs.
  destruct (write_fields_uid _ _ _ _ Hb _ _ eq_refl) as (b1 & u & b2 & Hb1 & Hb2 & -> & Hle).
  cbn in Hf. rewrite length_app in Hf. cbn in Hnd'. apply NoDup_cons in Hnd' as [Hn Hnd'].
  pose proof (focus_obj_dot p uid (EVar V_value) E names h (f_name f) HE Hnd (Hin f ltac:(left))) as HE1.
  pose proof (Hw fuel _ uid b1 u _ ltac:(lia) Hb1 HE1) as H1. cbn beta in H1.
  set (h1 := fupd (f_name f) (spent x) h).
  assert (obj names h = obj names (fupd (f_name f) x h)) as E0.
  { rewrite <- (Hh f x ltac:(left) Hx). symmetry. apply obj_fupd. }
  rewrite E0.
  assert (obj names (spent_in (map f_name (f :: l)) h) = obj names (spent_in (map f_name l) h1)) as ->.
  { apply obj_ext. intros n _. unfold spent_in, h1, fupd. cbn [map].
    destruct (decide (n = f_name f)) as [->|Hne].
    - rewrite decide_True by by left. rewrite decide_False by done. by rewrite (Hh f x ltac:(left) Hx).
    - destruct (decide (n ∈ map f_name l)) as [Hi|Hi]; [by rewrite decide_True by (by right)|].
      rewrite decide_False; [done|]. intros [?|?]%elem_of_cons; done. }
  apply (writes_two (call p fuel) uid u b1 b2 (λ v, E (obj names (fupd (f_name f) v h))) E
    x (spent x) (obj names h1)); [done|exact H1|done| |done].
  intros ex Hex. apply (Hl fuel u b2 (λ v, ex ++ E v) names h1); [lia|done| |done|done| |].
  - apply (focus_later _ uid); [done|]. apply focus_pushes; [|done].
    eapply Forall_impl; [done|]. intros y. apply fresh_apart.
  - intros g Hg. apply Hin. by right.
  - intros g y Hg Hy. unfold h1, fupd. rewrite decide_False; [apply Hh; [by right|done]|].
    intros Heq. apply Hn. rewrite <- Heq. by apply list_elem_of_fmap_2.
Qed.

(** ** Functions *)

Context (ext : gmap (list Z) bool) {PK : program_ok p ext ctx}.

Lemma patch_end d l l' o (w : Wire) :
  data w = d ++ l ++ o → length l' = length l →
  patch (Z.of_nat (length d)) l' w = inr (with_data (d ++ l' ++ o) w).
Proof.
  intros Hd Hl. unfold patch. rewrite (proj2 (Z.leb_le _ _)) by lia. cbn [andb].
  rewrite (proj2 (Z.leb_le _ _)) by (rewrite Hd, !length_app; lia). do 2 f_equal.
  rewrite Nat2Z.id. unfold splice. rewrite Hd, take_app_length, Hl.
  by rewrite <- length_app, (app_assoc d l o), drop_app_length.
Qed.

Lemma fresh_not_value ex : Forall (λ x, fresh 0 x.1) ex → Forall (λ x : Var * Binding, V_value ≠ x.1) ex.
Proof. intros H'. eapply Forall_impl; [exact H'|]. intros [y b]. cbn. by intros Hy <-. Qed.

Lemma header_offset_of ex n b env :
  Forall (λ x, fresh 0 x.1) ex → word_var V_header_offset (ex ++ (V_header_offset, BVal (VWord n b)) :: env) = inr b.
Proof.
  intros Hex. rewrite word_var_skip; [apply word_var_top|]. eapply Forall_impl; [exact Hex|].
  intros [y c]. cbn. intros Hy <-. done.
Qed.

Lemma spent_obj names h : spent (obj names h) = obj names (λ n, spent (h n)).
Proof. unfold obj. cbn. by rewrite map_map. Qed.

Lemma call_struct t s fs o fuel w :
  find_struct (p_module p) t = Some s → fs.*1 = map f_name (s_fields s) →
  fields_written (wire_fields s) fs o → (length (b_data o) < 8 * fuel)%nat → 0 <= s_version s < 2 ^ 32 →
  Z.of_nat (length (data w) + length (b_data (sized (size_of o []) (s_version s) o []))) < 2 ^ 32 →
  call p (S fuel) true (CppEmbedName_type t) false (VObj fs) w =
  inr (spent (VObj fs), put_bits (sized (size_of o []) (s_version s) o []) w).
Proof using PK.
  intros Hs Hfs Ho Hf Hv Hsm. destruct (pk_struct _ _ _ PK t s Hs) as (io & opt & ns & Hc & Hm & Hio).
  destruct (EmitStructIO_inv _ _ _ _ _ _ Hm Hio) as (b & r & Hb & _ & ->).
  cbn [call]. rewrite Hc. cbn [some res_bind io_write orb]. unfold struct_writer.
  pose proof (pk_fields _ _ _ PK t s Hs) as Hnd. rewrite <- Hfs in Hnd.
  destruct (obj_of fs Hnd) as (h & Eh & Hh). cbn [open_val]. rewrite Eh.
  rewrite !run_app. cbn [run exec eval_rhs res_bind fst snd].
  cbn [sized b_data] in Hsm. rewrite !length_app in Hsm. change (length (le_bytes 4 _)) with 4%nat in Hsm.
  assert (num_bytes w = Z.of_nat (length (data w))) as Hn by (unfold num_bytes; apply u32_small; lia).
  set (w1 := WritePayload _ w).
  destruct (Ho fuel 0 b (λ v, [(V_header_offset, BVal (VWord 8 (num_bytes w))); (V_value, BVal v)]) fs.*1 h)
    with (w := w1) as (ex & Hex & Hr); [done|done| |done| | | | |].
  { apply (focus_var_below p 0 V_value [(V_header_offset, _)] []); [intros [[]|[|]]; done|set_solver]. }
  { rewrite wire_fields_perm, <- Hfs. done. }
  { intros f Hi%elem_of_wire_fields. rewrite Hfs. by apply list_elem_of_fmap_2. }
  { intros f x _ Hx. by apply Hh. }
  { cbn. rewrite !length_app. cbn. lia. }
  rewrite run_app. etransitivity; [apply (f_equal (λ m, res_bind (res_bind m _) _)); exact Hr|].
  cbn [res_bind run exec]. rewrite header_offset_of by done. cbn [res_bind].
  assert (num_bytes (put_bits o w1) - num_bytes w = size_of o []) as Hsz.
  { unfold num_bytes. rewrite !u32_small by (cbn; rewrite ?length_app; cbn; lia).
    unfold size_of. cbn. rewrite !length_app. cbn. lia. }
  rewrite Hsz, Hn, (u32_small (size_of o [])) by (unfold size_of; cbn; lia).
  rewrite (patch_end (data w) (le_bytes 4 0 ++ le_bytes 4 0) _ (b_data o)) by (done || by cbn; rewrite <- app_assoc).
  cbn [res_bind fst snd]. rewrite <- Hn, (cons_middle _ ex), app_assoc.
  rewrite (object_left V_value (ex ++ [_])) by (apply Forall_app; split; [by apply fresh_not_value|by repeat constructor]).
  cbn [res_bind snd]. do 2 f_equal.
  - rewrite spent_obj. apply obj_ext. intros n Hin. unfold spent_in. rewrite decide_True; [done|].
    by rewrite wire_fields_perm, <- Hfs.
  - unfold put_bits, sized, with_data, w1. cbn. by rewrite app_nil_r.
Qed.

Lemma write_cases_find fs cases f :
  write_cases ctx fs = inr cases → NoDup (map (λ f, u32 (uf_tag f)) fs) → f ∈ fs →
  ∃ b u, EmitWriteValue ctx (uf_type f) (EAccess (EVar V_value) (uf_name f)) 0 = inr (b, u) ∧
    List.find (λ c : Case, u32 c.1.2 =? u32 (uf_tag f)) cases = Some (uf_name f, uf_tag f, b).
Proof.
  revert cases. induction fs as [|g fs IH]; intros cases Hc Hnd Hf; [by apply elem_of_nil in Hf|].
  cbn in Hc. gen_inv. cbn in Hnd. apply NoDup_cons in Hnd as [Hg Hnd]. cbn [List.find fst snd].
  apply elem_of_cons in Hf as [->|Hf]; [rewrite Z.eqb_refl; eauto|]. rewrite (proj2 (Z.eqb_neq _ _)); [by apply IH|].
  intros Heq. apply Hg. rewrite Heq. by apply (list_elem_of_fmap_2 (λ f, u32 (uf_tag f))).
Qed.

Lemma call_union t u f v o fuel w :
  find_union (p_module p) t = Some u → f ∈ u_fields u → written (uf_type f) v o →
  (length (b_data o) < 8 * fuel)%nat →
  Z.of_nat (length (data w) + length (b_data (sized (size_of o []) (u32 (uf_tag f)) o []))) < 2 ^ 32 →
  call p (S fuel) true (CppEmbedName_type t) false (VUnion (uf_tag f) (uf_name f) v) w =
  inr (spent (VUnion (uf_tag f) (uf_name f) v), put_bits (sized (size_of o []) (u32 (uf_tag f)) o []) w).
Proof using PK.
  intros Hu Hf Ho Hfu Hsm. destruct (pk_union _ _ _ PK t u Hu) as (io & Hc & Hio).
  destruct (EmitUnionIO_inv _ _ _ _ Hio) as (cases & r & other & Hb & _ & _ & ->).
  destruct (write_cases_find _ _ f Hb (pk_tags _ _ _ PK t u Hu) Hf) as (b & u' & Hbody & Hfind).
  cbn [call]. rewrite Hc. cbn [some res_bind io_write orb]. unfold union_writer.
  cbn [open_val]. do 2 (rewrite run_cons; cbn [exec eval_rhs res_bind fst snd]).
  change (value_of p (EVar V_value) _) with (inr (VUnion (uf_tag f) (uf_name f) v) : Result Val).
  cbn [res_bind which open_val]. rewrite run_cons, exec_switch_which. cbn [fst].
  change (value_of p (EVar V_value) _) with (inr (VUnion (uf_tag f) (uf_name f) v) : Result Val).
  cbn [res_bind which open_val]. unfold switch. rewrite Hfind. cbn [snd].
  cbn [sized b_data] in Hsm. rewrite !length_app in Hsm. change (length (le_bytes 4 _)) with 4%nat in Hsm.
  assert (num_bytes w = Z.of_nat (length (data w))) as Hn by (unfold num_bytes; apply u32_small; lia).
  set (w1 := WritePayload _ w).
  set (env := λ v, [(V_header_offset, BVal (VWord 8 (num_bytes w))); (V_value, BVal (VUnion (uf_tag f) (uf_name f) v))]).
  destruct (Ho fuel _ 0 b u' env Hfu Hbody) with (w := w1) as (ex & Hex & Hr).
  { apply (focus_access p 0 (EVar V_value) (λ v, [(V_header_offset, BVal (VWord 8 (num_bytes w))); (V_value, BVal v)])).
    apply (focus_var_below p 0 V_value [(V_header_offset, _)] []); [intros [[]|[|]]; done|set_solver]. }
  { cbn. rewrite !length_app. cbn. lia. }
  rewrite (scope_run _ _ b ex (env v) (env (spent v)) w1 (put_bits o w1)) by done. cbn [res_bind run exec].
  unfold env at 1. cbn [eval_rhs res_bind fst snd]. rewrite word_var_top. cbn [res_bind fst snd].
  assert (num_bytes (put_bits o w1) - num_bytes w = size_of o []) as Hsz.
  { unfold num_bytes. rewrite !u32_small by (cbn; rewrite ?length_app; cbn; lia).
    unfold size_of. cbn. rewrite !length_app. cbn. lia. }
  rewrite Hsz, (u32_small (size_of o [])) by (unfold size_of; cbn; lia).
  rewrite word_var_below, word_var_top by done. cbn [res_bind]. rewrite word_var_top. cbn [res_bind].
  rewrite Hn, (patch_end (data w) (le_bytes 4 0) _ (le_bytes 4 (u32 (uf_tag f)) ++ b_data o)) by (done || by cbn; rewrite <- !app_assoc).
  cbn [res_bind fst snd]. 
  pose proof (object_left V_value [(V_union_size, BVal (VWord 4 (size_of o [])));
    (V_header_offset, BVal (VWord 8 (Z.of_nat (length (data w)))))] (VUnion (uf_tag f) (uf_name f) (spent v))) as Hl.
  cbn [app] in Hl. rewrite Hl by by repeat constructor. cbn [res_bind snd]. do 2 f_equal.
  unfold put_bits, sized, with_data, w1. cbn. by rewrite app_nil_r.
Qed.

(** ** All values *)

Lemma written_scalar t v l :
  nullable t = false → t_kind t = kBool ∨ is_Some (scalar_size (t_kind t)) →
  (∀ w, write_scalar (open_val (p_module p) v) w = inr (WritePayload l w)) → spent v = v →
  written t v (raw l).
Proof.
  intros Hn Hk Hv Hsp fuel e uid b uid' E _ Hb HE. rewrite Hsp.
  destruct t as [k nm el ky nu ns c sz]. cbn in Hn, Hk. subst nu. cbn in Hb.
  destruct k; try (by destruct Hk as [|[]]); injection Hb as <- <-; by apply writes_object.
Qed.

Lemma written_string t s : t_kind t = kString → nullable t = false → Z.of_nat (length s) < 2 ^ 32 →
  written t (VStr s) (raw (le_bytes 4 (Z.of_nat (length s)) ++ s)).
Proof.
  intros Hk Hn Hs fuel e uid b uid' E _ Hb HE. destruct t as [k nm el ky nu ns c sz]. cbn in Hk, Hn. subst.
  cbn in Hb. injection Hb as <- <-. apply writes_one. intros w _. cbn [exec].
  rewrite (focus_value _ _ _ _ _ HE). cbn [res_bind open_val]. do 2 f_equal.
  unfold WriteString, put_bits, WritePayload, with_data. rewrite u32_small by lia. cbn. by rewrite app_nil_r, <- app_assoc.
Qed.

Lemma written_enum t x : t_kind t = kEnumRef → nullable t = false → written t (VWord 4 x) (raw (le_bytes 4 x)).
Proof.
  intros Hk Hn fuel e uid b uid' E _ Hb HE. destruct t as [k nm el ky nu ns c sz]. cbn in Hk, Hn. subst.
  cbn in Hb. injection Hb as <- <-. apply writes_one. intros w _. cbn [exec].
  rewrite (focus_value _ _ _ _ _ HE). cbn [res_bind open_val write_scalar]. by rewrite put_raw.
Qed.

Lemma written_null t : IsHandleBearing (t_kind t) = false → nullable t = true → written t (VOpt None) (raw [0]).
Proof.
  intros Hk Hn fuel e uid b uid' E _ Hb HE.
  destruct (write_nullable _ _ _ _ _ _ Hk Hn Hb) as (b' & _ & ->).
  apply (writes_flag (call p fuel) uid (RHasValue e) b' E (VOpt None) (VOpt None) no_bits false);
    [apply (fo_length _ _ _ _ HE)| |done|done].
  intros w. cbn. by rewrite (focus_value _ _ _ _ _ HE).
Qed.

Lemma written_some t v o : IsHandleBearing (t_kind t) = false → nullable t = true →
  written (non_null t) v o → written t (VOpt (Some v)) (raw [1] +++ o).
Proof.
  intros Hk Hn Hv fuel e uid b uid' E Hf Hb HE.
  destruct (write_nullable _ _ _ _ _ _ Hk Hn Hb) as (b' & Hb' & ->). cbn in Hf.
  apply (writes_flag (call p fuel) uid (RHasValue e) b' E (VOpt (Some v)) (VOpt (Some (spent v))) o true);
    [apply (fo_length _ _ _ _ HE)| | |done].
  { intros w. cbn. rewrite (focus_value _ _ _ _ _ HE). done. }
  intros _. specialize (Hv fuel (EDeref e) (uid + 1) b' uid' (λ v, (V_has uid, BVal (VBool true)) :: E (VOpt (Some v)))).
  apply Hv; [lia|done|]. apply (focus_deref p _ e (λ v, (V_has uid, BVal (VBool true)) :: E v)).
  apply (focus_later _ uid); [lia|]. apply focus_push; [left; cbn; lia|done].
Qed.

Lemma written_link t v o : nullable t = false → ReprLink t v o → written t v o.
Proof.
  intros Hn Hr fuel e uid b uid' E _ Hb HE. pose proof (link_kind _ _ _ Hr) as Hk.
  destruct t as [k nm el ky nu ns c sz]. cbn in Hn, Hk. subst. cbn [EmitWriteValue t_kind nullable] in Hb.
  rewrite Hk in Hb. injection Hb as <- <-. exact (writes_link (call p fuel) uid _ e v o E Hr HE).
Qed.

Lemma init_link t : IsHandleBearing (t_kind t) = true →
  ∃ l, ((∃ n, init t = VPending l n) ∨ init t = VHandle l) ∧ link_valid l = false.
Proof. destruct t as [k nm el ky nu ns c sz]. destruct k; try done; intros _; cbn; eauto. Qed.

Lemma written_link_null t : IsHandleBearing (t_kind t) = true → nullable t = true → written t (init t) (raw [0]).
Proof.
  intros Hk Hn fuel e uid b uid' E _ Hb HE. destruct (init_link t Hk) as (l & Hi & Hl).
  assert (spent (init t) = init t) as ->.
  { destruct t as [k nm el ky nu ns c sz]. by destruct k. }
  apply (writes_link_nullable (call p fuel) t (init t) (init t) no_bits E e uid b uid' false); try done.
  exists l. by destruct Hi as [[n ->] | ->]; eauto.
Qed.

Lemma written_link_some t v o :
  nullable t = true → ReprLink t v o → link_valid (link_of v) = true → written t v (raw [1] +++ o).
Proof.
  intros Hn Hr Hl fuel e uid b uid' E _ Hb HE. pose proof (link_kind _ _ _ Hr) as Hk.
  apply (writes_link_nullable (call p fuel) t v (spent v) o E e uid b uid' true); try done.
  exists (link_of v). by destruct Hr; cbn in *; eauto.
Qed.

(** Elements, and the pairs of a map, under any emitted body. *)
Definition list_written (el : TypeSpec) (l : list Val) (o : Bits) : Prop :=
  ∀ fuel uid b uid' x, (length (b_data o) < 8 * fuel)%nat →
    EmitWriteValue ctx el (EVar x) uid = inr (b, uid') →
    Elems (λ v o, ∀ E, focus p uid (EVar x) E → writes (call p fuel) uid b E v (spent v) o) l o.
Definition pairs_written (k el : TypeSpec) (l : list Val) (o : Bits) : Prop :=
  ∀ fuel uid b1 u1 b2 u2 x, (length (b_data o) < 8 * fuel)%nat →
    EmitWriteValue ctx k (EFirst (EVar x)) uid = inr (b1, u1) →
    EmitWriteValue ctx el (ESecond (EVar x)) u1 = inr (b2, u2) →
    Elems (λ v o, ∀ E, focus p uid (EVar x) E → writes (call p fuel) uid (b1 ++ b2) E v (spent v) o) l o.

Lemma list_written_cons el x l o o' :
  written el x o → list_written el l o' → list_written el (x :: l) (o +++ o').
Proof.
  intros Hx Hl fuel uid b uid' y Hf Hb. cbn in Hf. rewrite length_app in Hf.
  constructor; [|eapply Hl; [lia|done]]. intros E HE. eapply Hx; [lia|done|done].
Qed.

Lemma pairs_written_cons k el x y l o1 o2 o' :
  written k x o1 → spent x = x → written el y o2 → pairs_written k el l o' →
  pairs_written k el (VPair x y :: l) ((o1 +++ o2) +++ o').
Proof.
  intros Hx Hsp Hy Hl fuel uid b1 u1 b2 u2 z Hf Hb1 Hb2. cbn in Hf. rewrite !length_app in Hf.
  constructor; [|eapply Hl; [lia|done|done]]. intros E HE w Hs.
  pose proof (focus_first p uid (EVar z) E y HE) as HE1.
  pose proof (Hx fuel _ uid b1 u1 _ ltac:(lia) Hb1 HE1) as H1. cbn beta in H1. rewrite Hsp in H1.
  apply (writes_two (call p fuel) uid u1 b1 b2 (λ v, E (VPair v y)) (λ v, E (VPair x v)) x x y (spent y));
    [by eapply EmitWriteValue_uid|exact H1|done| |done].
  intros ex Hex. eapply (Hy fuel _ u1 b2 u2 (λ v, ex ++ E (VPair x v))); [lia|done|].
  apply (focus_second p u1 (EVar z) (λ v, ex ++ E v) x).
  apply (focus_later _ uid); [by eapply EmitWriteValue_uid|]. apply focus_pushes; [|done].
  eapply Forall_impl; [done|]. intros c. apply fresh_apart.
Qed.

Lemma written_array t el l o (counted : bool) :
  t_kind t = kArray → nullable t = false → element t = Some el → (fixed_array_size t =? 0) = counted →
  (counted = true → Z.of_nat (length l) < 2 ^ 32) → list_written el l o →
  written t (VArr el l) (if counted then raw (le_bytes 4 (Z.of_nat (length l))) +++ o else o).
Proof.
  intros Hk Hn He Hc Hs Hl fuel e uid b uid' E Hf Hb HE.
  destruct t as [k nm el' ky nu ns c sz]. cbn in Hk, Hn, He, Hc. subst k nu el'. cbn in Hb. gen_inv.
  cbn [spent].
  refine (writes_container (call p fuel) (VArr el) (hole_arr p el) uid e E _ _ (V_e uid) l o (sz =? 0) HE _ _ _ _ Hs _ _);
    [cbn; lia|intros [?|[|]]; [cbn in *; lia|done|done]|done| | |done].
  - intros w. cbn. by rewrite (focus_value _ _ _ _ _ HE).
  - eapply Hl; [|done]. destruct (sz =? 0); cbn in Hf; rewrite ?length_app in Hf; lia.
Qed.

Lemma written_map t k el l o :
  t_kind t = kMap → nullable t = false → key t = Some k → element t = Some el →
  Z.of_nat (length l) < 2 ^ 32 → Forall (λ v, ∃ x y, v = VPair x y) l → pairs_written k el l o →
  written t (VMap l) (raw (le_bytes 4 (Z.of_nat (length l))) +++ o).
Proof.
  intros Hk Hn Hky He Hs Hp Hl fuel e uid b uid' E Hf Hb HE.
  destruct t as [k' nm el' ky nu ns c sz]. cbn in Hk, Hn, He, Hky. subst k' nu el' ky. cbn in Hb. gen_inv.
  cbn [spent].
  refine (writes_container (call p fuel) VMap (hole_map p) uid e E _ _ (V_p uid) l o true HE _ _ _ _ (λ _, Hs) _ _);
    [cbn; lia|intros [?|[|]]; [cbn in *; lia|done|done]|done| | |done].
  - intros w. cbn. by rewrite (focus_value _ _ _ _ _ HE).
  - eapply Hl; [|done|done]. cbn in Hf. rewrite ?length_app in Hf. lia.
Qed.

(** A class: one call deeper. *)
Lemma written_class t v o :
  t_kind t = kStructRef ∨ t_kind t = kUnionRef → nullable t = false → owner_namespace t = [] →
  (∀ fuel w, (length (b_data o) < 8 * fuel)%nat → Z.of_nat (length (data w) + length (b_data o)) < 2 ^ 32 →
    call p fuel true (CppEmbedName_type t) false v w = inr (spent v, put_bits o w)) →
  written t v o.
Proof.
  intros Hk Hn Hns Hc fuel e uid b uid' E Hf Hb HE. apply writes_intro. intros w Hs.
  destruct t as [k nm el ky nu ns c sz]. cbn in Hk, Hn, Hns. subst nu ns.
  assert (b = [SWriteClass [] (CppEmbedName c nm) e]) as ->.
  { destruct Hk as [-> | ->]; cbn in Hb; by injection Hb as <- _. }
  rewrite run_one. cbn [exec]. rewrite bool_decide_true by done.
  rewrite (focus_at _ _ _ _ _ _ HE), Hc by done. done.
Qed.

Lemma ReprPairs_pairs ver k el l o : ReprPairs p ext true ver k el l o → Forall (λ v, ∃ x y, v = VPair x y) l.
Proof. induction 1; constructor; eauto. Qed.

(** What is emitted for a type writes any value of it in the wire format. *)
Lemma written_all :
  (∀ ver t v o, Repr p ext true ver t v o → written t v o) ∧
  (∀ v fl fs o, ReprFields p ext true v fl fs o → Forall (λ f, f_min_version f <= v) fl → fields_written fl fs o) ∧
  (∀ ver el l o, ReprList p ext true ver el l o → list_written el l o) ∧
  (∀ ver k el l o, ReprPairs p ext true ver k el l o → pairs_written k el l o).
Proof using PK.
  apply (Repr_all p ext true (λ ver t v o _, written t v o)
    (λ v fl fs o _, Forall (λ f, f_min_version f <= v) fl → fields_written fl fs o)
    (λ ver el l o _, list_written el l o) (λ ver k el l o _, pairs_written k el l o)).
  - intros ? t b Hk Hn. apply written_scalar; auto.
  - intros ? t n x Hk Hn Hx. apply written_scalar; [done|right; by rewrite Hk|done|done].
  - intros ? t s Hk Hn Hs. by apply written_string.
  - intros ? t x Hk Hn Hx _. by apply written_enum.
  - intros ? t Hk Hn. by apply written_null.
  - intros ? t v o Hk Hn _ Hv. by apply written_some.
  - intros ? t v o Hn Hl. by apply written_link.
  - intros ? t Hk Hn. by apply written_link_null.
  - intros ? t v o Hn Hr Hl. by apply written_link_some.
  - intros ? t el l o Hk Hn He H0 Hs _ Hl.
    apply (written_array t el l o true Hk Hn He); [by rewrite H0|done|done].
  - intros ? t el l o Hk Hn He Hs Hne _ Hl. apply (written_array t el l o false Hk Hn He); [|done|done].
    rewrite Hs. destruct l; [done|]. by apply Z.eqb_neq.
  - intros ? t k el l o Hk Hn Hky He Hs _ Hr Hl. apply (written_map t k el l o Hk Hn Hky He Hs); [|done].
    by eapply ReprPairs_pairs.
  - intros ? t s v l fs o tail Hk Hn Hns Hs Hfs Hv ->%wire_order_fields Hr IH Hex Hsz. destruct (Hex eq_refl) as [-> ->].
    destruct (pk_versions _ _ _ PK t s Hs) as [Hver _].
    apply written_class; [by left|done|done|]. intros [|fuel] w Hf Hsm; cbn in Hf; [lia|].
    apply (call_struct t s fs o fuel w Hs Hfs); [|rewrite !length_app in Hf; cbn in Hf; lia|done|done].
    apply IH. apply Forall_forall. intros f Hf'%elem_of_wire_fields. rewrite Forall_forall in Hver.
    by apply Hver.
  - intros ? t u f v o tail Hk Hn Hns Hu Hin Hr IH Hex Hsz. rewrite (Hex eq_refl) in *.
    apply written_class; [by right|done|done|]. intros [|fuel] w Hf Hsm; cbn in Hf; [lia|].
    apply (call_union t u f v o fuel w Hu Hin IH); [rewrite !length_app in Hf; cbn in Hf; lia|done].
  - done.
  - intros v fs _. apply fields_written_nil.
  - intros v f l fs x o o' Hle Hx _ IHx _ IH Hall. apply Forall_cons in Hall as [_ Hall].
    by eapply fields_written_cons; eauto.
  - intros v f l fs o Hlt _ _ _ Hall. apply Forall_cons in Hall as [Hf _]. lia.
  - intros ? el fuel uid b uid' x _ _. constructor.
  - intros ? el x l o o' _ IHx _ IH. by apply list_written_cons.
  - intros ? k el fuel uid b1 u1 b2 u2 x _ _ _. constructor.
  - intros ? k el x y l o1 o2 o' _ IHx Hsp _ IHy _ IH. by apply pairs_written_cons.
Qed.

(** The writer of a class. *)
Lemma write_class_spec ver t v o fuel w :
  Repr p ext true ver t v o → t_kind t = kStructRef ∨ t_kind t = kUnionRef → nullable t = false →
  (length (b_data o) < 8 * fuel)%nat → Z.of_nat (length (data w) + length (b_data o)) < 2 ^ 32 →
  write_class p fuel (CppEmbedName_type t) v w = inr (spent v, put_bits o w).
Proof using PK.
  intros Hr Hk Hn Hf Hs. destruct written_all as (Hw & _). specialize (Hw ver t v o Hr).
  destruct (Hw fuel (EVar V_value) 0 [SWriteClass (NamespacePrefix (owner_namespace t)) (CppEmbedName_type t) (EVar V_value)]
    0 (λ v, [(V_value, BVal v)]) Hf) with (w := w) as (ex & _ & Hrun); [| |done|].
  { destruct t as [k nm el ky nu ns c sz]. cbn in Hk, Hn. subst nu. by destruct Hk as [-> | ->]. }
  { apply focus_var. intros [[]|[|]]; done. }
  rewrite run_one in Hrun. cbn [exec] in Hrun. case_bool_decide; [|done].
  unfold at_expr, at_place in Hrun. cbn in Hrun. rewrite !decide_True in Hrun by done. cbn in Hrun.
  unfold write_class. destruct (call p fuel true (CppEmbedName_type t) false v w) as [|[v' w']]; [done|].
  cbn in Hrun. destruct ex as [|x ex]; cbn in Hrun; [by injection Hrun as -> ->|].
  injection Hrun as _ He _. by destruct ex.
Qed.
End write.
