(* ===== verification/GenReadProps.v ===== *)
(** * Generated readers accept the wire format

    Running what [EmitReadInto] emits, where the payload goes on with the bytes that
    [Repr] gives a value and the handles with its handles, yields this value and goes
    on behind them. *)
From Stdlib Require Import ZArith Lia.
From stdpp Require Import base list gmap.
From S2P Require Import Prelude Ast TypeIntern Sandbox SandboxProps Codec BindMessageProps GenNames GenCode GenOrderProps GenIO GenSem GenRun GenWire.

(** ** The equations of the emitter *)

Definition version_var (ver : option Z) : option Var := (λ _, V_version) <$> ver.

Lemma read_nullable ext ctx ver t e uid b uid' :
  IsHandleBearing (t_kind t) = false → nullable t = true →
  EmitReadInto ext ctx ver t e uid = inr (b, uid') →
  ∃ vt b', EmitReadInto ext ctx ver (non_null t) (EVar (V_opt uid)) (uid + 1) = inr (b', uid') ∧
    b = [SBlock [SDecl (text "bool") (V_has uid) RFalse; SReadVar (V_has uid);
                 SIfElse (V_has uid)
                   ([SDeclInit vt (non_null t) (V_opt uid)] ++ b' ++ [SAssign e (RMove (V_opt uid))])
                   [SAssign e RNullopt]]].
Proof.
  intros Hk Hn. destruct t as [k nm el ky nu ns c sz]. cbn in Hk, Hn. subst nu.
  cbn [EmitReadInto t_kind nullable]. rewrite Hk. intros Hb.
  apply gen_bind_inr in Hb as (vt & _ & Hb). apply gen_bind_inr in Hb as ([b' u'] & Hb' & [= <- <-]).
  exists vt, b'. split; [|done]. unfold non_null. cbn [EmitReadInto t_kind nullable]. rewrite Hk. exact Hb'.
Qed.

Lemma read_link ext ctx ver t e uid b uid' :
  IsHandleBearing (t_kind t) = true → EmitReadInto ext ctx ver t e uid = inr (b, uid') →
  ∃ r, EmitHandleReadInto t e = inr r ∧
    b = (if nullable t
         then [SBlock [SDecl (text "bool") (V_has uid) RFalse; SReadVar (V_has uid); SIf (V_has uid) r]]
         else r).
Proof.
  intros Hk. destruct t as [k nm el ky nu ns c sz]. cbn in Hk. cbn [EmitReadInto t_kind nullable]. rewrite Hk.
  intros Hb. apply gen_bind_inr in Hb as (r & Hr & Hb). exists r. split; [done|].
  destruct nu; by injection Hb as <- _.
Qed.

Lemma EmitReadInto_uid ext ctx ver : ∀ t e uid b uid',
  EmitReadInto ext ctx ver t e uid = inr (b, uid') → uid <= uid'.
Proof.
  fix IH 1. intros [k nm el ky nu ns c sz] e uid b uid'.
  destruct k, nu; cbn [EmitReadInto t_kind nullable element key IsHandleBearing]; intros Hb;
    try destruct el as [el|]; try destruct ky as [ky|]; try done;
    gen_inv; repeat match goal with
             | E : EmitReadInto _ _ _ _ _ _ = inr (_, _) |- _ => apply IH in E
             end; cbn in *; try done; lia.
Qed.

Section read.
Context `{Platform} {PF : PlatformOk}.
Variables (p : Program) (ext : gmap (list Z) bool) (ctx : gset (list Z)).

(** The version that emitted checks compare with is in the variables. *)
Definition sees (ver : option Z) (E : Val → Env) : Prop :=
  match ver with Some z => ∀ v, word_var V_version (E v) = inr z | None => True end.

Lemma sees_push ver E x b : x ≠ V_version → sees ver E → sees ver (λ v, (x, b) :: E v).
Proof. destruct ver as [z|]; [|done]. intros Hx HE v. by rewrite word_var_below. Qed.

Lemma sees_pushes ver E ex : Forall (λ x, x.1 ≠ V_version) ex → sees ver E → sees ver (λ v, ex ++ E v).
Proof. destruct ver as [z|]; [|done]. intros Hx HE v. rewrite word_var_skip; [done|]. by eapply Forall_impl. Qed.

(** The object before: as its declaration left it. *)
Definition ready (t : TypeSpec) (v : Val) : Prop :=
  v = init t ∨ plain_kind (t_kind t) = true ∧ ∃ d, has_value d = true ∧ v = VInit t d.

Section reads.
Variable cl : bool → list Z → bool → Val → Wire → Result (Val * Wire).
#[local] Abbreviation run := (run p cl).

(** The statements [b] read [o] and turn [v] into [v'], with variables of [P] left. *)
Definition reads (P : Var → Prop) (b : list Stmt) (E : Val → Env) (v v' : Val) (o : Bits) : Prop :=
  ∀ w, ahead o w → ∃ ex, Forall (λ x, P x.1) ex ∧ run b (E v, w) = inr (ex ++ E v', got o w).

Lemma reads_weaken (P Q : Var → Prop) b E v v' o : (∀ x, P x → Q x) → reads P b E v v' o → reads Q b E v v' o.
Proof.
  intros HPQ Hr w Hw. destruct (Hr w Hw) as (ex & Hex & Hx). exists ex. split; [|done].
  eapply Forall_impl; [exact Hex|]. intros x. apply HPQ.
Qed.

Lemma reads_one P s E v v' o :
  (∀ w, ahead o w → exec p cl s (E v, w) = inr (E v', got o w)) → reads P [s] E v v' o.
Proof. intros Hs w Hw. exists []. split; [done|]. rewrite run_one. by apply Hs. Qed.

Lemma reads_nil P E v : reads P [] E v v no_bits.
Proof. intros w Hw. exists []. split; [done|]. by rewrite got_none. Qed.

Lemma reads_block (P Q : Var → Prop) b E v v' o :
  (∀ a b, length (E a) = length (E b)) → reads Q b E v v' o → reads P [SBlock b] E v v' o.
Proof.
  intros Hl Hr. apply reads_one. intros w Hw. destruct (Hr w Hw) as (ex & _ & Hx).
  rewrite exec_block. by rewrite (scope_run _ _ _ ex _ (E v') w (got o w)).
Qed.

(** A variable declared first. *)
Lemma reads_decl (P : Var → Prop) s x y b E v v' v'' o :
  P x → (∀ w, exec p cl s (E v, w) = inr ((x, y) :: E v', w)) →
  reads P b (λ v, (x, y) :: E v) v' v'' o → reads P (s :: b) E v v'' o.
Proof.
  intros Hx Hs Hr w Hw. rewrite run_cons, Hs. cbn [res_bind].
  destruct (Hr w Hw) as (ex & Hex & Hrun). exists (ex ++ [(x, y)]). split.
  - apply Forall_app. by repeat constructor.
  - etransitivity; [exact Hrun|]. by rewrite <- app_assoc.
Qed.

(** A statement that takes the first part. *)
Lemma reads_step P s b E v v' v'' o o' :
  (∀ w, ahead o w → exec p cl s (E v, w) = inr (E v', got o w)) →
  reads P b E v' v'' o' → reads P (s :: b) E v v'' (o +++ o').
Proof.
  intros Hs Hr w Hw. destruct (ahead_app _ _ _ Hw) as (H1 & H2 & ->).
  rewrite run_cons, Hs by done. cbn [res_bind]. by apply Hr.
Qed.

(** A statement that takes nothing. *)
Lemma reads_skip P s b E v v' v'' o :
  (∀ w, exec p cl s (E v, w) = inr (E v', w)) → reads P b E v' v'' o → reads P (s :: b) E v v'' o.
Proof. intros Hs Hr w Hw. rewrite run_cons, Hs. cbn [res_bind]. by apply Hr. Qed.

(** Two parts, one after the other, whatever the first leaves. *)
Lemma reads_app (P Q : Var → Prop) b b' E1 E2 v1 v1' v2 v2' o o' :
  reads P b E1 v1 v1' o → E1 v1' = E2 v2 →
  (∀ ex, Forall (λ x, P x.1) ex → reads Q b' (λ v, ex ++ E2 v) v2 v2' o') →
  ∀ w, ahead (o +++ o') w →
    ∃ ex, Forall (λ x, P x.1 ∨ Q x.1) ex ∧ run (b ++ b') (E1 v1, w) = inr (ex ++ E2 v2', got (o +++ o') w).
Proof.
  intros H1 HE H2 w Hw. destruct (ahead_app _ _ _ Hw) as (Ha & Hb & ->).
  destruct (H1 w Ha) as (ex & Hex & Hr). rewrite run_app, Hr. cbn [res_bind].
  destruct (H2 ex Hex _ Hb) as (ex' & Hex' & Hr'). rewrite HE. exists (ex' ++ ex). split.
  - apply Forall_app. split; (eapply Forall_impl; [eassumption|]); intros x; tauto.
  - etransitivity; [exact Hr'|]. by rewrite <- app_assoc.
Qed.

(** ** Words and flags *)

Lemma exec_read_var x n z z0 env w :
  ahead (raw (le_bytes n z)) w → 0 <= z < 256 ^ Z.of_nat n →
  exec p cl (SReadVar x) ((x, BVal (VWord n z0)) :: env, w) =
  inr ((x, BVal (VWord n z)) :: env, got (raw (le_bytes n z)) w).
Proof using PF.
  intros Hw Hz. cbn [exec at_var]. rewrite decide_True by done. by rewrite (read_scalar_ahead p _ n z).
Qed.

Lemma reads_word (P : Var → Prop) ty x z b E v v' o :
  P x → 0 <= z < 2 ^ 32 → reads P b (λ v, (x, BVal (VWord 4 z)) :: E v) v v' o →
  reads P (SDecl ty x RZero :: SReadVar x :: b) E v v' (raw (le_bytes 4 z) +++ o).
Proof using PF.
  intros Hx Hz Hr w Hw. destruct (ahead_app _ _ _ Hw) as (H1 & H2 & ->).
  rewrite run_cons. cbn [exec eval_rhs res_bind fst snd]. rewrite run_cons.
  rewrite (exec_read_var x 4 z) by (done || cbn; lia). cbn [res_bind].
  destruct (Hr _ H2) as (ex & Hex & Hrun). exists (ex ++ [(x, BVal (VWord 4 z))]). split.
  - apply Forall_app. by repeat constructor.
  - etransitivity; [exact Hrun|]. by rewrite <- app_assoc.
Qed.

Lemma exec_read_flag x (c : bool) b0 env w :
  ahead (raw [if c then 1 else 0]) w →
  exec p cl (SReadVar x) ((x, BVal (VBool b0)) :: env, w) =
  inr ((x, BVal (VBool c)) :: env, got (raw [if c then 1 else 0]) w).
Proof using PF.
  intros Hw. cbn [exec at_var]. rewrite decide_True by done. unfold read_scalar. cbn [scalar_shape open_val res_bind].
  by rewrite (ReadBool_ahead c).
Qed.

(** A flag and what follows it. *)
Lemma reads_flag P uid s b E v v' o (c : bool) :
  (∀ a b, length (E a) = length (E b)) →
  (∀ st, exec p cl s st = let* f := bool_var (V_has uid) st.1 in if f then scope p cl (b true) st else scope p cl (b false) st) →
  reads (λ _, True) (b c) (λ v, (V_has uid, BVal (VBool c)) :: E v) v v' o →
  reads P [SBlock [SDecl (text "bool") (V_has uid) RFalse; SReadVar (V_has uid); s]] E v v'
    (raw [if c then 1 else 0] +++ o).
Proof using PF.
  intros Hl Hs Hr. apply (reads_block _ (λ _, True)); [done|]. intros w Hw.
  destruct (ahead_app _ _ _ Hw) as (H1 & H2 & ->).
  rewrite run_cons. cbn [exec eval_rhs res_bind fst snd]. rewrite run_cons, (exec_read_flag (V_has uid) c) by done. cbn [res_bind].
  rewrite run_one, Hs. cbn [fst]. rewrite bool_var_top. cbn [res_bind].
  destruct (Hr _ H2) as (ex & _ & Hrun). exists [(V_has uid, BVal (VBool c))]. split; [by repeat constructor|].
  assert (scope p cl (b c) ((V_has uid, BVal (VBool c)) :: E v, got (raw [if c then 1 else 0]) w) =
          inr ((V_has uid, BVal (VBool c)) :: E v', got o (got (raw [if c then 1 else 0]) w))) as Hsc.
  { apply (scope_run p cl _ ex); [exact Hrun|]. cbn. by rewrite (Hl v' v). }
  by destruct c; rewrite Hsc.
Qed.

(** ** Handles and interfaces *)

Lemma take_handle_ahead h w :
  ahead (mkBits [] [h] []) w → take_handle w = inr (h, got (mkBits [] [h] []) w).
Proof.
  intros [_ [hs Hh] _ _ _]. cbn in Hh. unfold take_handle.
  assert (handles w !! handle_idx w = Some h) as Hl.
  { rewrite <- (Nat.add_0_r (handle_idx w)), <- lookup_drop, Hh. done. }
  rewrite Hl. unfold got. cbn. by rewrite (taken_one _ _ _ Hl), Z.add_0_r, app_nil_r, Nat.add_1_r.
Qed.

Lemma create_endpoint_got iid w : create_endpoint iid w = (Endpoint true iid, got (mkBits [] [] [iid]) w).
Proof. unfold create_endpoint, got, taken. cbn. by rewrite !Nat.add_0_r, Z.add_0_r, take_drop. Qed.

Lemma exec_assign uid e E r new v w w' :
  focus p uid e E → eval_rhs p r (E v, w) = inr (new, (E v, w')) →
  exec p cl (SAssign e r) (E v, w) = inr (E (assign new v), w').
Proof.
  intros HE Hr. cbn [exec]. rewrite Hr. cbn [res_bind fst snd]. by rewrite (focus_set _ _ _ _ _ _ HE).
Qed.

Lemma assign_plain new v : is_optional v = false → assign new v = new.
Proof. intros Hv. destruct new; cbn; by rewrite ?Hv. Qed.

Lemma link_kind_focus uid x : x = V_iid ∨ x = V_version → apart uid x.
Proof. intros [-> | ->]; right; auto. Qed.

Lemma reads_link P uid t v o e E r v0 :
  ReprLink t v o → focus p uid e E → EmitHandleReadInto t e = inr r → is_optional v0 = false →
  reads P r E v0 v o.
Proof using PF.
  intros Hl HE Hr Hv0. unfold EmitHandleReadInto in Hr.
  destruct Hl as [h n Hk Hn|h Hk|iid n Hk Hi Hn|iid Hk Hi|h Hk].
  - rewrite Hk in Hr. injection Hr as <-. apply (reads_block _ (λ _, True)); [apply (fo_length _ _ _ _ HE)|].
    apply (reads_word _ _ V_version n _ _ _ _ (mkBits [] [h] [])); [done|lia|]. apply reads_one. intros w Hw.
    rewrite (exec_assign uid e (λ v, (V_version, BVal (VWord 4 n)) :: E v) _ (VPending (Pipe h) (Some n)) _ _ (got (mkBits [] [h] []) w)).
    + by rewrite assign_plain.
    + apply focus_push; [by apply link_kind_focus; right|done].
    + cbn [eval_rhs]. rewrite word_var_top. cbn [res_bind]. by rewrite (take_handle_ahead h).
  - rewrite Hk in Hr. injection Hr as <-. apply reads_one. intros w Hw.
    rewrite (exec_assign uid e E _ (VPending (Pipe h) None) _ _ (got (mkBits [] [h] []) w)); [by rewrite assign_plain|done|].
    cbn [eval_rhs]. by rewrite (take_handle_ahead h).
  - rewrite Hk in Hr. injection Hr as <-. apply (reads_block _ (λ _, True)); [apply (fo_length _ _ _ _ HE)|].
    change (mkBits _ [] [iid]) with (raw (le_bytes 4 iid) +++ raw (le_bytes 4 n) +++ mkBits [] [] [iid]).
    intros w Hw. destruct (ahead_app _ _ _ Hw) as (H1 & H2 & ->). destruct (ahead_app _ _ _ H2) as (H3 & H4 & ->).
    exists [(V_version, BVal (VWord 4 n)); (V_iid, BVal (VWord 4 iid))]. split; [by repeat constructor|].
    do 2 (rewrite run_cons; cbn [exec eval_rhs res_bind fst snd]). rewrite run_cons.
    assert (∀ x env, exec p cl (SReadVar V_iid) ((V_version, x) :: (V_iid, BVal (VWord 4 0)) :: env, w) =
      inr ((V_version, x) :: (V_iid, BVal (VWord 4 iid)) :: env, got (raw (le_bytes 4 iid)) w)) as ->.
    { intros x env. cbn [exec at_var]. rewrite decide_False, decide_True by done.
      by rewrite (read_scalar_ahead p _ 4 iid) by (done || cbn; lia). }
    cbn [res_bind]. rewrite run_cons, (exec_read_var V_version 4 n) by (done || cbn; lia). cbn [res_bind].
    rewrite run_one.
    rewrite (exec_assign uid e (λ v, (V_version, BVal (VWord 4 n)) :: (V_iid, BVal (VWord 4 iid)) :: E v) _
      (VPending (Endpoint true iid) (Some n)) _ _ (got (mkBits [] [] [iid]) (got (raw (le_bytes 4 n)) (got (raw (le_bytes 4 iid)) w)))).
    + by rewrite assign_plain.
    + apply (focus_push p uid e (λ v, (V_iid, BVal (VWord 4 iid)) :: E v)); [by apply link_kind_focus; right|].
      apply focus_push; [by apply link_kind_focus; left|done].
    + cbn [eval_rhs]. rewrite word_var_below, !word_var_top by done. cbn [res_bind]. by rewrite create_endpoint_got.
  - rewrite Hk in Hr. injection Hr as <-. apply (reads_block _ (λ _, True)); [apply (fo_length _ _ _ _ HE)|].
    apply (reads_word _ _ V_iid iid _ _ _ _ (mkBits [] [] [iid])); [done|lia|]. apply reads_one. intros w Hw.
    rewrite (exec_assign uid e (λ v, (V_iid, BVal (VWord 4 iid)) :: E v) _ (VPending (Endpoint true iid) None) _ _ (got (mkBits [] [] [iid]) w)).
    + by rewrite assign_plain.
    + apply focus_push; [by apply link_kind_focus; left|done].
    + cbn [eval_rhs]. rewrite word_var_top. cbn [res_bind]. by rewrite create_endpoint_got.
  - assert (∃ a b, r = [SAssign e (RTakeHandle a b)]) as (a & b & ->).
    { destruct (t_kind t); try (by exfalso; set_solver); cbn in Hr; injection Hr as <-; eauto. }
    apply reads_one. intros w Hw.
    rewrite (exec_assign uid e E _ (VHandle (Pipe h)) _ _ (got (mkBits [] [h] []) w)); [by rewrite assign_plain|done|].
    cbn [eval_rhs]. by rewrite (take_handle_ahead h).
Qed.
End reads.

(** ** One value *)

(** What running the emitted code of [t] does, with calls [fuel] deep. *)
Definition read_back (ver : option Z) (t : TypeSpec) (v : Val) (o : Bits) : Prop :=
  ∀ fuel e uid b uid' E v0, (length (b_data o) < 8 * fuel)%nat →
    EmitReadInto ext ctx (version_var ver) t e uid = inr (b, uid') →
    focus p uid e E → sees ver E → ready t v0 → reads (call p fuel) (fresh uid) b E v0 v o.

Lemma ready_not_optional t v : nullable t = false ∨ IsHandleBearing (t_kind t) = true → ready t v → is_optional v = false.
Proof.
  destruct t as [k nm el ky nu ns c sz]. cbn [nullable t_kind]. intros Hn [->|(_ & d & _ & ->)].
  - destruct k, Hn as [Hn|Hn]; try done; cbn in Hn; try subst nu; cbn; try done; by destruct el.
  - cbn. by destruct Hn as [-> | ->]; [|rewrite andb_false_r].
Qed.

Lemma ready_optional t v : IsHandleBearing (t_kind t) = false → nullable t = true → ready t v → is_optional v = true.
Proof.
  destruct t as [k nm el ky nu ns c sz]. cbn [nullable t_kind]. intros Hk Hn [->|(_ & d & _ & ->)]; subst nu.
  - by destruct k.
  - cbn. by rewrite Hk.
Qed.

Lemma ready_shape t v :
  nullable t = false → ready t v →
  (t_kind t = kBool → scalar_shape (p_module p) v = inr None) ∧
  (∀ n, scalar_size (t_kind t) = Some n → scalar_shape (p_module p) v = inr (Some n)).
Proof.
  destruct t as [k nm el ky nu ns c sz]. cbn [nullable t_kind]. intros -> [->|(_ & d & Hd & ->)].
  - by split; [intros ->|intros n; destruct k; cbn; try done; intros [= <-]].
  - unfold scalar_shape. cbn [open_val t_kind]. rewrite Hd. cbn [nullable].
    split; [by intros -> |]. intros n Hn. cbn [t_kind]. destruct k; try done; by rewrite Hn.
Qed.

Lemma exec_read_scalar cl uid e E v0 v w w' :
  focus p uid e E → read_scalar p v0 w = inr (v, w') → exec p cl (SReadScalar e) (E v0, w) = inr (E v, w').
Proof. intros HE Hr. cbn [exec]. by rewrite (focus_at _ _ _ _ _ _ HE), Hr. Qed.

Lemma read_back_scalar ver t v l :
  nullable t = false → t_kind t = kBool ∨ is_Some (scalar_size (t_kind t)) →
  (∀ v0 w, ready t v0 → ahead (raw l) w → read_scalar p v0 w = inr (v, got (raw l) w)) →
  read_back ver t v (raw l).
Proof.
  intros Hn Hk Hv fuel e uid b uid' E v0 _ Hb HE _ Hr.
  assert (b = [SReadScalar e]) as ->.
  { destruct t as [k nm el ky nu ns c sz]. cbn in Hn, Hk. subst nu. cbn in Hb.
    destruct k; try (by destruct Hk as [|[]]); by injection Hb as <- <-. }
  apply reads_one. intros w Hw. by apply (exec_read_scalar _ uid), Hv.
Qed.

Lemma read_back_bool ver t (b : bool) : t_kind t = kBool → nullable t = false →
  read_back ver t (VBool b) (raw [if b then 1 else 0]).
Proof using PF.
  intros Hk Hn. apply read_back_scalar; [done|by left|]. intros v0 w Hr Hw. unfold read_scalar.
  destruct (ready_shape t v0 Hn Hr) as [-> _]; [|done]. cbn [res_bind]. by rewrite (ReadBool_ahead b).
Qed.

Lemma read_back_word ver t n x : scalar_size (t_kind t) = Some n → nullable t = false →
  0 <= x < 256 ^ Z.of_nat n → read_back ver t (VWord n x) (raw (le_bytes n x)).
Proof using PF.
  intros Hk Hn Hx. apply read_back_scalar; [done|right; by rewrite Hk|]. intros v0 w Hr Hw.
  apply read_scalar_ahead; [|done|done]. by apply (ready_shape t v0 Hn Hr).
Qed.

Lemma read_back_string ver t s : t_kind t = kString → nullable t = false → Z.of_nat (length s) < 2 ^ 32 →
  read_back ver t (VStr s) (raw (le_bytes 4 (Z.of_nat (length s)) ++ s)).
Proof using PF.
  intros Hk Hn Hs fuel e uid b uid' E v0 _ Hb HE _ _. destruct t as [k nm el ky nu ns c sz]. cbn in Hk, Hn. subst.
  cbn in Hb. injection Hb as <- <-. apply reads_one. intros w Hw. cbn [exec].
  rewrite (focus_at _ _ _ _ _ _ HE). by rewrite (ReadString_ahead s).
Qed.

Lemma exec_check_known cl ver t x z env w :
  enum_accepts p ext ver t z → IsEnumExtensible ext (t_name t) = false →
  word_var x env = inr z → match ver with Some v => word_var V_version env = inr v | None => True end →
  exec p cl (SCheckKnown (NamespacePrefix (owner_namespace t)) (ContainerMangle (owner_container t) ++ t_name t) x
    (version_var ver)) (env, w) = inr (env, w).
Proof.
  intros [He|(Hns & io & Hio & Hk)] Hne Hx Hv; [by rewrite He in Hne|]. cbn [exec].
  rewrite bool_decide_true by by rewrite Hns. rewrite Hio. cbn [some res_bind]. rewrite Hx. cbn [res_bind].
  destruct ver as [v|]; cbn; [rewrite Hv; cbn|]; by rewrite Hk.
Qed.

Lemma read_back_enum ver t x : t_kind t = kEnumRef → nullable t = false → 0 <= x < 2 ^ 32 →
  enum_accepts p ext ver t x → read_back ver t (VWord 4 x) (raw (le_bytes 4 x)).
Proof using PF.
  intros Hk Hn Hx Ha fuel e uid b uid' E v0 _ Hb HE Hsees Hr.
  pose proof (ready_not_optional t v0 (or_introl Hn) Hr) as Hopt.
  destruct t as [k nm el ky nu ns c sz]. cbn in Hk, Hn. subst k nu. cbn in Hb. injection Hb as <- <-.
  rewrite <- (bits_app_nil (raw (le_bytes 4 x))).
  apply reads_word; [cbn; lia|lia|].
  assert (reads (call p fuel) (fresh uid) [SAssign e (RCast (qualified (mkTypeSpec kEnumRef nm el ky false ns c sz)) (V_v uid))]
    (λ v, (V_v uid, BVal (VWord 4 x)) :: E v) v0 (VWord 4 x) no_bits) as Hlast.
  { apply reads_one. intros w Hw. rewrite got_none by done.
    rewrite (exec_assign _ uid e (λ v, (V_v uid, BVal (VWord 4 x)) :: E v) _ (VWord 4 x) _ _ w).
    - by rewrite assign_plain.
    - apply focus_push; [apply fresh_apart; cbn; lia|done].
    - cbn [eval_rhs]. by rewrite word_var_top. }
  destruct (IsEnumExtensible ext nm) eqn:He; [exact Hlast|]. cbn [app].
  eapply reads_skip; [|exact Hlast]. intros w.
  apply (exec_check_known _ ver (mkTypeSpec kEnumRef nm el ky false ns c sz) (V_v uid) x); try done.
  - by rewrite word_var_top.
  - destruct ver as [z|]; [|done]. by rewrite word_var_below by done.
Qed.

Lemma read_back_null ver t : IsHandleBearing (t_kind t) = false → nullable t = true →
  read_back ver t (VOpt None) (raw [0]).
Proof using PF.
  intros Hk Hn fuel e uid b uid' E v0 _ Hb HE _ Hr.
  destruct (read_nullable _ _ _ _ _ _ _ _ Hk Hn Hb) as (vt & b' & _ & ->).
  rewrite <- (bits_app_nil (raw [0])).
  refine (reads_flag _ _ uid _ (λ c : bool, if c then _ else _) E v0 _ no_bits false (fo_length _ _ _ _ HE) (exec_if_else _ _ _ _ _) _).
  apply reads_one. intros w Hw. rewrite got_none by done.
  rewrite (exec_assign _ uid e (λ v, (V_has uid, BVal (VBool false)) :: E v) _ (VOpt None) _ _ w);
    [done|apply focus_push; [apply fresh_apart; cbn; lia|done]|done].
Qed.

Lemma fresh_ne uid x ex : ¬ fresh uid x → Forall (λ b : Var * Binding, fresh uid b.1) ex → Forall (λ b : Var * Binding, x ≠ b.1) ex.
Proof. intros Hx Hex. eapply Forall_impl; [exact Hex|]. intros b Hb. cbn in Hb. by intros ->. Qed.

Lemma eval_move x v ex env w :
  Forall (λ b : Var * Binding, x ≠ b.1) ex →
  eval_rhs p (RMove x) (ex ++ (x, BVal v) :: env, w) = inr (v, (ex ++ (x, BVal v) :: env, w)).
Proof. intros Hex. cbn [eval_rhs]. by rewrite lookup_skip, lookup_top. Qed.

Lemma forall_fresh_apart uid ex : Forall (λ b : Var * Binding, fresh uid b.1) ex → Forall (λ b : Var * Binding, apart uid b.1) ex.
Proof. intros Hex. eapply Forall_impl; [exact Hex|]. intros b. apply fresh_apart. Qed.
Lemma forall_fresh_later uid uid' ex : uid <= uid' →
  Forall (λ b : Var * Binding, fresh uid' b.1) ex → Forall (λ b : Var * Binding, fresh uid b.1) ex.
Proof. intros Hle Hex. eapply Forall_impl; [exact Hex|]. intros b. by apply fresh_later. Qed.
Lemma forall_not_version uid ex : Forall (λ b : Var * Binding, fresh uid b.1) ex → Forall (λ b : Var * Binding, b.1 ≠ V_version) ex.
Proof. intros Hex. eapply Forall_impl; [exact Hex|]. intros b. cbn. by intros Hb Hv; rewrite Hv in Hb. Qed.

Lemma read_back_some ver t v o : IsHandleBearing (t_kind t) = false → nullable t = true →
  (∀ o', v ≠ VOpt o') → read_back ver (non_null t) v o → read_back ver t (VOpt (Some v)) (raw [1] +++ o).
Proof using PF.
  intros Hk Hn Hv Hrb fuel e uid b uid' E v0 Hf Hb HE Hsees Hr. cbn in Hf.
  destruct (read_nullable _ _ _ _ _ _ _ _ Hk Hn Hb) as (vt & b' & Hb' & ->).
  refine (reads_flag _ _ uid _ (λ c : bool, if c then _ else _) E v0 _ o true (fo_length _ _ _ _ HE) (exec_if_else _ _ _ _ _) _).
  set (h := (V_has uid, BVal (VBool true))).
  intros w Hw. cbn [app]. rewrite run_cons. cbn [exec res_bind].
  destruct (Hrb fuel (EVar (V_opt uid)) (uid + 1) b' uid' (λ v, (V_opt uid, BVal v) :: h :: E v0) (init (non_null t))
    ltac:(lia) Hb') with (w := w) as (ex & Hex & Hrun); [| |by left|done|].
  { apply focus_var. intros [?|[|]]; [cbn in *; lia|done|done]. }
  { destruct ver as [z|]; [|done]. intros v1. rewrite !word_var_below by done. apply Hsees. }
  exists (ex ++ [(V_opt uid, BVal v)]). split; [by apply Forall_true|].
  rewrite run_app. etransitivity; [apply (f_equal (λ m, res_bind m _)); exact Hrun|]. cbn [res_bind].
  assert (Forall (λ b : Var * Binding, V_opt uid ≠ b.1) ex) as Hne by (eapply fresh_ne; [|exact Hex]; cbn; lia).
  rewrite run_one, (cons_middle _ ex), app_assoc.
  assert (focus p uid e (λ v', (ex ++ [(V_opt uid, BVal v)]) ++ h :: E v')) as HE'.
  { apply focus_pushes; [|apply focus_push; [apply fresh_apart; cbn; lia|done]].
    apply Forall_app. split; [|repeat constructor; cbn; lia].
    apply forall_fresh_apart. by eapply forall_fresh_later; [|exact Hex]; lia. }
  rewrite (exec_assign _ uid e _ (RMove (V_opt uid)) v v0 (got o w) (got o w) HE').
  - assert (assign v v0 = VOpt (Some v)) as ->; [|done].
    pose proof (ready_optional t v0 Hk Hn Hr) as Ho. destruct v; cbn; rewrite ?Ho; try done. by edestruct Hv.
  - rewrite <- !app_assoc. by apply (eval_move (V_opt uid) v ex (h :: E v0)).
Qed.

Lemma scope_nil cl st : scope p cl [] st = inr st.
Proof. destruct st as [env w]. unfold scope. cbn [run res_bind]. f_equal. by apply (leave_app []). Qed.

Lemma Repr_not_opt exact ver t v o : Repr p ext exact ver t v o → nullable t = false → ∀ o', v ≠ VOpt o'.
Proof.
  intros Hr Hn o' ->. inversion Hr; subst; try congruence;
    try match goal with H : ReprLink _ _ _ |- _ => inversion H end; by destruct (default_field u).
Qed.

Lemma read_back_link ver t v o : nullable t = false → ReprLink t v o → read_back ver t v o.
Proof using PF.
  intros Hn Hl fuel e uid b uid' E v0 _ Hb HE _ Hr. pose proof (link_kind _ _ _ Hl) as Hk.
  destruct (read_link _ _ _ _ _ _ _ _ Hk Hb) as (r & Hr' & ->). rewrite Hn.
  eapply reads_link; [exact Hl|exact HE|done|]. apply (ready_not_optional t); auto.
Qed.

Lemma read_back_link_null ver t : IsHandleBearing (t_kind t) = true → nullable t = true → read_back ver t (init t) (raw [0]).
Proof using PF.
  intros Hk Hn fuel e uid b uid' E v0 _ Hb HE _ Hr.
  destruct (read_link _ _ _ _ _ _ _ _ Hk Hb) as (r & Hr' & ->). rewrite Hn.
  assert (v0 = init t) as ->. { destruct Hr as [->|(Hp & _)]; [done|]. by destruct (t_kind t). }
  rewrite <- (bits_app_nil (raw [0])).
  refine (reads_flag _ _ uid _ (λ c : bool, if c then _ else []) E (init t) _ no_bits false (fo_length _ _ _ _ HE) _ (reads_nil _ _ _ _)).
  intros [env w']. rewrite exec_if. apply res_bind_ext. intros [|]; [done|]. by rewrite scope_nil.
Qed.

Lemma read_back_link_some ver t v o : nullable t = true → ReprLink t v o → read_back ver t v (raw [1] +++ o).
Proof using PF.
  intros Hn Hl fuel e uid b uid' E v0 _ Hb HE _ Hr. pose proof (link_kind _ _ _ Hl) as Hk.
  destruct (read_link _ _ _ _ _ _ _ _ Hk Hb) as (r & Hr' & ->). rewrite Hn.
  refine (reads_flag _ _ uid _ (λ c : bool, if c then _ else []) E v0 _ o true (fo_length _ _ _ _ HE) _ _).
  - intros [env w']. rewrite exec_if. apply res_bind_ext. intros [|]; [done|]. by rewrite scope_nil.
  - apply (reads_link _ _ uid t v o e); [exact Hl| |done|apply (ready_not_optional t); auto].
    apply focus_push; [apply fresh_apart; cbn; lia|exact HE].
Qed.

(** ** Loops over containers *)

Section loop.
Variables (cl : bool → list Z → bool → Val → Wire → Result (Val * Wire)) (ver : option Z).

(** An array that has its length: its elements in turn. *)
Lemma array_loop uid uid' e E i el b l o :
  focus p uid e E → sees ver E → fresh uid i → ¬ apart uid' i → uid <= uid' →
  Elems (λ x o, ∀ E', focus p uid' (EAt e i) E' → sees ver E' → reads cl (fresh uid') b E' (init el) x o) l o →
  ∀ pre w, ahead o w →
  repeat_from (λ k, turn p cl b i (BVal (VWord 4 (Z.of_nat k)))) (length l) (length pre)
    (E (VArr el (pre ++ replicate (length l) (init el))), w) = inr (E (VArr el (pre ++ l)), got o w).
Proof.
  intros HE Hsees Hi Hi' Hle. induction 1 as [|x l o o' Hx Hl IH]; intros pre w Hw; cbn [repeat_from length replicate].
  { by rewrite got_none. }
  destruct (ahead_app _ _ _ Hw) as (H1 & H2 & ->).
  set (E' := λ v, (i, BVal (VWord 4 (Z.of_nat (length pre)))) :: E (VArr el (pre ++ v :: replicate (length l) (init el)))).
  destruct (Hx E') with (w := w) as (ex & _ & Hr); [|apply sees_push; [by destruct i|]|done|].
  { by apply (focus_elem p uid uid' e E i _ el pre). }
  { destruct ver; [|done]. intros v. apply Hsees. }
  rewrite (turn_run _ _ b i _ ex _ (E (VArr el (pre ++ x :: replicate (length l) (init el)))) w (got o w)
    (BVal (VWord 4 (Z.of_nat (length pre))))) by (done || apply (fo_length _ _ _ _ HE)). cbn [res_bind].
  replace (S (length pre)) with (length (pre ++ [x])) by (rewrite length_app; cbn; lia).
  replace (pre ++ x :: replicate (length l) (init el)) with ((pre ++ [x]) ++ replicate (length l) (init el))
    by by rewrite <- app_assoc.
  rewrite IH by done. by rewrite <- app_assoc.
Qed.

(** An entry of a map is read into two variables and moves into the map. *)
Definition adds_pair (uid : Z) (e : Expr) (b : list Stmt) (pr : Val) (o : Bits) : Prop :=
  ∃ x y, pr = VPair x y ∧ ∀ E' l, focus p uid e E' → sees ver E' → has_key x l = inr false →
    reads cl (λ _, True) b E' (VMap l) (VMap (l ++ [pr])) o.

Lemma map_loop uid e E i b l o :
  focus p uid e E → sees ver E → fresh uid i → Elems (adds_pair uid e b) l o →
  ∀ pre w, ahead o w → keys_ok (pre ++ l) →
  repeat_from (λ k, turn p cl b i (BVal (VWord 4 (Z.of_nat k)))) (length l) (length pre)
    (E (VMap pre), w) = inr (E (VMap (pre ++ l)), got o w).
Proof.
  intros HE Hsees Hi. induction 1 as [|x l o o' (k & y & -> & Hx) Hl IH]; intros pre w Hw Hk; cbn [repeat_from length].
  { by rewrite got_none, app_nil_r. }
  destruct (ahead_app _ _ _ Hw) as (H1 & H2 & ->).
  destruct (Hx (λ v, (i, BVal (VWord 4 (Z.of_nat (length pre)))) :: E v) pre) with (w := w) as (ex & _ & Hr);
    [by apply focus_push; [apply fresh_apart|]|by apply sees_push; [destruct i|]|by apply (Hk pre k y l)|done|].
  rewrite (turn_run _ _ b i _ ex _ (E (VMap (pre ++ [VPair k y]))) w (got o w)
    (BVal (VWord 4 (Z.of_nat (length pre))))) by (done || apply (fo_length _ _ _ _ HE)). cbn [res_bind].
  replace (S (length pre)) with (length (pre ++ [VPair k y])) by (rewrite length_app; cbn; lia).
  rewrite IH; [by rewrite <- app_assoc|done|by rewrite <- app_assoc].
Qed.
End loop.

Lemma pair_body ver fuel uid u1 u2 e k el b1 b2 kt vt x y o1 o2 :
  (length (b_data (o1 +++ o2)) < 8 * fuel)%nat →
  EmitReadInto ext ctx (version_var ver) k (EVar (V_k uid)) (uid + 1) = inr (b1, u1) →
  EmitReadInto ext ctx (version_var ver) el (EVar (V_v uid)) u1 = inr (b2, u2) →
  read_back ver k x o1 → read_back ver el y o2 →
  adds_pair (call p fuel) ver uid e
    (SDeclInit kt k (V_k uid) :: b1 ++ SDeclInit vt el (V_v uid) :: b2 ++ [SEmplace e (V_k uid) (V_v uid)])
    (VPair x y) (o1 +++ o2).
Proof.
  intros Hf Hb1 Hb2 Hx Hy. exists x, y. split; [done|]. intros E l HE Hsees Hk w Hw.
  cbn in Hf. rewrite length_app in Hf. pose proof (EmitReadInto_uid _ _ _ _ _ _ _ _ Hb1) as Hu1.
  destruct (ahead_app _ _ _ Hw) as (H1 & H2 & ->).
  rewrite run_cons. cbn [exec res_bind].
  destruct (Hx fuel _ _ _ _ (λ v, (V_k uid, BVal v) :: E (VMap l)) (init k) ltac:(lia) Hb1) with (w := w)
    as (ex1 & Hex1 & Hr1); [| |by left|done|].
  { apply focus_var. intros [?|[|]]; [cbn in *; lia|done|done]. }
  { destruct ver as [z|]; [|done]. intros v. rewrite word_var_below by done. apply Hsees. }
  destruct (Hy fuel _ _ _ _ (λ v, (V_v uid, BVal v) :: ex1 ++ (V_k uid, BVal x) :: E (VMap l)) (init el) ltac:(lia) Hb2)
    with (w := got o1 w) as (ex2 & Hex2 & Hr2); [| |by left|done|].
  { apply focus_var. intros [?|[|]]; [cbn in *; lia|done|done]. }
  { destruct ver as [z|]; [|done]. intros v. rewrite word_var_below by done.
    rewrite word_var_skip by (eapply fresh_ne; [|exact Hex1]; cbn; lia). rewrite word_var_below by done. apply Hsees. }
  exists ((ex2 ++ (V_v uid, BVal y) :: ex1) ++ [(V_k uid, BVal x)]). split; [by apply Forall_true|].
  rewrite run_app. etransitivity; [apply (f_equal (λ m, res_bind m _)); exact Hr1|]. cbn [res_bind].
  rewrite run_cons. cbn [exec res_bind].
  rewrite run_app. etransitivity; [apply (f_equal (λ m, res_bind m _)); exact Hr2|]. cbn [res_bind].
  rewrite run_one. cbn [exec].
  assert (Forall (λ b : Var * Binding, V_v uid ≠ b.1) ex2) as N1 by (eapply fresh_ne; [|exact Hex2]; cbn; lia).
  assert (Forall (λ b : Var * Binding, V_k uid ≠ b.1) (ex2 ++ (V_v uid, BVal y) :: ex1)) as N2.
  { apply Forall_app. split; [eapply fresh_ne; [|exact Hex2]; cbn; lia|]. constructor; [done|].
    eapply fresh_ne; [|exact Hex1]. cbn. lia. }
  assert (ex2 ++ (V_v uid, BVal y) :: ex1 ++ (V_k uid, BVal x) :: E (VMap l) =
          (ex2 ++ (V_v uid, BVal y) :: ex1) ++ (V_k uid, BVal x) :: E (VMap l)) as Ea by by rewrite <- app_assoc.
  rewrite Ea, (eval_move (V_k uid) x) by done. cbn [res_bind fst snd]. rewrite <- Ea, (eval_move (V_v uid) y) by done.
  cbn [res_bind fst snd]. rewrite Ea, (cons_middle _ (ex2 ++ _)), app_assoc.
  rewrite (focus_set p uid e (λ v, ((ex2 ++ (V_v uid, BVal y) :: ex1) ++ [(V_k uid, BVal x)]) ++ E v)).
  - cbn [emplace]. rewrite Hk. cbn [res_bind]. reflexivity.
  - apply focus_pushes; [|done]. rewrite !Forall_app, Forall_cons, Forall_singleton. split_and!.
    + apply forall_fresh_apart. by apply (forall_fresh_later uid u1 ex2); [lia|].
    + left. cbn. lia.
    + apply forall_fresh_apart. by apply (forall_fresh_later uid (uid + 1) ex1); [lia|].
    + left. cbn. lia.
Qed.

(** Elements, and the pairs of a map, under any emitted body. *)
Definition list_back (ver : option Z) (el : TypeSpec) (l : list Val) (o : Bits) : Prop :=
  ∀ fuel uid b uid' e, (length (b_data o) < 8 * fuel)%nat →
    EmitReadInto ext ctx (version_var ver) el e uid = inr (b, uid') →
    Elems (λ x o, ∀ E, focus p uid e E → sees ver E → reads (call p fuel) (fresh uid) b E (init el) x o) l o.
Definition pairs_back (ver : option Z) (k el : TypeSpec) (l : list Val) (o : Bits) : Prop :=
  ∀ fuel uid b1 u1 b2 u2 e kt vt, (length (b_data o) < 8 * fuel)%nat →
    EmitReadInto ext ctx (version_var ver) k (EVar (V_k uid)) (uid + 1) = inr (b1, u1) →
    EmitReadInto ext ctx (version_var ver) el (EVar (V_v uid)) u1 = inr (b2, u2) →
    Elems (adds_pair (call p fuel) ver uid e
      (SDeclInit kt k (V_k uid) :: b1 ++ SDeclInit vt el (V_v uid) :: b2 ++ [SEmplace e (V_k uid) (V_v uid)])) l o.

Lemma list_back_cons ver el x l o o' :
  read_back ver el x o → list_back ver el l o' → list_back ver el (x :: l) (o +++ o').
Proof.
  intros Hx Hl fuel uid b uid' e Hf Hb. cbn in Hf. rewrite length_app in Hf.
  constructor; [|eapply Hl; [lia|done]]. intros E HE Hs. eapply Hx; [lia|done|done|done|by left].
Qed.

Lemma pairs_back_cons ver k el x y l o1 o2 o' :
  read_back ver k x o1 → read_back ver el y o2 → pairs_back ver k el l o' →
  pairs_back ver k el (VPair x y :: l) ((o1 +++ o2) +++ o').
Proof.
  intros Hx Hy Hl fuel uid b1 u1 b2 u2 e kt vt Hf Hb1 Hb2. cbn [bits_app b_data] in Hf. rewrite !length_app in Hf.
  constructor; [|eapply Hl; [lia|done|done]]. eapply pair_body; try done. cbn [bits_app b_data]. rewrite length_app. lia.
Qed.

Lemma not_plain_ready t v : plain_kind (t_kind t) = false → ready t v → v = init t.
Proof. intros Hp [->|(Hq & _)]; [done|]. by rewrite Hp in Hq. Qed.

(** A count, and what is done with it. *)
Lemma exec_for_count cl i x b env w n :
  word_var x env = inr n →
  exec p cl (SFor i (BVar x) b) (env, w) =
  repeat_from (λ k, turn p cl b i (BVal (VWord 4 (Z.of_nat k)))) (Z.to_nat n) 0 (env, w).
Proof. intros Hx. rewrite exec_for. cbn [fst]. by rewrite Hx. Qed.

Lemma read_back_array ver t el l o :
  t_kind t = kArray → nullable t = false → element t = Some el → fixed_array_size t = 0 →
  Z.of_nat (length l) < 2 ^ 32 → list_back ver el l o →
  read_back ver t (VArr el l) (raw (le_bytes 4 (Z.of_nat (length l))) +++ o).
Proof using PF.
  intros Hk Hn He Hz Hs Hl fuel e uid b uid' E v0 Hf Hb HE Hsees Hr. cbn in Hf. rewrite ?length_app in Hf.
  apply not_plain_ready in Hr as ->; [|by rewrite Hk].
  destruct t as [k nm el' ky nu ns c sz]. cbn in Hk, Hn, He, Hz. subst k nu el' sz.
  cbn [EmitReadInto t_kind nullable element IsHandleBearing fixed_array_size] in Hb. gen_inv.
  change (init (mkTypeSpec kArray nm (Some el) ky false ns c 0)) with (VArr el []).
  apply (reads_block _ _ (λ _, True)); [apply (fo_length _ _ _ _ HE)|].
  set (h := (V_n uid, BVal (VWord 4 (Z.of_nat (length l))))).
  apply reads_word; [done|lia|]. fold h.
  assert (focus p uid e (λ v, h :: E v)) as HE' by (apply focus_push; [left; cbn; lia|done]).
  apply (reads_skip _ _ _ _ _ _ (VArr el (replicate (length l) (init el)))).
  { intros w. cbn [exec]. unfold h at 1. rewrite word_var_top. cbn [res_bind].
    rewrite (focus_set p uid e (λ v, h :: E v)) by done. unfold resize. cbn [open_val res_bind].
    rewrite take_nil, Nat2Z.id, Nat.sub_0_r. done. }
  apply reads_one. intros w Hw. rewrite (exec_for_count _ _ _ _ _ _ (Z.of_nat (length l))) by apply word_var_top.
  rewrite Nat2Z.id.
  apply (array_loop (call p fuel) ver uid (uid + 1) e (λ v, h :: E v) (V_i uid) el _ l o HE') with (pre := []);
    [by apply sees_push|cbn; lia|intros [?|[|]]; [cbn in *; lia|done|done]|lia| |done].
  eapply Hl; [cbn in Hf; lia|done].
Qed.

Lemma read_back_fixed ver t el l o :
  t_kind t = kArray → nullable t = false → element t = Some el → fixed_array_size t = Z.of_nat (length l) →
  l ≠ [] → list_back ver el l o → read_back ver t (VArr el l) o.
Proof.
  intros Hk Hn He Hz Hne Hl fuel e uid b uid' E v0 Hf Hb HE Hsees Hr.
  apply not_plain_ready in Hr as ->; [|by rewrite Hk].
  destruct t as [k nm el' ky nu ns c sz]. cbn in Hk, Hn, He, Hz. subst k nu el'.
  cbn [EmitReadInto t_kind nullable element IsHandleBearing fixed_array_size] in Hb.
  assert ((sz =? 0) = false) as Hsz by (destruct l; [done|]; apply Z.eqb_neq; rewrite Hz; cbn; lia).
  rewrite Hsz in Hb. gen_inv.
  assert (init (mkTypeSpec kArray nm (Some el) ky false ns c (Z.of_nat (length l))) = VArr el (replicate (length l) (init el))) as ->.
  { cbn [init t_kind nullable element fixed_array_size]. by rewrite Nat2Z.id. }
  apply (reads_block _ _ (λ _, True)); [apply (fo_length _ _ _ _ HE)|].
  apply reads_one. intros w Hw. rewrite exec_for. cbn [res_bind]. rewrite Nat2Z.id.
  apply (array_loop (call p fuel) ver uid (uid + 1) e E (V_i uid) el _ l o HE) with (pre := []);
    [done|cbn; lia|intros [?|[|]]; [cbn in *; lia|done|done]|lia| |done].
  by eapply Hl.
Qed.

Lemma read_back_map ver t k el l o :
  t_kind t = kMap → nullable t = false → key t = Some k → element t = Some el →
  Z.of_nat (length l) < 2 ^ 32 → keys_ok l → pairs_back ver k el l o →
  read_back ver t (VMap l) (raw (le_bytes 4 (Z.of_nat (length l))) +++ o).
Proof using PF.
  intros Hk Hn Hky He Hs Hkeys Hl fuel e uid b uid' E v0 Hf Hb HE Hsees Hr. cbn in Hf. rewrite ?length_app in Hf.
  apply not_plain_ready in Hr as ->; [|by rewrite Hk].
  destruct t as [k' nm el' ky nu ns c sz]. cbn in Hk, Hn, He, Hky. subst k' nu el' ky.
  cbn [EmitReadInto t_kind nullable element key IsHandleBearing fixed_array_size] in Hb. gen_inv.
  change (init (mkTypeSpec kMap nm (Some el) (Some k) false ns c sz)) with (VMap []).
  apply (reads_block _ _ (λ _, True)); [apply (fo_length _ _ _ _ HE)|].
  set (h := (V_n uid, BVal (VWord 4 (Z.of_nat (length l))))).
  apply reads_word; [done|lia|]. fold h.
  assert (focus p uid e (λ v, h :: E v)) as HE' by (apply focus_push; [left; cbn; lia|done]).
  apply (reads_skip _ _ _ _ _ _ (VMap [])).
  { intros w. cbn [exec]. by rewrite (focus_set p uid e (λ v, h :: E v)). }
  apply reads_one. intros w Hw. rewrite (exec_for_count _ _ _ _ _ _ (Z.of_nat (length l))) by apply word_var_top.
  rewrite Nat2Z.id.
  eapply (map_loop (call p fuel) ver uid e (λ v, h :: E v) (V_i uid) _ l o HE') with (pre := []);
    [by apply sees_push|cbn; lia| |done|done].
  repeat match goal with a : (list Stmt * Z)%type |- _ => destruct a end.
  eapply Hl; [cbn in Hf; lia|done|done].
Qed.

(** ** The members of a struct *)

Lemma read_fields_uid f fs uid b : read_fields ext ctx (f :: fs) uid = inr b →
  ∃ b1 u b2, EmitReadInto ext ctx (Some V_version) (f_type f) (EArrow (EVar V_out) (f_name f)) uid = inr (b1, u) ∧
    read_fields ext ctx fs u = inr b2 ∧
    b = (if f_min_version f =? 0 then b1 else [SIfVersion (f_min_version f) b1]) ++ b2 ∧ uid <= u.
Proof.
  intros Hb. cbn in Hb. apply gen_bind_inr in Hb as ([b1 u] & H1 & Hb).
  apply gen_bind_inr in Hb as (b2 & H2 & [= <-]). exists b1, u, b2. split_and!; [done|done|done|].
  by eapply EmitReadInto_uid.
Qed.

(** The object with the members of [fl] as [g] says. *)
Definition filled (fl : list StructField) (g h : list Z → Val) : list Z → Val :=
  λ n, if decide (n ∈ map f_name fl) then g n else h n.

Definition fields_back (v : Z) (fl : list StructField) (fs : list (list Z * Val)) (o : Bits) : Prop :=
  ∀ fuel uid b E names h g, (length (b_data o) < 8 * fuel)%nat → read_fields ext ctx fl uid = inr b →
    focus p uid (EVar V_out) E → sees (Some v) E → NoDup names → NoDup (map f_name fl) →
    (∀ f, f ∈ fl → f_name f ∈ names ∧ ready (f_type f) (field_init f) ∧ h (f_name f) = field_init f) →
    (∀ f x, f ∈ fl → (f_name f, x) ∈ fs → g (f_name f) = x) →
    reads (call p fuel) (fresh uid) b E (obj names h) (obj names (filled fl g h)) o.

Lemma fields_back_nil v fs : fields_back v [] fs no_bits.
Proof.
  intros fuel uid b E names h g _ [= <-] _ _ _ _ _ _.
  assert (obj names (filled [] g h) = obj names h) as ->; [|apply reads_nil].
  apply obj_ext. intros n _. unfold filled. by rewrite decide_False by apply not_elem_of_nil.
Qed.

Lemma filled_cons f fl g h n :
  f_name f ∉ map f_name fl → filled (f :: fl) g h n = filled fl g (fupd (f_name f) (g (f_name f)) h) n.
Proof.
  intros Hf. unfold filled, fupd. cbn [map]. destruct (decide (n = f_name f)) as [->|Hne].
  - rewrite decide_True by by left. by rewrite decide_False.
  - destruct (decide (n ∈ map f_name fl)) as [Hi|Hi]; [by rewrite decide_True by (by right)|].
    rewrite decide_False; [done|]. intros [?|?]%elem_of_cons; done.
Qed.

(** A member that the version has, behind its check. *)
Lemma reads_versioned cl P v mv b E v0 x o :
  sees (Some v) E → mv <= v → (∀ a b, length (E a) = length (E b)) → reads cl P b E v0 x o →
  reads cl P (if mv =? 0 then b else [SIfVersion mv b]) E v0 x o.
Proof.
  intros Hs Hv Hl Hr. destruct (mv =? 0); [done|]. apply reads_one. intros w Hw.
  rewrite exec_if_version. cbn [fst]. rewrite Hs. cbn [res_bind]. rewrite (proj2 (Z.leb_le _ _)) by done.
  destruct (Hr w Hw) as (ex & _ & Hx). by rewrite (scope_run _ _ _ ex _ (E x) w (got o w)).
Qed.

Lemma fields_back_present v f l fs x o o' :
  f_min_version f <= v → (f_name f, x) ∈ fs → read_back (Some v) (f_type f) x o → fields_back v l fs o' →
  fields_back v (f :: l) fs (o +++ o').
Proof.
  intros Hv Hx Hrb Hl fuel uid b E names h g Hf Hb HE Hs Hnd Hnd' Hin Hg w Hw.
  destruct (read_fields_uid _ _ _ _ Hb) as (b1 & u & b2 & Hb1 & Hb2 & -> & Hle).
  cbn in Hf. rewrite length_app in Hf. cbn in Hnd'. apply NoDup_cons in Hnd' as [Hn Hnd'].
  destruct (Hin f ltac:(left)) as (Hfn & Hready & Hh).
  pose proof (focus_obj_arrow p uid (EVar V_out) E names h (f_name f) HE Hnd Hfn) as HE1.
  assert (sees (Some v) (λ v', E (obj names (fupd (f_name f) v' h)))) as Hs1 by (intros ?; apply Hs).
  pose proof (Hrb fuel _ uid b1 u _ (field_init f) ltac:(lia) Hb1 HE1 Hs1 Hready) as H1. cbn beta in H1.
  pose proof (Hg f x ltac:(left) Hx) as Hgx. set (h1 := fupd (f_name f) x h).
  assert (obj names h = obj names (fupd (f_name f) (field_init f) h)) as E0.
  { rewrite <- Hh. symmetry. apply obj_fupd. }
  assert (obj names (filled (f :: l) g h) = obj names (filled l g h1)) as ->.
  { apply obj_ext. intros n _. rewrite filled_cons by done. by rewrite Hgx. }
  rewrite E0.
  destruct (reads_app (call p fuel) (fresh uid) (fresh u) _ b2 (λ v', E (obj names (fupd (f_name f) v' h))) E
    (field_init f) x (obj names h1) (obj names (filled l g h1)) o o'
    (reads_versioned _ _ v (f_min_version f) b1 _ _ _ _ Hs1 Hv (λ a b, fo_length _ _ _ _ HE _ _) H1) eq_refl) with (w := w)
    as (ex & Hex & Hr); [|done|].
  - intros ex Hex. apply (Hl fuel u b2 (λ v, ex ++ E v) names h1 g); [lia|done| | |done|done| |].
    + apply (focus_later _ uid); [done|]. apply focus_pushes; [by apply forall_fresh_apart|done].
    + apply (sees_pushes (Some v)); [by eapply forall_not_version|done].
    + intros f' Hf'. destruct (Hin f' ltac:(by right)) as (? & ? & Hh'). split_and!; [done|done|].
      unfold h1, fupd. rewrite decide_False; [done|]. intros Heq. apply Hn. rewrite <- Heq. by apply list_elem_of_fmap_2.
    + intros f' y Hf'. apply Hg. by right.
  - exists ex. split; [|done]. eapply Forall_impl; [exact Hex|]. intros y [?|?]; [done|by eapply fresh_later].
Qed.

Lemma fields_back_absent v f l fs o :
  0 <= v → v < f_min_version f → (f_name f, field_init f) ∈ fs → fields_back v l fs o → fields_back v (f :: l) fs o.
Proof.
  intros H0 Hv Hx Hl fuel uid b E names h g Hf Hb HE Hs Hnd Hnd' Hin Hg.
  destruct (read_fields_uid _ _ _ _ Hb) as (b1 & u & b2 & Hb1 & Hb2 & -> & Hle).
  cbn in Hnd'. apply NoDup_cons in Hnd' as [Hn Hnd']. destruct (Hin f ltac:(left)) as (Hfn & _ & Hh).
  rewrite (proj2 (Z.eqb_neq _ _)) by lia. cbn [app].
  apply (reads_skip _ _ _ _ _ _ (obj names h)).
  { intros w. rewrite exec_if_version. cbn [fst]. rewrite Hs. cbn [res_bind]. by rewrite (proj2 (Z.leb_gt _ _)). }
  assert (obj names (filled (f :: l) g h) = obj names (filled l g h)) as ->.
  { apply obj_ext. intros n _. rewrite filled_cons, (Hg f _ ltac:(left) Hx), <- Hh by done.
    unfold filled, fupd. destruct (decide (n ∈ _)); [done|]. by destruct (decide (n = f_name f)) as [->|]. }
  eapply (reads_weaken _ (fresh u)); [intros x; by apply fresh_later|].
  apply (Hl fuel u b2 E names h g); try done.
  - by apply (focus_later _ uid).
  - intros f' Hf'. apply Hin. by right.
  - intros f' y Hf'. apply Hg. by right.
Qed.

(** ** Functions *)

Context {PK : program_ok p ext ctx}.

Lemma sized_parts size what o tail :
  sized size what o tail = raw (le_bytes 4 size) +++ raw (le_bytes 4 what) +++ o +++ raw tail.
Proof. unfold sized, bits_app. cbn [raw b_data b_handles b_endpoints]. by rewrite !app_nil_l, !app_nil_r. Qed.

Lemma run_unused cl n b st : run p cl (unused_context n ++ b) st = run p cl b st.
Proof. destruct n, st; done. Qed.

(** Where the reader stands after the first two words, and at the end. *)
Lemma sized_end_holds size what o tail w :
  ahead (sized size what o tail) w → size = size_of o tail →
  let w2 := got (raw (le_bytes 4 what)) (got (raw (le_bytes 4 size)) w) in
  ahead (raw (le_bytes 4 size)) w ∧ ahead (raw (le_bytes 4 what)) (got (raw (le_bytes 4 size)) w) ∧ ahead o w2 ∧
  offset w2 = offset w + 8 ∧ num_bytes w2 = Z.of_nat (length (data w)) ∧
  0 <= offset w ∧ offset w + size <= Z.of_nat (length (data w)) < 2 ^ 32 ∧ 8 <= size ∧
  with_offset (offset w + size) (got o w2) = got (sized size what o tail) w.
Proof.
  intros Hw Hsize w2. pose proof (ahead_length _ _ Hw) as Hl. pose proof (ah_offset _ _ Hw) as Ho.
  pose proof (ah_small _ _ Hw) as Hsm. rewrite sized_parts in *.
  destruct (ahead_app _ _ _ Hw) as (H1 & H2 & ->). destruct (ahead_app _ _ _ H2) as (H3 & H4 & ->).
  destruct (ahead_app _ _ _ H4) as (H5 & H6 & ->). fold w2 in H5, H6 |- *. unfold size_of in Hsize.
  assert (offset w2 = offset w + 8) as E2 by (cbn; lia).
  cbn [bits_app raw b_data] in Hl. rewrite !length_app in Hl.
  change (length (le_bytes 4 _)) with 4%nat in Hl. split_and!; try done; try lia.
  - unfold num_bytes. cbn [w2 got data]. by rewrite u32_small by lia.
  - rewrite got_raw by done. unfold with_offset. cbn [got data handles handle_idx offset endpoints].
    f_equal. rewrite E2. lia.
Qed.

Lemma exec_struct_header cl size v n0 v0 env w :
  ahead (raw (le_bytes 4 size)) w → ahead (raw (le_bytes 4 v)) (got (raw (le_bytes 4 size)) w) →
  0 <= size < 2 ^ 32 → 0 <= v < 2 ^ 32 →
  exec p cl SReadStructHeader ((V_version, BVal v0) :: (V_num_bytes, BVal n0) :: env, w) =
  inr ((V_version, BVal (VWord 4 v)) :: (V_num_bytes, BVal (VWord 4 size)) :: env,
       got (raw (le_bytes 4 v)) (got (raw (le_bytes 4 size)) w)).
Proof using PF.
  intros H1 H2 Hs Hv. cbn [exec]. rewrite (ReadScalar_ahead 4 size) by (done || cbn; lia). cbn [res_bind fst snd].
  rewrite set_var_below, set_var_top by done. cbn [res_bind].
  rewrite (ReadScalar_ahead 4 v) by (done || cbn; lia). cbn [res_bind fst snd]. by rewrite set_var_top.
Qed.

Lemma not_fresh_0 x : ¬ fresh 0 x → ∀ ex, Forall (λ b : Var * Binding, fresh 0 b.1) ex → Forall (λ b : Var * Binding, x ≠ b.1) ex.
Proof. intros Hx ex. by apply fresh_ne. Qed.

Lemma ready_field t s f : find_struct (p_module p) t = Some s → f ∈ s_fields s → ready (f_type f) (field_init f).
Proof using PK.
  intros Hs Hf. unfold field_init. destruct (has_value (f_default_value f)) eqn:Hd; [right|by left].
  pose proof (pk_defaults _ _ _ PK t s Hs) as Hp. rewrite Forall_forall in Hp. split; [by apply Hp|]. eauto.
Qed.

Lemma init_class t : t_kind t = kStructRef ∨ t_kind t = kUnionRef → nullable t = false →
  init t = VInit t DefaultValue_init.
Proof. destruct t as [k nm el ky nu ns c sz]. cbn [t_kind nullable]. intros [-> | ->] ->; done. Qed.

Lemma call_read_struct t s v fs o tail fuel w :
  t_kind t = kStructRef → nullable t = false → find_struct (p_module p) t = Some s →
  fs.*1 = map f_name (s_fields s) → 0 <= v < 2 ^ 32 → fields_back v (wire_fields s) fs o →
  (length (b_data o) < 8 * fuel)%nat → size_of o tail < 2 ^ 32 → ahead (sized (size_of o tail) v o tail) w →
  call p (S fuel) false (CppEmbedName_type t) (bool_decide (CppEmbedName_type t ∈ ctx)) (init t) w =
  inr (VObj fs, got (sized (size_of o tail) v o tail) w).
Proof using PF PK.
  intros Hk Hn Hs Hfs Hv Ho Hf Hsz Hw. destruct (pk_struct _ _ _ PK t s Hs) as (io & opt & ns & Hc & Hm & Hio).
  destruct (EmitStructIO_inv _ _ _ _ _ _ Hm Hio) as (b0 & b & _ & Hb & ->).
  cbn [call]. rewrite Hc. cbn [some res_bind io_read io_needs_ctx orb].
  rewrite (find_struct_name _ _ _ Hs), bool_decide_true by done. rewrite init_class by auto.
  cbn [open_val]. change (has_value DefaultValue_init) with false. cbn match. rewrite Hk, Hs.
  pose proof (pk_fields _ _ _ PK t s Hs) as Hnd. rewrite <- Hfs in Hnd. destruct (obj_of fs Hnd) as (g & Eg & Hg).
  assert (NoDup (map (λ f, (f_name f, field_init f)) (s_fields s)).*1) as Hnd0.
  { rewrite <- list_fmap_compose. change (NoDup (map f_name (s_fields s))). by rewrite <- Hfs. }
  destruct (obj_of _ Hnd0) as (h & Eh & Hh). rewrite Eh.
  assert ((map (λ f, (f_name f, field_init f)) (s_fields s)).*1 = fs.*1) as En.
  { rewrite Hfs. rewrite <- list_fmap_compose. done. }
  rewrite En in *.
  destruct (sized_end_holds _ _ _ _ _ Hw eq_refl) as (A1 & A2 & A3 & Hoff & Hnb & H0 & Hend & H8 & Hgot).
  set (w2 := got (raw (le_bytes 4 v)) _) in *. set (size := size_of o tail) in *.
  pose proof word_pow. unfold struct_reader. rewrite run_unused. cbn [app].
  do 2 (rewrite run_cons; cbn [exec eval_rhs res_bind fst snd]).
  rewrite run_cons, (exec_struct_header _ size v) by (done || lia). cbn [res_bind]. fold w2.
  rewrite run_cons. cbn [exec]. rewrite word_var_below, word_var_top by done. cbn [res_bind].
  rewrite (proj2 (Z.ltb_ge _ _)) by lia. cbn [res_bind]. rewrite run_cons. cbn [exec eval_rhs].
  rewrite word_var_below, word_var_top by done. cbn [res_bind fst snd]. rewrite Hoff.
  rewrite (uw_small (offset w + 8 - 8)), uw_small by lia. replace (offset w + 8 - 8 + size) with (offset w + size) by lia.
  rewrite run_cons. cbn [exec]. rewrite word_var_top. cbn [res_bind]. rewrite Hnb, (proj2 (Z.ltb_ge _ _)) by lia.
  cbn [res_bind].
  destruct (Ho fuel 0 b (λ x, [(V_struct_end, BVal (VWord 8 (offset w + size))); (V_version, BVal (VWord 4 v));
      (V_num_bytes, BVal (VWord 4 size)); (V_out, BVal x)]) fs.*1 h g) with (w := w2) as (ex & Hex & Hr);
    [done|done| | |done| | | |done|].
  { apply (focus_var_below p 0 V_out [(V_struct_end, _); (V_version, _); (V_num_bytes, _)] []);
      [intros [[]|[|]]; done|set_solver]. }
  { intros x. rewrite word_var_below by done. apply word_var_top. }
  { by rewrite wire_fields_perm, <- Hfs. }
  { intros f Hi%elem_of_wire_fields. split_and!; [rewrite Hfs; by apply list_elem_of_fmap_2|by eapply ready_field|].
    apply Hh. by apply (list_elem_of_fmap_2 (λ f, (f_name f, field_init f))). }
  { intros f x _ Hx. by apply Hg. }
  rewrite run_app. etransitivity; [apply (f_equal (λ m, res_bind (res_bind m _) _)); exact Hr|].
  cbn [res_bind]. rewrite run_one. cbn [exec].
  rewrite word_var_skip, word_var_top by (apply (not_fresh_0 V_struct_end (λ F, F)); exact Hex). cbn [res_bind fst snd].
  match goal with |- context [at_var V_out _ (ex ++ ?l)] =>
    change l with ([(V_struct_end, BVal (VWord 8 (offset w + size))); (V_version, BVal (VWord 4 v));
      (V_num_bytes, BVal (VWord 4 size))] ++ [(V_out, BVal (obj fs.*1 (filled (wire_fields s) g h)))]) end.
  rewrite app_assoc, object_left.
  - cbn [res_bind snd]. rewrite Hgot, Eg. do 2 f_equal. apply obj_ext. intros n Hin. unfold filled.
    rewrite decide_True; [done|]. by rewrite wire_fields_perm, <- Hfs.
  - apply Forall_app. split; [by apply (not_fresh_0 V_out (λ F, F))|by repeat constructor].
Qed.

Lemma read_cases_find fs cases f :
  read_cases ext ctx fs = inr cases → NoDup (map (λ f, u32 (uf_tag f)) fs) → f ∈ fs →
  ∃ vt b u, EmitReadInto ext ctx None (uf_type f) (EVar V_wvc_v) 0 = inr (b, u) ∧
    List.find (λ c : Case, u32 c.1.2 =? u32 (uf_tag f)) cases =
    Some (uf_name f, uf_tag f,
          [SDeclInit vt (uf_type f) V_wvc_v] ++ b ++ [SSetUnion (uf_name f) (uf_tag f) V_wvc_v]).
Proof.
  revert cases. induction fs as [|g fs IH]; intros cases Hc Hnd Hf; [by apply elem_of_nil in Hf|].
  cbn in Hc. gen_inv. cbn in Hnd. apply NoDup_cons in Hnd as [Hg Hnd]. cbn [List.find fst snd].
  apply elem_of_cons in Hf as [->|Hf]; [rewrite Z.eqb_refl; by repeat eexists|].
  rewrite (proj2 (Z.eqb_neq _ _)); [by apply IH|].
  intros Heq. apply Hg. rewrite Heq. by apply (list_elem_of_fmap_2 (λ f, u32 (uf_tag f))).
Qed.

Lemma read_cases_unknown fs cases tag :
  read_cases ext ctx fs = inr cases → Forall (λ f, u32 (uf_tag f) ≠ tag) fs →
  List.find (λ c : Case, u32 c.1.2 =? tag) cases = None.
Proof.
  revert cases. induction fs as [|g fs IH]; intros cases Hc Hf; cbn in Hc; gen_inv; [done|].
  apply Forall_cons in Hf as [Hg Hf]. cbn [List.find fst snd]. rewrite (proj2 (Z.eqb_neq _ _)) by done. by apply IH.
Qed.

(** The reader of a union, given what its switch does. *)
Lemma call_read_union t u what o tail v fuel w :
  t_kind t = kUnionRef → nullable t = false → find_union (p_module p) t = Some u →
  0 <= what < 2 ^ 32 → size_of o tail < 2 ^ 32 → ahead (sized (size_of o tail) what o tail) w →
  (∀ cases other v0 env w2, read_cases ext ctx (u_fields u) = inr cases → otherwise_of u = inr other → ahead o w2 →
     env = [(V_tag, BVal (VWord 4 what)); (V_union_end, BVal (VWord 8 (offset w + size_of o tail)));
            (V_union_size, BVal (VWord 4 (size_of o tail)))] →
     exec p (call p fuel) (SSwitchTag (CppEmbedName_union u) cases other) (env ++ [(V_out, BVal v0)], w2) =
     inr (env ++ [(V_out, BVal v)], got o w2)) →
  call p (S fuel) false (CppEmbedName_type t) (bool_decide (CppEmbedName_type t ∈ ctx)) (init t) w =
  inr (v, got (sized (size_of o tail) what o tail) w).
Proof using PF PK.
  intros Hk Hn Hu Hwhat Hsz Hw Hsw. destruct (pk_union _ _ _ PK t u Hu) as (io & Hc & Hio).
  destruct (EmitUnionIO_inv _ _ _ _ Hio) as (b0 & cases & other & _ & Hcases & Hother & ->).
  cbn [call]. rewrite Hc. cbn [some res_bind io_read io_needs_ctx orb].
  rewrite (find_union_name _ _ _ Hu), bool_decide_true by done.
  generalize (open_val (p_module p) (init t)). intros v0.
  destruct (sized_end_holds _ _ _ _ _ Hw eq_refl) as (A1 & A2 & A3 & Hoff & Hnb & H0 & Hend & H8 & Hgot).
  set (w2 := got (raw (le_bytes 4 what)) _) in *. set (size := size_of o tail) in *.
  set (w1 := got (raw (le_bytes 4 size)) w) in *.
  assert (offset w1 = offset w + 4) as E1 by (cbn; lia).
  assert (num_bytes w1 = Z.of_nat (length (data w))) as N1 by (unfold num_bytes; cbn [w1 got data]; rewrite u32_small; lia).
  pose proof word_pow. unfold union_reader. rewrite run_unused.
  rewrite run_cons. cbn [exec eval_rhs res_bind fst snd].
  rewrite run_cons. cbn [exec]. rewrite (ReadScalar_ahead 4 size) by (done || cbn; lia). fold w1. cbn [res_bind fst snd].
  rewrite set_var_top. cbn [res_bind].
  rewrite run_cons. cbn [exec]. rewrite word_var_top. cbn [res_bind].
  rewrite (proj2 (Z.ltb_ge _ _)) by lia. cbn [res_bind]. rewrite run_cons. cbn [exec eval_rhs].
  rewrite word_var_top. cbn [res_bind fst snd]. rewrite E1.
  rewrite (uw_small (offset w + 4 - 4)), uw_small by lia. replace (offset w + 4 - 4 + size) with (offset w + size) by lia.
  rewrite run_cons. cbn [exec]. rewrite word_var_top. cbn [res_bind]. rewrite N1, (proj2 (Z.ltb_ge _ _)) by lia.
  cbn [res_bind]. rewrite run_cons. cbn [exec eval_rhs res_bind fst snd].
  rewrite run_cons, (exec_read_var _ V_tag 4 what) by (done || cbn; lia). fold w2. cbn [res_bind].
  set (env := [(V_tag, BVal (VWord 4 what)); (V_union_end, BVal (VWord 8 (offset w + size)));
     (V_union_size, BVal (VWord 4 size))]).
  rewrite run_cons. etransitivity; [apply (f_equal (λ m, res_bind (res_bind m _) _));
    exact (Hsw cases other v0 env w2 Hcases Hother A3 eq_refl)|].
  cbn [res_bind]. rewrite run_one. cbn [exec].
  assert (word_var V_union_end (env ++ [(V_out, BVal v)]) = inr (offset w + size)) as ->.
  { unfold env. cbn [app]. rewrite word_var_below, word_var_top by done. done. }
  cbn [res_bind fst snd]. rewrite (object_left V_out env) by by repeat constructor. cbn [res_bind snd]. by rewrite Hgot.
Qed.

Lemma call_read_known t u f v o tail fuel w :
  t_kind t = kUnionRef → nullable t = false → find_union (p_module p) t = Some u → f ∈ u_fields u →
  read_back None (uf_type f) v o → (length (b_data o) < 8 * fuel)%nat → size_of o tail < 2 ^ 32 →
  ahead (sized (size_of o tail) (u32 (uf_tag f)) o tail) w →
  call p (S fuel) false (CppEmbedName_type t) (bool_decide (CppEmbedName_type t ∈ ctx)) (init t) w =
  inr (VUnion (uf_tag f) (uf_name f) v, got (sized (size_of o tail) (u32 (uf_tag f)) o tail) w).
Proof using PF PK.
  intros Hk Hn Hu Hin Ho Hf Hsz Hw. pose proof (u32_range (uf_tag f)).
  apply (call_read_union t u _ o tail _ fuel w Hk Hn Hu); [lia|done|done|].
  intros cases other v0 env w2 Hc _ Ha Henv.
  destruct (read_cases_find _ _ f Hc (pk_tags _ _ _ PK t u Hu) Hin) as (vt & b & u' & Hb & Hfind).
  rewrite exec_switch_tag. cbn [fst snd].
  assert (word_var V_tag (env ++ [(V_out, BVal v0)]) = inr (u32 (uf_tag f))) as -> by by rewrite Henv.
  cbn [res_bind]. unfold switch. rewrite Hfind. cbn [snd app].
  destruct (Ho fuel _ 0 b u' (λ x, (V_wvc_v, BVal x) :: env ++ [(V_out, BVal v0)]) (init (uf_type f)) Hf Hb) with (w := w2)
    as (ex & Hex & Hr); [| |by left|done|].
  { apply focus_var. intros [[]|[|]]; done. }
  { done. }
  apply (scope_run p _ _ (ex ++ [(V_wvc_v, BVal v)])); [|by rewrite !length_app].
  rewrite run_cons. cbn [exec res_bind]. rewrite run_app.
  etransitivity; [apply (f_equal (λ m, res_bind m _)); exact Hr|]. cbn [res_bind]. rewrite run_one. cbn [exec].
  rewrite (eval_move V_wvc_v v ex) by by apply (not_fresh_0 V_wvc_v (λ F, F)). cbn [res_bind fst snd].
  rewrite set_var_skip by by apply (not_fresh_0 V_out (λ F, F)). rewrite set_var_below by done.
  rewrite set_var_skip by (rewrite Henv; by repeat constructor). rewrite set_var_top. cbn [res_bind].
  by rewrite <- app_assoc.
Qed.

Lemma call_read_unknown t u tag tail fuel w :
  t_kind t = kUnionRef → nullable t = false → find_union (p_module p) t = Some u → u_is_extensible u = true →
  0 <= tag < 2 ^ 32 → Forall (λ f, u32 (uf_tag f) ≠ tag) (u_fields u) → size_of no_bits tail < 2 ^ 32 →
  ahead (sized (size_of no_bits tail) tag no_bits tail) w →
  call p (S fuel) false (CppEmbedName_type t) (bool_decide (CppEmbedName_type t ∈ ctx)) (init t) w =
  inr (match default_field u with
       | Some f => VUnion (uf_tag f) (uf_name f) (init (uf_type f))
       | None => VUnknown
       end, got (sized (size_of no_bits tail) tag no_bits tail) w).
Proof using PF PK.
  intros Hk Hn Hu Hext Htag Hall Hsz Hw.
  apply (call_read_union t u _ no_bits tail _ fuel w Hk Hn Hu); [lia|done|done|].
  intros cases other v0 env w2 Hc Hother Ha Henv. rewrite got_none by done.
  rewrite exec_switch_tag. cbn [fst snd].
  assert (word_var V_tag (env ++ [(V_out, BVal v0)]) = inr tag) as -> by by rewrite Henv.
  cbn [res_bind]. unfold switch. rewrite (read_cases_unknown _ _ _ Hc Hall).
  unfold otherwise_of in Hother. rewrite Hext in Hother.
  destruct (default_field u) as [f|]; gen_inv;
    rewrite set_var_skip by (by repeat constructor); by rewrite set_var_top.
Qed.

(** A class: one call deeper. *)
Lemma read_back_class ver t v o :
  t_kind t = kStructRef ∨ t_kind t = kUnionRef → nullable t = false → owner_namespace t = [] →
  (∀ fuel w, (length (b_data o) < 8 * fuel)%nat → ahead o w →
    call p fuel false (CppEmbedName_type t) (bool_decide (CppEmbedName_type t ∈ ctx)) (init t) w = inr (v, got o w)) →
  read_back ver t v o.
Proof.
  intros Hk Hn Hns Hc fuel e uid b uid' E v0 Hf Hb HE _ Hr.
  apply not_plain_ready in Hr as ->; [|by destruct Hk as [-> | ->]].
  specialize (λ w, Hc fuel w Hf). destruct t as [k nm el ky nu ns c sz]. cbn in Hk, Hn, Hns. subst nu ns.
  change (CppEmbedName_type _) with (CppEmbedName c nm) in Hc.
  assert (b = [SReadClass [] (CppEmbedName c nm) e (bool_decide (CppEmbedName c nm ∈ ctx))]) as ->.
  { destruct Hk as [-> | ->]; cbn in Hb; by injection Hb as <- _. }
  apply reads_one. intros w Hw. cbn [exec]. rewrite bool_decide_true by done.
  by rewrite (focus_at _ _ _ _ _ _ HE), Hc.
Qed.

(** What is emitted for a type reads any value of it in the wire format. *)
Lemma read_all exact :
  (∀ ver t v o, Repr p ext exact ver t v o → read_back ver t v o) ∧
  (∀ v fl fs o, ReprFields p ext exact v fl fs o → 0 <= v → fields_back v fl fs o) ∧
  (∀ ver el l o, ReprList p ext exact ver el l o → list_back ver el l o) ∧
  (∀ ver k el l o, ReprPairs p ext exact ver k el l o → pairs_back ver k el l o).
Proof using PF PK.
  apply (Repr_all p ext exact (λ ver t v o _, read_back ver t v o)
    (λ v fl fs o _, 0 <= v → fields_back v fl fs o)
    (λ ver el l o _, list_back ver el l o) (λ ver k el l o _, pairs_back ver k el l o)).
  - intros ? t b Hk Hn. by apply read_back_bool.
  - intros ? t n x Hk Hn Hx. by apply read_back_word.
  - intros ? t s Hk Hn Hs. by apply read_back_string.
  - intros ? t x Hk Hn Hx Ha. by apply read_back_enum.
  - intros ? t Hk Hn. by apply read_back_null.
  - intros ? t v o Hk Hn Hr Hv. apply read_back_some; [done|done|by eapply Repr_not_opt|done].
  - intros ? t v o Hn Hl. by apply read_back_link.
  - intros ? t Hk Hn. by apply read_back_link_null.
  - intros ? t v o Hn Hr _. by apply read_back_link_some.
  - intros ? t el l o Hk Hn He H0 Hs _ Hl. by apply read_back_array.
  - intros ? t el l o Hk Hn He Hs Hne _ Hl. by apply read_back_fixed.
  - intros ? t k el l o Hk Hn Hky He Hs Hkeys _ Hl. by apply (read_back_map _ t k el).
  - intros ? t s v l fs o tail Hk Hn Hns Hs Hfs Hv ->%wire_order_fields _ IH _ Hsz.
    apply read_back_class; [by left|done|done|]. intros [|fuel] w Hf Hw; [lia|].
    apply (call_read_struct t s); try done; [by apply IH; lia|].
    cbn [sized b_data] in Hf. rewrite !length_app in Hf. change (length (le_bytes 4 _)) with 4%nat in Hf. lia.
  - intros ? t u f v o tail Hk Hn Hns Hu Hin _ IH _ Hsz.
    apply read_back_class; [by right|done|done|]. intros [|fuel] w Hf Hw; [lia|].
    apply (call_read_known t u); try done.
    cbn [sized b_data] in Hf. rewrite !length_app in Hf. change (length (le_bytes 4 _)) with 4%nat in Hf. lia.
  - intros ? t u tag tail Hk Hn Hns Hu _ Hext Htag Hall Hsz.
    apply read_back_class; [by right|done|done|]. intros [|fuel] w Hf Hw; [lia|].
    by apply (call_read_unknown t u).
  - intros v fs _. apply fields_back_nil.
  - intros v f l fs x o o' Hle Hx _ IHx _ IH H0. by eapply fields_back_present; eauto.
  - intros v f l fs o Hlt Hx _ IH H0. by apply fields_back_absent; auto.
  - intros ? el fuel uid b uid' e _ _. constructor.
  - intros ? el x l o o' _ IHx _ IH. by apply list_back_cons.
  - intros ? k el fuel uid b1 u1 b2 u2 e kt vt _ _ _. constructor.
  - intros ? k el x y l o1 o2 o' _ IHx _ _ IHy _ IH. by apply pairs_back_cons.
Qed.

(** The reader of a class, into a new object. *)
Lemma read_class_spec exact ver t v o fuel w :
  Repr p ext exact ver t v o → t_kind t = kStructRef ∨ t_kind t = kUnionRef → nullable t = false →
  (length (b_data o) < 8 * fuel)%nat → ahead o w →
  read_class p fuel (CppEmbedName_type t) (bool_decide (CppEmbedName_type t ∈ ctx)) (init t) w = inr (v, got o w).
Proof using PF PK.
  intros Hr Hk Hn Hf Hw. destruct (read_all exact) as (Hrb & _). specialize (Hrb ver t v o Hr).
  set (c := (V_version, BVal (VWord 4 (default 0 ver)))).
  set (flag := bool_decide (CppEmbedName_type t ∈ ctx)).
  destruct (Hrb fuel (EVar V_out) 0 [SReadClass (NamespacePrefix (owner_namespace t)) (CppEmbedName_type t) (EVar V_out) flag]
    0 (λ v, [(V_out, BVal v); c]) (init t) Hf) with (w := w) as (ex & _ & Hrun); [| | |by left|done|].
  { destruct t as [k nm el ky nu ns cn sz]. cbn in Hk, Hn. subst nu. by destruct Hk as [-> | ->]. }
  { apply (focus_var p 0 V_out [c]). intros [[]|[|]]; done. }
  { by destruct ver. }
  rewrite run_one in Hrun. cbn [exec] in Hrun. case_bool_decide; [|done].
  unfold at_expr, at_place in Hrun. cbn in Hrun. rewrite !decide_True in Hrun by done. cbn in Hrun.
  unfold read_class. destruct (call p fuel false (CppEmbedName_type t) flag (init t) w) as [|[v' w']]; [done|].
  cbn in Hrun. destruct ex as [|x [|y ex]]; cbn in Hrun; [by injection Hrun as -> ->|done|].
  injection Hrun as _ _ He _. by destruct ex.
Qed.
End read.
