(* ===== verification/GenSafe.v ===== *)
(** * Generated readers are safe on any message

    Whatever bytes and handles a message has, an emitted reader ends: it gives an
    object, or returns false, or it meets one of the two things that it does not check
    (a [bool] that is neither 0 nor 1, a handle that is not there).  It never reads
    outside the payload, and its calls are no deeper than the payload allows.  This
    needs a [size_t] of 64 bits. *)
From Stdlib Require Import ZArith Lia.
From stdpp Require Import base list gmap.
From S2P Require Import Prelude Ast TypeIntern Sandbox SandboxProps Codec BindMessageProps GenNames GenCode GenOrderProps GenIO GenSem GenRun GenWire GenReadProps.

(** The outcomes that are allowed. *)
Definition safely {A} (r : Result A) (Q : A → Prop) : Prop :=
  match r with inr a => Q a | inl (Stuck | OutOfFuel) => False | inl _ => True end.

Lemma safely_bind {A B} (m : Result A) (k : A → Result B) Q :
  safely m (λ a, safely (k a) Q) → safely (res_bind m k) Q.
Proof. by destruct m. Qed.
Lemma safely_mono {A} (m : Result A) (Q R : A → Prop) : (∀ a, Q a → R a) → safely m Q → safely m R.
Proof. destruct m as [[]|a]; cbn; auto. Qed.

(** ** Programs that need no other header *)

(** Types whose classes and enums are in the program, with keys that compare. *)
Fixpoint closed (p : Program) (ext : gmap (list Z) bool) (t : TypeSpec) : bool :=
  match t_kind t with
  | kEnumRef =>
      IsEnumExtensible ext (t_name t) ||
      bool_decide (owner_namespace t = []) &&
      bool_decide (is_Some (find_enum p (ContainerMangle (owner_container t) ++ t_name t)))
  | kStructRef => bool_decide (owner_namespace t = []) && bool_decide (is_Some (find_struct (p_module p) t))
  | kUnionRef => bool_decide (owner_namespace t = []) && bool_decide (is_Some (find_union (p_module p) t))
  | kArray => match element t with Some el => closed p ext el | None => false end
  | kMap =>
      match key t, element t with
      | Some k, Some el => plain_kind (t_kind k) && negb (nullable k) && closed p ext k && closed p ext el
      | _, _ => false
      end
  | _ => true
  end.

Definition closed_program (p : Program) : bool :=
  let ext := module_extensible (p_module p) in
  forallb (λ s, forallb (λ f, closed p ext (f_type f)) (s_fields s)) (AllStructs (p_module p)) &&
  forallb (λ u, forallb (λ f, closed p ext (uf_type f)) (u_fields u)) (AllUnions (p_module p)).

(** What a plain object is once it has been read. *)
Definition plain_value (t : TypeSpec) (v : Val) : Prop :=
  nullable t = false →
  match t_kind t with
  | kBool => ∃ b, v = VBool b
  | kString => ∃ s, v = VStr s
  | kEnumRef => ∃ x, v = VWord 4 x
  | k => match scalar_size k with Some n => ∃ x, v = VWord n x | None => True end
  end.

Definition key_value (t : TypeSpec) (v : Val) : Prop := ∃ k y, v = VPair k y ∧ plain_value t k.

Section safe.
Context `{Platform} (H64 : uintptr_bits = 64).
Variables (p : Program) (ext : gmap (list Z) bool) (ctx : gset (list Z)).

(** The offset is in the payload, and the calls left are enough for the rest of it. *)
Definition good (fuel : nat) (w : Wire) : Prop :=
  0 <= offset w <= Z.of_nat (length (data w)) ∧ Z.of_nat (length (data w)) < 2 ^ 32 ∧
  Z.of_nat (length (data w)) - offset w < 8 * Z.of_nat fuel ∧ Forall byte_ok (data w).
(** The same message, further on. *)
Definition after (w w' : Wire) : Prop :=
  data w' = data w ∧ offset w <= offset w' <= Z.of_nat (length (data w)).

Lemma after_good fuel w w' : good fuel w → after w w' → good fuel w'.
Proof. unfold good, after. intros Hg [-> Ho]. destruct_and!. split_and!; [lia..|done]. Qed.
Lemma after_refl fuel w : good fuel w → after w w.
Proof. unfold good, after. intros Hg. split; [done|lia]. Qed.
Lemma after_trans w1 w2 w3 : after w1 w2 → after w2 w3 → after w1 w3.
Proof. unfold after. intros [E1 H1] [E2 H2]. rewrite E2, E1 in *. split; [done|lia]. Qed.

(** ** The primitives *)

Lemma uw_small64 z : 0 <= z < 2 ^ 64 → uw z = z.
Proof using H64. intros Hz. unfold uw. rewrite H64. by rewrite Z.mod_small. Qed.

Lemma read_bytes_safe fuel n w :
  good fuel w → 0 <= n < 2 ^ 32 →
  safely (read_bytes n w) (λ r, after w r.2 ∧ offset r.2 = offset w + n ∧ length r.1 = Z.to_nat n ∧ Forall byte_ok r.1).
Proof using H64.
  intros (Ho & Hs & _ & Hb) Hn. unfold read_bytes, num_bytes. rewrite uw_small64, u32_small by lia.
  destruct (Z.ltb_spec (Z.of_nat (length (data w))) (offset w + n)); [done|].
  rewrite (proj2 (Z.leb_le _ _)) by lia. cbn. unfold after. cbn. split_and!; [done|lia|lia|done| |].
  - rewrite length_take, length_drop. lia.
  - by apply Forall_take, Forall_drop.
Qed.

Lemma ReadScalar_safe fuel n w :
  good fuel w → (n <= 8)%nat →
  safely (ReadScalar n w) (λ r, after w r.2 ∧ offset r.2 = offset w + Z.of_nat n ∧ 0 <= r.1 < 256 ^ Z.of_nat n).
Proof using H64.
  intros Hg Hn. unfold ReadScalar. apply safely_bind.
  eapply safely_mono; [|apply (read_bytes_safe fuel); [done|lia]]. intros r (H1 & H2 & H3 & H4).
  cbn. split_and!; [apply H1..|done| |]; pose proof (le_value_range _ H4) as Hr; rewrite H3, Nat2Z.id in Hr; lia.
Qed.

Lemma read_scalar_safe fuel v w shape :
  good fuel w → scalar_shape (p_module p) v = inr shape → (default 0%nat shape <= 8)%nat →
  safely (read_scalar p v w) (λ r, after w r.2 ∧
    match shape with Some n => ∃ x, r.1 = VWord n x ∧ 0 <= x < 256 ^ Z.of_nat n | None => ∃ b, r.1 = VBool b end).
Proof using H64.
  intros Hg Hv Hn. unfold read_scalar. rewrite Hv. cbn [res_bind]. destruct shape as [n|].
  - apply safely_bind. eapply safely_mono; [|by apply (ReadScalar_safe fuel)]. intros r (H1 & _ & H2).
    cbn. split; [done|]. by exists r.1.
  - unfold ReadBool. apply safely_bind, safely_bind. eapply safely_mono; [|apply (ReadScalar_safe fuel 1); [done|lia]].
    intros r [H1 _]. destruct (r.1 =? 0); [cbn; eauto|]. destruct (r.1 =? 1); cbn; eauto.
Qed.

Lemma ReadString_safe fuel w : good fuel w → safely (ReadString w) (λ r, after w r.2).
Proof using H64.
  intros Hg. unfold ReadString. apply safely_bind. eapply safely_mono; [|apply (ReadScalar_safe fuel 4); [done|lia]].
  intros r (H1 & _ & H2). eapply safely_mono; [|apply (read_bytes_safe fuel); [by eapply after_good|exact H2]].
  intros r' [H3 _]. by eapply after_trans.
Qed.

(** ** Statements *)

Section statements.
Variables (fuel : nat) (cl : bool → list Z → bool → Val → Wire → Result (Val * Wire)).
#[local] Abbreviation run := (run p cl).

(** The statements [b] end safely, with an object as [ok] says and variables of [P]
    left. *)
Definition sreads (P : Var → Prop) (b : list Stmt) (E : Val → Env) (v : Val) (ok : Val → Prop) : Prop :=
  ∀ w, good fuel w → safely (run b (E v, w)) (λ st, ∃ ex v', Forall (λ x : Var * Binding, P x.1) ex ∧ st.1 = ex ++ E v' ∧
    ok v' ∧ after w st.2).

Lemma sreads_mono (P Q : Var → Prop) b E v (ok ok' : Val → Prop) :
  (∀ x, P x → Q x) → (∀ v, ok v → ok' v) → sreads P b E v ok → sreads Q b E v ok'.
Proof.
  intros HPQ Hok Hs w Hg. eapply safely_mono; [|exact (Hs w Hg)]. intros st (ex & v' & Hex & He & Hv & Ha).
  exists ex, v'. split_and!; auto. eapply Forall_impl; [exact Hex|]. intros x. apply HPQ.
Qed.

Lemma sreads_one P s E v ok :
  (∀ w, good fuel w → safely (exec p cl s (E v, w)) (λ st, ∃ v', st.1 = E v' ∧ ok v' ∧ after w st.2)) →
  sreads P [s] E v ok.
Proof.
  intros Hs w Hg. rewrite run_one. eapply safely_mono; [|exact (Hs w Hg)]. intros st (v' & He & Hv & Ha).
  by exists [], v'.
Qed.

(** A scope of a body: what is safe inside leaves the variables outside. *)
Lemma safe_scope Q b E v ok w :
  (∀ a b, length (E a) = length (E b)) → sreads Q b E v ok → good fuel w →
  safely (scope p cl b (E v, w)) (λ st, ∃ v', st.1 = E v' ∧ ok v' ∧ after w st.2).
Proof.
  intros Hl Hs Hg. unfold scope. apply safely_bind. eapply safely_mono; [|exact (Hs w Hg)].
  intros [env' w'] (ex & v' & _ & He & Hv & Ha). cbn in He. subst env'. cbn [safely fst snd].
  rewrite leave_app by by rewrite (Hl v v'). cbn. by exists v'.
Qed.

Lemma sreads_block (P Q : Var → Prop) b E v ok :
  (∀ a b, length (E a) = length (E b)) → sreads Q b E v ok → sreads P [SBlock b] E v ok.
Proof. intros Hl Hs. apply sreads_one. intros w Hg. rewrite exec_block. by eapply safe_scope. Qed.

(** A first statement, and what follows it whatever it has done. *)
Lemma sreads_cons (P : Var → Prop) s b E v ok :
  (∀ w, good fuel w → safely (exec p cl s (E v, w)) (λ st, ∃ ex v', Forall (λ x : Var * Binding, P x.1) ex ∧
     st.1 = ex ++ E v' ∧ after w st.2 ∧ sreads P b (λ v, ex ++ E v) v' ok)) →
  sreads P (s :: b) E v ok.
Proof.
  intros Hs w Hg. rewrite run_cons. apply safely_bind. eapply safely_mono; [|exact (Hs w Hg)].
  intros [env' w'] (ex & v' & Hex & He & Ha & Hb). cbn in He. subst env'.
  eapply safely_mono; [|exact (Hb w' (after_good _ _ _ Hg Ha))].
  intros st (ex' & v'' & Hex' & He & Hv & Ha'). exists (ex' ++ ex), v''. split_and!; [by apply Forall_app|by rewrite <- app_assoc|done|].
  by eapply after_trans.
Qed.

(** A part of the object, and then the whole of it. *)
Lemma sreads_app (P : Var → Prop) b b' E (k : Val → Val) v ok ok' :
  sreads P b (λ x, E (k x)) v ok →
  (∀ ex v', Forall (λ x : Var * Binding, P x.1) ex → ok v' → sreads P b' (λ x, ex ++ E x) (k v') ok') →
  sreads P (b ++ b') E (k v) ok'.
Proof.
  intros Hb Hb' w Hg. rewrite run_app. apply safely_bind. eapply safely_mono; [|exact (Hb w Hg)].
  intros [env' w'] (ex & v' & Hex & He & Hv & Ha). cbn in He. subst env'.
  eapply safely_mono; [|exact (Hb' ex v' Hex Hv w' (after_good _ _ _ Hg Ha))].
  intros st (ex' & v'' & Hex' & He & Hv' & Ha'). exists (ex' ++ ex), v''. split_and!; [by apply Forall_app|by rewrite <- app_assoc|done|].
  by eapply after_trans.
Qed.

Lemma sreads_nil P E v (ok : Val → Prop) : ok v → sreads P [] E v ok.
Proof. intros Hv w Hg. cbn. exists [], v. split_and!; [done..|]. by eapply after_refl. Qed.

(** A statement that takes nothing from the message. *)
Lemma sreads_skip (P : Var → Prop) s b E v v' ok :
  (∀ w, exec p cl s (E v, w) = inr (E v', w)) → sreads P b E v' ok → sreads P (s :: b) E v ok.
Proof.
  intros Hs Hb. apply sreads_cons. intros w Hg. rewrite Hs. cbn. exists [], v'. split_and!; [done..| |done].
  by eapply after_refl.
Qed.

(** A word or a flag that is declared and read. *)
Lemma sreads_word (P : Var → Prop) ty x b E v ok :
  P x → (∀ z, 0 <= z < 2 ^ 32 → sreads P b (λ v, (x, BVal (VWord 4 z)) :: E v) v ok) →
  sreads P (SDecl ty x RZero :: SReadVar x :: b) E v ok.
Proof using H64.
  intros Hx Hb w Hg. rewrite run_cons. cbn [exec eval_rhs res_bind fst snd]. rewrite run_cons.
  apply safely_bind. cbn [exec at_var]. rewrite decide_True by done. apply safely_bind.
  eapply safely_mono; [|exact (read_scalar_safe fuel (VWord 4 0) w (Some 4%nat) Hg eq_refl ltac:(cbn; lia))].
  intros r (Ha & z & Hr & Hz). rewrite Hr. cbn [safely fst snd].
  eapply safely_mono; [|exact (Hb z Hz _ (after_good _ _ _ Hg Ha))].
  intros st (ex & v' & Hex & He & Hv & Ha'). exists (ex ++ [(x, BVal (VWord 4 z))]), v'.
  split_and!; [apply Forall_app; by repeat constructor|by rewrite <- app_assoc|done|by eapply after_trans].
Qed.

Lemma sreads_flag (P : Var → Prop) uid s b E v ok :
  (∀ a b, length (E a) = length (E b)) →
  (∀ st, exec p cl s st = let* f := bool_var (V_has uid) st.1 in if f then scope p cl (b true) st else scope p cl (b false) st) →
  (∀ c, sreads (λ _, True) (b c) (λ v, (V_has uid, BVal (VBool c)) :: E v) v ok) →
  sreads P [SBlock [SDecl (text "bool") (V_has uid) RFalse; SReadVar (V_has uid); s]] E v ok.
Proof using H64.
  intros Hl Hs Hb. apply (sreads_block _ (λ _, True)); [done|]. intros w Hg.
  rewrite run_cons. cbn [exec eval_rhs res_bind fst snd]. rewrite run_cons. apply safely_bind. cbn [exec at_var].
  rewrite decide_True by done. apply safely_bind.
  eapply safely_mono; [|exact (read_scalar_safe fuel (VBool false) w None Hg eq_refl ltac:(cbn; lia))].
  intros r (Ha & c & Hr). rewrite Hr. cbn [safely fst snd]. rewrite run_one, Hs. cbn [fst]. rewrite bool_var_top.
  cbn [res_bind].
  assert (safely (scope p cl (b c) ((V_has uid, BVal (VBool c)) :: E v, r.2))
    (λ st, ∃ v', st.1 = (V_has uid, BVal (VBool c)) :: E v' ∧ ok v' ∧ after r.2 st.2)) as Hsc.
  { apply (safe_scope (λ _, True) (b c) (λ v, (V_has uid, BVal (VBool c)) :: E v)); [|apply Hb|by eapply after_good].
    intros x y. cbn. by rewrite (Hl x y). }
  assert ((if c then scope p cl (b true) ((V_has uid, BVal (VBool c)) :: E v, r.2)
           else scope p cl (b false) ((V_has uid, BVal (VBool c)) :: E v, r.2)) =
          scope p cl (b c) ((V_has uid, BVal (VBool c)) :: E v, r.2)) as Hif by by destruct c.
  rewrite Hif. eapply safely_mono; [|exact Hsc]. intros st (v' & He & Hv & Ha').
  exists [(V_has uid, BVal (VBool c))], v'. split_and!; [by repeat constructor|done|done|by eapply after_trans].
Qed.

(** ** Handles and interfaces *)

Lemma take_handle_safe w : good fuel w → safely (take_handle w) (λ r, after w r.2).
Proof. intros Hg. unfold take_handle. destruct (_ !! _); [|done]. cbn. by destruct (after_refl _ _ Hg). Qed.

Lemma safe_assign uid e E r v w :
  focus p uid e E →
  safely (eval_rhs p r (E v, w)) (λ x, x.2.1 = E v ∧ after w x.2.2) →
  safely (exec p cl (SAssign e r) (E v, w)) (λ st, ∃ v', st.1 = E v' ∧ True ∧ after w st.2).
Proof.
  intros HE Hr. cbn [exec]. apply safely_bind. eapply safely_mono; [|exact Hr].
  intros [new [env w']] [He Ha]. cbn in He. subst env. cbn [fst snd].
  rewrite (focus_set _ _ _ _ _ _ HE). cbn. eauto.
Qed.

Lemma sreads_link P uid t e E r v0 :
  focus p uid e E → EmitHandleReadInto t e = inr r → IsHandleBearing (t_kind t) = true →
  sreads P r E v0 (λ _, True).
Proof using H64.
  intros HE Hr Hk. pose proof (fo_length _ _ _ _ HE) as Hl. unfold EmitHandleReadInto in Hr.
  assert (∀ x b, x = V_iid ∨ x = V_version → focus p uid e (λ v, (x, b) :: E v)) as Hpush.
  { intros x b Hx. apply focus_push; [by apply link_kind_focus|done]. }
  assert (∀ w F, good fuel w → safely (res_bind (take_handle w) (λ r, inr (F r.1, (E v0, r.2)) : Result (Val * State)))
    (λ x, x.2.1 = E v0 ∧ after w x.2.2)) as Htake.
  { intros w F Hg. apply safely_bind. eapply safely_mono; [|by apply take_handle_safe]. by intros a Ha. }
  destruct (t_kind t) eqn:Hkind; try done;
    try (cbn in Hr; injection Hr as <-; apply sreads_one; intros w Hg; apply (safe_assign uid); [done|];
         by apply (Htake w (λ h, VHandle (Pipe h)))).
  - injection Hr as <-. apply (sreads_block _ (λ _, True)); [done|]. apply sreads_word; [done|]. intros z Hz.
    apply sreads_one. intros w Hg. apply (safe_assign uid e (λ v, (V_version, BVal (VWord 4 z)) :: E v)).
    { apply Hpush. by right. }
    cbn [eval_rhs]. rewrite word_var_top. cbn [res_bind]. apply safely_bind.
    eapply safely_mono; [|by apply take_handle_safe]. by intros a Ha.
  - injection Hr as <-. apply sreads_one. intros w Hg. apply (safe_assign uid); [done|]. cbn [eval_rhs].
    by apply (Htake w (λ h, VPending (Pipe h) None)).
  - injection Hr as <-. apply (sreads_block _ (λ _, True)); [done|]. intros w Hg.
    do 2 (rewrite run_cons; cbn [exec eval_rhs res_bind fst snd]). rewrite run_cons. apply safely_bind.
    cbn [exec at_var]. rewrite decide_False, decide_True by done. cbn [res_bind]. apply safely_bind, safely_bind.
    eapply safely_mono; [|exact (read_scalar_safe fuel (VWord 4 0) w (Some 4%nat) Hg eq_refl ltac:(cbn; lia))].
    intros a (Ha & iid & Hx & Hiid). rewrite Hx. cbn [safely fst snd]. rewrite run_cons. apply safely_bind.
    cbn [exec at_var]. rewrite decide_True by done. apply safely_bind.
    pose proof (after_good _ _ _ Hg Ha) as Hg'.
    eapply safely_mono; [|exact (read_scalar_safe fuel (VWord 4 0) a.2 (Some 4%nat) Hg' eq_refl ltac:(cbn; lia))].
    intros a' (Ha' & n & Hx' & Hn). rewrite Hx'. cbn [safely fst snd]. rewrite run_one.
    eapply safely_mono; [|apply (safe_assign uid e (λ v, (V_version, BVal (VWord 4 n)) :: (V_iid, BVal (VWord 4 iid)) :: E v))].
    + intros st (v' & He & _ & Ha2). exists [(V_version, BVal (VWord 4 n)); (V_iid, BVal (VWord 4 iid))], v'.
      split_and!; [by repeat constructor|done|done|]. eapply after_trans; [exact Ha|]. by eapply after_trans.
    + apply (focus_push p uid e (λ v, (V_iid, BVal (VWord 4 iid)) :: E v)); [by apply link_kind_focus; right|].
      apply Hpush. by left.
    + cbn [eval_rhs]. rewrite word_var_below, !word_var_top by done. cbn. split; [done|].
      pose proof (after_good _ _ _ Hg' Ha') as (? & ? & _). split; cbn; [done|lia].
  - injection Hr as <-. apply (sreads_block _ (λ _, True)); [done|]. apply sreads_word; [done|]. intros z Hz.
    apply sreads_one. intros w Hg. apply (safe_assign uid e (λ v, (V_iid, BVal (VWord 4 z)) :: E v)).
    { apply Hpush. by left. }
    cbn [eval_rhs]. rewrite word_var_top. cbn. split; [done|]. destruct Hg as (? & ? & _). split; cbn; [done|lia].
Qed.

(** ** Containers *)

Section loop.
Variables (uid : Z) (E : Val → Env).
Context (Hl : ∀ a b, length (E a) = length (E b)).

(** One turn of a counting loop. *)
Lemma safe_turn Q b i k (E' : Val → Val) v ok w :
  sreads Q b (λ v, (i, BVal (VWord 4 k)) :: E (E' v)) v ok → good fuel w →
  safely (turn p cl b i (BVal (VWord 4 k)) (E (E' v), w)) (λ st, ∃ v', st.1 = E (E' v') ∧ ok v' ∧ after w st.2).
Proof using Hl.
  intros Hb Hg. unfold turn. cbn [fst snd]. apply safely_bind.
  eapply safely_mono; [|exact (safe_scope Q b (λ v, (i, BVal (VWord 4 k)) :: E (E' v)) v ok w
    ltac:(intros; cbn; by erewrite Hl) Hb Hg)].
  intros [env w'] (v' & He & Hv & Ha). cbn in He. subst env. cbn [safely fst snd].
  rewrite (leave_app [(i, BVal (VWord 4 k))] (E (E' v'))) by apply Hl. cbn. by exists v'.
Qed.

(** A counting loop with an invariant of the object. *)
Lemma safe_repeat (I : nat → Val → Prop) b i n k v w :
  I k v → good fuel w →
  (∀ j v w, (k <= j < k + n)%nat → I j v → good fuel w →
    safely (turn p cl b i (BVal (VWord 4 (Z.of_nat j))) (E v, w)) (λ st, ∃ v', st.1 = E v' ∧ I (S j) v' ∧ after w st.2)) →
  safely (repeat_from (λ j, turn p cl b i (BVal (VWord 4 (Z.of_nat j)))) n k (E v, w))
    (λ st, ∃ v', st.1 = E v' ∧ I (k + n)%nat v' ∧ after w st.2).
Proof.
  revert k v w. induction n as [|n IH]; intros k v w HI Hg Hb; cbn [repeat_from].
  { exists v. rewrite Nat.add_0_r. split_and!; [done..|]. by eapply after_refl. }
  apply safely_bind. eapply safely_mono; [|apply (Hb k); [lia|done|done]].
  intros [env w'] (v' & He & HI' & Ha). cbn in He. subst env.
  eapply safely_mono; [|apply (IH (S k)); [done|by eapply after_good|intros j x y Hj; apply Hb; lia]].
  intros st (v'' & He & HI'' & Ha'). exists v''. split_and!; [done|by rewrite <- Nat.add_succ_comm|by eapply after_trans].
Qed.
End loop.

(** The elements of an array that has its length. *)
Lemma safe_array ver uid uid' e E i el b n ok w :
  focus p uid e E → sees ver E → fresh uid i → ¬ apart uid' i → uid <= uid' →
  (∀ E', focus p uid' (EAt e i) E' → sees ver E' → sreads (fresh uid') b E' (init el) ok) → good fuel w →
  safely (repeat_from (λ k, turn p cl b i (BVal (VWord 4 (Z.of_nat k)))) n 0 (E (VArr el (replicate n (init el))), w))
    (λ st, ∃ v', st.1 = E v' ∧ True ∧ after w st.2).
Proof.
  intros HE Hsees Hi Hi' Hle Hb Hg.
  eapply safely_mono; [|apply (safe_repeat E
    (λ k v, ∃ pre, length pre = k ∧ (k <= n)%nat ∧ v = VArr el (pre ++ replicate (n - k) (init el))) b i n 0)].
  - intros st (v' & He & _ & Ha). eauto.
  - exists []. split_and!; [done|lia|by rewrite Nat.sub_0_r].
  - done.
  - intros j v w' Hj (pre & Hpre & _ & ->) Hg'.
    replace (n - j)%nat with (S (n - S j)) by lia. cbn [replicate].
    eapply safely_mono; [|apply (safe_turn E (fo_length _ _ _ _ HE) (fresh uid') b i (Z.of_nat j)
      (λ v, VArr el (pre ++ v :: replicate (n - S j) (init el))) (init el) ok w')].
    + intros st (v' & He & _ & Ha). eexists. split; [exact He|]. split; [|done].
      exists (pre ++ [v']). split_and!; [rewrite length_app; cbn; lia|lia|by rewrite <- app_assoc].
    + apply Hb; [by apply (focus_elem p uid uid' e E i _ el pre); try done; rewrite Hpre|].
      apply sees_push; [by destruct i|]. destruct ver; [|done]. intros v. apply Hsees.
    + done.
Qed.

Lemma has_key_total kt k l : plain_kind (t_kind kt) = true → nullable kt = false → plain_value kt k →
  Forall (key_value kt) l → ∃ b, has_key k l = inr b.
Proof.
  intros Hp Hn Hk. unfold plain_value in *. specialize (Hk Hn).
  induction 1 as [|x l (k' & y & -> & Hk') _ [b IH]]; [by exists false|]. unfold plain_value in Hk'.
  specialize (Hk' Hn). cbn [has_key].
  assert (∃ c, key_eq k k' = inr c) as [c ->].
  { destruct (t_kind kt); try done; cbn in Hk, Hk'; destruct_and?; repeat match goal with H : ∃ _, _ |- _ => destruct H end;
      subst; cbn; eauto; by exfalso. }
  cbn [res_bind]. destruct c; eauto.
Qed.

(** An entry of a map. *)
Lemma safe_pair uid u1 E e k el b1 b2 kt vt l :
  focus p uid e E → uid + 1 <= u1 → plain_kind (t_kind k) = true → nullable k = false → Forall (key_value k) l →
  sreads (fresh (uid + 1)) b1 (λ v, (V_k uid, BVal v) :: E (VMap l)) (init k) (plain_value k) →
  (∀ ex x, Forall (λ x : Var * Binding, fresh (uid + 1) x.1) ex →
    sreads (fresh u1) b2 (λ v, (V_v uid, BVal v) :: ex ++ (V_k uid, BVal x) :: E (VMap l)) (init el) (λ _, True)) →
  sreads (λ _, True)
    (SDeclInit kt k (V_k uid) :: b1 ++ SDeclInit vt el (V_v uid) :: b2 ++ [SEmplace e (V_k uid) (V_v uid)])
    E (VMap l) (λ v, ∃ l', v = VMap l' ∧ Forall (key_value k) l').
Proof.
  intros HE Hu1 Hp Hn Hkeys Hb1 Hb2 w Hg. rewrite run_cons. cbn [exec res_bind]. rewrite run_app.
  apply safely_bind. eapply safely_mono; [|exact (Hb1 w Hg)].
  intros [env w1] (ex1 & x & Hex1 & He & Hx & Ha1). cbn in He. subst env. pose proof (after_good _ _ _ Hg Ha1) as Hg1.
  rewrite run_cons. cbn [exec res_bind]. rewrite run_app. apply safely_bind.
  eapply safely_mono; [|exact (Hb2 ex1 x Hex1 w1 Hg1)].
  intros [env w2] (ex2 & y & Hex2 & He & _ & Ha2). cbn in He. subst env. rewrite run_one. cbn [exec].
  assert (Forall (λ b : Var * Binding, V_v uid ≠ b.1) ex2) as N1 by (eapply fresh_ne; [|exact Hex2]; cbn; lia).
  assert (Forall (λ b : Var * Binding, V_k uid ≠ b.1) (ex2 ++ (V_v uid, BVal y) :: ex1)) as N2.
  { apply Forall_app. split; [eapply fresh_ne; [|exact Hex2]; cbn; lia|]. constructor; [done|].
    eapply fresh_ne; [|exact Hex1]. cbn. lia. }
  assert (ex2 ++ (V_v uid, BVal y) :: ex1 ++ (V_k uid, BVal x) :: E (VMap l) =
          (ex2 ++ (V_v uid, BVal y) :: ex1) ++ (V_k uid, BVal x) :: E (VMap l)) as Ea by by rewrite <- app_assoc.
  rewrite Ea, (eval_move p (V_k uid) x) by done. cbn [res_bind fst snd].
  rewrite <- Ea, (eval_move p (V_v uid) y) by done.
  cbn [res_bind fst snd]. rewrite Ea, (cons_middle _ (ex2 ++ _)), app_assoc.
  rewrite (focus_set p uid e (λ v, ((ex2 ++ (V_v uid, BVal y) :: ex1) ++ [(V_k uid, BVal x)]) ++ E v)).
  - destruct (has_key_total k x l Hp Hn Hx Hkeys) as [b Hb]. cbn [emplace]. rewrite Hb. cbn [res_bind safely fst snd].
    exists ((ex2 ++ (V_v uid, BVal y) :: ex1) ++ [(V_k uid, BVal x)]), (VMap (if b then l else l ++ [VPair x y])).
    split_and!; [by apply Forall_true|done| |by eapply after_trans].
    eexists. split; [done|]. destruct b; [done|]. apply Forall_app. split; [done|]. repeat constructor. by exists x, y.
  - apply focus_pushes; [|done]. rewrite !Forall_app, Forall_cons, Forall_singleton. split_and!.
    + apply forall_fresh_apart. by apply (forall_fresh_later uid u1 ex2); [lia|].
    + left. cbn. lia.
    + apply forall_fresh_apart. by apply (forall_fresh_later uid (uid + 1) ex1); [lia|].
    + left. cbn. lia.
Qed.

Lemma safe_map ver uid E e i k b n w :
  focus p uid e E → sees ver E → fresh uid i →
  (∀ l E', focus p uid e E' → sees ver E' → Forall (key_value k) l →
    sreads (λ _, True) b E' (VMap l) (λ v, ∃ l', v = VMap l' ∧ Forall (key_value k) l')) → good fuel w →
  safely (repeat_from (λ k, turn p cl b i (BVal (VWord 4 (Z.of_nat k)))) n 0 (E (VMap []), w))
    (λ st, ∃ v', st.1 = E v' ∧ True ∧ after w st.2).
Proof.
  intros HE Hsees Hi Hb Hg.
  eapply safely_mono; [|apply (safe_repeat E (λ _ v, ∃ l, v = VMap l ∧ Forall (key_value k) l) b i n 0)].
  - intros st (v' & He & _ & Ha). eauto.
  - by exists [].
  - done.
  - intros j v w' _ (l & -> & Hkeys) Hg'.
    apply (safe_turn E (fo_length _ _ _ _ HE) (λ _, True) b i (Z.of_nat j) (λ v, v) (VMap l)); [|done].
    apply Hb; [by apply focus_push; [apply fresh_apart|]|by apply sees_push; [destruct i|]|done].
Qed.
End statements.

(** ** Values *)

Lemma not_plain_value t v : plain_kind (t_kind t) = false → plain_value t v.
Proof. intros Hp _. destruct (t_kind t); try done. Qed.
Lemma nullable_value t v : nullable t = true → plain_value t v.
Proof. intros Hn Hn'. by rewrite Hn in Hn'. Qed.

(** Calls that are left to a reader are safe. *)
Definition calls_safe (fuel : nat) : Prop :=
  ∀ t w, t_kind t = kStructRef ∨ t_kind t = kUnionRef → nullable t = false → closed p ext t = true → good fuel w →
    safely (call p fuel false (CppEmbedName_type t) (bool_decide (CppEmbedName_type t ∈ ctx)) (init t) w)
      (λ r, after w r.2).

Section fuel.
Context (fuel : nat) (Hcalls : calls_safe fuel) (ver : option Z).
#[local] Abbreviation sreads := (sreads fuel (call p fuel)).

Lemma sreads_any P b E v (ok : Val → Prop) : (∀ v, ok v) → sreads P b E v (λ _, True) → sreads P b E v ok.
Proof. intros Hok. by apply sreads_mono. Qed.

Definition reads_safely (t : TypeSpec) : Prop :=
  ∀ e uid b uid' E v0, EmitReadInto ext ctx (version_var ver) t e uid = inr (b, uid') → closed p ext t = true →
    focus p uid e E → sees ver E → ready t v0 → sreads (fresh uid) b E v0 (plain_value t).

Lemma safe_scalar t : nullable t = false → t_kind t = kBool ∨ is_Some (scalar_size (t_kind t)) → reads_safely t.
Proof using H64.
  intros Hn Hk e uid b uid' E v0 Hb _ HE _ Hr.
  assert (b = [SReadScalar e]) as ->.
  { destruct t as [k nm el ky nu ns c sz]. cbn in Hn, Hk. subst nu. cbn in Hb.
    destruct k; try (by destruct Hk as [|[]]); by injection Hb as <- <-. }
  apply sreads_one. intros w Hg. cbn [exec]. rewrite (focus_at _ _ _ _ _ _ HE). apply safely_bind.
  destruct (ready_shape p t v0 Hn Hr) as [Hb0 Hs0]. destruct Hk as [Hk|[n Hk]].
  - eapply safely_mono; [|exact (read_scalar_safe fuel v0 w None Hg (Hb0 Hk) ltac:(cbn; lia))].
    intros r (Ha & c & Hc). rewrite Hc. eexists. split_and!; [done| |done]. intros _. rewrite Hk. eauto.
  - assert (n <= 8)%nat as H8 by (destruct (t_kind t); cbn in Hk; try done; injection Hk as <-; lia).
    eapply safely_mono; [|exact (read_scalar_safe fuel v0 w (Some n) Hg (Hs0 n Hk) H8)].
    intros r (Ha & x & Hx & _). rewrite Hx. eexists. split_and!; [done| |done]. intros _.
    destruct (t_kind t); cbn in Hk |- *; simplify_eq; eauto.
Qed.

Lemma safe_string t : t_kind t = kString → nullable t = false → reads_safely t.
Proof using H64.
  intros Hk Hn e uid b uid' E v0 Hb _ HE _ _. destruct t as [k nm el ky nu ns c sz]. cbn in Hk, Hn. subst.
  cbn in Hb. injection Hb as <- <-. apply sreads_one. intros w Hg. cbn [exec].
  rewrite (focus_at _ _ _ _ _ _ HE). apply safely_bind, safely_bind.
  eapply safely_mono; [|by apply (ReadString_safe fuel)]. intros r Ha. cbn. eexists. split_and!; [done| |done].
  intros _. cbn. eauto.
Qed.

Lemma safe_enum t : t_kind t = kEnumRef → nullable t = false → reads_safely t.
Proof using H64.
  intros Hk Hn e uid b uid' E v0 Hb Hc HE Hsees Hr.
  destruct t as [k nm el ky nu ns c sz]. cbn in Hk, Hn. subst k nu. cbn in Hb. injection Hb as <- <-.
  cbn [closed t_kind t_name owner_namespace owner_container] in Hc.
  apply sreads_word; [cbn; lia|]. intros z Hz.
  assert (sreads (fresh uid) [SAssign e (RCast (qualified (mkTypeSpec kEnumRef nm el ky false ns c sz)) (V_v uid))]
    (λ v, (V_v uid, BVal (VWord 4 z)) :: E v) v0 (plain_value (mkTypeSpec kEnumRef nm el ky false ns c sz))) as Hlast.
  { apply sreads_one. intros w Hg.
    rewrite (exec_assign p (call p fuel) uid e (λ v, (V_v uid, BVal (VWord 4 z)) :: E v) _ (VWord 4 z) _ _ w).
    - eexists. split; [reflexivity|]. split; [|by eapply after_refl]. intros _. cbn [t_kind].
      rewrite assign_plain by (by eapply ready_not_optional; [left|exact Hr]). eauto.
    - apply focus_push; [apply fresh_apart; cbn; lia|done].
    - cbn [eval_rhs]. by rewrite word_var_top. }
  destruct (IsEnumExtensible ext nm) eqn:He; [exact Hlast|]. cbn [app].
  rewrite orb_false_l, andb_true_iff, !bool_decide_eq_true in Hc. destruct Hc as [-> [io Hio]].
  apply sreads_cons. intros w Hg. cbn [exec]. rewrite bool_decide_true by done. rewrite Hio. cbn [some res_bind].
  rewrite word_var_top. cbn [res_bind]. apply safely_bind.
  assert (∃ known : bool, match version_var ver with
    | Some y => let* v := word_var y ((V_v uid, BVal (VWord 4 z)) :: E v0) in inr (IsKnownAsOf io z v)
    | None => inr (IsKnown io z) end = inr known) as [known ->].
  { destruct ver as [v|]; cbn [version_var]; [|by eexists]. cbn. unfold word_var. rewrite lookup_below by done.
    fold (word_var V_version (E v0)). rewrite Hsees. by eexists. }
  cbn [safely]. destruct known; [|done]. cbn. exists [], v0. split_and!; [done|done|by eapply after_refl|exact Hlast].
Qed.

Lemma safe_class t : t_kind t = kStructRef ∨ t_kind t = kUnionRef → nullable t = false → reads_safely t.
Proof using Hcalls.
  intros Hk Hn e uid b uid' E v0 Hb Hc HE _ Hr.
  apply not_plain_ready in Hr as ->; [|by destruct Hk as [-> | ->]].
  assert (owner_namespace t = []) as Hns.
  { destruct t as [k nm el ky nu ns c sz]. cbn in Hk. destruct Hk as [-> | ->]; cbn [closed t_kind owner_namespace] in Hc;
      by apply andb_prop in Hc as [?%bool_decide_eq_true _]. }
  specialize (λ w, Hcalls t w Hk Hn Hc) as Hcall. destruct t as [k nm el ky nu ns c sz]. cbn in Hk, Hn, Hns. subst nu ns.
  change (CppEmbedName_type _) with (CppEmbedName c nm) in Hcall.
  assert (b = [SReadClass [] (CppEmbedName c nm) e (bool_decide (CppEmbedName c nm ∈ ctx))]) as ->.
  { destruct Hk as [-> | ->]; cbn in Hb; by injection Hb as <- _. }
  apply sreads_one. intros w Hg. cbn [exec]. rewrite bool_decide_true by done.
  rewrite (focus_at _ _ _ _ _ _ HE). apply safely_bind. eapply safely_mono; [|exact (Hcall w Hg)].
  intros r Ha. eexists. split_and!; [done| |done]. apply not_plain_value. by destruct Hk as [-> | ->].
Qed.

Lemma safe_array_type t el : t_kind t = kArray → nullable t = false → element t = Some el → reads_safely el → reads_safely t.
Proof using H64.
  intros Hk Hn He IH e uid b uid' E v0 Hb Hc HE Hsees Hr.
  apply not_plain_ready in Hr as ->; [|by rewrite Hk].
  apply sreads_any; [intros v; apply not_plain_value; by rewrite Hk|].
  destruct t as [k nm el' ky nu ns c sz]. cbn in Hk, Hn, He. subst k nu el'. cbn [closed t_kind element] in Hc.
  cbn [EmitReadInto t_kind nullable element IsHandleBearing fixed_array_size] in Hb. gen_inv.
  apply (sreads_block _ _ _ (λ _, True)); [apply (fo_length _ _ _ _ HE)|].
  assert (∀ E', focus p (uid + 1) (EAt e (V_i uid)) E' → sees ver E' →
    sreads (fresh (uid + 1)) l E' (init el) (plain_value el)) as Hel.
  { intros E' HE' Hs'. eapply IH; [exact Ea|done|done|done|by left]. }
  assert (¬ apart (uid + 1) (V_i uid)) as Hi by (intros [?|[|]]; [cbn in *; lia|done|done]).
  destruct (sz =? 0) eqn:Hz.
  - apply Z.eqb_eq in Hz as ->.
    change (init (mkTypeSpec kArray nm (Some el) ky false ns c 0)) with (VArr el []).
    apply sreads_word; [done|]. intros n Hnn.
    assert (focus p uid e (λ v, (V_n uid, BVal (VWord 4 n)) :: E v)) as HE' by (apply focus_push; [left; cbn; lia|done]).
    eapply (sreads_skip _ _ _ _ _ _ _ (VArr el (replicate (Z.to_nat n) (init el)))).
    { intros w. cbn [exec]. rewrite word_var_top. cbn [res_bind].
      rewrite (focus_set p uid e (λ v, (V_n uid, BVal (VWord 4 n)) :: E v)) by done. unfold resize. cbn [open_val res_bind].
      rewrite take_nil, Nat.sub_0_r. done. }
    apply sreads_one. intros w Hg. rewrite (exec_for_count _ _ _ _ _ _ _ n) by apply word_var_top.
    apply (safe_array fuel (call p fuel) ver uid (uid + 1) e (λ v, (V_n uid, BVal (VWord 4 n)) :: E v) (V_i uid) el l (Z.to_nat n) (plain_value el) w);
      [done|by apply sees_push|cbn; lia|done|lia|exact Hel|done].
  - cbn [init t_kind nullable element fixed_array_size]. apply sreads_one. intros w Hg. rewrite exec_for. cbn [res_bind].
    by apply (safe_array fuel (call p fuel) ver uid (uid + 1) e E (V_i uid) el l (Z.to_nat sz) (plain_value el) w); try done; cbn; lia.
Qed.

Lemma safe_map_type t k el : t_kind t = kMap → nullable t = false → key t = Some k → element t = Some el →
  reads_safely k → reads_safely el → reads_safely t.
Proof using H64.
  intros Hk Hn Hky He IHk IHe e uid b uid' E v0 Hb Hc HE Hsees Hr.
  apply not_plain_ready in Hr as ->; [|by rewrite Hk].
  apply sreads_any; [intros v; apply not_plain_value; by rewrite Hk|].
  destruct t as [k' nm el' ky nu ns c sz]. cbn in Hk, Hn, He, Hky. subst k' nu el' ky.
  cbn [closed t_kind element key] in Hc. rewrite !andb_true_iff, negb_true_iff in Hc. destruct Hc as [[[Hp Hnk] Hck] Hce].
  cbn [EmitReadInto t_kind nullable element key IsHandleBearing fixed_array_size] in Hb. gen_inv.
  change (init (mkTypeSpec kMap nm (Some el) (Some k) false ns c sz)) with (VMap []).
  apply (sreads_block _ _ _ (λ _, True)); [apply (fo_length _ _ _ _ HE)|].
  apply sreads_word; [done|]. intros n Hnn.
  assert (focus p uid e (λ v, (V_n uid, BVal (VWord 4 n)) :: E v)) as HE' by (apply focus_push; [left; cbn; lia|done]).
  eapply (sreads_skip _ _ _ _ _ _ _ (VMap [])).
  { intros w. cbn [exec]. by rewrite (focus_set p uid e (λ v, (V_n uid, BVal (VWord 4 n)) :: E v)). }
  apply sreads_one. intros w Hg. rewrite (exec_for_count _ _ _ _ _ _ _ n) by apply word_var_top.
  eapply (safe_map fuel (call p fuel) ver uid (λ v, (V_n uid, BVal (VWord 4 n)) :: E v) e (V_i uid) k _ _ w);
    [done|by apply sees_push|cbn; lia| |done].
  intros l' E' HF Hs' Hkeys.
  match goal with E1 : EmitReadInto _ _ _ k _ _ = inr (?x, ?u), E2 : EmitReadInto _ _ _ el _ _ = inr (?y, _) |- _ =>
    pose proof (EmitReadInto_uid _ _ _ _ _ _ _ _ E1) as Hu; rename E1 into R1; rename E2 into R2 end.
  eapply (safe_pair fuel (call p fuel) uid _ E' e k el); [done|exact Hu|done|done|done| |].
  - eapply IHk; [exact R1|done| | |by left].
    + apply focus_var. intros [?|[|]]; [cbn in *; lia|done|done].
    + destruct ver as [zv|]; [|done]. intros v. rewrite word_var_below by done. apply Hs'.
  - intros ex x Hex. eapply sreads_mono; [done|by intros v _|]. eapply IHe; [exact R2|done| | |by left].
    + apply focus_var. intros [?|[|]]; [cbn in *; lia|done|done].
    + destruct ver as [zv|]; [|done]. intros v. rewrite word_var_below by done.
      rewrite word_var_skip by (eapply fresh_ne; [|exact Hex]; cbn; lia). rewrite word_var_below by done. apply Hs'.
Qed.

Lemma safe_link t : IsHandleBearing (t_kind t) = true → reads_safely t.
Proof using H64.
  intros Hk e uid b uid' E v0 Hb _ HE _ Hr. destruct (read_link _ _ _ _ _ _ _ _ Hk Hb) as (r & Hr' & ->).
  apply sreads_any; [intros v; apply not_plain_value; by destruct (t_kind t)|].
  destruct (nullable t).
  - refine (sreads_flag _ _ _ uid _ (λ c : bool, if c then r else []) E v0 _ (fo_length _ _ _ _ HE) _ _).
    + intros [env w']. rewrite exec_if. apply res_bind_ext. intros [|]; [done|]. by rewrite scope_nil.
    + intros [].
      * apply (sreads_link _ _ _ uid t e); [|done|done]. apply focus_push; [apply fresh_apart; cbn; lia|exact HE].
      * by apply sreads_nil.
  - by apply (sreads_link _ _ _ uid t e).
Qed.

Lemma closed_non_null t : closed p ext (non_null t) = closed p ext t.
Proof. by destruct t. Qed.

Lemma safe_nullable t : IsHandleBearing (t_kind t) = false → nullable t = true → reads_safely (non_null t) → reads_safely t.
Proof using H64.
  intros Hk Hn IH e uid b uid' E v0 Hb Hc HE Hsees Hr.
  destruct (read_nullable _ _ _ _ _ _ _ _ Hk Hn Hb) as (vt & b' & Hb' & ->).
  apply sreads_any; [intros v; by apply nullable_value|].
  refine (sreads_flag _ _ _ uid _ (λ c : bool, if c then _ else _) E v0 _ (fo_length _ _ _ _ HE) (exec_if_else _ _ _ _ _) _).
  intros c. set (h := (V_has uid, BVal (VBool c))).
  assert (focus p uid e (λ v, h :: E v)) as HE1 by (apply focus_push; [apply fresh_apart; cbn; lia|done]).
  destruct c.
  - intros w Hg. cbn [app]. rewrite run_cons. cbn [exec res_bind]. rewrite run_app. apply safely_bind.
    eapply safely_mono; [|apply (IH (EVar (V_opt uid)) (uid + 1) b' uid' (λ v, (V_opt uid, BVal v) :: h :: E v0)
      (init (non_null t)) Hb')]; [|by rewrite closed_non_null| | |by left|exact Hg].
    2: { apply focus_var. intros [?|[|]]; [cbn in *; lia|done|done]. }
    2: { destruct ver as [z|]; [|done]. intros v1. rewrite !word_var_below by done. apply Hsees. }
    intros [env w1] (ex & v & Hex & He & _ & Ha). cbn in He. subst env. rewrite run_one.
    rewrite (cons_middle _ ex), app_assoc.
    eapply safely_mono; [|apply (safe_assign (call p fuel) uid e (λ v', (ex ++ [(V_opt uid, BVal v)]) ++ h :: E v'))].
    + intros st (v' & He & _ & Ha'). exists (ex ++ [(V_opt uid, BVal v)]), v'.
      split_and!; [by apply Forall_true|done|done|by eapply after_trans].
    + apply focus_pushes; [|done]. apply Forall_app. split; [|repeat constructor; cbn; lia].
      apply forall_fresh_apart. by eapply forall_fresh_later; [|exact Hex]; lia.
    + assert (Forall (λ b : Var * Binding, V_opt uid ≠ b.1) ex) as Hne by (eapply fresh_ne; [|exact Hex]; cbn; lia).
      rewrite <- !app_assoc. rewrite (eval_move p (V_opt uid) v ex (h :: E v0)) by done. cbn.
      split; [done|]. eapply after_refl, (after_good fuel w); done.
  - apply sreads_one. intros w Hg. eapply (safe_assign (call p fuel) uid e (λ v, h :: E v)); [done|]. cbn.
    split; [done|]. by eapply after_refl.
Qed.

(** Reading is safe, whatever the type. *)
Lemma safe_all : ∀ t, reads_safely t.
Proof using H64 Hcalls.
  fix IH 1. intros t.
  assert (match element t with Some el => reads_safely el | None => True end) as IHel
    by (destruct t as [k nm [el|] ky nu ns c sz]; [exact (IH el)|exact I]).
  assert (match key t with Some ky => reads_safely ky | None => True end) as IHky
    by (destruct t as [k nm el [ky|] nu ns c sz]; [exact (IH ky)|exact I]).
  clear IH.
  destruct (IsHandleBearing (t_kind t)) eqn:Hk; [by apply safe_link|].
  assert (reads_safely (non_null t)) as Hplain.
  { destruct t as [k nm el ky nu ns c sz]. cbn [t_kind element key] in *.
    destruct k; try discriminate Hk; unfold non_null; cbn [t_kind t_name element key owner_namespace owner_container fixed_array_size];
      try (apply safe_scalar; [done|first [by left|by right; eexists]]; fail).
    - by apply safe_string.
    - by apply safe_enum.
    - apply safe_class; [by left|done].
    - apply safe_class; [by right|done].
    - destruct el as [el|]; [by apply (safe_array_type _ el)|]. intros e uid b uid' E v0 Hb. done.
    - destruct ky as [ky|]; [|intros e uid b uid' E v0 Hb; by destruct el].
      destruct el as [el|]; [by apply (safe_map_type _ ky el)|]. intros e uid b uid' E v0 Hb. done. }
  destruct (nullable t) eqn:Hn; [by apply safe_nullable|].
  destruct t as [k nm el ky nu ns c sz]. cbn in Hn. subst nu. exact Hplain.
Qed.
End fuel.

(** ** Functions *)

Section functions.
Context {PK : program_ok p ext ctx}.
Context (Hclosed_s : ∀ s f, s ∈ AllStructs (p_module p) → f ∈ s_fields s → closed p ext (f_type f) = true)
        (Hclosed_u : ∀ u f, u ∈ AllUnions (p_module p) → f ∈ u_fields u → closed p ext (uf_type f) = true).

(** The members of a struct, whatever its version. *)
Lemma safe_fields fuel ver fl : calls_safe fuel → ∀ uid b E names h,
  read_fields ext ctx fl uid = inr b → focus p uid (EVar V_out) E → sees (Some ver) E →
  NoDup names → NoDup (map f_name fl) →
  (∀ f, f ∈ fl → f_name f ∈ names ∧ ready (f_type f) (field_init f) ∧ h (f_name f) = field_init f ∧
     closed p ext (f_type f) = true) →
  sreads fuel (call p fuel) (fresh uid) b E (obj names h) (λ _, True).
Proof using H64.
  intros Hcalls. induction fl as [|f fl IH]; intros uid b E names h Hb HE Hs Hnd Hnd' Hin.
  { injection Hb as <-. by apply sreads_nil. }
  destruct (read_fields_uid _ _ _ _ _ _ Hb) as (b1 & u & b2 & Hb1 & Hb2 & -> & Hle).
  cbn in Hnd'. apply NoDup_cons in Hnd' as [Hn Hnd'].
  destruct (Hin f ltac:(left)) as (Hfn & Hready & Hh & Hc).
  pose proof (focus_obj_arrow p uid (EVar V_out) E names h (f_name f) HE Hnd Hfn) as HE1.
  set (E1 := λ v', E (obj names (fupd (f_name f) v' h))) in *.
  assert (sees (Some ver) E1) as Hs1 by (intros ?; apply Hs).
  pose proof (safe_all fuel Hcalls (Some ver) (f_type f) _ uid b1 u E1 (field_init f) Hb1 Hc HE1 Hs1 Hready) as H1.
  assert (obj names h = obj names (fupd (f_name f) (field_init f) h)) as ->.
  { rewrite <- Hh. symmetry. apply obj_fupd. }
  apply (sreads_app fuel _ _ _ b2 E (λ v', obj names (fupd (f_name f) v' h)) (field_init f) (λ _, True)).
  - fold E1. destruct (f_min_version f =? 0); [by eapply sreads_mono; [done|by intros v _|exact H1]|].
    apply sreads_one. intros w Hg. rewrite exec_if_version. cbn [fst]. rewrite Hs1. cbn [res_bind].
    destruct (_ <=? _); [|eexists; split_and!; [done|done|by eapply after_refl]].
    eapply safely_mono; [|exact (safe_scope _ _ (fresh uid) b1 E1 (field_init f) _ w (λ a b, fo_length _ _ _ _ HE _ _) H1 Hg)].
    intros st (v' & He & _ & Ha). eauto.
  - intros ex v' Hex _. eapply sreads_mono; [intros x; by apply fresh_later|done|].
    apply (IH u b2 (λ v, ex ++ E v) names (fupd (f_name f) v' h) Hb2); [| |done|done|].
    + apply (focus_later _ uid); [done|]. apply focus_pushes; [by apply forall_fresh_apart|done].
    + apply (sees_pushes (Some ver)); [by eapply forall_not_version|done].
    + intros g Hg. destruct (Hin g ltac:(by right)) as (? & ? & Hg' & ?). split_and!; [done|done| |done].
      unfold fupd. rewrite decide_False; [done|]. intros Heq. apply Hn. rewrite <- Heq. by apply list_elem_of_fmap_2.
Qed.

(** The first two words of a struct or union, and the end that they give it. *)
Lemma safe_end size w :
  offset w <= Z.of_nat (length (data w)) < 2 ^ 32 → 8 <= offset w → 0 <= size < 2 ^ 32 →
  uw (uw (offset w - 8) + size) = offset w - 8 + size.
Proof using H64. intros Ho H8 Hs. rewrite (uw_small64 (offset w - 8)), uw_small64 by lia. done. Qed.

Lemma object_value ex x v : Forall (λ b : Var * Binding, x ≠ b.1) ex →
  ∀ w, safely (let* r := at_var x (λ v, inr (v, v)) (ex ++ [(x, BVal v)], w).1 in inr (r.2, (ex ++ [(x, BVal v)], w).2))
    (λ r : Val * Wire, r.2 = w).
Proof. intros Hx w. cbn [fst snd]. by rewrite object_left. Qed.

Lemma call_safe_struct fuel t s w :
  calls_safe fuel → t_kind t = kStructRef → nullable t = false → find_struct (p_module p) t = Some s →
  good (S fuel) w →
  safely (call p (S fuel) false (CppEmbedName_type t) (bool_decide (CppEmbedName_type t ∈ ctx)) (init t) w)
    (λ r, after w r.2).
Proof using H64 PK Hclosed_s Hclosed_u.
  intros Hcalls Hk Hn Hs Hg. destruct (pk_struct _ _ _ PK t s Hs) as (io & opt & ns & Hc & Hm & Hio).
  destruct (EmitStructIO_inv _ _ _ _ _ _ Hm Hio) as (b0 & b & _ & Hb & ->).
  cbn [call]. rewrite Hc. cbn [some res_bind io_read io_needs_ctx orb].
  rewrite (find_struct_name _ _ _ Hs), bool_decide_true by done. rewrite init_class by auto.
  cbn [open_val]. change (has_value DefaultValue_init) with false. cbn match. rewrite Hk, Hs.
  pose proof (pk_fields _ _ _ PK t s Hs) as Hnd.
  assert ((map (λ f, (f_name f, field_init f)) (s_fields s)).*1 = map f_name (s_fields s)) as En.
  { rewrite <- list_fmap_compose. done. }
  destruct (obj_of (map (λ f, (f_name f, field_init f)) (s_fields s))) as (h & Eh & Hh); [by rewrite En|].
  rewrite Eh, En. unfold struct_reader. rewrite run_unused. cbn [app].
  do 2 (rewrite run_cons; cbn [exec eval_rhs res_bind fst snd]).
  rewrite run_cons. cbn [exec]. apply safely_bind, safely_bind, safely_bind.
  eapply safely_mono; [|exact (ReadScalar_safe (S fuel) 4 w Hg ltac:(lia))].
  intros r1 (A1 & O1 & R1). rewrite set_var_below, set_var_top by done. cbn [res_bind].
  pose proof (after_good _ _ _ Hg A1) as Hg1. apply safely_bind.
  eapply safely_mono; [|exact (ReadScalar_safe (S fuel) 4 r1.2 Hg1 ltac:(lia))].
  intros r2 (A2 & O2 & R2). rewrite set_var_top. cbn [res_bind safely].
  pose proof (after_good _ _ _ Hg1 A2) as Hg2. set (size := r1.1) in *. set (v := r2.1) in *. set (w2 := r2.2) in *.
  assert (after w w2) as A3 by by eapply after_trans.
  assert (offset w2 = offset w + 8) as O3 by lia.
  rewrite run_cons. cbn [exec]. rewrite word_var_below, word_var_top by done. cbn [res_bind].
  destruct (size <? 8) eqn:H8; [done|]. cbn [res_bind]. rewrite run_cons. cbn [exec eval_rhs].
  rewrite word_var_below, word_var_top by done. cbn [res_bind fst snd].
  destruct Hg2 as (Ho2 & Hs2 & Hf2 & Hb2). pose proof (proj1 (proj1 Hg)) as H0.
  rewrite safe_end by lia.
  rewrite run_cons. cbn [exec]. rewrite word_var_top. cbn [res_bind].
  destruct (num_bytes w2 <? offset w2 - 8 + size) eqn:Hend; [done|]. cbn [res_bind].
  assert (num_bytes w2 = Z.of_nat (length (data w))) as Hnb.
  { unfold num_bytes. rewrite (proj1 A3). apply u32_small. rewrite <- (proj1 A3). lia. }
  rewrite Hnb in Hend.
  set (e3 := offset w2 - 8 + size) in *.
  pose proof Hg as (_ & _ & Hf & _). rewrite <- (proj1 A3) in Hf.
  assert (good fuel w2) as Hg3 by (split_and!; [lia|lia|lia|lia|done]).
  rewrite run_app. apply safely_bind.
  assert (focus p 0 (EVar V_out) (λ x, [(V_struct_end, BVal (VWord 8 e3)); (V_version, BVal (VWord 4 v));
      (V_num_bytes, BVal (VWord 4 size)); (V_out, BVal x)])) as HE.
  { apply (focus_var_below p 0 V_out [(V_struct_end, _); (V_version, _); (V_num_bytes, _)] []);
      [intros [[]|[|]]; done|set_solver]. }
  eapply safely_mono; [|refine (safe_fields fuel v (wire_fields s) Hcalls 0 b _ (map f_name (s_fields s)) h Hb HE _ Hnd _ _ w2 Hg3)].
  - intros [env w3] (ex & v' & Hex & He & _ & A4). cbn in He, A4. subst env. rewrite run_one. cbn [exec].
    rewrite word_var_skip, word_var_top by (apply (not_fresh_0 V_struct_end (λ F, F)); exact Hex). cbn [res_bind safely].
    match goal with |- context [ex ++ ?l] => change l with ([(V_struct_end, BVal (VWord 8 e3)); (V_version, BVal (VWord 4 v));
      (V_num_bytes, BVal (VWord 4 size))] ++ [(V_out, BVal v')]) end.
    rewrite app_assoc. eapply safely_mono; [|apply object_value].
    + intros r ->. split; cbn; [by rewrite (proj1 A4), (proj1 A3)|]. unfold e3. lia.
    + apply Forall_app. split; [by apply (not_fresh_0 V_out (λ F, F))|by repeat constructor].
  - intros x. rewrite word_var_below by done. apply word_var_top.
  - by rewrite wire_fields_perm.
  - intros f Hi%elem_of_wire_fields. split_and!; [by apply list_elem_of_fmap_2|by eapply ready_field| |].
    + apply Hh. by apply (list_elem_of_fmap_2 (λ f, (f_name f, field_init f))).
    + apply (Hclosed_s s); [by eapply find_struct_in|done].
Qed.

Lemma read_case_in fs cases c : read_cases ext ctx fs = inr cases → c ∈ cases →
  ∃ f vt b u, f ∈ fs ∧ EmitReadInto ext ctx None (uf_type f) (EVar V_wvc_v) 0 = inr (b, u) ∧
    c.2 = [SDeclInit vt (uf_type f) V_wvc_v] ++ b ++ [SSetUnion (uf_name f) (uf_tag f) V_wvc_v].
Proof.
  revert cases. induction fs as [|g fs IH]; intros cases Hc Hin; cbn in Hc; gen_inv; [by apply elem_of_nil in Hin|].
  apply elem_of_cons in Hin as [[= -> -> ->]|Hin].
  - exists g. do 3 eexists. split; [by left|]. split; [eassumption|]. reflexivity.
  - destruct (IH _ Ea1 Hin) as (f & vt & b & u & Hf & Hr). exists f, vt, b, u. split; [by right|done].
Qed.

(** The switch of a union's reader. *)
Lemma safe_switch fuel u cases other n env v w :
  calls_safe fuel → u ∈ AllUnions (p_module p) → read_cases ext ctx (u_fields u) = inr cases → good fuel w →
  Forall (λ x : Var * Binding, V_out ≠ x.1) env → word_var V_tag (env ++ [(V_out, BVal v)]) = inr n →
  (∀ v, focus p 0 (EVar V_wvc_v) (λ x, (V_wvc_v, BVal x) :: env ++ [(V_out, BVal v)])) →
  safely (exec p (call p fuel) (SSwitchTag (CppEmbedName_union u) cases other) (env ++ [(V_out, BVal v)], w))
    (λ st, ∃ v', st.1 = env ++ [(V_out, BVal v')] ∧ True ∧ after w st.2).
Proof using H64 Hclosed_u.
  intros Hcalls Hu Hcases Hg Henv Htag HE. rewrite exec_switch_tag. cbn [fst snd]. rewrite Htag. cbn [res_bind].
  unfold switch. destruct (List.find _ cases) as [c|] eqn:Hc.
  - apply find_in in Hc as [Hin _]. destruct (read_case_in _ _ c Hcases Hin) as (f & vt & b & u' & Hf & Hb & ->).
    eapply (safe_scope _ _ (λ _, True) _ (λ v, env ++ [(V_out, BVal v)])); [by intros; rewrite !length_app| |exact Hg].
    clear w Hg. intros w Hg. cbn [app]. rewrite run_cons. cbn [exec res_bind]. rewrite run_app. apply safely_bind.
    eapply safely_mono; [|refine (safe_all fuel Hcalls None (uf_type f) _ 0 b u' (λ x, (V_wvc_v, BVal x) :: env ++ [(V_out, BVal v)])
      (init (uf_type f)) Hb _ (HE v) I (or_introl eq_refl) w Hg)]; [|by apply (Hclosed_u u)].
    intros [env' w'] (ex & x & Hex & He & _ & Ha). cbn in He, Ha. subst env'. rewrite run_one. cbn [exec].
    rewrite (eval_move p V_wvc_v x ex) by by apply (not_fresh_0 V_wvc_v (λ F, F)). cbn [res_bind fst snd].
    rewrite set_var_skip by by apply (not_fresh_0 V_out (λ F, F)). rewrite set_var_below by done.
    rewrite set_var_skip by done. rewrite set_var_top. cbn [res_bind safely fst snd].
    exists (ex ++ [(V_wvc_v, BVal x)]), (VUnion (uf_tag f) (uf_name f) x).
    split_and!; [by apply Forall_true|by rewrite <- app_assoc|done|done].
  - assert (∀ x, safely (let* e := set_var V_out x (env ++ [(V_out, BVal v)]) in inr (e, w))
      (λ st : State, ∃ v', st.1 = env ++ [(V_out, BVal v')] ∧ True ∧ after w st.2)) as Hset.
    { intros x. rewrite set_var_skip by done. rewrite set_var_top. cbn. eexists. split_and!; [done..|].
      by eapply after_refl. }
    destruct other; [apply Hset|apply Hset|done].
Qed.

Lemma call_safe_union fuel t u w :
  calls_safe fuel → t_kind t = kUnionRef → nullable t = false → find_union (p_module p) t = Some u →
  good (S fuel) w →
  safely (call p (S fuel) false (CppEmbedName_type t) (bool_decide (CppEmbedName_type t ∈ ctx)) (init t) w)
    (λ r, after w r.2).
Proof using H64 PK Hclosed_u.
  intros Hcalls Hk Hn Hu Hg. destruct (pk_union _ _ _ PK t u Hu) as (io & Hc & Hio).
  destruct (EmitUnionIO_inv _ _ _ _ Hio) as (b0 & cases & other & _ & Hcases & Hother & ->).
  cbn [call]. rewrite Hc. cbn [some res_bind io_read io_needs_ctx orb].
  rewrite (find_union_name _ _ _ Hu), bool_decide_true by done.
  generalize (open_val (p_module p) (init t)). intros v0. unfold union_reader. rewrite run_unused.
  rewrite run_cons. cbn [exec eval_rhs res_bind fst snd]. rewrite run_cons. cbn [exec].
  apply safely_bind, safely_bind, safely_bind.
  eapply safely_mono; [|exact (ReadScalar_safe (S fuel) 4 w Hg ltac:(lia))].
  intros r1 (A1 & O1 & R1). rewrite set_var_top. cbn [res_bind safely].
  pose proof (after_good _ _ _ Hg A1) as Hg1. set (size := r1.1) in *. set (w1 := r1.2) in *.
  rewrite run_cons. cbn [exec]. rewrite word_var_top. cbn [res_bind].
  destruct (size <? 4) eqn:H4; [done|]. cbn [res_bind]. rewrite run_cons. cbn [exec eval_rhs].
  rewrite word_var_top. cbn [res_bind fst snd].
  pose proof Hg1 as (Ho1 & Hs1 & Hf1 & Hb1). pose proof (proj1 (proj1 Hg)) as H0.
  rewrite (uw_small64 (offset w1 - 4)), uw_small64 by lia. set (e3 := offset w1 - 4 + size) in *.
  rewrite run_cons. cbn [exec]. rewrite word_var_top. cbn [res_bind].
  destruct (num_bytes w1 <? e3) eqn:Hend; [done|]. cbn [res_bind].
  assert (num_bytes w1 = Z.of_nat (length (data w))) as Hnb.
  { unfold num_bytes. rewrite (proj1 A1). apply u32_small. rewrite <- (proj1 A1). lia. }
  rewrite Hnb in Hend. rewrite run_cons. cbn [exec eval_rhs res_bind fst snd]. rewrite run_cons.
  apply safely_bind. cbn [exec at_var]. rewrite decide_True by done. apply safely_bind.
  change (read_scalar p (VWord 4 0) w1) with (let* r := ReadScalar 4 w1 in inr (VWord 4 r.1, r.2)).
  apply safely_bind.
  eapply safely_mono; [|exact (ReadScalar_safe (S fuel) 4 w1 Hg1 ltac:(lia))].
  intros r2 (A2 & O2 & R2). cbn [safely fst snd]. set (tag := r2.1) in *. set (w2 := r2.2) in *.
  assert (after w w2) as A3 by by eapply after_trans.
  pose proof Hg as (_ & Hs & Hf & Hb). pose proof (proj2 (proj2 A3)) as H2.
  assert (good fuel w2) as Hg2 by (unfold good; rewrite (proj1 A3); split_and!; [lia|lia|lia|lia|done]).
  rewrite run_cons. apply safely_bind.
  match goal with |- context [exec _ _ _ (?l, w2)] => change l with ([(V_tag, BVal (VWord 4 tag)); (V_union_end, BVal (VWord 8 e3));
    (V_union_size, BVal (VWord 4 size))] ++ [(V_out, BVal v0)]) end.
  eapply safely_mono; [|apply (safe_switch fuel u cases other tag _ v0 w2 Hcalls (find_union_in _ _ _ Hu) Hcases Hg2)].
  - intros [env w3] (v' & He & _ & A4). cbn in He, A4. subst env. rewrite run_one. cbn [exec].
    rewrite word_var_below, word_var_top by done. cbn [res_bind safely].
    eapply safely_mono; [|apply (object_value [(V_tag, BVal (VWord 4 tag)); (V_union_end, BVal (VWord 8 e3)); (V_union_size, BVal (VWord 4 size))])].
    + intros r ->. split; cbn; [by rewrite (proj1 A4), (proj1 A3)|]. unfold e3. lia.
    + by repeat constructor.
  - by repeat constructor.
  - done.
  - intros v. apply (focus_var p 0). intros [[]|[|]]; done.
Qed.

(** Readers are safe, with as many calls left as the rest of the payload allows. *)
Lemma readers_safe fuel : calls_safe fuel.
Proof using H64 PK Hclosed_s Hclosed_u.
  induction fuel as [|fuel IH]; intros t w Hk Hn Hc Hg.
  { destruct Hg as (? & ? & ? & _). lia. }
  destruct t as [k nm el ky nu ns c sz]. cbn [t_kind nullable] in Hk, Hn. subst nu.
  destruct Hk as [-> | ->]; cbn [closed t_kind] in Hc; apply andb_prop in Hc as [_ [d Hd]%bool_decide_eq_true].
  - by apply (call_safe_struct fuel _ d).
  - by apply (call_safe_union fuel _ d).
Qed.
End functions.
End safe.
