(* ===== verification/RouterProps.v ===== *)
(** * What the router delivers

    Clients that do not call back into the router: from the pipe to the clients nothing
    is lost, repeated or reordered within an interface ([associated_fifo]); the counts of
    handles; ids; and what a client that does call back can bring about. *)
From Stdlib Require Import ZArith Lia.
From stdpp Require Import base list gmap.
From S2P Require Import Prelude Sandbox SandboxProps BindMessage Codec GenSem GenSafe GenCall Router.

(** ** Clients that only take messages *)

Section consuming.
Context `{Platform} {Client : Type} (ok : Client → Sent → bool) (takes : Router Client (list (Client * Sent)) → Sent → bool).
#[local] Abbreviation R := (Router Client (list (Client * Sent))).

(** [world] is what clients have been given. *)
Definition consume (c : Client) (m : Sent) : M R bool := modify (with_world (λ l, l ++ [(c, m)])) ;; ret (ok c m).
Definition no_closure (k : nat) : M R unit := ret tt.
Definition no_reason (k : nat) (reason : Z) (description : list Z) : M R unit := ret tt.

#[local] Abbreviation RaiseError := (RaiseError no_closure no_reason).
#[local] Abbreviation SendMessage := (SendMessage no_closure no_reason takes).
#[local] Abbreviation CloseEndpoint := (CloseEndpoint no_closure no_reason takes).
#[local] Abbreviation AttachEndpointClient := (AttachEndpointClient consume no_closure no_reason).
#[local] Abbreviation drain := (drain consume no_closure no_reason).
#[local] Abbreviation Accept := (Accept consume no_closure no_reason takes).
#[local] Abbreviation read_all := (read_all consume no_closure no_reason takes).
#[local] Abbreviation OnReadable := (OnReadable consume no_closure no_reason takes).
#[local] Abbreviation OnPeerClosed := (OnPeerClosed consume no_closure no_reason takes).

Inductive Event :=
  | PeerWrites (m : option Sent)
  | PeerCloses
  | Readable (result_ok : bool)
  | PeerClosed
  | Start | Pause | Resume | ClosePipe
  | Attach (id : Z) (c : Client) | Detach (id : Z) | AttachPrimary (c : Client) | DetachPrimary
  | MakeHandle (id : Z) | MakePair | Release (id : Z) | Close (id : Z)
  | Send (m : Sent) | OnClosed (id : Z) (k : nat) | OnClosedReason (id : Z) (k : nat).

Definition run_event (e : Event) : M R unit :=
  match e with
  | PeerWrites m =>
      modify (with_connector (λ c,
        if pipe_ c && negb (peer_closed c)
        then mkConnector (pipe_ c) (incoming c ++ [m]) (peer_closed c) (outgoing c) (watching_ c) (error_ c) (paused_ c)
        else c))
  | PeerCloses =>
      modify (with_connector (λ c, mkConnector (pipe_ c) (incoming c) true (outgoing c) (watching_ c) (error_ c) (paused_ c)))
  | Readable result_ok => OnReadable result_ok
  | PeerClosed => OnPeerClosed
  | Start => StartReceiving
  | Pause => PauseIncomingMethodCallProcessing
  | Resume => ResumeIncomingMethodCallProcessing
  | ClosePipe => CloseMessagePipe
  | Attach id c => AttachEndpointClient id c
  | Detach id => DetachEndpointClient id
  | AttachPrimary c => AttachPrimaryClient c
  | DetachPrimary => DetachPrimaryClient
  | MakeHandle id => CreateLocalEndpointHandle id ;; ret tt
  | MakePair => CreatePairPendingAssociation ;; ret tt
  | Release id => ReleaseWithoutClosing id ;; ret tt
  | Close id => CloseEndpoint id
  | Send m => SendMessage m ;; ret tt
  | OnClosed id k => SetPeerClosedHandler id k
  | OnClosedReason id k => SetPeerClosedWithReasonHandler id k
  end.
Fixpoint run_events (es : list Event) : M R unit :=
  match es with [] => ret tt | e :: es => run_event e ;; run_events es end.

(** ** What is where *)

Definition of_interface (id : Z) (l : list Sent) : list Sent := List.filter (λ m, sent_id m =? id) l.
Definition delivered (id : Z) (r : R) : list Sent := of_interface id (map snd (world r)).
Definition queued (id : Z) (r : R) : list Sent :=
  match endpoints_ r !! id with Some e => queued_messages e | None => [] end.
Definition in_pipe (id : Z) (r : R) : list Sent := of_interface id (omap (λ m, m) (incoming (connector_ r))).
(** What the peer has written for the interface before it closed its end. *)
Fixpoint written (id : Z) (es : list Event) : list Sent :=
  match es with
  | [] => []
  | PeerCloses :: _ => []
  | PeerWrites (Some m) :: es => (if sent_id m =? id then [m] else []) ++ written id es
  | _ :: es => written id es
  end.
Definition is_associated (id : Z) : Prop := id ≠ kPrimaryInterfaceId ∧ id ≠ kInvalidInterfaceId.

(** ** Steps that move no message *)

(** An endpoint with a client has nothing queued. *)
Definition idle (r : R) : Prop :=
  ∀ id e, endpoints_ r !! id = Some e → is_Some (client e) → queued_messages e = [].

Record quiet (r r' : R) : Prop := {
  q_world : world r' = world r;
  q_queue : ∀ id, queued id r' = queued id r;
  q_idle : idle r → idle r';
  q_closed : peer_closed (connector_ r') = peer_closed (connector_ r);
  q_pipe : (pipe_ (connector_ r') = pipe_ (connector_ r) ∧ incoming (connector_ r') = incoming (connector_ r) ∧
            error_ (connector_ r') = error_ (connector_ r)) ∨
           (pipe_ (connector_ r') = false ∧ incoming (connector_ r') = [])
}.

Lemma quiet_refl r : quiet r r.
Proof. split; try done. by left. Qed.
Lemma quiet_trans r1 r2 r3 : quiet r1 r2 → quiet r2 r3 → quiet r1 r3.
Proof.
  intros [A1 A2 A3 A4 A5] [B1 B2 B3 B4 B5]. split; [by rewrite B1|intros id; by rewrite B2|auto|by rewrite B4|].
  destruct B5 as [(-> & -> & ->)|B5]; [done|by right].
Qed.

Definition quietly {A} (m : M R A) : Prop := ∀ r, wp m (λ _ r', quiet r r') r.
Lemma quietly_ret {A} (a : A) : quietly (ret a).
Proof. intros r. apply quiet_refl. Qed.
Lemma quietly_bind {A B} (m : M R A) (k : A → M R B) : quietly m → (∀ a, quietly (k a)) → quietly (bind m k).
Proof.
  intros Hm Hk r. rewrite wp_bind. eapply wp_mono; [apply Hm|]. intros a r1 H1.
  eapply wp_mono; [apply Hk|]. intros b r2 H2. exact (quiet_trans _ _ _ H1 H2).
Qed.
Lemma quietly_get {A} (k : R → M R A) : (∀ r, wp (k r) (λ _ r', quiet r r') r) → quietly (bind get k).
Proof. intros Hk r. rewrite wp_bind, wp_get. apply Hk. Qed.
Lemma quietly_modify f : (∀ r, quiet r (f r)) → quietly (modify f).
Proof. intros Hf r. apply Hf. Qed.

Lemma quiet_connector f r :
  peer_closed (f (connector_ r)) = peer_closed (connector_ r) →
  (pipe_ (f (connector_ r)) = pipe_ (connector_ r) ∧ incoming (f (connector_ r)) = incoming (connector_ r) ∧
    error_ (f (connector_ r)) = error_ (connector_ r)) ∨ (pipe_ (f (connector_ r)) = false ∧ incoming (f (connector_ r)) = []) →
  quiet r (with_connector f r).
Proof. intros H1 H2. by split. Qed.

Lemma quiet_endpoints r node es :
  (∀ id, match es !! id with Some e => queued_messages e | None => [] end = queued id r) →
  (idle r → ∀ id e, es !! id = Some e → is_Some (client e) → queued_messages e = []) →
  quiet r (with_endpoints node es r).
Proof. intros H1 H2. split; try done. by left. Qed.

(** One endpoint is replaced. *)
Lemma quiet_insert r node id e e' :
  endpoints_ r !! id = Some e → queued_messages e' = queued_messages e → client e' = client e ∨ client e' = None →
  quiet r (with_endpoints node (<[id := e']> (endpoints_ r)) r).
Proof.
  intros He Hq Hc. apply quiet_endpoints.
  - intros id'. unfold queued. destruct (decide (id' = id)) as [->|Hne]; [by rewrite lookup_insert_eq, He|by rewrite lookup_insert_ne].
  - intros Hi id' x. destruct (decide (id' = id)) as [->|Hne]; [|rewrite lookup_insert_ne by done; apply Hi].
    rewrite lookup_insert_eq. intros [= ->] Hx. rewrite Hq. destruct Hc as [Hc|Hc]; rewrite Hc in Hx; [by apply (Hi id)|by destruct Hx].
Qed.
Lemma quiet_alter r node id f :
  (∀ e, queued_messages (f e) = queued_messages e ∧ (client (f e) = client e ∨ client (f e) = None)) →
  quiet r (with_endpoints node (alter f id (endpoints_ r)) r).
Proof.
  intros Hf. destruct (endpoints_ r !! id) as [e|] eqn:He.
  - assert (alter f id (endpoints_ r) = <[id := f e]> (endpoints_ r)) as ->.
    { apply map_eq. intros id'. destruct (decide (id' = id)) as [->|Hne].
      - by rewrite lookup_alter_eq, lookup_insert_eq, He.
      - by rewrite lookup_alter_ne, lookup_insert_ne. }
    by apply (quiet_insert r node id e); [|apply Hf..].
  - assert (alter f id (endpoints_ r) = endpoints_ r) as ->.
    { apply map_eq. intros id'. destruct (decide (id' = id)) as [->|Hne]; [by rewrite lookup_alter_eq, He|by rewrite lookup_alter_ne]. }
    by apply quiet_endpoints.
Qed.
Lemma quiet_new r node id e :
  endpoints_ r !! id = None → queued_messages e = [] → quiet r (with_endpoints node (<[id := e]> (endpoints_ r)) r).
Proof.
  intros He Hq. apply quiet_endpoints.
  - intros id'. unfold queued. destruct (decide (id' = id)) as [->|Hne]; [by rewrite lookup_insert_eq, He|by rewrite lookup_insert_ne].
  - intros Hi id' x. destruct (decide (id' = id)) as [->|Hne]; [|rewrite lookup_insert_ne by done; apply Hi].
    by rewrite lookup_insert_eq; intros [= ->].
Qed.

(** The endpoint that is found or made. *)
Lemma found r id : wp (FindOrCreateEndpoint id) (λ node r', quiet r r' ∧
  (∃ e, endpoints_ r' !! id = Some e ∧ ep_node e = node) ∧ connector_ r' = connector_ r) r.
Proof.
  unfold FindOrCreateEndpoint. wp_step. destruct (endpoints_ r !! id) as [e|] eqn:He; wp_step.
  - split_and!; [apply quiet_refl|by exists e|done].
  - split_and!; [by apply quiet_new|eexists; cbn; by rewrite lookup_insert_eq|done].
Qed.
Lemma deref_found (r : R) id e (Q : Endpoint Client → R → Prop) : endpoints_ r !! id = Some e → Q e r → wp (deref id (ep_node e)) Q r.
Proof. intros He HQ. unfold deref. wp_step. rewrite He, Z.eqb_refl. by wp_step. Qed.
Lemma updated (r : R) id e f (Q : unit → R → Prop) : endpoints_ r !! id = Some e →
  Q tt (with_endpoints (next_node r) (<[id := f e]> (endpoints_ r)) r) → wp (update_endpoint id (ep_node e) f) Q r.
Proof. intros He HQ. unfold update_endpoint. wp_step. apply deref_found; [done|]. by wp_step. Qed.

(** An update of an endpoint, found or made. *)
Lemma quietly_update id f :
  (∀ e, queued_messages (f e) = queued_messages e ∧ client (f e) = client e) →
  quietly (let! node := FindOrCreateEndpoint id in update_endpoint id node f).
Proof.
  intros Hf r. wp_step. eapply wp_mono; [apply found|]. intros node r' (Hq & (e & He & <-) & _).
  apply updated; [done|]. eapply quiet_trans; [exact Hq|]. apply (quiet_insert r' _ id e); [done|apply Hf|left; apply Hf].
Qed.

Lemma quietly_erase id : quietly (MaybeEraseEndpoint id).
Proof.
  unfold MaybeEraseEndpoint. apply quietly_get. intros r. destruct (endpoints_ r !! id) as [e|] eqn:He; [|apply quietly_ret].
  destruct (_ && _) eqn:Hb; [|apply quietly_ret]. apply andb_prop in Hb as [_ Hl%bool_decide_eq_true]. wp_step.
  apply quiet_endpoints.
  - intros id'. unfold queued. destruct (decide (id' = id)) as [->|Hne]; [|by rewrite lookup_delete_ne].
    rewrite lookup_delete_eq, He. symmetry. by apply nil_length_inv.
  - intros Hi id' x [_ Hx]%lookup_delete_Some. by apply (Hi id').
Qed.
Lemma quietly_detach id : quietly (DetachEndpointClient id).
Proof.
  apply quietly_bind; [|intros _; apply quietly_erase]. apply quietly_modify. intros r. apply quiet_alter. intros e.
  split; [done|by right].
Qed.
Lemma quietly_drop id : quietly (DropEndpointHandle id).
Proof.
  unfold DropEndpointHandle. apply quietly_get. intros r. destruct (endpoints_ r !! id); [|apply quietly_ret].
  apply quietly_bind; [|intros _; apply quietly_erase]. apply quietly_modify. intros r'. apply quiet_alter. intros e'.
  split; [by destruct (0 <? refs e')|left; by destruct (0 <? refs e')].
Qed.

Lemma quiet_fields r r' :
  world r' = world r → endpoints_ r' = endpoints_ r → peer_closed (connector_ r') = peer_closed (connector_ r) →
  (pipe_ (connector_ r') = pipe_ (connector_ r) ∧ incoming (connector_ r') = incoming (connector_ r) ∧
    error_ (connector_ r') = error_ (connector_ r)) ∨ (pipe_ (connector_ r') = false ∧ incoming (connector_ r') = []) →
  quiet r r'.
Proof.
  intros Hw He Hc Hp. split; [done| | |done|done]; unfold queued, idle; by rewrite He.
Qed.

Lemma quietly_error : quietly (OnPipeError no_closure no_reason).
Proof.
  unfold OnPipeError. apply quietly_get. intros r. destruct (connection_error_with_reason_handler_ r).
  { apply quietly_bind; [|intros _; apply quietly_ret]. apply quietly_modify. intros r'. apply quiet_fields; first [done|by left]. }
  destruct (connection_error_handler_ r); [|apply quietly_ret].
  apply quietly_bind; [|intros _; apply quietly_ret]. apply quietly_modify. intros r'. apply quiet_fields; first [done|by left].
Qed.
Lemma quietly_raise : quietly RaiseError.
Proof.
  unfold Router.RaiseError. apply quietly_get. intros r. destruct (error_ (connector_ r)); [apply quietly_ret|].
  unfold CancelWatchers, reset_pipe. wp_step. eapply wp_mono; [apply quietly_error|]. intros u r' Hr.
  eapply quiet_trans; [|exact Hr]. apply quiet_fields; first [done|by right].
Qed.
Lemma quietly_send m : quietly (SendMessage m).
Proof.
  unfold Router.SendMessage. apply quietly_get. intros r. destruct (_ || _); [apply quietly_ret|].
  destruct (takes r m).
  - apply quietly_bind; [|intros _; apply quietly_ret]. apply quietly_modify. intros r'. apply quiet_fields; first [done|by left].
  - apply quietly_bind; [apply quietly_raise|intros _; apply quietly_ret].
Qed.
Lemma quietly_close id : quietly (CloseEndpoint id).
Proof.
  apply quietly_bind; [|intros _; apply quietly_bind; [|intros _; apply quietly_drop]].
  - apply quietly_bind; [apply quietly_send|intros _; apply quietly_ret].
  - apply quietly_modify. intros r. apply quiet_alter. intros e. split; [done|by right].
Qed.
Lemma quietly_found id : quietly (FindOrCreateEndpoint id).
Proof. intros r. eapply wp_mono; [apply found|]. by intros node r' [Hq _]. Qed.
Lemma quietly_retain id : quietly (RetainEndpoint id).
Proof. by apply quietly_update. Qed.
Lemma quietly_mint : quietly MintInterfaceId.
Proof. unfold MintInterfaceId. apply quietly_get. intros r. wp_step. apply quiet_fields; first [done|by left]. Qed.

(** What a message can be that comes from the pipe. *)
Definition message_ok (m : Sent) : Prop := Forall byte_ok (sent_data m) ∧ Z.of_nat (length (sent_data m)) < 2 ^ 32.

(** Reading ends in a value or in [return false], if it does not leave the message. *)
Definition plain_failure {A} (r : Result A) : Prop :=
  match r with inr _ | inl ReturnFalse | inl Stuck => True | _ => False end.
Lemma plain_bind {A B} (m : Result A) (k : A → Result B) :
  plain_failure m → (∀ a, plain_failure (k a)) → plain_failure (res_bind m k).
Proof. destruct m as [[]|a]; cbn; auto. Qed.
Lemma plain_bytes n w : plain_failure (read_bytes n w).
Proof. unfold read_bytes. destruct (_ <? _); [done|]. by destruct (_ <=? _). Qed.
Lemma plain_scalar n w : plain_failure (ReadScalar n w).
Proof. apply plain_bind; [apply plain_bytes|done]. Qed.
Lemma plain_string w : plain_failure (ReadString w).
Proof. apply plain_bind; [apply plain_scalar|intros a; apply plain_bytes]. Qed.

Lemma quietly_or_false {A} (x : Result A) (k : A → M R bool) (P : A → Prop) :
  plain_failure x → safely x P → (∀ a, P a → quietly (k a)) → quietly (or_false x k).
Proof. intros Hx Hs Hk. destruct x as [[]|a]; try done; [apply quietly_ret|by apply Hk]. Qed.

Context (H64 : uintptr_bits = 64).

Lemma quietly_notified id reason description :
  quietly (A := bool) (let! r := (get : M R R) in
    match endpoints_ r !! id with
    | None => ret tt
    | Some e =>
        match peer_closed_with_reason_handler e, peer_closed_handler e with
        | Some k, k' => update_endpoint id (ep_node e) (with_closed k' None) ;; no_reason k reason description
        | None, Some k => update_endpoint id (ep_node e) (with_closed None None) ;; no_closure k
        | None, None => ret tt
        end
    end ;; ret true).
Proof.
  apply quietly_get. intros r. destruct (endpoints_ r !! id) as [e|] eqn:He; [|apply quietly_bind; apply quietly_ret].
  wp_step. destruct (peer_closed_with_reason_handler e), (peer_closed_handler e); wp_step;
    try (apply updated; [done|]; unfold no_reason, no_closure; wp_step; apply (quiet_insert r _ id e); [done|done|by left]).
  apply quiet_refl.
Qed.

Lemma quietly_control m : message_ok m → quietly (HandlePipeControlMessage no_closure no_reason takes m).
Proof using H64.
  intros [Hb Hl]. unfold HandlePipeControlMessage. destruct (_ =? _).
  { destruct (has_flag _ _).
    - apply quietly_bind; [|intros _; apply quietly_ret]. apply quietly_modify. intros r. apply quiet_fields; first [done|by left].
    - apply quietly_bind; [apply quietly_send|intros _; apply quietly_ret]. }
  set (fuel := S (length (sent_data m))). assert (good fuel (mkWire (sent_data m) [] 0 0 [])) as Hg.
  { unfold good, fuel. cbn. split_and!; [lia..|done]. }
  eapply quietly_or_false; [apply plain_scalar|exact (ReadScalar_safe H64 fuel 4 _ Hg ltac:(lia))|].
  intros [id w] (Ha & _). cbn [fst snd] in Ha. pose proof (after_good _ _ _ Hg Ha) as Hg1.
  eapply (quietly_or_false _ _ (λ _, True)).
  - destruct (_ <? _); [|done]. apply plain_bind; [apply plain_scalar|]. intros [reason w1].
    apply plain_bind; [apply plain_string|]. by intros [].
  - destruct (_ <? _); [|done]. apply safely_bind. eapply safely_mono; [|exact (ReadScalar_safe H64 fuel 4 _ Hg1 ltac:(lia))].
    intros [reason w1] (Ha1 & _). cbn [fst snd] in Ha1. apply safely_bind.
    eapply safely_mono; [|exact (ReadString_safe H64 fuel w1 (after_good _ _ _ Hg1 Ha1))]. by intros [].
  - intros [reason description] _. apply quietly_bind; [|intros _; apply quietly_notified].
    destruct (IsPrimaryInterfaceId id); [|apply quietly_ret]. apply quietly_modify. intros r. apply quiet_fields; first [done|by left].
Qed.
(** ** Steps that move messages *)

Definition seen (id : Z) (r : R) : list Sent := delivered id r ++ queued id r.
(** Messages wait where they belong. *)
Definition owned (r : R) : Prop := ∀ id, Forall (λ m, sent_id m = id) (queued id r).

(** From [r] to [r'] the messages [l] have come to their endpoints. *)
Record moved (l : list Sent) (r r' : R) : Prop := {
  mv_seen : ∀ id, is_associated id → seen id r' = seen id r ++ of_interface id l;
  mv_idle : idle r';
  mv_owned : owned r';
  mv_closed : peer_closed (connector_ r') = peer_closed (connector_ r);
  mv_pipe : (pipe_ (connector_ r') = pipe_ (connector_ r) ∧ incoming (connector_ r') = incoming (connector_ r) ∧
             error_ (connector_ r') = error_ (connector_ r)) ∨
            (pipe_ (connector_ r') = false ∧ incoming (connector_ r') = [])
}.

Lemma of_interface_app id l l' : of_interface id (l ++ l') = of_interface id l ++ of_interface id l'.
Proof. apply List.filter_app. Qed.
Lemma of_interface_other id m : sent_id m ≠ id → of_interface id [m] = [].
Proof. intros Hn. cbn. by rewrite (proj2 (Z.eqb_neq _ _) Hn). Qed.
Lemma of_interface_own id m : sent_id m = id → of_interface id [m] = [m].
Proof. intros <-. cbn. by rewrite Z.eqb_refl. Qed.

Lemma quiet_moved r r' : quiet r r' → idle r → owned r → moved [] r r'.
Proof.
  intros [H1 H2 H3 H4 H5] Hi Ho. split; [|auto| |done|done].
  - intros id _. unfold seen, delivered. by rewrite H1, H2, app_nil_r.
  - intros id. by rewrite H2.
Qed.
Lemma moved_trans l l' r1 r2 r3 : moved l r1 r2 → moved l' r2 r3 → moved (l ++ l') r1 r3.
Proof.
  intros [A1 A2 A3 A4 A5] [B1 B2 B3 B4 B5]. split; [|done|done|by rewrite B4|].
  - intros id Hid. by rewrite B1, A1, of_interface_app, app_assoc.
  - destruct B5 as [(-> & -> & ->)|B5]; [done|by right].
Qed.

(** A client is given a message while nothing is queued for it. *)
Lemma consumed r c m : idle r → owned r → (is_associated (sent_id m) → queued (sent_id m) r = []) →
  wp (consume c m) (λ b r', b = ok c m ∧ moved [m] r r' ∧ endpoints_ r' = endpoints_ r ∧ connector_ r' = connector_ r) r.
Proof.
  intros Hi Ho Hq. unfold consume. wp_step. split_and!; [done| |done|done]. split; [|done|done|done|by left].
  intros id Hid. unfold seen, delivered. cbn [world with_world]. rewrite map_app, of_interface_app. cbn [map snd].
  change (queued id (with_world _ r)) with (queued id r).
  destruct (decide (sent_id m = id)) as [<-|Hne]; [by rewrite Hq, !app_nil_r|].
  by rewrite of_interface_other, !app_nil_r.
Qed.

Lemma raised r : error_ (connector_ r) = false →
  wp RaiseError (λ _ r', quiet r r' ∧ pipe_ (connector_ r') = false ∧ incoming (connector_ r') = []) r.
Proof.
  intros He. eapply wp_mono; [apply wp_and; [apply quietly_raise|]|intros ? ? [H1 H2]; exact (conj H1 H2)].
  unfold Router.RaiseError, CancelWatchers, reset_pipe. wp_step. rewrite He. wp_step.
  eapply wp_mono; [apply quietly_error|]. intros u r' [_ _ _ _ Hp]. cbn in Hp. by destruct Hp as [(-> & -> & _)|Hp].
Qed.

Lemma moved_other m r r' : moved [] r r' → ¬ is_associated (sent_id m) → moved [m] r r'.
Proof.
  intros [H1 H2 H3 H4 H5] Hm. split; [|done..]. intros id Hid. rewrite H1 by done.
  rewrite (of_interface_other id m); [done|]. intros E. apply Hm. by rewrite E.
Qed.

Lemma accepted m r : message_ok m → idle r → owned r → wp (Accept m) (λ _ r', moved [m] r r') r.
Proof using H64.
  intros Hm Hi Ho. unfold Router.Accept. destruct (Z.eqb_spec (sent_id m) kInvalidInterfaceId) as [E|Hn].
  { eapply wp_mono; [by apply quietly_control|]. intros b r' Hq. apply moved_other; [by apply quiet_moved|].
    by intros []. }
  unfold IsPrimaryInterfaceId. destruct (Z.eqb_spec (sent_id m) kPrimaryInterfaceId) as [E|Hn'].
  { wp_step. destruct (primary_client_ r) as [c|].
    - eapply wp_mono; [apply consumed; try done; intros Hid; by destruct Hid|]. by intros b r' (_ & Hmv & _).
    - wp_step. apply moved_other; [apply quiet_moved; [apply quiet_refl|done|done]|]. by intros []. }
  wp_step. eapply wp_mono; [apply found|]. intros node r1 (Hq & (e & He & <-) & _).
  pose proof (quiet_moved _ _ Hq Hi Ho) as Hmv. wp_step. apply deref_found; [done|].
  assert (queued (sent_id m) r1 = queued_messages e) as Hqe by (unfold queued; by rewrite He).
  destruct (client e) as [c|] eqn:Hc.
  - eapply wp_mono; [apply consumed; [apply Hmv|apply Hmv|]|].
    + intros _. rewrite Hqe. apply (mv_idle _ _ _ Hmv (sent_id m)); [done|by rewrite Hc].
    + intros b r2 (_ & Hmv2 & _). exact (moved_trans [] [m] _ _ _ Hmv Hmv2).
  - wp_step. apply updated; [done|]. wp_step. apply (moved_trans [] [m] _ _ _ Hmv). split; [| | |done|by left].
    + intros id Hid. unfold seen, delivered, queued. cbn [world with_endpoints endpoints_].
      destruct (decide (id = sent_id m)) as [->|Hne].
      * rewrite lookup_insert_eq, He. cbn. by rewrite Z.eqb_refl, app_assoc.
      * rewrite lookup_insert_ne by done. rewrite of_interface_other; [by rewrite !app_nil_r|congruence].
    + intros id x. cbn [endpoints_ with_endpoints]. destruct (decide (id = sent_id m)) as [->|Hne].
      * rewrite lookup_insert_eq. intros [= <-]. cbn. rewrite Hc. by intros [].
      * rewrite lookup_insert_ne by done. apply (mv_idle _ _ _ Hmv).
    + intros id. unfold queued. cbn [endpoints_ with_endpoints]. destruct (decide (id = sent_id m)) as [->|Hne].
      * rewrite lookup_insert_eq. cbn. apply Forall_app. split; [|by repeat constructor].
        rewrite <- Hqe. apply (mv_owned _ _ _ Hmv).
      * rewrite lookup_insert_ne by done. apply (mv_owned _ _ _ Hmv).
Qed.

(** Queued messages go to a client, until it refuses one. *)
Lemma drained id e c q r : endpoints_ r !! id = Some e → client e = Some c → queued_messages e = [] →
  (error_ (connector_ r) = true → pipe_ (connector_ r) = false ∧ incoming (connector_ r) = []) →
  idle r → owned r → Forall (λ m, sent_id m = id) q →
  wp (drain id (ep_node e) q) (λ _ r', ∃ l l', q = l ++ l' ∧ moved l r r' ∧
    (l' = [] ∨ pipe_ (connector_ r') = false ∧ incoming (connector_ r') = [])) r.
Proof.
  intros He Hc Hq. revert r He. induction q as [|m q IH]; intros r He Herr Hi Ho Hown; cbn [Router.drain].
  { wp_step. exists [], []. split_and!; [done|by apply quiet_moved; [apply quiet_refl|..]|by left]. }
  apply Forall_cons in Hown as [Hm Hown]. wp_step. apply deref_found; [done|]. rewrite Hc. wp_step.
  eapply wp_mono; [apply (consumed r c m Hi Ho); intros _; unfold queued; by rewrite Hm, He|].
  intros b r1 (-> & Hmv & Hes & Hcn). destruct (ok c m).
  - eapply wp_mono; [apply IH; [by rewrite Hes|by rewrite Hcn|apply Hmv|apply Hmv|done]|].
    intros u r2 (l & l' & -> & Hmv2 & Hend). exists (m :: l), l'. split_and!; [done| |done].
    exact (moved_trans [m] l _ _ _ Hmv Hmv2).
  - destruct (error_ (connector_ r)) eqn:Hr.
    + unfold Router.RaiseError. wp_step. rewrite Hcn, Hr. wp_step. exists [m], q. split_and!; [done|done|].
      right. rewrite Hcn. by apply Herr.
    + eapply wp_mono; [apply raised; by rewrite Hcn|]. intros u r2 (Hq2 & Hp). exists [m], q. split_and!; [done| |by right].
      rewrite <- (app_nil_r [m]). eapply moved_trans; [exact Hmv|]. apply quiet_moved; [done|apply Hmv..].
Qed.
(** ** The whole *)

Definition closes (e : Event) : bool := match e with PeerCloses => true | _ => false end.
Definition read_ok (o : option Sent) : Prop := match o with Some m => message_ok m | None => True end.

Record delivers (es : list Event) (r : R) : Prop := {
  dl_idle : idle r;
  dl_owned : owned r;
  dl_error : error_ (connector_ r) = true → pipe_ (connector_ r) = false;
  dl_gone : pipe_ (connector_ r) = false → incoming (connector_ r) = [];
  dl_ok : Forall read_ok (incoming (connector_ r));
  dl_closed : peer_closed (connector_ r) = existsb closes es;
  dl_prefix : ∀ id, is_associated id → seen id r `prefix_of` written id es;
  dl_all : pipe_ (connector_ r) = true → ∀ id, is_associated id → seen id r ++ in_pipe id r = written id es
}.

(** After messages [l], the first ones of the pipe, have come to their endpoints. *)
Lemma delivers_moved es r r1 r' l rest :
  delivers es r → connector_ r1 = mkConnector (pipe_ (connector_ r)) rest (peer_closed (connector_ r)) (outgoing (connector_ r))
    (watching_ (connector_ r)) (error_ (connector_ r)) (paused_ (connector_ r)) →
  (∀ id, seen id r1 = seen id r) → incoming (connector_ r) = map Some l ++ rest → moved l r1 r' → delivers es r'.
Proof.
  intros [D1 D2 D3 D4 D5 D6 D7 D8] Hc Hs Hin [M1 M2 M3 M4 M5]. rewrite Hc in M4, M5. cbn in M4, M5.
  assert (∀ id, in_pipe id r = of_interface id l ++ of_interface id (omap (λ m, m) rest)) as Hp.
  { intros id. unfold in_pipe. rewrite Hin, omap_app, of_interface_app. f_equal. f_equal. clear.
    induction l as [|m l IH]; cbn; [done|by f_equal]. }
  assert (∀ id, is_associated id → seen id r' `prefix_of` written id es) as Hpre.
  { intros id Hid. rewrite M1, Hs by done. destruct (pipe_ (connector_ r)) eqn:E.
    - rewrite <- D8, Hp, app_assoc by done. by eexists.
    - rewrite D4 in Hin by done. destruct l; [cbn; rewrite app_nil_r; by apply D7|done]. }
  destruct M5 as [(P1 & P2 & P3)|[P1 P2]]; split; rewrite ?P1, ?P2, ?P3; try done; try (by rewrite M4).
  - intros E. specialize (D4 E). rewrite Hin in D4. by apply app_eq_nil in D4 as [_ ->].
  - rewrite Hin in D5. by apply Forall_app in D5 as [_ D5].
  - intros E id Hid. rewrite M1, Hs, <- D8, Hp, <- app_assoc by done. unfold in_pipe. by rewrite P2.
Qed.
Lemma delivers_quiet es r r' : delivers es r → quiet r r' → delivers es r'.
Proof.
  intros D Hq. apply (delivers_moved es r r r' [] (incoming (connector_ r)) D); try done; [by destruct (connector_ r)|].
  apply quiet_moved; [done|apply D..].
Qed.

Lemma delivers_raised es r : delivers es r → wp RaiseError (λ _ r', delivers es r') r.
Proof. intros D. eapply wp_mono; [apply quietly_raise|]. intros u r' Hq. by eapply delivers_quiet. Qed.

Lemma delivers_read es fuel r : delivers es r → (length (incoming (connector_ r)) < fuel)%nat →
  wp (read_all fuel) (λ _ r', delivers es r') r.
Proof using H64.
  revert r. induction fuel as [|fuel IH]; intros r D Hf; [lia|]. cbn [Router.read_all]. unfold read_message. wp_step.
  destruct (pipe_ (connector_ r)) eqn:Hp; cbn [negb]; [|wp_step; by apply delivers_raised].
  destruct (incoming (connector_ r)) as [|o rest] eqn:Hin.
  { wp_step. destruct (peer_closed (connector_ r)); [by apply delivers_raised|by wp_step]. }
  wp_step. set (r1 := with_connector _ r).
  assert (connector_ r1 = mkConnector (pipe_ (connector_ r)) rest (peer_closed (connector_ r)) (outgoing (connector_ r))
    (watching_ (connector_ r)) (error_ (connector_ r)) (paused_ (connector_ r))) as Hc by done.
  destruct o as [m|].
  - wp_step. eapply wp_mono.
    + apply (accepted m r1); [|apply D..]. pose proof (dl_ok _ _ D) as Hok. rewrite Hin in Hok. by apply Forall_cons in Hok as [? _].
    + intros b r2 Hmv. assert (delivers es r2) as D2 by by apply (delivers_moved es r r1 r2 [m] rest).
      destruct b; cbn [negb]; [|by apply delivers_raised]. wp_step.
      destruct (error_ (connector_ r2) || paused_ (connector_ r2)); [by wp_step|]. apply IH; [done|].
      cbn in Hf. pose proof (mv_pipe _ _ _ Hmv) as [(_ & E & _)|[_ E]]; rewrite E, ?Hc; cbn; lia.
  - assert (error_ (connector_ r) = false) as He.
    { destruct (error_ (connector_ r)) eqn:E; [|done]. by rewrite (dl_error _ _ D E) in Hp. }
    eapply wp_mono; [by apply raised|]. intros u r2 ([Q1 Q2 Q3 Q4 Q5] & P1 & P2).
    split; rewrite ?P1, ?P2; try done; [apply Q3, D|intros id; rewrite Q2; apply D|by rewrite Q4; apply D|].
    intros id Hid. unfold seen, delivered. rewrite Q1, Q2. by apply (dl_prefix _ _ D).
Qed.

Lemma delivers_attach es id c r : delivers es r → wp (AttachEndpointClient id c) (λ _ r', delivers es r') r.
Proof.
  intros D. unfold Router.AttachEndpointClient. wp_step. eapply wp_mono; [apply found|].
  intros node r1 (Hq & (e & He & <-) & _). assert (delivers es r1) as D1 by by eapply delivers_quiet. clear D Hq r.
  wp_step. apply updated; [done|]. set (e2 := with_client (Some c) e). set (r2 := with_endpoints _ _ r1).
  assert (endpoints_ r2 !! id = Some e2) as He2 by apply lookup_insert_eq.
  wp_step. change (ep_node e) with (ep_node e2). apply deref_found; [done|].
  assert (∀ id', queued id' r2 = queued id' r1) as Hq2.
  { intros id'. unfold queued, r2. cbn. destruct (decide (id' = id)) as [->|Hne]; [by rewrite lookup_insert_eq, He|by rewrite lookup_insert_ne]. }
  assert (∀ id' x, id' ≠ id → endpoints_ r2 !! id' = Some x → endpoints_ r1 !! id' = Some x) as Hother
    by (intros id' x Hne; unfold r2; cbn; by rewrite lookup_insert_ne).
  destruct (bool_decide_reflect (length (queued_messages e2) = 0%nat)) as [Hnil%nil_length_inv|_].
  { wp_step. split; try apply D1.
    - intros id' x Hx. destruct (decide (id' = id)) as [->|Hne]; [|by apply (dl_idle _ _ D1 id'), Hother].
      rewrite He2 in Hx. by injection Hx as <-.
    - intros id'. rewrite Hq2. apply D1.
    - intros id' Hid. unfold seen. rewrite Hq2. by apply (dl_prefix _ _ D1).
    - intros Hp id' Hid. unfold seen. rewrite Hq2. by apply (dl_all _ _ D1). }
  wp_step. apply updated; [done|]. set (r3 := with_endpoints _ _ r2).
  assert (endpoints_ r3 !! id = Some (with_queue [] e2)) as He3 by apply lookup_insert_eq.
  assert (∀ id', queued id' r3 = if decide (id' = id) then [] else queued id' r1) as Hq3.
  { intros id'. destruct (decide (id' = id)) as [->|Hne]; [unfold queued; by rewrite He3|].
    rewrite <- Hq2. unfold queued, r3. cbn [endpoints_ with_endpoints]. by rewrite lookup_insert_ne. }
  assert (queued id r1 = queued_messages e2) as Hqe by (unfold queued; by rewrite He).
  eapply wp_mono; [apply (drained id (with_queue [] e2) c (queued_messages e2) r3 He3)|]; try done.
  - intros E. split; [by apply D1|]. by apply D1, D1.
  - intros id' x Hx. destruct (decide (id' = id)) as [->|Hne].
    + rewrite He3 in Hx. by injection Hx as <-.
    + unfold r3 in Hx. cbn in Hx. rewrite lookup_insert_ne in Hx by done. by apply (dl_idle _ _ D1 id'), Hother.
  - intros id'. rewrite Hq3. destruct (decide (id' = id)); [done|apply D1].
  - rewrite <- Hqe. apply D1.
  - intros u r4 (l & l' & El & [M1 M2 M3 M4 M5] & Hend).
    assert (∀ id', is_associated id' → seen id' r4 ++ (if decide (id' = id) then l' else []) = seen id' r1) as Hseen.
    { intros id' Hid. rewrite M1 by done. unfold seen. rewrite Hq3. change (delivered id' r3) with (delivered id' r1).
      pose proof (dl_owned _ _ D1 id) as Hown. rewrite Hqe, El in Hown. apply Forall_app in Hown as [Hown _].
      destruct (decide (id' = id)) as [->|Hne].
      - rewrite Hqe, El, app_nil_r, <- !app_assoc. f_equal. f_equal.
        clear - Hown. induction Hown as [|m l Hm _ IH]; [done|]. cbn. rewrite Hm, Z.eqb_refl. by f_equal.
      - rewrite app_nil_r. replace (of_interface id' l) with ([] : list Sent); [by rewrite app_nil_r|].
        clear - Hown Hne. induction Hown as [|m l Hm _ IH]; [done|]. cbn. rewrite (proj2 (Z.eqb_neq _ _)); [done|congruence]. }
    assert (∀ id', is_associated id' → seen id' r4 `prefix_of` written id' es) as Hpre.
    { intros id' Hid. etransitivity; [|by apply (dl_prefix _ _ D1)]. rewrite <- (Hseen id' Hid). by eexists. }
    change (connector_ r3) with (connector_ r1) in *.
    destruct M5 as [(P1 & P2 & P3)|[P1 P2]]; split; rewrite ?P1, ?P2, ?P3, ?M4; try done; try apply D1.
    intros E id' Hid. destruct Hend as [->|[P4 _]]; [|by rewrite P1, E in P4].
    rewrite <- (dl_all _ _ D1 E id' Hid), <- (Hseen id' Hid). unfold in_pipe. rewrite P2.
    by destruct (decide (id' = id)); rewrite app_nil_r.
Qed.
Lemma written_app id es es' :
  written id (es ++ es') = written id es ++ (if existsb closes es then [] else written id es').
Proof.
  induction es as [|e es IH]; [done|]. cbn [app written existsb].
  destruct e as [[m|]| | | | | | | | | | | | | | | | | |]; cbn [closes orb]; try done. by rewrite IH, app_assoc.
Qed.
Lemma delivers_same es e r : delivers es r → closes e = false → (∀ id, written id [e] = []) → delivers (es ++ [e]) r.
Proof.
  intros D He Hw. assert (∀ id, written id (es ++ [e]) = written id es) as Hwr.
  { intros id. rewrite written_app, Hw. by destruct (existsb _ _); rewrite app_nil_r. }
  split; try apply D.
  - rewrite existsb_app. cbn. rewrite He, (dl_closed _ _ D), !orb_false_r. done.
  - intros id Hid. rewrite Hwr. by apply (dl_prefix _ _ D).
  - intros Hp id Hid. rewrite Hwr. by apply (dl_all _ _ D).
Qed.

Definition event_ok (e : Event) : Prop := match e with PeerWrites (Some m) => message_ok m | _ => True end.

Lemma delivers_event es e r : delivers es r → event_ok e → wp (run_event e) (λ _ r', delivers (es ++ [e]) r') r.
Proof using H64.
  intros D He.
  assert (∀ m : M R unit, quietly m → closes e = false → (∀ id, written id [e] = []) → wp m (λ _ r', delivers (es ++ [e]) r') r) as Hquiet.
  { intros m Hm H1 H2. eapply wp_mono; [apply Hm|]. intros u r' Hq. apply delivers_same; [by eapply delivers_quiet|done..]. }
  assert (∀ m : M R unit, wp m (λ _ r', delivers es r') r → closes e = false → (∀ id, written id [e] = []) →
    wp m (λ _ r', delivers (es ++ [e]) r') r) as Hdel.
  { intros m Hm H1 H2. eapply wp_mono; [exact Hm|]. intros u r' D'. by apply delivers_same. }
  destruct e as [o| |rok| | | | | |id c|id|c| |id| |id|id|m|id k|id k]; cbn [run_event].
  - wp_step. cbn [with_connector]. destruct (pipe_ (connector_ r) && negb (peer_closed (connector_ r))) eqn:E.
    + apply andb_prop in E as [E1 E2%negb_true_iff]. rewrite (dl_closed _ _ D) in E2.
      assert (∀ id, written id (es ++ [PeerWrites o]) = written id es ++ of_interface id (omap (λ m, m) [o])) as Hw.
      { intros id. rewrite written_app, E2. destruct o as [m|]; cbn; [by rewrite app_nil_r; destruct (_ =? _)|done]. }
      assert (∀ id, in_pipe id (with_connector (λ c, mkConnector (pipe_ c) (incoming c ++ [o]) (peer_closed c) (outgoing c)
        (watching_ c) (error_ c) (paused_ c)) r) = in_pipe id r ++ of_interface id (omap (λ m, m) [o])) as Hp.
      { intros id. unfold in_pipe. cbn [connector_ with_connector incoming]. by rewrite omap_app, of_interface_app. }
      unfold with_connector in *. rewrite E1, (dl_closed _ _ D), E2 in *. cbn [negb andb] in *.
      split; cbn [connector_ error_ pipe_ incoming peer_closed]; try apply D; try done.
      * intros E. pose proof (dl_error _ _ D E). congruence.
      * apply Forall_app. split; [apply D|]. by constructor.
      * by rewrite existsb_app, E2.
      * intros id Hid. rewrite Hw. etransitivity; [by apply (dl_prefix _ _ D)|by eexists].
      * intros _ id Hid. rewrite Hw, Hp, app_assoc. f_equal. by apply (dl_all _ _ D).
    + assert (with_connector (λ c : Connector, c) r = r) as Hr by by destruct r.
      unfold with_connector in *. rewrite E, Hr. apply andb_false_iff in E as [E|E%negb_false_iff].
      * split; try apply D; try congruence.
        -- by rewrite existsb_app, (dl_closed _ _ D), orb_false_r.
        -- intros id Hid. rewrite written_app. etransitivity; [by apply (dl_prefix _ _ D)|by eexists].
      * rewrite (dl_closed _ _ D) in E.
        split; try apply D; try intros Hp; try intros id Hid; rewrite ?written_app, ?existsb_app, ?(dl_closed _ _ D), E, ?app_nil_r;
          [done|by apply (dl_prefix _ _ D)|by apply (dl_all _ _ D)].
  - wp_step. split; try apply D.
    + cbn. rewrite existsb_app. cbn. by rewrite orb_true_r.
    + intros id Hid. rewrite written_app. cbn. destruct (existsb _ _); rewrite app_nil_r; by apply (dl_prefix _ _ D).
    + intros Hp id Hid. rewrite written_app. cbn. destruct (existsb _ _); rewrite app_nil_r; by apply (dl_all _ _ D).
  - apply Hdel; [|done..]. unfold Router.OnReadable, ReadAllAvailableMessages. wp_step. destruct (_ || _); [by wp_step|].
    destruct rok; [wp_step; apply delivers_read; [done|lia]|by apply delivers_raised].
  - apply Hdel; [|done..]. unfold Router.OnPeerClosed, ReadAllAvailableMessages. wp_step. destruct (_ || _); [by wp_step|].
    wp_step. eapply wp_mono; [apply delivers_read; [done|lia]|]. intros u r' D'. by apply delivers_raised.
  - apply Hquiet; [|done..]. apply quietly_modify. intros r'. apply quiet_fields; try done; cbn;
      destruct (_ || _); first [done|by left].
  - apply Hquiet; [|done..]. apply quietly_bind; [|intros u]; apply quietly_modify; intros r'; apply quiet_fields; first [done|by left].
  - apply Hquiet; [|done..]. apply quietly_get. intros r'. destruct (negb _); [apply quietly_ret|].
    apply quietly_bind; [|intros u]; apply quietly_modify; intros r2; apply quiet_fields; try done; cbn; try destruct (_ || _); first [done|by left].
  - apply Hquiet; [|done..]. apply quietly_bind; [|intros u]; apply quietly_modify; intros r'; apply quiet_fields; first [done|by left|by right].
  - apply Hdel; [|done..]. by apply delivers_attach.
  - apply Hquiet; [apply quietly_detach|done..].
  - apply Hquiet; [|done..]. apply quietly_modify; intros r'; apply quiet_fields; first [done|by left].
  - apply Hquiet; [|done..]. apply quietly_modify; intros r'; apply quiet_fields; first [done|by left].
  - apply Hquiet; [|done..]. apply quietly_bind; [|intros u; apply quietly_ret].
    apply quietly_bind; [apply quietly_found|intros n]. apply quietly_bind; [apply quietly_retain|intros u; apply quietly_ret].
  - apply Hquiet; [|done..]. apply quietly_bind; [|intros u; apply quietly_ret].
    apply quietly_bind; [apply quietly_mint|intros n]. apply quietly_bind; [apply quietly_found|intros n'].
    apply quietly_bind; [apply quietly_retain|intros u; apply quietly_ret].
  - apply Hquiet; [|done..]. apply quietly_bind; [|intros u; apply quietly_ret].
    apply quietly_bind; [apply quietly_drop|intros u; apply quietly_ret].
  - apply Hquiet; [apply quietly_close|done..].
  - apply Hquiet; [|done..]. apply quietly_bind; [apply quietly_send|intros u; apply quietly_ret].
  - apply Hquiet; [by apply quietly_update|done..].
  - apply Hquiet; [by apply quietly_update|done..].
Qed.

Lemma delivers_events es' es r : delivers es r → Forall event_ok es' → wp (run_events es') (λ _ r', delivers (es ++ es') r') r.
Proof using H64.
  intros D Hok. revert es r D. induction Hok as [|e es' He _ IH]; intros es r D; cbn [run_events]; wp_step; [by rewrite app_nil_r|].
  eapply wp_mono; [by apply delivers_event|]. intros u r' D'. replace (es ++ e :: es') with ((es ++ [e]) ++ es') by by rewrite <- app_assoc.
  by apply IH.
Qed.

(** ** Handles *)

Definition refs_of (id : Z) (r : R) : Z := match endpoints_ r !! id with Some e => refs e | None => 0 end.
Definition counted (r : R) : Prop := ∀ id, 0 <= refs_of id r.
(** An endpoint that is kept is there for something. *)
Definition used (e : Endpoint Client) : Prop := 0 < refs e ∨ is_Some (client e) ∨ queued_messages e ≠ [].
Definition in_use (r : R) : Prop := ∀ id e, endpoints_ r !! id = Some e → used e.
Definition in_use_but (id : Z) (r : R) : Prop := ∀ id' e, id' ≠ id → endpoints_ r !! id' = Some e → used e.

(** What a computation does to the state it leaves, if it leaves one. *)
Definition steps {A} (P : R → R → Prop) (m : M R A) : Prop := ∀ r a r', m r = Some (a, r') → P r r'.
Lemma steps_weaken {A} (P P' : R → R → Prop) (m : M R A) : (∀ r r', P r r' → P' r r') → steps P m → steps P' m.
Proof. intros HP Hm r a r' E. exact (HP _ _ (Hm _ _ _ E)). Qed.
Lemma steps_ret {A} (P : R → R → Prop) `{!Reflexive P} (a : A) : steps P (ret a).
Proof. intros r b r' [= <- <-]. reflexivity. Qed.
Lemma steps_ub {A} (P : R → R → Prop) : steps P (ub (A := A)).
Proof. by intros r b r' [=]. Qed.
Lemma steps_bind {A B} (P : R → R → Prop) `{!Transitive P} (m : M R A) (k : A → M R B) :
  steps P m → (∀ a, steps P (k a)) → steps P (bind m k).
Proof.
  intros Hm Hk r b r'. unfold bind. destruct (m r) as [[a r1]|] eqn:E; [|done]. intros E2.
  etransitivity; [exact (Hm _ _ _ E)|exact (Hk _ _ _ _ E2)].
Qed.
Lemma steps_get {A} (P : R → R → Prop) (k : R → M R A) : (∀ r, steps P (k r)) → steps P (bind get k).
Proof. intros Hk r b r' E. exact (Hk r r b r' E). Qed.
Lemma steps_modify (P : R → R → Prop) f : (∀ r, P r (f r)) → steps P (modify f).
Proof. intros Hf r b r' [= _ <-]. apply Hf. Qed.

(** Steps that leave the endpoints alone. *)
Definition calm (r r' : R) : Prop :=
  endpoints_ r' = endpoints_ r ∧ next_id_value_ r' = next_id_value_ r ∧ namespace_bit_ r' = namespace_bit_ r.
#[local] Instance calm_refl : Reflexive calm.
Proof. done. Qed.
#[local] Instance calm_trans : Transitive calm.
Proof. intros r1 r2 r3 (A1 & A2 & A3) (B1 & B2 & B3). split_and!; congruence. Qed.

(** Steps that make and drop no handle, mint no id and leave no endpoint behind. *)
Definition same_counts (r r' : R) : Prop :=
  (∀ id, refs_of id r' = refs_of id r) ∧ next_id_value_ r' = next_id_value_ r ∧ namespace_bit_ r' = namespace_bit_ r.
Definition tidy (r r' : R) : Prop := counted r → in_use r → same_counts r r' ∧ in_use r'.
Lemma counted_same r r' : counted r → same_counts r r' → counted r'.
Proof. intros Hc [Hs _] id. by rewrite Hs. Qed.
#[local] Instance same_counts_trans : Transitive same_counts.
Proof. intros r1 r2 r3 (A1 & A2 & A3) (B1 & B2 & B3). split_and!; [intros id; by rewrite B1|congruence..]. Qed.
#[local] Instance tidy_refl : Reflexive tidy.
Proof. by intros r Hc Hu. Qed.
#[local] Instance tidy_trans : Transitive tidy.
Proof.
  intros r1 r2 r3 A B Hc Hu. destruct (A Hc Hu) as [A1 A2]. destruct (B (counted_same _ _ Hc A1) A2) as [B1 B2].
  split; [by etransitivity|done].
Qed.
Lemma same_counts_endpoints r r' : calm r r' → same_counts r r'.
Proof. intros (He & Hn & Hb). split; [|done]. intros id. unfold refs_of. by rewrite He. Qed.
Lemma calm_tidy r r' : calm r r' → tidy r r'.
Proof. intros Hr Hc Hu. split; [by apply same_counts_endpoints|]. intros id e. destruct Hr as [-> _]. apply Hu. Qed.
Lemma steps_calm {A} (m : M R A) : steps calm m → steps tidy m.
Proof. apply steps_weaken, calm_tidy. Qed.

Lemma calm_error : steps calm (OnPipeError no_closure no_reason).
Proof.
  unfold OnPipeError. apply steps_get. intros r. destruct (connection_error_with_reason_handler_ r).
  { apply steps_bind; [apply _|by apply steps_modify|intros u; apply steps_ret, _]. }
  destruct (connection_error_handler_ r); [|apply steps_ret, _].
  apply steps_bind; [apply _|by apply steps_modify|intros u; apply steps_ret, _].
Qed.
Lemma calm_raise : steps calm RaiseError.
Proof.
  unfold Router.RaiseError, CancelWatchers, reset_pipe. apply steps_get. intros r. destruct (error_ (connector_ r)); [apply steps_ret, _|].
  do 3 (apply steps_bind; [apply _|by apply steps_modify|intros _]). apply calm_error.
Qed.
Lemma calm_send m : steps calm (SendMessage m).
Proof.
  unfold Router.SendMessage. apply steps_get. intros r. destruct (_ || _); [apply steps_ret, _|].
  destruct (takes r m); (apply steps_bind; [apply _| |intros u; apply steps_ret, _]); [by apply steps_modify|apply calm_raise].
Qed.
Lemma calm_consume c m : steps calm (consume c m).
Proof. apply steps_bind; [apply _|by apply steps_modify|intros u; apply steps_ret, _]. Qed.
Lemma deref_inv id node (r : R) e r' : deref id node r = Some (e, r') → r' = r ∧ endpoints_ r !! id = Some e.
Proof.
  unfold deref, bind, get. destruct (endpoints_ r !! id) as [x|]; [|done]. destruct (_ =? _); [|done]. by intros [= -> ->].
Qed.
Lemma calm_deref id node : steps calm (deref id node).
Proof. by intros r e r' [-> _]%deref_inv. Qed.
Lemma calm_drain id node q : steps calm (drain id node q).
Proof.
  induction q as [|m q IH]; cbn [Router.drain]; [apply steps_ret, _|]. apply steps_bind; [apply _|apply calm_deref|intros e].
  destruct (client e); [|apply calm_raise]. apply steps_bind; [apply _|apply calm_consume|intros b]. destruct b; [done|apply calm_raise].
Qed.
Lemma calm_read : steps calm read_message.
Proof.
  intros r x r'. unfold read_message, bind at 1, get. destruct (negb _); [by intros [= _ <-]|].
  destruct (incoming _); by intros [= _ <-].
Qed.

(** One endpoint is written. *)
Lemma refs_set (r : R) node id e id' :
  refs_of id' (with_endpoints node (<[id := e]> (endpoints_ r)) r) = if decide (id' = id) then refs e else refs_of id' r.
Proof. unfold refs_of. cbn. case_decide as Hd; [subst; by rewrite lookup_insert_eq|by rewrite lookup_insert_ne]. Qed.
Lemma use_set (r : R) node id e : in_use_but id r → used e → in_use (with_endpoints node (<[id := e]> (endpoints_ r)) r).
Proof. intros Hu He id' x. cbn. intros [[<- <-]|[Hne Hx]]%lookup_insert_Some; [done|by apply (Hu id')]. Qed.
Lemma tidy_set (r : R) node id e e' : endpoints_ r !! id = Some e → refs e' = refs e → in_use_but id r → used e' →
  same_counts r (with_endpoints node (<[id := e']> (endpoints_ r)) r) ∧ in_use (with_endpoints node (<[id := e']> (endpoints_ r)) r).
Proof.
  intros He Hr Hu Hx. split; [|by apply use_set]. split; [|done]. intros id'. rewrite refs_set. case_decide; [|done].
  subst. unfold refs_of. by rewrite He.
Qed.
Lemma update_inv id node f (r : R) u r' : update_endpoint id node f r = Some (u, r') →
  ∃ e, endpoints_ r !! id = Some e ∧ r' = with_endpoints (next_node r) (<[id := f e]> (endpoints_ r)) r.
Proof.
  unfold update_endpoint, bind. destruct (deref id node r) as [[e r1]|] eqn:E; [|done].
  apply deref_inv in E as [-> He]. intros [= _ <-]. by exists e.
Qed.
(** The endpoint that is found or made may be of no use. *)
Lemma found_inv id (r : R) node r1 : in_use r → FindOrCreateEndpoint id r = Some (node, r1) → same_counts r r1 ∧ in_use_but id r1.
Proof.
  intros Hu. unfold FindOrCreateEndpoint, bind at 1, get. destruct (endpoints_ r !! id) as [e|] eqn:He; intros [= _ <-].
  - split; [done|]. intros id' x _. apply Hu.
  - split.
    + split; [|done]. intros id'. rewrite refs_set. case_decide; [subst; unfold refs_of; by rewrite He|done].
    + intros id' x Hne. cbn. rewrite lookup_insert_ne by done. apply Hu.
Qed.
Lemma tidy_found {A} id (k : Z → M R A) :
  (∀ r1 node a r', counted r1 → in_use_but id r1 → k node r1 = Some (a, r') → same_counts r1 r' ∧ in_use r') →
  steps tidy (let! node := FindOrCreateEndpoint id in k node).
Proof.
  intros Hk r a r'. unfold bind. destruct (FindOrCreateEndpoint id r) as [[node r1]|] eqn:E; [|done].
  intros E2 Hc Hu. destruct (found_inv _ _ _ _ Hu E) as [S Hb].
  destruct (Hk _ _ _ _ (counted_same _ _ Hc S) Hb E2) as [S2 Hu2]. split; [by etransitivity|done].
Qed.

(** An endpoint that is erased has no handle, and is of no use. *)
Lemma erased id (r : R) u r' : counted r → in_use_but id r → MaybeEraseEndpoint id r = Some (u, r') → same_counts r r' ∧ in_use r'.
Proof.
  intros Hc Hu. unfold MaybeEraseEndpoint, bind at 1, get. destruct (endpoints_ r !! id) as [e|] eqn:He.
  - destruct (_ && _) eqn:Hb; intros [= _ <-].
    + apply andb_prop in Hb as [[Hr _]%andb_prop _]. split.
      * split; [|done]. intros id'. unfold refs_of. cbn. destruct (decide (id' = id)) as [->|Hne]; [|by rewrite lookup_delete_ne].
        specialize (Hc id). unfold refs_of in Hc. rewrite lookup_delete_eq, He in *. lia.
      * intros id' x. cbn. intros [Hne Hx]%lookup_delete_Some. by apply (Hu id').
    + split; [done|]. intros id' x. destruct (decide (id' = id)) as [->|Hne]; [|by apply Hu]. rewrite He. intros [= <-].
      unfold used. apply andb_false_iff in Hb as [[Hb|Hb]%andb_false_iff|Hb]; [left; lia|right; left|right; right].
      * by apply negb_false_iff, bool_decide_eq_true in Hb.
      * apply bool_decide_eq_false in Hb. intros E. by rewrite E in Hb.
  - intros [= _ <-]. split; [done|]. intros id' x Hx. apply (Hu id'); [congruence|done].
Qed.
Lemma altered (r : R) node f id : (∀ e, refs (f e) = refs e) → in_use r →
  same_counts r (with_endpoints node (alter f id (endpoints_ r)) r) ∧ in_use_but id (with_endpoints node (alter f id (endpoints_ r)) r).
Proof.
  intros Hf Hu. split; [split; [|done]|].
  - intros id'. unfold refs_of. cbn. destruct (decide (id' = id)) as [->|Hne]; [|by rewrite lookup_alter_ne].
    rewrite lookup_alter_eq. destruct (endpoints_ r !! id); cbn; [apply Hf|done].
  - intros id' x Hne. cbn. rewrite lookup_alter_ne by done. apply Hu.
Qed.
Lemma tidy_detach id : steps tidy (DetachEndpointClient id).
Proof.
  intros r u r'. unfold DetachEndpointClient, bind, modify. intros E Hc Hu.
  destruct (altered r (next_node r) (with_client None) id (λ _, eq_refl) Hu) as [S Hb].
  destruct (erased _ _ _ _ (counted_same _ _ Hc S) Hb E) as [S2 Hu2]. split; [by etransitivity|done].
Qed.

Lemma tidy_closed id f : (∀ e, refs (f e) = refs e ∧ client (f e) = client e ∧ queued_messages (f e) = queued_messages e) →
  ∀ node, steps tidy (update_endpoint id node f).
Proof.
  intros Hf node r u r' (e & He & ->)%update_inv Hc Hu. destruct (Hf e) as (H1 & H2 & H3).
  eapply tidy_set; [done|done|by intros id' x _; apply Hu|]. unfold used. rewrite H1, H2, H3. by apply (Hu id).
Qed.
Lemma tidy_or_false {A} (x : Result A) (k : A → M R bool) : (∀ a, steps tidy (k a)) → steps tidy (or_false x k).
Proof. intros Hk. destruct x as [[]|a]; [apply steps_ret, _|apply steps_ub..|apply Hk]. Qed.
Lemma tidy_control m : steps tidy (HandlePipeControlMessage no_closure no_reason takes m).
Proof.
  unfold HandlePipeControlMessage. destruct (_ =? _).
  { apply steps_calm. destruct (has_flag _ _); (apply steps_bind; [apply _| |intros u; apply steps_ret, _]);
      [by apply steps_modify|apply calm_send]. }
  apply tidy_or_false. intros [id w]. apply tidy_or_false. intros [reason description].
  apply steps_bind; [apply _| |intros u].
  { apply steps_calm. destruct (IsPrimaryInterfaceId id); [by apply steps_modify|apply steps_ret, _]. }
  apply steps_get. intros r. apply steps_bind; [apply _| |intros u'; apply steps_ret, _].
  destruct (endpoints_ r !! id) as [e|]; [|apply steps_ret, _].
  destruct (peer_closed_with_reason_handler e), (peer_closed_handler e); try apply steps_ret, _;
    (apply steps_bind; [apply _|by apply tidy_closed|intros u'; apply steps_ret, _]).
Qed.
Lemma tidy_accept m : steps tidy (Accept m).
Proof.
  unfold Router.Accept. destruct (_ =? _); [apply tidy_control|]. destruct (IsPrimaryInterfaceId _).
  { apply steps_calm, steps_get. intros r. destruct (primary_client_ r); [apply calm_consume|apply steps_ret, _]. }
  apply tidy_found. intros r node a r' Hc Hu. unfold bind at 1.
  destruct (deref _ node r) as [[e r1]|] eqn:E; [|done]. apply deref_inv in E as [-> He].
  destruct (client e) as [c|] eqn:Ec.
  - intros E. assert (in_use r) as Hr.
    { intros id' x Hx. destruct (decide (id' = sent_id m)) as [->|Hne]; [|by apply (Hu id')]. rewrite He in Hx. injection Hx as <-.
      right; left. by rewrite Ec. }
    exact (calm_tidy _ _ (calm_consume _ _ _ _ _ E) Hc Hr).
  - unfold bind. destruct (update_endpoint _ node _ r) as [[u r1]|] eqn:E; [|done]. intros [= _ <-].
    apply update_inv in E as (e' & He' & ->). rewrite He in He'. injection He' as <-.
    eapply tidy_set; [done|done|done|]. right; right. cbn. by destruct (queued_messages e).
Qed.
Lemma tidy_read_all fuel : steps tidy (read_all fuel).
Proof.
  induction fuel as [|fuel IH]; cbn [Router.read_all]; [apply steps_ub|].
  apply steps_bind; [apply _|apply steps_calm, calm_read|intros x].
  destruct x as [[m|]| |]; [|apply steps_calm, calm_raise|apply steps_ret, _|apply steps_calm, calm_raise].
  apply steps_bind; [apply _|apply tidy_accept|intros b]. destruct (negb b); [apply steps_calm, calm_raise|].
  apply steps_get. intros r. destruct (_ || _); [apply steps_ret, _|done].
Qed.
Lemma tidy_attach id c : steps tidy (AttachEndpointClient id c).
Proof.
  apply tidy_found. intros r node a r' Hc Hu. unfold bind at 1.
  destruct (update_endpoint id node _ r) as [[u r1]|] eqn:E; [|done]. apply update_inv in E as (e & He & ->).
  assert (∀ q, used (with_queue q (with_client (Some c) e))) as Hx by (intros q; right; left; by eexists).
  destruct (tidy_set r (next_node r) id e (with_client (Some c) e) He eq_refl Hu (Hx (queued_messages e))) as [S U].
  set (r1 := with_endpoints _ _ _) in *. unfold bind at 1.
  destruct (deref id node r1) as [[e1 r2]|] eqn:E; [|done]. apply deref_inv in E as [-> He1].
  destruct (bool_decide _); [by intros [= _ <-]|]. unfold bind at 1.
  destruct (update_endpoint id node _ r1) as [[u' r2]|] eqn:E; [|done]. apply update_inv in E as (e2 & He2 & ->).
  intros E. pose proof (counted_same _ _ Hc S) as Hc1.
  unfold r1 in He2. cbn in He2. rewrite lookup_insert_eq in He2. injection He2 as <-.
  destruct (tidy_set r1 (next_node r1) id _ (with_queue [] (with_client (Some c) e)) (lookup_insert_eq _ _ _) eq_refl
    (λ id' x _ H, U id' x H) (Hx [])) as [S2 U2].
  destruct (calm_tidy _ _ (calm_drain _ _ _ _ _ _ E) (counted_same _ _ Hc1 S2) U2) as [S3 U3].
  split; [|done]. by repeat (etransitivity; [eassumption|]).
Qed.

(** ** How handles are counted *)

Definition count (id : Z) (hs : list Z) : Z := Z.of_nat (count_occ Z.eq_dec hs id).
Definition minted (bit : bool) (next : Z) : Z := if bit then Z.lor next kInterfaceIdNamespaceMask else next.
Definition drop_one (id : Z) (hs : list Z) : option (list Z) :=
  match list_find (λ x, x = id) hs with Some (i, _) => Some (delete i hs) | None => None end.
(** The handles the application has after the events, by their ids, and the next id to
    mint; [None] if it gives up, or sets a handler through, one that it does not have. *)
Fixpoint handles (bit : bool) (next : Z) (hs : list Z) (es : list Event) : option (list Z * Z) :=
  match es with
  | [] => Some (hs, next)
  | MakeHandle id :: es => handles bit next (hs ++ [id]) es
  | MakePair :: es => handles bit (u32 (next + 1)) (hs ++ [minted bit next]) es
  | (Release id | Close id) :: es => match drop_one id hs with Some hs => handles bit next hs es | None => None end
  | (OnClosed id _ | OnClosedReason id _) :: es => if decide (id ∈ hs) then handles bit next hs es else None
  | _ :: es => handles bit next hs es
  end.

Record holds (bit : bool) (next : Z) (hs : list Z) (r : R) : Prop := {
  h_refs : ∀ id, refs_of id r = count id hs;
  h_next : next_id_value_ r = next;
  h_bit : namespace_bit_ r = bit
}.
Lemma holds_counted bit next hs r : holds bit next hs r → counted r.
Proof. intros Hh id. rewrite (h_refs _ _ _ _ Hh). unfold count. lia. Qed.
Lemma holds_same bit next hs r r' : holds bit next hs r → same_counts r r' → holds bit next hs r'.
Proof. intros [H1 H2 H3] (S1 & S2 & S3). split; [intros id; by rewrite S1|congruence..]. Qed.
Lemma holds_tidy {A} (m : M R A) bit next hs r a r' :
  steps tidy m → holds bit next hs r → in_use r → m r = Some (a, r') → holds bit next hs r' ∧ in_use r'.
Proof.
  intros Hm Hh Hu E. destruct (Hm _ _ _ E (holds_counted _ _ _ _ Hh) Hu) as [S Hu']. split; [by eapply holds_same|done].
Qed.

Lemma count_app id hs hs' : count id (hs ++ hs') = count id hs + count id hs'.
Proof. unfold count. rewrite count_occ_app. lia. Qed.
Lemma count_one id id' : count id [id'] = if decide (id = id') then 1 else 0.
Proof. unfold count. cbn. destruct (Z.eq_dec id' id), (decide (id = id')); try congruence; lia. Qed.
Lemma count_elem id hs : id ∈ hs ↔ 0 < count id hs.
Proof. rewrite list_elem_of_In, (count_occ_In Z.eq_dec). unfold count. lia. Qed.
Lemma drop_one_count id hs hs' : drop_one id hs = Some hs' →
  1 <= count id hs ∧ ∀ id', count id' hs' = count id' hs - (if decide (id' = id) then 1 else 0).
Proof.
  unfold drop_one. destruct (list_find _ hs) as [[i x]|] eqn:E; [|done]. intros [= <-].
  apply list_find_Some in E as (Hi & -> & _). rewrite <- (take_drop_middle _ _ _ Hi) at 1.
  assert (∀ id', count id' hs = count id' (delete i hs) + count id' [id]) as Hc.
  { intros id'. rewrite <- (take_drop_middle _ _ _ Hi) at 1. rewrite delete_take_drop.
    change (id :: drop (S i) hs) with ([id] ++ drop (S i) hs). rewrite !count_app. lia. }
  split.
  - change (id :: drop (S i) hs) with ([id] ++ drop (S i) hs). rewrite !count_app, count_one, decide_True by done. unfold count. lia.
  - intros id'. rewrite Hc, count_one. lia.
Qed.

(** [RetainEndpoint] adds one handle. *)
Lemma retained bit next hs id r u r' :
  holds bit next hs r → in_use_but id r → RetainEndpoint id r = Some (u, r') → holds bit next (hs ++ [id]) r' ∧ in_use r'.
Proof.
  intros Hh Hu. unfold RetainEndpoint, bind at 1. destruct (FindOrCreateEndpoint id r) as [[node r1]|] eqn:E; [|done].
  assert (same_counts r r1 ∧ in_use_but id r1) as [S Hu1].
  { unfold FindOrCreateEndpoint, bind at 1, get in E. destruct (endpoints_ r !! id) as [e|] eqn:He; injection E as _ <-; [done|].
    split.
    - split; [|done]. intros id'. rewrite refs_set. case_decide; [subst; unfold refs_of; by rewrite He|done].
    - intros id' x Hne. cbn. rewrite lookup_insert_ne by done. by apply Hu. }
  destruct (holds_same _ _ _ _ _ Hh S) as [G1 G2 G3]. pose proof (holds_counted _ _ _ _ (Build_holds _ _ _ _ G1 G2 G3) id) as Hpos.
  intros (e & He & ->)%update_inv. unfold refs_of in Hpos. rewrite He in Hpos. split.
  - split; [|done..]. intros id'. rewrite refs_set, count_app, count_one, <- !G1. case_decide; [subst|lia].
    unfold refs_of. rewrite He. done.
  - apply use_set; [done|]. left. cbn. lia.
Qed.
(** [DropEndpointHandle] takes one away. *)
Lemma dropped bit next hs hs' id r u r' :
  holds bit next hs r → in_use_but id r → drop_one id hs = Some hs' → DropEndpointHandle id r = Some (u, r') →
  holds bit next hs' r' ∧ in_use r'.
Proof.
  intros [G1 G2 G3] Hu [Hpos Hc]%drop_one_count.
  unfold DropEndpointHandle, bind at 1, get. pose proof (G1 id) as Hid. unfold refs_of in Hid.
  destruct (endpoints_ r !! id) as [e|] eqn:He; [|lia].
  unfold bind, modify. set (r1 := with_endpoints _ _ _). intros E.
  assert (holds bit next hs' r1) as Hh.
  { split; [|done..]. intros id'. rewrite Hc, <- G1. unfold refs_of. cbn. case_decide as Hd.
    - subst. rewrite lookup_alter_eq, He. cbn. destruct (0 <? refs e) eqn:El; cbn; lia.
    - rewrite lookup_alter_ne by done. lia. }
  assert (in_use_but id r1) as Hu1.
  { intros id' x Hne. cbn. rewrite lookup_alter_ne by done. by apply Hu. }
  destruct (erased _ _ _ _ (holds_counted _ _ _ _ Hh) Hu1 E) as [S Hu']. split; [by eapply holds_same|done].
Qed.

Lemma holds_has bit next hs id r : holds bit next hs r → id ∈ hs → ∃ e, endpoints_ r !! id = Some e ∧ 0 < refs e.
Proof.
  intros Hh Hin%count_elem. pose proof (h_refs _ _ _ _ Hh id) as Hr. unfold refs_of in Hr.
  destruct (endpoints_ r !! id) as [e|]; [exists e; split; [done|lia]|lia].
Qed.
(** Setting a handler through a handle makes no endpoint. *)
Lemma handler_set bit next hs id f r u r' :
  (∀ e, refs (f e) = refs e ∧ client (f e) = client e ∧ queued_messages (f e) = queued_messages e) →
  holds bit next hs r → in_use r → id ∈ hs → (let! node := FindOrCreateEndpoint id in update_endpoint id node f) r = Some (u, r') →
  holds bit next hs r' ∧ in_use r'.
Proof.
  intros Hf Hh Hu Hin. destruct (holds_has _ _ _ _ _ Hh Hin) as (e & He & _).
  unfold bind at 1, FindOrCreateEndpoint, bind at 1, get. rewrite He. cbn [ret]. intros E.
  exact (holds_tidy _ _ _ _ _ _ _ (tidy_closed id f Hf (ep_node e)) Hh Hu E).
Qed.

Lemma bind_inv {A B} (m : M R A) (k : A → M R B) r b r' : bind m k r = Some (b, r') → ∃ a r1, m r = Some (a, r1) ∧ k a r1 = Some (b, r').
Proof. unfold bind. destruct (m r) as [[a r1]|]; [|done]. by exists a, r1. Qed.

(** One event. *)
Lemma holds_event e es bit next hs hs' next' r u r' :
  handles bit next hs (e :: es) = Some (hs', next') → holds bit next hs r → in_use r → run_event e r = Some (u, r') →
  ∃ hs1 next1, handles bit next1 hs1 es = Some (hs', next') ∧ holds bit next1 hs1 r' ∧ in_use r'.
Proof.
  intros Hes Hh Hu E.
  assert (steps tidy (run_event e) → handles bit next hs es = Some (hs', next') →
    ∃ hs1 next1, handles bit next1 hs1 es = Some (hs', next') ∧ holds bit next1 hs1 r' ∧ in_use r') as Htidy.
  { intros Hm Hes'. exists hs, next. split; [done|]. exact (holds_tidy _ _ _ _ _ _ _ Hm Hh Hu E). }
  destruct e as [o| |rok| | | | | |id c|id|c| |id| |id|id|m|id k|id k]; cbn [run_event handles] in *.
  - apply Htidy; [|done]. by apply steps_calm, steps_modify.
  - apply Htidy; [|done]. by apply steps_calm, steps_modify.
  - apply Htidy; [|done]. unfold Router.OnReadable, ReadAllAvailableMessages. apply steps_get. intros r1.
    destruct (_ || _); [apply steps_ret, _|]. destruct rok; [apply steps_get; intros r2; apply tidy_read_all|apply steps_calm, calm_raise].
  - apply Htidy; [|done]. unfold Router.OnPeerClosed, ReadAllAvailableMessages. apply steps_get. intros r1.
    destruct (_ || _); [apply steps_ret, _|].
    apply steps_bind; [apply _|apply steps_get; intros r2; apply tidy_read_all|intros v; apply steps_calm, calm_raise].
  - apply Htidy; [|done]. by apply steps_calm, steps_modify.
  - apply Htidy; [|done]. apply steps_calm, steps_bind; [apply _|by apply steps_modify|intros v; by apply steps_modify].
  - apply Htidy; [|done]. apply steps_calm, steps_get. intros r1. destruct (negb _); [apply steps_ret, _|].
    apply steps_bind; [apply _|by apply steps_modify|intros v; by apply steps_modify].
  - apply Htidy; [|done]. apply steps_calm, steps_bind; [apply _|by apply steps_modify|intros v; by apply steps_modify].
  - apply Htidy; [|done]. apply tidy_attach.
  - apply Htidy; [|done]. apply tidy_detach.
  - apply Htidy; [|done]. by apply steps_calm, steps_modify.
  - apply Htidy; [|done]. by apply steps_calm, steps_modify.
  - exists (hs ++ [id]), next. split; [done|].
    apply bind_inv in E as (x & r1 & E & [= _ <-]). unfold CreateLocalEndpointHandle in E.
    apply bind_inv in E as (node & r2 & E & E2). apply bind_inv in E2 as (v & r3 & E2 & [= _ <-]).
    destruct (found_inv _ _ _ _ Hu E) as [S U]. exact (retained _ _ _ _ _ _ _ (holds_same _ _ _ _ _ Hh S) U E2).
  - exists (hs ++ [minted bit next]), (u32 (next + 1)). split; [done|].
    apply bind_inv in E as (x & r1 & E & [= _ <-]). unfold CreatePairPendingAssociation in E.
    apply bind_inv in E as (i & r2 & E & E2). apply bind_inv in E2 as (node & r3 & E2 & E3).
    apply bind_inv in E3 as (v & r4 & E3 & [= _ <-]). destruct Hh as [H1 H2 H3].
    unfold MintInterfaceId, bind, get, put, ret in E. rewrite H2, H3 in E. injection E as <- <-.
    pose proof (λ H, found_inv _ _ _ _ H E2) as F. destruct (F Hu) as [S U].
    refine (retained _ _ _ _ _ _ _ (holds_same _ _ _ _ _ _ S) U E3).
    by split.
  - destruct (drop_one id hs) as [hs1|] eqn:Ed; [|done]. exists hs1, next. split; [done|].
    apply bind_inv in E as (x & r1 & E & [= _ <-]). apply bind_inv in E as (v & r2 & E & [= _ <-]).
    refine (dropped _ _ _ _ _ _ _ _ Hh _ Ed E). intros id' x' _. apply Hu.
  - destruct (drop_one id hs) as [hs1|] eqn:Ed; [|done]. exists hs1, next. split; [done|].
    apply bind_inv in E as (x & r1 & E & E2). apply bind_inv in E2 as (v & r2 & [= _ <-] & E2).
    assert (holds bit next hs r1 ∧ in_use r1) as [Hh1 Hu1].
    { refine (holds_tidy _ _ _ _ _ _ _ _ Hh Hu E). apply steps_calm.
      apply steps_bind; [apply _|apply calm_send|intros w; apply steps_ret, _]. }
    destruct (altered r1 (next_node r1) (with_client None) id (λ _, eq_refl) Hu1) as [S U].
    exact (dropped _ _ _ _ _ _ _ _ (holds_same _ _ _ _ _ Hh1 S) U Ed E2).
  - apply Htidy; [|done]. apply steps_calm, steps_bind; [apply _|apply calm_send|intros v; apply steps_ret, _].
  - case_decide as Hin; [|done]. exists hs, next. split; [done|]. by eapply handler_set in E.
  - case_decide as Hin; [|done]. exists hs, next. split; [done|]. by eapply handler_set in E.
Qed.

Lemma holds_events es : ∀ bit next hs hs' next' r u r',
  handles bit next hs es = Some (hs', next') → holds bit next hs r → in_use r → run_events es r = Some (u, r') →
  holds bit next' hs' r' ∧ in_use r'.
Proof.
  induction es as [|e es IH]; intros bit next hs hs' next' r u r' Hes Hh Hu E.
  - injection Hes as <- <-. by injection E as _ <-.
  - apply bind_inv in E as (v & r1 & E & E2). destruct (holds_event _ _ _ _ _ _ _ _ _ _ Hes Hh Hu E) as (hs1 & next1 & Hes1 & Hh1 & Hu1).
    by eapply IH.
Qed.

(** ** Who is given what *)

(** The client of the endpoint after the events: the one last attached, unless it has been
    detached or the endpoint closed since; and the primary client. *)
Definition attached (id : Z) (es : list Event) : option Client :=
  fold_left (λ c e, match e with
    | Attach id' c' => if id' =? id then Some c' else c
    | Detach id' | Close id' => if id' =? id then None else c
    | _ => c
    end) es None.
Definition primary (es : list Event) : option Client :=
  fold_left (λ c e, match e with AttachPrimary c' => Some c' | DetachPrimary => None | _ => c end) es None.
(** To whom a message for the interface is to go. *)
Definition addressee (id : Z) (es : list Event) : option Client :=
  if decide (id = kPrimaryInterfaceId) then primary es else attached id es.

Definition client_at (id : Z) (r : R) : option Client := endpoints_ r !! id ≫= client.
Definition owner (id : Z) (r : R) : option Client :=
  if decide (id = kPrimaryInterfaceId) then primary_client_ r else client_at id r.
(** Only associated interfaces have queues. *)
Definition unqueued (r : R) : Prop := ∀ id, ¬ is_associated id → queued id r = [].
Definition same_clients (r r' : R) : Prop :=
  (∀ id, client_at id r' = client_at id r) ∧ primary_client_ r' = primary_client_ r.
(** Messages have been given to nobody but the clients that they are for. *)
Definition gave (owner : Z → option Client) (r r' : R) : Prop :=
  ∃ new, world r' = world r ++ new ∧ ∀ c m, (c, m) ∈ new → owner (sent_id m) = Some c.

Definition still (r r' : R) : Prop :=
  same_clients r r' ∧ (∀ id, queued id r' = queued id r) ∧ world r' = world r.
#[local] Instance still_refl : Reflexive still.
Proof. done. Qed.
#[local] Instance still_trans : Transitive still.
Proof.
  intros r1 r2 r3 ((A1 & A2) & A3 & A4) ((B1 & B2) & B3 & B4).
  split; [split; [intros id; by rewrite B1|congruence]|]. split; [intros id; by rewrite B3|congruence].
Qed.
Definition given (r r' : R) : Prop :=
  same_clients r r' ∧ (unqueued r → unqueued r') ∧ gave (λ id, owner id r) r r'.
Lemma owner_same r r' id : same_clients r r' → owner id r' = owner id r.
Proof. intros [Hc Hp]. unfold owner. case_decide; [done|apply Hc]. Qed.
#[local] Instance given_refl : Reflexive given.
Proof. intros r. split; [done|]. split; [done|]. exists []. rewrite app_nil_r. split; [done|]. by intros c m ?%elem_of_nil. Qed.
#[local] Instance given_trans : Transitive given.
Proof.
  intros r1 r2 r3 (A1 & A2 & l1 & A3 & A4) (B1 & B2 & l2 & B3 & B4). split; [|split; [auto|]].
  - destruct A1 as [A1 A1'], B1 as [B1 B1']. split; [intros id; by rewrite B1|congruence].
  - exists (l1 ++ l2). rewrite B3, A3, app_assoc. split; [done|]. intros c m [Hm|Hm]%elem_of_app; [by apply A4|].
    rewrite <- (owner_same _ _ _ A1). by apply B4.
Qed.
Lemma still_given r r' : still r r' → given r r'.
Proof.
  intros (A1 & A2 & A3). split; [done|]. split; [intros Hu id Hid; rewrite A2; by apply Hu|].
  exists []. rewrite app_nil_r. split; [done|]. by intros c m ?%elem_of_nil.
Qed.
Lemma steps_still {A} (m : M R A) : steps still m → steps given m.
Proof. apply steps_weaken, still_given. Qed.
Lemma still_fields r r' :
  endpoints_ r' = endpoints_ r → primary_client_ r' = primary_client_ r → world r' = world r → still r r'.
Proof. intros He Hp Hw. unfold still, same_clients, client_at, queued. by rewrite He. Qed.

Lemma still_error : steps still (OnPipeError no_closure no_reason).
Proof.
  unfold OnPipeError. apply steps_get. intros r. destruct (connection_error_with_reason_handler_ r).
  { apply steps_bind; [apply _|by apply steps_modify|intros u; apply steps_ret, _]. }
  destruct (connection_error_handler_ r); [|apply steps_ret, _].
  apply steps_bind; [apply _|by apply steps_modify|intros u; apply steps_ret, _].
Qed.
Lemma still_raise : steps still RaiseError.
Proof.
  unfold Router.RaiseError, CancelWatchers, reset_pipe. apply steps_get. intros r. destruct (error_ (connector_ r)); [apply steps_ret, _|].
  do 3 (apply steps_bind; [apply _|by apply steps_modify|intros _]). apply still_error.
Qed.
Lemma still_send m : steps still (SendMessage m).
Proof.
  unfold Router.SendMessage. apply steps_get. intros r. destruct (_ || _); [apply steps_ret, _|].
  destruct (takes r m); (apply steps_bind; [apply _| |intros u; apply steps_ret, _]); [by apply steps_modify|apply still_raise].
Qed.
Lemma still_read : steps still read_message.
Proof.
  intros r x r'. unfold read_message, bind at 1, get. destruct (negb _); [by intros [= _ <-]|].
  destruct (incoming _); by intros [= _ <-].
Qed.
Lemma still_mint : steps still MintInterfaceId.
Proof. intros r x r'. unfold MintInterfaceId, bind, get, put, ret. by intros [= _ <-]. Qed.

(** One endpoint is written. *)
Lemma still_set (r : R) node id e e' :
  endpoints_ r !! id = Some e ∨ endpoints_ r !! id = None ∧ e = Endpoint_init node →
  client e' = client e → queued_messages e' = queued_messages e →
  still r (with_endpoints (next_node r) (<[id := e']> (endpoints_ r)) r) ∧
  still r (with_endpoints (next_node r + 1) (<[id := e']> (endpoints_ r)) r).
Proof.
  intros He Hc Hq.
  assert (∀ n, still r (with_endpoints n (<[id := e']> (endpoints_ r)) r)) as Hs; [|done]. intros n.
  split; [split; [|done]|split; [|done]]; intros id'; unfold client_at, queued; cbn;
    (destruct (decide (id' = id)) as [->|Hne]; [rewrite lookup_insert_eq|by rewrite lookup_insert_ne]);
    destruct He as [-> |[-> ->]]; done.
Qed.
Lemma still_found id : steps still (FindOrCreateEndpoint id).
Proof.
  intros r node r1. unfold FindOrCreateEndpoint, bind at 1, get. destruct (endpoints_ r !! id) as [e|] eqn:He; intros [= _ <-]; [done|].
  by eapply (still_set r (next_node r) id); [right|..].
Qed.
Lemma still_update id f : (∀ e, client (f e) = client e ∧ queued_messages (f e) = queued_messages e) →
  ∀ node, steps still (update_endpoint id node f).
Proof. intros Hf node r u r' (e & He & ->)%update_inv. eapply (still_set r 0 id e); [by left|apply Hf..]. Qed.
Lemma still_retain id : steps still (RetainEndpoint id).
Proof. apply steps_bind; [apply _|apply still_found|intros n; by apply still_update]. Qed.
Lemma still_erase id : steps still (MaybeEraseEndpoint id).
Proof.
  intros r u r'. unfold MaybeEraseEndpoint, bind, get. destruct (endpoints_ r !! id) as [e|] eqn:He; [|by intros [= _ <-]].
  destruct (_ && _) eqn:Hb; [|by intros [= _ <-]]. intros [= _ <-].
  apply andb_prop in Hb as [[_ Hc%negb_true_iff%bool_decide_eq_false]%andb_prop Hq%bool_decide_eq_true%nil_length_inv].
  assert (client e = None) as Hn by (destruct (client e); [exfalso; by apply Hc|done]).
  split; [split; [|done]|split; [|done]]; intros id'; unfold client_at, queued; cbn;
    (destruct (decide (id' = id)) as [->|Hne]; [by rewrite lookup_delete_eq, He|by rewrite lookup_delete_ne]).
Qed.
Lemma still_drop id : steps still (DropEndpointHandle id).
Proof.
  unfold DropEndpointHandle. apply steps_get. intros r. destruct (endpoints_ r !! id); [|apply steps_ret, _].
  apply steps_bind; [apply _|apply steps_modify|intros _; apply still_erase]. intros r1.
  split; [split; [|done]|split; [|done]]; intros id'; unfold client_at, queued; cbn;
    (destruct (decide (id' = id)) as [->|Hne]; [rewrite lookup_alter_eq|by rewrite lookup_alter_ne]);
    destruct (endpoints_ r1 !! id) as [e'|]; try done; cbn; by destruct (0 <? refs e').
Qed.
Lemma still_or_false {A} (x : Result A) (k : A → M R bool) : (∀ a, steps still (k a)) → steps still (or_false x k).
Proof. intros Hk. destruct x as [[]|a]; [apply steps_ret, _|apply steps_ub..|apply Hk]. Qed.
Lemma still_control m : steps still (HandlePipeControlMessage no_closure no_reason takes m).
Proof.
  unfold HandlePipeControlMessage. destruct (_ =? _).
  { destruct (has_flag _ _); (apply steps_bind; [apply _| |intros u; apply steps_ret, _]);
      [by apply steps_modify|apply still_send]. }
  apply still_or_false. intros [id w]. apply still_or_false. intros [reason description].
  apply steps_bind; [apply _| |intros u].
  { destruct (IsPrimaryInterfaceId id); [by apply steps_modify|apply steps_ret, _]. }
  apply steps_get. intros r. apply steps_bind; [apply _| |intros u'; apply steps_ret, _].
  destruct (endpoints_ r !! id) as [e|]; [|apply steps_ret, _].
  destruct (peer_closed_with_reason_handler e), (peer_closed_handler e); try apply steps_ret, _;
    (apply steps_bind; [apply _|by apply still_update|intros u'; apply steps_ret, _]).
Qed.

(** ** Deliveries *)

Lemma consume_given (r : R) c m b r' : owner (sent_id m) r = Some c → consume c m r = Some (b, r') → given r r'.
Proof.
  intros Ho [= _ <-]. split; [done|]. split; [done|]. exists [(c, m)]. split; [done|].
  by intros c' m' [= -> ->]%list_elem_of_singleton.
Qed.
Lemma given_accept m : steps given (Accept m).
Proof.
  unfold Router.Accept. destruct (_ =? _) eqn:Hinv; [apply steps_still, still_control|]. apply Z.eqb_neq in Hinv.
  unfold IsPrimaryInterfaceId. destruct (Z.eqb_spec (sent_id m) kPrimaryInterfaceId) as [Hp|Hp].
  { intros r b r'. unfold bind at 1, get. destruct (primary_client_ r) as [c|] eqn:Hc; [|intros [= _ <-]; reflexivity].
    apply consume_given. unfold owner. by rewrite decide_True. }
  apply steps_bind; [apply _|apply steps_still, still_found|intros node]. intros r b r'. unfold bind at 1.
  destruct (deref _ node r) as [[e r1]|] eqn:E; [|done]. apply deref_inv in E as [-> He].
  destruct (client e) as [c|] eqn:Ec.
  { apply consume_given. unfold owner, client_at. rewrite decide_False by done. by rewrite He. }
  unfold bind. destruct (update_endpoint _ node _ r) as [[u r1]|] eqn:E; [|done]. intros [= _ <-].
  apply update_inv in E as (e' & He' & ->). rewrite He in He'. injection He' as <-. split; [|split].
  - split; [|done]. intros id. unfold client_at. cbn. destruct (decide (id = sent_id m)) as [->|Hne];
      [by rewrite lookup_insert_eq, He|by rewrite lookup_insert_ne].
  - intros Hu id Hid. unfold queued. cbn. rewrite lookup_insert_ne; [by apply Hu|]. intros <-. by apply Hid.
  - exists []. rewrite app_nil_r. split; [done|]. by intros c m' ?%elem_of_nil.
Qed.
Lemma given_read_all fuel : steps given (read_all fuel).
Proof.
  induction fuel as [|fuel IH]; cbn [Router.read_all]; [apply steps_ub|].
  apply steps_bind; [apply _|apply steps_still, still_read|intros x].
  destruct x as [[m|]| |]; [|apply steps_still, still_raise|apply steps_ret, _|apply steps_still, still_raise].
  apply steps_bind; [apply _|apply given_accept|intros b]. destruct (negb b); [apply steps_still, still_raise|].
  apply steps_get. intros r. destruct (_ || _); [apply steps_ret, _|done].
Qed.
Lemma given_drain id node q : is_associated id → Forall (λ m, sent_id m = id) q → steps given (drain id node q).
Proof.
  intros [Hp _] Hq. induction Hq as [|m q Hm _ IH]; cbn [Router.drain]; [apply steps_ret, _|].
  intros r u r'. unfold bind at 1. destruct (deref id node r) as [[e r1]|] eqn:E; [|done]. apply deref_inv in E as [-> He].
  destruct (client e) as [c|] eqn:Hc; [|intros E; by eapply still_given, still_raise].
  unfold bind at 1. destruct (consume c m r) as [[b r1]|] eqn:E; [|done]. intros E2.
  etransitivity; [apply (consume_given _ _ _ _ _) in E; [exact E|]|].
  - unfold owner, client_at. rewrite Hm, decide_False by done. by rewrite He.
  - destruct b; [by apply IH in E2|by apply still_raise, still_given in E2].
Qed.

(** A client is attached, or an endpoint loses its client. *)
Definition set_client (id : Z) (c : option Client) (r r' : R) : Prop :=
  (∀ id', client_at id' r' = if decide (id' = id) then c else client_at id' r) ∧ primary_client_ r' = primary_client_ r.
Lemma set_client_after id c r r1 r' : same_clients r r1 → set_client id c r1 r' → set_client id c r r'.
Proof. intros [A1 A2] [B1 B2]. split; [intros id'; rewrite B1; by case_decide|congruence]. Qed.
Lemma set_client_before id c r r1 r' : set_client id c r r1 → same_clients r1 r' → set_client id c r r'.
Proof. intros [A1 A2] [B1 B2]. split; [intros id'; by rewrite B1|congruence]. Qed.

Lemma cleared (r : R) id :
  let r' := with_endpoints (next_node r) (alter (with_client None) id (endpoints_ r)) r in
  set_client id None r r' ∧ (∀ id', queued id' r' = queued id' r) ∧ world r' = world r.
Proof.
  split; [split; [|done]|split; [|done]]; intros id'; unfold client_at, queued; cbn;
    (destruct (decide (id' = id)) as [->|Hne]; [rewrite lookup_alter_eq|by rewrite lookup_alter_ne]);
    by destruct (endpoints_ r !! id).
Qed.

Lemma attach_given id c r u r' : owned r → unqueued r → AttachEndpointClient id c r = Some (u, r') →
  set_client id (Some c) r r' ∧ unqueued r' ∧ gave (λ id, owner id r') r r'.
Proof.
  intros Ho Hu. unfold Router.AttachEndpointClient, bind at 1.
  destruct (FindOrCreateEndpoint id r) as [[node r1]|] eqn:E; [|done]. apply still_found in E as (S1 & Q1 & W1).
  unfold bind at 1. destruct (update_endpoint id node _ r1) as [[v r2]|] eqn:E; [|done].
  apply update_inv in E as (e & He & ->). set (r2 := with_endpoints _ _ r1).
  assert (set_client id (Some c) r r2) as S2.
  { apply (set_client_after _ _ _ r1); [done|]. split; [|done]. intros id'. unfold client_at, r2. cbn.
    case_decide as Hd; [subst; by rewrite lookup_insert_eq|by rewrite lookup_insert_ne]. }
  assert (∀ id', queued id' r2 = queued id' r) as Q2.
  { intros id'. rewrite <- Q1. unfold queued, r2. cbn.
    destruct (decide (id' = id)) as [->|Hne]; [by rewrite lookup_insert_eq, He|by rewrite lookup_insert_ne]. }
  unfold bind at 1. destruct (deref id node r2) as [[e2 r3]|] eqn:E; [|done]. apply deref_inv in E as [-> He2].
  assert (queued_messages e2 = queued id r) as Hq by (rewrite <- Q2; unfold queued; by rewrite He2).
  destruct (bool_decide_reflect (length (queued_messages e2) = 0%nat)) as [_|Hne].
  { intros [= _ <-]. split; [done|]. split; [intros id' Hid; rewrite Q2; by apply Hu|].
    exists []. rewrite app_nil_r. split; [done|]. by intros c' m ?%elem_of_nil. }
  assert (is_associated id) as Hid.
  { destruct (decide (id = kPrimaryInterfaceId)) as [->|]; [|destruct (decide (id = kInvalidInterfaceId)) as [->|]; [|done]];
      exfalso; apply Hne; rewrite Hq, Hu; try done; by intros [? ?]. }
  unfold bind at 1. destruct (update_endpoint id node _ r2) as [[v' r3]|] eqn:E; [|done].
  apply update_inv in E as (e3 & He3 & ->). rewrite He2 in He3. injection He3 as <-. set (r3 := with_endpoints _ _ r2).
  assert (same_clients r2 r3) as S3.
  { split; [|done]. intros id'. unfold client_at. change (endpoints_ r3) with (<[id := with_queue [] e2]> (endpoints_ r2)).
    destruct (decide (id' = id)) as [->|Hn]; [by rewrite lookup_insert_eq, He2|by rewrite lookup_insert_ne]. }
  intros E. apply given_drain in E as (S4 & U4 & new & W4 & N4); [|done|rewrite Hq; apply Ho]. split_and!.
  - apply (set_client_before _ _ _ r2); [done|]. split; [intros id'; rewrite (proj1 S4); apply S3|].
    rewrite (proj2 S4). apply S3.
  - apply U4. intros id' Hid'. unfold queued. change (endpoints_ r3) with (<[id := with_queue [] e2]> (endpoints_ r2)).
    rewrite lookup_insert_ne by (by intros <-).
    change (queued id' r2 = []). rewrite Q2. by apply Hu.
  - exists new. rewrite W4. change (world r3) with (world r1). rewrite W1. split; [done|]. intros c' m Hm.
    rewrite (owner_same _ _ _ S4). by apply N4.
Qed.

Lemma attached_snoc id es e : attached id (es ++ [e]) =
  match e with
  | Attach id' c' => if id' =? id then Some c' else attached id es
  | Detach id' | Close id' => if id' =? id then None else attached id es
  | _ => attached id es
  end.
Proof. unfold attached. rewrite fold_left_app. by destruct e. Qed.
Lemma primary_snoc es e : primary (es ++ [e]) =
  match e with AttachPrimary c => Some c | DetachPrimary => None | _ => primary es end.
Proof. unfold primary. rewrite fold_left_app. by destruct e. Qed.

(** The router knows the clients. *)
Definition knows (es : list Event) (r : R) : Prop :=
  (∀ id, client_at id r = attached id es) ∧ primary_client_ r = primary es ∧ unqueued r.
Lemma knows_owner es r id : knows es r → owner id r = addressee id es.
Proof. intros (Hc & Hp & _). unfold owner, addressee. case_decide; [done|apply Hc]. Qed.

Lemma knows_given es e r r' :
  (∀ id, attached id (es ++ [e]) = attached id es) → primary (es ++ [e]) = primary es →
  knows es r → given r r' → knows (es ++ [e]) r' ∧ gave (λ id, addressee id (es ++ [e])) r r'.
Proof.
  intros Ha Hp (K1 & K2 & K3) (S & U & new & W & N). assert (knows (es ++ [e]) r') as K.
  { split; [intros id; rewrite (proj1 S), Ha; apply K1|]. split; [rewrite (proj2 S); congruence|auto]. }
  split; [done|]. exists new. split; [done|]. intros c m Hm. rewrite <- (knows_owner _ _ _ K), (owner_same _ _ _ S). by apply N.
Qed.
Lemma knows_set es e id c r r' :
  (∀ id', attached id' (es ++ [e]) = if id =? id' then c else attached id' es) → primary (es ++ [e]) = primary es →
  knows es r → set_client id c r r' → unqueued r' → gave (λ id, owner id r') r r' →
  knows (es ++ [e]) r' ∧ gave (λ id, addressee id (es ++ [e])) r r'.
Proof.
  intros Ha Hp (K1 & K2 & K3) [S1 S2] U (new & W & N). assert (knows (es ++ [e]) r') as K.
  { split; [|split; [congruence|done]]. intros id'. rewrite S1, Ha. destruct (Z.eqb_spec id id'); case_decide; congruence. }
  split; [done|]. exists new. split; [done|]. intros c' m Hm. rewrite <- (knows_owner _ _ _ K). by apply N.
Qed.

Lemma gave_nothing o (r r' : R) : world r' = world r → gave o r r'.
Proof. intros Hw. exists []. rewrite app_nil_r. split; [done|]. by intros c m ?%elem_of_nil. Qed.

Lemma knows_event es e r u r' : knows es r → owned r → run_event e r = Some (u, r') →
  knows (es ++ [e]) r' ∧ gave (λ id, addressee id (es ++ [e])) r r'.
Proof.
  intros K Ho E.
  assert (steps given (run_event e) → (∀ id, attached id (es ++ [e]) = attached id es) → primary (es ++ [e]) = primary es →
    knows (es ++ [e]) r' ∧ gave (λ id, addressee id (es ++ [e])) r r') as Hgiven.
  { intros Hm Ha Hp. by eapply knows_given, Hm. }
  assert (steps still (run_event e) → (∀ id, attached id (es ++ [e]) = attached id es) → primary (es ++ [e]) = primary es →
    knows (es ++ [e]) r' ∧ gave (λ id, addressee id (es ++ [e])) r r') as Hstill by (intros Hm; by apply Hgiven, steps_still).
  assert (∀ id r1 u', (∀ id', attached id' (es ++ [e]) = if id =? id' then None else attached id' es) →
    primary (es ++ [e]) = primary es → still r r1 →
    (∃ k, steps still k ∧ k (with_endpoints (next_node r1) (alter (with_client None) id (endpoints_ r1)) r1) = Some (u' : unit, r')) →
    knows (es ++ [e]) r' ∧ gave (λ id, addressee id (es ++ [e])) r r') as Hclear.
  { intros id r1 u' Ha Hp (S1 & Q1 & W1) (k & Hk & E2). apply Hk in E2 as (S3 & Q3 & W3).
    destruct (cleared r1 id) as (S2 & Q2 & W2). apply (knows_set es e id None r r'); try done.
    - eapply set_client_after, set_client_before; done.
    - intros id' Hid. rewrite Q3, Q2, Q1. by apply K.
    - apply gave_nothing. congruence. }
  destruct e as [o| |rok| | | | | |id c|id|c| |id| |id|id|m|id k|id k]; cbn [run_event] in *;
    lazymatch goal with
    | |- context [Readable _] => idtac
    | |- context [[PeerClosed]] => idtac
    | _ => try (apply Hstill; [|intros id'; by rewrite attached_snoc|by rewrite primary_snoc])
    end.
  - by apply steps_modify.
  - by apply steps_modify.
  - apply Hgiven; [|intros id'; by rewrite attached_snoc|by rewrite primary_snoc].
    unfold Router.OnReadable, ReadAllAvailableMessages. apply steps_get. intros r1.
    destruct (_ || _); [apply steps_ret, _|]. destruct rok; [apply steps_get; intros r2; apply given_read_all|apply steps_still, still_raise].
  - apply Hgiven; [|intros id'; by rewrite attached_snoc|by rewrite primary_snoc].
    unfold Router.OnPeerClosed, ReadAllAvailableMessages. apply steps_get. intros r1.
    destruct (_ || _); [apply steps_ret, _|].
    apply steps_bind; [apply _|apply steps_get; intros r2; apply given_read_all|intros v; apply steps_still, still_raise].
  - by apply steps_modify.
  - apply steps_bind; [apply _|by apply steps_modify|intros v; by apply steps_modify].
  - apply steps_get. intros r1. destruct (negb _); [apply steps_ret, _|].
    apply steps_bind; [apply _|by apply steps_modify|intros v; by apply steps_modify].
  - apply steps_bind; [apply _|by apply steps_modify|intros v; by apply steps_modify].
  - apply attach_given in E as (S & U & G); [|done|apply K].
    by apply (knows_set es _ id (Some c) r r'); [intros id'; rewrite attached_snoc|rewrite primary_snoc|..].
  - apply (Hclear id r u); [intros id'; by rewrite attached_snoc|by rewrite primary_snoc|done|].
    exists (MaybeEraseEndpoint id). split; [apply still_erase|exact E].
  - injection E as _ <-. split; [|by apply gave_nothing]. split; [intros id; rewrite attached_snoc; apply K|].
    split; [by rewrite primary_snoc|apply K].
  - injection E as _ <-. split; [|by apply gave_nothing]. split; [intros id; rewrite attached_snoc; apply K|].
    split; [by rewrite primary_snoc|apply K].
  - apply steps_bind; [apply _| |intros v; apply steps_ret, _].
    apply steps_bind; [apply _|apply still_found|intros n]. apply steps_bind; [apply _|apply still_retain|intros v; apply steps_ret, _].
  - apply steps_bind; [apply _| |intros v; apply steps_ret, _].
    apply steps_bind; [apply _|apply still_mint|intros n]. apply steps_bind; [apply _|apply still_found|intros n'].
    apply steps_bind; [apply _|apply still_retain|intros v; apply steps_ret, _].
  - apply steps_bind; [apply _| |intros v; apply steps_ret, _].
    apply steps_bind; [apply _|apply still_drop|intros v; apply steps_ret, _].
  - apply bind_inv in E as (v & r1 & E & E2).
    apply (Hclear id r1 u); [intros id'; by rewrite attached_snoc|by rewrite primary_snoc| |].
    + refine ((_ : steps still _) _ _ _ E). apply steps_bind; [apply _|apply still_send|intros w; apply steps_ret, _].
    + exists (DropEndpointHandle id). split; [apply still_drop|exact E2].
  - apply steps_bind; [apply _|apply still_send|intros v; apply steps_ret, _].
  - apply steps_bind; [apply _|apply still_found|intros n; by apply still_update].
  - apply steps_bind; [apply _|apply still_found|intros n; by apply still_update].
Qed.

Lemma knows_events es' : ∀ es r u r', knows es r → delivers es r → Forall event_ok es' →
  run_events es' r = Some (u, r') → knows (es ++ es') r'.
Proof using H64.
  induction es' as [|e es' IH]; intros es r u r' K D Hok E; [injection E as _ <-; by rewrite app_nil_r|].
  apply Forall_cons in Hok as [He Hok]. apply bind_inv in E as (v & r1 & E & E2).
  pose proof (delivers_event es e r D He) as D1. unfold wp in D1. rewrite E in D1.
  destruct (knows_event es e r v r1 K (dl_owned _ _ D) E) as [K1 _].
  replace (es ++ e :: es') with ((es ++ [e]) ++ es') by by rewrite <- app_assoc. by apply (IH _ r1 u r').
Qed.

(** C30: From the pipe to the clients of associated interfaces nothing is lost, repeated,
    reordered within an interface or given to another client.  On a host with a 64-bit
    [size_t], in any sequence of events, with messages below 4 GiB, at a router whose clients
    and closures do not call back into it, none of the steps is undefined, and after it: what an interface's clients
    have been given, then what waits at its endpoint, then what is still in the pipe, is what
    the peer has written for it, as long as the connection stands, and a beginning of it after
    an error; nothing waits at an endpoint that has a client; and whatever event comes next,
    the messages given in it each go to the client that was last attached to the message's
    interface and not detached since, or to the primary client if it is for that. *)
Theorem associated_fifo es namespace_bit :
  Forall event_ok es →
  wp (run_events es) (λ _ r,
    (∀ id, is_associated id →
      (delivered id r ++ queued id r) `prefix_of` written id es ∧
      (pipe_ (connector_ r) = true → delivered id r ++ queued id r ++ in_pipe id r = written id es) ∧
      (∀ e, endpoints_ r !! id = Some e → is_Some (client e) → queued_messages e = [])) ∧
    ∀ e, event_ok e → wp (run_event e) (λ _ r', ∃ new, world r' = world r ++ new ∧
      ∀ c m, (c, m) ∈ new → addressee (sent_id m) (es ++ [e]) = Some c) r)
    (Router_init [] namespace_bit []).
Proof using H64.
  intros Hok. set (r0 := Router_init [] namespace_bit []).
  assert (delivers [] r0) as D0 by (split; try done; intros id; unfold queued; cbn; by rewrite lookup_empty).
  assert (knows [] r0) as K0.
  { split; [|split; [done|]]; intros id; [unfold client_at|unfold queued]; cbn; by rewrite lookup_empty. }
  pose proof (delivers_events es [] r0 D0 Hok) as Hrun. unfold wp in *.
  destruct (run_events es r0) as [[u r]|] eqn:E; [|done]. cbn [app] in Hrun. rename Hrun into D.
  pose proof (knows_events es [] r0 u r K0 D0 Hok E) as K. split.
  - intros id Hid. split_and!; [by apply (dl_prefix _ _ D)| |apply (dl_idle _ _ D)].
    intros Hp. rewrite app_assoc. by apply (dl_all _ _ D).
  - intros e He. pose proof (delivers_event es e r D He) as D1. unfold wp in D1.
    destruct (run_event e r) as [[v r1]|] eqn:E1; [|done]. by apply (knows_event es e r v r1 K (dl_owned _ _ D) E1).
Qed.

(** C31: Endpoints live as long as something needs them, at a router whose clients and
    closures do not call back into it ([drain_dangles] is about one that does), on a host with
    a 64-bit [size_t]: in any sequence of events in which the application gives up only
    handles that it has, the count of every endpoint is the number of live handles with its
    id, an endpoint that has a handle is there, and one that is there has a handle, a client
    or queued messages: the last handle that is dropped with neither erases it, and nothing
    is dropped twice.  The ids that pairs get are the ones of the counter. *)
Theorem handles_counted es namespace_bit hs next :
  Forall event_ok es → handles namespace_bit 1 [] es = Some (hs, next) →
  wp (run_events es) (λ _ r,
    (∀ id, refs_of id r = count id hs) ∧
    (∀ id, id ∈ hs → is_Some (endpoints_ r !! id)) ∧
    (∀ id e, endpoints_ r !! id = Some e → id ∈ hs ∨ is_Some (client e) ∨ queued_messages e ≠ []) ∧
    next_id_value_ r = next)
    (Router_init [] namespace_bit []).
Proof using H64.
  intros Hok Hes. set (r0 := Router_init [] namespace_bit []).
  assert (wp (run_events es) (λ _ r, delivers es r) r0) as Hrun.
  { apply (delivers_events es [] r0); [|done]. split; try done. intros id. unfold queued. cbn. by rewrite lookup_empty. }
  unfold wp in *. destruct (run_events es r0) as [[u r]|] eqn:E; [|done].
  assert (holds namespace_bit 1 [] r0) as H0 by (split; [intros id; unfold refs_of; cbn; by rewrite lookup_empty|done..]).
  assert (in_use r0) as U0 by (intros id e; unfold r0; cbn; by rewrite lookup_empty).
  destruct (holds_events _ _ _ _ _ _ _ _ _ Hes H0 U0 E) as [Hh Hu]. split_and!.
  - apply Hh.
  - intros id Hin. destruct (holds_has _ _ _ _ _ Hh Hin) as (e & He & _). by eexists.
  - intros id e He. destruct (Hu id e He) as [Hr|Hr]; [left|by right].
    apply count_elem. pose proof (h_refs _ _ _ _ Hh id) as Hx. unfold refs_of in Hx. rewrite He in Hx. lia.
  - apply Hh.
Qed.
End consuming.

(** ** Ids *)

Lemma minted_sum bit n : 0 <= n < 2 ^ 31 → minted bit n = n + (if bit then 2 ^ 31 else 0).
Proof.
  intros Hn. destruct bit; unfold minted; [|lia]. change kInterfaceIdNamespaceMask with (2 ^ 31).
  symmetry. apply Z.add_nocarry_lor. apply Z.bits_inj'. intros i Hi.
  rewrite Z.land_spec, Z.pow2_bits_eqb, Z.bits_0 by lia. destruct (31 =? i) eqn:E; [|by rewrite andb_false_r].
  apply Z.eqb_eq in E as <-. rewrite andb_true_r, Z.testbit_eqb, Z.div_small by lia. done.
Qed.
(** The ids of the two routers of a pipe differ, and are those of associated interfaces,
    as long as neither has made [2 ^ 31 - 1] pairs. *)
Lemma minted_ids bit bit' n n' : 1 <= n < 2 ^ 31 - 1 → 1 <= n' < 2 ^ 31 - 1 →
  is_associated (minted bit n) ∧ (minted bit n = minted bit' n' → bit = bit' ∧ n = n').
Proof.
  intros Hn Hn'. unfold is_associated, kPrimaryInterfaceId, kInvalidInterfaceId. rewrite !minted_sum by lia.
  destruct bit, bit'; lia.
Qed.
(** The counter is not kept in 31 bits: the pair made then has the id that is not one, and
    the next ones have ids of the other router. *)
Example minted_runs_out :
  minted true (2 ^ 31 - 1) = kInvalidInterfaceId ∧ minted false (2 ^ 31 + 5) = minted true 5.
Proof. done. Qed.

(** ** Concrete runs *)

Definition takes_all {W} (r : Router nat W) (m : Sent) : bool := true.
Definition takes_all_of (r : Router nat (list (nat * Sent))) (m : Sent) : bool := true.
Definition note (id n : Z) : Sent := mkSent 7 0 id 0 [n] [].
(** A pair is made; three messages come for it and one for an interface that the
    application takes later; a client is attached between them. *)
Definition busy_day : list (Event (Client := nat)) :=
  [MakePair; Start; PeerWrites (Some (note 1 10)); PeerWrites (Some (note 9 20)); Readable true; PeerWrites (Some (note 1 11));
   Attach 1 3%nat; Readable true; MakeHandle 9; PeerWrites (Some (note 1 12)); Close 9; OnClosed 1 5%nat; PeerCloses].

Lemma busy_day_ok : Forall event_ok busy_day.
Proof. by repeat constructor; cbn. Qed.

Lemma associated_fifo_witness :
  wp (run_events (H := linux64) (λ _ _, true) takes_all_of busy_day) (λ _ r,
    (∀ id, is_associated id →
      (delivered id r ++ queued id r) `prefix_of` written id busy_day ∧
      (pipe_ (connector_ r) = true → delivered id r ++ queued id r ++ in_pipe id r = written id busy_day) ∧
      (∀ e, endpoints_ r !! id = Some e → is_Some (client e) → queued_messages e = [])) ∧
    ∀ e, event_ok e → wp (run_event (H := linux64) (λ _ _, true) takes_all_of e) (λ _ r', ∃ new, world r' = world r ++ new ∧
      ∀ c m, (c, m) ∈ new → addressee (sent_id m) (busy_day ++ [e]) = Some c) r)
    (Router_init [] false []).
Proof.
  apply (associated_fifo (H := linux64)); [reflexivity|exact busy_day_ok].
Defined.

Lemma handles_counted_witness :
  handles false 1 [] busy_day = Some ([1], 2) ∧
  wp (run_events (H := linux64) (λ _ _, true) takes_all_of busy_day) (λ _ r,
    (∀ id, refs_of id r = count id [1]) ∧
    (∀ id, id ∈ [1] → is_Some (endpoints_ r !! id)) ∧
    (∀ id e, endpoints_ r !! id = Some e → id ∈ [1] ∨ is_Some (client e) ∨ queued_messages e ≠ []) ∧
    next_id_value_ r = 2)
    (Router_init [] false []).
Proof.
  split; [vm_compute; reflexivity|].
  apply (handles_counted (H := linux64)); [reflexivity|exact busy_day_ok|vm_compute; reflexivity].
Defined.

(** What the clients of that day have been given, and what is left. *)
Example busy_day_run :
  match run_events (H := linux64) (λ _ _, true) takes_all_of busy_day (Router_init [] false []) with
  | Some (_, r) => (world r, queued 9 r, incoming (connector_ r))
  | None => ([], [], [])
  end = ([(3%nat, note 1 10); (3%nat, note 1 11)], [note 9 20], [Some (note 1 12)]).
Proof. vm_compute. reflexivity. Qed.

(** *** Clients that call back *)

Section calling_back.
#[local] Existing Instance linux64.
#[local] Abbreviation R := (Router nat (list Sent)).
Definition silent (k : nat) : M R unit := ret tt.
Definition silent_reason (k : nat) (reason : Z) (description : list Z) : M R unit := ret tt.

(** The client closes its own handle when it gets a message. *)
Definition closing_client (c : nat) (m : Sent) : M R bool :=
  modify (with_world (λ l, l ++ [m])) ;; CloseEndpoint silent silent_reason takes_all (sent_id m) ;; ret true.
(** The client pauses the connector when it gets a message. *)
Definition pausing_client (c : nat) (m : Sent) : M R bool :=
  modify (with_world (λ l, l ++ [m])) ;; PauseIncomingMethodCallProcessing ;; ret true.

(** Two messages wait for a client that closes its handle with the first: the endpoint is
    erased, and the loop goes on with the reference to it. *)
Example drain_dangles :
  (CreateLocalEndpointHandle 5 ;;
   Accept closing_client silent silent_reason takes_all (note 5 1) ;;
   Accept closing_client silent silent_reason takes_all (note 5 2) ;;
   AttachEndpointClient closing_client silent silent_reason 5 0%nat) (Router_init [] false []) = None.
Proof. vm_compute. reflexivity. Qed.
(** With one message nothing goes wrong. *)
Example drain_one :
  match (CreateLocalEndpointHandle 5 ;;
         Accept closing_client silent silent_reason takes_all (note 5 1) ;;
         AttachEndpointClient closing_client silent silent_reason 5 0%nat) (Router_init [] false []) with
  | Some (_, r) => world r = [note 5 1] ∧ endpoints_ r !! 5 = None
  | None => False
  end.
Proof. vm_compute. split; reflexivity. Qed.

(** The other end is closed, two messages are left, and the client of the first pauses:
    the second is lost, and so is the connection that is to be resumed. *)
Definition paused_close : M R unit :=
  AttachPrimaryClient 0%nat ;; StartReceiving ;;
  modify (with_connector (λ c, mkConnector (pipe_ c) (incoming c) true (outgoing c) (watching_ c) (error_ c) (paused_ c))) ;;
  OnPeerClosed pausing_client silent silent_reason takes_all ;;
  ResumeIncomingMethodCallProcessing.
Example paused_close_loses :
  match paused_close (Router_init [Some (note 0 1); Some (note 0 2)] false []) with
  | Some (_, r) => world r = [note 0 1] ∧ pipe_ (connector_ r) = false ∧ incoming (connector_ r) = [] ∧ watching_ (connector_ r) = false
  | None => False
  end.
Proof. vm_compute. repeat split. Qed.

(** The peer names the ids: messages for interfaces that nobody made, one of them in this
    router's own part of the ids, each leave an endpoint with no handle. *)
Example unknown_ids_kept :
  match (Accept closing_client silent silent_reason takes_all (note 1 1) ;;
         Accept closing_client silent silent_reason takes_all (note 2147483649 1)) (Router_init [] false []) with
  | Some (_, r) => size (endpoints_ r) = 2%nat ∧ refs <$> endpoints_ r !! 1 = Some 0 ∧ refs <$> endpoints_ r !! 2147483649 = Some 0
  | None => False
  end.
Proof. vm_compute. repeat split. Qed.
End calling_back.
