(* ===== verification/GenClaims.v ===== *)
(** * Generated code and its wire format

    The theorems on the functions that the generator emits for a source: they are
    there, they write the wire format, read what they wrote and what other versions of
    the schema wrote; and where a peer's message gets past them. *)
From Stdlib Require Import ZArith Lia.
From stdpp Require Import base list gmap.
From S2P Require Import Prelude Lexer Ast Scan Embed Parser ParseDecl ParseSafe ParseTotal EnableIf TypeIntern Sandbox SandboxProps Codec BindMessageProps GenNames GenCode GenOrderProps GenIO GenSem GenWire GenTotal GenWriteProps GenReadProps GenSafe.

(** [TypeSpec] of a class of the module. *)
Definition is_class (t : TypeSpec) : Prop :=
  (t_kind t = kStructRef ∨ t_kind t = kUnionRef) ∧ nullable t = false.
Definition class_type (k : TypeKind) (name : list Z) : TypeSpec := mkTypeSpec k name None None false [] [] 0.

(** From a source to its program: the front end, the flags and the generator. *)
Record compiled (LONG_MAX : Z) (src : list Z) (enabled : gset (list Z)) (p : Program) : Prop := {
  co_source : Z.of_nat (length src) < 2 ^ 31 - 1;
  co_module : ∃ ue ts m opt, Tokenize LONG_MAX src = inr ts ∧ Parse LONG_MAX ue ts = inr m ∧
    no_typemaps opt ∧ GenerateProgram (ApplyEnableIf enabled m) opt = inr p;
  co_cpp : cpp_accepts (p_module p) = true
}.

Lemma compiled_ok LONG_MAX src enabled p : compiled LONG_MAX src enabled p →
  ∃ ctx, BuildHandleCtx (p_module p) = inr ctx ∧ program_ok p (module_extensible (p_module p)) ctx.
Proof.
  intros [Hl (ue & ts & m & opt & Ht & Hm & Ho & Hp) Hc].
  assert (p_module p = ApplyEnableIf enabled m) as Em.
  { unfold GenerateProgram in Hp. by gen_inv. }
  rewrite Em in Hc |- *.
  destruct (generated LONG_MAX ue src ts m enabled opt Ht Hl Hm Ho Hc) as (p' & ctx & Hp' & _ & _ & Hctx & Hok).
  rewrite Hp in Hp'. injection Hp' as <-. by exists ctx.
Qed.

Lemma emit_classes_names es ext ctx opt ns ios :
  emit_classes es ext ctx opt ns = inr ios → map io_name ios = map embed_cpp_name es.
Proof.
  revert ios. induction es as [|e es IH]; intros ios Hi; cbn in Hi; gen_inv; [done|]. cbn. f_equal; [|by apply IH].
  unfold embed_cpp_name. destruct (decl e) as [s|u].
  - unfold EmitStructIO in Ea. destruct (LookupTypemap _ _ _ _); by gen_inv.
  - unfold EmitUnionIO in Ea. by gen_inv.
Qed.

(** Whatever a source that the parser accepts declares, and whatever flags leave of
    it, the generator does not fail: it emits the functions of every class, once. *)
Theorem generation_never_fails LONG_MAX src enabled ue ts m opt :
  Tokenize LONG_MAX src = inr ts → Z.of_nat (length src) < 2 ^ 31 - 1 → Parse LONG_MAX ue ts = inr m →
  let m' := ApplyEnableIf enabled m in
  ∃ q, GenerateProgram m' opt = inr q ∧ p_module q = m' ∧ p_enums q = emit_enums m' opt ∧
    map io_name (p_classes q) ≡ₚ class_names m'.
Proof.
  intros E Hl Hm m'. pose proof (Parse_fine LONG_MAX ue src ts E Hl) as Hf. rewrite Hm in Hf.
  destruct Hf as [Hok Hac].
  destruct (GenerateProgram_total m' opt) as (q & out & Hq & Hs & Hperm).
  - by apply enabled_wf, module_wf.
  - by apply enable_if_acyclic.
  - by apply enabled_typed, module_typed.
  - exists q. split; [done|]. unfold GenerateProgram, GenerateIO in Hq. gen_inv. split_and!; [done|done|].
    cbn [p_classes]. rewrite Hs in Ea1. injection Ea1 as <-.
    by rewrite (emit_classes_names _ _ _ _ _ _ Ea), Hperm, embed_cpp_names.
Qed.

Section claims.
Context `{Platform} {PF : PlatformOk}.
Variables (LONG_MAX : Z) (src : list Z) (enabled : gset (list Z)) (p : Program).
#[local] Abbreviation ext := (module_extensible (p_module p)).

(** C32: The function that is emitted to write a class appends what the reference
    encoder makes of the value, bytes and handles, and takes the handles out of it:
    [Write<class>] is the encoder. *)
Theorem writers_encode depth ver t v o fuel w :
  compiled LONG_MAX src enabled p → is_class t → encode p ext depth ver t v = Some o →
  (length (b_data o) < 8 * fuel)%nat → Z.of_nat (length (data w) + length (b_data o)) < 2 ^ 32 →
  write_class p fuel (CppEmbedName_type t) v w = inr (spent v, put_bits o w).
Proof.
  intros Hc [Hk Hn] He Hf Hs. destruct (compiled_ok _ _ _ _ Hc) as (ctx & _ & Hok).
  by apply (write_class_spec p ctx ext (PK := Hok) ver t v o); [apply encode_sound in He| | | |].
Qed.

(** C33: What is written of a value that the reference encoder takes is read back: after
    [Write<class>], wherever its message is read from where the writing began, and whatever
    has been added behind, [Read<class>] gives the value that was written, its handles and
    endpoints, and stops where the writer did, in a message below 4 GiB.  The encoder takes values of the type with
    sizes that 32 bits hold, maps without a key twice, optional handles that are valid, and
    enumerators that are known in the version of the struct that holds them, if their enum
    is not extensible: an enumerator of a later version is written too, but the reader
    refuses it ([newer_enumerator_refused]). *)
Theorem write_read_roundtrip depth ver t v o fuel w post more eps ctx :
  compiled LONG_MAX src enabled p → is_class t → encode p ext depth ver t v = Some o →
  BuildHandleCtx (p_module p) = inr ctx →
  (length (b_data o) < 8 * fuel)%nat → Z.of_nat (length (data w) + length (b_data o) + length post) < 2 ^ 32 →
  ∃ w' hs, write_class p fuel (CppEmbedName_type t) v w = inr (spent v, w') ∧
    read_class p fuel (CppEmbedName_type t) (bool_decide (CppEmbedName_type t ∈ ctx)) (init t)
      (mkWire (data w' ++ post) (handles w' ++ more) (length (handles w)) (Z.of_nat (length (data w))) eps) =
    inr (v, mkWire (data w' ++ post) hs (length (handles w')) (Z.of_nat (length (data w'))) (eps ++ b_endpoints o)).
Proof using PF.
  intros Hc [Hk Hn] He Hctx Hf Hs. destruct (compiled_ok _ _ _ _ Hc) as (ctx' & Hctx' & Hok).
  rewrite Hctx in Hctx'. injection Hctx' as <-. apply encode_sound in He.
  exists (put_bits o w). eexists. split; [by apply (write_class_spec p ctx ext (PK := Hok) ver t v o); try done; lia|].
  rewrite (read_class_spec p ext ctx (PK := Hok) true ver t v o); [|done..|].
  2: { split; cbn; rewrite ?length_app, ?Nat2Z.id, <- ?app_assoc, ?drop_app_length; [by eexists|by eexists|lia..]. }
  unfold got. cbn [data handles handle_idx offset endpoints put_bits]. rewrite !length_app, Nat2Z.inj_add. reflexivity.
Qed.

(** C34: A reader accepts every message that has, by its own schema, one of these forms
    ([Repr] without [exact]), gives the value and goes on behind it: a struct of any version
    that has the fields up to this version, in their order, and whose missing fields then are
    as their declaration initialises them; a struct or union with more bytes, of any
    content, than the reader knows; and a union with an unknown tag, if it was declared
    extensible.  Handles are not part of what may be skipped: those of a field that the
    reader does not know are taken for the next field's ([skipped_handle_is_taken]). *)
Theorem readers_accept_versions ver t v o fuel w ctx :
  compiled LONG_MAX src enabled p → is_class t → Repr p ext false ver t v o →
  BuildHandleCtx (p_module p) = inr ctx → (length (b_data o) < 8 * fuel)%nat → ahead o w →
  read_class p fuel (CppEmbedName_type t) (bool_decide (CppEmbedName_type t ∈ ctx)) (init t) w = inr (v, got o w).
Proof using PF.
  intros Hc [Hk Hn] Hr Hctx Hf Hw. destruct (compiled_ok _ _ _ _ Hc) as (ctx' & Hctx' & Hok).
  rewrite Hctx in Hctx'. injection Hctx' as <-. by apply (read_class_spec p ext ctx (PK := Hok) false ver t v o).
Qed.

(** C35: Where [size_t] has 64 bits, a reader is safe on any message: whatever bytes and
    handles come from the peer, it ends, with calls no deeper than an eighth of the
    payload that is left; it never reads outside the payload, and where it succeeds
    the offset has not gone back.  It can fail otherwise than by [return false] in two
    ways only, by a [bool] that is neither 0 nor 1, or a handle that is not there. *)
Theorem readers_are_safe fuel t w ctx :
  uintptr_bits = 64 → compiled LONG_MAX src enabled p → closed_program p = true → is_class t → closed p ext t = true →
  BuildHandleCtx (p_module p) = inr ctx →
  0 <= offset w <= Z.of_nat (length (data w)) → Z.of_nat (length (data w)) < 2 ^ 32 → Forall byte_ok (data w) →
  Z.of_nat (length (data w)) - offset w < 8 * Z.of_nat fuel →
  match read_class p fuel (CppEmbedName_type t) (bool_decide (CppEmbedName_type t ∈ ctx)) (init t) w with
  | inr (_, w') => data w' = data w ∧ offset w <= offset w' <= Z.of_nat (length (data w))
  | inl ReturnFalse | inl BadBool | inl NoHandle => True
  | inl Stuck | inl OutOfFuel => False
  end.
Proof.
  intros H64 Hc Hcl [Hk Hn] Hct Hctx Ho Hs Hb Hf. destruct (compiled_ok _ _ _ _ Hc) as (ctx' & Hctx' & Hok).
  rewrite Hctx in Hctx'. injection Hctx' as <-.
  unfold closed_program in Hcl. rewrite andb_true_iff, !forallb_forall in Hcl. destruct Hcl as [Hcs Hcu].
  pose proof (readers_safe H64 p ext ctx (PK := Hok)) as Hsafe. unfold read_class.
  specialize (λ A B, Hsafe A B fuel t w Hk Hn Hct).
  match type of Hsafe with ?A → ?B → _ => assert A as HA; [|assert B as HB; [|specialize (Hsafe HA HB)]] end.
  - intros s f Hs' Hf'. specialize (Hcs s ltac:(by apply list_elem_of_In)). rewrite forallb_forall in Hcs.
    apply Hcs. by apply list_elem_of_In.
  - intros u f Hu Hf'. specialize (Hcu u ltac:(by apply list_elem_of_In)). rewrite forallb_forall in Hcu.
    apply Hcu. by apply list_elem_of_In.
  - specialize (Hsafe ltac:(split_and!; [lia..|done])).
    destruct (call p fuel false _ _ _ w) as [[]|[v w']]; [done..|exact Hsafe].
Qed.
End claims.

(** ** A program and a value *)

Definition parsed (src : list Z) : Module_ :=
  match Tokenize (2 ^ 63 - 1) src with
  | inr ts => match Parse (2 ^ 63 - 1) false ts with inr m => m | inl _ => Module_init end
  | inl _ => Module_init
  end.
Definition no_options : GeneratorOptions := mkGeneratorOptions ∅ [].
Definition program_of (src : list Z) : Program :=
  match GenerateProgram (ApplyEnableIf ∅ (parsed src)) no_options with
  | inr p => p
  | inl _ => mkProgram (parsed src) [] []
  end.

(** Whether the source goes all the way. *)
Definition compiles (src : list Z) : bool :=
  match Tokenize (2 ^ 63 - 1) src with
  | inr ts =>
      match Parse (2 ^ 63 - 1) false ts with
      | inr m =>
          match GenerateProgram (ApplyEnableIf ∅ m) no_options with
          | inr p => cpp_accepts (p_module p)
          | inl _ => false
          end
      | inl _ => false
      end
  | inl _ => false
  end && (Z.of_nat (length src) <? 2 ^ 31 - 1).

Lemma compiles_ok src : compiles src = true → compiled (2 ^ 63 - 1) src ∅ (program_of src).
Proof.
  unfold compiles, program_of, parsed. intros [Hc Hl%Z.ltb_lt]%andb_prop.
  destruct (Tokenize (2 ^ 63 - 1) src) as [|ts] eqn:Ht; [done|].
  destruct (Parse (2 ^ 63 - 1) false ts) as [|m] eqn:Hm; [done|].
  destruct (GenerateProgram (ApplyEnableIf ∅ m) no_options) as [|p] eqn:Hp; [done|].
  split; [done| |done]. exists false, ts, m, no_options. by split_and!.
Qed.

Definition parcel_source : list Z :=
  bytes "interface J { f(); };
enum Color { RED, GREEN = 5 };
struct Point { int32 x; uint8 y = 3; };
[Extensible] union U { string s; Point p; };
struct Big {
  bool b; string name; Color c; U u; array<Point> ps; array<uint16, 2> fixed;
  map<string, array<int32>> m; int32? oi; Point? nop; handle? nh; pending_remote<J> r;
  pending_associated_receiver<J> ar; array<handle> hs; [MinVersion=2] int64 late;
};".
Definition parcel_program : Program := Eval vm_compute in program_of parcel_source.
Definition parcel_ctx : gset (list Z) := {[bytes "Big"]}.

Lemma parcel_compiles : compiled (2 ^ 63 - 1) parcel_source ∅ parcel_program.
Proof. apply (compiles_ok parcel_source). by vm_compute. Qed.
Lemma parcel_context : BuildHandleCtx (p_module parcel_program) = inr parcel_ctx.
Proof. by vm_compute. Qed.

Definition Big : TypeSpec := class_type kStructRef (bytes "Big").
Definition Point : TypeSpec := class_type kStructRef (bytes "Point").
Definition point (x y : Z) : Val := VObj [(bytes "x", VWord 4 x); (bytes "y", VWord 1 y)].
Definition parcel : Val :=
  VObj [(bytes "b", VBool true); (bytes "name", VStr (bytes "hi")); (bytes "c", VWord 4 5);
    (bytes "u", VUnion 1 (bytes "p") (point 7 8)); (bytes "ps", VArr Point [point 3 4; point 5 6]);
    (bytes "fixed", VArr (TypeSpec_init kUint16) [VWord 2 1; VWord 2 513]);
    (bytes "m", VMap [VPair (VStr (bytes "k")) (VArr (TypeSpec_init kInt32) [VWord 4 9])]);
    (bytes "oi", VOpt (Some (VWord 4 77))); (bytes "nop", VOpt None); (bytes "nh", VHandle (Pipe 0));
    (bytes "r", VPending (Pipe 101) (Some 3)); (bytes "ar", VPending (Endpoint true 9) None);
    (bytes "hs", VArr (TypeSpec_init kHandle) [VHandle (Pipe 103); VHandle (Pipe 104)]);
    (bytes "late", VWord 8 123456789)].
Definition parcel_bits : Bits :=
  Eval vm_compute in
  match encode parcel_program (module_extensible (p_module parcel_program)) 10 None Big parcel with
  | Some o => o | None => no_bits end.
Lemma parcel_encodes :
  encode parcel_program (module_extensible (p_module parcel_program)) 10 None Big parcel = Some parcel_bits.
Proof. by vm_compute. Qed.

Definition no_message : Wire := mkWire [] [] 0 0 [].

Lemma writers_encode_witness :
  write_class (H := linux64) parcel_program 20 (CppEmbedName_type Big) parcel no_message =
  inr (spent parcel, put_bits parcel_bits no_message).
Proof.
  apply (writers_encode (2 ^ 63 - 1) parcel_source ∅ parcel_program 10 None Big parcel parcel_bits 20 no_message);
    [exact parcel_compiles|by split; [left|]|exact parcel_encodes|cbn; lia|cbn; lia].
Defined.

(** Behind three bytes and a handle, with a byte and a handle after it. *)
Definition begun : Wire := mkWire [1; 2; 3] [50] 0 0 [].

Lemma write_read_roundtrip_witness :
  ∃ w' hs, write_class (H := linux64) parcel_program 20 (CppEmbedName_type Big) parcel begun = inr (spent parcel, w') ∧
    read_class (H := linux64) parcel_program 20 (CppEmbedName_type Big) (bool_decide (CppEmbedName_type Big ∈ parcel_ctx)) (init Big)
      (mkWire (data w' ++ [255]) (handles w' ++ [60]) 1 3 []) =
    inr (parcel, mkWire (data w' ++ [255]) hs (length (handles w')) (Z.of_nat (length (data w'))) ([] ++ b_endpoints parcel_bits)).
Proof.
  apply (write_read_roundtrip (H := linux64) (PF := SandboxProps.linux64_ok) (2 ^ 63 - 1) parcel_source ∅ parcel_program 10 None Big
    parcel parcel_bits 20 begun [255] [60] [] parcel_ctx);
    [exact parcel_compiles|by split; [left|]|exact parcel_encodes|exact parcel_context|cbn; lia|cbn; lia].
Defined.

(** A struct that had its second member from version 2 on. *)
Definition grown_source : list Z :=
  bytes "struct S { int8 a; [MinVersion=2] int16 b = 4; };
[Extensible] union U { int8 x; };".
Definition grown_program : Program := Eval vm_compute in program_of grown_source.
Lemma grown_compiles : compiled (2 ^ 63 - 1) grown_source ∅ grown_program.
Proof. apply (compiles_ok grown_source). by vm_compute. Qed.
Definition S_type : TypeSpec := class_type kStructRef (bytes "S").

(** Version 1 of it, and two bytes that this reader does not know. *)
Definition older : Val :=
  VObj [(bytes "a", VWord 1 7);
        (bytes "b", match s_fields <$> find_struct (p_module grown_program) S_type with
                    | Some [_; b] => field_init b | _ => VUnknown end)].
Definition older_bits : Bits := mkBits (le_bytes 4 11 ++ le_bytes 4 1 ++ [7; 8; 9]) [] [].

Lemma older_repr :
  Repr grown_program (module_extensible (p_module grown_program)) false None S_type older older_bits.
Proof.
  destruct (find_struct (p_module grown_program) S_type) as [s|] eqn:Es; [|by vm_compute in Es].
  assert (Some s = find_struct (p_module grown_program) S_type) as Es' by done. vm_compute in Es'.
  injection Es' as Es'.
  change older_bits with (sized (size_of (raw [7] +++ no_bits) [8; 9]) 1 (raw [7] +++ no_bits) [8; 9]).
  eapply (R_struct _ _ _ None S_type s 1 (wire_fields s)); try done; try (by rewrite Es'); [apply wire_fields_order|].
  rewrite Es'. eapply RF_present; [done|left|..|apply RF_absent; [done|right; left|apply RF_nil]].
  change (raw [7]) with (raw (le_bytes 1 7)). by apply R_word.
Qed.

Lemma readers_accept_versions_witness :
  read_class (H := linux64) grown_program 3 (CppEmbedName_type S_type) (bool_decide (CppEmbedName_type S_type ∈ (∅ : gset (list Z))))
    (init S_type) (mkWire (b_data older_bits) [] 0 0 []) =
  inr (older, got older_bits (mkWire (b_data older_bits) [] 0 0 [])).
Proof.
  simple refine (readers_accept_versions (H := linux64) (PF := SandboxProps.linux64_ok) (2 ^ 63 - 1) grown_source ∅
    grown_program None S_type older older_bits 3 (mkWire (b_data older_bits) [] 0 0 []) ∅ grown_compiles _ older_repr _ _ _);
    [by split; [left|]|by vm_compute|cbn; lia|].
  split; [by exists []|by exists []|cbn; lia..].
Defined.

Lemma generation_never_fails_witness :
  ∃ q, GenerateProgram (ApplyEnableIf ∅ sample_module) no_options = inr q ∧ p_module q = ApplyEnableIf ∅ sample_module ∧
    p_enums q = emit_enums (ApplyEnableIf ∅ sample_module) no_options ∧
    map io_name (p_classes q) ≡ₚ class_names (ApplyEnableIf ∅ sample_module).
Proof.
  apply (generation_never_fails (2 ^ 63 - 1) sample_source ∅ false sample_tokens sample_module no_options);
    [exact sample_tokenizes|vm_compute; reflexivity|exact sample_parses].
Defined.

Definition parcel_junk : Wire := mkWire [40; 0; 0; 0; 2; 0; 0; 0; 1; 2; 0; 0; 0; 104; 105; 5; 0] [] 0 0 [].

Lemma readers_are_safe_witness :
  match read_class (H := linux64) parcel_program 3 (CppEmbedName_type Big)
          (bool_decide (CppEmbedName_type Big ∈ parcel_ctx)) (init Big) parcel_junk with
  | inr (_, w') => data w' = data parcel_junk ∧ offset parcel_junk <= offset w' <= Z.of_nat (length (data parcel_junk))
  | inl ReturnFalse | inl BadBool | inl NoHandle => True
  | inl Stuck | inl OutOfFuel => False
  end.
Proof.
  apply (readers_are_safe (H := linux64) (2 ^ 63 - 1) parcel_source ∅ parcel_program 3 Big parcel_junk parcel_ctx);
    [done|exact parcel_compiles|by vm_compute|by split; [left|]|by vm_compute|exact parcel_context|cbn; lia|cbn; lia
    |unfold byte_ok; cbn; repeat constructor; lia|cbn; lia].
Defined.

(** ** Messages that get past the readers *)

(** [Inner] gets a handle in version 1. *)
Definition outer_before : list Z :=
  bytes "struct Inner { int32 a; };
struct Outer { Inner i; handle after; };".
Definition outer_after : list Z :=
  bytes "struct Inner { int32 a; [MinVersion=1] handle? h; };
struct Outer { Inner i; handle after; };".
Definition before_program : Program := Eval vm_compute in program_of outer_before.
Definition after_program : Program := Eval vm_compute in program_of outer_after.
Definition Outer : TypeSpec := class_type kStructRef (bytes "Outer").

Lemma before_compiles : compiled (2 ^ 63 - 1) outer_before ∅ before_program.
Proof. apply (compiles_ok outer_before). by vm_compute. Qed.
Lemma after_compiles : compiled (2 ^ 63 - 1) outer_after ∅ after_program.
Proof. apply (compiles_ok outer_after). by vm_compute. Qed.

(** A reader that is older than the message skips the bytes of fields that it does
    not know, but not their handles: where a newer [Inner] carries a handle [g], an old
    reader of [Outer] takes [g] for the member behind [Inner], which was written
    with the handle [h]. *)
Theorem skipped_handle_is_taken g h :
  compiled (2 ^ 63 - 1) outer_before ∅ before_program ∧ compiled (2 ^ 63 - 1) outer_after ∅ after_program ∧
  ∃ v' w' w'',
    write_class (H := linux64) after_program 9 (bytes "Outer")
      (VObj [(bytes "i", VObj [(bytes "a", VWord 4 7); (bytes "h", VHandle (Pipe (Z.pos g)))]);
             (bytes "after", VHandle (Pipe h))]) no_message = inr (v', w') ∧
    handles w' = [Z.pos g; h] ∧
    read_class (H := linux64) before_program 9 (bytes "Outer") true (init Outer) w' =
    inr (VObj [(bytes "i", VObj [(bytes "a", VWord 4 7)]); (bytes "after", VHandle (Pipe (Z.pos g)))], w'').
Proof.
  split; [exact before_compiles|]. split; [exact after_compiles|].
  do 3 eexists. split; [vm_compute; reflexivity|]. split; [reflexivity|]. vm_compute. reflexivity.
Qed.

(** [B] is newer than the struct that holds it, whose version is 0. *)
Definition dated_source : list Z := bytes "enum E { A, [MinVersion=1] B }; struct S { E e; };".
Definition dated_program : Program := Eval vm_compute in program_of dated_source.
Lemma dated_compiles : compiled (2 ^ 63 - 1) dated_source ∅ dated_program.
Proof. apply (compiles_ok dated_source). by vm_compute. Qed.

(** A struct is written at its own version, whatever its enums hold: the enumerator of a
    later version is sent, and the reader of the same schema refuses the message. *)
Lemma newer_enumerator_refused :
  compiled (2 ^ 63 - 1) dated_source ∅ dated_program ∧
  ∃ v' w', write_class (H := linux64) dated_program 9 (bytes "S") (VObj [(bytes "e", VWord 4 1)]) no_message = inr (v', w') ∧
    read_class (H := linux64) dated_program 9 (bytes "S") false (init S_type) w' = inl ReturnFalse ∧
    encode dated_program (module_extensible (p_module dated_program)) 9 None S_type (VObj [(bytes "e", VWord 4 1)]) = None.
Proof. split; [exact dated_compiles|]. do 2 eexists. split; [vm_compute; reflexivity|]. split; by vm_compute. Qed.

(** A struct that holds more of itself. *)
Definition tree_source : list Z := bytes "struct S { array<S> kids; };".
Definition tree_program : Program := Eval vm_compute in program_of tree_source.
Lemma tree_compiles : compiled (2 ^ 63 - 1) tree_source ∅ tree_program.
Proof. apply (compiles_ok tree_source). by vm_compute. Qed.

(** 24 bytes: an [S] with two more; the first of them says that its size is [2^32 - 12]. *)
Definition tree_message : Wire :=
  Eval vm_compute in
  mkWire (le_bytes 4 24 ++ le_bytes 4 0 ++ le_bytes 4 2 ++
          le_bytes 4 4294967284 ++ le_bytes 4 0 ++ le_bytes 4 0) [] 0 0 [].

Lemma tree_step (c : bool → list Z → bool → Val → Wire → Result (Val * Wire)) v :
  c false (bytes "S") false (init S_type) (with_offset 12 tree_message) = inr (v, tree_message) →
  c false (bytes "S") false (init S_type) tree_message = inl OutOfFuel →
  match find_class tree_program (bytes "S") with
  | Some (mkClassIO _ _ _ (Statements b)) =>
      let* st := run (H := wasm32) tree_program c b
                   ([(V_out, BVal (open_val (p_module tree_program) (init S_type)))], tree_message) in
      let* r := at_var V_out (λ v, inr (v, v)) st.1 in inr (r.2, st.2)
  | _ => inl Stuck
  end = inl OutOfFuel.
Proof.
  intros H1 H2. vm_compute in H1, H2. vm_compute. rewrite H1. vm_compute. rewrite H2. reflexivity.
Qed.

(** Where [size_t] has 32 bits, the end of a struct that its size gives can wrap, and
    the check that it is not past the payload passes: the offset then goes back.  A
    reader of 24 bytes can be made to start over at its first byte as often as there is
    stack: whatever depth of calls is allowed, it is not enough. *)
Theorem wrapped_size_never_ends :
  compiled (2 ^ 63 - 1) tree_source ∅ tree_program ∧
  ∀ fuel, read_class (H := wasm32) tree_program fuel (bytes "S") false (init S_type) tree_message = inl OutOfFuel.
Proof.
  split; [exact tree_compiles|]. intros fuel. unfold read_class. induction fuel as [|fuel IH]; [done|].
  destruct fuel as [|fuel]; [by vm_compute|].
  assert (∃ v, call (H := wasm32) tree_program (S fuel) false (bytes "S") false (init S_type) (with_offset 12 tree_message) =
    inr (v, tree_message)) as [v H1] by (eexists; vm_compute; reflexivity).
  pose proof (tree_step (call (H := wasm32) tree_program (S fuel)) v H1 IH) as Hstep.
  remember (S fuel) as n eqn:En. clear - Hstep. cbn [call]. exact Hstep.
Qed.

(** A handle is taken without a look at how many there are: the bytes of a struct without
    its handles make the reader index past the end of the message's. *)
Lemma missing_handle_is_not_checked :
  compiled (2 ^ 63 - 1) outer_before ∅ before_program ∧
  read_class (H := linux64) before_program 9 (bytes "Outer") true (init Outer)
    (mkWire (le_bytes 4 20 ++ le_bytes 4 0 ++ le_bytes 4 12 ++ le_bytes 4 0 ++ le_bytes 4 7) [] 0 0 []) = inl NoHandle.
Proof. split; [exact before_compiles|]. by vm_compute. Qed.
