(* ===== verification/GenCallProps.v ===== *)
(** * Calls reach the implementation, responses the caller

    Proofs about [GenCall]: what a proxy writes for the parameters of a method the
    stub reads back, with their handles; and the same for responses. *)
From Stdlib Require Import ZArith Lia.
From stdpp Require Import base list gmap.
From S2P Require Import Prelude Ast TypeIntern Sandbox SandboxProps BindMessage Codec GenNames GenCode GenOrderProps GenIO GenSem GenRun GenWire GenTotal GenWriteProps GenReadProps GenSafe GenText GenIface GenCall.

(** ** Which parameters need the message's handles *)

Lemma ctx_pass_settled decls ctx changed : ∀ ctx' ch,
  ctx_pass decls ctx changed = inr (ctx', ch) → ch = false → ctx' = ctx ∧ changed = false ∧ settled decls ctx.
Proof.
  revert ctx changed. induction decls as [|[name ts] decls IH]; intros ctx changed ctx' ch; cbn [ctx_pass].
  { intros [= <- <-] ->. split_and!; [done..|]. by intros n ts t []%not_elem_of_nil. }
  destruct (bool_decide_reflect (name ∈ ctx)) as [Hn|Hn].
  { intros E Hch. destruct (IH _ _ _ _ E Hch) as (-> & -> & Hs). split_and!; [done..|].
    intros n ts' t [[= -> ->]|Hin]%elem_of_cons; [done|by apply Hs]. }
  intros E Hch. apply gen_bind_inr in E as (b & Hb & E). destruct b.
  { destruct (IH _ _ _ _ E Hch) as (_ & ? & _). done. }
  destruct (IH _ _ _ _ E Hch) as (-> & -> & Hs). split_and!; [done..|].
  intros n ts' t [[= -> ->]|Hin]%elem_of_cons Ht Hneed; [|by eapply Hs].
  exfalso. clear - Ht Hneed Hb. induction ts as [|t' ts IH]; [by apply not_elem_of_nil in Ht|].
  cbn in Hb. apply gen_bind_inr in Hb as (b & Hb & Hrest). destruct b; [done|].
  apply elem_of_cons in Ht as [->|Ht]; [congruence|by apply IH].
Qed.

Lemma BuildHandleCtx_settled m ctx : BuildHandleCtx m = inr ctx → settled (ctx_decls m) ctx.
Proof.
  unfold BuildHandleCtx. cbv zeta. generalize (S (length (ctx_decls m))) as fuel. generalize (∅ : gset (list Z)) as c.
  intros c fuel. revert c. induction fuel as [|fuel IH]; intros c; [done|]. cbn [ctx_loop]. intros E.
  apply gen_bind_inr in E as ([c' ch] & Hp & E). cbn [fst snd] in E. destruct ch; [by eapply IH|].
  injection E as <-. by destruct (ctx_pass_settled _ _ _ _ _ Hp eq_refl) as (-> & _ & Hs).
Qed.

Section handles.
Variables (p : Program) (ext : gmap (list Z) bool) (ctx : gset (list Z)) (exact : bool).
Context (Hset : settled (ctx_decls (p_module p)) ctx).
Context (Hclosed_s : ∀ s f, s ∈ AllStructs (p_module p) → f ∈ s_fields s → closed p ext (f_type f) = true)
  (Hclosed_u : ∀ u f, u ∈ AllUnions (p_module p) → f ∈ u_fields u → closed p ext (uf_type f) = true).

Definition needs (t : TypeSpec) : Prop := TypeNeedsHandleCtx t ctx = inr true.

Lemma struct_needs t s f :
  find_struct (p_module p) t = Some s → f ∈ s_fields s → needs (f_type f) → CppEmbedName_type t ∈ ctx.
Proof using Hset.
  intros Hs Hf Hn. rewrite <- (find_struct_name _ _ _ Hs).
  apply (Hset _ (map f_type (s_fields s)) (f_type f)); [|by apply list_elem_of_fmap_2|done].
  unfold ctx_decls. apply elem_of_app. left.
  apply (list_elem_of_fmap_2 (λ s, (CppEmbedName_struct s, map f_type (s_fields s)))), (find_struct_in _ _ _ Hs).
Qed.
Lemma union_needs t u f :
  find_union (p_module p) t = Some u → f ∈ u_fields u → needs (uf_type f) → CppEmbedName_type t ∈ ctx.
Proof using Hset.
  intros Hs Hf Hn. rewrite <- (find_union_name _ _ _ Hs).
  apply (Hset _ (map uf_type (u_fields u)) (uf_type f)); [|by apply list_elem_of_fmap_2|done].
  unfold ctx_decls. apply elem_of_app. right.
  apply (list_elem_of_fmap_2 (λ u, (CppEmbedName_union u, map uf_type (u_fields u)))), (find_union_in _ _ _ Hs).
Qed.

Lemma needs_ref t : t_kind t = kStructRef ∨ t_kind t = kUnionRef → CppEmbedName_type t ∈ ctx → needs t.
Proof. unfold needs. destruct t as [k n el ky nu ns c sz]. intros [Hk|Hk] Hin; cbn in Hk; subst k; cbn; by rewrite bool_decide_eq_true_2. Qed.
Lemma needs_element t el : t_kind t = kArray ∨ t_kind t = kMap → element t = Some el → needs el → needs t.
Proof. unfold needs. destruct t as [k n e ky nu ns c sz]. intros [Hk|Hk] He; cbn in Hk, He; by subst. Qed.
Lemma needs_link t : IsHandleBearing (t_kind t) = true → needs t.
Proof. unfold needs. destruct t as [k n e ky nu ns c sz]. cbn. by intros ->. Qed.
Lemma needs_plain t : plain_kind (t_kind t) = true → ¬ needs t.
Proof. unfold needs. destruct t as [k n e ky nu ns c sz]. by destruct k. Qed.

(** A value whose type needs no handles has none. *)
Definition bare (t : TypeSpec) (o : Bits) : Prop := closed p ext t = true → ¬ needs t → b_handles o = [].

Lemma needs_non_null t : needs (non_null t) → needs t.
Proof. by destruct t. Qed.
Lemma closed_array t el : t_kind t = kArray → element t = Some el → closed p ext t = true → closed p ext el = true.
Proof. destruct t as [k n e ky nu ns c sz]. cbn. by intros -> ->. Qed.
Lemma closed_map t k el : t_kind t = kMap → key t = Some k → element t = Some el → closed p ext t = true →
  plain_kind (t_kind k) = true ∧ closed p ext k = true ∧ closed p ext el = true.
Proof. destruct t as [kd n e ky nu ns c sz]. cbn. intros -> -> ->. rewrite !andb_true_iff. tauto. Qed.

Lemma bare_all :
  (∀ ver t v o, Repr p ext exact ver t v o → bare t o) ∧
  (∀ v fl fs o, ReprFields p ext exact v fl fs o →
     (∀ f, f ∈ fl → closed p ext (f_type f) = true ∧ ¬ needs (f_type f)) → b_handles o = []) ∧
  (∀ ver el l o, ReprList p ext exact ver el l o → bare el o) ∧
  (∀ ver k el l o, ReprPairs p ext exact ver k el l o → plain_kind (t_kind k) = true → closed p ext k = true → bare el o).
Proof using Hset Hclosed_s Hclosed_u.
  apply (Repr_all p ext exact (λ ver t v o _, bare t o)
    (λ v fl fs o _, (∀ f, f ∈ fl → closed p ext (f_type f) = true ∧ ¬ needs (f_type f)) → b_handles o = [])
    (λ ver el l o _, bare el o)
    (λ ver k el l o _, plain_kind (t_kind k) = true → closed p ext k = true → bare el o)); unfold bare; try done.
  - intros ? t v o _ _ _ IH Hc Hn. apply IH; [by rewrite closed_non_null|]. intros ?. by apply Hn, needs_non_null.
  - intros ? t v o _ Hl _ Hn. exfalso. apply Hn, needs_link. by eapply link_kind.
  - intros ? t v o _ Hl _ _ Hn. exfalso. apply Hn, needs_link. by eapply link_kind.
  - intros ? t el l o Hk _ He _ _ _ IH Hc Hn. cbn. apply IH; [by eapply closed_array|].
    intros ?. by eapply Hn, needs_element; [left|..].
  - intros ? t el l o Hk _ He _ _ _ IH Hc Hn. apply IH; [by eapply closed_array|].
    intros ?. by eapply Hn, needs_element; [left|..].
  - intros ? t k el l o Hk _ Hky He _ _ _ IH Hc Hn. cbn. destruct (closed_map t k el Hk Hky He Hc) as (H1 & H2 & H3).
    apply IH; [done..|]. intros ?. by eapply Hn, needs_element; [right|..].
  - intros ? t s v l fs o tail Hk _ _ Hs _ _ ->%wire_order_fields _ IH _ _ _ Hn. cbn. apply IH. intros f Hf. rewrite elem_of_wire_fields in Hf.
    split; [by eapply Hclosed_s; [by eapply find_struct_in|]|]. intros Hneed. apply Hn, needs_ref; [by left|].
    by eapply struct_needs.
  - intros ? t u f v o tail Hk _ _ Hu Hf _ IH _ _ _ Hn. cbn. apply IH.
    + by eapply Hclosed_u; [by eapply find_union_in|].
    + intros Hneed. apply Hn, needs_ref; [by right|]. by eapply union_needs.
  - intros v f l fs x o o' _ _ _ IH1 _ IH2 Hall. cbn. destruct (Hall f) as [Hc Hn]; [by left|].
    rewrite IH1, IH2; [done| |done|done]. intros g Hg. apply Hall. by right.
  - intros v f l fs o _ _ _ IH Hall. apply IH. intros g Hg. apply Hall. by right.
  - intros ? el x l o o' _ IH1 _ IH2 Hc Hn. cbn. by rewrite IH1, IH2.
  - intros ? k el x y l o1 o2 o' _ IH1 _ _ IH2 _ IH3 Hk Hck Hc Hn. cbn.
    by rewrite IH1, IH2, IH3; [..|done|by apply needs_plain].
Qed.

Lemma bare_params ps : any_needs (map p_type ps) ctx = inr false → ∀ q, q ∈ ps → ¬ needs (p_type q).
Proof.
  induction ps as [|q ps IH]; cbn; [by intros _ q []%not_elem_of_nil|]. intros E q' Hin Hn.
  apply gen_bind_inr in E as (b & Hb & E). destruct b; [done|].
  apply elem_of_cons in Hin as [->|Hin]; [unfold needs in Hn; by rewrite Hb in Hn|by eapply IH].
Qed.
End handles.

(** ** Variables of parameters *)

Definition is_param (x : Var) : Prop := match x with V_param _ => True | _ => False end.

Lemma fresh_not_param uid x : fresh uid x → ¬ is_param x.
Proof. destruct x; cbn; tauto. Qed.
Lemma param_not_apart uid x : is_param x → ¬ apart uid x.
Proof. intros Hx [Hf|[->| ->]]; [by eapply fresh_not_param|done..]. Qed.

(** The variable [x] holds [v]. *)
Definition holds (env : Env) (x : Var) (v : Val) : Prop := lookup_var x env = inr (BVal v).

(** The variables of parameters other than [xs] are as before. *)
Definition keeps (xs : list Var) (env env' : Env) : Prop :=
  ∀ y, is_param y → y ∉ xs → lookup_var y env' = lookup_var y env.

Lemma keeps_refl xs env : keeps xs env env.
Proof. done. Qed.
Lemma keeps_then xs env1 env2 env3 : keeps xs env1 env2 → keeps xs env2 env3 → keeps xs env1 env3.
Proof. intros H1 H2 y Hy Hn. by rewrite H2, H1. Qed.
Lemma keeps_mono xs ys env env' : xs ⊆ ys → keeps xs env env' → keeps ys env env'.
Proof. intros Hs Hk y Hy Hn. apply Hk; [done|]. intros Hx. by apply Hn, Hs. Qed.
Lemma keeps_push xs x b env : x ∈ xs → keeps xs env ((x, b) :: env).
Proof. intros Hx y _ Hn. apply lookup_below. by intros ->. Qed.
Lemma keeps_holds xs env env' y v : keeps xs env env' → is_param y → y ∉ xs → holds env y v → holds env' y v.
Proof. unfold holds. intros Hk Hy Hn <-. by apply Hk. Qed.

Lemma holds_top x v env : holds ((x, BVal v) :: env) x v.
Proof. apply lookup_top. Qed.
Lemma holds_below x y b v env : x ≠ y → holds env x v → holds ((y, b) :: env) x v.
Proof. unfold holds. intros Hn. by rewrite lookup_below. Qed.

Lemma holds_split env x v : holds env x v → ∃ pre post, env = pre ++ (x, BVal v) :: post ∧ x ∉ pre.*1.
Proof.
  unfold holds. induction env as [|[y b] env IH]; [done|]. cbn [lookup_var].
  destruct (decide (x = y)) as [->|Hne].
  - intros [= ->]. exists [], env. split; [done|]. apply not_elem_of_nil.
  - intros Hl. destruct (IH Hl) as (pre & post & -> & Hn). exists ((y, b) :: pre), post. split; [done|].
    cbn. apply not_elem_of_cons. split; [congruence|done].
Qed.

Lemma lookup_split pre x b post : x ∉ pre.*1 → lookup_var x (pre ++ (x, b) :: post) = inr b.
Proof.
  induction pre as [|[y c] pre IH]; cbn; [by rewrite decide_True|].
  intros [Hy Hn]%not_elem_of_cons. rewrite decide_False by done. by apply IH.
Qed.
Lemma lookup_split_other pre x b b' post y :
  x ≠ y → lookup_var y (pre ++ (x, b) :: post) = lookup_var y (pre ++ (x, b') :: post).
Proof.
  intros Hn. induction pre as [|[z c] pre IH]; cbn; [by destruct (decide (y = x)); [congruence|]|].
  destruct (decide (y = z)); [done|apply IH].
Qed.

Lemma holds_at_var {A} env x v (g : Val → Result (Val * A)) v' a :
  holds env x v → g v = inr (v', a) →
  ∃ env', at_var x g env = inr (env', a) ∧ holds env' x v' ∧ (∀ y, y ≠ x → lookup_var y env' = lookup_var y env) ∧
    length env' = length env.
Proof.
  intros (pre & post & -> & Hn)%holds_split Hg. exists (pre ++ (x, BVal v') :: post). split_and!.
  - induction pre as [|[y b] pre IH]; cbn; [by rewrite decide_True, Hg by done|].
    cbn in Hn. apply not_elem_of_cons in Hn as [Hy Hn]. rewrite decide_False by done. by rewrite (IH Hn).
  - by apply lookup_split.
  - intros y Hy. by apply lookup_split_other.
  - by rewrite !length_app.
Qed.

Section envs.
Context `{Platform}.
Variable p : Program.

Lemma holds_place env x v : holds env x v → place_of env (EVar x) = inr (x, []).
Proof. unfold holds. cbn. by intros ->. Qed.

Lemma holds_at_expr {A} env x v (g : Val → Result (Val * A)) v' a :
  holds env x v → g v = inr (v', a) →
  ∃ env', at_expr p (EVar x) g env = inr (env', a) ∧ holds env' x v' ∧
    (∀ y, y ≠ x → lookup_var y env' = lookup_var y env) ∧ length env' = length env.
Proof.
  intros Hx Hg. unfold at_expr. rewrite (holds_place _ _ _ Hx). cbn [res_bind].
  unfold at_place. cbn [fst snd at_path]. by apply holds_at_var with v.
Qed.

Lemma holds_value env x v : holds env x v → value_of p (EVar x) env = inr (open_val (p_module p) v).
Proof.
  intros (pre & post & -> & Hn)%holds_split. unfold value_of.
  unfold at_expr, place_of. rewrite lookup_split by done. cbn [res_bind]. unfold at_place. cbn [fst snd at_path].
  assert (at_var x (λ v, inr (v, open_val (p_module p) v)) (pre ++ (x, BVal v) :: post) =
    inr (pre ++ (x, BVal v) :: post, open_val (p_module p) v)) as ->; [|done].
  induction pre as [|[y b] pre IH]; cbn; [by rewrite decide_True|].
  cbn in Hn. apply not_elem_of_cons in Hn as [Hy Hn]. rewrite decide_False by done. by rewrite (IH Hn).
Qed.

Lemma holds_word env x n z : holds env x (VWord n z) → word_var x env = inr z.
Proof. unfold holds, word_var. by intros ->. Qed.
Lemma holds_bool env x b : holds env x (VBool b) → bool_var x env = inr b.
Proof. unfold holds, bool_var. by intros ->. Qed.
End envs.

(** ** What is declared for a parameter *)

Definition suffixes (t : TypeSpec) : list (list Z) :=
  match t_kind t with
  | kPendingAssociatedRemote => [text "_version"; text "_handle"; text "_iid"]
  | kPendingAssociatedReceiver => [text "_handle"; text "_iid"]
  | kPendingRemote => [text "_pipe"; text "_version"]
  | kPendingReceiver => [text "_pipe"]
  | _ => []
  end ++ (if IsHandleBearing (t_kind t) && nullable t then [text "_present"] else []).
Definition local_vars (q : Param) : list Var := param_var q :: map (suffixed q) (suffixes (p_type q)).

Lemma suffixed_ne q s s' : s ≠ s' → suffixed q s ≠ suffixed q s'.
Proof. intros Hn [= Heq]. by apply app_inv_head in Heq. Qed.
Lemma suffixed_param q s : s ≠ [] → suffixed q s ≠ param_var q.
Proof.
  intros Hn [= Heq]. apply Hn. apply (f_equal length) in Heq. rewrite length_app in Heq. destruct s; [done|cbn in Heq; lia].
Qed.
Lemma in_locals q s : s ∈ suffixes (p_type q) → suffixed q s ∈ local_vars q.
Proof. intros Hs. right. by apply list_elem_of_fmap_2. Qed.
Lemma param_in_locals q : param_var q ∈ local_vars q.
Proof. left. Qed.
#[local] Hint Resolve suffixed_param param_in_locals : core.

(** The variables that the prelude leaves for the payload. *)
Definition parts (q : Param) (v : Val) : list (Var * Val) :=
  match t_kind (p_type q), v with
  | kPendingAssociatedRemote, VPending (Endpoint _ iid) (Some n) => [(iid_of q, VWord 4 iid); (version_of q, VWord 4 n)]
  | kPendingAssociatedReceiver, VPending (Endpoint _ iid) _ => [(iid_of q, VWord 4 iid)]
  | kPendingRemote, VPending l (Some n) => [(pipe_of q, VHandle l); (version_of q, VWord 4 n)]
  | kPendingReceiver, VPending l _ => [(pipe_of q, VHandle l)]
  | _, _ => [(param_var q, v)]
  end ++ if IsHandleBearing (t_kind (p_type q)) && nullable (p_type q)
         then [(present_var q, VBool (link_valid (link_of v)))] else [].

Definition prepared (q : Param) (v : Val) (env : Env) : Prop := ∀ x u, (x, u) ∈ parts q v → holds env x u.

Lemma parts_local q v x u : (x, u) ∈ parts q v → x ∈ local_vars q.
Proof.
  unfold parts, local_vars, suffixes, iid_of, version_of, pipe_of, present_var.
  destruct (p_type q) as [k nm el ky nu ns c sz]. cbn [t_kind nullable].
  destruct k, nu, v as [| | | | | | | | | | | |[] []]; cbn; set_solver.
Qed.
Lemma local_is_param q x : x ∈ local_vars q → is_param x.
Proof. unfold local_vars. intros [->|Hx]%elem_of_cons; [done|]. by apply list_elem_of_fmap in Hx as (s & -> & _). Qed.

Lemma prepared_keeps q v xs env env' :
  keeps xs env env' → (∀ x, x ∈ local_vars q → x ∉ xs) → prepared q v env → prepared q v env'.
Proof.
  intros Hk Hd Hp x u Hin. pose proof (parts_local _ _ _ _ Hin) as Hl.
  eapply keeps_holds; [exact Hk|by eapply local_is_param|by apply Hd|by apply Hp].
Qed.

(** Values of handle types. *)
Definition link_shape (t : TypeSpec) (v : Val) : Prop :=
  match t_kind t with
  | kPendingAssociatedRemote => ∃ b iid n, v = VPending (Endpoint b iid) (Some n)
  | kPendingAssociatedReceiver => ∃ b iid, v = VPending (Endpoint b iid) None
  | kPendingRemote => ∃ h n, v = VPending (Pipe h) (Some n)
  | kPendingReceiver => ∃ h, v = VPending (Pipe h) None
  | _ => ∃ h, v = VHandle (Pipe h)
  end.

Lemma link_shape_of t v o : ReprLink t v o → link_shape t v.
Proof.
  unfold link_shape. destruct 1 as [? ? ->|? ->|? ? ->|? ->|? Hk]; try by repeat eexists.
  destruct (t_kind t); try (by eexists); set_solver.
Qed.
Lemma link_shape_init t : IsHandleBearing (t_kind t) = true → link_shape t (init t).
Proof. destruct t as [k nm el ky nu ns c sz]. unfold link_shape. cbn. destruct k; try done; by repeat eexists. Qed.

(** Bits of a value of a handle type, behind the byte of a nullable one. *)
Lemma repr_link p ext exact ver t v o : IsHandleBearing (t_kind t) = true → Repr p ext exact ver t v o →
  link_shape t v ∧
  (if nullable t
   then (v = init t ∧ link_valid (link_of v) = false ∧ o = raw [0]) ∨
        ∃ o', ReprLink t v o' ∧ link_valid (link_of v) = true ∧ o = raw [1] +++ o'
   else ReprLink t v o).
Proof.
  intros Hk. destruct 1; try (by rewrite H in Hk); try congruence.
  all: try (by destruct (t_kind t)).
  - rewrite H. split; [by eapply link_shape_of|done].
  - rewrite H0. split; [by apply link_shape_init|]. left. split_and!; [done| |done].
    destruct t as [k nm el ky nu ns c sz]. cbn in *. by destruct k.
  - rewrite H. split; [by eapply link_shape_of|]. right. by eexists.
Qed.

Section statements.
Context `{Platform}.
Variables (p : Program) (ext : gmap (list Z) bool) (ctx : gset (list Z)) (fuel : nat).
#[local] Abbreviation exec := (exec p (call p fuel)).
#[local] Abbreviation run := (run p (call p fuel)).

Lemma step_valid env w x v type y : holds env x v → (∃ l, v = VHandle l) ∨ (∃ l n, v = VPending l n) →
  exec (SDecl type y (RIsValid (EVar x))) (env, w) = inr ((y, BVal (VBool (link_valid (link_of v)))) :: env, w).
Proof.
  intros Hx Hv. cbn [GenSem.exec eval_rhs]. rewrite (holds_value p _ _ _ Hx). by destruct Hv as [[l ->]|(l & n & ->)].
Qed.
Lemma step_version env w x l n type y : holds env x (VPending l (Some n)) →
  exec (SDecl type y (RPassVersion (EVar x))) (env, w) = inr ((y, BVal (VWord 4 n)) :: env, w).
Proof. intros Hx. cbn [GenSem.exec eval_rhs]. by rewrite (holds_value p _ _ _ Hx). Qed.

Lemma step_pass env w x l n type y r : x ≠ y → holds env x (VPending l n) →
  r = RPassHandle (EVar x) ∨ r = RPassPipe (EVar x) →
  ∃ env', exec (SDecl type y r) (env, w) = inr (env', w) ∧ holds env' y (VHandle l) ∧
    holds env' x (VPending (link_gone l) n) ∧ ∀ z, z ≠ x → z ≠ y → lookup_var z env' = lookup_var z env.
Proof.
  intros Hne Hx Hr.
  destruct (holds_at_expr p env x _ (λ v, match open_val (p_module p) v with
      | VPending l n => inr (VPending (link_gone l) n, l) | _ => inl Stuck end) _ l Hx eq_refl)
    as (env' & Hat & Hx' & Ho & _).
  exists ((y, BVal (VHandle l)) :: env'). split_and!.
  - destruct Hr as [-> | ->]; cbn [GenSem.exec eval_rhs]; rewrite Hat; reflexivity.
  - apply holds_top.
  - by apply holds_below.
  - intros z Hz Hzy. rewrite lookup_below by done. by apply Ho.
Qed.

Lemma step_release env w h b iid type y : holds env h (VHandle (Endpoint b iid)) →
  ∃ env', exec (SDecl type y (RReleaseWithoutClosing h)) (env, w) = inr (env', w) ∧ holds env' y (VWord 4 iid) ∧
    ∀ z, z ≠ h → z ≠ y → lookup_var z env' = lookup_var z env.
Proof.
  intros Hh.
  destruct (holds_at_var env h _ (λ v, match v with
      | VHandle (Endpoint live iid) => inr (VHandle no_endpoint, iid) | _ => inl Stuck end) _ iid Hh eq_refl)
    as (env' & Hat & _ & Ho & _).
  exists ((y, BVal (VWord 4 iid)) :: env'). split_and!.
  - cbn [GenSem.exec eval_rhs]. rewrite Hat. reflexivity.
  - apply holds_top.
  - intros z Hz Hzy. rewrite lookup_below by done. by apply Ho.
Qed.

(** The presence flag of a parameter [q] with the handle [v]. *)
Lemma step_presence q v env w : IsHandleBearing (t_kind (p_type q)) = true → link_shape (p_type q) v →
  holds env (param_var q) v →
  ∃ env', run (EmitNullablePresenceDecl q) (env, w) = inr (env', w) ∧ holds env' (param_var q) v ∧
    (nullable (p_type q) = true → holds env' (present_var q) (VBool (link_valid (link_of v)))) ∧
    keeps (local_vars q) env env'.
Proof.
  intros Hk Hs Hx. unfold EmitNullablePresenceDecl. destruct (nullable (p_type q)) eqn:Hn.
  2: { exists env. split_and!; [done|done|done|apply keeps_refl]. }
  eexists. split_and!.
  - rewrite run_one. apply step_valid; [done|]. unfold link_shape in Hs.
    destruct (t_kind (p_type q)); destruct_and?; repeat match goal with H : ∃ _, _ |- _ => destruct H end; subst;
      try (by left; eexists); by right; eexists _, _.
  - apply holds_below; [|done]. intros Heq. by apply (suffixed_param q (text "_present")).
  - intros _. apply holds_top.
  - apply keeps_push, in_locals. unfold suffixes. rewrite Hk, Hn. apply elem_of_app. right. by left.
Qed.

Lemma suffix_ne q s s' : bool_decide (s = s') = false → suffixed q s ≠ suffixed q s'.
Proof. intros Hs%bool_decide_eq_false. by apply suffixed_ne. Qed.
Lemma suffix_param q s : bool_decide (s = []) = false → suffixed q s ≠ param_var q.
Proof. intros Hs%bool_decide_eq_false. by apply suffixed_param. Qed.

(** What is prepared, with the flag, from the parts of each kind. *)
Definition flagged (q : Param) (v : Val) (env : Env) : Prop :=
  nullable (p_type q) = true → holds env (present_var q) (VBool (link_valid (link_of v))).

Lemma prepared_intro q v env l :
  IsHandleBearing (t_kind (p_type q)) = true → flagged q v env →
  parts q v = l ++ (if nullable (p_type q) then [(present_var q, VBool (link_valid (link_of v)))] else []) →
  Forall (λ xu, holds env xu.1 xu.2) l → prepared q v env.
Proof.
  intros Hk Hf Hp Hl x u Hin. rewrite Hp in Hin. apply elem_of_app in Hin as [Hin|Hin].
  - rewrite Forall_forall in Hl. by apply (Hl (x, u)).
  - destruct (nullable (p_type q)) eqn:Hn; [|by apply not_elem_of_nil in Hin].
    apply list_elem_of_singleton in Hin. injection Hin as -> ->. by apply Hf.
Qed.

Lemma flagged_keeps q v env env' :
  (∀ z, z = present_var q → lookup_var z env' = lookup_var z env) → flagged q v env → flagged q v env'.
Proof. unfold flagged, holds. intros Hz Hf Hn. rewrite (Hz _ eq_refl). by apply Hf. Qed.

(** The prelude of a parameter, after its flag. *)
Lemma prelude_link q v env w :
  IsHandleBearing (t_kind (p_type q)) = true → link_shape (p_type q) v → holds env (param_var q) v → flagged q v env →
  ∀ b, EmitTopWritePrelude q = EmitNullablePresenceDecl q ++ b →
  ∃ env', run b (env, w) = inr (env', w) ∧ prepared q v env' ∧ keeps (local_vars q) env env'.
Proof.
  intros Hk Hs Hx Hf b Hb. unfold EmitTopWritePrelude in Hb. unfold link_shape in Hs.
  assert (∀ s, s ∈ suffixes (p_type q) → suffixed q s ∈ local_vars q) as Hin by apply in_locals.
  unfold suffixes in Hin.
  destruct (t_kind (p_type q)) eqn:E; try done.
  (* the kinds of handles *)
  5-10: rewrite <- (app_nil_r (EmitNullablePresenceDecl q)) in Hb at 1; apply app_inv_head in Hb as <-;
    exists env; (split_and!; [done| |apply keeps_refl]);
    (eapply (prepared_intro q v env [(param_var q, v)]); [by rewrite E|done|by unfold parts; rewrite E|by repeat constructor]).
  - (* remote *)
    destruct Hs as (h & n & ->). apply app_inv_head in Hb as <-.
    destruct (step_pass env w (param_var q) (Pipe h) (Some n) (text "mojo::ScopedMessagePipeHandle") (pipe_of q)
      (RPassPipe (EVar (param_var q)))) as (env1 & Hr1 & Hp1 & Hx1 & Ho1); [|done|by right|].
    { intros Heq. by apply (suffix_param q (text "_pipe")). }
    eexists. split_and!.
    + rewrite run_cons, Hr1. cbn [res_bind]. rewrite run_one. by apply step_version with (link_gone (Pipe h)).
    + eapply (prepared_intro q _ _ [(pipe_of q, VHandle (Pipe h)); (version_of q, VWord 4 n)]); [by rewrite E| |by unfold parts; rewrite E|].
      * eapply flagged_keeps; [|exact Hf]. intros z ->. rewrite lookup_below by by apply suffix_ne.
        apply Ho1; [by apply suffix_param|by apply suffix_ne].
      * repeat constructor; cbn [fst snd]; [|apply holds_top]. by apply holds_below; [apply suffix_ne|].
    + intros y Hy Hn. rewrite lookup_below; [apply Ho1|].
      * intros ->. by apply Hn, param_in_locals.
      * intros ->. apply Hn, Hin. set_solver.
      * intros ->. apply Hn, Hin. set_solver.
  - (* receiver *)
    destruct Hs as (h & ->). apply app_inv_head in Hb as <-.
    destruct (step_pass env w (param_var q) (Pipe h) None (text "mojo::ScopedMessagePipeHandle") (pipe_of q)
      (RPassPipe (EVar (param_var q)))) as (env1 & Hr1 & Hp1 & Hx1 & Ho1); [|done|by right|].
    { intros Heq. by apply (suffix_param q (text "_pipe")). }
    exists env1. split_and!.
    + by rewrite run_one.
    + eapply (prepared_intro q _ _ [(pipe_of q, VHandle (Pipe h))]); [by rewrite E| |by unfold parts; rewrite E|by repeat constructor].
      eapply flagged_keeps; [|exact Hf]. intros z ->. apply Ho1; [by apply suffix_param|by apply suffix_ne].
    + intros y Hy Hn. apply Ho1; intros ->; apply Hn; [apply param_in_locals|apply Hin; set_solver].
  - (* associated remote *)
    destruct Hs as (l & iid & n & ->). apply app_inv_head in Hb as <-.
    destruct (step_pass ((version_of q, BVal (VWord 4 n)) :: env) w (param_var q) (Endpoint l iid) (Some n)
      (text "mojo::ScopedInterfaceEndpointHandle") (handle_of q) (RPassHandle (EVar (param_var q))))
      as (env1 & Hr1 & Hp1 & Hx1 & Ho1); [| |by left|].
    { intros Heq. by apply (suffix_param q (text "_handle")). }
    { apply holds_below; [|done]. intros Heq. by apply (suffix_param q (text "_version")). }
    destruct (step_release env1 w (handle_of q) l iid (text "uint32_t") (iid_of q) Hp1) as (env2 & Hr2 & Hp2 & Ho2).
    exists env2. split_and!.
    + cbn [app]. rewrite run_cons, (step_version _ _ _ _ _ _ _ Hx). cbn [res_bind].
      rewrite run_cons. etransitivity; [apply (f_equal (λ m, res_bind m _)); exact Hr1|]. cbn [res_bind].
      by rewrite run_one.
    + eapply (prepared_intro q _ _ [(iid_of q, VWord 4 iid); (version_of q, VWord 4 n)]); [by rewrite E| |by unfold parts; rewrite E|].
      * eapply flagged_keeps; [|exact Hf]. intros z ->. rewrite Ho2, Ho1, lookup_below; [done|..];
          first [by apply suffix_ne|by apply suffix_param].
      * repeat constructor; cbn [fst snd]; [done|]. unfold holds. rewrite Ho2, Ho1; [apply lookup_top|..];
          first [by apply suffix_ne|by apply suffix_param].
    + intros y Hy Hn. assert (∀ s, s ∈ suffixes (p_type q) → y ≠ suffixed q s) as Hne.
      { intros s Hs ->. by apply Hn, in_locals. }
      unfold suffixes in Hne. rewrite E in Hne.
      rewrite Ho2, Ho1, lookup_below; [done|..]; try (apply Hne; set_solver). intros ->. by apply Hn, param_in_locals.
  - (* associated receiver *)
    destruct Hs as (l & iid & ->). apply app_inv_head in Hb as <-.
    destruct (step_pass env w (param_var q) (Endpoint l iid) None
      (text "mojo::ScopedInterfaceEndpointHandle") (handle_of q) (RPassHandle (EVar (param_var q))))
      as (env1 & Hr1 & Hp1 & Hx1 & Ho1); [|done|by left|].
    { intros Heq. by apply (suffix_param q (text "_handle")). }
    destruct (step_release env1 w (handle_of q) l iid (text "uint32_t") (iid_of q) Hp1) as (env2 & Hr2 & Hp2 & Ho2).
    exists env2. split_and!.
    + rewrite run_cons, Hr1. cbn [res_bind]. by rewrite run_one.
    + eapply (prepared_intro q _ _ [(iid_of q, VWord 4 iid)]); [by rewrite E| |by unfold parts; rewrite E|by repeat constructor].
      eapply flagged_keeps; [|exact Hf]. intros z ->. rewrite Ho2, Ho1; [done|..];
        first [by apply suffix_ne|by apply suffix_param].
    + intros y Hy Hn. assert (∀ s, s ∈ suffixes (p_type q) → y ≠ suffixed q s) as Hne.
      { intros s Hs ->. by apply Hn, in_locals. }
      unfold suffixes in Hne. rewrite E in Hne.
      rewrite Ho2, Ho1; [done|..]; try (apply Hne; set_solver). intros ->. by apply Hn, param_in_locals.
Qed.

Lemma prelude_split q : IsHandleBearing (t_kind (p_type q)) = true →
  ∃ b, EmitTopWritePrelude q = EmitNullablePresenceDecl q ++ b.
Proof.
  unfold EmitTopWritePrelude. intros Hk. destruct (t_kind (p_type q)); try done; try (by eexists);
    exists []; by rewrite app_nil_r.
Qed.

Lemma prelude_param exact q v o env w :
  Repr p ext exact None (p_type q) v o → holds env (param_var q) v →
  ∃ env', run (EmitTopWritePrelude q) (env, w) = inr (env', w) ∧ prepared q v env' ∧ keeps (local_vars q) env env'.
Proof.
  intros Hr Hx. destruct (IsHandleBearing (t_kind (p_type q))) eqn:Hk.
  - destruct (repr_link _ _ _ _ _ _ _ Hk Hr) as [Hs _]. destruct (prelude_split q Hk) as (b & Hb).
    destruct (step_presence q v env w Hk Hs Hx) as (env1 & Hr1 & Hx1 & Hf1 & Hk1).
    destruct (prelude_link q v env1 w Hk Hs Hx1 Hf1 b Hb) as (env2 & Hr2 & Hp2 & Hk2).
    exists env2. rewrite Hb, run_app, Hr1. split_and!; [exact Hr2|done|by eapply keeps_then].
  - exists env. unfold EmitTopWritePrelude, prepared, parts.
    destruct (t_kind (p_type q)); try done; (split_and!; [done| |apply keeps_refl]); cbn [IsHandleBearing andb];
      intros x u; rewrite app_nil_r; by intros [= -> ->]%list_elem_of_singleton.
Qed.

(** The parameters of a message with their arguments. *)
Inductive ReprArgs (exact : bool) : list Param → list Val → Bits → Prop :=
  | RA_nil : ReprArgs exact [] [] no_bits
  | RA_cons q ps v vs o o' : Repr p ext exact None (p_type q) v o → ReprArgs exact ps vs o' →
      ReprArgs exact (q :: ps) (v :: vs) (o +++ o').

(** No two parameters have a local variable in common. *)
Definition locals (ps : list Param) : list Var := flat_map local_vars ps.

Definition all_hold (ps : list Param) (vs : list Val) (env : Env) : Prop :=
  Forall2 (λ q v, holds env (param_var q) v) ps vs.
Definition all_prepared (ps : list Param) (vs : list Val) (env : Env) : Prop :=
  Forall2 (λ q v, prepared q v env) ps vs.

Lemma locals_cons q ps x : x ∈ locals (q :: ps) ↔ x ∈ local_vars q ∨ x ∈ locals ps.
Proof. exact (elem_of_app (local_vars q) (locals ps) x). Qed.
Lemma locals_param q ps x : x ∈ local_vars q → q ∈ ps → x ∈ locals ps.
Proof. intros Hx Hq. unfold locals. apply list_elem_of_In, in_flat_map. exists q. by rewrite <- !list_elem_of_In. Qed.

Lemma all_hold_keeps ps vs xs env env' :
  keeps xs env env' → (∀ x, x ∈ locals ps → x ∉ xs) → all_hold ps vs env → all_hold ps vs env'.
Proof.
  intros Hk Hd Ha. induction Ha as [|q v ps vs Hq Ha IH]; constructor.
  - eapply keeps_holds; [exact Hk|done| |exact Hq]. apply Hd. apply (locals_param q); [apply param_in_locals|by left].
  - apply IH. intros x Hx. apply Hd, locals_cons. by right.
Qed.
Lemma all_prepared_keeps ps vs xs env env' :
  keeps xs env env' → (∀ x, x ∈ locals ps → x ∉ xs) → all_prepared ps vs env → all_prepared ps vs env'.
Proof.
  intros Hk Hd Ha. induction Ha as [|q v ps vs Hq Ha IH]; constructor.
  - eapply prepared_keeps; [exact Hk| |exact Hq]. intros x Hx. apply Hd. by apply (locals_param q); [|left].
  - apply IH. intros x Hx. apply Hd, locals_cons. by right.
Qed.

Lemma nodup_locals q ps : NoDup (locals (q :: ps)) →
  NoDup (locals ps) ∧ (∀ x, x ∈ locals ps → x ∉ local_vars q) ∧ (∀ x, x ∈ local_vars q → x ∉ locals ps).
Proof. unfold locals. cbn [flat_map]. intros (_ & H1 & H2)%NoDup_app. split_and!; [done|intros x Hx Hy; by apply (H1 x)|done]. Qed.

(** All preludes. *)
Lemma prelude_params exact ps vs o env w :
  ReprArgs exact ps vs o → NoDup (locals ps) → all_hold ps vs env →
  ∃ env', run (flat_map EmitTopWritePrelude ps) (env, w) = inr (env', w) ∧ all_prepared ps vs env' ∧
    keeps (locals ps) env env'.
Proof.
  intros Hr. revert env. induction Hr as [|q ps v vs o o' Hr Hrs IH]; intros env Hnd Ha.
  { exists env. split_and!; [done|constructor|apply keeps_refl]. }
  apply nodup_locals in Hnd as (Hnd & H1 & H2). apply Forall2_cons in Ha as [Hq Ha].
  destruct (prelude_param exact q v o env w Hr Hq) as (env1 & Hr1 & Hp1 & Hk1).
  destruct (IH env1 Hnd) as (env2 & Hr2 & Hp2 & Hk2); [by eapply all_hold_keeps|].
  exists env2. cbn [flat_map]. rewrite run_app, Hr1. split_and!; [exact Hr2| |].
  - constructor; [|done]. by eapply prepared_keeps.
  - eapply keeps_then; eapply keeps_mono; [|exact Hk1| |exact Hk2];
      intros x Hx; apply locals_cons; [by left|by right].
Qed.

(** ** Payloads *)

Lemma run_tops_app a b st : run_tops p fuel (a ++ b) st = let* st := run_tops p fuel a st in run_tops p fuel b st.
Proof.
  revert st. induction a as [|s a IH]; intros st; cbn [app run_tops res_bind]; [by destruct st|].
  destruct (exec_top p fuel s st) as [|st']; [done|]. apply IH.
Qed.
Lemma run_tops_stmts l st : run_tops p fuel (map (λ s, TPiece (QStmt s)) l) st = run l st.
Proof.
  revert st. induction l as [|s l IH]; intros [env w]; [done|]. cbn [map run_tops exec_top exec_piece]. rewrite run_cons.
  apply res_bind_ext. intros st. apply IH.
Qed.
Lemma run_tops_pieces l st : run_tops p fuel (map TPiece l) st = run_pieces p fuel l st.
Proof.
  revert st. induction l as [|s l IH]; intros st; [done|]. cbn [map run_tops run_pieces exec_top].
  apply res_bind_ext. intros st'. apply IH.
Qed.

Lemma piece_payload env w x n : holds env x (VWord 4 n) →
  exec_piece p fuel (QStmt (SWritePayload x)) (env, w) = inr (env, WritePayload (le_bytes 4 n) w).
Proof. intros Hx. cbn [exec_piece GenSem.exec]. by rewrite (holds_word _ _ _ _ Hx). Qed.
Lemma piece_attach env w x h : holds env x (VHandle (Pipe h)) →
  ∃ env', exec_piece p fuel (QStmt (SAttachHandle (EVar x))) (env, w) = inr (env', AttachHandle h w) ∧
    (∀ y, y ≠ x → lookup_var y env' = lookup_var y env) ∧ length env' = length env.
Proof.
  intros Hx.
  destruct (holds_at_expr p env x _ (λ v, match open_val (p_module p) v with
      | VHandle (Pipe h) => inr (VHandle (Pipe 0), h) | _ => inl Stuck end) _ h Hx eq_refl)
    as (env' & Hat & _ & Ho & Hl).
  exists env'. split_and!; [|done|done]. cbn [exec_piece GenSem.exec]. rewrite Hat. reflexivity.
Qed.

Definition writes_link (q : Param) (l : list Piece) : Prop :=
  ∀ v o env w, ReprLink (p_type q) v o → prepared q v env →
    ∃ env', run_pieces p fuel l (env, w) = inr (env', put_bits o w) ∧ keeps (local_vars q) env env' ∧
      length env' = length env.

Lemma keeps_one xs x env env' : x ∈ xs → (∀ y, y ≠ x → lookup_var y env' = lookup_var y env) → keeps xs env env'.
Proof. intros Hx Ho y _ Hn. apply Ho. by intros ->. Qed.

Lemma prepared_parts q v env l r : prepared q v env → parts q v = l ++ r → Forall (λ xu, holds env xu.1 xu.2) l.
Proof. intros Hp Hl. apply Forall_forall. intros [x u] Hin. apply Hp. rewrite Hl. apply elem_of_app. by left. Qed.

Lemma put_words w a b : put_bits (mkBits (le_bytes 4 a ++ le_bytes 4 b) [] []) w =
  WritePayload (le_bytes 4 b) (WritePayload (le_bytes 4 a) w).
Proof. destruct w as [d hs i off eps]. unfold put_bits, WritePayload, with_data. cbn [b_data b_handles data handles handle_idx offset endpoints]. by rewrite app_nil_r, app_assoc. Qed.

Lemma put_iid_words w a b iids : put_bits (mkBits (le_bytes 4 a ++ le_bytes 4 b) [] iids) w =
  WritePayload (le_bytes 4 b) (WritePayload (le_bytes 4 a) w).
Proof. apply put_words. Qed.

Lemma payload_link q uid : IsHandleBearing (t_kind (p_type q)) = true →
  ∃ l, EmitTopWritePayload ctx q uid = inr (payload_guard q l, uid) ∧ writes_link q l.
Proof.
  intros Hk. unfold EmitTopWritePayload. pose proof (in_locals q) as Hin. unfold suffixes in Hin.
  destruct (t_kind (p_type q)) eqn:E; try done; eexists; (split; [reflexivity|]); intros v o env w Hl Hp;
    inversion Hl as [h n Hk'|h Hk'|iid n Hk'|iid Hk'|h Hk']; subst; rewrite E in Hk'; try discriminate Hk';
    try (exfalso; clear - Hk'; set_solver).
  5-10: destruct (piece_attach env w (param_var q) h) as (env' & Hr & Ho & Hle);
    [apply Hp; unfold parts; rewrite E; by left|];
    exists env'; (split_and!; [| |done]); [cbn [run_pieces]; rewrite Hr; cbn [res_bind]; f_equal; f_equal; by destruct w as [d hs i off eps]; unfold put_bits; cbn; rewrite app_nil_r
      |by eapply keeps_one; [apply param_in_locals|]].
  - assert (Forall (λ xu, holds env xu.1 xu.2) [(pipe_of q, VHandle (Pipe h)); (version_of q, VWord 4 n)]) as Hf
      by (eapply prepared_parts; [exact Hp|unfold parts; by rewrite E]).
    apply Forall_cons in Hf as [Hp1 Hf]. apply Forall_cons in Hf as [Hp2 _]. cbn [fst snd] in Hp1, Hp2.
    destruct (piece_attach env w _ _ Hp1) as (env' & Hr & Ho & Hle). exists env'. split_and!; [| |done].
    + cbn [run_pieces]. rewrite Hr. cbn [res_bind]. rewrite (piece_payload _ _ _ n).
      * reflexivity.
      * unfold holds. rewrite Ho; [exact Hp2|]. by apply suffix_ne.
    + eapply keeps_one; [|exact Ho]. apply Hin. by left.
  - assert (Forall (λ xu, holds env xu.1 xu.2) [(pipe_of q, VHandle (Pipe h))]) as Hf
      by (eapply prepared_parts; [exact Hp|unfold parts; by rewrite E]).
    apply Forall_cons in Hf as [Hp1 _]. cbn [fst snd] in Hp1.
    destruct (piece_attach env w _ _ Hp1) as (env' & Hr & Ho & Hle). exists env'. split_and!; [| |done].
    + cbn [run_pieces]. rewrite Hr. cbn [res_bind]. f_equal. f_equal.
      destruct w as [d hs i off eps]; unfold put_bits; cbn; by rewrite app_nil_r.
    + eapply keeps_one; [|exact Ho]. apply Hin. by left.
  - assert (Forall (λ xu, holds env xu.1 xu.2) [(iid_of q, VWord 4 iid); (version_of q, VWord 4 n)]) as Hf
      by (eapply prepared_parts; [exact Hp|unfold parts; by rewrite E]).
    apply Forall_cons in Hf as [Hp1 Hf]. apply Forall_cons in Hf as [Hp2 _]. cbn [fst snd] in Hp1, Hp2.
    exists env. split_and!; [|apply keeps_refl|done]. cbn [run_pieces].
    rewrite (piece_payload _ _ _ _ Hp1). cbn [res_bind]. rewrite (piece_payload _ _ _ _ Hp2). cbn [res_bind].
    by rewrite put_iid_words.
  - assert (Forall (λ xu, holds env xu.1 xu.2) [(iid_of q, VWord 4 iid)]) as Hf
      by (eapply prepared_parts; [exact Hp|unfold parts; by rewrite E]).
    apply Forall_cons in Hf as [Hp1 _]. cbn [fst snd] in Hp1.
    exists env. split_and!; [|apply keeps_refl|done]. cbn [run_pieces].
    rewrite (piece_payload _ _ _ _ Hp1). cbn [res_bind]. by rewrite <- put_raw.
Qed.

Lemma payload_guarded q l v o env w :
  IsHandleBearing (t_kind (p_type q)) = true → writes_link q l →
  Repr p ext true None (p_type q) v o → prepared q v env →
  ∃ env', run_tops p fuel (payload_guard q l) (env, w) = inr (env', put_bits o w) ∧ keeps (local_vars q) env env'.
Proof.
  intros Hk Hl Hr Hp. destruct (repr_link _ _ _ _ _ _ _ Hk Hr) as [_ Ho]. unfold payload_guard.
  destruct (nullable (p_type q)) eqn:Hn.
  2: { rewrite run_tops_pieces. destruct (Hl v o env w Ho Hp) as (env' & Hrun & Hkeep & _). by exists env'. }
  assert (holds env (present_var q) (VBool (link_valid (link_of v)))) as Hb.
  { apply Hp. unfold parts. rewrite Hk, Hn. apply elem_of_app. right. by left. }
  cbn [run_tops exec_top exec_piece fst snd]. rewrite (holds_bool _ _ _ Hb). cbn [res_bind run_tops exec_top fst snd].
  rewrite (holds_bool _ _ _ Hb). cbn [res_bind].
  destruct Ho as [(-> & Hv & ->)|(o' & Hlink & Hv & ->)]; rewrite Hv; cbn [res_bind].
  - exists env. split; [by rewrite put_raw|apply keeps_refl].
  - destruct (Hl v o' env (WritePayload [1] w) Hlink Hp) as (env' & Hrun & Hkeep & Hlen).
    exists env'. rewrite Hrun. cbn [res_bind]. split; [|done].
    rewrite put_app, put_raw. unfold leave. cbn [fst snd]. by rewrite Hlen, Nat.sub_diag, drop_0.
Qed.

Lemma payload_plain q uid : IsHandleBearing (t_kind (p_type q)) = false →
  EmitTopWritePayload ctx q uid =
  let? r := EmitWriteValue ctx (p_type q) (EVar (param_var q)) uid in inr (map (λ s, TPiece (QStmt s)) r.1, r.2).
Proof. unfold EmitTopWritePayload. by destruct (t_kind (p_type q)). Qed.

Lemma prepared_plain q v env : IsHandleBearing (t_kind (p_type q)) = false → prepared q v env → holds env (param_var q) v.
Proof.
  intros Hk Hp. apply Hp. unfold parts. rewrite Hk. destruct (t_kind (p_type q)); try done; by left.
Qed.

Context {PK : program_ok p ext ctx}.

Lemma payload_param q v o env w uid b uid' :
  Repr p ext true None (p_type q) v o → prepared q v env → EmitTopWritePayload ctx q uid = inr (b, uid') →
  (length (b_data o) < 8 * fuel)%nat → Z.of_nat (length (data w) + length (b_data o)) < 2 ^ 32 →
  ∃ env', run_tops p fuel b (env, w) = inr (env', put_bits o w) ∧ keeps (local_vars q) env env'.
Proof using PK.
  intros Hr Hp Hb Hf Hs. destruct (IsHandleBearing (t_kind (p_type q))) eqn:Hk.
  - destruct (payload_link q uid Hk) as (l & Hl & Hw). rewrite Hl in Hb. injection Hb as <- <-.
    by apply (payload_guarded q l v).
  - rewrite payload_plain in Hb by done. apply gen_bind_inr in Hb as ([b' u] & Hb' & [= <- <-]). cbn [fst].
    apply prepared_plain in Hp; [|done]. apply holds_split in Hp as (pre & post & -> & Hn).
    destruct (written_all p ctx ext (PK := PK)) as (Hw & _).
    destruct (Hw None _ v o Hr fuel (EVar (param_var q)) uid b' u (λ v, pre ++ (param_var q, BVal v) :: post) Hf Hb')
      with (w := w) as (ex & Hex & Hrun); [by apply focus_var_below; [apply param_not_apart|]|done|].
    exists (ex ++ pre ++ (param_var q, BVal (spent v)) :: post). split; [by rewrite run_tops_stmts|].
    intros y Hy Hny. rewrite lookup_skip.
    + apply lookup_split_other. intros <-. by apply Hny, param_in_locals.
    + eapply Forall_impl; [exact Hex|]. intros x Hx Heq. apply (fresh_not_param _ _ Hx). first [by rewrite Heq|by rewrite <- Heq].
Qed.

Lemma payload_params ps vs o env w uid b :
  ReprArgs true ps vs o → NoDup (locals ps) → all_prepared ps vs env → top_writes ctx ps uid = inr b →
  (length (b_data o) < 8 * fuel)%nat → Z.of_nat (length (data w) + length (b_data o)) < 2 ^ 32 →
  ∃ env', run_tops p fuel b (env, w) = inr (env', put_bits o w).
Proof using PK.
  intros Hr. revert env w uid b. induction Hr as [|q ps v vs o o' Hr Hrs IH]; intros env w uid b Hnd Ha Hb Hf Hs.
  { injection Hb as <-. exists env. by rewrite put_none. }
  cbn [top_writes] in Hb. apply gen_bind_inr in Hb as ([b1 u] & Hb1 & Hb). apply gen_bind_inr in Hb as (b2 & Hb2 & [= <-]).
  cbn [fst snd b_data bits_app] in *. rewrite length_app in Hf, Hs.
  apply nodup_locals in Hnd as (Hnd & H1 & H2). apply Forall2_cons in Ha as [Hq Ha].
  destruct (payload_param q v o env w uid b1 u Hr Hq Hb1) as (env1 & Hr1 & Hk1); [lia|lia|].
  destruct (IH env1 (put_bits o w) u b2 Hnd) as (env2 & Hr2); [by eapply all_prepared_keeps|done|lia|rewrite data_put, length_app; lia|].
  exists env2. rewrite run_tops_app, Hr1. cbn [res_bind]. by rewrite Hr2, put_app.
Qed.

Lemma bindings_hold ps vs : NoDup (locals ps) → length ps = length vs → all_hold ps vs (bindings ps vs).
Proof.
  revert vs. induction ps as [|q ps IH]; intros [|v vs] Hnd Hl; try done; [constructor|].
  apply nodup_locals in Hnd as (Hnd & _ & H2). constructor; [apply holds_top|].
  assert (keeps (local_vars q) (bindings ps vs) (bindings (q :: ps) (v :: vs))) as Hk by (apply keeps_push, param_in_locals).
  eapply all_hold_keeps; [exact Hk| |by apply IH; [|injection Hl]]. intros x Hx Hq. by apply (H2 x).
Qed.

Lemma args_length exact ps vs o : ReprArgs exact ps vs o → length ps = length vs.
Proof. by induction 1; cbn; [|f_equal]. Qed.

(** What a proxy, or the callback of a stub, makes of the arguments. *)
Lemma write_params_spec io vs o :
  ReprArgs true (ps_written io) vs o → NoDup (locals (ps_written io)) →
  ps_prelude io = flat_map EmitTopWritePrelude (ps_written io) → top_writes ctx (ps_written io) 0 = inr (ps_payload io) →
  (length (b_data o) < 8 * fuel)%nat → Z.of_nat (length (b_data o)) < 2 ^ 32 →
  write_params p fuel io vs = inr (put_bits o (mkWire [] [] 0 0 [])).
Proof using PK.
  intros Hr Hnd Hpre Hpay Hf Hs. unfold write_params. rewrite Hpre.
  destruct (prelude_params true _ vs o (bindings (ps_written io) vs) (mkWire [] [] 0 0 []) Hr Hnd) as (env1 & Hr1 & Hp1 & _).
  { apply bindings_hold; [done|by eapply args_length]. }
  rewrite Hr1. cbn [res_bind fst].
  destruct (payload_params _ vs o env1 (mkWire [] [] 0 0 []) 0 (ps_payload io) Hr Hnd Hp1 Hpay Hf) as (env2 & ->); [cbn; lia|].
  done.
Qed.

(** ** Reading *)

Context {PF : PlatformOk}.

Lemma read_at pre x v0 post v o w :
  x ∉ pre.*1 → read_scalar p v0 w = inr (v, got o w) →
  exec_piece p fuel (QStmt (SReadVar x)) (pre ++ (x, BVal v0) :: post, w) = inr (pre ++ (x, BVal v) :: post, got o w).
Proof.
  intros Hx Hr. cbn [exec_piece GenSem.exec].
  enough (at_var x (λ v, read_scalar p v w) (pre ++ (x, BVal v0) :: post) = inr (pre ++ (x, BVal v) :: post, got o w)) as -> by done.
  induction pre as [|[y b] pre IH]; cbn [app at_var]; [by rewrite decide_True, Hr|].
  cbn in Hx. apply not_elem_of_cons in Hx as [Hy Hx]. rewrite decide_False by done. by rewrite (IH Hx).
Qed.
Lemma read_word_at pre x post z w :
  x ∉ pre.*1 → 0 <= z < 2 ^ 32 → ahead (raw (le_bytes 4 z)) w →
  exec_piece p fuel (QStmt (SReadVar x)) (pre ++ (x, BVal (VWord 4 0)) :: post, w) =
  inr (pre ++ (x, BVal (VWord 4 z)) :: post, got (raw (le_bytes 4 z)) w).
Proof using PF. intros Hx Hz Ha. apply read_at; [done|]. by apply read_scalar_ahead. Qed.
Lemma read_word_top x env z w :
  0 <= z < 2 ^ 32 → ahead (raw (le_bytes 4 z)) w →
  exec_piece p fuel (QStmt (SReadVar x)) ((x, BVal (VWord 4 0)) :: env, w) =
  inr ((x, BVal (VWord 4 z)) :: env, got (raw (le_bytes 4 z)) w).
Proof using PF. apply (read_word_at []). apply not_elem_of_nil. Qed.
Lemma read_flag_at pre x post (b : bool) w :
  x ∉ pre.*1 → ahead (raw [if b then 1 else 0]) w →
  exec_piece p fuel (QStmt (SReadVar x)) (pre ++ (x, BVal (VBool false)) :: post, w) =
  inr (pre ++ (x, BVal (VBool b)) :: post, got (raw [if b then 1 else 0]) w).
Proof using PF.
  intros Hx Ha. apply read_at; [done|]. unfold read_scalar. cbn [scalar_shape open_val res_bind].
  by rewrite (ReadBool_ahead b).
Qed.

Lemma read_flag_top x env (b : bool) w :
  ahead (raw [if b then 1 else 0]) w →
  exec_piece p fuel (QStmt (SReadVar x)) ((x, BVal (VBool false)) :: env, w) =
  inr ((x, BVal (VBool b)) :: env, got (raw [if b then 1 else 0]) w).
Proof using PF. apply (read_flag_at []). apply not_elem_of_nil. Qed.

Definition own_vars (q : Param) (ex : Env) : Prop := Forall (λ x : Var * Binding, x.1 ∈ map (suffixed q) (suffixes (p_type q))) ex.

(** The pieces [l] read what [mk] makes the value of. *)
Definition reads_parts (q : Param) (l : list Piece) (mk : Make) : Prop :=
  ∀ v o env w, ReprLink (p_type q) v o → ahead o w →
    ∃ ex w1, run_pieces p fuel l (env, w) = inr (ex ++ env, w1) ∧ own_vars q ex ∧
      make mk (ex ++ env, w1) = inr (v, (ex ++ env, got o w)).

Lemma decl_word env w x : exec_piece p fuel (QStmt (SDecl (text "uint32_t") x RZero)) (env, w) =
  inr ((x, BVal (VWord 4 0)) :: env, w).
Proof. reflexivity. Qed.

Lemma decl_flag env w x : exec_piece p fuel (QStmt (SDecl (text "bool") x RFalse)) (env, w) =
  inr ((x, BVal (VBool false)) :: env, w).
Proof. reflexivity. Qed.

Lemma EmitTopReadParam_link q uid : IsHandleBearing (t_kind (p_type q)) = true →
  ∃ type l mk, EmitTopReadParam ext ctx q uid = inr (read_guard q type l mk, uid) ∧ reads_parts q l mk.
Proof using PF PK.
  intros Hk. unfold EmitTopReadParam.
  assert (∀ s, s ∈ suffixes (p_type q) → suffixed q s ∈ map (suffixed q) (suffixes (p_type q))) as Hin
    by (intros s; apply list_elem_of_fmap_2). unfold suffixes in Hin. unfold own_vars, suffixes.
  destruct (t_kind (p_type q)) eqn:E; try done; eexists _, _, _; (split; [reflexivity|]); intros v o env w Hl Ha;
    inversion Hl as [h n Hk' Hn|h Hk'|iid n Hk' Hi Hn|iid Hk' Hi|h Hk']; subst; rewrite E in Hk'; try discriminate Hk';
    try (exfalso; clear - Hk'; set_solver).
  5-10: exists [], w; split_and!; [done|by constructor|cbn [make app]; by rewrite (take_handle_ahead h)].
  - change (mkBits _ [h] []) with (raw (le_bytes 4 n) +++ mkBits [] [h] []) in *.
    destruct (ahead_app _ _ _ Ha) as (H1 & H2 & ->).
    exists [(version_of q, BVal (VWord 4 n))], (got (raw (le_bytes 4 n)) w). split_and!.
    + cbn [run_pieces]. rewrite decl_word. cbn [res_bind]. by rewrite (read_word_top _ _ n).
    + constructor; [|by constructor]. unfold suffixes, version_of, iid_of. rewrite E. cbn [fst]. apply Hin. cbn. set_solver.
    + cbn [make app]. rewrite word_var_top. cbn [res_bind]. by rewrite (take_handle_ahead h).
  - exists [], w. split_and!; [done|by constructor|cbn [make app]; by rewrite (take_handle_ahead h)].
  - change (mkBits _ [] [iid]) with (raw (le_bytes 4 iid) +++ raw (le_bytes 4 n) +++ mkBits [] [] [iid]) in *.
    destruct (ahead_app _ _ _ Ha) as (H1 & H2 & ->). destruct (ahead_app _ _ _ H2) as (H3 & H4 & ->).
    exists [(version_of q, BVal (VWord 4 n)); (iid_of q, BVal (VWord 4 iid))], (got (raw (le_bytes 4 n)) (got (raw (le_bytes 4 iid)) w)).
    split_and!.
    + cbn [run_pieces]. rewrite decl_word. cbn [res_bind]. rewrite decl_word. cbn [res_bind].
      etransitivity.
      * apply (f_equal (λ m, res_bind m _)). apply (read_word_at [(version_of q, BVal (VWord 4 0))] (iid_of q) env iid); [|done|done].
        apply not_elem_of_cons. split; [by apply suffix_ne|apply not_elem_of_nil].
      * cbn [res_bind app]. by rewrite (read_word_top _ _ n).
    + repeat constructor; unfold suffixes, version_of, iid_of; rewrite E; cbn [fst]; apply Hin; cbn; set_solver.
    + cbn [make app]. rewrite word_var_below, !word_var_top by by apply suffix_ne. cbn [res_bind].
      by rewrite create_endpoint_got.
  - change (mkBits _ [] [iid]) with (raw (le_bytes 4 iid) +++ mkBits [] [] [iid]) in *.
    destruct (ahead_app _ _ _ Ha) as (H1 & H2 & ->).
    exists [(iid_of q, BVal (VWord 4 iid))], (got (raw (le_bytes 4 iid)) w). split_and!.
    + cbn [run_pieces]. rewrite decl_word. cbn [res_bind]. by rewrite (read_word_top _ _ iid).
    + constructor; [|by constructor]. unfold suffixes, version_of, iid_of. rewrite E. cbn [fst]. apply Hin. cbn. set_solver.
    + cbn [make app]. rewrite word_var_top. cbn [res_bind]. by rewrite create_endpoint_got.
Qed.

Lemma run_pieces_app a b st : run_pieces p fuel (a ++ b) st = let* st := run_pieces p fuel a st in run_pieces p fuel b st.
Proof.
  revert st. induction a as [|s a IH]; intros st; cbn [app run_pieces res_bind]; [by destruct st|].
  destruct (exec_piece p fuel s st) as [|st']; [done|]. apply IH.
Qed.

Lemma own_keeps q ex env : own_vars q ex → keeps (local_vars q) env (ex ++ env).
Proof.
  intros Ho y _ Hn. apply lookup_skip. eapply Forall_impl; [exact Ho|]. intros [x b] Hx Heq. cbn in Hx, Heq.
  apply Hn. right. by rewrite ?Heq, <- ?Heq in *.
Qed.
Lemma suffixes_filled t s : s ∈ suffixes t → s ≠ [].
Proof using.
  clear. intros Hs ->. unfold suffixes in Hs. destruct (t_kind t), (nullable t); cbn in Hs; set_solver.
Qed.
Lemma own_not_param q ex : own_vars q ex → Forall (λ x : Var * Binding, param_var q ≠ x.1) ex.
Proof using.
  intros Ho. eapply Forall_impl; [exact Ho|]. intros [x b] Hx Heq. cbn in Hx, Heq. subst x.
  apply list_elem_of_fmap in Hx as (s & Hs & Hin). symmetry in Hs. revert Hs. by apply suffixed_param, (suffixes_filled (p_type q)).
Qed.

(** The object of a parameter is made of its parts. *)
Lemma guard_reads q type l mk v o env w exact :
  IsHandleBearing (t_kind (p_type q)) = true → reads_parts q l mk → Repr p ext exact None (p_type q) v o → ahead o w →
  ∃ env', run_tops p fuel (read_guard q type l mk) (env, w) = inr (env', got o w) ∧ holds env' (param_var q) v ∧
    keeps (local_vars q) env env'.
Proof using PF.
  intros Hk Hl Hr Ha. destruct (repr_link _ _ _ _ _ _ _ Hk Hr) as [_ Ho]. unfold read_guard.
  destruct (nullable (p_type q)) eqn:Hn.
  2: { rewrite run_tops_pieces, run_pieces_app. destruct (Hl v o env w Ho Ha) as (ex & w1 & Hrun & Hex & Hmk).
    rewrite Hrun. cbn [res_bind run_pieces exec_piece]. rewrite Hmk. cbn [res_bind fst snd].
    eexists. split_and!; [done|apply holds_top|]. eapply keeps_then; [by apply own_keeps|apply keeps_push, param_in_locals]. }
  assert (∀ b : bool, ahead (raw [if b then 1 else 0]) w →
    run_tops p fuel [TPiece (QStmt (SDecl (text "bool") (present_var q) RFalse)); TPiece (QStmt (SReadVar (present_var q)));
       TPiece (QDeclare type (p_type q) (param_var q))] (env, w) =
    inr ((param_var q, BVal (init (p_type q))) :: (present_var q, BVal (VBool b)) :: env, got (raw [if b then 1 else 0]) w)) as Hflag.
  { intros b Hb. cbn [run_tops exec_top]. rewrite decl_flag. cbn [res_bind]. rewrite (read_flag_top _ env b) by done. reflexivity. }
  set (guard := TGuarded _ _).
  change (TPiece ?a :: TPiece ?b :: TPiece ?c :: [guard]) with ([TPiece a; TPiece b; TPiece c] ++ [guard]). rewrite run_tops_app.
  assert (∀ (b : bool) env', bool_var (present_var q) ((param_var q, env') :: (present_var q, BVal (VBool b)) :: env) = inr b) as Hb.
  { intros b e'. apply (holds_bool _ _ b), holds_below; [by apply suffix_param|apply holds_top]. }
  assert (∀ b, keeps (local_vars q) env ((present_var q, b) :: env)) as Hkp.
  { intros b. apply keeps_push, in_locals. unfold suffixes. rewrite Hk, Hn. apply elem_of_app. right. by left. }
  destruct Ho as [(-> & Hv & ->)|(o' & Hlink & Hv & ->)].
  - rewrite (Hflag false Ha). subst guard. cbn [res_bind run_tops exec_top fst]. rewrite Hb. cbn [res_bind].
    eexists. split_and!; [done|apply holds_top|]. eapply keeps_then; [apply Hkp|apply keeps_push, param_in_locals].
  - destruct (ahead_app _ _ _ Ha) as (H1 & H2 & ->). rewrite (Hflag true H1). subst guard.
    cbn [res_bind run_tops exec_top fst]. rewrite Hb. cbn [res_bind]. rewrite run_pieces_app.
    set (env1 := (param_var q, BVal (init (p_type q))) :: (present_var q, BVal (VBool true)) :: env).
    destruct (Hl v o' env1 _ Hlink H2) as (ex & w1 & Hrun & Hex & Hmk).
    replace (run_pieces p fuel l _) with (inr (ex ++ env1, w1) : Result State) by (symmetry; exact Hrun).
    cbn [res_bind run_pieces exec_piece]. rewrite Hmk. cbn [res_bind fst snd].
    rewrite set_var_skip by by apply own_not_param.
    unfold env1. rewrite set_var_top. cbn [res_bind]. rewrite leave_app by done.
    eexists. split_and!; [done|apply holds_top|]. eapply keeps_then; [apply Hkp|apply keeps_push, param_in_locals].
Qed.

Lemma EmitTopReadParam_plain q uid : IsHandleBearing (t_kind (p_type q)) = false →
  EmitTopReadParam ext ctx q uid =
  let? r := EmitDeclareAndRead ext ctx (p_type q) (param_var q) uid in inr (map (λ s, TPiece (QStmt s)) r.1, r.2).
Proof. unfold EmitTopReadParam. by destruct (t_kind (p_type q)). Qed.

Lemma read_param exact q uid b uid' v o env w :
  Repr p ext exact None (p_type q) v o → EmitTopReadParam ext ctx q uid = inr (b, uid') →
  (length (b_data o) < 8 * fuel)%nat → ahead o w →
  ∃ env', run_tops p fuel b (env, w) = inr (env', got o w) ∧ holds env' (param_var q) v ∧ keeps (local_vars q) env env'.
Proof using PF PK.
  intros Hr Hb Hf Ha. destruct (IsHandleBearing (t_kind (p_type q))) eqn:Hk.
  - destruct (EmitTopReadParam_link q uid Hk) as (type & l & mk & Hl & Hp). rewrite Hl in Hb. injection Hb as <- <-.
    by apply (guard_reads q type l mk v o env w exact).
  - rewrite EmitTopReadParam_plain in Hb by done. apply gen_bind_inr in Hb as ([b' u] & Hb' & [= <- <-]).
    unfold EmitDeclareAndRead in Hb'. apply gen_bind_inr in Hb' as (type & Ht & Hb').
    apply gen_bind_inr in Hb' as ([b1 u1] & Hb1 & [= <- <-]). cbn [fst].
    rewrite run_tops_stmts, run_cons. cbn [GenSem.exec res_bind].
    destruct (read_all p ext ctx (PK := PK) exact) as (Hall & _).
    destruct (Hall None _ v o Hr fuel (EVar (param_var q)) uid b1 u1 (λ v, (param_var q, BVal v) :: env) (init (p_type q)) Hf Hb1)
      with (w := w) as (ex & Hex & Hrun); [by apply focus_var, param_not_apart|done|by left|done|].
    assert (Forall (λ x : Var * Binding, ∀ y, is_param y → y ≠ x.1) ex) as Hne.
    { eapply Forall_impl; [exact Hex|]. intros [x c] Hx y Hy Heq. cbn in Hx, Heq. subst y. by eapply fresh_not_param. }
    exists (ex ++ (param_var q, BVal v) :: env). split_and!; [done| |].
    + unfold holds. rewrite lookup_skip; [apply lookup_top|]. eapply Forall_impl; [exact Hne|]. intros x Hx. by apply Hx.
    + intros y Hy Hn. rewrite lookup_skip by (eapply Forall_impl; [exact Hne|]; intros x Hx; by apply Hx).
      apply lookup_below. intros ->. by apply Hn, param_in_locals.
Qed.

Lemma reads_params exact ps vs o env w uid b :
  ReprArgs exact ps vs o → NoDup (locals ps) → top_reads ext ctx ps uid = inr b →
  (length (b_data o) < 8 * fuel)%nat → ahead o w →
  ∃ env', run_tops p fuel b (env, w) = inr (env', got o w) ∧ all_hold ps vs env' ∧ keeps (locals ps) env env'.
Proof using PF PK.
  intros Hr. revert env w uid b. induction Hr as [|q ps v vs o o' Hr Hrs IH]; intros env w uid b Hnd Hb Hf Ha.
  { injection Hb as <-. exists env. rewrite got_none by done. split_and!; [done|constructor|apply keeps_refl]. }
  cbn [top_reads] in Hb. apply gen_bind_inr in Hb as ([b1 u] & Hb1 & Hb). apply gen_bind_inr in Hb as (b2 & Hb2 & [= <-]).
  cbn [fst snd b_data bits_app] in *. rewrite length_app in Hf.
  apply nodup_locals in Hnd as (Hnd & H1 & H2). destruct (ahead_app _ _ _ Ha) as (Ha1 & Ha2 & ->).
  destruct (read_param exact q uid b1 u v o env w Hr Hb1) as (env1 & Hr1 & Hq1 & Hk1); [lia|done|].
  destruct (IH env1 (got o w) u b2 Hnd Hb2) as (env2 & Hr2 & Hq2 & Hk2); [lia|done|].
  exists env2. rewrite run_tops_app, Hr1. cbn [res_bind]. split_and!; [done| |].
  - constructor; [|done]. eapply keeps_holds; [exact Hk2|done|apply H2, param_in_locals|exact Hq1].
  - eapply keeps_then; eapply keeps_mono; [|exact Hk1| |exact Hk2]; intros x Hx; apply locals_cons; [by left|by right].
Qed.

Lemma params_values_hold ps vs env : all_hold ps vs env → params_values ps env = inr vs.
Proof.
  induction 1 as [|q v ps vs Hq _ IH]; [done|]. cbn [params_values]. unfold holds in Hq. rewrite Hq. cbn [res_bind].
  by rewrite IH.
Qed.

(** What is read of a message that holds the arguments. *)
Lemma read_params_spec exact io vs o m :
  ReprArgs exact (ps_params io) vs o → NoDup (locals (ps_params io)) → top_reads ext ctx (ps_params io) 0 = inr (ps_reads io) →
  (ps_needs_ctx io = false → b_handles o = []) →
  (length (b_data o) < 8 * fuel)%nat → Z.of_nat (length (sent_data m)) < 2 ^ 32 →
  b_data o `prefix_of` sent_data m → b_handles o `prefix_of` sent_handles m →
  ∃ w, read_params p fuel io m = inr (vs, w) ∧ endpoints w = b_endpoints o ∧ offset w = Z.of_nat (length (b_data o)) ∧
    handle_idx w = length (b_handles o).
Proof using PF PK.
  intros Hr Hnd Hb Hneed Hf Hs Hd Hh. unfold read_params.
  destruct (reads_params exact _ vs o [] (mkWire (sent_data m) (if ps_needs_ctx io then sent_handles m else []) 0 0 []) 0 _ Hr Hnd Hb Hf)
    as (env' & Hrun & Hq & _).
  { split; cbn [data handles handle_idx offset]; rewrite ?drop_0; [done| |lia|lia|done].
    destruct (ps_needs_ctx io); [done|]. rewrite (Hneed eq_refl). apply prefix_nil. }
  eexists. split.
  - etransitivity; [apply (f_equal (λ m, res_bind m _)); exact Hrun|]. cbn [res_bind fst snd].
    rewrite (params_values_hold _ _ _ Hq). reflexivity.
  - split_and!; done.
Qed.
End statements.
