(* ===== verification/GenCallClaims.v ===== *)
(** * What callers and implementations see of generated interfaces

    The theorems on the classes that are emitted for interfaces: a call arrives at the
    implementation as it was made, its response at the callback, once; a stub is safe
    on any message; and the header is there for every source. *)
From Stdlib Require Import ZArith Lia.
From stdpp Require Import base list gmap.
From S2P Require Import Prelude Lexer Ast Scan Embed Parser ParseDecl ParseSafe ParseTotal EnableIf TypeIntern Sandbox SandboxProps BindMessage Codec GenNames GenCode GenOrderProps GenIO GenSem GenRun GenWire GenTotal GenWriteProps GenReadProps GenSafe GenClaims GenText GenIface GenCall GenCallProps.

(** ** Any message *)

Section safe.
Context `{Platform} (H64 : uintptr_bits = 64).
Variables (p : Program) (ext : gmap (list Z) bool) (ctx : gset (list Z)) (fuel : nat).

(** The statements [b] leave a value in the parameter's variable. *)
Definition reads_param (q : Param) (b : list TopStmt) : Prop :=
  ∀ env w, good fuel w → safely (run_tops p fuel b (env, w)) (λ st,
    (∃ v, holds st.1 (param_var q) v) ∧ keeps (local_vars q) env st.1 ∧ after w st.2).

Lemma safe_word x pre env w : x ∉ pre.*1 → good fuel w →
  safely (exec_piece p fuel (QStmt (SReadVar x)) (pre ++ (x, BVal (VWord 4 0)) :: env, w))
    (λ st, ∃ z, st.1 = pre ++ (x, BVal (VWord 4 z)) :: env ∧ after w st.2).
Proof using H64.
  intros Hx Hg. cbn [exec_piece exec].
  assert (∀ g : Val → Result (Val * Wire), at_var x g (pre ++ (x, BVal (VWord 4 0)) :: env) =
    let* r := g (VWord 4 0) in inr (pre ++ (x, BVal r.1) :: env, r.2)) as Hat.
  { intros g. clear Hg. induction pre as [|[y b] pre IH]; cbn [app at_var]; [by rewrite decide_True|].
    cbn in Hx. apply not_elem_of_cons in Hx as [Hy Hx]. rewrite decide_False by done. rewrite (IH Hx). by destruct (g _). }
  rewrite Hat. apply safely_bind. eapply safely_mono; [|apply (read_scalar_safe H64 p fuel _ _ (Some 4%nat)); [done|done|cbn; lia]].
  intros r (Ha & z & Hz & _). cbn. exists z. by rewrite Hz.
Qed.

Definition parts_safely (q : Param) (l : list Piece) (mk : Make) : Prop :=
  ∀ env w, good fuel w → safely (run_pieces p fuel l (env, w)) (λ st,
    ∃ ex, st.1 = ex ++ env ∧ own_vars q ex ∧ after w st.2 ∧
      safely (make mk st) (λ r, r.2.1 = ex ++ env ∧ after st.2 r.2.2)).

Lemma take_handle_after w : good fuel w → safely (take_handle w) (λ r, after w r.2).
Proof. intros Hg. unfold take_handle. destruct (handles w !! handle_idx w); [|done]. cbn. exact (after_refl fuel w Hg). Qed.
Lemma create_endpoint_after iid w : good fuel w → after w (create_endpoint iid w).2.
Proof. intros Hg. exact (after_refl fuel w Hg). Qed.

Lemma parts_link q uid : IsHandleBearing (t_kind (p_type q)) = true →
  ∃ type l mk, EmitTopReadParam ext ctx q uid = inr (read_guard q type l mk, uid) ∧ parts_safely q l mk.
Proof using H64.
  intros Hk. unfold EmitTopReadParam.
  assert (∀ s, s ∈ suffixes (p_type q) → suffixed q s ∈ map (suffixed q) (suffixes (p_type q))) as Hin
    by (intros s; apply list_elem_of_fmap_2). unfold suffixes in Hin.
  assert (∀ env w mk, good fuel w → (mk = MkReceiver ∨ ∃ r, mk = MkHandle r) →
    safely (make mk (env, w)) (λ r, r.2.1 = env ∧ after w r.2.2)) as Hmk.
  { intros env w mk Hg [->|[r ->]]; cbn [make]; apply safely_bind; (eapply safely_mono; [|by apply take_handle_after]);
      intros r' Hr'; by cbn. }
  destruct (t_kind (p_type q)) eqn:E; try done; eexists _, _, _; (split; [reflexivity|]); intros env w Hg.
  5-10: exists []; split_and!; [done|by constructor|by apply after_refl with fuel|apply Hmk; [done|by right; eexists]].
  - cbn [run_pieces]. rewrite decl_word. cbn [res_bind]. apply safely_bind.
    eapply safely_mono; [|apply (safe_word _ [] env w); [apply not_elem_of_nil|done]]. intros [env1 w1] (z & He & Ha).
    cbn in He, Ha. subst env1. cbn [safely]. exists [(version_of q, BVal (VWord 4 z))]. split_and!; [done| |done|].
    + constructor; [|by constructor]. unfold suffixes, version_of. rewrite E. cbn [fst]. apply Hin. cbn. set_solver.
    + cbn [make fst snd app]. rewrite word_var_top. cbn [res_bind]. apply safely_bind.
      eapply safely_mono; [|apply take_handle_after; by eapply after_good]. intros r' Hr'. by cbn.
  - exists []; split_and!; [done|by constructor|by apply after_refl with fuel|apply Hmk; [done|by left]].
  - cbn [run_pieces]. rewrite decl_word. cbn [res_bind]. rewrite decl_word. cbn [res_bind]. apply safely_bind.
    eapply safely_mono; [|apply (safe_word _ [(version_of q, BVal (VWord 4 0))] env w);
      [apply not_elem_of_cons; split; [by apply suffix_ne|apply not_elem_of_nil]|done]].
    intros [env1 w1] (z & He & Ha). cbn in He, Ha. subst env1. apply safely_bind.
    eapply safely_mono; [|apply (safe_word _ [] _ w1); [apply not_elem_of_nil|by eapply after_good]].
    intros [env1 w2] (z' & He & Ha'). cbn in He, Ha'. subst env1. cbn [safely].
    exists [(version_of q, BVal (VWord 4 z')); (iid_of q, BVal (VWord 4 z))]. split_and!; [done| |by eapply after_trans|].
    + unfold own_vars, suffixes, version_of, iid_of. rewrite E. repeat constructor; cbn [fst]; apply Hin; cbn; set_solver.
    + cbn [make fst snd app]. rewrite word_var_below, !word_var_top by by apply suffix_ne. cbn [res_bind safely fst snd create_endpoint].
      split; [done|]. apply (create_endpoint_after z). by eapply after_good; [|eapply after_trans].
  - cbn [run_pieces]. rewrite decl_word. cbn [res_bind]. apply safely_bind.
    eapply safely_mono; [|apply (safe_word _ [] env w); [apply not_elem_of_nil|done]]. intros [env1 w1] (z & He & Ha).
    cbn in He, Ha. subst env1. cbn [safely]. exists [(iid_of q, BVal (VWord 4 z))]. split_and!; [done| |done|].
    + constructor; [|by constructor]. unfold suffixes, iid_of. rewrite E. cbn [fst]. apply Hin. cbn. set_solver.
    + cbn [make fst snd app]. rewrite word_var_top. cbn [res_bind safely fst snd create_endpoint].
      split; [done|]. apply (create_endpoint_after z). by eapply after_good.
Qed.
Lemma guard_safe q type l mk :
  IsHandleBearing (t_kind (p_type q)) = true → parts_safely q l mk → reads_param q (read_guard q type l mk).
Proof using H64.
  intros Hk Hl env w Hg. unfold read_guard. destruct (nullable (p_type q)) eqn:Hn.
  2: { rewrite run_tops_pieces, run_pieces_app. apply safely_bind. eapply safely_mono; [|by apply Hl].
    intros [env1 w1] (ex & He & Hex & Ha & Hmk). cbn [fst snd] in *. subst env1. cbn [run_pieces exec_piece].
    apply safely_bind, safely_bind. eapply safely_mono; [|exact Hmk]. intros [v [env2 w2]] [He Ha2]. cbn in He, Ha2. subst env2.
    cbn. split_and!; [eexists; apply holds_top| |by eapply after_trans].
    eapply keeps_then; [by apply own_keeps|apply keeps_push, param_in_locals]. }
  assert (∀ b, keeps (local_vars q) env ((present_var q, b) :: env)) as Hkp.
  { intros b. apply keeps_push, in_locals. unfold suffixes. rewrite Hk, Hn. apply elem_of_app. right. by left. }
  cbn [run_tops exec_top]. rewrite decl_flag. cbn [res_bind]. apply safely_bind. cbn [exec_piece exec at_var].
  rewrite decide_True by done. apply safely_bind.
  eapply safely_mono; [|by apply (read_scalar_safe H64 p fuel (VBool false) w None); [|done|cbn; lia]].
  intros [v w1] (Ha & b & ->). cbn [fst snd] in *. cbn [safely fst snd res_bind].
  set (env1 := (param_var q, BVal (init (p_type q))) :: (present_var q, BVal (VBool b)) :: env).
  assert (keeps (local_vars q) env env1) as Hk1.
  { eapply keeps_then; [apply Hkp|apply keeps_push, param_in_locals]. }
  assert (bool_var (present_var q) env1 = inr b) as Hb.
  { apply (holds_bool _ _ b), holds_below; [by apply suffix_param|apply holds_top]. }
  cbn [exec_piece res_bind fst]. fold env1. rewrite Hb. cbn [res_bind]. destruct b; cbn [res_bind].
  2: { cbn. split_and!; [eexists; apply holds_top|done|done]. }
  rewrite run_pieces_app. apply safely_bind, safely_bind, safely_bind.
  eapply safely_mono; [|apply (Hl env1); by eapply after_good].
  intros [env2 w2] (ex & He & Hex & Ha2 & Hmk). cbn [fst snd] in *. subst env2. cbn [run_pieces exec_piece].
  apply safely_bind, safely_bind. eapply safely_mono; [|exact Hmk]. intros [v' [env2 w3]] [He Ha3]. cbn in He, Ha3. subst env2.
  cbn [fst snd]. rewrite set_var_skip by by apply own_not_param. unfold env1. rewrite set_var_top. cbn [res_bind safely].
  rewrite leave_app by done. cbn [fst snd]. split_and!; [eexists; apply holds_top| |].
  - eapply keeps_then; [apply Hkp|apply keeps_push, param_in_locals].
  - eapply after_trans; [exact Ha|]. by eapply after_trans.
Qed.

Context {PK : program_ok p ext ctx} (Hcalls : calls_safe p ext ctx fuel).

Lemma param_safe q uid b uid' :
  EmitTopReadParam ext ctx q uid = inr (b, uid') → closed p ext (p_type q) = true → reads_param q b.
Proof using H64 Hcalls PK.
  intros Hb Hc. destruct (IsHandleBearing (t_kind (p_type q))) eqn:Hk.
  - destruct (parts_link q uid Hk) as (type & l & mk & He & Hl). rewrite He in Hb. injection Hb as <- <-.
    by apply guard_safe.
  - rewrite EmitTopReadParam_plain in Hb by done. apply gen_bind_inr in Hb as ([b' u] & Hb' & [= <- <-]).
    unfold EmitDeclareAndRead in Hb'. apply gen_bind_inr in Hb' as (type & Ht & Hb').
    apply gen_bind_inr in Hb' as ([b1 u1] & Hb1 & [= <- <-]). cbn [fst].
    intros env w Hg. rewrite run_tops_stmts, run_cons. cbn [exec res_bind].
    pose proof (safe_all H64 p ext ctx fuel Hcalls None (p_type q) (EVar (param_var q)) uid b1 u1
      (λ v, (param_var q, BVal v) :: env) (init (p_type q)) Hb1 Hc) as Hs.
    eapply safely_mono; [|apply Hs; [by apply focus_var, param_not_apart|done|by left|done]].
    intros [env1 w1] (ex & v & Hex & He & _ & Ha). cbn [fst snd] in *. subst env1.
    assert (Forall (λ x : Var * Binding, ∀ y, is_param y → y ≠ x.1) ex) as Hne.
    { eapply Forall_impl; [exact Hex|]. intros [x c] Hx y Hy Heq. cbn in Hx, Heq. subst y. by eapply fresh_not_param. }
    split_and!; [| |done].
    + exists v. unfold holds. rewrite lookup_skip; [apply lookup_top|]. eapply Forall_impl; [exact Hne|]. intros x Hx. by apply Hx.
    + intros y Hy Hn. rewrite lookup_skip by (eapply Forall_impl; [exact Hne|]; intros x Hx; by apply Hx).
      apply lookup_below. intros ->. by apply Hn, param_in_locals.
Qed.

Lemma params_safe ps uid b env w :
  top_reads ext ctx ps uid = inr b → NoDup (locals ps) → (∀ q, q ∈ ps → closed p ext (p_type q) = true) → good fuel w →
  safely (run_tops p fuel b (env, w)) (λ st,
    (∃ vs, all_hold ps vs st.1) ∧ keeps (locals ps) env st.1 ∧ after w st.2).
Proof using H64 Hcalls PK.
  revert uid b env w. induction ps as [|q ps IH]; intros uid b env w Hb Hnd Hc Hg.
  { injection Hb as <-. cbn. split_and!; [exists []; constructor|apply keeps_refl|by apply after_refl with fuel]. }
  cbn [top_reads] in Hb. apply gen_bind_inr in Hb as ([b1 u] & Hb1 & Hb). apply gen_bind_inr in Hb as (b2 & Hb2 & [= <-]).
  apply nodup_locals in Hnd as (Hnd & H1 & H2). cbn [fst snd] in *. rewrite run_tops_app. apply safely_bind.
  eapply safely_mono; [|apply (param_safe q uid b1 u Hb1); [apply Hc; by left|done]].
  intros [env1 w1] ((v & Hv) & Hk1 & Ha). cbn [fst snd] in *.
  eapply safely_mono; [|apply (IH u b2 env1 w1 Hb2 Hnd); [intros q' Hq; apply Hc; by right|by eapply after_good]].
  intros [env2 w2] ((vs & Hvs) & Hk2 & Ha2). cbn [fst snd] in *. split_and!; [| |by eapply after_trans].
  - exists (v :: vs). constructor; [|done]. eapply keeps_holds; [exact Hk2|done|apply H2, param_in_locals|exact Hv].
  - eapply keeps_then; eapply keeps_mono; [|exact Hk1| |exact Hk2]; intros x Hx; apply locals_cons; [by left|by right].
Qed.

Lemma read_params_safe io m :
  top_reads ext ctx (ps_params io) 0 = inr (ps_reads io) → NoDup (locals (ps_params io)) →
  (∀ q, q ∈ ps_params io → closed p ext (p_type q) = true) →
  Forall byte_ok (sent_data m) → Z.of_nat (length (sent_data m)) < 2 ^ 32 → Z.of_nat (length (sent_data m)) < 8 * Z.of_nat fuel →
  safely (read_params p fuel io m) (λ r, length r.1 = length (ps_params io) ∧ offset r.2 <= Z.of_nat (length (sent_data m))).
Proof using H64 Hcalls PK.
  intros Hb Hnd Hc Hby Hs Hf. unfold read_params. apply safely_bind.
  eapply safely_mono; [|apply (params_safe (ps_params io) 0 (ps_reads io) [] _ Hb Hnd Hc)].
  - intros [env w] ((vs & Hvs) & _ & Ha). cbn [fst snd] in *. rewrite (params_values_hold _ _ _ Hvs). cbn.
    split; [symmetry; by eapply Forall2_length|]. destruct Ha as [_ Ha]. cbn in Ha. lia.
  - split_and!; cbn; [lia..|done].
Qed.
End safe.

(** ** What is emitted for an interface *)

Lemma EmitParams_inv ext ctx ps written io : EmitParams ext ctx ps written = inr io →
  ps_params io = ps ∧ ps_written io = written ∧ any_needs (map p_type ps) ctx = inr (ps_needs_ctx io) ∧
  ps_prelude io = flat_map EmitTopWritePrelude written ∧ top_writes ctx written 0 = inr (ps_payload io) ∧
  top_reads ext ctx ps 0 = inr (ps_reads io).
Proof. unfold EmitParams. intros Hi. gen_inv. done. Qed.

Lemma EmitMethod_inv ext ctx m mi : EmitMethod ext ctx m = inr mi →
  mi_method mi = m ∧ EmitParams ext ctx (m_params m) (m_params m) = inr (mi_request mi) ∧
  EmitParams ext ctx (response_params m) (response_written m) = inr (mi_response mi).
Proof. unfold EmitMethod. intros Hi. gen_inv. done. Qed.

Lemma map_gen_inv {A B} (f : A → Gen B) l r : map_gen f l = inr r → Forall2 (λ x y, f x = inr y) l r.
Proof. revert r. induction l as [|x l IH]; intros r Hr; cbn in Hr; gen_inv; constructor; auto. Qed.

Lemma EmitInterface_inv ext ctx i ii : EmitInterface ext ctx i = inr ii →
  ii_interface ii = i ∧ Forall2 (λ m mi, EmitMethod ext ctx m = inr mi) (i_methods i) (ii_methods ii).
Proof. unfold EmitInterface. intros Hi. gen_inv. split; [done|]. by apply map_gen_inv. Qed.

Lemma emitted_methods ext ctx i ii : EmitInterface ext ctx i = inr ii →
  map (m_ordinal ∘ mi_method) (ii_methods ii) = map m_ordinal (i_methods i) ∧
  ∀ mi, mi ∈ ii_methods ii → mi_method mi ∈ i_methods i ∧ EmitMethod ext ctx (mi_method mi) = inr mi.
Proof.
  intros [_ Hm]%EmitInterface_inv. induction Hm as [|m mi ms mis Hm _ [IH1 IH2]].
  { split; [done|]. by intros mi []%not_elem_of_nil. }
  pose proof (EmitMethod_inv _ _ _ _ Hm) as (E & _). split; [cbn; by rewrite E, IH1|].
  intros mi' [->|Hin]%elem_of_cons; [rewrite E; split; [by left|done]|].
  destruct (IH2 _ Hin) as [H1 H2]. split; [by right|done].
Qed.

Lemma find_method_nth mis mi : NoDup (map (m_ordinal ∘ mi_method) mis) → mi ∈ mis →
  find_method mis (m_ordinal (mi_method mi)) = Some mi.
Proof.
  induction mis as [|mi' mis IH]; [by intros _ []%not_elem_of_nil|]. cbn [map find_method].
  intros [Hn Hnd]%NoDup_cons [->|Hin]%elem_of_cons; [by rewrite Z.eqb_refl|].
  destruct (Z.eqb_spec (m_ordinal (mi_method mi)) (m_ordinal (mi_method mi'))) as [E|_]; [|by apply IH].
  exfalso. apply Hn. cbn. rewrite <- E. by apply (list_elem_of_fmap_2 (m_ordinal ∘ mi_method)).
Qed.
Lemma find_method_in mis name mi : find_method mis name = Some mi → mi ∈ mis ∧ m_ordinal (mi_method mi) = name.
Proof.
  induction mis as [|mi' mis IH]; [done|]. cbn [find_method].
  destruct (Z.eqb_spec name (m_ordinal (mi_method mi'))) as [E|_].
  - intros [= ->]. split; [by left|done].
  - intros [H1 H2]%IH. split; [by right|done].
Qed.

(** ** What C++ accepts *)

(** Names of the emitted functions' own variables. *)
Definition reserved : list (list Z) :=
  [text "message"; text "response"; text "offset"; text "request_id"; text "router"; text "id"; text "callback"].
Definition name_accepted (n : list Z) : bool := bool_decide (n ∉ reserved) && negb (starts_with (text "wvc_") n).

(** No variable is declared twice, and every class is known. *)
Definition params_accepted (p : Program) (ps : list Param) : bool :=
  forallb (λ q, name_accepted (p_name q)) ps && bool_decide (NoDup (locals ps)) &&
  forallb (λ q, closed p (module_extensible (p_module p)) (p_type q)) ps.
Definition method_accepted (p : Program) (m : Method) : bool :=
  params_accepted p (m_params m) && params_accepted p (response_params m) && bool_decide (NoDup (locals (response_written m))).
Definition interface_accepted (p : Program) (i : Interface) : bool := forallb (method_accepted p) (i_methods i).

(** The arguments of a message by the reference encoder. *)
Fixpoint encode_args (p : Program) (ext : gmap (list Z) bool) (depth : nat) (ps : list Param) (vs : list Val) : option Bits :=
  match ps, vs with
  | [], [] => Some no_bits
  | q :: ps, v :: vs =>
      o ← encode p ext depth None (p_type q) v; o' ← encode_args p ext depth ps vs; Some (o +++ o')
  | _, _ => None
  end.

Lemma encode_args_sound p ext depth ps vs o : encode_args p ext depth ps vs = Some o → ReprArgs p ext true ps vs o.
Proof.
  revert vs o. induction ps as [|q ps IH]; intros [|v vs] o; cbn; try done; [intros [= <-]; constructor|].
  intros (o1 & H1 & (o2 & H2 & [= <-])%bind_Some)%bind_Some. constructor; [by apply encode_sound in H1|by apply IH].
Qed.

Lemma ReprArgs_renamed p ext exact ps vs o : ReprArgs p ext exact ps vs o → ReprArgs p ext exact (map renamed ps) vs o.
Proof. induction 1; cbn [map]; constructor; done. Qed.
Lemma ReprArgs_response p ext exact m vs o :
  ReprArgs p ext exact (response_params m) vs o → ReprArgs p ext exact (response_written m) vs o.
Proof. unfold response_written. destruct (is_result_response m); [apply ReprArgs_renamed|done]. Qed.

(** Arguments have no handles if their types need none. *)
Lemma bare_args p ext ctx exact ps vs o :
  settled (ctx_decls (p_module p)) ctx →
  (∀ s f, s ∈ AllStructs (p_module p) → f ∈ s_fields s → closed p ext (f_type f) = true) →
  (∀ u f, u ∈ AllUnions (p_module p) → f ∈ u_fields u → closed p ext (uf_type f) = true) →
  ReprArgs p ext exact ps vs o → (∀ q, q ∈ ps → closed p ext (p_type q) = true) →
  any_needs (map p_type ps) ctx = inr false → b_handles o = [].
Proof.
  intros Hset Hs Hu Hr Hc Hn. pose proof (bare_params ctx ps Hn) as Hbare. clear Hn.
  induction Hr as [|q ps v vs o o' Hq Hr IH]; [done|]. cbn [bits_app b_handles].
  destruct (bare_all p ext ctx exact Hset Hs Hu) as (Hall & _).
  rewrite (Hall _ _ _ _ Hq), IH; [done|..].
  - intros q' Hq'. apply Hc. by right.
  - intros q' Hq'. apply Hbare. by right.
  - apply Hc. by left.
  - apply Hbare. by left.
Qed.

(** ** Interfaces of a source *)

Lemma method_range i m : interface_ok i → m ∈ i_methods i → 0 <= m_ordinal m < kRunOrClosePipeMessageId.
Proof.
  intros [Hm Ho Hl _ _ _ _ _] Hin. rewrite Forall_forall in Hm. destruct Ho as [Ho|[_ Ho]].
  - rewrite Forall_forall in Ho. destruct (Hm m Hin) as [_ _ _ _ _ _ Hr]. by apply Hr, Ho.
  - assert (m_ordinal m ∈ map m_ordinal (i_methods i)) as Hs by by apply (list_elem_of_fmap_2 m_ordinal).
    rewrite Ho, elem_of_seqZ in Hs. unfold kRunOrClosePipeMessageId. lia.
Qed.

(** Without explicit ordinals no two methods have the same. *)
Lemma implicit_ordinals_distinct i : interface_ok i → Forall (λ m, m_has_explicit_ordinal m = false) (i_methods i) →
  NoDup (map m_ordinal (i_methods i)).
Proof.
  intros [_ Ho _ _ _ _ _ _] Hf. destruct Ho as [Ho|[_ ->]]; [|apply NoDup_seqZ].
  destruct (i_methods i) as [|m ms]; [by apply NoDup_nil|]. apply Forall_cons in Ho as [Ho _]. apply Forall_cons in Hf as [Hf _].
  by rewrite Ho in Hf.
Qed.

Lemma enabled_methods enabled m i :
  i ∈ mod_interfaces (ApplyEnableIf enabled m) → ∃ i0, i0 ∈ mod_interfaces m ∧ i_methods i `sublist_of` i_methods i0.
Proof.
  intros Hi. apply filtered_in in Hi as (i0 & -> & Hi & _). exists i0. split; [done|].
  apply (EraseDisabled_kept enabled (i_methods i0)).
Qed.

(** The classes of an interface of a source, which the C++ compiler accepts. *)
Record interface_program (LONG_MAX : Z) (src : list Z) (enabled : gset (list Z)) (p : Program) (ii : InterfaceIO) : Prop := {
  ip_compiled : compiled LONG_MAX src enabled p;
  ip_closed : closed_program p = true;
  ip_emitted : ∃ ctx, BuildHandleCtx (p_module p) = inr ctx ∧ ii_interface ii ∈ mod_interfaces (p_module p) ∧
    EmitInterface (module_extensible (p_module p)) ctx (ii_interface ii) = inr ii;
  ip_accepted : interface_accepted p (ii_interface ii) = true
}.

Lemma compiled_module LONG_MAX src enabled p : compiled LONG_MAX src enabled p →
  ∃ m, module_ok m ∧ p_module p = ApplyEnableIf enabled m.
Proof.
  intros [Hl (ue & ts & m & opt & Ht & Hm & _ & Hp) _]. exists m. pose proof (Parse_fine LONG_MAX ue src ts Ht Hl) as Hf.
  rewrite Hm in Hf. split; [apply Hf|]. unfold GenerateProgram in Hp. by gen_inv.
Qed.

Lemma closed_program_inv p : closed_program p = true →
  (∀ s f, s ∈ AllStructs (p_module p) → f ∈ s_fields s → closed p (module_extensible (p_module p)) (f_type f) = true) ∧
  (∀ u f, u ∈ AllUnions (p_module p) → f ∈ u_fields u → closed p (module_extensible (p_module p)) (uf_type f) = true).
Proof.
  unfold closed_program. rewrite andb_true_iff, !forallb_forall. intros [Hs Hu]. split.
  - intros s f H1 H2. specialize (Hs s ltac:(by apply list_elem_of_In)). rewrite forallb_forall in Hs. by apply Hs, list_elem_of_In.
  - intros u f H1 H2. specialize (Hu u ltac:(by apply list_elem_of_In)). rewrite forallb_forall in Hu. by apply Hu, list_elem_of_In.
Qed.

Lemma params_accepted_inv p ps : params_accepted p ps = true →
  NoDup (locals ps) ∧ ∀ q, q ∈ ps → closed p (module_extensible (p_module p)) (p_type q) = true.
Proof.
  unfold params_accepted. rewrite !andb_true_iff, bool_decide_eq_true. intros [[_ Hn] Hc]. split; [done|].
  rewrite forallb_forall in Hc. intros q Hq. by apply Hc, list_elem_of_In.
Qed.
Lemma interface_accepted_inv p i m : interface_accepted p i = true → m ∈ i_methods i →
  params_accepted p (m_params m) = true ∧ params_accepted p (response_params m) = true ∧ NoDup (locals (response_written m)).
Proof.
  unfold interface_accepted. rewrite forallb_forall. intros Ha Hm. specialize (Ha m ltac:(by apply list_elem_of_In)).
  unfold method_accepted in Ha. rewrite !andb_true_iff, bool_decide_eq_true in Ha. tauto.
Qed.

Section calls.
Context `{Platform} {PF : PlatformOk}.
Variables (LONG_MAX : Z) (src : list Z) (enabled : gset (list Z)) (p : Program) (ii : InterfaceIO).
#[local] Abbreviation ext := (module_extensible (p_module p)).

(** What is known of the interface, for one context. *)
Record interface_facts (ctx : gset (list Z)) : Prop := {
  if_program : program_ok p ext ctx;
  if_settled : settled (ctx_decls (p_module p)) ctx;
  if_structs : ∀ s f, s ∈ AllStructs (p_module p) → f ∈ s_fields s → closed p ext (f_type f) = true;
  if_unions : ∀ u f, u ∈ AllUnions (p_module p) → f ∈ u_fields u → closed p ext (uf_type f) = true;
  if_methods : ∀ mi, mi ∈ ii_methods ii → EmitMethod ext ctx (mi_method mi) = inr mi ∧
    0 <= m_ordinal (mi_method mi) < kRunOrClosePipeMessageId ∧
    params_accepted p (m_params (mi_method mi)) = true ∧ params_accepted p (response_params (mi_method mi)) = true ∧
    NoDup (locals (response_written (mi_method mi)));
  if_ordinals : map (m_ordinal ∘ mi_method) (ii_methods ii) = map m_ordinal (i_methods (ii_interface ii))
}.

Lemma interface_program_facts : interface_program LONG_MAX src enabled p ii → ∃ ctx, interface_facts ctx.
Proof.
  intros [Hc Hcl (ctx & Hctx & Hi & Hii) Ha]. exists ctx.
  destruct (compiled_ok _ _ _ _ Hc) as (ctx' & Hctx' & Hok). rewrite Hctx in Hctx'. injection Hctx' as <-.
  destruct (closed_program_inv p Hcl) as [Hs Hu]. destruct (emitted_methods _ _ _ _ Hii) as [Hord Hms].
  split; [done|by apply BuildHandleCtx_settled|done|done| |done]. intros mi Hmi. destruct (Hms mi Hmi) as [Hin He].
  split; [done|]. split; [|by apply (interface_accepted_inv p (ii_interface ii))].
  destruct (compiled_module _ _ _ _ Hc) as (m & Hm & Em). rewrite Em in Hi.
  destruct (enabled_methods enabled m _ Hi) as (i0 & Hi0 & Hsub). apply (method_range i0).
  - destruct Hm as [_ _ _ Hints _ _]. rewrite Forall_forall in Hints. by apply Hints.
  - by eapply sublist_subseteq.
Qed.

(** What is read of a message that holds what [o] is. *)
Lemma read_emitted ctx ps written io vs o m fuel exact :
  interface_facts ctx → EmitParams ext ctx ps written = inr io → params_accepted p ps = true →
  ReprArgs p ext exact ps vs o → (length (b_data o) < 8 * fuel)%nat → Z.of_nat (length (sent_data m)) < 2 ^ 32 →
  b_data o `prefix_of` sent_data m → b_handles o `prefix_of` sent_handles m →
  ∃ w, read_params p fuel io m = inr (vs, w) ∧ endpoints w = b_endpoints o.
Proof using PF.
  intros [HP Hset Hs Hu _ _] (E1 & _ & Hn & _ & _ & Hb)%EmitParams_inv [Hnd Hc]%params_accepted_inv Hr Hf Hl Hd Hh.
  destruct (read_params_spec p ext ctx fuel (PK := HP) exact io vs o m) as (w & Hw & He & _); try (by rewrite E1); try done.
  - intros E0. apply (bare_args p ext ctx exact ps vs o); try done. by rewrite Hn, E0.
  - by exists w.
Qed.

Lemma write_emitted ctx ps written io vs o fuel :
  interface_facts ctx → EmitParams ext ctx ps written = inr io → NoDup (locals written) →
  ReprArgs p ext true written vs o → (length (b_data o) < 8 * fuel)%nat → Z.of_nat (length (b_data o)) < 2 ^ 32 →
  write_params p fuel io vs = inr (put_bits o (mkWire [] [] 0 0 [])).
Proof.
  intros [HP _ _ _ _ _] (_ & E2 & _ & Hpre & Hpay & _)%EmitParams_inv Hnd Hr Hf Hl.
  apply (write_params_spec p ext ctx fuel (PK := HP)); by rewrite ?E2.
Qed.

(** C36: A call through a proxy reaches the implementation as it was made, if no two methods
    of the interface have one ordinal ([same_ordinal_misroutes]) and the reference encoder
    takes the arguments (so an enumerator newer than its struct is excluded, see
    [newer_enumerator_refused]): the message that the method makes has the arguments as the
    encoder has them, bytes and handles, and the stub of the interface, given that message,
    calls the same method of the implementation with the same arguments. *)
Theorem call_arrives mi depth vs o fuel id k d :
  interface_program LONG_MAX src enabled p ii → NoDup (map m_ordinal (i_methods (ii_interface ii))) →
  mi ∈ ii_methods ii → encode_args p ext depth (m_params (mi_method mi)) vs = Some o →
  (length (b_data o) < 8 * fuel)%nat → Z.of_nat (length (b_data o)) < 2 ^ 32 →
  ∃ m d', proxy_call p fuel mi id vs k d = inr (m, d') ∧
    sent_id m = id ∧ sent_data m = b_data o ∧ sent_handles m = b_handles o ∧
    stub_accept p fuel ii id m = inr (Calls mi vs).
Proof using PF.
  intros (ctx & HF)%interface_program_facts Hnd Hmi He%encode_args_sound Hf Hl.
  destruct (if_methods _ HF mi Hmi) as ((_ & Hq & _)%EmitMethod_inv & Hord & Hp & _ & _).
  pose proof (write_emitted ctx _ _ _ vs o fuel HF Hq (proj1 (params_accepted_inv _ _ Hp)) He Hf Hl) as Hw.
  unfold proxy_call. set (reg := if has_response _ then _ else _). destruct reg as [request d'].
  rewrite Hw. cbn [res_bind]. do 2 eexists. split; [done|]. cbn [request_message sent_id sent_data sent_handles put_bits data handles app].
  split_and!; [done..|]. unfold stub_accept, request_message. cbn [sent_name].
  unfold kRunMessageId, kRunOrClosePipeMessageId in *.
  rewrite (proj2 (Z.eqb_neq _ _)), (proj2 (Z.eqb_neq _ _)) by lia.
  rewrite (find_method_nth (ii_methods ii) mi); [|by rewrite (if_ordinals _ HF)|done].
  set (m := mkSent _ _ _ _ _ _).
  destruct (read_emitted ctx _ _ _ vs o m fuel true HF Hq Hp He Hf) as (w & Hr & _); [done|by exists []; rewrite app_nil_r..|].
  by rewrite Hr.
Qed.

(** The callback takes a [base::expected] exactly for a method with a result. *)
Definition fits_method (m : Method) (r : Response) : Prop :=
  match r with Expected _ => is_result_response m = true | Values _ => is_result_response m = false end.

Lemma response_of_wire m r : fits_method m r → response_of m (wire_values r) = inr r.
Proof using. unfold response_of, fits_method. by destruct r as [vs|[v|e]]; intros ->. Qed.

Lemma proxy_accept_pending fuel m d h :
  has_flag m kFlagIsResponse = true → pending_ d !! sent_request_id m = Some h →
  proxy_accept p fuel m d =
  (run_handler p fuel h m, mkDispatcher (next_request_id_ d) (delete (sent_request_id m) (pending_ d))).
Proof using. unfold proxy_accept, DispatchResponse. by intros -> ->. Qed.
Lemma proxy_accept_unknown fuel m d :
  pending_ d !! sent_request_id m = None → proxy_accept p fuel m d = (inl ReturnFalse, d).
Proof using. unfold proxy_accept, DispatchResponse. intros ->. by destruct (negb _). Qed.

(** C37: What the implementation responds reaches the caller, once, if the reference encoder
    takes the response (so an enumerator newer than its struct is excluded: the proxy
    refuses it, see [newer_enumerator_refused]) and the call's request id was not in use:
    the callback that the stub gives it makes a message of the response, and the proxy that
    made the call, given that message, runs the callback of the call with the response, the
    value or error of a result included; given it again, it refuses it. *)
Theorem call_returns mi depth vs o fuel id id' k d m d' r :
  interface_program LONG_MAX src enabled p ii → mi ∈ ii_methods ii → has_response (mi_method mi) = true →
  pending_ d !! next_request_id_ d = None → proxy_call p fuel mi id vs k d = inr (m, d') →
  fits_method (mi_method mi) r → encode_args p ext depth (response_params (mi_method mi)) (wire_values r) = Some o →
  (length (b_data o) < 8 * fuel)%nat → Z.of_nat (length (b_data o)) < 2 ^ 32 →
  pending_ d' !! sent_request_id m = Some (HMethod mi k) ∧
  ∃ response, respond p fuel mi id' (sent_request_id m) r = inr response ∧
    sent_data response = b_data o ∧ sent_handles response = b_handles o ∧
    ∀ d1, pending_ d1 !! sent_request_id m = Some (HMethod mi k) →
      ∃ d2, proxy_accept p fuel response d1 = (inr (k, r), d2) ∧ proxy_accept p fuel response d2 = (inl ReturnFalse, d2).
Proof using PF.
  intros (ctx & HF)%interface_program_facts Hmi Hresp Hfree Hcall Hfit He%encode_args_sound Hf Hl.
  destruct (if_methods _ HF mi Hmi) as ((_ & _ & Hq)%EmitMethod_inv & _ & _ & Hp & Hnd).
  unfold proxy_call in Hcall. rewrite Hresp in Hcall. unfold RegisterPendingResponse in Hcall.
  destruct (write_params _ _ _ _) as [|w]; [done|]. cbn [res_bind] in Hcall. injection Hcall as <- <-.
  cbn [sent_request_id request_message pending_]. rewrite Hfree, lookup_insert_eq. split; [done|].
  pose proof (write_emitted ctx _ _ _ (wire_values r) o fuel HF Hq Hnd (ReprArgs_response _ _ _ _ _ _ He) Hf Hl) as Hw.
  unfold respond. rewrite Hw. cbn [res_bind]. eexists. split; [done|].
  cbn [sent_data sent_handles put_bits data handles app]. split_and!; [done..|]. intros d1 Hd1.
  set (response := mkSent _ _ _ _ _ _). rewrite (proxy_accept_pending fuel response d1 (HMethod mi k)) by done.
  eexists. split.
  - cbn [run_handler].
    destruct (read_emitted ctx _ _ _ (wire_values r) o response fuel true HF Hq Hp He Hf) as (w' & Hr & _);
      [done|by exists []; rewrite app_nil_r..|].
    by rewrite Hr; cbn [res_bind fst]; rewrite (response_of_wire _ _ Hfit).
  - apply proxy_accept_unknown. cbn [pending_]. apply lookup_delete_eq.
Qed.
End calls.

(** ** A dispatcher over time *)

Section traces.
Context {A : Type}.
Implicit Types (es : list (A + Sent)) (h : A).

(** A call registers its handler [inl h], or a response [inr m] arrives. *)
Inductive Outcome := Issued (id : Z) | Runs (h : A) | Refused.
Definition dispatcher_step (e : A + Sent) (d : ResponseDispatcher A) : Outcome * ResponseDispatcher A :=
  match e with
  | inl h => let (id, d) := RegisterPendingResponse h d in (Issued id, d)
  | inr m => match DispatchResponse m d with Some (h, d) => (Runs h, d) | None => (Refused, d) end
  end.
Fixpoint dispatcher_run es (d : ResponseDispatcher A) : list Outcome * ResponseDispatcher A :=
  match es with
  | [] => ([], d)
  | e :: es => let (x, d) := dispatcher_step e d in let (xs, d) := dispatcher_run es d in (x :: xs, d)
  end.

Fixpoint registered es : Z :=
  match es with [] => 0 | inl _ :: es => 1 + registered es | inr _ :: es => registered es end.

(** The call numbered [r] has been made with [h], and no response to it has come. *)
Definition awaits es (r : Z) h : Prop :=
  ∃ before since, es = before ++ inl h :: since ∧ r = 1 + registered before ∧
    ∀ m, inr m ∈ since → sent_request_id m ≠ r.

Lemma registered_app es es' : registered (es ++ es') = registered es + registered es'.
Proof. induction es as [|[h|m] es IH]; cbn; lia. Qed.
Lemma registered_pos es : 0 <= registered es.
Proof. induction es as [|[h|m] es IH]; cbn; lia. Qed.
Lemma dispatcher_run_app es es' d :
  dispatcher_run (es ++ es') d =
  let (xs, d) := dispatcher_run es d in let (ys, d) := dispatcher_run es' d in (xs ++ ys, d).
Proof.
  revert d. induction es as [|e es IH]; intros d; cbn; [by destruct (dispatcher_run es' d)|].
  destruct (dispatcher_step e d) as [x d1]. rewrite IH. destruct (dispatcher_run es d1) as [xs d2].
  by destruct (dispatcher_run es' d2).
Qed.

Lemma awaits_range es r h : awaits es r h → 1 <= r <= registered es.
Proof.
  intros (a & b & -> & -> & _). rewrite registered_app. cbn.
  pose proof (registered_pos a). pose proof (registered_pos b). lia.
Qed.
Lemma snoc_split {B} (es a b : list B) x y :
  es ++ [x] = a ++ y :: b → (b = [] ∧ x = y ∧ a = es) ∨ ∃ b', b = b' ++ [x] ∧ es = a ++ y :: b'.
Proof.
  destruct b as [|z b _] using rev_ind; intros E.
  - left. by apply app_inj_tail in E as [-> ->].
  - right. exists b. rewrite app_comm_cons, app_assoc in E. by apply app_inj_tail in E as [-> ->].
Qed.

Lemma awaits_call es h r h' : awaits (es ++ [inl h]) r h' ↔ (r = 1 + registered es ∧ h' = h) ∨ awaits es r h'.
Proof.
  split.
  - intros (a & b & E & -> & Hb). destruct (snoc_split _ _ _ _ _ E) as [(-> & [= ->] & ->)|(b' & -> & ->)]; [by left|].
    right. exists a, b'. split_and!; [done..|]. intros m Hm. apply Hb, elem_of_app. by left.
  - intros [[-> ->]|(a & b & -> & -> & Hb)].
    + exists es, []. split_and!; [done..|]. by intros m []%not_elem_of_nil.
    + exists a, (b ++ [inl h]). rewrite <- app_assoc. split_and!; [done..|].
      intros m [Hm|[= ]%list_elem_of_singleton]%elem_of_app. by apply Hb.
Qed.
Lemma awaits_response es m r h : awaits (es ++ [inr m]) r h ↔ awaits es r h ∧ sent_request_id m ≠ r.
Proof.
  split.
  - intros (a & b & E & -> & Hb). destruct (snoc_split _ _ _ _ _ E) as [(-> & [= ] & ->)|(b' & -> & ->)].
    split; [|apply Hb, elem_of_app; right; by left].
    exists a, b'. split_and!; [done..|]. intros m' Hm. apply Hb, elem_of_app. by left.
  - intros [(a & b & -> & -> & Hb) Hm]. exists a, (b ++ [inr m]). rewrite <- app_assoc. split_and!; [done..|].
    intros m' [Hm'|[= ->]%list_elem_of_singleton]%elem_of_app; [by apply Hb|done].
Qed.

(** The map holds what is awaited. *)
Lemma dispatcher_holds es : registered es < 2 ^ 64 - 1 →
  let d := (dispatcher_run es ResponseDispatcher_init).2 in
  next_request_id_ d = 1 + registered es ∧ ∀ r h, pending_ d !! r = Some h ↔ awaits es r h.
Proof.
  induction es as [|e es IH] using rev_ind; intros Hn.
  { split; [done|]. intros r h. cbn. rewrite lookup_empty. split; [done|]. by intros (a & b & E & _); destruct a. }
  rewrite registered_app in Hn |- *. rewrite dispatcher_run_app. pose proof (registered_pos es).
  destruct IH as [IH1 IH2]; [destruct e; cbn in Hn; lia|].
  destruct (dispatcher_run es ResponseDispatcher_init) as [xs d]. cbn [snd] in *.
  destruct e as [h|m]; cbn [dispatcher_run dispatcher_step registered] in *.
  - unfold RegisterPendingResponse. cbn [snd next_request_id_ pending_]. rewrite IH1.
    assert (pending_ d !! (1 + registered es) = None) as Hfree.
    { apply eq_None_not_Some. intros [h' Hh]. apply IH2, awaits_range in Hh. lia. }
    rewrite Hfree. split; [rewrite Z.mod_small; lia|]. intros r h'. rewrite awaits_call, <- IH2.
    destruct (decide (r = 1 + registered es)) as [->|Hne].
    + rewrite lookup_insert_eq, Hfree. naive_solver.
    + rewrite lookup_insert_ne by done. naive_solver.
  - unfold DispatchResponse. rewrite Z.add_0_r.
    destruct (pending_ d !! sent_request_id m) as [h|] eqn:Hm; cbn [snd next_request_id_ pending_];
      (split; [done|]); intros r h'; rewrite awaits_response, <- IH2.
    + rewrite lookup_delete_Some. naive_solver.
    + split; [|naive_solver]. intros Hr. split; [done|]. intros <-. congruence.
Qed.

(** C38: Whatever calls are made through a proxy and whatever responses arrive, in any
    order and with any request ids: calls are numbered from 1 on, and a response runs the
    handler of the call that it names if none has come for that call since it was made,
    and is refused otherwise.  So every handler runs at most once, and only for its
    own call. *)
Theorem responses_once es i e :
  registered es < 2 ^ 64 - 1 → es !! i = Some e →
  ∃ x, (dispatcher_run es ResponseDispatcher_init).1 !! i = Some x ∧
    match e, x with
    | inl _, Issued id => id = 1 + registered (take i es)
    | inr m, Runs h => awaits (take i es) (sent_request_id m) h
    | inr m, Refused => ∀ h, ¬ awaits (take i es) (sent_request_id m) h
    | _, _ => False
    end.
Proof.
  intros Hn Hi. pose proof (take_drop_middle es i e Hi) as E. rewrite <- E in Hn.
  assert (∀ d, dispatcher_run es d = dispatcher_run (take i es ++ e :: drop (S i) es) d) as -> by (intros d; by rewrite E).
  clear E.
  rewrite registered_app in Hn. set (pre := take i es) in *. set (post := drop (S i) es) in *.
  assert (length pre = i) as Hlen by (apply lookup_lt_Some in Hi; apply length_take_le; lia).
  pose proof (registered_pos post) as Hp. pose proof (registered_pos pre) as Hp'.
  destruct (dispatcher_holds pre) as [H1 H2]; [destruct e; cbn in Hn; lia|].
  assert (length (dispatcher_run pre ResponseDispatcher_init).1 = i) as Hrun.
  { rewrite <- Hlen. generalize (ResponseDispatcher_init (A := A)). clear. induction pre as [|e pre IH]; intros d; cbn; [done|].
    destruct (dispatcher_step e d) as [x d1]. specialize (IH d1). by destruct (dispatcher_run pre d1); cbn in *; f_equal. }
  rewrite dispatcher_run_app. destruct (dispatcher_run pre ResponseDispatcher_init) as [xs d]. cbn [fst snd] in *.
  cbn [dispatcher_run]. destruct (dispatcher_step e d) as [x d1] eqn:Hx. destruct (dispatcher_run post d1) as [ys d2].
  exists x. cbn [fst]. split; [rewrite <- Hrun; by apply list_lookup_middle|]. destruct e as [h|m]; cbn in Hx.
  - unfold RegisterPendingResponse in Hx. by injection Hx as <- <-.
  - unfold DispatchResponse in Hx. destruct (pending_ d !! sent_request_id m) as [h|] eqn:Hm; injection Hx as <- <-.
    + by apply H2.
    + intros h Ha. apply H2 in Ha. congruence.
Qed.
End traces.

Lemma responses_once_witness :
  let response r := mkSent 0 kFlagIsResponse 0 r [] [] in
  let es := [inl 7; inl 8; inr (response 2); inr (response 2); inr (response 1)] in
  ∃ x, (dispatcher_run es ResponseDispatcher_init).1 !! 2%nat = Some x ∧
    match x with Runs h => awaits (take 2 es) 2 h | Refused => ∀ h, ¬ awaits (take 2 es) 2 h | Issued _ => False end.
Proof. intros response es. apply (responses_once es 2 (inr (response 2))); [vm_compute; reflexivity|reflexivity]. Defined.

(** ** Any peer *)

Section peers.
Context `{Platform} (H64 : uintptr_bits = 64).
Variables (LONG_MAX : Z) (src : list Z) (enabled : gset (list Z)) (p : Program) (ii : InterfaceIO).
#[local] Abbreviation ext := (module_extensible (p_module p)).

Lemma read_emitted_safe ctx ps written io m fuel :
  interface_facts p ii ctx → EmitParams ext ctx ps written = inr io → params_accepted p ps = true →
  Forall byte_ok (sent_data m) → Z.of_nat (length (sent_data m)) < 2 ^ 32 → Z.of_nat (length (sent_data m)) < 8 * Z.of_nat fuel →
  safely (read_params p fuel io m) (λ r, length r.1 = length ps).
Proof using H64.
  intros [HP Hset Hs Hu _ _] (E1 & _ & _ & _ & _ & Hb)%EmitParams_inv [Hnd Hc]%params_accepted_inv Hby Hl Hf.
  eapply safely_mono; [|apply (read_params_safe H64 p ext ctx fuel (PK := HP) (readers_safe H64 p ext ctx (PK := HP) Hs Hu fuel) io m)];
    try (by rewrite E1); try done.
  intros r [Hr _]. by rewrite <- E1.
Qed.

(** C39: Where [size_t] has 64 bits, a stub is safe on any message: whatever name,
    bytes and handles a peer sends, handling it ends, reads nothing outside the
    message, and either calls the method of that ordinal with as many arguments as it
    has, answers a query for the version, or lets the message pass; or it is refused.
    It can fail otherwise than by [return false] in two ways only, by a [bool] that is
    neither 0 nor 1, or a handle that is not there. *)
Theorem stub_is_safe fuel id m :
  interface_program LONG_MAX src enabled p ii →
  Forall byte_ok (sent_data m) → Z.of_nat (length (sent_data m)) < 2 ^ 32 → Z.of_nat (length (sent_data m)) < 8 * Z.of_nat fuel →
  match stub_accept p fuel ii id m with
  | inr (Calls mi vs) =>
      mi ∈ ii_methods ii ∧ m_ordinal (mi_method mi) = sent_name m ∧ length vs = length (m_params (mi_method mi))
  | inr (Replies r) => sent_name m = kRunMessageId ∧ sent_request_id r = sent_request_id m
  | inr Ignores =>
      sent_name m = kRunOrClosePipeMessageId ∨
      i_is_extensible (ii_interface ii) = true ∧ ∀ mi, mi ∈ ii_methods ii → m_ordinal (mi_method mi) ≠ sent_name m
  | inl (ReturnFalse | BadBool | NoHandle) => True
  | inl (Stuck | OutOfFuel) => False
  end.
Proof using H64.
  intros (ctx & HF)%interface_program_facts Hby Hl Hf. unfold stub_accept.
  destruct (Z.eqb_spec (sent_name m) kRunMessageId) as [E|_]; [done|].
  assert (good fuel (mkWire (sent_data m) [] 0 0 [])) as Hg by (split_and!; cbn; [lia..|done]).
  destruct (Z.eqb_spec (sent_name m) kRunOrClosePipeMessageId) as [E|_].
  { assert (safely (HandleRequireVersion (i_version (ii_interface ii)) m) (λ a, a = Ignores)) as Hs.
    { unfold HandleRequireVersion. apply safely_bind. eapply safely_mono; [|exact (ReadScalar_safe H64 fuel 4 _ Hg ltac:(lia))].
      intros r (Ha & _). destruct (negb _); [done|]. apply safely_bind.
      eapply safely_mono; [|exact (ReadScalar_safe H64 fuel 4 _ (after_good _ _ _ Hg Ha) ltac:(lia))].
      intros r' _. by destruct (_ <=? _). }
    destruct (HandleRequireVersion _ _) as [[]|a]; try done. cbn in Hs. subst a. by left. }
  destruct (find_method (ii_methods ii) (sent_name m)) as [mi|] eqn:Hm.
  - apply find_method_in in Hm as [Hmi Hord].
    destruct (if_methods _ _ _ HF mi Hmi) as ((_ & Hq & _)%EmitMethod_inv & _ & Hp & _).
    pose proof (read_emitted_safe ctx _ _ _ m fuel HF Hq Hp Hby Hl Hf) as Hs.
    by destruct (read_params p fuel (mi_request mi) m) as [[]|r].
  - destruct (i_is_extensible (ii_interface ii)); [|done]. right. split; [done|]. intros mi Hmi E.
    clear - Hm Hmi E. induction (ii_methods ii) as [|mi' mis IH]; [by apply not_elem_of_nil in Hmi|].
    cbn in Hm. destruct (Z.eqb_spec (sent_name m) (m_ordinal (mi_method mi'))) as [E'|Hne]; [done|].
    apply elem_of_cons in Hmi as [->|Hmi]; [done|by apply IH].
Qed.
End peers.

(** ** Headers *)

Lemma gen_bind_total {A B} (g : Gen A) (k : A → Gen B) :
  (∃ a, g = inr a) → (∀ a, ∃ b, k a = inr b) → ∃ b, gen_bind g k = inr b.
Proof. intros [a ->] Hk. apply Hk. Qed.
Lemma map_gen_total {A B} (f : A → Gen B) l : (∀ x, x ∈ l → ∃ y, f x = inr y) → ∃ r, map_gen f l = inr r.
Proof.
  induction l as [|x l IH]; intros Hf; cbn; [by eexists|]. destruct (Hf x) as [y ->]; [by left|].
  destruct IH as [r ->]; [intros z Hz; apply Hf; by right|]. by eexists.
Qed.

Lemma needs_total ctx t : wf_type t → ∃ b, TypeNeedsHandleCtx t ctx = inr b.
Proof. intros Hw. by apply TypeNeedsHandleCtx_total, wf_has_elements. Qed.

Lemma EmitConst_total n c : wf_const c → ∃ r, EmitConst n c = inr r.
Proof. intros Hw. unfold EmitConst. destruct (CppValueType_total _ Hw) as [t ->]. by eexists. Qed.

Lemma EmitStructType_total s ns opt : Forall wf_field (s_fields s) → ∃ r, EmitStructType s ns opt = inr r.
Proof.
  intros Hf. unfold EmitStructType. destruct (LookupTypemap _ _ _ _); [by eexists|].
  apply gen_bind_total; [|by eexists]. apply map_gen_total. rewrite Forall_forall in Hf. intros f Hin.
  destruct (CppValueType_total _ (Hf f Hin)) as [t ->]. by eexists.
Qed.
Lemma EmitUnionType_total u ns : Forall wf_ufield (u_fields u) → u_fields u ≠ [] → ∃ r, EmitUnionType u ns = inr r.
Proof.
  intros Hf Hn. unfold EmitUnionType. rewrite Forall_forall in Hf.
  apply gen_bind_total; [|intros ?; apply gen_bind_total; [|intros ?; apply gen_bind_total; [|by eexists]]].
  - apply map_gen_total. intros f Hin. destruct (CppValueType_total _ (Hf f Hin)) as [t ->]. by eexists.
  - destruct (u_fields u); [done|]. by eexists.
  - apply map_gen_total. intros f Hin. destruct (CppValueType_total _ (Hf f Hin)) as [t ->]. by eexists.
Qed.

Section interface_text.
Variables (ext : gmap (list Z) bool) (ctx : gset (list Z)).

Lemma top_writes_total ps uid : Forall wf_param ps → ∃ b, top_writes ctx ps uid = inr b.
Proof.
  intros Hw. revert uid. induction Hw as [|q ps Hq _ IH]; intros uid; cbn; [by eexists|].
  assert (∃ r, EmitTopWritePayload ctx q uid = inr r) as [r ->].
  { unfold EmitTopWritePayload. destruct (EmitWriteValue_total ctx _ (EVar (param_var q)) uid Hq) as [r ->].
    destruct (t_kind (p_type q)); by eexists. }
  cbn [gen_bind]. destruct (IH r.2) as [b ->]. by eexists.
Qed.
Lemma top_reads_total ps uid : Forall wf_param ps → ∃ b, top_reads ext ctx ps uid = inr b.
Proof.
  intros Hw. revert uid. induction Hw as [|q ps Hq _ IH]; intros uid; cbn; [by eexists|].
  assert (∃ r, EmitTopReadParam ext ctx q uid = inr r) as [r ->].
  { unfold EmitTopReadParam, EmitDeclareAndRead. destruct (CppValueType_total _ Hq) as [vt ->]. cbn [gen_bind].
    destruct (EmitReadInto_total ext ctx None _ (EVar (param_var q)) uid Hq) as [r ->].
    destruct (t_kind (p_type q)); by eexists. }
  cbn [gen_bind]. destruct (IH r.2) as [b ->]. by eexists.
Qed.
Lemma any_needs_total ps : Forall wf_param ps → ∃ b, any_needs (map p_type ps) ctx = inr b.
Proof.
  intros Hw. destruct (any_needs_spec (map p_type ps) ctx) as (b & Hb & _); [|by exists b].
  apply Forall_map. eapply Forall_impl; [exact Hw|]. intros q. apply wf_has_elements.
Qed.
Lemma EmitParams_total ps written : Forall wf_param ps → Forall wf_param written → ∃ io, EmitParams ext ctx ps written = inr io.
Proof.
  intros Hp Hw. unfold EmitParams. destruct (any_needs_total ps Hp) as [b ->], (top_writes_total written 0 Hw) as [w ->].
  cbn [gen_bind]. destruct (top_reads_total ps 0 Hp) as [r ->]. by eexists.
Qed.

Lemma EmitMethod_total m : method_ok m → ∃ mi, EmitMethod ext ctx m = inr mi.
Proof.
  intros []. unfold EmitMethod. destruct (EmitParams_total (m_params m) (m_params m)) as [q ->]; [done..|]. cbn [gen_bind].
  destruct (EmitParams_total (response_params m) (response_written m)) as [r ->]; [done| |by eexists].
  unfold response_written. destruct (is_result_response m); [|done]. by apply Forall_map.
Qed.

Lemma ExpectedCppType_total m : method_ok m → ∃ r, ExpectedCppType m = inr r.
Proof.
  intros []. unfold ExpectedCppType. destruct (CppValueType_total (result_success m)) as [s ->]; [done|].
  cbn [gen_bind]. destruct (CppValueType_total (result_error m)) as [e ->]; [done|]. by eexists.
Qed.
Lemma ResponseValueType_total m rp : method_ok m → rp ∈ response_params m → ∃ r, ResponseValueType m rp = inr r.
Proof.
  intros Hm Hin. unfold ResponseValueType. destruct (is_result_response m); [by apply ExpectedCppType_total|].
  destruct Hm as [_ Hr _ _ _ _ _]. rewrite Forall_forall in Hr. by apply CppValueType_total, Hr.
Qed.
Lemma CppParamDecl_total q : wf_param q → ∃ r, CppParamDecl q ctx = inr r.
Proof.
  intros Hq. unfold CppParamDecl. destruct (CppValueType_total _ Hq) as [t ->], (needs_total ctx _ Hq) as [b ->].
  cbn [gen_bind]. destruct (t_kind (p_type q)), b; by eexists.
Qed.
Lemma ParamPassExpr_total q : wf_param q → ∃ r, ParamPassExpr q ctx = inr r.
Proof. intros Hq. unfold ParamPassExpr. destruct (needs_total ctx _ Hq) as [b ->]. destruct (IsHandleBearing _); by eexists. Qed.

Lemma params_decl_total ps : Forall wf_param ps → ∃ r, map_gen (λ q, CppParamDecl q ctx) ps = inr r.
Proof. rewrite Forall_forall. intros Hp. apply map_gen_total. intros q Hq. by apply CppParamDecl_total, Hp. Qed.
Lemma params_pass_total ps : Forall wf_param ps → ∃ r, map_gen (λ q, ParamPassExpr q ctx) ps = inr r.
Proof. rewrite Forall_forall. intros Hp. apply map_gen_total. intros q Hq. by apply ParamPassExpr_total, Hp. Qed.

Lemma ResponseCallbackType_total m : method_ok m → ∃ r, ResponseCallbackType m = inr r.
Proof.
  intros Hm. unfold ResponseCallbackType. apply gen_bind_total; [|by eexists].
  destruct (is_result_response m); [by apply ExpectedCppType_total|]. apply gen_bind_total; [|by eexists].
  destruct Hm as [_ Hr _ _ _ _ _]. rewrite Forall_forall in Hr. apply map_gen_total. intros q Hq. by apply CppValueType_total, Hr.
Qed.

Lemma method_params_total m : method_ok m → ∃ r, method_params ctx m = inr r.
Proof.
  intros Hm. unfold method_params. destruct (params_decl_total (m_params m)) as [ps ->]; [by destruct Hm|]. cbn [gen_bind].
  apply gen_bind_total; [|by eexists]. destruct (has_response m); [|by eexists].
  destruct (ResponseCallbackType_total m Hm) as [t ->]. by eexists.
Qed.
Lemma print_expected_total ind m rp : method_ok m → rp ∈ response_params m → ∃ r, print_expected ind m rp = inr r.
Proof.
  intros Hm Hin. unfold print_expected. destruct (ExpectedCppType_total m Hm) as [e ->].
  destruct Hm as [_ Hr _ _ _ _ _]. rewrite Forall_forall in Hr. destruct (CppValueType_total _ (Hr rp Hin)) as [t ->]. by eexists.
Qed.

Lemma result_head m : method_ok m → is_result_response m = true →
  ∃ rp, response_params m = [rp] ∧ ∃ t, CppValueType (p_type rp) = inr t.
Proof.
  intros [_ Hr _ _ Hres _ _] Hm. destruct (Hres Hm) as [rp E]. rewrite E in Hr. apply Forall_cons in Hr as [Hr _].
  exists rp. split; [done|]. by apply CppValueType_total.
Qed.

Lemma print_accept_total n mi : method_ok (mi_method mi) → ∃ r, print_accept ctx n mi = inr r.
Proof.
  intros Hm. unfold print_accept. destruct (params_pass_total (m_params (mi_method mi))) as [ps ->]; [by destruct Hm|].
  cbn [gen_bind]. apply gen_bind_total; [|by eexists]. destruct (has_response (mi_method mi)); [|by eexists].
  apply gen_bind_total; [|intros args; apply gen_bind_total; [|by eexists]].
  - apply map_gen_total. intros rp Hin. destruct (ResponseValueType_total _ rp Hm Hin) as [t ->]. by eexists.
  - destruct (is_result_response (mi_method mi)) eqn:Hr; [|by eexists].
    destruct (result_head _ Hm Hr) as (rp & -> & t & Ht). cbn [head need gen_bind]. rewrite Ht. by eexists.
Qed.
Lemma print_call_total mi : method_ok (mi_method mi) → ∃ r, print_call ctx mi = inr r.
Proof.
  intros Hm. unfold print_call. destruct (method_params_total _ Hm) as [ps ->]. cbn [gen_bind].
  apply gen_bind_total; [|by eexists]. destruct (has_response (mi_method mi)); [|by eexists].
  apply gen_bind_total; [|by eexists]. destruct (is_result_response (mi_method mi)) eqn:Hr.
  - destruct (result_head _ Hm Hr) as (rp & E & _). rewrite E. cbn [head need gen_bind].
    apply print_expected_total; [done|]. rewrite E. by left.
  - destruct (params_pass_total (response_params (mi_method mi))) as [l ->]; [by destruct Hm|]. by eexists.
Qed.
Lemma EmitSyncProxyMethod_total n mi : method_ok (mi_method mi) → ∃ r, EmitSyncProxyMethod ctx n mi = inr r.
Proof.
  intros Hm. unfold EmitSyncProxyMethod. destruct (params_decl_total (m_params (mi_method mi))) as [ps ->]; [by destruct Hm|].
  cbn [gen_bind]. apply gen_bind_total; [|intros ?; apply gen_bind_total; [|intros ?; apply gen_bind_total; [|by eexists]]].
  - apply map_gen_total. intros rp Hin. destruct (ResponseValueType_total _ rp Hm Hin) as [t ->]. by eexists.
  - apply map_gen_total. intros rp Hin. destruct (ResponseValueType_total _ rp Hm Hin) as [t ->]. by eexists.
  - apply map_gen_total. intros rp Hin. apply gen_bind_total; [|by eexists].
    destruct (is_result_response (mi_method mi)); [by apply print_expected_total|by eexists].
Qed.

Lemma interface_total ns i : Forall method_ok (i_methods i) →
  ∃ r, (let? ii := EmitInterface ext ctx i in print_interface ctx ns ii) = inr r.
Proof.
  rewrite Forall_forall. intros Hm. unfold EmitInterface.
  destruct (map_gen_total (EmitMethod ext ctx) (i_methods i)) as [mis Hmis]; [intros m Hin; by apply EmitMethod_total, Hm|].
  rewrite Hmis. cbn [gen_bind]. unfold print_interface. cbn [ii_interface ii_methods].
  assert (∀ mi, mi ∈ mis → method_ok (mi_method mi)) as Hok.
  { apply map_gen_inv in Hmis. intros mi Hin. clear - Hmis Hin Hm. induction Hmis as [|m mi' ms mis Hmi _ IH].
    - by apply not_elem_of_nil in Hin.
    - apply elem_of_cons in Hin as [->|Hin]; [|by apply IH; [intros m' Hm'; apply Hm; by right|]].
      destruct (EmitMethod_inv _ _ _ _ Hmi) as [-> _]. apply Hm. by left. }
  apply gen_bind_total; [|intros ?; apply gen_bind_total; [|intros ?; apply gen_bind_total; [|by eexists]]];
    apply map_gen_total.
  - intros m Hin. destruct (method_params_total m (Hm m Hin)) as [ps ->]. by eexists.
  - intros mi Hin. by apply print_accept_total, Hok.
  - intros mi Hin. destruct (print_call_total mi (Hok mi Hin)) as [c ->]. cbn [gen_bind].
    apply gen_bind_total; [|by eexists]. destruct (is_sync (mi_method mi)); [by apply EmitSyncProxyMethod_total, Hok|by eexists].
Qed.
End interface_text.

(** What the generator needs of a module, that flags leave. *)
Record header_ready (m : Module_) : Prop := {
  hr_types : wf_module m;
  hr_consts : Forall (λ ce, wf_const ce.2) (const_emits m);
  hr_unions : Forall (λ u, u_fields u ≠ []) (AllUnions m);
  hr_methods : Forall (λ i, Forall method_ok (i_methods i)) (mod_interfaces m)
}.

Lemma drop_empty_nonempty us u : u ∈ drop_empty us → u_fields u ≠ [].
Proof.
  unfold drop_empty. rewrite list_elem_of_In, List.filter_In, negb_true_iff, bool_decide_eq_false.
  intros [_ Hn] E. apply Hn. by rewrite E.
Qed.

Lemma enabled_ready enabled m : module_ok m → header_ready (ApplyEnableIf enabled m).
Proof.
  intros Hm. pose proof (enabled_wf enabled m (module_wf m Hm)) as Hwf. destruct Hm as [_ Hs _ Hi Hc Hf].
  rewrite Forall_forall in Hs. rewrite Forall_forall in Hi. rewrite Forall_forall in Hc. rewrite Forall_forall in Hf.
  split; [done|..].
  - apply Forall_forall. unfold const_emits, AllStructs. cbn [ApplyEnableIf mod_consts mod_structs mod_interfaces mod_features].
    intros [n c]. rewrite !elem_of_app. cbn [snd].
    assert (∀ s0 : StructDecl, struct_ok s0 → ∀ x, x ∈ map (λ c, (enum_container (FilterStruct enabled s0), c)) (s_consts (FilterStruct enabled s0)) →
      wf_const x.2) as Hst.
    { intros s0 [] x Hx. apply list_elem_of_fmap in Hx as (c' & -> & Hx). cbn in *.
      apply elem_of_EraseDisabled in Hx as [Hx _]. rewrite -> Forall_forall in so_consts. by apply so_consts. }
    intros [Hx|[Hx|[Hx|Hx]]].
    + apply list_elem_of_fmap in Hx as (c' & [= -> ->] & Hx). apply elem_of_EraseDisabled in Hx as [Hx _]. by apply Hc.
    + apply list_elem_of_In, in_flat_map in Hx as (s & Hs'%list_elem_of_In & Hx%list_elem_of_In).
      apply elem_of_app in Hs' as [Hs'|Hs'].
      * apply filtered_in in Hs' as (s0 & -> & Hs' & _). by apply (Hst s0 (Hs _ Hs') (n, c)).
      * apply list_elem_of_In, in_flat_map in Hs' as (i & Hi'%list_elem_of_In & Hs'%list_elem_of_In).
        apply filtered_in in Hi' as (i0 & -> & Hi' & _). apply filtered_in in Hs' as (s0 & -> & Hs' & _).
        destruct (Hi _ Hi') as [_ _ _ _ _ His _ _]. rewrite Forall_forall in His. by apply (Hst s0 (His _ Hs') (n, c)).
    + apply list_elem_of_In, in_flat_map in Hx as (i & Hi'%list_elem_of_In & Hx%list_elem_of_In).
      apply filtered_in in Hi' as (i0 & -> & Hi' & _). apply list_elem_of_fmap in Hx as (c' & [= -> ->] & Hx).
      apply elem_of_EraseDisabled in Hx as [Hx _]. destruct (Hi _ Hi') as [_ _ _ _ Hic _ _ _]. rewrite Forall_forall in Hic. by apply Hic.
    + apply list_elem_of_In, in_flat_map in Hx as (ft & Hi'%list_elem_of_In & Hx%list_elem_of_In).
      apply filtered_in in Hi' as (f0 & -> & Hi' & _). apply list_elem_of_fmap in Hx as (c' & [= -> ->] & Hx).
      apply elem_of_EraseDisabled in Hx as [Hx _]. specialize (Hf _ Hi'). unfold wf_feature in Hf. rewrite Forall_forall in Hf.
      by apply Hf.
  - apply Forall_forall. intros u. unfold AllUnions. cbn [ApplyEnableIf mod_unions mod_interfaces].
    intros [Hu|Hu]%elem_of_app; [by eapply drop_empty_nonempty|].
    apply list_elem_of_In, in_flat_map in Hu as (i & Hi'%list_elem_of_In & Hu%list_elem_of_In).
    apply filtered_in in Hi' as (i0 & -> & _). by apply (drop_empty_nonempty _ _ Hu).
  - apply Forall_forall. intros i Hin. destruct (enabled_methods enabled m i Hin) as (i0 & Hi0 & Hsub).
    destruct (Hi _ Hi0) as [Hms _ _ _ _ _ _ _]. rewrite Forall_forall in Hms |- *. intros x Hx.
    apply Hms. by eapply sublist_subseteq.
Qed.

Lemma sorted_consts_in m ce : ce ∈ sorted_consts m → ce ∈ const_emits m.
Proof.
  unfold sorted_consts. induction (const_emits m) as [|c l IH]; [done|]. cbn [foldr].
  assert (∀ l, ce ∈ insert_const c l → ce = c ∨ ce ∈ l) as Hins.
  { clear. induction l as [|d l IH]; cbn; [intros ->%list_elem_of_singleton; by left|].
    destruct (_ <? _); intros [->|Hin]%elem_of_cons; [right; by left|destruct (IH Hin); [by left|right; by right]|by left|by right]. }
  intros [->|Hin]%Hins; [by left|right; by apply IH].
Qed.

Lemma emit_embeds_total m opt ctx es classes : header_ready m → es ≡ₚ module_embeds m →
  ∃ r, emit_embeds m opt ctx es classes = inr r.
Proof.
  intros [Hw _ Hu _] Hp. unfold emit_embeds. apply gen_bind_total; [|by eexists]. apply map_gen_total.
  intros e He. rewrite Hp in He. pose proof (wf_embeds m Hw) as Hwf. rewrite Forall_forall in Hwf.
  specialize (Hwf e He). unfold embed_types in Hwf. destruct (decl e) as [s|u] eqn:Ed; rewrite -> Forall_map in Hwf.
  - by apply EmitStructType_total.
  - apply EmitUnionType_total; [done|]. rewrite Forall_forall in Hu. apply Hu.
    unfold module_embeds in He. apply elem_of_app in He as [He|He]; apply list_elem_of_fmap in He as (x & -> & He); cbn in Ed; [done|].
    by injection Ed as ->.
Qed.

(** C40: Every source that the parser accepts has its header, whatever flags leave of it,
    and whatever typemaps, guard, namespace and imports it is generated with: the
    generator does not fail on any interface, class or constant. *)
Theorem header_never_fails LONG_MAX src enabled ue ts m guard ns file imports opt :
  Tokenize LONG_MAX src = inr ts → Z.of_nat (length src) < 2 ^ 31 - 1 → Parse LONG_MAX ue ts = inr m →
  ∃ header, GenerateCppHeader (ApplyEnableIf enabled m) guard ns file imports opt = inr header.
Proof.
  intros E Hl Hm. pose proof (Parse_fine LONG_MAX ue src ts E Hl) as Hf. rewrite Hm in Hf. destruct Hf as [Hok Hac].
  pose proof (enabled_ready enabled m Hok) as Hr. set (m' := ApplyEnableIf enabled m) in *.
  destruct (SortEmbeds_spec m') as (out & Hs & [Hperm _ _]);
    [by apply enabled_typed, module_typed|by apply enable_if_acyclic|].
  unfold GenerateCppHeader. destruct (BuildHandleCtx_total m' (hr_types _ Hr)) as [ctx ->]. cbn [gen_bind].
  apply gen_bind_total; [|intros consts].
  { unfold emit_consts. apply gen_bind_total; [|by eexists]. apply map_gen_total. intros ce Hce%sorted_consts_in.
    pose proof (hr_consts _ Hr) as Hc. rewrite Forall_forall in Hc. specialize (Hc ce Hce).
    destruct (bool_decide _); by apply EmitConst_total. }
  rewrite Hs. cbn [gen_bind].
  destruct (emit_classes_total out (module_extensible m') ctx opt (mod_name m')) as [ios ->].
  { rewrite Hperm. apply wf_embeds, Hr. }
  cbn [gen_bind]. destruct (emit_embeds_total m' opt ctx out ios Hr Hperm) as [body ->]. cbn [gen_bind].
  apply gen_bind_total; [|by eexists]. apply map_gen_total. intros i Hi. apply interface_total.
  pose proof (hr_methods _ Hr) as Hms. rewrite Forall_forall in Hms. by apply Hms.
Qed.

(** ** A program and its calls *)

Definition desk_source : list Z :=
  bytes "interface L { g(int32 x); };
struct P { int32 x; handle? h; };
interface I {
  f(P a, pending_remote<L>? r, array<string> s, pending_associated_receiver<L> ar) => (P b, pending_receiver<L>? q);
  g(uint8 n) => result<int32, string>;
  h();
};".
Definition desk_program : Program := Eval vm_compute in program_of desk_source.
Definition desk_ctx : gset (list Z) := {[bytes "P"]}.
Definition desk : InterfaceIO :=
  Eval vm_compute in
  match EmitInterface (module_extensible (p_module desk_program)) desk_ctx
          (nth 1 (mod_interfaces (p_module desk_program)) (mkInterface [] [] [] [] [] [] 0 false EnableIf_init)) with
  | inr ii => ii
  | inl _ => mkInterfaceIO (mkInterface [] [] [] [] [] [] 0 false EnableIf_init) []
  end.
Definition no_params : ParamsIO := mkParamsIO [] [] false [] [] [].
Definition desk_method (n : nat) : MethodIO :=
  nth n (ii_methods desk) (mkMethodIO (mkMethod [] 0 false [] false [] false (TypeSpec_init kBool) (TypeSpec_init kBool) false 0 EnableIf_init)
    no_params no_params).

Lemma desk_compiles : compiled (2 ^ 63 - 1) desk_source ∅ desk_program.
Proof. apply (compiles_ok desk_source). by vm_compute. Qed.
Lemma desk_ok : interface_program (2 ^ 63 - 1) desk_source ∅ desk_program desk.
Proof.
  split; [exact desk_compiles|by vm_compute| |by vm_compute]. exists desk_ctx.
  split; [by vm_compute|]. split; [right; left|by vm_compute].
Qed.

Lemma desk_ordinals : NoDup (map m_ordinal (i_methods (ii_interface desk))).
Proof. apply (bool_decide_eq_true_1 (NoDup (map m_ordinal (i_methods (ii_interface desk))))). by vm_compute. Qed.

Definition desk_args : list Val :=
  [VObj [(bytes "x", VWord 4 5); (bytes "h", VHandle (Pipe 70))]; VPending (Pipe 71) (Some 2);
   VArr (TypeSpec_init kString) [VStr (bytes "hi"); VStr []]; VPending (Endpoint true 9) None].
Definition desk_bits : Bits :=
  Eval vm_compute in
  match encode_args desk_program (module_extensible (p_module desk_program)) 9 (m_params (mi_method (desk_method 0))) desk_args with
  | Some o => o | None => no_bits end.

Lemma call_arrives_witness :
  ∃ m d', proxy_call (H := linux64) desk_program 9 (desk_method 0) 3 desk_args 1 ResponseDispatcher_init = inr (m, d') ∧
    sent_id m = 3 ∧ sent_data m = b_data desk_bits ∧ sent_handles m = b_handles desk_bits ∧
    stub_accept (H := linux64) desk_program 9 desk 3 m = inr (Calls (desk_method 0) desk_args).
Proof.
  apply (call_arrives (H := linux64) (PF := SandboxProps.linux64_ok) (2 ^ 63 - 1) desk_source ∅ desk_program desk
    (desk_method 0) 9 desk_args desk_bits 9 3 1 ResponseDispatcher_init);
    [exact desk_ok|exact desk_ordinals|left|by vm_compute|cbn; lia|cbn; lia].
Defined.

Definition desk_call : Sent :=
  Eval vm_compute in
  match proxy_call (H := linux64) desk_program 9 (desk_method 1) 3 [VWord 1 200] 4 ResponseDispatcher_init with
  | inr (m, _) => m | inl _ => mkSent 0 0 0 0 [] [] end.
Definition desk_waiting : ResponseDispatcher Handler :=
  (RegisterPendingResponse (HMethod (desk_method 1) 4) ResponseDispatcher_init).2.
Definition desk_result : Response := Expected (inr (VStr (bytes "no"))).
Definition desk_result_bits : Bits :=
  Eval vm_compute in
  match encode_args desk_program (module_extensible (p_module desk_program)) 9
          (response_params (mi_method (desk_method 1))) (wire_values desk_result) with
  | Some o => o | None => no_bits end.

Lemma desk_calls :
  proxy_call (H := linux64) desk_program 9 (desk_method 1) 3 [VWord 1 200] 4 ResponseDispatcher_init =
  inr (desk_call, desk_waiting).
Proof. by vm_compute. Qed.

Lemma call_returns_witness :
  pending_ desk_waiting !! sent_request_id desk_call = Some (HMethod (desk_method 1) 4) ∧
  ∃ response, respond (H := linux64) desk_program 9 (desk_method 1) 3 (sent_request_id desk_call) desk_result = inr response ∧
    sent_data response = b_data desk_result_bits ∧ sent_handles response = b_handles desk_result_bits ∧
    ∀ d1, pending_ d1 !! sent_request_id desk_call = Some (HMethod (desk_method 1) 4) →
      ∃ d2, proxy_accept (H := linux64) desk_program 9 response d1 = (inr (4%nat, desk_result), d2) ∧
        proxy_accept (H := linux64) desk_program 9 response d2 = (inl ReturnFalse, d2).
Proof.
  apply (call_returns (H := linux64) (PF := SandboxProps.linux64_ok) (2 ^ 63 - 1) desk_source ∅ desk_program desk
    (desk_method 1) 9 [VWord 1 200] desk_result_bits 9 3 3 4 ResponseDispatcher_init desk_call desk_waiting desk_result);
    [exact desk_ok|right; left|by vm_compute|by vm_compute|exact desk_calls|by vm_compute|by vm_compute|cbn; lia|cbn; lia].
Defined.

Definition desk_junk : Sent := mkSent 0 0 0 0 [16; 0; 0; 0; 1; 0; 0; 0; 1] [].

Lemma stub_is_safe_witness :
  match stub_accept (H := linux64) desk_program 3 desk 0 desk_junk with
  | inr (Calls mi vs) =>
      mi ∈ ii_methods desk ∧ m_ordinal (mi_method mi) = sent_name desk_junk ∧ length vs = length (m_params (mi_method mi))
  | inr (Replies r) => sent_name desk_junk = kRunMessageId ∧ sent_request_id r = sent_request_id desk_junk
  | inr Ignores =>
      sent_name desk_junk = kRunOrClosePipeMessageId ∨
      i_is_extensible (ii_interface desk) = true ∧ ∀ mi, mi ∈ ii_methods desk → m_ordinal (mi_method mi) ≠ sent_name desk_junk
  | inl (ReturnFalse | BadBool | NoHandle) => True
  | inl (Stuck | OutOfFuel) => False
  end.
Proof.
  apply (stub_is_safe (H := linux64) eq_refl (2 ^ 63 - 1) desk_source ∅ desk_program desk 3 0 desk_junk);
    [exact desk_ok|unfold byte_ok; cbn; repeat constructor; lia|cbn; lia|cbn; lia].
Defined.

Lemma header_never_fails_witness :
  ∃ header, GenerateCppHeader (ApplyEnableIf ∅ sample_module) (bytes "GUARD_H_") (bytes "a::b") (bytes "a.voodoom") [] no_options = inr header.
Proof.
  apply (header_never_fails (2 ^ 63 - 1) sample_source ∅ false sample_tokens sample_module);
    [exact sample_tokenizes|vm_compute; reflexivity|exact sample_parses].
Defined.

(** ** Names and numbers that are not checked *)

(** Two methods with the same explicit ordinal. *)
Definition twins_source : list Z := bytes "interface I { f@0(int32 x); g@0(int32 x); };".
Definition twins_program : Program := Eval vm_compute in program_of twins_source.
Definition twins : InterfaceIO :=
  Eval vm_compute in
  match EmitInterface (module_extensible (p_module twins_program)) ∅
          (nth 0 (mod_interfaces (p_module twins_program)) (mkInterface [] [] [] [] [] [] 0 false EnableIf_init)) with
  | inr ii => ii
  | inl _ => desk
  end.
Definition twin (n : nat) : MethodIO := nth n (ii_methods twins) (desk_method 0).

(** The parser does not compare explicit ordinals: of two methods with the same one
    every call of the second reaches the first. *)
Lemma same_ordinal_misroutes x : 0 <= x < 2 ^ 32 →
  interface_program (2 ^ 63 - 1) twins_source ∅ twins_program twins ∧
  m_name (mi_method (twin 0)) = bytes "f" ∧ m_name (mi_method (twin 1)) = bytes "g" ∧
  ∃ m d, proxy_call (H := linux64) twins_program 3 (twin 1) 0 [VWord 4 x] 0 ResponseDispatcher_init = inr (m, d) ∧
    stub_accept (H := linux64) twins_program 3 twins 0 m = inr (Calls (twin 0) [VWord 4 x]).
Proof.
  intros Hx. assert (interface_program (2 ^ 63 - 1) twins_source ∅ twins_program twins) as Hp.
  { split; [apply (compiles_ok twins_source); by vm_compute|by vm_compute| |by vm_compute]. exists ∅.
    split; [by vm_compute|]. split; [left|by vm_compute]. }
  split; [done|]. split_and!; [by vm_compute..|].
  destruct (interface_program_facts _ _ _ _ _ Hp) as (ctx & HF).
  assert (ReprArgs twins_program (module_extensible (p_module twins_program)) true (m_params (mi_method (twin 1))) [VWord 4 x]
    (raw (le_bytes 4 x) +++ no_bits)) as Hr.
  { constructor; [|constructor]. by apply R_word. }
  destruct (if_methods _ _ _ HF (twin 0) ltac:(left)) as ((_ & H0 & _)%EmitMethod_inv & _ & Hp0 & _).
  destruct (if_methods _ _ _ HF (twin 1) ltac:(right; left)) as ((_ & H1 & _)%EmitMethod_inv & _ & Hp1 & _).
  pose proof (write_emitted (H := linux64) _ _ _ _ _ _ _ _ 3 HF H1 (proj1 (params_accepted_inv _ _ Hp1)) Hr) as Hw.
  unfold proxy_call. replace (has_response _) with false by (by vm_compute). rewrite Hw by (cbn; lia).
  do 2 eexists. split; [reflexivity|]. unfold stub_accept.
  replace (find_method _ _) with (Some (twin 0)) by (by vm_compute). cbn [res_bind].
  set (m := request_message _ _ _ _).
  destruct (read_emitted (H := linux64) (PF := SandboxProps.linux64_ok) _ _ _ _ _ _ _ _ m 3 true HF H0 Hp0 Hr) as (w & Hread & _);
    [cbn; lia|cbn; lia|by exists []|by exists []|].
  replace (sent_name m =? _) with false by (by vm_compute). replace (sent_name m =? _) with false by (by vm_compute).
  by rewrite Hread.
Qed.
